(* ===== verification/_CoqProject ===== *)
-Q . S2P
Prelude.v
CodePoints.v
Net.v
Out.v
OutSpec.v
Transition.v
Marking.v
MatchEngine.v
MatchSpec.v
MatcherSpec.v
PetriNet.v
Bitmap.v
CompiledNet.v
OutputCheck.v
Context.v
Executor.v
ExecScan.v
ExecFire.v
ExecLoop.v
ExecInv.v
ExecCache.v
ExecCoherent.v
ExecFiring.v
ExecRun.v
ExecInit.v
ExecGame.v
ExecContract.v
ExecOrder.v
ExecLive.v
ExecOutcome.v
ExecHost.v
MarkingState.v
Dbm.v
DbmZone.v
Outcomes.v
StateClass.v
ClassSteps.v
ClassKeys.v
GraphExact.v
Agreement.v
FlatNet.v
PInvariant.v
Conservation.v
Elimination.v
NameMarking.v
SmtProperty.v
StubbornSets.v
GraphPaths.v
ScgVerifier.v
StubbornRuns.v
StubbornExact.v
ScgExact.v
VerifierInput.v
Replay.v
ReplayContract.v
Siphons.v
PreNet.v
PreExec.v
PreLoop.v
PreSim.v
PreFire.v
PreLand.v
PreSys.v
PreSame.v
NetRewrites.v
InFlightRuns.v
Interleaving.v
StateSpaceCache.v
SccAnalyzer.v
LivenessAnalyzer.v
SubnetRewriter.v
NetComposer.v
Subnet.v
RewriteExact.v
ComposerFacts.v
ComposeExact.v
NameFragment.v
NameGraph.v
NameExact.v
NameVerdict.v
