(* ===== verification/Prelude.v ===== *)
(** * libpetri (TypeScript): verification development

    libpetri executes and analyses coloured time Petri nets. The development models its TypeScript
    implementation, the directory [src/typescript/src/]; every path below is relative to it. This
    file is the root: after this overview it holds what the components share (JavaScript strings
    and maps, results, sorting, lemmas, tactics).

    ** The program and its model

    A host builds transitions and a net, possibly out of subnets, compiles it and runs it: an
    executor scans the transitions whose places changed, fires the ready ones in priority order,
    awaits their actions, checks what they wrote against the output specification and deposits it,
    and admits events the host injects. A second executor runs the same net as a program of
    opcodes. Beside them the analyses explore the token game on counts: a state-class graph with
    firing domains, the enumeration route of the verifier with stubborn sets, a flat net with
    vectors per outcome, conservation laws, siphons and traps, the replay of counterexamples.

    - Names: [CodePoints] is [core/internal/code-point-order.ts].
    - Nets: [Net] ([core/place.ts], [token.ts], [in.ts], [arc.ts], [timing.ts], [match-spec.ts]);
      [Out] ([core/out.ts]) with its theory [OutSpec]; [Transition] ([core/transition.ts]);
      [PetriNet] ([core/petri-net.ts], [core/internal/dead-arcs.ts]).
    - Subnets: [SubnetRewriter] ([core/internal/subnet-rewriter.ts]); [NetComposer] (the rest of
      [core/petri-net.ts], [fusion-set.ts], [internal/terminal-check.ts]); [Subnet]
      ([core/subnet-def.ts], [instance.ts], [interface.ts], [compose-bindings.ts] and [compose]).
      The theory: [RewriteExact] (a rewritten transition is an image), [ComposerFacts] (what the
      builder keeps), [ComposeExact] (instances play the body, aliases resolve).
    - Tokens: [Marking] ([runtime/marking.ts]); [MatchEngine] ([runtime/match-engine.ts]) with its
      specification [MatchSpec] and refinement [MatcherSpec]; [Context] ([core/transition-context.ts]
      and its token collectors); [OutputCheck] ([runtime/executor-support.ts]).
    - Compiled nets: [Bitmap] and [CompiledNet] ([runtime/compiled-net.ts]).
    - Executor ([runtime/bitmap-net-executor.ts]): [Executor] and [ExecLoop] hold the definitions;
      the record [exec] is the object's fields, a [phase] of [ExecLoop] is a point where the loop
      yields, and [sys_step] is one step of the loop or of the host. The theory is in the other
      [Exec*] files: [ExecScan], [ExecFire], [ExecInv], [ExecCache], [ExecCoherent], [ExecFiring],
      [ExecRun], [ExecInit] (the invariant), [ExecGame] and [ExecContract] (the token game a run
      refines), [ExecOrder], [ExecLive], [ExecOutcome], [ExecHost] (scheduling, liveness, what
      firings, completions and events do).
    - Precompiled executor: [PreNet] ([runtime/precompiled-net.ts]), [PreExec] and [PreLoop]
      ([runtime/precompiled-net-executor.ts]); the simulation of the bitmap executor is in [PreSim],
      [PreFire], [PreLand], [PreSys] and [PreSame].
    - State-class graph: [MarkingState] ([verification/marking-state.ts]); [Dbm], [DbmZone]
      ([verification/analysis/dbm.ts]); [Outcomes] ([analysis/branch-outcomes.ts]); [StateClass]
      ([analysis/state-class.ts], [environment-analysis-mode.ts], [state-class-graph.ts]) with
      [ClassSteps], [ClassKeys], [GraphExact], [GraphPaths] (exactness) and [Agreement] (the graph
      and the executor); [SccAnalyzer] and [LivenessAnalyzer] ([analysis/scc-analyzer.ts],
      [time-petri-net-analyzer.ts]); [StateSpaceCache] ([verification/state-space-cache.ts]).
    - Enumeration route: [SmtProperty] ([verification/smt-property.ts]), [ScgVerifier]
      ([scg-verifier.ts]), [StubbornSets] ([analysis/stubborn-sets.ts]) with [StubbornRuns],
      [StubbornExact] and [ScgExact]; [VerifierInput] (the first phases of [smt-verifier.ts]).
    - Net rewrites: [NetRewrites] ([verification/in-flight.ts], [terminal-places.ts], [reaping.ts]);
      [InFlightRuns] and [Interleaving] relate the rewritten net to the executor's
      firings, which start and complete separately.
    - Flat nets: [FlatNet] ([verification/encoding/] and the steps of
      [verification/z3/abstract-replayer.ts]); [PInvariant], [Conservation], [Elimination]
      ([verification/invariant/p-invariant-computer.ts], [p-invariant.ts] and the third phase of
      [smt-verifier.ts]); [Siphons] ([invariant/structural-check.ts]); [Replay] and [ReplayContract]
      (the search of [abstract-replayer.ts]).
    - Names in the analysis: [NameMarking] ([analysis/name-marking.ts]); [NameFragment]
      ([analysis/name-fragment.ts]) with the rule its roles are cases of; [NameGraph]
      ([analysis/name-state-class-graph.ts], [name-state-class.ts], [priority-semantics.ts],
      [verification/nu-scg-verifier.ts]); [NameExact] and [NameVerdict] hold the theory. Gates in
      [ClassSteps] are what lets a class of counts hold back a join whose names do not match.

    ** What the theorems show

    - The executor. Every state of a run is coherent: bitmap, flags, counters and match caches agree
      with the marking. Every step is a sequence of moves of a token game that knows nothing of
      them; the dirty scan equals a full rescan; firing takes exactly what the inputs ask for and a
      completion deposits all or nothing; events are answered once and in order; a terminal place
      ends the run; the timer and the deadlines are exact; a firing pass, fast path or
      sorted, gives each ready transition its turn in order and fires those still enabled; a parked
      run has something that can wake it, and without a throwing provider the passes that skip the
      wait are bounded. The precompiled
      executor is bisimilar to it.
    - Its parts. The marking is a queue per place and snapshots are canonical; the incremental
      matcher answers what a rebuilt index answers; the branch analysis that never enumerates equals
      the enumeration; output validation accepts exactly what one branch explains, and a transition
      that builds is never ambiguous; [build] accepts exactly the well-formed builders.
    - Composition. A net built after any composition, channel merge or fusion is well formed; an
      instance composed by a port map plays the body of its definition on the bound places, joins
      included (the body has no two transitions of one name), and an action's declared places
      resolve through any chain of rewrites.
    - The analyses. The closure of a difference-bound matrix is the tightest; a successor class
      holds exactly the timed states one firing reaches; a complete graph holds exactly the
      reachable timed states, its edges are the firings, and its construction ends. On untimed nets the enumeration answers
      exactly the property's contract over the runs, stubborn sets keep the dead markings, liveness
      and the strongly connected components are exact, and a shared cache is transparent.
    - The executor and the analyses. The split net reaches what the two-step firing reaches when a
      transition may start again while in flight, so it over-approximates the TypeScript executor,
      which never does that; its firings without such restarts reach exactly what that executor's
      rule reaches, and a trace in which [restartedTransitions] finds none ends there. A complete
      graph of the split net covers every interleaved run.
    - The flat net. It reaches exactly the states of the net with arrivals; every law the
      verifier conjoins is true of every reachable marking, whatever rounding produced it; the laws
      bound the places they cover; without overflow they are a basis of all laws; the siphon-trap
      proof is sound, and a replay confirms exactly the runs of the net.
    - Names. The canonical key of a name layer is equal exactly for layers equal up to a permutation
      of the symbols; the names of a coloured place account for its tokens; a complete name-aware
      graph holds exactly the timed states with names the net reaches, up to such permutations; the
      route's verdict is about the runs with names, a violation comes with one, and the route
      declines exactly outside its fragment and, alignment aside, when a coloured place is marked at
      the start.

    ** Bounds and fuel

    The loops of the code are structural recursion where they walk a list, and recursion with fuel
    elsewhere; a theorem says the fuel is enough: the bit scan has the 32 bits of a word, a heap
    sift its length, the multiplicity loop its cap, the construction of the graph [maxClasses + 1]
    rounds ([scg_build_terminates], [name_graph_exact] for the name-aware one), the divisor loop of
    [PInvariant] 107 rounds on safe integers ([gcd_finite]), the stubborn closure the number of
    transitions ([StubbornExact]), Tarjan's recursion the number of classes ([computeSCCs_exact]),
    the analyzer its own bounds ([liveness_exact]), the replay and the siphon search the bounds of
    the code ([replay_exact], [structural_proof_sound]). The executor's loop has no bound; it is a
    step relation and its theorems hold of every reachable state.

    ** Modelling decisions

    Counts, stamps and durations are exact integers (time in units of the reader's resolution); the
    invariant elimination alone runs on doubles with rounding, infinities and [NaN]. Strings are
    UTF-16 units, a [Map] is its entries in insertion order, an error is a constructor without its
    text. A transition is its position in the net, or in composition an object with a number; a
    [Set] of places keys on object identity, and fresh objects are numbered by a counter. Actions,
    clocks, the context provider and the event store are host code: actions are steps that write,
    sever and settle; a clock reading is an argument; events are recorded without time stamps. Host
    steps are possible at every program point of the loop, but not re-entrantly inside a cycle. A
    builder is not used after [build].

    ** What is not modelled

    The SMT routes ([verification/z3/], [smt-verifier.ts] beyond its first phases, [open-net/],
    [bounded-run.ts]) build queries for an external solver and read its answers. Of the name-aware
    route the prune by priority is modelled, its soundness is not proved: the theorems take the
    semantics without priorities, names of transitions without the separators of the keys, and
    coloured places that are not fed by the environment; a graph is built only when they start
    empty. The event store, debug
    server, archives, exporters, viewer and documentation plug-ins are recording, presentation and
    transport. Deadline polls, report texts and counters of built graphs are left out. The Java,
    Rust and Python ports are other programs. *)

From Stdlib Require String.
From Stdlib Require Export ZArith Lia Ascii.
From stdpp Require Export strings.
From stdpp Require Export base tactics option numbers sorting gmap list.


(** ** Strings *)

(** A JavaScript string is a sequence of UTF-16 code units. *)
Abbreviation jsstr := (list Z).

(** String literals: one code unit per character. *)
Definition js (s : string) : jsstr :=
  (λ c, Z.of_nat (nat_of_ascii c)) <$> String.list_ascii_of_string s.

(** The built-in [<] of JavaScript strings: lexicographic on code units. *)
Fixpoint js_ltb (a b : jsstr) : bool :=
  match a, b with
  | _, [] => false
  | [], _ :: _ => true
  | x :: a', y :: b' => if x <? y then true else if y <? x then false else js_ltb a' b'
  end%Z.

(** ** Results of fallible operations: a value or a thrown error *)

Inductive result (E A : Type) : Type :=
| Ok (a : A)
| Err (e : E).
Arguments Ok {E A} a.
Arguments Err {E A} e.

Definition res_bind {E A B} (r : result E A) (k : A → result E B) : result E B :=
  match r with Ok a => k a | Err e => Err e end.

(** The operation does not throw. *)
Definition is_ok {E A} (r : result E A) : Prop := match r with Ok _ => True | Err _ => False end.

(** [if (cond) throw e;] *)
Definition throw_if {E} (c : bool) (e : E) : result E () := if c then Err e else Ok ().

Declare Scope js_scope.
Delimit Scope js_scope with js.
Notation "'let*' x := r 'in' k" := (res_bind r (λ x, k))
  (at level 10, x pattern, r at level 200, k at level 200) : js_scope.
Notation "'do*' r ';' k" := (res_bind r (λ _, k))
  (at level 10, r at level 200, k at level 200) : js_scope.
Open Scope js_scope.

(** [for (const x of l) f(x)] where [f] may throw *)
Fixpoint res_iter {E A} (f : A → result E ()) (l : list A) : result E () :=
  match l with
  | [] => Ok ()
  | x :: l' => do* f x; res_iter f l'
  end.

(** [[...list].map(f)] of a function that may throw. *)
Section ResMap.
Context {A B E : Type}.
Variable f : A → result E B.
Fixpoint res_map (l : list A) : result E (list B) :=
  match l with
  | [] => Ok []
  | a :: l => let* b := f a in let* bs := res_map l in Ok (b :: bs)
  end.
End ResMap.

(** ** Numbers that may be [Infinity] *)

Inductive jnum := Fin (z : Z) | Infinity.

#[export] Instance jnum_eq_dec : EqDecision jnum.
Proof. solve_decision. Defined.

Definition jnum_ltb (a b : jnum) : bool :=
  match a, b with
  | Fin x, Fin y => (x <? y)%Z
  | Fin _, Infinity => true
  | Infinity, _ => false
  end.
Definition jnum_min (a b : jnum) : jnum := if jnum_ltb a b then a else b.

(** [Math.min(...l)] *)
Definition minimum (l : list Z) : jnum := foldr (λ x m, jnum_min (Fin x) m) Infinity l.

(** ** Insertion-ordered sets and maps *)

Section Collections.
Context {A V : Type} `{EqDecision A}.

(** [Set.prototype.add]: a member already present keeps its position. *)
Definition set_add (x : A) (s : list A) : list A :=
  if decide (x ∈ s) then s else s ++ [x].

(** [new Set(l)] *)
Definition set_of (l : list A) : list A := foldl (λ s x, set_add x s) [] l.

(** Adding every member of [l] to the set [s]. *)
Definition set_union (s l : list A) : list A := foldl (λ s x, set_add x s) s l.

(** [Map.prototype.get] on the entries in insertion order. *)
Fixpoint map_get (k : A) (m : list (A * V)) : option V :=
  match m with
  | [] => None
  | (k', v) :: m' => if decide (k = k') then Some v else map_get k m'
  end.

(** [Map.prototype.set]: a key already present keeps its position. *)
Fixpoint map_set (k : A) (v : V) (m : list (A * V)) : list (A * V) :=
  match m with
  | [] => [(k, v)]
  | (k', v') :: m' => if decide (k = k') then (k', v) :: m' else (k', v') :: map_set k v m'
  end.

(** [Array.prototype.findIndex] *)
Fixpoint find_index (f : A → bool) (l : list A) : option nat :=
  match l with
  | [] => None
  | x :: l' => if f x then Some 0 else S <$> find_index f l'
  end.

(** [Array.prototype.find] *)
Definition js_find (f : A → bool) (l : list A) : option A := list_find (λ x, f x) l ≫= λ p, Some p.2.

(** [Array.prototype.sort], which is stable; [le a b] when the comparator answers at most zero. *)
Fixpoint insert_by (le : A → A → bool) (x : A) (l : list A) : list A :=
  match l with
  | [] => [x]
  | y :: l' => if le x y then x :: l else y :: insert_by le x l'
  end.
Definition stable_sort (le : A → A → bool) (l : list A) : list A := foldr (insert_by le) [] l.

End Collections.

(** ** Automation *)

Create HintDb petri.

(** Case analysis on the innermost conditional of the goal or of a hypothesis. *)
Ltac case_bool :=
  match goal with
  | |- context [if ?b then _ else _] => destruct b eqn:?
  | H : context [if ?b then _ else _] |- _ => destruct b eqn:?
  end.

(** Turns boolean comparisons into propositions. *)
Ltac b2p :=
  repeat match goal with
  | H : (_ <? _)%Z = true |- _ => apply Z.ltb_lt in H
  | H : (_ <? _)%Z = false |- _ => apply Z.ltb_ge in H
  | H : (_ <=? _)%Z = true |- _ => apply Z.leb_le in H
  | H : (_ <=? _)%Z = false |- _ => apply Z.leb_gt in H
  | H : (_ =? _)%Z = true |- _ => apply Z.eqb_eq in H
  | H : (_ =? _)%Z = false |- _ => apply Z.eqb_neq in H
  | H : (_ <? _) = true |- _ => apply Nat.ltb_lt in H
  | H : (_ <? _) = false |- _ => apply Nat.ltb_ge in H
  | H : (_ <=? _) = true |- _ => apply Nat.leb_le in H
  | H : (_ <=? _) = false |- _ => apply Nat.leb_gt in H
  | H : (_ =? _) = true |- _ => apply Nat.eqb_eq in H
  | H : (_ =? _) = false |- _ => apply Nat.eqb_neq in H
  | H : _ && _ = true |- _ => apply andb_true_iff in H as [? ?]
  | H : _ || _ = false |- _ => apply orb_false_iff in H as [? ?]
  | H : negb _ = true |- _ => apply negb_true_iff in H
  | H : negb _ = false |- _ => apply negb_false_iff in H
  | H : bool_decide _ = true |- _ => apply bool_decide_eq_true in H
  | H : bool_decide _ = false |- _ => apply bool_decide_eq_false in H
  end.

(** ** Lemmas on strings *)

Lemma js_ltb_irrefl a : js_ltb a a = false.
Proof. induction a as [|x a IH]; simpl; [done|]. by rewrite Z.ltb_irrefl. Qed.

Lemma js_ltb_trans a b c : js_ltb a b = true → js_ltb b c = true → js_ltb a c = true.
Proof.
  revert b c. induction a as [|x a IH]; intros [|y b] [|z c]; simpl; try done.
  repeat case_bool; b2p; try done; intros; try lia; eauto.
Qed.

Lemma js_ltb_total a b : js_ltb a b = false → js_ltb b a = false → a = b.
Proof.
  revert b. induction a as [|x a IH]; intros [|y b]; simpl; try done.
  repeat case_bool; b2p; try done. intros. f_equal; [lia|auto].
Qed.

Lemma js_ltb_asym a b : js_ltb a b = true → js_ltb b a = false.
Proof.
  intros H. destruct (js_ltb b a) eqn:E; [|done].
  by rewrite <- (js_ltb_irrefl a), (js_ltb_trans a b a).
Qed.
#[export] Hint Resolve js_ltb_irrefl js_ltb_trans js_ltb_asym : petri.

(** The text before the first separator. *)
Lemma split_first (d : Z) (a a' b b' : jsstr) : d ∉ a → d ∉ a' → a ++ d :: b = a' ++ d :: b' → a = a' ∧ b = b'.
Proof.
  revert a'. induction a as [|x a IH]; intros [|y a'] Ha Ha' E; simpl in E.
  - injection E as ->. done.
  - injection E as -> E. destruct Ha'. left.
  - injection E as -> E. destruct Ha. left.
  - injection E as -> E. destruct (IH a') as [-> ->]; [set_solver|set_solver|done|done].
Qed.

(** The text after the last one. *)
Lemma last_split (a a' b b' : jsstr) (d : Z) : d ∉ b → d ∉ b' → a ++ d :: b = a' ++ d :: b' → a = a' ∧ b = b'.
Proof.
  revert a'. induction a as [|x a IH]; intros [|y a'] Hb Hb' E; simpl in E.
  - injection E as ->. done.
  - injection E as -> E. destruct Hb. rewrite E. apply elem_of_app. right. left.
  - injection E as <- E. destruct Hb'. rewrite <- E. apply elem_of_app. right. left.
  - injection E as -> E. destruct (IH a') as [-> ->]; done.
Qed.

(** ** Lemmas on extended numbers *)

Lemma jnum_ltb_irrefl a : jnum_ltb a a = false.
Proof. destruct a; simpl; [apply Z.ltb_irrefl|done]. Qed.

Lemma jnum_ltb_trans a b c : jnum_ltb a b = true → jnum_ltb b c = true → jnum_ltb a c = true.
Proof. destruct a, b, c; simpl; try done. intros; b2p. lia. Qed.

Lemma jnum_ltb_total a b : jnum_ltb a b = false → jnum_ltb b a = false → a = b.
Proof. destruct a, b; simpl; try done. intros; b2p. f_equal. lia. Qed.

Lemma jnum_ltb_asym a b : jnum_ltb a b = true → jnum_ltb b a = false.
Proof. destruct a, b; simpl; try done. intros; b2p. lia. Qed.

Lemma jnum_min_comm a b : jnum_min a b = jnum_min b a.
Proof.
  unfold jnum_min. destruct (jnum_ltb a b) eqn:E, (jnum_ltb b a) eqn:E'; auto using jnum_ltb_total.
  apply jnum_ltb_asym in E. congruence.
Qed.

Lemma jnum_min_Inf_r a : jnum_min a Infinity = a.
Proof. by destruct a. Qed.

Lemma jnum_min_Fin x y : jnum_min (Fin x) (Fin y) = Fin (x `min` y).
Proof. unfold jnum_min. simpl. case_bool; b2p; f_equal; lia. Qed.

Lemma jnum_min_Inf_l a : jnum_min Infinity a = a.
Proof. by destruct a. Qed.

Lemma jnum_min_assoc a b c : jnum_min a (jnum_min b c) = jnum_min (jnum_min a b) c.
Proof.
  destruct a as [x|], b as [y|], c as [z|];
    repeat first [rewrite jnum_min_Fin|rewrite jnum_min_Inf_r|rewrite jnum_min_Inf_l]; try done.
  f_equal. lia.
Qed.

Lemma minimum_app l k : minimum (l ++ k) = jnum_min (minimum l) (minimum k).
Proof. induction l as [|x l IH]; simpl; [done|]. by rewrite IH, jnum_min_assoc. Qed.

Lemma minimum_cons_Fin x l : ∃ m, minimum (x :: l) = Fin m ∧ m ∈ x :: l ∧ ∀ y, y ∈ x :: l → (m ≤ y)%Z.
Proof.
  revert x. induction l as [|y l IH]; intros x.
  - exists x. split_and!; [done|left|]. by intros y ->%list_elem_of_singleton.
  - destruct (IH y) as (m & E & Hm & Hle). change (minimum (x :: y :: l)) with (jnum_min (Fin x) (minimum (y :: l))).
    rewrite E, jnum_min_Fin. exists (x `min` m)%Z. split_and!; [done| |].
    + destruct (Z.min_spec x m) as [[_ ->]|[_ ->]]; [left|by right].
    + intros z [->|Hz]%elem_of_cons; [lia|]. specialize (Hle z Hz). lia.
Qed.

(** ** Lemmas on results *)

Lemma res_bind_ok {E A B} (r : result E A) (k : A → result E B) b :
  res_bind r k = Ok b ↔ ∃ a, r = Ok a ∧ k a = Ok b.
Proof. destruct r; simpl; naive_solver. Qed.

Lemma throw_if_ok {E} c (e : E) u : throw_if c e = Ok u ↔ c = false.
Proof. destruct c, u; simpl; naive_solver. Qed.

Lemma res_seq_ok {E B} (r : result E ()) (k : result E B) b :
  (do* r; k) = Ok b ↔ r = Ok () ∧ k = Ok b.
Proof. destruct r as [[]|]; simpl; naive_solver. Qed.

Lemma res_iter_ok {E A} (f : A → result E ()) l u :
  res_iter f l = Ok u ↔ Forall (λ x, f x = Ok ()) l.
Proof.
  destruct u. induction l as [|x l IH]; simpl; [done|].
  split.
  - intros ([] & ? & ?)%res_bind_ok. constructor; [done|by apply IH].
  - intros [? ?]%Forall_cons_1. apply res_bind_ok. exists (). split; [done|by apply IH].
Qed.

Lemma res_iter_err {E A} (f : A → result E ()) l e :
  res_iter f l = Err e → ∃ x, x ∈ l ∧ f x = Err e.
Proof.
  induction l as [|x l IH]; simpl; [done|]. destruct (f x) as [[]|e'] eqn:Ef; simpl.
  - intros (y & ? & ?)%IH. exists y. split; [by right|done].
  - intros [= ->]. exists x. split; [left|done].
Qed.

(** ** Lemmas on sets and maps *)

Section CollectionLemmas.
Context {A V : Type} `{EqDecision A}.
Implicit Types (x : A) (s l : list A) (m : list (A * V)).

Lemma elem_of_set_add x y s : x ∈ set_add y s ↔ x = y ∨ x ∈ s.
Proof. unfold set_add. case_decide; set_solver. Qed.

Lemma NoDup_set_add x s : NoDup s → NoDup (set_add x s).
Proof.
  intros. unfold set_add. case_decide; [done|].
  apply NoDup_app. split_and!; auto; [set_solver|apply NoDup_singleton].
Qed.

Lemma elem_of_set_union x s l : x ∈ set_union s l ↔ x ∈ s ∨ x ∈ l.
Proof.
  unfold set_union. revert s. induction l as [|y l IH]; intros s; simpl; [set_solver|].
  rewrite IH, elem_of_set_add. set_solver.
Qed.

Lemma NoDup_set_union s l : NoDup s → NoDup (set_union s l).
Proof.
  unfold set_union. revert s. induction l as [|y l IH]; intros s ?; simpl; [done|].
  apply IH. by apply NoDup_set_add.
Qed.

Lemma elem_of_set_of x l : x ∈ set_of l ↔ x ∈ l.
Proof. unfold set_of. change (x ∈ set_union [] l ↔ x ∈ l). rewrite elem_of_set_union. set_solver. Qed.

Lemma NoDup_set_of l : NoDup (set_of l).
Proof. apply NoDup_set_union, NoDup_nil_2. Qed.

Lemma set_union_disjoint s l :
  NoDup l → (∀ x, x ∈ l → x ∉ s) → set_union s l = s ++ l.
Proof.
  unfold set_union. revert s. induction l as [|y l IH]; intros s Hl Hd; simpl.
  - by rewrite app_nil_r.
  - apply NoDup_cons in Hl as [??].
    unfold set_add. rewrite decide_False by set_solver.
    rewrite IH; [by rewrite <- app_assoc|done|set_solver].
Qed.

Lemma set_of_NoDup l : NoDup l → set_of l = l.
Proof. intros. apply (set_union_disjoint []); [done|set_solver]. Qed.

Lemma map_get_set k k' v m :
  map_get k (map_set k' v m) = if decide (k = k') then Some v else map_get k m.
Proof.
  induction m as [|[k1 v1] m IH]; simpl; [done|].
  repeat (case_decide; simpl; subst); try done; congruence.
Qed.

Lemma map_get_elem k v m : map_get k m = Some v → (k, v) ∈ m.
Proof.
  induction m as [|[k1 v1] m IH]; simpl; [done|].
  case_decide; [intros [= ->]; subst; left|]. intros. right. auto.
Qed.

Lemma map_get_None k m : map_get k m = None ↔ k ∉ m.*1.
Proof.
  induction m as [|[k1 v1] m IH]; simpl; [set_solver|].
  case_decide; set_solver.
Qed.

Lemma elem_map_get k v m : NoDup m.*1 → (k, v) ∈ m → map_get k m = Some v.
Proof.
  induction m as [|[k1 v1] m IH]; simpl; [set_solver|].
  intros [Hn ?]%NoDup_cons [[= -> ->]|Hin]%elem_of_cons; [by rewrite decide_True|].
  rewrite decide_False; [auto|]. intros ->. apply Hn, list_elem_of_fmap. by exists (k1, v).
Qed.

Lemma map_set_keys k v m :
  (map_set k v m).*1 = if decide (k ∈ m.*1) then m.*1 else m.*1 ++ [k].
Proof.
  induction m as [|[k1 v1] m IH]; [done|]. cbn [map_set].
  destruct (decide (k = k1)) as [->|]; rewrite ?fmap_cons; simpl fst.
  - rewrite decide_True by set_solver. done.
  - rewrite IH. repeat case_decide; try done; set_solver.
Qed.

Lemma NoDup_map_set k v m : NoDup m.*1 → NoDup (map_set k v m).*1.
Proof.
  intros. rewrite map_set_keys. case_decide; [done|].
  apply NoDup_app. split_and!; auto; [set_solver|apply NoDup_singleton].
Qed.

Lemma map_set_entries k v m x y : (x, y) ∈ map_set k v m → (x = k ∧ y = v) ∨ (x, y) ∈ m.
Proof.
  induction m as [|[k1 v1] m IH]; cbn [map_set].
  - intros [= -> ->]%list_elem_of_singleton. by left.
  - case_decide; rewrite !elem_of_cons; [subst; naive_solver|]. naive_solver.
Qed.

Lemma elem_of_map_set_keys k v m x : x ∈ (map_set k v m).*1 ↔ x = k ∨ x ∈ m.*1.
Proof. rewrite map_set_keys. case_decide; set_solver. Qed.

End CollectionLemmas.

Lemma filter_ext_in {A} (P Q : A → Prop) `{∀ x, Decision (P x), ∀ x, Decision (Q x)} (l : list A) :
  (∀ x, x ∈ l → P x ↔ Q x) → filter P l = filter Q l.
Proof.
  induction l as [|x l IH]; intros HPQ; [done|]. rewrite !filter_cons, IH by (intros; apply HPQ; by right).
  destruct (HPQ x ltac:(left)). repeat case_decide; naive_solver.
Qed.

Lemma filter_none {A} (P : A → Prop) `{∀ x, Decision (P x)} (l : list A) :
  (∀ x, x ∈ l → ¬ P x) → filter P l = [].
Proof.
  induction l as [|x l IH]; intros HP; [done|]. rewrite filter_cons, decide_False by (apply HP; left).
  apply IH. intros. apply HP. by right.
Qed.

Lemma forallb_elem {A} (f : A → bool) (l : list A) : forallb f l = true ↔ ∀ x, x ∈ l → f x = true.
Proof. rewrite forallb_forall. by setoid_rewrite list_elem_of_In. Qed.

Lemma existsb_elem {A} (f : A → bool) (l : list A) : existsb f l = true ↔ ∃ x, x ∈ l ∧ f x = true.
Proof. rewrite existsb_exists. by setoid_rewrite list_elem_of_In. Qed.

(** A loop whose steps keep a property keeps it. *)
Lemma foldl_inv {A B} (P : A → Prop) (f : A → B → A) (l : list B) a :
  (∀ a b, b ∈ l → P a → P (f a b)) → P a → P (foldl f a l).
Proof.
  revert a. induction l as [|b l IH]; intros a Hf Ha; simpl; [done|].
  apply IH; [intros; apply Hf; [by right|done]|]. apply Hf; [left|done].
Qed.

(** ** The stable sort *)

Section Sort.
Context {A : Type} (le : A → A → bool).

Lemma insert_by_Permutation x l : insert_by le x l ≡ₚ x :: l.
Proof.
  induction l as [|y l IH]; simpl; [done|]. case_bool; [done|]. rewrite IH. apply Permutation_swap.
Qed.

Lemma stable_sort_Permutation l : stable_sort le l ≡ₚ l.
Proof. induction l as [|x l IH]; simpl; [done|]. by rewrite insert_by_Permutation, IH. Qed.

Hypothesis total : ∀ x y, le x y = true ∨ le y x = true.
Hypothesis trans : ∀ x y z, le x y = true → le y z = true → le x z = true.
Variable R : A → A → Prop.

(** In order by [le]; elements [le] does not tell apart keep the order of [R]. *)
Definition in_order (x y : A) : Prop := le x y = true ∧ (le y x = true → R x y).

Lemma insert_by_sorted x l :
  Forall (R x) l → StronglySorted in_order l → StronglySorted in_order (insert_by le x l).
Proof.
  induction l as [|y l IH]; intros HR Hs; simpl; [by repeat constructor|].
  apply Forall_cons in HR as [Hxy HR]. pose proof Hs as [Hs' Hy]%StronglySorted_inv. destruct (le x y) eqn:E.
  - constructor; [done|]. constructor; [by split|]. rewrite Forall_forall in *. intros z Hz.
    destruct (Hy z Hz) as [Hyz _]. split; [by eapply trans|]. intros _. by apply HR.
  - constructor; [by apply IH|]. rewrite insert_by_Permutation. constructor; [|done].
    split; [by destruct (total x y); [congruence|]|congruence].
Qed.

Lemma stable_sort_sorted l : StronglySorted R l → StronglySorted in_order (stable_sort le l).
Proof.
  induction 1 as [|x l Hl IH Hx]; simpl; [constructor|]. apply insert_by_sorted; [|done].
  by rewrite stable_sort_Permutation.
Qed.
End Sort.

#[export] Hint Resolve NoDup_set_add NoDup_set_union NoDup_set_of NoDup_map_set : petri.
