(* ===== verification/CodePoints.v ===== *)
(** * Code-point order of names

    [src/typescript/src/core/internal/code-point-order.ts]: the comparator every ordered report,
    snapshot and flat index uses. A string is its list of UTF-16 code units; the specification
    is the lexicographic order of the Unicode scalar values the string encodes. *)
From S2P Require Import Prelude.
#[local] Open Scope Z_scope.

(** ** The comparator *)

(** [HIGH_UNIT.test(s)]: some code unit lies in [\uD800-\uFFFF]. *)
Definition HIGH_UNIT (s : jsstr) : bool := existsb (λ x, (0xd800 <=? x) && (x <=? 0xffff)) s.

(** The unit loop: the first differing pair decides, after the ICU fix-up. *)
Fixpoint compareUnits (a b : jsstr) : Z :=
  match a, b with
  | x :: a', y :: b' =>
      if negb (x =? y) then
        if (0xd800 <=? x) && (0xd800 <=? y) then
          (x + (if 0xe000 <=? x then -0x800 else 0x2000)) - (y + (if 0xe000 <=? y then -0x800 else 0x2000))
        else x - y
      else compareUnits a' b'
  | _, _ => Z.of_nat (length a) - Z.of_nat (length b)
  end.

Definition compareCodePoints (a b : jsstr) : Z :=
  if negb (HIGH_UNIT a) || negb (HIGH_UNIT b) then
    if js_ltb a b then -1 else if js_ltb b a then 1 else 0
  else compareUnits a b.

(** The order a sort by this comparator uses. *)
Definition code_point_le (a b : jsstr) : Prop := compareCodePoints a b <= 0.
#[export] Instance code_point_le_dec : RelDecision code_point_le := λ a b, Z_le_dec _ _.

(** ** Specification *)

(** A 16-bit unit, and a Unicode scalar value. *)
Definition unit16 (x : Z) : Prop := 0 <= x <= 0xffff.
#[export] Instance unit16_dec x : Decision (unit16 x).
Proof. unfold unit16. apply _. Defined.
Definition scalar (c : Z) : Prop := 0 <= c < 0xd800 \/ 0xe000 <= c <= 0x10ffff.

(** The UTF-16 encoding of one scalar value and of a text. *)
Definition utf16_char (c : Z) : jsstr :=
  if c <? 0x10000 then [c]
  else [0xd800 + (c - 0x10000) / 1024; 0xdc00 + (c - 0x10000) mod 1024].
Definition utf16 (cs : list Z) : jsstr := mjoin (utf16_char <$> cs).

(** Lexicographic order of integer lists, as -1, 0 or 1. *)
Fixpoint lex_sgn (a b : list Z) : Z :=
  match a, b with
  | [], [] => 0
  | [], _ :: _ => -1
  | _ :: _, [] => 1
  | x :: a', y :: b' => if x =? y then lex_sgn a' b' else Z.sgn (x - y)
  end.

(** The position of a code unit in code-point order. *)
Definition unit_rank (x : Z) : Z :=
  if x <? 0xd800 then x else if 0xe000 <=? x then x - 0x800 else x + 0x2000.

(** ** Lemmas *)

Lemma unit_rank_inj x y : unit16 x → unit16 y → unit_rank x = unit_rank y → x = y.
Proof. unfold unit_rank, unit16. repeat case_bool; b2p; lia. Qed.

Lemma unit_rank_lt x y : unit16 x → unit16 y →
  0 < x - y → 0xd800 <= x → y < 0xd800 → unit_rank y < unit_rank x.
Proof. unfold unit_rank, unit16. repeat case_bool; b2p; lia. Qed.

Lemma lex_sgn_refl a : lex_sgn a a = 0.
Proof. induction a; simpl; [done|]. by rewrite Z.eqb_refl. Qed.

Lemma lex_sgn_antisym a b : lex_sgn b a = - lex_sgn a b.
Proof.
  revert b. induction a as [|x a IH]; intros [|y b]; simpl; try done.
  rewrite Z.eqb_sym. case_bool; [auto|]. b2p. lia.
Qed.

Lemma lex_sgn_eq a b : lex_sgn a b = 0 → a = b.
Proof.
  revert b. induction a as [|x a IH]; intros [|y b]; simpl; try done.
  case_bool; b2p; [intros; f_equal; auto|lia].
Qed.

Lemma lex_sgn_trans a b c : lex_sgn a b <= 0 → lex_sgn b c <= 0 → lex_sgn a c <= 0.
Proof.
  revert b c. induction a as [|x a IH]; intros [|y b] [|z c]; simpl; try (lia || done).
  repeat case_bool; b2p; subst; intros; try lia; eauto.
Qed.

Lemma lex_sgn_app p a b : lex_sgn (p ++ a) (p ++ b) = lex_sgn a b.
Proof. induction p; simpl; [done|]. by rewrite Z.eqb_refl. Qed.

Lemma compareUnits_lex a b : Forall unit16 a → Forall unit16 b →
  Z.sgn (compareUnits a b) = lex_sgn (unit_rank <$> a) (unit_rank <$> b).
Proof.
  intros Ha. revert b. induction Ha as [|x a Hx Ha IH]; intros b Hb; destruct Hb as [|y b Hy Hb];
    simpl; try done.
  destruct (x =? y) eqn:E; simpl; b2p.
  - subst. by rewrite Z.eqb_refl, IH.
  - destruct (unit_rank x =? unit_rank y) eqn:E'; b2p; [by apply unit_rank_inj in E'|].
    unfold unit_rank, unit16 in *. repeat case_bool; b2p; lia.
Qed.

Lemma HIGH_UNIT_false s : Forall unit16 s → HIGH_UNIT s = false → Forall (λ x, x < 0xd800) s.
Proof.
  unfold HIGH_UNIT. induction 1 as [|x s Hx Hs IH]; simpl; [done|].
  intros [H1 H2]%orb_false_iff. constructor; [|auto].
  apply andb_false_iff in H1 as [H1|H1]; b2p; unfold unit16 in *; lia.
Qed.

(** Native order and rank order agree when one side has no high unit. *)
Lemma js_ltb_rank a b : Forall unit16 a → Forall unit16 b →
  Forall (λ x, x < 0xd800) a ∨ Forall (λ x, x < 0xd800) b →
  js_ltb a b = (lex_sgn (unit_rank <$> a) (unit_rank <$> b) =? -1).
Proof.
  intros Ha. revert b. induction Ha as [|x a Hx Ha IH]; intros b Hb Hl; destruct Hb as [|y b Hy Hb];
    simpl; try done.
  assert (x < 0xd800 ∨ y < 0xd800) as Hxy.
  { destruct Hl as [Hl|Hl]; apply Forall_cons_1 in Hl as [? ?]; auto. }
  destruct (unit_rank x =? unit_rank y) eqn:E; b2p.
  - apply unit_rank_inj in E; [|done..]. subst. rewrite Z.ltb_irrefl.
    apply IH; [done|]. destruct Hl as [Hl|Hl]; apply Forall_cons_1 in Hl as [? ?]; auto.
  - unfold unit_rank, unit16 in *. repeat case_bool; b2p; lia.
Qed.

Lemma compareCodePoints_lex a b : Forall unit16 a → Forall unit16 b →
  Z.sgn (compareCodePoints a b) = lex_sgn (unit_rank <$> a) (unit_rank <$> b).
Proof.
  intros Ha Hb. unfold compareCodePoints. case_bool; [|by apply compareUnits_lex].
  assert (Forall (λ x, x < 0xd800) a ∨ Forall (λ x, x < 0xd800) b) as Hl.
  { apply orb_true_iff in Heqb0 as [H|H]; apply negb_true_iff, HIGH_UNIT_false in H; auto. }
  rewrite (js_ltb_rank a b), (js_ltb_rank b a) by tauto.
  rewrite (lex_sgn_antisym (unit_rank <$> a) (unit_rank <$> b)).
  assert (∀ u v, -1 <= lex_sgn u v <= 1) as Hr.
  { induction u; intros [|??]; simpl; try lia. case_bool; [auto|lia]. }
  specialize (Hr (unit_rank <$> a) (unit_rank <$> b)).
  repeat case_bool; b2p; lia.
Qed.

Lemma utf16_char_units c : scalar c → Forall unit16 (utf16_char c).
Proof.
  intros Hc. unfold utf16_char, scalar, unit16 in *.
  pose proof (Z.mod_pos_bound (c - 0x10000) 1024).
  case_bool; b2p; repeat constructor; try lia.
  all: apply Z.le_trans with (0xd800 + 1023); [|lia] || idtac.
  all: try (assert (0 <= (c - 0x10000) / 1024 <= 1023); [|lia]; split;
    [apply Z.div_pos; lia|apply Z.lt_succ_r; apply Z.div_lt_upper_bound; lia]).
Qed.

Lemma utf16_units cs : Forall scalar cs → Forall unit16 (utf16 cs).
Proof.
  unfold utf16. induction 1; simpl; [done|].
  apply Forall_app. split; [by apply utf16_char_units|done].
Qed.

(** Two different scalar values are ordered by the ranks of their encodings, whatever follows. *)
Lemma utf16_char_lex c d a b : scalar c → scalar d → c ≠ d →
  lex_sgn (unit_rank <$> utf16_char c ++ a) (unit_rank <$> utf16_char d ++ b) = Z.sgn (c - d).
Proof.
  intros Hc Hd Hne. unfold utf16_char, scalar in *.
  pose proof (Z.div_mod (c - 0x10000) 1024). pose proof (Z.div_mod (d - 0x10000) 1024).
  pose proof (Z.mod_pos_bound (c - 0x10000) 1024). pose proof (Z.mod_pos_bound (d - 0x10000) 1024).
  assert (0 <= c - 0x10000 → 0 <= (c - 0x10000) / 1024 <= 1023).
  { intros. split; [apply Z.div_pos; lia|apply Z.lt_succ_r; apply Z.div_lt_upper_bound; lia]. }
  assert (0 <= d - 0x10000 → 0 <= (d - 0x10000) / 1024 <= 1023).
  { intros. split; [apply Z.div_pos; lia|apply Z.lt_succ_r; apply Z.div_lt_upper_bound; lia]. }
  destruct (c <? 0x10000) eqn:E1, (d <? 0x10000) eqn:E2; b2p; simpl;
    unfold unit_rank; repeat case_bool; b2p; try lia.
Qed.

(** ** Order properties, for every string of 16-bit units *)

Lemma code_point_le_rank a b : Forall unit16 a → Forall unit16 b →
  code_point_le a b ↔ lex_sgn (unit_rank <$> a) (unit_rank <$> b) <= 0.
Proof. intros. rewrite <- compareCodePoints_lex by done. unfold code_point_le. lia. Qed.

Lemma code_point_le_total a b : Forall unit16 a → Forall unit16 b →
  code_point_le a b ∨ code_point_le b a.
Proof.
  intros. rewrite !code_point_le_rank by done.
  pose proof (lex_sgn_antisym (unit_rank <$> a) (unit_rank <$> b)). lia.
Qed.

Lemma code_point_le_trans a b c : Forall unit16 a → Forall unit16 b → Forall unit16 c →
  code_point_le a b → code_point_le b c → code_point_le a c.
Proof. intros ???. rewrite !code_point_le_rank by done. apply lex_sgn_trans. Qed.

Lemma rank_fmap_inj a b : Forall unit16 a → Forall unit16 b →
  unit_rank <$> a = unit_rank <$> b → a = b.
Proof.
  intros Ha. revert b. induction Ha; intros [|y b] Hb; simpl; try done.
  apply Forall_cons_1 in Hb as [??]. intros [= E1 E2]. apply unit_rank_inj in E1; [|done..].
  f_equal; auto.
Qed.

Lemma code_point_le_antisym a b : Forall unit16 a → Forall unit16 b →
  code_point_le a b → code_point_le b a → a = b.
Proof.
  intros Ha Hb. rewrite !code_point_le_rank by done.
  rewrite (lex_sgn_antisym (unit_rank <$> a)). intros.
  apply rank_fmap_inj, lex_sgn_eq; [done..|lia].
Qed.
#[export] Hint Resolve code_point_le_total code_point_le_trans code_point_le_antisym : petri.

(** ** Sorting names *)

(** [names.sort(compareCodePoints)]: a stable sort. *)
Definition sortNames (names : list jsstr) : list jsstr := merge_sort code_point_le names.

(** [unit_rank] as a permutation of all integers, so that the order it induces is total. *)
Definition rank (x : Z) : Z := if (0 <=? x) && (x <=? 0xffff) then unit_rank x else x.
Definition rank_le (a b : jsstr) : Prop := lex_sgn (rank <$> a) (rank <$> b) <= 0.
#[export] Instance rank_le_dec : RelDecision rank_le := λ a b, Z_le_dec _ _.

Lemma rank_inj x y : rank x = rank y → x = y.
Proof. unfold rank, unit_rank. repeat case_bool; b2p; try lia; apply andb_false_iff in Heqb as [?|?] || idtac; b2p; try lia. Qed.

Lemma rank_unit16 a : Forall unit16 a → rank <$> a = unit_rank <$> a.
Proof.
  intros H. apply list_fmap_ext. intros i x Hx. rewrite Forall_lookup in H. specialize (H i x Hx).
  unfold rank, unit16 in *. rewrite (proj2 (andb_true_iff _ _)); [done|]. lia.
Qed.

Lemma rank_le_code_point_le a b : Forall unit16 a → Forall unit16 b → rank_le a b ↔ code_point_le a b.
Proof. intros. unfold rank_le. rewrite code_point_le_rank by done. by rewrite !rank_unit16. Qed.

#[export] Instance rank_le_trans : Transitive rank_le.
Proof. intros a b c. apply lex_sgn_trans. Qed.
#[export] Instance rank_le_total : Total rank_le.
Proof. intros a b. unfold rank_le. rewrite (lex_sgn_antisym (rank <$> a)). lia. Qed.
#[export] Instance rank_le_antisym : AntiSymm eq rank_le.
Proof.
  intros a b. unfold rank_le. rewrite (lex_sgn_antisym (rank <$> a)). intros.
  assert (rank <$> a = rank <$> b) as E by (apply lex_sgn_eq; lia).
  revert b E H H0. clear. induction a as [|x a IH]; intros [|y b]; try done.
  rewrite !fmap_cons. intros [= E1%rank_inj E2] _ _. subst. f_equal.
  apply IH; [done|rewrite E2, lex_sgn_refl; lia..].
Qed.

Section MergeSortExt.
Context {A : Type} (R R' : relation A) `{∀ x y, Decision (R x y), ∀ x y, Decision (R' x y)}.
Variable P : A → Prop.
Hypothesis agree : ∀ x y, P x → P y → R x y ↔ R' x y.

Lemma list_merge_ext l1 l2 : Forall P l1 → Forall P l2 → list_merge R l1 l2 = list_merge R' l1 l2.
Proof using agree.
  intros H1. revert l2. induction H1 as [|x l1 Hx H1 IH1]; intros l2 H2; [by destruct l2|].
  induction H2 as [|y l2 Hy H2 IH2]; [done|]. simpl.
  destruct (decide (R x y)) as [HR|HR], (decide (R' x y)) as [HR'|HR'];
    rewrite agree in HR by done; try done.
  - f_equal. apply IH1. by constructor.
  - f_equal. exact IH2.
Qed.

Lemma Forall_list_merge l1 l2 : Forall P l1 → Forall P l2 → Forall P (list_merge R l1 l2).
Proof. intros. rewrite merge_Permutation. by apply Forall_app. Qed.

Definition stack_ok (st : list (option (list A))) : Prop := Forall (from_option (Forall P) True) st.

Lemma merge_list_to_stack_ext st l : stack_ok st → Forall P l →
  merge_list_to_stack R st l = merge_list_to_stack R' st l ∧ stack_ok (merge_list_to_stack R st l).
Proof using agree.
  intros Hst. revert l. induction Hst as [|[l'|] st Hl' Hst IH]; intros l Hl; simpl.
  - split; [done|]. by repeat constructor.
  - rewrite <- (list_merge_ext l' l) by done.
    destruct (IH (list_merge R l' l)) as [-> ?]; [by apply Forall_list_merge|].
    split; [done|]. by constructor.
  - split; [done|]. by constructor.
Qed.

Lemma merge_stack_ext st : stack_ok st →
  merge_stack R st = merge_stack R' st ∧ Forall P (merge_stack R st).
Proof using agree.
  induction 1 as [|[l|] st Hl Hst [IH1 IH2]]; simpl; [done| |done].
  rewrite <- IH1. split; [by apply list_merge_ext|by apply Forall_list_merge].
Qed.

Lemma merge_sort_ext l : Forall P l → merge_sort R l = merge_sort R' l.
Proof using agree.
  unfold merge_sort. intros Hl.
  assert (∀ st, stack_ok st → merge_sort_aux R st l = merge_sort_aux R' st l) as H'; [|apply H'; constructor].
  induction Hl as [|x l Hx Hl IH]; intros st Hst; simpl.
  - by apply merge_stack_ext.
  - destruct (merge_list_to_stack_ext st [x]) as [<- ?]; [done|by repeat constructor|auto].
Qed.
End MergeSortExt.

Lemma sortNames_rank names : Forall (Forall unit16) names → sortNames names = merge_sort rank_le names.
Proof.
  apply merge_sort_ext. intros a b Ha Hb. by rewrite rank_le_code_point_le.
Qed.

Lemma sortNames_Permutation names : sortNames names ≡ₚ names.
Proof. apply merge_sort_Permutation. Qed.

Lemma sortNames_sorted names : Forall (Forall unit16) names → StronglySorted code_point_le (sortNames names).
Proof.
  intros H. assert (StronglySorted rank_le (sortNames names)) as Hs.
  { rewrite sortNames_rank by done. apply (StronglySorted_merge_sort _). }
  assert (Forall (Forall unit16) (sortNames names)) as Hf by (by rewrite sortNames_Permutation).
  induction Hs as [|x l Hs IH Hx]; [constructor|]. apply Forall_cons in Hf as [Hxu Hf].
  constructor; [auto|]. rewrite Forall_forall in *. intros y Hy. apply rank_le_code_point_le; auto.
Qed.

(** The sorted list depends only on the set of names. *)
Lemma sortNames_canonical names names' :
  Forall (Forall unit16) names → names ≡ₚ names' → sortNames names = sortNames names'.
Proof.
  intros H Hp. rewrite !sortNames_rank by (try rewrite <- Hp; done).
  apply (StronglySorted_unique rank_le).
  - apply (StronglySorted_merge_sort _).
  - apply (StronglySorted_merge_sort _).
  - by rewrite !merge_sort_Permutation.
Qed.

(** ** Properties *)

(** On well-formed UTF-16 text the comparator orders exactly as the code points do:
    the sign of [compareCodePoints] is the lexicographic order of the encoded scalar values,
    on the native fast path and on the unit loop alike. *)
Theorem compareCodePoints_code_point_order (c d : list Z) :
  Forall scalar c → Forall scalar d →
  Z.sgn (compareCodePoints (utf16 c) (utf16 d)) = lex_sgn c d.
Proof.
  intros Hc Hd. rewrite compareCodePoints_lex by (by apply utf16_units).
  revert d Hd. induction Hc as [|x c Hx Hc IH]; intros d Hd; destruct Hd as [|y d Hy Hd]; simpl; try done.
  - change (utf16 (y :: d)) with (utf16_char y ++ utf16 d). unfold utf16_char.
    by destruct (y <? 0x10000).
  - change (utf16 (x :: c)) with (utf16_char x ++ utf16 c). unfold utf16_char.
    by destruct (x <? 0x10000).
  - change (utf16 (x :: c)) with (utf16_char x ++ utf16 c).
    change (utf16 (y :: d)) with (utf16_char y ++ utf16 d).
    case_bool; b2p.
    + subst. rewrite !fmap_app, lex_sgn_app. by apply IH.
    + rewrite utf16_char_lex by done. done.
Qed.

(** U+FFFF sorts before U+10000 although its unit is the larger one. *)
Lemma compareCodePoints_code_point_order_witness :
  js_ltb (utf16 [0x10000]) (utf16 [0xffff]) = true ∧
  Z.sgn (compareCodePoints (utf16 [0xffff]) (utf16 [0x10000])) = -1.
Proof.
  split; [reflexivity|].
  rewrite (compareCodePoints_code_point_order [0xffff] [0x10000]);
    [reflexivity|repeat constructor; unfold scalar; lia..].
Defined.
