(* ===== verification/Net.v ===== *)
(** * Places, tokens, input specifications, arcs, timings and match specifications

    [src/typescript/src/core/]: [place.ts], [token.ts], [in.ts], [arc.ts], [timing.ts],
    [match-spec.ts]. Numbers are exact integers (milliseconds, counts). *)
From S2P Require Import Prelude.
#[local] Open Scope Z_scope.

(** ** Places *)

(** A place object: its identity ([===] of JavaScript) and its name. Almost everything keys on
    [place_name]; a [Set] of places keys on the object. *)
Record place := Place { place_ref : nat; place_name : jsstr }.

#[export] Instance place_eq_dec : EqDecision place.
Proof. solve_decision. Defined.

(** [place(name)]; the identity is chosen by the caller. *)
Definition mk_place (r : nat) (name : jsstr) : place := Place r name.

(** ** Tokens *)

Section Token.
Variable V : Type.

(** A token; the value is [None] for JavaScript's [null] and [undefined]. *)
Record token := Token { tok_value : option V; createdAt : Z }.

Definition tokenAt (v : option V) (at_ms : Z) : token := Token v at_ms.

(** The cached unit token. *)
Definition UNIT_TOKEN : token := Token None 0.
Definition unitToken : token := UNIT_TOKEN.
End Token.
Arguments Token {V}. Arguments tok_value {V}. Arguments createdAt {V}.
Arguments tokenAt {V}. Arguments UNIT_TOKEN {V}. Arguments unitToken {V}.

#[export] Instance token_eq_dec {V} `{EqDecision V} : EqDecision (token V).
Proof. solve_decision. Defined.

(** ** Input specifications *)

Inductive in_spec :=
| InOne (p : place)
| InExactly (p : place) (count : Z)
| InAll (p : place)
| InAtLeast (p : place) (minimum : Z).

#[export] Instance in_spec_eq_dec : EqDecision in_spec.
Proof. solve_decision. Defined.

Definition in_place (s : in_spec) : place :=
  match s with InOne p | InExactly p _ | InAll p | InAtLeast p _ => p end.

Inductive in_error :=
| CountBelowOne (got : Z)
| MinimumBelowOne (got : Z)
| CannotConsume (place : jsstr) (available required : Z).

Definition one (p : place) : in_spec := InOne p.
Definition exactly (count : Z) (p : place) : result in_error in_spec :=
  if count <? 1 then Err (CountBelowOne count) else Ok (InExactly p count).
Definition all (p : place) : in_spec := InAll p.
Definition atLeast (minimum : Z) (p : place) : result in_error in_spec :=
  if minimum <? 1 then Err (MinimumBelowOne minimum) else Ok (InAtLeast p minimum).

Definition requiredCount (s : in_spec) : Z :=
  match s with
  | InOne _ => 1
  | InExactly _ n => n
  | InAll _ => 1
  | InAtLeast _ m => m
  end.

Definition consumptionCount (s : in_spec) (available : Z) : result in_error Z :=
  if available <? requiredCount s
  then Err (CannotConsume (place_name (in_place s)) available (requiredCount s))
  else match s with
       | InOne _ => Ok 1
       | InExactly _ n => Ok n
       | InAll _ => Ok available
       | InAtLeast _ _ => Ok available
       end.

(** ** Arcs *)

Inductive arc :=
| ArcInput (p : place)
| ArcOutput (p : place)
| ArcInhibitor (p : place)
| ArcRead (p : place)
| ArcReset (p : place).

Definition arcPlace (a : arc) : place :=
  match a with ArcInput p | ArcOutput p | ArcInhibitor p | ArcRead p | ArcReset p => p end.

(** ** Timings *)

Inductive timing :=
| TimingImmediate
| TimingDeadline (byMs : Z)
| TimingDelayed (afterMs : Z)
| TimingWindow (earliestMs latestMs : Z)
| TimingExact (atMs : Z).

#[export] Instance timing_eq_dec : EqDecision timing.
Proof. solve_decision. Defined.

Definition MAX_DURATION_MS : Z := 365 * 100 * 24 * 60 * 60 * 1000.

Inductive timing_error :=
| DeadlineNotPositive (got : Z)
| DelayNegative (got : Z)
| DelayTooLong (got : Z)
| EarliestNegative (got : Z)
| EarliestTooLong (got : Z)
| LatestBeforeEarliest (latest earliest : Z)
| ExactNegative (got : Z)
| ExactTooLong (got : Z).

Definition immediate : timing := TimingImmediate.

Definition deadline (byMs : Z) : result timing_error timing :=
  if byMs <=? 0 then Err (DeadlineNotPositive byMs) else Ok (TimingDeadline byMs).

Definition delayed (afterMs : Z) : result timing_error timing :=
  do* throw_if (afterMs <? 0) (DelayNegative afterMs);
  do* throw_if (MAX_DURATION_MS <? afterMs) (DelayTooLong afterMs);
  Ok (TimingDelayed afterMs).

Definition window (earliestMs latestMs : Z) : result timing_error timing :=
  do* throw_if (earliestMs <? 0) (EarliestNegative earliestMs);
  do* throw_if (MAX_DURATION_MS <? earliestMs) (EarliestTooLong earliestMs);
  do* throw_if (latestMs <? earliestMs) (LatestBeforeEarliest latestMs earliestMs);
  Ok (TimingWindow earliestMs latestMs).

Definition exact_at (atMs : Z) : result timing_error timing :=
  do* throw_if (atMs <? 0) (ExactNegative atMs);
  do* throw_if (MAX_DURATION_MS <? atMs) (ExactTooLong atMs);
  Ok (TimingExact atMs).

Definition earliest (t : timing) : Z :=
  match t with
  | TimingImmediate => 0
  | TimingDeadline _ => 0
  | TimingDelayed d => d
  | TimingWindow e _ => e
  | TimingExact a => a
  end.

Definition latest (t : timing) : Z :=
  match t with
  | TimingImmediate => MAX_DURATION_MS
  | TimingDeadline d => d
  | TimingDelayed _ => MAX_DURATION_MS
  | TimingWindow _ l => l
  | TimingExact a => a
  end.

Definition hasDeadline (t : timing) : bool :=
  match t with
  | TimingImmediate => false
  | TimingDeadline _ => true
  | TimingDelayed _ => false
  | TimingWindow _ _ => true
  | TimingExact _ => true
  end.

(** ** Match specifications *)

(** A ν-name is a branded string. *)
Abbreviation name_id := jsstr.

Section Match.
Variable V : Type.

(** A key function projects a token value to its name; [None] is a nullish result. *)
Definition key_fn : Type := option V → option name_id.

Record match_key := MatchKey { mk_place_of : place; mk_key : key_fn }.

(** The arguments of [matchSpec]: a correlated input or, tagged, a relay target. *)
Inductive match_entry :=
| EntryKey (k : match_key)
| EntryRelay (k : match_key).

Record match_spec := MatchSpec { ms_keys : list match_key; ms_relays : list match_key }.

Inductive match_error :=
| TooFewKeys (got : nat)
| DuplicateKey (place : jsstr).

Definition key_name (k : match_key) : jsstr := place_name (mk_place_of k).

(** The [seen] loop shared by the duplicate scans: the first name met twice. *)
Fixpoint first_repeat (seen : list jsstr) (names : list jsstr) : option jsstr :=
  match names with
  | [] => None
  | n :: rest => if decide (n ∈ seen) then Some n else first_repeat (set_add n seen) rest
  end.

Definition duplicateKey (keys : list match_key) : option jsstr :=
  first_repeat [] (key_name <$> keys).

Definition matchSpec (entries : list match_entry) : result match_error match_spec :=
  let keys := omap (λ e, match e with EntryKey k => Some k | EntryRelay _ => None end) entries in
  let relays := omap (λ e, match e with EntryRelay k => Some k | EntryKey _ => None end) entries in
  do* throw_if (bool_decide (length keys < 2)%nat) (TooFewKeys (length keys));
  match duplicateKey keys with
  | Some dup => Err (DuplicateKey dup)
  | None => Ok (MatchSpec keys relays)
  end.

Fixpoint lookup_key (keys : list match_key) (name : jsstr) : option key_fn :=
  match keys with
  | [] => None
  | k :: rest => if decide (key_name k = name) then Some (mk_key k) else lookup_key rest name
  end.

Definition relayKeyForPlace (spec : match_spec) (name : jsstr) : option key_fn :=
  lookup_key (ms_relays spec) name.
Definition keyForPlace (spec : match_spec) (name : jsstr) : option key_fn :=
  lookup_key (ms_keys spec) name.
Definition matchCorrelates (spec : match_spec) (name : jsstr) : bool :=
  existsb (λ k, bool_decide (key_name k = name)) (ms_keys spec).
End Match.
Arguments MatchKey {V}. Arguments mk_place_of {V}. Arguments mk_key {V}.
Arguments MatchSpec {V}. Arguments ms_keys {V}. Arguments ms_relays {V}. Arguments key_name {V}.
Arguments duplicateKey {V}. Arguments matchSpec {V}. Arguments lookup_key {V}.
Arguments keyForPlace {V}. Arguments relayKeyForPlace {V}. Arguments matchCorrelates {V}.
Arguments EntryKey {V}. Arguments EntryRelay {V}.

(** ** Lemmas *)

Lemma first_repeat_None seen names :
  first_repeat seen names = None ↔ NoDup names ∧ ∀ x, x ∈ names → x ∉ seen.
Proof.
  revert seen. induction names as [|n names IH]; intros seen; simpl.
  - split; [|done]. intros _. split; [constructor|set_solver].
  - case_decide; [set_solver|]. rewrite IH, NoDup_cons.
    setoid_rewrite elem_of_set_add. set_solver.
Qed.

Lemma first_repeat_Some seen names x :
  first_repeat seen names = Some x → x ∈ names ∧ (x ∈ seen ∨ ¬ NoDup names).
Proof.
  revert seen. induction names as [|n names IH]; intros seen; simpl; [done|].
  case_decide; [naive_solver set_solver|].
  intros [Hin Hx]%IH. split; [set_solver|].
  rewrite elem_of_set_add, NoDup_cons in *. naive_solver.
Qed.

(** A timing a factory of [timing.ts] can have produced. *)
Definition timing_ok (t : timing) : Prop :=
  match t with
  | TimingImmediate => True
  | TimingDeadline d => 0 < d
  | TimingDelayed d => 0 <= d <= MAX_DURATION_MS
  | TimingWindow e l => 0 <= e <= MAX_DURATION_MS ∧ e <= l
  | TimingExact a => 0 <= a <= MAX_DURATION_MS
  end.

(** Re-running the factory of a timing, as the transition builder does. *)
Definition recheck_timing (t : timing) : result timing_error timing :=
  match t with
  | TimingImmediate => Ok TimingImmediate
  | TimingDeadline d => deadline d
  | TimingDelayed d => delayed d
  | TimingWindow e l => window e l
  | TimingExact a => exact_at a
  end.

Lemma recheck_timing_ok t t' : recheck_timing t = Ok t' ↔ t' = t ∧ timing_ok t.
Proof.
  destruct t; simpl; unfold deadline, delayed, window, exact_at, throw_if;
    repeat (case_bool; simpl); b2p; naive_solver lia.
Qed.

Lemma earliest_le_latest t : timing_ok t → 0 <= earliest t <= latest t.
Proof. destruct t; simpl; unfold MAX_DURATION_MS; lia. Qed.
#[export] Hint Resolve earliest_le_latest : petri.
