(* ===== verification/Out.v ===== *)
(** * Output specifications

    [src/typescript/src/core/out.ts]: the AND/XOR output tree, its branches, the build-time
    checks IO-011 to IO-014 and the branch analysis that decides ambiguity without enumerating
    the branches. Branch indices are [bigint]s, modelled by [Z]. The memo tables of
    [BranchAnalysis] only cache pure results and are not modelled; a generator is the list of
    the values it yields. *)
From S2P Require Import Prelude.
From S2P Require Import Net.
#[local] Open Scope Z_scope.

Inductive out :=
| OutAnd (children : list out)
| OutXor (children : list out)
| OutPlace (p : place)
| OutTimeout (afterMs : Z) (child : out)
| OutForwardInput (from to : place).

(** Induction through the children lists. *)
Section OutInd.
Variable P : out → Prop.
Hypothesis HAnd : ∀ cs, Forall P cs → P (OutAnd cs).
Hypothesis HXor : ∀ cs, Forall P cs → P (OutXor cs).
Hypothesis HPlace : ∀ p, P (OutPlace p).
Hypothesis HTimeout : ∀ ms c, P c → P (OutTimeout ms c).
Hypothesis HForward : ∀ f t, P (OutForwardInput f t).

Fixpoint out_ind' (o : out) : P o :=
  let go := fix go (cs : list out) : Forall P cs :=
    match cs with
    | [] => List.Forall_nil P
    | c :: cs' => List.Forall_cons P c cs' (out_ind' c) (go cs')
    end in
  match o with
  | OutAnd cs => HAnd cs (go cs)
  | OutXor cs => HXor cs (go cs)
  | OutPlace p => HPlace p
  | OutTimeout ms c => HTimeout ms c (out_ind' c)
  | OutForwardInput f t => HForward f t
  end.
End OutInd.

(** ** Factories *)

Inductive out_error :=
| AndNeedsChild
| XorNeedsTwoChildren
| TimeoutNotPositive (got : Z).

Definition and_ (children : list out) : result out_error out :=
  if bool_decide (length children = 0)%nat then Err AndNeedsChild else Ok (OutAnd children).
Definition xor_ (children : list out) : result out_error out :=
  if bool_decide (length children < 2)%nat then Err XorNeedsTwoChildren else Ok (OutXor children).
Definition outPlace (p : place) : out := OutPlace p.
Definition andPlaces (places : list place) : result out_error out := and_ (outPlace <$> places).
Definition xorPlaces (places : list place) : result out_error out := xor_ (outPlace <$> places).
Definition timeout_ (afterMs : Z) (child : out) : result out_error out :=
  if afterMs <=? 0 then Err (TimeoutNotPositive afterMs) else Ok (OutTimeout afterMs child).
Definition timeoutPlace (afterMs : Z) (p : place) : result out_error out := timeout_ afterMs (outPlace p).
Definition forwardInput (from to : place) : out := OutForwardInput from to.

(** ** Walks *)

Fixpoint collectPlaces (o : out) (acc : list place) : list place :=
  match o with
  | OutPlace p => set_add p acc
  | OutForwardInput _ t => set_add t acc
  | OutAnd cs | OutXor cs => foldl (λ s c, collectPlaces c s) acc cs
  | OutTimeout _ c => collectPlaces c acc
  end.
Definition allPlaces (o : out) : list place := collectPlaces o [].

Record branch_duplicate := BranchDuplicate {
  bd_name : jsstr; bd_first : place; bd_second : place }.

(** Adds the leaves of one child to those of the children before it; under an [and] a name met
    before is the duplicate reported. *)
Fixpoint merge_leaves (is_and : bool) (found leaves : list (jsstr * place))
    : result branch_duplicate (list (jsstr * place)) :=
  match found with
  | [] => Ok leaves
  | (name, p) :: rest =>
      match map_get name leaves with
      | Some prior =>
          if is_and then Err (BranchDuplicate name prior p) else merge_leaves is_and rest leaves
      | None => merge_leaves is_and rest (map_set name p leaves)
      end
  end.

Fixpoint findDuplicate (nameOf : place → jsstr) (o : out)
    : result branch_duplicate (list (jsstr * place)) :=
  match o with
  | OutPlace p => Ok [(nameOf p, p)]
  | OutForwardInput _ t => Ok [(nameOf t, t)]
  | OutTimeout _ c => findDuplicate nameOf c
  | OutXor cs =>
      foldl (λ acc c, let* leaves := acc in let* found := findDuplicate nameOf c in
                      merge_leaves false found leaves) (Ok []) cs
  | OutAnd cs =>
      foldl (λ acc c, let* leaves := acc in let* found := findDuplicate nameOf c in
                      merge_leaves true found leaves) (Ok []) cs
  end.

Definition duplicateInBranch (nameOf : place → jsstr) (o : out) : option branch_duplicate :=
  match findDuplicate nameOf o with Err d => Some d | Ok _ => None end.

Definition crossProduct (a b : list (list place)) : list (list place) :=
  setA ← a; setB ← b; [set_union setA setB].

Fixpoint enumerateBranches (o : out) : list (list place) :=
  match o with
  | OutPlace p => [[p]]
  | OutForwardInput _ t => [[t]]
  | OutAnd cs => foldl (λ acc c, crossProduct acc (enumerateBranches c)) [[]] cs
  | OutXor cs => foldl (λ acc c, acc ++ enumerateBranches c) [] cs
  | OutTimeout _ c => enumerateBranches c
  end.

Fixpoint countTimeouts (o : out) : Z :=
  match o with
  | OutPlace _ | OutForwardInput _ _ => 0
  | OutTimeout _ c => 1 + countTimeouts c
  | OutAnd cs | OutXor cs => foldl (λ n c, n + countTimeouts c) 0 cs
  end.

Fixpoint containsXor (o : out) : bool :=
  match o with
  | OutPlace _ | OutForwardInput _ _ => false
  | OutXor _ => true
  | OutTimeout _ c => containsXor c
  | OutAnd cs => existsb containsXor cs
  end.

Fixpoint hasXorInTimeoutChild (o : out) : bool :=
  match o with
  | OutPlace _ | OutForwardInput _ _ => false
  | OutTimeout _ c => containsXor c
  | OutAnd cs | OutXor cs => existsb hasXorInTimeoutChild cs
  end.

Fixpoint bareForwardInput (o : out) : option (place * place) :=
  match o with
  | OutForwardInput f t => Some (f, t)
  | OutPlace _ | OutTimeout _ _ => None
  | OutAnd cs | OutXor cs =>
      (fix first (l : list out) := match l with
        | [] => None
        | c :: l' => match bareForwardInput c with Some fi => Some fi | None => first l' end
        end) cs
  end.

(** ** [BranchAnalysis] *)

Fixpoint count (o : out) : Z :=
  match o with
  | OutPlace _ | OutForwardInput _ _ => 1
  | OutTimeout _ c => count c
  | OutXor cs => foldl (λ n c, n + count c) 0 cs
  | OutAnd cs => foldl (λ n c, n * count c) 1 cs
  end.

Fixpoint universe (o : out) : list jsstr :=
  match o with
  | OutPlace p => [place_name p]
  | OutForwardInput _ t => [place_name t]
  | OutTimeout _ c => universe c
  | OutXor cs | OutAnd cs => foldl (λ u c, set_union u (universe c)) [] cs
  end.

(** The names of branch [index], leaves left to right; [None] is the thrown
    [branch index out of range]. The last child of an [and] takes the lowest digit. *)
Fixpoint decode (o : out) (index : Z) : option (list jsstr) :=
  match o with
  | OutPlace p => Some [place_name p]
  | OutForwardInput _ t => Some [place_name t]
  | OutTimeout _ c => decode c index
  | OutXor cs =>
      (fix pick (l : list out) (rest : Z) := match l with
        | [] => None
        | c :: l' => if rest <? count c then decode c rest else pick l' (rest - count c)
        end) cs index
  | OutAnd cs =>
      fst <$> (fix digits (l : list out) (rest : Z) : option (list jsstr * Z) := match l with
        | [] => Some ([], rest)
        | c :: l' =>
            '(tail, rest') ← digits l' rest;
            part ← decode c (rest' mod count c);
            Some (part ++ tail, rest' / count c)
        end) cs index
  end.

(** The part of [set] that belongs to child [k] of an [and]. *)
Definition and_part (cs : list out) (set : list jsstr) (k : nat) : list jsstr :=
  filter (λ p, find_index (λ c, bool_decide (p ∈ universe c)) cs = Some k) set.

Fixpoint firstIndexOf (o : out) (set : list jsstr) : option Z :=
  match o with
  | OutPlace p => if bool_decide (length set = 1%nat ∧ place_name p ∈ set) then Some 0 else None
  | OutForwardInput _ t => if bool_decide (length set = 1%nat ∧ place_name t ∈ set) then Some 0 else None
  | OutTimeout _ c => firstIndexOf c set
  | OutXor cs =>
      (fix scan (l : list out) (offset : Z) := match l with
        | [] => None
        | c :: l' => match firstIndexOf c set with
                     | Some idx => Some (offset + idx)
                     | None => scan l' (offset + count c)
                     end
        end) cs 0
  | OutAnd cs =>
      if existsb (λ p, bool_decide (find_index (λ c, bool_decide (p ∈ universe c)) cs = None)) set
      then None
      else (fix digits (l : list out) (k : nat) (index : Z) := match l with
        | [] => Some index
        | c :: l' => match firstIndexOf c (and_part cs set k) with
                     | None => None
                     | Some idx => digits l' (S k) (index * count c + idx)
                     end
        end) cs 0%nat 0
  end.

Fixpoint canBeEmpty (o : out) : bool :=
  match o with
  | OutPlace _ | OutForwardInput _ _ => false
  | OutTimeout _ c => canBeEmpty c
  | OutXor cs => existsb canBeEmpty cs
  | OutAnd cs => forallb canBeEmpty cs
  end.

Fixpoint canStayWithin (o : out) (within : list jsstr) : bool :=
  match o with
  | OutPlace p => bool_decide (place_name p ∈ within)
  | OutForwardInput _ t => bool_decide (place_name t ∈ within)
  | OutTimeout _ c => canStayWithin c within
  | OutXor cs => existsb (λ c, canStayWithin c within) cs
  | OutAnd cs => forallb (λ c, canStayWithin c within) cs
  end.

(** The product of the counts of the given nodes ([stride] of [productWithin]). *)
Definition count_all (cs : list out) : Z := foldl (λ n c, n * count c) 1 cs.

Fixpoint branchesWithin (o : out) (within : list jsstr) : list (Z * list jsstr) :=
  match o with
  | OutPlace p => if bool_decide (place_name p ∈ within) then [(0, [place_name p])] else []
  | OutForwardInput _ t => if bool_decide (place_name t ∈ within) then [(0, [place_name t])] else []
  | OutTimeout _ c => branchesWithin c within
  | OutXor cs =>
      (fix scan (l : list out) (offset : Z) := match l with
        | [] => []
        | c :: l' => ((λ b : Z * list jsstr, (offset + b.1, b.2)) <$> branchesWithin c within)
                     ++ scan l' (offset + count c)
        end) cs 0
  | OutAnd cs =>
      if forallb (λ c, canStayWithin c within) cs then
        (fix productWithin (l : list out) : list (Z * list jsstr) := match l with
          | [] => [(0, [])]
          | c :: l' =>
              a ← branchesWithin c within; b ← productWithin l';
              [(a.1 * count_all l' + b.1, a.2 ++ b.2)]
          end) cs
      else []
  end.

(** The loop over the generator in [firstClaimedEarlier]. *)
Fixpoint first_claimed (rivals : list out) (bound : option Z) (bs : list (Z * list jsstr)) : option Z :=
  match bs with
  | [] => None
  | (index, places) :: rest =>
      if match bound with Some b => b <? index | None => false end then None
      else if existsb (λ r, bool_decide (is_Some (firstIndexOf r (set_of places)))) rivals
      then Some index
      else first_claimed rivals bound rest
  end.

Definition firstClaimedEarlier (earlier : list out) (child : out) (bound : option Z) : option Z :=
  let mine := universe child in
  let empty := canBeEmpty child in
  let rivals := filter (λ e, existsb (λ p, bool_decide (p ∈ mine)) (universe e)
                             || (empty && canBeEmpty e)) earlier in
  if bool_decide (rivals = []) then None
  else first_claimed rivals bound
         (branchesWithin child (foldl (λ u r, set_union u (universe r)) [] rivals)).

(** The smaller of the two collisions of one alternative, as [firstCollision] combines them. *)
Definition xor_local (own cross : option Z) : option Z :=
  match cross with
  | Some c => match own with
              | None => cross
              | Some o => if c <=? o then cross else own
              end
  | None => own
  end.

Fixpoint firstCollision (o : out) : option Z :=
  match o with
  | OutPlace _ | OutForwardInput _ _ => None
  | OutTimeout _ c => firstCollision c
  | OutAnd cs =>
      fst ((fix last_child (l : list out) : option Z * Z := match l with
        | [] => (None, 1)
        | c :: l' =>
            match last_child l' with
            | (Some j, stride) => (Some j, stride)
            | (None, stride) =>
                match firstCollision c with
                | Some jc => (Some (jc * stride), stride)
                | None => (None, stride * count c)
                end
            end
        end) cs)
  | OutXor cs =>
      (fix scan (earlier l : list out) (offset : Z) : option Z := match l with
        | [] => None
        | c :: l' =>
            let own := firstCollision c in
            match xor_local own (firstClaimedEarlier earlier c own) with
            | Some local => Some (offset + local)
            | None => scan (earlier ++ [c]) l' (offset + count c)
            end
        end) [] cs 0
  end.

Record ambiguous_branches := AmbiguousBranches { amb_i : Z; amb_j : Z; amb_places : list jsstr }.

(** [None] at the outside is a thrown error (an index out of range, a missing first index). *)
Definition ambiguousBranches (o : out) : option (option ambiguous_branches) :=
  match firstCollision o with
  | None => Some None
  | Some j =>
      names ← decode o j;
      i ← firstIndexOf o (set_of names);
      places ← decode o i;
      Some (Some (AmbiguousBranches i j places))
  end.
