(* ===== verification/OutSpec.v ===== *)
(** * The branches of an output specification, and the correctness of the branch analysis

    Reference: the branches of [Out.enumerateBranches], compared pairwise in index order. The
    theorems show that [Out.duplicateInBranch] and [Out.ambiguousBranches] report what that
    enumeration reports, although the code never enumerates. *)
From S2P Require Import Prelude.
From S2P Require Import Net.
From S2P Require Import Out.

(** ** Reference definitions *)

(** Equality of two name lists as sets. *)
Definition same_set (a b : list jsstr) : bool :=
  forallb (λ x, bool_decide (x ∈ b)) a && forallb (λ x, bool_decide (x ∈ a)) b.

Definition product (A B : list (list jsstr)) : list (list jsstr) := a ← A; (app a) <$> B.

(** The branches as lists of leaf names, in IO-016 order. *)
Fixpoint branches (o : out) : list (list jsstr) :=
  match o with
  | OutPlace p => [[place_name p]]
  | OutForwardInput _ t => [[place_name t]]
  | OutTimeout _ c => branches c
  | OutXor cs => foldr (λ c acc, branches c ++ acc) [] cs
  | OutAnd cs => foldr (λ c acc, product (branches c) acc) [[]] cs
  end.

(** The first index of a list of branches that claims what an earlier one claims. *)
Fixpoint first_dup_from (seen bs : list (list jsstr)) : option nat :=
  match bs with
  | [] => None
  | b :: bs' => if existsb (same_set b) seen then Some 0 else S <$> first_dup_from (seen ++ [b]) bs'
  end.
Definition first_dup (bs : list (list jsstr)) : option nat := first_dup_from [] bs.

(** The report of a pairwise comparison of the enumerated branches. *)
Definition naive_ambiguous (bs : list (list jsstr)) : option ambiguous_branches :=
  j ← first_dup bs;
  b ← bs !! j;
  i ← find_index (same_set b) bs;
  places ← bs !! i;
  Some (AmbiguousBranches (Z.of_nat i) (Z.of_nat j) places).

(** Every [xor] has an alternative, as [xor] and the transition builder's callers guarantee. *)
Fixpoint inhabited_xors (o : out) : bool :=
  match o with
  | OutPlace _ | OutForwardInput _ _ => true
  | OutTimeout _ c => inhabited_xors c
  | OutXor cs => negb (bool_decide (cs = [])) && forallb inhabited_xors cs
  | OutAnd cs => forallb inhabited_xors cs
  end.

(** No branch names a place twice: the children of an [and] name disjoint places. *)
Fixpoint dup_free (o : out) : Prop :=
  match o with
  | OutPlace _ | OutForwardInput _ _ => True
  | OutTimeout _ c => dup_free c
  | OutXor cs => foldr (λ c acc, dup_free c ∧ acc) True cs
  | OutAnd cs =>
      foldr (λ c acc, dup_free c ∧ acc) True cs ∧
      (fix disjoint (l : list out) := match l with
        | [] => True
        | c :: l' => Forall (λ d, ∀ x, x ∈ universe c → x ∉ universe d) l' ∧ disjoint l'
        end) cs
  end.

(** ** Sets of names *)

Lemma same_set_iff a b : same_set a b = true ↔ ∀ x, x ∈ a ↔ x ∈ b.
Proof.
  unfold same_set. rewrite andb_true_iff, !forallb_forall.
  setoid_rewrite bool_decide_eq_true. setoid_rewrite <- list_elem_of_In. naive_solver.
Qed.

Lemma same_set_refl a : same_set a a = true.
Proof. by apply same_set_iff. Qed.

Lemma same_set_sym a b : same_set a b = same_set b a.
Proof. unfold same_set. apply andb_comm. Qed.

Lemma same_set_trans a b c : same_set a b = true → same_set b c = true → same_set a c = true.
Proof. rewrite !same_set_iff. set_solver. Qed.

Lemma same_set_subst a b c : same_set a b = true → same_set a c = same_set b c.
Proof.
  intros H. apply eq_true_iff_eq. rewrite !same_set_iff in *. set_solver.
Qed.

Lemma same_set_of a c : same_set (set_of a) c = same_set a c.
Proof. apply same_set_subst, same_set_iff. intros. apply elem_of_set_of. Qed.

Lemma same_set_singleton s x : NoDup s →
  same_set s [x] = bool_decide (length s = 1 ∧ x ∈ s).
Proof.
  intros Hs. apply eq_true_iff_eq. rewrite same_set_iff, bool_decide_eq_true. split.
  - intros H. assert (x ∈ s) by set_solver. split; [|done].
    assert (∀ y, y ∈ s → y = x) as Hy by (intros y; rewrite H; apply list_elem_of_singleton).
    destruct s as [|y [|z s]]; [by apply not_elem_of_nil in H0|done|].
    apply NoDup_cons in Hs as [Hs _]. exfalso. apply Hs.
    rewrite (Hy y), (Hy z) by (repeat constructor). left.
  - intros [Hl Hx]. destruct s as [|y [|]]; try done.
    apply list_elem_of_singleton in Hx as ->. done.
Qed.

(** ** [find_index] *)

Lemma find_index_Some {A} (f : A → bool) l i :
  find_index f l = Some i ↔
  ∃ x, l !! i = Some x ∧ f x = true ∧ ∀ j y, j < i → l !! j = Some y → f y = false.
Proof.
  revert i. induction l as [|x l IH]; intros i; simpl.
  { split; [done|]. by intros (?&?&_). }
  destruct (f x) eqn:E.
  - split.
    + intros [= <-]. exists x. split_and!; auto. intros; lia.
    + intros (y & Hy & Hf & Hmin). destruct i as [|i]; [done|].
      by rewrite (Hmin 0 x) in E by (auto; lia).
  - destruct i as [|i].
    + split; [by destruct (find_index f l)|]. intros (y & [= ->] & Hf & _). congruence.
    + trans (find_index f l = Some i); [by destruct (find_index f l); simpl; split; intros [=]; subst|].
      rewrite IH. simpl. split; intros (y & Hy & Hf & Hmin); exists y; split_and!; auto.
      * intros [|j] z Hj; simpl; [intros [= ->]; done|]. apply Hmin. lia.
      * intros j z Hj. apply (Hmin (S j)). lia.
Qed.

Lemma find_index_None {A} (f : A → bool) l :
  find_index f l = None ↔ ∀ i x, l !! i = Some x → f x = false.
Proof.
  induction l as [|x l IH]; simpl.
  { split; [|done]. intros _ i x. by rewrite lookup_nil. }
  destruct (f x) eqn:E.
  - split; [done|]. intros H. by rewrite (H 0 x) in E.
  - trans (find_index f l = None); [by destruct (find_index f l)|].
    rewrite IH. split; [intros H [|i] y; simpl; [by intros [= ->]|apply H]|intros H i; apply (H (S i))].
Qed.

Lemma find_index_ext {A} (f g : A → bool) l :
  (∀ x, x ∈ l → f x = g x) → find_index f l = find_index g l.
Proof.
  induction l as [|x l IH]; simpl; [done|]. intros H.
  rewrite (H x) by set_solver. destruct (g x); [done|]. rewrite IH; [done|set_solver].
Qed.

Lemma find_index_app {A} (f : A → bool) l k :
  find_index f (l ++ k) = match find_index f l with
                          | Some i => Some i
                          | None => (λ i, length l + i) <$> find_index f k
                          end.
Proof.
  induction l as [|x l IH]; simpl; [by destruct (find_index f k)|].
  destruct (f x); [done|]. rewrite IH. destruct (find_index f l); [done|].
  by destruct (find_index f k).
Qed.

(** ** Products *)

Lemma product_length A B : length (product A B) = length A * length B.
Proof.
  unfold product. induction A as [|a A IH]; simpl; [done|].
  change (length (((app a) <$> B) ++ (A ≫= λ a, (app a) <$> B)) = length B + length A * length B).
  by rewrite length_app, length_fmap, IH.
Qed.

Lemma product_cons a A B : product (a :: A) B = ((app a) <$> B) ++ product A B.
Proof. done. Qed.

Lemma elem_of_product x A B : x ∈ product A B ↔ ∃ a b, a ∈ A ∧ b ∈ B ∧ x = a ++ b.
Proof. unfold product. rewrite list_elem_of_bind. setoid_rewrite list_elem_of_fmap. naive_solver. Qed.

Lemma product_lookup A B i j a b :
  A !! i = Some a → B !! j = Some b → product A B !! (i * length B + j) = Some (a ++ b).
Proof.
  revert i. induction A as [|a' A IH]; intros i Ha Hb; [by rewrite lookup_nil in Ha|].
  rewrite product_cons. destruct i as [|i]; simpl in *.
  - simplify_eq. rewrite lookup_app_l by (rewrite length_fmap; eauto using lookup_lt_Some).
    by rewrite list_lookup_fmap, Hb.
  - rewrite lookup_app_r by (rewrite length_fmap; lia). rewrite length_fmap.
    replace (length B + i * length B + j - length B) with (i * length B + j) by lia. by apply IH.
Qed.

Lemma product_lookup_inv A B k x :
  product A B !! k = Some x →
  ∃ i j a b, k = i * length B + j ∧ A !! i = Some a ∧ B !! j = Some b ∧ x = a ++ b.
Proof.
  revert k. induction A as [|a A IH]; intros k; [done|].
  rewrite product_cons, lookup_app_Some, length_fmap.
  intros [(b & -> & Hb)%list_lookup_fmap_Some|[Hk (i & j & a' & b & E & ? & ? & ?)%IH]].
  - exists 0, k, a, b. auto.
  - exists (S i), j, a', b. split_and!; auto. simpl. lia.
Qed.

Lemma find_index_product (f g h : list jsstr → bool) A B :
  (∀ a b, a ∈ A → b ∈ B → h (a ++ b) = f a && g b) →
  find_index h (product A B) =
    (i ← find_index f A; j ← find_index g B; Some (i * length B + j)).
Proof.
  induction A as [|a A IH]; intros H; [done|].
  rewrite product_cons, find_index_app, length_fmap, IH by (intros; apply H; [by right|done]).
  assert (find_index h ((app a) <$> B) = if f a then find_index g B else None) as ->.
  { assert (∀ b, b ∈ B → h (a ++ b) = f a && g b) as Hb by (intros; apply H; [left|done]). clear -Hb.
    induction B as [|b B IHB]; [by destruct (f a)|].
    rewrite fmap_cons. cbn [find_index]. rewrite Hb by left. rewrite IHB by (intros; apply Hb; by right).
    destruct (f a), (g b); simpl; try done. }
  simpl. destruct (f a); simpl.
  - destruct (find_index g B) as [j|] eqn:E; [done|]. destruct (find_index f A); done.
  - destruct (find_index f A), (find_index g B); simpl; try done. f_equal. lia.
Qed.

Lemma product_app A A' B : product (A ++ A') B = product A B ++ product A' B.
Proof. unfold product. by rewrite bind_app. Qed.

Lemma product_prefix a B C : product (app a <$> B) C = app a <$> product B C.
Proof.
  induction B as [|b B IH]; [done|].
  rewrite fmap_cons, !product_cons, fmap_app, IH. f_equal.
  rewrite <- list_fmap_compose. apply list_fmap_ext. intros _ c _. by rewrite <- app_assoc.
Qed.

Lemma product_assoc A B C : product (product A B) C = product A (product B C).
Proof.
  induction A as [|a A IH]; [done|].
  by rewrite !product_cons, product_app, IH, product_prefix.
Qed.

Lemma product_nil_r A : product A [[]] = A.
Proof.
  unfold product. induction A as [|a A IH]; [done|].
  rewrite bind_cons, IH. simpl. by rewrite app_nil_r.
Qed.

Lemma product_nil_l B : product [[]] B = B.
Proof. unfold product. simpl. rewrite app_nil_r. by rewrite list_fmap_id. Qed.

(** ** Universes and counts *)

Lemma elem_of_foldl_union {B} (f : B → list jsstr) u cs x :
  x ∈ foldl (λ u c, set_union u (f c)) u cs ↔ x ∈ u ∨ ∃ c, c ∈ cs ∧ x ∈ f c.
Proof.
  revert u. induction cs as [|c cs IH]; intros u; simpl; [set_solver|].
  rewrite IH, elem_of_set_union. set_solver.
Qed.

Lemma elem_of_universe_xor cs x : x ∈ universe (OutXor cs) ↔ ∃ c, c ∈ cs ∧ x ∈ universe c.
Proof. simpl. rewrite elem_of_foldl_union. set_solver. Qed.

Lemma elem_of_universe_and cs x : x ∈ universe (OutAnd cs) ↔ ∃ c, c ∈ cs ∧ x ∈ universe c.
Proof. simpl. rewrite elem_of_foldl_union. set_solver. Qed.

(** The branches of the children of an [and] or an [xor], combined. *)
Definition branches_and (cs : list out) := foldr (λ c acc, product (branches c) acc) [[]] cs.
Definition branches_xor (cs : list out) := foldr (λ c acc, branches c ++ acc) [] cs.

Lemma elem_of_branches_xor b cs : b ∈ branches_xor cs ↔ ∃ c, c ∈ cs ∧ b ∈ branches c.
Proof. induction cs as [|c cs IH]; simpl; [set_solver|]. rewrite elem_of_app, IH. set_solver. Qed.

Lemma branches_and_sub cs b x :
  (∀ c b, c ∈ cs → b ∈ branches c → x ∈ b → x ∈ universe c) →
  b ∈ branches_and cs → x ∈ b → ∃ c, c ∈ cs ∧ x ∈ universe c.
Proof.
  revert b. induction cs as [|c cs IH]; intros b H; simpl.
  { by intros ->%list_elem_of_singleton ?%not_elem_of_nil. }
  intros (a & b' & Ha & Hb & ->)%elem_of_product [Hx|Hx]%elem_of_app.
  - exists c. split; [left|eapply H; eauto; left].
  - destruct (IH b') as (d & ? & ?); auto; [|exists d; split; [by right|done]].
    intros; eapply H; eauto. by right.
Qed.

Lemma branches_universe o b x : b ∈ branches o → x ∈ b → x ∈ universe o.
Proof.
  revert b. induction o as [cs IH|cs IH|p|ms c IH|f t] using out_ind'; intros b Hb Hx.
  - rewrite Forall_forall in IH. apply elem_of_universe_and.
    eapply branches_and_sub; [|exact Hb|done]. eauto.
  - rewrite Forall_forall in IH. apply elem_of_universe_xor.
    apply elem_of_branches_xor in Hb as (c & ? & ?). eauto.
  - by apply list_elem_of_singleton in Hb as ->.
  - simpl. by eapply IH.
  - by apply list_elem_of_singleton in Hb as ->.
Qed.

Lemma inhabited_xors_child o cs c :
  (o = OutAnd cs ∨ o = OutXor cs) → inhabited_xors o = true → c ∈ cs → inhabited_xors c = true.
Proof.
  intros [-> | ->] H Hc; simpl in H; [|apply andb_true_iff in H as [_ H]];
    rewrite forallb_forall in H; apply H; by apply list_elem_of_In.
Qed.

Lemma branches_and_nonempty cs :
  (∀ c, c ∈ cs → branches c ≠ []) → branches_and cs ≠ [].
Proof.
  induction cs as [|c cs IH]; simpl; [done|]. intros H E.
  apply (f_equal length) in E. rewrite product_length in E. apply Nat.mul_eq_0 in E.
  destruct E as [E|E]; apply nil_length_inv in E; [eapply H; [left|done]|].
  revert E. apply IH. intros; apply H. by right.
Qed.

Lemma branches_nonempty o : inhabited_xors o = true → branches o ≠ [].
Proof.
  induction o as [cs IH|cs IH|p|ms c IH|f t] using out_ind'; intros Hi; try done.
  - apply branches_and_nonempty. rewrite Forall_forall in IH.
    intros c Hc. apply IH; [done|]. apply (inhabited_xors_child (OutAnd cs) cs); [by left|done..].
  - rewrite Forall_forall in IH. destruct cs as [|c cs]; [done|]. simpl.
    intros [E _]%app_eq_nil. revert E. apply IH; [left|].
    apply (inhabited_xors_child (OutXor (c :: cs)) (c :: cs)); [by right|done|left].
  - by apply IH.
Qed.

Lemma count_foldl_add cs n : Forall (λ c, count c = Z.of_nat (length (branches c))) cs →
  foldl (λ n c, n + count c)%Z n cs = (n + Z.of_nat (length (branches_xor cs)))%Z.
Proof.
  intros H. revert n. induction H as [|c cs Hc Hcs IH]; intros n; simpl; [lia|].
  rewrite IH, Hc, length_app. lia.
Qed.

Lemma count_foldl_mul cs n : Forall (λ c, count c = Z.of_nat (length (branches c))) cs →
  foldl (λ n c, n * count c)%Z n cs = (n * Z.of_nat (length (branches_and cs)))%Z.
Proof.
  intros H. revert n. induction H as [|c cs Hc Hcs IH]; intros n; simpl; [lia|].
  rewrite IH, Hc, product_length. lia.
Qed.

Lemma count_branches o : count o = Z.of_nat (length (branches o)).
Proof.
  induction o as [cs IH|cs IH|p|ms c IH|f t] using out_ind'; try done.
  - simpl. rewrite count_foldl_mul by done. unfold branches_and. lia.
  - simpl. rewrite count_foldl_add by done. unfold branches_xor. lia.
Qed.

Lemma count_all_branches cs : count_all cs = Z.of_nat (length (branches_and cs)).
Proof.
  unfold count_all. rewrite count_foldl_mul; [lia|].
  apply Forall_forall. intros. apply count_branches.
Qed.

(** ** Duplicates *)

Lemma merge_leaves_ok b found leaves l' :
  merge_leaves b found leaves = Ok l' →
  (∀ x, x ∈ l'.*1 ↔ x ∈ leaves.*1 ∨ x ∈ found.*1) ∧
  (b = true → ∀ x, x ∈ found.*1 → x ∉ leaves.*1).
Proof.
  revert leaves. induction found as [|[n p] found IH]; intros leaves; simpl.
  { intros [= ->]. set_solver. }
  destruct (map_get n leaves) eqn:E.
  - destruct b; [done|]. intros [IH1 IH2]%IH. split; [|done].
    intros x. rewrite IH1. apply map_get_elem, (list_elem_of_fmap_2 fst) in E. clear IH1 IH2.
    simpl in *. rewrite elem_of_cons. naive_solver.
  - intros [IH1 IH2]%IH. apply map_get_None in E. rewrite map_set_keys in IH1, IH2.
    rewrite decide_False in IH1, IH2 by done. split.
    + intros x. rewrite IH1, elem_of_app, list_elem_of_singleton, elem_of_cons. tauto.
    + intros Hb x [->|Hx]%elem_of_cons; [done|]. intros Hx'. apply (IH2 Hb x Hx), elem_of_app. by left.
Qed.

Definition disjoint_children :=
  fix disjoint (l : list out) : Prop := match l with
    | [] => True
    | c :: l' => Forall (λ d, ∀ x, x ∈ universe c → x ∉ universe d) l' ∧ disjoint l'
    end.

Definition dup_loop (b : bool) (cs : list out) (acc : result branch_duplicate (list (jsstr * place))) :=
  foldl (λ acc c, let* leaves := acc in let* found := findDuplicate place_name c in
                  merge_leaves b found leaves) acc cs.

Lemma dup_loop_err b cs e : dup_loop b cs (Err e) = Err e.
Proof. induction cs; simpl; auto. Qed.

Lemma dup_loop_ok b cs L L' :
  Forall (λ c, ∀ l, findDuplicate place_name c = Ok l →
               dup_free c ∧ ∀ x, x ∈ l.*1 ↔ x ∈ universe c) cs →
  dup_loop b cs (Ok L) = Ok L' →
  Forall dup_free cs ∧ (∀ x, x ∈ L'.*1 ↔ x ∈ L.*1 ∨ ∃ c, c ∈ cs ∧ x ∈ universe c) ∧
  (b = true → disjoint_children cs ∧ ∀ c x, c ∈ cs → x ∈ universe c → x ∉ L.*1).
Proof.
  intros Hcs. revert L. induction Hcs as [|c cs Hc Hcs IH]; intros L; simpl.
  { intros [= ->]. split_and!; [done| |set_solver]. intros x. split; [by left|]. intros [?|(?&?%not_elem_of_nil&_)]; done. }
  destruct (findDuplicate place_name c) as [l|] eqn:E; simpl; [|by rewrite dup_loop_err].
  destruct (merge_leaves b l L) as [L1|] eqn:E1; [|by rewrite dup_loop_err].
  destruct (Hc l) as [Hdf Hl]; [done|]. apply merge_leaves_ok in E1 as [HL1 Hdis].
  intros (IH1 & IH2 & IH3)%IH. split_and!; [by constructor| |].
  - intros x. rewrite IH2, HL1, Hl. clear. setoid_rewrite elem_of_cons. split.
    + intros [[?|?]|(d&?&?)]; eauto.
    + intros [?|(d&[->|?]&?)]; eauto.
  - intros Hb. specialize (IH3 Hb) as [IH3 IH4]. split.
    + split; [|done]. apply Forall_forall. intros d Hd x Hx Hx'.
      eapply IH4; [exact Hd|exact Hx'|]. rewrite HL1, Hl. auto.
    + intros d x [-> | Hd]%elem_of_cons Hx; [apply Hdis; [done|by apply Hl]|].
      intros HxL. eapply IH4; [exact Hd|done|]. rewrite HL1. auto.
Qed.

Lemma foldr_and_Forall {B} (P : B → Prop) l : foldr (λ c acc, P c ∧ acc) True l ↔ Forall P l.
Proof. induction l as [|x l IH]; simpl; [done|]. by rewrite IH, Forall_cons. Qed.

Lemma findDuplicate_ok o l :
  findDuplicate place_name o = Ok l → dup_free o ∧ ∀ x, x ∈ l.*1 ↔ x ∈ universe o.
Proof.
  revert l. induction o as [cs IH|cs IH|p|ms c IH|f t] using out_ind'; intros l H.
  - apply (dup_loop_ok true) in H as (H1 & H2 & H3); [|done]. split.
    + simpl. rewrite foldr_and_Forall. split; [done|]. by apply H3.
    + intros x. rewrite H2, elem_of_universe_and. clear. set_solver.
  - apply (dup_loop_ok false) in H as (H1 & H2 & H3); [|done]. split.
    + simpl. by rewrite foldr_and_Forall.
    + intros x. rewrite H2, elem_of_universe_xor. clear. set_solver.
  - simpl in *. simplify_eq. set_solver.
  - simpl in *. auto.
  - simpl in *. simplify_eq. set_solver.
Qed.

Lemma duplicateInBranch_dup_free o : duplicateInBranch place_name o = None → dup_free o.
Proof.
  unfold duplicateInBranch. destruct (findDuplicate place_name o) as [l|] eqn:E; [|done].
  intros _. by apply findDuplicate_ok in E as [? _].
Qed.

(** ** Decoding an index *)

Definition decode_xor :=
  fix pick (l : list out) (rest : Z) : option (list jsstr) := match l with
    | [] => None
    | c :: l' => if (rest <? count c)%Z then decode c rest else pick l' (rest - count c)%Z
    end.

Definition decode_and :=
  fix digits (l : list out) (rest : Z) : option (list jsstr * Z) := match l with
    | [] => Some ([], rest)
    | c :: l' =>
        '(tail, rest') ← digits l' rest;
        part ← decode c (rest' mod count c)%Z;
        Some (part ++ tail, (rest' / count c)%Z)
    end.

Definition decodes (c : out) : Prop :=
  ∀ i b, branches c !! i = Some b → decode c (Z.of_nat i) = Some b.

Lemma decode_xor_spec cs i b : Forall decodes cs →
  branches_xor cs !! i = Some b → decode_xor cs (Z.of_nat i) = Some b.
Proof.
  intros H. revert i. induction H as [|c cs Hc Hcs IH]; intros i; simpl; [done|].
  rewrite count_branches, lookup_app. intros Hi. case_bool; b2p.
  - destruct (lookup_lt_is_Some_2 (branches c) i) as [b' Hb']; [lia|].
    rewrite Hb' in Hi. simplify_eq. auto.
  - rewrite lookup_ge_None_2 in Hi by lia.
    rewrite <- Nat2Z.inj_sub by lia. auto.
Qed.

Lemma decode_and_spec cs i : Forall decodes cs → branches_and cs ≠ [] →
  ∃ b, branches_and cs !! (i mod length (branches_and cs)) = Some b ∧
       decode_and cs (Z.of_nat i) = Some (b, Z.of_nat (i / length (branches_and cs))).
Proof.
  intros H. induction H as [|c cs Hc Hcs IH].
  { intros _. exists []. change (length (branches_and [])) with 1.
    by rewrite Nat.mod_1_r, Nat.div_1_r. }
  intros Hne. cbn [branches_and foldr decode_and].
  change (foldr (λ c acc, product (branches c) acc) [[]] cs) with (branches_and cs).
  assert (length (branches c) ≠ 0 ∧ length (branches_and cs) ≠ 0) as [Hm Hn].
  { cbn [branches_and foldr] in Hne. split; intros E; apply Hne, nil_length_inv.
    - change (length (product (branches c) (branches_and cs)) = 0). by rewrite product_length, E.
    - change (length (product (branches c) (branches_and cs)) = 0).
      by rewrite product_length, E, Nat.mul_0_r. }
  destruct IH as (tail & Ht & Ed); [by intros E; rewrite E in Hn|]. rewrite Ed. cbn [mbind option_bind].
  set (n := length (branches_and cs)) in *. set (m := length (branches c)) in *.
  destruct (lookup_lt_is_Some_2 (branches c) ((i / n) mod m)) as [part Hp].
  { by apply Nat.mod_upper_bound. }
  exists (part ++ tail). rewrite count_branches. fold m. rewrite <- Nat2Z.inj_mod, (Hc _ _ Hp).
  cbn [mbind option_bind]. rewrite <- Nat2Z.inj_div, Nat.Div0.div_div, product_length. fold n m.
  rewrite (Nat.mul_comm n m). split; [|done].
  rewrite (Nat.mul_comm m n), Nat.Div0.mod_mul_r.
  replace (i mod n + n * ((i / n) mod m)) with (((i / n) mod m) * n + i mod n) by lia.
  by apply product_lookup.
Qed.

Lemma decode_branches o : inhabited_xors o = true → decodes o.
Proof.
  induction o as [cs IH|cs IH|p|ms c IH|f t] using out_ind'; intros Hi i b Hb.
  - assert (Forall decodes cs) as Hcs.
    { rewrite Forall_forall in *. intros c Hc. apply IH; [done|].
      apply (inhabited_xors_child (OutAnd cs) cs); [by left|done..]. }
    apply branches_nonempty in Hi. destruct (decode_and_spec cs i) as (b' & Hb' & Ed); [done..|].
    change (fst <$> decode_and cs (Z.of_nat i) = Some b). rewrite Ed. simpl.
    rewrite Nat.mod_small in Hb' by (by eapply lookup_lt_Some).
    change (branches_and cs !! i = Some b) in Hb. congruence.
  - change (decode_xor cs (Z.of_nat i) = Some b). apply decode_xor_spec; [|done].
    rewrite Forall_forall in *. intros c Hc. apply IH; [done|].
    apply (inhabited_xors_child (OutXor cs) cs); [by right|done..].
  - destruct i; simpl in *; [|done]. congruence.
  - by apply IH.
  - destruct i; simpl in *; [|done]. congruence.
Qed.

(** ** The first index of a set *)

(** The child of an [and] that a name belongs to. *)
Definition owner (cs : list out) (x : jsstr) : option nat :=
  find_index (λ c, bool_decide (x ∈ universe c)) cs.

Lemma disjoint_children_lookup cs i j c d x :
  disjoint_children cs → cs !! i = Some c → cs !! j = Some d → i < j →
  x ∈ universe c → x ∉ universe d.
Proof.
  revert i j. induction cs as [|e cs IH]; intros i j; [done|]. intros [Hd Hcs].
  destruct i as [|i], j as [|j]; simpl; try lia.
  - intros [= ->] Hj _. rewrite Forall_forall in Hd. apply Hd. by eapply list_elem_of_lookup_2.
  - intros Hi Hj ?. apply (IH i j); auto. lia.
Qed.

Lemma owner_lookup cs i c x :
  disjoint_children cs → cs !! i = Some c → x ∈ universe c → owner cs x = Some i.
Proof.
  intros Hd Hi Hx. unfold owner. rewrite find_index_Some. exists c.
  split_and!; [done|by apply bool_decide_eq_true|].
  intros j d Hj Hc. apply bool_decide_eq_false. intros Hxd.
  by eapply (disjoint_children_lookup cs j i).
Qed.

Lemma owner_Some cs x i : owner cs x = Some i → ∃ c, cs !! i = Some c ∧ x ∈ universe c.
Proof.
  unfold owner. rewrite find_index_Some. intros (c & ? & ?%bool_decide_eq_true & _). eauto.
Qed.

Definition index_and (cs : list out) (set : list jsstr) :=
  fix digits (l : list out) (k : nat) (index : Z) : option Z := match l with
    | [] => Some index
    | c :: l' => match firstIndexOf c (and_part cs set k) with
                 | None => None
                 | Some idx => digits l' (S k) (index * count c + idx)%Z
                 end
    end.

(** The members of [set] owned by child [k] or a later one. *)
Definition from_child (cs : list out) (set : list jsstr) (k : nat) : list jsstr :=
  filter (λ p, bool_decide (from_option (λ i, k <=? i) false (owner cs p) = true)) set.

Definition indexes (c : out) : Prop :=
  ∀ set, NoDup set → firstIndexOf c set = Z.of_nat <$> find_index (same_set set) (branches c).

Lemma elem_of_and_part cs set k x : x ∈ and_part cs set k ↔ owner cs x = Some k ∧ x ∈ set.
Proof. unfold and_part. by rewrite list_elem_of_filter. Qed.

Lemma elem_of_from_child cs set k x :
  x ∈ from_child cs set k ↔ (∃ i, owner cs x = Some i ∧ k ≤ i) ∧ x ∈ set.
Proof.
  unfold from_child. rewrite list_elem_of_filter, bool_decide_spec.
  destruct (owner cs x); simpl; rewrite ?Nat.leb_le; naive_solver.
Qed.

Lemma same_set_split cs pre c l set a b :
  disjoint_children cs → cs = pre ++ c :: l →
  a ∈ branches c → b ∈ branches_and l →
  same_set (from_child cs set (length pre)) (a ++ b) =
  same_set (and_part cs set (length pre)) a && same_set (from_child cs set (S (length pre))) b.
Proof.
  intros Hd Hcs Ha Hb.
  assert (∀ x, x ∈ a → owner cs x = Some (length pre)) as Hoa.
  { intros x Hx. eapply owner_lookup; [done| |by eapply branches_universe].
    rewrite Hcs, lookup_app_r, Nat.sub_diag by lia. done. }
  assert (∀ x, x ∈ b → ∃ i, owner cs x = Some i ∧ S (length pre) ≤ i) as Hob.
  { intros x Hx. destruct (branches_and_sub l b x) as (d & Hdl & Hxd); [|done..|].
    { intros; by eapply branches_universe. }
    apply list_elem_of_lookup in Hdl as [j Hj]. exists (length pre + S j). split; [|lia].
    eapply owner_lookup; [done| |done]. rewrite Hcs, lookup_app_r by lia.
    by replace (length pre + S j - length pre) with (S j) by lia. }
  apply eq_true_iff_eq. rewrite andb_true_iff, !same_set_iff.
  setoid_rewrite elem_of_app. setoid_rewrite elem_of_from_child. setoid_rewrite elem_of_and_part.
  clear Hcs Ha Hb Hd. split.
  - intros H. split; intros x; specialize (H x); split.
    + intros [Ho Hx]. destruct H as [[?|Hxb] _]; [eauto|done|].
      apply Hob in Hxb as (i & Hi & ?). rewrite Ho in Hi. simplify_eq. lia.
    + intros Hx. split; [auto|]. apply H. auto.
    + intros [(i & Ho & ?) Hx]. destruct H as [[Hxa|?] _]; [split; [exists i; split; [done|lia]|done]| |done].
      apply Hoa in Hxa. rewrite Ho in Hxa. simplify_eq. lia.
    + intros Hx. split; [auto|]. apply H. auto.
  - intros [H1 H2] x. specialize (H1 x). specialize (H2 x). split.
    + intros [(i & Ho & Hi) Hx]. destruct (decide (i = length pre)) as [->|].
      * left. apply H1. auto.
      * right. apply H2. split; [|done]. exists i. split; [done|lia].
    + intros [Hx|Hx].
      * apply H1 in Hx as [? ?]. split; [|done]. eauto.
      * apply H2 in Hx as [(i & ? & ?) ?]. split; [|done]. exists i. split; [done|lia].
Qed.

Lemma index_and_spec cs set pre l index :
  disjoint_children cs → NoDup set → cs = pre ++ l → Forall indexes l →
  index_and cs set l (length pre) index =
  (λ j, index * Z.of_nat (length (branches_and l)) + Z.of_nat j)%Z <$>
    find_index (same_set (from_child cs set (length pre))) (branches_and l).
Proof.
  intros Hd Hset Hcs Hl. revert pre index Hcs. induction Hl as [|c l Hc Hl IH]; intros pre index Hcs.
  - assert (from_child cs set (length pre) = []) as ->.
    { rewrite app_nil_r in Hcs. apply elem_of_nil_inv. intros x.
      rewrite elem_of_from_child. intros [(i & Ho & Hi) _].
      apply owner_Some in Ho as (c & Hi' & _). apply lookup_lt_Some in Hi'. subst. lia. }
    simpl. f_equal. lia.
  - cbn [index_and]. rewrite Hc by (by apply NoDup_filter).
    cbn [branches_and foldr]. change (foldr (λ c acc, product (branches c) acc) [[]] l) with (branches_and l).
    rewrite (find_index_product (same_set (and_part cs set (length pre)))
               (same_set (from_child cs set (S (length pre)))))
      by (intros; by apply (same_set_split cs pre c l)).
    destruct (find_index _ (branches c)) as [i|]; simpl; [|done].
    specialize (IH (pre ++ [c])). rewrite length_app in IH. simpl in IH.
    rewrite Nat.add_1_r in IH. rewrite IH by (by rewrite <- app_assoc).
    destruct (find_index _ (branches_and l)) as [j|]; simpl; [|done].
    f_equal. rewrite count_branches, product_length. lia.
Qed.

Lemma index_xor_spec cs set (offset : Z) :
  NoDup set → Forall indexes cs →
  (fix scan (l : list out) (offset : Z) : option Z := match l with
     | [] => None
     | c :: l' => match firstIndexOf c set with
                  | Some idx => Some (offset + idx)%Z
                  | None => scan l' (offset + count c)%Z
                  end
     end) cs offset = (λ j, offset + Z.of_nat j)%Z <$> find_index (same_set set) (branches_xor cs).
Proof.
  intros Hset Hcs. revert offset. induction Hcs as [|c cs Hc Hcs IH]; intros offset; [done|].
  rewrite (Hc set) by done. cbn [branches_xor foldr]. rewrite find_index_app.
  destruct (find_index (same_set set) (branches c)) as [i|]; [done|]. simpl. rewrite IH, count_branches.
  change (foldr (λ c acc, branches c ++ acc) [] cs) with (branches_xor cs).
  destruct (find_index (same_set set) (branches_xor cs)); simpl; [|done]. f_equal. lia.
Qed.

Lemma firstIndexOf_spec o : dup_free o → indexes o.
Proof.
  induction o as [cs IH|cs IH|p|ms c IH|f t] using out_ind'; intros Hdf set Hset.
  - destruct Hdf as [Hdf Hd]. rewrite foldr_and_Forall in Hdf.
    assert (Forall indexes cs) as Hcs.
    { rewrite Forall_forall in *. auto. }
    change (firstIndexOf (OutAnd cs) set) with
      (if existsb (λ p, bool_decide (owner cs p = None)) set then None else index_and cs set cs 0 0).
    case_bool.
    + apply existsb_exists in Heqb as (p & Hp%list_elem_of_In & Ho%bool_decide_eq_true).
      assert (find_index (same_set set) (branches (OutAnd cs)) = None) as ->; [|done].
      apply find_index_None. intros i b Hb. destruct (same_set set b) eqn:E; [|done].
      rewrite same_set_iff in E. apply E in Hp.
      eapply branches_universe in Hp; [|by eapply list_elem_of_lookup_2].
      apply elem_of_universe_and in Hp as (c & Hc & Hp). unfold owner in Ho.
      rewrite find_index_None in Ho. apply list_elem_of_lookup in Hc as [j Hj].
      specialize (Ho j c Hj). by apply bool_decide_eq_false in Ho.
    + pose proof (index_and_spec cs set [] cs 0 Hd Hset eq_refl Hcs) as E.
      change (length []) with 0 in E. rewrite E. clear E.
      rewrite (find_index_ext _ (same_set set)).
      { change (branches (OutAnd cs)) with (branches_and cs).
        destruct (find_index (same_set set) (branches_and cs)); simpl; [f_equal; lia|done]. }
      intros b _. apply same_set_subst, same_set_iff. intros x.
      rewrite elem_of_from_child. split; [by intros [_ ?]|]. intros Hx. split; [|done].
      destruct (owner cs x) as [i|] eqn:Ho; [exists i; split; [done|lia]|].
      apply not_true_iff_false in Heqb. destruct Heqb. apply existsb_exists. exists x.
      split; [by apply list_elem_of_In|by apply bool_decide_eq_true].
  - simpl in Hdf. rewrite foldr_and_Forall in Hdf. cbn [firstIndexOf].
    rewrite index_xor_spec; [|done|rewrite Forall_forall in *; auto].
    change (branches (OutXor cs)) with (branches_xor cs).
    by destruct (find_index (same_set set) (branches_xor cs)).
  - simpl. rewrite same_set_singleton by done. by case_bool.
  - by apply IH.
  - simpl. rewrite same_set_singleton by done. by case_bool.
Qed.

(** ** Branches inside a set of places *)

Definition inside (w : list jsstr) (b : list jsstr) : bool := forallb (λ x, bool_decide (x ∈ w)) b.

Lemma inside_iff w b : inside w b = true ↔ ∀ x, x ∈ b → x ∈ w.
Proof.
  unfold inside. rewrite forallb_forall. setoid_rewrite bool_decide_eq_true.
  by setoid_rewrite <- list_elem_of_In.
Qed.

Lemma inside_app w a b : inside w (a ++ b) = inside w a && inside w b.
Proof. apply forallb_app. Qed.


Lemma canStayWithin_spec o w :
  canStayWithin o w = true ↔ ∃ b, b ∈ branches o ∧ inside w b = true.
Proof.
  induction o as [cs IH|cs IH|p|ms c IH|f t] using out_ind'.
  - change (branches (OutAnd cs)) with (branches_and cs). cbn [canStayWithin].
    induction IH as [|c cs Hc Hcs IH]; cbn [forallb].
    + split; [|done]. intros _. exists []. split; [left|done].
    + rewrite andb_true_iff, Hc, IH. cbn [branches_and foldr]. setoid_rewrite elem_of_product. split.
      * intros [(a & ? & ?) (b & ? & ?)]. exists (a ++ b). rewrite inside_app, andb_true_iff. eauto 10.
      * intros (x & (a & b & ? & ? & ->) & Hx). rewrite inside_app, andb_true_iff in Hx. naive_solver.
  - cbn [canStayWithin]. rewrite existsb_exists. setoid_rewrite <- list_elem_of_In.
    change (branches (OutXor cs)) with (branches_xor cs). setoid_rewrite elem_of_branches_xor.
    rewrite Forall_forall in IH. split.
    + intros (c & Hc & Hw). apply IH in Hw as (b & ? & ?); [|done]. eauto.
    + intros (b & (c & Hc & ?) & ?). exists c. split; [done|]. apply IH; eauto.
  - simpl. rewrite bool_decide_eq_true. setoid_rewrite list_elem_of_singleton. split.
    + intros. exists [place_name p]. split; [done|]. apply inside_iff. intros x ->%list_elem_of_singleton. done.
    + intros (? & -> & H). rewrite inside_iff in H. apply H. left.
  - done.
  - simpl. rewrite bool_decide_eq_true. setoid_rewrite list_elem_of_singleton. split.
    + intros. exists [place_name t]. split; [done|]. apply inside_iff. intros x ->%list_elem_of_singleton. done.
    + intros (? & -> & H). rewrite inside_iff in H. apply H. left.
Qed.

Lemma canBeEmpty_spec o : canBeEmpty o = true ↔ [] ∈ branches o.
Proof.
  induction o as [cs IH|cs IH|p|ms c IH|f t] using out_ind'.
  - change (branches (OutAnd cs)) with (branches_and cs). cbn [canBeEmpty].
    induction IH as [|c cs Hc Hcs IH]; cbn [forallb].
    + split; [|done]. intros _. left.
    + rewrite andb_true_iff, Hc, IH. cbn [branches_and foldr]. rewrite elem_of_product. split.
      * intros [? ?]. by exists [], [].
      * by intros (a & b & ? & ? & [-> ->]%eq_sym%app_eq_nil).
  - cbn [canBeEmpty]. rewrite existsb_exists. setoid_rewrite <- list_elem_of_In.
    change (branches (OutXor cs)) with (branches_xor cs). rewrite elem_of_branches_xor.
    rewrite Forall_forall in IH. split; intros (c & Hc & H); exists c; split; try done; by apply IH.
  - simpl. rewrite list_elem_of_singleton. done.
  - done.
  - simpl. rewrite list_elem_of_singleton. done.
Qed.

(** A list of branches with its indices, and those inside [w]. *)
Definition indexed (n : nat) (bs : list (list jsstr)) : list (Z * list jsstr) :=
  imap (λ i b, (Z.of_nat (n + i), b)) bs.
Definition indexed_within (w : list jsstr) (n : nat) (bs : list (list jsstr)) : list (Z * list jsstr) :=
  filter (λ x, inside w x.2 = true) (indexed n bs).

Lemma indexed_cons n b bs : indexed n (b :: bs) = (Z.of_nat n, b) :: indexed (S n) bs.
Proof.
  unfold indexed. simpl. rewrite Nat.add_0_r. f_equal. apply imap_ext. intros i x _. simpl.
  by rewrite Nat.add_succ_r.
Qed.

Lemma indexed_app n A B : indexed n (A ++ B) = indexed n A ++ indexed (n + length A) B.
Proof.
  unfold indexed. rewrite imap_app. f_equal. apply imap_ext. intros i x _. simpl. by rewrite Nat.add_assoc.
Qed.

Lemma indexed_within_cons w n b bs :
  indexed_within w n (b :: bs) =
  (if inside w b then [(Z.of_nat n, b)] else []) ++ indexed_within w (S n) bs.
Proof. unfold indexed_within. rewrite indexed_cons, filter_cons. simpl. case_decide; by case_bool. Qed.

Lemma indexed_within_app w n A B :
  indexed_within w n (A ++ B) = indexed_within w n A ++ indexed_within w (n + length A) B.
Proof. unfold indexed_within. by rewrite indexed_app, filter_app. Qed.

Lemma indexed_within_nil w n bs : (∀ b, b ∈ bs → inside w b = false) → indexed_within w n bs = [].
Proof.
  revert n. induction bs as [|b bs IH]; intros n H; [done|].
  rewrite indexed_within_cons, H by left. apply IH. intros; apply H. by right.
Qed.

Lemma indexed_within_shift w n bs :
  indexed_within w n bs = (λ x : Z * list jsstr, (Z.of_nat n + x.1, x.2)%Z) <$> indexed_within w 0 bs.
Proof.
  assert (∀ m, indexed_within w (n + m) bs =
    (λ x : Z * list jsstr, (Z.of_nat n + x.1, x.2)%Z) <$> indexed_within w m bs) as H.
  { induction bs as [|b bs IH]; intros m; [done|].
    rewrite !indexed_within_cons, <- Nat.add_succ_r, IH, fmap_app.
    f_equal. case_bool; [|done]. simpl. repeat f_equal. lia. }
  rewrite <- (Nat.add_0_r n) at 1. apply H.
Qed.

Lemma indexed_within_prefix w a n B :
  indexed_within w n ((app a) <$> B) =
  if inside w a then (λ x : Z * list jsstr, (x.1, a ++ x.2)) <$> indexed_within w n B else [].
Proof.
  revert n. induction B as [|b B IH]; intros n; [by case_bool|].
  rewrite fmap_cons, !indexed_within_cons, IH, inside_app.
  destruct (inside w a); simpl; [|done]. rewrite fmap_app. by destruct (inside w b).
Qed.

Lemma indexed_within_product w n A B :
  indexed_within w (n * length B) (product A B) =
  (a ← indexed_within w n A; b ← indexed_within w 0 B;
   [(a.1 * Z.of_nat (length B) + b.1, a.2 ++ b.2)%Z]).
Proof.
  revert n. induction A as [|a A IH]; intros n; [done|].
  rewrite product_cons, indexed_within_app, length_fmap, indexed_within_cons.
  replace (n * length B + length B) with (S n * length B) by lia. rewrite IH, bind_app.
  f_equal. rewrite indexed_within_prefix. case_bool; [|done].
  simpl. rewrite app_nil_r, (indexed_within_shift w (n * length B)), <- list_fmap_compose.
  generalize (indexed_within w 0 B). intros l. induction l as [|[i b] l IHl]; [done|].
  rewrite fmap_cons, bind_cons, IHl. simpl. repeat f_equal. lia.
Qed.

Definition within_product (w : list jsstr) :=
  fix productWithin (l : list out) : list (Z * list jsstr) := match l with
    | [] => [(0%Z, [])]
    | c :: l' =>
        a ← branchesWithin c w; b ← productWithin l';
        [(a.1 * count_all l' + b.1, a.2 ++ b.2)%Z]
    end.

Lemma within_product_spec w cs :
  Forall (λ c, branchesWithin c w = indexed_within w 0 (branches c)) cs →
  within_product w cs = indexed_within w 0 (branches_and cs).
Proof.
  induction 1 as [|c cs Hc Hcs IH]; [done|].
  cbn [within_product branches_and foldr]. rewrite Hc, IH, count_all_branches.
  by rewrite <- (indexed_within_product w 0).
Qed.

Lemma branchesWithin_spec o w : branchesWithin o w = indexed_within w 0 (branches o).
Proof.
  induction o as [cs IH|cs IH|p|ms c IH|f t] using out_ind'.
  - change (branchesWithin (OutAnd cs) w) with
      (if canStayWithin (OutAnd cs) w then within_product w cs else []).
    case_bool; [by apply within_product_spec|]. symmetry. apply indexed_within_nil.
    intros b Hb. destruct (inside w b) eqn:E; [|done].
    apply not_true_iff_false in Heqb. destruct Heqb. apply canStayWithin_spec. eauto.
  - change (branches (OutXor cs)) with (branches_xor cs). cbn [branchesWithin].
    change 0%Z with (Z.of_nat 0). generalize 0 as n. induction IH as [|c cs Hc Hcs IH]; intros n; [done|].
    rewrite Hc, count_branches. cbn [branches_xor foldr].
    rewrite indexed_within_app, <- indexed_within_shift, <- Nat2Z.inj_add, IH. done.
  - simpl. rewrite indexed_within_cons. unfold inside. simpl. rewrite andb_true_r. by case_bool.
  - done.
  - simpl. rewrite indexed_within_cons. unfold inside. simpl. rewrite andb_true_r. by case_bool.
Qed.

(** ** The first collision *)

Definition min_opt (a b : option nat) : option nat :=
  match a, b with
  | Some x, Some y => Some (x `min` y)
  | Some x, None => Some x
  | None, _ => b
  end.

Definition hit (seen : list (list jsstr)) (b : list jsstr) : bool := existsb (same_set b) seen.

Lemma hit_iff seen b : hit seen b = true ↔ ∃ b', b' ∈ seen ∧ same_set b b' = true.
Proof. unfold hit. rewrite existsb_exists. by setoid_rewrite <- list_elem_of_In. Qed.

Lemma find_index_orb {A} (f g : A → bool) l :
  find_index (λ x, f x || g x) l = min_opt (find_index f l) (find_index g l).
Proof.
  induction l as [|x l IH]; simpl; [done|]. rewrite IH.
  destruct (f x), (g x), (find_index f l), (find_index g l); simpl; try done;
    f_equal; lia.
Qed.

Lemma min_opt_assoc a b c : min_opt a (min_opt b c) = min_opt (min_opt a b) c.
Proof. destruct a, b, c; simpl; try done. f_equal. lia. Qed.

Lemma min_opt_comm a b : min_opt a b = min_opt b a.
Proof. destruct a, b; simpl; try done. f_equal. lia. Qed.

Lemma first_dup_from_seen seen bs :
  first_dup_from seen bs = min_opt (first_dup bs) (find_index (hit seen) bs).
Proof.
  revert seen. unfold first_dup. induction bs as [|b bs IH]; intros seen; [done|].
  cbn [first_dup_from find_index existsb]. fold (hit seen b). simpl app.
  rewrite (IH (seen ++ [b])), (IH [b]).
  rewrite (find_index_ext (hit (seen ++ [b])) (λ x, hit [b] x || hit seen x)).
  2:{ intros x _. unfold hit. rewrite existsb_app. simpl. by rewrite orb_comm, orb_false_r. }
  rewrite find_index_orb, min_opt_assoc.
  unfold first_dup.
  destruct (hit seen b), (min_opt (first_dup_from [] bs) (find_index (hit [b]) bs)),
    (find_index (hit seen) bs); done.
Qed.

Lemma first_dup_from_app seen A B :
  first_dup_from seen (A ++ B) =
  match first_dup_from seen A with
  | Some j => Some j
  | None => (λ j, length A + j) <$> first_dup_from (seen ++ A) B
  end.
Proof.
  revert seen. induction A as [|a A IH]; intros seen; simpl.
  - rewrite app_nil_r. by destruct (first_dup_from seen B).
  - case_bool; [done|]. rewrite IH, <- app_assoc. simpl.
    destruct (first_dup_from (seen ++ [a]) A); [done|].
    by destruct (first_dup_from (seen ++ a :: A) B).
Qed.

Lemma first_dup_app A B :
  first_dup (A ++ B) =
  match first_dup A with
  | Some j => Some j
  | None => (λ j, length A + j) <$> min_opt (first_dup B) (find_index (hit A) B)
  end.
Proof. unfold first_dup at 1 2. by rewrite first_dup_from_app, (first_dup_from_seen ([] ++ A) B). Qed.

(** Index [j] claims what an earlier index claims. *)
Definition dup_at (bs : list (list jsstr)) (j : nat) : Prop :=
  ∃ i b b', i < j ∧ bs !! i = Some b' ∧ bs !! j = Some b ∧ same_set b b' = true.

Lemma first_dup_snoc bs b :
  first_dup (bs ++ [b]) =
  match first_dup bs with
  | Some j => Some j
  | None => if hit bs b then Some (length bs) else None
  end.
Proof.
  rewrite first_dup_app. destruct (first_dup bs); [done|]. simpl.
  destruct (hit bs b); simpl; [|done]. by rewrite Nat.add_0_r.
Qed.

Lemma dup_at_snoc bs b j :
  dup_at (bs ++ [b]) j ↔ dup_at bs j ∨ (j = length bs ∧ hit bs b = true).
Proof.
  unfold dup_at. rewrite hit_iff. split.
  - intros (i & c & c' & Hij & Hi & Hj & Hs).
    apply lookup_snoc_Some in Hj as [[Hl Hj]|[-> ->]].
    + left. apply lookup_snoc_Some in Hi as [[_ Hi]|[-> ->]]; [|lia]. eauto 10.
    + right. split; [done|]. apply lookup_snoc_Some in Hi as [[_ Hi]|[-> _]]; [|lia].
      exists c'. split; [by eapply list_elem_of_lookup_2|done].
  - intros [(i & c & c' & Hij & Hi & Hj & Hs)|[-> (c & Hc & Hs)]].
    + exists i, c, c'. split_and!; auto using lookup_app_l_Some.
    + apply list_elem_of_lookup in Hc as [i Hi]. exists i, b, c. split_and!; auto using lookup_app_l_Some.
      * by eapply lookup_lt_Some.
      * by rewrite lookup_app_r, Nat.sub_diag by lia.
Qed.

Lemma dup_at_lt bs j : dup_at bs j → j < length bs.
Proof. intros (i & b & b' & ? & ? & ? & ?). by eapply lookup_lt_Some. Qed.

Lemma first_dup_spec bs :
  match first_dup bs with
  | Some j => dup_at bs j ∧ ∀ k, k < j → ¬ dup_at bs k
  | None => ∀ k, ¬ dup_at bs k
  end.
Proof.
  induction bs as [|b bs IH] using rev_ind.
  { intros k H. by apply dup_at_lt in H; simpl in H; lia. }
  rewrite first_dup_snoc. destruct (first_dup bs) as [j|].
  - destruct IH as [Hj Hmin]. split; [rewrite dup_at_snoc; auto|].
    intros k Hk [Hd|[-> _]]%dup_at_snoc; [by eapply Hmin|]. apply dup_at_lt in Hj. lia.
  - destruct (hit bs b) eqn:E.
    + split; [rewrite dup_at_snoc; auto|]. intros k Hk [Hd|[-> _]]%dup_at_snoc; [by eapply IH|lia].
    + intros k [Hd|[_ Hh]]%dup_at_snoc; [by eapply IH|congruence].
Qed.

Lemma first_dup_unique bs j : dup_at bs j → (∀ k, k < j → ¬ dup_at bs k) → first_dup bs = Some j.
Proof.
  intros Hj Hmin. pose proof (first_dup_spec bs) as H. destruct (first_dup bs) as [j'|].
  - destruct H as [Hj' Hmin']. f_equal. destruct (decide (j < j')); [by edestruct Hmin'|].
    destruct (decide (j' < j)); [by edestruct Hmin|lia].
  - by edestruct H.
Qed.

Lemma head_some {A} (l : list A) : l ≠ [] → ∃ x, l !! 0 = Some x.
Proof. destruct l; naive_solver. Qed.

Section ProductCollision.
Variables A B : list (list jsstr).
Hypothesis sep : ∀ a a' b b', a ∈ A → a' ∈ A → b ∈ B → b' ∈ B →
  same_set (a ++ b) (a' ++ b') = same_set a a' && same_set b b'.
Hypothesis A_ne : A ≠ [].
Hypothesis B_ne : B ≠ [].

Lemma product_dup_at k :
  dup_at (product A B) k ↔
  ∃ i j i' j' a a' b b', k = i * length B + j ∧ (i' < i ∨ i' = i ∧ j' < j) ∧
    A !! i = Some a ∧ A !! i' = Some a' ∧ B !! j = Some b ∧ B !! j' = Some b' ∧
    same_set a a' = true ∧ same_set b b' = true.
Proof using A B sep.
  split.
  - intros (k' & x & x' & Hlt & Hk' & Hk & Hs).
    apply product_lookup_inv in Hk as (i & j & a & b & -> & Ha & Hb & ->).
    apply product_lookup_inv in Hk' as (i' & j' & a' & b' & -> & Ha' & Hb' & ->).
    pose proof (lookup_lt_Some _ _ _ Hb). pose proof (lookup_lt_Some _ _ _ Hb').
    rewrite sep in Hs by (by eapply list_elem_of_lookup_2).
    apply andb_true_iff in Hs as [? ?].
    exists i, j, i', j', a, a', b, b'. split_and!; auto. nia.
  - intros (i & j & i' & j' & a & a' & b & b' & -> & Hlt & Ha & Ha' & Hb & Hb' & ? & ?).
    pose proof (lookup_lt_Some _ _ _ Hb). pose proof (lookup_lt_Some _ _ _ Hb').
    exists (i' * length B + j'), (a ++ b), (a' ++ b'). split_and!; try by apply product_lookup.
    + nia.
    + rewrite sep by (by eapply list_elem_of_lookup_2). by apply andb_true_iff.
Qed.

Lemma first_dup_product :
  first_dup (product A B) =
  match first_dup B with
  | Some j => Some j
  | None => (λ i, i * length B) <$> first_dup A
  end.
Proof using A B sep A_ne B_ne.
  pose proof (first_dup_spec B) as HB. destruct (first_dup B) as [jB|].
  - destruct HB as [(j' & b & b' & Hlt & Hb' & Hb & Hs) Hmin]. apply first_dup_unique.
    + destruct (head_some A A_ne) as [a Ha]. apply product_dup_at.
      exists 0, jB, 0, j', a, a, b, b'. split_and!; auto using same_set_refl.
    + intros k Hk (i & j & i' & j2 & a & a' & c & c' & -> & Hor & Ha & Ha' & Hc & Hc' & Hsa & Hsc)%product_dup_at.
      pose proof (lookup_lt_Some _ _ _ Hb). pose proof (lookup_lt_Some _ _ _ Hc).
      assert (i = 0) as -> by nia. destruct Hor as [?|[-> ?]]; [lia|].
      apply (Hmin j); [lia|]. exists j2, c, c'. auto.
  - pose proof (first_dup_spec A) as HA.
    assert (∀ i j i' j' b b', i' < i ∨ i' = i ∧ j' < j → B !! j = Some b → B !! j' = Some b' →
              same_set b b' = true → i' < i) as Hlex.
    { intros i j i' j' b b' [?|[-> Hlt]] Hb Hb' Hs; [done|]. destruct (HB j). exists j', b, b'. auto. }
    destruct (first_dup A) as [iA|]; simpl.
    + destruct HA as [(i' & a & a' & Hlt & Ha' & Ha & Hs) Hmin]. apply first_dup_unique.
      * destruct (head_some B B_ne) as [b Hb]. apply product_dup_at.
        exists iA, 0, i', 0, a, a', b, b. split_and!; auto using same_set_refl.
      * intros k Hk (i & j & i2 & j2 & c & c' & b & b' & -> & Hor & Hc & Hc' & Hb & Hb' & Hsa & Hsb)%product_dup_at.
        apply (Hmin i); [nia|]. exists i2, c, c'. split_and!; auto. by eapply Hlex.
    + pose proof (first_dup_spec (product A B)) as HP.
      destruct (first_dup (product A B)) as [k|]; [|done]. destruct HP as [HP _].
      apply product_dup_at in HP as (i & j & i2 & j2 & c & c' & b & b' & -> & Hor & Hc & Hc' & Hb & Hb' & Hsa & Hsb).
      destruct (HA i). exists i2, c, c'. split_and!; auto. by eapply Hlex.
Qed.
End ProductCollision.


(** ** The collisions of one alternative with the earlier ones *)

Definition claimed (rivals : list out) (b : list jsstr) : bool :=
  existsb (λ r, bool_decide (is_Some (firstIndexOf r (set_of b)))) rivals.

Lemma first_claimed_spec rivals bound w n bs :
  first_claimed rivals bound (indexed_within w n bs) =
  match find_index (λ b, inside w b && claimed rivals b) bs with
  | Some k => if match bound with Some m => (m <? Z.of_nat (n + k))%Z | None => false end
              then None else Some (Z.of_nat (n + k))
  | None => None
  end.
Proof.
  revert n. induction bs as [|b bs IH]; intros n; [done|].
  rewrite indexed_within_cons. cbn [find_index]. destruct (inside w b); simpl.
  - fold (claimed rivals b). rewrite IH. destruct (claimed rivals b); rewrite ?Nat.add_0_r; [done|].
    destruct (find_index _ bs) as [k|]; simpl; [|by repeat case_match].
    rewrite Nat.add_succ_r. destruct bound as [m|]; [|done]. repeat case_bool; b2p; try done; lia.
  - rewrite IH. destruct (find_index _ bs) as [k|]; simpl; [|done]. by rewrite Nat.add_succ_r.
Qed.

Lemma claimed_hit rivals b : Forall dup_free rivals → claimed rivals b = hit (branches_xor rivals) b.
Proof.
  intros H. apply eq_true_iff_eq. rewrite hit_iff. unfold claimed. rewrite existsb_exists.
  rewrite Forall_forall in H. setoid_rewrite elem_of_branches_xor.
  setoid_rewrite bool_decide_eq_true. setoid_rewrite <- list_elem_of_In. split.
  - intros (r & Hr & Hs). rewrite (firstIndexOf_spec r (H r Hr)) in Hs by apply NoDup_set_of.
    rewrite fmap_is_Some in Hs. destruct Hs as [i (b' & Hb' & Hs & _)%find_index_Some].
    rewrite same_set_of in Hs. exists b'. split; [|done]. exists r. split; [done|].
    by eapply list_elem_of_lookup_2.
  - intros (b' & (r & Hr & Hb') & Hs). exists r. split; [done|].
    rewrite (firstIndexOf_spec r (H r Hr)) by apply NoDup_set_of. rewrite fmap_is_Some.
    apply not_eq_None_Some. rewrite find_index_None. intros Hn.
    apply list_elem_of_lookup in Hb' as [i Hi]. apply Hn in Hi. rewrite same_set_of in Hi. congruence.
Qed.

(** The alternatives that can share a branch with [child]. *)
Definition rivals_of (earlier : list out) (child : out) : list out :=
  filter (λ e, existsb (λ p, bool_decide (p ∈ universe child)) (universe e)
               || (canBeEmpty child && canBeEmpty e)) earlier.

Lemma elem_of_rivals earlier c e :
  e ∈ rivals_of earlier c ↔
  e ∈ earlier ∧ ((∃ x, x ∈ universe e ∧ x ∈ universe c) ∨ [] ∈ branches c ∧ [] ∈ branches e).
Proof.
  unfold rivals_of. rewrite list_elem_of_filter, Is_true_true, orb_true_iff, andb_true_iff, !canBeEmpty_spec, existsb_exists.
  setoid_rewrite bool_decide_eq_true. setoid_rewrite <- list_elem_of_In. naive_solver.
Qed.

Lemma same_set_nil_l b : same_set [] b = true → b = [].
Proof.
  rewrite same_set_iff. destruct b as [|x b]; [done|]. intros H.
  by destruct (not_elem_of_nil x); apply H; left.
Qed.

Lemma hit_rivals earlier c b : b ∈ branches c →
  hit (branches_xor earlier) b =
  inside (foldl (λ u r, set_union u (universe r)) [] (rivals_of earlier c)) b &&
  hit (branches_xor (rivals_of earlier c)) b.
Proof.
  intros Hb. apply eq_true_iff_eq. rewrite andb_true_iff, !hit_iff, inside_iff.
  setoid_rewrite elem_of_branches_xor. setoid_rewrite elem_of_foldl_union.
  setoid_rewrite elem_of_rivals. split; [|naive_solver].
  intros (b' & (e & He & Hb') & Hs). pose proof Hs as Hs'. rewrite same_set_iff in Hs'.
  assert (∀ x, x ∈ b → x ∈ universe e ∧ x ∈ universe c) as Hu.
  { intros x Hx. split; [apply (branches_universe e b'); [done|by apply Hs']|by eapply branches_universe]. }
  assert ((∃ x, x ∈ universe e ∧ x ∈ universe c) ∨ [] ∈ branches c ∧ [] ∈ branches e) as Hr.
  { destruct b as [|x b]; [right|left; exists x; apply Hu; left].
    apply same_set_nil_l in Hs as ->. done. }
  split; [|by eauto 10]. intros x Hx. right. exists e. split; [done|]. by apply Hu.
Qed.

Lemma firstClaimedEarlier_spec earlier c bound :
  Forall dup_free earlier →
  firstClaimedEarlier earlier c bound =
  match find_index (hit (branches_xor earlier)) (branches c) with
  | Some k => if match bound with Some m => (m <? Z.of_nat k)%Z | None => false end
              then None else Some (Z.of_nat k)
  | None => None
  end.
Proof.
  intros H. unfold firstClaimedEarlier. fold (rivals_of earlier c).
  rewrite branchesWithin_spec, first_claimed_spec.
  set (w := foldl _ [] _).
  rewrite (find_index_ext (λ b, inside w b && claimed (rivals_of earlier c) b) (hit (branches_xor earlier))).
  - case_bool_decide as E; [|done].
    rewrite (proj2 (find_index_None _ _)); [done|]. intros i b Hb%list_elem_of_lookup_2.
    rewrite (hit_rivals earlier c b Hb), E. apply andb_false_r.
  - intros b Hb. rewrite (hit_rivals earlier c b Hb), claimed_hit; [done|].
    apply Forall_forall. intros e [He _]%elem_of_rivals. rewrite Forall_forall in H. auto.
Qed.

Lemma xor_local_spec earlier c own : Forall dup_free earlier →
  xor_local (Z.of_nat <$> own) (firstClaimedEarlier earlier c (Z.of_nat <$> own)) =
  Z.of_nat <$> min_opt own (find_index (hit (branches_xor earlier)) (branches c)).
Proof.
  intros H. rewrite firstClaimedEarlier_spec by done.
  destruct (find_index _ _) as [k|], own as [o|]; simpl; try done.
  case_bool; b2p; simpl; [by rewrite Nat.min_l by lia|].
  rewrite (proj2 (Z.leb_le _ _)) by lia. by rewrite Nat.min_r by lia.
Qed.

(** ** The first collision of an output *)

Definition collides (o : out) : Prop := firstCollision o = Z.of_nat <$> first_dup (branches o).

Definition collision_xor :=
  fix scan (earlier l : list out) (offset : Z) : option Z := match l with
    | [] => None
    | c :: l' =>
        match xor_local (firstCollision c) (firstClaimedEarlier earlier c (firstCollision c)) with
        | Some local => Some (offset + local)%Z
        | None => scan (earlier ++ [c]) l' (offset + count c)%Z
        end
    end.

Lemma branches_xor_app A B : branches_xor (A ++ B) = branches_xor A ++ branches_xor B.
Proof. induction A as [|a A IH]; simpl; [done|]. by rewrite IH, app_assoc. Qed.

Lemma collision_xor_spec earlier l offset :
  Forall dup_free earlier → Forall dup_free l → Forall collides l →
  collision_xor earlier l offset =
  (λ j, offset + Z.of_nat j)%Z <$> first_dup_from (branches_xor earlier) (branches_xor l).
Proof.
  intros He Hl Hc. revert earlier offset He.
  induction Hc as [|c l Hc Hcs IH]; intros earlier offset He; [done|].
  apply Forall_cons in Hl as [Hd Hl]. cbn [collision_xor branches_xor foldr].
  rewrite Hc, xor_local_spec, first_dup_from_app, first_dup_from_seen by done.
  destruct (min_opt _ _) as [j|]; simpl; [done|].
  rewrite IH; [|done|by apply Forall_app; auto].
  rewrite branches_xor_app. simpl. rewrite app_nil_r, count_branches.
  fold (branches_xor l). destruct (first_dup_from _ (branches_xor l)); simpl; [|done]. f_equal. lia.
Qed.

Definition collision_and :=
  fix last_child (l : list out) : option Z * Z := match l with
    | [] => (None, 1%Z)
    | c :: l' =>
        match last_child l' with
        | (Some j, stride) => (Some j, stride)
        | (None, stride) =>
            match firstCollision c with
            | Some jc => (Some (jc * stride)%Z, stride)
            | None => (None, (stride * count c)%Z)
            end
        end
    end.

Lemma disjoint_sep (U : list jsstr) (A B : list (list jsstr)) :
  (∀ a x, a ∈ A → x ∈ a → x ∈ U) → (∀ b x, b ∈ B → x ∈ b → x ∉ U) →
  ∀ a a' b b', a ∈ A → a' ∈ A → b ∈ B → b' ∈ B →
  same_set (a ++ b) (a' ++ b') = same_set a a' && same_set b b'.
Proof.
  intros HA HB a a' b b' Ha Ha' Hb Hb'. apply eq_true_iff_eq.
  rewrite andb_true_iff, !same_set_iff. setoid_rewrite elem_of_app.
  pose proof (λ x, HA a x Ha). pose proof (λ x, HA a' x Ha').
  pose proof (λ x, HB b x Hb). pose proof (λ x, HB b' x Hb'). clear -H H0 H1 H2.
  split; [|naive_solver]. intros Hs. split; intros x; specialize (Hs x); naive_solver.
Qed.

Lemma collision_and_spec l :
  Forall dup_free l → disjoint_children l → Forall collides l → Forall (λ c, branches c ≠ []) l →
  match first_dup (branches_and l) with
  | Some j => fst (collision_and l) = Some (Z.of_nat j)
  | None => collision_and l = (None, Z.of_nat (length (branches_and l)))
  end.
Proof.
  intros Hd Hj Hc Hne. induction Hc as [|c l Hc Hcs IH]; [done|].
  apply Forall_cons in Hd as [Hdc Hd], Hne as [Hnc Hne]. destruct Hj as [Hcd Hj].
  specialize (IH Hd Hj Hne). cbn [branches_and foldr]. fold (branches_and l).
  rewrite first_dup_product; [|eapply (disjoint_sep (universe c))|done|].
  - cbn [collision_and]. destruct (first_dup (branches_and l)) as [j|].
    + destruct (collision_and l) as [[j'|] s]; simpl in *; by simplify_eq.
    + rewrite IH, Hc. destruct (first_dup (branches c)) as [i|]; simpl.
      * do 2 f_equal. lia.
      * f_equal. rewrite count_branches, product_length. lia.
  - intros a x. apply branches_universe.
  - intros b x Hb Hx. edestruct (branches_and_sub l b x) as (d & Hdl & Hxd); [|done..|].
    + intros ? ? _. apply branches_universe.
    + rewrite Forall_forall in Hcd. intros Hxc. by apply (Hcd d Hdl x).
  - apply branches_and_nonempty. by apply Forall_forall.
Qed.

Lemma firstCollision_spec o : dup_free o → inhabited_xors o = true → collides o.
Proof.
  induction o as [cs IH|cs IH|p|ms c IH|f t] using out_ind'; intros Hd Hi; try done.
  - destruct Hd as [Hd Hj]. rewrite foldr_and_Forall in Hd.
    assert (∀ c, c ∈ cs → inhabited_xors c = true) as Hic.
    { intros c. apply (inhabited_xors_child (OutAnd cs)); auto. }
    rewrite Forall_forall in IH.
    pose proof (collision_and_spec cs Hd Hj) as H.
    unfold collides. change (firstCollision (OutAnd cs)) with (fst (collision_and cs)).
    change (branches (OutAnd cs)) with (branches_and cs).
    destruct (first_dup (branches_and cs)); rewrite H; try done; rewrite Forall_forall in *;
      auto using branches_nonempty.
  - simpl in Hd. rewrite foldr_and_Forall in Hd.
    assert (∀ c, c ∈ cs → inhabited_xors c = true) as Hic.
    { intros c. apply (inhabited_xors_child (OutXor cs)); auto. }
    unfold collides. change (firstCollision (OutXor cs)) with (collision_xor [] cs 0%Z).
    rewrite collision_xor_spec; [|done..|].
    + done.
    + rewrite Forall_forall in *. auto.
  - by apply IH.
Qed.

(** ** The enumeration that the analysis replaces *)

Definition names (bs : list (list place)) : list (list jsstr) :=
  (λ b : list place, (place_name <$> b : list jsstr)) <$> bs.

Lemma crossProduct_names A B :
  Forall NoDup B → (∀ a b x, a ∈ A → b ∈ B → x ∈ b → x ∉ a) →
  names (crossProduct A B) = product (names A) (names B).
Proof.
  intros HB H. unfold names, crossProduct. induction A as [|a A IH]; [done|].
  rewrite bind_cons, fmap_app, IH by (intros; eapply H; eauto; by right).
  rewrite fmap_cons, product_cons. f_equal.
  assert (∀ b x, b ∈ B → x ∈ b → x ∉ a) as Ha by (intros b x ? ?; eapply H; eauto; left).
  clear IH H. induction HB as [|b B Hb HB IHB]; [done|].
  rewrite bind_cons, fmap_app, IHB by (intros ?? ?; apply Ha; by right).
  rewrite !fmap_cons. simpl. rewrite set_union_disjoint, fmap_app; [done|done|].
  intros x. apply Ha. left.
Qed.

Lemma crossProduct_NoDup A B : Forall NoDup A → Forall NoDup (crossProduct A B).
Proof.
  unfold crossProduct. rewrite !Forall_forall. intros HA x.
  rewrite list_elem_of_bind. intros (a & Hx & Ha). rewrite list_elem_of_bind in Hx.
  destruct Hx as (b & ->%list_elem_of_singleton & Hb). auto using NoDup_set_union.
Qed.

Definition enumerates (c : out) : Prop :=
  names (enumerateBranches c) = branches c ∧ Forall NoDup (enumerateBranches c).

Lemma enumerates_universe c b p :
  enumerates c → b ∈ enumerateBranches c → p ∈ b → place_name p ∈ universe c.
Proof.
  intros [E _] Hb Hp. apply (branches_universe c (place_name <$> b)).
  - rewrite <- E. by apply list_elem_of_fmap_2.
  - by apply list_elem_of_fmap_2.
Qed.

Lemma enumerate_and_spec cs acc :
  Forall enumerates cs → disjoint_children cs → Forall NoDup acc →
  (∀ a p c, a ∈ acc → p ∈ a → c ∈ cs → place_name p ∉ universe c) →
  names (foldl (λ acc c, crossProduct acc (enumerateBranches c)) acc cs) =
    product (names acc) (branches_and cs) ∧
  Forall NoDup (foldl (λ acc c, crossProduct acc (enumerateBranches c)) acc cs).
Proof.
  intros Hcs. revert acc. induction Hcs as [|c cs Hc Hcs IH]; intros acc Hd Hacc Hsep.
  { simpl. by rewrite product_nil_r. }
  destruct Hd as [Hcd Hd]. cbn [foldl branches_and foldr]. rewrite Forall_forall in Hcd.
  destruct (IH (crossProduct acc (enumerateBranches c))) as [E ?].
  - done.
  - by apply crossProduct_NoDup.
  - intros a p d Ha Hp Hdc. unfold crossProduct in Ha. rewrite list_elem_of_bind in Ha.
    destruct Ha as (a' & Ha & Ha'). rewrite list_elem_of_bind in Ha.
    destruct Ha as (b & ->%list_elem_of_singleton & Hb).
    apply elem_of_set_union in Hp as [Hp|Hp]; [eapply Hsep; eauto; by right|].
    apply (Hcd d Hdc). by eapply enumerates_universe.
  - split; [|done]. rewrite E, crossProduct_names.
    + destruct Hc as [-> _]. by rewrite product_assoc.
    + by destruct Hc.
    + intros a b x Ha Hb Hx Hxa. apply (Hsep a x c); auto; [left|]. by eapply enumerates_universe.
Qed.

Lemma enumerate_xor_spec cs acc :
  Forall enumerates cs → Forall NoDup acc →
  names (foldl (λ acc c, acc ++ enumerateBranches c) acc cs) = names acc ++ branches_xor cs ∧
  Forall NoDup (foldl (λ acc c, acc ++ enumerateBranches c) acc cs).
Proof.
  intros Hcs. revert acc. induction Hcs as [|c cs [Hc Hn] Hcs IH]; intros acc Hacc.
  { simpl. by rewrite app_nil_r. }
  cbn [foldl branches_xor foldr]. destruct (IH (acc ++ enumerateBranches c)) as [E ?].
  { by apply Forall_app. }
  split; [|done]. rewrite E. unfold names. rewrite fmap_app. fold (names (enumerateBranches c)).
  by rewrite Hc, <- app_assoc.
Qed.

Lemma enumerateBranches_spec o : dup_free o → enumerates o.
Proof.
  induction o as [cs IH|cs IH|p|ms c IH|f t] using out_ind'; intros Hd.
  - destruct Hd as [Hd Hj]. rewrite foldr_and_Forall in Hd.
    destruct (enumerate_and_spec cs [[]]) as [E ?].
    + rewrite Forall_forall in *. auto.
    + done.
    + repeat constructor.
    + intros a p c ->%list_elem_of_singleton ?%not_elem_of_nil. done.
    + split; [|done]. cbn [enumerateBranches]. rewrite E. apply product_nil_l.
  - simpl in Hd. rewrite foldr_and_Forall in Hd.
    destruct (enumerate_xor_spec cs []) as [E ?]; [|constructor|done].
    rewrite Forall_forall in *. auto.
  - split; [done|]. repeat constructor. apply not_elem_of_nil.
  - by apply IH.
  - split; [done|]. repeat constructor. apply not_elem_of_nil.
Qed.

(** ** Duplicates within a branch *)

(** [x] occurs at two positions of [b]. *)
Definition repeats (x : jsstr) (b : list jsstr) : Prop :=
  ∃ l1 l2 l3, b = l1 ++ x :: l2 ++ x :: l3.

Lemma repeats_app_l x a b : repeats x a → repeats x (a ++ b).
Proof. intros (l1 & l2 & l3 & ->). exists l1, l2, (l3 ++ b). by simplify_list_eq. Qed.

Lemma repeats_app_r x a b : repeats x b → repeats x (a ++ b).
Proof. intros (l1 & l2 & l3 & ->). exists (a ++ l1), l2, l3. by simplify_list_eq. Qed.

Lemma repeats_app_both x a b : x ∈ a → x ∈ b → repeats x (a ++ b).
Proof.
  intros (l1 & l2 & ->)%list_elem_of_split (k1 & k2 & ->)%list_elem_of_split.
  exists l1, (l2 ++ k1), k2. by simplify_list_eq.
Qed.

Lemma repeats_not_NoDup x b : repeats x b → ¬ NoDup b.
Proof.
  intros (l1 & l2 & l3 & ->) (_ & _ & [Hn _]%NoDup_cons)%NoDup_app.
  apply Hn, elem_of_app. right. left.
Qed.
#[export] Hint Resolve repeats_app_l repeats_app_r repeats_app_both : petri.

Lemma universe_branches o x :
  inhabited_xors o = true → x ∈ universe o → ∃ b, b ∈ branches o ∧ x ∈ b.
Proof.
  induction o as [cs IH|cs IH|p|ms c IH|f t] using out_ind'; intros Hi Hx.
  - apply elem_of_universe_and in Hx.
    assert (∀ c, c ∈ cs → inhabited_xors c = true) as Hic by (intros c; apply (inhabited_xors_child (OutAnd cs)); auto).
    clear Hi. change (branches (OutAnd cs)) with (branches_and cs).
    induction IH as [|c cs Hc Hcs IH]; [by destruct Hx as (? & ?%not_elem_of_nil & _)|].
    assert (∀ d, d ∈ cs → inhabited_xors d = true) as Hid by (intros; apply Hic; by right).
    cbn [branches_and foldr]. setoid_rewrite elem_of_product.
    destruct Hx as (d & [->|Hd]%elem_of_cons & Hx).
    + destruct Hc as (a & ? & ?); [apply Hic; left|done|].
      destruct (branches_and cs) as [|b bs] eqn:E; [by edestruct (branches_and_nonempty cs); eauto using branches_nonempty|].
      exists (a ++ b). split; [|set_solver]. exists a, b. fold (branches_and cs). rewrite E. set_solver.
    + destruct IH as (b & ? & ?); [by exists d|done|].
      destruct (head_some (branches c)) as [a Ha%list_elem_of_lookup_2].
      { apply branches_nonempty, Hic. left. }
      exists (a ++ b). split; [|set_solver]. exists a, b. auto.
  - apply elem_of_universe_xor in Hx as (c & Hc & Hx). rewrite Forall_forall in IH.
    destruct (IH c Hc) as (b & ? & ?); [by apply (inhabited_xors_child (OutXor cs) cs); auto|done|].
    exists b. split; [|done]. apply elem_of_branches_xor. eauto.
  - apply list_elem_of_singleton in Hx as ->. exists [place_name p]. split; left.
  - by apply IH.
  - apply list_elem_of_singleton in Hx as ->. exists [place_name t]. split; left.
Qed.

Lemma merge_leaves_err b found leaves d :
  merge_leaves b found leaves = Err d →
  b = true ∧ bd_name d ∈ found.*1 ∧ (bd_name d ∈ leaves.*1 ∨ ¬ NoDup found.*1).
Proof.
  revert leaves. induction found as [|[n p] found IH]; intros leaves; [done|].
  cbn [merge_leaves]. rewrite fmap_cons. cbn [fst].
  destruct (map_get n leaves) as [prior|] eqn:E.
  - destruct b.
    + intros [= <-]. simpl. split_and!; [done|left|left].
      apply map_get_elem in E. by apply (list_elem_of_fmap_2 fst) in E.
    + intros (? & ? & ?)%IH. done.
  - intros (-> & Hf & Hl)%IH. split_and!; [done|by right|].
    rewrite NoDup_cons. destruct Hl as [Hl|Hl]; [|tauto].
    rewrite map_set_keys in Hl. case_decide; [by left|].
    apply elem_of_app in Hl as [?|Hl%list_elem_of_singleton]; [by left|]. right.
    rewrite Hl in Hf. tauto.
Qed.

Lemma merge_leaves_NoDup b found leaves l :
  merge_leaves b found leaves = Ok l → NoDup leaves.*1 → NoDup l.*1.
Proof.
  revert leaves. induction found as [|[n p] found IH]; intros leaves; simpl; [by intros [= ->]|].
  destruct (map_get n leaves); [destruct b; [done|]|]; eauto with petri.
Qed.

Lemma dup_loop_NoDup b cs L L' : dup_loop b cs (Ok L) = Ok L' → NoDup L.*1 → NoDup L'.*1.
Proof.
  revert L. induction cs as [|c cs IH]; intros L; simpl; [by intros [= ->]|].
  destruct (findDuplicate place_name c) as [l|]; simpl; [|by rewrite dup_loop_err].
  destruct (merge_leaves b l L) eqn:E; [|by rewrite dup_loop_err].
  eauto using merge_leaves_NoDup.
Qed.

Lemma findDuplicate_NoDup o l : findDuplicate place_name o = Ok l → NoDup l.*1.
Proof.
  revert l. induction o as [cs IH|cs IH|p|ms c IH|f t] using out_ind'; intros l H.
  - eapply (dup_loop_NoDup true cs []); [done|constructor].
  - eapply (dup_loop_NoDup false cs []); [done|constructor].
  - injection H as <-. apply NoDup_singleton.
  - by apply IH.
  - injection H as <-. apply NoDup_singleton.
Qed.

Definition reports (c : out) : Prop :=
  ∀ d, findDuplicate place_name c = Err d → ∃ b, b ∈ branches c ∧ repeats (bd_name d) b.

(** Where a loop over children stops: inside a child, or at a name of an earlier one. *)
Lemma dup_loop_err_inv b cs L d :
  dup_loop b cs (Ok L) = Err d →
  (∃ c, c ∈ cs ∧ findDuplicate place_name c = Err d) ∨
  (b = true ∧ ∃ pre c post, cs = pre ++ c :: post ∧ bd_name d ∈ universe c ∧
    (bd_name d ∈ L.*1 ∨ ∃ e, e ∈ pre ∧ bd_name d ∈ universe e)).
Proof.
  revert L. induction cs as [|c cs IH]; intros L; [done|]. simpl.
  destruct (findDuplicate place_name c) as [l|e] eqn:El; simpl.
  2:{ rewrite dup_loop_err. intros [= ->]. left. exists c. split; [left|done]. }
  pose proof (findDuplicate_ok c l El) as [_ Hu].
  destruct (merge_leaves b l L) as [L1|e] eqn:Em.
  - intros [(c' & ? & ?)|(-> & pre & c' & post & -> & Hx & Hor)]%IH.
    + left. exists c'. split; [by right|done].
    + right. split; [done|]. exists (c :: pre), c', post. split_and!; [done|done|].
      destruct Hor as [Hl|(e & ? & ?)]; [|right; exists e; split; [by right|done]].
      apply (merge_leaves_ok _ _ _ _ Em) in Hl as [?|Hl%Hu]; [by left|].
      right. exists c. split; [left|done].
  - rewrite dup_loop_err. intros [= ->]. right.
    apply merge_leaves_err in Em as (-> & Hx & Hor). split; [done|].
    exists [], c, cs. split_and!; [done|by apply Hu|].
    destruct Hor as [?|[]]; [by left|]. by eapply findDuplicate_NoDup.
Qed.

Lemma branches_and_elem cs c b :
  (∀ d, d ∈ cs → branches d ≠ []) → c ∈ cs → b ∈ branches c →
  ∃ b1 b2, b1 ++ b ++ b2 ∈ branches_and cs.
Proof.
  intros Hne Hc Hb. induction cs as [|d cs IH]; [by apply not_elem_of_nil in Hc|].
  apply elem_of_cons in Hc as [<-|Hc].
  - destruct (head_some (branches_and cs)) as [b2 H2%list_elem_of_lookup_2].
    { apply branches_and_nonempty. intros; apply Hne. by right. }
    exists [], b2. apply elem_of_product. eauto 10.
  - destruct IH as (b1 & b2 & H); [intros; apply Hne; by right|done|].
    destruct (head_some (branches d)) as [a Ha%list_elem_of_lookup_2]; [apply Hne; left|].
    exists (a ++ b1), b2. apply elem_of_product. exists a, (b1 ++ b ++ b2).
    split_and!; [done|done|by rewrite <- app_assoc].
Qed.

Lemma branches_and_pair pre c post e x :
  (∀ d, d ∈ pre ++ c :: post → inhabited_xors d = true) →
  e ∈ pre → x ∈ universe e → x ∈ universe c →
  ∃ b, b ∈ branches_and (pre ++ c :: post) ∧ repeats x b.
Proof.
  intros Hi He Hxe Hxc. induction pre as [|d pre IH]; [by apply not_elem_of_nil in He|].
  assert (∀ d', d' ∈ pre ++ c :: post → inhabited_xors d' = true) as Hi' by (intros; apply Hi; by right).
  cbn [app branches_and foldr]. fold (branches_and (pre ++ c :: post)). setoid_rewrite elem_of_product.
  apply elem_of_cons in He as [->|He].
  - destruct (universe_branches d x) as (a & ? & ?); [apply Hi; left|done|].
    destruct (universe_branches c x) as (b & ? & ?); [apply Hi'; set_solver|done|].
    destruct (branches_and_elem (pre ++ c :: post) c b) as (b1 & b2 & H'); [|set_solver|done|].
    { intros; by apply branches_nonempty, Hi'. }
    exists (a ++ b1 ++ b ++ b2). split; [eauto 10|]. apply repeats_app_both; set_solver.
  - destruct IH as (b & ? & ?); [done..|].
    destruct (head_some (branches d)) as [a Ha%list_elem_of_lookup_2].
    { apply branches_nonempty, Hi. left. }
    exists (a ++ b). split; [eauto 10|]. by apply repeats_app_r.
Qed.

Lemma findDuplicate_reports o : inhabited_xors o = true → reports o.
Proof.
  induction o as [cs IH|cs IH|p|ms c IH|f t] using out_ind'; intros Hi d Hd; try done.
  - assert (∀ c, c ∈ cs → inhabited_xors c = true) as Hic by (intros c; apply (inhabited_xors_child (OutAnd cs)); auto).
    rewrite Forall_forall in IH. change (branches (OutAnd cs)) with (branches_and cs).
    apply (dup_loop_err_inv true cs []) in Hd as [(c & Hc & Hd)|(_ & pre & c & post & -> & Hx & Hor)].
    + destruct (IH c Hc (Hic c Hc) d Hd) as (b & Hb & Hr).
      destruct (branches_and_elem cs c b) as (b1 & b2 & H); auto using branches_nonempty.
      eauto using repeats_app_l, repeats_app_r.
    + destruct Hor as [?%not_elem_of_nil|(e & ? & ?)]; [done|]. by eapply branches_and_pair.
  - rewrite Forall_forall in IH.
    apply (dup_loop_err_inv false cs []) in Hd as [(c & Hc & Hd)|(? & _)]; [|done].
    destruct (IH c Hc) with d as (b & Hb & Hr); [by apply (inhabited_xors_child (OutXor cs) cs); auto|done|].
    exists b. split; [|done]. apply elem_of_branches_xor. eauto.
  - by apply IH.
Qed.

Lemma branches_and_NoDup cs b :
  (∀ c b, c ∈ cs → b ∈ branches c → NoDup b) → disjoint_children cs → b ∈ branches_and cs → NoDup b.
Proof.
  revert b. induction cs as [|c cs IH]; intros b H Hd Hb.
  - apply list_elem_of_singleton in Hb as ->. constructor.
  - apply elem_of_product in Hb as (a & b' & Ha & Hb & ->). destruct Hd as [Hcd Hd].
    apply NoDup_app. split_and!.
    + eapply H; [left|done].
    + intros x Hx Hx'. edestruct (branches_and_sub cs b' x) as (d & Hdc & Hxd); [|done..|].
      { intros ? ? _. apply branches_universe. }
      rewrite Forall_forall in Hcd. apply (Hcd d Hdc x); [by eapply branches_universe|done].
    + apply IH; [|done..]. intros; eapply H; [by right|done].
Qed.

Lemma dup_free_branches o b : dup_free o → b ∈ branches o → NoDup b.
Proof.
  revert b. induction o as [cs IH|cs IH|p|ms c IH|f t] using out_ind'; intros b Hd Hb.
  - destruct Hd as [Hd Hj]. rewrite foldr_and_Forall, Forall_forall in Hd. rewrite Forall_forall in IH.
    eapply branches_and_NoDup; [|done..]. eauto.
  - simpl in Hd. rewrite foldr_and_Forall, Forall_forall in Hd. rewrite Forall_forall in IH.
    apply elem_of_branches_xor in Hb as (c & ? & ?). eauto.
  - apply list_elem_of_singleton in Hb as ->. apply NoDup_singleton.
  - by apply IH.
  - apply list_elem_of_singleton in Hb as ->. apply NoDup_singleton.
Qed.

Lemma ambiguousBranches_spec o :
  dup_free o → inhabited_xors o = true → ambiguousBranches o = Some (naive_ambiguous (branches o)).
Proof.
  intros Hd Hi. unfold ambiguousBranches, naive_ambiguous.
  rewrite (firstCollision_spec o) by done. pose proof (first_dup_spec (branches o)) as H.
  destruct (first_dup (branches o)) as [j|]; simpl; [|done].
  destruct H as [(i & b & b' & Hij & Hi' & Hj & Hs) _].
  rewrite (decode_branches o Hi j b Hj), Hj. simpl.
  rewrite (firstIndexOf_spec o Hd) by apply NoDup_set_of.
  rewrite (find_index_ext _ (same_set b)) by (intros; apply same_set_of).
  destruct (find_index (same_set b) (branches o)) as [k|] eqn:E; simpl.
  - apply find_index_Some in E as (c & Hk & _). by rewrite (decode_branches o Hi k c Hk), Hk.
  - rewrite find_index_None in E. apply E in Hi'. congruence.
Qed.

Lemma duplicateInBranch_reports o :
  inhabited_xors o = true →
  match duplicateInBranch place_name o with
  | Some d => ∃ b, b ∈ branches o ∧ repeats (bd_name d) b
  | None => ∀ b, b ∈ branches o → NoDup b
  end.
Proof.
  intros Hi. destruct (duplicateInBranch place_name o) as [d|] eqn:E.
  - apply (findDuplicate_reports o Hi). unfold duplicateInBranch in E. by destruct findDuplicate; simplify_eq.
  - intros b. by apply dup_free_branches, duplicateInBranch_dup_free.
Qed.

Lemma duplicateInBranch_None o : inhabited_xors o = true →
  duplicateInBranch place_name o = None ↔ ∀ b, b ∈ branches o → NoDup b.
Proof.
  intros Hi. pose proof (duplicateInBranch_reports o Hi) as H.
  destruct (duplicateInBranch place_name o) as [d|]; [|done].
  destruct H as (b & Hb & Hr%repeats_not_NoDup). naive_solver.
Qed.

Lemma naive_ambiguous_None bs : naive_ambiguous bs = None ↔ ∀ k, ¬ dup_at bs k.
Proof.
  unfold naive_ambiguous. pose proof (first_dup_spec bs) as H.
  destruct (first_dup bs) as [j|]; [|done]. simpl.
  destruct H as [Hd _]. pose proof Hd as (i & b & b' & ? & ? & Hj & ?).
  split; [|naive_solver]. rewrite Hj. simpl. destruct (find_index (same_set b) bs) as [k|] eqn:E; simpl.
  - apply find_index_Some in E as (c & -> & _). done.
  - rewrite find_index_None in E. apply E in Hj. by rewrite same_set_refl in Hj.
Qed.

(** ** Properties *)

(** C26: the branch analysis that never enumerates reports exactly what a pairwise comparison of
    the enumerated branches reports: the first branch that claims the places of an earlier one,
    the index of that earlier branch and its names in leaf order, or nothing. It never throws. *)
Theorem ambiguousBranches_enumeration o :
  duplicateInBranch place_name o = None → inhabited_xors o = true →
  ambiguousBranches o = Some (naive_ambiguous (names (enumerateBranches o))).
Proof.
  intros Hd%duplicateInBranch_dup_free Hi.
  destruct (enumerateBranches_spec o Hd) as [-> _]. by apply ambiguousBranches_spec.
Qed.

Definition leaf (n : nat) (s : string) : out := OutPlace (Place n (js s)).

Definition example_out : out :=
  OutAnd [OutXor [leaf 0 "a"; leaf 1 "b"; leaf 0 "a"]; OutXor [leaf 2 "c"; OutTimeout 5 (leaf 3 "d")]].

Lemma ambiguousBranches_enumeration_witness :
  ambiguousBranches example_out = Some (naive_ambiguous (names (enumerateBranches example_out))) ∧
  naive_ambiguous (names (enumerateBranches example_out)) = Some (AmbiguousBranches 0 4 [js "a"; js "c"]).
Proof. split; [apply ambiguousBranches_enumeration; by vm_compute|by vm_compute]. Defined.

(** The duplicate check is exact: what it reports is a name some branch produces twice, and
    when it reports nothing every branch produces each of its names once. *)
Theorem duplicateInBranch_exact o :
  inhabited_xors o = true →
  match duplicateInBranch place_name o with
  | Some d => ∃ b, b ∈ branches o ∧ repeats (bd_name d) b
  | None => ∀ b, b ∈ branches o → NoDup b
  end.
Proof. apply duplicateInBranch_reports. Qed.

Definition dup_out : out := OutAnd [leaf 0 "a"; OutXor [leaf 1 "b"; leaf 2 "a"]].

Lemma duplicateInBranch_exact_witness :
  duplicateInBranch place_name dup_out = Some (BranchDuplicate (js "a") (Place 0 (js "a")) (Place 2 (js "a"))) ∧
  ∃ b, b ∈ branches dup_out ∧ repeats (js "a") b.
Proof. split; [by vm_compute|]. apply (duplicateInBranch_exact dup_out). reflexivity. Defined.

(** The branch index is the IO-016 enumeration: every index below the branch count decodes to
    the enumerated branch at that index, and looking that branch's places up again gives the first
    index with those places. *)
Theorem decode_firstIndexOf o i :
  duplicateInBranch place_name o = None → inhabited_xors o = true → (0 ≤ i < count o)%Z →
  ∃ b k, names (enumerateBranches o) !! Z.to_nat i = Some b ∧ decode o i = Some b ∧
    firstIndexOf o (set_of b) = Some (Z.of_nat k) ∧
    find_index (same_set b) (names (enumerateBranches o)) = Some k ∧ (Z.of_nat k ≤ i)%Z.
Proof.
  intros Hd%duplicateInBranch_dup_free Hi Hr.
  destruct (enumerateBranches_spec o Hd) as [-> _]. rewrite count_branches in Hr.
  destruct (lookup_lt_is_Some_2 (branches o) (Z.to_nat i)) as [b Hb]; [lia|].
  pose proof (firstIndexOf_spec o Hd (set_of b) (NoDup_set_of b)) as Hf.
  rewrite (find_index_ext _ (same_set b)) in Hf by (intros; apply same_set_of).
  destruct (find_index (same_set b) (branches o)) as [k|] eqn:E.
  - exists b, k. split_and!; try done.
    + rewrite <- (decode_branches o Hi _ _ Hb), Z2Nat.id by lia. done.
    + apply find_index_Some in E as (c & Hk & Hs & Hmin).
      destruct (decide (Z.to_nat i < k)) as [Hlt|]; [|lia].
      specialize (Hmin _ _ Hlt Hb). by rewrite same_set_refl in Hmin.
  - rewrite find_index_None in E. apply E in Hb. by rewrite same_set_refl in Hb.
Qed.

Lemma decode_firstIndexOf_witness :
  count example_out = 6%Z ∧
  ∃ b k, names (enumerateBranches example_out) !! 4 = Some b ∧ decode example_out 4 = Some b ∧
    firstIndexOf example_out (set_of b) = Some (Z.of_nat k) ∧
    find_index (same_set b) (names (enumerateBranches example_out)) = Some k ∧ (Z.of_nat k ≤ 4)%Z.
Proof. split; [by vm_compute|]. apply (decode_firstIndexOf example_out 4); by vm_compute. Defined.
