(* ===== verification/Transition.v ===== *)
(** * Transitions and their build-time checks

    [src/typescript/src/core/transition.ts]: the transition record, the fluent builder and the
    checks of [build()] in the order of the code. An action is host code and has no field here;
    a transition's identity is its index in the net. Thrown messages are constructors of
    [build_error]. *)
From S2P Require Import Prelude.
From S2P Require Import Net.
From S2P Require Import Out.
From S2P Require Import OutSpec.
#[local] Open Scope Z_scope.

(** ** Walks of the output specification *)

(** The first [Timeout] node, with its delay and its child. *)
Fixpoint findTimeout (o : out) : option (Z * out) :=
  match o with
  | OutTimeout ms c => Some (ms, c)
  | OutAnd cs | OutXor cs =>
      (fix first (l : list out) := match l with
        | [] => None
        | c :: l' => match findTimeout c with Some t => Some t | None => first l' end
        end) cs
  | OutPlace _ | OutForwardInput _ _ => None
  end.

Fixpoint findForwardInputs (o : out) : list (place * place) :=
  match o with
  | OutForwardInput f t => [(f, t)]
  | OutAnd cs | OutXor cs => flat_map findForwardInputs cs
  | OutTimeout _ c => findForwardInputs c
  | OutPlace _ => []
  end.

(** ** The transition and its builder *)

Section Transition.
Variable V : Type.

Record transition := Transition {
  t_name : jsstr;
  inputSpecs : list in_spec;
  outputSpec : option out;
  inhibitors : list place;
  reads : list place;
  resets : list place;
  t_timing : timing;
  actionTimeout : option (Z * out);
  priority : Z;
  placeAlias : list (jsstr * place);
  t_matchSpec : option (match_spec V)
}.

Definition inputPlaces (t : transition) : list place := set_of (in_place <$> inputSpecs t).
Definition readPlaces (t : transition) : list place := set_of (reads t).
Definition outputPlaces (t : transition) : list place :=
  from_option allPlaces [] (outputSpec t).
Definition hasActionTimeout (t : transition) : bool := bool_decide (is_Some (actionTimeout t)).

Record builder := Builder {
  b_name : jsstr;
  b_inputs : list in_spec;
  b_output : option out;
  b_inhibitors : list place;
  b_reads : list place;
  b_resets : list place;
  b_timing : timing;
  b_priority : Z;
  b_alias : list (jsstr * place);
  b_match : option (match_spec V)
}.

(** [Transition.builder(name)] *)
Definition builder_new (name : jsstr) : builder :=
  Builder name [] None [] [] [] immediate 0 [] None.

Definition with_inputs (specs : list in_spec) (b : builder) : builder :=
  Builder (b_name b) (b_inputs b ++ specs) (b_output b) (b_inhibitors b) (b_reads b) (b_resets b)
    (b_timing b) (b_priority b) (b_alias b) (b_match b).
Definition with_outputs (spec : out) (b : builder) : builder :=
  Builder (b_name b) (b_inputs b) (Some spec) (b_inhibitors b) (b_reads b) (b_resets b)
    (b_timing b) (b_priority b) (b_alias b) (b_match b).
Definition with_inhibitors (places : list place) (b : builder) : builder :=
  Builder (b_name b) (b_inputs b) (b_output b) (b_inhibitors b ++ places) (b_reads b) (b_resets b)
    (b_timing b) (b_priority b) (b_alias b) (b_match b).
Definition with_reads (places : list place) (b : builder) : builder :=
  Builder (b_name b) (b_inputs b) (b_output b) (b_inhibitors b) (b_reads b ++ places) (b_resets b)
    (b_timing b) (b_priority b) (b_alias b) (b_match b).
Definition with_resets (places : list place) (b : builder) : builder :=
  Builder (b_name b) (b_inputs b) (b_output b) (b_inhibitors b) (b_reads b) (b_resets b ++ places)
    (b_timing b) (b_priority b) (b_alias b) (b_match b).
Definition with_timing (t : timing) (b : builder) : builder :=
  Builder (b_name b) (b_inputs b) (b_output b) (b_inhibitors b) (b_reads b) (b_resets b)
    t (b_priority b) (b_alias b) (b_match b).
Definition with_priority (p : Z) (b : builder) : builder :=
  Builder (b_name b) (b_inputs b) (b_output b) (b_inhibitors b) (b_reads b) (b_resets b)
    (b_timing b) p (b_alias b) (b_match b).
Definition with_alias (alias : list (jsstr * place)) (b : builder) : builder :=
  Builder (b_name b) (b_inputs b) (b_output b) (b_inhibitors b) (b_reads b) (b_resets b)
    (b_timing b) (b_priority b) alias (b_match b).
(** A literal without relay targets is a spec with none. *)
Definition with_match (keys : list (match_key V)) (relays : option (list (match_key V))) (b : builder) : builder :=
  Builder (b_name b) (b_inputs b) (b_output b) (b_inhibitors b) (b_reads b) (b_resets b)
    (b_timing b) (b_priority b) (b_alias b) (Some (MatchSpec keys (default [] relays))).

(** The setters a rewrite calls when the transition has the part. *)
Definition with_match_of (ms : option (match_spec V)) (b : builder) : builder :=
  match ms with Some ms => with_match (ms_keys ms) (Some (ms_relays ms)) b | None => b end.
Definition with_output_of (o : option out) (b : builder) : builder :=
  match o with Some o => with_outputs o b | None => b end.

Inductive build_error :=
| DuplicateInputArc (place : jsstr)
| RequiresTooFew (place : jsstr) (required : Z)
| BadTiming (e : timing_error)
| DuplicateOutputPlace (place : jsstr)
| TimeoutCount (n : Z)
| XorInTimeout
| BareForwardInput (from to : place)
| ForwardOfNonInput (place : jsstr)
| AmbiguousOutput (a : ambiguous_branches)
| BranchIndexError
| MatchDuplicateKey (place : jsstr)
| MatchNonInput (place : jsstr)
| RelayTwice (place : jsstr)
| RelayNotOutput (place : jsstr).

Fixpoint check_inputs (seen : list jsstr) (specs : list in_spec) : result build_error () :=
  match specs with
  | [] => Ok ()
  | s :: rest =>
      let name := place_name (in_place s) in
      do* throw_if (bool_decide (name ∈ seen)) (DuplicateInputArc name);
      do* throw_if (negb (1 <=? requiredCount s)) (RequiresTooFew name (requiredCount s));
      check_inputs (set_add name seen) rest
  end.

Definition check_timing (t : timing) : result build_error () :=
  match recheck_timing t with Ok _ => Ok () | Err e => Err (BadTiming e) end.

Definition input_names (specs : list in_spec) : list jsstr := (λ s, place_name (in_place s)) <$> specs.

Definition check_output (inputNames : list jsstr) (spec : out) : result build_error () :=
  do* match duplicateInBranch place_name spec with
      | Some d => Err (DuplicateOutputPlace (bd_name d)) | None => Ok () end;
  do* throw_if (1 <? countTimeouts spec) (TimeoutCount (countTimeouts spec));
  do* throw_if (hasXorInTimeoutChild spec) XorInTimeout;
  do* match bareForwardInput spec with
      | Some (f, t) => Err (BareForwardInput f t) | None => Ok () end;
  do* res_iter (λ fi : place * place,
        throw_if (bool_decide (place_name fi.1 ∉ inputNames)) (ForwardOfNonInput (place_name fi.1)))
      (findForwardInputs spec);
  match ambiguousBranches spec with
  | None => Err BranchIndexError
  | Some (Some a) => Err (AmbiguousOutput a)
  | Some None => Ok ()
  end.

Fixpoint check_relays (outputNames seen relays : list jsstr) : result build_error () :=
  match relays with
  | [] => Ok ()
  | r :: rest =>
      do* throw_if (bool_decide (r ∈ seen)) (RelayTwice r);
      do* throw_if (bool_decide (r ∉ outputNames)) (RelayNotOutput r);
      check_relays outputNames (set_add r seen) rest
  end.

Definition check_match (inputNames : list jsstr) (output : option out) (ms : match_spec V)
    : result build_error () :=
  do* match duplicateKey (ms_keys ms) with
      | Some k => Err (MatchDuplicateKey k) | None => Ok () end;
  do* res_iter (λ k, throw_if (bool_decide (key_name k ∉ inputNames)) (MatchNonInput (key_name k)))
      (ms_keys ms);
  check_relays (place_name <$> from_option allPlaces [] output) [] (key_name <$> ms_relays ms).

Definition build (b : builder) : result build_error transition :=
  do* check_inputs [] (b_inputs b);
  do* check_timing (b_timing b);
  do* match b_output b with
      | Some spec => check_output (input_names (b_inputs b)) spec | None => Ok () end;
  do* match b_match b with
      | Some ms => check_match (input_names (b_inputs b)) (b_output b) ms | None => Ok () end;
  Ok (Transition (b_name b) (b_inputs b) (b_output b) (b_inhibitors b) (b_reads b) (b_resets b)
        (b_timing b) (b_output b ≫= findTimeout) (b_priority b) (b_alias b) (b_match b)).

(** ** What a built transition satisfies *)

Definition inputs_wf (specs : list in_spec) : Prop :=
  NoDup (input_names specs) ∧ Forall (λ s, 1 <= requiredCount s) specs.

(** No two branches produce the same set of places, and no branch produces a place twice. *)
Definition branches_wf (o : out) : Prop :=
  (∀ b, b ∈ branches o → NoDup b) ∧
  (∀ i j a b, (i < j)%nat → branches o !! i = Some a → branches o !! j = Some b → same_set b a = false).

Definition output_wf (inputNames : list jsstr) (o : out) : Prop :=
  branches_wf o ∧ countTimeouts o <= 1 ∧ hasXorInTimeoutChild o = false ∧ bareForwardInput o = None ∧
  ∀ f t, (f, t) ∈ findForwardInputs o → place_name f ∈ inputNames.

Definition match_wf (inputNames : list jsstr) (output : option out) (ms : match_spec V) : Prop :=
  NoDup (key_name <$> ms_keys ms) ∧ (∀ k, k ∈ ms_keys ms → key_name k ∈ inputNames) ∧
  NoDup (key_name <$> ms_relays ms) ∧
  ∀ k, k ∈ ms_relays ms → ∃ o p, output = Some o ∧ p ∈ allPlaces o ∧ place_name p = key_name k.

Definition builder_wf (b : builder) : Prop :=
  inputs_wf (b_inputs b) ∧ timing_ok (b_timing b) ∧
  (∀ o, b_output b = Some o → output_wf (input_names (b_inputs b)) o) ∧
  (∀ ms, b_match b = Some ms → match_wf (input_names (b_inputs b)) (b_output b) ms).

(** ** Lemmas *)

Lemma check_inputs_ok seen specs :
  check_inputs seen specs = Ok () ↔
  inputs_wf specs ∧ ∀ x, x ∈ input_names specs → x ∉ seen.
Proof.
  unfold inputs_wf, input_names. revert seen. induction specs as [|s specs IH]; intros seen; simpl.
  { split; [|done]. intros _. split_and!; [constructor|constructor|set_solver]. }
  rewrite !res_seq_ok, !throw_if_ok, IH, NoDup_cons, Forall_cons.
  rewrite bool_decide_eq_false, negb_false_iff, Z.leb_le.
  setoid_rewrite elem_of_set_add. setoid_rewrite elem_of_cons. split.
  - intros (? & ? & (? & ?) & Hs). split_and!; auto; [naive_solver|].
    intros x [->|Hx]; [done|]. specialize (Hs x Hx). naive_solver.
  - intros (((? & ?) & ? & ?) & Hs). split_and!; auto.
    intros x Hx [->|Hn]; [done|]. by apply (Hs x); [right|].
Qed.

Lemma check_timing_ok t : check_timing t = Ok () ↔ timing_ok t.
Proof.
  unfold check_timing. destruct (recheck_timing t) as [t'|e] eqn:E.
  - apply recheck_timing_ok in E. naive_solver.
  - split; [done|]. intros H. assert (recheck_timing t = Ok t) by (by apply recheck_timing_ok). congruence.
Qed.


Lemma branches_wf_checks o : inhabited_xors o = true →
  branches_wf o ↔ duplicateInBranch place_name o = None ∧ ambiguousBranches o = Some None.
Proof.
  intros Hi. unfold branches_wf. rewrite <- duplicateInBranch_None by done. split.
  - intros [Hd Hs]. split; [done|].
    rewrite ambiguousBranches_spec by auto using duplicateInBranch_dup_free.
    f_equal. apply naive_ambiguous_None. intros k (i & b & b' & ? & ? & ? & E).
    by erewrite Hs in E.
  - intros [Hd Ha]. split; [done|].
    rewrite ambiguousBranches_spec in Ha by auto using duplicateInBranch_dup_free.
    injection Ha as Ha. rewrite naive_ambiguous_None in Ha. intros i j a b Hij Hi' Hj.
    destruct (same_set b a) eqn:E; [|done]. destruct (Ha j). by exists i, b, a.
Qed.

Lemma none_or_err {A} (x : option A) (e : A → build_error) :
  match x with Some a => Err (e a) | None => Ok () end = Ok () ↔ x = None.
Proof. by destruct x. Qed.

Lemma check_output_ok ns o : inhabited_xors o = true →
  check_output ns o = Ok () ↔ output_wf ns o.
Proof.
  intros Hi. unfold check_output, output_wf. rewrite branches_wf_checks by done.
  rewrite !res_seq_ok, !throw_if_ok, res_iter_ok, none_or_err, Z.ltb_ge, Forall_forall.
  setoid_rewrite throw_if_ok. setoid_rewrite bool_decide_eq_false.
  assert ((match bareForwardInput o with
           | Some (f, t) => Err (BareForwardInput f t) | None => Ok () end = Ok ())
          ↔ bareForwardInput o = None) as -> by (by destruct (bareForwardInput o) as [[]|]).
  assert ((match ambiguousBranches o with
           | None => Err BranchIndexError | Some (Some a) => Err (AmbiguousOutput a)
           | Some None => Ok () end = Ok ()) ↔ ambiguousBranches o = Some None) as ->
    by (by destruct (ambiguousBranches o) as [[]|]).
  split.
  - intros (? & ? & ? & ? & Hf & ?). split_and!; auto. intros f t Hin. apply dec_stable. by apply (Hf (f, t)).
  - intros ((? & ?) & ? & ? & ? & Hf). split_and!; auto. intros [f t] Hin Hn. by apply Hn, (Hf f t).
Qed.

Lemma check_relays_ok outs seen rs :
  check_relays outs seen rs = Ok () ↔
  NoDup rs ∧ ∀ r, r ∈ rs → r ∈ outs ∧ r ∉ seen.
Proof.
  revert seen. induction rs as [|r rs IH]; intros seen; simpl.
  { split; [|done]. intros _. split; [constructor|set_solver]. }
  rewrite !res_seq_ok, !throw_if_ok, IH, NoDup_cons, !bool_decide_eq_false.
  setoid_rewrite elem_of_set_add. setoid_rewrite elem_of_cons. split.
  - intros (? & Hr%dec_stable & ? & Hs). split_and!; auto; [naive_solver|].
    intros x [->|Hx]; [done|]. specialize (Hs x Hx). naive_solver.
  - intros ((? & ?) & Hs). split_and!; auto; [by apply Hs; left|intros Hn; by apply Hn, Hs; left|].
    intros x Hx. destruct (Hs x) as [? ?]; [by right|]. split; [done|]. intros [->|?]; done.
Qed.

Lemma check_match_ok ns o ms : check_match ns o ms = Ok () ↔ match_wf ns o ms.
Proof.
  unfold check_match, match_wf. rewrite !res_seq_ok, none_or_err, res_iter_ok, check_relays_ok, Forall_forall.
  unfold duplicateKey. rewrite first_repeat_None.
  setoid_rewrite throw_if_ok. setoid_rewrite bool_decide_eq_false.
  assert (∀ r, r ∈ place_name <$> from_option allPlaces [] o ↔
               ∃ o' p, o = Some o' ∧ p ∈ allPlaces o' ∧ place_name p = r) as Hr.
  { intros r. rewrite list_elem_of_fmap. destruct o as [o'|]; simpl; [naive_solver|].
    split; [intros (? & _ & []%not_elem_of_nil)|naive_solver]. }
  setoid_rewrite Hr. split.
  - intros ((? & ?) & Hk & ? & Hrel). split_and!; auto.
    + intros k Hin. apply dec_stable. by apply Hk.
    + intros k Hin. apply Hrel. by apply list_elem_of_fmap_2.
  - intros (? & Hk & ? & Hrel). split_and!; auto.
    + set_solver.
    + intros r Hin. split; [|apply not_elem_of_nil].
      apply list_elem_of_fmap in Hin as (k & -> & Hin). auto.
Qed.

(** The value [build] returns when no check throws. *)
Definition built (b : builder) : transition :=
  Transition (b_name b) (b_inputs b) (b_output b) (b_inhibitors b) (b_reads b) (b_resets b)
    (b_timing b) (b_output b ≫= findTimeout) (b_priority b) (b_alias b) (b_match b).

Lemma build_ok b t : (∀ o, b_output b = Some o → inhabited_xors o = true) →
  build b = Ok t ↔ builder_wf b ∧ t = built b.
Proof.
  intros Hi. unfold build, builder_wf. rewrite !res_seq_ok, check_inputs_ok, check_timing_ok.
  assert (match b_output b with
          | Some spec => check_output (input_names (b_inputs b)) spec | None => Ok () end = Ok () ↔
          ∀ o, b_output b = Some o → output_wf (input_names (b_inputs b)) o) as ->.
  { destruct (b_output b) as [o|]; [|naive_solver]. rewrite check_output_ok by auto. naive_solver. }
  assert (match b_match b with
          | Some ms => check_match (input_names (b_inputs b)) (b_output b) ms | None => Ok () end = Ok () ↔
          ∀ ms, b_match b = Some ms → match_wf (input_names (b_inputs b)) (b_output b) ms) as ->.
  { destruct (b_match b) as [ms|]; [|naive_solver]. rewrite check_match_ok. naive_solver. }
  assert (∀ x, x ∈ input_names (b_inputs b) → x ∉ []) by (intros; apply not_elem_of_nil).
  fold (built b). naive_solver.
Qed.
End Transition.

Arguments Transition {V}. Arguments t_name {V}. Arguments inputSpecs {V}. Arguments outputSpec {V}.
Arguments inhibitors {V}. Arguments reads {V}. Arguments resets {V}. Arguments t_timing {V}.
Arguments actionTimeout {V}. Arguments priority {V}. Arguments placeAlias {V}. Arguments t_matchSpec {V}.
Arguments inputPlaces {V}. Arguments readPlaces {V}. Arguments outputPlaces {V}.
Arguments hasActionTimeout {V}.
Arguments b_inputs {V}. Arguments b_output {V}. Arguments b_match {V}. Arguments b_timing {V}.
Arguments builder_new {V}. Arguments with_inputs {V}. Arguments with_outputs {V}.
Arguments with_inhibitors {V}. Arguments with_reads {V}. Arguments with_resets {V}.
Arguments with_timing {V}. Arguments with_priority {V}. Arguments with_match {V}.
Arguments with_alias {V}. Arguments with_match_of {V}. Arguments with_output_of {V}.
Arguments build {V}. Arguments builder_wf {V}. Arguments built {V}. Arguments match_wf {V}.
Arguments build_ok {V}. Arguments check_match {V}.

(** ** The timeout branch of a built transition *)

Lemma foldl_timeouts cs n :
  foldl (λ n c, n + countTimeouts c) n cs = n + foldl (λ n c, n + countTimeouts c) 0 cs.
Proof.
  revert n. induction cs as [|c cs IH]; intros n; cbn [foldl]; [lia|].
  rewrite (IH (n + _)), (IH (0 + _)). lia.
Qed.

Lemma countTimeouts_nonneg o : 0 <= countTimeouts o.
Proof.
  assert (∀ cs, Forall (λ c, 0 <= countTimeouts c) cs → 0 <= foldl (λ n c, n + countTimeouts c) 0 cs) as H.
  { induction 1 as [|c cs Hc Hcs IH]; simpl; [lia|]. rewrite foldl_timeouts. lia. }
  induction o as [cs IH|cs IH|p|ms c IH|f t] using out_ind'; simpl; auto; lia.
Qed.

(** A child holds at most the timeouts of the whole list. *)
Lemma countTimeouts_child cs c :
  c ∈ cs → countTimeouts c <= foldl (λ n c, n + countTimeouts c) 0 cs.
Proof.
  induction cs as [|d cs IH]; [by intros ?%not_elem_of_nil|].
  cbn [foldl]. rewrite foldl_timeouts. pose proof (countTimeouts_nonneg d).
  intros [->|Hc]%elem_of_cons; [|specialize (IH Hc); lia].
  assert (0 <= foldl (λ n c, n + countTimeouts c) 0 cs) by (apply (countTimeouts_nonneg (OutAnd cs))). lia.
Qed.

Definition findTimeout_list := fix first (l : list out) : option (Z * out) := match l with
  | [] => None
  | c :: l' => match findTimeout c with Some t => Some t | None => first l' end
  end.

Lemma findTimeout_list_Some cs t :
  findTimeout_list cs = Some t → ∃ c, c ∈ cs ∧ findTimeout c = Some t.
Proof.
  induction cs as [|c cs IH]; simpl; [done|]. destruct (findTimeout c) eqn:E.
  - intros [= ->]. exists c. split; [left|done].
  - intros (d & ? & ?)%IH. exists d. split; [by right|done].
Qed.

(** A branch the executor can produce: no [Xor] to choose and no nested [Timeout]. *)
Definition timeout_child_ok (o : out) (c : out) : Prop :=
  containsXor c = false ∧ countTimeouts c = 0 ∧
  ∀ fi, fi ∈ findForwardInputs c → fi ∈ findForwardInputs o.

Lemma existsb_false {A} (f : A → bool) l x : existsb f l = false → x ∈ l → f x = false.
Proof.
  intros H Hx. destruct (f x) eqn:E; [|done]. rewrite <- H. symmetry. apply existsb_exists.
  exists x. split; [by apply list_elem_of_In|done].
Qed.

Lemma elem_of_flat_map {A B} (f : A → list B) l x y : x ∈ l → y ∈ f x → y ∈ flat_map f l.
Proof. rewrite !list_elem_of_In, in_flat_map. eauto. Qed.

Lemma findTimeout_children cs ms c :
  Forall (λ o, countTimeouts o <= 1 → hasXorInTimeoutChild o = false →
               findTimeout o = Some (ms, c) → timeout_child_ok o c) cs →
  foldl (λ n c, n + countTimeouts c) 0 cs <= 1 → existsb hasXorInTimeoutChild cs = false →
  findTimeout_list cs = Some (ms, c) →
  containsXor c = false ∧ countTimeouts c = 0 ∧
  ∀ fi, fi ∈ findForwardInputs c → fi ∈ flat_map findForwardInputs cs.
Proof.
  rewrite Forall_forall. intros IH Hn Hx (d & Hd & Ht)%findTimeout_list_Some.
  pose proof (countTimeouts_child cs d Hd).
  destruct (IH d Hd) as (? & ? & Hf); [lia|by eapply existsb_false|done|].
  split_and!; auto. intros fi ?%Hf. by eapply elem_of_flat_map.
Qed.

Lemma findTimeout_ok o ms c :
  countTimeouts o <= 1 → hasXorInTimeoutChild o = false → findTimeout o = Some (ms, c) →
  timeout_child_ok o c.
Proof.
  induction o as [cs IH|cs IH|p|ms' c' IH|f t] using out_ind'; intros Hn Hx Ht; try done.
  - by apply (findTimeout_children cs ms).
  - by apply (findTimeout_children cs ms).
  - injection Ht as -> ->. cbn [countTimeouts] in Hn. pose proof (countTimeouts_nonneg c).
    split_and!; [done|lia|done].
Qed.

(** ** Properties *)

(** C29: [build] accepts exactly the well-formed builders: distinct input places each asking for a
    token, a timing within the factories' bounds, an output specification whose branches are
    duplicate-free and pairwise different with at most one xor-free timeout holding every
    forward of a consumed place, and a match specification over declared inputs and outputs;
    it returns the transition as declared, with its timeout located. *)
Theorem build_iff {V} (b : builder V) (t : transition V) :
  (∀ o, b_output b = Some o → inhabited_xors o = true) →
  build b = Ok t ↔ builder_wf b ∧ t = built b.
Proof. apply build_ok. Qed.

Definition example_builder : builder unit :=
  with_timing (TimingWindow 5 10) (with_outputs
    (OutXor [OutPlace (Place 2 (js "ok")); OutTimeout 30 (OutForwardInput (Place 0 (js "in")) (Place 3 (js "retry")))])
    (with_inputs [InExactly (Place 0 (js "in")) 2; InOne (Place 1 (js "slot"))] (builder_new (js "work")))).

Lemma build_iff_witness :
  build example_builder = Ok (built example_builder) ∧ builder_wf example_builder.
Proof.
  assert (∀ o, b_output example_builder = Some o → inhabited_xors o = true) as Hi
    by (intros o [= <-]; reflexivity).
  assert (build example_builder = Ok (built example_builder)) as E by reflexivity.
  split; [exact E|]. exact (proj1 (proj1 (build_iff example_builder (built example_builder) Hi) E)).
Defined.

(** The timeout branch of a built transition is producible by the executor: its timeout child
    holds no [Xor] and no further [Timeout], and every forward in it names a consumed place. *)
Theorem build_timeout_child {V} (b : builder V) (t : transition V) ms c :
  (∀ o, b_output b = Some o → inhabited_xors o = true) →
  build b = Ok t → actionTimeout t = Some (ms, c) →
  containsXor c = false ∧ countTimeouts c = 0 ∧
  ∀ f g, (f, g) ∈ findForwardInputs c → place_name f ∈ input_names (inputSpecs t).
Proof.
  intros Hi [(_ & _ & Ho & _) ->]%build_ok Ht; [|done]. unfold built in *. simpl in *.
  destruct (b_output b) as [o|]; simpl in Ht; [|done].
  destruct (Ho o) as (_ & Hn & Hx & _ & Hf); [done|].
  destruct (findTimeout_ok o ms c) as (? & ? & Hs); [done..|]. split_and!; auto.
  intros f g Hin%Hs. by eapply Hf.
Qed.

Lemma build_timeout_child_witness :
  containsXor (OutForwardInput (Place 0 (js "in")) (Place 3 (js "retry"))) = false ∧
  countTimeouts (OutForwardInput (Place 0 (js "in")) (Place 3 (js "retry"))) = 0 ∧
  ∀ f g, (f, g) ∈ findForwardInputs (OutForwardInput (Place 0 (js "in")) (Place 3 (js "retry"))) →
    place_name f ∈ input_names (inputSpecs (built example_builder)).
Proof.
  apply (build_timeout_child example_builder (built example_builder) 30).
  - intros o [= <-]. reflexivity.
  - reflexivity.
  - reflexivity.
Defined.
