(* ===== verification/Marking.v ===== *)
(** * The marking of a running net

    [src/typescript/src/runtime/marking.ts]: per place name, the FIFO queue of its tokens, in a
    [Map] in insertion order; snapshots in code-point order of the names. Theorems: every
    operation is the corresponding operation on a function from names to queues, snapshots are
    canonical, and a snapshot restores to the marking it was taken from. A queue that
    [peekTokens] hands out is read before the next mutation, so it is a value here. *)
From S2P Require Import Prelude.
From S2P Require Import CodePoints.
From S2P Require Import Net.

Section Marking.
Variable V : Type.

Record marking := Marking {
  m_tokens : list (jsstr * list (token V));
  placeRefs : list (jsstr * place)
}.

Definition predicate_spec : Type := place * option (option V → bool).

Definition snapshot_form : Type := list (jsstr * list (token V)).

Definition empty : marking := Marking [] [].

Definition snapshot (m : marking) : snapshot_form :=
  let names := omap (λ x : jsstr * list (token V), if bool_decide (0 < length x.2) then Some x.1 else None)
                    (m_tokens m) in
  foldl (λ out name, map_set name (default [] (map_get name (m_tokens m))) out) [] (sortNames names).

Definition fromSnapshot (s : snapshot_form) : marking :=
  Marking (foldl (λ ts x, if bool_decide (length x.2 = 0) then ts else map_set x.1 x.2 ts) [] s) [].

Definition from (initial : list (place * list (token V))) : marking :=
  foldl (λ m x, Marking (map_set (place_name x.1) x.2 (m_tokens m))
                        (map_set (place_name x.1) x.1 (placeRefs m))) empty initial.

Definition addToken (p : place) (t : token V) (m : marking) : marking :=
  let refs := map_set (place_name p) p (placeRefs m) in
  match map_get (place_name p) (m_tokens m) with
  | Some queue => Marking (map_set (place_name p) (queue ++ [t]) (m_tokens m)) refs
  | None => Marking (map_set (place_name p) [t] (m_tokens m)) refs
  end.

Definition set_queue (p : place) (q : list (token V)) (m : marking) : marking :=
  Marking (map_set (place_name p) q (m_tokens m)) (placeRefs m).

Definition removeFirst (p : place) (m : marking) : option (token V) * marking :=
  match map_get (place_name p) (m_tokens m) with
  | Some (t :: q) => (Some t, set_queue p q m)
  | _ => (None, m)
  end.

Definition removeAll (p : place) (m : marking) : list (token V) * marking :=
  match map_get (place_name p) (m_tokens m) with
  | Some (t :: q) => (t :: q, set_queue p [] m)
  | _ => ([], m)
  end.

(** The first token satisfying [f], with the queue without it. *)
Fixpoint splice_first (f : option V → bool) (q : list (token V)) : option (token V * list (token V)) :=
  match q with
  | [] => None
  | t :: q' => if f (tok_value t) then Some (t, q')
               else match splice_first f q' with
                    | Some (t', q'') => Some (t', t :: q'')
                    | None => None
                    end
  end.

Definition removeFirstMatching (spec : predicate_spec) (m : marking) : option (token V) * marking :=
  match map_get (place_name spec.1) (m_tokens m) with
  | Some (t :: q) =>
      match spec.2 with
      | None => (Some t, set_queue spec.1 q m)
      | Some f => match splice_first f (t :: q) with
                  | Some (t', q') => (Some t', set_queue spec.1 q' m)
                  | None => (None, m)
                  end
      end
  | _ => (None, m)
  end.

Definition hasMatchingToken (spec : predicate_spec) (m : marking) : bool :=
  match map_get (place_name spec.1) (m_tokens m) with
  | Some (t :: q) =>
      match spec.2 with
      | None => true
      | Some f => existsb (λ t, f (tok_value t)) (t :: q)
      end
  | _ => false
  end.

Definition countMatching (spec : predicate_spec) (m : marking) : nat :=
  match map_get (place_name spec.1) (m_tokens m) with
  | Some (t :: q) =>
      match spec.2 with
      | None => length (t :: q)
      | Some f => foldl (λ n t, if f (tok_value t) then n + 1 else n) 0 (t :: q)
      end
  | _ => 0
  end.

Definition peekTokens (p : place) (m : marking) : list (token V) :=
  default [] (map_get (place_name p) (m_tokens m)).

Definition peekFirst (p : place) (m : marking) : option (token V) :=
  match map_get (place_name p) (m_tokens m) with Some (t :: _) => Some t | _ => None end.

Definition hasTokens (p : place) (m : marking) : bool :=
  match map_get (place_name p) (m_tokens m) with
  | Some q => bool_decide (0 < length q)
  | None => false
  end.

Definition tokenCount (p : place) (m : marking) : nat :=
  match map_get (place_name p) (m_tokens m) with Some q => length q | None => 0 end.

(** ** The abstract marking: a queue for every name *)

Definition queue (m : marking) (n : jsstr) : list (token V) := default [] (map_get n (m_tokens m)).

(** Well-formed: a [Map] has each key once. *)
Definition marking_wf (m : marking) : Prop := NoDup (m_tokens m).*1.

(** Same observable content. *)
Definition same_content (m m' : marking) : Prop := ∀ n, queue m n = queue m' n.

(** [q] with a satisfying token taken out at its first position. *)
Inductive takes_first (f : option V → bool) : list (token V) → token V → list (token V) → Prop :=
| takes_here t q : f (tok_value t) = true → takes_first f (t :: q) t q
| takes_later t q u q' : f (tok_value t) = false → takes_first f q u q' → takes_first f (t :: q) u (t :: q').

(** ** Lemmas *)

Lemma queue_set p q m n :
  queue (set_queue p q m) n = if decide (n = place_name p) then q else queue m n.
Proof. unfold queue, set_queue. simpl. rewrite map_get_set. by case_decide. Qed.

Lemma peekTokens_queue p m : peekTokens p m = queue m (place_name p).
Proof. done. Qed.

Lemma queue_addToken p t m n :
  queue (addToken p t m) n =
  if decide (n = place_name p) then queue m n ++ [t] else queue m n.
Proof.
  unfold addToken, queue. destruct (map_get (place_name p) (m_tokens m)) as [q|] eqn:E; simpl;
    rewrite map_get_set; case_decide; try done; subst; by rewrite E.
Qed.

Lemma removeFirst_spec p m :
  removeFirst p m = match queue m (place_name p) with
                    | [] => (None, m) | t :: q => (Some t, set_queue p q m) end.
Proof. unfold removeFirst, queue. by destruct (map_get _ _) as [[|]|]. Qed.

Lemma removeAll_spec p m :
  removeAll p m = match queue m (place_name p) with
                  | [] => ([], m) | q => (q, set_queue p [] m) end.
Proof. unfold removeAll, queue. by destruct (map_get _ _) as [[|]|]. Qed.

Lemma splice_first_Some f q u q' : splice_first f q = Some (u, q') ↔ takes_first f q u q'.
Proof.
  split.
  - revert q'. induction q as [|t q IH]; intros q'; simpl; [done|].
    case_bool; [intros [= <- <-]; by constructor|].
    destruct (splice_first f q) as [[t' q'']|]; [|done]. intros [= -> <-]. constructor; auto.
  - induction 1 as [t q H|t q u q' H _ IH]; simpl; rewrite H; [done|]. by rewrite IH.
Qed.

Lemma splice_first_None f (q : list (token V)) : splice_first f q = None ↔ ∀ t : token V, t ∈ q → f (tok_value t) = false.
Proof.
  induction q as [|t q IH]; simpl; [split; [set_solver|done]|].
  case_bool; [split; [done|intros H; by rewrite H in Heqb by left]|].
  trans (splice_first f q = None); [by destruct (splice_first f q) as [[]|]|].
  rewrite IH. setoid_rewrite elem_of_cons. naive_solver.
Qed.

Lemma countMatching_foldl (f : option V → bool) (q : list (token V)) n :
  foldl (λ n t, if f (tok_value t) then n + 1 else n) n q = n + length (filter (λ t, f (tok_value t) = true) q).
Proof.
  revert n. induction q as [|t q IH]; intros n; simpl; [lia|]. rewrite IH, filter_cons.
  case_decide as E; [rewrite E; simpl; lia|]. destruct (f (tok_value t)); [done|lia].
Qed.

Lemma marking_wf_add p t m : marking_wf m → marking_wf (addToken p t m).
Proof. unfold marking_wf, addToken. intros. destruct (map_get _ _); simpl; auto with petri. Qed.

Lemma marking_wf_set p q m : marking_wf m → marking_wf (set_queue p q m).
Proof. unfold marking_wf, set_queue. simpl. auto with petri. Qed.
Hint Resolve marking_wf_add marking_wf_set : petri.

Lemma marking_wf_removeFirst p m : marking_wf m → marking_wf (removeFirst p m).2.
Proof. rewrite removeFirst_spec. destruct (queue m _); simpl; auto with petri. Qed.
Lemma marking_wf_removeAll p m : marking_wf m → marking_wf (removeAll p m).2.
Proof. rewrite removeAll_spec. destruct (queue m _); simpl; auto with petri. Qed.
Lemma marking_wf_removeFirstMatching s m : marking_wf m → marking_wf (removeFirstMatching s m).2.
Proof.
  unfold removeFirstMatching. intros. repeat case_match; simpl; auto with petri.
Qed.

(** ** Snapshots *)

Definition live_names (m : marking) : list jsstr :=
  omap (λ x : jsstr * list (token V), if bool_decide (0 < length x.2) then Some x.1 else None) (m_tokens m).

Lemma elem_of_live_names m n : marking_wf m → n ∈ live_names m ↔ queue m n ≠ [].
Proof.
  intros Hwf. unfold live_names, queue. rewrite list_elem_of_omap. split.
  - intros ([n' q] & Hin & E). simpl in E. case_bool_decide as Hl; simplify_eq.
    apply elem_map_get in Hin; [|done]. rewrite Hin. simpl. by destruct q; [simpl in Hl; lia|].
  - intros Hq. destruct (map_get n (m_tokens m)) as [q|] eqn:E; [|done].
    exists (n, q). split; [by apply map_get_elem|]. simpl.
    rewrite bool_decide_eq_true_2; [done|]. simpl in Hq. destruct q; [done|simpl; lia].
Qed.

Lemma NoDup_live_names m : marking_wf m → NoDup (live_names m).
Proof.
  unfold marking_wf, live_names. induction (m_tokens m) as [|[n q] ts IH]; simpl; [constructor|].
  intros [Hn Hd]%NoDup_cons. case_bool_decide; [|auto]. constructor; [|auto].
  rewrite list_elem_of_omap. intros ([n' q'] & Hin & E). simpl in E. case_bool_decide; simplify_eq.
  apply Hn. apply list_elem_of_fmap. by exists (n, q').
Qed.

Lemma foldl_map_set_fresh (f : jsstr → list (token V)) (ns : list jsstr) acc :
  NoDup ns → (∀ n, n ∈ ns → n ∉ acc.*1) →
  foldl (λ out n, map_set n (f n) out) acc ns = acc ++ ((λ n, (n, f n)) <$> ns).
Proof.
  revert acc. induction ns as [|n ns IH]; intros acc Hd Hf; simpl; [by rewrite app_nil_r|].
  apply NoDup_cons in Hd as [Hn Hd].
  assert (map_set n (f n) acc = acc ++ [(n, f n)]) as ->.
  { assert (n ∉ acc.*1) as Hna by (apply Hf; left). clear -Hna.
    induction acc as [|[k v] acc IH]; simpl; [done|]. rewrite fmap_cons in Hna. simpl in Hna.
    rewrite decide_False by set_solver. f_equal. apply IH. set_solver. }
  rewrite IH, <- app_assoc; [done|done|]. intros k Hk. rewrite fmap_app. cbn.
  rewrite elem_of_app. intros [Hin|Hin%list_elem_of_singleton]; [by apply (Hf k); [right|]|by subst].
Qed.

Lemma snapshot_spec m : marking_wf m →
  snapshot m = (λ n, (n, queue m n)) <$> sortNames (live_names m).
Proof.
  intros Hwf. unfold snapshot. fold (live_names m). rewrite foldl_map_set_fresh.
  - done.
  - rewrite sortNames_Permutation. by apply NoDup_live_names.
  - set_solver.
Qed.

Lemma fmap_pair_fst {A B} (f : A → B) (l : list A) : ((λ x, (x, f x)) <$> l).*1 = l.
Proof. induction l as [|x l IH]; [done|]. rewrite !fmap_cons, IH. done. Qed.

Lemma queue_fromSnapshot s n : NoDup s.*1 →
  queue (fromSnapshot s) n = default [] (map_get n s).
Proof.
  unfold queue, fromSnapshot. simpl.
  assert (∀ ts, NoDup s.*1 → (∀ k, k ∈ s.*1 → k ∉ ts.*1) →
    default [] (map_get n (foldl (λ ts x, if bool_decide (length x.2 = 0) then ts else map_set x.1 x.2 ts) ts s)) =
    if decide (n ∈ ts.*1) then default [] (map_get n ts) else default [] (map_get n s)) as H.
  { induction s as [|[k q] s IH]; intros ts Hd Hf; simpl.
    - case_decide; [done|]. by rewrite (proj2 (map_get_None n ts)).
    - rewrite fmap_cons in Hd. apply NoDup_cons in Hd as [Hk Hd]. simpl in Hk.
      assert (k ∉ ts.*1) as Hkt by (apply Hf; left).
      case_bool_decide as Hq; rewrite IH; try done.
      + case_decide; [done|]. destruct (decide (n = k)) as [->|]; [|done].
        rewrite (proj2 (map_get_None k s)) by done. destruct q; [done|]. simpl in Hq. lia.
      + intros j Hj. apply Hf. by right.
      + cbn [fst snd]. rewrite map_set_keys, (decide_False (P:=k ∈ ts.*1)) by done. rewrite map_get_set.
        destruct (decide (n = k)) as [->|].
        * rewrite decide_True by set_solver. by rewrite decide_False.
        * repeat case_decide; try done; set_solver.
      + intros j Hj. cbn [fst snd]. rewrite map_set_keys, (decide_False (P:=k ∈ ts.*1)) by done.
        assert (j ∉ ts.*1) by (apply Hf; by right). set_solver. }
  intros Hd. rewrite H; [|done|set_solver]. rewrite decide_False by set_solver. done.
Qed.

Lemma map_get_fmap (f : jsstr → list (token V)) ns n :
  map_get n ((λ k, (k, f k)) <$> ns) = if decide (n ∈ ns) then Some (f n) else None.
Proof.
  induction ns as [|k ns IH]; [done|]. rewrite fmap_cons. cbn [map_get]. rewrite IH. repeat case_decide; subst; try done; set_solver.
Qed.

(** The names of a marking are strings of 16-bit units. *)
Definition names_ok (m : marking) : Prop := Forall (Forall unit16) (m_tokens m).*1.

Lemma live_names_ok m : names_ok m → Forall (Forall unit16) (live_names m).
Proof.
  unfold names_ok. rewrite !Forall_forall. intros H n Hn. apply H.
  unfold live_names in Hn. apply list_elem_of_omap in Hn as ([n' q] & Hin & E).
  simpl in E. case_bool_decide; simplify_eq. apply list_elem_of_fmap. by exists (n, q).
Qed.

Lemma snapshot_keys m : marking_wf m → (snapshot m).*1 = sortNames (live_names m).
Proof. intros. rewrite snapshot_spec by done. apply fmap_pair_fst. Qed.

Lemma snapshot_lookup m n : marking_wf m → default [] (map_get n (snapshot m)) = queue m n.
Proof.
  intros Hwf. rewrite snapshot_spec, map_get_fmap by done. case_decide as Hn; [done|].
  rewrite sortNames_Permutation, elem_of_live_names in Hn by done.
  destruct (queue m n); [done|]. by destruct Hn.
Qed.

Lemma marking_wf_fromSnapshot s : marking_wf (fromSnapshot s).
Proof.
  unfold marking_wf, fromSnapshot. simpl.
  assert (∀ ts : list (jsstr * list (token V)), NoDup ts.*1 → NoDup (foldl (λ ts x, if bool_decide (length x.2 = 0) then ts
    else map_set x.1 x.2 ts) ts s).*1) as H; [|apply H; constructor].
  induction s as [|x s IH]; intros ts Hts; simpl; [done|]. apply IH.
  case_bool_decide; auto with petri.
Qed.

Lemma snapshot_same_content m m' :
  marking_wf m → marking_wf m' → names_ok m → same_content m m' → snapshot m = snapshot m'.
Proof.
  intros Hwf Hwf' Hok Hs. rewrite !snapshot_spec by done.
  rewrite (sortNames_canonical (live_names m) (live_names m')).
  - apply list_fmap_ext. intros _ n _. by rewrite Hs.
  - by apply live_names_ok.
  - apply NoDup_Permutation; [by apply NoDup_live_names..|].
    intros n. rewrite !elem_of_live_names by done. by rewrite Hs.
Qed.

Lemma same_content_restore m : marking_wf m → same_content (fromSnapshot (snapshot m)) m.
Proof.
  intros Hwf n. rewrite queue_fromSnapshot, snapshot_lookup; [done|done|].
  rewrite snapshot_keys, sortNames_Permutation by done. by apply NoDup_live_names.
Qed.
End Marking.

Arguments Marking {V}. Arguments m_tokens {V}. Arguments placeRefs {V}. Arguments empty {V}.
Arguments snapshot {V}. Arguments fromSnapshot {V}. Arguments from {V}. Arguments addToken {V}.
Arguments removeFirst {V}. Arguments removeAll {V}. Arguments removeFirstMatching {V}.
Arguments hasMatchingToken {V}. Arguments countMatching {V}. Arguments peekTokens {V}.
Arguments peekFirst {V}. Arguments hasTokens {V}. Arguments tokenCount {V}. Arguments queue {V}.
Arguments marking_wf {V}. Arguments same_content {V}. Arguments names_ok {V}. Arguments set_queue {V}.
Arguments takes_first {V}. Arguments splice_first {V}. Arguments live_names {V}.
Arguments snapshot_same_content {V}. Arguments same_content_restore {V}. Arguments queue_addToken {V}.
Arguments removeFirst_spec {V}. Arguments removeAll_spec {V}. Arguments queue_set {V}.
Arguments splice_first_Some {V}. Arguments splice_first_None {V}.
#[export] Hint Resolve marking_wf_add marking_wf_set marking_wf_removeFirst marking_wf_removeAll
  marking_wf_removeFirstMatching marking_wf_fromSnapshot : petri.

(** ** Properties *)

(** A marking is a FIFO queue for every place name: adding appends at the back, removing takes
    the front, a removal by predicate takes the first token that satisfies it and keeps the
    order of the others, draining empties the place, and no operation touches another place. *)
Theorem marking_fifo {V} (m : marking V) (p : place) (t : token V) (f : option V → bool) (n : jsstr) :
  queue (addToken p t m) n = (if decide (n = place_name p) then queue m n ++ [t] else queue m n) ∧
  (removeFirst p m).1 = head (queue m (place_name p)) ∧
  queue (removeFirst p m).2 n = (if decide (n = place_name p) then tail (queue m n) else queue m n) ∧
  (removeAll p m).1 = queue m (place_name p) ∧
  queue (removeAll p m).2 n = (if decide (n = place_name p) then [] else queue m n) ∧
  match (removeFirstMatching (p, Some f) m).1 with
  | Some u => takes_first f (queue m (place_name p)) u (queue (removeFirstMatching (p, Some f) m).2 (place_name p)) ∧
              (n ≠ place_name p → queue (removeFirstMatching (p, Some f) m).2 n = queue m n)
  | None => (removeFirstMatching (p, Some f) m).2 = m ∧
            ∀ u, u ∈ queue m (place_name p) → f (tok_value u) = false
  end.
Proof.
  split_and!.
  - apply queue_addToken.
  - rewrite removeFirst_spec. by destruct (queue m (place_name p)).
  - rewrite removeFirst_spec. destruct (queue m (place_name p)) eqn:E; simpl; [|rewrite queue_set];
      case_decide; subst; rewrite ?E; done.
  - rewrite removeAll_spec. by destruct (queue m (place_name p)).
  - rewrite removeAll_spec. destruct (queue m (place_name p)) eqn:E; simpl; [|rewrite queue_set];
      case_decide; subst; rewrite ?E; done.
  - unfold removeFirstMatching. cbn [fst snd]. assert (queue m (place_name p) = default [] (map_get (place_name p) (m_tokens m))) as Eq by done.
    destruct (map_get (place_name p) (m_tokens m)) as [[|u q]|]; rewrite Eq; cbn [default fst snd];
      try (split; [done|]; intros ? []%not_elem_of_nil).
    destruct (splice_first f (u :: q)) as [[v q']|] eqn:E; cbn [fst snd].
    + rewrite queue_set, decide_True by done. split; [by apply splice_first_Some|].
      intros. by rewrite queue_set, decide_False.
    + split; [done|]. by apply splice_first_None.
Qed.

(** C30: a snapshot is canonical and restorable: its places are the non-empty ones in code-point
    order, restoring it gives back every queue, and two markings have the same snapshot
    exactly when they have the same queues. *)
Theorem snapshot_canonical {V} (m m' : marking V) :
  marking_wf m → marking_wf m' → names_ok m → names_ok m' →
  StronglySorted code_point_le (snapshot m).*1 ∧ NoDup (snapshot m).*1 ∧
  Forall (λ x, x.2 ≠ []) (snapshot m) ∧
  same_content (fromSnapshot (snapshot m)) m ∧
  (snapshot m = snapshot m' ↔ same_content m m').
Proof.
  intros Hwf Hwf' Hok Hok'. split_and!.
  - rewrite snapshot_keys by done. by apply sortNames_sorted, live_names_ok.
  - rewrite snapshot_keys, sortNames_Permutation by done. by apply NoDup_live_names.
  - rewrite snapshot_spec by done. apply Forall_forall. intros x (n & -> & Hn)%list_elem_of_fmap.
    rewrite sortNames_Permutation, elem_of_live_names in Hn; done.
  - by apply same_content_restore.
  - split; [|by apply snapshot_same_content].
    intros E n. by rewrite <- (snapshot_lookup _ m n), <- (snapshot_lookup _ m' n), E.
Qed.

Definition example_marking : marking nat :=
  (removeFirst (Place 2 (js "c"))
    (addToken (Place 2 (js "c")) (Token (Some 3) 30)
      (addToken (Place 1 (js "b")) (Token (Some 2) 20)
        (addToken (Place 0 (js "a")) (Token (Some 1) 10)
          (addToken (Place 1 (js "b")) (Token (Some 0) 5) empty))))).2.

Lemma snapshot_canonical_witness :
  StronglySorted code_point_le (snapshot example_marking).*1 ∧ NoDup (snapshot example_marking).*1 ∧
  Forall (λ x, x.2 ≠ []) (snapshot example_marking) ∧
  same_content (fromSnapshot (snapshot example_marking)) example_marking ∧
  (snapshot example_marking = snapshot (fromSnapshot (snapshot example_marking)) ↔
   same_content example_marking (fromSnapshot (snapshot example_marking))).
Proof.
  apply snapshot_canonical.
  - by apply (bool_decide_unpack _).
  - by apply (bool_decide_unpack _).
  - by apply (bool_decide_unpack _).
  - by apply (bool_decide_unpack _).
Defined.
