(* ===== verification/MatchEngine.v ===== *)
(** * Name correlation of joins

    [src/typescript/src/runtime/match-engine.ts]: the binding selection of a join from name
    indexes, and the incremental matcher that maintains it. Stacks of a [MinQueue] are lists with
    the top first; a [ReadyHeap] is the list of its array. A token's time stamp is a [Z]; the
    representative of a name is a [jnum], since the code starts its minimum at [Infinity]. *)
From S2P Require Import Prelude.
From S2P Require Import Net.
From S2P Require Import Transition.
#[local] Open Scope Z_scope.

(** ** Selection from indexes *)

Definition MAX_SAFE_INTEGER : Z := 2 ^ 53 - 1.

Record name_stat := NameStat { ns_count : Z; minCreatedAt : Z }.
Abbreviation name_index := (list (jsstr * name_stat)).

(** The smallest index, the first of equals. *)
Definition seed_index (perPlace : list name_index) : nat :=
  foldl (λ seed i, if bool_decide (length (default [] (perPlace !! i)) < length (default [] (perPlace !! seed)))%nat
                   then i else seed) 0%nat (seq 1 (length perPlace - 1)).

(** The inner loop: the earliest stamp of [name], [None] when some input lacks it. *)
Fixpoint rep_from (name : jsstr) (l : list (name_index * Z)) (repTs : Z) : option Z :=
  match l with
  | [] => Some repTs
  | (ix, required) :: l' =>
      match map_get name ix with
      | None => None
      | Some s => if ns_count s <? required then None else rep_from name l' (repTs `min` minCreatedAt s)
      end
  end.

Definition take (repTs : Z) (name : jsstr) (best : option (jsstr * Z)) : bool :=
  match best with
  | None => true
  | Some (bestName, bestTs) => (repTs <? bestTs) || ((repTs =? bestTs) && js_ltb name bestName)
  end.

Definition select_step (perPlace : list (name_index * Z)) (required : Z) (best : option (jsstr * Z))
    (e : jsstr * name_stat) : option (jsstr * Z) :=
  if ns_count e.2 <? required then best
  else match rep_from e.1 perPlace MAX_SAFE_INTEGER with
       | None => best
       | Some repTs => if take repTs e.1 best then Some (e.1, repTs) else best
       end.

Definition selectMatchName (perPlace : list name_index) (requireds : list Z) : option name_id :=
  if bool_decide (length perPlace = 0)%nat then None
  else let seed := seed_index perPlace in
       fst <$> foldl (select_step (zip perPlace requireds) (default 0 (requireds !! seed))) None
                     (default [] (perPlace !! seed)).

Definition buildNameIndex {V} (tokens : list (token V)) (key : key_fn V) : name_index :=
  foldl (λ index t,
    match key (tok_value t) with
    | None => index
    | Some name =>
        match map_get name index with
        | Some prev => map_set name (NameStat (ns_count prev + 1)
            (if createdAt t <? minCreatedAt prev then createdAt t else minCreatedAt prev)) index
        | None => map_set name (NameStat 1 (createdAt t)) index
        end
    end) [] tokens.

Fixpoint required_in (specs : list in_spec) (placeName : jsstr) : Z :=
  match specs with
  | [] => 1
  | s :: rest =>
      if decide (place_name (in_place s) = placeName)
      then match s with InExactly _ n => n | InAtLeast _ m => m | _ => 1 end
      else required_in rest placeName
  end.
Definition requiredFor {V} (t : transition V) (placeName : jsstr) : Z := required_in (inputSpecs t) placeName.

Definition findBinding {V} (t : transition V) (getTokens : place → list (token V)) : option name_id :=
  match t_matchSpec t with
  | None => None
  | Some ms =>
      selectMatchName ((λ k, buildNameIndex (getTokens (mk_place_of k)) (mk_key k)) <$> ms_keys ms)
                      ((λ k, requiredFor t (key_name k)) <$> ms_keys ms)
  end.

(** ** [MinQueue] *)

Record min_queue := MinQueue { inStack : list Z; inMin : list Z; outStack : list Z; outMin : list Z }.

Definition mq_new : min_queue := MinQueue [] [] [] [].
Definition mq_size (q : min_queue) : nat := length (inStack q) + length (outStack q).

(** Pushing [v] on a stack of running minima. *)
Definition push_min (mins : list Z) (v : Z) : list Z :=
  match mins with m :: _ => m `min` v | [] => v end :: mins.

Definition pushBack (v : Z) (q : min_queue) : min_queue :=
  MinQueue (v :: inStack q) (push_min (inMin q) v) (outStack q) (outMin q).

(** The loop moving the in-stack to the out-stack. *)
Fixpoint mq_transfer (inS inM outS outM : list Z) : min_queue :=
  match inS with
  | [] => MinQueue [] inM outS outM
  | v :: inS' => mq_transfer inS' (tail inM) (v :: outS) (push_min outM v)
  end.

Definition popFront (q : min_queue) : min_queue :=
  let q := if bool_decide (length (outStack q) = 0)%nat
           then mq_transfer (inStack q) (inMin q) (outStack q) (outMin q) else q in
  MinQueue (inStack q) (inMin q) (tail (outStack q)) (tail (outMin q)).

Definition mq_min (q : min_queue) : jnum :=
  let a := match inMin q with m :: _ => Fin m | [] => Infinity end in
  let b := match outMin q with m :: _ => Fin m | [] => Infinity end in
  if jnum_ltb a b then a else b.

(** ** [ReadyHeap] *)

Record ready_entry := ReadyEntry { re_ts : jnum; re_name : jsstr }.

#[export] Instance ready_entry_eq_dec : EqDecision ready_entry.
Proof. solve_decision. Defined.
#[export] Instance ready_entry_inhabited : Inhabited ready_entry := populate (ReadyEntry Infinity []).

Definition less (x y : ready_entry) : bool :=
  jnum_ltb (re_ts x) (re_ts y) || (bool_decide (re_ts x = re_ts y) && js_ltb (re_name x) (re_name y)).

Definition swap (i j : nat) (a : list ready_entry) : list ready_entry :=
  <[j := a !!! i]> (<[i := a !!! j]> a).

(** The loop of [push] from position [i]; [i] steps are enough. *)
Fixpoint sift_up (fuel : nat) (i : nat) (a : list ready_entry) : list ready_entry :=
  match fuel with
  | O => a
  | S fuel =>
      if (0 <? i)%nat then
        let p := Nat.div2 (i - 1) in
        if less (a !!! i) (a !!! p) then sift_up fuel p (swap i p a) else a
      else a
  end.

Definition heap_push (e : ready_entry) (a : list ready_entry) : list ready_entry :=
  sift_up (length a) (length a) (a ++ [e]).

(** The loop of [pop] from position [i]; [length a - i] steps are enough. *)
Fixpoint sift_down (fuel : nat) (i : nat) (a : list ready_entry) : list ready_entry :=
  match fuel with
  | O => a
  | S fuel =>
      let n := length a in
      let l := (2 * i + 1)%nat in
      let r := (2 * i + 2)%nat in
      let m := if (l <? n)%nat && less (a !!! l) (a !!! i) then l else i in
      let m := if (r <? n)%nat && less (a !!! r) (a !!! m) then r else m in
      if (m =? i)%nat then a else sift_down fuel m (swap i m a)
  end.

Definition heap_pop (a : list ready_entry) : list ready_entry :=
  match last a with
  | None => a
  | Some lst =>
      let a := removelast a in
      if bool_decide (length a = 0)%nat then a
      else sift_down (length a) 0 (<[0%nat := lst]> a)
  end.

(** ** [IncrementalMatcher] *)

Record matcher := Matcher {
  requireds : list Z;
  im_ts : list (gmap jsstr min_queue);
  fifo : list ready_entry;
  fifoHead : nat;
  maxPushed : option ready_entry;
  heaped : bool;
  heap : list ready_entry;
  ready : gmap jsstr jnum
}.

Definition matcher_new (requireds : list Z) : matcher :=
  Matcher requireds ((λ _, ∅) <$> requireds) [] 0 None false [] ∅.

Fixpoint repTs_loop (name : jsstr) (l : list (gmap jsstr min_queue * Z)) (rep : jnum) : option jnum :=
  match l with
  | [] => Some rep
  | (mp, required) :: l' =>
      match mp !! name with
      | None => None
      | Some q => if Z.of_nat (mq_size q) <? required then None
                  else repTs_loop name l' (if jnum_ltb (mq_min q) rep then mq_min q else rep)
      end
  end.
Definition repTs (m : matcher) (name : jsstr) : option jnum :=
  repTs_loop name (zip (im_ts m) (requireds m)) Infinity.

Definition pushReady (rep : jnum) (name : jsstr) (m : matcher) : matcher :=
  let entry := ReadyEntry rep name in
  if heaped m then
    Matcher (requireds m) (im_ts m) (fifo m) (fifoHead m) (maxPushed m) true (heap_push entry (heap m)) (ready m)
  else
    let monotonic := match maxPushed m with
      | None => true
      | Some mx => jnum_ltb (re_ts mx) rep || (bool_decide (rep = re_ts mx) && negb (js_ltb name (re_name mx)))
      end in
    if monotonic then
      Matcher (requireds m) (im_ts m) (fifo m ++ [entry]) (fifoHead m) (Some entry) false (heap m) (ready m)
    else
      Matcher (requireds m) (im_ts m) [] 0 (maxPushed m) true
        (heap_push entry (foldl (λ h e, heap_push e h) (heap m) (drop (fifoHead m) (fifo m)))) (ready m).

Definition set_ready (rd : gmap jsstr jnum) (m : matcher) : matcher :=
  Matcher (requireds m) (im_ts m) (fifo m) (fifoHead m) (maxPushed m) (heaped m) (heap m) rd.
Definition set_ts (ts : list (gmap jsstr min_queue)) (m : matcher) : matcher :=
  Matcher (requireds m) ts (fifo m) (fifoHead m) (maxPushed m) (heaped m) (heap m) (ready m).

Definition refresh (name : jsstr) (m : matcher) : matcher :=
  match repTs m name with
  | Some rep =>
      if decide (ready m !! name = Some rep) then m
      else pushReady rep name (set_ready (<[name := rep]> (ready m)) m)
  | None => set_ready (delete name (ready m)) m
  end.

(** Whether an entry is stale: its name is not ready with its stamp. *)
Definition stale (rd : gmap jsstr jnum) (e : ready_entry) : bool :=
  bool_decide (rd !! re_name e ≠ Some (re_ts e)).

Fixpoint clean_heap (fuel : nat) (rd : gmap jsstr jnum) (h : list ready_entry) : list ready_entry :=
  match fuel with
  | O => h
  | S fuel => match h with
              | top :: _ => if stale rd top then clean_heap fuel rd (heap_pop h) else h
              | [] => h
              end
  end.

Fixpoint clean_fifo (fuel : nat) (rd : gmap jsstr jnum) (f : list ready_entry) (hd : nat) : nat :=
  match fuel with
  | O => hd
  | S fuel => match f !! hd with
              | Some top => if stale rd top then clean_fifo fuel rd f (S hd) else hd
              | None => hd
              end
  end.

Definition cleanTop (m : matcher) : matcher :=
  if heaped m then
    let h := clean_heap (length (heap m)) (ready m) (heap m) in
    if bool_decide (length h = 0)%nat
    then Matcher (requireds m) (im_ts m) (fifo m) (fifoHead m) None false h (ready m)
    else Matcher (requireds m) (im_ts m) (fifo m) (fifoHead m) (maxPushed m) true h (ready m)
  else
    let hd := clean_fifo (length (fifo m) - fifoHead m) (ready m) (fifo m) (fifoHead m) in
    if (length (fifo m) <=? hd)%nat
    then Matcher (requireds m) (im_ts m) [] 0 None false (heap m) (ready m)
    else Matcher (requireds m) (im_ts m) (fifo m) hd (maxPushed m) false (heap m) (ready m).

(** [None]: the index is out of range and the access throws. *)
Definition matcher_add (i : nat) (name : jsstr) (created : Z) (m : matcher) : option matcher :=
  mp ← im_ts m !! i;
  let q := default mq_new (mp !! name) in
  Some (cleanTop (refresh name (set_ts (<[i := <[name := pushBack created q]> mp]> (im_ts m)) m))).

Definition consume_input (name : jsstr) (mp : gmap jsstr min_queue) (required : Z) : gmap jsstr min_queue :=
  match mp !! name with
  | None => mp
  | Some q => let q := Nat.iter (Z.to_nat required) popFront q in
              if bool_decide (mq_size q = 0)%nat then delete name mp else <[name := q]> mp
  end.

Definition matcher_consume (name : jsstr) (m : matcher) : matcher :=
  cleanTop (refresh name (set_ts (zip_with (consume_input name) (im_ts m) (requireds m)) m)).

Definition best (m : matcher) : option name_id :=
  if heaped m then re_name <$> head (heap m) else re_name <$> fifo m !! fifoHead m.
