(* ===== verification/MatchSpec.v ===== *)
(** * The join selection is the earliest correlated name

    Specification: per correlated input a function from names to the stamps of its tokens in
    FIFO order. A name is ready when every input has a token of it and enough of them; its
    representative is its oldest stamp; the best name is the ready one with the least
    (representative, name). [selectMatchName] and [IncrementalMatcher] both compute it. *)
From S2P Require Import Prelude.
From S2P Require Import Net.
From S2P Require Import Transition.
From S2P Require Import MatchEngine.
#[local] Open Scope Z_scope.

(** ** Specification *)

(** The stamps of each name at one input, in FIFO order. *)
Abbreviation stamps := (jsstr → list Z).

Definition enough (l : list Z) (required : Z) : bool :=
  bool_decide (l ≠ []) && (required <=? Z.of_nat (length l)).

(** The representative of a ready name. *)
Fixpoint rep_spec (n : jsstr) (l : list (stamps * Z)) : option jnum :=
  match l with
  | [] => Some Infinity
  | (st, r) :: l' =>
      if enough (st n) r then jnum_min (minimum (st n)) <$> rep_spec n l' else None
  end.

(** [o] is the name with the least entry among those [R] gives a representative. *)
Definition is_best (R : jsstr → option jnum) (o : option jsstr) : Prop :=
  match o with
  | Some n => ∃ ts, R n = Some ts ∧ ∀ n' ts', R n' = Some ts' → less (ReadyEntry ts' n') (ReadyEntry ts n) = false
  | None => ∀ n, R n = None
  end.

(** ** The order of entries *)

Lemma less_irrefl x : less x x = false.
Proof. unfold less. by rewrite jnum_ltb_irrefl, js_ltb_irrefl, andb_false_r. Qed.

Lemma less_trans x y z : less x y = true → less y z = true → less x z = true.
Proof.
  unfold less. rewrite !orb_true_iff, !andb_true_iff, !bool_decide_eq_true.
  intros [H1|[E1 H1]] [H2|[E2 H2]].
  - left. by eapply jnum_ltb_trans.
  - left. by rewrite <- E2.
  - left. by rewrite E1.
  - right. split; [congruence|by eapply js_ltb_trans].
Qed.

Lemma less_total x y : less x y = false → less y x = false → x = y.
Proof.
  unfold less. rewrite !orb_false_iff. intros [H1 H2] [H3 H4].
  pose proof (jnum_ltb_total _ _ H1 H3) as E. rewrite E, bool_decide_true in H2, H4 by done.
  simpl in *. destruct x, y; simpl in *. f_equal; auto using js_ltb_total.
Qed.

Lemma less_asym x y : less x y = true → less y x = false.
Proof.
  intros H. destruct (less y x) eqn:E; [|done].
  by rewrite <- (less_irrefl x), (less_trans x y x).
Qed.

(** [x] is at most [y]. *)
Definition le_entry (x y : ready_entry) : Prop := less y x = false.

#[export] Instance le_entry_refl : Reflexive le_entry.
Proof. intros x. apply less_irrefl. Qed.
#[export] Instance le_entry_trans : Transitive le_entry.
Proof.
  unfold le_entry. intros x y z H1 H2. destruct (less z x) eqn:E; [|done].
  destruct (less x y) eqn:Exy.
  - by rewrite (less_trans z x y) in H2.
  - assert (x = y) as -> by (by apply less_total). congruence.
Qed.
Lemma le_entry_antisym x y : le_entry x y → le_entry y x → x = y.
Proof. unfold le_entry. auto using less_total. Qed.
Lemma less_le x y : less x y = true → le_entry x y.
Proof. apply less_asym. Qed.

Lemma is_best_unique R o o' : is_best R o → is_best R o' → o = o'.
Proof.
  destruct o as [n|], o' as [n'|]; simpl; try done.
  - intros (ts & E & H) (ts' & E' & H'). f_equal.
    assert (ReadyEntry ts' n' = ReadyEntry ts n) by (apply less_total; eauto). congruence.
  - intros (ts & E & _) H. congruence.
  - intros H (ts & E & _). congruence.
Qed.

Lemma is_best_ext R R' o : (∀ n, R n = R' n) → is_best R o → is_best R' o.
Proof.
  intros HR. destruct o as [n|]; simpl.
  - intros (ts & E & H). exists ts. rewrite <- HR. split; [done|]. intros n' ts'. rewrite <- HR. auto.
  - intros H n. by rewrite <- HR.
Qed.

(** ** Selection from indexes *)

(** [ix] is the index of the stamps [st]. *)
Definition index_repr (ix : name_index) (st : stamps) : Prop :=
  NoDup ix.*1 ∧
  ∀ n, map_get n ix = match minimum (st n) with
                      | Fin m => Some (NameStat (Z.of_nat (length (st n))) m)
                      | Infinity => None
                      end.

(** Stamps the code's starting value does not cut off. *)
Definition stamps_ok (st : stamps) : Prop := ∀ n x, x ∈ st n → x <= MAX_SAFE_INTEGER.

Definition zmin_opt (z : Z) (o : option jnum) : option Z :=
  match o with
  | Some (Fin x) => Some (z `min` x)
  | Some Infinity => Some z
  | None => None
  end.

Lemma rep_from_spec n ixs sts rq z :
  Forall2 index_repr ixs sts → length rq = length sts →
  rep_from n (zip ixs rq) z = zmin_opt z (rep_spec n (zip sts rq)).
Proof.
  intros H. revert rq z. induction H as [|ix st ixs sts [_ Hix] H IH]; intros [|r rq] z; try done.
  intros [= Hl]. cbn [zip zip_with rep_from rep_spec]. rewrite Hix. unfold enough.
  destruct (st n) as [|x l]; [done|].
  destruct (minimum_cons_Fin x l) as (m & E & _ & _). rewrite E. cbn [ns_count minCreatedAt].
  rewrite bool_decide_true by done. rewrite Z.ltb_antisym.
  destruct (r <=? Z.of_nat (length (x :: l))); simpl; [|done].
  rewrite IH by done. unfold zip. destruct (rep_spec n _) as [[y|]|]; simpl; try done.
  - rewrite jnum_min_Fin. simpl. f_equal. lia.
Qed.

Lemma rep_spec_bound n sts rq x :
  Forall stamps_ok sts → length rq = length sts → sts ≠ [] →
  rep_spec n (zip sts rq) = Some x → ∃ z, x = Fin z ∧ z <= MAX_SAFE_INTEGER.
Proof.
  intros H. revert rq x. induction H as [|st sts Hs H IH]; intros [|r rq] x; try done.
  intros [= Hl] _. cbn [zip zip_with rep_spec]. unfold enough. destruct (st n) as [|y l] eqn:E; [done|].
  destruct (minimum_cons_Fin y l) as (m & Em & Hm & _). rewrite Em. clear Em.
  assert (m <= MAX_SAFE_INTEGER) by (apply (Hs n); by rewrite E).
  case_bool; [|done]. fold (zip sts rq). destruct (rep_spec n (zip sts rq)) as [x'|] eqn:Er; [|done].
  intros [= <-]. destruct sts as [|st' sts].
  { destruct rq; [|done]. injection Er as <-. rewrite jnum_min_Inf_r. eauto. }
  destruct (IH rq x') as (z & -> & ?); [done..|]. rewrite jnum_min_Fin. eexists. split; [done|]. lia.
Qed.

(** The representative of a name as a [Z]. *)
Definition rep_z (n : jsstr) (l : list (stamps * Z)) : option Z :=
  match rep_spec n l with Some (Fin z) => Some z | _ => None end.

Section Select.
Variables (ixs : list name_index) (sts : list stamps) (rq : list Z).
Hypothesis repr : Forall2 index_repr ixs sts.
Hypothesis len : length rq = length sts.
Hypothesis ok : Forall stamps_ok sts.
Hypothesis ne : sts ≠ [].

Lemma rep_from_select n : rep_from n (zip ixs rq) MAX_SAFE_INTEGER = rep_z n (zip sts rq).
Proof using repr len ok ne.
  rewrite (rep_from_spec n ixs sts) by done. unfold rep_z.
  destruct (rep_spec n (zip sts rq)) as [x|] eqn:E; [|done].
  apply rep_spec_bound in E as (z & -> & ?); [|done..]. simpl. f_equal. lia.
Qed.

(** What the scan over the entries [l] selects. *)
Definition scan_inv (seen : list jsstr) (best : option (jsstr * Z)) : Prop :=
  match best with
  | Some (n, ts) => n ∈ seen ∧ rep_z n (zip sts rq) = Some ts ∧
      ∀ n' ts', n' ∈ seen → rep_z n' (zip sts rq) = Some ts' →
        less (ReadyEntry (Fin ts') n') (ReadyEntry (Fin ts) n) = false
  | None => ∀ n, n ∈ seen → rep_z n (zip sts rq) = None
  end.

Lemma take_less ts n b : take ts n b = match b with
  | None => true | Some (bn, bt) => less (ReadyEntry (Fin ts) n) (ReadyEntry (Fin bt) bn) end.
Proof.
  destruct b as [[bn bt]|]; [|done]. unfold take, less. simpl. f_equal.
  destruct (ts =? bt) eqn:E; b2p; subst.
  - by rewrite bool_decide_true.
  - rewrite bool_decide_false; [done|congruence].
Qed.

Lemma scan_step seen best e required :
  scan_inv seen best → (∀ z, rep_z e.1 (zip sts rq) = Some z → required <= ns_count e.2) →
  scan_inv (seen ++ [e.1]) (select_step (zip ixs rq) required best e).
Proof using repr len ok ne.
  intros Hinv Hreq. unfold select_step.
  destruct (ns_count e.2 <? required) eqn:Ec; b2p.
  { assert (rep_z e.1 (zip sts rq) = None) as En.
    { destruct (rep_z e.1 (zip sts rq)) as [z|]; [|done]. specialize (Hreq z eq_refl). lia. }
    destruct best as [[n ts]|]; simpl in *.
    - destruct Hinv as (? & ? & Hmin). split_and!; [set_solver|done|].
      intros n' ts' [?|Hn%list_elem_of_singleton]%elem_of_app; [by apply Hmin|subst; congruence].
    - intros n [?|Hn%list_elem_of_singleton]%elem_of_app; [by apply Hinv|by subst]. }
  rewrite rep_from_select. destruct (rep_z e.1 (zip sts rq)) as [ts0|] eqn:Er.
  - rewrite take_less. destruct best as [[n ts]|]; simpl in *.
    + destruct Hinv as (Hn & Hts & Hmin). destruct (less _ _) eqn:El; simpl.
      * split_and!; [set_solver|done|].
        intros n' ts' [Hn'|Hn'%list_elem_of_singleton]%elem_of_app Hts'.
        -- specialize (Hmin n' ts' Hn' Hts').
           destruct (less (ReadyEntry (Fin ts') n') (ReadyEntry (Fin ts0) e.1)) eqn:E2; [|done].
           by rewrite (less_trans _ _ _ E2 El) in Hmin.
        -- subst. rewrite Er in Hts'. injection Hts' as <-. apply less_irrefl.
      * split_and!; [set_solver|done|].
        intros n' ts' [Hn'|Hn'%list_elem_of_singleton]%elem_of_app Hts'; [by apply Hmin|].
        subst. rewrite Er in Hts'. by injection Hts' as <-.
    + split_and!; [set_solver|done|].
      intros n' ts' [Hn'|Hn'%list_elem_of_singleton]%elem_of_app Hts'.
      * rewrite Hinv in Hts'; done.
      * subst. rewrite Er in Hts'. injection Hts' as <-. apply less_irrefl.
  - destruct best as [[n ts]|]; simpl in *.
    + destruct Hinv as (? & ? & Hmin). split_and!; [set_solver|done|].
      intros n' ts' [?|Hn%list_elem_of_singleton]%elem_of_app; [by apply Hmin|subst; congruence].
    + intros n [?|Hn%list_elem_of_singleton]%elem_of_app; [by apply Hinv|by subst].
Qed.

Lemma scan_foldl required l seen best :
  scan_inv seen best →
  (∀ e z, e ∈ l → rep_z e.1 (zip sts rq) = Some z → required <= ns_count e.2) →
  scan_inv (seen ++ l.*1) (foldl (select_step (zip ixs rq) required) best l).
Proof using repr len ok ne.
  revert seen best. induction l as [|e l IH]; intros seen best Hinv Hreq.
  { simpl. by rewrite app_nil_r. }
  rewrite fmap_cons. cbn [foldl]. replace (seen ++ e.1 :: l.*1) with ((seen ++ [e.1]) ++ l.*1)
    by (by rewrite <- app_assoc). apply IH.
  - apply scan_step; [done|]. intros z. apply Hreq. left.
  - intros e' z Hin. apply Hreq. by right.
Qed.

Lemma seed_in_range : (seed_index ixs < length ixs)%nat.
Proof using repr len ok ne.
  assert (0 < length ixs)%nat as Hpos.
  { rewrite (Forall2_length _ _ _ repr). destruct sts; [done|simpl; lia]. }
  unfold seed_index.
  assert (∀ l s, (s < length ixs)%nat → (∀ i, i ∈ l → (i < length ixs)%nat) →
    (foldl (λ seed i, if bool_decide (length (default [] (ixs !! i)) < length (default [] (ixs !! seed)))%nat
                   then i else seed) s l < length ixs)%nat) as H.
  { induction l as [|i l IH]; intros s Hs Hl; simpl; [done|]. apply IH; [|intros; apply Hl; by right].
    case_bool_decide; [apply Hl; left|done]. }
  apply H; [done|]. intros i Hi%elem_of_seq. lia.
Qed.

Lemma rep_z_entry i ix r n z :
  ixs !! i = Some ix → rq !! i = Some r → rep_z n (zip sts rq) = Some z →
  ∃ s, map_get n ix = Some s ∧ r <= ns_count s.
Proof using repr len ok ne.
  rewrite <- rep_from_select. clear ok ne. revert i rq len. generalize MAX_SAFE_INTEGER as z0.
  induction repr as [|ix0 st0 ixs0 sts0 H0 H IH]; intros z0 i [|r0 rq0]; try done.
  intros [= Hlen] Hi Hr. cbn [zip zip_with rep_from]. destruct i as [|i]; simpl in Hi, Hr.
  - simplify_eq. destruct (map_get n ix) as [s|]; [|done]. case_bool; [done|]; b2p. eauto.
  - destruct (map_get n ix0) as [s|]; [|done]. case_bool; [done|]. intros Hz. by eapply IH.
Qed.

Lemma selectMatchName_best : is_best (λ n, rep_spec n (zip sts rq)) (selectMatchName ixs rq).
Proof using repr len ok ne.
  assert (length ixs = length sts) as Hl by (by eapply Forall2_length).
  unfold selectMatchName. rewrite bool_decide_false by (destruct sts; simpl in *; [done|lia]).
  destruct (lookup_lt_is_Some_2 ixs (seed_index ixs) seed_in_range) as [ix Hix].
  destruct (lookup_lt_is_Some_2 rq (seed_index ixs)) as [r Hr].
  { rewrite len, <- Hl. apply seed_in_range. }
  cbv zeta. rewrite Hix, Hr.
  change (default 0 (Some r)) with r. change (default [] (Some ix)) with ix.
  destruct (Forall2_lookup_l _ _ _ _ _ repr Hix) as (st & Hst & Hnd & Hget).
  pose proof (scan_foldl r ix [] None) as H. simpl in H.
  destruct (foldl _ None ix) as [[n ts]|].
  - destruct H as (_ & Hts & Hmin).
    { intros k ?%not_elem_of_nil. done. }
    { intros e z He Hz. destruct (rep_z_entry _ _ _ _ _ Hix Hr Hz) as (s & Hs & ?).
      destruct e as [k v]. by rewrite (elem_map_get k v) in Hs; simplify_eq. }
    change (fst <$> Some (n, ts)) with (Some n). unfold is_best.
    exists (Fin ts). unfold rep_z in Hts. destruct (rep_spec n (zip sts rq)) as [[]|]; simplify_eq.
    split; [done|]. intros n' ts' Hts'.
    destruct (rep_spec_bound _ _ _ _ ok len ne Hts') as (z & -> & _).
    assert (rep_z n' (zip sts rq) = Some z) as Hz by (unfold rep_z; by rewrite Hts').
    apply Hmin; [|done]. destruct (rep_z_entry _ _ _ _ _ Hix Hr Hz) as (s & Hs & _).
    apply map_get_elem in Hs. by apply (list_elem_of_fmap_2 fst) in Hs.
  - intros n. destruct (rep_spec n (zip sts rq)) as [x|] eqn:E; [|done].
    destruct (rep_spec_bound _ _ _ _ ok len ne E) as (z & -> & _).
    assert (rep_z n (zip sts rq) = Some z) as Hz by (unfold rep_z; by rewrite E).
    destruct (rep_z_entry _ _ _ _ _ Hix Hr Hz) as (s & Hs & _).
    apply map_get_elem in Hs. apply (list_elem_of_fmap_2 fst) in Hs.
    rewrite H in Hz; [done| | |done].
    + intros k ?%not_elem_of_nil. done.
    + intros e z' He Hz'. destruct (rep_z_entry _ _ _ _ _ Hix Hr Hz') as (s' & Hs' & ?).
      destruct e as [k v]. by rewrite (elem_map_get k v) in Hs'; simplify_eq.
Qed.
End Select.

(** ** Indexes of token queues *)

Definition key_stamps {V} (key : key_fn V) (toks : list (token V)) : stamps :=
  λ n, createdAt <$> filter (λ t, key (tok_value t) = Some n) toks.

Lemma key_stamps_snoc {V} (key : key_fn V) toks t n :
  key_stamps key (toks ++ [t]) n =
  if decide (key (tok_value t) = Some n) then key_stamps key toks n ++ [createdAt t] else key_stamps key toks n.
Proof.
  unfold key_stamps. rewrite filter_app, fmap_app, filter_cons, filter_nil.
  case_decide; [done|]. by rewrite app_nil_r.
Qed.

Lemma minimum_snoc l x : minimum (l ++ [x]) = jnum_min (minimum l) (Fin x).
Proof. rewrite minimum_app. simpl. by rewrite jnum_min_Inf_r. Qed.

Lemma buildNameIndex_snoc {V} (key : key_fn V) toks t :
  buildNameIndex (toks ++ [t]) key =
  match key (tok_value t) with
  | None => buildNameIndex toks key
  | Some name =>
      match map_get name (buildNameIndex toks key) with
      | Some prev => map_set name (NameStat (ns_count prev + 1)
          (if createdAt t <? minCreatedAt prev then createdAt t else minCreatedAt prev)) (buildNameIndex toks key)
      | None => map_set name (NameStat 1 (createdAt t)) (buildNameIndex toks key)
      end
  end.
Proof. unfold buildNameIndex. by rewrite foldl_app. Qed.

Lemma buildNameIndex_repr {V} (key : key_fn V) toks :
  index_repr (buildNameIndex toks key) (key_stamps key toks).
Proof.
  induction toks as [|t toks [Hd Hget]] using rev_ind; [split; [constructor|done]|].
  rewrite buildNameIndex_snoc. destruct (key (tok_value t)) as [name|] eqn:Ek.
  2:{ split; [done|]. intros n. rewrite key_stamps_snoc, decide_False by congruence. apply Hget. }
  rewrite Hget. destruct (minimum (key_stamps key toks name)) as [m|] eqn:Em;
    (split; [by apply NoDup_map_set|]); intros n; rewrite map_get_set, key_stamps_snoc, Ek;
    (destruct (decide (n = name)) as [->|]; [|rewrite decide_False by congruence; apply Hget]);
    rewrite decide_True, minimum_snoc, Em, length_app by done.
  - rewrite jnum_min_Fin. cbn [length ns_count minCreatedAt]. do 2 f_equal; [lia|]. case_bool; b2p; lia.
  - destruct (key_stamps key toks name) as [|x l]; [done|].
    destruct (minimum_cons_Fin x l) as (m & E & _). congruence.
Qed.

(** The correlated inputs of a join with their requirement, as the specification reads them. *)
Definition join_inputs {V} (t : transition V) (ms : match_spec V) (getTokens : place → list (token V))
    : list (stamps * Z) :=
  zip ((λ k, key_stamps (mk_key k) (getTokens (mk_place_of k))) <$> ms_keys ms)
      ((λ k, requiredFor t (key_name k)) <$> ms_keys ms).

Lemma findBinding_best {V} (t : transition V) ms getTokens :
  t_matchSpec t = Some ms → ms_keys ms ≠ [] →
  (∀ k tok, k ∈ ms_keys ms → tok ∈ getTokens (mk_place_of k) → createdAt tok <= MAX_SAFE_INTEGER) →
  is_best (λ n, rep_spec n (join_inputs t ms getTokens)) (findBinding t getTokens).
Proof.
  intros Hms Hne Hts. unfold findBinding. rewrite Hms. apply selectMatchName_best.
  - apply Forall2_fmap, Forall_Forall2_diag, Forall_forall. intros k _. apply buildNameIndex_repr.
  - by rewrite !length_fmap.
  - apply Forall_fmap, Forall_forall. intros k Hk n x Hx. unfold compose, key_stamps in Hx.
    apply list_elem_of_fmap in Hx as (tok & -> & [_ Htok]%list_elem_of_filter). by eapply Hts.
  - by destruct (ms_keys ms).
Qed.

(** ** Queues of stamps with their minimum *)

(** The running minima of a stack. *)
Fixpoint mins (l : list Z) : list Z :=
  match l with [] => [] | v :: l' => push_min (mins l') v end.

Definition mq_ok (q : min_queue) : Prop := inMin q = mins (inStack q) ∧ outMin q = mins (outStack q).

(** The queue's elements, front first. *)
Definition mq_contents (q : min_queue) : list Z := outStack q ++ reverse (inStack q).

Lemma mins_head l : match mins l with m :: _ => Fin m | [] => Infinity end = minimum l.
Proof.
  induction l as [|v l IH]; [done|]. simpl. unfold push_min. rewrite <- IH.
  destruct (mins l) as [|m ms]; simpl; [done|]. rewrite jnum_min_Fin. by rewrite Z.min_comm.
Qed.

Lemma mq_min_spec q : mq_ok q → mq_min q = minimum (mq_contents q).
Proof.
  intros [Ei Eo]. unfold mq_min, mq_contents. rewrite Ei, Eo, !mins_head, minimum_app.
  assert (∀ l, minimum (reverse l) = minimum l) as ->.
  { intros l. induction l as [|x l IH]; [done|].
    rewrite reverse_cons, minimum_snoc, IH. simpl. apply jnum_min_comm. }
  fold (jnum_min (minimum (inStack q)) (minimum (outStack q))). apply jnum_min_comm.
Qed.

Lemma mq_size_spec q : mq_size q = length (mq_contents q).
Proof. unfold mq_size, mq_contents. rewrite length_app, length_reverse. lia. Qed.

Lemma pushBack_spec v q :
  mq_ok q → mq_ok (pushBack v q) ∧ mq_contents (pushBack v q) = mq_contents q ++ [v].
Proof.
  intros [Ei Eo]. unfold mq_ok, mq_contents. simpl. rewrite Ei, reverse_cons, <- app_assoc. done.
Qed.

Lemma mq_transfer_spec inS outS :
  mq_transfer inS (mins inS) outS (mins outS) =
  MinQueue [] [] (reverse inS ++ outS) (mins (reverse inS ++ outS)).
Proof.
  revert outS. induction inS as [|v inS IH]; intros outS; [done|].
  cbn [mq_transfer mins push_min tail]. rewrite reverse_cons, <- app_assoc. simpl.
  by rewrite <- IH.
Qed.

Lemma popFront_spec q :
  mq_ok q → mq_ok (popFront q) ∧ mq_contents (popFront q) = tail (mq_contents q).
Proof.
  intros [Ei Eo]. unfold popFront, mq_ok, mq_contents. destruct q as [inS inM outS outM]; simpl in *.
  subst. case_bool_decide as H; simpl.
  - apply nil_length_inv in H as ->. rewrite mq_transfer_spec. simpl. rewrite app_nil_r.
    split; [|by rewrite app_nil_r]. split; [done|]. by destruct (reverse inS).
  - destruct outS as [|v outS]; [done|]. done.
Qed.

Lemma popFront_iter k q :
  mq_ok q → mq_ok (Nat.iter k popFront q) ∧ mq_contents (Nat.iter k popFront q) = drop k (mq_contents q).
Proof.
  intros Hq. induction k as [|k [IH1 IH2]]; simpl; [done|].
  destruct (popFront_spec _ IH1) as [? ->]. split; [done|]. rewrite IH2. clear.
  revert k. induction (mq_contents q) as [|x l IH]; intros [|k]; try done. simpl. apply IH.
Qed.
