(* ===== verification/MatcherSpec.v ===== *)
(** * The incremental matcher implements the selection

    The heap keeps its least entry at the top and its entries as a multiset; the matcher keeps
    an entry for every ready name in its active structure (the ascending queue or the heap) and
    a current entry at the top. For every sequence of [add] and [consume], [best] is what
    [selectMatchName] answers on the tokens that remain. *)
From S2P Require Import Prelude.
From S2P Require Import Net.
From S2P Require Import Transition.
From S2P Require Import MatchEngine.
From S2P Require Import MatchSpec.

(** ** The binary heap *)

Definition child (p j : nat) : Prop := j = 2 * p + 1 ∨ j = 2 * p + 2.

Definition heap_ok (a : list ready_entry) : Prop :=
  ∀ p j, child p j → j < length a → le_entry (a !!! p) (a !!! j).

(** The heap order everywhere but at [i] and its parent, respectively its children. *)
Definition up_inv (a : list ready_entry) (i : nat) : Prop :=
  (∀ p j, child p j → j < length a → j ≠ i → le_entry (a !!! p) (a !!! j)) ∧
  (∀ p j, child p i → child i j → j < length a → le_entry (a !!! p) (a !!! j)).
Definition down_inv (a : list ready_entry) (i : nat) : Prop :=
  (∀ p j, child p j → j < length a → p ≠ i → le_entry (a !!! p) (a !!! j)) ∧
  (∀ p j, child p i → child i j → j < length a → le_entry (a !!! p) (a !!! j)).

Lemma parent_child i : 0 < i → child (Nat.div2 (i - 1)) i ∧ Nat.div2 (i - 1) < i.
Proof.
  intros Hi. unfold child. pose proof (Nat.div2_odd (i - 1)) as H.
  destruct (Nat.odd (i - 1)); simpl in H; lia.
Qed.

Lemma child_parent_inj p p' j : child p j → child p' j → p = p'.
Proof. unfold child. lia. Qed.

Lemma length_swap i j a : length (swap i j a) = length a.
Proof. unfold swap. by rewrite !length_insert. Qed.

Lemma swap_lookup i j k a : i < length a → j < length a →
  swap i j a !!! k = if decide (k = j) then a !!! i else if decide (k = i) then a !!! j else a !!! k.
Proof.
  intros Hi Hj. unfold swap. case_decide; subst.
  - by rewrite list_lookup_total_insert_eq by (rewrite length_insert; lia).
  - rewrite list_lookup_total_insert_ne by done. case_decide; subst.
    + by rewrite list_lookup_total_insert_eq.
    + by rewrite list_lookup_total_insert_ne.
Qed.

Lemma swap_Permutation i j a : i < length a → j < length a → swap i j a ≡ₚ a.
Proof.
  intros Hi Hj. unfold swap.
  destruct (lookup_lt_is_Some_2 a i Hi) as [x Hx]. destruct (lookup_lt_is_Some_2 a j Hj) as [y Hy].
  rewrite (list_lookup_total_correct _ _ _ Hx), (list_lookup_total_correct _ _ _ Hy).
  by apply Permutation_insert_swap.
Qed.

Lemma up_inv_swap a i p :
  i < length a → child p i → less (a !!! i) (a !!! p) = true → up_inv a i → up_inv (swap i p a) p.
Proof.
  intros Hi Hp Hl [H1 H2]. assert (p < length a) by (unfold child in *; lia).
  apply less_le in Hl. split; intros q j Hq Hj; rewrite ?length_swap in *; rewrite !swap_lookup by done.
  - intros Hjp. rewrite (decide_False (P:=j = p)) by done. destruct (decide (j = i)) as [->|Hji].
    + rewrite (child_parent_inj q p i) by done. by rewrite decide_True.
    + destruct (decide (q = p)) as [->|Hqp]; [by trans (a !!! p); [|by apply H1]|].
      destruct (decide (q = i)) as [->|Hqi]; [by apply (H2 p)|by apply H1].
  - intros Hlen. assert (q ≠ p) by (unfold child in *; lia). assert (q ≠ i) by (unfold child in *; lia).
    assert (j ≠ p) by (unfold child in *; lia).
    rewrite (decide_False (P:=q = p)), (decide_False (P:=q = i)), (decide_False (P:=j = p)) by done.
    assert (p ≠ i) by (unfold child in *; lia).
    assert (le_entry (a !!! q) (a !!! p)) by (apply H1; auto).
    destruct (decide (j = i)) as [->|]; [done|]. trans (a !!! p); [done|]. by apply H1.
Qed.

Lemma sift_up_ok fuel i a :
  i < length a → i ≤ fuel → up_inv a i → heap_ok (sift_up fuel i a) ∧ sift_up fuel i a ≡ₚ a.
Proof.
  revert i a. induction fuel as [|fuel IH]; intros i a Hi Hf Hinv; cbn [sift_up].
  - split; [|done]. intros p j Hc Hj. destruct Hinv as [H1 _]. apply H1; auto. unfold child in *; lia.
  - destruct (0 <? i) eqn:E; b2p.
    + destruct (parent_child i) as [Hc Hp]; [done|]. destruct (less _ _) eqn:El.
      * destruct (IH (Nat.div2 (i - 1)) (swap i (Nat.div2 (i - 1)) a)) as [? HP].
        -- rewrite length_swap. lia.
        -- lia.
        -- by apply up_inv_swap.
        -- split; [done|]. rewrite HP. apply swap_Permutation; lia.
      * split; [|done]. intros p j Hcj Hj. destruct Hinv as [H1 _].
        destruct (decide (j = i)) as [->|]; [|by apply H1].
        by rewrite (child_parent_inj p (Nat.div2 (i - 1)) i).
    + split; [|done]. intros p j Hc Hj. destruct Hinv as [H1 _]. apply H1; auto. unfold child in *; lia.
Qed.

Lemma heap_push_ok e a : heap_ok a → heap_ok (heap_push e a) ∧ heap_push e a ≡ₚ e :: a.
Proof.
  intros Ha. unfold heap_push. destruct (sift_up_ok (length a) (length a) (a ++ [e])) as [? HP].
  - rewrite length_app. simpl. lia.
  - lia.
  - split; intros p j Hc; rewrite length_app; simpl.
    + intros Hj Hne. rewrite !lookup_total_app_l by (unfold child in *; lia). apply Ha; [done|lia].
    + intros Hj Hlen. unfold child in *. lia.
  - split; [done|]. rewrite HP. by rewrite Permutation_app_comm.
Qed.

Lemma down_inv_swap a i m :
  m < length a → child i m → less (a !!! m) (a !!! i) = true →
  (∀ j, child i j → j < length a → le_entry (a !!! m) (a !!! j)) →
  down_inv a i → down_inv (swap i m a) m.
Proof.
  intros Hm Hc Hl Hmin [H1 H2]. assert (i < length a) by (unfold child in *; lia).
  assert (i ≠ m) by (unfold child in *; lia).
  apply less_le in Hl. split; intros q j Hq Hj; rewrite ?length_swap in *; rewrite !swap_lookup by done.
  - intros Hqm. rewrite (decide_False (P:=q = m)) by done. destruct (decide (q = i)) as [->|Hqi].
    + destruct (decide (j = m)) as [->|]; [done|]. assert (j ≠ i) by (unfold child in *; lia).
      rewrite decide_False by done.  by apply Hmin.
    + assert (j ≠ m) by (intros ->; apply Hqi; by eapply child_parent_inj).
      rewrite (decide_False (P:=j = m)) by done. 
      destruct (decide (j = i)) as [->|]; [by apply (H2 q)|by apply H1].
  - intros Hlen. assert (q = i) as -> by (by eapply child_parent_inj).
    assert (j ≠ m) by (unfold child in *; lia). assert (j ≠ i) by (unfold child in *; lia).
    rewrite (decide_False (P:=i = m)), (decide_True (P:=i = i)), (decide_False (P:=j = m)), (decide_False (P:=j = i)) by done.
    by apply H1; auto.
Qed.

(** The child the loop of [pop] descends to, or [i]. *)
Definition pick (a : list ready_entry) (i : nat) : nat :=
  let l := 2 * i + 1 in
  let r := 2 * i + 2 in
  let m := if (l <? length a) && less (a !!! l) (a !!! i) then l else i in
  if (r <? length a) && less (a !!! r) (a !!! m) then r else m.

Lemma pick_spec a i :
  (pick a i = i ∧ ∀ j, child i j → j < length a → le_entry (a !!! i) (a !!! j)) ∨
  (child i (pick a i) ∧ pick a i < length a ∧ less (a !!! pick a i) (a !!! i) = true ∧
   ∀ j, child i j → j < length a → le_entry (a !!! pick a i) (a !!! j)).
Proof.
  unfold pick. destruct ((2 * i + 1 <? length a) && less (a !!! (2 * i + 1)) (a !!! i)) eqn:E1;
    [apply andb_true_iff in E1 as [E1 L1]|apply andb_false_iff in E1];
    match goal with |- context [if ?b then _ else _] => destruct b eqn:E2 end;
    [apply andb_true_iff in E2 as [E2 L2]|apply andb_false_iff in E2
    |apply andb_true_iff in E2 as [E2 L2]|apply andb_false_iff in E2]; b2p.
  - right. split_and!; [by right|done|by eapply less_trans|].
    intros j [-> | ->] Hj; [by apply less_le|done].
  - right. split_and!; [by left|done|done|]. intros j [-> | ->] Hj; [done|].
    destruct E2; b2p; [lia|done].
  - right. split_and!; [by right|done|done|]. intros j [-> | ->] Hj; [|done].
    destruct E1 as [E1|E1]; b2p; [lia|]. trans (a !!! i); [by apply less_le|done].
  - left. split; [done|]. intros j [-> | ->] Hj; [destruct E1 as [E1|E1]|destruct E2 as [E2|E2]]; b2p; done || lia.
Qed.

Lemma sift_down_eq fuel i a :
  sift_down (S fuel) i a = if pick a i =? i then a else sift_down fuel (pick a i) (swap i (pick a i) a).
Proof. done. Qed.

Lemma sift_down_ok fuel i a :
  i < length a → length a - i ≤ fuel → down_inv a i →
  heap_ok (sift_down fuel i a) ∧ sift_down fuel i a ≡ₚ a.
Proof.
  revert i a. induction fuel as [|fuel IH]; intros i a Hi Hf Hinv; [lia|].
  rewrite sift_down_eq. destruct (pick_spec a i) as [[E Hmin]|(Hc & Hm & Hl & Hmin)].
  - rewrite E, Nat.eqb_refl. split; [|done]. intros p j Hpj Hj. destruct Hinv as [H1 _].
    destruct (decide (p = i)) as [->|]; [by apply Hmin|by apply H1].
  - assert (i < pick a i) by (unfold child in *; lia).
    rewrite (proj2 (Nat.eqb_neq _ _)) by lia.
    destruct (IH (pick a i) (swap i (pick a i) a)) as [? HP].
    + by rewrite length_swap.
    + rewrite length_swap. lia.
    + by apply down_inv_swap.
    + split; [done|]. rewrite HP. by apply swap_Permutation.
Qed.

Lemma heap_pop_ok top a :
  heap_ok (top :: a) → heap_ok (heap_pop (top :: a)) ∧ top :: heap_pop (top :: a) ≡ₚ top :: a.
Proof.
  intros H. unfold heap_pop. destruct (exists_last (l:=top :: a)) as (b & lst & E); [done|].
  rewrite E in *. rewrite last_snoc, removelast_last.
  destruct b as [|x b]; simpl in E; simplify_eq; [done|]. simpl.
  destruct (sift_down_ok (S (length b)) 0 (lst :: b)) as [? HP].
  - simpl. lia.
  - simpl. lia.
  - split; intros p j Hc; simpl.
    + intros Hj Hp. assert (j ≠ 0) by (unfold child in *; lia).
      specialize (H p j Hc). destruct p as [|p], j as [|j]; try done. simpl in *.
      rewrite !length_app in H. simpl in H.
      rewrite !lookup_total_app_l in H by (unfold child in *; lia). apply H. lia.
    + unfold child in Hc. lia.
  - split; [done|]. rewrite HP. by rewrite (Permutation_app_comm b [lst]).
Qed.

(** The top of a heap is its least entry. *)
Lemma heap_top_min a j : heap_ok a → j < length a → le_entry (a !!! 0) (a !!! j).
Proof.
  intros H. induction j as [j IH] using (well_founded_induction lt_wf). intros Hj.
  destruct (decide (j = 0)) as [->|]; [done|]. destruct (parent_child j) as [Hc Hp]; [lia|].
  trans (a !!! Nat.div2 (j - 1)); [apply IH; lia|by apply H].
Qed.

Lemma heap_head_min e a x : heap_ok (e :: a) → x ∈ e :: a → le_entry e x.
Proof.
  intros H [j Hj]%list_elem_of_lookup. pose proof (lookup_lt_Some _ _ _ Hj).
  apply list_lookup_total_correct in Hj. rewrite <- Hj. by apply (heap_top_min (e :: a)).
Qed.

(** ** The invariant of the matcher *)

(** The entries of the structure in use. *)
Definition active (m : matcher) : list ready_entry :=
  if heaped m then heap m else drop (fifoHead m) (fifo m).

(** One input's name map holds the stamps of each name. *)
Definition map_repr (mp : gmap jsstr min_queue) (st : stamps) : Prop :=
  ∀ n, match mp !! n with
       | Some q => mq_ok q ∧ mq_contents q = st n ∧ st n ≠ []
       | None => st n = []
       end.

(** The structure in use is ordered. *)
Definition order_ok (m : matcher) : Prop :=
  fifoHead m ≤ length (fifo m) ∧
  if heaped m then heap_ok (heap m) ∧ fifo m = [] ∧ fifoHead m = 0
  else heap m = [] ∧ StronglySorted le_entry (drop (fifoHead m) (fifo m)) ∧
       match maxPushed m with
       | Some mx => Forall (λ e, le_entry e mx) (drop (fifoHead m) (fifo m))
       | None => drop (fifoHead m) (fifo m) = []
       end.

(** Every ready name has its entry. *)
Definition complete (m : matcher) : Prop :=
  ∀ n r, ready m !! n = Some r → ReadyEntry r n ∈ active m.

(** The top entry is current. *)
Definition top_ok (m : matcher) : Prop :=
  ∀ e, head (active m) = Some e → ready m !! re_name e = Some (re_ts e).

Definition ts_ok (m : matcher) (sts : list stamps) : Prop :=
  Forall2 map_repr (im_ts m) sts ∧ length (requireds m) = length sts.

Definition ready_ok (m : matcher) (sts : list stamps) : Prop :=
  ∀ n, ready m !! n = rep_spec n (zip sts (requireds m)).

Definition matcher_inv (m : matcher) (sts : list stamps) : Prop :=
  ts_ok m sts ∧ ready_ok m sts ∧ order_ok m ∧ complete m ∧ top_ok m.

(** ** [repTs] *)

Lemma repTs_loop_spec n mps sts rq rep :
  Forall2 map_repr mps sts → length rq = length sts →
  repTs_loop n (zip mps rq) rep = jnum_min rep <$> rep_spec n (zip sts rq).
Proof.
  intros H. revert rq rep. induction H as [|mp st mps sts Hmp H IH]; intros [|r rq] rep; try done.
  { intros _. simpl. by rewrite jnum_min_Inf_r. }
  intros [= Hl]. cbn [zip zip_with repTs_loop rep_spec]. specialize (Hmp n).
  destruct (mp !! n) as [q|]; unfold enough.
  - destruct Hmp as (Hq & Hc & Hne). rewrite bool_decide_true, mq_size_spec, Hc, Z.ltb_antisym by done.
    simpl. destruct (r <=? Z.of_nat (length (st n)))%Z; simpl; [|done].
    rewrite IH by done. fold (jnum_min (mq_min q) rep). rewrite mq_min_spec, Hc by done. unfold zip.
    destruct (rep_spec n _) as [x|]; simpl; [|done]. f_equal.
    by rewrite jnum_min_assoc, (jnum_min_comm rep).
  - by rewrite Hmp.
Qed.

Lemma repTs_spec m sts n : ts_ok m sts → repTs m n = rep_spec n (zip sts (requireds m)).
Proof.
  intros [H Hl]. unfold repTs. rewrite (repTs_loop_spec n (im_ts m) sts) by done.
  destruct (rep_spec n (zip sts (requireds m))) as [x|]; simpl; [|done]. by rewrite jnum_min_Inf_l.
Qed.

(** ** [pushReady] *)

Lemma foldl_heap_push l h :
  heap_ok h → heap_ok (foldl (λ h e, heap_push e h) h l) ∧ foldl (λ h e, heap_push e h) h l ≡ₚ l ++ h.
Proof.
  revert h. induction l as [|e l IH]; intros h Hh; simpl; [done|].
  destruct (heap_push_ok e h Hh) as [Hok HP]. destruct (IH _ Hok) as [? HP2]. split; [done|].
  rewrite HP2, HP. by rewrite Permutation_middle.
Qed.

Lemma drop_app_le {A} n (l k : list A) : n ≤ length l → drop n (l ++ k) = drop n l ++ k.
Proof. intros. rewrite drop_app. by replace (n - length l) with 0 by lia. Qed.

Lemma monotonic_le mx rep name :
  jnum_ltb (re_ts mx) rep || (bool_decide (rep = re_ts mx) && negb (js_ltb name (re_name mx))) = true →
  le_entry mx (ReadyEntry rep name).
Proof.
  unfold le_entry, less. simpl. rewrite orb_true_iff, andb_true_iff, bool_decide_eq_true, negb_true_iff.
  intros [H|[-> H]].
  - rewrite (jnum_ltb_asym _ _ H). simpl. rewrite bool_decide_false; [done|]. intros E.
    rewrite E, jnum_ltb_irrefl in H. done.
  - by rewrite jnum_ltb_irrefl, bool_decide_true.
Qed.

(** Pushing keeps the structure and adds exactly the entry. *)
Lemma pushReady_spec rep name m :
  order_ok m → order_ok (pushReady rep name m) ∧
  (∀ e, e ∈ active (pushReady rep name m) ↔ e = ReadyEntry rep name ∨ e ∈ active m) ∧
  requireds (pushReady rep name m) = requireds m ∧ im_ts (pushReady rep name m) = im_ts m ∧
  ready (pushReady rep name m) = ready m.
Proof.
  intros [Hh Hs]. unfold order_ok, pushReady, active. destruct (heaped m) eqn:Eh; simpl.
  - destruct Hs as (Hok & Hf & Hd). destruct (heap_push_ok (ReadyEntry rep name) (heap m) Hok) as [? HP].
    split_and!; auto. intros e. by rewrite HP, elem_of_cons.
  - destruct Hs as (He & Hso & Hmax).
    destruct (match maxPushed m with None => true | Some mx => _ end) eqn:Em; simpl.
    + rewrite drop_app_le by done. split_and!; auto.
      * rewrite length_app. lia.
      * apply StronglySorted_app. split_and!; [|done|by repeat constructor].
        intros x y Hx ->%list_elem_of_singleton. destruct (maxPushed m) as [mx|].
        -- rewrite Forall_forall in Hmax. trans mx; [by apply Hmax|]. by apply monotonic_le.
        -- rewrite Hmax in Hx. by apply not_elem_of_nil in Hx.
      * apply Forall_app. split; [|by repeat constructor]. destruct (maxPushed m) as [mx|].
        -- eapply Forall_impl; [exact Hmax|]. intros x Hx. simpl in Hx. trans mx; [done|]. by apply monotonic_le.
        -- by rewrite Hmax.
      * intros e. rewrite elem_of_app, list_elem_of_singleton. tauto.
    + rewrite He. destruct (foldl_heap_push (drop (fifoHead m) (fifo m)) []) as [Hok HP]; [by intros p j _ Hj; simpl in Hj; lia|].
      destruct (heap_push_ok (ReadyEntry rep name) _ Hok) as [? HP2].
      split_and!; auto. intros e. by rewrite HP2, HP, elem_of_cons, app_nil_r.
Qed.

(** ** [refresh] *)

Lemma refresh_spec name m sts :
  ts_ok m sts → order_ok m → complete m →
  (∀ n, n ≠ name → ready m !! n = rep_spec n (zip sts (requireds m))) →
  ts_ok (refresh name m) sts ∧ ready_ok (refresh name m) sts ∧
  order_ok (refresh name m) ∧ complete (refresh name m) ∧ requireds (refresh name m) = requireds m.
Proof.
  intros Hts Ho Hc Hr. unfold refresh. pose proof (repTs_spec m sts name Hts) as Hrep. rewrite Hrep.
  destruct (rep_spec name (zip sts (requireds m))) as [rep|] eqn:E.
  - case_decide as Hd.
    + split_and!; auto. intros n. destruct (decide (n = name)) as [->|]; [congruence|by apply Hr].
    + destruct (pushReady_spec rep name (set_ready (<[name:=rep]> (ready m)) m)) as (Ho' & Ha & Erq & Ets & Erd); [done|].
      split_and!; [|intros n; rewrite Erd, Erq; simpl|done|intros n r; rewrite Erd, Ha; simpl|done].
      * destruct Hts. split; [by rewrite Ets|by rewrite Erq].
      * destruct (decide (n = name)) as [->|]; [by rewrite lookup_insert_eq|].
        rewrite lookup_insert_ne by done. by apply Hr.
      * destruct (decide (n = name)) as [->|].
        -- rewrite lookup_insert_eq. intros [= ->]. by left.
        -- rewrite lookup_insert_ne by done. intros. right. by apply Hc.
  - split_and!; [done| |done| |done].
    + intros n. simpl. destruct (decide (n = name)) as [->|]; [by rewrite lookup_delete_eq|].
      rewrite lookup_delete_ne by done. by apply Hr.
    + intros n r Hn. simpl in Hn. apply lookup_delete_Some in Hn as [_ Hn]. by apply Hc.
Qed.

(** ** [cleanTop] *)

Lemma stale_true rd e : stale rd e = true ↔ rd !! re_name e ≠ Some (re_ts e).
Proof. unfold stale. apply bool_decide_eq_true. Qed.

Lemma stale_false rd e : stale rd e = false ↔ rd !! re_name e = Some (re_ts e).
Proof.
  unfold stale. rewrite bool_decide_eq_false. split; [apply dec_stable|intros H H'; done].
Qed.

Lemma clean_heap_spec fuel rd h :
  length h ≤ fuel → heap_ok h →
  heap_ok (clean_heap fuel rd h) ∧
  (∀ e, head (clean_heap fuel rd h) = Some e → rd !! re_name e = Some (re_ts e)) ∧
  ∀ n r, rd !! n = Some r → ReadyEntry r n ∈ h → ReadyEntry r n ∈ clean_heap fuel rd h.
Proof.
  revert h. induction fuel as [|fuel IH]; intros h Hf Hok; simpl.
  { apply Nat.le_0_r, nil_length_inv in Hf as ->. done. }
  destruct h as [|top h]; [done|]. destruct (stale rd top) eqn:Es.
  - destruct (heap_pop_ok top h Hok) as [Hok' HP].
    destruct (IH (heap_pop (top :: h))) as (H1 & H2 & H3); [|done|].
    { apply Permutation_length in HP. simpl in HP, Hf. lia. }
    split_and!; [done|done|]. intros n r Hr Hin. apply H3; [done|].
    rewrite <- HP in Hin. apply elem_of_cons in Hin as [Hin|?]; [|done].
    apply stale_true in Es. rewrite <- Hin in Es. simpl in Es. congruence.
  - split_and!; [done| |done]. intros e [= ->]. by apply stale_false.
Qed.

Lemma clean_fifo_spec fuel rd f hd :
  length f - hd ≤ fuel → hd ≤ length f →
  hd ≤ clean_fifo fuel rd f hd ≤ length f ∧
  (∀ e, f !! clean_fifo fuel rd f hd = Some e → rd !! re_name e = Some (re_ts e)) ∧
  ∀ n r, rd !! n = Some r → ReadyEntry r n ∈ drop hd f → ReadyEntry r n ∈ drop (clean_fifo fuel rd f hd) f.
Proof.
  revert hd. induction fuel as [|fuel IH]; intros hd Hf Hh; simpl.
  { split_and!; [lia|lia| |done]. rewrite lookup_ge_None_2 by lia. done. }
  destruct (f !! hd) as [top|] eqn:Et.
  - destruct (stale rd top) eqn:Es.
    + pose proof (lookup_lt_Some _ _ _ Et). destruct (IH (S hd)) as (H1 & H2 & H3); [lia..|].
      split_and!; [lia|lia|done|]. intros n r Hr Hin. apply H3; [done|].
      rewrite (drop_S f top hd) in Hin by done. apply elem_of_cons in Hin as [Hin|?]; [|done].
      apply stale_true in Es. rewrite <- Hin in Es. simpl in Es. congruence.
    + split_and!; [lia|lia| |done]. rewrite Et. intros e [= ->]. by apply stale_false.
  - split_and!; [lia|lia| |done]. by rewrite Et.
Qed.

Lemma head_drop {A} (l : list A) n : head (drop n l) = l !! n.
Proof. by rewrite head_lookup, lookup_drop, Nat.add_0_r. Qed.

Lemma StronglySorted_drop {A} (R : relation A) n l : StronglySorted R l → StronglySorted R (drop n l).
Proof. intros H. rewrite <- (take_drop n l) in H. by apply StronglySorted_app_1_r in H. Qed.

Lemma drop_le_drop {A} (l : list A) n k : n ≤ k → drop k l = drop (k - n) (drop n l).
Proof. intros. rewrite drop_drop. f_equal. lia. Qed.

Lemma cleanTop_spec m sts :
  ts_ok m sts → ready_ok m sts → order_ok m → complete m →
  matcher_inv (cleanTop m) sts ∧ requireds (cleanTop m) = requireds m.
Proof.
  intros Hts Hr [Hh Ho] Hc. unfold matcher_inv, cleanTop, complete, top_ok, order_ok, active in *.
  destruct (heaped m) eqn:Eh.
  - destruct Ho as (Hok & Hf & Hd).
    destruct (clean_heap_spec (length (heap m)) (ready m) (heap m)) as (H1 & H2 & H3); [done..|].
    case_bool_decide as Hl; simpl.
    + apply nil_length_inv in Hl. rewrite Hl in *. rewrite Hf, Hd. simpl.
      split_and!; try done; [constructor|]. intros n r Hn. specialize (H3 n r Hn (Hc n r Hn)). done.
    + split_and!; try done. intros n r Hn. by apply H3, Hc.
  - destruct Ho as (He & Hs & Hm).
    destruct (clean_fifo_spec (length (fifo m) - fifoHead m) (ready m) (fifo m) (fifoHead m)) as ([H0 H1] & H2 & H3); [lia..|].
    destruct (length (fifo m) <=? _) eqn:El; b2p; simpl.
    + split_and!; try done; [constructor|]. intros n r Hn. specialize (H3 n r Hn (Hc n r Hn)).
      rewrite drop_ge in H3 by done. done.
    + rewrite head_drop. split_and!; try done.
      * rewrite (drop_le_drop _ _ _ H0). by apply StronglySorted_drop.
      * rewrite (drop_le_drop _ _ _ H0). destruct (maxPushed m); [by apply Forall_drop|]. rewrite Hm. by apply drop_nil.
      * intros n r Hn. by apply H3, Hc.
Qed.

(** ** [best] *)

Lemma sorted_head_min e l x : StronglySorted le_entry (e :: l) → x ∈ e :: l → le_entry e x.
Proof.
  intros H Hx. apply StronglySorted_inv in H as [_ H]. rewrite Forall_forall in H.
  apply elem_of_cons in Hx as [->|Hx]; [done|auto].
Qed.

Lemma active_head_min m e x : order_ok m → head (active m) = Some e → x ∈ active m → le_entry e x.
Proof.
  unfold active. intros [_ Ho] He Hx. destruct (heaped m).
  - destruct Ho as (Hok & _). destruct (heap m) as [|e' h]; [done|]. injection He as ->. by apply (heap_head_min e h).
  - destruct Ho as (_ & Hs & _). destruct (drop (fifoHead m) (fifo m)) as [|e' l]; [done|].
    injection He as ->. by apply (sorted_head_min e l).
Qed.

Lemma best_head m : best m = re_name <$> head (active m).
Proof. unfold best, active. destruct (heaped m); [done|]. by rewrite head_drop. Qed.

Lemma matcher_best m sts :
  matcher_inv m sts → is_best (λ n, rep_spec n (zip sts (requireds m))) (best m).
Proof.
  intros (Hts & Hr & Ho & Hc & Ht). apply (is_best_ext (λ n, ready m !! n)); [done|].
  rewrite best_head. destruct (head (active m)) as [e|] eqn:Eh.
  - change (re_name <$> Some e) with (Some (re_name e)). unfold is_best. exists (re_ts e). split; [by apply Ht|].
    intros n' ts' Hn'. apply (active_head_min m e (ReadyEntry ts' n')) in Ho; [|done|by apply Hc].
    by destruct e.
  - simpl. intros n. destruct (ready m !! n) as [r|] eqn:E; [|done].
    apply Hc in E. destruct (active m); [by apply not_elem_of_nil in E|done].
Qed.

(** ** Reference: the tokens of each input *)

(** A named token: its name and its stamp. *)
Abbreviation named := (list (jsstr * Z)).

Definition st_of (l : named) : stamps := λ n, snd <$> filter (λ x, x.1 = n) l.

Fixpoint drop_named (k : nat) (name : jsstr) (l : named) : named :=
  match l with
  | [] => []
  | x :: l' =>
      match k with
      | O => l
      | S k' => if decide (x.1 = name) then drop_named k' name l' else x :: drop_named k name l'
      end
  end.

Inductive matcher_op := OpAdd (i : nat) (name : jsstr) (created : Z) | OpConsume (name : jsstr).

Definition ref_op (rq : list Z) (o : matcher_op) (ref : list named) : list named :=
  match o with
  | OpAdd i name ts => alter (λ l, l ++ [(name, ts)]) i ref
  | OpConsume name => zip_with (λ l r, drop_named (Z.to_nat r) name l) ref rq
  end.

Definition run_op (o : matcher_op) (m : matcher) : option matcher :=
  match o with
  | OpAdd i name ts => matcher_add i name ts m
  | OpConsume name => Some (matcher_consume name m)
  end.

Fixpoint run_ops (ops : list matcher_op) (m : matcher) : option matcher :=
  match ops with [] => Some m | o :: ops' => run_op o m ≫= run_ops ops' end.

Definition ref_ops (rq : list Z) (ops : list matcher_op) : list named :=
  foldl (λ ref o, ref_op rq o ref) ((λ _, []) <$> rq) ops.

(** The index of an input of the reference. *)
Definition ref_index (l : named) : name_index :=
  buildNameIndex ((λ x, Token (Some x.1) x.2) <$> l) (λ v, v).

Lemma st_of_snoc l name ts n :
  st_of (l ++ [(name, ts)]) n = if decide (n = name) then st_of l n ++ [ts] else st_of l n.
Proof.
  unfold st_of. rewrite filter_app, fmap_app, filter_cons, filter_nil. simpl.
  repeat case_decide; subst; try done. by rewrite app_nil_r.
Qed.

Lemma st_of_drop_named k name l n :
  st_of (drop_named k name l) n = if decide (n = name) then drop k (st_of l n) else st_of l n.
Proof.
  unfold st_of. revert k. induction l as [|x l IH]; intros k; simpl.
  { case_decide; [by rewrite drop_nil|done]. }
  destruct k as [|k]; [by case_decide|].
  destruct (decide (x.1 = name)) as [Hx|Hx].
  - rewrite IH, filter_cons. repeat case_decide; subst; try done; congruence.
  - rewrite !filter_cons. repeat case_decide; subst; try done; rewrite ?fmap_cons, IH;
      repeat case_decide; subst; try done; congruence.
Qed.

Lemma ref_index_repr l : index_repr (ref_index l) (st_of l).
Proof.
  destruct (buildNameIndex_repr (λ v : option jsstr, v) ((λ x, Token (Some x.1) x.2) <$> l)) as [Hd Hg].
  split; [done|]. intros n. unfold ref_index. rewrite Hg.
  assert (key_stamps (λ v : option jsstr, v) ((λ x, Token (Some x.1) x.2) <$> l) n = st_of l n) as ->; [|done].
  unfold key_stamps, st_of. clear. induction l as [|x l IH]; [done|].
  rewrite fmap_cons, !filter_cons. simpl. repeat case_decide; simplify_eq; rewrite ?fmap_cons, ?IH; done.
Qed.

(** ** The operations keep the invariant *)

Lemma map_repr_add mp st name ts :
  map_repr mp st →
  map_repr (<[name := pushBack ts (default mq_new (mp !! name))]> mp)
           (λ n, if decide (n = name) then st n ++ [ts] else st n).
Proof.
  intros H n. destruct (decide (n = name)) as [->|].
  - rewrite lookup_insert_eq. specialize (H name). destruct (mp !! name) as [q|]; simpl.
    + destruct H as (Hq & Hc & _). destruct (pushBack_spec ts q Hq) as [? ->]. rewrite Hc.
      split_and!; [done|done|]. by destruct (st name).
    + destruct (pushBack_spec ts mq_new) as [? ->]; [done|]. rewrite H. done.
  - rewrite lookup_insert_ne by done. apply H.
Qed.

Lemma map_repr_ext mp st st' : (∀ n, st n = st' n) → map_repr mp st → map_repr mp st'.
Proof. intros E H n. specialize (H n). rewrite <- E. done. Qed.

Lemma map_repr_consume mp st name r :
  map_repr mp st →
  map_repr (consume_input name mp r) (λ n, if decide (n = name) then drop (Z.to_nat r) (st n) else st n).
Proof.
  intros H n. unfold consume_input. pose proof (H name) as Hname. destruct (mp !! name) as [q|] eqn:Eq.
  - destruct Hname as (Hq & Hc & _). destruct (popFront_iter (Z.to_nat r) q Hq) as [Hq' Hc'].
    case_bool_decide as Hs; rewrite mq_size_spec, Hc', Hc in Hs.
    + apply nil_length_inv in Hs. destruct (decide (n = name)) as [->|].
      * by rewrite lookup_delete_eq.
      * rewrite lookup_delete_ne by done. apply H.
    + destruct (decide (n = name)) as [->|].
      * rewrite lookup_insert_eq, Hc', Hc. split_and!; [done|done|]. intros E. by rewrite E in Hs.
      * rewrite lookup_insert_ne by done. apply H.
  - case_decide; subst; [|apply H]. by rewrite Eq, Hname, drop_nil.
Qed.

Lemma rep_spec_ext n sts sts' rq :
  Forall2 (λ s s' : stamps, s n = s' n) sts sts' → rep_spec n (zip sts rq) = rep_spec n (zip sts' rq).
Proof.
  intros H. revert rq. induction H as [|s s' sts sts' E H IH]; intros [|r rq]; try done.
  simpl. rewrite E. specialize (IH rq). unfold zip in *. by rewrite IH.
Qed.

(** Changing one name's stamps, then refreshing that name. *)
Lemma refresh_inv name m ts sts sts' :
  matcher_inv m sts → Forall2 map_repr ts sts' →
  (∀ n, n ≠ name → Forall2 (λ s s' : stamps, s n = s' n) sts sts') → length sts' = length sts →
  matcher_inv (cleanTop (refresh name (set_ts ts m))) sts' ∧
  requireds (cleanTop (refresh name (set_ts ts m))) = requireds m.
Proof.
  intros ([_ Hl] & Hr & Ho & Hc & _) Hts Hn Hl'.
  destruct (refresh_spec name (set_ts ts m) sts') as (H1 & H2 & H3 & H4 & H5).
  - split; [done|]. simpl. congruence.
  - done.
  - done.
  - intros n Hne. simpl. rewrite Hr. by apply rep_spec_ext, Hn.
  - destruct (cleanTop_spec _ _ H1 H2 H3 H4) as [? ->]. done.
Qed.

Lemma matcher_new_inv rq : matcher_inv (matcher_new rq) (st_of <$> ((λ _, []) <$> rq)) ∨ rq = [].
Proof.
  destruct rq as [|r rq]; [by right|left]. unfold matcher_inv. split_and!.
  - split; [|by rewrite !length_fmap]. change (im_ts (matcher_new (r :: rq))) with ((λ _, ∅ : gmap jsstr min_queue) <$> (r :: rq)).
    generalize (r :: rq). clear.
    intros l. induction l as [|x l IH]; rewrite ?fmap_cons; constructor; [|done].
    intros n. by rewrite lookup_empty.
  - intros n. simpl. by rewrite lookup_empty.
  - repeat split; simpl; try lia; constructor.
  - intros n x Hx. simpl in Hx. by rewrite lookup_empty in Hx.
  - done.
Qed.

(** A step is in range: an [add] names an input. *)
Definition op_ok (rq : list Z) (o : matcher_op) : Prop :=
  match o with OpAdd i _ _ => i < length rq | OpConsume _ => True end.

Lemma alter_fmap_Forall2 i name ts (ref : list named) n :
  n ≠ name → Forall2 (λ s s' : stamps, s n = s' n) (st_of <$> ref) (st_of <$> alter (λ l, l ++ [(name, ts)]) i ref).
Proof.
  intros Hn. revert i. induction ref as [|l ref IH]; intros i; [constructor|].
  destruct i as [|i]; rewrite !fmap_cons; simpl.
  - constructor; [by rewrite st_of_snoc, decide_False|].
    apply Forall_Forall2_diag, Forall_forall. done.
  - constructor; [done|]. apply IH.
Qed.

Lemma add_map_repr i mp name ts mps ref :
  Forall2 map_repr mps (st_of <$> ref) → mps !! i = Some mp →
  Forall2 map_repr (<[i := <[name := pushBack ts (default mq_new (mp !! name))]> mp]> mps)
                   (st_of <$> alter (λ l, l ++ [(name, ts)]) i ref).
Proof.
  revert i mps. induction ref as [|l ref IH]; intros i mps; rewrite ?fmap_cons; intros H Hi.
  { apply Forall2_nil_inv_r in H as ->. done. }
  apply Forall2_cons_inv_r in H as (mp0 & mps' & H0 & H & ->). destruct i as [|i]; simpl in *.
  - simplify_eq. constructor; [|done]. eapply map_repr_ext; [|by apply map_repr_add].
    intros n. simpl. by rewrite st_of_snoc.
  - constructor; [done|]. by apply IH.
Qed.

Lemma consume_map_repr name mps rq ref :
  Forall2 map_repr mps (st_of <$> ref) → length rq = length ref →
  Forall2 map_repr (zip_with (consume_input name) mps rq)
                   (st_of <$> zip_with (λ l r, drop_named (Z.to_nat r) name l) ref rq).
Proof.
  revert mps rq. induction ref as [|l ref IH]; intros mps rq H Hl; rewrite ?fmap_cons in *.
  { destruct rq; [|done]. apply Forall2_nil_inv_r in H as ->. constructor. }
  apply Forall2_cons_inv_r in H as (mp0 & mps' & H0 & H & ->). destruct rq as [|r rq]; [done|].
  cbn [zip_with]. rewrite fmap_cons. constructor.
  - eapply map_repr_ext; [|by apply map_repr_consume]. intros n. simpl. by rewrite st_of_drop_named.
  - apply IH; [done|]. by injection Hl.
Qed.

Lemma consume_Forall2 name rq (ref : list named) n :
  n ≠ name → length rq = length ref →
  Forall2 (λ s s' : stamps, s n = s' n) (st_of <$> ref)
    (st_of <$> zip_with (λ l r, drop_named (Z.to_nat r) name l) ref rq).
Proof.
  intros Hn. revert rq. induction ref as [|l ref IH]; intros [|r rq]; try done.
  intros [= Hl]. cbn [zip_with]. rewrite !fmap_cons. constructor; [|by apply IH].
  by rewrite st_of_drop_named, decide_False.
Qed.

Lemma run_op_inv rq o m ref :
  requireds m = rq → length ref = length rq → op_ok rq o → matcher_inv m (st_of <$> ref) →
  ∃ m', run_op o m = Some m' ∧ requireds m' = rq ∧ length (ref_op rq o ref) = length rq ∧
    matcher_inv m' (st_of <$> ref_op rq o ref).
Proof.
  intros Hrq Hl Ho Hinv. pose proof Hinv as ([Hts Hlen] & _). destruct o as [i name ts|name]; simpl in *.
  - unfold matcher_add. destruct (lookup_lt_is_Some_2 (im_ts m) i) as [mp Hmp].
    { apply Forall2_length in Hts. rewrite length_fmap in Hts. congruence. }
    rewrite Hmp. simpl. eexists. split; [done|].
    destruct (refresh_inv name m _ _ (st_of <$> alter (λ l, l ++ [(name, ts)]) i ref) Hinv
                (add_map_repr i mp name ts _ _ Hts Hmp)) as [? ->].
    + intros n Hn. by apply alter_fmap_Forall2.
    + by rewrite !length_fmap, length_alter.
    + rewrite length_alter. done.
  - eexists. split; [done|]. unfold matcher_consume. rewrite Hrq.
    destruct (refresh_inv name m (zip_with (consume_input name) (im_ts m) rq) _
                (st_of <$> zip_with (λ l r, drop_named (Z.to_nat r) name l) ref rq) Hinv) as [? ->].
    + by apply consume_map_repr.
    + intros n Hn. by apply consume_Forall2.
    + rewrite !length_fmap, length_zip_with. lia.
    + rewrite length_zip_with. split_and!; [done|lia|done].
Qed.

Lemma run_ops_inv rq ops m ref :
  requireds m = rq → length ref = length rq → Forall (op_ok rq) ops → matcher_inv m (st_of <$> ref) →
  ∃ m', run_ops ops m = Some m' ∧ requireds m' = rq ∧
    length (foldl (λ ref o, ref_op rq o ref) ref ops) = length rq ∧
    matcher_inv m' (st_of <$> foldl (λ ref o, ref_op rq o ref) ref ops).
Proof.
  intros Hrq Hl Hops. revert m ref Hrq Hl. induction Hops as [|o ops Ho Hops IH]; intros m ref Hrq Hl Hinv; simpl.
  { eauto. }
  destruct (run_op_inv rq o m ref) as (m1 & -> & H1 & H2 & H3); [done..|].
  apply IH; done.
Qed.

(** Stamps only come from [add]. *)
Definition op_safe (o : matcher_op) : Prop :=
  match o with OpAdd _ _ ts => (ts ≤ MAX_SAFE_INTEGER)%Z | OpConsume _ => True end.

Definition ref_safe (ref : list named) : Prop := ∀ l x, l ∈ ref → x ∈ l → (x.2 ≤ MAX_SAFE_INTEGER)%Z.

Lemma elem_of_drop_named k name l x : x ∈ drop_named k name l → x ∈ l.
Proof.
  revert k. induction l as [|y l IH]; intros k; simpl; [done|].
  destruct k as [|k]; [done|]. case_decide; rewrite ?elem_of_cons; naive_solver.
Qed.

Lemma ref_op_safe rq o ref : op_safe o → ref_safe ref → ref_safe (ref_op rq o ref).
Proof.
  intros Ho H l x Hl Hx. destruct o as [i name ts|name]; simpl in *.
  - apply list_elem_of_lookup in Hl as [j Hj]. destruct (decide (j = i)) as [->|].
    + rewrite list_lookup_alter_eq in Hj. destruct (ref !! i) as [l0|] eqn:E; simplify_eq/=.
      apply elem_of_app in Hx as [Hx|Hx%list_elem_of_singleton]; [|by subst].
      apply (H l0); [by eapply list_elem_of_lookup_2|done].
    + rewrite list_lookup_alter_ne in Hj by done. apply (H l); [by eapply list_elem_of_lookup_2|done].
  - apply elem_of_zip_with in Hl as (l0 & r & -> & Hl0 & _). apply (H l0); [done|].
    by eapply elem_of_drop_named.
Qed.

Lemma ref_ops_safe rq ops ref :
  Forall op_safe ops → ref_safe ref → ref_safe (foldl (λ ref o, ref_op rq o ref) ref ops).
Proof.
  intros H. revert ref. induction H as [|o ops Ho H IH]; intros ref Hr; simpl; [done|].
  by apply IH, ref_op_safe.
Qed.

(** ** Properties *)

(** C27: the incremental matcher is the selection: for every sequence of [add] and [consume] on
    its inputs it does not throw, and [best] answers the name [selectMatchName] answers on the
    name indexes of the tokens that sequence leaves, in particular through the switch from the
    ascending queue to the heap and back. *)
Theorem incremental_matcher_best rq ops :
  rq ≠ [] → Forall (op_ok rq) ops → Forall op_safe ops →
  ∃ m, run_ops ops (matcher_new rq) = Some m ∧
       best m = selectMatchName (ref_index <$> ref_ops rq ops) rq.
Proof.
  intros Hne Hok Hsafe. destruct (matcher_new_inv rq) as [H0|]; [|done].
  destruct (run_ops_inv rq ops (matcher_new rq) ((λ _, []) <$> rq)) as (m & Hm & Hrq & Hl & Hinv).
  { done. }
  { by rewrite length_fmap. }
  { done. }
  { done. }
  exists m. split; [done|]. apply matcher_best in Hinv. rewrite Hrq in Hinv.
  eapply is_best_unique; [exact Hinv|]. apply selectMatchName_best.
  - apply Forall2_fmap, Forall_Forall2_diag, Forall_forall. intros l _. apply ref_index_repr.
  - by rewrite length_fmap.
  - apply Forall_fmap, Forall_forall. intros l Hin n x Hx. unfold compose, st_of in Hx.
    apply list_elem_of_fmap in Hx as (y & -> & [_ Hy]%list_elem_of_filter).
    eapply (ref_ops_safe rq ops); [done| |exact Hin|done].
    intros l' z (? & -> & _)%list_elem_of_fmap ?%not_elem_of_nil. done.
  - intros E. apply (f_equal length) in E. rewrite length_fmap in E. rewrite Hl in E. by destruct rq.
Qed.

(** Out-of-order stamps: the queue migrates to the heap, drains and starts afresh. *)
Definition example_ops : list matcher_op :=
  [OpAdd 0 (js "b") 9; OpAdd 1 (js "b") 7; OpAdd 0 (js "a") 3; OpAdd 1 (js "a") 8; OpAdd 1 (js "c") 1;
   OpConsume (js "a"); OpAdd 0 (js "c") 2; OpAdd 1 (js "b") 5].

Lemma incremental_matcher_best_witness :
  ∃ m, run_ops example_ops (matcher_new [1; 1]%Z) = Some m ∧
       best m = selectMatchName (ref_index <$> ref_ops [1; 1]%Z example_ops) [1; 1]%Z.
Proof.
  apply (incremental_matcher_best [1; 1]%Z example_ops).
  - done.
  - repeat constructor.
  - repeat constructor; vm_compute; discriminate.
Defined.

Example incremental_matcher_heaped :
  (m ← run_ops example_ops (matcher_new [1; 1]%Z); Some (heaped m, best m)) = Some (true, Some (js "c")).
Proof. by vm_compute. Qed.

(** A correlated name: every key's place holds the required number of tokens of it, at least one. *)
Definition correlated {V} (t : transition V) (ms : match_spec V) (getTokens : place → list (token V))
    (n : name_id) : Prop :=
  ∀ k, k ∈ ms_keys ms →
    let toks := filter (λ tok, mk_key k (tok_value tok) = Some n) (getTokens (mk_place_of k)) in
    toks ≠ [] ∧ (requiredFor t (key_name k) ≤ Z.of_nat (length toks))%Z.

(** The stamp of the oldest token of [n] among the keys' places. *)
Definition oldest {V} (ms : match_spec V) (getTokens : place → list (token V)) (n : name_id) : jnum :=
  minimum (k ← ms_keys ms;
           createdAt <$> filter (λ tok, mk_key k (tok_value tok) = Some n) (getTokens (mk_place_of k))).

Lemma rep_spec_cons n s ss r rs :
  rep_spec n (zip (s :: ss) (r :: rs)) =
  if enough (s n) r then jnum_min (minimum (s n)) <$> rep_spec n (zip ss rs) else None.
Proof. done. Qed.

Lemma rep_spec_keys {V} (t : transition V) keys (getTokens : place → list (token V)) n :
  rep_spec n (zip ((λ k, key_stamps (mk_key k) (getTokens (mk_place_of k))) <$> keys)
                  ((λ k, requiredFor t (key_name k)) <$> keys)) =
  if forallb (λ k, enough (key_stamps (mk_key k) (getTokens (mk_place_of k)) n) (requiredFor t (key_name k))) keys
  then Some (minimum (k ← keys; key_stamps (mk_key k) (getTokens (mk_place_of k)) n)) else None.
Proof.
  induction keys as [|k keys IH]; [done|]. rewrite !fmap_cons, rep_spec_cons. cbn [forallb].
  destruct (enough _ _); cbn [andb]; [|done]. rewrite IH.
  destruct (forallb _ keys); simpl; [|done]. by rewrite minimum_app.
Qed.

Lemma join_rep {V} (t : transition V) ms (getTokens : place → list (token V)) n x :
  rep_spec n (join_inputs t ms getTokens) = Some x ↔
  correlated t ms getTokens n ∧ x = oldest ms getTokens n.
Proof.
  unfold join_inputs. rewrite rep_spec_keys. unfold oldest, correlated.
  match goal with |- context [forallb ?f ?l] => assert (forallb f l = true ↔
    ∀ k, k ∈ ms_keys ms → filter (λ tok, mk_key k (tok_value tok) = Some n) (getTokens (mk_place_of k)) ≠ [] ∧
      (requiredFor t (key_name k) ≤ Z.of_nat (length (filter (λ tok, mk_key k (tok_value tok) = Some n) (getTokens (mk_place_of k)))))%Z) as H end.
  { rewrite forallb_forall. setoid_rewrite <- list_elem_of_In.
    apply forall_proper; intros k. unfold enough, key_stamps.
    rewrite andb_true_iff, bool_decide_eq_true, Z.leb_le, length_fmap.
    assert (∀ l : list (token V), createdAt <$> l ≠ [] ↔ l ≠ []) as -> by (by intros []). done. }
  cbv zeta. rewrite <- H. destruct (forallb _ _); [|naive_solver]. split; [intros [= <-]; done|].
  by intros [_ ->].
Qed.

(** C31: a join binds the correlated name with the oldest token: [findBinding] answers [None] when
    no name has the required tokens at every key, otherwise a correlated name no other
    correlated name precedes in (oldest stamp, name) order. *)
Theorem findBinding_earliest {V} (t : transition V) ms getTokens :
  t_matchSpec t = Some ms → ms_keys ms ≠ [] →
  (∀ k tok, k ∈ ms_keys ms → tok ∈ getTokens (mk_place_of k) → (createdAt tok ≤ MAX_SAFE_INTEGER)%Z) →
  match findBinding t getTokens with
  | Some n => correlated t ms getTokens n ∧
      ∀ n', correlated t ms getTokens n' →
        less (ReadyEntry (oldest ms getTokens n') n') (ReadyEntry (oldest ms getTokens n) n) = false
  | None => ∀ n, ¬ correlated t ms getTokens n
  end.
Proof.
  intros Hms Hne Hts. pose proof (findBinding_best t ms getTokens Hms Hne Hts) as H.
  destruct (findBinding t getTokens) as [n|]; simpl in H.
  - destruct H as (ts & [Hc ->]%join_rep & Hmin). split; [done|]. intros n' Hc'. apply Hmin, join_rep. done.
  - intros n Hc. assert (rep_spec n (join_inputs t ms getTokens) = Some (oldest ms getTokens n)) as E by (by apply join_rep).
    by rewrite H in E.
Qed.

Definition join_spec : match_spec jsstr :=
  MatchSpec [MatchKey (Place 0 (js "l")) (λ v, v); MatchKey (Place 1 (js "r")) (λ v, v)] [].

Definition join_transition : transition jsstr :=
  Transition (js "join") [InOne (Place 0 (js "l")); InExactly (Place 1 (js "r")) 2] None [] [] [] immediate None 0 []
    (Some join_spec).

Definition join_tokens (p : place) : list (token jsstr) :=
  if (place_ref p =? 0)
  then [Token (Some (js "x")) 1; Token (Some (js "y")) 2; Token None 0; Token (Some (js "z")) 2]
  else [Token (Some (js "z")) 5; Token (Some (js "y")) 6; Token (Some (js "y")) 3; Token (Some (js "x")) 0; Token (Some (js "z")) 6].

Lemma findBinding_earliest_witness :
  findBinding join_transition join_tokens = Some (js "y") ∧
  (correlated join_transition join_spec join_tokens (js "y") ∧
   ∀ n', correlated join_transition join_spec join_tokens n' →
     less (ReadyEntry (oldest join_spec join_tokens n') n')
          (ReadyEntry (oldest join_spec join_tokens (js "y")) (js "y")) = false).
Proof.
  assert (findBinding join_transition join_tokens = Some (js "y")) as E by (by vm_compute).
  split; [exact E|]. pose proof (findBinding_earliest join_transition join_spec join_tokens) as H.
  rewrite E in H. apply H; [done|done|].
  intros k tok Hk. apply elem_of_cons in Hk as [->|Hk]; [|apply list_elem_of_singleton in Hk as ->];
    cbn; rewrite !elem_of_cons, elem_of_nil; intros Htok; destruct_or!; subst; try done; vm_compute; discriminate.
Defined.
