(* ===== verification/PetriNet.v ===== *)
(** * Nets and their builder; dead arcs

    [src/typescript/src/core/petri-net.ts]: the net record and the plain builder (places,
    terminals, transitions, [build] without fusion sets or composed subnets);
    [src/typescript/src/core/internal/dead-arcs.ts]. A transition object is its identity paired
    with its record; a [Set] of transitions keys on the identity. *)
From S2P Require Import Prelude.
From S2P Require Import Net.
From S2P Require Import Out.
From S2P Require Import OutSpec.
From S2P Require Import Transition.

Section PetriNet.
Variable V : Type.

Record petri_net := PetriNet {
  net_name : jsstr;
  net_places : list place;
  net_transitions : list (transition V);
  net_terminals : list place
}.

Record net_builder := NetBuilder {
  nb_name : jsstr;
  nb_places : list place;
  nb_transitions : list (nat * transition V);
  nb_terminals : list (jsstr * place)
}.

Definition net_builder_new (name : jsstr) : net_builder := NetBuilder name [] [] [].

Definition nb_place (p : place) (b : net_builder) : net_builder :=
  NetBuilder (nb_name b) (set_add p (nb_places b)) (nb_transitions b) (nb_terminals b).

Definition nb_terminal (p : place) (b : net_builder) : net_builder :=
  NetBuilder (nb_name b) (set_add p (nb_places b)) (nb_transitions b)
    (match map_get (place_name p) (nb_terminals b) with
     | Some _ => nb_terminals b
     | None => map_set (place_name p) p (nb_terminals b)
     end).

(** The places a transition's arcs name, in the order [transition] adds them. *)
Definition arc_places (t : transition V) : list place :=
  (in_place <$> inputSpecs t) ++ outputPlaces t ++ inhibitors t ++ reads t ++ resets t.

Definition nb_transition (ref : nat) (t : transition V) (b : net_builder) : net_builder :=
  NetBuilder (nb_name b) (set_union (nb_places b) (arc_places t))
    (if decide (ref ∈ (nb_transitions b).*1) then nb_transitions b else nb_transitions b ++ [(ref, t)])
    (nb_terminals b).

Inductive net_error :=
| TerminalIsInput (terminal : jsstr) (transition : jsstr)
| TerminalIsRead (terminal : jsstr) (transition : jsstr).

Definition requireWellFormedTerminals (terminals : list place) (ts : list (transition V))
    : result net_error () :=
  if bool_decide (length terminals = 0) then Ok ()
  else
    let names := place_name <$> terminals in
    res_iter (λ t,
      do* res_iter (λ s, throw_if (bool_decide (place_name (in_place s) ∈ names))
                                  (TerminalIsInput (place_name (in_place s)) (t_name t))) (inputSpecs t);
      res_iter (λ p, throw_if (bool_decide (place_name p ∈ names))
                              (TerminalIsRead (place_name p) (t_name t))) (reads t)) ts.

Definition net_build (b : net_builder) : result net_error petri_net :=
  let terminals := (nb_terminals b).*2 in
  do* requireWellFormedTerminals terminals (nb_transitions b).*2;
  Ok (PetriNet (nb_name b) (nb_places b) (nb_transitions b).*2 terminals).

(** The builder's calls, as a host strings them together. *)
Inductive nb_call :=
| CallPlace (p : place)
| CallTerminal (p : place)
| CallTransition (ref : nat) (t : transition V).

Definition nb_run (c : nb_call) (b : net_builder) : net_builder :=
  match c with
  | CallPlace p => nb_place p b
  | CallTerminal p => nb_terminal p b
  | CallTransition ref t => nb_transition ref t b
  end.

(** ** Dead arcs *)

Inductive arc_kind := KindRead | KindInhibitor | KindReset.

Record dead_arc := DeadArc { da_kind : arc_kind; da_transition : jsstr; da_place : jsstr }.

Definition connected_names (ts : list (transition V)) : list jsstr :=
  foldl (λ acc t, set_union (set_union acc ((λ s, place_name (in_place s)) <$> inputSpecs t))
                            (place_name <$> outputPlaces t)) [] ts.

Definition unconnectedArcs (net : petri_net) : list dead_arc :=
  let connected := connected_names (net_transitions net) in
  let dead (kind : arc_kind) (t : transition V) (ps : list place) :=
    omap (λ p, if decide (place_name p ∈ connected) then None
               else Some (DeadArc kind (t_name t) (place_name p))) ps in
  t ← net_transitions net;
  dead KindRead t (reads t) ++ dead KindInhibitor t (inhibitors t) ++ dead KindReset t (resets t).

Definition findDeadArcs (net : petri_net) (initiallyMarked isEnvironment : jsstr → bool) : list dead_arc :=
  let candidates := unconnectedArcs net in
  if bool_decide (length candidates = 0) then candidates
  else filter (λ a, negb (isEnvironment (da_place a)) && negb (initiallyMarked (da_place a))) candidates.

(** ** Well-formed nets *)

(** The net contains every place its arcs name, and its terminals are places no transition
    consumes or reads. *)
Definition net_wf (net : petri_net) : Prop :=
  (∀ t p, t ∈ net_transitions net → p ∈ arc_places t → p ∈ net_places net) ∧
  (∀ p, p ∈ net_terminals net → p ∈ net_places net) ∧
  NoDup (place_name <$> net_terminals net) ∧
  (∀ p t, p ∈ net_terminals net → t ∈ net_transitions net →
     (∀ s, s ∈ inputSpecs t → place_name (in_place s) ≠ place_name p) ∧
     (∀ q, q ∈ reads t → place_name q ≠ place_name p)).

Definition nb_inv (b : net_builder) : Prop :=
  (∀ t p, t ∈ (nb_transitions b).*2 → p ∈ arc_places t → p ∈ nb_places b) ∧
  (∀ p, p ∈ (nb_terminals b).*2 → p ∈ nb_places b) ∧
  NoDup (nb_terminals b).*1 ∧ Forall (λ x, place_name x.2 = x.1) (nb_terminals b).

Lemma map_set_fresh {A} (k : jsstr) (v : A) m : map_get k m = None → map_set k v m = m ++ [(k, v)].
Proof.
  induction m as [|[k' v'] m IH]; simpl; [done|]. case_decide; [done|]. intros. by rewrite IH.
Qed.

Lemma nb_run_inv c b : nb_inv b → nb_inv (nb_run c b).
Proof.
  intros (Ht & Hp & Hn & Hf). destruct c as [p|p|ref t]; unfold nb_inv; simpl.
  - split_and!; auto; intros; rewrite elem_of_set_add; eauto.
  - destruct (map_get (place_name p) (nb_terminals b)) eqn:E.
    + split_and!; auto; intros; rewrite elem_of_set_add; eauto.
    + rewrite map_set_fresh by done. rewrite !fmap_app. split_and!.
      * intros. rewrite elem_of_set_add. eauto.
      * intros q [Hq|Hq%list_elem_of_singleton]%elem_of_app; rewrite elem_of_set_add; [eauto|by left].
      * apply NoDup_app. split_and!; [done| |apply NoDup_singleton].
        intros x Hx Hx'%list_elem_of_singleton. simpl in Hx'. subst. by apply map_get_None in E.
      * apply Forall_app. split; [done|by repeat constructor].
  - split_and!; auto; intros; rewrite elem_of_set_union; [|left; eauto].
    case_decide; [left; eauto|]. rewrite fmap_app in H.
    apply elem_of_app in H as [?|H%list_elem_of_singleton]; [left; eauto|right]. simpl in H. by subst.
Qed.

Lemma nb_runs_inv calls b : nb_inv b → nb_inv (foldl (λ b c, nb_run c b) b calls).
Proof. revert b. induction calls; simpl; auto using nb_run_inv. Qed.

Lemma requireWellFormedTerminals_ok terminals ts :
  requireWellFormedTerminals terminals ts = Ok () ↔
  ∀ p t, p ∈ terminals → t ∈ ts →
    (∀ s, s ∈ inputSpecs t → place_name (in_place s) ≠ place_name p) ∧
    (∀ q, q ∈ reads t → place_name q ≠ place_name p).
Proof.
  unfold requireWellFormedTerminals. case_bool_decide as Hl.
  { apply nil_length_inv in Hl as ->. split; [|done]. intros _ p t ?%not_elem_of_nil. done. }
  rewrite res_iter_ok, Forall_forall.
  assert (∀ t : transition V, (do* res_iter (λ s, throw_if (bool_decide (place_name (in_place s) ∈ place_name <$> terminals))
      (TerminalIsInput (place_name (in_place s)) (t_name t))) (inputSpecs t);
    res_iter (λ p, throw_if (bool_decide (place_name p ∈ place_name <$> terminals))
      (TerminalIsRead (place_name p) (t_name t))) (reads t)) = Ok () ↔
    ∀ p, p ∈ terminals → (∀ s, s ∈ inputSpecs t → place_name (in_place s) ≠ place_name p) ∧
                         (∀ q, q ∈ reads t → place_name q ≠ place_name p)) as Ht.
  { intros t. rewrite res_seq_ok, !res_iter_ok, !Forall_forall.
    setoid_rewrite throw_if_ok. setoid_rewrite bool_decide_eq_false. setoid_rewrite list_elem_of_fmap.
    naive_solver. }
  setoid_rewrite Ht. naive_solver.
Qed.

Lemma requireWellFormedTerminals_err terminals ts e :
  requireWellFormedTerminals terminals ts = Err e →
  ∃ p t, p ∈ terminals ∧ t ∈ ts ∧
    ((∃ s, s ∈ inputSpecs t ∧ place_name (in_place s) = place_name p) ∨
     (∃ q, q ∈ reads t ∧ place_name q = place_name p)).
Proof.
  unfold requireWellFormedTerminals. case_bool_decide; [done|].
  intros (t & Ht & H')%res_iter_err. destruct (res_iter _ (inputSpecs t)) as [[]|e'] eqn:Ei; simpl in H'.
  - apply res_iter_err in H' as (q & Hq & H'). unfold throw_if in H'. case_bool_decide as Hin; [|done].
    apply list_elem_of_fmap in Hin as (p & E & Hp). eauto 10.
  - apply res_iter_err in Ei as (s & Hs & Ei). unfold throw_if in Ei. case_bool_decide as Hin; [|done].
    apply list_elem_of_fmap in Hin as (p & E & Hp). eauto 10.
Qed.
End PetriNet.

Arguments PetriNet {V}. Arguments net_name {V}. Arguments net_places {V}. Arguments net_transitions {V}.
Arguments net_terminals {V}. Arguments arc_places {V}. Arguments net_builder_new {V}.
Arguments nb_place {V}. Arguments nb_terminal {V}. Arguments nb_transition {V}. Arguments net_build {V}.
Arguments nb_run {V}. Arguments net_wf {V}. Arguments nb_inv {V}. Arguments CallPlace {V}.
Arguments CallTerminal {V}. Arguments CallTransition {V}. Arguments findDeadArcs {V}.
Arguments unconnectedArcs {V}. Arguments connected_names {V}. Arguments nb_transitions {V}.
Arguments nb_terminals {V}. Arguments nb_places {V}. Arguments nb_runs_inv {V}.
Arguments requireWellFormedTerminals {V}. Arguments requireWellFormedTerminals_ok {V}.

Section DeadArcLemmas.
Context {V : Type}.
Implicit Types (t : transition V) (net : petri_net V).

(** Some transition consumes from or produces into a place of that name. *)
Definition connected_place (ts : list (transition V)) (n : jsstr) : Prop :=
  ∃ t, t ∈ ts ∧ ((∃ s, s ∈ inputSpecs t ∧ place_name (in_place s) = n) ∨
                 (∃ p, p ∈ outputPlaces t ∧ place_name p = n)).

Lemma elem_of_connected_names ts n : n ∈ connected_names ts ↔ connected_place ts n.
Proof.
  unfold connected_names.
  assert (∀ acc, n ∈ foldl (λ acc t, set_union (set_union acc ((λ s, place_name (in_place s)) <$> inputSpecs t))
      (place_name <$> outputPlaces t)) acc ts ↔ n ∈ acc ∨ connected_place ts n) as H.
  { unfold connected_place. induction ts as [|t ts IH]; intros acc; simpl.
    { split; [by left|]. intros [?|(? & ?%not_elem_of_nil & _)]; done. }
    rewrite IH, !elem_of_set_union, !list_elem_of_fmap. setoid_rewrite elem_of_cons. naive_solver. }
  rewrite H. split; [|by right]. by intros [?%not_elem_of_nil|].
Qed.

(** The places a transition's non-consuming arcs of one kind name. *)
Definition kind_places (k : arc_kind) t : list place :=
  match k with KindRead => reads t | KindInhibitor => inhibitors t | KindReset => resets t end.

Lemma elem_of_unconnectedArcs net a :
  a ∈ unconnectedArcs net ↔
  ∃ t p, t ∈ net_transitions net ∧ p ∈ kind_places (da_kind a) t ∧
    a = DeadArc (da_kind a) (t_name t) (place_name p) ∧
    ¬ connected_place (net_transitions net) (place_name p).
Proof.
  unfold unconnectedArcs. rewrite list_elem_of_bind. setoid_rewrite elem_of_app. setoid_rewrite elem_of_app.
  setoid_rewrite list_elem_of_omap. setoid_rewrite <- elem_of_connected_names. split.
  - intros (t & H & Ht). exists t.
    destruct H as [(p & Hp & E)|[(p & Hp & E)|(p & Hp & E)]]; case_decide; simplify_eq; eauto 10.
  - intros (t & p & Ht & Hp & -> & Hn). exists t. split; [|done]. simpl in Hp.
    destruct (da_kind a); [left|right; left|right; right]; exists p; (split; [done|]); by rewrite decide_False.
Qed.
End DeadArcLemmas.

(** ** Properties *)

(** Whatever calls a host makes, a net that builds is closed and its terminals are inert: it
    contains every place its arcs name and every terminal, and no transition consumes or reads a
    terminal; the build is rejected exactly when some transition does. *)
Theorem net_build_wf {V} (name : jsstr) (calls : list (nb_call V)) :
  let b := foldl (λ b c, nb_run c b) (net_builder_new name) calls in
  match net_build b with
  | Ok net => net_wf net ∧ net_transitions net = (nb_transitions b).*2
  | Err _ => ∃ p t, p ∈ (nb_terminals b).*2 ∧ t ∈ (nb_transitions b).*2 ∧
      ((∃ s, s ∈ inputSpecs t ∧ place_name (in_place s) = place_name p) ∨
       (∃ q, q ∈ reads t ∧ place_name q = place_name p))
  end.
Proof.
  intros b. assert (nb_inv b) as (Ht & Hp & Hn & Hf).
  { apply nb_runs_inv. split_and!; simpl; [..|apply NoDup_nil_2|constructor];
      [intros ?? ?%not_elem_of_nil|intros ? ?%not_elem_of_nil]; done. }
  unfold net_build. destruct (requireWellFormedTerminals _ _) as [[]|e] eqn:E; simpl.
  - split; [|done]. pose proof (proj1 (requireWellFormedTerminals_ok _ _) E) as Hr.
    split_and!; auto. simpl. clear -Hn Hf.
    assert (place_name <$> (nb_terminals b).*2 = (nb_terminals b).*1) as ->; [|done].
    induction Hf as [|[k q] l Hk Hf IH]; [done|]. rewrite !fmap_cons. simpl in *. subst.
    apply NoDup_cons in Hn as [_ Hn]. by rewrite IH.
  - by eapply requireWellFormedTerminals_err.
Qed.

(** The dead-arc report is exact: an arc is reported when and only when it is a read,
    inhibitor or reset arc of the net on a place no transition consumes from or produces into,
    that is no environment place and starts empty. *)
Theorem findDeadArcs_exact {V} (net : petri_net V) (marked env : jsstr → bool) a :
  a ∈ findDeadArcs net marked env ↔
  (∃ t p, t ∈ net_transitions net ∧ p ∈ kind_places (da_kind a) t ∧
     a = DeadArc (da_kind a) (t_name t) (place_name p)) ∧
  ¬ connected_place (net_transitions net) (da_place a) ∧
  env (da_place a) = false ∧ marked (da_place a) = false.
Proof.
  assert (a ∈ findDeadArcs net marked env ↔
    (negb (env (da_place a)) && negb (marked (da_place a))) = true ∧ a ∈ unconnectedArcs net) as ->.
  { unfold findDeadArcs. case_bool_decide as Hl.
    - apply nil_length_inv in Hl. rewrite Hl. split; [intros ?%not_elem_of_nil; done|].
      by intros [_ ?%not_elem_of_nil].
    - by rewrite list_elem_of_filter, Is_true_true. }
  rewrite elem_of_unconnectedArcs, andb_true_iff, !negb_true_iff. split.
  - intros ((? & ?) & t & p & ? & ? & E & Hn). split_and!; auto; [eauto 10|]. by rewrite E.
  - intros ((t & p & ? & ? & E) & Hn & ? & ?). split; [done|]. exists t, p. split_and!; auto.
    by rewrite E in Hn.
Qed.
