(* ===== verification/Bitmap.v ===== *)
(** * 32-bit words and bitmaps

    The helpers at the end of [src/typescript/src/runtime/compiled-net.ts]. A [Uint32Array] is a
    list of words in [0, 2^32); JavaScript's bitwise operators convert their operands to signed
    32-bit integers and a store into the array converts back. A write out of range is ignored
    and a read out of range counts as zero, as with typed arrays. *)
From S2P Require Import Prelude.
#[local] Open Scope Z_scope.

Definition WORD_SHIFT : Z := 5.
Definition BIT_MASK : Z := 31.

(** [ToUint32] and [ToInt32] *)
Definition to_uint32 (z : Z) : Z := z mod 2 ^ 32.
Definition to_int32 (z : Z) : Z := let u := to_uint32 z in if 2 ^ 31 <=? u then u - 2 ^ 32 else u.

(** The operators [|], [&], [~] and [<<] *)
Definition js_or (a b : Z) : Z := Z.lor (to_int32 a) (to_int32 b).
Definition js_and (a b : Z) : Z := Z.land (to_int32 a) (to_int32 b).
Definition js_not (a : Z) : Z := Z.lnot (to_int32 a).
Definition js_shl (a n : Z) : Z := to_int32 (Z.shiftl (to_int32 a) (Z.land n 31)).

(** [bit >>> WORD_SHIFT] and [1 << (bit & BIT_MASK)], for an index that is not negative *)
Definition word_of (bit : nat) : nat := Z.to_nat (Z.shiftr (Z.of_nat bit) WORD_SHIFT).
Definition bit_word (bit : nat) : Z := js_shl 1 (Z.land (Z.of_nat bit) BIT_MASK).

Definition word_at (arr : list Z) (w : nat) : Z := default 0 (arr !! w).

Definition setBit (arr : list Z) (bit : nat) : list Z :=
  <[word_of bit := to_uint32 (js_or (word_at arr (word_of bit)) (bit_word bit))]> arr.
Definition clearBit (arr : list Z) (bit : nat) : list Z :=
  <[word_of bit := to_uint32 (js_and (word_at arr (word_of bit)) (js_not (bit_word bit)))]> arr.
Definition testBit (arr : list Z) (bit : nat) : bool :=
  negb (js_and (word_at arr (word_of bit)) (bit_word bit) =? 0).

(** The loop bodies read [snapshot[i]] as 0 past its end. *)
Fixpoint containsAll_from (snapshot mask : list Z) : bool :=
  match mask with
  | [] => true
  | m :: mask' =>
      if m =? 0 then containsAll_from (tail snapshot) mask'
      else let s := match snapshot with s :: _ => s | [] => 0 end in
           if negb (to_uint32 (js_and s m) =? m) then false else containsAll_from (tail snapshot) mask'
  end.
Definition containsAll (snapshot mask : list Z) : bool := containsAll_from snapshot mask.

Fixpoint intersects_from (snapshot mask : list Z) : bool :=
  match mask with
  | [] => false
  | m :: mask' =>
      if m =? 0 then intersects_from (tail snapshot) mask'
      else if match snapshot with s :: _ => negb (js_and s m =? 0) | [] => false end then true
      else intersects_from (tail snapshot) mask'
  end.
Definition intersects (snapshot mask : list Z) : bool := intersects_from snapshot mask.

(** [new Uint32Array(n)] *)
Definition new_words (n : nat) : list Z := replicate n 0.

(** ** Abstract view: the set of bits *)

Definition word32 (z : Z) : Prop := 0 <= z < 2 ^ 32.
Definition words_ok (arr : list Z) : Prop := Forall word32 arr.

Definition bit_of (arr : list Z) (bit : nat) : bool :=
  Z.testbit (word_at arr (bit / 32)) (Z.of_nat (bit mod 32)).

(** ** Lemmas *)

Lemma to_uint32_word z : word32 (to_uint32 z).
Proof. unfold word32, to_uint32. apply Z.mod_pos_bound. lia. Qed.

Lemma to_uint32_testbit z i : 0 <= i -> Z.testbit (to_uint32 z) i = (i <? 32) && Z.testbit z i.
Proof.
  intros Hi. unfold to_uint32. destruct (i <? 32) eqn:E; b2p; simpl.
  - by rewrite Z.mod_pow2_bits_low.
  - by rewrite Z.mod_pow2_bits_high by lia.
Qed.

Lemma to_int32_testbit z i : 0 <= i < 32 -> Z.testbit (to_int32 z) i = Z.testbit z i.
Proof.
  intros Hi. rewrite <- (Z.mod_pow2_bits_low z 32 i) by lia.
  rewrite <- (Z.mod_pow2_bits_low (to_int32 z) 32 i) by lia. f_equal.
  unfold to_int32. fold (to_uint32 z). cbv zeta. case_bool; unfold to_uint32.
  - rewrite Zminus_mod, Z_mod_same_full, Z.sub_0_r, !Zmod_mod. done.
  - by rewrite Zmod_mod.
Qed.

Lemma word32_testbit_high z i : word32 z -> 32 <= i -> Z.testbit z i = false.
Proof.
  intros Hz Hi. unfold word32 in Hz. rewrite <- (Z.mod_small z (2 ^ 32)) by lia.
  by rewrite Z.mod_pow2_bits_high by lia.
Qed.

Lemma word32_eq x y : word32 x -> word32 y ->
  (forall i, 0 <= i < 32 -> Z.testbit x i = Z.testbit y i) -> x = y.
Proof.
  intros Hx Hy H. apply Z.bits_inj'. intros i Hi. destruct (Z_lt_dec i 32); [by apply H|].
  rewrite !word32_testbit_high by (done || lia). done.
Qed.

Lemma word_of_div bit : word_of bit = (bit / 32)%nat.
Proof.
  unfold word_of, WORD_SHIFT. rewrite Z.shiftr_div_pow2 by lia. change (2 ^ 5) with (Z.of_nat 32).
  by rewrite <- Nat2Z.inj_div, Nat2Z.id.
Qed.

Lemma bit_word_testbit bit i : 0 <= i < 32 ->
  Z.testbit (bit_word bit) i = (i =? Z.of_nat (bit mod 32)).
Proof.
  intros Hi. unfold bit_word, js_shl, BIT_MASK.
  change 31 with (Z.ones 5). rewrite !Z.land_ones by lia. rewrite Zmod_mod.
  change (2 ^ 5) with (Z.of_nat 32). rewrite <- Nat2Z.inj_mod.
  pose proof (Nat.mod_upper_bound bit 32). rewrite to_int32_testbit by lia.
  change (to_int32 1) with 1. rewrite Z.shiftl_spec by lia.
  destruct (i =? Z.of_nat (bit mod 32)) eqn:E; b2p.
  - rewrite E, Z.sub_diag. done.
  - destruct (Z_lt_dec i (Z.of_nat (bit mod 32))).
    + apply Z.testbit_neg_r. lia.
    + rewrite Z.bits_above_log2; [done|lia|]. change (Z.log2 1) with 0. lia.
Qed.

Lemma word_at_ok arr w : words_ok arr -> word32 (word_at arr w).
Proof.
  intros H. unfold word_at. destruct (arr !! w) as [x|] eqn:E; simpl; [|unfold word32; lia].
  unfold words_ok in H. rewrite Forall_lookup in H. by apply (H w).
Qed.

Lemma word_at_insert arr w v k : (w < length arr)%nat ->
  word_at (<[w := v]> arr) k = if decide (k = w) then v else word_at arr k.
Proof.
  intros. unfold word_at. case_decide; subst.
  - by rewrite list_lookup_insert_eq.
  - by rewrite list_lookup_insert_ne.
Qed.

Lemma div_mod_bit a b : (a / 32 = b / 32)%nat -> (a mod 32 = b mod 32)%nat -> a = b.
Proof.
  intros H1 H2. pose proof (Nat.div_mod_eq a 32). pose proof (Nat.div_mod_eq b 32). lia.
Qed.

Lemma setBit_spec arr bit k : words_ok arr -> (bit / 32 < length arr)%nat ->
  bit_of (setBit arr bit) k = (k =? bit)%nat || bit_of arr k.
Proof.
  intros Hok Hl. unfold bit_of, setBit. rewrite word_of_div, word_at_insert by done.
  pose proof (Nat.mod_upper_bound k 32). case_decide as E.
  - rewrite to_uint32_testbit by lia. rewrite (proj2 (Z.ltb_lt _ _)) by lia. unfold js_or.
    rewrite Z.lor_spec, !to_int32_testbit, bit_word_testbit by lia.
    rewrite andb_true_l, E, orb_comm. f_equal.
    destruct (k =? bit)%nat eqn:Ek; b2p; [subst; apply Z.eqb_refl|].
    apply Z.eqb_neq. intros Hm. apply Ek, div_mod_bit; [done|lia].
  - destruct (k =? bit)%nat eqn:Ek; b2p; [by subst|done].
Qed.

Lemma clearBit_spec arr bit k : words_ok arr -> (bit / 32 < length arr)%nat ->
  bit_of (clearBit arr bit) k = negb (k =? bit)%nat && bit_of arr k.
Proof.
  intros Hok Hl. unfold bit_of, clearBit. rewrite word_of_div, word_at_insert by done.
  pose proof (Nat.mod_upper_bound k 32). case_decide as E.
  - rewrite to_uint32_testbit by lia. rewrite (proj2 (Z.ltb_lt _ _)) by lia. unfold js_and, js_not.
    rewrite Z.land_spec, !to_int32_testbit, Z.lnot_spec, to_int32_testbit, bit_word_testbit by lia.
    rewrite andb_true_l, E, andb_comm. f_equal. f_equal.
    destruct (k =? bit)%nat eqn:Ek; b2p; [subst; apply Z.eqb_refl|].
    apply Z.eqb_neq. intros Hm. apply Ek, div_mod_bit; [done|lia].
  - destruct (k =? bit)%nat eqn:Ek; b2p; [by subst|done].
Qed.

Lemma setBit_ok arr bit : words_ok arr -> words_ok (setBit arr bit).
Proof. intros H. apply Forall_insert; [done|apply to_uint32_word]. Qed.
Lemma clearBit_ok arr bit : words_ok arr -> words_ok (clearBit arr bit).
Proof. intros H. apply Forall_insert; [done|apply to_uint32_word]. Qed.
Lemma length_setBit arr bit : length (setBit arr bit) = length arr.
Proof. apply length_insert. Qed.
Lemma length_clearBit arr bit : length (clearBit arr bit) = length arr.
Proof. apply length_insert. Qed.
Lemma new_words_ok n : words_ok (new_words n).
Proof. apply Forall_replicate. unfold word32. lia. Qed.
Lemma bit_of_new n k : bit_of (new_words n) k = false.
Proof.
  unfold bit_of, word_at, new_words. destruct (replicate n 0 !! (k / 32)%nat) as [x|] eqn:E.
  - apply lookup_replicate_1 in E as [-> _]. apply Z.testbit_0_l.
  - apply Z.testbit_0_l.
Qed.
#[export] Hint Resolve setBit_ok clearBit_ok new_words_ok : petri.

(** Above bit 31 a signed 32-bit integer repeats its sign. *)
Lemma to_int32_sign z i : 31 <= i -> Z.testbit (to_int32 z) i = Z.testbit z 31.
Proof.
  intros Hi. assert (Z.testbit z 31 = Z.testbit (to_uint32 z) 31) as -> by (by rewrite to_uint32_testbit).
  pose proof (to_uint32_word z) as Hu. unfold to_int32. cbv zeta. revert Hu. generalize (to_uint32 z) as u.
  intros u Hu. unfold word32 in Hu. destruct (2 ^ 31 <=? u) eqn:E; b2p.
  - trans true; [|symmetry].
    + replace (u - 2 ^ 32) with (Z.lnot (2 ^ 32 - 1 - u)) by (unfold Z.lnot; lia).
      rewrite Z.lnot_spec by lia. apply negb_true_iff.
      rewrite <- (Z.mod_small (2 ^ 32 - 1 - u) (2 ^ 31)) by lia. by rewrite Z.mod_pow2_bits_high by lia.
    + apply Z.testbit_true; [lia|]. assert (u / 2 ^ 31 = 1) as ->; [|done].
      symmetry. apply (Z.div_unique _ _ _ (u - 2 ^ 31)); lia.
  - rewrite <- (Z.mod_small u (2 ^ 31)) by lia. by rewrite !Z.mod_pow2_bits_high by lia.
Qed.

Lemma js_and_zero a b :
  js_and a b = 0 <-> forall i, 0 <= i < 32 -> Z.testbit a i && Z.testbit b i = false.
Proof.
  unfold js_and. split.
  - intros H i Hi. rewrite <- (to_int32_testbit a), <- (to_int32_testbit b), <- Z.land_spec, H by lia.
    apply Z.testbit_0_l.
  - intros H. apply Z.bits_inj'. intros i Hi. rewrite Z.land_spec, Z.testbit_0_l.
    destruct (Z_lt_dec i 32).
    + rewrite !to_int32_testbit by lia. apply H. lia.
    + rewrite !to_int32_sign by lia. apply H. lia.
Qed.

Lemma testBit_spec arr bit : testBit arr bit = bit_of arr bit.
Proof.
  unfold testBit, bit_of. rewrite word_of_div. pose proof (Nat.mod_upper_bound bit 32).
  apply eq_true_iff_eq. rewrite negb_true_iff, Z.eqb_neq, js_and_zero. split.
  - intros Hn. destruct (Z.testbit _ _) eqn:E; [done|]. destruct Hn. intros i Hi.
    rewrite bit_word_testbit by done. destruct (i =? _) eqn:Ei; b2p; [subst; by rewrite E|apply andb_false_r].
  - intros Hb H'. specialize (H' (Z.of_nat (bit mod 32))). rewrite Hb, bit_word_testbit, Z.eqb_refl in H' by lia.
    specialize (H' ltac:(lia)). done.
Qed.

Lemma and_covers s m : word32 m ->
  to_uint32 (js_and s m) = m <-> forall i, 0 <= i < 32 -> Z.testbit m i = true -> Z.testbit s i = true.
Proof.
  intros Hm. assert (forall i, 0 <= i < 32 ->
    Z.testbit (to_uint32 (js_and s m)) i = Z.testbit s i && Z.testbit m i) as Ht.
  { intros i Hi. rewrite to_uint32_testbit by lia. rewrite (proj2 (Z.ltb_lt _ _)) by lia. simpl.
    unfold js_and. rewrite Z.land_spec, !to_int32_testbit by lia. done. }
  split.
  - intros E i Hi Hb. rewrite <- E, Ht in Hb by done. by apply andb_true_iff in Hb as [? _].
  - intros H. apply word32_eq; [apply to_uint32_word|done|]. intros i Hi. rewrite Ht by done.
    specialize (H i Hi). destruct (Z.testbit m i); [|apply andb_false_r]. by rewrite H.
Qed.

Lemma word_at_cons x arr w : word_at (x :: arr) (S w) = word_at arr w.
Proof. done. Qed.
Lemma word_at_tail arr w : word_at (tail arr) w = word_at arr (S w).
Proof. by destruct arr. Qed.

Lemma containsAll_words snapshot mask : words_ok mask ->
  containsAll snapshot mask = true <->
  forall w i, 0 <= i < 32 -> Z.testbit (word_at mask w) i = true -> Z.testbit (word_at snapshot w) i = true.
Proof.
  intros Hok. unfold containsAll. revert snapshot. induction Hok as [|m mask Hm Hok IH]; intros snapshot; simpl.
  { split; [|done]. intros _ w i _. unfold word_at. rewrite lookup_nil. simpl. by rewrite Z.testbit_0_l. }
  assert ((forall w i, 0 <= i < 32 -> Z.testbit (word_at (m :: mask) w) i = true -> Z.testbit (word_at snapshot w) i = true) <->
    (forall i, 0 <= i < 32 -> Z.testbit m i = true -> Z.testbit (word_at snapshot 0) i = true) /\
    (forall w i, 0 <= i < 32 -> Z.testbit (word_at mask w) i = true -> Z.testbit (word_at (tail snapshot) w) i = true)) as ->.
  { setoid_rewrite word_at_tail. split.
    - intros H. split; [apply (H 0%nat)|intros w; apply (H (S w))].
    - intros [H0 HS] [|w]; [apply H0|apply HS]. }
  assert (match snapshot with s :: _ => s | [] => 0 end = word_at snapshot 0) as -> by (by destruct snapshot).
  rewrite <- IH, <- and_covers by done. destruct (m =? 0) eqn:E0; b2p.
  - subst. split; [|tauto]. intros ?. split; [|done]. rewrite and_covers by done.
    intros i _. by rewrite Z.testbit_0_l.
  - destruct (to_uint32 (js_and (word_at snapshot 0) m) =? m) eqn:E; b2p; cbn [negb]; naive_solver.
Qed.

Lemma intersects_words snapshot mask :
  intersects snapshot mask = true <->
  exists w i, 0 <= i < 32 /\ Z.testbit (word_at mask w) i = true /\ Z.testbit (word_at snapshot w) i = true.
Proof.
  unfold intersects. revert snapshot. induction mask as [|m mask IH]; intros snapshot; simpl.
  { split; [done|]. intros (w & i & _ & H & _). unfold word_at in H. rewrite lookup_nil in H. simpl in H.
    by rewrite Z.testbit_0_l in H. }
  assert ((exists w i, 0 <= i < 32 /\ Z.testbit (word_at (m :: mask) w) i = true /\ Z.testbit (word_at snapshot w) i = true) <->
    (exists i, 0 <= i < 32 /\ Z.testbit m i = true /\ Z.testbit (word_at snapshot 0) i = true) \/
    (exists w i, 0 <= i < 32 /\ Z.testbit (word_at mask w) i = true /\ Z.testbit (word_at (tail snapshot) w) i = true)) as ->.
  { setoid_rewrite word_at_tail. split.
    - intros ([|w] & H); [by left|right; by exists w].
    - intros [H|[w H]]; [by exists 0%nat|by exists (S w)]. }
  assert (match snapshot with s :: _ => negb (js_and s m =? 0) | [] => false end =
          negb (js_and (word_at snapshot 0) m =? 0)) as ->.
  { destruct snapshot; [|done]. symmetry. apply negb_false_iff, Z.eqb_eq. apply Z.land_0_l. }
  rewrite <- IH. assert ((exists i, 0 <= i < 32 /\ Z.testbit m i = true /\ Z.testbit (word_at snapshot 0) i = true) <->
    js_and (word_at snapshot 0) m <> 0) as ->.
  { rewrite js_and_zero. split.
    - intros (i & Hi & H1 & H2) H. specialize (H i Hi). by rewrite H1, H2 in H.
    - intros Hn. destruct (existsb (fun i => Z.testbit (word_at snapshot 0) i && Z.testbit m i) (seqZ 0 32)) eqn:Ex.
      + apply existsb_exists in Ex as (i & Hi & [? ?]%andb_true_iff).
        apply list_elem_of_In, elem_of_seqZ in Hi. exists i. split_and!; [lia|lia|done|done].
      + destruct Hn. intros i Hi. destruct (Z.testbit _ _ && _) eqn:Eb; [|done].
        rewrite <- Ex. symmetry. apply existsb_exists. exists i. split; [|done].
        apply list_elem_of_In, elem_of_seqZ. lia. }
  destruct (m =? 0) eqn:E0; b2p.
  - subst. split; [by right|]. intros [H|]; [|done]. destruct H. apply js_and_zero. intros.
    rewrite Z.testbit_0_l. apply andb_false_r.
  - destruct (js_and (word_at snapshot 0) m =? 0) eqn:E; b2p; cbn [negb]; naive_solver.
Qed.

Lemma bit_split w i : 0 <= i < 32 ->
  ((w * 32 + Z.to_nat i) / 32 = w)%nat /\ Z.of_nat ((w * 32 + Z.to_nat i) mod 32) = i.
Proof.
  intros Hi. split.
  - rewrite Nat.div_add_l by lia. rewrite Nat.div_small by lia. lia.
  - rewrite Nat.add_comm, Nat.Div0.mod_add, Nat.mod_small by lia. lia.
Qed.

Lemma containsAll_spec snapshot mask : words_ok mask ->
  containsAll snapshot mask = true <-> forall b, bit_of mask b = true -> bit_of snapshot b = true.
Proof.
  intros Hok. rewrite containsAll_words by done. unfold bit_of. split.
  - intros H b. apply H. pose proof (Nat.mod_upper_bound b 32). lia.
  - intros H w i Hi. specialize (H (w * 32 + Z.to_nat i)%nat). destruct (bit_split w i Hi) as [E1 E2].
    by rewrite E1, E2 in H.
Qed.

Lemma intersects_spec snapshot mask :
  intersects snapshot mask = true <-> exists b, bit_of mask b = true /\ bit_of snapshot b = true.
Proof.
  rewrite intersects_words. unfold bit_of. split.
  - intros (w & i & Hi & H). exists (w * 32 + Z.to_nat i)%nat. destruct (bit_split w i Hi) as [E1 E2].
    by rewrite E1, E2.
  - intros (b & H). exists (b / 32)%nat, (Z.of_nat (b mod 32)). split; [|done].
    pose proof (Nat.mod_upper_bound b 32). lia.
Qed.

(** ** Properties *)

(** A bitmap is a set of indices, up to the sign bit of each word: setting, clearing and
    testing act on exactly the named bit, [containsAll] is inclusion and [intersects] is
    non-empty intersection. *)
Theorem bitmap_ops arr mask bit k :
  words_ok arr -> words_ok mask -> (bit < 32 * length arr)%nat ->
  bit_of (setBit arr bit) k = (k =? bit)%nat || bit_of arr k /\
  bit_of (clearBit arr bit) k = negb (k =? bit)%nat && bit_of arr k /\
  testBit arr bit = bit_of arr bit /\
  (containsAll arr mask = true <-> forall b, bit_of mask b = true -> bit_of arr b = true) /\
  (intersects arr mask = true <-> exists b, bit_of mask b = true /\ bit_of arr b = true) /\
  words_ok (setBit arr bit) /\ words_ok (clearBit arr bit).
Proof.
  intros Ha Hm Hb. assert (bit / 32 < length arr)%nat by (apply Nat.Div0.div_lt_upper_bound; lia).
  split_and!; auto using setBit_spec, clearBit_spec, testBit_spec, containsAll_spec, intersects_spec with petri.
Qed.

Lemma bitmap_ops_witness :
  containsAll (setBit (new_words 2) 31) (setBit (new_words 2) 31) = true /\
  bit_of (setBit (setBit (new_words 2) 31) 40) 31 = (31 =? 40)%nat || bit_of (setBit (new_words 2) 31) 31.
Proof.
  split; [by vm_compute|].
  refine (proj1 (bitmap_ops (setBit (new_words 2) 31) (new_words 2) 40 31 _ _ _));
    [auto with petri..|apply Nat.ltb_lt; reflexivity].
Defined.
