(* ===== verification/CompiledNet.v ===== *)
(** * Compiled nets

    [src/typescript/src/runtime/compiled-net.ts]: integer identifiers of places and transitions,
    the needs and inhibitor bitmaps, the reverse index of affected transitions, cardinality
    checks and clock-restart thresholds. A transition's identifier is its position in the net.
    Whether a transition carries the built-in [passthrough] action is a parameter. *)
From S2P Require Import Prelude.
From S2P Require Import Net.
From S2P Require Import Out.
From S2P Require Import OutSpec.
From S2P Require Import Transition.
From S2P Require Import PetriNet.
From S2P Require Import Bitmap.

Section Compile.
Context {V : Type}.
Implicit Types (t : transition V) (net : petri_net V).

Inductive compile_error :=
| PassthroughWithOutput (transition : jsstr)
| CompileDuplicateInput (transition place : jsstr).

(** The check of [requireOutputProducingActions]; [i] is the identifier of the first transition. *)
Fixpoint requireOutputProducingActions (isPassthrough : nat → bool) (i : nat) (ts : list (transition V))
    : result compile_error () :=
  match ts with
  | [] => Ok ()
  | t :: ts' =>
      do* throw_if (bool_decide (is_Some (outputSpec t)) && isPassthrough i) (PassthroughWithOutput (t_name t));
      requireOutputProducingActions isPassthrough (S i) ts'
  end.

Record compiled := Compiled {
  c_transitions : list (transition V);
  placesById : list place;
  placeIndex : list (jsstr * nat);
  wordCount : nat;
  needsMask : list (list Z);
  inhibitorMask : list (list Z);
  placeToTransitions : list (list nat);
  consumptionIds : list (list nat);
  cardinalityChecks : list (option (list (nat * Z)));
  hasMatches : list bool;
  terminalFlags : option (list bool)
}.

Definition placeCount (c : compiled) : nat := length (placesById c).
Definition transitionCount (c : compiled) : nat := length (c_transitions c).

(** Every place the net's arcs name, then its places, each name once. *)
Definition named_places net : list place :=
  (t ← net_transitions net;
   (in_place <$> inputSpecs t) ++ reads t ++ inhibitors t ++ resets t ++ from_option allPlaces [] (outputSpec t))
  ++ net_places net.
Definition named_map (ps : list place) : list (jsstr * place) := foldl (λ m p, map_set (place_name p) p m) [] ps.
Definition allPlacesSet net : list (jsstr * place) := named_map (named_places net).

Definition index_places (ps : list place) : list (jsstr * nat) :=
  foldl (λ m x, map_set (place_name x.2) x.1 m) [] (imap pair ps).

(** [this._placeIndex.get(name)!] *)
Definition pid_of (ix : list (jsstr * nat)) (p : place) : nat := default 0 (map_get (place_name p) ix).

(** The loop over the input specifications: the needs mask, the places whose reverse index gets
    the transition, and whether a cardinality check is needed. *)
Fixpoint compile_inputs (tname : jsstr) (ix : list (jsstr * nat)) (seen : list jsstr) (specs : list in_spec)
    (needs : list Z) (pushes : list nat) (card : bool) : result compile_error (list Z * list nat * bool) :=
  match specs with
  | [] => Ok (needs, pushes, card)
  | s :: rest =>
      let name := place_name (in_place s) in
      do* throw_if (bool_decide (name ∈ seen)) (CompileDuplicateInput tname name);
      let pid := pid_of ix (in_place s) in
      compile_inputs tname ix (set_add name seen) rest (setBit needs pid) (pushes ++ [pid])
        (card || match s with InOne _ => false | _ => true end)
  end.

Record row := Row {
  r_needs : list Z; r_inhibitors : list Z; r_pushes : list nat; r_consumption : list nat;
  r_card : option (list (nat * Z)); r_match : bool }.

(** The body of the loop over transitions. *)
Definition compile_transition (ix : list (jsstr * nat)) (words : nat) t : result compile_error row :=
  let* x := compile_inputs (t_name t) ix [] (inputSpecs t) (new_words words) [] false in
  let '(needs, pushes, needsCardinality) := x in
  let card := if (needsCardinality : bool)
              then Some ((λ s, (pid_of ix (in_place s), requiredCount s)) <$> inputSpecs t) else None in
  let rd := pid_of ix <$> reads t in
  let inh := pid_of ix <$> inhibitors t in
  let rst := pid_of ix <$> resets t in
  Ok (Row (foldl setBit needs rd) (foldl setBit (new_words words) inh) (pushes ++ rd ++ inh ++ rst)
          (set_union (set_of ((λ s, pid_of ix (in_place s)) <$> inputSpecs t)) rst)
          card (bool_decide (is_Some (t_matchSpec t)))).

Fixpoint compile_rows (ix : list (jsstr * nat)) (words : nat) (ts : list (transition V))
    : result compile_error (list row) :=
  match ts with
  | [] => Ok []
  | t :: ts' =>
      let* r := compile_transition ix words t in
      let* rs := compile_rows ix words ts' in
      Ok (r :: rs)
  end.

(** The reverse index: the transitions whose pushes name [pid], each once, in order. *)
Definition reverse_index (rows : list row) (pid : nat) : list nat :=
  set_of (x ← imap pair rows; (λ _, x.1) <$> filter (λ p, p = pid) (r_pushes x.2)).

Definition compile (isPassthrough : nat → bool) net : result compile_error compiled :=
  do* requireOutputProducingActions isPassthrough 0 (net_transitions net);
  let ps := (allPlacesSet net).*2 in
  let ix := index_places ps in
  let words := Z.to_nat (Z.shiftr (Z.of_nat (length ps) + BIT_MASK) WORD_SHIFT) in
  let flags := if bool_decide (length (net_terminals net) = 0) then None
               else Some (foldl (λ fl p, <[pid_of ix p := true]> fl) (replicate (length ps) false) (net_terminals net)) in
  let* rows := compile_rows ix words (net_transitions net) in
  Ok (Compiled (net_transitions net) ps ix words (r_needs <$> rows) (r_inhibitors <$> rows)
        (reverse_index rows <$> seq 0 (length ps)) (r_consumption <$> rows) (r_card <$> rows) (r_match <$> rows) flags).

(** ** Accessors *)

Definition c_place (c : compiled) (pid : nat) : option place := placesById c !! pid.
Definition c_transition (c : compiled) (tid : nat) : option (transition V) := c_transitions c !! tid.
Definition tryPlaceId (c : compiled) (p : place) : option nat := map_get (place_name p) (placeIndex c).
Definition placeId (c : compiled) (p : place) : result jsstr nat :=
  match tryPlaceId c p with Some id => Ok id | None => Err (place_name p) end.
Definition affectedTransitions (c : compiled) (pid : nat) : list nat := default [] (placeToTransitions c !! pid).
Definition consumptionPlaceIds (c : compiled) (tid : nat) : list nat := default [] (consumptionIds c !! tid).
Definition cardinalityCheck (c : compiled) (tid : nat) : option (list (nat * Z)) :=
  default None (cardinalityChecks c !! tid).
Definition hasMatch (c : compiled) (tid : nat) : bool := default false (hasMatches c !! tid).
Definition hasTerminals (c : compiled) : bool := bool_decide (is_Some (terminalFlags c)).

Definition canEnableBitmap (c : compiled) (tid : nat) (markingSnapshot : list Z) : bool :=
  if negb (containsAll markingSnapshot (default [] (needsMask c !! tid))) then false
  else if intersects markingSnapshot (default [] (inhibitorMask c !! tid)) then false
  else true.

(** ** Clock-restart thresholds *)

(** The [requirer] cell of a place: none, one transition, or several. *)
Inductive requirer := RNone | ROne (tid : nat) | RSeveral.

Definition requires (tid : nat) (r : requirer) : requirer :=
  match r with
  | RNone => ROne tid
  | ROne tid' => if decide (tid' = tid) then ROne tid else RSeveral
  | RSeveral => RSeveral
  end.

(** The state of the loop for one place: its threshold, its requirer, whether a reset drains it. *)
Record threshold_cell := Cell { cell_threshold : jnum; cell_requirer : requirer; cell_drained : bool }.

Definition jnum_max (a b : jnum) : jnum := if jnum_ltb a b then b else a.

(** The pass of transition [tid] over the cell of place [pid]. *)
Definition threshold_step (c : compiled) (pid tid : nat) t (x : threshold_cell) : threshold_cell :=
  let x := foldl (λ x s, if decide (tryPlaceId c (in_place s) = Some pid)
    then Cell (jnum_max (cell_threshold x) (Fin (requiredCount s))) (requires tid (cell_requirer x)) (cell_drained x)
    else x) x (inputSpecs t) in
  let x := foldl (λ x p, if decide (tryPlaceId c p = Some pid)
    then Cell (jnum_max (cell_threshold x) (Fin 1)) (requires tid (cell_requirer x)) (cell_drained x)
    else x) x (reads t) in
  let x := foldl (λ x p, if decide (tryPlaceId c p = Some pid)
    then Cell (cell_threshold x) (cell_requirer x) true else x) x (resets t) in
  match t_matchSpec t with
  | None => x
  | Some ms => foldl (λ x k, if decide (tryPlaceId c (mk_place_of k) = Some pid)
      then Cell Infinity (cell_requirer x) (cell_drained x) else x) x (ms_keys ms)
  end.

Definition restart_threshold (c : compiled) (pid : nat) : jnum :=
  let x := foldl (λ x e, threshold_step c pid e.1 e.2 x) (Cell (Fin 0) RNone false) (imap pair (c_transitions c)) in
  match cell_requirer x with
  | RSeveral => cell_threshold x
  | _ => if cell_drained x then cell_threshold x else Fin 0
  end.

Definition restartThresholds (c : compiled) : list jnum := restart_threshold c <$> seq 0 (placeCount c).

(** ** Identifiers *)

Definition ids_ok (ps : list place) (ix : list (jsstr * nat)) : Prop :=
  NoDup (place_name <$> ps) ∧
  ∀ n i, map_get n ix = Some i ↔ ∃ p, ps !! i = Some p ∧ place_name p = n.

Lemma named_map_keys (ps : list place) :
  NoDup (named_map ps).*1 ∧ Forall (λ x, place_name x.2 = x.1) (named_map ps) ∧
  ∀ n, n ∈ (named_map ps).*1 ↔ n ∈ place_name <$> ps.
Proof.
  unfold named_map.
  assert (∀ ps m, NoDup m.*1 → Forall (λ x : jsstr * place, place_name x.2 = x.1) m →
    let m' := foldl (λ m p, map_set (place_name p) p m) m ps in
    NoDup m'.*1 ∧ Forall (λ x, place_name x.2 = x.1) m' ∧
    ∀ n, n ∈ m'.*1 ↔ n ∈ m.*1 ∨ n ∈ place_name <$> ps) as H.
  { clear ps. induction ps as [|p ps IH]; intros m Hd Hf; simpl; [set_solver|].
    destruct (IH (map_set (place_name p) p m)) as (H1 & H2 & H3).
    - by apply NoDup_map_set.
    - clear -Hf. induction Hf as [|[k v] m Hk Hf IH]; simpl; [by repeat constructor|].
      case_decide; subst; by constructor.
    - split_and!; [done|done|]. intros n. rewrite H3, elem_of_map_set_keys, elem_of_cons. tauto. }
  destruct (H ps []) as (H1 & H2 & H3); [constructor|constructor|]. split_and!; [done|done|].
  intros n. rewrite H3. set_solver.
Qed.

Lemma allPlacesSet_keys net :
  NoDup (allPlacesSet net).*1 ∧ Forall (λ x, place_name x.2 = x.1) (allPlacesSet net) ∧
  ∀ p, p ∈ named_places net → place_name p ∈ (allPlacesSet net).*1.
Proof.
  destruct (named_map_keys (named_places net)) as (H1 & H2 & H3). split_and!; [done|done|].
  intros p Hp. apply H3. by apply list_elem_of_fmap_2.
Qed.

Lemma names_of_entries (m : list (jsstr * place)) :
  Forall (λ x, place_name x.2 = x.1) m → place_name <$> m.*2 = m.*1.
Proof. induction 1 as [|[k p] m Hk Hm IH]; [done|]. rewrite !fmap_cons, IH. simpl in *. by subst. Qed.

Lemma index_places_ok ps : NoDup (place_name <$> ps) → ids_ok ps (index_places ps).
Proof.
  intros Hd. split; [done|]. unfold index_places.
  assert (∀ qs o m, NoDup (place_name <$> qs) → (∀ n, n ∈ place_name <$> qs → map_get n m = None) →
    ∀ n i, map_get n (foldl (λ m x, map_set (place_name x.2) x.1 m) m (imap (λ i p, (o + i, p)) qs)) = Some i ↔
      map_get n m = Some i ∨ ∃ j p, i = o + j ∧ qs !! j = Some p ∧ place_name p = n) as H.
  { induction qs as [|q qs IH]; intros o m Hq Hm n i; simpl.
    { split; [by left|]. intros [?|(j & p & _ & Hp & _)]; [done|]. by rewrite lookup_nil in Hp. }
    apply NoDup_cons in Hq as [Hn Hq].
    rewrite (imap_ext _ (λ i p, (S o + i, p))) by (intros; simpl; f_equal; lia).
    rewrite IH, map_get_set; [|done|].
    - destruct (decide (n = place_name q)) as [->|Hne].
      + rewrite Hm by left. split.
        * intros [[= <-]|(j & p & -> & Hp & E)]; right; [exists 0, q; split_and!; [lia|done..]|].
          destruct Hn. rewrite <- E. apply list_elem_of_fmap_2. by eapply list_elem_of_lookup_2.
        * intros [?|([|j] & p & -> & Hp & E)]; [done|left; f_equal; lia|right].
          exists j, p. split_and!; [lia|done..].
      + split; (intros [?|H]; [by left|right]).
        * destruct H as (j & p & -> & Hp & E). exists (S j), p. split_and!; [lia|done..].
        * destruct H as ([|j] & p & -> & Hp & E); [simplify_eq/=|]. exists j, p. split_and!; [lia|done..].
    - intros k Hk. rewrite map_get_set. rewrite decide_False by (intros ->; done). apply Hm. by right. }
  intros n i. rewrite (imap_ext pair (λ i p, (0 + i, p))) by done. rewrite H; [|done|done].
  split; [intros [?|(j & p & -> & Hp & E)]; [done|eauto]|intros (p & Hp & E); right; eauto].
Qed.

Lemma ids_ok_compile net : ids_ok (allPlacesSet net).*2 (index_places (allPlacesSet net).*2).
Proof.
  destruct (allPlacesSet_keys net) as (H1 & H2 & _).
  apply index_places_ok. by rewrite names_of_entries.
Qed.

(** A place the net names has an identifier within range. *)
Lemma named_place_id net p : p ∈ named_places net →
  ∃ i, map_get (place_name p) (index_places (allPlacesSet net).*2) = Some i ∧ i < length (allPlacesSet net).*2.
Proof.
  intros Hp. destruct (allPlacesSet_keys net) as (_ & Hf & Hk). specialize (Hk p Hp).
  rewrite <- names_of_entries in Hk by done. apply list_elem_of_fmap in Hk as (q & Eq & Hq).
  apply list_elem_of_lookup in Hq as [i Hi]. exists i. split; [|by eapply lookup_lt_Some].
  apply ids_ok_compile. eauto.
Qed.

(** ** Masks *)

Definition in_range (words : nat) (pids : list nat) : Prop := Forall (λ p, p / 32 < words) pids.

Lemma foldl_setBit arr pids : words_ok arr → in_range (length arr) pids →
  words_ok (foldl setBit arr pids) ∧ length (foldl setBit arr pids) = length arr ∧
  ∀ k, bit_of (foldl setBit arr pids) k = true ↔ bit_of arr k = true ∨ k ∈ pids.
Proof.
  intros Hok Hr. revert arr Hok Hr. induction pids as [|p pids IH]; intros arr Hok Hr; simpl.
  { split_and!; [done|done|]. intros k. split; [by left|]. by intros [?|?%not_elem_of_nil]. }
  apply Forall_cons in Hr as [Hp Hr]. destruct (IH (setBit arr p)) as (H1 & H2 & H3).
  { by apply setBit_ok. }
  { by rewrite length_setBit. }
  split_and!; [done|by rewrite H2, length_setBit|]. intros k.
  rewrite H3, setBit_spec, orb_true_iff, Nat.eqb_eq, elem_of_cons by done. tauto.
Qed.

Lemma compile_inputs_spec tname ix seen specs needs pushes card x :
  compile_inputs tname ix seen specs needs pushes card = Ok x →
  x.1.1 = foldl setBit needs ((λ s, pid_of ix (in_place s)) <$> specs) ∧
  x.1.2 = pushes ++ ((λ s, pid_of ix (in_place s)) <$> specs) ∧
  x.2 = card || existsb (λ s, match s with InOne _ => false | _ => true end) specs ∧
  NoDup ((λ s, place_name (in_place s)) <$> specs).
Proof.
  assert (∀ needs pushes card, compile_inputs tname ix seen specs needs pushes card = Ok x →
    x.1.1 = foldl setBit needs ((λ s, pid_of ix (in_place s)) <$> specs) ∧
    x.1.2 = pushes ++ ((λ s, pid_of ix (in_place s)) <$> specs) ∧
    x.2 = card || existsb (λ s, match s with InOne _ => false | _ => true end) specs ∧
    NoDup ((λ s, place_name (in_place s)) <$> specs) ∧
    ∀ s, s ∈ specs → place_name (in_place s) ∉ seen) as H; [|intros Hx; apply H in Hx; tauto].
  clear needs pushes card. revert seen. induction specs as [|s specs IH]; intros seen needs pushes card; simpl.
  { intros [= <-]. simpl. rewrite app_nil_r, orb_false_r. split_and!; auto; [constructor|].
    intros s ?%not_elem_of_nil. done. }
  rewrite res_seq_ok, throw_if_ok, bool_decide_eq_false. intros [Hn (H1 & H2 & H3 & H4 & H5)%IH].
  rewrite H1, H2, H3, <- app_assoc, orb_assoc. split_and!; try done.
  - constructor; [|done]. intros (s' & E & Hs')%list_elem_of_fmap.
    apply (H5 s' Hs'). apply elem_of_set_add. by left.
  - intros s' [->|Hs']%elem_of_cons; [done|]. intros Hin. apply (H5 s' Hs'), elem_of_set_add. by right.
Qed.

(** The places of a transition's arcs, by their effect on enablement. *)
Definition needed_places t : list place := (in_place <$> inputSpecs t) ++ reads t.
Definition touched_places t : list place := (in_place <$> inputSpecs t) ++ reads t ++ inhibitors t ++ resets t.

Lemma compile_transition_spec ix words t r :
  compile_transition ix words t = Ok r →
  in_range words (pid_of ix <$> touched_places t) →
  (words_ok (r_needs r) ∧ ∀ k, bit_of (r_needs r) k = true ↔ k ∈ pid_of ix <$> needed_places t) ∧
  (words_ok (r_inhibitors r) ∧ ∀ k, bit_of (r_inhibitors r) k = true ↔ k ∈ pid_of ix <$> inhibitors t) ∧
  r_pushes r = pid_of ix <$> touched_places t ∧
  r_consumption r = set_union (set_of (pid_of ix <$> (in_place <$> inputSpecs t))) (pid_of ix <$> resets t) ∧
  r_card r = (if existsb (λ s, match s with InOne _ => false | _ => true end) (inputSpecs t)
              then Some ((λ s, (pid_of ix (in_place s), requiredCount s)) <$> inputSpecs t) else None) ∧
  r_match r = bool_decide (is_Some (t_matchSpec t)).
Proof.
  unfold compile_transition. intros H Hr. apply res_bind_ok in H as ([[needs pushes] card] & Hx & H).
  apply compile_inputs_spec in Hx as (E1 & E2 & E3 & _). simpl in E1, E2, E3. subst.
  injection H as <-. cbn [r_needs r_inhibitors r_pushes r_consumption r_card r_match].
  unfold touched_places, in_range in Hr. rewrite !fmap_app, !Forall_app in Hr. destruct Hr as (Hi & Hrd & Hin & _).
  rewrite <- list_fmap_compose in Hi. unfold compose in Hi.
  destruct (foldl_setBit (new_words words) ((λ s, pid_of ix (in_place s)) <$> inputSpecs t)) as (A1 & A2 & A3).
  { apply new_words_ok. }
  { unfold new_words. by rewrite length_replicate. }
  destruct (foldl_setBit (foldl setBit (new_words words) ((λ s, pid_of ix (in_place s)) <$> inputSpecs t)) (pid_of ix <$> reads t)) as (B1 & B2 & B3).
  { done. }
  { rewrite A2. unfold new_words. by rewrite length_replicate. }
  destruct (foldl_setBit (new_words words) (pid_of ix <$> inhibitors t)) as (C1 & C2 & C3).
  { apply new_words_ok. }
  { unfold new_words. by rewrite length_replicate. }
  unfold needed_places, touched_places. rewrite !fmap_app, <- !list_fmap_compose. split_and!; try done.
  - intros k. rewrite B3, A3, bit_of_new, elem_of_app. naive_solver.
  - intros k. rewrite C3, bit_of_new. naive_solver.
Qed.

Lemma compile_rows_lookup ix words ts rows tid t :
  compile_rows ix words ts = Ok rows → ts !! tid = Some t →
  ∃ r, rows !! tid = Some r ∧ compile_transition ix words t = Ok r.
Proof.
  revert tid rows. induction ts as [|t' ts IH]; intros tid rows; [done|]. simpl.
  intros (r & Hr & (rs & Hrs & [= <-])%res_bind_ok)%res_bind_ok.
  destruct tid as [|tid]; simpl; [intros [= <-]; eauto|]. by apply IH.
Qed.

Lemma compile_rows_length ix words ts rows : compile_rows ix words ts = Ok rows → length rows = length ts.
Proof.
  revert rows. induction ts as [|t ts IH]; intros rows; simpl; [by intros [= <-]|].
  intros (r & _ & (rs & Hrs & [= <-])%res_bind_ok)%res_bind_ok. simpl. f_equal. by apply IH.
Qed.

(** Identifiers fit the bitmaps: [ceil(n / 32)] words hold [n] bits. *)
Lemma words_enough n i : i < n →
  i / 32 < Z.to_nat (Z.shiftr (Z.of_nat n + BIT_MASK) WORD_SHIFT).
Proof.
  intros Hi. unfold BIT_MASK, WORD_SHIFT. rewrite Z.shiftr_div_pow2 by lia.
  change (2 ^ 5)%Z with 32%Z. replace (Z.of_nat n + 31)%Z with (Z.of_nat (n + 31)) by lia.
  change 32%Z with (Z.of_nat 32). rewrite <- Nat2Z.inj_div, Nat2Z.id.
  pose proof (Nat.div_mod_eq i 32). pose proof (Nat.mod_upper_bound i 32).
  pose proof (Nat.div_mod_eq (n + 31) 32). pose proof (Nat.mod_upper_bound (n + 31) 32). lia.
Qed.

(** ** A compiled net *)

Lemma compile_inv isP net c : compile isP net = Ok c →
  ∃ rows, compile_rows (placeIndex c) (wordCount c) (net_transitions net) = Ok rows ∧
    c_transitions c = net_transitions net ∧ placesById c = (allPlacesSet net).*2 ∧
    placeIndex c = index_places (allPlacesSet net).*2 ∧
    wordCount c = Z.to_nat (Z.shiftr (Z.of_nat (placeCount c) + BIT_MASK) WORD_SHIFT) ∧
    needsMask c = r_needs <$> rows ∧ inhibitorMask c = r_inhibitors <$> rows ∧
    placeToTransitions c = reverse_index rows <$> seq 0 (placeCount c) ∧
    consumptionIds c = r_consumption <$> rows ∧ cardinalityChecks c = r_card <$> rows ∧ hasMatches c = r_match <$> rows.
Proof.
  unfold compile. rewrite res_seq_ok. intros [_ (rows & Hrows & [= <-])%res_bind_ok]. eauto 20.
Qed.

Lemma touched_named net tid t p :
  net_transitions net !! tid = Some t → p ∈ touched_places t → p ∈ named_places net.
Proof.
  intros Ht Hp. unfold named_places. apply elem_of_app. left. rewrite list_elem_of_bind.
  exists t. split; [|by eapply list_elem_of_lookup_2].
  unfold touched_places in Hp. rewrite !elem_of_app in *. tauto.
Qed.

Lemma tryPlaceId_named isP net c p : compile isP net = Ok c → p ∈ named_places net →
  ∃ i, tryPlaceId c p = Some i ∧ i < placeCount c ∧ pid_of (placeIndex c) p = i.
Proof.
  intros (rows & _ & _ & Eps & Eix & _)%compile_inv Hp. unfold tryPlaceId, placeCount, pid_of.
  rewrite Eix, Eps. destruct (named_place_id net p Hp) as (i & -> & Hi). eauto.
Qed.

Lemma compiled_row isP net c tid t : compile isP net = Ok c → net_transitions net !! tid = Some t →
  ∃ rows r, compile_rows (placeIndex c) (wordCount c) (net_transitions net) = Ok rows ∧ rows !! tid = Some r ∧
    compile_transition (placeIndex c) (wordCount c) t = Ok r ∧
    in_range (wordCount c) (pid_of (placeIndex c) <$> touched_places t).
Proof.
  intros Hc Ht. pose proof (compile_inv _ _ _ Hc) as (rows & Hrows & _ & _ & _ & Ew & _).
  destruct (compile_rows_lookup _ _ _ _ _ _ Hrows Ht) as (r & Hr & Hct). exists rows, r. split_and!; try done.
  apply Forall_fmap, Forall_forall. intros p Hp. unfold compose.
  destruct (tryPlaceId_named isP net c p Hc) as (i & _ & Hi & ->); [by eapply touched_named|].
  rewrite Ew. by apply words_enough.
Qed.

Lemma elem_of_pids isP net c tid t p (ps : list place) k : compile isP net = Ok c → net_transitions net !! tid = Some t →
  (∀ q, q ∈ ps → q ∈ touched_places t) → p ∈ ps →
  pid_of (placeIndex c) p = k ↔ tryPlaceId c p = Some k.
Proof.
  intros Hc Ht Hs Hp. destruct (tryPlaceId_named isP net c p Hc) as (i & -> & _ & ->); [|naive_solver].
  eapply touched_named; [done|]. auto.
Qed.

(** The bitmap check reads the bits of the needed and inhibiting places. *)
Lemma canEnableBitmap_spec isP net c tid t snapshot :
  compile isP net = Ok c → net_transitions net !! tid = Some t →
  canEnableBitmap c tid snapshot = true ↔
  (∀ p, p ∈ needed_places t → ∃ pid, tryPlaceId c p = Some pid ∧ bit_of snapshot pid = true) ∧
  (∀ p, p ∈ inhibitors t → ∃ pid, tryPlaceId c p = Some pid ∧ bit_of snapshot pid = false).
Proof.
  intros Hc Ht. pose proof (compile_inv _ _ _ Hc) as (rows' & Hrows' & _ & _ & _ & _ & En & Ei & _).
  destruct (compiled_row isP net c tid t Hc Ht) as (rows & r & Hrows & Hr & Hct & Hrange).
  rewrite Hrows in Hrows'. injection Hrows' as <-.
  destruct (compile_transition_spec _ _ _ _ Hct Hrange) as ((Hok & Hn) & (_ & Hinh) & _).
  unfold canEnableBitmap. rewrite En, Ei, !list_lookup_fmap, Hr. simpl.
  assert (∀ p, p ∈ needed_places t → ∃ pid, tryPlaceId c p = Some pid ∧ pid_of (placeIndex c) p = pid) as Hnp.
  { intros p Hp. destruct (tryPlaceId_named isP net c p Hc) as (i & ? & _ & ?); [|eauto].
    eapply touched_named; [done|]. unfold needed_places, touched_places in *. rewrite !elem_of_app in *. tauto. }
  assert (∀ p, p ∈ inhibitors t → ∃ pid, tryPlaceId c p = Some pid ∧ pid_of (placeIndex c) p = pid) as Hip.
  { intros p Hp. destruct (tryPlaceId_named isP net c p Hc) as (i & ? & _ & ?); [|eauto].
    eapply touched_named; [done|]. unfold touched_places. rewrite !elem_of_app. tauto. }
  trans (containsAll snapshot (r_needs r) = true ∧ intersects snapshot (r_inhibitors r) = false).
  { destruct (containsAll snapshot (r_needs r)), (intersects snapshot (r_inhibitors r)); simpl; naive_solver. }
  rewrite containsAll_spec by done. f_equiv.
  - split.
    + intros H p Hp. destruct (Hnp p Hp) as (pid & E & E'). exists pid. split; [done|].
      apply H, Hn. rewrite <- E'. by apply list_elem_of_fmap_2.
    + intros H b (p & -> & Hp)%Hn%list_elem_of_fmap. destruct (H p Hp) as (pid & E & Hb).
      destruct (Hnp p Hp) as (pid' & E' & ->). congruence.
  - rewrite <- not_true_iff_false, intersects_spec. split.
    + intros H p Hp. destruct (Hip p Hp) as (pid & E & E'). exists pid. split; [done|].
      apply not_true_iff_false. intros Hb. apply H. exists pid. split; [|done].
      apply Hinh. rewrite <- E'. by apply list_elem_of_fmap_2.
    + intros H (b & (p & -> & Hp)%Hinh%list_elem_of_fmap & Hb). destruct (H p Hp) as (pid & E & Hb').
      destruct (Hip p Hp) as (pid' & E' & E2). congruence.
Qed.

Lemma elem_of_imap_pair {A} (l : list A) x : x ∈ imap pair l ↔ l !! x.1 = Some x.2.
Proof.
  rewrite elem_of_lookup_imap. split.
  - intros (i & y & -> & Hi). done.
  - intros H. exists x.1, x.2. by destruct x.
Qed.

Lemma affected_spec isP net c pid tid :
  compile isP net = Ok c →
  tid ∈ affectedTransitions c pid ↔
  ∃ t p, net_transitions net !! tid = Some t ∧ p ∈ touched_places t ∧ tryPlaceId c p = Some pid.
Proof.
  intros Hc. pose proof (compile_inv _ _ _ Hc) as (rows & Hrows & _ & _ & _ & _ & _ & _ & Er & _).
  pose proof (compile_rows_length _ _ _ _ Hrows) as Hlen.
  assert (tid ∈ reverse_index rows pid ↔ ∃ r, rows !! tid = Some r ∧ pid ∈ r_pushes r) as Hrev.
  { unfold reverse_index. rewrite elem_of_set_of, list_elem_of_bind.
    setoid_rewrite elem_of_imap_pair. setoid_rewrite list_elem_of_fmap. setoid_rewrite list_elem_of_filter.
    split; [intros ([i r] & (q & -> & -> & Hq) & Hi); eauto|intros (r & Hr & Hp); exists (tid, r); eauto 10]. }
  unfold affectedTransitions. rewrite Er, list_lookup_fmap.
  assert (∀ r t, rows !! tid = Some r → net_transitions net !! tid = Some t →
    r_pushes r = pid_of (placeIndex c) <$> touched_places t) as Hpush.
  { intros r t Hr Ht. destruct (compiled_row isP net c tid t Hc Ht) as (rows' & r' & Hrows' & Hr' & Hct & Hrange).
    rewrite Hrows in Hrows'. injection Hrows' as <-. rewrite Hr in Hr'. injection Hr' as <-.
    by destruct (compile_transition_spec _ _ _ _ Hct Hrange) as (_ & _ & ? & _). }
  destruct (decide (pid < placeCount c)) as [Hlt|Hge].
  - rewrite lookup_seq_lt by done. simpl. rewrite Hrev. split.
    + intros (r & Hr & Hp). destruct (lookup_lt_is_Some_2 (net_transitions net) tid) as [t Ht].
      { rewrite <- Hlen. by eapply lookup_lt_Some. }
      rewrite (Hpush r t) in Hp by done. apply list_elem_of_fmap in Hp as (p & -> & Hp).
      exists t, p. split_and!; [done|done|].
      apply (elem_of_pids isP net c tid t p (touched_places t) _ Hc Ht); done.
    + intros (t & p & Ht & Hp & E). destruct (compiled_row isP net c tid t Hc Ht) as (rows' & r & Hrows' & Hr & _ & _).
      rewrite Hrows in Hrows'. injection Hrows' as <-. exists r. split; [done|]. rewrite (Hpush r t) by done.
      apply (elem_of_pids isP net c tid t p (touched_places t) _ Hc Ht) in E; [|done|done]. subst.
      by apply list_elem_of_fmap_2.
  - rewrite lookup_ge_None_2 by (rewrite length_seq; lia). simpl. split; [intros ?%not_elem_of_nil; done|].
    intros (t & p & Ht & Hp & E). destruct (tryPlaceId_named isP net c p Hc) as (i & E' & Hi & _).
    { by eapply touched_named. }
    rewrite E in E'. injection E' as <-. lia.
Qed.

Lemma NoDup_affected isP net c pid : compile isP net = Ok c → NoDup (affectedTransitions c pid).
Proof.
  intros (rows & _ & _ & _ & _ & _ & _ & _ & Er & _)%compile_inv. unfold affectedTransitions.
  rewrite Er, list_lookup_fmap. destruct (seq 0 (placeCount c) !! pid); simpl; [apply NoDup_set_of|constructor].
Qed.

(** When compilation succeeds. *)
Lemma compile_inputs_ok tname ix seen specs needs pushes card :
  NoDup ((λ s, place_name (in_place s)) <$> specs) → (∀ s, s ∈ specs → place_name (in_place s) ∉ seen) →
  is_ok (compile_inputs tname ix seen specs needs pushes card).
Proof.
  revert seen needs pushes card. induction specs as [|s specs IH]; intros seen needs pushes card; simpl; [done|].
  intros [Hn Hd]%NoDup_cons Hs. unfold throw_if. rewrite bool_decide_false by (apply Hs; left). simpl.
  apply IH; [done|]. intros s' Hs'. rewrite elem_of_set_add. intros [E|Hin].
  - apply Hn. rewrite <- E. by apply (list_elem_of_fmap_2 (λ s, place_name (in_place s))).
  - by apply (Hs s'); [right|].
Qed.
End Compile.
Arguments compiled : clear implicits.

Section Thresholds.
Context {V : Type}.
Implicit Types (t : transition V) (c : compiled V) (x : threshold_cell).

(** Transition [t] requires [n] tokens at place [pid], through an input or a read arc. *)
Definition requires_at c pid t (n : Z) : Prop :=
  (∃ s, s ∈ inputSpecs t ∧ tryPlaceId c (in_place s) = Some pid ∧ n = requiredCount s) ∨
  (∃ p, p ∈ reads t ∧ tryPlaceId c p = Some pid ∧ n = 1%Z).

Definition drains_at c pid t : Prop := ∃ p, p ∈ resets t ∧ tryPlaceId c p = Some pid.

Definition correlates_at c pid t : Prop :=
  ∃ ms k, t_matchSpec t = Some ms ∧ k ∈ ms_keys ms ∧ tryPlaceId c (mk_place_of k) = Some pid.

(** What the cell records after the transitions [ts], each with its identifier. *)
Definition cell_inv c pid (ts : list (nat * transition V)) x : Prop :=
  (∀ e n, e ∈ ts → requires_at c pid e.2 n → jnum_ltb (cell_threshold x) (Fin n) = false) ∧
  (∀ e, e ∈ ts → correlates_at c pid e.2 → cell_threshold x = Infinity) ∧
  (∀ e, e ∈ ts → drains_at c pid e.2 → cell_drained x = true) ∧
  match cell_requirer x with
  | RNone => ∀ e n, e ∈ ts → ¬ requires_at c pid e.2 n
  | ROne tid => ∀ e n, e ∈ ts → requires_at c pid e.2 n → e.1 = tid
  | RSeveral => True
  end.

Lemma jnum_max_ge_l a b z : jnum_ltb a z = false → jnum_ltb (jnum_max a b) z = false.
Proof. unfold jnum_max. destruct a, b, z; simpl; try done; intros; repeat case_bool; b2p; simpl; try apply Z.ltb_ge; lia || done. Qed.
Lemma jnum_max_ge_r a b : jnum_ltb (jnum_max a b) b = false.
Proof. unfold jnum_max. destruct a, b; simpl; try done; repeat case_bool; b2p; simpl; try apply Z.ltb_ge; lia || done. Qed.
Lemma jnum_max_Inf a b : a = Infinity → jnum_max a b = Infinity.
Proof. by intros ->. Qed.

(** The three facts a pass over arcs keeps growing, relative to the arcs already passed. *)
Definition raise (n : Z) (tid : nat) x : threshold_cell :=
  Cell (jnum_max (cell_threshold x) (Fin n)) (requires tid (cell_requirer x)) (cell_drained x).

Definition req_known (tid : nat) (r : requirer) : Prop := match r with RNone => False | ROne t' => t' = tid | RSeveral => True end.
Definition req_le (r r' : requirer) : Prop := r = r' ∨ r = RNone ∨ r' = RSeveral.

Lemma requires_known tid r : req_known tid (requires tid r).
Proof. destruct r; simpl; try done. by case_decide; simpl. Qed.
Lemma requires_le tid r : req_le r (requires tid r).
Proof. unfold req_le. destruct r; simpl; auto. case_decide; subst; auto. Qed.
Lemma req_le_trans a b d : req_le a b → req_le b d → req_le a d.
Proof. unfold req_le. intros ? ?. destruct_or!; subst; auto; discriminate. Qed.
Lemma req_known_le tid r r' : req_known tid r → req_le r r' → req_known tid r'.
Proof. unfold req_le. intros H [-> | [-> | ->]]; simpl in *; done. Qed.

(** Growth of a cell. *)
Definition cell_le x x' : Prop :=
  (∀ z, jnum_ltb (cell_threshold x) z = false → jnum_ltb (cell_threshold x') z = false) ∧
  (cell_threshold x = Infinity → cell_threshold x' = Infinity) ∧
  (cell_drained x = true → cell_drained x' = true) ∧ req_le (cell_requirer x) (cell_requirer x').

#[local] Instance cell_le_refl : Reflexive cell_le.
Proof. intros x. unfold cell_le, req_le. auto. Qed.
#[local] Instance cell_le_trans : Transitive cell_le.
Proof.
  intros x y z (A1 & A2 & A3 & A4) (B1 & B2 & B3 & B4). split_and!; auto. by eapply req_le_trans.
Qed.

Lemma raise_le n tid x : cell_le x (raise n tid x).
Proof. split_and!; simpl; auto using jnum_max_ge_l, jnum_max_Inf, requires_le. Qed.

(** A loop over arcs: it only grows the cell, and each selected arc leaves its mark. *)
Lemma arcs_fold {A} (sel : A → Prop) `{∀ a, Decision (sel a)} (f : A → threshold_cell → threshold_cell)
    (Q : A → threshold_cell → Prop) l x :
  (∀ a x, cell_le x (f a x)) → (∀ a x, Q a (f a x)) → (∀ a x x', cell_le x x' → Q a x → Q a x') →
  let x' := foldl (λ x a, if decide (sel a) then f a x else x) x l in
  cell_le x x' ∧ ∀ a, a ∈ l → sel a → Q a x'.
Proof.
  intros Hf HQ Hmono. revert x. induction l as [|a l IH]; intros x; simpl.
  { split; [done|]. intros a ?%not_elem_of_nil. done. }
  destruct (IH (if decide (sel a) then f a x else x)) as [Hle Hl]. split.
  - trans (if decide (sel a) then f a x else x); [by case_decide|done].
  - intros b [->|Hb]%elem_of_cons Hsel; [|by apply Hl].
    eapply Hmono; [exact Hle|]. by rewrite decide_True.
Qed.

Definition marked (n : Z) (tid : nat) x : Prop :=
  jnum_ltb (cell_threshold x) (Fin n) = false ∧ req_known tid (cell_requirer x).

Lemma marked_mono n tid x x' : cell_le x x' → marked n tid x → marked n tid x'.
Proof. intros (H1 & _ & _ & H4) [? ?]. split; [auto|by eapply req_known_le]. Qed.

Lemma raise_marked n tid x : marked n tid (raise n tid x).
Proof. split; simpl; [apply jnum_max_ge_r|apply requires_known]. Qed.

Lemma threshold_step_spec c pid tid t x :
  let x' := threshold_step c pid tid t x in
  cell_le x x' ∧ (∀ n, requires_at c pid t n → marked n tid x') ∧
  (drains_at c pid t → cell_drained x' = true) ∧ (correlates_at c pid t → cell_threshold x' = Infinity).
Proof.
  unfold threshold_step. cbv zeta.
  match goal with |- context [foldl ?f x (inputSpecs t)] => set (x1 := foldl f x (inputSpecs t)) end.
  match goal with |- context [foldl ?f x1 (reads t)] => set (x2 := foldl f x1 (reads t)) end.
  match goal with |- context [foldl ?f x2 (resets t)] => set (x3 := foldl f x2 (resets t)) end.
  destruct (arcs_fold (λ s, tryPlaceId c (in_place s) = Some pid) (λ s, raise (requiredCount s) tid)
    (λ s, marked (requiredCount s) tid) (inputSpecs t) x) as [L1 M1];
    [intros; apply raise_le|intros; apply raise_marked|intros; by eapply marked_mono|].
  destruct (arcs_fold (λ p, tryPlaceId c p = Some pid) (λ _, raise 1 tid)
    (λ _, marked 1 tid) (reads t) x1) as [L2 M2];
    [intros; apply raise_le|intros; apply raise_marked|intros; by eapply marked_mono|].
  destruct (arcs_fold (λ p, tryPlaceId c p = Some pid) (λ _ x, Cell (cell_threshold x) (cell_requirer x) true)
    (λ _ x, cell_drained x = true) (resets t) x2) as [L3 M3];
    [intros; split_and!; simpl; auto; by left|done|intros ??? (_ & _ & ? & _); auto|].
  change (cell_le x x1) in L1. change (cell_le x1 x2) in L2. change (cell_le x2 x3) in L3.
  assert (∀ x4, cell_le x3 x4 → cell_le x x4 ∧ (∀ n, requires_at c pid t n → marked n tid x4) ∧
    (drains_at c pid t → cell_drained x4 = true)) as H4.
  { intros x4 L4. split_and!.
    - trans x1; [done|]. trans x2; [done|]. by trans x3.
    - intros n [(s & Hs & Hp & ->)|(p & Hp & Hpid & ->)].
      + eapply (marked_mono _ _ x1); [trans x2; [done|by trans x3]|by apply M1].
      + eapply (marked_mono _ _ x2); [by trans x3|by eapply M2].
    - intros (p & Hp & Hpid). destruct L4 as (_ & _ & L4 & _). apply L4. by eapply M3. }
  destruct (t_matchSpec t) as [ms|] eqn:Ems.
  - destruct (arcs_fold (λ k, tryPlaceId c (mk_place_of k) = Some pid) (λ _ x, Cell Infinity (cell_requirer x) (cell_drained x))
      (λ _ x, cell_threshold x = Infinity) (ms_keys ms) x3) as [L4 M4];
      [intros; split_and!; simpl; auto; by left|done|intros ??? (_ & ? & _ & _); auto|].
    destruct (H4 _ L4) as (? & ? & ?). split_and!; auto.
    intros (ms' & k & E & Hk & Hp). simplify_eq. by eapply M4.
  - destruct (H4 x3) as (? & ? & ?); [done|]. split_and!; auto. intros (ms' & k & E & _). congruence.
Qed.

Lemma cell_inv_step c pid es e x :
  cell_inv c pid es x → cell_inv c pid (es ++ [e]) (threshold_step c pid e.1 e.2 x).
Proof.
  intros (I1 & I2 & I3 & I4).
  destruct (threshold_step_spec c pid e.1 e.2 x) as ((L1 & L2 & L3 & L4) & M & D & K).
  split_and!.
  - intros e' n [He|He%list_elem_of_singleton]%elem_of_app Hr; [eauto|]. subst. by destruct (M n Hr).
  - intros e' [He|He%list_elem_of_singleton]%elem_of_app Hr; [eauto|]. subst. auto.
  - intros e' [He|He%list_elem_of_singleton]%elem_of_app Hr; [eauto|]. subst. auto.
  - destruct (cell_requirer (threshold_step c pid e.1 e.2 x)) as [|tid|] eqn:E; [| |done].
    + intros e' n [He|He%list_elem_of_singleton]%elem_of_app Hr.
      * destruct L4 as [El|[El|El]]; [| |congruence]; rewrite El in I4; by eapply I4.
      * subst. destruct (M n Hr) as [_ Hk]. by rewrite E in Hk.
    + intros e' n [He|He%list_elem_of_singleton]%elem_of_app Hr.
      * destruct L4 as [El|[El|El]]; [| |congruence]; rewrite El in I4; [eauto|].
        by destruct (I4 e' n He).
      * subst. destruct (M n Hr) as [_ Hk]. by rewrite E in Hk.
Qed.

Lemma cell_inv_fold c pid es' es x :
  cell_inv c pid es x → cell_inv c pid (es ++ es') (foldl (λ x e, threshold_step c pid e.1 e.2 x) x es').
Proof.
  revert es x. induction es' as [|e es' IH]; intros es x H; simpl; [by rewrite app_nil_r|].
  replace (es ++ e :: es') with ((es ++ [e]) ++ es') by (by rewrite <- app_assoc).
  by apply IH, cell_inv_step.
Qed.

Lemma restart_threshold_sound c pid tid t n :
  c_transitions c !! tid = Some t → requires_at c pid t n →
  (jnum_ltb (restart_threshold c pid) (Fin n) = false ∧
   ∀ t', t' ∈ c_transitions c → correlates_at c pid t' → restart_threshold c pid = Infinity) ∨
  (∀ tid' t', c_transitions c !! tid' = Some t' → (∀ m, requires_at c pid t' m → tid' = tid) ∧ ¬ drains_at c pid t').
Proof.
  intros Ht Hr. pose proof (cell_inv_fold c pid (imap pair (c_transitions c)) [] (Cell (Fin 0) RNone false)) as Hinv.
  simpl in Hinv. destruct Hinv as (I1 & I2 & I3 & I4).
  { split_and!; [intros ?? He|intros ? He|intros ? He|intros ?? He]; by apply not_elem_of_nil in He. }
  unfold restart_threshold. set (x := foldl _ _ _) in *.
  assert ((tid, t) ∈ imap pair (c_transitions c)) as Hin by (by apply elem_of_imap_pair).
  assert (∀ t', t' ∈ c_transitions c → correlates_at c pid t' → cell_threshold x = Infinity) as Hc.
  { intros t' [tid' Ht']%list_elem_of_lookup Hk. apply (I2 (tid', t')); [by apply elem_of_imap_pair|done]. }
  destruct (cell_requirer x) as [|tid0|] eqn:Er.
  - exfalso. exact (I4 (tid, t) n Hin Hr).
  - destruct (cell_drained x) eqn:Ed.
    + left. split; [exact (I1 (tid, t) n Hin Hr)|done].
    + right. intros tid' t' Ht'. assert ((tid', t') ∈ imap pair (c_transitions c)) as Hin' by (by apply elem_of_imap_pair).
      split.
      * intros m Hm. pose proof (I4 (tid, t) n Hin Hr). pose proof (I4 (tid', t') m Hin' Hm). simpl in *. congruence.
      * intros Hd. specialize (I3 (tid', t') Hin' Hd). congruence.
  - left. split; [exact (I1 (tid, t) n Hin Hr)|done].
Qed.
End Thresholds.

(** ** Properties *)

(** The bitmap fast path decides presence and inhibition: over any marking bitmap it answers
    that every input and read place of the transition has its bit set and no inhibitor place
    has, through identifiers the compiled net assigns to every one of those places. *)
Theorem canEnableBitmap_presence {V} isP (net : petri_net V) c tid t snapshot :
  compile isP net = Ok c → net_transitions net !! tid = Some t →
  canEnableBitmap c tid snapshot = true ↔
  (∀ p, p ∈ needed_places t → ∃ pid, tryPlaceId c p = Some pid ∧ bit_of snapshot pid = true) ∧
  (∀ p, p ∈ inhibitors t → ∃ pid, tryPlaceId c p = Some pid ∧ bit_of snapshot pid = false).
Proof. apply canEnableBitmap_spec. Qed.

Definition example_transition : transition nat :=
  Transition (js "t") [InOne (Place 0 (js "a")); InExactly (Place 1 (js "b")) 2] None [Place 2 (js "c")]
    [Place 3 (js "d")] [Place 4 (js "e")] immediate None 0 [] None.
Definition example_transition2 : transition nat :=
  Transition (js "u") [InOne (Place 1 (js "b"))] (Some (OutPlace (Place 0 (js "a")))) []
    [] [] immediate None 0 [] None.
Definition example_net : petri_net nat :=
  PetriNet (js "net") [] [example_transition; example_transition2] [].
Definition example_compiled : compiled nat :=
  match compile (λ _, false) example_net with Ok c => c | Err _ => Compiled [] [] [] 0 [] [] [] [] [] [] None end.

Lemma canEnableBitmap_presence_witness :
  canEnableBitmap example_compiled 0 [7]%Z = true ∧
  ((∀ p, p ∈ needed_places example_transition →
     ∃ pid, tryPlaceId example_compiled p = Some pid ∧ bit_of [7]%Z pid = true) ∧
   (∀ p, p ∈ inhibitors example_transition →
     ∃ pid, tryPlaceId example_compiled p = Some pid ∧ bit_of [7]%Z pid = false)).
Proof.
  assert (canEnableBitmap example_compiled 0 [7]%Z = true) as E by (vm_compute; reflexivity).
  split; [exact E|].
  apply (canEnableBitmap_presence (λ _, false) example_net example_compiled 0 example_transition [7]%Z); done.
Defined.

(** The reverse index is exact: the transitions re-evaluated when a place's tokens change are
    those with an input, read, inhibitor or reset arc on the place, each once. *)
Theorem affectedTransitions_exact {V} isP (net : petri_net V) c pid :
  compile isP net = Ok c →
  NoDup (affectedTransitions c pid) ∧
  ∀ tid, tid ∈ affectedTransitions c pid ↔
    ∃ t p, net_transitions net !! tid = Some t ∧ p ∈ touched_places t ∧ tryPlaceId c p = Some pid.
Proof.
  intros Hc. split; [by eapply NoDup_affected|]. intros tid. by eapply affected_spec.
Qed.

Lemma affectedTransitions_exact_witness :
  affectedTransitions example_compiled 1 = [0; 1] ∧
  (NoDup (affectedTransitions example_compiled 1) ∧
   ∀ tid, tid ∈ affectedTransitions example_compiled 1 ↔
     ∃ t p, net_transitions example_net !! tid = Some t ∧ p ∈ touched_places t ∧ tryPlaceId example_compiled p = Some 1).
Proof.
  split; [by vm_compute|].
  apply (affectedTransitions_exact (λ _, false) example_net example_compiled 1). reflexivity.
Defined.

(** A clock-restart threshold is safe: for every arc that requires [n] tokens at a place,
    either the threshold is at least [n] and infinite wherever a join correlates the place, so
    that a count at or above it leaves every requirement intact, or no other transition
    requires the place and no reset drains it. *)
Theorem restartThresholds_safe {V} isP (net : petri_net V) c pid tid t n :
  compile isP net = Ok c → net_transitions net !! tid = Some t → requires_at c pid t n →
  ∃ thr, restartThresholds c !! pid = Some thr ∧
  ((jnum_ltb thr (Fin n) = false ∧
    ∀ t', t' ∈ net_transitions net → correlates_at c pid t' → thr = Infinity) ∨
   (∀ tid' t', net_transitions net !! tid' = Some t' →
      (∀ m, requires_at c pid t' m → tid' = tid) ∧ ¬ drains_at c pid t')).
Proof.
  intros Hc Ht Hr. pose proof (compile_inv _ _ _ Hc) as (rows & _ & Et & _).
  exists (restart_threshold c pid). split.
  - unfold restartThresholds. rewrite list_lookup_fmap, lookup_seq_lt; [done|].
    assert (∃ p, p ∈ touched_places t ∧ tryPlaceId c p = Some pid) as (p & Hp & E).
    { unfold touched_places. destruct Hr as [(s & Hs & E & _)|(p & Hp & E & _)].
      - exists (in_place s). split; [|done]. rewrite elem_of_app. left. by apply list_elem_of_fmap_2.
      - exists p. split; [|done]. rewrite !elem_of_app. auto. }
    destruct (tryPlaceId_named isP net c p Hc (touched_named net tid t p Ht Hp)) as (i & E' & Hi & _).
    rewrite E in E'. by injection E' as <-.
  - rewrite <- Et in *. by apply (restart_threshold_sound c pid tid t).
Qed.

Lemma restartThresholds_safe_witness :
  restartThresholds example_compiled = [Fin 0; Fin 2; Fin 0; Fin 0; Fin 0]%Z ∧
  ∃ thr, restartThresholds example_compiled !! 1 = Some thr ∧
  ((jnum_ltb thr (Fin 2) = false ∧
    ∀ t', t' ∈ net_transitions example_net → correlates_at example_compiled 1 t' → thr = Infinity) ∨
   (∀ tid' t', net_transitions example_net !! tid' = Some t' →
      (∀ m, requires_at example_compiled 1 t' m → tid' = 0) ∧ ¬ drains_at example_compiled 1 t')).
Proof.
  split; [by vm_compute|].
  apply (restartThresholds_safe (λ _, false) example_net example_compiled 1 0 example_transition 2); [done|done|].
  left. exists (InExactly (Place 1 (js "b")) 2). split_and!; [right; left|by vm_compute|done].
Defined.
