(* ===== verification/OutputCheck.v ===== *)
(** * Output validation

    [src/typescript/src/runtime/executor-support.ts]: the exact-explanation search over the
    output specification, the relay check of joins and the execution scope. A [Set] of names is
    a list without duplicates in insertion order. Error texts are constructors. *)
From S2P Require Import Prelude.
From S2P Require Import Net.
From S2P Require Import Out.
From S2P Require Import OutSpec.
From S2P Require Import Transition.
From stdpp Require Import pretty.

(** ** [validateOutSpec] *)

Inductive out_violation :=
| NoBranchClaims
| AmbiguousOutputSet
| RelayMismatch (place : jsstr) (found matched : option name_id).

(** The default order of [Array.prototype.sort] on strings: by code units. *)
Definition js_le (a b : jsstr) : Prop := js_ltb b a = false.
#[export] Instance js_le_dec : RelDecision js_le := λ a b, decide (js_ltb b a = false).

(** [names.join('\u0000')] *)
Fixpoint join_nul (names : list jsstr) : jsstr :=
  match names with
  | [] => []
  | [n] => n
  | n :: names' => n ++ 0%Z :: join_nul names'
  end.

Definition claim_key (claim : list jsstr) : jsstr := join_nul (merge_sort js_le claim).

(** The loop of [capMultiplicity]. *)
Fixpoint cap_loop (seen : list (jsstr * nat)) (claims : list (list jsstr)) : list (list jsstr) :=
  match claims with
  | [] => []
  | claim :: rest =>
      let n := default 0 (map_get (claim_key claim) seen) in
      if 2 <=? n then cap_loop seen rest
      else claim :: cap_loop (map_set (claim_key claim) (n + 1) seen) rest
  end.
Definition capMultiplicity (claims : list (list jsstr)) : list (list jsstr) :=
  if length claims <? 3 then claims else cap_loop [] claims.

Fixpoint spec_walk (o : out) (names : list jsstr) : list jsstr :=
  match o with
  | OutPlace p => set_add (place_name p) names
  | OutForwardInput _ t => set_add (place_name t) names
  | OutTimeout _ c => spec_walk c names
  | OutXor cs | OutAnd cs => foldl (λ acc c, spec_walk c acc) names cs
  end.
Definition specNames (o : out) : list jsstr := spec_walk o [].

(** The double loop of the [and] case. *)
Definition merge_claims (acc childClaims : list (list jsstr)) : list (list jsstr) :=
  partial ← acc; claim ← childClaims; [set_union partial claim].

Fixpoint claimsWithin (o : out) (produced : list jsstr) : list (list jsstr) :=
  match o with
  | OutPlace p => if bool_decide (place_name p ∈ produced) then [[place_name p]] else []
  | OutForwardInput _ t => if bool_decide (place_name t ∈ produced) then [[place_name t]] else []
  | OutTimeout _ c => claimsWithin c produced
  | OutXor cs => capMultiplicity (foldl (λ acc c, acc ++ claimsWithin c produced) [] cs)
  | OutAnd cs =>
      (fix join (l : list out) (acc : list (list jsstr)) := match l with
        | [] => acc
        | c :: l' =>
            let childClaims := claimsWithin c produced in
            if bool_decide (length childClaims = 0) then []
            else join l' (capMultiplicity (merge_claims acc childClaims))
        end) cs [[]]
  end.

(** The claims of the produced size, collected until there are two. *)
Fixpoint exact_claims (relevant : nat) (claims exact : list (list jsstr)) : list (list jsstr) :=
  match claims with
  | [] => exact
  | claim :: rest =>
      if length claim =? relevant
      then if 1 <? length (exact ++ [claim]) then exact ++ [claim]
           else exact_claims relevant rest (exact ++ [claim])
      else exact_claims relevant rest exact
  end.

Definition validateOutSpec (spec : out) (produced : list jsstr) : result out_violation (list jsstr) :=
  let named := specNames spec in
  let relevant := length (filter (λ n, n ∈ named) produced) in
  match exact_claims relevant (claimsWithin spec produced) [] with
  | [] => Err NoBranchClaims
  | [claim] => Ok claim
  | _ => Err AmbiguousOutputSet
  end.

(** ** Join relays *)

Section Relays.
Variable V : Type.

(** The scan over the relay targets for one entry; the first target of that name decides. *)
Fixpoint check_relay (relays : list (match_key V)) (e : place * token V) (matched : option name_id)
    : result out_violation () :=
  match relays with
  | [] => Ok ()
  | r :: rest =>
      if decide (key_name r = place_name e.1) then
        let found := match tok_value e.2 with None => None | Some v => mk_key r (Some v) end in
        if bool_decide (found = matched ∧ found ≠ None) then Ok ()
        else Err (RelayMismatch (key_name r) found matched)
      else check_relay rest e matched
  end.

Definition validateRelays (t : transition V) (entries : list (place * token V)) (matched : option name_id)
    : result out_violation () :=
  match t_matchSpec t with
  | None => Ok ()
  | Some ms => if bool_decide (length (ms_relays ms) = 0) then Ok ()
               else res_iter (λ e, check_relay (ms_relays ms) e matched) entries
  end.
End Relays.
Arguments check_relay {V}. Arguments validateRelays {V}.

(** ** Execution scope and minted names *)

Inductive scope_error := ScopeEmpty | ScopeDelimiter (scope : jsstr).

Definition COLON : Z := 58.
Definition HASH : Z := 35.

(** [randomScope] is the platform's random source. *)
Definition resolveExecutionScope (randomScope : jsstr) (scope : option jsstr) : result scope_error jsstr :=
  match scope with
  | None => Ok randomScope
  | Some s =>
      do* throw_if (bool_decide (length s = 0)) ScopeEmpty;
      do* throw_if (bool_decide (COLON ∈ s) || bool_decide (HASH ∈ s)) (ScopeDelimiter s);
      Ok s
  end.

(** The decimal digits of a counter. *)
Definition decimal (n : nat) : jsstr := js (pretty (N.of_nat n)).

(** [`${transition}#${scope}:${n}`] *)
Definition mintedName (tname scope : jsstr) (n : nat) : name_id := tname ++ HASH :: scope ++ COLON :: decimal n.

(** ** Multiplicities up to two *)

(** Predicates on claims that see the claimed set only. *)
Definition respects (f : list jsstr → bool) : Prop := ∀ a b, same_set a b = true → f a = f b.

Definition count_if (f : list jsstr → bool) (l : list (list jsstr)) : nat := length (filter (λ x, f x = true) l).

(** Same multiplicity of every property, up to two. *)
Definition capped_eq (A B : list (list jsstr)) : Prop :=
  ∀ f, respects f → 2 `min` count_if f A = 2 `min` count_if f B.

Lemma count_if_cons f x l : count_if f (x :: l) = (if f x then 1 else 0) + count_if f l.
Proof. unfold count_if. rewrite filter_cons. destruct (f x); [by rewrite decide_True|by rewrite decide_False]. Qed.

Lemma count_if_app f A B : count_if f (A ++ B) = count_if f A + count_if f B.
Proof. unfold count_if. by rewrite filter_app, length_app. Qed.

#[local] Instance capped_eq_refl : Reflexive capped_eq.
Proof. done. Qed.
#[local] Instance capped_eq_trans : Transitive capped_eq.
Proof. intros A B C H1 H2 f Hf. rewrite (H1 f Hf). by apply H2. Qed.
#[local] Instance capped_eq_sym : Symmetric capped_eq.
Proof. intros A B H f Hf. by rewrite (H f Hf). Qed.

Lemma capped_eq_app A A' B B' : capped_eq A A' → capped_eq B B' → capped_eq (A ++ B) (A' ++ B').
Proof. intros HA HB f Hf. rewrite !count_if_app. specialize (HA f Hf). specialize (HB f Hf). lia. Qed.

(** ** The key of a claim *)

(** Names whose joined keys cannot collide. *)
Definition name_ok (n : jsstr) : Prop := n ≠ [] ∧ 0%Z ∉ n.
#[export] Instance name_ok_dec n : Decision (name_ok n).
Proof. unfold name_ok. apply _. Defined.

Lemma join_nul_cons n m l : join_nul (n :: m :: l) = n ++ 0%Z :: join_nul (m :: l).
Proof. done. Qed.

Lemma split_nul (a b x y : jsstr) : 0%Z ∉ a → 0%Z ∉ b → a ++ 0%Z :: x = b ++ 0%Z :: y → a = b ∧ x = y.
Proof.
  revert b. induction a as [|c a IH]; intros [|d b]; simpl; intros Ha Hb E.
  - by injection E.
  - injection E as <- _. destruct Hb. by left.
  - injection E as -> _. destruct Ha. by left.
  - injection E as -> E. destruct (IH b) as [-> ->]; [set_solver|set_solver|done|done].
Qed.

Lemma join_nul_inj l k : Forall name_ok l → Forall name_ok k → join_nul l = join_nul k → l = k.
Proof.
  intros Hl. revert k. induction Hl as [|n l [Hn Hz] Hl IH]; intros k Hk E.
  - destruct Hk as [|m k [Hm _] _]; [done|]. destruct k; simpl in E; [done|].
    destruct m; done.
  - destruct Hk as [|m k [Hm Hzm] Hk].
    + destruct l; simpl in E; [done|]. destruct n; done.
    + destruct l as [|n' l], k as [|m' k].
      * simpl in E. by subst.
      * rewrite join_nul_cons in E. simpl in E. subst. destruct Hz. set_solver.
      * rewrite join_nul_cons in E. simpl in E. subst. destruct Hzm. set_solver.
      * rewrite !join_nul_cons in E. apply split_nul in E as [-> E]; [|done..].
        f_equal. by apply IH.
Qed.

Lemma claim_key_inj a b : Forall name_ok a → Forall name_ok b → claim_key a = claim_key b → same_set a b = true.
Proof.
  unfold claim_key. intros Ha Hb E. apply join_nul_inj in E.
  - apply same_set_iff. intros x. rewrite <- (merge_sort_Permutation js_le a), E. by rewrite merge_sort_Permutation.
  - by rewrite merge_sort_Permutation.
  - by rewrite merge_sort_Permutation.
Qed.

(** ** [capMultiplicity] keeps multiplicities up to two *)

(** [seen] counts, per key, claims kept so far. *)
Definition seen_ok (kept : list (list jsstr)) (seen : list (jsstr * nat)) : Prop :=
  ∀ k n, map_get k seen = Some n → n ≤ length (filter (λ c, claim_key c = k) kept).

Lemma seen_same_set kept claim n seen :
  Forall (Forall name_ok) kept → Forall name_ok claim → seen_ok kept seen →
  map_get (claim_key claim) seen = Some n → ∀ f, respects f → f claim = true → n ≤ count_if f kept.
Proof.
  intros Hk Hc Hs Hn f Hf Hfc. apply Hs in Hn. etrans; [exact Hn|]. clear -Hk Hc Hf Hfc.
  unfold count_if. induction Hk as [|c kept Hck Hk IH]; [done|]. rewrite !filter_cons.
  destruct (decide (claim_key c = claim_key claim)) as [E|E].
  - rewrite (Hf c claim), decide_True by (try apply claim_key_inj; done). simpl. lia.
  - case_decide; simpl; lia.
Qed.

Lemma cap_loop_spec kept seen claims :
  Forall (Forall name_ok) kept → Forall (Forall name_ok) claims → seen_ok kept seen →
  capped_eq (kept ++ cap_loop seen claims) (kept ++ claims).
Proof.
  intros Hk Hc. revert kept seen Hk. induction Hc as [|claim claims Hcl Hc IH]; intros kept seen Hk Hs; [done|].
  cbn [cap_loop]. destruct (map_get (claim_key claim) seen) as [n|] eqn:En.
  - change (default 0 (Some n)) with n. destruct (2 <=? n) eqn:E2; b2p.
    + etrans; [by apply IH|]. intros f Hf. rewrite !count_if_app, count_if_cons.
      destruct (f claim) eqn:Ef; [|done].
      pose proof (seen_same_set _ _ _ _ Hk Hcl Hs En f Hf Ef). lia.
    + replace (kept ++ claim :: cap_loop (map_set (claim_key claim) (n + 1) seen) claims)
        with ((kept ++ [claim]) ++ cap_loop (map_set (claim_key claim) (n + 1) seen) claims) by (by rewrite <- app_assoc).
      replace (kept ++ claim :: claims) with ((kept ++ [claim]) ++ claims) by (by rewrite <- app_assoc).
      apply IH; [by apply Forall_app; auto|]. intros k m. rewrite map_get_set, filter_app, length_app, filter_cons, filter_nil.
      case_decide; subst.
      * rewrite decide_True by done. intros [= <-]. specialize (Hs _ _ En). simpl. lia.
      * rewrite decide_False by done. intros Hm. specialize (Hs _ _ Hm). simpl. lia.
  - change (default 0 (@None nat)) with 0. simpl.
    replace (kept ++ claim :: cap_loop (map_set (claim_key claim) 1 seen) claims)
      with ((kept ++ [claim]) ++ cap_loop (map_set (claim_key claim) 1 seen) claims) by (by rewrite <- app_assoc).
    replace (kept ++ claim :: claims) with ((kept ++ [claim]) ++ claims) by (by rewrite <- app_assoc).
    apply IH; [by apply Forall_app; auto|]. intros k m. rewrite map_get_set, filter_app, length_app, filter_cons, filter_nil.
    case_decide; subst.
    + rewrite decide_True by done. intros [= <-]. simpl. lia.
    + rewrite decide_False by done. intros Hm. specialize (Hs _ _ Hm). simpl. lia.
Qed.

Lemma capMultiplicity_capped claims : Forall (Forall name_ok) claims → capped_eq (capMultiplicity claims) claims.
Proof.
  intros H. unfold capMultiplicity. case_bool; [done|].
  apply (cap_loop_spec [] []); [constructor|done|]. intros k n. done.
Qed.

Lemma cap_loop_sub seen claims c : c ∈ cap_loop seen claims → c ∈ claims.
Proof.
  revert seen. induction claims as [|x claims IH]; intros seen; simpl; [done|].
  case_bool; rewrite ?elem_of_cons; naive_solver.
Qed.

Lemma capMultiplicity_sub claims c : c ∈ capMultiplicity claims → c ∈ claims.
Proof. unfold capMultiplicity. case_bool; [done|]. apply cap_loop_sub. Qed.

(** ** Products of claims *)

Lemma sum_list_min2 {A} (g h : A → nat) l :
  (∀ a, a ∈ l → 2 `min` g a = 2 `min` h a) → 2 `min` sum_list (g <$> l) = 2 `min` sum_list (h <$> l).
Proof.
  induction l as [|a l IH]; [done|]. intros H. rewrite !fmap_cons.
  assert (2 `min` g a = 2 `min` h a) by (apply H; left).
  assert (2 `min` sum_list (g <$> l) = 2 `min` sum_list (h <$> l)) by (apply IH; intros; apply H; by right).
  change (2 `min` (g a + sum_list (g <$> l)) = 2 `min` (h a + sum_list (h <$> l))). lia.
Qed.

Lemma count_product_l f A B :
  count_if f (product A B) = sum_list ((λ a, count_if (λ b, f (a ++ b)) B) <$> A).
Proof.
  induction A as [|a A IH]; [done|]. rewrite product_cons, count_if_app, fmap_cons, IH. simpl. f_equal.
  clear. induction B as [|b B IH]; [done|]. by rewrite fmap_cons, !count_if_cons, IH.
Qed.

Lemma count_product_r f A B :
  count_if f (product A B) = sum_list ((λ b, count_if (λ a, f (a ++ b)) A) <$> B).
Proof.
  induction A as [|a A IH].
  { change (product [] B) with (@nil (list jsstr)). induction B as [|b B IHB]; [done|]. rewrite fmap_cons. simpl. by rewrite <- IHB. }
  rewrite product_cons, count_if_app, IH. clear IH.
  induction B as [|b B IHB]; [done|]. rewrite !fmap_cons. cbn [sum_list_with]. unfold id in *.
  rewrite !count_if_cons, <- IHB. lia.
Qed.

Lemma same_set_app a a' b b' : same_set a a' = true → same_set b b' = true → same_set (a ++ b) (a' ++ b') = true.
Proof. rewrite !same_set_iff. set_solver. Qed.

Lemma capped_eq_product A A' B B' : capped_eq A A' → capped_eq B B' → capped_eq (product A B) (product A' B').
Proof.
  intros HA HB. trans (product A B').
  - intros f Hf. rewrite !count_product_l. apply sum_list_min2. intros a _. apply HB.
    intros b b' Hb. apply Hf, same_set_app; [apply same_set_refl|done].
  - intros f Hf. rewrite !count_product_r. apply sum_list_min2. intros b _. apply HA.
    intros a a' Ha. apply Hf, same_set_app; [done|apply same_set_refl].
Qed.

Lemma merge_claims_capped A B : capped_eq (merge_claims A B) (product A B).
Proof.
  intros f Hf. f_equal. unfold merge_claims. induction A as [|a A IH]; [done|].
  rewrite bind_cons, product_cons, !count_if_app, IH. f_equal. clear IH.
  induction B as [|b B IH]; [done|]. rewrite bind_cons, fmap_cons, count_if_app, !count_if_cons, IH.
  change (count_if f []) with 0. rewrite (Hf (set_union a b) (a ++ b)); [lia|].
  apply same_set_iff. intros x. by rewrite elem_of_set_union, elem_of_app.
Qed.

Abbreviation within P bs := (filter (λ b : list jsstr, inside P b = true) bs).

Lemma within_product P A B : within P (product A B) = product (within P A) (within P B).
Proof.
  induction A as [|a A IH]; [done|]. rewrite product_cons, filter_app, IH, filter_cons.
  assert (within P (app a <$> B) = if decide (inside P a = true) then app a <$> within P B else []) as ->; [|by case_decide].
  clear IH. induction B as [|b B IH]; [by case_decide|].
  rewrite fmap_cons, !filter_cons, inside_app, IH.
  destruct (inside P a), (inside P b); simpl; try done.
Qed.

Lemma within_xor P cs : within P (branches_xor cs) = (c ← cs; within P (branches c)).
Proof. induction cs as [|c cs IH]; [done|]. simpl. by rewrite filter_app, IH. Qed.

(** ** The claims are the branches inside the produced set *)

Definition claim_ok (o : out) (P c : list jsstr) : Prop :=
  NoDup c ∧ (∀ x, x ∈ c → x ∈ P ∧ x ∈ universe o).

Definition claims_spec (P : list jsstr) (o : out) : Prop :=
  capped_eq (claimsWithin o P) (within P (branches o)) ∧ ∀ c, c ∈ claimsWithin o P → claim_ok o P c.

Definition join_claims (P : list jsstr) :=
  fix join (l : list out) (acc : list (list jsstr)) : list (list jsstr) := match l with
    | [] => acc
    | c :: l' =>
        let childClaims := claimsWithin c P in
        if bool_decide (length childClaims = 0) then []
        else join l' (capMultiplicity (merge_claims acc childClaims))
    end.

Lemma capped_eq_nil A : capped_eq [] A → A = [].
Proof.
  intros H. specialize (H (λ _, true)). unfold respects in H. specialize (H (λ _ _ _, eq_refl)).
  destruct A as [|a A]; [done|]. rewrite count_if_cons in H. change (count_if (λ _, true) []) with 0 in H. lia.
Qed.

Lemma elem_of_merge_claims A B c : c ∈ merge_claims A B ↔ ∃ a b, a ∈ A ∧ b ∈ B ∧ c = set_union a b.
Proof.
  unfold merge_claims. rewrite list_elem_of_bind. setoid_rewrite list_elem_of_bind.
  setoid_rewrite list_elem_of_singleton. naive_solver.
Qed.

Lemma product_nil A : product A [] = [].
Proof. induction A as [|a A IH]; [done|]. by rewrite product_cons, IH. Qed.

Lemma join_claims_spec P U cs acc A :
  Forall (λ c, claims_spec P c) cs → Forall name_ok U →
  (∀ c x, c ∈ cs → x ∈ universe c → x ∈ U) →
  capped_eq acc A → (∀ c, c ∈ acc → NoDup c ∧ ∀ x, x ∈ c → x ∈ P ∧ x ∈ U) →
  capped_eq (join_claims P cs acc) (product A (within P (branches_and cs))) ∧
  ∀ c, c ∈ join_claims P cs acc → NoDup c ∧ ∀ x, x ∈ c → x ∈ P ∧ x ∈ U.
Proof.
  intros Hcs HU Hsub. revert acc A. induction Hcs as [|c cs [Hc Hok] Hcs IH]; intros acc A HA Hacc.
  { change (within P (branches_and [])) with [@nil jsstr]. rewrite product_nil_r. done. }
  cbn [join_claims branches_and foldr]. fold (branches_and cs). rewrite within_product.
  assert (∀ m, m ∈ merge_claims acc (claimsWithin c P) → NoDup m ∧ ∀ x, x ∈ m → x ∈ P ∧ x ∈ U) as Hm.
  { intros m (a & b & Ha & Hb & ->)%elem_of_merge_claims. destruct (Hacc a Ha) as [Hda Hxa].
    split; [by apply NoDup_set_union|]. intros x [?|Hx]%elem_of_set_union; [auto|].
    destruct (Hok b Hb) as [_ Hxb]. destruct (Hxb x Hx). split; [done|]. apply (Hsub c); [left|done]. }
  case_bool_decide as Hl.
  - apply nil_length_inv in Hl. rewrite Hl in Hc. apply capped_eq_nil in Hc. rewrite Hc.
    change (product [] (within P (branches_and cs))) with (@nil (list jsstr)). rewrite product_nil.
    split; [done|]. intros ? []%not_elem_of_nil.
  - rewrite <- product_assoc. apply IH.
    + intros d x Hd. apply Hsub. by right.
    + trans (merge_claims acc (claimsWithin c P)).
      * apply capMultiplicity_capped, Forall_forall. intros m Hin. apply Forall_forall. intros x Hx.
        rewrite Forall_forall in HU. apply HU. by apply (Hm m Hin).
      * trans (product acc (claimsWithin c P)); [apply merge_claims_capped|]. by apply capped_eq_product.
    + intros m Hin%capMultiplicity_sub. by apply Hm.
Qed.

Lemma foldl_append {A B} (g : A → list B) cs acc :
  foldl (λ acc c, acc ++ g c) acc cs = acc ++ (c ← cs; g c).
Proof.
  revert acc. induction cs as [|c cs IH]; intros acc; simpl; [by rewrite app_nil_r|].
  by rewrite IH, <- app_assoc.
Qed.

Lemma capped_eq_bind P cs : Forall (λ c, claims_spec P c) cs →
  capped_eq (c ← cs; claimsWithin c P) (c ← cs; within P (branches c)).
Proof.
  induction 1 as [|c cs [Hc _] Hcs IH]; [done|]. rewrite !bind_cons. by apply capped_eq_app.
Qed.

Lemma leaf_claims P o n :
  claimsWithin o P = (if bool_decide (n ∈ P) then [[n]] else []) → branches o = [[n]] → universe o = [n] →
  claims_spec P o.
Proof.
  intros E1 E2 E3. unfold claims_spec, claim_ok. rewrite E1, E2, E3, filter_cons, filter_nil.
  unfold inside. cbn [forallb]. rewrite andb_true_r. case_bool_decide; simpl.
  - split; [done|]. intros c ->%list_elem_of_singleton. split; [apply NoDup_singleton|].
    intros x ->%list_elem_of_singleton. split; [done|left].
  - split; [done|]. intros c ?%not_elem_of_nil. done.
Qed.

Lemma claimsWithin_spec P o : Forall name_ok (universe o) → claims_spec P o.
Proof.
  intros HU. assert (∀ x, x ∈ universe o → name_ok x) as HUx by (by apply Forall_forall). clear HU.
  induction o as [cs IH|cs IH|p|ms c IH|f t] using out_ind'.
  - assert (Forall (λ c, claims_spec P c) cs) as Hcs.
    { rewrite Forall_forall in *. intros c Hc. apply IH; [done|]. intros x Hx. apply HUx, elem_of_universe_and. eauto. }
    destruct (join_claims_spec P (universe (OutAnd cs)) cs [[]] [[]]) as [H1 H2]; [done|by apply Forall_forall| |done| |].
    { intros c x Hc Hx. apply elem_of_universe_and. eauto. }
    { intros c ->%list_elem_of_singleton. split; [constructor|]. intros x ?%not_elem_of_nil. done. }
    split; [|exact H2]. rewrite product_nil_l in H1. exact H1.
  - assert (Forall (λ c, claims_spec P c) cs) as Hcs.
    { rewrite Forall_forall in *. intros c Hc. apply IH; [done|]. intros x Hx. apply HUx, elem_of_universe_xor. eauto. }
    unfold claims_spec. cbn [claimsWithin]. rewrite foldl_append. simpl app.
    assert (∀ c, c ∈ (c ← cs; claimsWithin c P) → claim_ok (OutXor cs) P c) as Hok.
    { intros m (c & Hm & Hc)%list_elem_of_bind. rewrite Forall_forall in Hcs. destruct (Hcs c Hc) as [_ Hok].
      destruct (Hok m Hm) as [? Hx]. split; [done|]. intros x Hxm. destruct (Hx x Hxm). split; [done|].
      apply elem_of_universe_xor. eauto. }
    split; [|intros m Hm%capMultiplicity_sub; by apply Hok].
    trans (c ← cs; claimsWithin c P).
    + apply capMultiplicity_capped, Forall_forall. intros m Hm. apply Forall_forall. intros x Hx.
      apply HUx. by apply (Hok m Hm).
    + change (branches (OutXor cs)) with (branches_xor cs). rewrite within_xor. by apply capped_eq_bind.
  - by apply (leaf_claims P _ (place_name p)).
  - split; [by apply IH|]. intros m Hm. by apply IH.
  - by apply (leaf_claims P _ (place_name t)).
Qed.

(** ** The search decides *)

Lemma elem_of_spec_walk o acc x : x ∈ spec_walk o acc ↔ x ∈ acc ∨ x ∈ universe o.
Proof.
  revert acc. induction o as [cs IH|cs IH|p|ms c IH|f t] using out_ind'; intros acc.
  - rewrite elem_of_universe_and. cbn [spec_walk]. revert acc. induction IH as [|c cs Hc Hcs IH]; intros acc; simpl.
    + split; [by left|]. intros [?|(? & ?%not_elem_of_nil & _)]; done.
    + rewrite IH, Hc. setoid_rewrite elem_of_cons. naive_solver.
  - rewrite elem_of_universe_xor. cbn [spec_walk]. revert acc. induction IH as [|c cs Hc Hcs IH]; intros acc; simpl.
    + split; [by left|]. intros [?|(? & ?%not_elem_of_nil & _)]; done.
    + rewrite IH, Hc. setoid_rewrite elem_of_cons. naive_solver.
  - simpl. rewrite elem_of_set_add, list_elem_of_singleton. tauto.
  - apply IH.
  - simpl. rewrite elem_of_set_add, list_elem_of_singleton. tauto.
Qed.

Lemma elem_of_specNames o x : x ∈ specNames o ↔ x ∈ universe o.
Proof.
  unfold specNames. rewrite elem_of_spec_walk. split; [|by right]. by intros [?%not_elem_of_nil|].
Qed.

(** The produced places the specification names. *)
Definition relevant_names (o : out) (produced : list jsstr) : list jsstr := filter (λ n, n ∈ specNames o) produced.

Lemma claim_size o P c : NoDup P → claim_ok o P c →
  (length c =? length (relevant_names o P)) = same_set (relevant_names o P) c.
Proof.
  intros HP [Hd Hc]. assert (NoDup (relevant_names o P)) as HR by (by apply NoDup_filter).
  assert (∀ x, x ∈ c → x ∈ relevant_names o P) as Hsub.
  { intros x Hx. destruct (Hc x Hx). apply list_elem_of_filter. by rewrite elem_of_specNames. }
  apply eq_true_iff_eq. rewrite Nat.eqb_eq, same_set_iff. split.
  - intros Hl x. split; [|apply Hsub]. intros Hx.
    assert (c ≡ₚ relevant_names o P) as Hp; [|by rewrite Hp].
    apply submseteq_length_Permutation; [|lia]. apply NoDup_submseteq; [done|exact Hsub].
  - intros E. apply Permutation_length, NoDup_Permutation; [done|done|]. intros x. by rewrite E.
Qed.

Lemma exact_claims_spec n claims exact : length exact ≤ 1 →
  exact_claims n claims exact = take 2 (exact ++ filter (λ c, (length c =? n) = true) claims).
Proof.
  revert exact. induction claims as [|c claims IH]; intros exact He; simpl.
  { rewrite filter_nil, app_nil_r. by rewrite take_ge by lia. }
  rewrite filter_cons. destruct (length c =? n) eqn:E.
  - rewrite decide_True by done. destruct (1 <? length (exact ++ [c])) eqn:E2; b2p.
    + rewrite length_app in E2. simpl in E2. destruct exact as [|x [|]]; simpl in *; try lia. done.
    + rewrite IH by lia. by rewrite <- app_assoc.
  - rewrite decide_False by done. by apply IH.
Qed.

Lemma same_set_respects R : respects (same_set R).
Proof. intros a b H. rewrite !(same_set_sym R). by apply same_set_subst. Qed.

Definition exactly_matching (o : out) (produced : list jsstr) : list (list jsstr) :=
  filter (λ b, same_set (relevant_names o produced) b = true) (branches o).

Lemma count_within P o : count_if (same_set (relevant_names o P)) (within P (branches o)) = length (exactly_matching o P).
Proof.
  unfold count_if, exactly_matching. f_equal. generalize (branches o). intros l.
  induction l as [|b l IH]; [done|]. rewrite !filter_cons.
  destruct (decide (same_set (relevant_names o P) b = true)) as [E|E].
  - assert (inside P b = true) as Hi.
    { apply inside_iff. intros x Hx. rewrite same_set_iff in E. apply E in Hx.
      by apply list_elem_of_filter in Hx as [_ ?]. }
    rewrite (decide_True (P:=inside P b = true)) by done. rewrite filter_cons, decide_True by done. by rewrite IH.
  - case_decide; [rewrite filter_cons, decide_False by done|]; done.
Qed.

Lemma filter_ext_elem {A} (P Q : A → Prop) `{∀ x, Decision (P x), ∀ x, Decision (Q x)} (l : list A) :
  (∀ x, x ∈ l → P x ↔ Q x) → filter P l = filter Q l.
Proof.
  induction l as [|x l IH]; intros E; [done|]. rewrite !filter_cons, IH by (intros; apply E; by right).
  assert (P x ↔ Q x) by (apply E; left). repeat case_decide; tauto.
Qed.

Lemma validateOutSpec_spec o P : Forall name_ok (universe o) → NoDup P →
  match validateOutSpec o P with
  | Ok claim => length (exactly_matching o P) = 1 ∧ same_set (relevant_names o P) claim = true ∧ NoDup claim
  | Err NoBranchClaims => exactly_matching o P = []
  | Err AmbiguousOutputSet => 2 ≤ length (exactly_matching o P)
  | Err _ => False
  end.
Proof.
  intros HU HP. destruct (claimsWithin_spec P o HU) as [Hc Hok]. unfold validateOutSpec.
  fold (relevant_names o P). rewrite exact_claims_spec by (simpl; lia). cbn [app].
  rewrite (filter_ext_elem _ (λ c, same_set (relevant_names o P) c = true)).
  2:{ intros c Hin. by rewrite claim_size by auto. }
  specialize (Hc _ (same_set_respects (relevant_names o P))). rewrite count_within in Hc.
  unfold count_if in Hc.
  destruct (filter (λ c, same_set (relevant_names o P) c = true) (claimsWithin o P)) as [|c1 [|c2 l]] eqn:E;
    cbn [length take] in *.
  - apply nil_length_inv. lia.
  - assert (c1 ∈ filter (λ c, same_set (relevant_names o P) c = true) (claimsWithin o P)) as Hin by (rewrite E; left).
    apply list_elem_of_filter in Hin as [Hs Hin]. destruct (Hok c1 Hin). split_and!; [lia|done|done].
  - lia.
Qed.

(** ** Relays *)

Section RelayLemmas.
Context {V : Type}.

Lemma check_relay_ok (relays : list (match_key V)) e matched :
  NoDup (key_name <$> relays) →
  check_relay relays e matched = Ok () ↔
  ∀ r, r ∈ relays → key_name r = place_name e.1 →
    ∃ v n, tok_value e.2 = Some v ∧ mk_key r (Some v) = Some n ∧ matched = Some n.
Proof.
  induction relays as [|r relays IH]; intros Hd; simpl.
  { split; [|done]. intros _ r ?%not_elem_of_nil. done. }
  rewrite fmap_cons in Hd. apply NoDup_cons in Hd as [Hn Hd]. case_decide as Hr.
  - trans (∃ v n, tok_value e.2 = Some v ∧ mk_key r (Some v) = Some n ∧ matched = Some n).
    + case_bool_decide as Hb.
      * split; [|done]. intros _. destruct Hb as [Hb Hne]. destruct (tok_value e.2) as [v|]; [|done].
        destruct (mk_key r (Some v)) as [n|] eqn:Ek; [|done]. eauto.
      * split; [done|]. intros (v & n & Ev & Ek & ->). destruct Hb. by rewrite Ev, Ek.
    + split.
      * intros H r' [->|Hr']%elem_of_cons E; [done|]. destruct Hn. rewrite Hr, <- E. by apply list_elem_of_fmap_2.
      * intros H. apply (H r); [left|done].
  - rewrite IH by done. setoid_rewrite elem_of_cons. naive_solver.
Qed.
End RelayLemmas.

(** ** Minted names *)

Definition digits (s : jsstr) : Prop := Forall (λ c, 48 ≤ c ≤ 57)%Z s.

Lemma pretty_N_go_digits x s : digits (js s) → digits (js (pretty_N_go x s)).
Proof.
  revert s. induction (N.lt_wf_0 x) as [x _ IH]. intros s Hs. destruct (decide (x = 0)%N) as [->|Hx].
  - by rewrite pretty_N_go_0.
  - rewrite pretty_N_go_step by lia. apply IH; [apply N.div_lt; lia|].
    constructor; [|exact Hs]. simpl.
    assert (∀ d, (d < 10)%N → 48 ≤ Z.of_nat (nat_of_ascii (pretty_N_char d)) ≤ 57)%Z as Hd.
    { intros d Hlt. unfold pretty_N_char. repeat case_match; vm_compute; split; discriminate. }
    apply Hd. apply N.mod_lt. lia.
Qed.

Lemma decimal_digits n : digits (decimal n).
Proof.
  unfold decimal, pretty, pretty_N. case_decide; [repeat constructor; vm_compute; discriminate|].
  apply pretty_N_go_digits. constructor.
Qed.

Lemma js_inj a b : js a = js b → a = b.
Proof.
  revert b. induction a as [|c a IH]; intros [|d b]; try done. unfold js. simpl. intros [= E1 E2].
  apply Nat2Z.inj in E1. rewrite <- (ascii_nat_embedding c), <- (ascii_nat_embedding d), E1. f_equal. by apply IH.
Qed.

Lemma decimal_inj n m : decimal n = decimal m → n = m.
Proof. unfold decimal. intros E%js_inj. apply (inj pretty) in E. lia. Qed.

Lemma resolveExecutionScope_ok rnd scope s : resolveExecutionScope rnd scope = Ok s →
  (COLON ∉ rnd ∧ HASH ∉ rnd) → COLON ∉ s ∧ HASH ∉ s.
Proof.
  destruct scope as [s'|]; simpl; [|by intros [= ->]].
  rewrite !res_seq_ok, !throw_if_ok, orb_false_iff, !bool_decide_eq_false. by intros (? & ? & [= ->]).
Qed.

(** ** Properties *)

(** Output validation is an exact-explanation search: the write of an action is accepted
    exactly when one and only one branch of the specification names precisely the produced
    places the specification knows, the accepted claim is that set, and the two rejections
    mean no branch and at least two branches; multiplicity capping never changes the answer. *)
Theorem validateOutSpec_exact o produced :
  Forall name_ok (universe o) → NoDup produced →
  match validateOutSpec o produced with
  | Ok claim => length (exactly_matching o produced) = 1 ∧ same_set (relevant_names o produced) claim = true ∧ NoDup claim
  | Err NoBranchClaims => exactly_matching o produced = []
  | Err AmbiguousOutputSet => 2 ≤ length (exactly_matching o produced)
  | Err _ => False
  end.
Proof. apply validateOutSpec_spec. Qed.

(** Eight two-way choices joined: the cap is reached at every step. *)
Definition wide_out : out :=
  OutAnd (replicate 8 (OutXor [leaf 0 "a"; leaf 0 "a"; leaf 1 "b"])).

Lemma validateOutSpec_exact_witness :
  validateOutSpec wide_out [js "a"] = Err AmbiguousOutputSet ∧
  2 ≤ length (exactly_matching wide_out [js "a"]).
Proof.
  assert (validateOutSpec wide_out [js "a"] = Err AmbiguousOutputSet) as E by (vm_compute; reflexivity).
  split; [exact E|]. pose proof (validateOutSpec_exact wide_out [js "a"]) as H. rewrite E in H. apply H.
  - apply (bool_decide_unpack _). vm_compute. exact I.
  - apply NoDup_singleton.
Defined.

(** A transition that builds can never be rejected as ambiguous at run time: whatever an
    action writes, at most one branch of its output specification explains it. *)
Theorem build_never_ambiguous {V} (b : builder V) (t : transition V) o produced :
  (∀ o, b_output b = Some o → inhabited_xors o = true) →
  build b = Ok t → outputSpec t = Some o → Forall name_ok (universe o) → NoDup produced →
  validateOutSpec o produced ≠ Err AmbiguousOutputSet.
Proof.
  intros Hi [(_ & _ & Ho & _) ->]%build_ok Eo HU HP Hv; [|done]. simpl in Eo.
  destruct (Ho o Eo) as ((_ & Hsep) & _).
  pose proof (validateOutSpec_spec o produced HU HP) as H. rewrite Hv in H. unfold exactly_matching in H.
  revert H. generalize (branches o) Hsep. clear. intros l Hs H.
  destruct (filter (λ b, same_set (relevant_names o produced) b = true) l) as [|a [|b k]] eqn:E; simpl in H; try lia.
  assert (∃ i j, i < j ∧ l !! i = Some a ∧ l !! j = Some b) as (i & j & Hij & Hi & Hj).
  { clear -E. induction l as [|x l IH]; [done|]. rewrite filter_cons in E. case_decide.
    - injection E as -> E. assert (b ∈ l) as [j Hj]%list_elem_of_lookup.
      { eapply list_elem_of_filter. rewrite E. left. }
      exists 0, (S j). split_and!; [lia|done|done].
    - destruct (IH E) as (i & j & ? & ? & ?). exists (S i), (S j). split_and!; [lia|done|done]. }
  specialize (Hs i j a b Hij Hi Hj).
  assert (a ∈ filter (λ b, same_set (relevant_names o produced) b = true) l) as Ha by (rewrite E; left).
  assert (b ∈ filter (λ b, same_set (relevant_names o produced) b = true) l) as Hb by (rewrite E; right; left).
  apply list_elem_of_filter in Ha as [Ha _], Hb as [Hb _].
  rewrite (same_set_trans b (relevant_names o produced) a) in Hs; [done|by rewrite same_set_sym|done].
Qed.

Lemma build_never_ambiguous_witness :
  validateOutSpec (OutXor [OutPlace (Place 2 (js "ok")); OutTimeout 30 (OutForwardInput (Place 0 (js "in")) (Place 3 (js "retry")))])
    [js "retry"] ≠ Err AmbiguousOutputSet.
Proof.
  apply (build_never_ambiguous example_builder (built example_builder)).
  - intros o [= <-]. reflexivity.
  - reflexivity.
  - reflexivity.
  - apply (bool_decide_unpack _). vm_compute. exact I.
  - apply NoDup_singleton.
Defined.

(** The relay check passes exactly when every token written into a relay target carries a
    value whose projected name is the matched one; an absent value or a projection without a
    name fails. *)
Theorem validateRelays_exact {V} (t : transition V) ms entries matched :
  t_matchSpec t = Some ms → NoDup (key_name <$> ms_relays ms) →
  validateRelays t entries matched = Ok () ↔
  ∀ e r, e ∈ entries → r ∈ ms_relays ms → key_name r = place_name e.1 →
    ∃ v n, tok_value e.2 = Some v ∧ mk_key r (Some v) = Some n ∧ matched = Some n.
Proof.
  intros Hms Hd. unfold validateRelays. rewrite Hms. case_bool_decide as Hl.
  - apply nil_length_inv in Hl. rewrite Hl. split; [|done]. intros _ e r _ ?%not_elem_of_nil. done.
  - rewrite res_iter_ok, Forall_forall. split.
    + intros H e r He Hr. by apply (check_relay_ok (ms_relays ms) e matched Hd); [apply H|].
    + intros H e He. apply check_relay_ok; [done|]. intros r. by apply H.
Qed.

Definition relay_transition : transition jsstr :=
  Transition (js "join") [] None [] [] [] immediate None 0 []
    (Some (MatchSpec [] [MatchKey (Place 5 (js "out")) (λ v, v)])).

Lemma validateRelays_exact_witness :
  validateRelays relay_transition [(Place 5 (js "out"), Token (Some (js "x")) 0)] (Some (js "x")) = Ok () ↔
  ∀ e r, e ∈ [(Place 5 (js "out"), Token (Some (js "x")) 0%Z)] → r ∈ [MatchKey (Place 5 (js "out")) (λ v : option jsstr, v)] →
    key_name r = place_name e.1 →
    ∃ v n, tok_value e.2 = Some v ∧ mk_key r (Some v) = Some n ∧ Some (js "x") = Some n.
Proof.
  apply (validateRelays_exact relay_transition (MatchSpec [] [MatchKey (Place 5 (js "out")) (λ v, v)])); [done|].
  apply NoDup_singleton.
Defined.

(** Minted names never collide: under execution scopes the resolver accepts, a name determines
    the transition, the scope and the counter it was minted from, even when a transition's name
    contains the delimiters. *)
Theorem mintedName_inj rnd scope1 scope2 s1 s2 t1 t2 n1 n2 :
  COLON ∉ rnd → HASH ∉ rnd →
  resolveExecutionScope rnd scope1 = Ok s1 → resolveExecutionScope rnd scope2 = Ok s2 →
  mintedName t1 s1 n1 = mintedName t2 s2 n2 → t1 = t2 ∧ s1 = s2 ∧ n1 = n2.
Proof.
  intros Hc Hh [Hc1 Hh1]%resolveExecutionScope_ok [Hc2 Hh2]%resolveExecutionScope_ok E; [|done..].
  assert (∀ n d, (d < 48)%Z ∨ (57 < d)%Z → d ∉ decimal n) as Hdec.
  { intros n d Hd Hin. pose proof (decimal_digits n) as Hn. unfold digits in Hn. rewrite Forall_forall in Hn.
    specialize (Hn d Hin). simpl in Hn. lia. }
  unfold mintedName in E.
  replace (t1 ++ HASH :: s1 ++ COLON :: decimal n1) with ((t1 ++ HASH :: s1) ++ COLON :: decimal n1) in E
    by (by rewrite <- app_assoc).
  replace (t2 ++ HASH :: s2 ++ COLON :: decimal n2) with ((t2 ++ HASH :: s2) ++ COLON :: decimal n2) in E
    by (by rewrite <- app_assoc).
  apply last_split in E as [E En]; [|apply Hdec; unfold COLON; lia..].
  apply last_split in E as [-> ->]; [|done..]. apply decimal_inj in En. done.
Qed.

Lemma mintedName_inj_witness :
  mintedName (js "fork#a:1") (js "s") 12 = js "fork#a:1#s:12" ∧
  js "fork#a:1" = js "fork#a:1" ∧ js "s" = js "s" ∧ 12 = 12.
Proof.
  split; [by vm_compute|].
  apply (mintedName_inj (js "0a") (Some (js "s")) (Some (js "s"))).
  - apply (bool_decide_unpack _). vm_compute. exact I.
  - apply (bool_decide_unpack _). vm_compute. exact I.
  - vm_compute. reflexivity.
  - vm_compute. reflexivity.
  - reflexivity.
Defined.
