(* ===== verification/Context.v ===== *)
(** * The context of one firing, and timeout production

    [src/typescript/src/core/token-input.ts], [token-output.ts], [transition-context.ts] and
    [produceTimeoutOutput] of [src/typescript/src/runtime/executor-support.ts]. A context holds
    references to output collectors: the one its action writes to, and the one the executor
    harvests. They are the same collector until a timeout severs them, so the collectors live in
    a store indexed by reference. A clock reading is an argument of the operation that makes it. *)
From S2P Require Import Prelude.
From S2P Require Import Net.
From S2P Require Import Out.
From S2P Require Import OutSpec.
From S2P Require Import Transition.

Section Context.
Variable V : Type.

(** ** [TokenInput] *)

Definition token_input : Type := list (jsstr * list (token V)).

Definition ti_add (p : place) (t : token V) (ti : token_input) : token_input :=
  match map_get (place_name p) ti with
  | Some existing => map_set (place_name p) (existing ++ [t]) ti
  | None => map_set (place_name p) [t] ti
  end.
Definition ti_getAll (p : place) (ti : token_input) : list (token V) := default [] (map_get (place_name p) ti).

Inductive context_error :=
| NoTokenFor (place : jsstr)
| ConsumedSeveral (place : jsstr) (n : nat)
| NotDeclaredInput (place : jsstr)
| NotDeclaredRead (place : jsstr)
| NotDeclaredOutput (place : jsstr)
| UnreachableTimeoutNode.

Definition ti_get (p : place) (ti : token_input) : result context_error (token V) :=
  match map_get (place_name p) ti with
  | Some (t :: _) => Ok t
  | _ => Err (NoTokenFor (place_name p))
  end.
Definition ti_value (p : place) (ti : token_input) : result context_error (option V) :=
  let* t := ti_get p ti in Ok (tok_value t).
Definition ti_values (p : place) (ti : token_input) : list (option V) := tok_value <$> ti_getAll p ti.
Definition ti_count (p : place) (ti : token_input) : nat := length (ti_getAll p ti).
Definition ti_has (p : place) (ti : token_input) : bool := 0 <? ti_count p ti.

(** ** [TokenOutput] *)

Record token_output := TokenOutput { entries : list (place * token V); detached : bool }.

Definition to_new : token_output := TokenOutput [] false.
Definition to_addToken (p : place) (t : token V) (o : token_output) : token_output :=
  if detached o then o else TokenOutput (entries o ++ [(p, t)]) (detached o).
(** [now] is the reading of the executor's epoch clock. *)
Definition to_add (p : place) (v : option V) (now : Z) (o : token_output) : token_output :=
  if detached o then o else TokenOutput (entries o ++ [(p, tokenAt v now)]) (detached o).
Definition to_detach (o : token_output) : token_output := TokenOutput (entries o) true.
Definition to_isEmpty (o : token_output) : bool := bool_decide (length (entries o) = 0).
Definition placesWithTokens (o : token_output) : list jsstr := set_of ((λ e, place_name e.1) <$> entries o).

(** ** [TransitionContext] *)

Record context := Context {
  cx_name : jsstr;
  cx_input : token_input;
  cx_store : list token_output;
  cx_writeTarget : nat;
  cx_rawOutput : nat;
  allowedInputs : list jsstr;
  allowedReads : list jsstr;
  allowedOutputs : list jsstr;
  cx_alias : list (jsstr * place)
}.

(** The context of a firing of [t]: one collector, referenced twice. *)
Definition context_new (t : transition V) (input : token_input) : context :=
  Context (t_name t) input [to_new] 0 0
    (set_of (place_name <$> inputPlaces t)) (set_of (place_name <$> readPlaces t))
    (set_of (place_name <$> outputPlaces t)) (placeAlias t).

Definition resolve (p : place) (cx : context) : place :=
  match map_get (place_name p) (cx_alias cx) with Some actual => actual | None => p end.

Definition requireInput (p : place) (cx : context) : result context_error () :=
  throw_if (bool_decide (place_name p ∉ allowedInputs cx)) (NotDeclaredInput (place_name p)).
Definition requireRead (p : place) (cx : context) : result context_error () :=
  throw_if (bool_decide (place_name p ∉ allowedReads cx)) (NotDeclaredRead (place_name p)).
Definition requireOutput (p : place) (cx : context) : result context_error () :=
  throw_if (bool_decide (place_name p ∉ allowedOutputs cx)) (NotDeclaredOutput (place_name p)).

Definition cx_read_input (p : place) (cx : context) : result context_error (option V) :=
  let actual := resolve p cx in
  do* requireInput actual cx;
  match ti_values actual (cx_input cx) with
  | [v] => Ok v
  | vs => Err (ConsumedSeveral (place_name actual) (length vs))
  end.
Definition cx_inputs (p : place) (cx : context) : result context_error (list (option V)) :=
  do* requireInput (resolve p cx) cx; Ok (ti_values (resolve p cx) (cx_input cx)).
Definition cx_inputToken (p : place) (cx : context) : result context_error (token V) :=
  do* requireInput (resolve p cx) cx; ti_get (resolve p cx) (cx_input cx).
Definition cx_read (p : place) (cx : context) : result context_error (option V) :=
  do* requireRead (resolve p cx) cx; ti_value (resolve p cx) (cx_input cx).
Definition cx_reads (p : place) (cx : context) : result context_error (list (option V)) :=
  do* requireRead (resolve p cx) cx; Ok (ti_values (resolve p cx) (cx_input cx)).

Definition with_store (st : list token_output) (cx : context) : context :=
  Context (cx_name cx) (cx_input cx) st (cx_writeTarget cx) (cx_rawOutput cx)
    (allowedInputs cx) (allowedReads cx) (allowedOutputs cx) (cx_alias cx).

(** Writing through a reference. *)
Definition on_target (r : nat) (f : token_output → token_output) (cx : context) : context :=
  with_store (alter f r (cx_store cx)) cx.

Definition cx_output (p : place) (values : list (option V)) (now : Z) (cx : context) : result context_error context :=
  let actual := resolve p cx in
  do* requireOutput actual cx;
  Ok (foldl (λ cx v, on_target (cx_writeTarget cx) (to_add actual v now) cx) cx values).
Definition cx_outputToken (p : place) (tokens : list (token V)) (cx : context) : result context_error context :=
  let actual := resolve p cx in
  do* requireOutput actual cx;
  Ok (foldl (λ cx t, on_target (cx_writeTarget cx) (to_addToken actual t) cx) cx tokens).

(** The action's collector is severed and the executor gets a fresh one. *)
Definition detachForTimeout (cx : context) : context :=
  let st := alter to_detach (cx_writeTarget cx) (cx_store cx) in
  Context (cx_name cx) (cx_input cx) (st ++ [to_new]) (cx_writeTarget cx) (length st)
    (allowedInputs cx) (allowedReads cx) (allowedOutputs cx) (cx_alias cx).

Definition outputToHarvest (p : place) (v : option V) (now : Z) (cx : context) : result context_error context :=
  let actual := resolve p cx in
  do* requireOutput actual cx;
  Ok (on_target (cx_rawOutput cx) (to_add actual v now) cx).

Definition forwardToHarvest (from to : place) (cx : context) : result context_error context :=
  let source := resolve from cx in
  do* requireInput source cx;
  let target := resolve to cx in
  do* requireOutput target cx;
  Ok (foldl (λ cx t, on_target (cx_rawOutput cx) (to_addToken target t) cx) cx (ti_getAll source (cx_input cx))).

(** [rawOutput()], what the executor harvests. *)
Definition cx_harvest (cx : context) : list (place * token V) :=
  from_option entries [] (cx_store cx !! cx_rawOutput cx).

(** ** [produceTimeoutOutput] *)

Fixpoint produceTimeoutOutput (child : out) (now : Z) (cx : context) : result context_error context :=
  match child with
  | OutPlace p => outputToHarvest p None now cx
  | OutForwardInput f t => forwardToHarvest f t cx
  | OutAnd cs => foldl (λ acc c, let* cx := acc in produceTimeoutOutput c now cx) (Ok cx) cs
  | OutXor _ | OutTimeout _ _ => Err UnreachableTimeoutNode
  end.

(** What the timeout branch deposits, leaves left to right. *)
Fixpoint timeout_entries (input : token_input) (now : Z) (child : out) : list (place * token V) :=
  match child with
  | OutPlace p => [(p, tokenAt None now)]
  | OutForwardInput f t => (λ tok, (t, tok)) <$> ti_getAll f input
  | OutAnd cs => flat_map (timeout_entries input now) cs
  | OutXor _ | OutTimeout _ _ => []
  end.

(** ** Lemmas *)

Lemma ti_getAll_add p t ti q :
  ti_getAll q (ti_add p t ti) = if decide (place_name q = place_name p) then ti_getAll q ti ++ [t] else ti_getAll q ti.
Proof.
  unfold ti_getAll, ti_add. destruct (map_get (place_name p) ti) as [l|] eqn:E;
    rewrite map_get_set; case_decide as H; try done; by rewrite H, E.
Qed.

(** The collector the executor harvests, when it is open. *)
Definition open_harvest (cx : context) (es : list (place * token V)) : Prop :=
  cx_store cx !! cx_rawOutput cx = Some (TokenOutput es false).

Lemma cx_harvest_open cx es : open_harvest cx es → cx_harvest cx = es.
Proof. unfold open_harvest, cx_harvest. by intros ->. Qed.

(** Contexts that differ in their store only. *)
Definition same_frame (cx cx' : context) : Prop := ∃ st, cx' = with_store st cx.

#[global] Instance same_frame_trans : Transitive same_frame.
Proof. intros cx cx1 cx2 [st ->] [st' ->]. by exists st'. Qed.
#[global] Instance same_frame_refl : Reflexive same_frame.
Proof. intros cx. exists (cx_store cx). by destruct cx. Qed.

Lemma elem_of_allowed (ps : list place) p : p ∈ ps → place_name p ∈ set_of (place_name <$> ps).
Proof. intros. apply elem_of_set_of. by apply list_elem_of_fmap_2. Qed.

(** A timeout child whose places the context resolves to declared ones. *)
Definition branch_resolves (cx : context) (c : out) : Prop :=
  (∀ p, p ∈ collectPlaces c [] → place_name (resolve p cx) ∈ allowedOutputs cx) ∧
  (∀ f t, (f, t) ∈ findForwardInputs c → place_name (resolve f cx) ∈ allowedInputs cx).

(** What the context deposits for a timeout child, leaves left to right. *)
Fixpoint resolved_entries (cx : context) (now : Z) (child : out) : list (place * token V) :=
  match child with
  | OutPlace p => [(resolve p cx, tokenAt None now)]
  | OutForwardInput f t => (λ tok, (resolve t cx, tok)) <$> ti_getAll (resolve f cx) (cx_input cx)
  | OutAnd cs => flat_map (resolved_entries cx now) cs
  | OutXor _ | OutTimeout _ _ => []
  end.

Lemma elem_of_collectPlaces o acc p : p ∈ collectPlaces o acc ↔ p ∈ acc ∨ p ∈ collectPlaces o [].
Proof.
  revert acc. induction o as [cs IH|cs IH|q|ms c IH|f t] using out_ind'; intros acc.
  1,2: cbn [collectPlaces]; assert (∀ acc, p ∈ foldl (λ s c, collectPlaces c s) acc cs ↔
      p ∈ acc ∨ ∃ c, c ∈ cs ∧ p ∈ collectPlaces c []) as H;
    [induction IH as [|c cs Hc Hcs IH]; intros a; simpl;
      [split; [by left|intros [?|(? & ?%not_elem_of_nil & _)]; done]
      |rewrite IH, Hc; setoid_rewrite elem_of_cons; naive_solver]
    |rewrite !H; split; [naive_solver|intros [?|[?%not_elem_of_nil|?]]; naive_solver]].
  - simpl. rewrite !elem_of_set_add. split; [naive_solver|intros [?|[?|?%not_elem_of_nil]]; naive_solver].
  - apply IH.
  - simpl. rewrite !elem_of_set_add. split; [naive_solver|intros [?|[?|?%not_elem_of_nil]]; naive_solver].
Qed.

Lemma collectPlaces_foldl cs acc p :
  p ∈ foldl (λ s c, collectPlaces c s) acc cs ↔ p ∈ acc ∨ ∃ c, c ∈ cs ∧ p ∈ collectPlaces c [].
Proof.
  revert acc. induction cs as [|c cs IH]; intros acc; simpl.
  - split; [by left|intros [?|(? & ?%not_elem_of_nil & _)]; done].
  - rewrite IH, elem_of_collectPlaces. setoid_rewrite elem_of_cons. naive_solver.
Qed.

Lemma collectPlaces_child c cs p : c ∈ cs → p ∈ collectPlaces c [] → p ∈ foldl (λ s c, collectPlaces c s) [] cs.
Proof. intros. apply collectPlaces_foldl. eauto. Qed.

Lemma universe_places o n : n ∈ universe o → ∃ p, p ∈ allPlaces o ∧ place_name p = n.
Proof.
  unfold allPlaces. induction o as [cs IH|cs IH|p|ms c IH|from to] using out_ind'; cbn [collectPlaces].
  1,2: rewrite ?elem_of_universe_and, ?elem_of_universe_xor; intros (c & Hc & Hn); rewrite Forall_forall in IH;
    destruct (IH c Hc Hn) as (p & Hp & <-); exists p; (split; [|done]); by apply (collectPlaces_child c).
  - intros ->%list_elem_of_singleton. exists p. split; [apply elem_of_set_add; by left|done].
  - exact IH.
  - intros ->%list_elem_of_singleton. exists to. split; [apply elem_of_set_add; by left|done].
Qed.

Lemma findTimeout_places o ms c p :
  findTimeout o = Some (ms, c) → p ∈ collectPlaces c [] → p ∈ allPlaces o.
Proof.
  unfold allPlaces.
  induction o as [cs IH|cs IH|q|ms' c' IH|f t] using out_ind'; intros Ht Hp; try done.
  1,2: change (findTimeout_list cs = Some (ms, c)) in Ht; rewrite Forall_forall in IH;
    apply findTimeout_list_Some in Ht as (d & Hd & Ht); eapply collectPlaces_child; eauto.
  injection Ht as -> ->. done.
Qed.

(** A call the action makes on its context; a call that throws leaves the context as it was. *)
Inductive action_call :=
| CallOutput (p : place) (values : list (option V)) (now : Z)
| CallOutputToken (p : place) (tokens : list (token V)).

Definition run_call (cx : context) (a : action_call) : context :=
  match match a with
        | CallOutput p vs now => cx_output p vs now cx
        | CallOutputToken p ts => cx_outputToken p ts cx
        end with
  | Ok cx' => cx'
  | Err _ => cx
  end.
Definition run_calls (calls : list action_call) (cx : context) : context := foldl run_call cx calls.

(** The action's collector is closed and the executor's holds [es]. *)
Definition severed (cx : context) (es : list (place * token V)) : Prop :=
  (∃ o, cx_store cx !! cx_writeTarget cx = Some o ∧ detached o = true) ∧ open_harvest cx es.

Lemma fold_preserves {A B} (R : A → Prop) (f : A → B → A) l a :
  (∀ a b, R a → R (f a b)) → R a → R (foldl f a l).
Proof. intros Hf. revert a. induction l; simpl; auto. Qed.

(** A write to the closed collector changes nothing the executor sees. *)
Lemma on_target_severed cx cx0 es f :
  (∀ o, detached o = true → f o = o) →
  same_frame cx0 cx → severed cx es →
  same_frame cx0 (on_target (cx_writeTarget cx) f cx) ∧ severed (on_target (cx_writeTarget cx) f cx) es.
Proof.
  intros Hf Hs ((o & Ho & Hd) & He). split; [etrans; [exact Hs|by eexists]|].
  assert (alter f (cx_writeTarget cx) (cx_store cx) = cx_store cx) as E.
  { apply list_eq. intros i. destruct (decide (i = cx_writeTarget cx)) as [->|].
    - rewrite list_lookup_alter_eq, Ho. simpl. by rewrite Hf.
    - by rewrite list_lookup_alter_ne by done. }
  unfold severed, open_harvest, on_target, with_store. simpl. rewrite E. eauto.
Qed.

Lemma run_call_severed cx0 es cx a :
  same_frame cx0 cx ∧ severed cx es → same_frame cx0 (run_call cx a) ∧ severed (run_call cx a) es.
Proof.
  intros [Hs He]. unfold run_call.
  destruct a as [p vs now|p ts]; unfold cx_output, cx_outputToken;
    (destruct (requireOutput _ cx) as [[]|]; simpl; [|done]); apply fold_preserves; try done;
    intros cx' ? [??]; apply on_target_severed; auto; intros o Ho;
    unfold to_add, to_addToken; by rewrite Ho.
Qed.

Lemma run_calls_severed cx es calls :
  severed cx es → same_frame cx (run_calls calls cx) ∧ severed (run_calls calls cx) es.
Proof.
  intros. apply (fold_preserves (λ cx', same_frame cx cx' ∧ severed cx' es)).
  - intros. by apply run_call_severed.
  - split; [reflexivity|done].
Qed.

Lemma run_call_frame cx a : same_frame cx (run_call cx a).
Proof.
  unfold run_call. destruct a as [p vs now|p ts]; unfold cx_output, cx_outputToken;
    (destruct (requireOutput _ cx) as [[]|]; simpl; [|reflexivity]);
    apply (fold_preserves (same_frame cx)); try reflexivity;
    intros cx' ? ?; (etrans; [done|by eexists]).
Qed.

Lemma run_call_open cx a : is_Some (cx_store cx !! cx_writeTarget cx) →
  is_Some (cx_store (run_call cx a) !! cx_writeTarget (run_call cx a)).
Proof.
  intros H. unfold run_call. destruct a as [p vs now|p ts]; unfold cx_output, cx_outputToken;
    (destruct (requireOutput _ cx) as [[]|]; simpl; [|done]);
    apply (fold_preserves (λ cx, is_Some (cx_store cx !! cx_writeTarget cx))); try done;
    intros cx' ? ?; unfold on_target; simpl; rewrite list_lookup_alter_eq; by apply fmap_is_Some.
Qed.

Lemma run_calls_frame cx calls :
  is_Some (cx_store cx !! cx_writeTarget cx) →
  same_frame cx (run_calls calls cx) ∧
  is_Some (cx_store (run_calls calls cx) !! cx_writeTarget (run_calls calls cx)).
Proof.
  intros. apply (fold_preserves (λ cx', same_frame cx cx' ∧ is_Some (cx_store cx' !! cx_writeTarget cx'))).
  - intros cx' a [??]. split; [etrans; [done|apply run_call_frame]|by apply run_call_open].
  - split; [reflexivity|done].
Qed.

Lemma detach_severed cx :
  is_Some (cx_store cx !! cx_writeTarget cx) → severed (detachForTimeout cx) [].
Proof.
  intros [o Ho]. assert (cx_writeTarget cx < length (cx_store cx)) by (by eapply lookup_lt_Some).
  unfold severed, open_harvest, detachForTimeout. simpl. split.
  - exists (to_detach o). split; [|done].
    rewrite lookup_app_l by (by rewrite length_alter). by rewrite list_lookup_alter_eq, Ho.
  - rewrite lookup_app_r by done. by rewrite Nat.sub_diag.
Qed.

(** The alias of the context leaves the declared places alone. *)
Definition unaliased (cx : context) : Prop :=
  ∀ n, n ∈ allowedInputs cx ++ allowedOutputs cx → map_get n (cx_alias cx) = None.

Lemma resolve_frame cx cx' p : same_frame cx cx' → resolve p cx' = resolve p cx.
Proof. by intros [st ->]. Qed.

Lemma resolve_unaliased cx p : unaliased cx → place_name p ∈ allowedInputs cx ++ allowedOutputs cx → resolve p cx = p.
Proof. intros Hu Hp. unfold resolve. by rewrite Hu. Qed.

Lemma resolved_unaliased cx now c : unaliased cx →
  (∀ p, p ∈ collectPlaces c [] → place_name p ∈ allowedOutputs cx) →
  (∀ f t, (f, t) ∈ findForwardInputs c → place_name f ∈ allowedInputs cx) →
  branch_resolves cx c ∧ resolved_entries cx now c = timeout_entries (cx_input cx) now c.
Proof.
  intros Hu Ho Hf. split.
  { split; [intros p Hp|intros f t Hft]; rewrite resolve_unaliased; eauto; apply elem_of_app; eauto. }
  revert Ho Hf. induction c as [cs IH|cs IH|p|ms c IH|f t] using out_ind'; intros Ho Hf; cbn [resolved_entries timeout_entries]; try done.
  - assert (∀ c, c ∈ cs → resolved_entries cx now c = timeout_entries (cx_input cx) now c) as Hall.
    { intros c Hc. rewrite Forall_forall in IH. apply IH; [done| |].
      - intros p Hp. apply Ho. by apply (collectPlaces_child c).
      - intros f t Hft. apply (Hf f t). by eapply elem_of_flat_map. }
    clear IH Ho Hf. induction cs as [|c cs IHcs]; [done|]. cbn [flat_map]. rewrite Hall by left. f_equal. apply IHcs. intros. apply Hall. by right.
  - rewrite resolve_unaliased; [done|done|]. apply elem_of_app. right. apply Ho. simpl. set_solver.
  - rewrite !resolve_unaliased; try done; apply elem_of_app; [left; apply (Hf f t); simpl; set_solver|right; apply Ho; simpl; set_solver].
Qed.

Lemma on_harvest_severed cx es o f :
  (o = f (TokenOutput es false)) → detached o = false →
  severed cx es → severed (on_target (cx_rawOutput cx) f cx) (entries o).
Proof.
  intros -> Hd ((o' & Ho & Hd') & He). unfold severed, open_harvest, on_target in *. simpl.
  assert (cx_writeTarget cx ≠ cx_rawOutput cx).
  { intros E. rewrite E, He in Ho. injection Ho as <-. done. }
  split; [exists o'; by rewrite list_lookup_alter_ne by done|].
  rewrite list_lookup_alter_eq, He. simpl. f_equal. destruct (f _); simpl in *. by subst.
Qed.

Lemma forward_severed cx cx' es target l :
  same_frame cx cx' → severed cx' es →
  let cx'' := foldl (λ cx t, on_target (cx_rawOutput cx) (to_addToken target t) cx) cx' l in
  same_frame cx cx'' ∧ severed cx'' (es ++ ((λ t, (target, t)) <$> l)).
Proof.
  revert cx' es. induction l as [|t l IH]; intros cx' es Hs He; simpl; [by rewrite app_nil_r|].
  destruct (IH (on_target (cx_rawOutput cx') (to_addToken target t) cx') (es ++ [(target, t)])) as [H1 H2].
  - etrans; [done|by eexists].
  - by apply (on_harvest_severed cx' es (TokenOutput (es ++ [(target, t)]) false)).
  - split; [done|]. by rewrite <- app_assoc in H2.
Qed.

(** Producing the timeout branch into the harvest of a severed context. *)
Lemma produce_severed cx now c :
  containsXor c = false → countTimeouts c = 0%Z → branch_resolves cx c →
  ∀ cx' es, same_frame cx cx' → severed cx' es →
  ∃ cx'', produceTimeoutOutput c now cx' = Ok cx'' ∧ same_frame cx cx'' ∧
          severed cx'' (es ++ resolved_entries cx now c).
Proof.
  induction c as [cs IH|cs IH|p|ms c IH|f t] using out_ind'; intros Hx Hc [Ho Hf] cx' es Hs He.
  - cbn [produceTimeoutOutput resolved_entries].
    assert (∀ c, c ∈ cs → containsXor c = false ∧ countTimeouts c = 0%Z ∧ branch_resolves cx c) as Hall.
    { intros c Hin. split_and!.
      - by eapply (existsb_false containsXor cs).
      - cbn [countTimeouts] in Hc. pose proof (countTimeouts_child cs c Hin). pose proof (countTimeouts_nonneg c). lia.
      - split; [intros p Hp; apply Ho; by apply (collectPlaces_child c)|].
        intros f t Hft. apply (Hf f t). by eapply elem_of_flat_map. }
    clear Hx Hc Ho Hf. revert cx' es Hs He. induction IH as [|c cs Hc _ IHcs]; intros cx' es Hs He.
    + exists cx'. simpl. by rewrite app_nil_r.
    + destruct (Hall c) as (?&?&?); [left|]. destruct (Hc) with (cx' := cx') (es := es) as (cx1 & E & Hs1 & He1); auto.
      destruct (IHcs) with (cx' := cx1) (es := es ++ resolved_entries cx now c)
        as (cx2 & E2 & ?); auto; [intros; apply Hall; by right|].
      exists cx2. cbn [foldl res_bind]. rewrite E, E2. cbn [flat_map]. by rewrite app_assoc.
  - done.
  - cbn [produceTimeoutOutput resolved_entries]. unfold outputToHarvest.
    assert (place_name (resolve p cx) ∈ allowedOutputs cx) as Hp by (apply Ho; simpl; set_solver).
    assert (allowedOutputs cx' = allowedOutputs cx) as E2 by (by destruct Hs as [st ->]).
    rewrite (resolve_frame cx cx') by done. unfold requireOutput. rewrite E2, bool_decide_false by auto. simpl.
    eexists. split; [done|]. split; [etrans; [done|by eexists]|].
    by apply (on_harvest_severed cx' es (TokenOutput (es ++ [(resolve p cx, tokenAt None now)]) false)).
  - cbn [countTimeouts] in Hc. pose proof (countTimeouts_nonneg c). lia.
  - cbn [produceTimeoutOutput resolved_entries]. unfold forwardToHarvest.
    assert (place_name (resolve t cx) ∈ allowedOutputs cx) as Hp by (apply Ho; simpl; set_solver).
    assert (place_name (resolve f cx) ∈ allowedInputs cx) as Hq by (apply (Hf f t); simpl; set_solver).
    assert (cx_input cx' = cx_input cx ∧ allowedInputs cx' = allowedInputs cx ∧
            allowedOutputs cx' = allowedOutputs cx) as (Ei & E1 & E2) by (by destruct Hs as [st ->]).
    rewrite !(resolve_frame cx cx') by done. unfold requireOutput, requireInput.
    rewrite E1, E2, !bool_decide_false by auto. simpl. rewrite Ei.
    eexists. split; [done|]. by apply forward_severed.
Qed.

Lemma fold_err {A} (f : A → context → result context_error context) l err :
  foldl (λ acc a, let* cx := acc in f a cx) (Err err) l = Err err.
Proof. by induction l. Qed.

(** Production goes through only for a branch whose places resolve to declared ones. *)
Lemma produce_resolves cx now c cx' cx'' :
  same_frame cx cx' → produceTimeoutOutput c now cx' = Ok cx'' → same_frame cx cx'' ∧ branch_resolves cx c.
Proof.
  revert cx' cx''. induction c as [cs IH|cs IH|p|ms c IH|f t] using out_ind'; intros cx' cx'' Hs; cbn [produceTimeoutOutput]; try done.
  - intros E. assert (same_frame cx cx'' ∧ ∀ c, c ∈ cs → branch_resolves cx c) as [Hs' Hall].
    { revert cx' Hs E. induction IH as [|c cs Hc _ IHcs]; intros cx' Hs E; cbn [foldl res_bind] in E.
      - injection E as <-. split; [done|]. by intros c ?%not_elem_of_nil.
      - destruct (produceTimeoutOutput c now cx') as [cx1|err] eqn:E1; [|by rewrite (fold_err (λ c cx, produceTimeoutOutput c now cx)) in E].
        destruct (Hc cx' cx1 Hs E1) as [Hs1 Hb]. destruct (IHcs cx1 Hs1 E) as [Hs2 Hall]. split; [done|].
        intros d [->|Hd]%elem_of_cons; auto. }
    split; [done|]. split.
    + intros p Hp. apply collectPlaces_foldl in Hp as [?%not_elem_of_nil|(c & Hc & Hp)]; [done|]. by apply (proj1 (Hall c Hc)).
    + intros f t Hft. cbn [findForwardInputs] in Hft. apply list_elem_of_In, in_flat_map in Hft as (c & Hc%list_elem_of_In & Hft%list_elem_of_In). by apply (proj2 (Hall c Hc) f t).
  - unfold outputToHarvest, requireOutput. rewrite (resolve_frame cx cx') by done.
    assert (allowedOutputs cx' = allowedOutputs cx) as -> by (by destruct Hs as [st ->]). case_bool_decide as Hp; simpl; [done|]. intros [= <-].
    split; [etrans; [done|by eexists]|]. split; [|by intros ? ? ?%not_elem_of_nil].
    intros q Hq. cbn [collectPlaces] in Hq. apply elem_of_set_add in Hq as [->|?%not_elem_of_nil]; [|done]. exact Hp.
  - unfold forwardToHarvest, requireInput, requireOutput. rewrite !(resolve_frame cx cx') by done.
    assert (allowedInputs cx' = allowedInputs cx ∧ allowedOutputs cx' = allowedOutputs cx) as [-> ->] by (by destruct Hs as [st ->]).
    case_bool_decide as Hf; simpl; [done|]. case_bool_decide as Ht; simpl; [done|]. intros [= <-]. split.
    + apply (fold_preserves (same_frame cx)); [|done]. intros cx1 tok H1. etrans; [done|by eexists].
    + split; [intros q Hq; cbn [collectPlaces] in Hq; apply elem_of_set_add in Hq as [->|?%not_elem_of_nil]; [|done]; exact Ht|].
      intros f' t' Hft. cbn in Hft. apply list_elem_of_singleton in Hft as [= -> ->]. exact Hf.
Qed.

Lemma severed_harvest cx es : severed cx es → cx_harvest cx = es.
Proof. intros [_ He]. by apply cx_harvest_open. Qed.
End Context.

Arguments ti_add {V}. Arguments context_new {V}. Arguments run_calls {V}. Arguments detachForTimeout {V}.
Arguments produceTimeoutOutput {V}. Arguments cx_harvest {V}. Arguments timeout_entries {V}.
Arguments severed_harvest {V}. Arguments run_calls_frame {V}. Arguments run_calls_severed {V}.
Arguments detach_severed {V}. Arguments produce_severed {V}. Arguments unaliased {V}.
Arguments CallOutput {V}. Arguments CallOutputToken {V}. Arguments cx_alias {V}.
Arguments same_frame {V}. Arguments branch_resolves {V}. Arguments resolved_entries {V}.
Arguments produce_resolves {V}. Arguments resolved_unaliased {V}. Arguments allowedInputs {V}. Arguments allowedOutputs {V}. Arguments cx_input {V}.

(** The timeout branch of a built transition: no choice, no inner timeout, its places declared. *)
Lemma timeout_branch_declared {V} (b : builder V) (t : transition V) ms c input :
  (∀ o, b_output b = Some o → inhabited_xors o = true) → build b = Ok t → actionTimeout t = Some (ms, c) →
  let cx0 := context_new t input in
  containsXor c = false ∧ countTimeouts c = 0%Z ∧ (∀ p, p ∈ collectPlaces c [] → place_name p ∈ allowedOutputs cx0) ∧
  (∀ f g, (f, g) ∈ findForwardInputs c → place_name f ∈ allowedInputs cx0).
Proof.
  intros Hi Hb Ht. cbn zeta. apply build_ok in Hb as [(_ & _ & Ho & _) ->]; [|done].
  simpl in Ht. destruct (b_output b) as [o|] eqn:Eo; simpl in Ht; [|done].
  destruct (Ho o) as (_ & Hn & Hx & _ & Hf); [done|]. destruct (findTimeout_ok o ms c) as (? & ? & Hs); [done..|]. split_and!; [done|done| |].
  - intros p Hp. apply elem_of_allowed. unfold outputPlaces. simpl. rewrite Eo. simpl. by eapply findTimeout_places.
  - intros f g Hfg%Hs%Hf. apply elem_of_set_of. unfold input_names in Hfg.
    apply list_elem_of_fmap in Hfg as (s & -> & Hin). apply list_elem_of_fmap_2.
    unfold inputPlaces. apply elem_of_set_of. by apply list_elem_of_fmap_2.
Qed.

(** Severing and the calls keep what a branch resolves to. *)
Lemma detached_same {V} (cx0 cx cx1 : context V) c now : same_frame cx0 cx → same_frame (detachForTimeout cx) cx1 →
  (branch_resolves cx1 c ↔ branch_resolves cx0 c) ∧ resolved_entries cx1 now c = resolved_entries cx0 now c.
Proof.
  intros [st ->] [st' ->]. split; [done|]. induction c as [cs IH|cs IH|p|ms c IH|f t] using out_ind'; try done.
  cbn [resolved_entries]. induction IH as [|c cs Hc _ IHcs]; [done|]. cbn [flat_map]. by rewrite Hc, IHcs.
Qed.

(** ** Properties *)

(** C34: a firing of a built transition that times out produces its timeout branch and nothing
    else. Once the collector is severed nothing the action wrote before and nothing it writes after
    is harvested, before and after the branch is produced. Production goes through exactly when the
    places of the branch, resolved through the alias of a composition, are declared; what the
    executor then harvests is the leaves of the branch left to right, at their resolved places: a
    null token for a place and every consumed token itself, in order, for a forward. When no
    declared place is aliased, as in a transition no composition made, every branch goes through,
    and the places are the branch's own. *)
Theorem timeout_isolation {V} (b : builder V) (t : transition V) ms c input early late1 late2 now :
  (∀ o, b_output b = Some o → inhabited_xors o = true) →
  build b = Ok t → actionTimeout t = Some (ms, c) →
  let cx0 := context_new t input in
  let cx1 := run_calls late1 (detachForTimeout (run_calls early cx0)) in
  cx_harvest (run_calls late2 cx1) = [] ∧
  (is_ok (produceTimeoutOutput c now cx1) ↔ branch_resolves cx0 c) ∧
  (∀ cx, produceTimeoutOutput c now cx1 = Ok cx → cx_harvest (run_calls late2 cx) = resolved_entries cx0 now c) ∧
  (unaliased cx0 → branch_resolves cx0 c ∧ resolved_entries cx0 now c = timeout_entries input now c).
Proof.
  intros Hi Hb Ht. cbn zeta. set (cx0 := context_new t input).
  destruct (timeout_branch_declared b t ms c input Hi Hb Ht) as (Hx & Hn & Ho & Hf). fold cx0 in Ho, Hf.
  destruct (run_calls_frame cx0 early) as [H1 Ho1]; [by eexists|].
  pose proof (detach_severed _ Ho1) as Hd.
  destruct (run_calls_severed _ _ late1 Hd) as [H2 Hl]. set (cx1 := run_calls late1 _) in *.
  destruct (detached_same cx0 (run_calls early cx0) cx1 c now H1 H2) as [E1 E2].
  split_and!.
  - by apply severed_harvest, run_calls_severed.
  - rewrite <- E1. split.
    + destruct (produceTimeoutOutput c now cx1) as [cx|] eqn:E; [|by intros []]. intros _. by eapply (produce_resolves cx1).
    + intros Hr. destruct (produce_severed cx1 now c Hx Hn Hr cx1 []) as (cx & -> & _); [reflexivity|done|by eexists].
  - intros cx E. rewrite <- E2. destruct (produce_resolves cx1 now c cx1 cx) as [_ Hr]; [reflexivity|done|].
    destruct (produce_severed cx1 now c Hx Hn Hr cx1 []) as (cx' & E' & _ & Hc); [reflexivity|done|]. rewrite E in E'. injection E' as <-.
    apply severed_harvest. exact (proj2 (run_calls_severed _ _ late2 Hc)).
  - intros Hu. by apply resolved_unaliased.
Qed.

Lemma timeout_isolation_witness :
  let input := ti_add (Place 0 (js "in")) (Token (Some ()) 7)
               (ti_add (Place 0 (js "in")) (Token (Some ()) 9) []) in
  ∃ cx,
    produceTimeoutOutput (OutForwardInput (Place 0 (js "in")) (Place 3 (js "retry"))) 100
      (run_calls [CallOutput (Place 2 (js "ok")) [Some ()] 50]
        (detachForTimeout (run_calls [CallOutput (Place 2 (js "ok")) [None] 20]
          (context_new (built example_builder) input)))) = Ok cx ∧
    cx_harvest (run_calls [CallOutputToken (Place 2 (js "ok")) [Token None 3]] cx) =
      [(Place 3 (js "retry"), Token (Some ()) 9); (Place 3 (js "retry"), Token (Some ()) 7)].
Proof.
  cbn zeta. set (input := ti_add _ _ _).
  destruct (timeout_isolation example_builder (built example_builder) 30 (OutForwardInput (Place 0 (js "in")) (Place 3 (js "retry"))) input
              [CallOutput (Place 2 (js "ok")) [None] 20] [CallOutput (Place 2 (js "ok")) [Some ()] 50]
              [CallOutputToken (Place 2 (js "ok")) [Token None 3]] 100) as (_ & H1 & H2 & H3); [by intros o [= <-]|reflexivity|reflexivity|].
  cbn zeta in *. destruct H3 as [H3 H4]; [intros n _; reflexivity|]. apply H1 in H3.
  destruct (produceTimeoutOutput _ _ _) as [cx|]; [|destruct H3]. exists cx. split; [reflexivity|]. rewrite (H2 cx eq_refl), H4. reflexivity.
Defined.
