(* ===== verification/Executor.v ===== *)
(** * The bitmap executor

    [src/typescript/src/runtime/bitmap-net-executor.ts], with [executeAction], [seededPlaceNames]
    and [restoredTokens] of [executor-support.ts]: the state of a run, the dirty-set scan, the
    deadline pass, firing, completion and external-event processing, the loop and the wait. A
    transition is its identifier. Clock readings are arguments of the operations that make them;
    [-Infinity] as an enablement stamp is [None]. Host code is a parameter or a step: whether the
    execution-context provider throws is [providerThrows], actions are the calls of [Context] and
    their settling. An event is recorded without its time stamp. *)
From S2P Require Import Prelude.
From S2P Require Import CodePoints.
From S2P Require Import Net.
From S2P Require Import Out.
From S2P Require Import OutSpec.
From S2P Require Import Transition.
From S2P Require Import Marking.
From S2P Require Import MatchEngine.
From S2P Require Import PetriNet.
From S2P Require Import Bitmap.
From S2P Require Import CompiledNet.
From S2P Require Import OutputCheck.
From S2P Require Import Context.

(** A flag array read at an index; out of range reads are falsy. *)
Definition flag (l : list bool) (i : nat) : bool := default false (l !! i).

(** ** The scan over the set bits of a word *)

(** [Math.clz32] *)
Definition clz32 (x : Z) : Z := let u := to_uint32 x in if (u =? 0)%Z then 32 else 31 - Z.log2 u.

(** [Math.clz32(word & -word) ^ 31] *)
Definition lowest_bit (word : Z) : Z := Z.lxor (clz32 (js_and word (- word))) 31.

(** [word &= word - 1] *)
Definition clear_lowest (word : Z) : Z := js_and word (word - 1).

(** The loop over one dirty word; a word has at most 32 set bits. *)
Fixpoint scan_word {S} (fuel : nat) (visit : nat → S → S) (count : nat) (w : nat) (word : Z) (s : S) : S :=
  match fuel with
  | O => s
  | Datatypes.S fuel =>
      if (word =? 0)%Z then s
      else
        let tid := Z.to_nat (Z.lor (Z.shiftl (Z.of_nat w) WORD_SHIFT) (lowest_bit word)) in
        if count <=? tid then s
        else scan_word fuel visit count w (clear_lowest word) (visit tid s)
  end.

Fixpoint scan_words {S} (visit : nat → S → S) (count : nat) (w : nat) (words : list Z) (s : S) : S :=
  match words with
  | [] => s
  | word :: rest => scan_words visit count (Datatypes.S w) rest (scan_word 32 visit count w word s)
  end.

(** ** State *)

Section Executor.
Variable V : Type.

(** Why a promise was rejected: a value JavaScript holds for true, or one it holds for false
    ([undefined], [null], [0], the empty string). *)
Inductive thrown := ErrTruthy | ErrFalsy.

(** What [t.action(context)] does at once. *)
Inductive action_start := StartThrows (e : thrown) | StartReturnsOther | StartReturnsPromise.

(** The promise [executeAction] returns: rejected already, or the action's own. *)
Definition executeAction (r : action_start) : option thrown :=
  match r with
  | StartThrows e => Some e
  | StartReturnsOther => Some ErrTruthy
  | StartReturnsPromise => None
  end.

Inductive net_event :=
| EvTransitionEnabled (transition : jsstr)
| EvClockRestarted (transition : jsstr)
| EvTransitionTimedOut (transition : jsstr)
| EvTokenRemoved (place : jsstr) (t : token V)
| EvTokenAdded (place : jsstr) (t : token V)
| EvTransitionStarted (transition : jsstr) (consumed : list (token V))
| EvTransitionCompleted (transition : jsstr) (produced : list (token V))
| EvTransitionFailed (transition : jsstr)
| EvActionTimedOut (transition : jsstr)
| EvUnknownPlace (place transition : jsstr)
| EvDeadArc (a : dead_arc)
| EvMultiplicity (transition : jsstr).

Record flight := Flight {
  fl_context : context V;
  fl_consumed : list (token V);
  fl_matchedName : option name_id;
  fl_error : option thrown;
  fl_settled : bool
}.

Record external_event := ExternalEvent { ev_id : nat; ev_place : place; ev_token : token V }.

Inductive termination_reason := Running | Quiescent | Terminal | Closed | Stopped.

(** What enablement and firing work on. *)
Record engine := Engine {
  e_marking : marking V;
  markingBitmap : list Z;
  dirtySet : list Z;
  enabledAtMs : list (option Z);
  inFlightFlags : list bool;
  enabledFlags : list bool;
  enabledTransitionCount : Z;
  restartPendingWords : list Z;
  anyRestartPending : bool;
  matchCaches : list (option matcher);
  e_log : list net_event
}.

Record exec := Exec {
  x_engine : engine;
  inFlight : list (nat * flight);
  completionQueue : list nat;
  externalQueue : list external_event;
  admissions : list (nat * bool);
  warnedUnknownPlaces : list jsstr;
  warnedMultiplicity : list jsstr;
  freshNameCounter : nat;
  wakeUpPending : bool;
  draining : bool;
  closed : bool;
  terminalReached : bool;
  unsettled : bool;
  running : bool;
  reason : termination_reason
}.

(** What the constructor computes once. *)
Record config := Config {
  cf_compiled : compiled V;
  cf_thresholds : list jnum;
  placeMatchTargets : list (list (nat * nat));
  hasDeadlineFlags : list bool;
  isExactFlags : list bool;
  hasAnyDeadlines : bool;
  allImmediate : bool;
  allSamePriority : bool;
  deadlineToleranceMs : Z;
  environmentPlaces : list jsstr;
  executionScope : jsstr
}.

(** ** Writing the fields *)

Definition set_marking (m : marking V) (e : engine) : engine :=
  Engine m (markingBitmap e) (dirtySet e) (enabledAtMs e) (inFlightFlags e) (enabledFlags e)
    (enabledTransitionCount e) (restartPendingWords e) (anyRestartPending e) (matchCaches e) (e_log e).
Definition set_bitmap (b : list Z) (e : engine) : engine :=
  Engine (e_marking e) b (dirtySet e) (enabledAtMs e) (inFlightFlags e) (enabledFlags e)
    (enabledTransitionCount e) (restartPendingWords e) (anyRestartPending e) (matchCaches e) (e_log e).
Definition set_dirty (d : list Z) (e : engine) : engine :=
  Engine (e_marking e) (markingBitmap e) d (enabledAtMs e) (inFlightFlags e) (enabledFlags e)
    (enabledTransitionCount e) (restartPendingWords e) (anyRestartPending e) (matchCaches e) (e_log e).
Definition set_enabledAt (tid : nat) (at_ms : option Z) (e : engine) : engine :=
  Engine (e_marking e) (markingBitmap e) (dirtySet e) (<[tid := at_ms]> (enabledAtMs e)) (inFlightFlags e) (enabledFlags e)
    (enabledTransitionCount e) (restartPendingWords e) (anyRestartPending e) (matchCaches e) (e_log e).
Definition set_inFlight (tid : nat) (b : bool) (e : engine) : engine :=
  Engine (e_marking e) (markingBitmap e) (dirtySet e) (enabledAtMs e) (<[tid := b]> (inFlightFlags e)) (enabledFlags e)
    (enabledTransitionCount e) (restartPendingWords e) (anyRestartPending e) (matchCaches e) (e_log e).
Definition set_enabled (tid : nat) (b : bool) (count : Z) (e : engine) : engine :=
  Engine (e_marking e) (markingBitmap e) (dirtySet e) (enabledAtMs e) (inFlightFlags e) (<[tid := b]> (enabledFlags e))
    (enabledTransitionCount e + count) (restartPendingWords e) (anyRestartPending e) (matchCaches e) (e_log e).
Definition set_restart (ws : list Z) (any : bool) (e : engine) : engine :=
  Engine (e_marking e) (markingBitmap e) (dirtySet e) (enabledAtMs e) (inFlightFlags e) (enabledFlags e)
    (enabledTransitionCount e) ws any (matchCaches e) (e_log e).
Definition set_cache (tid : nat) (m : option matcher) (e : engine) : engine :=
  Engine (e_marking e) (markingBitmap e) (dirtySet e) (enabledAtMs e) (inFlightFlags e) (enabledFlags e)
    (enabledTransitionCount e) (restartPendingWords e) (anyRestartPending e) (<[tid := m]> (matchCaches e)) (e_log e).
(** [emitEvent]: a store that throws is swallowed, so an emission only appends. *)
Definition emit (ev : net_event) (e : engine) : engine :=
  Engine (e_marking e) (markingBitmap e) (dirtySet e) (enabledAtMs e) (inFlightFlags e) (enabledFlags e)
    (enabledTransitionCount e) (restartPendingWords e) (anyRestartPending e) (matchCaches e) (e_log e ++ [ev]).

(** [enabledFlags[tid] = 0; enabledTransitionCount--; enabledAtMs[tid] = -Infinity] *)
Definition disable (tid : nat) (e : engine) : engine := set_enabledAt tid None (set_enabled tid false (-1) e).

(** ** Enablement *)

Variable cf : config.
Abbreviation net := (cf_compiled cf).

Definition transition_name (tid : nat) : jsstr := from_option t_name [] (c_transition net tid).

(** The tokens at a place identifier. *)
Definition tokens_at (pid : nat) (m : marking V) : nat := from_option (λ p, tokenCount p m) 0 (c_place net pid).

Definition canEnable (tid : nat) (markingSnap : list Z) (e : engine) : bool :=
  if negb (canEnableBitmap net tid markingSnap) then false
  else if existsb (λ x : nat * Z, (Z.of_nat (tokens_at x.1 (e_marking e)) <? x.2)%Z) (default [] (cardinalityCheck net tid))
  then false
  else if hasMatch net tid then
    match default None (matchCaches e !! tid) with
    | Some cache => bool_decide (best cache ≠ None)
    | None => match c_transition net tid with
              | Some t => bool_decide (findBinding t (λ p, peekTokens p (e_marking e)) ≠ None)
              | None => false
              end
    end
  else true.

Definition markTransitionDirty (tid : nat) (e : engine) : engine := set_dirty (setBit (dirtySet e) tid) e.
Definition markDirty (pid : nat) (e : engine) : engine :=
  foldl (λ e tid, markTransitionDirty tid e) e (affectedTransitions net pid).
Definition hasDirtyBits (e : engine) : bool := existsb (λ w, negb (w =? 0)%Z) (dirtySet e).

(** One transition of the dirty scan. *)
Definition rescan (nowMs : Z) (snap : list Z) (tid : nat) (e : engine) : engine :=
  if flag (inFlightFlags e) tid then e
  else
    let wasEnabled := flag (enabledFlags e) tid in
    let canNow := canEnable tid snap e in
    if canNow && negb wasEnabled then
      emit (EvTransitionEnabled (transition_name tid)) (set_enabledAt tid (Some nowMs) (set_enabled tid true 1 e))
    else if negb canNow && wasEnabled then disable tid e
    else if canNow && wasEnabled && anyRestartPending e && testBit (restartPendingWords e) tid then
      emit (EvClockRestarted (transition_name tid)) (set_enabledAt tid (Some nowMs) e)
    else e.

Definition updateDirtyTransitions (nowMs : Z) (e : engine) : engine :=
  let markingSnap := markingBitmap e in
  let dirtySnap := dirtySet e in
  let e := set_dirty ((λ _, 0%Z) <$> dirtySet e) e in
  let e := scan_words (rescan nowMs markingSnap) (transitionCount net) 0 dirtySnap e in
  if anyRestartPending e then set_restart ((λ _, 0%Z) <$> restartPendingWords e) false e else e.

(** [nowMs - enabledAtMs[tid]] *)
Definition elapsed (nowMs : Z) (tid : nat) (e : engine) : jnum :=
  match default None (enabledAtMs e !! tid) with Some at_ms => Fin (nowMs - at_ms) | None => Infinity end.

Definition enforce_deadline (nowMs : Z) (e : engine) (tid : nat) : engine :=
  if negb (flag (hasDeadlineFlags cf) tid) then e
  else if flag (isExactFlags cf) tid then e
  else if negb (flag (enabledFlags e) tid) || flag (inFlightFlags e) tid then e
  else match c_transition net tid with
       | None => e
       | Some t =>
           if jnum_ltb (Fin (latest (t_timing t) + deadlineToleranceMs cf)) (elapsed nowMs tid e)
           then set_enabledAt tid None (emit (EvTransitionTimedOut (t_name t)) (set_enabled tid false (-1) e))
           else e
       end.
Definition enforceDeadlines (nowMs : Z) (e : engine) : engine :=
  foldl (enforce_deadline nowMs) e (seq 0 (transitionCount net)).

Definition flag_intermediate (tid : nat) (e : engine) (other : nat) : engine :=
  if bool_decide (other = tid) || negb (flag (enabledFlags e) other) || flag (inFlightFlags e) other then e
  else if testBit (restartPendingWords e) other then e
  else if negb (canEnable other (markingBitmap e) e)
  then set_restart (setBit (restartPendingWords e) other) true e
  else e.
Definition flagIntermediateDisablements (tid pid : nat) (e : engine) : engine :=
  foldl (flag_intermediate tid) e (affectedTransitions net pid).

Definition update_consumed (tid : nat) (e : engine) (pid : nat) : engine :=
  let left := tokens_at pid (e_marking e) in
  let e := if left =? 0 then set_bitmap (clearBit (markingBitmap e) pid) e else e in
  let e := markDirty pid e in
  if jnum_ltb (Fin (Z.of_nat left)) (default (Fin 0) (cf_thresholds cf !! pid))
  then flagIntermediateDisablements tid pid e else e.
Definition updateBitmapAfterConsumption (tid : nat) (e : engine) : engine :=
  foldl (update_consumed tid) e (consumptionPlaceIds net tid).

(** ** Firing *)

(** The predicate of a correlated input: the token's key is the chosen name. *)
Definition input_predicate (t : transition V) (chosen : option name_id) (s : in_spec) : option (option V → bool) :=
  match t_matchSpec t, chosen with
  | Some ms, Some name =>
      match keyForPlace ms (place_name (in_place s)) with
      | Some key => Some (λ v, bool_decide (key v = Some name))
      | None => None
      end
  | _, _ => None
  end.

Definition consume_count (s : in_spec) (pred : option (option V → bool)) (m : marking V) : nat :=
  match s with
  | InOne _ => 1
  | InExactly _ n => Z.to_nat n
  | InAll p | InAtLeast p _ =>
      match pred with Some _ => countMatching (p, pred) m | None => tokenCount p m end
  end.

(** What one firing has taken so far. *)
Record firing := Firing { f_engine : engine; f_consumed : list (token V); f_inputs : token_input V }.

Fixpoint consume_loop (p : place) (pred : option (option V → bool)) (n : nat) (f : firing) : firing :=
  match n with
  | O => f
  | S n =>
      let m := e_marking (f_engine f) in
      match (match pred with Some _ => removeFirstMatching (p, pred) m | None => removeFirst p m end) with
      | (None, _) => f
      | (Some t, m') =>
          consume_loop p pred n
            (Firing (emit (EvTokenRemoved (place_name p) t) (set_marking m' (f_engine f)))
               (f_consumed f ++ [t]) (ti_add p t (f_inputs f)))
      end
  end.

Definition consume_input_spec (t : transition V) (chosen : option name_id) (f : firing) (s : in_spec) : firing :=
  let pred := input_predicate t chosen s in
  consume_loop (in_place s) pred (consume_count s pred (e_marking (f_engine f))) f.

Definition read_arc (f : firing) (p : place) : firing :=
  match peekFirst p (e_marking (f_engine f)) with
  | Some t => Firing (f_engine f) (f_consumed f) (ti_add p t (f_inputs f))
  | None => f
  end.

Definition reset_arc (f : firing) (p : place) : firing :=
  let r := removeAll p (e_marking (f_engine f)) in
  Firing (foldl (λ e t, emit (EvTokenRemoved (place_name p) t) e) (set_marking r.2 (f_engine f)) r.1)
    (f_consumed f ++ r.1) (f_inputs f).

(** The name a join fires with. *)
Definition chosen_name (t : transition V) (tid : nat) (e : engine) : option name_id :=
  match t_matchSpec t with
  | None => None
  | Some _ => match default None (matchCaches e !! tid) with
              | Some cache => best cache
              | None => findBinding t (λ p, peekTokens p (e_marking e))
              end
  end.

(** The matched consume is mirrored into the matcher before the marking changes. *)
Definition mirror_consume (t : transition V) (tid : nat) (chosen : option name_id) (e : engine) : engine :=
  match t_matchSpec t, default None (matchCaches e !! tid), chosen with
  | Some _, Some cache, Some name => set_cache tid (Some (matcher_consume name cache)) e
  | _, _, _ => e
  end.

Definition consume_all (t : transition V) (tid : nat) (e : engine) : firing :=
  let chosen := chosen_name t tid e in
  let f := foldl (consume_input_spec t chosen) (Firing (mirror_consume t tid chosen e) [] []) (inputSpecs t) in
  foldl reset_arc (foldl read_arc f (reads t)) (resets t).

Variable providerThrows : jsstr → list (token V) → bool.

(** The state when [fireTransition] returns, with its flight, or when it throws, with none. *)
Definition fireTransition (tid : nat) (t : transition V) (e : engine) : engine * option flight :=
  let chosen := chosen_name t tid e in
  let f := consume_all t tid e in
  let e := updateBitmapAfterConsumption tid (f_engine f) in
  let e := emit (EvTransitionStarted (t_name t) (f_consumed f)) e in
  if providerThrows (t_name t) (f_consumed f) then (e, None)
  else
    let flight := Flight (context_new t (f_inputs f)) (f_consumed f) chosen None false in
    (disable tid (set_inFlight tid true e), Some flight).

Definition set_flights (fl : list (nat * flight)) (x : exec) : exec :=
  Exec (x_engine x) fl (completionQueue x) (externalQueue x) (admissions x) (warnedUnknownPlaces x) (warnedMultiplicity x)
    (freshNameCounter x) (wakeUpPending x) (draining x) (closed x) (terminalReached x) (unsettled x) (running x) (reason x).
Definition set_engine (e : engine) (x : exec) : exec :=
  Exec e (inFlight x) (completionQueue x) (externalQueue x) (admissions x) (warnedUnknownPlaces x) (warnedMultiplicity x)
    (freshNameCounter x) (wakeUpPending x) (draining x) (closed x) (terminalReached x) (unsettled x) (running x) (reason x).
Definition set_unsettled (b : bool) (x : exec) : exec :=
  Exec (x_engine x) (inFlight x) (completionQueue x) (externalQueue x) (admissions x) (warnedUnknownPlaces x) (warnedMultiplicity x)
    (freshNameCounter x) (wakeUpPending x) (draining x) (closed x) (terminalReached x) b (running x) (reason x).
Definition set_terminal (x : exec) : exec :=
  Exec (x_engine x) (inFlight x) (completionQueue x) (externalQueue x) (admissions x) (warnedUnknownPlaces x) (warnedMultiplicity x)
    (freshNameCounter x) (wakeUpPending x) (draining x) (closed x) true (unsettled x) (running x) (reason x).
Definition set_completions (q : list nat) (x : exec) : exec :=
  Exec (x_engine x) (inFlight x) q (externalQueue x) (admissions x) (warnedUnknownPlaces x) (warnedMultiplicity x)
    (freshNameCounter x) (wakeUpPending x) (draining x) (closed x) (terminalReached x) (unsettled x) (running x) (reason x).
Definition set_external (q : list external_event) (adm : list (nat * bool)) (x : exec) : exec :=
  Exec (x_engine x) (inFlight x) (completionQueue x) q adm (warnedUnknownPlaces x) (warnedMultiplicity x)
    (freshNameCounter x) (wakeUpPending x) (draining x) (closed x) (terminalReached x) (unsettled x) (running x) (reason x).
Definition set_warned (places multi : list jsstr) (x : exec) : exec :=
  Exec (x_engine x) (inFlight x) (completionQueue x) (externalQueue x) (admissions x) places multi
    (freshNameCounter x) (wakeUpPending x) (draining x) (closed x) (terminalReached x) (unsettled x) (running x) (reason x).
Definition set_wake (b : bool) (x : exec) : exec :=
  Exec (x_engine x) (inFlight x) (completionQueue x) (externalQueue x) (admissions x) (warnedUnknownPlaces x) (warnedMultiplicity x)
    (freshNameCounter x) b (draining x) (closed x) (terminalReached x) (unsettled x) (running x) (reason x).
Definition set_host (dr cl run : bool) (r : termination_reason) (x : exec) : exec :=
  Exec (x_engine x) (inFlight x) (completionQueue x) (externalQueue x) (admissions x) (warnedUnknownPlaces x) (warnedMultiplicity x)
    (freshNameCounter x) (wakeUpPending x) dr cl (terminalReached x) (unsettled x) run r.
Definition on_engine (f : engine → engine) (x : exec) : exec := set_engine (f (x_engine x)) x.

(** [Map.delete] on the entries in insertion order. *)
Definition flights_delete (tid : nat) (l : list (nat * flight)) : list (nat * flight) :=
  filter (λ y, y.1 ≠ tid) l.

(** The recovery of a firing that threw. *)
Definition fire_failed (tid : nat) (x : exec) : exec :=
  let e := x_engine x in
  let e := if flag (enabledFlags e) tid then disable tid e else e in
  let e := if decide (tid ∈ (inFlight x).*1) then set_inFlight tid false e else e in
  let e := updateBitmapAfterConsumption tid e in
  let e := set_cache tid None e in
  let e := emit (EvTransitionFailed (transition_name tid)) e in
  set_engine (markTransitionDirty tid e) (set_flights (flights_delete tid (inFlight x)) x).

Definition fireTransitionContained (tid : nat) (x : exec) : exec :=
  match c_transition net tid with
  | None => x
  | Some t =>
      match fireTransition tid t (x_engine x) with
      | (e, Some fl) =>
          set_unsettled false (set_flights (map_set tid fl (inFlight x)) (set_engine e x))
      | (e, None) => fire_failed tid (set_unsettled false (set_engine e x))
      end
  end.

Definition fire_immediate (x : exec) (tid : nat) : exec :=
  let e := x_engine x in
  if negb (flag (enabledFlags e) tid) || flag (inFlightFlags e) tid then x
  else if canEnable tid (markingBitmap e) e then fireTransitionContained tid x
  else on_engine (disable tid) x.
Definition fireReadyImmediate (x : exec) : exec := foldl fire_immediate x (seq 0 (transitionCount net)).

Record ready_slot := ReadySlot { rs_tid : nat; rs_priority : Z; rs_enabledAt : option Z }.

Definition is_ready (nowMs : Z) (e : engine) (tid : nat) : option ready_slot :=
  if negb (flag (enabledFlags e) tid) || flag (inFlightFlags e) tid then None
  else match c_transition net tid with
       | None => None
       | Some t => if jnum_ltb (elapsed nowMs tid e) (Fin (earliest (t_timing t))) then None
                   else Some (ReadySlot tid (priority t) (default None (enabledAtMs e !! tid)))
       end.

(** [a.enabledAtMs - b.enabledAtMs <= 0]; the comparator answers [NaN], taken for [0], for two
    stamps of [-Infinity]. *)
Definition stamp_le (a b : option Z) : bool :=
  match a, b with None, _ => true | Some _, None => false | Some x, Some y => (x <=? y)%Z end.

(** The comparator of the sort answers at most zero. *)
Definition slot_le (a b : ready_slot) : bool :=
  if (rs_priority b - rs_priority a =? 0)%Z then stamp_le (rs_enabledAt a) (rs_enabledAt b)
  else (rs_priority b - rs_priority a <? 0)%Z.

Definition fire_slot (acc : exec * list Z) (s : ready_slot) : exec * list Z :=
  let '(x, freshSnap) := acc in
  let tid := rs_tid s in
  if flag (enabledFlags (x_engine x)) tid && canEnable tid freshSnap (x_engine x) then
    let x := fireTransitionContained tid x in (x, markingBitmap (x_engine x))
  else (on_engine (disable tid) x, freshSnap).

Definition fireReadyGeneral (nowMs : Z) (x : exec) : exec :=
  let ready := omap (is_ready nowMs (x_engine x)) (seq 0 (transitionCount net)) in
  if bool_decide (length ready = 0) then x
  else fst (foldl fire_slot (x, markingBitmap (x_engine x)) (stable_sort slot_le ready)).

Definition fireReadyTransitions (nowMs : Z) (x : exec) : exec :=
  if allImmediate cf && allSamePriority cf then fireReadyImmediate x else fireReadyGeneral nowMs x.
End Executor.

Arguments EvTransitionEnabled {V}. Arguments EvClockRestarted {V}. Arguments EvTransitionTimedOut {V}.
Arguments EvTokenRemoved {V}. Arguments EvTokenAdded {V}. Arguments EvTransitionStarted {V}.
Arguments EvTransitionCompleted {V}. Arguments EvTransitionFailed {V}. Arguments EvActionTimedOut {V}.
Arguments EvUnknownPlace {V}. Arguments EvDeadArc {V}. Arguments EvMultiplicity {V}.
Arguments Flight {V}. Arguments fl_context {V}. Arguments fl_consumed {V}. Arguments fl_matchedName {V}.
Arguments fl_error {V}. Arguments fl_settled {V}.
Arguments ExternalEvent {V}. Arguments ev_id {V}. Arguments ev_place {V}. Arguments ev_token {V}.
Arguments Engine {V}. Arguments e_marking {V}. Arguments markingBitmap {V}. Arguments dirtySet {V}.
Arguments enabledAtMs {V}. Arguments inFlightFlags {V}. Arguments enabledFlags {V}.
Arguments enabledTransitionCount {V}. Arguments restartPendingWords {V}. Arguments anyRestartPending {V}.
Arguments matchCaches {V}. Arguments e_log {V}.
Arguments Exec {V}. Arguments x_engine {V}. Arguments inFlight {V}. Arguments completionQueue {V}.
Arguments externalQueue {V}. Arguments admissions {V}. Arguments warnedUnknownPlaces {V}.
Arguments warnedMultiplicity {V}. Arguments freshNameCounter {V}. Arguments wakeUpPending {V}.
Arguments draining {V}. Arguments closed {V}. Arguments terminalReached {V}. Arguments unsettled {V}.
Arguments running {V}. Arguments reason {V}.
Arguments Config {V}. Arguments cf_compiled {V}. Arguments cf_thresholds {V}. Arguments placeMatchTargets {V}.
Arguments hasDeadlineFlags {V}. Arguments isExactFlags {V}. Arguments hasAnyDeadlines {V}.
Arguments allImmediate {V}. Arguments allSamePriority {V}. Arguments deadlineToleranceMs {V}.
Arguments environmentPlaces {V}. Arguments executionScope {V}.
Arguments set_marking {V}. Arguments set_bitmap {V}. Arguments set_dirty {V}. Arguments set_enabledAt {V}.
Arguments set_inFlight {V}. Arguments set_enabled {V}. Arguments set_restart {V}. Arguments set_cache {V}.
Arguments emit {V}. Arguments disable {V}. Arguments transition_name {V}. Arguments tokens_at {V}.
Arguments canEnable {V}. Arguments markTransitionDirty {V}. Arguments markDirty {V}. Arguments hasDirtyBits {V}.
Arguments rescan {V}. Arguments updateDirtyTransitions {V}. Arguments elapsed {V}. Arguments enforce_deadline {V}.
Arguments enforceDeadlines {V}. Arguments flag_intermediate {V}. Arguments flagIntermediateDisablements {V}.
Arguments update_consumed {V}. Arguments updateBitmapAfterConsumption {V}. Arguments input_predicate {V}.
Arguments consume_count {V}. Arguments Firing {V}. Arguments f_engine {V}. Arguments f_consumed {V}.
Arguments f_inputs {V}. Arguments consume_loop {V}. Arguments consume_input_spec {V}. Arguments read_arc {V}.
Arguments reset_arc {V}. Arguments chosen_name {V}. Arguments mirror_consume {V}. Arguments consume_all {V}.
Arguments fireTransition {V}. Arguments set_flights {V}. Arguments set_engine {V}. Arguments set_unsettled {V}.
Arguments set_terminal {V}. Arguments set_completions {V}. Arguments set_external {V}. Arguments set_warned {V}.
Arguments set_wake {V}. Arguments set_host {V}. Arguments on_engine {V}. Arguments flights_delete {V}.
Arguments fire_failed {V}. Arguments fireTransitionContained {V}. Arguments fire_immediate {V}.
Arguments fireReadyImmediate {V}. Arguments is_ready {V}. Arguments fire_slot {V}. Arguments fireReadyGeneral {V}.
Arguments fireReadyTransitions {V}.
