(* ===== verification/ExecScan.v ===== *)
(** * The dirty scan visits exactly the set bits

    The loop of [updateDirtyTransitions] over the words of the dirty set isolates the lowest set
    bit with [word & -word] and [Math.clz32] and clears it with [word & (word - 1)], on words that
    JavaScript turns into signed integers after the first step. It visits the set bits below the
    transition count in ascending order, each once. *)
From S2P Require Import Prelude.
From S2P Require Import Bitmap.
From S2P Require Import Executor.

(** ** One word *)

Section Lowest.
#[local] Open Scope Z_scope.
Variables (word k : Z).
Hypothesis (Hk : 0 <= k < 32) (Hbit : Z.testbit word k = true).
Hypothesis Hlow : ∀ i, 0 <= i < k → Z.testbit word i = false.

Lemma lowest_factor : word = 2 ^ k * (word / 2 ^ k) ∧ Z.testbit (word / 2 ^ k) 0 = true.
Proof.
  assert (word mod 2 ^ k = 0) as Hm.
  { apply Z.bits_inj'. intros i Hi. rewrite Z.bits_0. destruct (Z_lt_dec i k).
    - rewrite Z.mod_pow2_bits_low by done. by apply Hlow.
    - apply Z.mod_pow2_bits_high. lia. }
  split.
  - rewrite (Z.div_mod word (2 ^ k)) at 1 by lia. lia.
  - rewrite <- Z.shiftr_div_pow2, Z.shiftr_spec by lia. by rewrite Z.add_0_l.
Qed.

Lemma neg_testbit i : 0 <= i →
  Z.testbit (- word) i = if i <? k then false else if i =? k then true else negb (Z.testbit word i).
Proof.
  intros Hi. destruct lowest_factor as [E Hodd]. set (q := word / 2 ^ k) in *.
  assert (∀ a, Z.testbit (2 ^ k * a) i = if i <? k then false else Z.testbit a (i - k)) as Hmul.
  { intros a. rewrite Z.mul_comm, Z.mul_pow2_bits by lia. destruct (i <? k) eqn:?; b2p; [|done].
    by apply Z.testbit_neg_r; lia. }
  rewrite E at 1. replace (- (2 ^ k * q)) with (2 ^ k * (- q)) by lia. rewrite Hmul.
  destruct (i <? k) eqn:Elt; [done|]. b2p.
  replace (- q) with (Z.lnot (q - 1)) by (unfold Z.lnot; lia). rewrite Z.lnot_spec by lia.
  rewrite Z.bit0_odd in Hodd. apply Z.odd_spec in Hodd as [p Hp].
  replace (q - 1) with (2 * p) by lia. destruct (i =? k) eqn:Eik; b2p.
  - subst i. rewrite Z.sub_diag. by rewrite Z.testbit_even_0.
  - f_equal. rewrite E, Hmul. replace (i <? k) with false by (symmetry; apply Z.ltb_ge; lia).
    replace (i - k) with (Z.succ (i - k - 1)) by lia.
    rewrite Z.testbit_even_succ by lia. rewrite Hp, Z.testbit_odd_succ by lia. done.
Qed.

Lemma isolate_testbit i : 0 <= i < 32 → Z.testbit (js_and word (- word)) i = (i =? k).
Proof.
  intros Hi. unfold js_and. rewrite Z.land_spec, !to_int32_testbit, neg_testbit by lia.
  destruct (i <? k) eqn:E1; b2p.
  - rewrite andb_false_r. symmetry. apply Z.eqb_neq. lia.
  - destruct (i =? k) eqn:E2; b2p; [subst; by rewrite Hbit|]. by destruct (Z.testbit word i).
Qed.

Lemma lowest_bit_spec : lowest_bit word = k.
Proof.
  assert (to_uint32 (js_and word (- word)) = 2 ^ k) as E.
  { apply word32_eq; [apply to_uint32_word| |].
    - unfold word32. split; [lia|]. apply Z.pow_lt_mono_r; lia.
    - intros i Hi. rewrite to_uint32_testbit by lia. replace (i <? 32) with true by (symmetry; apply Z.ltb_lt; lia).
      simpl. rewrite isolate_testbit, Z.pow2_bits_eqb by lia. by rewrite Z.eqb_sym. }
  unfold lowest_bit, clz32. rewrite E. assert (0 < 2 ^ k) by lia.
  replace (2 ^ k =? 0) with false by (symmetry; apply Z.eqb_neq; lia). rewrite Z.log2_pow2 by lia.
  assert (∀ n, (n < 32)%nat → Z.lxor (31 - Z.of_nat n) 31 = Z.of_nat n) as H32.
  { intros n Hn. do 32 (destruct n as [|n]; [done|]). lia. }
  rewrite <- (Z2Nat.id k) by lia. apply H32. lia.
Qed.

Lemma clear_lowest_testbit i : 0 <= i < 32 →
  Z.testbit (clear_lowest word) i = Z.testbit word i && negb (i =? k).
Proof.
  intros Hi. unfold clear_lowest, js_and. rewrite Z.land_spec, !to_int32_testbit by lia.
  replace (word - 1) with (Z.lnot (- word)) by (unfold Z.lnot; lia).
  rewrite Z.lnot_spec, neg_testbit by lia. destruct (i <? k) eqn:E1; b2p.
  - rewrite (Hlow i) by lia. done.
  - destruct (i =? k) eqn:E2; simpl; [done|]. by destruct (Z.testbit word i).
Qed.
End Lowest.

(** A word as the loop holds it: unsigned at first, signed afterwards. *)
Definition word_like (x : Z) : Prop := word32 x ∨ x = to_int32 x.

Lemma clear_lowest_like x : word_like (clear_lowest x).
Proof.
  right. unfold clear_lowest, js_and. apply Z.bits_inj'. intros i Hi.
  destruct (Z_lt_dec i 32).
  - by rewrite to_int32_testbit.
  - rewrite to_int32_sign, !Z.land_spec by lia. f_equal; rewrite !to_int32_sign by lia; done.
Qed.

Lemma word_like_zero x : word_like x → (∀ i, (0 ≤ i < 32)%Z → Z.testbit x i = false) → x = 0%Z.
Proof.
  intros H Hb. assert (to_uint32 x = 0%Z) as E.
  { apply word32_eq; [apply to_uint32_word|unfold word32; lia|]. intros i Hi.
    rewrite to_uint32_testbit, Z.bits_0, Hb by lia. by rewrite andb_false_r. }
  destruct H as [H|H].
  - unfold to_uint32, word32 in *. by rewrite Z.mod_small in E.
  - rewrite H. unfold to_int32. by rewrite E.
Qed.

Definition set_bits (word : Z) (w count : nat) (tid : nat) : Prop :=
  tid < count ∧ Z.testbit word (Z.of_nat (tid - 32 * w)) = true.
#[export] Instance set_bits_dec word w count tid : Decision (set_bits word w count tid).
Proof. unfold set_bits. apply _. Defined.

Lemma tid_of w b : (0 ≤ b < 32)%Z → Z.to_nat (Z.lor (Z.shiftl (Z.of_nat w) WORD_SHIFT) b) = 32 * w + Z.to_nat b.
Proof.
  intros Hb. unfold WORD_SHIFT. assert (Z.land (Z.shiftl (Z.of_nat w) 5) b = 0%Z) as Hd.
  { apply Z.bits_inj'. intros i Hi. rewrite Z.land_spec, Z.bits_0, Z.shiftl_spec by lia. destruct (Z_lt_dec i 5).
    + by rewrite Z.testbit_neg_r by lia.
    + destruct (decide (b = 0)%Z) as [->|]; [by rewrite Z.testbit_0_l, andb_false_r|].
      assert (Z.log2 b < 5)%Z by (apply Z.log2_lt_pow2; lia).
      by rewrite (Z.bits_above_log2 b i), andb_false_r by lia. }
  rewrite <- Z.lxor_lor, <- Z.add_nocarry_lxor by done.
  rewrite Z.shiftl_mul_pow2 by lia. change (2 ^ 5)%Z with 32%Z. lia.
Qed.

(** The scan of a word whose bits below [k] are visited. *)
Lemma scan_word_spec {S} (visit : nat → S → S) count w n k fuel word s :
  n + k = 32 → n ≤ fuel → word_like word → (∀ i, (0 ≤ i < Z.of_nat k)%Z → Z.testbit word i = false) →
  scan_word fuel visit count w word s =
  foldl (λ s tid, visit tid s) s (filter (set_bits word w count) (seq (32 * w + k) n)).
Proof.
  revert k fuel word s. induction n as [|n IH]; intros k fuel word s Hk Hf Hw Hlow.
  { destruct fuel; [done|]. cbn [scan_word]. rewrite (word_like_zero word); [done|done|].
    intros i Hi. apply Hlow. lia. }
  destruct (Z.testbit word (Z.of_nat k)) eqn:Eb.
  - destruct fuel as [|fuel]; [lia|]. cbn [scan_word seq]. destruct (word =? 0)%Z eqn:E0; b2p.
    { subst word. by rewrite Z.testbit_0_l in Eb. }
    assert (lowest_bit word = Z.of_nat k) as -> by (apply lowest_bit_spec; [lia|done|done]).
    rewrite tid_of, Nat2Z.id, filter_cons by lia. destruct (count <=? 32 * w + k) eqn:Ec; b2p.
    + rewrite decide_False by (intros [? _]; lia).
      rewrite filter_none; [done|]. intros tid Hi%elem_of_seq [? _]. lia.
    + rewrite decide_True by (split; [lia|by replace (32 * w + k - 32 * w) with k by lia]).
      cbn [foldl]. rewrite (IH (Datatypes.S k)); [|lia|lia|apply clear_lowest_like|].
      * replace (32 * w + Datatypes.S k) with (Datatypes.S (32 * w + k)) by lia. f_equal.
        apply filter_ext_in. intros tid Hi%elem_of_seq. unfold set_bits.
        split; (intros [? Hb]; split; [done|]); [|rewrite (clear_lowest_testbit word (Z.of_nat k)), Hb by (done || lia)].
        -- rewrite (clear_lowest_testbit word (Z.of_nat k)) in Hb by (done || lia). by apply andb_true_iff in Hb as [? _].
        -- simpl. apply negb_true_iff, Z.eqb_neq. lia.
      * intros i Hi. rewrite (clear_lowest_testbit word (Z.of_nat k)) by (done || lia).
        destruct (decide (i = Z.of_nat k)) as [->|]; [by rewrite Z.eqb_refl, andb_false_r|].
        by rewrite Hlow by lia.
  - cbn [seq]. rewrite filter_cons, decide_False.
    + rewrite (IH (Datatypes.S k)); [|lia|lia|done|].
      * by replace (32 * w + Datatypes.S k) with (Datatypes.S (32 * w + k)) by lia.
      * intros i Hi. destruct (decide (i = Z.of_nat k)) as [->|]; [done|]. apply Hlow. lia.
    + intros [_ Hb]. replace (32 * w + k - 32 * w) with k in Hb by lia. congruence.
Qed.

(** ** All words *)

Lemma bit_of_word words w i : i < 32 → bit_of words (32 * w + i) = Z.testbit (word_at words w) (Z.of_nat i).
Proof.
  intros Hi. unfold bit_of. rewrite (Nat.mul_comm 32 w), Nat.div_add_l, Nat.div_small, Nat.add_0_r by lia.
  rewrite Nat.add_comm, Nat.Div0.mod_add, Nat.mod_small by lia. done.
Qed.

(** The transitions the dirty set names, in order. *)
Definition dirty_tids (words : list Z) (count : nat) : list nat :=
  filter (λ tid, bit_of words tid = true) (seq 0 count).

Lemma scan_words_foldl {S} (visit : nat → S → S) count words w s :
  Forall word32 words →
  scan_words visit count w words s =
  foldl (λ s tid, visit tid s) s
    (filter (λ tid, tid < count ∧ bit_of words (tid - 32 * w) = true) (seq (32 * w) (32 * length words))).
Proof.
  intros H. revert w s. induction H as [|word words Hw H IH]; intros w s; [done|]. cbn [scan_words length].
  rewrite (scan_word_spec visit count w 32 0) by (try done; try lia; by left).
  rewrite IH. replace (32 * Datatypes.S (length words)) with (32 + 32 * length words) by lia.
  rewrite seq_app, filter_app, foldl_app. replace (32 * w + 0) with (32 * w) by lia.
  replace (32 * Datatypes.S w) with (32 * w + 32) by lia. f_equal.
  - f_equal. apply filter_ext_in. intros tid Hi%elem_of_seq. unfold set_bits.
    replace (tid - 32 * w) with (32 * 0 + (tid - 32 * w)) at 2 by lia. rewrite bit_of_word by lia. done.
  - apply filter_ext_in. intros tid Hi%elem_of_seq. 
    replace (tid - 32 * w) with (32 * (Datatypes.S ((tid - (32 * w + 32)) / 32)) + (tid - (32 * w + 32)) mod 32).
    + rewrite bit_of_word by (apply Nat.mod_upper_bound; lia). done.
    + pose proof (Nat.div_mod_eq (tid - (32 * w + 32)) 32). lia.
Qed.

Lemma scan_words_spec {S} (visit : nat → S → S) count words s :
  words_ok words → count ≤ 32 * length words →
  scan_words visit count 0 words s = foldl (λ s tid, visit tid s) s (dirty_tids words count).
Proof.
  intros Hok Hc. rewrite scan_words_foldl by done. f_equal. unfold dirty_tids.
  replace (32 * length words) with (count + (32 * length words - count)) by lia.
  rewrite seq_app, filter_app. rewrite (filter_ext_in _ (λ tid, bit_of words tid = true)).
  - rewrite (filter_none _ (seq (0 + count) _)), app_nil_r; [done|]. intros tid Hi%elem_of_seq [? _]. lia.
  - intros tid Hi%elem_of_seq. rewrite Nat.mul_0_r, Nat.sub_0_r. split; [tauto|]. intros. split; [lia|done].
Qed.

(** ** Properties *)

(** The dirty scan is exact: over words of 32 bits that hold the transition count, the bit
    tricks visit the transitions whose bit is set, each once, in ascending order, and nothing
    beyond the count. *)
Theorem scan_words_exact words count :
  words_ok words → count ≤ 32 * length words →
  scan_words (λ tid seen, seen ++ [tid]) count 0 words [] = filter (λ tid, testBit words tid = true) (seq 0 count).
Proof.
  intros Hok Hc. rewrite scan_words_spec by done. unfold dirty_tids.
  rewrite (filter_ext_in (λ tid, testBit words tid = true) (λ tid, bit_of words tid = true))
    by (intros; by rewrite testBit_spec).
  generalize (filter (λ tid, bit_of words tid = true) (seq 0 count)). intros l.
  assert (∀ acc, foldl (λ seen tid, seen ++ [tid]) acc l = acc ++ l) as H; [|apply H].
  induction l as [|x l IH]; intros acc; simpl; [by rewrite app_nil_r|]. by rewrite IH, <- app_assoc.
Qed.

Lemma scan_words_exact_witness :
  scan_words (λ tid seen, seen ++ [tid]) 40 0 [2147483656; 129]%Z [] = [3; 31; 32; 39] ∧
  scan_words (λ tid seen, seen ++ [tid]) 40 0 [2147483656; 129]%Z [] =
    filter (λ tid, testBit [2147483656; 129]%Z tid = true) (seq 0 40).
Proof.
  split; [vm_compute; reflexivity|]. apply scan_words_exact.
  - apply (bool_decide_unpack _). vm_compute. exact I.
  - apply (bool_decide_unpack _). vm_compute. exact I.
Defined.
