(* ===== verification/ExecFire.v ===== *)
(** * What a firing takes from the marking

    The consumption of [fireTransition] against its specification: the tokens an input takes, the
    marking it leaves, the inputs the action sees and the order of the removals. *)
From S2P Require Import Prelude.
From S2P Require Import Net.
From S2P Require Import Out.
From S2P Require Import Transition.
From S2P Require Import Marking.
From S2P Require Import MatchEngine.
From S2P Require Import PetriNet.
From S2P Require Import Bitmap.
From S2P Require Import CompiledNet.
From S2P Require Import Context.
From S2P Require Import Executor.

Section Fire.
Context {V : Type}.
Implicit Types (e : engine V) (tr : transition V) (m : marking V) (f : firing V) (q : list (token V)).

(** The fields of an engine other than its marking, its matchers and its log. *)
Definition frame e :=
  (markingBitmap e, dirtySet e, enabledAtMs e, inFlightFlags e, enabledFlags e, enabledTransitionCount e,
   restartPendingWords e, anyRestartPending e).

(** [q] without its first [k] tokens that satisfy [g]. *)
Fixpoint remove_matching (g : option V → bool) (k : nat) q : list (token V) :=
  match q, k with
  | [], _ => []
  | _, O => q
  | t :: q', S k' => if g (tok_value t) then remove_matching g k' q' else t :: remove_matching g k q'
  end.

Definition matching (g : option V → bool) q : list (token V) := filter (λ t, g (tok_value t) = true) q.

Definition pred_of (pred : option (option V → bool)) : option V → bool := default (λ _, true) pred.

Lemma remove_matching_0 g q : remove_matching g 0 q = q.
Proof. by destruct q. Qed.

Lemma remove_matching_nil g k : remove_matching g k [] = [].
Proof. by destruct k. Qed.

Lemma remove_matching_true k q : remove_matching (λ _, true) k q = drop k q.
Proof. revert k. induction q as [|t q IH]; intros [|k]; simpl; auto. Qed.

Lemma matching_true q : matching (λ _, true) q = q.
Proof. unfold matching. induction q as [|t q IH]; [done|]. by rewrite filter_cons, decide_True, IH. Qed.

Lemma splice_first_removes g q u q' k : splice_first g q = Some (u, q') →
  remove_matching g (S k) q = remove_matching g k q' ∧ matching g q = u :: matching g q'.
Proof.
  rewrite splice_first_Some. unfold matching. induction 1 as [t q Ht|t q u q' Ht _ [IH1 IH2]]; simpl.
  - rewrite Ht, filter_cons, decide_True by done. done.
  - rewrite Ht, !filter_cons, decide_False by congruence. rewrite decide_False by congruence.
    split; [|by rewrite IH2]. rewrite IH1. destruct k; cbn [remove_matching]; by rewrite ?Ht, ?remove_matching_0.
Qed.

Lemma splice_first_none g q k : splice_first g q = None → remove_matching g k q = q ∧ matching g q = [].
Proof.
  rewrite splice_first_None. unfold matching. induction q as [|t q IH]; intros H; simpl; [by destruct k|].
  rewrite filter_cons, (H t) by left. destruct IH as [IH1 IH2]; [intros; apply H; by right|].
  rewrite IH2. split; [|done]. destruct k; [done|]. by rewrite IH1.
Qed.

(** One removal, by predicate or from the front. *)
Lemma remove_one p pred m :
  match (match pred with Some _ => removeFirstMatching (p, pred) m | None => removeFirst p m end) with
  | (Some t, m') => ∃ q', splice_first (pred_of pred) (queue m (place_name p)) = Some (t, q') ∧ m' = set_queue p q' m
  | (None, _) => splice_first (pred_of pred) (queue m (place_name p)) = None
  end.
Proof.
  unfold removeFirstMatching, removeFirst, queue. destruct pred as [g|]; simpl;
    (destruct (map_get (place_name p) (m_tokens m)) as [[|t q]|]; simpl; [done| |done]).
  - destruct (g (tok_value t)); [by eexists|].
    destruct (splice_first g q) as [[u q']|]; [by eexists|done].
  - by eexists.
Qed.

Definition removal_events (p : place) (toks : list (token V)) : list (net_event V) :=
  (λ t, EvTokenRemoved (place_name p) t) <$> toks.

(** [f'] is [f] after taking [toks] from [p] and leaving [rest] there. *)
Definition took (p : place) (toks rest : list (token V)) (f f' : firing V) : Prop :=
  frame (f_engine f') = frame (f_engine f) ∧ matchCaches (f_engine f') = matchCaches (f_engine f) ∧
  f_consumed f' = f_consumed f ++ toks ∧
  e_log (f_engine f') = e_log (f_engine f) ++ removal_events p toks ∧
  ∀ n, queue (e_marking (f_engine f')) n =
       if decide (n = place_name p) then rest else queue (e_marking (f_engine f)) n.

Lemma consume_loop_spec p pred n f :
  let q := queue (e_marking (f_engine f)) (place_name p) in
  let toks := firstn n (matching (pred_of pred) q) in
  took p toks (remove_matching (pred_of pred) n q) f (consume_loop p pred n f) ∧
  f_inputs (consume_loop p pred n f) = foldl (λ ti t, ti_add p t ti) (f_inputs f) toks.
Proof.
  revert f. induction n as [|n IH]; intros f; cbn [consume_loop].
  { simpl. split; [|done]. unfold took, removal_events. rewrite remove_matching_0, !app_nil_r. split_and!; try done.
    intros x. by case_decide; subst. }
  pose proof (remove_one p pred (e_marking (f_engine f))) as Hr. cbv zeta.
  destruct (match pred with Some _ => _ | None => _ end) as [[t|] m'].
  - destruct Hr as (q' & Hs & ->). destruct (splice_first_removes _ _ _ _ n Hs) as [-> ->].
    specialize (IH (Firing (emit (EvTokenRemoved (place_name p) t) (set_marking (set_queue p q' (e_marking (f_engine f))) (f_engine f)))
                      (f_consumed f ++ [t]) (ti_add p t (f_inputs f)))).
    cbn zeta in IH. destruct IH as [(I1 & I2 & I3 & I4 & I5) I6].
    cbn [f_engine f_consumed f_inputs] in *. unfold emit, set_marking in *. cbn [e_marking e_log] in *.
    rewrite queue_set, decide_True in * by done.
    split; [|by rewrite I6].
    unfold took, removal_events in *. split_and!.
    + by rewrite I1.
    + by rewrite I2.
    + rewrite I3, <- app_assoc. done.
    + rewrite I4, <- app_assoc. done.
    + intros x. rewrite I5, queue_set. by case_decide.
  - destruct (splice_first_none _ _ (S n) Hr) as [-> ->]. simpl. split; [|done].
    unfold took, removal_events. rewrite !app_nil_r. split_and!; try done. intros x. by case_decide; subst.
Qed.

(** ** The tokens of one input *)

Definition input_pred t chosen (s : in_spec) : option V → bool := pred_of (input_predicate t chosen s).

(** How many tokens an input takes from its queue. *)
Definition input_count t chosen (s : in_spec) q : nat :=
  match s with
  | InOne _ => 1
  | InExactly _ n => Z.to_nat n
  | InAll _ | InAtLeast _ _ => length (matching (input_pred t chosen s) q)
  end.
Definition input_taken t chosen (s : in_spec) q : list (token V) :=
  firstn (input_count t chosen s q) (matching (input_pred t chosen s) q).
Definition input_left t chosen (s : in_spec) q : list (token V) :=
  remove_matching (input_pred t chosen s) (input_count t chosen s q) q.

Lemma countMatching_queue p g m :
  countMatching (p, Some g) m = length (matching g (queue m (place_name p))).
Proof.
  unfold countMatching, queue, matching. simpl. destruct (map_get (place_name p) (m_tokens m)) as [[|t q]|]; simpl; try done.
  rewrite countMatching_foldl, filter_cons. case_decide as E; [rewrite E; simpl; lia|].
  by destruct (g (tok_value t)).
Qed.

Lemma tokenCount_queue p m : tokenCount p m = length (queue m (place_name p)).
Proof. unfold tokenCount, queue. by destruct (map_get _ _). Qed.

Lemma consume_count_spec t chosen s m :
  consume_count s (input_predicate t chosen s) m =
  input_count t chosen s (queue m (place_name (in_place s))).
Proof.
  unfold input_count, input_pred.
  destruct s; simpl; try done;
    (destruct (input_predicate t chosen _) as [g|]; simpl; [by rewrite countMatching_queue|]);
    by rewrite matching_true, tokenCount_queue.
Qed.

Lemma consume_input_spec_spec t chosen f s :
  let q := queue (e_marking (f_engine f)) (place_name (in_place s)) in
  took (in_place s) (input_taken t chosen s q) (input_left t chosen s q) f (consume_input_spec t chosen f s) ∧
  f_inputs (consume_input_spec t chosen f s) = foldl (λ ti k, ti_add (in_place s) k ti) (f_inputs f) (input_taken t chosen s q).
Proof. unfold consume_input_spec. rewrite consume_count_spec. apply consume_loop_spec. Qed.

(** ** All inputs, then the resets *)

Definition left_after t chosen (m : marking V) (n : jsstr) : list (token V) :=
  match js_find (λ s, bool_decide (place_name (in_place s) = n)) (inputSpecs t) with
  | Some s => input_left t chosen s (queue m n)
  | None => queue m n
  end.

Definition taken_by t chosen m (specs : list in_spec) : list (token V) :=
  s ← specs; input_taken t chosen s (queue m (place_name (in_place s))).

(** The events of the removals made for the inputs, in order. *)
Definition taken_events t chosen m (specs : list in_spec) : list (net_event V) :=
  s ← specs; removal_events (in_place s) (input_taken t chosen s (queue m (place_name (in_place s)))).

Lemma js_find_cons {A} (g : A → bool) x l :
  js_find g (x :: l) = if g x then Some x else js_find g l.
Proof.
  unfold js_find. simpl. destruct (decide (g x)) as [Hg|Hg]; destruct (g x) eqn:E; try done.
  all: try (by destruct Hg). destruct (list_find (λ x, g x) l) as [[]|]; done.
Qed.

Lemma js_find_name_None specs n :
  n ∉ input_names specs → js_find (λ s, bool_decide (place_name (in_place s) = n)) specs = None.
Proof.
  unfold input_names. induction specs as [|s specs IH]; [done|]. rewrite fmap_cons, js_find_cons, elem_of_cons.
  intros H. rewrite bool_decide_false by naive_solver. apply IH. tauto.
Qed.

Lemma consume_inputs_spec t chosen specs f :
  NoDup (input_names specs) →
  let f' := foldl (consume_input_spec t chosen) f specs in
  let m := e_marking (f_engine f) in
  frame (f_engine f') = frame (f_engine f) ∧ matchCaches (f_engine f') = matchCaches (f_engine f) ∧
  f_consumed f' = f_consumed f ++ taken_by t chosen m specs ∧
  e_log (f_engine f') = e_log (f_engine f) ++ taken_events t chosen m specs ∧
  ∀ n, queue (e_marking (f_engine f')) n =
       match js_find (λ s, bool_decide (place_name (in_place s) = n)) specs with
       | Some s => input_left t chosen s (queue m n)
       | None => queue m n
       end.
Proof.
  revert f. induction specs as [|s specs IH]; intros f Hd; cbn zeta.
  { simpl. by rewrite !app_nil_r. }
  unfold input_names in Hd. rewrite fmap_cons in Hd. apply NoDup_cons in Hd as [Hs Hd]. cbn [foldl].
  destruct (consume_input_spec_spec t chosen f s) as [(F1 & F2 & F3 & F4 & F5) _].
  destruct (IH (consume_input_spec t chosen f s) Hd) as (I1 & I2 & I3 & I4 & I5).
  assert (∀ s', s' ∈ specs → queue (e_marking (f_engine (consume_input_spec t chosen f s))) (place_name (in_place s')) =
                             queue (e_marking (f_engine f)) (place_name (in_place s'))) as Hq.
  { intros s' Hs'. rewrite F5, decide_False; [done|]. intros E. apply Hs. rewrite <- E.
    by apply (list_elem_of_fmap_2 (λ s, place_name (in_place s))). }
  assert (∀ A (g h : in_spec → list A), (∀ s', s' ∈ specs → g s' = h s') → specs ≫= g = specs ≫= h) as Hb.
  { clear. intros A g h H. induction specs as [|s' specs IH]; [done|]. cbn. rewrite IH, H; [done|left|].
    intros. apply H. by right. }
  split_and!.
  - by rewrite I1, F1.
  - by rewrite I2, F2.
  - rewrite I3, F3, <- app_assoc. f_equal. unfold taken_by. cbn. f_equal. apply Hb. intros s' Hs'. by rewrite Hq.
  - rewrite I4, F4, <- app_assoc. f_equal. unfold taken_events. cbn. f_equal. apply Hb. intros s' Hs'. by rewrite Hq.
  - intros n. rewrite I5, js_find_cons, F5. case_bool_decide as E.
    + rewrite js_find_name_None by (by rewrite <- E). by rewrite decide_True, E.
    + rewrite decide_False by done. done.
Qed.

Lemma read_arcs_spec ps f :
  f_engine (foldl read_arc f ps) = f_engine f ∧ f_consumed (foldl read_arc f ps) = f_consumed f.
Proof.
  revert f. induction ps as [|p ps IH]; intros f; [done|]. cbn [foldl]. destruct (IH (read_arc f p)) as [-> ->].
  unfold read_arc. by destruct (peekFirst p (e_marking (f_engine f))).
Qed.

Lemma emit_removals p toks e :
  let e' := foldl (λ e t, emit (EvTokenRemoved (place_name p) t) e) e toks in
  frame e' = frame e ∧ matchCaches e' = matchCaches e ∧ e_marking e' = e_marking e ∧
  e_log e' = e_log e ++ removal_events p toks.
Proof.
  revert e. induction toks as [|t toks IH]; intros e; cbn zeta; simpl; [by rewrite app_nil_r|].
  destruct (IH (emit (EvTokenRemoved (place_name p) t) e)) as (-> & -> & -> & ->). simpl.
  by rewrite <- app_assoc.
Qed.

Lemma reset_arc_spec f p :
  took p (queue (e_marking (f_engine f)) (place_name p)) [] f (reset_arc f p) ∧ f_inputs (reset_arc f p) = f_inputs f.
Proof.
  unfold reset_arc. rewrite removeAll_spec. split; [|done].
  destruct (queue (e_marking (f_engine f)) (place_name p)) as [|t q] eqn:Eq; cbn [fst snd].
  - simpl. unfold took, removal_events. simpl. rewrite !app_nil_r. split_and!; try done. intros n. case_decide; by subst.
  - destruct (emit_removals p (t :: q) (set_marking (set_queue p [] (e_marking (f_engine f))) (f_engine f))) as (E1 & E2 & E3 & E4).
    cbn [f_engine f_consumed]. unfold took. split_and!.
    + cbn [f_engine]. rewrite E1. done.
    + cbn [f_engine]. by rewrite E2.
    + done.
    + cbn [f_engine]. by rewrite E4.
    + intros n. cbn [f_engine]. rewrite E3. unfold set_marking. cbn [e_marking]. by rewrite queue_set.
Qed.

(** What draining the places takes; a place drained twice gives its tokens once. *)
Fixpoint reset_taken (seen : list jsstr) m (ps : list place) : list (token V) :=
  match ps with
  | [] => []
  | p :: ps => (if decide (place_name p ∈ seen) then [] else queue m (place_name p))
               ++ reset_taken (place_name p :: seen) m ps
  end.

Lemma reset_taken_ext seen m m' ps :
  (∀ n, n ∉ seen → queue m n = queue m' n) → reset_taken seen m ps = reset_taken seen m' ps.
Proof.
  revert seen. induction ps as [|p ps IH]; intros seen H; [done|]. cbn [reset_taken]. f_equal.
  - case_decide; [done|]. by apply H.
  - apply IH. intros n Hn. apply H. set_solver.
Qed.

Lemma reset_taken_seen seen seen' m ps :
  (∀ n, n ∈ seen ↔ n ∈ seen' ∨ (n ∈ seen ∧ queue m n = [])) → (∀ n, n ∈ seen' → n ∈ seen) →
  reset_taken seen m ps = reset_taken seen' m ps.
Proof.
  revert seen seen'. induction ps as [|p ps IH]; intros seen seen' H H'; [done|]. cbn [reset_taken]. f_equal.
  - repeat case_decide; try done; naive_solver.
  - apply IH; set_solver.
Qed.

Lemma resets_spec ps f :
  let f' := foldl reset_arc f ps in
  frame (f_engine f') = frame (f_engine f) ∧ matchCaches (f_engine f') = matchCaches (f_engine f) ∧
  f_inputs f' = f_inputs f ∧ f_consumed f' = f_consumed f ++ reset_taken [] (e_marking (f_engine f)) ps ∧
  ∀ n, queue (e_marking (f_engine f')) n =
       if decide (n ∈ place_name <$> ps) then [] else queue (e_marking (f_engine f)) n.
Proof.
  revert f. induction ps as [|p ps IH]; intros f; cbn zeta; [simpl; by rewrite app_nil_r|]. cbn [foldl].
  destruct (reset_arc_spec f p) as [(F1 & F2 & F3 & _ & F5) F6].
  destruct (IH (reset_arc f p)) as (I1 & I2 & I3 & I4 & I5). split_and!.
  - by rewrite I1.
  - by rewrite I2.
  - by rewrite I3.
  - rewrite I4, F3, <- app_assoc. f_equal. cbn [reset_taken]. rewrite decide_False by apply not_elem_of_nil. f_equal.
    rewrite (reset_taken_ext [place_name p] _ (e_marking (f_engine (reset_arc f p)))).
    + symmetry. apply reset_taken_seen; [|intros n ?%not_elem_of_nil; done].
      intros n. split; [|by intros [?%not_elem_of_nil|[? _]]]. intros Hn. right. split; [done|].
      apply list_elem_of_singleton in Hn as ->. by rewrite F5, decide_True.
    + intros n Hn. rewrite F5, decide_False; [done|]. set_solver.
  - intros n. rewrite I5, F5, fmap_cons. repeat case_decide; try done; set_solver.
Qed.

(** ** The whole firing *)

Lemma mirror_consume_frame t tid chosen e :
  frame (mirror_consume t tid chosen e) = frame e ∧ e_marking (mirror_consume t tid chosen e) = e_marking e.
Proof.
  unfold mirror_consume. destruct (t_matchSpec t), (default None (matchCaches e !! tid)), chosen; done.
Qed.

(** The marking a firing leaves: inputs taken, then reset places emptied. *)
Definition marking_after t chosen m (n : jsstr) : list (token V) :=
  if decide (n ∈ place_name <$> resets t) then [] else left_after t chosen m n.

Lemma consume_all_spec t tid e :
  NoDup (input_names (inputSpecs t)) →
  let chosen := chosen_name t tid e in
  let f := consume_all t tid e in
  frame (f_engine f) = frame e ∧
  matchCaches (f_engine f) = matchCaches (mirror_consume t tid chosen e) ∧
  (∀ n, queue (e_marking (f_engine f)) n = marking_after t chosen (e_marking e) n) ∧
  ∃ m', (∀ n, queue m' n = left_after t chosen (e_marking e) n) ∧
    f_consumed f = taken_by t chosen (e_marking e) (inputSpecs t) ++ reset_taken [] m' (resets t).
Proof.
  intros Hd. cbn zeta. unfold consume_all.
  set (chosen := chosen_name t tid e).
  destruct (mirror_consume_frame t tid chosen e) as [M1 M2].
  destruct (consume_inputs_spec t chosen (inputSpecs t) (Firing (mirror_consume t tid chosen e) [] []) Hd)
    as (I1 & I2 & I3 & _ & I5). cbn [f_engine f_consumed] in *. rewrite M2 in *.
  set (f1 := foldl (consume_input_spec t chosen) _ _) in *.
  destruct (read_arcs_spec (reads t) f1) as [R1 R2].
  destruct (resets_spec (resets t) (foldl read_arc f1 (reads t))) as (S1 & S2 & _ & S4 & S5). split_and!.
  - by rewrite S1, R1, I1, M1.
  - by rewrite S2, R1, I2.
  - intros n. rewrite S5, R1. unfold marking_after, left_after. case_decide; [done|]. apply I5.
  - exists (e_marking (f_engine (foldl read_arc f1 (reads t)))). split; [by rewrite R1|].
    by rewrite S4, R2, I3.
Qed.

(** ** Enablement in a marking *)

(** A marking enables a transition: enough tokens at every input, a token at every read place, no
    token at an inhibitor place, and a name for a join. *)
Definition enabled_in (t : transition V) m : Prop :=
  (∀ s, s ∈ inputSpecs t → (requiredCount s ≤ Z.of_nat (length (queue m (place_name (in_place s)))))%Z) ∧
  (∀ p, p ∈ reads t → queue m (place_name p) ≠ []) ∧
  (∀ p, p ∈ inhibitors t → queue m (place_name p) = []) ∧
  (t_matchSpec t ≠ None → findBinding t (λ p, peekTokens p m) ≠ None).

(** A transition as [build] makes them. *)
Definition transition_wf (t : transition V) : Prop :=
  inputs_wf (inputSpecs t) ∧
  ∀ ms, t_matchSpec t = Some ms → ms_keys ms ≠ [] ∧ NoDup (key_name <$> ms_keys ms) ∧
    ∀ k, k ∈ ms_keys ms → key_name k ∈ input_names (inputSpecs t).

Lemma findBinding_ext t g g' :
  (∀ p, place_name p ∈ input_names (inputSpecs t) → g p = g' p) → transition_wf t → findBinding t g = findBinding t g'.
Proof.
  intros Hg [_ Hm]. unfold findBinding. destruct (t_matchSpec t) as [ms|] eqn:E; [|done].
  destruct (Hm ms) as (_ & _ & Hk); [done|]. f_equal. apply list_fmap_ext. intros i k Hi. f_equal. apply Hg.
  apply (Hk k). by eapply list_elem_of_lookup_2.
Qed.

(** Enablement reads the places the transition touches. *)
Lemma enabled_in_ext t m m' :
  transition_wf t → (∀ p, p ∈ touched_places t → queue m (place_name p) = queue m' (place_name p)) →
  enabled_in t m → enabled_in t m'.
Proof.
  intros Hwf Hq (H1 & H2 & H3 & H4). unfold touched_places in Hq. repeat setoid_rewrite elem_of_app in Hq. split_and!.
  - intros s Hs. rewrite <- Hq; [by apply H1|]. left. by apply list_elem_of_fmap_2.
  - intros p Hp. rewrite <- Hq by tauto. by apply H2.
  - intros p Hp. rewrite <- Hq by tauto. by apply H3.
  - intros Hms. rewrite <- (findBinding_ext t (λ p, peekTokens p m)); [by apply H4| |done].
    intros p Hp. apply list_elem_of_fmap in Hp as (s & E & Hs).
    change (queue m (place_name p) = queue m' (place_name p)). rewrite E. apply Hq. left. by apply list_elem_of_fmap_2.
Qed.
End Fire.
