(* ===== verification/ExecLoop.v ===== *)
(** * The executor's construction, loop and host interface

    [src/typescript/src/runtime/bitmap-net-executor.ts] continued: the constructor and the match
    caches, completion and external-event processing, the execution loop cut at its yield points,
    the wait, and the calls a host makes. The loop is a step relation over the executor and a
    program point; host steps are allowed at every program point, which includes the points
    where the event loop can run host code. *)
From S2P Require Import Prelude.
From S2P Require Import CodePoints.
From S2P Require Import Net.
From S2P Require Import Out.
From S2P Require Import OutSpec.
From S2P Require Import Transition.
From S2P Require Import Marking.
From S2P Require Import MatchEngine.
From S2P Require Import PetriNet.
From S2P Require Import Bitmap.
From S2P Require Import CompiledNet.
From S2P Require Import OutputCheck.
From S2P Require Import Context.
From S2P Require Import Executor.

Section ExecLoop.
Context {V : Type}.
Implicit Types (x : exec V) (e : engine V) (t : transition V) (m : marking V) (cf : config V).

(** ** Construction *)

(** The places are fresh objects, numbered from [base]. *)
Definition restoredTokens (base : nat) (snapshot : snapshot_form V) : list (place * list (token V)) :=
  imap (λ i s, (mk_place (base + i) s.1, s.2)) snapshot.

Definition seededPlaceNames (seed : list (place * list (token V))) : list jsstr :=
  foldl (λ names s, if bool_decide (0 < length s.2) then set_add (place_name s.1) names else names) [] seed.

(** The consumers of each place: one entry per input specification. *)
Definition inputConsumers (c : compiled V) (pid : nat) : list nat :=
  y ← imap pair (c_transitions c);
  (λ _, y.1) <$> filter (λ s, pid_of (placeIndex c) (in_place s) = pid) (inputSpecs y.2).
Definition resetTarget (c : compiled V) (pid : nat) : bool :=
  existsb (λ t, existsb (λ p, bool_decide (pid_of (placeIndex c) p = pid)) (resets t)) (c_transitions c).

(** The requirements of the correlated inputs, or none when the join is not eligible. *)
Fixpoint eligible_requireds (c : compiled V) (tid : nat) t (keys : list (match_key V)) : option (list Z) :=
  match keys with
  | [] => Some []
  | mk :: rest =>
      let pid := pid_of (placeIndex c) (mk_place_of mk) in
      match js_find (λ s, bool_decide (place_name (in_place s) = key_name mk)) (inputSpecs t) with
      | Some (InOne _) =>
          if resetTarget c pid || negb (bool_decide (inputConsumers c pid = [tid])) then None
          else cons 1%Z <$> eligible_requireds c tid t rest
      | Some (InExactly _ n) =>
          if resetTarget c pid || negb (bool_decide (inputConsumers c pid = [tid])) then None
          else cons n <$> eligible_requireds c tid t rest
      | _ => None
      end
  end.

(** [cache.add]; the index of a correlated input is always in range. *)
Definition cache_add (keyIdx : nat) (key : key_fn V) (tok : token V) (cache : matcher) : matcher :=
  match key (tok_value tok) with
  | Some name => default cache (matcher_add keyIdx name (createdAt tok) cache)
  | None => cache
  end.

Definition seed_matcher m (requireds : list Z) (keys : list (match_key V)) : matcher :=
  foldl (λ cache k, foldl (λ cache tok, cache_add k.1 (mk_key k.2) tok cache) cache (peekTokens (mk_place_of k.2) m))
        (matcher_new requireds) (imap pair keys).

(** The matcher of one transition, when it is a join on the fast path. *)
Definition init_cache (c : compiled V) m (tid : nat) t : option matcher :=
  ms ← t_matchSpec t;
  rq ← eligible_requireds c tid t (ms_keys ms);
  Some (seed_matcher m rq (ms_keys ms)).

Definition initMatchCaches (c : compiled V) m : list (option matcher) := imap (init_cache c m) (c_transitions c).

Definition matchTargets (c : compiled V) (pid : nat) : list (nat * nat) :=
  y ← imap pair (c_transitions c);
  match t_matchSpec y.2 with
  | Some ms =>
      match eligible_requireds c y.1 y.2 (ms_keys ms) with
      | Some _ => (λ k : nat * match_key V, (y.1, k.1))
                  <$> filter (λ k, pid_of (placeIndex c) (mk_place_of k.2) = pid) (imap pair (ms_keys ms))
      | None => []
      end
  | None => []
  end.

Inductive construct_error :=
| ConstructCompile (e : compile_error)
| NegativeTolerance (got : Z)
| RestoreAndTokens
| ConstructScope (e : scope_error).

Record options := Options {
  o_environment : list place;
  o_tolerance : option Z;
  o_restore : option (snapshot_form V);
  o_scope : option jsstr
}.

Definition DEADLINE_TOLERANCE_MS : Z := 5.

(** [0xFFFFFFFF] or [(1 << lastWordBits) - 1] in the last word. *)
Definition markAllDirty_words (tc dirtyWords : nat) : list Z :=
  imap (λ w _, if w =? dirtyWords - 1 then
                 let lastWordBits := Z.land (Z.of_nat tc) BIT_MASK in
                 if (lastWordBits =? 0)%Z then 4294967295%Z else to_uint32 (js_shl 1 lastWordBits - 1)
               else 4294967295%Z) (replicate dirtyWords 0%Z).
Definition markAllDirty (cf : config V) e : engine V :=
  set_dirty (markAllDirty_words (transitionCount (cf_compiled cf)) (length (dirtySet e))) e.

Definition is_immediate (ti : timing) : bool := match ti with TimingImmediate => true | _ => false end.
Definition is_exact (ti : timing) : bool := match ti with TimingExact _ => true | _ => false end.

Definition make_config (c : compiled V) (tolerance : Z) (env : list jsstr) (scope : jsstr) : config V :=
  let ts := c_transitions c in
  let firstPriority := match ts with t :: _ => priority t | [] => 0%Z end in
  Config c (restartThresholds c) (matchTargets c <$> seq 0 (placeCount c))
    ((λ t, hasDeadline (t_timing t)) <$> ts) ((λ t, is_exact (t_timing t)) <$> ts)
    (existsb (λ t, hasDeadline (t_timing t)) ts) (forallb (λ t, is_immediate (t_timing t)) ts)
    (forallb (λ t, (priority t =? firstPriority)%Z) ts) tolerance env scope.

Definition dirty_words (c : compiled V) : nat := Z.to_nat (Z.shiftr (Z.of_nat (transitionCount c) + BIT_MASK) WORD_SHIFT).

Definition make_engine (c : compiled V) m (log : list (net_event V)) : engine V :=
  let tc := transitionCount c in
  Engine m (new_words (wordCount c)) (new_words (dirty_words c)) (replicate tc None) (replicate tc false) (replicate tc false)
    0 (new_words (dirty_words c)) false (initMatchCaches c m) log.

(** [warnUnknownPlace]: once per name. *)
Definition warnUnknownPlace (p : place) (tname : jsstr) x : exec V :=
  if decide (place_name p ∈ warnedUnknownPlaces x) then x
  else on_engine (emit (EvUnknownPlace (place_name p) tname))
         (set_warned (set_add (place_name p) (warnedUnknownPlaces x)) (warnedMultiplicity x) x).

Definition construct (isP : nat → bool) (rnd : jsstr) (base : nat) (net : petri_net V)
    (initialTokens : list (place * list (token V))) (o : options) : result construct_error (config V * exec V) :=
  let* c := match compile isP net with Ok c => Ok c | Err e => Err (ConstructCompile e) end in
  let seed := match o_restore o with Some s => restoredTokens base s | None => initialTokens end in
  let m := from seed in
  let env := set_of (place_name <$> o_environment o) in
  let tolerance := default DEADLINE_TOLERANCE_MS (o_tolerance o) in
  do* throw_if (tolerance <? 0)%Z (NegativeTolerance tolerance);
  do* throw_if (bool_decide (is_Some (o_restore o)) && bool_decide (0 < length initialTokens)) RestoreAndTokens;
  let* scope := match resolveExecutionScope rnd (o_scope o) with Ok s => Ok s | Err e => Err (ConstructScope e) end in
  let cf := make_config c tolerance env scope in
  let x := Exec (make_engine c m []) [] [] [] [] [] [] 0 false false false false false false Running in
  let x := foldl (λ x s, if bool_decide (0 < length s.2) && bool_decide (tryPlaceId c s.1 = None)
                         then warnUnknownPlace s.1 [] x else x) x seed in
  let seeded := seededPlaceNames seed in
  let x := foldl (λ x a, on_engine (emit (EvDeadArc a)) x) x
             (findDeadArcs net (λ n, bool_decide (n ∈ seeded)) (λ n, bool_decide (n ∈ env))) in
  Ok (cf, x).

(** ** Deposits *)

Variable cf : config V.
Abbreviation net := (cf_compiled cf).

Definition cache_target (tok : token V) e (target : nat * nat) : engine V :=
  match default None (matchCaches e !! target.1), c_transition net target.1 ≫= t_matchSpec with
  | Some cache, Some ms =>
      match ms_keys ms !! target.2 with
      | Some mk => set_cache target.1 (Some (cache_add target.2 (mk_key mk) tok cache)) e
      | None => e
      end
  | _, _ => e
  end.
Definition cacheAddToken (pid : nat) (tok : token V) e : engine V :=
  foldl (cache_target tok) e (default [] (placeMatchTargets cf !! pid)).

Definition is_terminal (pid : nat) : bool :=
  match terminalFlags net with Some flags => flag flags pid | None => false end.

(** One token landing on a place: an entry of a completion, or an external event. *)
Definition deposit (tname : jsstr) (p : place) (tok : token V) x : exec V :=
  let x := on_engine (λ e, set_marking (addToken p tok (e_marking e)) e) x in
  let x := match tryPlaceId net p with
           | Some pid =>
               let x := on_engine (λ e, markDirty cf pid (let e := cacheAddToken pid tok e in
                                                          set_bitmap (setBit (markingBitmap e) pid) e)) x in
               if is_terminal pid then set_terminal x else x
           | None => warnUnknownPlace p tname x
           end in
  on_engine (emit (EvTokenAdded (place_name p) tok)) x.

(** ** Completions *)

Definition harvest (fl : flight V) : list (place * token V) := cx_harvest (fl_context fl).

Definition warnMultiplicity (tname : jsstr) (entries : list (place * token V)) (claim : list jsstr) x : exec V :=
  if decide (tname ∈ warnedMultiplicity x) then x
  else
    let counts := foldl (λ counts y, if decide (place_name y.1 ∈ claim)
                                     then map_set (place_name y.1) (default 0 (map_get (place_name y.1) counts) + 1) counts
                                     else counts) [] entries in
    if bool_decide (filter (λ y : jsstr * nat, 1 < y.2) counts = []) then x
    else on_engine (emit (EvMultiplicity tname)) (set_warned (warnedUnknownPlaces x) (set_add tname (warnedMultiplicity x)) x).

(** Output validation: the claim, or the violation that fails the firing. *)
Definition validate t (fl : flight V) : result out_violation (option (list jsstr)) :=
  match outputSpec t with
  | None => Ok None
  | Some spec =>
      let produced := set_of ((λ y, place_name y.1) <$> harvest fl) in
      let* claim := validateOutSpec spec produced in
      do* validateRelays t (harvest fl) (fl_matchedName fl);
      Ok (Some claim)
  end.

Definition deposit_outputs t (fl : flight V) (claim : option (list jsstr)) x : exec V :=
  let produced := set_of ((λ y, place_name y.1) <$> harvest fl) in
  let x := match claim with
           | Some claim => if bool_decide (length produced < length (harvest fl))
                           then warnMultiplicity (t_name t) (harvest fl) claim x else x
           | None => x
           end in
  foldl (λ x y, deposit (t_name t) y.1 y.2 x) x (harvest fl).

Definition fail_completion t (tid : nat) x : exec V :=
  on_engine (λ e, markTransitionDirty tid (emit (EvTransitionFailed (t_name t)) e)) x.

(** Whether the rejection reaches [if (flight.error)]. *)
Definition truthy (err : option thrown) : bool := match err with Some ErrTruthy => true | _ => false end.

(** The body of the loop for a registered flight. *)
Definition complete_flight t (tid : nat) (fl : flight V) x : exec V :=
  let x := on_engine (set_inFlight tid false) (set_flights (flights_delete tid (inFlight x)) x) in
  if truthy (fl_error fl) then fail_completion t tid x
  else
    match validate t fl with
    | Ok claim =>
        let x := deposit_outputs t fl claim (set_unsettled true x) in
        let x := set_unsettled false (on_engine (markTransitionDirty tid) x) in
        on_engine (emit (EvTransitionCompleted (t_name t) (snd <$> harvest fl))) x
    | Err _ => fail_completion t tid (set_unsettled false x)
    end.

Fixpoint process_completions (queue : list nat) x : exec V :=
  match queue with
  | [] => x
  | tid :: rest =>
      match map_get tid (inFlight x), c_transition net tid with
      | Some fl, Some t =>
          let x := complete_flight t tid fl x in
          if negb (truthy (fl_error fl)) && terminalReached x then x else process_completions rest x
      | _, _ => process_completions rest x
      end
  end.
Definition processCompletedTransitions x : exec V :=
  if bool_decide (length (completionQueue x) = 0) then x
  else set_completions [] (process_completions (completionQueue x) x).

(** ** External events *)

Fixpoint process_external (queue : list (external_event V)) x : exec V :=
  match queue with
  | [] => x
  | ev :: rest =>
      let x := deposit [] (ev_place ev) (ev_token ev) x in
      let x := set_external (tail (externalQueue x)) (admissions x ++ [(ev_id ev, true)]) x in
      if terminalReached x then x else process_external rest x
  end.
Definition processExternalEvents x : exec V :=
  if bool_decide (length (externalQueue x) = 0) then x
  else if closed x then x
  else process_external (externalQueue x) x.

Definition drainPendingExternalEvents x : exec V :=
  set_external [] (admissions x ++ ((λ ev, (ev_id ev, false)) <$> externalQueue x)) x.

(** ** The loop *)

Definition hasEnvironmentPlaces : bool := bool_decide (0 < length (environmentPlaces cf)).

Definition shouldTerminate x : bool :=
  let idle := bool_decide (length (inFlight x) = 0) && bool_decide (length (completionQueue x) = 0) in
  if closed x then idle
  else if hasEnvironmentPlaces
  then draining x && (enabledTransitionCount (x_engine x) =? 0)%Z && idle
  else (enabledTransitionCount (x_engine x) =? 0)%Z && idle.

Definition initializeMarkingBitmap e : engine V :=
  foldl (λ e pid, if 0 <? tokens_at cf pid (e_marking e) then set_bitmap (setBit (markingBitmap e) pid) e else e)
        e (seq 0 (placeCount net)).

Definition checkInitialTerminals x : exec V :=
  if existsb (λ pid, is_terminal pid && (0 <? tokens_at cf pid (e_marking (x_engine x)))) (seq 0 (placeCount net))
  then set_terminal x else x.

(** [executeLoop] up to its [while]. *)
Definition start x : exec V :=
  let x := set_host (draining x) (closed x) true (reason x) x in
  let x := on_engine (λ e, markAllDirty cf (initializeMarkingBitmap e)) x in
  if hasTerminals net then checkInitialTerminals x else x.

Inductive next := Exit | Continue | Await.

Variable providerThrows : jsstr → list (token V) → bool.

(** One pass of the loop; [scanMs] and [cycleNowMs] are its two clock readings. *)
Definition cycle (scanMs cycleNowMs : Z) x : exec V * next :=
  if negb (running x) || terminalReached x then (x, Exit)
  else
    let x := processCompletedTransitions x in
    if terminalReached x then (x, Exit)
    else
      let x := processExternalEvents x in
      if terminalReached x then (x, Exit)
      else
        let x := on_engine (updateDirtyTransitions cf scanMs) x in
        let x := if hasAnyDeadlines cf then on_engine (enforceDeadlines cf cycleNowMs) x else x in
        if shouldTerminate x then (x, Exit)
        else
          let x := fireReadyTransitions cf providerThrows cycleNowMs x in
          (x, if hasDirtyBits (x_engine x) then Continue else Await).

(** [executeLoop] after its [while]. *)
Definition finish x : exec V :=
  let x := drainPendingExternalEvents (set_host (draining x) (closed x) false (reason x) x) in
  set_host (draining x) (closed x) (running x)
    (match reason x with
     | Running => if terminalReached x then Terminal else if closed x then Closed else Quiescent
     | r => r
     end) x.

(** ** The wait *)

Fixpoint millis_loop (nowMs : Z) e (tids : list nat) (minWaitMs : jnum) : jnum :=
  match tids with
  | [] => minWaitMs
  | tid :: rest =>
      if negb (flag (enabledFlags e) tid) then millis_loop nowMs e rest minWaitMs
      else match c_transition net tid, elapsed nowMs tid e with
           | None, _ => millis_loop nowMs e rest minWaitMs
           | Some _, Infinity => Fin 0
           | Some t, Fin el =>
               let remainingEarliest := (earliest (t_timing t) - el)%Z in
               if (remainingEarliest <=? 0)%Z then Fin 0
               else
                 let minWaitMs := jnum_min minWaitMs (Fin remainingEarliest) in
                 if hasDeadline (t_timing t) then
                   let remainingDeadline := (latest (t_timing t) - el)%Z in
                   if (remainingDeadline <=? 0)%Z then Fin 0
                   else millis_loop nowMs e rest (jnum_min minWaitMs (Fin remainingDeadline))
                 else millis_loop nowMs e rest minWaitMs
           end
  end.
Definition millisUntilNextTimedTransition (nowMs : Z) e : jnum :=
  millis_loop nowMs e (seq 0 (transitionCount net)) Infinity.

(** What the race of a wait holds: the flights, the wake-up, the timer. *)
Record wait := Wait { w_flights : list nat; w_wakeUp : bool; w_timer : option Z }.

(** [awaitWork] before its yield. *)
Definition work_queued x : bool :=
  bool_decide (0 < length (completionQueue x)) || (negb (closed x) && bool_decide (0 < length (externalQueue x))).

(** [awaitWork] after its yield: the executor and, when it parks, the race it parks on. *)
Definition park (nowMs : Z) x : exec V * option wait :=
  if wakeUpPending x then (set_wake false x, None)
  else if work_queued x then (x, None)
  else if closed x && bool_decide (length (inFlight x) = 0) then (x, None)
  else if closed x then (x, Some (Wait (inFlight x).*1 false None))
  else
    let timerMs := millisUntilNextTimedTransition nowMs (x_engine x) in
    if bool_decide (timerMs = Fin 0) && bool_decide (length (inFlight x) = 0) then (x, None)
    else (x, Some (Wait (inFlight x).*1 true
                     match timerMs with Fin ms => if (0 <? ms)%Z then Some ms else None | Infinity => None end)).

(** ** Program points and the host interface *)

(** Where the loop is: before a cycle, at the entry of the wait, after its yield, parked on a race,
    with the race settled and its [finally] not yet run, or finished. *)
Inductive point := AtCycle | AtWait | AtFlush | Parked (w : wait) | Resumed (w : wait) | Finished.

Record sys := Sys { s_exec : exec V; s_point : point }.

(** [wakeUp]: resolves the wake-up promise of the wait, which a settled race ignores, or is
    latched when no wait holds one. *)
Definition wakeUp (s : sys) : sys :=
  match s_point s with
  | Parked w => if w_wakeUp w then Sys (s_exec s) (Resumed w) else Sys (set_wake true (s_exec s)) (Parked w)
  | Resumed w => if w_wakeUp w then s else Sys (set_wake true (s_exec s)) (Resumed w)
  | p => Sys (set_wake true (s_exec s)) p
  end.

(** [inject] and [injectNoAwait]; [id] names the admission promise. *)
Definition inject (id : nat) (p : place) (tok : token V) (s : sys) : result jsstr sys :=
  let x := s_exec s in
  if bool_decide (place_name p ∉ environmentPlaces cf) then Err (place_name p)
  else if closed x || draining x || terminalReached x
  then Ok (Sys (set_external (externalQueue x) (admissions x ++ [(id, false)]) x) (s_point s))
  else Ok (wakeUp (Sys (set_external (externalQueue x ++ [ExternalEvent id p tok]) (admissions x) x) (s_point s))).

Definition drain (s : sys) : sys :=
  let x := s_exec s in wakeUp (Sys (set_host true (closed x) (running x) (reason x) x) (s_point s)).
Definition close (s : sys) : sys :=
  let x := s_exec s in wakeUp (Sys (set_host true true (running x) (reason x) x) (s_point s)).

(** An expired budget of [run(timeoutMs, onTimeout)]. *)
Definition budgetExpired (close_on_timeout : bool) (s : sys) : sys :=
  let x := s_exec s in
  let r := match reason x with Running => Stopped | r => r end in
  let s := Sys (set_host (draining x) (closed x) (running x) r x) (s_point s) in
  if close_on_timeout then close s else s.

Definition set_flight (tid : nat) (fl : flight V) x : exec V := set_flights (map_set tid fl (inFlight x)) x.

(** The handlers of the action's promise: the completion is queued, the loop woken, the flight's
    own promise resolved. *)
Definition settle (tid : nat) (err : option thrown) (s : sys) : sys :=
  let x := s_exec s in
  match map_get tid (inFlight x) with
  | None => s
  | Some fl =>
      if fl_settled fl then s
      else
        let fl := Flight (fl_context fl) (fl_consumed fl) (fl_matchedName fl) err true in
        let s := wakeUp (Sys (set_completions (completionQueue x ++ [tid]) (set_flight tid fl x)) (s_point s)) in
        match s_point s with
        | Parked w => if decide (tid ∈ w_flights w) then Sys (s_exec s) (Resumed w) else s
        | _ => s
        end
  end.

Definition with_context (cx : context V) (fl : flight V) : flight V :=
  Flight cx (fl_consumed fl) (fl_matchedName fl) (fl_error fl) (fl_settled fl).

(** The action timeout of a flight whose promise is pending: sever, produce the branch, settle. *)
Definition actionTimedOut (tid : nat) (now : Z) (s : sys) : sys :=
  let x := s_exec s in
  match map_get tid (inFlight x), c_transition net tid with
  | Some fl, Some t =>
      match actionTimeout t with
      | Some (_, child) =>
          if fl_settled fl then s
          else
            let cx := detachForTimeout (fl_context fl) in
            match produceTimeoutOutput child now cx with
            | Ok cx' =>
                let x := set_flight tid (with_context cx' fl) x in
                settle tid None (Sys (on_engine (emit (EvActionTimedOut (t_name t))) x) (s_point s))
            | Err _ => settle tid (Some ErrTruthy) (Sys (set_flight tid (with_context cx fl) x) (s_point s))
            end
      | None => s
      end
  | _, _ => s
  end.

(** A call of the action on its context, before or after its promise settles. *)
Definition actionCall (tid : nat) (call : action_call V) (s : sys) : sys :=
  let x := s_exec s in
  match map_get tid (inFlight x) with
  | Some fl => Sys (set_flight tid (with_context (run_calls [call] (fl_context fl)) fl) x) (s_point s)
  | None => s
  end.

(** [ctx.freshName()] *)
Definition freshName (tid : nat) x : name_id * exec V :=
  (mintedName (transition_name cf tid) (executionScope cf) (freshNameCounter x),
   Exec (x_engine x) (inFlight x) (completionQueue x) (externalQueue x) (admissions x) (warnedUnknownPlaces x)
     (warnedMultiplicity x) (S (freshNameCounter x)) (wakeUpPending x) (draining x) (closed x) (terminalReached x)
     (unsettled x) (running x) (reason x)).

(** [snapshotMarking]: the marked places of the net by name, in code-point order. *)
Definition snapshotMarking x : list (jsstr * list (token V)) :=
  let entries := omap (λ pid, p ← c_place net pid;
                              let tokens := peekTokens p (e_marking (x_engine x)) in
                              if bool_decide (0 < length tokens) then Some (place_name p, tokens) else None)
                      (seq 0 (placeCount net)) in
  stable_sort (λ a b, compareCodePoints a.1 b.1 <=? 0)%Z entries.

Inductive snapshot_error := SnapshotUnavailable.
Definition exec_snapshot x : result snapshot_error (snapshot_form V * bool) :=
  if draining x || closed x then Err SnapshotUnavailable
  else Ok (snapshot (e_marking (x_engine x)),
           bool_decide (0 < length (inFlight x)) || unsettled x || bool_decide (0 < length (externalQueue x))).

Definition isQuiescent x : bool :=
  (enabledTransitionCount (x_engine x) =? 0)%Z && bool_decide (length (inFlight x) = 0).

(** ** The system *)

(** Time stamps of host tokens are integers JavaScript counts exactly. *)
Definition call_safe (a : action_call V) : Prop :=
  match a with
  | CallOutput _ _ now => (now ≤ MAX_SAFE_INTEGER)%Z
  | CallOutputToken _ toks => Forall (λ tok, createdAt tok ≤ MAX_SAFE_INTEGER)%Z toks
  end.

Definition after_cycle (r : exec V * next) : sys :=
  match r with
  | (x, Exit) => Sys (finish x) Finished
  | (x, Continue) => Sys x AtCycle
  | (x, Await) => Sys x AtWait
  end.

Definition after_park (r : exec V * option wait) : sys :=
  match r with (x, None) => Sys x AtCycle | (x, Some w) => Sys x (Parked w) end.

Inductive sys_step : sys → sys → Prop :=
| step_cycle x scanMs cycleNowMs : sys_step (Sys x AtCycle) (after_cycle (cycle scanMs cycleNowMs x))
| step_wait x : sys_step (Sys x AtWait) (Sys x (if work_queued x then AtCycle else AtFlush))
| step_park x now : sys_step (Sys x AtFlush) (after_park (park now x))
| step_timer x w ms : w_timer w = Some ms → sys_step (Sys x (Parked w)) (Sys x (Resumed w))
| step_resume x w : sys_step (Sys x (Resumed w)) (Sys x AtCycle)
| step_inject id p tok s s' :
    (createdAt tok ≤ MAX_SAFE_INTEGER)%Z → inject id p tok s = Ok s' → sys_step s s'
| step_drain s : sys_step s (drain s)
| step_close s : sys_step s (close s)
| step_budget b s : sys_step s (budgetExpired b s)
| step_settle tid err s : sys_step s (settle tid err s)
| step_timeout tid now s : (now ≤ MAX_SAFE_INTEGER)%Z → sys_step s (actionTimedOut tid now s)
| step_call tid call s : call_safe call → sys_step s (actionCall tid call s)
| step_fresh tid x p : sys_step (Sys x p) (Sys (freshName tid x).2 p).

(** What [run] reaches from a constructed executor. *)
Definition reachable x0 : sys → Prop := rtc sys_step (Sys (start x0) AtCycle).
End ExecLoop.
