(* ===== verification/ExecInv.v ===== *)
(** * The executor's bookkeeping is coherent

    The invariant of a run: the presence bitmap is the marking's, the counters are the flags', and
    outside the dirty set the enabled flags are semantic enablement. Every operation of the cycle
    preserves it. *)
From S2P Require Import Prelude.
From S2P Require Import Net.
From S2P Require Import Out.
From S2P Require Import Transition.
From S2P Require Import Marking.
From S2P Require Import MatchEngine.
From S2P Require Import PetriNet.
From S2P Require Import Bitmap.
From S2P Require Import CompiledNet.
From S2P Require Import Context.
From S2P Require Import Executor.
From S2P Require Import ExecScan.
From S2P Require Import ExecFire.
From S2P Require Import ExecLoop.

(** ** Flags *)

Lemma flag_insert (l : list bool) i j b : flag (<[i := b]> l) j = if decide (j = i ∧ i < length l) then b else flag l j.
Proof.
  unfold flag. destruct (decide (j = i ∧ i < length l)) as [[-> Hi]|H].
  - by rewrite list_lookup_insert_eq.
  - destruct (decide (j = i)) as [->|].
    + rewrite list_insert_ge by lia. done.
    + by rewrite list_lookup_insert_ne by done.
Qed.

Lemma flag_lt (l : list bool) i : flag l i = true → i < length l.
Proof. unfold flag. destruct (l !! i) eqn:E; [|done]. intros _. by eapply lookup_lt_Some. Qed.

Definition count_true (l : list bool) : Z := Z.of_nat (length (filter (λ b : bool, b = true) l)).

Lemma count_true_insert (l : list bool) i (b : bool) : i < length l →
  count_true (<[i := b]> l) = (count_true l + (if b then 1 else 0) - (if flag l i then 1 else 0))%Z.
Proof.
  unfold count_true, flag. revert i. induction l as [|x l IH]; intros [|i] Hi; simpl in *; try lia.
  - rewrite !filter_cons. destruct b, x; simpl; lia.
  - rewrite !filter_cons. specialize (IH i ltac:(lia)). destruct x; simpl in *; lia.
Qed.

Lemma count_true_zero (l : list bool) : count_true l = 0%Z ↔ ∀ i, flag l i = false.
Proof.
  unfold count_true. split.
  - intros H i. unfold flag. destruct (l !! i) as [[]|] eqn:E; try done. exfalso.
    assert (true ∈ filter (λ b : bool, b = true) l) as Hin.
    { apply list_elem_of_filter. split; [done|]. by eapply list_elem_of_lookup_2. }
    destruct (filter (λ b : bool, b = true) l); [by apply not_elem_of_nil in Hin|]. simpl in H. lia.
  - intros H. induction l as [|x l IH]; [done|]. rewrite filter_cons. rewrite decide_False.
    + apply IH. intros i. apply (H (S i)).
    + specialize (H 0). unfold flag in H. simpl in H. congruence.
Qed.

Section Inv.
Context {V : Type} (isP : nat → bool) (pn : petri_net V) (cf : config V).
Hypothesis Hc : compile isP pn = Ok (cf_compiled cf).
Hypothesis Hwf : ∀ tid t, net_transitions pn !! tid = Some t → transition_wf t.
Abbreviation c := (cf_compiled cf).
Implicit Types (e : engine V) (m : marking V).

Lemma c_transitions_net : c_transitions c = net_transitions pn.
Proof. by destruct (compile_inv _ _ _ Hc) as (rows & _ & E & _). Qed.

Lemma transition_lookup tid t : c_transition c tid = Some t ↔ net_transitions pn !! tid = Some t.
Proof. unfold c_transition. by rewrite c_transitions_net. Qed.

Lemma transition_wf_of tid t : c_transition c tid = Some t → transition_wf t.
Proof. rewrite transition_lookup. apply Hwf. Qed.

Lemma pid_place p pid : tryPlaceId c p = Some pid →
  pid < placeCount c ∧ ∃ q, c_place c pid = Some q ∧ place_name q = place_name p.
Proof.
  unfold tryPlaceId, placeCount, c_place. destruct (compile_inv _ _ _ Hc) as (rows & _ & _ & Eps & Eix & _).
  rewrite Eix, Eps. intros H. apply (proj2 (ids_ok_compile pn)) in H as (q & Hq & E).
  split; [by eapply lookup_lt_Some|eauto].
Qed.

Lemma place_pid pid q : c_place c pid = Some q → tryPlaceId c q = Some pid.
Proof.
  unfold tryPlaceId, c_place. destruct (compile_inv _ _ _ Hc) as (rows & _ & _ & Eps & Eix & _).
  rewrite Eix, Eps. intros H. apply (proj2 (ids_ok_compile pn)). eauto.
Qed.

Lemma tokens_at_place p pid m : tryPlaceId c p = Some pid → tokens_at cf pid m = length (queue m (place_name p)).
Proof.
  intros (_ & q & Hq & E)%pid_place. unfold tokens_at. rewrite Hq. simpl. by rewrite tokenCount_queue, E.
Qed.

Lemma touched_pid tid t p : c_transition c tid = Some t → p ∈ touched_places t →
  ∃ pid, tryPlaceId c p = Some pid ∧ pid_of (placeIndex c) p = pid.
Proof.
  rewrite transition_lookup. intros Ht Hp.
  destruct (tryPlaceId_named isP pn c p Hc) as (i & E & _ & E'); [by eapply touched_named|eauto].
Qed.

(** ** Enablement *)

Definition bitmap_ok m (bits : list Z) : Prop :=
  ∀ pid, pid < placeCount c → bit_of bits pid = true ↔ 0 < tokens_at cf pid m.

(** The matchers answer what a rebuilt index answers. *)
Definition caches_ok m (caches : list (option matcher)) : Prop :=
  ∀ tid t cache, caches !! tid = Some (Some cache) → c_transition c tid = Some t →
    best cache = findBinding t (λ p, peekTokens p m).

Lemma bitmap_place m bits p pid : bitmap_ok m bits → tryPlaceId c p = Some pid →
  bit_of bits pid = true ↔ queue m (place_name p) ≠ [].
Proof.
  intros Hb Hp. pose proof (pid_place p pid Hp) as [Hlt _]. rewrite (Hb pid Hlt), (tokens_at_place p pid m Hp).
  destruct (queue m (place_name p)); simpl; split; [lia|done|done|lia].
Qed.

Lemma cardinality_spec tid t : c_transition c tid = Some t →
  cardinalityCheck c tid =
  if existsb (λ s, match s with InOne _ => false | _ => true end) (inputSpecs t)
  then Some ((λ s, (pid_of (placeIndex c) (in_place s), requiredCount s)) <$> inputSpecs t) else None.
Proof.
  intros Ht. pose proof Ht as Ht'%transition_lookup. pose proof (compile_inv _ _ _ Hc) as (rows & Hrows & _ & _ & _ & _ & _ & _ & _ & _ & Ec & _).
  destruct (compiled_row isP pn c tid t Hc Ht') as (rows' & r & Hrows' & Hr & Hct & Hrange).
  rewrite Hrows in Hrows'. injection Hrows' as <-.
  destruct (compile_transition_spec _ _ _ _ Hct Hrange) as (_ & _ & _ & _ & E & _).
  unfold cardinalityCheck. rewrite Ec, list_lookup_fmap, Hr. simpl. exact E.
Qed.

Lemma hasMatch_spec tid t : c_transition c tid = Some t → hasMatch c tid = bool_decide (is_Some (t_matchSpec t)).
Proof.
  intros Ht. pose proof Ht as Ht'%transition_lookup. pose proof (compile_inv _ _ _ Hc) as (rows & Hrows & _ & _ & _ & _ & _ & _ & _ & _ & _ & Em).
  destruct (compiled_row isP pn c tid t Hc Ht') as (rows' & r & Hrows' & Hr & Hct & Hrange).
  rewrite Hrows in Hrows'. injection Hrows' as <-.
  destruct (compile_transition_spec _ _ _ _ Hct Hrange) as (_ & _ & _ & _ & _ & E).
  unfold hasMatch. rewrite Em, list_lookup_fmap, Hr. simpl. exact E.
Qed.

Lemma cardinality_ok tid t m : c_transition c tid = Some t →
  (∀ s, s ∈ inputSpecs t → queue m (place_name (in_place s)) ≠ []) →
  existsb (λ x : nat * Z, (Z.of_nat (tokens_at cf x.1 m) <? x.2)%Z) (default [] (cardinalityCheck c tid)) = false ↔
  ∀ s, s ∈ inputSpecs t → (requiredCount s ≤ Z.of_nat (length (queue m (place_name (in_place s)))))%Z.
Proof.
  intros Ht Hne. rewrite (cardinality_spec tid t Ht).
  assert (∀ s, s ∈ inputSpecs t → tokens_at cf (pid_of (placeIndex c) (in_place s)) m = length (queue m (place_name (in_place s)))) as Hpid.
  { intros s Hs. destruct (touched_pid tid t (in_place s) Ht) as (pid & E & E').
    - unfold touched_places. apply elem_of_app. left. by apply list_elem_of_fmap_2.
    - rewrite E'. by apply tokens_at_place. }
  destruct (existsb _ (inputSpecs t)) eqn:Ex; simpl.
  - rewrite <- not_true_iff_false, existsb_exists. split.
    + intros H s Hs. apply Z.nlt_ge. intros Hlt. apply H. exists (pid_of (placeIndex c) (in_place s), requiredCount s).
      split; [apply list_elem_of_In; by apply (list_elem_of_fmap_2 (λ s, (pid_of (placeIndex c) (in_place s), requiredCount s)))|].
      simpl. rewrite Hpid by done. by apply Z.ltb_lt.
    + intros H (x & Hx%list_elem_of_In & Hlt). apply list_elem_of_fmap in Hx as (s & -> & Hs). simpl in Hlt. b2p.
      rewrite Hpid in Hlt by done. specialize (H s Hs). lia.
  - split; [|done]. intros _ s Hs. specialize (Hne s Hs).
    assert (requiredCount s = 1%Z) as ->.
    { pose proof (existsb_false _ _ s Ex Hs). by destruct s. }
    destruct (queue m _); [done|]. simpl. lia.
Qed.

Lemma canEnable_spec tid t e : c_transition c tid = Some t →
  bitmap_ok (e_marking e) (markingBitmap e) → caches_ok (e_marking e) (matchCaches e) →
  canEnable cf tid (markingBitmap e) e = true ↔ enabled_in t (e_marking e).
Proof.
  intros Ht Hb Hca. pose proof Ht as Ht'%transition_lookup. pose proof (transition_wf_of tid t Ht) as [[_ Hone] _].
  rewrite Forall_forall in Hone. unfold canEnable, enabled_in. set (m := e_marking e) in *.
  assert (canEnableBitmap c tid (markingBitmap e) = true ↔
    (∀ s, s ∈ inputSpecs t → queue m (place_name (in_place s)) ≠ []) ∧
    (∀ p, p ∈ reads t → queue m (place_name p) ≠ []) ∧
    (∀ p, p ∈ inhibitors t → queue m (place_name p) = [])) as Hbm.
  { rewrite (canEnableBitmap_spec isP pn c tid t _ Hc Ht'). unfold needed_places.
    setoid_rewrite elem_of_app.
    assert (∀ p, (p ∈ in_place <$> inputSpecs t ∨ p ∈ reads t) ∨ p ∈ inhibitors t → ∃ pid, tryPlaceId c p = Some pid) as Hpid.
    { intros p Hp. destruct (touched_pid tid t p Ht) as (pid & ? & _); [|eauto].
      unfold touched_places. rewrite !elem_of_app. tauto. }
    split.
    - intros [H1 H2]. split_and!.
      + intros s Hs. destruct (H1 (in_place s)) as (pid & E & Hbit); [left; by apply list_elem_of_fmap_2|].
        by apply (bitmap_place m (markingBitmap e) _ pid Hb E).
      + intros p Hp. destruct (H1 p) as (pid & E & Hbit); [by right|]. by apply (bitmap_place m (markingBitmap e) _ pid Hb E).
      + intros p Hp. destruct (H2 p Hp) as (pid & E & Hbit). apply dec_stable. intros Hq.
        apply (bitmap_place m (markingBitmap e) _ pid Hb E) in Hq. congruence.
    - intros (H1 & H2 & H3). split; intros p Hp.
      + destruct (Hpid p) as [pid E]; [tauto|]. exists pid. split; [done|].
        apply (bitmap_place m (markingBitmap e) _ pid Hb E). destruct Hp as [Hp|Hp]; [|by apply H2].
        apply list_elem_of_fmap in Hp as (s & -> & Hs). by apply H1.
      + destruct (Hpid p) as [pid E]; [tauto|]. exists pid. split; [done|].
        apply not_true_iff_false. intros Hbit%(bitmap_place m (markingBitmap e) _ pid Hb E). by rewrite H3 in Hbit. }
  rewrite (hasMatch_spec tid t Ht). split.
  - destruct (canEnableBitmap c tid (markingBitmap e)); [|done]. simpl. destruct Hbm as [Hbm _].
    destruct Hbm as (H1 & H2 & H3); [done|]. destruct (existsb _ _) eqn:Ecard; [done|].
    pose proof (proj1 (cardinality_ok tid t m Ht H1) Ecard) as Hcard. case_bool_decide as Hm; [|intros _; split_and!; try done; intros Hn].
    + intros Hj. split_and!; try done. intros _.
      destruct (matchCaches e !! tid) as [[cache|]|] eqn:Ecache; simpl in Hj.
      * rewrite bool_decide_eq_true in Hj. by rewrite <- (Hca tid t cache).
      * rewrite Ht in Hj. by apply bool_decide_eq_true in Hj.
      * rewrite Ht in Hj. by apply bool_decide_eq_true in Hj.
    + destruct Hm. destruct (t_matchSpec t); [by eexists|done].
  - intros (H1 & H2 & H3 & H4). assert (∀ s, s ∈ inputSpecs t → queue m (place_name (in_place s)) ≠ []) as Hne.
    { intros s Hs Hq. specialize (H1 s Hs). specialize (Hone s Hs). simpl in Hone. rewrite Hq in H1. simpl in H1. lia. }
    rewrite (proj2 Hbm) by done. simpl. rewrite (proj2 (cardinality_ok tid t m Ht Hne)) by done.
    case_bool_decide as Hm; [|done]. assert (t_matchSpec t ≠ None) as Hms by (destruct Hm as [? ->]; done).
    specialize (H4 Hms). destruct (matchCaches e !! tid) as [[cache|]|] eqn:Ecache; simpl.
    + apply bool_decide_eq_true. by rewrite (Hca tid t cache).
    + rewrite Ht. by apply bool_decide_eq_true.
    + rewrite Ht. by apply bool_decide_eq_true.
Qed.
End Inv.
