(* ===== verification/ExecCache.v ===== *)
(** * The match caches follow the marking

    The incremental matchers of [initMatchCaches], [cacheAddToken] and the mirrored consume of
    [fireTransition]: a matcher that exists represents the marking's queues at the correlated
    places of its join, so [best] answers what [findBinding] would answer on a rebuilt index. *)
From S2P Require Import Prelude.
From S2P Require Import Net.
From S2P Require Import Out.
From S2P Require Import Transition.
From S2P Require Import Marking.
From S2P Require Import MatchEngine.
From S2P Require Import MatchSpec.
From S2P Require Import MatcherSpec.
From S2P Require Import PetriNet.
From S2P Require Import Bitmap.
From S2P Require Import CompiledNet.
From S2P Require Import Context.
From S2P Require Import Executor.
From S2P Require Import ExecFire.
From S2P Require Import ExecLoop.
From S2P Require Import ExecInv.

(** ** The matcher up to pointwise equality of stamps *)

Definition same_stamps : list stamps → list stamps → Prop := Forall2 (λ s s' : stamps, ∀ n, s n = s' n).

Lemma same_stamps_at sts sts' n : same_stamps sts sts' → Forall2 (λ s s' : stamps, s n = s' n) sts sts'.
Proof. intros H. eapply Forall2_impl; [exact H|]. simpl. auto. Qed.

Lemma matcher_inv_ext mt sts sts' : same_stamps sts sts' → matcher_inv mt sts → matcher_inv mt sts'.
Proof.
  intros Hs ([Hts Hl] & Hr & Ho & Hcm & Ht). split_and!; try done.
  - split; [|by rewrite <- (Forall2_length _ _ _ Hs)]. clear -Hs Hts. revert Hts. generalize (im_ts mt).
    induction Hs as [|s s' sts sts' E Hs IH]; intros mps H; [by apply Forall2_nil_inv_r in H as ->|].
    apply Forall2_cons_inv_r in H as (mp & mps' & H0 & H & ->). constructor; [|by apply IH].
    by eapply map_repr_ext.
  - intros n. rewrite Hr. apply rep_spec_ext. by apply same_stamps_at.
Qed.

Lemma matcher_add_inv i name ts mt sts :
  matcher_inv mt sts → i < length sts →
  ∃ mt', matcher_add i name ts mt = Some mt' ∧ requireds mt' = requireds mt ∧
    matcher_inv mt' (alter (λ st n, if decide (n = name) then st n ++ [ts] else st n) i sts).
Proof.
  intros Hinv Hi. pose proof Hinv as ([Hts Hl] & _). unfold matcher_add.
  destruct (lookup_lt_is_Some_2 (im_ts mt) i) as [mp Hmp]; [by rewrite (Forall2_length _ _ _ Hts)|].
  rewrite Hmp. simpl. eexists. split; [done|].
  destruct (refresh_inv name mt (<[i := <[name := pushBack ts (default mq_new (mp !! name))]> mp]> (im_ts mt)) sts
              (alter (λ st n, if decide (n = name) then st n ++ [ts] else st n) i sts) Hinv) as [H1 H2].
  - clear -Hts Hmp. revert i Hmp. induction Hts as [|mp0 st mps sts H0 Hts IH]; intros [|i] Hmp; simpl in *; try done.
    + injection Hmp as <-. constructor; [by apply map_repr_add|done].
    + constructor; [done|]. by apply IH.
  - intros n Hn. clear -Hn. revert i. induction sts as [|st sts IH]; intros [|i]; simpl; constructor; try done.
    + by rewrite decide_False.
    + clear. induction sts; constructor; auto.
    + apply IH.
  - by rewrite length_alter.
  - split; [exact H2|exact H1].
Qed.

Lemma matcher_consume_inv name mt sts :
  matcher_inv mt sts →
  requireds (matcher_consume name mt) = requireds mt ∧
  matcher_inv (matcher_consume name mt)
    (zip_with (λ (st : stamps) r, λ n, if decide (n = name) then drop (Z.to_nat r) (st n) else st n) sts (requireds mt)).
Proof.
  intros Hinv. pose proof Hinv as ([Hts Hl] & _). unfold matcher_consume.
  destruct (refresh_inv name mt (zip_with (consume_input name) (im_ts mt) (requireds mt)) sts
              (zip_with (λ (st : stamps) r, λ n, if decide (n = name) then drop (Z.to_nat r) (st n) else st n) sts (requireds mt)) Hinv)
    as [H1 H2].
  - clear Hinv. revert Hl. generalize (requireds mt). induction Hts as [|mp st mps sts H0 Hts IH]; intros [|r rq] Hl; simpl in *; try done.
    constructor; [by apply map_repr_consume|]. apply IH. lia.
  - intros n Hn. clear -Hn Hl. revert Hl. generalize (requireds mt). induction sts as [|st sts IH]; intros [|r rq] Hl; simpl in *; try done.
    constructor; [by rewrite decide_False|]. apply IH. lia.
  - rewrite length_zip_with. lia.
  - done.
Qed.

Section Caches.
Context {V : Type} (isP : nat → bool) (pn : petri_net V) (cf : config V).
Hypothesis Hc : compile isP pn = Ok (cf_compiled cf).
Hypothesis Hwf : ∀ tid t, net_transitions pn !! tid = Some t → transition_wf t.
Hypothesis Htargets : placeMatchTargets cf = matchTargets (cf_compiled cf) <$> seq 0 (placeCount (cf_compiled cf)).
Abbreviation c := (cf_compiled cf).
Implicit Types (e : engine V) (m : marking V) (tr : transition V).

(** ** Eligible joins *)

Lemma js_find_Some {A} (g : A → bool) l x : js_find g l = Some x → x ∈ l ∧ g x = true.
Proof.
  induction l as [|y l IH]; [done|]. rewrite js_find_cons. destruct (g y) eqn:E.
  - intros [= ->]. split; [left|done].
  - intros [? ?]%IH. split; [by right|done].
Qed.

Lemma required_in_find specs n s :
  js_find (λ s, bool_decide (place_name (in_place s) = n)) specs = Some s →
  required_in specs n = match s with InExactly _ k => k | InAtLeast _ k => k | _ => 1%Z end.
Proof.
  induction specs as [|s' specs IH]; [done|]. rewrite js_find_cons. cbn [required_in].
  case_bool_decide as E; [intros [= ->]; by rewrite decide_True|]. rewrite decide_False by done. auto.
Qed.

Definition single_spec (s : in_spec) : Prop := match s with InOne _ | InExactly _ _ => True | _ => False end.

Lemma eligible_spec tid tr keys rq :
  eligible_requireds c tid tr keys = Some rq →
  rq = (λ k, requiredFor tr (key_name k)) <$> keys ∧
  ∀ k, k ∈ keys →
    (∃ s, js_find (λ s, bool_decide (place_name (in_place s) = key_name k)) (inputSpecs tr) = Some s ∧ single_spec s) ∧
    resetTarget c (pid_of (placeIndex c) (mk_place_of k)) = false ∧
    inputConsumers c (pid_of (placeIndex c) (mk_place_of k)) = [tid].
Proof.
  revert rq. induction keys as [|k keys IH]; intros rq; cbn [eligible_requireds].
  { intros [= <-]. split; [done|]. intros k ?%not_elem_of_nil. done. }
  destruct (js_find _ (inputSpecs tr)) as [s|] eqn:Es; [|done].
  assert (∀ r, requiredFor tr (key_name k) = r →
    single_spec s →
    (if resetTarget c (pid_of (placeIndex c) (mk_place_of k))
        || negb (bool_decide (inputConsumers c (pid_of (placeIndex c) (mk_place_of k)) = [tid])) then None
     else cons r <$> eligible_requireds c tid tr keys) = Some rq →
    rq = (λ k, requiredFor tr (key_name k)) <$> k :: keys ∧
    ∀ k', k' ∈ k :: keys →
      (∃ s, js_find (λ s, bool_decide (place_name (in_place s) = key_name k')) (inputSpecs tr) = Some s ∧ single_spec s) ∧
      resetTarget c (pid_of (placeIndex c) (mk_place_of k')) = false ∧
      inputConsumers c (pid_of (placeIndex c) (mk_place_of k')) = [tid]) as H.
  { intros r Hr Hss. destruct (_ || _) eqn:E; [done|]. apply orb_false_iff in E as [E1 E2].
    apply negb_false_iff, bool_decide_eq_true in E2.
    destruct (eligible_requireds c tid tr keys) as [rq'|]; [|done]. intros [= <-].
    destruct (IH rq') as [-> Hk]; [done|]. split; [by rewrite fmap_cons, Hr|].
    intros k' [->|Hk']%elem_of_cons; [|by apply Hk]. eauto. }
  pose proof (required_in_find _ _ _ Es) as Hr. destruct s; try done; apply H; done.
Qed.

(** ** What a matcher represents *)

Definition join_stamps m (keys : list (match_key V)) : list stamps :=
  (λ k, key_stamps (mk_key k) (queue m (key_name k))) <$> keys.

Definition cache_repr m (tid : nat) tr (cache : matcher) : Prop :=
  ∃ ms, t_matchSpec tr = Some ms ∧ eligible_requireds c tid tr (ms_keys ms) = Some (requireds cache) ∧
        matcher_inv cache (join_stamps m (ms_keys ms)).

Definition caches_inv m (caches : list (option matcher)) : Prop :=
  ∀ tid tr cache, caches !! tid = Some (Some cache) → c_transition c tid = Some tr → cache_repr m tid tr cache.

(** Token stamps within the integers JavaScript counts exactly. *)
Definition stamps_safe m : Prop := ∀ n tok, tok ∈ queue m n → (createdAt tok ≤ MAX_SAFE_INTEGER)%Z.

Lemma cache_repr_best m tid tr cache :
  c_transition c tid = Some tr → stamps_safe m → cache_repr m tid tr cache →
  best cache = findBinding tr (λ p, peekTokens p m).
Proof.
  intros Ht Hs (ms & Hms & Hel & Hinv). apply eligible_spec in Hel as [Hrq _].
  destruct (transition_wf_of isP pn cf Hc Hwf tid tr Ht) as [_ Hm]. destruct (Hm ms Hms) as (Hne & _).
  eapply is_best_unique; [by apply matcher_best|]. rewrite Hrq. unfold join_stamps.
  apply (findBinding_best tr ms (λ p, peekTokens p m)); [done|done|].
  intros k tok _ Hin. by apply (Hs (key_name k) tok).
Qed.

Lemma caches_inv_ok m caches : stamps_safe m → caches_inv m caches → caches_ok cf m caches.
Proof. intros Hs H tid tr cache Hl Ht. eapply cache_repr_best; eauto. Qed.

Lemma join_stamps_same m m' keys :
  (∀ k, k ∈ keys → queue m (key_name k) = queue m' (key_name k)) → same_stamps (join_stamps m keys) (join_stamps m' keys).
Proof.
  intros H. unfold join_stamps. induction keys as [|k keys IH]; [constructor|].
  rewrite !fmap_cons. constructor; [intros n; by rewrite (H k) by left|]. apply IH. intros. apply H. by right.
Qed.

Lemma cache_repr_same m m' tid tr cache :
  (∀ ms k, t_matchSpec tr = Some ms → k ∈ ms_keys ms → queue m (key_name k) = queue m' (key_name k)) →
  cache_repr m tid tr cache → cache_repr m' tid tr cache.
Proof.
  intros H (ms & Hms & Hel & Hinv). exists ms. split_and!; [done|done|].
  eapply matcher_inv_ext; [|exact Hinv]. apply join_stamps_same. eauto.
Qed.

(** ** A matched consume *)

Lemma key_stamps_cons (key : key_fn V) tok toks n :
  key_stamps key (tok :: toks) n =
  if decide (key (tok_value tok) = Some n) then createdAt tok :: key_stamps key toks n else key_stamps key toks n.
Proof. unfold key_stamps. rewrite filter_cons. by case_decide. Qed.

Lemma key_stamps_remove (key : key_fn V) name k toks n :
  key_stamps key (remove_matching (λ v, bool_decide (key v = Some name)) k toks) n =
  if decide (n = name) then drop k (key_stamps key toks n) else key_stamps key toks n.
Proof.
  revert k. induction toks as [|tok toks IH]; intros k; simpl.
  { case_decide; [|done]. unfold key_stamps. rewrite filter_nil. by rewrite fmap_nil, drop_nil. }
  destruct k as [|k]; [by case_decide|]. case_bool_decide as E.
  - rewrite IH, key_stamps_cons. repeat case_decide; subst; try done; congruence.
  - rewrite !key_stamps_cons, IH. repeat case_decide; subst; try done; congruence.
Qed.

Lemma lookup_key_elem (keys : list (match_key V)) k :
  NoDup (key_name <$> keys) → k ∈ keys → lookup_key keys (key_name k) = Some (mk_key k).
Proof.
  induction keys as [|k' keys IH]; intros Hd Hk; [by apply not_elem_of_nil in Hk|].
  rewrite fmap_cons in Hd. apply NoDup_cons in Hd as [Hn Hd]. cbn [lookup_key].
  apply elem_of_cons in Hk as [->|Hk]; [by rewrite decide_True|]. rewrite decide_False; [auto|].
  intros E. apply Hn. rewrite E. by apply list_elem_of_fmap_2.
Qed.

(** What the firing leaves at a correlated place. *)
Lemma left_at_key tr ms name m k s :
  t_matchSpec tr = Some ms → NoDup (key_name <$> ms_keys ms) → k ∈ ms_keys ms →
  js_find (λ s, bool_decide (place_name (in_place s) = key_name k)) (inputSpecs tr) = Some s → single_spec s →
  left_after tr (Some name) m (key_name k) =
  remove_matching (λ v, bool_decide (mk_key k v = Some name)) (Z.to_nat (requiredFor tr (key_name k))) (queue m (key_name k)).
Proof.
  intros Hms Hd Hk Hs Hss. unfold left_after. rewrite Hs. unfold input_left.
  assert (input_pred tr (Some name) s = λ v, bool_decide (mk_key k v = Some name)) as ->.
  { unfold input_pred, input_predicate. rewrite Hms. unfold keyForPlace.
    apply js_find_Some in Hs as [_ E%bool_decide_eq_true]. rewrite E. by rewrite lookup_key_elem. }
  f_equal. unfold requiredFor. rewrite (required_in_find _ _ _ Hs). by destruct s.
Qed.

Lemma resetTarget_false tid tr p : c_transition c tid = Some tr →
  resetTarget c (pid_of (placeIndex c) p) = false → p ∈ resets tr → False.
Proof.
  intros Ht H Hp. unfold resetTarget in H. pose proof (existsb_false _ _ tr H) as Hx. cbn in Hx.
  rewrite (proj2 (existsb_exists _ _)) in Hx; [|exists p; split; [by apply list_elem_of_In|by apply bool_decide_eq_true]].
  discriminate Hx. unfold c_transition in Ht. by eapply list_elem_of_lookup_2.
Qed.

Lemma consumer_of tid tr s pid : c_transition c tid = Some tr → s ∈ inputSpecs tr →
  pid_of (placeIndex c) (in_place s) = pid → tid ∈ inputConsumers c pid.
Proof.
  intros Ht Hs E. unfold inputConsumers. apply list_elem_of_bind. exists (tid, tr). split.
  - apply list_elem_of_fmap. exists s. split; [done|]. by apply list_elem_of_filter.
  - apply elem_of_lookup_imap. exists tid, tr. split; [done|]. exact Ht.
Qed.

Lemma pid_of_name p q : place_name p = place_name q → pid_of (placeIndex c) p = pid_of (placeIndex c) q.
Proof. unfold pid_of. by intros ->. Qed.

(** A firing touches a correlated place of an eligible join only as that join's own consume. *)
Lemma marking_after_key tid tr tid' tr' chosen m ms k rq :
  c_transition c tid = Some tr → c_transition c tid' = Some tr' →
  t_matchSpec tr' = Some ms → eligible_requireds c tid' tr' (ms_keys ms) = Some rq → k ∈ ms_keys ms →
  marking_after tr chosen m (key_name k) =
  (if decide (tid = tid') then left_after tr chosen m (key_name k) else queue m (key_name k)).
Proof.
  intros Ht Ht' Hms Hel Hk. apply eligible_spec in Hel as [_ Hel]. destruct (Hel k Hk) as (_ & Hreset & Hcons).
  unfold marking_after. rewrite decide_False.
  2:{ intros (p & E & Hp)%list_elem_of_fmap. apply (resetTarget_false tid tr p Ht); [|done].
      by rewrite <- (pid_of_name (mk_place_of k) p). }
  case_decide as Ed; [done|]. unfold left_after.
  destruct (js_find _ (inputSpecs tr)) as [s|] eqn:Es; [|done]. exfalso.
  apply js_find_Some in Es as [Hs E%bool_decide_eq_true]. apply Ed.
  assert (tid ∈ [tid']) as ->%list_elem_of_singleton; [|done]. rewrite <- Hcons.
  apply (consumer_of tid tr s); [done|done|]. by apply pid_of_name.
Qed.

Lemma mirror_lookup tr tid chosen e tid' :
  matchCaches (mirror_consume tr tid chosen e) !! tid' =
  match t_matchSpec tr, matchCaches e !! tid, chosen with
  | Some _, Some (Some cache), Some name =>
      if decide (tid' = tid) then Some (Some (matcher_consume name cache)) else matchCaches e !! tid'
  | _, _, _ => matchCaches e !! tid'
  end.
Proof.
  unfold mirror_consume. destruct (t_matchSpec tr); [|done].
  destruct (matchCaches e !! tid) as [[cache|]|] eqn:E; simpl; [|done|done].
  destruct chosen as [name|]; [|done]. unfold set_cache. cbn [matchCaches].
  destruct (decide (tid' = tid)) as [->|]; [|by rewrite list_lookup_insert_ne].
  rewrite list_lookup_insert_eq; [done|]. by eapply lookup_lt_Some.
Qed.

Lemma caches_consume tid tr chosen e m' :
  c_transition c tid = Some tr → (t_matchSpec tr ≠ None → chosen ≠ None) →
  (∀ n, queue m' n = marking_after tr chosen (e_marking e) n) →
  caches_inv (e_marking e) (matchCaches e) →
  caches_inv m' (matchCaches (mirror_consume tr tid chosen e)).
Proof.
  intros Ht Hch Hq Hinv tid' tr' cache Hl Ht'. rewrite mirror_lookup in Hl.
  destruct (decide (tid' = tid)) as [->|Hne].
  - rewrite Ht in Ht'. injection Ht' as <-.
    assert (∃ cache0, matchCaches e !! tid = Some (Some cache0)) as [cache0 H0].
    { destruct (t_matchSpec tr); [|eauto]. destruct (matchCaches e !! tid) as [[?|]|]; eauto. }
    destruct (Hinv tid tr cache0 H0 Ht) as (ms & Hms & Hel & Hi).
    rewrite Hms, H0 in Hl. destruct chosen as [name|]; [|by destruct Hch; [by rewrite Hms|]].
    injection Hl as <-. destruct (matcher_consume_inv name cache0 _ Hi) as [Erq Hi'].
    exists ms. split_and!; [done|by rewrite Erq|].
    eapply matcher_inv_ext; [|exact Hi'].
    pose proof (eligible_spec _ _ _ _ Hel) as [Hrq Hk]. rewrite Hrq. unfold join_stamps.
    destruct (transition_wf_of isP pn cf Hc Hwf tid tr Ht) as [_ Hm]. destruct (Hm ms Hms) as (_ & Hd & _).
    assert (∀ keys, (∀ k, k ∈ keys → k ∈ ms_keys ms) →
      same_stamps (zip_with (λ (st : stamps) r n, if decide (n = name) then drop (Z.to_nat r) (st n) else st n)
                     ((λ k, key_stamps (mk_key k) (queue (e_marking e) (key_name k))) <$> keys)
                     ((λ k, requiredFor tr (key_name k)) <$> keys))
                  ((λ k, key_stamps (mk_key k) (queue m' (key_name k))) <$> keys)) as H; [|by apply H].
    induction keys as [|k keys IH]; intros Hsub; [constructor|]. rewrite !fmap_cons. cbn [zip_with]. constructor.
    + intros n. destruct (Hk k) as ((s & Hs & Hss) & _); [apply Hsub; left|].
      rewrite Hq, (marking_after_key tid tr tid tr (Some name) _ ms k _ Ht Ht Hms Hel) by (apply Hsub; left).
      rewrite (decide_True (P := tid = tid)) by done. rewrite (left_at_key tr ms name _ k s) by (try done; apply Hsub; left).
      by rewrite key_stamps_remove.
    + apply IH. intros. apply Hsub. by right.
  - assert (matchCaches e !! tid' = Some (Some cache)) as Hl'.
    { destruct (t_matchSpec tr); [|done]. by destruct (matchCaches e !! tid) as [[?|]|], chosen. }
    pose proof (Hinv tid' tr' cache Hl' Ht') as Hr. pose proof Hr as (ms & Hms & Hel & _).
    eapply cache_repr_same; [|exact Hr]. intros ms' k Hms' Hk. rewrite Hms in Hms'. injection Hms' as <-.
    rewrite Hq, (marking_after_key tid tr tid' tr' chosen _ ms k _ Ht Ht' Hms Hel Hk). by rewrite decide_False.
Qed.

(** ** A deposit *)

Lemma key_pid tid tr ms k : c_transition c tid = Some tr → t_matchSpec tr = Some ms → k ∈ ms_keys ms →
  tryPlaceId c (mk_place_of k) = Some (pid_of (placeIndex c) (mk_place_of k)).
Proof.
  intros Ht Hms Hk. destruct (transition_wf_of isP pn cf Hc Hwf tid tr Ht) as [_ Hm].
  destruct (Hm ms Hms) as (_ & _ & Hin). specialize (Hin k Hk). apply list_elem_of_fmap in Hin as (s & E & Hs).
  destruct (touched_pid isP pn cf Hc tid tr (in_place s) Ht) as (pid & E1 & _).
  { unfold touched_places. apply elem_of_app. left. by apply list_elem_of_fmap_2. }
  assert (tryPlaceId c (mk_place_of k) = Some pid) as Hpid by (unfold tryPlaceId in *; by rewrite <- E1, <- E).
  rewrite Hpid. unfold pid_of. unfold tryPlaceId in Hpid. by rewrite Hpid.
Qed.

Lemma imap_pair_fst {A} (l : list A) : (imap pair l).*1 = seq 0 (length l).
Proof.
  assert (∀ o, (imap (λ i x, (o + i, x)) l).*1 = seq o (length l)) as H; [|apply (H 0)].
  induction l as [|x l IH]; intros o; [done|]. simpl. rewrite Nat.add_0_r. f_equal.
  rewrite <- IH. f_equal. apply imap_ext. intros. simpl. f_equal. lia.
Qed.

Lemma imap_pair_at {A} (l : list A) i x : (i, x) ∈ imap pair l ↔ l !! i = Some x.
Proof.
  rewrite elem_of_lookup_imap. split; [by intros (j & y & [= -> ->] & H)|]. intros H. by exists i, x.
Qed.

Lemma bind_fst_sublist {A B} (g : nat * A → list (nat * B)) (l : list (nat * A)) :
  (∀ y, y ∈ l → (g y).*1 `sublist_of` [y.1]) → (l ≫= g).*1 `sublist_of` l.*1.
Proof.
  induction l as [|y l IH]; intros H; [done|]. cbn. rewrite fmap_app.
  change (y.1 :: l.*1) with ([y.1] ++ l.*1). apply sublist_app; [apply H; left|].
  apply IH. intros. apply H. by right.
Qed.

Lemma keys_at_pid tid tr ms pid : c_transition c tid = Some tr → t_matchSpec tr = Some ms →
  (((λ k : nat * match_key V, (tid, k.1)) <$>
     filter (λ k : nat * match_key V, pid_of (placeIndex c) (mk_place_of k.2) = pid) (imap pair (ms_keys ms))).*1 : list nat)
  `sublist_of` [tid].
Proof.
  intros Ht Hms. destruct (transition_wf_of isP pn cf Hc Hwf tid tr Ht) as [_ Hm]. destruct (Hm ms Hms) as (_ & Hd & _).
  assert (∀ i j k k', (i, k) ∈ imap pair (ms_keys ms) → (j, k') ∈ imap pair (ms_keys ms) →
    pid_of (placeIndex c) (mk_place_of k) = pid → pid_of (placeIndex c) (mk_place_of k') = pid → i = j) as Huniq.
  { intros i j k k' Hi%imap_pair_at Hj%imap_pair_at E E'.
    assert (tryPlaceId c (mk_place_of k) = Some pid) as P1
      by (rewrite (key_pid tid tr ms k), E; [done..|by eapply list_elem_of_lookup_2]).
    assert (tryPlaceId c (mk_place_of k') = Some pid) as P2
      by (rewrite (key_pid tid tr ms k'), E'; [done..|by eapply list_elem_of_lookup_2]).
    destruct (pid_place isP pn cf Hc _ _ P1) as (_ & q & Hq & Eq). destruct (pid_place isP pn cf Hc _ _ P2) as (_ & q' & Hq' & Eq').
    rewrite Hq in Hq'. injection Hq' as <-.
    apply (NoDup_lookup (key_name <$> ms_keys ms) i j (key_name k)); [done|by rewrite list_lookup_fmap, Hi|].
    rewrite list_lookup_fmap, Hj. simpl. f_equal. unfold key_name. congruence. }
  assert (NoDup ((imap pair (ms_keys ms)).*1)) as Hnd by (rewrite imap_pair_fst; apply NoDup_seq).
  revert Huniq Hnd. generalize (imap pair (ms_keys ms)) as l. induction l as [|[i k] l IH]; intros Huniq Hnd; [apply sublist_nil_l|].
  rewrite filter_cons. apply NoDup_cons in Hnd as [Hni Hnd]. case_decide as E; simpl in E.
  - assert (filter (λ k : nat * match_key V, pid_of (placeIndex c) (mk_place_of k.2) = pid) l = []) as ->; [|done].
    apply filter_none. intros [j k'] Hj E'. simpl in E'. apply Hni.
    rewrite (Huniq i j k k'); [|left|by right|done|done]. apply list_elem_of_fmap. by exists (j, k').
  - apply IH; [|done]. intros i' j' k1 k2 H1 H2. apply Huniq; by right.
Qed.

Lemma NoDup_targets pid : NoDup (matchTargets c pid).*1.
Proof.
  unfold matchTargets. eapply sublist_NoDup; [|apply bind_fst_sublist].
  - rewrite imap_pair_fst. apply NoDup_seq.
  - intros [tid tr] Ht%imap_pair_at. cbn [fst snd]. destruct (t_matchSpec tr) as [ms|] eqn:Hms; [|apply sublist_nil_l].
    destruct (eligible_requireds _ _ _ _); [|apply sublist_nil_l]. by apply (keys_at_pid tid tr ms pid).
Qed.

Lemma elem_of_targets pid tid i :
  (tid, i) ∈ matchTargets c pid ↔
  ∃ tr ms k rq, c_transition c tid = Some tr ∧ t_matchSpec tr = Some ms ∧
    eligible_requireds c tid tr (ms_keys ms) = Some rq ∧ ms_keys ms !! i = Some k ∧
    pid_of (placeIndex c) (mk_place_of k) = pid.
Proof.
  unfold matchTargets. rewrite list_elem_of_bind. split.
  - intros ([tid' tr] & Hin & Ht%imap_pair_at). cbn [fst snd] in Hin.
    destruct (t_matchSpec tr) as [ms|] eqn:Hms; [|by apply not_elem_of_nil in Hin].
    destruct (eligible_requireds _ _ _ _) as [rq|] eqn:Hel; [|by apply not_elem_of_nil in Hin].
    apply list_elem_of_fmap in Hin as ([j k] & [= -> ->] & [E Hk%imap_pair_at]%list_elem_of_filter).
    by exists tr, ms, k, rq.
  - intros (tr & ms & k & rq & Ht & Hms & Hel & Hk & E). exists (tid, tr). split; [|by apply imap_pair_at].
    cbn [fst snd]. rewrite Hms, Hel. apply list_elem_of_fmap. exists (i, k). split; [done|].
    apply list_elem_of_filter. split; [done|]. by apply imap_pair_at.
Qed.

Lemma cache_target_other tok e y tid : tid ≠ y.1 → matchCaches (cache_target cf tok e y) !! tid = matchCaches e !! tid.
Proof.
  intros Hne. unfold cache_target. destruct (default None (matchCaches e !! y.1)); [|done].
  destruct (c_transition _ _ ≫= t_matchSpec) as [ms|]; [|done]. destruct (ms_keys ms !! y.2); [|done].
  unfold set_cache. cbn [matchCaches]. by apply list_lookup_insert_ne.
Qed.

Lemma cache_target_frame tok e y : frame (cache_target cf tok e y) = frame e ∧ e_marking (cache_target cf tok e y) = e_marking e.
Proof.
  unfold cache_target. destruct (default None (matchCaches e !! y.1)); [|done].
  destruct (c_transition _ _ ≫= t_matchSpec) as [ms|]; [|done]. by destruct (ms_keys ms !! y.2).
Qed.

Lemma cacheAddToken_frame pid tok e :
  frame (cacheAddToken cf pid tok e) = frame e ∧ e_marking (cacheAddToken cf pid tok e) = e_marking e.
Proof.
  unfold cacheAddToken. apply (foldl_inv (λ e', frame e' = frame e ∧ e_marking e' = e_marking e)); [|done].
  intros e' y _ [H1 H2]. destruct (cache_target_frame tok e' y) as [-> ->]. done.
Qed.

Lemma targets_other tok l e tid : tid ∉ l.*1 → matchCaches (foldl (cache_target cf tok) e l) !! tid = matchCaches e !! tid.
Proof.
  revert e. induction l as [|y l IH]; intros e H; [done|]. rewrite fmap_cons in H. cbn [foldl].
  rewrite IH by set_solver. apply cache_target_other. set_solver.
Qed.

Lemma cache_target_cong tok e e' y : matchCaches e !! y.1 = matchCaches e' !! y.1 →
  matchCaches (cache_target cf tok e y) !! y.1 = matchCaches (cache_target cf tok e' y) !! y.1.
Proof.
  intros E. unfold cache_target. rewrite <- E. destruct (matchCaches e !! y.1) as [[cache|]|] eqn:E'; simpl; try congruence.
  destruct (c_transition _ _ ≫= t_matchSpec) as [ms|]; [|congruence]. destruct (ms_keys ms !! y.2); [|congruence].
  unfold set_cache. cbn [matchCaches]. rewrite !list_lookup_insert_eq; [done|by eapply lookup_lt_Some..].
Qed.

Lemma targets_one tok l e y : NoDup l.*1 → y ∈ l →
  matchCaches (foldl (cache_target cf tok) e l) !! y.1 = matchCaches (cache_target cf tok e y) !! y.1.
Proof.
  revert e. induction l as [|y' l IH]; intros e Hd Hy; [by apply not_elem_of_nil in Hy|].
  rewrite fmap_cons in Hd. apply NoDup_cons in Hd as [Hn Hd]. cbn [foldl].
  apply elem_of_cons in Hy as [->|Hy]; [by apply targets_other|].
  rewrite (IH _ Hd Hy). apply cache_target_cong, cache_target_other. intros E. apply Hn. rewrite <- E.
  by apply list_elem_of_fmap_2.
Qed.

Lemma join_stamps_deposit m m' name tok keys i k :
  (∀ n, queue m' n = if decide (n = name) then queue m n ++ [tok] else queue m n) →
  NoDup (key_name <$> keys) → keys !! i = Some k → key_name k = name →
  same_stamps
    (match mk_key k (tok_value tok) with
     | Some nm => alter (λ (st : stamps) n, if decide (n = nm) then st n ++ [createdAt tok] else st n) i (join_stamps m keys)
     | None => join_stamps m keys
     end) (join_stamps m' keys).
Proof.
  intros Hq Hd Hi Hname.
  assert (∀ keys : list (match_key V), name ∉ key_name <$> keys → same_stamps (join_stamps m keys) (join_stamps m' keys)) as Hrest.
  { intros ks Hn. apply join_stamps_same. intros k' Hk'. rewrite Hq, decide_False; [done|].
    intros E. apply Hn. rewrite <- E. by apply list_elem_of_fmap_2. }
  unfold join_stamps in *. revert i Hi Hd. induction keys as [|k' keys IH]; intros [|i] Hi Hd; [done|done| |];
    rewrite !fmap_cons in *; apply NoDup_cons in Hd as [Hn Hd]; simpl in Hi.
  - injection Hi as ->. assert (same_stamps ((λ k, key_stamps (mk_key k) (queue m (key_name k))) <$> keys)
      ((λ k, key_stamps (mk_key k) (queue m' (key_name k))) <$> keys)) as Hr by (apply Hrest; by rewrite <- Hname).
    destruct (mk_key k (tok_value tok)) as [nm|] eqn:Ek; simpl; (constructor; [|exact Hr]); intros n;
      rewrite Hq, (decide_True (P := key_name k = name)) by done; rewrite key_stamps_snoc, Ek; repeat case_decide; congruence.
  - specialize (IH i Hi Hd). assert (∀ n, key_stamps (mk_key k') (queue m (key_name k')) n = key_stamps (mk_key k') (queue m' (key_name k')) n) as Hh.
    { intros n. rewrite Hq, decide_False; [done|]. intros E. apply Hn. rewrite E, <- Hname.
      apply list_elem_of_fmap_2. by eapply list_elem_of_lookup_2. }
    destruct (mk_key k (tok_value tok)) as [nm|]; simpl; by constructor.
Qed.

Lemma caches_deposit p pid tok e m' :
  tryPlaceId c p = Some pid →
  (∀ n, queue m' n = if decide (n = place_name p) then queue (e_marking e) n ++ [tok] else queue (e_marking e) n) →
  caches_inv (e_marking e) (matchCaches e) → caches_inv m' (matchCaches (cacheAddToken cf pid tok e)).
Proof.
  intros Hp Hq Hinv tid tr cache Hl Ht. unfold cacheAddToken in Hl.
  destruct (pid_place isP pn cf Hc p pid Hp) as (Hlt & q & Hcq & Eq).
  rewrite Htargets, list_lookup_fmap, lookup_seq_lt in Hl by done. simpl in Hl.
  destruct (decide (tid ∈ (matchTargets c pid).*1)) as [Hin|Hout].
  - apply list_elem_of_fmap in Hin as ([tid' i] & E & Hin). simpl in E. subst tid'.
    pose proof (targets_one tok (matchTargets c pid) e (tid, i) (NoDup_targets pid) Hin) as E1. cbn [fst] in E1.
    rewrite E1 in Hl. apply elem_of_targets in Hin as (tr' & ms & k & rq & Ht' & Hms & Hel & Hi & Epid).
    rewrite Ht in Ht'. injection Ht' as <-. unfold cache_target in Hl. cbn [fst snd] in Hl. rewrite Ht in Hl. simpl in Hl.
    rewrite Hms, Hi in Hl. destruct (matchCaches e !! tid) as [[cache0|]|] eqn:E0; simpl in Hl; [|congruence..].
    unfold set_cache in Hl. cbn [matchCaches] in Hl. rewrite list_lookup_insert_eq in Hl by (by eapply lookup_lt_Some).
    injection Hl as <-. destruct (Hinv tid tr cache0 E0 Ht) as (ms' & Hms' & Hel' & Hi'). rewrite Hms in Hms'. injection Hms' as <-.
    destruct (transition_wf_of isP pn cf Hc Hwf tid tr Ht) as [_ Hm]. destruct (Hm ms Hms) as (_ & Hd & _).
    assert (key_name k = place_name p) as Hname.
    { pose proof (key_pid tid tr ms k Ht Hms ltac:(by eapply list_elem_of_lookup_2)) as Hk. rewrite Epid in Hk.
      destruct (pid_place isP pn cf Hc _ _ Hk) as (_ & q' & Hq' & Eq'). unfold key_name. congruence. }
    pose proof (join_stamps_deposit (e_marking e) m' (place_name p) tok (ms_keys ms) i k Hq Hd Hi Hname) as Hsame.
    exists ms. unfold cache_add. destruct (mk_key k (tok_value tok)) as [nm|].
    + destruct (matcher_add_inv i nm (createdAt tok) cache0 _ Hi') as (mt & -> & Erq & Hmt).
      { unfold join_stamps. rewrite length_fmap. by eapply lookup_lt_Some. }
      simpl. split_and!; [done|by rewrite Erq|]. by eapply matcher_inv_ext.
    + split_and!; [done|done|]. by eapply matcher_inv_ext.
  - rewrite targets_other in Hl by done. pose proof (Hinv tid tr cache Hl Ht) as Hr.
    eapply cache_repr_same; [|exact Hr]. intros ms k Hms Hk. rewrite Hq, decide_False; [done|]. intros E. apply Hout.
    destruct Hr as (ms' & Hms' & Hel & _). rewrite Hms in Hms'. injection Hms' as <-.
    apply list_elem_of_lookup in Hk as [i Hi]. apply list_elem_of_fmap. exists (tid, i). split; [done|].
    apply elem_of_targets. exists tr, ms, k, (requireds cache). split_and!; try done.
    pose proof (key_pid tid tr ms k Ht Hms ltac:(by eapply list_elem_of_lookup_2)) as Hk.
    unfold tryPlaceId in Hk, Hp. unfold key_name in E. rewrite E, Hp in Hk. by injection Hk as <-.
Qed.

(** A deposit on a place the net does not know. *)
Lemma caches_unknown p tok m m' caches :
  tryPlaceId c p = None →
  (∀ n, queue m' n = if decide (n = place_name p) then queue m n ++ [tok] else queue m n) →
  caches_inv m caches → caches_inv m' caches.
Proof.
  intros Hp Hq Hinv tid tr cache Hl Ht. pose proof (Hinv tid tr cache Hl Ht) as Hr.
  eapply cache_repr_same; [|exact Hr]. intros ms k Hms Hk. rewrite Hq, decide_False; [done|]. intros E.
  pose proof (key_pid tid tr ms k Ht Hms Hk) as Hk'. unfold tryPlaceId in Hk', Hp. unfold key_name in E.
  rewrite E, Hp in Hk'. done.
Qed.

(** Dropping a matcher is always safe. *)
Lemma caches_drop m caches tid : caches_inv m caches → caches_inv m (<[tid := None]> caches).
Proof.
  intros Hinv tid' tr cache Hl Ht. destruct (decide (tid' = tid)) as [->|].
  - destruct (decide (tid < length caches)).
    + by rewrite list_lookup_insert_eq in Hl by done.
    + rewrite list_insert_ge in Hl by lia. by apply (Hinv tid tr cache).
  - rewrite list_lookup_insert_ne in Hl by done. by apply (Hinv tid' tr cache).
Qed.
End Caches.
