(* ===== verification/ExecCoherent.v ===== *)
(** * The engine invariant and the operations that keep it

    [engine_inv P e]: the bitmap is the marking's, the matchers represent it, the counters are the
    flags', and outside the pending transitions [P] a transition is flagged enabled when the
    marking enables it. The dirty scan empties [P]; consuming and depositing extend it by the
    transitions they mark dirty. *)
From S2P Require Import Prelude.
From S2P Require Import Net.
From S2P Require Import Out.
From S2P Require Import Transition.
From S2P Require Import Marking.
From S2P Require Import MatchEngine.
From S2P Require Import PetriNet.
From S2P Require Import Bitmap.
From S2P Require Import CompiledNet.
From S2P Require Import Context.
From S2P Require Import Executor.
From S2P Require Import ExecScan.
From S2P Require Import ExecFire.
From S2P Require Import ExecLoop.
From S2P Require Import ExecInv.
From S2P Require Import ExecCache.

Section Coherent.
Context {V : Type} (isP : nat → bool) (pn : petri_net V) (cf : config V).
Hypothesis Hc : compile isP pn = Ok (cf_compiled cf).
Hypothesis Hwf : ∀ tid t, net_transitions pn !! tid = Some t → transition_wf t.
Hypothesis Htargets : placeMatchTargets cf = matchTargets (cf_compiled cf) <$> seq 0 (placeCount (cf_compiled cf)).
Abbreviation c := (cf_compiled cf).
Abbreviation tc := (transitionCount (cf_compiled cf)).
Implicit Types (e : engine V) (m : marking V) (tr : transition V) (P : nat → Prop).

(** ** Flags *)

Definition stamp_at e (tid : nat) : option Z := default None (enabledAtMs e !! tid).

Record flags_ok e : Prop := {
  fo_len : length (enabledAtMs e) = tc ∧ length (inFlightFlags e) = tc ∧ length (enabledFlags e) = tc;
  fo_count : enabledTransitionCount e = count_true (enabledFlags e);
  fo_excl : ∀ tid, flag (enabledFlags e) tid = true → flag (inFlightFlags e) tid = false;
  fo_stamp : ∀ tid, flag (enabledFlags e) tid = true ↔ is_Some (stamp_at e tid)
}.

Lemma default_insert (l : list (option Z)) i j (v : option Z) : i < length l →
  default None (<[i := v]> l !! j) = if decide (j = i) then v else default None (l !! j).
Proof.
  intros Hi. case_decide as E; subst; [by rewrite list_lookup_insert_eq|by rewrite list_lookup_insert_ne].
Qed.

Ltac flags_tac :=
  constructor; unfold stamp_at; cbn [enabledAtMs inFlightFlags enabledFlags enabledTransitionCount disable set_enabledAt set_enabled set_inFlight emit];
  rewrite ?length_insert; [by split_and!|..].

Lemma flags_ok_enable tid now e : tid < tc → flag (enabledFlags e) tid = false → flag (inFlightFlags e) tid = false →
  flags_ok e → flags_ok (set_enabledAt tid (Some now) (set_enabled tid true 1 e)).
Proof.
  intros Ht Hen Hfl [(L1 & L2 & L3) Hn Hx Hs]. flags_tac.
  - rewrite count_true_insert, Hen by congruence. lia.
  - intros x. rewrite flag_insert. case_decide as E; [destruct E as [-> _]; by intros _|]. auto.
  - intros x. rewrite flag_insert, default_insert, L3 by congruence. repeat case_decide; subst; try tauto.
    + split; [by eexists|done].
    + apply Hs.
Qed.

Lemma flags_ok_disable tid e : flag (enabledFlags e) tid = true → flags_ok e → flags_ok (disable tid e).
Proof.
  intros Hen [(L1 & L2 & L3) Hn Hx Hs]. pose proof (flag_lt _ _ Hen). flags_tac.
  - rewrite count_true_insert, Hen by done. lia.
  - intros x. rewrite flag_insert. case_decide; [done|]. auto.
  - intros x. rewrite flag_insert, default_insert by congruence. repeat case_decide; subst; try tauto.
    + split; [done|by intros [? ?]].
    + apply Hs.
Qed.

Lemma flags_ok_restart tid now e : flag (enabledFlags e) tid = true → flags_ok e → flags_ok (set_enabledAt tid (Some now) e).
Proof.
  intros Hen [(L1 & L2 & L3) Hn Hx Hs]. pose proof (flag_lt _ _ Hen). flags_tac; [done|done|].
  intros x. rewrite default_insert by congruence. case_decide; subst; [|apply Hs]. split; [by eexists|done].
Qed.

Lemma flags_ok_fly tid e : flag (enabledFlags e) tid = true → flags_ok e → flags_ok (disable tid (set_inFlight tid true e)).
Proof.
  intros Hen [(L1 & L2 & L3) Hn Hx Hs]. pose proof (flag_lt _ _ Hen). flags_tac.
  - rewrite count_true_insert, Hen by done. lia.
  - intros x. rewrite !flag_insert. repeat case_decide; try done; [tauto|]. auto.
  - intros x. rewrite flag_insert, default_insert by congruence. repeat case_decide; subst; try tauto.
    + split; [done|by intros [? ?]].
    + apply Hs.
Qed.

Lemma flags_ok_land tid e : flags_ok e → flags_ok (set_inFlight tid false e).
Proof.
  intros [(L1 & L2 & L3) Hn Hx Hs]. flags_tac; [done| |done].
  intros x Hen. rewrite flag_insert. case_decide; [done|auto].
Qed.

Lemma flags_ok_emit ev e : flags_ok e → flags_ok (emit ev e).
Proof. intros []. by constructor. Qed.

(** ** The invariant *)

Definition reapable (tid : nat) : Prop := flag (hasDeadlineFlags cf) tid = true ∧ flag (isExactFlags cf) tid = false.

Definition sized (n : nat) (ws : list Z) : Prop := words_ok ws ∧ length ws = n.

Record engine_inv P e : Prop := {
  ei_safe : stamps_safe (e_marking e);
  ei_caches : caches_inv cf (e_marking e) (matchCaches e);
  ei_bitmap : bitmap_ok cf (e_marking e) (markingBitmap e);
  ei_words : sized (wordCount c) (markingBitmap e);
  ei_dirty : sized (dirty_words c) (dirtySet e);
  ei_restart : sized (dirty_words c) (restartPendingWords e);
  ei_flags : flags_ok e;
  ei_sound : ∀ tid tr, c_transition c tid = Some tr → ¬ P tid →
    flag (enabledFlags e) tid = true → enabled_in tr (e_marking e);
  ei_complete : ∀ tid tr, c_transition c tid = Some tr → ¬ P tid → flag (inFlightFlags e) tid = false → ¬ reapable tid →
    enabled_in tr (e_marking e) → flag (enabledFlags e) tid = true
}.

(** The transitions the dirty set names. *)
Definition dirty_of e (tid : nat) : Prop := bit_of (dirtySet e) tid = true.

Lemma engine_inv_caches P e : engine_inv P e → caches_ok cf (e_marking e) (matchCaches e).
Proof. intros H. eapply caches_inv_ok; [done|done|by apply (ei_safe P)|by apply (ei_caches P)]. Qed.

Lemma engine_inv_weaken P Q e : (∀ tid, P tid → Q tid) → engine_inv P e → engine_inv Q e.
Proof.
  intros HPQ [S1 S2 S3 S4 S5 S6 S7 S8 S9]. constructor; try done.
  - intros tid tr Ht HQ. apply (S8 tid tr Ht). auto.
  - intros tid tr Ht HQ. apply (S9 tid tr Ht). auto.
Qed.

Lemma canEnable_inv P tid tr e : c_transition c tid = Some tr → engine_inv P e →
  canEnable cf tid (markingBitmap e) e = true ↔ enabled_in tr (e_marking e).
Proof.
  intros Ht H. eapply canEnable_spec; [done|done|done|by apply (ei_bitmap P)|by eapply engine_inv_caches].
Qed.

Lemma c_transition_lt tid tr : c_transition c tid = Some tr → tid < tc.
Proof. apply lookup_lt_Some. Qed.

Lemma lt_c_transition tid : tid < tc → ∃ tr, c_transition c tid = Some tr.
Proof. intros H. destruct (lookup_lt_is_Some_2 (c_transitions c) tid H) as [tr Htr]. eauto. Qed.

Lemma dirty_words_enough tid : tid < tc → tid / 32 < dirty_words c.
Proof. apply words_enough. Qed.

Lemma dirty_words_hold : tc ≤ 32 * dirty_words c.
Proof.
  destruct tc as [|n] eqn:E; [lia|]. pose proof (dirty_words_enough n ltac:(lia)).
  pose proof (Nat.div_mod_eq n 32). pose proof (Nat.mod_upper_bound n 32). lia.
Qed.

Lemma sized_set n ws b : sized n ws → sized n (setBit ws b).
Proof. intros [? ?]. split; [by apply setBit_ok|by rewrite length_setBit]. Qed.
Lemma sized_clear n ws b : sized n ws → sized n (clearBit ws b).
Proof. intros [? ?]. split; [by apply clearBit_ok|by rewrite length_clearBit]. Qed.
Lemma sized_zero n ws : sized n ws → sized n ((λ _, 0%Z) <$> ws).
Proof.
  intros [_ <-]. split; [|by rewrite length_fmap]. apply Forall_fmap, Forall_forall. intros x _. unfold word32, compose. lia.
Qed.
Lemma sized_bit n ws b k : sized n ws → b / 32 < n → bit_of (setBit ws b) k = true ↔ k = b ∨ bit_of ws k = true.
Proof. intros [? <-] ?. rewrite setBit_spec, orb_true_iff, Nat.eqb_eq by done. done. Qed.

Lemma zero_bit (ws : list Z) b : bit_of ((λ _, 0%Z) <$> ws) b = false.
Proof.
  unfold bit_of, word_at. rewrite list_lookup_fmap. destruct (ws !! (b / 32)); simpl; apply Z.testbit_0_l.
Qed.

(** ** The dirty scan *)

Lemma rescan_inv P now tid e : tid < tc → engine_inv P e →
  let e' := rescan cf now (markingBitmap e) tid e in
  engine_inv (λ x, P x ∧ x ≠ tid) e' ∧ markingBitmap e' = markingBitmap e.
Proof.
  intros Hlt H. destruct (lt_c_transition tid Hlt) as [tr Ht]. cbn zeta. unfold rescan.
  pose proof (canEnable_inv P tid tr e Ht H) as Hcan.
  assert (∀ e', e_marking e' = e_marking e → matchCaches e' = matchCaches e → markingBitmap e' = markingBitmap e →
    dirtySet e' = dirtySet e → restartPendingWords e' = restartPendingWords e → flags_ok e' →
    (∀ x, x ≠ tid → flag (enabledFlags e') x = flag (enabledFlags e) x) → inFlightFlags e' = inFlightFlags e →
    (flag (inFlightFlags e) tid = false → (flag (enabledFlags e') tid = true ↔ enabled_in tr (e_marking e))) →
    engine_inv (λ x, P x ∧ x ≠ tid) e' ∧ markingBitmap e' = markingBitmap e) as Hmk.
  { intros e' E1 E2 E3 E4 E5 Hf Hen Efl Htid. split; [|done]. destruct H as [S1 S2 S3 S4 S5 S6 S7 S8 S9].
    constructor; rewrite ?E1, ?E2, ?E3, ?E4, ?E5; try done.
    - intros x trx Hx HP Hfx. destruct (decide (x = tid)) as [->|Hne].
      + rewrite Ht in Hx. injection Hx as <-. apply Htid; [|done].
        rewrite <- Efl. by apply (fo_excl _ Hf).
      + rewrite Hen in Hfx by done. apply (S8 x trx Hx); [|done]. intros HPx. by apply HP.
    - intros x trx Hx HP Hflx Hr He. destruct (decide (x = tid)) as [->|Hne].
      + rewrite Ht in Hx. injection Hx as <-. apply Htid; [by rewrite <- Efl|done].
      + rewrite Hen by done. apply (S9 x trx Hx); [|by rewrite <- Efl|done|done]. intros HPx. by apply HP. }
  pose proof (ei_flags _ _ H) as Hf.
  assert (∀ b n x, x ≠ tid → flag (enabledFlags (set_enabled tid b n e)) x = flag (enabledFlags e) x) as Hoth.
  { intros b n x Hne. cbn [set_enabled enabledFlags]. rewrite flag_insert, decide_False; [done|]. by intros [? _]. }
  pose proof (fo_len _ Hf) as (L1 & L2 & L3).
  destruct (flag (inFlightFlags e) tid) eqn:Efl.
  - apply Hmk; try done.
  - destruct (canEnable cf tid (markingBitmap e) e) eqn:Ecan, (flag (enabledFlags e) tid) eqn:Een; cbn [negb andb].
    + destruct (anyRestartPending e && testBit (restartPendingWords e) tid); apply Hmk; try done.
      * by apply flags_ok_emit, flags_ok_restart.
      * intros _. cbn [emit set_enabledAt enabledFlags]. rewrite Een. tauto.
      * intros _. rewrite Een. tauto.
    + apply Hmk; try done.
      * by apply flags_ok_emit, flags_ok_enable.
      * intros x Hne. apply (Hoth true 1%Z x Hne).
      * intros _. cbn [emit set_enabledAt set_enabled enabledFlags]. rewrite flag_insert, decide_True by (split; [done|by rewrite L3]).
        tauto.
    + apply Hmk; try done.
      * by apply flags_ok_disable.
      * intros x Hne. apply (Hoth false (-1)%Z x Hne).
      * intros _. cbn [disable set_enabledAt set_enabled enabledFlags]. rewrite flag_insert, decide_True by (split; [done|by rewrite L3]).
        split; [done|]. intros Hen%Hcan. done.
    + apply Hmk; try done. intros _. rewrite Een. split; [done|]. intros Hen%Hcan. done.
Qed.

Lemma rescan_foldl P now bits e l :
  (∀ tid, tid ∈ l → tid < tc) → markingBitmap e = bits → engine_inv P e →
  engine_inv (λ x, P x ∧ x ∉ l) (foldl (λ e tid, rescan cf now bits tid e) e l) ∧
  markingBitmap (foldl (λ e tid, rescan cf now bits tid e) e l) = bits.
Proof.
  revert P e. induction l as [|tid l IH]; intros P e Hl Hb H; simpl.
  { split; [|done]. eapply engine_inv_weaken; [|exact H]. intros x Hx. split; [done|apply not_elem_of_nil]. }
  destruct (rescan_inv P now tid e) as [H1 H2]; [apply Hl; left|done|]. rewrite Hb in *.
  destruct (IH _ _ ltac:(intros; apply Hl; by right) H2 H1) as [H3 H4]. split; [|done].
  eapply engine_inv_weaken; [|exact H3]. intros x [[??]?]. split; [done|]. set_solver.
Qed.

Lemma engine_inv_set_dirty P ws e : sized (dirty_words c) ws → engine_inv P e → engine_inv P (set_dirty ws e).
Proof. intros Hw []. constructor; try done. destruct ei_flags0. by constructor. Qed.

Lemma engine_inv_set_restart P ws b e : sized (dirty_words c) ws → engine_inv P e → engine_inv P (set_restart ws b e).
Proof. intros Hw []. constructor; try done. destruct ei_flags0. by constructor. Qed.

Lemma engine_inv_emit P ev e : engine_inv P e → engine_inv P (emit ev e).
Proof. intros []. constructor; try done. destruct ei_flags0. by constructor. Qed.

(** The scan empties the dirty set. *)
Lemma scan_words_dirty now bits w words e : dirtySet (scan_words (rescan cf now bits) tc w words e) = dirtySet e.
Proof.
  revert w e. induction words as [|word words IH]; intros w e; [done|]. cbn [scan_words]. rewrite IH.
  generalize 32 as fuel. intros fuel. revert word e. induction fuel as [|fuel IHf]; intros word e; [done|]. cbn [scan_word].
  case_bool; [done|]. case_bool; [done|]. rewrite IHf. unfold rescan. by repeat case_bool.
Qed.

Lemma updateDirty_clears now e : hasDirtyBits (updateDirtyTransitions cf now e) = false.
Proof.
  assert (dirtySet (updateDirtyTransitions cf now e) = (λ _, 0%Z) <$> dirtySet e) as E.
  { unfold updateDirtyTransitions. case_bool; cbn [set_restart dirtySet]; by rewrite scan_words_dirty. }
  unfold hasDirtyBits. rewrite E. clear E. induction (dirtySet e) as [|w ws IH]; [done|]. rewrite fmap_cons. exact IH.
Qed.

(** After the scan no transition is pending. *)
Lemma updateDirty_inv now e : engine_inv (dirty_of e) e → engine_inv (λ _, False) (updateDirtyTransitions cf now e).
Proof.
  intros H. unfold updateDirtyTransitions. pose proof (ei_dirty _ _ H) as [Hw Hl].
  rewrite scan_words_spec; [|done|rewrite Hl; apply dirty_words_hold].
  destruct (rescan_foldl (dirty_of e) now (markingBitmap e) (set_dirty ((λ _, 0%Z) <$> dirtySet e) e) (dirty_tids (dirtySet e) tc)) as [H1 _].
  - intros tid Ht. unfold dirty_tids in Ht. apply list_elem_of_filter in Ht as [_ Ht%elem_of_seq]. lia.
  - done.
  - apply engine_inv_set_dirty; [|done]. by apply sized_zero.
  - assert (engine_inv (λ _, False) (foldl (λ e0 tid, rescan cf now (markingBitmap e) tid e0)
      (set_dirty ((λ _, 0%Z) <$> dirtySet e) e) (dirty_tids (dirtySet e) tc))) as H2.
    { destruct H1 as [S1 S2 S3 S4 S5 S6 S7 S8 S9]. 
      assert (∀ tid tr, c_transition c tid = Some tr → ¬ (dirty_of e tid ∧ tid ∉ dirty_tids (dirtySet e) tc)) as Hno.
      { intros tid tr Ht [Hd Hn]. apply Hn. unfold dirty_tids. apply list_elem_of_filter. split; [done|].
        apply elem_of_seq. apply c_transition_lt in Ht. lia. }
      constructor; try done; intros tid tr Ht _; [by apply (S8 tid tr Ht), (Hno tid tr)|by apply (S9 tid tr Ht), (Hno tid tr)]. }
    destruct (anyRestartPending _); [|done]. apply engine_inv_set_restart; [|done]. apply sized_zero.
    apply (ei_restart _ _ H2).
Qed.

(** ** Deadlines *)

Lemma disable_inv P tid e :
  flag (enabledFlags e) tid = true →
  (∀ tr, c_transition c tid = Some tr → ¬ P tid → flag (inFlightFlags e) tid = false → reapable tid ∨ ¬ enabled_in tr (e_marking e)) →
  engine_inv P e → engine_inv P (disable tid e).
Proof.
  intros Hen Hok H. destruct H as [S1 S2 S3 S4 S5 S6 S7 S8 S9]. constructor; try done.
  - by apply flags_ok_disable.
  - intros x trx Hx HP. cbn [disable set_enabledAt set_enabled enabledFlags]. rewrite flag_insert. case_decide; [done|]. by apply S8.
  - intros x trx Hx HP Hfl Hr He. cbn [disable set_enabledAt set_enabled enabledFlags inFlightFlags e_marking] in *. rewrite flag_insert.
    case_decide as E; [|by apply (S9 x trx)]. destruct E as [-> _]. by destruct (Hok trx Hx HP Hfl).
Qed.

Lemma enforceDeadlines_inv P now e : engine_inv P e → engine_inv P (enforceDeadlines cf now e).
Proof.
  intros H. unfold enforceDeadlines. apply foldl_inv; [|done]. clear e H. intros e tid _ H. unfold enforce_deadline.
  destruct (flag (hasDeadlineFlags cf) tid) eqn:E1; [|done]. destruct (flag (isExactFlags cf) tid) eqn:E2; [done|]. cbn [negb].
  destruct (flag (enabledFlags e) tid) eqn:E3; [|done]. destruct (flag (inFlightFlags e) tid) eqn:E4; [done|]. cbn [negb orb].
  destruct (c_transition c tid) as [tr|] eqn:Ht; [|done]. case_bool; [|done].
  apply (engine_inv_emit P (EvTransitionTimedOut (t_name tr)) (disable tid e)).
  apply disable_inv; [done| |done]. intros; left; by split.
Qed.
End Coherent.
