(* ===== verification/ExecFiring.v ===== *)
(** * Firing keeps the engine invariant

    The consumption of a firing with the bitmap update and the dirty marks that follow it, the
    registration in flight, and the recovery of a firing that threw. *)
From S2P Require Import Prelude.
From S2P Require Import Net.
From S2P Require Import Out.
From S2P Require Import Transition.
From S2P Require Import Marking.
From S2P Require Import MatchEngine.
From S2P Require Import PetriNet.
From S2P Require Import Bitmap.
From S2P Require Import CompiledNet.
From S2P Require Import Context.
From S2P Require Import Executor.
From S2P Require Import ExecScan.
From S2P Require Import ExecFire.
From S2P Require Import ExecLoop.
From S2P Require Import ExecInv.
From S2P Require Import ExecCache.
From S2P Require Import ExecCoherent.

Section Firing.
Context {V : Type} (isP : nat → bool) (pn : petri_net V) (cf : config V).
Hypothesis Hc : compile isP pn = Ok (cf_compiled cf).
Hypothesis Hwf : ∀ tid t, net_transitions pn !! tid = Some t → transition_wf t.
Hypothesis Htargets : placeMatchTargets cf = matchTargets (cf_compiled cf) <$> seq 0 (placeCount (cf_compiled cf)).
Abbreviation c := (cf_compiled cf).
Abbreviation tc := (transitionCount (cf_compiled cf)).
Implicit Types (e : engine V) (m : marking V) (tr : transition V) (P : nat → Prop).

Lemma sublist_elem {A} (l k : list A) x : l `sublist_of` k → x ∈ l → x ∈ k.
Proof. induction 1; rewrite ?elem_of_cons; naive_solver. Qed.

(** ** Dirty marks *)

Lemma markDirty_eq pid e : markDirty cf pid e = set_dirty (foldl setBit (dirtySet e) (affectedTransitions c pid)) e.
Proof.
  unfold markDirty. generalize (affectedTransitions c pid). intros l. revert e.
  induction l as [|x l IH]; intros e; [by destruct e|]. cbn [foldl]. rewrite IH. by destruct e.
Qed.

Lemma affected_lt pid x : x ∈ affectedTransitions c pid → x < tc.
Proof.
  intros (t & p & Ht & _)%(affected_spec isP pn c pid x Hc). unfold transitionCount.
  rewrite (c_transitions_net isP pn cf Hc). by eapply lookup_lt_Some.
Qed.

Lemma marked_bits pid ws : sized (dirty_words c) ws →
  sized (dirty_words c) (foldl setBit ws (affectedTransitions c pid)) ∧
  ∀ x, bit_of (foldl setBit ws (affectedTransitions c pid)) x = true ↔ bit_of ws x = true ∨ x ∈ affectedTransitions c pid.
Proof.
  intros [Hok Hl]. destruct (foldl_setBit ws (affectedTransitions c pid)) as (H1 & H2 & H3); [done| |].
  - apply Forall_forall. intros x Hx. rewrite Hl. apply dirty_words_enough. by eapply affected_lt.
  - split; [split; [done|congruence]|done].
Qed.

Lemma flagIntermediate_eq tid pid e : sized (dirty_words c) (restartPendingWords e) →
  ∃ ws b, flagIntermediateDisablements cf tid pid e = set_restart ws b e ∧ sized (dirty_words c) ws.
Proof.
  intros Hs. unfold flagIntermediateDisablements.
  apply (foldl_inv (λ e', ∃ ws b, e' = set_restart ws b e ∧ sized (dirty_words c) ws)).
  - intros e' x _ (ws & b & -> & Hw). unfold flag_intermediate.
    repeat case_match; eauto; [eexists _, _; split; [|by apply sized_set]; by destruct e|by exists ws, b..].
  - exists (restartPendingWords e), (anyRestartPending e). split; [by destruct e|done].
Qed.

(** The fields the update after a consumption leaves alone. *)
Definition core e :=
  (e_marking e, matchCaches e, enabledAtMs e, inFlightFlags e, enabledFlags e, enabledTransitionCount e, e_log e).

Definition updated (l : list nat) e e' : Prop :=
  core e' = core e ∧
  sized (wordCount c) (markingBitmap e') ∧ sized (dirty_words c) (dirtySet e') ∧ sized (dirty_words c) (restartPendingWords e') ∧
  (∀ k, bit_of (markingBitmap e') k = true ↔
        bit_of (markingBitmap e) k = true ∧ ¬ (k ∈ l ∧ tokens_at cf k (e_marking e) = 0)) ∧
  (∀ x, bit_of (dirtySet e') x = true ↔ bit_of (dirtySet e) x = true ∨ ∃ pid, pid ∈ l ∧ x ∈ affectedTransitions c pid).

Lemma word_count_enough pid : pid < placeCount c → pid / 32 < wordCount c.
Proof.
  destruct (compile_inv _ _ _ Hc) as (rows & _ & _ & _ & _ & -> & _). apply words_enough.
Qed.

Lemma update_consumed_spec tid pid e :
  pid < placeCount c → sized (wordCount c) (markingBitmap e) → sized (dirty_words c) (dirtySet e) →
  sized (dirty_words c) (restartPendingWords e) → updated [pid] e (update_consumed cf tid e pid).
Proof.
  intros Hp Hm Hd Hr. unfold update_consumed. rewrite markDirty_eq.
  set (e1 := if tokens_at cf pid (e_marking e) =? 0 then set_bitmap (clearBit (markingBitmap e) pid) e else e).
  assert (updated [pid] e (set_dirty (foldl setBit (dirtySet e1) (affectedTransitions c pid)) e1)) as H1.
  { destruct (marked_bits pid (dirtySet e1)) as [Hs1 Hs2]; [unfold e1; by case_bool|].
    assert (core e1 = core e ∧ restartPendingWords e1 = restartPendingWords e ∧ dirtySet e1 = dirtySet e) as (E1 & E2 & E3) by (unfold e1; by case_bool).
    assert (sized (wordCount c) (markingBitmap e1)) as Hm1.
    { unfold e1. case_bool; [|done]. by apply sized_clear. }
    split_and!; try done.
    - cbn [set_dirty restartPendingWords]. by rewrite E2.
    - intros k. cbn [set_dirty markingBitmap]. rewrite list_elem_of_singleton. unfold e1. case_bool; b2p.
      + cbn [set_bitmap markingBitmap]. destruct Hm as [Hok Hl]. rewrite clearBit_spec by (try done; rewrite Hl; by apply word_count_enough).
        rewrite andb_true_iff, negb_true_iff, Nat.eqb_neq. naive_solver.
      + naive_solver.
    - intros x. cbn [set_dirty dirtySet]. rewrite Hs2, E3. setoid_rewrite list_elem_of_singleton. naive_solver. }
  case_bool; [|done]. destruct H1 as (U1 & U2 & U3 & U4 & U5 & U6).
  destruct (flagIntermediate_eq tid pid _ U4) as (ws & b & -> & Hw). by split_and!.
Qed.

Lemma update_foldl_spec tid l e :
  (∀ pid, pid ∈ l → pid < placeCount c) → sized (wordCount c) (markingBitmap e) → sized (dirty_words c) (dirtySet e) →
  sized (dirty_words c) (restartPendingWords e) → updated l e (foldl (update_consumed cf tid) e l).
Proof.
  revert e. induction l as [|pid l IH]; intros e Hl Hm Hd Hr; cbn [foldl].
  { split_and!; try done.
    - intros k. split; [|tauto]. intros. split; [done|]. by intros [?%not_elem_of_nil _].
    - intros x. split; [by left|]. intros [?|(? & ?%not_elem_of_nil & _)]; done. }
  destruct (update_consumed_spec tid pid e) as (A1 & A2 & A3 & A4 & A5 & A6); [apply Hl; left|done..|].
  destruct (IH (update_consumed cf tid e pid)) as (B1 & B2 & B3 & B4 & B5 & B6); [intros; apply Hl; by right|done..|].
  assert (e_marking (update_consumed cf tid e pid) = e_marking e) as Em by (unfold core in A1; congruence).
  split_and!; try done.
  - by rewrite B1, A1.
  - intros k. rewrite B5, A5, Em, list_elem_of_singleton, elem_of_cons. naive_solver.
  - intros x. rewrite B6, A6. setoid_rewrite list_elem_of_singleton. setoid_rewrite elem_of_cons. naive_solver.
Qed.

(** ** The places a firing consumes from *)

Definition consumed_names tr (n : jsstr) : Prop :=
  (∃ s, s ∈ inputSpecs tr ∧ place_name (in_place s) = n) ∨ (∃ p, p ∈ resets tr ∧ place_name p = n).

Lemma consumption_spec tid tr pid : c_transition c tid = Some tr →
  pid ∈ consumptionPlaceIds c tid ↔ ∃ p, tryPlaceId c p = Some pid ∧ consumed_names tr (place_name p) ∧ p ∈ touched_places tr.
Proof.
  intros Ht. pose proof Ht as Ht'%(transition_lookup isP pn cf Hc).
  pose proof (compile_inv _ _ _ Hc) as (rows & Hrows & _ & _ & _ & _ & _ & _ & _ & Ecs & _).
  destruct (compiled_row isP pn c tid tr Hc Ht') as (rows' & r & Hrows' & Hr & Hct & Hrange).
  rewrite Hrows in Hrows'. injection Hrows' as <-.
  destruct (compile_transition_spec _ _ _ _ Hct Hrange) as (_ & _ & _ & E & _).
  assert (consumptionPlaceIds c tid = r_consumption r) as -> by (unfold consumptionPlaceIds; by rewrite Ecs, list_lookup_fmap, Hr).
  rewrite E, elem_of_set_union, elem_of_set_of.
  assert (∀ p, p ∈ touched_places tr → pid_of (placeIndex c) p = pid ↔ tryPlaceId c p = Some pid) as Hpid.
  { intros p Hp. by apply (elem_of_pids isP pn c tid tr p (touched_places tr)). }
  unfold consumed_names. split.
  - intros [H|H]; apply list_elem_of_fmap in H as (p & -> & Hp).
    + apply list_elem_of_fmap in Hp as (s & -> & Hs). exists (in_place s).
      assert (in_place s ∈ touched_places tr) by (unfold touched_places; apply elem_of_app; left; by apply list_elem_of_fmap_2).
      split_and!; [by apply Hpid|left; eauto|done].
    + exists p. assert (p ∈ touched_places tr) by (unfold touched_places; rewrite !elem_of_app; tauto).
      split_and!; [by apply Hpid|right; eauto|done].
  - intros (p & E' & Hn & Hp). assert (∀ q, q ∈ touched_places tr → place_name q = place_name p → pid_of (placeIndex c) q = pid) as Hq.
    { intros q Hq En. apply Hpid; [done|]. unfold tryPlaceId in *. by rewrite En. }
    destruct Hn as [(s & Hs & En)|(q & Hqr & En)].
    + left. apply list_elem_of_fmap. exists (in_place s). split; [|by apply list_elem_of_fmap_2].
      symmetry. apply Hq; [|done]. unfold touched_places. apply elem_of_app. left. by apply list_elem_of_fmap_2.
    + right. apply list_elem_of_fmap. exists q. split; [|done]. symmetry. apply Hq; [|done].
      unfold touched_places. rewrite !elem_of_app. tauto.
Qed.

(** A consumed place of the net has an identifier the update visits. *)
Lemma consumed_pid tid tr p pid : c_transition c tid = Some tr → tryPlaceId c p = Some pid →
  consumed_names tr (place_name p) → pid ∈ consumptionPlaceIds c tid.
Proof.
  intros Ht Hp Hn. assert (∃ q, q ∈ touched_places tr ∧ place_name q = place_name p) as (q & Hq & E).
  { destruct Hn as [(s & Hs & E)|(q & Hq & E)]; [exists (in_place s)|exists q]; (split; [|done]);
      unfold touched_places; rewrite !elem_of_app; [left; by apply list_elem_of_fmap_2|tauto]. }
  apply (consumption_spec tid tr pid Ht). exists q. split_and!; [|by rewrite E|done].
  unfold tryPlaceId in *. by rewrite E.
Qed.

(** A transition outside the dirty marks of a consumption touches none of its places. *)
Lemma unaffected_same tid tr x trx m m' : c_transition c tid = Some tr → c_transition c x = Some trx →
  (¬ ∃ pid, pid ∈ consumptionPlaceIds c tid ∧ x ∈ affectedTransitions c pid) →
  (∀ n, ¬ consumed_names tr n → queue m' n = queue m n) →
  ∀ p, p ∈ touched_places trx → queue m (place_name p) = queue m' (place_name p).
Proof.
  intros Ht Hx Hna Hq p Hp. symmetry. apply Hq. intros Hn. apply Hna.
  destruct (touched_pid isP pn cf Hc x trx p Hx Hp) as (pid & E & _). exists pid. split; [by eapply consumed_pid|].
  apply (affected_spec isP pn c pid x Hc). exists trx, p. split_and!; [by apply (transition_lookup isP pn cf Hc)|done|done].
Qed.

(** ** Consumption, bitmap update and dirty marks together *)

Lemma consume_inv P tid tr e e1 :
  c_transition c tid = Some tr → engine_inv cf P e → frame e1 = frame e →
  caches_inv cf (e_marking e1) (matchCaches e1) →
  (∀ n, queue (e_marking e1) n `sublist_of` queue (e_marking e) n) →
  (∀ n, ¬ consumed_names tr n → queue (e_marking e1) n = queue (e_marking e) n) →
  let e2 := updateBitmapAfterConsumption cf tid e1 in
  engine_inv cf (λ x, P x ∨ dirty_of e2 x) e2 ∧ core e2 = core e1 ∧ ∀ x, dirty_of e x → dirty_of e2 x.
Proof.
  intros Ht H Hfr Hcache Hsub Hq. cbn zeta. destruct H as [S1 S2 S3 S4 S5 S6 S7 S8 S9].
  unfold frame in Hfr. injection Hfr as F1 F2 F3 F4 F5 F6 F7 F8. unfold updateBitmapAfterConsumption.
  destruct (update_foldl_spec tid (consumptionPlaceIds c tid) e1) as (U1 & U2 & U3 & U4 & U5 & U6).
  { intros pid (p & Hp & _)%(consumption_spec tid tr pid Ht). by apply (pid_place isP pn cf Hc p pid). }
  1-3: congruence.
  set (e2 := foldl (update_consumed cf tid) e1 (consumptionPlaceIds c tid)) in *.
  pose proof U1 as U1'. unfold core in U1'. injection U1' as C1 C2 C3 C4 C5 C6 C7. split; [|split; [done|]].
  2:{ intros x Hx. unfold dirty_of in *. apply U6. left. by rewrite F2. }
  assert (∀ x trx, c_transition c x = Some trx → ¬ (P x ∨ dirty_of e2 x) →
    ∀ p, p ∈ touched_places trx → queue (e_marking e) (place_name p) = queue (e_marking e1) (place_name p)) as Hun.
  { intros x trx Hx HP. apply (unaffected_same tid tr x trx); [done|done| |done].
    intros Hex. apply HP. right. unfold dirty_of. apply U6. by right. }
  constructor; rewrite ?C1, ?C2, ?C4, ?C5; try done.
  - intros n tok Hin. apply (S1 n tok). by apply (sublist_elem (queue (e_marking e1) n)).
  - intros pid Hp. rewrite U5, F1, (S3 pid Hp).
    destruct (lookup_lt_is_Some_2 (placesById c) pid Hp) as [q Hpl]. change (c_place c pid = Some q) in Hpl.
    pose proof (place_pid isP pn cf Hc pid q Hpl) as Hpid. rewrite !(tokens_at_place isP pn cf Hc q pid _ Hpid).
    pose proof (Hsub (place_name q)) as Hlen%sublist_length.
    destruct (decide (pid ∈ consumptionPlaceIds c tid)) as [Hin|Hout]; [split; [|split]; [|lia|lia]|].
    + intros [? Hn]. destruct (decide (length (queue (e_marking e1) (place_name q)) = 0)); [by destruct Hn|lia].
    + rewrite Hq; [tauto|]. intros Hn. apply Hout. by eapply consumed_pid.
  - destruct S7 as [L Hn Hx Hs]. constructor; unfold stamp_at in *; rewrite ?C3, ?C4, ?C5, ?C6, ?F3, ?F4, ?F5, ?F6; done.
  - intros x trx Hx HP Hen. rewrite F5 in Hen.
    eapply enabled_in_ext; [by eapply transition_wf_of|by apply (Hun x trx Hx HP)|]. apply (S8 x trx Hx); tauto.
  - intros x trx Hx HP Hfl Hr He. rewrite F5. rewrite F4 in Hfl. apply (S9 x trx Hx); [tauto|done|done|].
    eapply enabled_in_ext; [by eapply transition_wf_of| |exact He]. intros p Hp. symmetry. by apply (Hun x trx Hx HP).
Qed.

Lemma remove_matching_sublist g k (q : list (token V)) : remove_matching g k q `sublist_of` q.
Proof.
  revert k. induction q as [|t q IH]; intros [|k]; simpl; try done. case_bool.
  - by apply sublist_cons.
  - by apply sublist_skip.
Qed.

Lemma marking_after_sublist tr chosen m n : marking_after tr chosen m n `sublist_of` queue m n.
Proof.
  unfold marking_after, left_after. case_decide; [apply sublist_nil_l|].
  destruct (js_find _ _) as [s|]; [|done]. apply remove_matching_sublist.
Qed.

Lemma marking_after_other tr chosen m n : ¬ consumed_names tr n → marking_after tr chosen m n = queue m n.
Proof.
  intros Hn. unfold marking_after, left_after. rewrite decide_False.
  - destruct (js_find _ _) as [s|] eqn:E; [|done]. apply js_find_Some in E as [Hs E%bool_decide_eq_true].
    destruct Hn. left. eauto.
  - intros (p & -> & Hp)%list_elem_of_fmap. apply Hn. right. eauto.
Qed.

Lemma chosen_name_binding P tid tr e : c_transition c tid = Some tr → engine_inv cf P e →
  chosen_name tr tid e = findBinding tr (λ p, peekTokens p (e_marking e)).
Proof.
  intros Ht H. unfold chosen_name. destruct (t_matchSpec tr) as [ms|] eqn:Hms.
  - destruct (matchCaches e !! tid) as [[cache|]|] eqn:E; simpl; [|done|done].
    by apply (engine_inv_caches isP pn cf Hc Hwf P e H tid tr cache).
  - unfold findBinding. by rewrite Hms.
Qed.

Variable providerThrows : jsstr → list (token V) → bool.

(** The engine after the consumption of a firing. *)
Lemma fire_consumption P tid tr e :
  c_transition c tid = Some tr → engine_inv cf P e → enabled_in tr (e_marking e) →
  let e1 := f_engine (consume_all tr tid e) in
  let e2 := updateBitmapAfterConsumption cf tid e1 in
  engine_inv cf (λ x, P x ∨ dirty_of e2 x) e2 ∧
  enabledFlags e2 = enabledFlags e ∧ inFlightFlags e2 = inFlightFlags e ∧ e_marking e2 = e_marking e1 ∧
  ∀ x, dirty_of e x → dirty_of e2 x.
Proof.
  intros Ht H (_ & _ & _ & Hj). cbn zeta. destruct (transition_wf_of isP pn cf Hc Hwf tid tr Ht) as [[Hd _] _].
  destruct (consume_all_spec tr tid e Hd) as (F1 & F2 & F3 & _).
  destruct (consume_inv P tid tr e (f_engine (consume_all tr tid e)) Ht H F1) as (I1 & I2 & I3).
  - rewrite F2. apply (caches_consume isP pn cf Hc Hwf); [done| |done|by apply (ei_caches _ _ _ H)].
    intros Hms. rewrite (chosen_name_binding P tid tr e Ht H). by apply Hj.
  - intros n. rewrite F3. apply marking_after_sublist.
  - intros n Hn. rewrite F3. by apply marking_after_other.
  - unfold core in I2. injection I2 as C1 C2 C3 C4 C5 C6 C7. unfold frame in F1.
    injection F1 as G1 G2 G3 G4 G5 G6 G7 G8. split_and!; [done|congruence|congruence|done|done].
Qed.

Lemma fireTransition_inv P tid tr e :
  c_transition c tid = Some tr → engine_inv cf P e → flag (enabledFlags e) tid = true → enabled_in tr (e_marking e) →
  let r := fireTransition cf providerThrows tid tr e in
  engine_inv cf (λ x, P x ∨ dirty_of r.1 x) r.1 ∧ (∀ x, dirty_of e x → dirty_of r.1 x) ∧
  (∀ x, x ≠ tid → flag (enabledFlags r.1) x = flag (enabledFlags e) x) ∧
  match r.2 with
  | Some _ => (∀ x, flag (inFlightFlags r.1) x = true ↔ x = tid ∨ flag (inFlightFlags e) x = true) ∧
              flag (enabledFlags r.1) tid = false
  | None => inFlightFlags r.1 = inFlightFlags e ∧ enabledFlags r.1 = enabledFlags e
  end.
Proof.
  intros Ht H Hen Hin. cbn zeta. unfold fireTransition.
  destruct (fire_consumption P tid tr e Ht H Hin) as (I1 & E1 & E2 & _ & I3).
  set (e2 := updateBitmapAfterConsumption cf tid (f_engine (consume_all tr tid e))) in *.
  pose proof (engine_inv_emit cf _ (EvTransitionStarted (t_name tr) (f_consumed (consume_all tr tid e))) _ I1) as I4.
  set (e3 := emit _ e2) in *.
  assert (enabledFlags e3 = enabledFlags e ∧ inFlightFlags e3 = inFlightFlags e ∧ dirtySet e3 = dirtySet e2) as (D1 & D2 & D3) by done.
  destruct (providerThrows _ _); cbn [fst snd].
  { split_and!; [done|done|intros; by rewrite D1|done|done]. }
  pose proof (ei_flags _ _ _ I4) as Hf. pose proof (fo_len _ _ Hf) as (L1 & L2 & L3).
  assert (tid < tc) as Hlt by (by eapply c_transition_lt).
  destruct I4 as [S1 S2 S3 S4 S5 S6 S7 S8 S9].
  assert (∀ x, flag (enabledFlags (disable tid (set_inFlight tid true e3))) x = if decide (x = tid) then false else flag (enabledFlags e) x) as Hx.
  { intros x. cbn [disable set_enabledAt set_enabled set_inFlight enabledFlags]. rewrite flag_insert, D1, <- D1, L3.
    repeat case_decide; try done; subst; tauto. }
  assert (∀ x, flag (inFlightFlags (disable tid (set_inFlight tid true e3))) x = if decide (x = tid) then true else flag (inFlightFlags e) x) as Hy.
  { intros x. cbn [disable set_enabledAt set_enabled set_inFlight inFlightFlags]. rewrite flag_insert, D2, <- D2, L2.
    repeat case_decide; try done; subst; tauto. }
  split_and!.
  - constructor; try done.
    + apply flags_ok_fly; [by rewrite D1|done].
    + intros x trx Hx' HP. rewrite Hx. case_decide; [done|]. rewrite <- D1. by apply S8.
    + intros x trx Hx' HP. rewrite Hx, Hy. case_decide; [done|]. rewrite <- D1, <- D2. by apply (S9 x trx Hx' HP).
  - done.
  - intros x Hne. rewrite Hx. by rewrite decide_False.
  - intros x. rewrite Hy. case_decide; subst; naive_solver.
  - rewrite Hx. by rewrite decide_True.
Qed.

(** The recovery marks the transition dirty, so nothing need hold of its flag before that. *)
Lemma fire_failed_engine P tid tr e :
  c_transition c tid = Some tr → engine_inv cf P e → flag (inFlightFlags e) tid = false →
  let e0 := if flag (enabledFlags e) tid then disable tid e else e in
  let e' := markTransitionDirty tid (emit (EvTransitionFailed (transition_name cf tid))
              (set_cache tid None (updateBitmapAfterConsumption cf tid e0))) in
  engine_inv cf (λ x, P x ∨ dirty_of e' x) e' ∧ inFlightFlags e' = inFlightFlags e ∧
  (∀ x, x ≠ tid → flag (enabledFlags e') x = flag (enabledFlags e) x) ∧ (∀ x, dirty_of e x → dirty_of e' x) ∧ dirty_of e' tid.
Proof.
  intros Ht H Hfl. cbn zeta. set (e0 := if flag (enabledFlags e) tid then disable tid e else e).
  assert (engine_inv cf (λ x, P x ∨ x = tid) e0) as H0.
  { apply (engine_inv_weaken cf P (λ x, P x ∨ x = tid)) in H; [|tauto]. unfold e0.
    destruct (flag (enabledFlags e) tid) eqn:E; [|done]. apply disable_inv; [done| |done]. intros tr' _ HP. by destruct HP; right. }
  assert (inFlightFlags e0 = inFlightFlags e) as Efl by (unfold e0; by case_bool).
  destruct (consume_inv (λ x, P x ∨ x = tid) tid tr e0 e0 Ht H0) as (I1 & I2 & I3); [done|by apply (ei_caches _ _ _ H0)|done|done|].
  set (e2 := updateBitmapAfterConsumption cf tid e0) in *.
  unfold core in I2. injection I2 as C1 C2 C3 C4 C5 C6 C7.
  destruct I1 as [S1 S2 S3 S4 S5 S6 S7 S8 S9].
  assert (tid / 32 < dirty_words c) as Hw by (by eapply dirty_words_enough, c_transition_lt).
  assert (∀ x, dirty_of (markTransitionDirty tid (emit (EvTransitionFailed (transition_name cf tid)) (set_cache tid None e2))) x ↔
               x = tid ∨ dirty_of e2 x) as Hdirty.
  { intros x. unfold dirty_of. cbn [markTransitionDirty set_dirty emit set_cache dirtySet]. by eapply sized_bit. }
  split_and!.
  - constructor; try done.
    + by apply caches_drop.
    + by apply sized_set.
    + destruct S7 as [L Hn Hx Hs]. by constructor.
    + intros x trx Hx HP. apply (S8 x trx Hx). rewrite Hdirty in HP. tauto.
    + intros x trx Hx HP. apply (S9 x trx Hx). rewrite Hdirty in HP. tauto.
  - cbn [markTransitionDirty set_dirty emit set_cache inFlightFlags]. by rewrite C4, Efl.
  - intros x Hne. cbn [markTransitionDirty set_dirty emit set_cache enabledFlags]. rewrite C5. unfold e0. case_bool; [|done].
    cbn [disable set_enabledAt set_enabled enabledFlags]. rewrite flag_insert, decide_False; [done|]. by intros [? _].
  - intros x Hx. apply Hdirty. right. apply I3. unfold e0. case_bool; exact Hx.
  - apply Hdirty. by left.
Qed.
End Firing.
