(* ===== verification/ExecRun.v ===== *)
(** * A run keeps the invariant

    The invariant of the whole executor and its preservation by construction, the phases of the
    cycle, the wait and the calls of the host. *)
From S2P Require Import Prelude.
From S2P Require Import Net.
From S2P Require Import Out.
From S2P Require Import Transition.
From S2P Require Import Marking.
From S2P Require Import MatchEngine.
From S2P Require Import PetriNet.
From S2P Require Import Bitmap.
From S2P Require Import CompiledNet.
From S2P Require Import OutputCheck.
From S2P Require Import Context.
From S2P Require Import Executor.
From S2P Require Import ExecScan.
From S2P Require Import ExecFire.
From S2P Require Import ExecLoop.
From S2P Require Import ExecInv.
From S2P Require Import ExecCache.
From S2P Require Import ExecCoherent.
From S2P Require Import ExecFiring.

(** ** Association lists *)

Lemma map_set_elem {A B} `{EqDecision A} (k : A) (v : B) l k' v' : (k', v') ∈ map_set k v l → (k' = k ∧ v' = v) ∨ (k', v') ∈ l.
Proof.
  induction l as [|[k1 v1] l IH]; cbn [map_set].
  - intros [= -> ->]%list_elem_of_singleton. by left.
  - case_decide as E; rewrite !elem_of_cons; [|naive_solver]. intros [[= -> ->]|?]; [left; by subst|naive_solver].
Qed.

Lemma NoDup_fst_filter {A B} (Q : A * B → Prop) `{∀ y, Decision (Q y)} (l : list (A * B)) : NoDup l.*1 → NoDup (filter Q l).*1.
Proof.
  induction l as [|y l IH]; intros Hd; [constructor|]. rewrite fmap_cons in Hd. apply NoDup_cons in Hd as [Hn Hd].
  rewrite filter_cons. case_decide; [|auto]. rewrite fmap_cons. constructor; [|auto]. intros Hy. apply Hn.
  apply list_elem_of_fmap in Hy as (z & E & [_ Hz]%list_elem_of_filter). rewrite E. by apply list_elem_of_fmap_2.
Qed.

Lemma map_set_new {A B} `{EqDecision A} (k : A) (v : B) l : k ∉ l.*1 → map_set k v l = l ++ [(k, v)].
Proof.
  induction l as [|[k1 v1] l IH]; [done|]. rewrite fmap_cons. cbn [map_set]. intros Hn.
  rewrite decide_False by set_solver. rewrite IH by set_solver. done.
Qed.

Lemma map_set_keys_in {A B} `{EqDecision A} (k : A) (v : B) l : k ∈ l.*1 → (map_set k v l).*1 = l.*1.
Proof. intros. by rewrite map_set_keys, decide_True. Qed.

(** ** Tokens JavaScript counts exactly *)

Section Safe.
Context {V : Type}.
Implicit Types (e : engine V) (tr : transition V) (m : marking V) (f : firing V).

Definition safe_token (tok : token V) : Prop := (createdAt tok ≤ MAX_SAFE_INTEGER)%Z.
Definition safe_inputs (ti : token_input V) : Prop := ∀ k l tok, (k, l) ∈ ti → tok ∈ l → safe_token tok.
Definition safe_entries (es : list (place * token V)) : Prop := ∀ y, y ∈ es → safe_token y.2.
Definition safe_context (cx : context V) : Prop :=
  (∀ o, o ∈ cx_store V cx → safe_entries (entries V o)) ∧ safe_inputs (cx_input cx).

Lemma safe_ti_add p tok ti : safe_token tok → safe_inputs ti → safe_inputs (ti_add p tok ti).
Proof.
  intros Ht Hi k l tok' Hin Htok. unfold ti_add in Hin. destruct (map_get (place_name p) ti) as [existing|] eqn:E.
  - apply map_set_elem in Hin as [[-> ->]|Hin]; [|by eapply Hi].
    apply elem_of_app in Htok as [Htok|Htok%list_elem_of_singleton]; [|by subst].
    apply (Hi (place_name p) existing); [by apply map_get_elem|done].
  - apply map_set_elem in Hin as [[-> ->]|Hin]; [|by eapply Hi]. by apply list_elem_of_singleton in Htok as ->.
Qed.

Definition safe_firing f : Prop := stamps_safe (e_marking (f_engine f)) ∧ safe_inputs (f_inputs f).

Lemma splice_first_elem g (q : list (token V)) u q' : splice_first g q = Some (u, q') → u ∈ q ∧ ∀ x, x ∈ q' → x ∈ q.
Proof.
  rewrite splice_first_Some. induction 1 as [t q Ht|t q u q' Ht _ [IH1 IH2]].
  - split; [left|by right].
  - split; [by right|]. intros x. rewrite !elem_of_cons. naive_solver.
Qed.

Lemma safe_consume_loop p pred n f : safe_firing f → safe_firing (consume_loop p pred n f).
Proof.
  revert f. induction n as [|n IH]; intros f [Hm Hi]; [done|]. cbn [consume_loop].
  pose proof (remove_one p pred (e_marking (f_engine f))) as Hr.
  destruct (match pred with Some _ => _ | None => _ end) as [[t|] m']; [|done].
  destruct Hr as (q' & Hs & ->). apply splice_first_elem in Hs as [Ht Hq]. apply IH. split.
  - intros k tok Htok. cbn [f_engine emit set_marking e_marking] in Htok. rewrite queue_set in Htok. case_decide; [|by apply (Hm k)].
    subst k. apply (Hm (place_name p)). auto.
  - apply safe_ti_add; [|done]. by apply (Hm (place_name p)).
Qed.

Lemma safe_consume_all tr tid e : stamps_safe (e_marking e) → safe_inputs (f_inputs (consume_all tr tid e)).
Proof.
  intros Hm. unfold consume_all.
  assert (safe_firing (foldl (consume_input_spec tr (chosen_name tr tid e))
            (Firing (mirror_consume tr tid (chosen_name tr tid e) e) [] []) (inputSpecs tr))) as H1.
  { apply foldl_inv; [intros f s _; apply safe_consume_loop|]. split; [|intros k l tok Hin; by apply not_elem_of_nil in Hin].
    cbn [f_engine]. by rewrite (proj2 (mirror_consume_frame tr tid (chosen_name tr tid e) e)). }
  assert (safe_firing (foldl read_arc (foldl (consume_input_spec tr (chosen_name tr tid e))
            (Firing (mirror_consume tr tid (chosen_name tr tid e) e) [] []) (inputSpecs tr)) (reads tr))) as [_ H2].
  { apply foldl_inv; [|done]. intros f p _ [Hf Hi]. unfold read_arc.
    destruct (peekFirst p (e_marking (f_engine f))) as [t|] eqn:E; [|done]. split; [done|]. apply safe_ti_add; [|done].
    apply (Hf (place_name p)). unfold peekFirst in E. unfold queue. destruct (map_get _ _) as [[|? ?]|]; simplify_eq. left. }
  destruct (resets_spec (resets tr) (foldl read_arc (foldl (consume_input_spec tr (chosen_name tr tid e))
            (Firing (mirror_consume tr tid (chosen_name tr tid e) e) [] []) (inputSpecs tr)) (reads tr))) as (_ & _ & -> & _).
  done.
Qed.

Lemma safe_context_new tr ti : safe_inputs ti → safe_context (context_new tr ti).
Proof.
  intros H. split; [|done]. intros o Ho. cbn in Ho. apply list_elem_of_singleton in Ho as ->. intros y Hy.
  by apply not_elem_of_nil in Hy.
Qed.

Lemma safe_harvest cx : safe_context cx → safe_entries (cx_harvest cx).
Proof.
  intros [H _]. unfold cx_harvest. destruct (cx_store V cx !! cx_rawOutput V cx) as [o|] eqn:E; simpl.
  - apply H. by eapply list_elem_of_lookup_2.
  - intros y Hy. by apply not_elem_of_nil in Hy.
Qed.
End Safe.

Section Run.
Context {V : Type} (isP : nat → bool) (pn : petri_net V) (cf : config V).
Hypothesis Hc : compile isP pn = Ok (cf_compiled cf).
Hypothesis Hwf : ∀ tid t, net_transitions pn !! tid = Some t → transition_wf t.
Hypothesis Htargets : placeMatchTargets cf = matchTargets (cf_compiled cf) <$> seq 0 (placeCount (cf_compiled cf)).
Variable providerThrows : jsstr → list (token V) → bool.
Abbreviation c := (cf_compiled cf).
Abbreviation tc := (transitionCount (cf_compiled cf)).
Implicit Types (x : exec V) (e : engine V) (m : marking V) (tr : transition V) (P : nat → Prop).

(** The invariant of the executor, the transitions [P] pending. *)
Record exec_upto P x : Prop := {
  xi_upto : engine_inv cf (λ y, P y ∨ dirty_of (x_engine x) y) (x_engine x);
  xi_keys : NoDup (inFlight x).*1;
  xi_flight : ∀ tid, tid ∈ (inFlight x).*1 ↔ flag (inFlightFlags (x_engine x)) tid = true;
  xi_safe : ∀ y, y ∈ inFlight x → safe_context (fl_context y.2);
  xi_queue : ∀ ev, ev ∈ externalQueue x → safe_token (ev_token ev)
}.

Definition exec_inv : exec V → Prop := exec_upto (λ _, False).

Lemma xi_engine x : exec_inv x → engine_inv cf (dirty_of (x_engine x)) (x_engine x).
Proof. intros H. eapply engine_inv_weaken; [|exact (xi_upto _ _ H)]. naive_solver. Qed.

Lemma flight_lt x tid : exec_inv x → tid ∈ (inFlight x).*1 → tid < tc.
Proof.
  intros H Hin. apply (xi_flight _ _ H) in Hin. apply flag_lt in Hin.
  by rewrite <- (proj1 (proj2 (fo_len _ _ (ei_flags _ _ _ (xi_engine x H))))).
Qed.

(** ** Firing *)

Lemma fireContained_inv x tid tr :
  exec_inv x → c_transition c tid = Some tr → flag (enabledFlags (x_engine x)) tid = true → enabled_in tr (e_marking (x_engine x)) →
  let x' := fireTransitionContained cf providerThrows tid x in
  exec_inv x' ∧ (∀ y, y ≠ tid → flag (enabledFlags (x_engine x')) y = flag (enabledFlags (x_engine x)) y).
Proof.
  intros H Ht Hen Hin. cbn zeta. unfold fireTransitionContained. rewrite Ht.
  pose proof (xi_engine _ H) as He. pose proof (ei_flags _ _ _ He) as Hf.
  destruct (fireTransition_inv isP pn cf Hc Hwf providerThrows _ tid tr (x_engine x) Ht He Hen Hin) as (I1 & I2 & I3 & I4).
  assert (tid ∉ (inFlight x).*1) as Hfresh.
  { intros Hk%(xi_flight _ _ H). by rewrite (fo_excl _ _ Hf tid Hen) in Hk. }
  destruct (fireTransition cf providerThrows tid tr (x_engine x)) as [e' [fl|]] eqn:Efire; cbn [fst snd] in *.
  - destruct I4 as [I4 I5]. split.
    + constructor; cbn [set_unsettled set_flights set_engine x_engine inFlight externalQueue].
      * eapply engine_inv_weaken; [|exact I1]. intros y [?|?]; right; auto.
      * rewrite map_set_new, fmap_app by done. apply NoDup_app. split_and!; [apply (xi_keys _ _ H)| |apply NoDup_singleton].
        intros y Hy Hy'. apply list_elem_of_singleton in Hy'. subst. done.
      * intros y. rewrite map_set_new, fmap_app, elem_of_app by done. cbn. rewrite list_elem_of_singleton, I4, (xi_flight _ _ H). tauto.
      * intros y Hy. rewrite map_set_new in Hy by done. apply elem_of_app in Hy as [Hy|Hy%list_elem_of_singleton]; [by apply (xi_safe _ _ H)|].
        subst y. unfold fireTransition in Efire. destruct (providerThrows _ _); [done|]. injection Efire as _ <-. cbn [fl_context snd].
        apply safe_context_new, safe_consume_all. apply (ei_safe _ _ _ He).
      * apply (xi_queue _ _ H).
    + intros y Hy. by apply I3.
  - destruct I4 as [I4 I5]. unfold fire_failed. cbn [set_unsettled set_engine x_engine inFlight].
    rewrite (decide_False (P := tid ∈ (inFlight x).*1)) by done.
    assert (engine_inv cf (dirty_of e') e') as I1' by (eapply engine_inv_weaken; [|exact I1]; intros y [?|?]; auto).
    destruct (fire_failed_engine isP pn cf Hc Hwf _ tid tr e' Ht I1') as (J1 & J2 & J3 & J4 & _).
    { rewrite I4. by apply (fo_excl _ _ Hf). }
    split.
    + constructor; cbn [set_unsettled set_flights set_engine x_engine inFlight externalQueue].
      * eapply engine_inv_weaken; [|exact J1]. intros y [?|?]; right; auto.
      * unfold flights_delete. by apply NoDup_fst_filter, (xi_keys _ _ H).
      * intros y. rewrite J2, I4, <- (xi_flight _ _ H). unfold flights_delete. rewrite !list_elem_of_fmap.
        setoid_rewrite list_elem_of_filter. split; [naive_solver|]. intros (z & -> & Hz). exists z. split_and!; [done| |done].
        intros E. apply Hfresh. rewrite <- E. by apply list_elem_of_fmap_2.
      * intros y [_ Hy]%list_elem_of_filter. by apply (xi_safe _ _ H).
      * apply (xi_queue _ _ H).
    + intros y Hy. cbn [set_flights set_engine x_engine]. rewrite J3 by done. by apply I3.
Qed.

Lemma exec_upto_engine P x e :
  inFlightFlags e = inFlightFlags (x_engine x) → engine_inv cf (λ y, P y ∨ dirty_of e y) e →
  exec_upto P x → exec_upto P (set_engine e x).
Proof. intros Hf He [H1 H2 H3 H4 H5]. constructor; try done. intros tid. cbn [set_engine inFlight x_engine]. by rewrite Hf. Qed.

Lemma disable_exec x tid tr :
  exec_inv x → c_transition c tid = Some tr → flag (enabledFlags (x_engine x)) tid = true → ¬ enabled_in tr (e_marking (x_engine x)) →
  exec_inv (on_engine (disable tid) x).
Proof.
  intros H Ht Hen Hn. apply exec_upto_engine; [done| |done].
  apply (disable_inv cf (λ y, False ∨ dirty_of (disable tid (x_engine x)) y)); [done| |exact (xi_upto _ _ H)].
  intros tr' Ht' _ _. right. by simplify_eq.
Qed.

(** What the loops over the ready transitions do, one transition at a time: fire one the marking
    enables, or drop one it no longer enables. *)
Inductive fire_step x : exec V → Prop :=
| fs_fire tid tr : c_transition c tid = Some tr → flag (enabledFlags (x_engine x)) tid = true →
    enabled_in tr (e_marking (x_engine x)) → fire_step x (fireTransitionContained cf providerThrows tid x)
| fs_disable tid tr : c_transition c tid = Some tr → flag (enabledFlags (x_engine x)) tid = true →
    ¬ enabled_in tr (e_marking (x_engine x)) → fire_step x (on_engine (disable tid) x).

Lemma fire_step_inv x x' : fire_step x x' → exec_inv x → exec_inv x'.
Proof. destruct 1; intros Hx; [by eapply fireContained_inv|by eapply disable_exec]. Qed.

Lemma fire_steps_inv x x' : rtc fire_step x x' → exec_inv x → exec_inv x'.
Proof. induction 1; intros ?; [done|]. eauto using fire_step_inv. Qed.

Lemma fire_immediate_steps x tid : tid < tc → exec_inv x → rtc fire_step x (fire_immediate cf providerThrows x tid).
Proof.
  intros Hlt H. destruct (lt_c_transition cf tid Hlt) as [tr Ht]. unfold fire_immediate.
  destruct (flag (enabledFlags (x_engine x)) tid) eqn:E1; [|done]. destruct (flag (inFlightFlags (x_engine x)) tid) eqn:E2; [done|]. cbn [negb orb].
  pose proof (canEnable_inv isP pn cf Hc Hwf _ tid tr _ Ht (xi_engine x H)) as Hcan.
  destruct (canEnable cf tid (markingBitmap (x_engine x)) (x_engine x)); apply rtc_once.
  - apply (fs_fire x tid tr); [done|done|by apply Hcan].
  - apply (fs_disable x tid tr); [done|done|]. intros Hi%Hcan. done.
Qed.

Lemma slots_steps l x :
  NoDup (rs_tid <$> l) → (∀ s, s ∈ l → flag (enabledFlags (x_engine x)) (rs_tid s) = true ∧ rs_tid s < tc) →
  exec_inv x → rtc fire_step x (foldl (fire_slot cf providerThrows) (x, markingBitmap (x_engine x)) l).1.
Proof.
  revert x. induction l as [|s l IH]; intros x Hd Hl H; [done|]. rewrite fmap_cons in Hd. apply NoDup_cons in Hd as [Hn Hd].
  destruct (Hl s) as [Hen Hlt]; [left|]. destruct (lt_c_transition cf _ Hlt) as [tr Ht]. cbn [foldl fire_slot].
  pose proof (canEnable_inv isP pn cf Hc Hwf _ _ tr _ Ht (xi_engine x H)) as Hcan. rewrite Hen. cbn [andb].
  assert (∀ s', s' ∈ l → rs_tid s' ≠ rs_tid s) as Hne by (intros s' Hs' E; apply Hn; rewrite <- E; by apply list_elem_of_fmap_2).
  destruct (canEnable cf (rs_tid s) (markingBitmap (x_engine x)) (x_engine x)).
  - destruct (fireContained_inv x (rs_tid s) tr H Ht Hen) as [H1 H2]; [by apply Hcan|].
    eapply rtc_l; [apply (fs_fire x (rs_tid s) tr); [done|done|by apply Hcan]|].
    apply IH; [done| |done]. intros s' Hs'. rewrite H2 by auto. apply Hl. by right.
  - assert (¬ enabled_in tr (e_marking (x_engine x))) as Hnot by (intros Hi%Hcan; done).
    eapply rtc_l; [by apply (fs_disable x (rs_tid s) tr)|].
    change (markingBitmap (x_engine x)) with (markingBitmap (x_engine (on_engine (disable (rs_tid s)) x))).
    apply IH; [done| |by apply (disable_exec x (rs_tid s) tr)].
    intros s' Hs'. cbn [on_engine set_engine x_engine disable set_enabledAt set_enabled enabledFlags].
    rewrite flag_insert, decide_False; [apply Hl; by right|]. intros [E _]. by apply (Hne s').
Qed.

Lemma is_ready_Some now e tid s : is_ready cf now e tid = Some s →
  rs_tid s = tid ∧ flag (enabledFlags e) tid = true ∧ flag (inFlightFlags e) tid = false.
Proof.
  unfold is_ready. destruct (flag (enabledFlags e) tid) eqn:E1; [|done]. destruct (flag (inFlightFlags e) tid) eqn:E2; [done|]. cbn [negb orb].
  destruct (c_transition c tid); [|done]. case_bool; [done|]. intros [= <-]. done.
Qed.

Lemma ready_tids now e n o : rs_tid <$> omap (is_ready cf now e) (seq o n) `sublist_of` seq o n.
Proof.
  revert o. induction n as [|n IH]; intros o; [done|]. cbn [seq omap list_omap].
  destruct (is_ready cf now e o) as [s|] eqn:E.
  - apply is_ready_Some in E as [<- _]. rewrite fmap_cons. apply sublist_skip, IH.
  - apply sublist_cons, IH.
Qed.

(** The slots of a scan of the ready transitions. *)
Lemma ready_slots now x :
  let ready := omap (is_ready cf now (x_engine x)) (seq 0 tc) in
  NoDup (rs_tid <$> stable_sort slot_le ready) ∧
  ∀ s, s ∈ stable_sort slot_le ready → flag (enabledFlags (x_engine x)) (rs_tid s) = true ∧ rs_tid s < tc.
Proof.
  cbn zeta. split.
  - rewrite stable_sort_Permutation. eapply sublist_NoDup; [|apply ready_tids]. apply NoDup_seq.
  - intros s Hs. rewrite stable_sort_Permutation in Hs. apply list_elem_of_omap in Hs as (tid & Ht & E).
    apply is_ready_Some in E as (-> & ? & ?). apply elem_of_seq in Ht. split; [done|lia].
Qed.

Lemma fireReady_steps now x : exec_inv x → rtc fire_step x (fireReadyTransitions cf providerThrows now x).
Proof.
  intros H. unfold fireReadyTransitions. case_bool.
  - unfold fireReadyImmediate. apply foldl_inv; [|done]. intros x' tid Ht%elem_of_seq Hx. etrans; [exact Hx|].
    apply fire_immediate_steps; [lia|by eapply fire_steps_inv].
  - unfold fireReadyGeneral. case_bool_decide; [done|]. destruct (ready_slots now x). by apply slots_steps.
Qed.

Lemma fireReady_inv now x : exec_inv x → exec_inv (fireReadyTransitions cf providerThrows now x).
Proof. intros H. eapply fire_steps_inv; [by apply fireReady_steps|done]. Qed.

(** ** Deposits *)

Section Deposit.
Variables (P : nat → Prop) (p : place) (tok : token V) (e : engine V).
Hypotheses (H : engine_inv cf P e) (Hs : safe_token tok).
Abbreviation m' := (addToken p tok (e_marking e)).

Lemma deposit_queue n : queue m' n = if decide (n = place_name p) then queue (e_marking e) n ++ [tok] else queue (e_marking e) n.
Proof. apply queue_addToken. Qed.

Lemma deposit_safe : stamps_safe m'.
Proof.
  intros n tok' Hin. rewrite deposit_queue in Hin. pose proof (ei_safe _ _ _ H) as Hm. case_decide; [|by apply (Hm n)].
  apply elem_of_app in Hin as [Hin|Hin%list_elem_of_singleton]; [by apply (Hm n)|by subst].
Qed.

(** A transition the deposit does not mark touches only unchanged places. *)
Lemma deposit_unaffected y try : c_transition c y = Some try →
  (∀ pid, tryPlaceId c p = Some pid → y ∉ affectedTransitions c pid) →
  ∀ r, r ∈ touched_places try → queue (e_marking e) (place_name r) = queue m' (place_name r).
Proof.
  intros Hy Hna r Hr. rewrite deposit_queue, decide_False; [done|]. intros E.
  destruct (touched_pid isP pn cf Hc y try r Hy Hr) as (pid & Hpid & _).
  assert (tryPlaceId c p = Some pid) as Hp by (unfold tryPlaceId in *; by rewrite <- E).
  apply (Hna pid Hp), (affected_spec isP pn c pid y Hc). exists try, r.
  split_and!; [by apply (transition_lookup isP pn cf Hc)|done|done].
Qed.

Lemma deposit_bitmap bits pid : tryPlaceId c p = Some pid → sized (wordCount c) bits →
  bitmap_ok cf (e_marking e) bits → bitmap_ok cf m' (setBit bits pid).
Proof.
  intros Ep Hsz Hb pid' Hlt'. destruct (pid_place isP pn cf Hc p pid Ep) as (Hlt & q & Hcq & Eq).
  rewrite (sized_bit (wordCount c)); [|done|by apply (word_count_enough isP pn cf Hc)].
  destruct (lookup_lt_is_Some_2 (placesById c) pid' Hlt') as [q' Hpl]. change (c_place c pid' = Some q') in Hpl.
  pose proof (place_pid isP pn cf Hc pid' q' Hpl) as Hpid. rewrite (Hb pid' Hlt').
  rewrite !(tokens_at_place isP pn cf Hc q' pid' _ Hpid), deposit_queue. case_decide as E.
  - rewrite length_app. simpl. assert (pid' = pid); [|naive_solver lia].
    unfold tryPlaceId in *. rewrite E, Ep in Hpid. by injection Hpid.
  - split; [|tauto]. intros [->|?]; [|done]. destruct E. rewrite Hcq in Hpl. by injection Hpl as <-.
Qed.

Lemma cacheAddToken_cong pid ea eb : matchCaches ea = matchCaches eb →
  matchCaches (cacheAddToken cf pid tok ea) = matchCaches (cacheAddToken cf pid tok eb).
Proof.
  unfold cacheAddToken. generalize (default [] (placeMatchTargets cf !! pid)). intros l. revert ea eb.
  induction l as [|y l IH]; intros ea eb E; [done|]. cbn [foldl]. apply IH. unfold cache_target. rewrite E.
  destruct (default None (matchCaches eb !! y.1)); [|done]. destruct (c_transition _ _ ≫= t_matchSpec) as [ms|]; [|done].
  destruct (ms_keys ms !! y.2); [|done]. unfold set_cache. cbn [matchCaches]. by rewrite E.
Qed.

(** The engine part of a deposit. *)
Definition deposit_effect : engine V :=
  match tryPlaceId c p with
  | Some pid => markDirty cf pid (let e1 := cacheAddToken cf pid tok (set_marking m' e) in
                                  set_bitmap (setBit (markingBitmap e1) pid) e1)
  | None => set_marking m' e
  end.

Lemma deposit_known pid : tryPlaceId c p = Some pid →
  engine_inv cf (λ y, P y ∨ dirty_of deposit_effect y) deposit_effect ∧ inFlightFlags deposit_effect = inFlightFlags e ∧
  ∀ y, dirty_of e y → dirty_of deposit_effect y.
Proof.
  intros Ep. unfold deposit_effect. rewrite Ep. destruct H as [S1 S2 S3 S4 S5 S6 S7 S8 S9].
  pose proof (caches_deposit isP pn cf Hc Hwf Htargets p pid tok e m' Ep deposit_queue S2) as Hcd.
  rewrite <- (cacheAddToken_cong pid (set_marking m' e)) in Hcd by done.
  pose proof (cacheAddToken_frame cf pid tok (set_marking m' e)) as [F1 F2]. cbn zeta. rewrite markDirty_eq.
  set (e1 := cacheAddToken cf pid tok (set_marking m' e)) in *. unfold frame in F1. injection F1 as G1 G2 G3 G4 G5 G6 G7 G8.
  cbn [set_marking e_marking markingBitmap dirtySet enabledAtMs inFlightFlags enabledFlags enabledTransitionCount restartPendingWords] in *.
  destruct (marked_bits isP pn cf Hc pid (dirtySet e) S5) as [D1 D2].
  assert (∀ y, ¬ (P y ∨ bit_of (foldl setBit (dirtySet e1) (affectedTransitions c pid)) y = true) →
    ¬ P y ∧ ∀ pid', tryPlaceId c p = Some pid' → y ∉ affectedTransitions c pid') as Hpend.
  { intros y HP. rewrite G2, D2 in HP. split; [tauto|]. intros pid' E'. rewrite Ep in E'. injection E' as <-. tauto. }
  split_and!; [|done|].
  - constructor; unfold dirty_of; cbn [set_dirty set_bitmap e_marking matchCaches markingBitmap dirtySet restartPendingWords enabledFlags inFlightFlags];
      rewrite ?F2, ?G1, ?G2, ?G4, ?G5, ?G7; try done.
    + apply deposit_safe.
    + by apply deposit_bitmap.
    + by apply sized_set.
    + destruct S7 as [L Hn Hx Hst]. constructor; unfold stamp_at in *;
        cbn [set_dirty set_bitmap enabledAtMs inFlightFlags enabledFlags enabledTransitionCount]; rewrite ?G3, ?G4, ?G5, ?G6; done.
    + rewrite <- G2. intros y try Hy [HP Ha]%Hpend Hen.
      eapply enabled_in_ext; [by eapply transition_wf_of|by apply (deposit_unaffected y try Hy)|by apply (S8 y try Hy)].
    + rewrite <- G2. intros y try Hy [HP Ha]%Hpend Hfl Hr He. apply (S9 y try Hy); [done..|].
      eapply enabled_in_ext; [by eapply transition_wf_of| |exact He]. intros r Hr'. symmetry. by apply (deposit_unaffected y try Hy).
  - intros y Hy. unfold dirty_of in *. cbn [set_dirty set_bitmap dirtySet]. rewrite G2. apply D2. by left.
Qed.

Lemma deposit_unknown : tryPlaceId c p = None →
  engine_inv cf (λ y, P y ∨ dirty_of deposit_effect y) deposit_effect ∧ inFlightFlags deposit_effect = inFlightFlags e ∧
  ∀ y, dirty_of e y → dirty_of deposit_effect y.
Proof.
  intros Ep. unfold deposit_effect. rewrite Ep. destruct H as [S1 S2 S3 S4 S5 S6 S7 S8 S9].
  assert (∀ y try, c_transition c y = Some try → ∀ r, r ∈ touched_places try → queue (e_marking e) (place_name r) = queue m' (place_name r)) as Hun.
  { intros y try Hy. apply (deposit_unaffected y try Hy). intros pid E. congruence. }
  split_and!; [|done|done]. constructor; cbn [set_marking e_marking matchCaches markingBitmap enabledFlags inFlightFlags]; try done.
  - apply deposit_safe.
  - eapply caches_unknown; [done|done|done|exact deposit_queue|exact S2].
  - intros pid' Hlt'. rewrite (S3 pid' Hlt').
    destruct (lookup_lt_is_Some_2 (placesById c) pid' Hlt') as [q' Hpl]. change (c_place c pid' = Some q') in Hpl.
    pose proof (place_pid isP pn cf Hc pid' q' Hpl) as Hpid. rewrite !(tokens_at_place isP pn cf Hc q' pid' _ Hpid), deposit_queue, decide_False; [done|].
    intros E. unfold tryPlaceId in *. by rewrite E, Ep in Hpid.
  - destruct S7. by constructor.
  - intros y try Hy HP Hen. eapply enabled_in_ext; [by eapply transition_wf_of|by apply (Hun y try Hy)|apply (S8 y try Hy); [tauto|done]].
  - intros y try Hy HP Hfl Hr He. apply (S9 y try Hy); [tauto|done|done|].
    eapply enabled_in_ext; [by eapply transition_wf_of| |exact He]. intros r Hr'. symmetry. by apply (Hun y try Hy).
Qed.

Lemma deposit_engine :
  engine_inv cf (λ y, P y ∨ dirty_of deposit_effect y) deposit_effect ∧ inFlightFlags deposit_effect = inFlightFlags e ∧
  ∀ y, dirty_of e y → dirty_of deposit_effect y.
Proof. destruct (tryPlaceId c p) as [pid|] eqn:E; [by eapply deposit_known|by apply deposit_unknown]. Qed.
End Deposit.

(** Two executors with the same engine, flights and queued events. *)
Definition same_work x x' : Prop :=
  x_engine x' = x_engine x ∧ inFlight x' = inFlight x ∧ externalQueue x' = externalQueue x.

Lemma exec_upto_work P x x' : same_work x x' → exec_upto P x → exec_upto P x'.
Proof. intros (E1 & E2 & E3) [H1 H2 H3 H4 H5]. constructor; rewrite ?E1, ?E2, ?E3; done. Qed.

Lemma exec_upto_emit P ev x : exec_upto P x → exec_upto P (on_engine (emit ev) x).
Proof. intros H. apply exec_upto_engine; [done| |done]. apply engine_inv_emit. apply (xi_upto _ _ H). Qed.

Lemma warn_unknown_upto P p tname x : exec_upto P x → exec_upto P (warnUnknownPlace p tname x).
Proof.
  intros H. unfold warnUnknownPlace. case_decide; [done|]. apply exec_upto_emit. by apply (exec_upto_work P x).
Qed.

Lemma deposit_upto P tname p tok x : exec_upto P x → safe_token tok → exec_upto P (deposit cf tname p tok x).
Proof.
  intros H Hs. pose proof (deposit_engine _ p tok (x_engine x) (xi_upto _ _ H) Hs) as (I1 & I2 & I3).
  unfold deposit. apply exec_upto_emit. unfold deposit_effect in *.
  assert (∀ e2, inFlightFlags e2 = inFlightFlags (x_engine x) → (∀ y, dirty_of (x_engine x) y → dirty_of e2 y) →
    engine_inv cf (λ y, (P y ∨ dirty_of (x_engine x) y) ∨ dirty_of e2 y) e2 → exec_upto P (set_engine e2 x)) as Hset.
  { intros e2 Hf Hd He. apply exec_upto_engine; [done| |done]. eapply engine_inv_weaken; [|exact He]. intros y [[?|?]|?]; auto. }
  destruct (tryPlaceId c p) as [pid|].
  - specialize (Hset _ I2 I3 I1). case_bool; [|exact Hset]. eapply exec_upto_work; [|exact Hset]. done.
  - apply warn_unknown_upto. by apply Hset.
Qed.

(** ** Completions and external events *)

Lemma warn_multiplicity_upto P tname es claim x : exec_upto P x → exec_upto P (warnMultiplicity tname es claim x).
Proof.
  intros H. unfold warnMultiplicity. case_decide; [done|]. cbn zeta. case_bool_decide; [done|].
  apply exec_upto_emit. by apply (exec_upto_work P x).
Qed.

Lemma deposit_outputs_upto P t fl claim x :
  exec_upto P x → safe_context (fl_context fl) → exec_upto P (deposit_outputs cf t fl claim x).
Proof.
  intros H Hs. unfold deposit_outputs. cbn zeta. apply foldl_inv.
  - intros x' y Hy Hx'. apply deposit_upto; [done|]. by apply (safe_harvest _ Hs).
  - destruct claim; [|done]. case_bool_decide; [|done]. by apply warn_multiplicity_upto.
Qed.

Lemma mark_dirty_upto tid x : tid < tc → exec_upto (λ y, y = tid) x → exec_inv (on_engine (markTransitionDirty tid) x).
Proof.
  intros Hlt H. destruct H as [H1 H2 H3 H4 H5]. constructor; try done.
  assert (∀ y, dirty_of (markTransitionDirty tid (x_engine x)) y ↔ y = tid ∨ dirty_of (x_engine x) y) as Hd.
  { intros y. eapply sized_bit; [by apply (ei_dirty _ _ _ H1)|]. by apply dirty_words_enough. }
  cbn [on_engine set_engine x_engine]. apply engine_inv_set_dirty; [apply sized_set, (ei_dirty _ _ _ H1)|].
  eapply engine_inv_weaken; [|exact H1]. intros y Hy. right. apply Hd. tauto.
Qed.

Lemma land_upto tid fl x :
  exec_inv x → map_get tid (inFlight x) = Some fl →
  exec_upto (λ y, y = tid) (on_engine (set_inFlight tid false) (set_flights (flights_delete tid (inFlight x)) x)) ∧
  safe_context (fl_context fl) ∧ tid < tc.
Proof.
  intros H Hg. apply map_get_elem in Hg. assert (tid ∈ (inFlight x).*1) as Hin by (apply list_elem_of_fmap; by exists (tid, fl)).
  pose proof (flight_lt x tid H Hin) as Hlt. split_and!; [|by apply (xi_safe _ _ H (tid, fl))|done].
  pose proof (xi_engine x H) as [S1 S2 S3 S4 S5 S6 S7 S8 S9].
  assert (∀ y, flag (inFlightFlags (set_inFlight tid false (x_engine x))) y =
    if decide (y = tid) then false else flag (inFlightFlags (x_engine x)) y) as Hfl.
  { intros y. cbn [set_inFlight inFlightFlags]. rewrite flag_insert. destruct (fo_len _ _ S7) as (_ & -> & _).
    repeat case_decide; try done; subst; tauto. }
  constructor; cbn [on_engine set_engine set_flights x_engine inFlight externalQueue].
  - constructor; try done; [by apply flags_ok_land| |].
    + intros y try Hy HP. apply (S8 y try Hy). intros Hd. apply HP. by right.
    + intros y try Hy HP. rewrite Hfl. destruct (decide (y = tid)) as [->|]; [by destruct HP; left|].
      apply (S9 y try Hy). intros Hd. apply HP. by right.
  - by apply NoDup_fst_filter, (xi_keys _ _ H).
  - intros y. rewrite Hfl. unfold flights_delete. destruct (decide (y = tid)) as [->|Hne].
    + split; [|done]. intros (z & -> & [Hz _]%list_elem_of_filter)%list_elem_of_fmap. done.
    + rewrite <- (xi_flight _ _ H). rewrite !list_elem_of_fmap. setoid_rewrite list_elem_of_filter. naive_solver.
  - intros y [_ Hy]%list_elem_of_filter. by apply (xi_safe _ _ H).
  - apply (xi_queue _ _ H).
Qed.

Lemma fail_completion_inv t tid x : tid < tc → exec_upto (λ y, y = tid) x → exec_inv (fail_completion t tid x).
Proof.
  intros Hlt H. apply (exec_upto_emit _ (EvTransitionFailed (t_name t))) in H. by apply (mark_dirty_upto tid) in H.
Qed.

Lemma complete_flight_inv t tid fl x :
  exec_inv x → map_get tid (inFlight x) = Some fl → exec_inv (complete_flight cf t tid fl x).
Proof.
  intros H Hg. destruct (land_upto tid fl x H Hg) as (H1 & Hs & Hlt). unfold complete_flight.
  case_bool; [by apply fail_completion_inv|]. destruct (validate t fl) as [claim|err].
  - apply exec_upto_emit. eapply exec_upto_work; [|apply (mark_dirty_upto tid); [done|]]; [done|].
    apply deposit_outputs_upto; [|done]. by eapply exec_upto_work; [|exact H1].
  - apply fail_completion_inv; [done|]. by eapply exec_upto_work; [|exact H1].
Qed.

Lemma process_completions_inv q x : exec_inv x → exec_inv (process_completions cf q x).
Proof.
  revert x. induction q as [|tid q IH]; intros x H; [done|]. cbn [process_completions].
  destruct (map_get tid (inFlight x)) as [fl|] eqn:E; [|by apply IH]. destruct (c_transition c tid) as [t|]; [|by apply IH].
  pose proof (complete_flight_inv t tid fl x H E). cbn zeta. case_bool; auto.
Qed.

Lemma processCompleted_inv x : exec_inv x → exec_inv (processCompletedTransitions cf x).
Proof.
  intros H. unfold processCompletedTransitions. case_bool_decide; [done|].
  eapply exec_upto_work; [|by apply process_completions_inv]. done.
Qed.

Lemma process_external_inv q x : (∀ ev, ev ∈ q → safe_token (ev_token ev)) → exec_inv x → exec_inv (process_external cf q x).
Proof.
  revert x. induction q as [|ev q IH]; intros x Hq H; [done|]. cbn [process_external]. cbn zeta.
  assert (exec_inv (set_external (tail (externalQueue (deposit cf [] (ev_place ev) (ev_token ev) x)))
            (admissions (deposit cf [] (ev_place ev) (ev_token ev) x) ++ [(ev_id ev, true)])
            (deposit cf [] (ev_place ev) (ev_token ev) x))) as H'.
  { pose proof (deposit_upto _ [] (ev_place ev) (ev_token ev) x H ltac:(apply Hq; left)) as [D1 D2 D3 D4 D5].
    constructor; try done. intros ev' Hin. apply D5. cbn [set_external externalQueue] in Hin.
    destruct (externalQueue (deposit cf [] (ev_place ev) (ev_token ev) x)); [done|by right]. }
  case_bool; [done|]. apply IH; [intros; apply Hq; by right|done].
Qed.

Lemma processExternal_inv x : exec_inv x → exec_inv (processExternalEvents cf x).
Proof.
  intros H. unfold processExternalEvents. case_bool_decide; [done|]. case_bool; [done|].
  apply process_external_inv; [apply (xi_queue _ _ H)|done].
Qed.

(** ** The cycle *)

Lemma settled_upto x e : inFlightFlags e = inFlightFlags (x_engine x) → engine_inv cf (dirty_of e) e → exec_inv x → exec_inv (set_engine e x).
Proof.
  intros Hf He H. apply exec_upto_engine; [done| |done]. eapply engine_inv_weaken; [|exact He]. auto.
Qed.

Lemma updateDirty_flight now e : inFlightFlags (updateDirtyTransitions cf now e) = inFlightFlags e.
Proof.
  unfold updateDirtyTransitions.
  assert (∀ bits w words e, inFlightFlags (scan_words (rescan cf now bits) tc w words e) = inFlightFlags e) as H.
  { intros bits w words. revert w. induction words as [|word words IH]; intros w e0; [done|]. cbn [scan_words]. rewrite IH.
    generalize 32 as fuel. intros fuel. revert word e0. induction fuel as [|fuel IHf]; intros word e0; [done|]. cbn [scan_word].
    case_bool; [done|]. case_bool; [done|]. rewrite IHf. unfold rescan. by repeat case_bool. }
  case_bool; cbn [set_restart inFlightFlags]; by rewrite H.
Qed.

Lemma enforceDeadlines_flight now e : inFlightFlags (enforceDeadlines cf now e) = inFlightFlags e.
Proof.
  unfold enforceDeadlines. apply (foldl_inv (λ e', inFlightFlags e' = inFlightFlags e)); [|done].
  intros e' tid _ <-. unfold enforce_deadline. repeat case_match; done.
Qed.

(** The scan and the deadline pass leave nothing pending. *)
Lemma scan_inv_exec now now' x : exec_inv x →
  let x1 := on_engine (updateDirtyTransitions cf now) x in
  let x2 := if hasAnyDeadlines cf then on_engine (enforceDeadlines cf now') x1 else x1 in
  exec_inv x2 ∧ engine_inv cf (λ _, False) (x_engine x2) ∧ inFlight x2 = inFlight x ∧ externalQueue x2 = externalQueue x ∧
  completionQueue x2 = completionQueue x.
Proof.
  intros H. cbn zeta. pose proof (updateDirty_inv isP pn cf Hc Hwf Htargets now _ (xi_engine x H)) as H1.
  assert (exec_inv (on_engine (updateDirtyTransitions cf now) x)) as Hx1.
  { apply settled_upto; [apply updateDirty_flight| |done]. eapply engine_inv_weaken; [|exact H1]. done. }
  case_bool; [|done]. pose proof (enforceDeadlines_inv cf _ now' _ H1) as H2. split_and!; try done.
  apply settled_upto; [apply enforceDeadlines_flight| |done]. eapply engine_inv_weaken; [|exact H2]. done.
Qed.

Lemma cycle_inv now now' x : exec_inv x → exec_inv (cycle cf providerThrows now now' x).1.
Proof.
  intros H. unfold cycle. case_bool; [done|].
  pose proof (processCompleted_inv x H) as H1. set (x1 := processCompletedTransitions cf x) in *. case_bool; [done|].
  pose proof (processExternal_inv x1 H1) as H2. set (x2 := processExternalEvents cf x1) in *. case_bool; [done|].
  destruct (scan_inv_exec now now' x2 H2) as (H3 & _). cbn zeta in *.
  case_bool; [done|]. by apply fireReady_inv.
Qed.

Lemma finish_inv x : exec_inv x → exec_inv (finish x).
Proof.
  intros [H1 H2 H3 H4 H5]. constructor; try done. intros ev Hev. by apply not_elem_of_nil in Hev.
Qed.

(** ** Host steps *)

Definition sys_inv (s : sys (V := V)) : Prop := exec_inv (s_exec s).

Lemma wakeUp_inv s : sys_inv s → sys_inv (wakeUp s).
Proof.
  unfold sys_inv, wakeUp. intros H. destruct (s_point s); repeat case_bool; try done; by eapply exec_upto_work; [|exact H].
Qed.

Lemma set_flight_inv tid fl fl' x :
  map_get tid (inFlight x) = Some fl → safe_context (fl_context fl') → exec_inv x → exec_inv (set_flight tid fl' x).
Proof.
  intros Hg Hs [H1 H2 H3 H4 H5]. apply map_get_elem in Hg.
  assert (tid ∈ (inFlight x).*1) as Hin by (apply list_elem_of_fmap; by exists (tid, fl)).
  constructor; unfold set_flight; cbn [set_flights x_engine inFlight externalQueue]; rewrite ?map_set_keys_in by done; try done.
  intros [k f] Hy. apply map_set_elem in Hy as [[-> ->]|Hy]; [done|by apply H4].
Qed.

Lemma flight_safe tid fl x : exec_inv x → map_get tid (inFlight x) = Some fl → safe_context (fl_context fl).
Proof. intros H Hg. apply (xi_safe _ _ H (tid, fl)). by apply map_get_elem. Qed.

Lemma settle_inv tid err s : sys_inv s → sys_inv (settle tid err s).
Proof.
  unfold sys_inv. intros H. unfold settle. destruct (map_get tid (inFlight (s_exec s))) as [fl|] eqn:E; [|done].
  case_bool; [done|]. cbn zeta.
  match goal with |- context [wakeUp ?s'] => assert (sys_inv s') as Hs' end.
  { unfold sys_inv. cbn [s_exec]. eapply exec_upto_work;
      [|apply (set_flight_inv tid fl (Flight (fl_context fl) (fl_consumed fl) (fl_matchedName fl) err true) (s_exec s) E); [|exact H]]; [done|].
    exact (flight_safe tid fl _ H E). }
  apply wakeUp_inv in Hs'. unfold sys_inv in Hs'. destruct (s_point (wakeUp _)); try case_decide; exact Hs'.
Qed.

(** Operations on a context that only append safe tokens keep it safe. *)
Lemma safe_on_target r g (cx : context V) :
  (∀ o, safe_entries (entries V o) → safe_entries (entries V (g o))) → safe_context cx → safe_context (on_target V r g cx).
Proof.
  intros Hg [H1 H2]. split; [|done]. cbn [on_target with_store cx_store]. intros o Ho.
  apply list_elem_of_lookup in Ho as [i Hi]. destruct (decide (i = r)) as [->|].
  - rewrite list_lookup_alter_eq in Hi. destruct (cx_store V cx !! r) as [o'|] eqn:E; simplify_eq/=.
    apply Hg, H1. by eapply list_elem_of_lookup_2.
  - rewrite list_lookup_alter_ne in Hi by done. apply H1. by eapply list_elem_of_lookup_2.
Qed.

Lemma safe_snoc es p (tok : token V) : safe_token tok → safe_entries es → safe_entries (es ++ [(p, tok)]).
Proof. intros Ht H y [Hy|Hy%list_elem_of_singleton]%elem_of_app; [by apply H|by subst]. Qed.

Lemma safe_addToken p tok (o : token_output V) : safe_token tok → safe_entries (entries V o) → safe_entries (entries V (to_addToken V p tok o)).
Proof. intros. unfold to_addToken. case_bool; [done|]. by apply safe_snoc. Qed.
Lemma safe_add p v now (o : token_output V) : (now ≤ MAX_SAFE_INTEGER)%Z → safe_entries (entries V o) → safe_entries (entries V (to_add V p v now o)).
Proof. intros. unfold to_add. case_bool; [done|]. by apply safe_snoc. Qed.

Lemma safe_run_call (cx : context V) call : call_safe call → safe_context cx → safe_context (run_calls [call] cx).
Proof.
  intros Hc' H. unfold run_calls. cbn [foldl]. unfold run_call.
  destruct call as [p vs now|p toks]; unfold cx_output, cx_outputToken; (destruct (requireOutput V _ cx) as [[]|]; [|done]); cbn [res_bind].
  - apply foldl_inv; [|done]. intros cx' v _. apply safe_on_target. intros o. by apply safe_add.
  - apply foldl_inv; [|done]. intros cx' tok Htok. cbn in Hc'. rewrite Forall_forall in Hc'. apply safe_on_target. intros o. apply safe_addToken. by apply Hc'.
Qed.

Lemma safe_detach (cx : context V) : safe_context cx → safe_context (detachForTimeout cx).
Proof.
  intros [H1 H2]. split; [|done]. unfold detachForTimeout. cbn [cx_store]. intros o [Ho|Ho%list_elem_of_singleton]%elem_of_app.
  - apply list_elem_of_lookup in Ho as [i Hi]. destruct (decide (i = cx_writeTarget V cx)) as [->|].
    + rewrite list_lookup_alter_eq in Hi. destruct (cx_store V cx !! _) as [o'|] eqn:E; simplify_eq/=. apply H1. by eapply list_elem_of_lookup_2.
    + rewrite list_lookup_alter_ne in Hi by done. apply H1. by eapply list_elem_of_lookup_2.
  - subst. intros y Hy. by apply not_elem_of_nil in Hy.
Qed.

Lemma safe_produce now child (cx cx' : context V) : (now ≤ MAX_SAFE_INTEGER)%Z → safe_context cx → produceTimeoutOutput child now cx = Ok cx' → safe_context cx'.
Proof.
  intros Hn. revert cx cx'. induction child as [cs IH|cs IH|p|ms ch IH|f t] using out_ind'; intros cx cx' H; cbn [produceTimeoutOutput]; try done.
  - revert cx H. induction IH as [|ch cs Hch _ IHcs]; intros cx H; cbn [foldl]; [by intros [= <-]|]. cbn [res_bind].
    destruct (produceTimeoutOutput ch now cx) as [cx1|err] eqn:E.
    + apply IHcs. by eapply Hch.
    + intros Hx. exfalso. revert Hx. clear. induction cs; [done|]. done.
  - unfold outputToHarvest. destruct (requireOutput V _ cx) as [[]|]; cbn [res_bind]; [|done]. intros [= <-].
    apply safe_on_target; [|done]. intros o. by apply safe_add.
  - unfold forwardToHarvest. destruct (requireInput V _ cx) as [[]|]; cbn [res_bind]; [|done].
    destruct (requireOutput V _ cx) as [[]|]; cbn [res_bind]; [|done]. intros [= <-].
    apply foldl_inv; [|done]. intros cx1 tok Htok. apply safe_on_target. intros o. apply safe_addToken.
    unfold ti_getAll in Htok. destruct (map_get _ (cx_input cx)) as [l|] eqn:E; [|by apply not_elem_of_nil in Htok].
    destruct H as [_ H]. by apply (H _ l tok (map_get_elem _ _ _ E)).
Qed.

Lemma actionTimedOut_inv tid now s : (now ≤ MAX_SAFE_INTEGER)%Z → sys_inv s → sys_inv (actionTimedOut cf tid now s).
Proof.
  intros Hn H. unfold actionTimedOut. destruct (map_get tid (inFlight (s_exec s))) as [fl|] eqn:E; [|done].
  destruct (c_transition c tid) as [t|]; [|done]. destruct (actionTimeout t) as [[ms child]|]; [|done]. case_bool; [done|]. cbn zeta.
  pose proof (safe_detach _ (flight_safe tid fl _ H E)) as Hd.
  destruct (produceTimeoutOutput child now (detachForTimeout (fl_context fl))) as [cx'|err] eqn:Ep; apply settle_inv; unfold sys_inv; cbn [s_exec].
  - apply exec_upto_emit. apply (set_flight_inv tid fl); [done|by eapply safe_produce|done].
  - by apply (set_flight_inv tid fl).
Qed.

Lemma sys_step_inv s s' : sys_step cf providerThrows s s' → sys_inv s → sys_inv s'.
Proof.
  intros Hstep H. destruct Hstep as [x n1 n2|x|x now|x w ms Hw|x w|id p tok s s' Hs Hi|s|s|b s|tid err s|tid now s Hn|tid call s Hcall|tid x pt]; unfold sys_inv in *; cbn [s_exec] in *.
  - pose proof (cycle_inv n1 n2 x H) as Hcy. destruct (cycle cf providerThrows n1 n2 x) as [x' []]; cbn [after_cycle s_exec fst] in *; [|done|done].
    by apply finish_inv.
  - done.
  - unfold park. repeat case_bool; cbn [after_park s_exec]; try done. by eapply exec_upto_work; [|exact H].
  - done.
  - done.
  - unfold inject in Hi. case_bool_decide; [done|]. case_bool; injection Hi as <-.
    + by eapply exec_upto_work; [|exact H].
    + apply wakeUp_inv. destruct H as [H1 H2 H3 H4 H5]. constructor; try done. cbn [s_exec set_external externalQueue].
      intros ev [Hev|Hev%list_elem_of_singleton]%elem_of_app; [by apply H5|by subst].
  - apply wakeUp_inv. by eapply exec_upto_work; [|exact H].
  - apply wakeUp_inv. by eapply exec_upto_work; [|exact H].
  - unfold budgetExpired. destruct b; cbn [close]; [apply wakeUp_inv|]; by eapply exec_upto_work; [|exact H].
  - by apply settle_inv.
  - by apply actionTimedOut_inv.
  - unfold actionCall. destruct (map_get tid (inFlight (s_exec s))) as [fl|] eqn:E; [|done].
    apply (set_flight_inv tid fl); [done| |done]. apply safe_run_call; [done|]. exact (flight_safe tid fl _ H E).
  - by eapply exec_upto_work; [|exact H].
Qed.

Lemma reachable_inv x0 s : exec_inv (start cf x0) → reachable cf providerThrows x0 s → sys_inv s.
Proof.
  intros H Hr. unfold reachable in Hr. assert (sys_inv (Sys (start cf x0) AtCycle)) as H0 by done.
  revert H0. induction Hr as [s|s1 s2 s3 Hs Hr IH]; intros H0; [done|]. apply IH. by eapply sys_step_inv.
Qed.
End Run.
