(* ===== verification/ExecInit.v ===== *)
(** * A constructed executor satisfies the invariant

    The constructor with its match caches, the initial bitmap, the initial dirty set with its last
    word, and the result for whole runs: every state a constructed executor reaches is coherent. *)
From S2P Require Import Prelude.
From S2P Require Import Net.
From S2P Require Import Out.
From S2P Require Import Transition.
From S2P Require Import Marking.
From S2P Require Import MatchEngine.
From S2P Require Import MatchSpec.
From S2P Require Import MatcherSpec.
From S2P Require Import PetriNet.
From S2P Require Import Bitmap.
From S2P Require Import CompiledNet.
From S2P Require Import OutputCheck.
From S2P Require Import Context.
From S2P Require Import Executor.
From S2P Require Import ExecScan.
From S2P Require Import ExecFire.
From S2P Require Import ExecLoop.
From S2P Require Import ExecInv.
From S2P Require Import ExecCache.
From S2P Require Import ExecCoherent.
From S2P Require Import ExecFiring.
From S2P Require Import ExecRun.

(** ** The initial dirty set *)

Lemma ones_word k i : (0 ≤ k ≤ 32)%Z → (0 ≤ i < 32)%Z → Z.testbit (Z.ones k) i = (i <? k)%Z.
Proof.
  intros Hk Hi. destruct (i <? k)%Z eqn:E; b2p.
  - by rewrite Z.ones_spec_low by lia.
  - by rewrite Z.ones_spec_high by lia.
Qed.

Lemma last_word_bits k i : (0 < k < 32)%Z → (0 ≤ i < 32)%Z →
  Z.testbit (to_uint32 (js_shl 1 k - 1)) i = (i <? k)%Z.
Proof.
  intros Hk Hi. rewrite <- (ones_word k i) by lia. rewrite to_uint32_testbit by lia.
  replace (i <? 32)%Z with true by (symmetry; apply Z.ltb_lt; lia). simpl.
  unfold js_shl. replace (Z.land k 31) with k.
  2:{ change 31%Z with (Z.ones 5). rewrite Z.land_ones by lia. rewrite Z.mod_small; [done|]. change (2 ^ 5)%Z with 32%Z. lia. }
  change (to_int32 1) with 1%Z. rewrite Z.shiftl_1_l. unfold Z.ones. rewrite Z.shiftl_1_l.
  rewrite <- (Z.mod_pow2_bits_low (to_int32 _ - 1) 32 i) by lia. rewrite <- (Z.mod_pow2_bits_low (Z.pred _) 32 i) by lia.
  f_equal. rewrite <- Z.sub_1_r. rewrite (Zminus_mod (to_int32 _)), (Zminus_mod (2 ^ k)). do 2 f_equal.
  unfold to_int32, to_uint32. cbv zeta. case_bool; [|by rewrite Z.mod_mod by lia].
  rewrite Zminus_mod, Z.mod_mod, Z.mod_same, Z.sub_0_r, Z.mod_mod by lia. done.
Qed.

Lemma all_dirty_word tc dw w : w < dw →
  word_at (markAllDirty_words tc dw) w =
  if w =? dw - 1 then
    if (Z.land (Z.of_nat tc) BIT_MASK =? 0)%Z then 4294967295%Z else to_uint32 (js_shl 1 (Z.land (Z.of_nat tc) BIT_MASK) - 1)
  else 4294967295%Z.
Proof.
  intros Hw. unfold word_at, markAllDirty_words. rewrite list_lookup_imap, lookup_replicate_2 by done. done.
Qed.

Lemma all_dirty_ok tc dw : words_ok (markAllDirty_words tc dw) ∧ length (markAllDirty_words tc dw) = dw.
Proof.
  split; [|unfold markAllDirty_words; by rewrite length_imap, length_replicate].
  unfold words_ok. apply Forall_lookup. intros w x Hx. unfold markAllDirty_words in Hx.
  apply list_lookup_imap_Some in Hx as (y & _ & ->). repeat case_bool; [by vm_compute|apply to_uint32_word|by vm_compute].
Qed.

Lemma land_mask n : Z.land (Z.of_nat n) BIT_MASK = Z.of_nat (n mod 32).
Proof.
  unfold BIT_MASK. change 31%Z with (Z.ones 5). rewrite Z.land_ones by lia. change (2 ^ 5)%Z with (Z.of_nat 32).
  by rewrite <- Nat2Z.inj_mod.
Qed.

Lemma all_dirty_bit tc tid : tid < tc →
  bit_of (markAllDirty_words tc (Z.to_nat (Z.shiftr (Z.of_nat tc + BIT_MASK) WORD_SHIFT))) tid = true.
Proof.
  intros Ht. set (dw := Z.to_nat (Z.shiftr (Z.of_nat tc + BIT_MASK) WORD_SHIFT)).
  assert (dw = (tc + 31) / 32) as Edw.
  { unfold dw, BIT_MASK, WORD_SHIFT. rewrite Z.shiftr_div_pow2 by lia. change (2 ^ 5)%Z with (Z.of_nat 32).
    replace (Z.of_nat tc + 31)%Z with (Z.of_nat (tc + 31)) by lia. by rewrite <- Nat2Z.inj_div, Nat2Z.id. }
  pose proof (Nat.div_mod_eq (tc + 31) 32). pose proof (Nat.mod_upper_bound (tc + 31) 32 ltac:(lia)).
  pose proof (Nat.div_mod_eq tid 32). pose proof (Nat.mod_upper_bound tid 32 ltac:(lia)).
  pose proof (Nat.div_mod_eq tc 32). pose proof (Nat.mod_upper_bound tc 32 ltac:(lia)).
  unfold bit_of. rewrite all_dirty_word by lia. rewrite land_mask.
  assert (∀ i, i < 32 → Z.testbit 4294967295 (Z.of_nat i) = true) as Hones.
  { intros i Hi. change 4294967295%Z with (Z.ones 32). rewrite ones_word by lia. apply Z.ltb_lt. lia. }
  destruct (tid / 32 =? dw - 1) eqn:E; b2p; [|apply Hones; lia].
  destruct (Z.of_nat (tc mod 32) =? 0)%Z eqn:E0; b2p; [apply Hones; lia|].
  rewrite last_word_bits by lia. apply Z.ltb_lt. lia.
Qed.

Section Init.
Context {V : Type} (isP : nat → bool) (pn : petri_net V).
Hypothesis Hwf : ∀ tid t, net_transitions pn !! tid = Some t → transition_wf t.
Implicit Types (x : exec V) (e : engine V) (m : marking V) (tr : transition V).

(** ** The initial matchers *)

Lemma cache_add_all i (key : key_fn V) toks cache sts :
  matcher_inv cache sts → i < length sts →
  ∃ sts', matcher_inv (foldl (λ cache tok, cache_add i key tok cache) cache toks) sts' ∧
    requireds (foldl (λ cache tok, cache_add i key tok cache) cache toks) = requireds cache ∧
    same_stamps (alter (λ st n, st n ++ key_stamps key toks n) i sts) sts'.
Proof.
  revert cache sts. induction toks as [|tok toks IH]; intros cache sts H Hi; cbn [foldl].
  { exists sts. split_and!; [done|done|]. clear. revert i. induction sts as [|st sts IH]; intros [|i]; simpl; constructor; try done.
    - intros n. unfold key_stamps. rewrite filter_nil. apply app_nil_r.
    - clear. induction sts; constructor; done.
    - apply IH. }
  assert (∃ sts1, matcher_inv (cache_add i key tok cache) sts1 ∧ requireds (cache_add i key tok cache) = requireds cache ∧
    same_stamps (alter (λ st n, st n ++ key_stamps key [tok] n) i sts) sts1) as (sts1 & H1 & Hrq & Hs1).
  { unfold cache_add. destruct (key (tok_value tok)) as [name|] eqn:Ek.
    - destruct (matcher_add_inv i name (createdAt tok) cache sts H Hi) as (mt & -> & Erq & Hmt). simpl.
      eexists. split_and!; [exact Hmt|done|]. clear -Ek. revert i. induction sts as [|st sts IH]; intros [|i]; simpl; constructor; try done.
      + intros n. rewrite key_stamps_cons, Ek. repeat case_decide; simplify_eq; [done|]. unfold key_stamps. rewrite filter_nil. apply app_nil_r.
      + clear. induction sts; constructor; done.
      + apply IH.
    - exists sts. split_and!; [done|done|]. clear -Ek. revert i. induction sts as [|st sts IH]; intros [|i]; simpl; constructor; try done.
      + intros n. rewrite key_stamps_cons, Ek. case_decide; [done|]. unfold key_stamps. rewrite filter_nil. apply app_nil_r.
      + clear. induction sts; constructor; done.
      + apply IH. }
  assert (i < length sts1) as Hi1 by (by rewrite <- (Forall2_length _ _ _ Hs1), length_alter).
  destruct (IH _ _ H1 Hi1) as (sts2 & H2 & Erq2 & Hs2). exists sts2. split_and!; [done|congruence|].
  assert (same_stamps (alter (λ st n, st n ++ key_stamps key (tok :: toks) n) i sts)
                      (alter (λ st n, st n ++ key_stamps key toks n) i sts1)) as Hs3.
  { clear -Hs1. revert i sts1 Hs1. induction sts as [|st sts IH]; intros [|i] sts1 Hs1; simpl in *;
      apply Forall2_cons_inv_l in Hs1 as (s1 & l1 & E1 & El & ->) || apply Forall2_nil_inv_l in Hs1 as ->; simpl; constructor; try done.
    - intros n. rewrite <- E1, <- app_assoc. f_equal. rewrite !key_stamps_cons. unfold key_stamps at 3. rewrite filter_nil. by case_decide.
    - by apply IH. }
  clear -Hs2 Hs3. revert Hs3 Hs2. generalize (alter (λ st n, st n ++ key_stamps key toks n) i sts1) as l.
  generalize (alter (λ st n, st n ++ key_stamps key (tok :: toks) n) i sts) as k. intros k l H1. revert sts2.
  induction H1 as [|s s' k l E _ IH]; intros sts2 H2; [by apply Forall2_nil_inv_l in H2 as ->; constructor|].
  apply Forall2_cons_inv_l in H2 as (s2 & l2 & E2 & El & ->). constructor; [intros n; by rewrite E|by apply IH].
Qed.

(** The stamps after the first [o] inputs are seeded. *)
Definition seeded_upto m (keys : list (match_key V)) (o : nat) (sts : list stamps) : Prop :=
  length sts = length keys ∧
  ∀ j k st, keys !! j = Some k → sts !! j = Some st → ∀ n, st n = if j <? o then key_stamps (mk_key k) (queue m (key_name k)) n else [].

Lemma same_stamps_lookup sts sts' j st : same_stamps sts sts' → sts' !! j = Some st → ∃ st', sts !! j = Some st' ∧ ∀ n, st' n = st n.
Proof. intros H Hj. destruct (Forall2_lookup_r _ _ _ _ _ H Hj) as (st' & ? & ?). eauto. Qed.

Lemma seed_loop m keys o rest cache sts :
  keys = firstn o keys ++ rest → o ≤ length keys → matcher_inv cache sts → seeded_upto m keys o sts →
  let r := foldl (λ cache (k : nat * match_key V), foldl (λ cache tok, cache_add k.1 (mk_key k.2) tok cache) cache (peekTokens (mk_place_of k.2) m))
                 cache (imap (λ i k, (o + i, k)) rest) in
  ∃ sts', matcher_inv r sts' ∧ requireds r = requireds cache ∧ seeded_upto m keys (length keys) sts'.
Proof.
  revert o cache sts. induction rest as [|k rest IH]; intros o cache sts Hk Ho H Hs; cbn zeta; simpl.
  { exists sts. split_and!; [done|done|]. rewrite app_nil_r in Hk. assert (length keys = o) as ->; [|done].
    rewrite Hk, length_firstn. lia. }
  assert (keys !! o = Some k) as Hko.
  { rewrite Hk, lookup_app_r; rewrite length_firstn; [|lia]. by replace (o - Nat.min o (length keys)) with 0 by lia. }
  pose proof (lookup_lt_Some _ _ _ Hko) as Hlt. destruct Hs as [Hl Hs]. rewrite Nat.add_0_r.
  destruct (cache_add_all o (mk_key k) (peekTokens (mk_place_of k) m) cache sts H) as (sts1 & H1 & Erq & Hs1); [lia|].
  rewrite (imap_ext _ (λ i k, (S o + i, k))) by (intros; simpl; f_equal; lia).
  destruct (IH (S o) (foldl (λ cache tok, cache_add o (mk_key k) tok cache) cache (peekTokens (mk_place_of k) m)) sts1) as (sts2 & H2 & Erq2 & Hs2); [|lia|done| |].
  - rewrite (take_S_r _ _ k) by done. rewrite <- app_assoc. done.
  - split; [by rewrite <- (Forall2_length _ _ _ Hs1), length_alter|]. intros j k' st Hj Hst n.
    destruct (same_stamps_lookup _ _ _ _ Hs1 Hst) as (st' & Hst' & <-). destruct (decide (j = o)) as [->|Hne].
    + rewrite Hko in Hj. injection Hj as <-. rewrite list_lookup_alter_eq in Hst'. destruct (sts !! o) as [st0|] eqn:E0; simplify_eq/=.
      rewrite (Hs o k st0 Hko E0 n). replace (o <? o) with false by (symmetry; apply Nat.ltb_ge; lia).
      replace (o <? S o) with true by (symmetry; apply Nat.ltb_lt; lia). done.
    + rewrite list_lookup_alter_ne in Hst' by done. rewrite (Hs j k' st' Hj Hst' n).
      destruct (j <? o) eqn:E1, (j <? S o) eqn:E2; b2p; try done; lia.
  - exists sts2. split_and!; [done|congruence|done].
Qed.

Lemma seed_matcher_inv m rq keys : length rq = length keys → keys ≠ [] →
  requireds (seed_matcher m rq keys) = rq ∧ matcher_inv (seed_matcher m rq keys) (join_stamps m keys).
Proof.
  intros Hl Hne. destruct (matcher_new_inv rq) as [H|Hr]; [|subst; destruct keys; [done|done]].
  destruct (seed_loop m keys 0 keys (matcher_new rq) (st_of <$> ((λ _, []) <$> rq))) as (sts & H1 & Erq & Hl1 & Hs); [done|lia|done| |].
  - split; [by rewrite !length_fmap|]. intros j k st _ Hst n. rewrite !list_lookup_fmap in Hst.
    destruct (rq !! j); simplify_eq/=. done.
  - split; [exact Erq|]. eapply matcher_inv_ext; [|exact H1]. unfold same_stamps. apply Forall2_same_length_lookup. split.
    + unfold join_stamps. by rewrite length_fmap.
    + intros j st st' Hst Hst' n. unfold join_stamps in Hst'. rewrite list_lookup_fmap in Hst'.
      destruct (keys !! j) as [k|] eqn:Ek; simplify_eq/=. rewrite (Hs j k st Ek Hst n).
      pose proof (lookup_lt_Some _ _ _ Ek). replace (j <? length keys) with true by (symmetry; apply Nat.ltb_lt; lia). done.
Qed.

Lemma initial_caches (cf : config V) m :
  compile isP pn = Ok (cf_compiled cf) → caches_inv cf m (initMatchCaches (cf_compiled cf) m).
Proof.
  intros Hc tid tr cache Hl Ht. unfold initMatchCaches in Hl. unfold c_transition in Ht.
  rewrite list_lookup_imap, Ht in Hl. simpl in Hl. injection Hl as Hl. unfold init_cache in Hl.
  destruct (t_matchSpec tr) as [ms|] eqn:Hms; simpl in Hl; [|done].
  destruct (eligible_requireds (cf_compiled cf) tid tr (ms_keys ms)) as [rq|] eqn:Hel; simpl in Hl; [|done]. injection Hl as <-.
  pose proof Ht as Hn. change (c_transition (cf_compiled cf) tid = Some tr) in Hn. apply (transition_lookup isP pn cf Hc) in Hn.
  destruct (Hwf tid tr Hn) as [_ Hm]. destruct (Hm ms Hms) as (Hne & _).
  pose proof (eligible_spec cf tid tr _ _ Hel) as [Hrq _].
  destruct (seed_matcher_inv m rq (ms_keys ms)) as [E Hi]; [by rewrite Hrq, length_fmap|done|].
  exists ms. by rewrite E.
Qed.

Lemma initial_bitmap (cf : config V) e :
  compile isP pn = Ok (cf_compiled cf) → markingBitmap e = new_words (wordCount (cf_compiled cf)) →
  ∃ bits, initializeMarkingBitmap cf e = set_bitmap bits e ∧ sized (wordCount (cf_compiled cf)) bits ∧ bitmap_ok cf (e_marking e) bits.
Proof.
  intros Hc E0. unfold initializeMarkingBitmap.
  assert (∀ l bits, (∀ pid, pid ∈ l → pid < placeCount (cf_compiled cf)) → sized (wordCount (cf_compiled cf)) bits →
    ∃ bits', foldl (λ e0 pid, if 0 <? tokens_at cf pid (e_marking e0) then set_bitmap (setBit (markingBitmap e0) pid) e0 else e0) (set_bitmap bits e) l
             = set_bitmap bits' e ∧ sized (wordCount (cf_compiled cf)) bits' ∧
      ∀ k, bit_of bits' k = true ↔ bit_of bits k = true ∨ (k ∈ l ∧ 0 < tokens_at cf k (e_marking e))) as H.
  { induction l as [|pid l IH]; intros bits Hl Hs; cbn [foldl].
    { exists bits. split_and!; [done|done|]. intros k. split; [by left|]. by intros [?|[?%not_elem_of_nil _]]. }
    cbn [set_bitmap e_marking markingBitmap]. destruct (0 <? tokens_at cf pid (e_marking e)) eqn:E; b2p.
    - destruct (IH (setBit bits pid)) as (bits' & H1 & H2 & H3); [intros; apply Hl; by right|by apply sized_set|].
      exists bits'. split_and!; [exact H1|done|]. intros k. rewrite H3, elem_of_cons.
      rewrite (sized_bit (wordCount (cf_compiled cf))); [naive_solver|done|].
      apply (word_count_enough isP pn cf Hc). apply Hl. left.
    - destruct (IH bits) as (bits' & H1 & H2 & H3); [intros; apply Hl; by right|done|].
      exists bits'. split_and!; [exact H1|done|]. intros k. rewrite H3, elem_of_cons. naive_solver lia. }
  destruct (H (seq 0 (placeCount (cf_compiled cf))) (markingBitmap e)) as (bits' & H1 & H2 & H3).
  - intros pid ?%elem_of_seq. lia.
  - rewrite E0. split; [apply new_words_ok|]. unfold new_words. by rewrite length_replicate.
  - exists bits'. split_and!; [by destruct e|done|]. intros pid Hp. rewrite H3, E0, bit_of_new, elem_of_seq. naive_solver lia.
Qed.

Lemma count_true_replicate n : count_true (replicate n false) = 0%Z.
Proof. apply count_true_zero. intros i. unfold flag. destruct (replicate n false !! i) eqn:E; [|done]. by apply lookup_replicate in E as [-> _]. Qed.

Lemma initial_engine (cf : config V) m log :
  compile isP pn = Ok (cf_compiled cf) → stamps_safe m →
  let e := markAllDirty cf (initializeMarkingBitmap cf (make_engine (cf_compiled cf) m log)) in
  engine_inv cf (dirty_of e) e ∧ inFlightFlags e = replicate (transitionCount (cf_compiled cf)) false ∧ e_marking e = m.
Proof.
  intros Hc Hs. cbn zeta. destruct (initial_bitmap cf (make_engine (cf_compiled cf) m log) Hc eq_refl) as (bits & -> & Hsz & Hb).
  split_and!; [|done|done]. unfold markAllDirty. destruct (all_dirty_ok (transitionCount (cf_compiled cf)) (dirty_words (cf_compiled cf))) as [D1 D2].
  assert (length (dirtySet (set_bitmap bits (make_engine (cf_compiled cf) m log))) = dirty_words (cf_compiled cf)) as ->
    by (cbn [set_bitmap make_engine dirtySet]; unfold new_words; by rewrite length_replicate).
  assert (∀ k, flag (replicate (transitionCount (cf_compiled cf)) false) k = false) as Hf.
  { intros k. unfold flag. destruct (replicate _ false !! k) eqn:E; [|done]. by apply lookup_replicate in E as [-> _]. }
  constructor; cbn [set_dirty set_bitmap make_engine e_marking matchCaches markingBitmap dirtySet restartPendingWords enabledFlags inFlightFlags]; try done.
  - by apply initial_caches.
  - split; [apply new_words_ok|]. unfold new_words. by rewrite length_replicate.
  - constructor; unfold stamp_at; cbn [set_dirty set_bitmap make_engine enabledAtMs inFlightFlags enabledFlags enabledTransitionCount].
    + by rewrite !length_replicate.
    + by rewrite count_true_replicate.
    + intros tid H. by rewrite Hf in H.
    + intros tid. rewrite Hf. split; [done|]. intros [z Hz]. destruct (replicate _ None !! tid) eqn:E; simpl in Hz; [|done].
      apply lookup_replicate in E as [-> _]. done.
  - intros tid tr Ht _ H. by rewrite Hf in H.
  - intros tid tr Ht HP. destruct HP. unfold dirty_of. cbn [set_dirty dirtySet]. apply all_dirty_bit. by eapply c_transition_lt.
Qed.

Lemma from_safe (seed : list (place * list (token V))) :
  (∀ s tok, s ∈ seed → tok ∈ s.2 → safe_token tok) → stamps_safe (from seed).
Proof.
  intros Hs. assert (∀ k l tok, (k, l) ∈ m_tokens (from seed) → tok ∈ l → safe_token tok) as H.
  { unfold from. apply (foldl_inv (λ m : marking V, ∀ k l tok, (k, l) ∈ m_tokens m → tok ∈ l → safe_token tok)).
    - intros m s Hin IH k l tok Hk Htok. cbn [m_tokens] in Hk. apply map_set_elem in Hk as [[-> ->]|Hk]; [by apply (Hs s)|by apply (IH k l)].
    - intros k l tok Hk. by apply not_elem_of_nil in Hk. }
  intros n tok Hin. unfold queue in Hin. destruct (map_get n (m_tokens (from seed))) as [l|] eqn:E; [|by apply not_elem_of_nil in Hin].
  apply (H n l tok); [by apply map_get_elem|done].
Qed.

(** The tokens a run starts from. *)
Definition seed_of (base : nat) (initialTokens : list (place * list (token V))) (o : options (V := V)) : list (place * list (token V)) :=
  match o_restore o with Some s => restoredTokens base s | None => initialTokens end.

Definition seed_safe (base : nat) (initialTokens : list (place * list (token V))) (o : options (V := V)) : Prop :=
  ∀ s tok, s ∈ seed_of base initialTokens o → tok ∈ s.2 → safe_token tok.

(** What a constructed executor looks like. *)
Definition fresh_exec (cf : config V) m x : Prop :=
  (∃ log, x_engine x = make_engine (cf_compiled cf) m log) ∧ inFlight x = [] ∧ completionQueue x = [] ∧ externalQueue x = [] ∧
  draining x = false ∧ closed x = false ∧ terminalReached x = false ∧ running x = false ∧ reason x = Running.

Lemma fresh_emit cf m ev x : fresh_exec cf m x → fresh_exec cf m (on_engine (emit ev) x).
Proof. intros [(log & E) H]. split; [|exact H]. exists (log ++ [ev]). cbn [on_engine set_engine x_engine]. by rewrite E. Qed.

Lemma construct_spec rnd base initialTokens o cf x :
  construct isP rnd base pn initialTokens o = Ok (cf, x) →
  compile isP pn = Ok (cf_compiled cf) ∧
  (∃ tol env scope, cf = make_config (cf_compiled cf) tol env scope ∧ (0 ≤ tol)%Z) ∧
  fresh_exec cf (from (seed_of base initialTokens o)) x.
Proof.
  unfold construct. intros (c & Hc & H)%res_bind_ok. destruct (compile isP pn) as [c'|] eqn:E; [|done]. injection Hc as ->.
  cbn zeta in H. apply res_seq_ok in H as [Ht H]. apply res_seq_ok in H as [_ H].
  apply res_bind_ok in H as (scope & _ & H). injection H as <- <-. split; [done|]. split.
  { do 3 eexists. split; [done|]. apply throw_if_ok in Ht. b2p. done. }
  fold (seed_of base initialTokens o). apply foldl_inv; [intros; by apply fresh_emit|].
  apply foldl_inv.
  - intros x s _ Hx. case_bool; [|done]. unfold warnUnknownPlace. destruct (decide (place_name s.1 ∈ warnedUnknownPlaces x)); [done|]. apply fresh_emit.
    destruct Hx as [Hl Hx]. by split.
  - split; [by eexists|]. by split_and!.
Qed.

(** A constructed executor satisfies the invariant when it starts. *)
Lemma start_inv rnd base initialTokens o cf x :
  construct isP rnd base pn initialTokens o = Ok (cf, x) → seed_safe base initialTokens o →
  compile isP pn = Ok (cf_compiled cf) ∧
  placeMatchTargets cf = matchTargets (cf_compiled cf) <$> seq 0 (placeCount (cf_compiled cf)) ∧
  exec_inv cf (start cf x).
Proof.
  intros H Hs. apply construct_spec in H as (Hc & (tol & env & scope & Ecf & _) & ((log & Ee) & E1 & E2 & E3 & _)).
  split; [done|]. split; [by rewrite Ecf|].
  destruct (initial_engine cf (from (seed_of base initialTokens o)) log Hc) as (I1 & I2 & _); [by apply from_safe|].
  assert (exec_inv cf (on_engine (λ e, markAllDirty cf (initializeMarkingBitmap cf e)) (set_host (draining x) (closed x) true (reason x) x))) as Hx.
  { constructor; cbn [on_engine set_engine set_host x_engine inFlight externalQueue]; rewrite ?Ee, ?E1, ?E3.
    - eapply engine_inv_weaken; [|exact I1]. auto.
    - constructor.
    - intros tid. rewrite I2. split; [intros Hin; by apply not_elem_of_nil in Hin|]. unfold flag.
      destruct (replicate _ false !! tid) eqn:E; [|done]. by apply lookup_replicate in E as [-> _].
    - intros y Hy. by apply not_elem_of_nil in Hy.
    - intros y Hy. by apply not_elem_of_nil in Hy. }
  unfold start. cbn zeta. case_bool; [|done]. unfold checkInitialTerminals. case_bool; [|done].
  by eapply exec_upto_work; [|exact Hx].
Qed.
End Init.
