(* ===== verification/ExecGame.v ===== *)
(** * The token game the executor plays

    The abstract specification of a run: a marking and the firings in flight, moved by the steps of
    the token game. The bitmaps, the dirty set, the match caches, the queues and the flags of the
    executor do not occur in it. The refinement says that every step of the executor is a sequence
    of moves of the game. *)
From S2P Require Import Prelude.
From S2P Require Import Net.
From S2P Require Import Out.
From S2P Require Import Transition.
From S2P Require Import Marking.
From S2P Require Import MatchEngine.
From S2P Require Import PetriNet.
From S2P Require Import Bitmap.
From S2P Require Import CompiledNet.
From S2P Require Import OutputCheck.
From S2P Require Import Context.
From S2P Require Import Executor.
From S2P Require Import ExecScan.
From S2P Require Import ExecFire.
From S2P Require Import ExecLoop.
From S2P Require Import ExecInv.
From S2P Require Import ExecCache.
From S2P Require Import ExecCoherent.
From S2P Require Import ExecFiring.
From S2P Require Import ExecRun.
From S2P Require Import ExecInit.

(** ** The game *)

Section Game.
Context {V : Type}.
Implicit Types (m : marking V) (t : transition V).

(** A flight of the game: the transition and the name its join fired with. *)
Definition game : Type := marking V * list (nat * option name_id).

(** The tokens the entries put on a place, in order. *)
Definition landed (es : list (place * token V)) (n : jsstr) : list (token V) :=
  omap (λ y, if decide (place_name y.1 = n) then Some y.2 else None) es.

(** The output of an action a transition accepts. *)
Definition accepted t (es : list (place * token V)) (matched : option name_id) : Prop :=
  ∀ spec, outputSpec t = Some spec →
    is_ok (validateOutSpec spec (set_of ((λ y, place_name y.1) <$> es))) ∧ validateRelays t es matched = Ok ().

Definition land (tid : nat) (fl : list (nat * option name_id)) : list (nat * option name_id) := filter (λ y, y.1 ≠ tid) fl.

(** The moves over the transitions [ts] with environment places [env]. *)
Inductive game_step (ts : list (transition V)) (env : list jsstr) : game → game → Prop :=
| game_fire m m' fl tid t :
    ts !! tid = Some t → tid ∉ fl.*1 → enabled_in t m →
    (∀ n, queue m' n = marking_after t (findBinding t (λ p, peekTokens p m)) m n) →
    game_step ts env (m, fl) (m', fl ++ [(tid, findBinding t (λ p, peekTokens p m))])
| game_misfire m m' fl tid t :
    ts !! tid = Some t → tid ∉ fl.*1 → enabled_in t m →
    (∀ n, queue m' n = marking_after t (findBinding t (λ p, peekTokens p m)) m n) →
    game_step ts env (m, fl) (m', fl)
| game_complete m m' fl tid matched t es :
    ts !! tid = Some t → (tid, matched) ∈ fl → accepted t es matched →
    (∀ n, queue m' n = queue m n ++ landed es n) →
    game_step ts env (m, fl) (m', land tid fl)
| game_fail m fl tid :
    tid ∈ fl.*1 → game_step ts env (m, fl) (m, land tid fl)
| game_inject m m' fl p tok :
    place_name p ∈ env → (∀ n, queue m' n = queue m n ++ landed [(p, tok)] n) →
    game_step ts env (m, fl) (m', fl).

(** What an executor shows of the game. *)
Definition game_of (x : exec V) : game := (e_marking (x_engine x), (λ y, (y.1, fl_matchedName y.2)) <$> inFlight x).

Lemma game_of_keys x : (game_of x).2.*1 = (inFlight x).*1.
Proof. unfold game_of. cbn [snd]. rewrite <- list_fmap_compose. by apply list_fmap_ext. Qed.

Lemma land_flights tid (x : list (nat * flight V)) :
  land tid ((λ y, (y.1, fl_matchedName y.2)) <$> x) = (λ y, (y.1, fl_matchedName y.2)) <$> flights_delete tid x.
Proof.
  unfold land, flights_delete. induction x as [|y x IH]; [done|]. rewrite fmap_cons, !filter_cons. cbn [fst].
  case_decide; [by rewrite fmap_cons, IH|done].
Qed.

Lemma landed_snoc es p tok n : landed (es ++ [(p, tok)]) n = landed es n ++ landed [(p, tok)] n.
Proof. unfold landed. by rewrite omap_app. Qed.
End Game.
Arguments game : clear implicits.

(** ** Deposits and processing *)

Section Refine.
Context {V : Type} (isP : nat → bool) (pn : petri_net V) (cf : config V).
Hypothesis Hc : compile isP pn = Ok (cf_compiled cf).
Hypothesis Hwf : ∀ tid t, net_transitions pn !! tid = Some t → transition_wf t.
Hypothesis Htargets : placeMatchTargets cf = matchTargets (cf_compiled cf) <$> seq 0 (placeCount (cf_compiled cf)).
Variable providerThrows : jsstr → list (token V) → bool.
Abbreviation c := (cf_compiled cf).
Implicit Types (x : exec V) (e : engine V) (m : marking V) (tr : transition V).
Abbreviation move := (game_step (c_transitions (cf_compiled cf)) (environmentPlaces cf)).

(** The processing queues and the engine's marking aside, nothing of a run is in the game. *)
Lemma warnUnknownPlace_game p tname x : game_of (warnUnknownPlace p tname x) = game_of x.
Proof. unfold warnUnknownPlace. by case_decide. Qed.

Lemma cacheAddToken_marking pid tok e : e_marking (cacheAddToken cf pid tok e) = e_marking e.
Proof. apply (cacheAddToken_frame cf pid tok e). Qed.

Lemma deposit_game tname p tok x :
  game_of (deposit cf tname p tok x) = (addToken p tok (e_marking (x_engine x)), (game_of x).2).
Proof.
  unfold deposit. cbn zeta. destruct (tryPlaceId c p) as [pid|].
  - unfold game_of. case_bool; cbn [on_engine set_engine set_terminal emit x_engine e_marking inFlight];
      rewrite markDirty_eq; cbn [set_dirty set_bitmap e_marking]; by rewrite cacheAddToken_marking.
  - transitivity (game_of (warnUnknownPlace p tname (on_engine (λ e, set_marking (addToken p tok (e_marking e)) e) x))); [done|].
    by rewrite warnUnknownPlace_game.
Qed.

Lemma deposit_queues tname p tok x n :
  queue (e_marking (x_engine (deposit cf tname p tok x))) n = queue (e_marking (x_engine x)) n ++ landed [(p, tok)] n.
Proof.
  change (e_marking (x_engine (deposit cf tname p tok x))) with (game_of (deposit cf tname p tok x)).1.
  rewrite deposit_game. cbn [fst]. rewrite queue_addToken. unfold landed. cbn.
  repeat case_decide; subst; try done. by rewrite app_nil_r.
Qed.

Lemma deposit_flights tname p tok x : inFlight (deposit cf tname p tok x) = inFlight x.
Proof.
  unfold deposit. cbn zeta. destruct (tryPlaceId c p) as [pid|]; [by case_bool|].
  unfold warnUnknownPlace. by case_decide.
Qed.

Lemma deposits_game tname es x :
  let x' := foldl (λ x y, deposit cf tname y.1 y.2 x) x es in
  (game_of x').2 = (game_of x).2 ∧
  ∀ n, queue (e_marking (x_engine x')) n = queue (e_marking (x_engine x)) n ++ landed es n.
Proof.
  cbn zeta. revert x. induction es as [|[p tok] es IH]; intros x; cbn [foldl fst snd].
  { split; [done|]. intros n. by rewrite app_nil_r. }
  destruct (IH (deposit cf tname p tok x)) as [-> H]. split; [by rewrite deposit_game|].
  intros n. rewrite H, deposit_queues, <- app_assoc. f_equal.
  change ((p, tok) :: es) with ([(p, tok)] ++ es). unfold landed. by rewrite omap_app.
Qed.

Lemma warnMultiplicity_game tname es claim x : game_of (warnMultiplicity tname es claim x) = game_of x.
Proof. unfold warnMultiplicity. case_decide; [done|]. cbn zeta. by case_bool_decide. Qed.

Lemma deposit_outputs_game (t : transition V) fl claim x :
  let x' := deposit_outputs cf t fl claim x in
  (game_of x').2 = (game_of x).2 ∧
  ∀ n, queue (e_marking (x_engine x')) n = queue (e_marking (x_engine x)) n ++ landed (harvest fl) n.
Proof.
  cbn zeta. unfold deposit_outputs. cbn zeta.
  set (x1 := match claim with Some _ => _ | None => x end).
  assert (game_of x1 = game_of x) as E.
  { unfold x1. destruct claim as [claim|]; [|done]. case_bool_decide; [|done]. apply warnMultiplicity_game. }
  destruct (deposits_game (t_name t) (harvest fl) x1) as [-> H]. rewrite E. split; [done|].
  intros n. rewrite H. by change (e_marking (x_engine x1)) with (game_of x1).1; rewrite E.
Qed.

Lemma validate_accepted (t : transition V) fl claim : validate t fl = Ok claim → accepted t (harvest fl) (fl_matchedName fl).
Proof.
  unfold validate, accepted. intros H spec Es. rewrite Es in H. cbn zeta in H.
  apply res_bind_ok in H as (cl & -> & H). apply res_bind_ok in H as ([] & -> & _). done.
Qed.

Lemma complete_flight_game x tid (t : transition V) fl :
  c_transition c tid = Some t → (tid, fl) ∈ inFlight x → move (game_of x) (game_of (complete_flight cf t tid fl x)).
Proof.
  intros Ht Hfl. assert ((tid, fl_matchedName fl) ∈ (game_of x).2) as Hin.
  { unfold game_of. cbn [snd]. apply list_elem_of_fmap. by exists (tid, fl). }
  unfold complete_flight. cbn zeta. set (x1 := on_engine _ (set_flights _ x)).
  assert (game_of x1 = ((game_of x).1, land tid (game_of x).2)) as E1.
  { unfold game_of. cbn [snd]. by rewrite land_flights. }
  assert (∀ x', game_of x' = game_of x1 → move (game_of x) (game_of x')) as Hfail.
  { intros x' ->. rewrite E1. destruct (game_of x) as [m l]. cbn [fst snd] in Hin |- *. apply game_fail.
    apply list_elem_of_fmap. by exists (tid, fl_matchedName fl). }
  case_bool; [by apply Hfail|]. destruct (validate t fl) as [claim|] eqn:Ev; [|by apply Hfail].
  set (x2 := deposit_outputs _ _ _ _ _). destruct (deposit_outputs_game t fl claim (set_unsettled true x1)) as [D1 D2].
  fold x2 in D1, D2. change (game_of (set_unsettled true x1)) with (game_of x1) in D1. rewrite E1 in D1. cbn [snd] in D1.
  change (game_of (on_engine _ _)) with (game_of x2). destruct (game_of x2) as [m2 l2] eqn:Eg. cbn [snd] in D1. subst l2.
  assert (m2 = e_marking (x_engine x2)) as -> by (unfold game_of in Eg; by injection Eg).
  destruct (game_of x) as [m l] eqn:Egx. cbn [snd fst] in *. apply (game_complete _ _ m _ l tid (fl_matchedName fl) t (harvest fl)).
  - exact Ht.
  - done.
  - by eapply validate_accepted.
  - intros n. rewrite D2. cbn. unfold game_of in Egx. by injection Egx as -> _.
Qed.

Lemma process_completions_game q x : rtc move (game_of x) (game_of (process_completions cf q x)).
Proof.
  revert x. induction q as [|tid q IH]; intros x; [done|]. cbn [process_completions].
  destruct (map_get tid (inFlight x)) as [fl|] eqn:E; [|apply IH]. destruct (c_transition c tid) as [t|] eqn:Et; [|apply IH].
  eapply rtc_l; [eapply (complete_flight_game x tid t fl); [done|by apply map_get_elem]|].
  cbn zeta. case_bool; [done|apply IH].
Qed.

Lemma processCompleted_game x : rtc move (game_of x) (game_of (processCompletedTransitions cf x)).
Proof. unfold processCompletedTransitions. case_bool_decide; [done|]. apply process_completions_game. Qed.

(** The queued events are on environment places. *)
Definition env_queue x : Prop := ∀ ev, ev ∈ externalQueue x → place_name (ev_place ev) ∈ environmentPlaces cf.

Lemma process_external_game q x :
  (∀ ev, ev ∈ q → place_name (ev_place ev) ∈ environmentPlaces cf) → rtc move (game_of x) (game_of (process_external cf q x)).
Proof.
  revert x. induction q as [|ev q IH]; intros x Hq; [done|]. cbn [process_external]. cbn zeta.
  set (x1 := deposit cf [] (ev_place ev) (ev_token ev) x). eapply rtc_l with (y := game_of (set_external (tail (externalQueue x1)) (admissions x1 ++ [(ev_id ev, true)]) x1)).
  - change (game_of (set_external ?q ?a x1)) with (game_of x1). pose proof (deposit_queues [] (ev_place ev) (ev_token ev) x) as Hn. fold x1 in Hn.
    unfold x1. rewrite deposit_game. destruct (game_of x) as [m l] eqn:Eg. cbn [snd].
    apply (game_inject _ _ m _ l (ev_place ev) (ev_token ev)); [apply Hq; left|].
    unfold game_of in Eg. injection Eg as <- _. intros n.
    rewrite <- Hn. unfold x1. change (e_marking (x_engine (deposit cf [] ?p ?t x))) with (game_of (deposit cf [] p t x)).1.
    by rewrite deposit_game.
  - case_bool; [done|]. apply IH. intros. apply Hq. by right.
Qed.

Lemma processExternal_game x : env_queue x → rtc move (game_of x) (game_of (processExternalEvents cf x)).
Proof. intros H. unfold processExternalEvents. case_bool_decide; [done|]. case_bool; [done|]. by apply process_external_game. Qed.

(** ** Firing *)

Lemma update_marking tid e : e_marking (updateBitmapAfterConsumption cf tid e) = e_marking e.
Proof.
  unfold updateBitmapAfterConsumption. apply (foldl_inv (λ e', e_marking e' = e_marking e)); [|done].
  intros e' pid _ <-. unfold update_consumed. cbn zeta.
  assert (∀ e0, e_marking (flagIntermediateDisablements cf tid pid e0) = e_marking e0) as Hf.
  { intros e0. unfold flagIntermediateDisablements. apply (foldl_inv (λ e', e_marking e' = e_marking e0)); [|done].
    intros e1 o _ <-. unfold flag_intermediate. by repeat case_bool. }
  case_bool; rewrite ?Hf, markDirty_eq; cbn [set_dirty e_marking]; by case_bool.
Qed.

Lemma fire_failed_game tid x : game_of (fire_failed cf tid x) = ((game_of x).1, land tid (game_of x).2).
Proof.
  unfold game_of. cbn [fst snd]. rewrite land_flights. unfold fire_failed. cbn zeta.
  cbn [set_engine set_flights x_engine inFlight markTransitionDirty set_dirty e_marking set_cache emit]. rewrite update_marking.
  by repeat case_match.
Qed.

Lemma land_fresh tid (l : list (nat * option name_id)) : tid ∉ l.*1 → land tid l = l.
Proof.
  unfold land. induction l as [|y l IH]; [done|]. rewrite fmap_cons, elem_of_cons, filter_cons. intros Hn.
  rewrite decide_True by naive_solver. by rewrite IH by naive_solver.
Qed.

Lemma fire_step_game x x' : exec_inv cf x → fire_step cf providerThrows x x' → rtc move (game_of x) (game_of x').
Proof.
  intros H Hstep. destruct Hstep as [tid tr Ht Hen Hin|]; [|done]. apply rtc_once.
  pose proof (xi_engine _ x H) as He. pose proof (chosen_name_binding isP pn cf Hc Hwf _ tid tr _ Ht He) as Ech.
  destruct (transition_wf_of isP pn cf Hc Hwf tid tr Ht) as [[Hd _] _].
  destruct (consume_all_spec tr tid (x_engine x) Hd) as (_ & _ & Hq & _). rewrite Ech in Hq.
  assert (tid ∉ (inFlight x).*1) as Hfresh.
  { intros Hk%(xi_flight _ _ _ H). by rewrite (fo_excl _ _ (ei_flags _ _ _ He) tid Hen) in Hk. }
  assert (tid ∉ (game_of x).2.*1) as Hfresh' by (by rewrite game_of_keys).
  unfold fireTransitionContained. rewrite Ht. unfold fireTransition. cbn zeta. rewrite Ech.
  destruct (providerThrows _ _).
  - rewrite fire_failed_game. change (game_of (set_unsettled false ?y)).2 with (game_of x).2. rewrite land_fresh by done.
    apply (game_misfire _ _ _ _ _ tid tr); [exact Ht|done|done|].
    intros n. cbn [game_of fst set_unsettled set_engine x_engine emit e_marking]. rewrite update_marking. apply Hq.
  - unfold game_of. cbn [set_unsettled set_flights set_engine x_engine inFlight]. rewrite map_set_new, fmap_app by done. cbn [fmap list_fmap fst snd fl_matchedName].
    apply (game_fire _ _ _ _ _ tid tr); [exact Ht|done|done|].
    intros n. cbn [disable set_enabledAt set_enabled set_inFlight emit e_marking]. rewrite update_marking. apply Hq.
Qed.

Lemma fire_steps_game x x' : rtc (fire_step cf providerThrows) x x' → exec_inv cf x → rtc move (game_of x) (game_of x').
Proof.
  induction 1 as [|x y z Hxy _ IH]; intros H; [done|]. etrans; [by apply fire_step_game|]. apply IH.
  by eapply fire_step_inv.
Qed.

(** ** The cycle *)

Lemma updateDirty_marking now e : e_marking (updateDirtyTransitions cf now e) = e_marking e.
Proof.
  unfold updateDirtyTransitions.
  assert (∀ bits w words e, e_marking (scan_words (rescan cf now bits) (transitionCount c) w words e) = e_marking e) as H.
  { intros bits w words. revert w. induction words as [|word words IH]; intros w e0; [done|]. cbn [scan_words]. rewrite IH.
    generalize 32 as fuel. intros fuel. revert word e0. induction fuel as [|fuel IHf]; intros word e0; [done|]. cbn [scan_word].
    case_bool; [done|]. case_bool; [done|]. rewrite IHf. unfold rescan. by repeat case_bool. }
  case_bool; cbn [set_restart e_marking]; by rewrite H.
Qed.

Lemma enforceDeadlines_marking now e : e_marking (enforceDeadlines cf now e) = e_marking e.
Proof.
  unfold enforceDeadlines. apply (foldl_inv (λ e', e_marking e' = e_marking e)); [|done].
  intros e' tid _ <-. unfold enforce_deadline. repeat case_match; done.
Qed.

Lemma scan_game now now' x :
  let x1 := on_engine (updateDirtyTransitions cf now) x in
  game_of (if hasAnyDeadlines cf then on_engine (enforceDeadlines cf now') x1 else x1) = game_of x.
Proof.
  cbn zeta. unfold game_of. case_bool; cbn [on_engine set_engine x_engine inFlight]; by rewrite ?enforceDeadlines_marking, updateDirty_marking.
Qed.

Lemma deposit_external tname p tok x : externalQueue (deposit cf tname p tok x) = externalQueue x.
Proof. unfold deposit. cbn zeta. destruct (tryPlaceId c p); [by case_bool|]. unfold warnUnknownPlace. by case_decide. Qed.

Lemma complete_flight_external x tid (t : transition V) fl : externalQueue (complete_flight cf t tid fl x) = externalQueue x.
Proof.
  unfold complete_flight. cbn zeta. case_bool; [done|]. destruct (validate t fl) as [claim|]; [|done].
  cbn [on_engine set_engine set_unsettled externalQueue]. unfold deposit_outputs. cbn zeta.
  set (x1 := match claim with Some _ => _ | None => _ end).
  assert (externalQueue x1 = externalQueue x) as E.
  { unfold x1. destruct claim; [|done]. case_bool_decide; [|done]. unfold warnMultiplicity. case_decide; [done|]. cbn zeta. by case_bool_decide. }
  apply (foldl_inv (λ y, externalQueue y = externalQueue x)); [|done]. intros y [p tok] _ <-. apply deposit_external.
Qed.

Lemma processCompleted_external x : externalQueue (processCompletedTransitions cf x) = externalQueue x.
Proof.
  unfold processCompletedTransitions. case_bool_decide as Hl; [done|]. clear Hl. cbn [set_completions externalQueue].
  generalize (completionQueue x). intros q. revert x. induction q as [|tid q IH]; intros x; [done|]. cbn [process_completions].
  destruct (map_get tid (inFlight x)) as [fl|]; [|apply IH]. destruct (c_transition c tid) as [t|]; [|apply IH]. cbn zeta.
  case_bool; [|rewrite IH]; apply complete_flight_external.
Qed.

Lemma processCompleted_env x : env_queue x → env_queue (processCompletedTransitions cf x).
Proof. intros H ev Hev. rewrite processCompleted_external in Hev. by apply H. Qed.

Lemma cycle_game now now' x : exec_inv cf x → env_queue x → rtc move (game_of x) (game_of (cycle cf providerThrows now now' x).1).
Proof.
  intros H He. unfold cycle. case_bool; [done|].
  pose proof (processCompleted_inv isP pn cf Hc Hwf Htargets providerThrows x H) as H1. pose proof (processCompleted_env x He) as He1.
  pose proof (processCompleted_game x) as G1. set (x1 := processCompletedTransitions cf x) in *. case_bool; [done|].
  pose proof (processExternal_inv isP pn cf Hc Hwf Htargets providerThrows x1 H1) as H2. pose proof (processExternal_game x1 He1) as G2.
  set (x2 := processExternalEvents cf x1) in *. case_bool; [by etrans|].
  destruct (scan_inv_exec isP pn cf Hc Hwf Htargets now now' x2 H2) as (H3 & _). pose proof (scan_game now now' x2) as G3. cbn zeta in *.
  assert (∀ y, y = game_of x2 → rtc move (game_of x) y) as Hto by (intros y ->; by etrans).
  case_bool; [by apply Hto|]. cbn [fst]. etrans; [by apply Hto, G3|]. apply fire_steps_game; [|done]. by eapply fireReady_steps.
Qed.

(** ** Host steps *)

Lemma process_external_sub q x ev : ev ∈ externalQueue (process_external cf q x) → ev ∈ externalQueue x.
Proof.
  revert x. induction q as [|ev' q IH]; intros x; [done|]. cbn [process_external]. cbn zeta.
  assert (∀ y, y ∈ tail (externalQueue (deposit cf [] (ev_place ev') (ev_token ev') x)) → y ∈ externalQueue x) as Ht.
  { intros y. rewrite deposit_external. destruct (externalQueue x); [done|]. by right. }
  case_bool; [apply Ht|]. intros H%IH. by apply Ht.
Qed.

Lemma processExternal_sub x ev : ev ∈ externalQueue (processExternalEvents cf x) → ev ∈ externalQueue x.
Proof. unfold processExternalEvents. case_bool_decide; [done|]. case_bool; [done|]. apply process_external_sub. Qed.

Lemma fireReady_external now x : externalQueue (fireReadyTransitions cf providerThrows now x) = externalQueue x.
Proof.
  assert (∀ tid x, externalQueue (fireTransitionContained cf providerThrows tid x) = externalQueue x) as Hf.
  { clear x. intros tid x. unfold fireTransitionContained. destruct (c_transition c tid); [|done].
    destruct (fireTransition _ _ _ _ _) as [e [fl|]]; done. }
  unfold fireReadyTransitions. case_bool.
  - unfold fireReadyImmediate. apply (foldl_inv (λ y, externalQueue y = externalQueue x)); [|done].
    intros y tid _ <-. unfold fire_immediate. cbn zeta. case_bool; [done|]. case_bool; [apply Hf|done].
  - unfold fireReadyGeneral. case_bool_decide; [done|].
    apply (foldl_inv (λ y : exec V * list Z, externalQueue y.1 = externalQueue x)); [|done].
    intros [y snap] s _ <-. cbn [fire_slot fst]. case_bool; cbn [fst]; [apply Hf|done].
Qed.

Lemma cycle_env now now' x : env_queue x → env_queue (cycle cf providerThrows now now' x).1.
Proof.
  intros H. pose proof (processCompleted_env x H) as H1. unfold cycle. case_bool; [done|]. case_bool; [done|].
  assert (env_queue (processExternalEvents cf (processCompletedTransitions cf x))) as H2.
  { intros ev Hev%processExternal_sub. by apply H1. }
  set (x2 := processExternalEvents cf (processCompletedTransitions cf x)) in *. case_bool; [done|]. cbn zeta.
  set (x3 := if hasAnyDeadlines cf then _ else _).
  assert (externalQueue x3 = externalQueue x2) as E by (unfold x3; by case_bool).
  case_bool; intros ev Hev; apply H2; [by rewrite <- E|]. cbn [fst] in Hev. rewrite fireReady_external in Hev. by rewrite <- E.
Qed.

Definition sys_env (s : sys (V := V)) : Prop := env_queue (s_exec s).

Lemma set_flight_game tid fl fl' x : map_get tid (inFlight x) = Some fl → fl_matchedName fl' = fl_matchedName fl →
  NoDup (inFlight x).*1 → game_of (set_flight tid fl' x) = game_of x.
Proof.
  intros Hg Hm Hd. unfold game_of, set_flight. cbn [set_flights x_engine inFlight]. f_equal. clear -Hg Hm.
  revert Hg. induction (inFlight x) as [|[k v] l IH]; [done|]. cbn [map_get map_set]. case_decide as E.
  - intros [= ->]. subst. rewrite !fmap_cons. cbn [fst snd]. by rewrite Hm.
  - intros Hg. rewrite !fmap_cons. by rewrite IH.
Qed.

Lemma wakeUp_frame (s : sys (V := V)) : game_of (s_exec (wakeUp s)) = game_of (s_exec s) ∧ externalQueue (s_exec (wakeUp s)) = externalQueue (s_exec s).
Proof. unfold wakeUp. destruct (s_point s) as [| | |w|w|]; try done; by destruct (w_wakeUp w). Qed.

Lemma settle_frame tid err (s : sys (V := V)) : NoDup (inFlight (s_exec s)).*1 →
  game_of (s_exec (settle tid err s)) = game_of (s_exec s) ∧ externalQueue (s_exec (settle tid err s)) = externalQueue (s_exec s).
Proof.
  intros Hd. unfold settle. cbn zeta. destruct (map_get tid (inFlight (s_exec s))) as [fl|] eqn:E; [|done].
  destruct (fl_settled fl); [done|]. set (fl' := Flight _ _ _ _ _).
  set (s1 := Sys (set_completions _ (set_flight tid fl' (s_exec s))) (s_point s)).
  destruct (wakeUp_frame s1) as [W1 W2].
  assert (game_of (s_exec s1) = game_of (s_exec s)) as Eg by (by apply (set_flight_game tid fl fl')).
  assert (∀ y, game_of y = game_of (s_exec (wakeUp s1)) → externalQueue y = externalQueue (s_exec (wakeUp s1)) →
    game_of y = game_of (s_exec s) ∧ externalQueue y = externalQueue (s_exec s)) as Hy by (intros y -> ->; by rewrite W1, W2, Eg).
  destruct (s_point (wakeUp s1)); try (by apply Hy). case_decide; by apply Hy.
Qed.

Lemma actionTimedOut_frame tid now (s : sys (V := V)) : NoDup (inFlight (s_exec s)).*1 →
  game_of (s_exec (actionTimedOut cf tid now s)) = game_of (s_exec s) ∧
  externalQueue (s_exec (actionTimedOut cf tid now s)) = externalQueue (s_exec s).
Proof.
  intros Hd. unfold actionTimedOut. cbn zeta. destruct (map_get tid (inFlight (s_exec s))) as [fl|] eqn:E; [|done].
  destruct (c_transition c tid) as [t|]; [|done]. destruct (actionTimeout t) as [[ms child]|]; [|done]. destruct (fl_settled fl); [done|].
  assert (∀ cx' p err f, (∀ y, game_of (f y) = game_of y ∧ externalQueue (f y) = externalQueue y ∧ inFlight (f y) = inFlight y) →
    let s1 := Sys (f (set_flight tid (with_context cx' fl) (s_exec s))) p in
    game_of (s_exec (settle tid err s1)) = game_of (s_exec s) ∧ externalQueue (s_exec (settle tid err s1)) = externalQueue (s_exec s)) as Hs.
  { intros cx' p err f Hf. cbn zeta. destruct (Hf (set_flight tid (with_context cx' fl) (s_exec s))) as (F1 & F2 & F3).
    destruct (settle_frame tid err (Sys (f (set_flight tid (with_context cx' fl) (s_exec s))) p)) as [-> ->].
    - cbn [s_exec]. rewrite F3. unfold set_flight. cbn [set_flights inFlight]. rewrite map_set_keys_in; [done|].
      apply map_get_elem in E. apply list_elem_of_fmap. by exists (tid, fl).
    - cbn [s_exec]. rewrite F1, F2. split; [|done]. by apply (set_flight_game tid fl). }
  destruct (produceTimeoutOutput _ _ _) as [cx'|]; [apply (Hs _ _ _ (on_engine (emit _)))|apply (Hs _ _ _ id)]; done.
Qed.

(** ** The refinement *)

Lemma sys_step_env s s' : sys_step cf providerThrows s s' → sys_inv cf s → sys_env s → sys_env s'.
Proof.
  intros Hstep Hi H. unfold sys_env, env_queue in *. destruct Hstep; cbn [s_exec] in *; try done.
  - pose proof (cycle_env scanMs cycleNowMs x H) as H'. destruct (cycle _ _ _ _ _) as [y []]; cbn [after_cycle s_exec fst finish set_host drainPendingExternalEvents set_external externalQueue] in *; try done.
    intros ev Hev. by apply not_elem_of_nil in Hev.
  - unfold park. cbn zeta. by repeat (case_bool; [done|]).
  - unfold inject in *. cbn zeta in *. case_bool_decide as Hp; [done|]. case_bool; simplify_eq; [done|].
    rewrite (proj2 (wakeUp_frame _)). cbn [s_exec set_external externalQueue]. intros ev [?|Hev%list_elem_of_singleton]%elem_of_app; [by apply H|by subst].
  - unfold drain. cbn zeta. by rewrite (proj2 (wakeUp_frame _)).
  - unfold close. cbn zeta. by rewrite (proj2 (wakeUp_frame _)).
  - unfold budgetExpired. cbn zeta. destruct b; [|done]. unfold close. cbn zeta. by rewrite (proj2 (wakeUp_frame _)).
  - rewrite (proj2 (settle_frame tid err s (xi_keys _ _ _ Hi))). done.
  - rewrite (proj2 (actionTimedOut_frame tid now s (xi_keys _ _ _ Hi))). done.
  - unfold actionCall. cbn zeta. by destruct (map_get _ _).
Qed.

Lemma sys_step_game s s' : sys_step cf providerThrows s s' → sys_inv cf s → sys_env s →
  rtc move (game_of (s_exec s)) (game_of (s_exec s')).
Proof.
  intros Hstep Hi H. assert (∀ y, game_of y = game_of (s_exec s) → rtc move (game_of (s_exec s)) (game_of y)) as Hsame by (by intros y ->).
  destruct Hstep; cbn [s_exec] in *; try done.
  - pose proof (cycle_game scanMs cycleNowMs x Hi H) as H'. destruct (cycle _ _ _ _ _) as [y []]; done.
  - unfold park. cbn zeta. by repeat (case_bool; [done|]).
  - unfold inject in *. cbn zeta in *. case_bool_decide; [done|]. case_bool; simplify_eq; apply Hsame; [done|]. by rewrite (proj1 (wakeUp_frame _)).
  - apply Hsame. unfold drain. cbn zeta. by rewrite (proj1 (wakeUp_frame _)).
  - apply Hsame. unfold close. cbn zeta. by rewrite (proj1 (wakeUp_frame _)).
  - apply Hsame. unfold budgetExpired. cbn zeta. destruct b; [|done]. unfold close. cbn zeta. by rewrite (proj1 (wakeUp_frame _)).
  - apply Hsame. by rewrite (proj1 (settle_frame tid err s (xi_keys _ _ _ Hi))).
  - apply Hsame. by rewrite (proj1 (actionTimedOut_frame tid now s (xi_keys _ _ _ Hi))).
  - apply Hsame. unfold actionCall. cbn zeta. destruct (map_get _ _) as [fl|] eqn:E; [|done].
    apply (set_flight_game tid fl); [done|done|apply (xi_keys _ _ _ Hi)].
Qed.

Lemma reachable_game x0 s : exec_inv cf (start cf x0) → env_queue (start cf x0) → reachable cf providerThrows x0 s →
  rtc move (game_of (start cf x0)) (game_of (s_exec s)).
Proof.
  intros Hi He Hr. assert (∀ a b, rtc (sys_step cf providerThrows) a b → sys_inv cf a → sys_env a → rtc move (game_of (s_exec a)) (game_of (s_exec b))) as H.
  { induction 1 as [|a b d Hab _ IH]; intros H1 H2; [done|]. etrans; [by apply sys_step_game|]. apply IH.
    - by eapply sys_step_inv.
    - by eapply sys_step_env. }
  by apply (H _ _ Hr).
Qed.
End Refine.
