(* ===== verification/ExecContract.v ===== *)
(** * The contract of a run

    A deployed executor: its net's transitions were made by the transition builder, the constructor
    accepted the net and the initial tokens. Every state such an executor reaches is coherent, its
    dirty scan computes enablement, and its steps are moves of the token game. *)
From S2P Require Import Prelude.
From S2P Require Import Net.
From S2P Require Import Out.
From S2P Require Import Transition.
From S2P Require Import Marking.
From S2P Require Import MatchEngine.
From S2P Require Import PetriNet.
From S2P Require Import Bitmap.
From S2P Require Import CompiledNet.
From S2P Require Import OutputCheck.
From S2P Require Import Context.
From S2P Require Import Executor.
From S2P Require Import ExecFire.
From S2P Require Import ExecLoop.
From S2P Require Import ExecInv.
From S2P Require Import ExecCache.
From S2P Require Import ExecCoherent.
From S2P Require Import ExecFiring.
From S2P Require Import ExecRun.
From S2P Require Import ExecInit.
From S2P Require Import ExecGame.

(** ** Deployed executors *)

Section Deployed.
Context {V : Type}.

(** The transition came out of [build()], with a match specification that correlates something. *)
Definition made (t : transition V) : Prop :=
  ∃ b, build b = Ok t ∧ ∀ ms, b_match b = Some ms → ms_keys ms ≠ [].

Lemma made_wf t : made t → transition_wf t.
Proof.
  intros (b & Hb & Hk). unfold build in Hb. apply res_seq_ok in Hb as [H1 Hb]. apply res_seq_ok in Hb as [_ Hb].
  apply res_seq_ok in Hb as [_ Hb]. apply res_seq_ok in Hb as [H4 Hb]. injection Hb as <-.
  apply check_inputs_ok in H1 as [H1 _]. split; [exact H1|]. cbn [t_matchSpec inputSpecs]. intros ms E. rewrite E in H4.
  apply check_match_ok in H4 as (M1 & M2 & _). auto.
Qed.

Record deployed (isP : nat → bool) (rnd : jsstr) (base : nat) (pn : petri_net V)
    (initialTokens : list (place * list (token V))) (o : options (V := V)) (cf : config V) (x : exec V) : Prop := {
  dp_made : ∀ t, t ∈ net_transitions pn → made t;
  dp_construct : construct isP rnd base pn initialTokens o = Ok (cf, x);
  dp_safe : seed_safe base initialTokens o
}.

Context {isP : nat → bool} {rnd : jsstr} {base : nat} {pn : petri_net V} {initialTokens : list (place * list (token V))}
  {o : options (V := V)} {cf : config V} {x0 : exec V}.
Hypothesis Hd : deployed isP rnd base pn initialTokens o cf x0.

Lemma deployed_wf tid t : net_transitions pn !! tid = Some t → transition_wf t.
Proof. intros Ht. apply made_wf, (dp_made _ _ _ _ _ _ _ _ Hd). by eapply list_elem_of_lookup_2. Qed.

Lemma deployed_compiled : compile isP pn = Ok (cf_compiled cf).
Proof. by destruct (construct_spec isP pn rnd base initialTokens o cf x0 (dp_construct _ _ _ _ _ _ _ _ Hd)) as [? _]. Qed.

Lemma deployed_start : placeMatchTargets cf = matchTargets (cf_compiled cf) <$> seq 0 (placeCount (cf_compiled cf)) ∧ exec_inv cf (start cf x0).
Proof. apply (start_inv isP pn deployed_wf rnd base initialTokens o cf x0 (dp_construct _ _ _ _ _ _ _ _ Hd) (dp_safe _ _ _ _ _ _ _ _ Hd)). Qed.

Lemma deployed_inv providerThrows s : reachable cf providerThrows x0 s → exec_inv cf (s_exec s).
Proof.
  destruct deployed_start as [Ht Hi]. by apply (reachable_inv isP pn cf deployed_compiled deployed_wf Ht providerThrows x0 s).
Qed.

Lemma deployed_fresh : fresh_exec cf (from (seed_of base initialTokens o)) x0.
Proof. by destruct (construct_spec isP pn rnd base initialTokens o cf x0 (dp_construct _ _ _ _ _ _ _ _ Hd)) as (_ & _ & ?). Qed.

(** [start] adds neither tokens nor flights. *)
Lemma start_game : game_of (start cf x0) = (from (seed_of base initialTokens o), []).
Proof.
  destruct deployed_fresh as ((log & E) & E1 & _). unfold start. cbn zeta. set (x := on_engine _ _).
  assert (game_of x = (from (seed_of base initialTokens o), [])) as Hx.
  { unfold game_of, x. cbn [on_engine set_engine set_host x_engine inFlight]. rewrite E, E1.
    destruct (initial_bitmap isP pn cf (make_engine (cf_compiled cf) (from (seed_of base initialTokens o)) log) deployed_compiled eq_refl)
      as (bits & -> & _). done. }
  case_bool; [|done]. unfold checkInitialTerminals. by case_bool.
Qed.

Lemma start_env : env_queue cf (start cf x0).
Proof.
  destruct deployed_fresh as (_ & _ & _ & E & _).
  unfold env_queue. assert (externalQueue (start cf x0) = []) as ->.
  { unfold start. cbn zeta. case_bool; [|done]. unfold checkInitialTerminals. by case_bool. }
  intros ev Hev. by apply not_elem_of_nil in Hev.
Qed.
End Deployed.

(** ** A sample net: a join on two name-keyed places, then a shipping step that may not run late *)

Definition left_p : place := Place 0 (js "left").
Definition right_p : place := Place 1 (js "right").
Definition pair_p : place := Place 2 (js "pair").
Definition done_p : place := Place 3 (js "done").
Definition hold_p : place := Place 4 (js "hold").
Definition order_p : place := Place 5 (js "order").

Definition join_b : builder jsstr :=
  with_match [MatchKey left_p (λ v, v); MatchKey right_p (λ v, v)] None
    (with_outputs (OutPlace pair_p)
      (with_inputs [InOne left_p; InExactly right_p 2] (builder_new (js "join")))).
Definition ship_b : builder jsstr :=
  with_inhibitors [hold_p] (with_priority 5 (with_timing (TimingWindow 10 50)
    (with_outputs (OutPlace done_p) (with_inputs [InOne pair_p] (builder_new (js "ship")))))).
Definition accept_b : builder jsstr :=
  with_outputs (OutAnd [OutPlace left_p; OutPlace right_p])
    (with_inputs [InAll order_p] (builder_new (js "accept"))).

Definition built_or (b : builder jsstr) : transition jsstr :=
  match build b with Ok t => t | Err _ => Transition [] [] None [] [] [] immediate None 0 [] None end.
Definition sample_net : petri_net jsstr :=
  match net_build (foldl (λ b c, nb_run c b) (net_builder_new (js "sample"))
          [CallTransition 0 (built_or join_b); CallTransition 1 (built_or ship_b); CallTransition 2 (built_or accept_b); CallTerminal done_p]) with
  | Ok n => n | Err _ => PetriNet [] [] [] [] end.

Definition sample_tokens : list (place * list (token jsstr)) :=
  [(left_p, [Token (Some (js "x")) 1; Token (Some (js "y")) 2]);
   (right_p, [Token (Some (js "y")) 3; Token None 4; Token (Some (js "y")) 6])].
Definition sample_options : options (V := jsstr) := Options [order_p] None None (Some (js "s")).

Definition sample : config jsstr * exec jsstr :=
  match construct (λ _, false) (js "r") 100 sample_net sample_tokens sample_options with
  | Ok r => r
  | Err _ => (Config (Compiled [] [] [] 0 [] [] [] [] [] [] None) [] [] [] [] false false false 0 [] [],
              Exec (Engine (from []) [] [] [] [] [] 0 [] false [] []) [] [] [] [] [] [] 0 false false false false false false Running)
  end.

Lemma sample_deployed : deployed (λ _, false) (js "r") 100 sample_net sample_tokens sample_options sample.1 sample.2.
Proof.
  constructor.
  - intros t Ht. assert (net_transitions sample_net = [built_or join_b; built_or ship_b; built_or accept_b]) as E by (by vm_compute).
    rewrite E, !elem_of_cons, elem_of_nil in Ht. destruct Ht as [->|[->|[->|[]]]].
    + exists join_b. split; [by vm_compute|]. by intros ms [= <-].
    + exists ship_b. split; [by vm_compute|done].
    + exists accept_b. split; [by vm_compute|done].
  - by vm_compute.
  - intros s tok Hs Htok. unfold seed_of in Hs. cbn [o_restore sample_options] in Hs. unfold sample_tokens in Hs.
    rewrite !elem_of_cons, elem_of_nil in Hs. destruct Hs as [->|[->|[]]]; cbn [snd] in Htok;
      rewrite !elem_of_cons, elem_of_nil in Htok; unfold safe_token; destruct_or!; subst; try done; vm_compute; discriminate.
Qed.

Definition sample_start : sys (V := jsstr) := Sys (start sample.1 sample.2) AtCycle.

(** The executor of the sample after its first cycle, the join in flight. *)
Definition sample_fired : sys (V := jsstr) := after_cycle (cycle sample.1 (λ _ _, false) 20 20 (start sample.1 sample.2)).

Lemma sample_reachable : reachable sample.1 (λ _ _, false) sample.2 sample_fired.
Proof. apply rtc_once, step_cycle. Qed.

(** ** Properties *)

(** C1: every state a run reaches is coherent. The presence bitmap is the set of marked places; the
    enabled counter counts the enabled flags; the in-flight table and the in-flight flags name the
    same transitions, and none of them is flagged enabled; a transition outside the dirty set is
    flagged enabled only when the marking enables it, and is flagged when the marking enables it
    unless it is in flight or carries a deadline that may have reaped it; and every live match
    cache answers the name the join's reference search finds in the marking. *)
Theorem run_coherent {V} isP rnd base (pn : petri_net V) initialTokens o cf x0 providerThrows s :
  deployed isP rnd base pn initialTokens o cf x0 → reachable cf providerThrows x0 s →
  let x := s_exec s in
  let e := x_engine x in
  let c := cf_compiled cf in
  (∀ pid p, c_place c pid = Some p → bit_of (markingBitmap e) pid = true ↔ queue (e_marking e) (place_name p) ≠ []) ∧
  enabledTransitionCount e = count_true (enabledFlags e) ∧
  NoDup (inFlight x).*1 ∧
  (∀ tid, tid ∈ (inFlight x).*1 ↔ flag (inFlightFlags e) tid = true) ∧
  (∀ tid, flag (enabledFlags e) tid = true → flag (inFlightFlags e) tid = false) ∧
  (∀ tid tr, c_transition c tid = Some tr → bit_of (dirtySet e) tid = false →
     (flag (enabledFlags e) tid = true → enabled_in tr (e_marking e)) ∧
     (enabled_in tr (e_marking e) → flag (inFlightFlags e) tid = false → ¬ reapable cf tid → flag (enabledFlags e) tid = true)) ∧
  (∀ tid tr cache, c_transition c tid = Some tr → matchCaches e !! tid = Some (Some cache) →
     best cache = findBinding tr (λ p, peekTokens p (e_marking e))).
Proof.
  intros Hd Hr. pose proof (deployed_inv Hd providerThrows s Hr) as Hx. pose proof (deployed_compiled Hd) as Hc.
  pose proof (deployed_wf Hd) as Hwf. pose proof (xi_engine _ _ Hx) as He. cbn zeta.
  pose proof (ei_flags _ _ _ He) as Hf. split_and!.
  - intros pid p Hp. pose proof (place_pid isP pn cf Hc pid p Hp) as Hpid.
    by rewrite (bitmap_place isP pn cf Hc _ _ p pid (ei_bitmap _ _ _ He) Hpid).
  - apply (fo_count _ _ Hf).
  - apply (xi_keys _ _ _ Hx).
  - apply (xi_flight _ _ _ Hx).
  - apply (fo_excl _ _ Hf).
  - intros tid tr Ht Hn. assert (¬ dirty_of (x_engine (s_exec s)) tid) as Hnd by (unfold dirty_of; congruence). split.
    + by apply (ei_sound _ _ _ He tid tr).
    + intros. by apply (ei_complete _ _ _ He tid tr).
  - intros tid tr cache Ht Hl. by apply (engine_inv_caches isP pn cf Hc Hwf _ _ He tid tr cache).
Qed.

Lemma run_coherent_witness :
  (inFlight (s_exec sample_fired)).*1 = [0] ∧
  enabledTransitionCount (x_engine (s_exec sample_fired)) = count_true (enabledFlags (x_engine (s_exec sample_fired))).
Proof.
  split; [by vm_compute|].
  apply (run_coherent (λ _, false) (js "r") 100 sample_net sample_tokens sample_options sample.1 sample.2 (λ _ _, false) sample_fired).
  - exact sample_deployed.
  - exact sample_reachable.
Defined.

(** C4: the dirty scan is a full rescan: though it visits the dirty transitions only, after it, in
    every state of a run, a transition is flagged enabled exactly when it is not in flight and the
    marking enables it; for a transition with a deadline that may have been reaped the flag still
    implies both. The scan leaves the marking alone and the dirty set empty. *)
Theorem dirty_scan_exact {V} isP rnd base (pn : petri_net V) initialTokens o cf x0 providerThrows s now :
  deployed isP rnd base pn initialTokens o cf x0 → reachable cf providerThrows x0 s →
  let e := x_engine (s_exec s) in
  let e' := updateDirtyTransitions cf now e in
  e_marking e' = e_marking e ∧ inFlightFlags e' = inFlightFlags e ∧ hasDirtyBits e' = false ∧
  ∀ tid tr, c_transition (cf_compiled cf) tid = Some tr →
    (flag (enabledFlags e') tid = true → flag (inFlightFlags e) tid = false ∧ enabled_in tr (e_marking e)) ∧
    (¬ reapable cf tid → flag (inFlightFlags e) tid = false → enabled_in tr (e_marking e) → flag (enabledFlags e') tid = true).
Proof.
  intros Hd Hr. pose proof (deployed_inv Hd providerThrows s Hr) as Hx. destruct (deployed_start Hd) as [Htg _].
  pose proof (deployed_compiled Hd) as Hc. pose proof (deployed_wf Hd) as Hwf.
  pose proof (updateDirty_inv isP pn cf Hc Hwf Htg now _ (xi_engine _ _ Hx)) as H. cbn zeta.
  pose proof (updateDirty_marking cf now (x_engine (s_exec s))) as Em.
  pose proof (updateDirty_flight cf now (x_engine (s_exec s))) as Ef. split_and!; [done|done| |].
  - apply updateDirty_clears.
  - intros tid tr Ht. rewrite <- Em, <- Ef. split.
    + intros Hen. split; [by apply (fo_excl _ _ (ei_flags _ _ _ H))|]. apply (ei_sound _ _ _ H tid tr Ht); [by intros []|done].
    + intros Hna Hfl Hen. apply (ei_complete _ _ _ H tid tr Ht); auto.
Qed.

Lemma dirty_scan_exact_witness :
  let e := x_engine (s_exec sample_start) in
  hasDirtyBits e = true ∧ hasDirtyBits (updateDirtyTransitions sample.1 7 e) = false.
Proof.
  cbn zeta. split; [by vm_compute|].
  destruct (dirty_scan_exact (λ _, false) (js "r") 100 sample_net sample_tokens sample_options sample.1 sample.2 (λ _ _, false)
              sample_start 7 sample_deployed (rtc_refl _ _)) as (_ & _ & H & _).
  exact H.
Defined.

(** C2: a run plays the token game. It starts from the seeded marking with nothing in flight, and
    every step of the executor or its host, in every state a run reaches, is a sequence of moves of
    the game: firings of enabled transitions that take the tokens their inputs ask for and empty
    their reset places, completions that deposit an output the transition's specification accepts,
    failures that deposit nothing, and arrivals on environment places. *)
Theorem run_plays_token_game {V} isP rnd base (pn : petri_net V) initialTokens o cf x0 providerThrows s s' :
  deployed isP rnd base pn initialTokens o cf x0 →
  reachable cf providerThrows x0 s → sys_step cf providerThrows s s' →
  game_of (start cf x0) = (from (seed_of base initialTokens o), []) ∧
  rtc (game_step (net_transitions pn) (environmentPlaces cf)) (game_of (s_exec s)) (game_of (s_exec s')).
Proof.
  intros Hd Hr Hstep. split; [apply (start_game Hd)|]. destruct (deployed_start Hd) as [Htg Hi].
  pose proof (deployed_compiled Hd) as Hc. pose proof (deployed_wf Hd) as Hwf.
  rewrite <- (c_transitions_net isP pn cf Hc).
  apply (sys_step_game isP pn cf Hc Hwf Htg providerThrows); [done|by apply (deployed_inv Hd providerThrows)|].
  assert (∀ a b, rtc (sys_step cf providerThrows) a b → sys_inv cf a → sys_env cf a → sys_env cf b) as H.
  { induction 1 as [|a b d Hab _ IH]; intros H1 H2; [done|]. apply IH.
    - by apply (sys_step_inv isP pn cf Hc Hwf Htg providerThrows a b).
    - by apply (sys_step_env cf providerThrows a b). }
  apply (H _ _ Hr); [done|]. apply (start_env Hd).
Qed.

Lemma run_plays_token_game_witness :
  game_of (start sample.1 sample.2) = (from sample_tokens, []) ∧
  rtc (game_step (net_transitions sample_net) (environmentPlaces sample.1))
    (game_of (s_exec sample_start)) (game_of (s_exec sample_fired)).
Proof.
  exact (run_plays_token_game (λ _, false) (js "r") 100 sample_net sample_tokens sample_options sample.1 sample.2 (λ _ _, false)
           sample_start sample_fired sample_deployed (rtc_refl _ _) (step_cycle _ _ _ 20 20)).
Defined.
