(* ===== verification/ExecOrder.v ===== *)
(** * Scheduling: who fires, in what order, and when

    The sort of the ready transitions, the time window a fired transition is in, the deadline pass
    and the timer of the wait. *)
From S2P Require Import Prelude.
From S2P Require Import Net.
From S2P Require Import Transition.
From S2P Require Import Marking.
From S2P Require Import MatchEngine.
From S2P Require Import PetriNet.
From S2P Require Import Bitmap.
From S2P Require Import CompiledNet.
From S2P Require Import Context.
From S2P Require Import Executor.
From S2P Require Import ExecFire.
From S2P Require Import ExecLoop.
From S2P Require Import ExecInv.
From S2P Require Import ExecCache.
From S2P Require Import ExecCoherent.
From S2P Require Import ExecFiring.
From S2P Require Import ExecRun.
From S2P Require Import ExecInit.
From S2P Require Import ExecGame.
From S2P Require Import ExecContract.

(** ** The order of the slots *)

Lemma stamp_le_total a b : stamp_le a b = true ∨ stamp_le b a = true.
Proof. destruct a as [x|], b as [y|]; simpl; auto. destruct (Z.le_ge_cases x y); [left|right]; apply Z.leb_le; lia. Qed.

Lemma stamp_le_trans a b d : stamp_le a b = true → stamp_le b d = true → stamp_le a d = true.
Proof. destruct a, b, d; simpl; try done. rewrite !Z.leb_le. lia. Qed.

Lemma slot_le_spec a b : slot_le a b = true ↔
  (rs_priority b < rs_priority a)%Z ∨ (rs_priority b = rs_priority a ∧ stamp_le (rs_enabledAt a) (rs_enabledAt b) = true).
Proof. unfold slot_le. destruct (rs_priority b - rs_priority a =? 0)%Z eqn:E; b2p; rewrite ?Z.ltb_lt; intuition lia. Qed.

Lemma slot_le_total a b : slot_le a b = true ∨ slot_le b a = true.
Proof. rewrite !slot_le_spec. destruct (stamp_le_total (rs_enabledAt a) (rs_enabledAt b)); destruct (Z.lt_trichotomy (rs_priority a) (rs_priority b)) as [?|[?|?]]; auto. Qed.

Lemma slot_le_trans a b d : slot_le a b = true → slot_le b d = true → slot_le a d = true.
Proof. rewrite !slot_le_spec. intros [?|[? ?]] [?|[? ?]]; [left; lia..|right]. split; [lia|by eapply stamp_le_trans]. Qed.

(** Fires before: a higher priority, then an earlier stamp, then a lower identifier. *)
Definition fires_before (a b : ready_slot) : Prop :=
  (rs_priority b < rs_priority a)%Z ∨
  rs_priority b = rs_priority a ∧ stamp_le (rs_enabledAt a) (rs_enabledAt b) = true ∧
    (stamp_le (rs_enabledAt b) (rs_enabledAt a) = true → rs_tid a < rs_tid b).

Lemma in_order_fires_before a b : in_order slot_le (λ a b, rs_tid a < rs_tid b) a b → fires_before a b.
Proof.
  intros [H1 H2]. apply slot_le_spec in H1 as [H1|[H1 H3]]; [by left|]. right. split_and!; [done|done|].
  intros H4. apply H2, slot_le_spec. right. by split.
Qed.

Lemma strongly_sorted_weaken {A} (R S : A → A → Prop) l : (∀ a b, R a b → S a b) → StronglySorted R l → StronglySorted S l.
Proof. intros H. induction 1 as [|a l _ IH Ha]; constructor; [done|]. eapply Forall_impl; [exact Ha|]. auto. Qed.

Section Order.
Context {V : Type}.
Implicit Types (x : exec V) (e : engine V) (tr : transition V) (cf : config V).

Lemma ready_ascending cf now e o n : StronglySorted (λ a b, rs_tid a < rs_tid b) (omap (is_ready cf now e) (seq o n)).
Proof.
  revert o. induction n as [|n IH]; intros o; [constructor|]. cbn [seq omap list_omap].
  destruct (is_ready cf now e o) as [s|] eqn:E; [|apply IH]. constructor; [apply IH|].
  apply Forall_forall. intros s' Hs'. apply list_elem_of_omap in Hs' as (tid & Ht%elem_of_seq & E').
  apply is_ready_Some in E as [-> _], E' as [-> _]. lia.
Qed.

Lemma sorted_ready cf now e :
  StronglySorted fires_before (stable_sort slot_le (omap (is_ready cf now e) (seq 0 (transitionCount (cf_compiled cf))))).
Proof.
  eapply strongly_sorted_weaken; [|apply stable_sort_sorted; [apply slot_le_total|apply slot_le_trans|apply ready_ascending]].
  intros a b. apply in_order_fires_before.
Qed.

(** A ready slot: an enabled transition, not in flight, whose clock has reached its lower bound. *)
Lemma is_ready_spec cf now e tid s : is_ready cf now e tid = Some s ↔
  ∃ tr, c_transition (cf_compiled cf) tid = Some tr ∧ flag (enabledFlags e) tid = true ∧ flag (inFlightFlags e) tid = false ∧
    jnum_ltb (elapsed now tid e) (Fin (earliest (t_timing tr))) = false ∧
    s = ReadySlot tid (priority tr) (default None (enabledAtMs e !! tid)).
Proof.
  unfold is_ready. destruct (flag (enabledFlags e) tid), (flag (inFlightFlags e) tid); cbn [negb orb]; try (split; [done|naive_solver]).
  destruct (c_transition (cf_compiled cf) tid) as [tr|]; [|split; [done|naive_solver]].
  destruct (jnum_ltb (elapsed now tid e) (Fin (earliest (t_timing tr)))) eqn:E; split.
  - done.
  - intros (tr' & [= <-] & _ & _ & E' & _). congruence.
  - intros [= <-]. eauto 10.
  - by intros (tr' & [= <-] & _ & _ & _ & ->).
Qed.
End Order.

(** ** A pass over the slots *)

Section Turns.
Context {V : Type} (ts : list (transition V)) (providerThrows : jsstr → list (token V) → bool).
Implicit Types (m : marking V) (t : transition V).

(** What a firing takes: its inputs, then what is left on its reset places. *)
Definition consumes t m (toks : list (token V)) : Prop :=
  let chosen := findBinding t (λ p, peekTokens p m) in
  ∃ m', (∀ n, queue m' n = left_after t chosen m n) ∧
    toks = taken_by t chosen m (inputSpecs t) ++ reset_taken [] m' (resets t).

(** The turns of a pass over the transitions of [order], from one marking to another, with those
    that start: each fires exactly if it is still enabled when its turn comes, the tokens of the
    turns before it taken; a firing whose provider throws takes its tokens and does not start. *)
Inductive turns : list nat → marking V → list nat → marking V → Prop :=
| turns_done m : turns [] m [] m
| turn_skip tid t order m fired m' :
    ts !! tid = Some t → ¬ enabled_in t m → turns order m fired m' → turns (tid :: order) m fired m'
| turn_fire tid t order m toks m1 fired m' :
    ts !! tid = Some t → enabled_in t m → consumes t m toks → providerThrows (t_name t) toks = false →
    (∀ n, queue m1 n = marking_after t (findBinding t (λ p, peekTokens p m)) m n) →
    turns order m1 fired m' → turns (tid :: order) m (tid :: fired) m'
| turn_misfire tid t order m toks m1 fired m' :
    ts !! tid = Some t → enabled_in t m → consumes t m toks → providerThrows (t_name t) toks = true →
    (∀ n, queue m1 n = marking_after t (findBinding t (λ p, peekTokens p m)) m n) →
    turns order m1 fired m' → turns (tid :: order) m fired m'.
End Turns.

Section Pass.
Context {V : Type} (isP : nat → bool) (pn : petri_net V) (cf : config V).
Hypothesis Hc : compile isP pn = Ok (cf_compiled cf).
Hypothesis Hwf : ∀ tid t, net_transitions pn !! tid = Some t → transition_wf t.
Hypothesis Htargets : placeMatchTargets cf = matchTargets (cf_compiled cf) <$> seq 0 (placeCount (cf_compiled cf)).
Variable providerThrows : jsstr → list (token V) → bool.
Abbreviation c := (cf_compiled cf).
Abbreviation tc := (transitionCount (cf_compiled cf)).
Implicit Types (x : exec V) (e : engine V) (tr : transition V).

(** A firing joins the end of the in-flight table, unless the provider throws. *)
Lemma contained_keys x tid tr : exec_inv cf x → c_transition c tid = Some tr → flag (enabledFlags (x_engine x)) tid = true →
  (inFlight (fireTransitionContained cf providerThrows tid x)).*1 =
  (inFlight x).*1 ++ (if providerThrows (t_name tr) (f_consumed (consume_all tr tid (x_engine x))) then [] else [tid]).
Proof.
  intros H Ht Hen. assert (tid ∉ (inFlight x).*1) as Hfresh.
  { intros Hk%(xi_flight _ _ _ H). by rewrite (fo_excl _ _ (ei_flags _ _ _ (xi_engine _ _ H)) tid Hen) in Hk. }
  unfold fireTransitionContained. rewrite Ht. unfold fireTransition. cbn zeta. destruct (providerThrows _ _).
  - rewrite app_nil_r. rewrite <- (game_of_keys (fire_failed _ _ _)), fire_failed_game. cbn [snd]. rewrite land_fresh; rewrite game_of_keys; done.
  - cbn [set_unsettled set_flights inFlight]. by rewrite map_set_new, fmap_app.
Qed.

(** A firing, whether the provider throws or not, takes its tokens. *)
Lemma contained_fires x tid tr : c_transition c tid = Some tr → exec_inv cf x →
  let m := e_marking (x_engine x) in
  let chosen := findBinding tr (λ p, peekTokens p m) in
  (∀ n, queue (e_marking (x_engine (fireTransitionContained cf providerThrows tid x))) n = marking_after tr chosen m n) ∧
  ∃ toks, consumes tr m toks ∧ f_consumed (consume_all tr tid (x_engine x)) = toks.
Proof.
  intros Ht H. pose proof (xi_engine _ x H) as He. cbn zeta. destruct (transition_wf_of isP pn cf Hc Hwf tid tr Ht) as [[Hd _] _].
  destruct (consume_all_spec tr tid (x_engine x) Hd) as (_ & _ & Hq & m' & Hm' & Ek).
  rewrite (chosen_name_binding isP pn cf Hc Hwf _ tid tr _ Ht He) in Hq, Hm', Ek. split.
  - unfold fireTransitionContained. rewrite Ht. unfold fireTransition. cbn zeta. destruct (providerThrows _ _).
    + match goal with |- ∀ n, queue (e_marking (x_engine (fire_failed cf tid ?y))) n = _ =>
        change (e_marking (x_engine (fire_failed cf tid y))) with (game_of (fire_failed cf tid y)).1 end.
      rewrite fire_failed_game. cbn [fst game_of set_unsettled set_engine x_engine emit e_marking]. by rewrite update_marking.
    + cbn [set_unsettled set_flights set_engine x_engine disable set_enabledAt set_enabled set_inFlight emit e_marking].
      by rewrite update_marking.
  - exists (f_consumed (consume_all tr tid (x_engine x))). split; [|done]. by exists m'.
Qed.

(** One slot: fired or dropped. *)
Lemma fire_slot_keys x s tr : exec_inv cf x → c_transition c (rs_tid s) = Some tr → flag (enabledFlags (x_engine x)) (rs_tid s) = true →
  let r := fire_slot cf providerThrows (x, markingBitmap (x_engine x)) s in
  r.2 = markingBitmap (x_engine r.1) ∧ exec_inv cf r.1 ∧
  (∀ tid, tid ≠ rs_tid s → flag (enabledFlags (x_engine r.1)) tid = flag (enabledFlags (x_engine x)) tid) ∧
  ((inFlight r.1).*1 = (inFlight x).*1 ∨ (inFlight r.1).*1 = (inFlight x).*1 ++ [rs_tid s]) ∧
  (enabled_in tr (e_marking (x_engine x)) → (∀ n toks, providerThrows n toks = false) →
   (inFlight r.1).*1 = (inFlight x).*1 ++ [rs_tid s]).
Proof.
  intros H Ht Hen. cbn zeta. cbn [fire_slot]. rewrite Hen. cbn [andb].
  pose proof (canEnable_inv isP pn cf Hc Hwf _ _ tr _ Ht (xi_engine _ x H)) as Hcan.
  destruct (canEnable cf (rs_tid s) (markingBitmap (x_engine x)) (x_engine x)); cbn [fst snd].
  - destruct (fireContained_inv isP pn cf Hc Hwf providerThrows x (rs_tid s) tr H Ht Hen) as [H1 H2]; [by apply Hcan|].
    pose proof (contained_keys x (rs_tid s) tr H Ht Hen) as Hk. split_and!; [done|done|done| |].
    + rewrite Hk. case_bool; [left; apply app_nil_r|by right].
    + intros _ Hp. by rewrite Hk, Hp.
  - assert (¬ enabled_in tr (e_marking (x_engine x))) as Hnot by (intros Hi%Hcan; done). split_and!; [done| | |by left|done].
    + by apply (disable_exec cf x (rs_tid s) tr).
    + intros tid Hne. cbn [on_engine set_engine x_engine disable set_enabledAt set_enabled enabledFlags].
      rewrite flag_insert, decide_False; [done|]. by intros [? _].
Qed.

(** One transition of the order has its turn: a firing or a drop. *)
Lemma turn_step x tid tr : exec_inv cf x → c_transition c tid = Some tr → flag (enabledFlags (x_engine x)) tid = true →
  let x' := if canEnable cf tid (markingBitmap (x_engine x)) (x_engine x)
            then fireTransitionContained cf providerThrows tid x else on_engine (disable tid) x in
  exec_inv cf x' ∧
  (∀ o, o ≠ tid → flag (enabledFlags (x_engine x')) o = flag (enabledFlags (x_engine x)) o) ∧
  ∃ now_fired, (∀ o, o ∈ now_fired → o = tid) ∧ (inFlight x').*1 = (inFlight x).*1 ++ now_fired ∧
    ∀ l fired m', turns (c_transitions c) providerThrows l (e_marking (x_engine x')) fired m' →
                  turns (c_transitions c) providerThrows (tid :: l) (e_marking (x_engine x)) (now_fired ++ fired) m'.
Proof.
  intros H Ht Hen. cbn zeta. pose proof (xi_engine _ x H) as He.
  pose proof (canEnable_inv isP pn cf Hc Hwf _ _ tr _ Ht He) as Hcan.
  destruct (canEnable cf tid (markingBitmap (x_engine x)) (x_engine x)).
  - assert (enabled_in tr (e_marking (x_engine x))) as Hin by (by apply Hcan).
    destruct (fireContained_inv isP pn cf Hc Hwf providerThrows x tid tr H Ht Hen Hin) as [H1 H2]. split_and!; [done|done|].
    destruct (contained_fires x tid tr Ht H) as (Hq & toks & Htoks & Ek). eexists. split_and!; [|apply (contained_keys x tid tr H Ht Hen)|].
    + rewrite Ek. case_bool; [by intros o Ho%not_elem_of_nil|by intros o Ho%list_elem_of_singleton].
    + rewrite Ek. intros l fired m' Hl. destruct (providerThrows (t_name tr) toks) eqn:Ep.
      * by eapply (turn_misfire _ _ tid tr).
      * by eapply (turn_fire _ _ tid tr).
  - assert (¬ enabled_in tr (e_marking (x_engine x))) as Hnot by (intros Hi%Hcan; done). split_and!.
    + by apply (disable_exec cf x tid tr).
    + intros o Hne. cbn [on_engine set_engine x_engine disable set_enabledAt set_enabled enabledFlags].
      rewrite flag_insert, decide_False; [done|]. by intros [? _].
    + exists []. split_and!; [by intros o Ho%not_elem_of_nil|by rewrite app_nil_r|]. intros l fired m' Hl. by apply (turn_skip _ _ tid tr).
Qed.

Lemma slots_turns l x :
  NoDup (rs_tid <$> l) → (∀ s, s ∈ l → flag (enabledFlags (x_engine x)) (rs_tid s) = true ∧ rs_tid s < tc) → exec_inv cf x →
  let x' := (foldl (fire_slot cf providerThrows) (x, markingBitmap (x_engine x)) l).1 in
  ∃ fired, turns (c_transitions c) providerThrows (rs_tid <$> l) (e_marking (x_engine x)) fired (e_marking (x_engine x')) ∧
    (inFlight x').*1 = (inFlight x).*1 ++ fired.
Proof.
  revert x. induction l as [|s l IH]; intros x Hd Hl H; cbn zeta; [exists []; split; [constructor|by rewrite app_nil_r]|].
  rewrite fmap_cons in Hd |- *. apply NoDup_cons in Hd as [Hn Hd].
  destruct (Hl s) as [Hen Hlt]; [left|]. destruct (lt_c_transition cf _ Hlt) as [tr Ht].
  destruct (turn_step x (rs_tid s) tr H Ht Hen) as (H1 & H2 & nf & _ & Hk & Hturn). cbn zeta in *. cbn [foldl].
  set (x1 := if canEnable _ _ _ _ then _ else _) in *.
  assert (fire_slot cf providerThrows (x, markingBitmap (x_engine x)) s = (x1, markingBitmap (x_engine x1))) as ->.
  { unfold fire_slot, x1. cbn zeta. rewrite Hen. cbn [andb]. by destruct (canEnable _ _ _ _). }
  destruct (IH x1 Hd) as (fired & Hf & Hk'); [|done|].
  - intros s' Hs'. rewrite H2; [apply Hl; by right|]. intros E. apply Hn. rewrite <- E. by apply list_elem_of_fmap_2.
  - exists (nf ++ fired). split; [by apply Hturn|]. by rewrite Hk', Hk, <- app_assoc.
Qed.

(** The transitions the fast path considers. *)
Definition idle_enabled e (tid : nat) : bool := flag (enabledFlags e) tid && negb (flag (inFlightFlags e) tid).

Lemma immediate_turns l x : NoDup l → (∀ tid, tid ∈ l → tid < tc) → exec_inv cf x →
  let x' := foldl (fire_immediate cf providerThrows) x l in
  ∃ fired, turns (c_transitions c) providerThrows (filter (λ tid, idle_enabled (x_engine x) tid = true) l)
             (e_marking (x_engine x)) fired (e_marking (x_engine x')) ∧
    (inFlight x').*1 = (inFlight x).*1 ++ fired.
Proof.
  revert x. induction l as [|tid l IH]; intros x Hd Hl H; cbn zeta; [exists []; split; [constructor|by rewrite app_nil_r]|].
  apply NoDup_cons in Hd as [Hn Hd]. cbn [foldl]. rewrite filter_cons. unfold fire_immediate at 2 4.
  assert (∀ o, o ∈ l → o < tc) as Hl' by (intros o Ho; apply Hl; by right).
  destruct (idle_enabled (x_engine x) tid) eqn:Ei; unfold idle_enabled in Ei.
  - apply andb_true_iff in Ei as [Hen Hfl]. apply negb_true_iff in Hfl. rewrite decide_True by done. rewrite Hen, Hfl. cbn [negb orb].
    destruct (lt_c_transition cf tid (Hl tid ltac:(left))) as [tr Ht].
    destruct (turn_step x tid tr H Ht Hen) as (H1 & H2 & nf & Hnf & Hk & Hturn). cbn zeta in *.
    set (x1 := if canEnable _ _ _ _ then _ else _) in *. destruct (IH x1 Hd Hl' H1) as (fired & Hf & Hk'). cbn zeta in *.
    rewrite (filter_ext_in (λ o, idle_enabled (x_engine x1) o = true) (λ o, idle_enabled (x_engine x) o = true)) in Hf.
    + exists (nf ++ fired). split; [by apply Hturn|]. by rewrite Hk', Hk, <- app_assoc.
    + intros o Ho. assert (o ≠ tid) as Hne by congruence. unfold idle_enabled. rewrite H2 by done.
      assert (flag (inFlightFlags (x_engine x1)) o = flag (inFlightFlags (x_engine x)) o) as ->; [|done].
      apply eq_true_iff_eq. rewrite <- (xi_flight _ _ _ H1 o), <- (xi_flight _ _ _ H o), Hk, elem_of_app. naive_solver.
  - rewrite decide_False by congruence.
    assert (negb (flag (enabledFlags (x_engine x)) tid) || flag (inFlightFlags (x_engine x)) tid = true) as ->; [|by apply IH].
    by destruct (flag (enabledFlags (x_engine x)) tid), (flag (inFlightFlags (x_engine x)) tid).
Qed.
End Pass.

(** ** The deadline pass *)

Section Deadlines.
Context {V : Type} (cf : config V) (now : Z).
Implicit Types (x : exec V) (e : engine V) (tr : transition V).

(** Enabled past a hard deadline and the tolerance. *)
Definition overdue e (tid : nat) : bool :=
  match c_transition (cf_compiled cf) tid with
  | Some tr => flag (hasDeadlineFlags cf) tid && negb (flag (isExactFlags cf) tid) && flag (enabledFlags e) tid &&
               negb (flag (inFlightFlags e) tid) && jnum_ltb (Fin (latest (t_timing tr) + deadlineToleranceMs cf)) (elapsed now tid e)
  | None => false
  end.

Definition reap e (tid : nat) : engine V :=
  set_enabledAt tid None (emit (EvTransitionTimedOut (transition_name cf tid)) (set_enabled tid false (-1) e)).

Lemma enforce_deadline_eq e tid : enforce_deadline cf now e tid = if overdue e tid then reap e tid else e.
Proof.
  unfold enforce_deadline, overdue, reap, transition_name. destruct (c_transition (cf_compiled cf) tid) as [tr|]; [|by repeat case_bool].
  destruct (flag (hasDeadlineFlags cf) tid); [|done]. destruct (flag (isExactFlags cf) tid); [done|].
  destruct (flag (enabledFlags e) tid); [|done]. destruct (flag (inFlightFlags e) tid); done.
Qed.

Lemma reap_other e tid tid' : tid' ≠ tid → overdue (reap e tid) tid' = overdue e tid' ∧
  flag (enabledFlags (reap e tid)) tid' = flag (enabledFlags e) tid' ∧
  default None (enabledAtMs (reap e tid) !! tid') = default None (enabledAtMs e !! tid').
Proof.
  intros Hne. unfold overdue, elapsed, reap. cbn [set_enabledAt emit set_enabled enabledFlags enabledAtMs inFlightFlags].
  rewrite list_lookup_insert_ne by done. rewrite flag_insert, decide_False by (by intros [? _]). done.
Qed.

Lemma enforce_fold l e : NoDup l →
  let e' := foldl (enforce_deadline cf now) e l in
  e_marking e' = e_marking e ∧ inFlightFlags e' = inFlightFlags e ∧
  e_log e' = e_log e ++ ((λ tid, EvTransitionTimedOut (transition_name cf tid)) <$> filter (λ tid, overdue e tid = true) l) ∧
  ∀ tid, (tid ∈ l → overdue e tid = true → flag (enabledFlags e') tid = false ∧ default None (enabledAtMs e' !! tid) = None) ∧
         (tid ∉ l ∨ overdue e tid = false → flag (enabledFlags e') tid = flag (enabledFlags e) tid ∧
                                          default None (enabledAtMs e' !! tid) = default None (enabledAtMs e !! tid)).
Proof.
  revert e. induction l as [|t l IH]; intros e Hd; cbn zeta.
  { cbn. rewrite app_nil_r. split_and!; try done. intros tid. split; [by intros Hin%not_elem_of_nil|done]. }
  apply NoDup_cons in Hd as [Ht Hd]. cbn [foldl]. rewrite enforce_deadline_eq, filter_cons. destruct (overdue e t) eqn:Eo.
  - destruct (IH (reap e t) Hd) as (I1 & I2 & I3 & I4). rewrite decide_True by done. cbn zeta in *.
    assert (∀ y, y ∈ l → overdue (reap e t) y = overdue e y) as Hov by (intros y Hy; apply reap_other; congruence).
    split_and!; [done|done| |].
    + rewrite I3, fmap_cons, (filter_ext_in (λ tid, overdue (reap e t) tid = true) (λ tid, overdue e tid = true)) by (intros; by rewrite Hov).
      cbn [reap set_enabledAt emit set_enabled e_log]. by rewrite <- app_assoc.
    + intros tid. rewrite elem_of_cons. destruct (decide (tid = t)) as [->|Hne].
      * split; [intros _ _|intros [Hn|]; [tauto|congruence]].
        destruct (proj2 (I4 t)) as [-> ->]; [by left|]. unfold reap. cbn [set_enabledAt emit set_enabled enabledFlags enabledAtMs].
        rewrite flag_insert. split; [by case_decide as Hl; [|apply not_and_l in Hl as [|]; [done|]; unfold flag; rewrite lookup_ge_None_2 by lia]|].
        destruct (decide (t < length (enabledAtMs e))); [by rewrite list_lookup_insert_eq|by rewrite list_insert_ge, lookup_ge_None_2 by lia].
      * destruct (reap_other e t tid Hne) as (R1 & R2 & R3). rewrite <- R1, <- R2, <- R3. split.
        -- intros [?|Hin]; [done|]. by apply I4.
        -- intros H. apply I4. naive_solver.
  - destruct (IH e Hd) as (I1 & I2 & I3 & I4). rewrite decide_False by congruence. cbn zeta in *. split_and!; [done|done|done|].
    intros tid. rewrite elem_of_cons. split.
    + intros [->|Hin] Ho; [congruence|]. by apply I4.
    + intros H. apply I4. naive_solver.
Qed.

Lemma enforce_spec e : let e' := enforceDeadlines cf now e in
  e_marking e' = e_marking e ∧ inFlightFlags e' = inFlightFlags e ∧
  e_log e' = e_log e ++ ((λ tid, EvTransitionTimedOut (transition_name cf tid)) <$>
                         filter (λ tid, overdue e tid = true) (seq 0 (transitionCount (cf_compiled cf)))) ∧
  ∀ tid, (overdue e tid = true → flag (enabledFlags e') tid = false ∧ default None (enabledAtMs e' !! tid) = None) ∧
         (overdue e tid = false → flag (enabledFlags e') tid = flag (enabledFlags e) tid ∧
                                  default None (enabledAtMs e' !! tid) = default None (enabledAtMs e !! tid)).
Proof.
  destruct (enforce_fold (seq 0 (transitionCount (cf_compiled cf))) e) as (I1 & I2 & I3 & I4); [apply NoDup_seq|].
  split_and!; [done|done|done|]. intros tid. split; [|intros; apply I4; by right]. intros Ho. apply I4; [|done]. apply elem_of_seq.
  unfold overdue in Ho. destruct (c_transition (cf_compiled cf) tid) eqn:E; [|done]. apply c_transition_lt in E. lia.
Qed.
End Deadlines.

(** The timing flags of a constructed executor. *)
Lemma make_config_flags {V} (c : compiled V) tol env scope tid tr : c_transition c tid = Some tr →
  let cf := make_config c tol env scope in
  flag (hasDeadlineFlags cf) tid = hasDeadline (t_timing tr) ∧ flag (isExactFlags cf) tid = is_exact (t_timing tr).
Proof. intros Ht. unfold c_transition in Ht. cbn [make_config hasDeadlineFlags isExactFlags]. unfold flag. by rewrite !list_lookup_fmap, Ht. Qed.

(** A timing the deadline pass enforces. *)
Definition hard (ti : timing) : bool := match ti with TimingDeadline _ | TimingWindow _ _ => true | _ => false end.

Lemma hard_flags ti : hard ti = hasDeadline ti && negb (is_exact ti).
Proof. by destruct ti. Qed.

Section Cycle.
Context {V : Type}.
Implicit Types (x : exec V) (e : engine V) (tr : transition V) (cf : config V).

(** A cycle between its deposits and its firings. *)
Definition cycle_scan cf (scanMs now : Z) x : exec V :=
  let x1 := on_engine (updateDirtyTransitions cf scanMs) x in
  if hasAnyDeadlines cf then on_engine (enforceDeadlines cf now) x1 else x1.

Definition slots cf (now : Z) x : list ready_slot :=
  stable_sort slot_le (omap (is_ready cf now (x_engine x)) (seq 0 (transitionCount (cf_compiled cf)))).

(** Enabled at [t0], a transition may fire at [now]. *)
Definition in_window cf tr (t0 now : Z) : Prop :=
  (earliest (t_timing tr) ≤ now - t0)%Z ∧
  (hard (t_timing tr) = true → now - t0 ≤ latest (t_timing tr) + deadlineToleranceMs cf)%Z.

Lemma elem_of_slots cf now x s :
  s ∈ slots cf now x ↔ is_ready cf now (x_engine x) (rs_tid s) = Some s.
Proof.
  unfold slots. rewrite stable_sort_Permutation, list_elem_of_omap. split.
  - intros (tid & _ & E). by pose proof (is_ready_Some _ _ _ _ _ E) as [-> _].
  - intros E. exists (rs_tid s). split; [|done]. apply is_ready_spec in E as (tr & Ht & _). apply c_transition_lt in Ht. apply elem_of_seq. lia.
Qed.

(** After the deadline pass no enabled transition is past a hard deadline. *)
Lemma enforced_window now tol env scope (c : compiled V) tid tr e : let cf := make_config c tol env scope in
  c_transition c tid = Some tr → let e' := if hasAnyDeadlines cf then enforceDeadlines cf now e else e in
  flag (enabledFlags e') tid = true → flag (inFlightFlags e') tid = false → hard (t_timing tr) = true →
  jnum_ltb (Fin (latest (t_timing tr) + tol)) (elapsed now tid e') = false.
Proof.
  cbn zeta. set (cf := make_config c tol env scope). intros Ht Hen Hfl Hh. destruct (make_config_flags c tol env scope tid tr Ht) as [D1 D2].
  fold cf in D1, D2. rewrite hard_flags in Hh. apply andb_true_iff in Hh as [Hh1 Hh2]. apply negb_true_iff in Hh2.
  assert (hasAnyDeadlines cf = true) as Ha.
  { unfold cf. cbn [make_config hasAnyDeadlines]. apply existsb_exists. exists tr. split; [|done].
    apply list_elem_of_In. by eapply list_elem_of_lookup_2. }
  rewrite Ha in *. destruct (enforce_spec cf now e) as (_ & E2 & _ & E4). cbn zeta in *. destruct (E4 tid) as [E5 E6].
  destruct (overdue cf now e tid) eqn:Eo; [destruct E5 as [E5 _]; [done|congruence]|]. destruct E6 as [E6 E7]; [done|].
  unfold overdue in Eo. change (cf_compiled cf) with c in Eo. rewrite Ht, D1, D2, Hh1, Hh2, <- E6, Hen, <- E2, Hfl in Eo.
  unfold elapsed in *. rewrite E7. exact Eo.
Qed.
Lemma slots_window cf now x : engine_inv cf (λ _, False) (x_engine x) →
  (∀ tid tr, c_transition (cf_compiled cf) tid = Some tr → let e := x_engine x in
    flag (enabledFlags e) tid = true → flag (inFlightFlags e) tid = false → hard (t_timing tr) = true →
    jnum_ltb (Fin (latest (t_timing tr) + deadlineToleranceMs cf)) (elapsed now tid e) = false) →
  ∀ tid, tid ∈ rs_tid <$> slots cf now x ↔ ∃ tr t0, c_transition (cf_compiled cf) tid = Some tr ∧
     flag (enabledFlags (x_engine x)) tid = true ∧ flag (inFlightFlags (x_engine x)) tid = false ∧
     default None (enabledAtMs (x_engine x) !! tid) = Some t0 ∧ enabled_in tr (e_marking (x_engine x)) ∧ in_window cf tr t0 now.
Proof.
  intros H Hw tid. rewrite list_elem_of_fmap. setoid_rewrite elem_of_slots. split.
  - intros (s & -> & Hs). apply is_ready_spec in Hs as (tr & Ht & Hen & Hfl & Hel & _).
    destruct (proj1 (fo_stamp _ _ (ei_flags _ _ _ H) _) Hen) as [t0 Hst]. unfold stamp_at in Hst.
    exists tr, t0. split_and!; try done.
    + apply (ei_sound _ _ _ H _ tr Ht); [by intros []|done].
    + pose proof (Hw _ tr Ht Hen Hfl) as Hh. unfold elapsed in *. rewrite Hst in *. split; [|intros Hhard; specialize (Hh Hhard)];
        simpl in *; b2p; lia.
  - intros (tr & t0 & Ht & Hen & Hfl & Hst & _ & Hlo & _). exists (ReadySlot tid (priority tr) (Some t0)). split; [done|]. cbn [rs_tid].
    apply is_ready_spec. exists tr. rewrite Hst. split_and!; try done. unfold elapsed. rewrite Hst. simpl. apply Z.ltb_ge. lia.
Qed.
End Cycle.

(** Every transition is immediate and of one priority. *)
Definition uniform {V} (ts : list (transition V)) : Prop :=
  ∀ t t', t ∈ ts → t' ∈ ts → is_immediate (t_timing t) = true ∧ priority t = priority t'.

(** Goes ahead of another: a higher priority, then an earlier stamp, then a lower identifier. *)
Definition ahead {V} (ts : list (transition V)) (e : engine V) (a b : nat) : Prop :=
  ∃ ta tb, ts !! a = Some ta ∧ ts !! b = Some tb ∧
    ((priority tb < priority ta)%Z ∨
     priority tb = priority ta ∧ let st tid := default None (enabledAtMs e !! tid) in
       stamp_le (st a) (st b) = true ∧ (stamp_le (st b) (st a) = true → a < b)).

Lemma filter_seq_sorted (P : nat → Prop) `{∀ i, Decision (P i)} o n : StronglySorted lt (filter P (seq o n)).
Proof.
  revert o. induction n as [|n IH]; intros o; [constructor|]. cbn [seq]. rewrite filter_cons. case_decide; [|apply IH].
  constructor; [apply IH|]. apply Forall_forall. intros i (_ & Hi%elem_of_seq)%list_elem_of_filter. lia.
Qed.

(** No slot is past a hard deadline after the deadline pass. *)
Lemma scan_window {V} now scanMs tol env scope (cf : config V) x : cf = make_config (cf_compiled cf) tol env scope →
  ∀ tid tr, c_transition (cf_compiled cf) tid = Some tr → let e := x_engine (cycle_scan cf scanMs now x) in
    flag (enabledFlags e) tid = true → flag (inFlightFlags e) tid = false → hard (t_timing tr) = true →
    jnum_ltb (Fin (latest (t_timing tr) + deadlineToleranceMs cf)) (elapsed now tid e) = false.
Proof.
  intros Ecf tid tr Ht. cbn zeta. pose proof (enforced_window now tol env scope (cf_compiled cf) tid tr
      (updateDirtyTransitions cf scanMs (x_engine x)) Ht) as H. rewrite <- Ecf in H. cbn zeta in H.
  assert (deadlineToleranceMs cf = tol) as -> by (by rewrite Ecf). unfold cycle_scan. cbn zeta. by case_bool.
Qed.

Section General.
Context {V : Type} (isP : nat → bool) (pn : petri_net V) (cf : config V).
Hypothesis Hc : compile isP pn = Ok (cf_compiled cf).
Hypothesis Hwf : ∀ tid t, net_transitions pn !! tid = Some t → transition_wf t.
Variable providerThrows : jsstr → list (token V) → bool.

(** The pass takes the fast path exactly when all transitions are immediate and of one priority. *)
Lemma fast_path tol env scope : cf = make_config (cf_compiled cf) tol env scope →
  allImmediate cf && allSamePriority cf = true ↔ uniform (net_transitions pn).
Proof.
  intros ->. cbn [make_config allImmediate allSamePriority]. rewrite (c_transitions_net isP pn cf Hc), andb_true_iff, !forallb_forall.
  unfold uniform. setoid_rewrite <- list_elem_of_In. split.
  - intros [H1 H2] t t' Ht Ht'. split; [by apply H1|]. apply H2 in Ht, Ht'. b2p. lia.
  - intros H. split; intros t Ht; [by apply (H t t)|]. destruct (net_transitions pn) as [|t0 l]; [by apply not_elem_of_nil in Ht|].
    apply Z.eqb_eq. apply (H t t0); [done|left].
Qed.

(** The order a pass takes its transitions in. *)
Definition pass_order (now : Z) (x : exec V) : list nat :=
  if allImmediate cf && allSamePriority cf
  then filter (λ tid, idle_enabled (x_engine x) tid = true) (seq 0 (transitionCount (cf_compiled cf)))
  else rs_tid <$> slots cf now x.

Lemma pass_turns now (x : exec V) : exec_inv cf x → engine_inv cf (λ _, False) (x_engine x) →
  let x' := fireReadyTransitions cf providerThrows now x in
  ∃ fired, turns (c_transitions (cf_compiled cf)) providerThrows (pass_order now x) (e_marking (x_engine x)) fired (e_marking (x_engine x')) ∧
    (inFlight x').*1 = (inFlight x).*1 ++ fired.
Proof.
  intros H H2. cbn zeta. unfold fireReadyTransitions, pass_order. destruct (allImmediate cf && allSamePriority cf).
  { apply (immediate_turns isP pn cf Hc Hwf); [apply NoDup_seq|intros tid Ht%elem_of_seq; lia|done]. }
  unfold fireReadyGeneral. fold (slots cf now x). case_bool_decide as Hl.
  { apply nil_length_inv in Hl. unfold slots. rewrite Hl. exists []. split; [constructor|by rewrite app_nil_r]. }
  destruct (ready_slots cf now x) as [Hd Hs]. fold (slots cf now x) in Hd, Hs. by apply (slots_turns isP pn cf Hc Hwf).
Qed.

Lemma slots_ahead now (x : exec V) : StronglySorted (ahead (net_transitions pn) (x_engine x)) (rs_tid <$> slots cf now x).
Proof.
  assert (∀ s, s ∈ slots cf now x → ∃ tr, net_transitions pn !! rs_tid s = Some tr ∧ rs_priority s = priority tr ∧
            rs_enabledAt s = default None (enabledAtMs (x_engine x) !! rs_tid s)) as Hs.
  { intros s Hs%elem_of_slots. apply is_ready_spec in Hs as (tr & Ht & _ & _ & _ & E). exists tr.
    rewrite <- (c_transitions_net isP pn cf Hc). rewrite E. by split_and!. }
  pose proof (sorted_ready cf now (x_engine x)) as Hsort. fold (slots cf now x) in Hsort.
  induction Hsort as [|a l _ IH Ha]; [constructor|]. rewrite fmap_cons. constructor; [apply IH; intros; apply Hs; by right|].
  apply Forall_fmap. rewrite Forall_forall in Ha |- *. intros b Hb. cbn.
  destruct (Hs a) as (ta & Ta & Pa & Sa); [left|]. destruct (Hs b) as (tb & Tb & Pb & Sb); [by right|].
  exists ta, tb. specialize (Ha b Hb). unfold fires_before in Ha. by rewrite Pa, Pb, Sa, Sb in Ha.
Qed.

Lemma idle_order (x : exec V) : engine_inv cf (λ _, False) (x_engine x) → ∀ tid,
  tid ∈ filter (λ tid, idle_enabled (x_engine x) tid = true) (seq 0 (transitionCount (cf_compiled cf))) ↔
  ∃ tr t0, net_transitions pn !! tid = Some tr ∧ flag (enabledFlags (x_engine x)) tid = true ∧ flag (inFlightFlags (x_engine x)) tid = false ∧
    default None (enabledAtMs (x_engine x) !! tid) = Some t0 ∧ enabled_in tr (e_marking (x_engine x)).
Proof.
  intros H tid. rewrite list_elem_of_filter, elem_of_seq. unfold idle_enabled. rewrite andb_true_iff, negb_true_iff.
  rewrite <- (c_transitions_net isP pn cf Hc). change (c_transitions (cf_compiled cf) !! tid) with (c_transition (cf_compiled cf) tid). split.
  - intros [[Hen Hfl] [_ Hlt]]. destruct (lt_c_transition cf tid) as [tr Ht]; [lia|]. exists tr.
    destruct (proj1 (fo_stamp _ _ (ei_flags _ _ _ H) tid) Hen) as [t0 Hst]. exists t0. split_and!; try done.
    apply (ei_sound _ _ _ H tid tr Ht); [by intros []|done].
  - intros (tr & t0 & Ht & Hen & Hfl & _). apply c_transition_lt in Ht. split; [done|lia].
Qed.

(** A cycle that does not end the loop fires after the scan. *)
Lemma cycle_fires scanMs now x x' n : cycle cf providerThrows scanMs now x = (x', n) → n ≠ Exit →
  x' = fireReadyTransitions cf providerThrows now
         (cycle_scan cf scanMs now (processExternalEvents cf (processCompletedTransitions cf x))).
Proof. unfold cycle, cycle_scan. cbn zeta. repeat case_bool; intros [= <- <-]; done. Qed.
End General.

(** ** Properties *)

(** C23: the deadline pass reaps exactly the transitions that are enabled, not in flight and past
    the latest time of a deadline or window timing plus the tolerance: their flag and stamp are
    erased, every other flag and stamp and the marking are kept. An exact timing is never reaped. *)
Theorem deadline_pass_exact {V} isP rnd base (pn : petri_net V) initialTokens o cf x0 e now tid tr :
  deployed isP rnd base pn initialTokens o cf x0 → c_transition (cf_compiled cf) tid = Some tr →
  let e' := enforceDeadlines cf now e in
  let reaped := hard (t_timing tr) && flag (enabledFlags e) tid && negb (flag (inFlightFlags e) tid) &&
                jnum_ltb (Fin (latest (t_timing tr) + deadlineToleranceMs cf)) (elapsed now tid e) in
  e_marking e' = e_marking e ∧
  flag (enabledFlags e') tid = flag (enabledFlags e) tid && negb reaped ∧
  default None (enabledAtMs e' !! tid) = if reaped then None else default None (enabledAtMs e !! tid).
Proof.
  intros Hd Ht. cbn zeta. destruct (construct_spec isP pn rnd base initialTokens o cf x0 (dp_construct _ _ _ _ _ _ _ _ Hd)) as (_ & (tol & env & scope & Ecf & _) & _).
  destruct (make_config_flags (cf_compiled cf) tol env scope tid tr Ht) as [D1 D2]. rewrite <- Ecf in D1, D2.
  destruct (enforce_spec cf now e) as (E1 & _ & _ & E4). cbn zeta in *. destruct (E4 tid) as [E5 E6].
  assert (overdue cf now e tid = hard (t_timing tr) && flag (enabledFlags e) tid && negb (flag (inFlightFlags e) tid) &&
            jnum_ltb (Fin (latest (t_timing tr) + deadlineToleranceMs cf)) (elapsed now tid e)) as Eo.
  { unfold overdue. by rewrite Ht, D1, D2, hard_flags. }
  rewrite <- Eo. split; [done|]. destruct (overdue cf now e tid).
  - destruct E5 as [-> ->]; [done|]. by rewrite andb_false_r.
  - destruct E6 as [-> ->]; [done|]. by rewrite andb_true_r.
Qed.

Definition late_engine : engine jsstr := set_enabledAt 1 (Some 100%Z) (set_enabled 1 true 1 (x_engine (s_exec sample_start))).

Lemma deadline_pass_exact_witness :
  flag (enabledFlags late_engine) 1 = true ∧
  e_marking (enforceDeadlines sample.1 155 late_engine) = e_marking late_engine ∧
  flag (enabledFlags (enforceDeadlines sample.1 156 late_engine)) 1 = false.
Proof.
  assert (c_transition (cf_compiled sample.1) 1 = Some (built_or ship_b)) as Ht by (by vm_compute).
  split; [by vm_compute|]. split.
  - destruct (deadline_pass_exact _ _ _ _ _ _ _ _ late_engine 155 1 (built_or ship_b) sample_deployed Ht) as (E & _). exact E.
  - destruct (deadline_pass_exact _ _ _ _ _ _ _ _ late_engine 156 1 (built_or ship_b) sample_deployed Ht) as (_ & E & _).
    rewrite E. vm_compute. reflexivity.
Defined.

(** C22: a cycle fires in the scheduling order and inside the time windows. Take a cycle that does
    not end the loop, from any state of a run, and the state after its deposits, its scan and its
    deadline pass. The transitions its firing pass considers are the enabled ones that are not in
    flight and in their time window. They have their turns by descending priority, then by age of
    their enablement, then by identifier; only when all transitions are immediate and of one
    priority, the fast path, by identifier alone and without a look at the clock. Each fires exactly
    if the marking the turns before it leave still enables it, and its flight joins the table in
    that order; a firing whose provider throws takes its tokens and leaves no flight. *)
Theorem cycle_fires_in_order {V} isP rnd base (pn : petri_net V) initialTokens o cf x0 providerThrows x scanMs now x' n :
  deployed isP rnd base pn initialTokens o cf x0 → reachable cf providerThrows x0 (Sys x AtCycle) →
  cycle cf providerThrows scanMs now x = (x', n) → n ≠ Exit →
  let y := cycle_scan cf scanMs now (processExternalEvents cf (processCompletedTransitions cf x)) in
  let e := x_engine y in
  let ts := net_transitions pn in
  ∃ order fired,
    (∀ tid, tid ∈ order ↔ ∃ tr t0, ts !! tid = Some tr ∧
       flag (enabledFlags e) tid = true ∧ flag (inFlightFlags e) tid = false ∧
       default None (enabledAtMs e !! tid) = Some t0 ∧ enabled_in tr (e_marking e) ∧
       (uniform ts ∨ in_window cf tr t0 now)) ∧
    (uniform ts → StronglySorted lt order) ∧
    (¬ uniform ts → StronglySorted (ahead ts e) order) ∧
    turns ts providerThrows order (e_marking e) fired (e_marking (x_engine x')) ∧
    (inFlight x').*1 = (inFlight y).*1 ++ fired.
Proof.
  intros Hd Hr Hcy Hn. cbn zeta. pose proof (deployed_inv Hd providerThrows _ Hr) as Hx. destruct (deployed_start Hd) as [Htg _].
  pose proof (deployed_compiled Hd) as Hc. pose proof (deployed_wf Hd) as Hwf.
  destruct (construct_spec isP pn rnd base initialTokens o cf x0 (dp_construct _ _ _ _ _ _ _ _ Hd)) as (_ & (tol & env & scope & Ecf & _) & _).
  pose proof (fast_path isP pn cf Hc Hwf tol env scope Ecf) as Hfast. apply cycle_fires in Hcy as ->; [|done].
  pose proof (processExternal_inv isP pn cf Hc Hwf Htg providerThrows _ (processCompleted_inv isP pn cf Hc Hwf Htg providerThrows _ Hx)) as Hp.
  set (x2 := processExternalEvents cf _) in *. destruct (scan_inv_exec isP pn cf Hc Hwf Htg scanMs now _ Hp) as (H1 & H2 & _). cbn zeta in *.
  change (exec_inv cf (cycle_scan cf scanMs now x2)) in H1. change (engine_inv cf (λ _, False) (x_engine (cycle_scan cf scanMs now x2))) in H2.
  pose proof (scan_window now scanMs tol env scope cf x2 Ecf) as Hw.
  set (y := cycle_scan cf scanMs now x2) in *. destruct (pass_turns isP pn cf Hc Hwf providerThrows now y H1 H2) as (fired & Ht & Hk).
  rewrite (c_transitions_net isP pn cf Hc) in Ht. exists (pass_order cf now y), fired. split_and!; try done; unfold pass_order.
  - intros tid. unfold pass_order. destruct (allImmediate cf && allSamePriority cf) eqn:Ef.
    + pose proof (proj1 Hfast eq_refl) as Hu. rewrite (idle_order isP pn cf Hc y H2 tid). naive_solver.
    + assert (¬ uniform (net_transitions pn)) as Hu by (by rewrite <- Hfast).
      rewrite (slots_window cf now y H2 Hw). unfold c_transition. rewrite (c_transitions_net isP pn cf Hc). naive_solver.
  - intros Hu%Hfast. rewrite Hu. apply filter_seq_sorted.
  - intros Hu. destruct (allImmediate cf && allSamePriority cf) eqn:Ef; [by destruct Hu; apply Hfast|]. by apply (slots_ahead isP).
Qed.

(** Two transitions that compete for one token; the second has the higher priority. *)
Definition calm_b : builder jsstr := with_inputs [InOne left_p] (builder_new (js "calm")).
Definition urgent_b : builder jsstr := with_priority 5 (with_inputs [InOne left_p] (builder_new (js "urgent"))).
Definition contest_net : petri_net jsstr :=
  match net_build (foldl (λ b c, nb_run c b) (net_builder_new (js "contest"))
          [CallTransition 0 (built_or calm_b); CallTransition 1 (built_or urgent_b)]) with
  | Ok n => n | Err _ => PetriNet [] [] [] [] end.
Definition contest_tokens : list (place * list (token jsstr)) := [(left_p, [Token None 1])].
Definition contest_options : options (V := jsstr) := Options [] None None (Some (js "s")).
Definition contest : config jsstr * exec jsstr :=
  match construct (λ _, false) (js "r") 100 contest_net contest_tokens contest_options with Ok r => r | Err _ => sample end.

Lemma contest_deployed : deployed (λ _, false) (js "r") 100 contest_net contest_tokens contest_options contest.1 contest.2.
Proof.
  constructor.
  - intros t Ht. assert (net_transitions contest_net = built_or <$> [calm_b; urgent_b]) as E by (by vm_compute).
    rewrite E in Ht. apply list_elem_of_fmap in Ht as (b & -> & Hb). exists b.
    rewrite !elem_of_cons, elem_of_nil in Hb. destruct_or!; subst; (split; [by vm_compute|done]) || done.
  - by vm_compute.
  - intros s tok Hs Htok. unfold seed_of in Hs. cbn [o_restore contest_options] in Hs. unfold contest_tokens in Hs.
    apply list_elem_of_singleton in Hs as ->. apply list_elem_of_singleton in Htok as ->. unfold safe_token; vm_compute; discriminate.
Qed.

Lemma cycle_fires_in_order_witness :
  let x := start contest.1 contest.2 in
  let e := x_engine (cycle_scan contest.1 7 7 x) in
  let x' := (cycle contest.1 (λ _ _, false) 7 7 x).1 in
  ∃ order, 0 ∈ order ∧ 1 ∈ order ∧ StronglySorted (ahead (net_transitions contest_net) e) order ∧
    turns (net_transitions contest_net) (λ _ _, false) order (e_marking e) [1] (e_marking (x_engine x')).
Proof.
  cbn zeta. assert ((cycle contest.1 (λ _ _, false) 7 7 (start contest.1 contest.2)).2 = Continue) as E by (by vm_compute).
  assert ((inFlight (cycle contest.1 (λ _ _, false) 7 7 (start contest.1 contest.2)).1).*1 = [1]) as Ek by (by vm_compute).
  destruct (cycle contest.1 (λ _ _, false) 7 7 (start contest.1 contest.2)) as [x' n] eqn:Ec. cbn [fst snd] in *. subst n.
  destruct (cycle_fires_in_order (λ _, false) (js "r") 100 contest_net contest_tokens contest_options contest.1 contest.2 (λ _ _, false)
              _ 7 7 x' Continue contest_deployed (rtc_refl _ _) Ec) as (order & fired & H1 & _ & H3 & H4 & H5); [done|]. cbn zeta in *.
  assert (processExternalEvents contest.1 (processCompletedTransitions contest.1 (start contest.1 contest.2)) = start contest.1 contest.2) as Es
    by (by vm_compute).
  rewrite Es in *. set (y := cycle_scan contest.1 7 7 (start contest.1 contest.2)) in *.
  assert (fired = [1]) as ->.
  { assert ((inFlight y).*1 = []) as Ey by (by vm_compute). rewrite Ek, Ey in H5. by simpl in H5. }
  assert (∀ tr, tr ∈ net_transitions contest_net → enabled_in tr (e_marking (x_engine y)) ∧ in_window contest.1 tr 7 7) as Hen.
  { assert (net_transitions contest_net = built_or <$> [calm_b; urgent_b]) as -> by (by vm_compute).
    assert (queue (e_marking (x_engine y)) (js "left") = [Token None 1]) as Eq by (by vm_compute). clearbody y.
    intros tr Htr. assert (inputSpecs tr = [InOne left_p] ∧ reads tr = [] ∧ inhibitors tr = [] ∧ t_matchSpec tr = None ∧ t_timing tr = TimingImmediate)
      as (E1 & E2 & E3 & E4 & E5).
    { apply list_elem_of_fmap in Htr as (b & -> & Hb). rewrite !elem_of_cons, elem_of_nil in Hb. destruct Hb as [->|[->|[]]]; split_and!; vm_compute; reflexivity. }
    unfold enabled_in, in_window. rewrite E1, E2, E3, E4, E5. split; [split; [|split; [|split]]|split].
    - intros s ->%list_elem_of_singleton. change (place_name (in_place (InOne left_p))) with (js "left"). rewrite Eq. simpl. lia.
    - intros p Hp. destruct (not_elem_of_nil p Hp).
    - intros p Hp. destruct (not_elem_of_nil p Hp).
    - intros []. reflexivity.
    - simpl. lia.
    - intros [=]. }
  exists order. split_and!; [| | |exact H4].
  - apply H1. exists (built_or calm_b), 7%Z. split_and!; [by vm_compute..| |right]; apply Hen; apply list_elem_of_lookup; by exists 0.
  - apply H1. exists (built_or urgent_b), 7%Z. split_and!; [by vm_compute..| |right]; apply Hen; apply list_elem_of_lookup; by exists 1.
  - apply H3. intros Hu. destruct (Hu (built_or calm_b) (built_or urgent_b)) as [_ Ep]; [apply list_elem_of_lookup; by exists 0|apply list_elem_of_lookup; by exists 1|].
    by vm_compute in Ep.
Defined.
