(* ===== verification/ExecLive.v ===== *)
(** * Liveness of the loop: it never waits for nothing

    What the loop knows when it parks on a race: no completion and no admissible event is queued,
    every flight is pending, and the race holds a flight, a timer, or a wake-up that an environment
    place can send. *)
From S2P Require Import Prelude.
From S2P Require Import Net.
From S2P Require Import Transition.
From S2P Require Import Marking.
From S2P Require Import PetriNet.
From S2P Require Import Bitmap.
From S2P Require Import CompiledNet.
From S2P Require Import Context.
From S2P Require Import Executor.
From S2P Require Import ExecScan.
From S2P Require Import ExecFire.
From S2P Require Import ExecLoop.
From S2P Require Import ExecInv.
From S2P Require Import ExecCache.
From S2P Require Import ExecCoherent.
From S2P Require Import ExecFiring.
From S2P Require Import ExecRun.
From S2P Require Import ExecInit.
From S2P Require Import ExecGame.
From S2P Require Import ExecContract.
From S2P Require Import ExecOrder.

Section Live.
Context {V : Type} (isP : nat → bool) (pn : petri_net V) (cf : config V).
Hypothesis Hc : compile isP pn = Ok (cf_compiled cf).
Hypothesis Hwf : ∀ tid t, net_transitions pn !! tid = Some t → transition_wf t.
Hypothesis Htargets : placeMatchTargets cf = matchTargets (cf_compiled cf) <$> seq 0 (placeCount (cf_compiled cf)).
Variable providerThrows : jsstr → list (token V) → bool.
Abbreviation c := (cf_compiled cf).
Implicit Types (x : exec V) (e : engine V) (tr : transition V) (fl : flight V).

(** ** Settled flights are the queued ones *)

Definition live x : Prop :=
  (∀ tid fl, (tid, fl) ∈ inFlight x → fl_settled fl = true ↔ tid ∈ completionQueue x) ∧
  (∀ tid, tid ∈ completionQueue x → tid ∈ (inFlight x).*1).

(** Nothing is settled and nothing is queued. *)
Definition pending_only x : Prop := completionQueue x = [] ∧ ∀ tid fl, (tid, fl) ∈ inFlight x → fl_settled fl = false.

Lemma pending_live x : pending_only x → live x.
Proof.
  intros [E H]. split.
  - intros tid fl Hin. rewrite E, (H tid fl Hin). split; [done|]. by intros ?%not_elem_of_nil.
  - intros tid. rewrite E. by intros ?%not_elem_of_nil.
Qed.

(** ** The phases of a cycle *)

Lemma deposit_rest tname p tok x : inFlight (deposit cf tname p tok x) = inFlight x ∧ completionQueue (deposit cf tname p tok x) = completionQueue x.
Proof.
  unfold deposit. cbn zeta. destruct (tryPlaceId c p) as [pid|]; [by case_bool|].
  unfold warnUnknownPlace. by case_decide.
Qed.

Lemma complete_flight_rest tr tid fl x :
  inFlight (complete_flight cf tr tid fl x) = flights_delete tid (inFlight x) ∧
  completionQueue (complete_flight cf tr tid fl x) = completionQueue x.
Proof.
  unfold complete_flight. cbn zeta. case_bool; [done|]. destruct (validate tr fl) as [claim|]; [|done].
  cbn [on_engine set_engine set_unsettled inFlight completionQueue]. unfold deposit_outputs. cbn zeta.
  set (x1 := match claim with Some _ => _ | None => _ end).
  assert (inFlight x1 = flights_delete tid (inFlight x) ∧ completionQueue x1 = completionQueue x) as E.
  { unfold x1. destruct claim; [|done]. case_bool_decide; [|done]. unfold warnMultiplicity. case_decide; [done|]. cbn zeta. by case_bool_decide. }
  apply (foldl_inv (λ y, inFlight y = flights_delete tid (inFlight x) ∧ completionQueue y = completionQueue x)); [|done].
  intros y [p tok] _ [<- <-]. apply deposit_rest.
Qed.

Lemma elem_of_flights_delete tid tid' fl (l : list (nat * flight V)) : (tid', fl) ∈ flights_delete tid l ↔ tid' ≠ tid ∧ (tid', fl) ∈ l.
Proof. unfold flights_delete. by rewrite list_elem_of_filter. Qed.

Lemma process_completions_live q x : NoDup (inFlight x).*1 →
  (∀ tid fl, (tid, fl) ∈ inFlight x → fl_settled fl = true → tid ∈ q) →
  terminalReached (process_completions cf q x) = false → (∀ tid, tid ∈ q → tid ∈ (inFlight x).*1 → is_Some (c_transition c tid)) →
  ∀ tid fl, (tid, fl) ∈ inFlight (process_completions cf q x) → fl_settled fl = false.
Proof.
  revert x. induction q as [|t q IH]; intros x Hd Hs Ht Hlt; cbn [process_completions] in *.
  { intros tid fl Hin. destruct (fl_settled fl) eqn:E; [|done]. by apply Hs, not_elem_of_nil in Hin. }
  destruct (map_get t (inFlight x)) as [fl0|] eqn:E.
  2:{ apply IH; [done| |done|].
      - intros tid fl Hin Hset. pose proof (Hs tid fl Hin Hset) as [->|?]%elem_of_cons; [|done].
        apply map_get_None in E. destruct E. apply list_elem_of_fmap. by exists (t, fl).
      - intros. apply Hlt; [by right|done]. }
  pose proof (map_get_elem _ _ _ E) as Hin0.
  destruct (Hlt t) as [tr Etr]; [left|apply list_elem_of_fmap; by exists (t, fl0)|]. rewrite Etr in *. cbn zeta in *.
  destruct (complete_flight_rest tr t fl0 x) as [E1 E2].
  case_bool; [b2p; congruence|]. apply IH; [| |done|]; rewrite E1.
  - by apply NoDup_fst_filter.
  - intros tid fl [Hne Hin]%elem_of_flights_delete Hset. pose proof (Hs tid fl Hin Hset) as [?|?]%elem_of_cons; done.
  - intros tid Hq Hk. apply Hlt; [by right|]. apply list_elem_of_fmap in Hk as ([k v] & -> & [_ Hk]%elem_of_flights_delete).
    apply list_elem_of_fmap. by exists (k, v).
Qed.

Lemma completed_pending x : exec_inv cf x → live x → terminalReached (processCompletedTransitions cf x) = false →
  pending_only (processCompletedTransitions cf x).
Proof.
  intros H [L1 L2] Ht. unfold processCompletedTransitions in *. case_bool_decide as El.
  - apply nil_length_inv in El. split; [done|]. intros tid fl Hin. destruct (fl_settled fl) eqn:E; [|done].
    apply (L1 tid fl Hin) in E. rewrite El in E. by apply not_elem_of_nil in E.
  - split; [done|]. cbn [set_completions inFlight terminalReached] in *. apply (process_completions_live _ _ (xi_keys _ _ _ H)); [| done |].
    + intros tid fl Hin Hs. by apply (L1 tid fl Hin).
    + intros tid _ Hk. apply (flight_lt cf) in Hk; [|done]. by apply lookup_lt_is_Some_2.
Qed.

Lemma process_external_rest q x : inFlight (process_external cf q x) = inFlight x ∧ completionQueue (process_external cf q x) = completionQueue x.
Proof.
  revert x. induction q as [|ev q IH]; intros x; [done|]. cbn [process_external]. cbn zeta.
  destruct (deposit_rest [] (ev_place ev) (ev_token ev) x) as [E1 E2]. case_bool; [done|]. destruct (IH (set_external (tail (externalQueue (deposit cf [] (ev_place ev) (ev_token ev) x)))
     (admissions (deposit cf [] (ev_place ev) (ev_token ev) x) ++ [(ev_id ev, true)]) (deposit cf [] (ev_place ev) (ev_token ev) x))) as [-> ->]. done.
Qed.

Lemma processExternal_rest x : inFlight (processExternalEvents cf x) = inFlight x ∧ completionQueue (processExternalEvents cf x) = completionQueue x.
Proof. unfold processExternalEvents. case_bool_decide; [done|]. case_bool; [done|]. apply process_external_rest. Qed.

Lemma pending_same x y : inFlight y = inFlight x → completionQueue y = completionQueue x → pending_only x → pending_only y.
Proof. intros E1 E2 [H1 H2]. split; [congruence|]. intros tid fl. rewrite E1. apply H2. Qed.

(** ** Firing *)

(** What one move of a firing pass leaves of the run state. *)
Lemma fire_step_rest x x' : exec_inv cf x → fire_step cf providerThrows x x' →
  completionQueue x' = completionQueue x ∧ closed x' = closed x ∧ draining x' = draining x ∧
  (∀ tid fl, (tid, fl) ∈ inFlight x' → (tid, fl) ∈ inFlight x ∨ fl_settled fl = false) ∧
  (inFlight x ≠ [] → inFlight x' ≠ []) ∧
  ((∃ tid, dirty_of (x_engine x) tid) → ∃ tid, dirty_of (x_engine x') tid) ∧
  ((∃ tid tr, c_transition c tid = Some tr ∧ flag (enabledFlags (x_engine x)) tid = true ∧ ¬ enabled_in tr (e_marking (x_engine x))) ∨
   inFlight x' ≠ [] ∨ ∃ tid, dirty_of (x_engine x') tid).
Proof.
  intros H Hstep. destruct Hstep as [tid tr Ht Hen Hin|tid tr Ht Hen Hn].
  2:{ split_and!; try done; [by left|left; eauto]. }
  pose proof (xi_engine _ _ H) as He.
  assert (tid ∉ (inFlight x).*1) as Hfresh.
  { intros Hk%(xi_flight _ _ _ H). by rewrite (fo_excl _ _ (ei_flags _ _ _ He) tid Hen) in Hk. }
  destruct (fireTransition_inv isP pn cf Hc Hwf providerThrows _ tid tr (x_engine x) Ht He Hen Hin) as (I1 & I2 & _ & I4).
  unfold fireTransitionContained. rewrite Ht. destruct (fireTransition cf providerThrows tid tr (x_engine x)) as [e' [fl|]] eqn:Ef; cbn [fst snd] in *.
  - cbn [set_unsettled set_flights set_engine completionQueue closed draining inFlight x_engine].
    assert (inFlight x ++ [(tid, fl)] ≠ []) as Hne by (by destruct (inFlight x)).
    rewrite map_set_new by done. split_and!; try done; [|intros [y Hy]; eauto|by right; left].
    intros t f [Hf|Hf%list_elem_of_singleton]%elem_of_app; [by left|]. right. injection Hf as -> ->.
    unfold fireTransition in Ef. destruct (providerThrows _ _); [done|]. by injection Ef as _ <-.
  - assert (engine_inv cf (dirty_of e') e') as I1' by (eapply engine_inv_weaken; [|exact I1]; intros y [?|?]; auto).
    destruct (fire_failed_engine isP pn cf Hc Hwf _ tid tr e' Ht I1') as (_ & _ & _ & J4 & J5).
    { rewrite (proj1 I4). by apply (fo_excl _ _ (ei_flags _ _ _ He)). }
    unfold fire_failed. cbn zeta. cbn [set_unsettled set_engine x_engine inFlight completionQueue closed draining set_flights].
    rewrite (decide_False (P := tid ∈ (inFlight x).*1)) by done.
    assert (flights_delete tid (inFlight x) = inFlight x) as Edel.
    { clear -Hfresh. unfold flights_delete. induction (inFlight x) as [|y l IH]; [done|]. rewrite fmap_cons, elem_of_cons in Hfresh.
      rewrite filter_cons, decide_True by naive_solver. rewrite IH by naive_solver. done. }
    rewrite Edel. split_and!; try done; eauto.
Qed.

Lemma fire_steps_rest x x' : rtc (fire_step cf providerThrows) x x' → exec_inv cf x →
  completionQueue x' = completionQueue x ∧ closed x' = closed x ∧ draining x' = draining x ∧
  (∀ tid fl, (tid, fl) ∈ inFlight x' → (tid, fl) ∈ inFlight x ∨ fl_settled fl = false) ∧
  (inFlight x ≠ [] → inFlight x' ≠ []) ∧
  ((∃ tid, dirty_of (x_engine x) tid) → ∃ tid, dirty_of (x_engine x') tid) ∧
  (engine_inv cf (λ _, False) (x_engine x) → x' = x ∨ inFlight x' ≠ [] ∨ ∃ tid, dirty_of (x_engine x') tid).
Proof.
  induction 1 as [x|x y z Hxy Hyz IH]; intros H; [split_and!; auto|].
  destruct (fire_step_rest x y H Hxy) as (A1 & A2 & A3 & A4 & A5 & A6 & A7).
  destruct IH as (B1 & B2 & B3 & B4 & B5 & B6 & _); [by eapply fire_step_inv|].
  split_and!; [congruence|congruence|congruence| |auto|auto|].
  - intros tid fl Hz. destruct (B4 tid fl Hz) as [Hy|]; [by apply A4|by right].
  - intros He. right. destruct A7 as [(tid & tr & Ht & Hen & Hn)|[?|?]]; [|by left; apply B5|right; auto].
    destruct Hn. apply (ei_sound _ _ _ He tid tr Ht); [by intros []|done].
Qed.

Lemma dirty_bits e tid : dirty_of e tid → hasDirtyBits e = true.
Proof.
  unfold dirty_of, bit_of, word_at, hasDirtyBits. destruct (dirtySet e !! (tid / 32)) as [w|] eqn:E; cbn; [|by rewrite Z.testbit_0_l].
  intros Hb. apply existsb_exists. exists w. split; [apply list_elem_of_In; by eapply list_elem_of_lookup_2|].
  destruct (w =? 0)%Z eqn:Ez; [|done]. b2p. subst. by rewrite Z.testbit_0_l in Hb.
Qed.

(** What the loop knows when it enters its wait. *)
Definition has_cause x : Prop :=
  closed x = true ∨ hasEnvironmentPlaces cf = true ∨ inFlight x ≠ [] ∨ enabledTransitionCount (x_engine x) ≠ 0%Z.

Lemma should_not_terminate x : shouldTerminate cf x = false → completionQueue x = [] → has_cause x.
Proof.
  intros H E. unfold shouldTerminate in H. cbn zeta in H. unfold has_cause. rewrite E in H. cbn [length] in H.
  destruct (closed x); [by left|]. destruct (hasEnvironmentPlaces cf); [right; by left|]. right. right.
  destruct (inFlight x); [right|by left]. cbn [length] in H. rewrite !bool_decide_true in H by done.
  destruct (enabledTransitionCount (x_engine x) =? 0)%Z eqn:E0; [done|]. by apply Z.eqb_neq.
Qed.

Lemma cycle_live now now' x x' r : exec_inv cf x → live x → cycle cf providerThrows now now' x = (x', r) → r ≠ Exit →
  pending_only x' ∧ (r = Await → has_cause x').
Proof.
  intros H L. unfold cycle. case_bool; [by intros [= <- <-]|].
  pose proof (completed_pending x H L) as P1. pose proof (processCompleted_inv isP pn cf Hc Hwf Htargets providerThrows x H) as H1.
  set (x1 := processCompletedTransitions cf x) in *. destruct (terminalReached x1); [by intros [= <- <-]|]. specialize (P1 eq_refl).
  pose proof (processExternal_inv isP pn cf Hc Hwf Htargets providerThrows x1 H1) as H2. destruct (processExternal_rest x1) as [E1 E2].
  set (x2 := processExternalEvents cf x1) in *. case_bool; [by intros [= <- <-]|].
  destruct (scan_inv_exec isP pn cf Hc Hwf Htargets now now' x2 H2) as (H3 & H4 & F1 & _ & F3). cbn zeta in *.
  set (x3 := if hasAnyDeadlines cf then _ else _) in *. destruct (shouldTerminate cf x3) eqn:Es; [by intros [= <- <-]|].
  assert (pending_only x3) as P3 by (apply (pending_same x1); [by rewrite F1|by rewrite F3|done]).
  pose proof (should_not_terminate x3 Es (proj1 P3)) as Hcause.
  pose proof (fireReady_steps isP pn cf Hc Hwf providerThrows now' x3 H3) as Hf.
  destruct (fire_steps_rest _ _ Hf H3) as (G1 & G2 & G3 & G4 & G5 & _ & G7).
  intros [= <- <-] _. set (x4 := fireReadyTransitions cf providerThrows now' x3) in *. split.
  - split; [rewrite G1; apply P3|]. intros tid fl Hin. destruct (G4 tid fl Hin) as [Hin3|]; [by apply (proj2 P3 tid fl)|done].
  - intros Ha. destruct (G7 H4) as [E|[Hne|[tid Hdirty]]].
    + by rewrite E.
    + right. right. by left.
    + apply dirty_bits in Hdirty. by rewrite Hdirty in Ha.
Qed.

(** ** The system *)

Definition parked_ok x (w : wait) : Prop :=
  pending_only x ∧ w_flights w = (inFlight x).*1 ∧
  (w_wakeUp w = false → closed x = true ∧ inFlight x ≠ []) ∧
  (w_wakeUp w = true → closed x = false ∧ externalQueue x = [] ∧
     (w_flights w ≠ [] ∨ w_timer w ≠ None ∨ hasEnvironmentPlaces cf = true)).

Definition live_sys (s : sys (V := V)) : Prop :=
  match s_point s with
  | Finished => True
  | AtCycle | Resumed _ => live (s_exec s)
  | AtWait | AtFlush => live (s_exec s) ∧ has_cause (s_exec s)
  | Parked w => parked_ok (s_exec s) w
  end.

(** The timer of a wait: zero when a boundary is due, infinite when nothing is enabled. *)
Lemma millis_loop_Infinity now e l m : millis_loop cf now e l m = Infinity →
  m = Infinity ∧ ∀ tid, tid ∈ l → tid < transitionCount c → flag (enabledFlags e) tid = false.
Proof.
  revert m. induction l as [|t l IH]; intros m; cbn [millis_loop].
  { intros ->. split; [done|]. intros tid ?%not_elem_of_nil. done. }
  assert (∀ m', millis_loop cf now e l m' = Infinity → (flag (enabledFlags e) t = false ∨ c_transition c t = None) →
    m' = Infinity ∧ ∀ tid, tid ∈ t :: l → tid < transitionCount c → flag (enabledFlags e) tid = false) as Hrec.
  { intros m' Hm [Hf|Hn]; destruct (IH m' Hm) as [-> Ha]; (split; [done|]); intros tid [->|Hin]%elem_of_cons Hlt; auto.
    apply lookup_lt_is_Some_2 in Hlt as [tr Htr]. unfold c_transition in Hn. congruence. }
  destruct (flag (enabledFlags e) t) eqn:Ef; cbn [negb]; [|intros Hm; apply Hrec; auto].
  destruct (c_transition c t) as [tr|] eqn:Et; [|intros Hm; apply Hrec; auto].
  destruct (elapsed now t e) as [el|]; [|done]. cbn zeta. case_bool; [done|].
  assert (∀ a z, jnum_min a (Fin z) ≠ Infinity) as Hmin by (intros [a|] z; unfold jnum_min; simpl; [by case_bool|done]).
  case_bool; [case_bool; [done|]|]; intros Hm; destruct (IH _ Hm) as [E _]; by apply Hmin in E.
Qed.

Lemma millis_nonneg now e : match millisUntilNextTimedTransition cf now e with Fin ms => (0 ≤ ms)%Z | Infinity => True end.
Proof.
  unfold millisUntilNextTimedTransition. generalize (seq 0 (transitionCount c)). intros l.
  assert (∀ m, match m with Fin ms => (0 ≤ ms)%Z | Infinity => True end →
    match millis_loop cf now e l m with Fin ms => (0 ≤ ms)%Z | Infinity => True end) as H; [|by apply H].
  induction l as [|t l IH]; intros m Hm; cbn [millis_loop]; [done|].
  case_bool; [by apply IH|]. destruct (c_transition c t) as [tr|]; [|by apply IH]. destruct (elapsed now t e) as [el|]; [|done]. cbn zeta.
  assert (∀ m z, match m with Fin ms => (0 ≤ ms)%Z | Infinity => True end → (0 < z)%Z →
    match jnum_min m (Fin z) with Fin ms => (0 ≤ ms)%Z | Infinity => True end) as Hmin.
  { intros [a|] z Ha Hz; unfold jnum_min; simpl; [case_bool; lia|lia]. }
  case_bool; [done|]. b2p. case_bool; [case_bool; [done|]; b2p|]; apply IH; repeat apply Hmin; done || lia.
Qed.

Lemma millis_Infinity now e : flags_ok cf e → millisUntilNextTimedTransition cf now e = Infinity → enabledTransitionCount e = 0%Z.
Proof.
  intros Hf Hm. apply millis_loop_Infinity in Hm as [_ Hm]. rewrite (fo_count _ _ Hf). apply count_true_zero. intros i.
  destruct (decide (i < transitionCount c)) as [Hi|Hi]; [apply Hm; [apply elem_of_seq; lia|done]|].
  unfold flag. rewrite lookup_ge_None_2; [done|]. rewrite (proj2 (proj2 (fo_len _ _ Hf))). lia.
Qed.

Lemma park_live now x : exec_inv cf x → live x → has_cause x → live_sys (after_park (park cf now x)).
Proof.
  intros H L Hcause. unfold park. cbn zeta. destruct (wakeUpPending x); [done|]. destruct (work_queued x) eqn:Ew; [done|].
  unfold work_queued in Ew. apply orb_false_iff in Ew as [Ew1 Ew2]. apply bool_decide_eq_false in Ew1.
  assert (completionQueue x = []) as Eq by (apply nil_length_inv; lia).
  assert (pending_only x) as Hp.
  { split; [done|]. intros tid fl Hin. destruct (fl_settled fl) eqn:E; [|done]. apply (proj1 L tid fl Hin) in E. rewrite Eq in E. by apply not_elem_of_nil in E. }
  destruct (closed x) eqn:Ec; cbn [andb negb] in *.
  - case_bool_decide as Hl; [done|]. cbn [after_park live_sys s_point s_exec]. split_and!; [done|done| |done].
    intros _. split; [done|]. by intros E; rewrite E in Hl.
  - assert (externalQueue x = []) as Ex by (apply nil_length_inv; apply bool_decide_eq_false in Ew2; lia).
    destruct (bool_decide (millisUntilNextTimedTransition cf now (x_engine x) = Fin 0) && bool_decide (length (inFlight x) = 0)) eqn:E0; [done|].
    cbn [after_park live_sys s_point s_exec]. split_and!; [done|done|done|]. intros _. split_and!; [done|done|]. cbn [w_flights w_timer].
    destruct (inFlight x) as [|y l] eqn:Ein; [right|by left]. cbn [length] in E0. rewrite (bool_decide_true (0 = 0)), andb_true_r in E0 by done.
    apply bool_decide_eq_false in E0. destruct (millisUntilNextTimedTransition cf now (x_engine x)) as [ms|] eqn:Em.
    + left. pose proof (millis_nonneg now (x_engine x)) as Hnn. rewrite Em in Hnn. rewrite (proj2 (Z.ltb_lt 0 ms)); [done|].
      assert (ms ≠ 0%Z) by congruence. lia.
    + right. destruct Hcause as [Hcl|[?|[?|Hn]]]; [congruence|done|done|].
      by apply millis_Infinity in Em; [|apply (ei_flags _ _ _ (xi_engine _ _ H))].
Qed.

(** ** Host steps *)

(** What of an executor the invariant reads. *)
Definition settled_of x : list (nat * bool) := (λ y, (y.1, fl_settled y.2)) <$> inFlight x.
Definition live_view x := (settled_of x, completionQueue x, externalQueue x, closed x, enabledTransitionCount (x_engine x)).

Lemma settled_keys x : (settled_of x).*1 = (inFlight x).*1.
Proof. unfold settled_of. rewrite <- list_fmap_compose. by apply list_fmap_ext. Qed.

Lemma elem_of_settled x tid b : (tid, b) ∈ settled_of x ↔ ∃ fl, (tid, fl) ∈ inFlight x ∧ fl_settled fl = b.
Proof.
  unfold settled_of. rewrite list_elem_of_fmap. split.
  - intros ([k fl] & [= -> ->] & Hin). eauto.
  - intros (fl & Hin & <-). by exists (tid, fl).
Qed.

Lemma live_sys_view x x' p : live_view x = live_view x' → live_sys (Sys x p) → live_sys (Sys x' p).
Proof.
  unfold live_view. intros [= E1 E2 E3 E4 E5].
  assert ((inFlight x).*1 = (inFlight x').*1) as Ek by (by rewrite <- !settled_keys, E1).
  assert (inFlight x ≠ [] → inFlight x' ≠ []) as En by (destruct (inFlight x), (inFlight x'); done).
  assert (∀ tid fl, (tid, fl) ∈ inFlight x' → ∃ fl', (tid, fl') ∈ inFlight x ∧ fl_settled fl' = fl_settled fl) as Hin.
  { intros tid fl H. apply elem_of_settled. rewrite E1. apply elem_of_settled. eauto. }
  assert (live x → live x') as HL.
  { intros [L1 L2]. split.
    - intros tid fl H. destruct (Hin tid fl H) as (fl' & H' & <-). rewrite <- E2. by apply L1.
    - intros tid. rewrite <- E2, <- Ek. apply L2. }
  assert (has_cause x → has_cause x') as HC.
  { unfold has_cause. rewrite <- E4, <- E5. tauto. }
  unfold live_sys. cbn [s_point s_exec]. destruct p as [| | |w|w|]; try tauto.
  intros ([P1 P2] & W1 & W2 & W3). unfold parked_ok. rewrite <- Ek, <- E4, <- E3. split_and!; [|done| |done].
  - split; [congruence|]. intros tid fl H. destruct (Hin tid fl H) as (fl' & H' & <-). by apply (P2 tid).
  - intros H. destruct (W2 H). auto.
Qed.

Lemma live_view_keys x x' : live_view x = live_view x' → (inFlight x').*1 = (inFlight x).*1.
Proof. unfold live_view. intros [= E _ _ _ _]. by rewrite <- !settled_keys, E. Qed.

Lemma wakeUp_live s : live_sys s → live_sys (wakeUp s).
Proof.
  destruct s as [x p]. unfold wakeUp. cbn [s_point s_exec]. intros H.
  assert (∀ q, live_sys (Sys x q) → live_sys (Sys (set_wake true x) q)) as Hw by (intros q; by apply live_sys_view).
  destruct p as [| | |w|w|]; try by apply Hw.
  - destruct (w_wakeUp w) eqn:E; [|by apply Hw]. destruct H as [H _]. by apply pending_live.
  - destruct (w_wakeUp w); [done|by apply Hw].
Qed.

Lemma set_flight_view tid fl fl' x : map_get tid (inFlight x) = Some fl → fl_settled fl' = fl_settled fl →
  live_view x = live_view (set_flight tid fl' x).
Proof.
  intros Hg Hs. unfold live_view. cbn [set_flight set_flights completionQueue externalQueue closed x_engine].
  do 4 f_equal. unfold settled_of, set_flight. cbn [set_flights inFlight]. revert Hg.
  induction (inFlight x) as [|[k v] l IH]; [done|]. cbn [map_get map_set]. case_decide; rewrite !fmap_cons; cbn [fst snd].
  - intros [= ->]. subst. by rewrite Hs.
  - intros Hg. by rewrite IH.
Qed.

Lemma map_set_elem_inv {A} (k : nat) (v : A) l k' v' : NoDup l.*1 → (k', v') ∈ map_set k v l → (k' = k ∧ v' = v) ∨ (k' ≠ k ∧ (k', v') ∈ l).
Proof.
  induction l as [|[k1 v1] l IH]; cbn [map_set]; intros Hd.
  - intros [= -> ->]%list_elem_of_singleton. by left.
  - rewrite fmap_cons in Hd. apply NoDup_cons in Hd as [Hn Hd]. case_decide as E; rewrite !elem_of_cons.
    + subst. intros [[= -> ->]|Hin]; [by left|]. right. split; [|by right]. intros ->. apply Hn. apply list_elem_of_fmap. by exists (k1, v').
    + intros [[= -> ->]|Hin]; [right; split; [done|by left]|]. destruct (IH Hd Hin) as [?|[? ?]]; [by left|]. right. split; [done|by right].
Qed.

Lemma settle_live tid err s : NoDup (inFlight (s_exec s)).*1 → live_sys s → live_sys (settle tid err s).
Proof.
  destruct s as [x p]. intros Hd H. unfold settle. cbn zeta. cbn [s_exec s_point] in *.
  destruct (map_get tid (inFlight x)) as [fl|] eqn:E; [|done]. destruct (fl_settled fl) eqn:Es; [done|].
  set (fl' := Flight _ _ _ _ _). set (x' := set_completions _ (set_flight tid fl' x)).
  pose proof (map_get_elem _ _ _ E) as Hin.
  assert (tid ∈ (inFlight x).*1) as Hk by (apply list_elem_of_fmap; by exists (tid, fl)).
  assert ((inFlight x').*1 = (inFlight x).*1) as Ek by (unfold x', set_flight; cbn [set_completions set_flights inFlight]; by apply map_set_keys_in).
  assert (live x → live x') as HL.
  { intros [L1 L2]. split.
    - intros t f Hf. unfold x', set_flight in Hf |- *. cbn [set_completions set_flights inFlight completionQueue] in *. rewrite elem_of_app, list_elem_of_singleton.
      destruct (map_set_elem_inv _ _ _ _ _ Hd Hf) as [[-> ->]|[Hne Hf']]; [split; [by right|done]|]. rewrite (L1 t f Hf'). naive_solver.
    - intros t. rewrite Ek. unfold x'. cbn [set_completions completionQueue]. intros [Ht| ->%list_elem_of_singleton]%elem_of_app; [by apply L2|done]. }
  assert (has_cause x → has_cause x') as HC.
  { unfold has_cause, x', set_flight. cbn [set_completions set_flights closed inFlight x_engine]. intros [?|[?|[?|?]]]; auto.
    right. right. left. by destruct (inFlight x) as [|[k v] l]; [|cbn [map_set]; case_decide]. }
  unfold wakeUp. cbn [s_point s_exec]. assert (∀ q, live_sys (Sys x' q) → live_sys (Sys (set_wake true x') q)) as Hw by (intros q; by apply live_sys_view).
  destruct p as [| | |w|w|]; cbn [s_point s_exec].
  - apply Hw. exact (HL H).
  - apply Hw. destruct H. split; [by apply HL|by apply HC].
  - apply Hw. destruct H. split; [by apply HL|by apply HC].
  - destruct H as [Hp [Wf _]]. pose proof (HL (pending_live x Hp)) as HL'. destruct (w_wakeUp w); cbn [s_point s_exec]; [done|].
    rewrite decide_True by (by rewrite Wf). exact HL'.
  - destruct (w_wakeUp w); cbn [s_point s_exec]; [|apply Hw]; exact (HL H).
  - done.
Qed.

Lemma close_live s : live_sys s → live_sys (close s).
Proof.
  destruct s as [x p]. unfold close. cbn zeta. cbn [s_exec s_point]. set (x' := set_host true true _ _ x). intros H.
  destruct p as [| | |w|w|]; try (apply wakeUp_live; exact H).
  - apply wakeUp_live. destruct H as [L _]. split; [exact L|by left].
  - apply wakeUp_live. destruct H as [L _]. split; [exact L|by left].
  - destruct H as (Hp & Wf & W2 & W3). unfold wakeUp. cbn [s_point s_exec]. destruct (w_wakeUp w) eqn:E; [exact (pending_live x Hp)|].
    split_and!; [exact Hp|done| |by rewrite E]. intros _. split; [done|]. by apply W2.
Qed.

Lemma actionTimedOut_live tid now s : NoDup (inFlight (s_exec s)).*1 → live_sys s → live_sys (actionTimedOut cf tid now s).
Proof.
  destruct s as [x p]. intros Hd H. unfold actionTimedOut. cbn zeta. cbn [s_exec s_point] in *.
  destruct (map_get tid (inFlight x)) as [fl|] eqn:E; [|done]. destruct (c_transition c tid) as [t|]; [|done].
  destruct (actionTimeout t) as [[ms child]|]; [|done]. destruct (fl_settled fl) eqn:Es; [done|].
  assert (∀ cx err f, (∀ y, live_view y = live_view (f y)) → live_sys (settle tid err (Sys (f (set_flight tid (with_context cx fl) x)) p))) as Hs.
  { intros cx err f Hf. assert (live_view x = live_view (f (set_flight tid (with_context cx fl) x))) as Ev.
    { rewrite <- Hf. by apply (set_flight_view tid fl). }
    apply settle_live; cbn [s_exec]; [by rewrite (live_view_keys _ _ Ev)|]. revert H. by apply live_sys_view. }
  destruct (produceTimeoutOutput _ _ _) as [cx'|]; [apply (Hs cx' None (on_engine (emit _)))|apply (Hs _ _ id)]; done.
Qed.

Lemma sys_step_live s s' : sys_step cf providerThrows s s' → sys_inv cf s → live_sys s → live_sys s'.
Proof.
  intros Hstep Hi H. pose proof (xi_keys _ _ _ Hi) as Hd.
  destruct Hstep as [x n1 n2|x|x now|x w ms Hw|x w|id p tok s s' Hs Hin|s|s|b s|tid err s|tid now s Hn|tid call s Hcall|tid x pt].
  - pose proof (cycle_live n1 n2 x) as Hcy. destruct (cycle cf providerThrows n1 n2 x) as [x' r] eqn:E. specialize (Hcy x' r Hi H eq_refl).
    destruct r; cbn [after_cycle]; [done| |]; destruct Hcy as [Hp Hca]; try done; [by apply pending_live|]. split; [by apply pending_live|by apply Hca].
  - destruct H as [L Hca]. case_bool; done.
  - destruct H as [L Hca]. by apply park_live.
  - destruct H as [Hp _]. by apply pending_live.
  - exact H.
  - destruct s as [x q]. unfold inject in Hin. cbn zeta in Hin. cbn [s_exec s_point] in *. case_bool_decide; [done|].
    destruct (closed x || draining x || terminalReached x) eqn:Ec; injection Hin as <-.
    { revert H. by apply live_sys_view. }
    apply orb_false_iff in Ec as [[Ec _]%orb_false_iff _].
    set (x' := set_external _ _ x).
    assert (∀ r, (∀ w, r ≠ Parked w) → live_sys (Sys x r) → live_sys (Sys x' r)) as Hr.
    { intros [| | |w|w|] Hne Hl; try exact Hl. by destruct (Hne w). }
    destruct q as [| | |w|w|]; try (apply wakeUp_live, Hr; [by intros ?|done]).
    unfold wakeUp. cbn [s_point s_exec]. destruct H as (Hp & Wf & W2 & W3). destruct (w_wakeUp w); [by apply pending_live|].
    destruct W2 as [W2 _]; [done|]. exfalso. revert W2. cbn [s_exec]. by rewrite Ec.
  - apply wakeUp_live. destruct s as [x p]. revert H. by apply live_sys_view.
  - by apply close_live.
  - unfold budgetExpired. cbn zeta. destruct s as [x p]. cbn [s_exec s_point] in *.
    assert (live_sys (Sys (set_host (draining x) (closed x) (running x) (match reason x with Running => Stopped | r => r end) x) p)) as H'
      by (revert H; by apply live_sys_view).
    destruct b; [by apply close_live|done].
  - by apply settle_live.
  - by apply actionTimedOut_live.
  - unfold actionCall. cbn zeta. destruct s as [x p]. cbn [s_exec s_point] in *. destruct (map_get tid (inFlight x)) as [fl|] eqn:E; [|done].
    revert H. apply live_sys_view. by apply (set_flight_view tid fl).
  - revert H. by apply live_sys_view.
Qed.

Lemma reachable_live x0 s : exec_inv cf (start cf x0) → live (start cf x0) → reachable cf providerThrows x0 s → live_sys s.
Proof.
  intros Hi Hl Hr. assert (∀ a b, rtc (sys_step cf providerThrows) a b → sys_inv cf a → live_sys a → live_sys b) as H.
  { induction 1 as [|a b d Hab _ IH]; intros H1 H2; [done|]. apply IH.
    - by apply (sys_step_inv isP pn cf Hc Hwf Htargets providerThrows a b).
    - by apply (sys_step_live a b). }
  by apply (H _ _ Hr).
Qed.

(** ** Passes without a wait *)

(** [spin k x x']: from [x], [k] passes in a row end in [continue]. *)
Inductive spin : nat → exec V → exec V → Prop :=
| spin_stop x : spin 0 x x
| spin_pass k x y z scanMs cycleNowMs :
    cycle cf providerThrows scanMs cycleNowMs x = (y, Continue) → spin k y z → spin (S k) x z.

Lemma fire_steps_grow x x' : (∀ n toks, providerThrows n toks = false) → rtc (fire_step cf providerThrows) x x' → exec_inv cf x →
  length (inFlight x) ≤ length (inFlight x') ∧
  (dirtySet (x_engine x') = dirtySet (x_engine x) ∨ length (inFlight x) < length (inFlight x')).
Proof.
  intros Hp. induction 1 as [|x y z Hxy Hyz IH]; intros H; [by auto|].
  assert (exec_inv cf y) as Hy by (by eapply fire_step_inv). destruct (IH Hy) as [I1 I2].
  assert (dirtySet (x_engine y) = dirtySet (x_engine x) ∧ inFlight y = inFlight x ∨ length (inFlight y) = S (length (inFlight x))) as Hs.
  { destruct Hxy as [tid tr Ht Hen _|]; [right|by left]. pose proof (contained_keys cf providerThrows x tid tr H Ht Hen) as Hk.
    rewrite Hp in Hk. apply (f_equal length) in Hk. rewrite length_app, !length_fmap in Hk. cbn in Hk. lia. }
  destruct Hs as [[E1 E2]|E]; [rewrite E1, E2 in *; auto|]. split; [lia|]. right. lia.
Qed.

Lemma enforce_dirty now e : dirtySet (enforceDeadlines cf now e) = dirtySet e.
Proof.
  unfold enforceDeadlines. apply (foldl_inv (λ e', dirtySet e' = dirtySet e)); [|done].
  intros e' tid _ <-. unfold enforce_deadline. repeat case_match; done.
Qed.

Lemma cycle_grows now now' x x' : (∀ n toks, providerThrows n toks = false) → exec_inv cf x → live x →
  cycle cf providerThrows now now' x = (x', Continue) →
  1 ≤ length (inFlight x') ∧ (pending_only x → length (inFlight x) < length (inFlight x')).
Proof.
  intros Hp H L. unfold cycle. case_bool; [done|].
  pose proof (processCompleted_inv isP pn cf Hc Hwf Htargets providerThrows x H) as H1.
  assert (pending_only x → inFlight (processCompletedTransitions cf x) = inFlight x) as E1.
  { intros [E _]. unfold processCompletedTransitions. by rewrite E. }
  set (x1 := processCompletedTransitions cf x) in *. case_bool; [done|].
  pose proof (processExternal_inv isP pn cf Hc Hwf Htargets providerThrows x1 H1) as H2. destruct (processExternal_rest x1) as [E2 _].
  set (x2 := processExternalEvents cf x1) in *. case_bool; [done|].
  destruct (scan_inv_exec isP pn cf Hc Hwf Htargets now now' x2 H2) as (H3 & _ & E3 & _). cbn zeta in *.
  set (x3 := if hasAnyDeadlines cf then _ else _) in *. case_bool; [done|].
  assert (hasDirtyBits (x_engine x3) = false) as Hclean.
  { unfold x3. case_bool; cbn [on_engine set_engine x_engine]; [|apply updateDirty_clears].
    unfold hasDirtyBits. rewrite enforce_dirty. apply updateDirty_clears. }
  destruct (fire_steps_grow x3 _ Hp (fireReady_steps isP pn cf Hc Hwf providerThrows now' x3 H3) H3) as [G1 G2].
  intros [= <- Hd]. destruct (hasDirtyBits (x_engine (fireReadyTransitions cf providerThrows now' x3))) eqn:Hdirty; [|done].
  destruct G2 as [G2|G2]; [unfold hasDirtyBits in *; congruence|]. split; [lia|]. intros Hpo.
  rewrite E3, E2, E1 in G2; done.
Qed.

Lemma spin_grows k x x' : (∀ n toks, providerThrows n toks = false) → exec_inv cf x → live x → spin k x x' →
  exec_inv cf x' ∧ k ≤ length (inFlight x') ∧ (pending_only x → length (inFlight x) + k ≤ length (inFlight x')).
Proof.
  intros Hp H L Hs. induction Hs as [|k x y z n1 n2 E Hs IH]; [split_and!; [done|lia|lia]|].
  pose proof (cycle_inv isP pn cf Hc Hwf Htargets providerThrows n1 n2 x H) as Hy. rewrite E in Hy. cbn [fst] in Hy.
  destruct (cycle_live n1 n2 x y Continue H L E) as [Py _]; [done|].
  destruct (cycle_grows n1 n2 x y Hp H L E) as [G1 G2]. destruct (IH Hy (pending_live y Py)) as (I1 & I2 & I3).
  specialize (I3 Py). split_and!; [done|lia|]. intros Px. specialize (G2 Px). lia.
Qed.

Lemma flights_bound x : exec_inv cf x → length (inFlight x) ≤ transitionCount c.
Proof.
  intros H. rewrite <- (length_fmap fst (inFlight x)), <- (length_seq (transitionCount c) 0). apply submseteq_length, NoDup_submseteq.
  - apply (xi_keys _ _ _ H).
  - intros tid Hin. apply elem_of_seq. pose proof (flight_lt cf x tid H Hin). lia.
Qed.
End Live.

(** ** Runs of the samples *)

Section Steps.
Context {V : Type} (cf : config V) (providerThrows : jsstr → list (token V) → bool).

Lemma cycle_at s now now' : s_point s = AtCycle → sys_step cf providerThrows s (after_cycle (cycle cf providerThrows now now' (s_exec s))).
Proof. destruct s as [x p]. cbn [s_point s_exec]. intros ->. apply step_cycle. Qed.

Lemma wait_at s : s_point s = AtWait → sys_step cf providerThrows s (Sys (s_exec s) (if work_queued (s_exec s) then AtCycle else AtFlush)).
Proof. destruct s as [x p]. cbn [s_point s_exec]. intros ->. apply step_wait. Qed.

Lemma park_at s now : s_point s = AtFlush → sys_step cf providerThrows s (after_park (park cf now (s_exec s))).
Proof. destruct s as [x p]. cbn [s_point s_exec]. intros ->. apply step_park. Qed.
End Steps.

(** Nothing is in flight when a run starts. *)
Lemma start_live {V} {isP rnd base} {pn : petri_net V} {initialTokens o cf x0} :
  deployed isP rnd base pn initialTokens o cf x0 → live (start cf x0).
Proof.
  intros Hd. pose proof (start_game Hd) as Hg. destruct (deployed_fresh Hd) as (_ & _ & Hq & _).
    assert (completionQueue (start cf x0) = []) as Eq.
    { unfold start. cbn zeta. case_bool; [|done]. unfold checkInitialTerminals. by case_bool. }
    apply pending_live. split; [done|]. intros tid fl Hin. assert (tid ∈ (game_of (start cf x0)).2.*1) as Hk.
    { rewrite game_of_keys. apply list_elem_of_fmap. by exists (tid, fl). }
    rewrite Hg in Hk. by apply not_elem_of_nil in Hk.
Qed.

Definition sample_second : sys (V := jsstr) := after_cycle (cycle sample.1 (λ _ _, false) 21 21 (s_exec sample_fired)).
Definition sample_flush : sys (V := jsstr) :=
  Sys (s_exec sample_second) (if work_queued (s_exec sample_second) then AtCycle else AtFlush).
Definition sample_parked : sys (V := jsstr) := after_park (park sample.1 22 (s_exec sample_flush)).

Lemma sample_parked_reachable : reachable sample.1 (λ _ _, false) sample.2 sample_parked.
Proof.
  eapply rtc_r; [|apply park_at; by vm_compute]. eapply rtc_r; [|apply wait_at; by vm_compute].
  eapply rtc_r; [exact sample_reachable|apply cycle_at; by vm_compute].
Qed.

(** Three transitions, each released by the firing of the one before. *)
Definition chain_b (n : string) (input : place) (inh : list place) : builder jsstr :=
  with_inhibitors inh (with_inputs [InOne input] (builder_new (js n))).
Definition chain_net : petri_net jsstr :=
  match net_build (foldl (λ b c, nb_run c b) (net_builder_new (js "chain"))
          [CallTransition 0 (built_or (chain_b "first" left_p [])); CallTransition 1 (built_or (chain_b "second" right_p [left_p]));
           CallTransition 2 (built_or (chain_b "third" pair_p [right_p]))]) with
  | Ok n => n | Err _ => PetriNet [] [] [] [] end.
Definition chain_tokens : list (place * list (token jsstr)) :=
  [(left_p, [Token None 1]); (right_p, [Token None 1]); (pair_p, [Token None 1])].
Definition chain_options : options (V := jsstr) := Options [] None None (Some (js "s")).
Definition chain : config jsstr * exec jsstr :=
  match construct (λ _, false) (js "r") 100 chain_net chain_tokens chain_options with Ok r => r | Err _ => sample end.

Lemma chain_deployed : deployed (λ _, false) (js "r") 100 chain_net chain_tokens chain_options chain.1 chain.2.
Proof.
  constructor.
  - intros t Ht. assert (net_transitions chain_net = built_or <$> [chain_b "first" left_p []; chain_b "second" right_p [left_p]; chain_b "third" pair_p [right_p]]) as E
      by (by vm_compute).
    rewrite E in Ht. apply list_elem_of_fmap in Ht as (b & -> & Hb). exists b.
    rewrite !elem_of_cons, elem_of_nil in Hb. destruct_or!; subst; (split; [by vm_compute|done]) || done.
  - by vm_compute.
  - intros s tok Hs Htok. unfold seed_of in Hs. cbn [o_restore chain_options] in Hs. unfold chain_tokens in Hs.
    rewrite !elem_of_cons, elem_of_nil in Hs. destruct_or!; subst; try done; cbn [snd] in Htok; apply list_elem_of_singleton in Htok as ->;
      unfold safe_token; vm_compute; discriminate.
Qed.

Definition pass (x : exec jsstr) : exec jsstr := (cycle chain.1 (λ _ _, false) 5 5 x).1.

(** ** Properties *)

(** C5: the loop never waits in vain. Whenever a run is parked on the race of a wait, no completion
    is queued and every flight is pending; the race holds exactly the flights, so the settling of
    any of them ends the wait; unless the executor is closed no external event is queued and the
    race holds the wake-up; and the race holds a flight, or the wake-up together with a timer or an
    environment place that can send it. *)
Theorem never_waits_in_vain {V} isP rnd base (pn : petri_net V) initialTokens o cf x0 providerThrows x w :
  deployed isP rnd base pn initialTokens o cf x0 → reachable cf providerThrows x0 (Sys x (Parked w)) →
  completionQueue x = [] ∧
  (∀ tid fl, (tid, fl) ∈ inFlight x → fl_settled fl = false) ∧
  w_flights w = (inFlight x).*1 ∧
  (∀ tid err, tid ∈ w_flights w → s_point (settle tid err (Sys x (Parked w))) = Resumed w) ∧
  (closed x = false → externalQueue x = [] ∧ w_wakeUp w = true) ∧
  (w_flights w ≠ [] ∨ w_wakeUp w = true ∧ (w_timer w ≠ None ∨ environmentPlaces cf ≠ [])).
Proof.
  intros Hd Hr. destruct (deployed_start Hd) as [Htg Hi]. pose proof (deployed_compiled Hd) as Hc. pose proof (deployed_wf Hd) as Hwf.
  pose proof (start_live Hd) as Hl.
  pose proof (reachable_live isP pn cf Hc Hwf Htg providerThrows x0 _ Hi Hl Hr) as ([P1 P2] & Wf & W2 & W3).
  pose proof (deployed_inv Hd providerThrows _ Hr) as Hk. apply xi_keys in Hk. cbn [s_exec] in *.
  split_and!; [done|done|done| | |].
  - intros tid err Hin. unfold settle. cbn zeta. cbn [s_exec s_point]. rewrite Wf in Hin.
    apply list_elem_of_fmap in Hin as ([tid' fl] & -> & Hin). cbn [fst]. rewrite (elem_map_get tid' fl _ Hk Hin), (P2 tid' fl Hin).
    unfold wakeUp. cbn [s_exec s_point]. destruct (w_wakeUp w); [done|]. cbn [s_point]. rewrite decide_True; [done|]. rewrite Wf. by apply (list_elem_of_fmap_2 fst (inFlight x) (tid', fl)).
  - intros Hcl. destruct (w_wakeUp w); [by destruct W3 as (_ & ? & _)|]. destruct W2; congruence.
  - destruct (w_wakeUp w) eqn:E.
    + destruct W3 as (_ & _ & [?|[?|He]]); [done|by left|by right; split; [|left]|]. right. split; [done|]. right.
      unfold hasEnvironmentPlaces in He. apply bool_decide_eq_true in He. intros E'. rewrite E' in He. simpl in He. lia.
    + left. destruct W2 as [_ Hne]; [done|]. rewrite Wf. by destruct (inFlight x).
Qed.

Lemma never_waits_in_vain_witness :
  sample_parked = Sys (s_exec sample_parked) (Parked (Wait [0] true None)) ∧
  ∀ tid err, tid ∈ [0] → s_point (settle tid err (Sys (s_exec sample_parked) (Parked (Wait [0] true None)))) = Resumed (Wait [0] true None).
Proof.
  assert (sample_parked = Sys (s_exec sample_parked) (Parked (Wait [0] true None))) as E by (by vm_compute).
  split; [exact E|]. pose proof sample_parked_reachable as Hr. rewrite E in Hr.
  destruct (never_waits_in_vain (λ _, false) (js "r") 100 sample_net sample_tokens sample_options sample.1 sample.2 (λ _ _, false)
              (s_exec sample_parked) (Wait [0] true None) sample_deployed Hr) as (_ & _ & _ & H & _).
  exact H.
Defined.

(** C24: the passes that skip the wait are bounded: when the provider does not throw, from every
    state of a run at most as many cycles as the net has transitions end in [continue] in a row,
    so the loop reaches its wait or its end. (The sample of the witness, a chain of three transitions, each
    inhibited by the place the one before empties, takes three.) *)
Theorem passes_bounded {V} isP rnd base (pn : petri_net V) initialTokens o cf x0 providerThrows x k x' :
  deployed isP rnd base pn initialTokens o cf x0 → reachable cf providerThrows x0 (Sys x AtCycle) →
  (∀ n toks, providerThrows n toks = false) → spin cf providerThrows k x x' →
  k ≤ transitionCount (cf_compiled cf).
Proof.
  intros Hd Hr Hp Hs. destruct (deployed_start Hd) as [Htg Hi]. pose proof (deployed_compiled Hd) as Hc. pose proof (deployed_wf Hd) as Hwf.
  pose proof (start_live Hd) as Hl.
  pose proof (reachable_live isP pn cf Hc Hwf Htg providerThrows x0 _ Hi Hl Hr) as L.
  pose proof (deployed_inv Hd providerThrows _ Hr) as Hx.
  destruct (spin_grows isP pn cf Hc Hwf Htg providerThrows k x x' Hp Hx L Hs) as (H1 & H2 & _).
  pose proof (flights_bound cf x' H1). lia.
Qed.

Lemma passes_bounded_witness :
  spin chain.1 (λ _ _, false) 3 (start chain.1 chain.2) (pass (pass (pass (start chain.1 chain.2)))) ∧
  3 ≤ transitionCount (cf_compiled chain.1).
Proof.
  assert (spin chain.1 (λ _ _, false) 3 (start chain.1 chain.2) (pass (pass (pass (start chain.1 chain.2))))) as H.
  { eapply (spin_pass _ _ _ _ (pass (start chain.1 chain.2)) _ 5 5); [by vm_compute|].
    eapply (spin_pass _ _ _ _ (pass (pass (start chain.1 chain.2))) _ 5 5); [by vm_compute|].
    eapply (spin_pass _ _ _ _ (pass (pass (pass (start chain.1 chain.2)))) _ 5 5); [by vm_compute|]. apply spin_stop. }
  split; [exact H|].
  refine (passes_bounded (λ _, false) (js "r") 100 chain_net chain_tokens chain_options chain.1 chain.2 (λ _ _, false)
            _ 3 _ chain_deployed (rtc_refl _ _) _ H).
  reflexivity.
Defined.
