(* ===== verification/ExecOutcome.v ===== *)
(** * What firings, completions and arrivals do to the tokens

    The tokens a firing takes, the tokens a completion leaves, the fate of a rejected firing, of an
    injected event and of a run that reached a terminal place, and the timer of the wait. *)
From S2P Require Import Prelude.
From S2P Require Import Net.
From S2P Require Import Out.
From S2P Require Import Transition.
From S2P Require Import Marking.
From S2P Require Import MatchEngine.
From S2P Require Import MatchSpec.
From S2P Require Import MatcherSpec.
From S2P Require Import PetriNet.
From S2P Require Import Bitmap.
From S2P Require Import CompiledNet.
From S2P Require Import OutputCheck.
From S2P Require Import Context.
From S2P Require Import Executor.
From S2P Require Import ExecFire.
From S2P Require Import ExecLoop.
From S2P Require Import ExecInv.
From S2P Require Import ExecCache.
From S2P Require Import ExecCoherent.
From S2P Require Import ExecFiring.
From S2P Require Import ExecRun.
From S2P Require Import ExecInit.
From S2P Require Import ExecGame.
From S2P Require Import ExecContract.
From S2P Require Import ExecOrder.
From S2P Require Import ExecLive.

(** ** The tokens of a firing *)

Section Firing.
Context {V : Type}.
Implicit Types (m : marking V) (q : list (token V)) (tr : transition V) (s : in_spec).

Lemma remove_matching_perm (g : option V → bool) k q : q ≡ₚ firstn k (matching g q) ++ remove_matching g k q.
Proof.
  unfold matching. revert k. induction q as [|t q IH]; intros [|k]; try done.
  cbn [remove_matching]. rewrite filter_cons. destruct (g (tok_value t)) eqn:E.
  - rewrite decide_True by done. cbn [firstn]. simpl. by rewrite <- IH.
  - rewrite decide_False by done. rewrite <- Permutation_middle. by rewrite <- IH.
Qed.

(** A token an input may take when the transition fires with the name [chosen]: any token, or for
    a correlated input a token of that name. *)
Definition suits tr (chosen : option name_id) s (tok : token V) : Prop :=
  match t_matchSpec tr, chosen with
  | Some ms, Some n => match keyForPlace ms (place_name (in_place s)) with
                       | Some key => key (tok_value tok) = Some n
                       | None => True
                       end
  | _, _ => True
  end.
#[export] Instance suits_dec tr chosen s tok : Decision (suits tr chosen s tok).
Proof. unfold suits. repeat case_match; apply _. Defined.

Lemma matching_suits tr chosen s q : matching (input_pred tr chosen s) q = filter (suits tr chosen s) q.
Proof.
  unfold matching. apply list_filter_iff. intros tok. unfold input_pred, input_predicate, suits, pred_of.
  repeat case_match; simplify_eq; cbn [default from_option id]; by rewrite ?bool_decide_eq_true.
Qed.

Definition input_law s (ok taken : list (token V)) : Prop :=
  match s with
  | InOne _ => ∃ t rest, ok = t :: rest ∧ taken = [t]
  | InExactly _ n => taken = firstn (Z.to_nat n) ok ∧ Z.of_nat (length taken) = n
  | InAll _ => taken = ok ∧ ok ≠ []
  | InAtLeast _ n => taken = ok ∧ (n ≤ Z.of_nat (length ok))%Z
  end.

Lemma input_law_enough s ok tr chosen q : (1 ≤ requiredCount s)%Z →
  ok = matching (input_pred tr chosen s) q → (requiredCount s ≤ Z.of_nat (length ok))%Z →
  input_law s ok (input_taken tr chosen s q).
Proof.
  intros H1 -> H2. unfold input_taken, input_law. set (ok := matching _ _) in *.
  destruct s as [p|p n|p|p n]; cbn [requiredCount input_count] in *.
  - destruct ok as [|t rest]; cbn in H2; [lia|]. by exists t, rest.
  - split; [done|]. rewrite length_take. lia.
  - fold ok. rewrite firstn_all. split; [done|]. intros E. rewrite E in H2. cbn in H2. lia.
  - fold ok. rewrite firstn_all. done.
Qed.

Lemma lookup_key_Some (keys : list (match_key V)) n key :
  lookup_key keys n = Some key → ∃ k, k ∈ keys ∧ key_name k = n ∧ mk_key k = key.
Proof.
  induction keys as [|k keys IH]; [done|]. cbn [lookup_key]. case_decide.
  - intros [= <-]. exists k. split; [left|done].
  - intros (k' & ? & ?)%IH. exists k'. split; [by right|done].
Qed.

Lemma find_by_name specs s : NoDup (input_names specs) → s ∈ specs →
  js_find (λ s', bool_decide (place_name (in_place s') = place_name (in_place s))) specs = Some s.
Proof.
  unfold input_names. induction specs as [|s' specs IH]; intros Hd Hs; [by apply not_elem_of_nil in Hs|].
  rewrite fmap_cons in Hd. apply NoDup_cons in Hd as [Hn Hd]. rewrite js_find_cons.
  apply elem_of_cons in Hs as [->|Hs]; [by rewrite bool_decide_true|].
  rewrite bool_decide_false; [auto|]. intros E. apply Hn. rewrite E. by apply (list_elem_of_fmap_2 (λ s, place_name (in_place s))).
Qed.

(** What enables a transition holds enough tokens of the name it fires with. *)
Lemma enabled_suits tr m s : transition_wf tr → stamps_safe m → enabled_in tr m → s ∈ inputSpecs tr →
  (requiredCount s ≤ Z.of_nat (length (filter (suits tr (findBinding tr (λ p, peekTokens p m)) s) (queue m (place_name (in_place s))))))%Z.
Proof.
  intros [[Hd _] Hm] Hsafe (H1 & _ & _ & H4) Hs.
  assert (∀ chosen, (∀ tok, suits tr chosen s tok) → filter (suits tr chosen s) (queue m (place_name (in_place s))) = queue m (place_name (in_place s))) as Hall.
  { intros chosen Hsu. induction (queue m (place_name (in_place s))) as [|t q IH]; [done|]. by rewrite filter_cons, decide_True, IH. }
  destruct (t_matchSpec tr) as [ms|] eqn:Ems.
  2:{ rewrite Hall; [by apply H1|]. intros tok. unfold suits. by rewrite Ems. }
  destruct (Hm ms eq_refl) as (Hne & _ & _). pose proof (findBinding_best tr ms (λ p, peekTokens p m) Ems Hne) as Hb.
  destruct (findBinding tr (λ p, peekTokens p m)) as [n|]; [|by destruct H4].
  destruct Hb as (ts & [Hcor _]%join_rep & _); [intros k tok _; apply Hsafe|].
  destruct (keyForPlace ms (place_name (in_place s))) as [key|] eqn:Ek.
  2:{ rewrite Hall; [by apply H1|]. intros tok. unfold suits. by rewrite Ems, Ek. }
  pose proof Ek as (k & Hk & En & Ekey)%lookup_key_Some. destruct (Hcor k Hk) as [_ Hreq]. cbn zeta in Hreq.
  unfold requiredFor in Hreq. rewrite En, (required_in_find _ _ s) in Hreq by (by apply find_by_name).
  assert (filter (suits tr (Some n) s) (queue m (place_name (in_place s))) =
          filter (λ tok, mk_key k (tok_value tok) = Some n) (peekTokens (mk_place_of k) m)) as ->.
  { unfold key_name in En. change (peekTokens (mk_place_of k) m) with (queue m (place_name (mk_place_of k))). rewrite En.
    apply list_filter_iff. intros tok. unfold suits. by rewrite Ems, Ek, Ekey. }
  by destruct s.
Qed.
End Firing.

Section FireTokens.
Context {V : Type} (isP : nat → bool) (pn : petri_net V) (cf : config V).
Hypothesis Hc : compile isP pn = Ok (cf_compiled cf).
Hypothesis Hwf : ∀ tid t, net_transitions pn !! tid = Some t → transition_wf t.
Implicit Types (x : exec V).

(** The tokens and the flight of one firing. *)
Lemma fire_tokens providerThrows x tid tr :
  exec_inv cf x → c_transition (cf_compiled cf) tid = Some tr → tid ∉ (inFlight x).*1 →
  let m := e_marking (x_engine x) in
  let name := findBinding tr (λ p, peekTokens p m) in
  let x' := fireTransitionContained cf providerThrows tid x in
  (∀ n, queue (e_marking (x_engine x')) n = marking_after tr name m n) ∧
  ∃ consumed emptied, consumed = taken_by tr name m (inputSpecs tr) ++ emptied ∧
    if providerThrows (t_name tr) consumed then inFlight x' = inFlight x
    else ∃ fl, inFlight x' = inFlight x ++ [(tid, fl)] ∧ fl_consumed fl = consumed ∧ fl_matchedName fl = name ∧
           fl_error fl = None ∧ fl_settled fl = false ∧ harvest fl = [].
Proof.
  intros H Ht Hfl. cbn zeta.
  pose proof (xi_engine _ x H) as He. pose proof (chosen_name_binding isP pn cf Hc Hwf _ tid tr _ Ht He) as Ech.
  destruct (transition_wf_of isP pn cf Hc Hwf tid tr Ht) as [[Hnd _] _].
  destruct (consume_all_spec tr tid (x_engine x) Hnd) as (_ & _ & Hq & m' & _ & Hcons). rewrite Ech in Hq, Hcons.
  unfold fireTransitionContained. rewrite Ht. unfold fireTransition. cbn zeta. rewrite Ech.
  split.
  - intros n. destruct (providerThrows _ _).
    + match goal with |- queue (e_marking (x_engine ?y)) n = _ => change (e_marking (x_engine y)) with (game_of y).1 end.
      rewrite fire_failed_game. cbn [game_of fst set_unsettled set_engine x_engine emit e_marking]. rewrite update_marking. apply Hq.
    + cbn [set_unsettled set_flights set_engine x_engine disable set_enabledAt set_enabled set_inFlight emit e_marking].
      rewrite update_marking. apply Hq.
  - eexists _, _. split; [exact Hcons|]. destruct (providerThrows _ _).
    + unfold fire_failed. cbn [set_engine set_flights inFlight set_unsettled]. unfold flights_delete.
      clear -Hfl. induction (inFlight x) as [|y l IH]; [done|]. rewrite fmap_cons, elem_of_cons in Hfl.
      rewrite filter_cons, decide_True by naive_solver. f_equal. apply IH. naive_solver.
    + eexists. split; [cbn [set_unsettled set_flights inFlight]; by rewrite map_set_new|]. done.
Qed.
End FireTokens.

(** ** Firing inside a cycle *)

Section InCycle.
Context {V : Type}.
Implicit Types (cf : config V) (x : exec V).

(** The executor between two firings of a cycle of the run. *)
Definition firing_point cf providerThrows x0 x : Prop :=
  ∃ x1 scanMs now, reachable cf providerThrows x0 (Sys x1 AtCycle) ∧
    rtc (fire_step cf providerThrows) (cycle_scan cf scanMs now (processExternalEvents cf (processCompletedTransitions cf x1))) x.

Context {isP : nat → bool} {rnd : jsstr} {base : nat} {pn : petri_net V} {initialTokens : list (place * list (token V))}
  {o : options (V := V)} {cf : config V} {x0 : exec V}.
Hypothesis Hd : deployed isP rnd base pn initialTokens o cf x0.

Lemma firing_point_inv providerThrows x : firing_point cf providerThrows x0 x → exec_inv cf x.
Proof.
  intros (x1 & a & b & Hr & Hs). destruct (deployed_start Hd) as [Htg _]. pose proof (deployed_compiled Hd) as Hc.
  pose proof (deployed_wf Hd) as Hwf. pose proof (deployed_inv Hd providerThrows _ Hr) as H. cbn [s_exec] in H.
  apply (fire_steps_inv isP pn cf Hc Hwf providerThrows _ _ Hs).
  apply (processCompleted_inv isP pn cf Hc Hwf Htg providerThrows) in H.
  apply (processExternal_inv isP pn cf Hc Hwf Htg providerThrows) in H.
  destruct (scan_inv_exec isP pn cf Hc Hwf Htg a b _ H) as (H3 & _). exact H3.
Qed.

End InCycle.

(** C6: a firing takes exactly what its inputs ask for. At every firing point of a run, an enabled
    transition that fires takes from each input place, among the tokens the input may take (those
    of the correlated name for a join's input, all others else), the first one, the first n, or all
    of them, at least as many as required; the other tokens stay in their order; reset places are
    emptied, every other place is untouched. The taken tokens are the new flight's, in the order of
    the inputs, followed by those of the reset places; the flight has no output yet. When the
    action provider throws instead, the same tokens are gone and there is no flight. *)
Theorem firing_exact {V} isP rnd base (pn : petri_net V) initialTokens o cf x0 providerThrows x tid tr :
  deployed isP rnd base pn initialTokens o cf x0 → firing_point cf providerThrows x0 x →
  c_transition (cf_compiled cf) tid = Some tr → flag (enabledFlags (x_engine x)) tid = true →
  canEnable cf tid (markingBitmap (x_engine x)) (x_engine x) = true →
  let m := e_marking (x_engine x) in
  let name := findBinding tr (λ p, peekTokens p m) in
  let x' := fireTransitionContained cf providerThrows tid x in
  let emptied n := n ∈ place_name <$> resets tr in
  (∀ spec, spec ∈ inputSpecs tr →
     let n := place_name (in_place spec) in
     let taken := input_taken tr name spec (queue m n) in
     let rest := input_left tr name spec (queue m n) in
     input_law spec (filter (suits tr name spec) (queue m n)) taken ∧
     queue m n ≡ₚ taken ++ rest ∧ rest `sublist_of` queue m n ∧
     queue (e_marking (x_engine x')) n = if decide (emptied n) then [] else rest) ∧
  (∀ n, n ∉ input_names (inputSpecs tr) → queue (e_marking (x_engine x')) n = if decide (emptied n) then [] else queue m n) ∧
  ∃ consumed fromResets,
    consumed = taken_by tr name m (inputSpecs tr) ++ fromResets ∧
    if providerThrows (t_name tr) consumed then inFlight x' = inFlight x
    else ∃ fl, inFlight x' = inFlight x ++ [(tid, fl)] ∧ fl_consumed fl = consumed ∧ fl_matchedName fl = name ∧
           fl_error fl = None ∧ fl_settled fl = false ∧ harvest fl = [].
Proof.
  intros Hd Hp Ht Hen Hcan. pose proof (firing_point_inv Hd providerThrows x Hp) as H. cbn zeta.
  pose proof (deployed_compiled Hd) as Hc. pose proof (deployed_wf Hd) as Hwf. pose proof (xi_engine _ x H) as He.
  apply (canEnable_inv isP pn cf Hc Hwf _ tid tr _ Ht He) in Hcan.
  pose proof (transition_wf_of isP pn cf Hc Hwf tid tr Ht) as Hw. pose proof Hw as [[Hnd Hpos] _].
  assert (tid ∉ (inFlight x).*1) as Hfl.
  { intros Hk%(xi_flight _ _ _ H). by rewrite (fo_excl _ _ (ei_flags _ _ _ He) tid Hen) in Hk. }
  destruct (fire_tokens isP pn cf Hc Hwf providerThrows x tid tr H Ht Hfl) as [Hq Hfire]. split_and!; [| |exact Hfire].
  - intros spec Hs. cbn zeta. split_and!.
    + apply (input_law_enough spec _ tr); [by rewrite Forall_forall in Hpos; apply Hpos|by rewrite matching_suits|].
      by apply enabled_suits; [|apply (ei_safe _ _ _ He)| |].
    + apply remove_matching_perm.
    + apply remove_matching_sublist.
    + rewrite Hq. unfold marking_after, left_after. by rewrite (find_by_name _ _ Hnd Hs).
  - intros n Hn. rewrite Hq. unfold marking_after, left_after. by rewrite (js_find_name_None _ n Hn).
Qed.

Definition sample_scanned : exec jsstr := 
  cycle_scan sample.1 20 20 (processExternalEvents sample.1 (processCompletedTransitions sample.1 (start sample.1 sample.2))).

Lemma sample_firing_point : firing_point sample.1 (λ _ _, false) sample.2 sample_scanned.
Proof. exists (start sample.1 sample.2), 20%Z, 20%Z. split; apply rtc_refl. Qed.

Lemma firing_exact_witness :
  let x' := fireTransitionContained sample.1 (λ _ _, false) 0 sample_scanned in
  queue (e_marking (x_engine x')) (js "right") = [Token None 4] ∧
  queue (e_marking (x_engine x')) (js "hold") = queue (e_marking (x_engine sample_scanned)) (js "hold").
Proof.
  cbn zeta. split; [by vm_compute|].
  pose proof (firing_exact (λ _, false) (js "r") 100 sample_net sample_tokens sample_options sample.1 sample.2 (λ _ _, false)
              sample_scanned 0 (built_or join_b) sample_deployed sample_firing_point) as H.
  destruct H as (_ & H & _); [by vm_compute..|]. rewrite H; [by vm_compute|].
  apply (bool_decide_eq_true_1 _). by vm_compute.
Defined.

(** ** Completions *)

Section Completion.
Context {V : Type}.
Implicit Types (cf : config V) (x : exec V) (tr : transition V) (fl : flight V).

Lemma accepted_validate tr fl : accepted tr (harvest fl) (fl_matchedName fl) ↔ is_ok (validate tr fl).
Proof.
  split; [|destruct (validate tr fl) as [claim|] eqn:E; [intros _; by eapply validate_accepted|done]].
  unfold accepted, validate. destruct (outputSpec tr) as [spec|]; [|done]. intros H. destruct (H spec eq_refl) as [H1 H2]. cbn zeta.
  destruct (validateOutSpec _ _) as [claim|]; [|by destruct H1]. cbn [res_bind]. by rewrite H2.
Qed.

Lemma complete_flight_outcome cf tr tid fl x :
  let x' := complete_flight cf tr tid fl x in
  let ok := negb (truthy (fl_error fl)) && match validate tr fl with Ok _ => true | Err _ => false end in
  inFlight x' = flights_delete tid (inFlight x) ∧
  (∀ n, queue (e_marking (x_engine x')) n = queue (e_marking (x_engine x)) n ++ (if ok then landed (harvest fl) n else [])) ∧
  last (e_log (x_engine x')) = Some (if ok then EvTransitionCompleted (t_name tr) (snd <$> harvest fl) else EvTransitionFailed (t_name tr)).
Proof.
  cbn zeta. unfold complete_flight. cbn zeta. set (x1 := on_engine _ (set_flights _ x)).
  destruct (truthy (fl_error fl)); cbn [negb andb].
  { split_and!; [done|intros n; by rewrite app_nil_r|]. cbn. by rewrite last_snoc. }
  destruct (validate tr fl) as [claim|v].
  2:{ split_and!; [done|intros n; by rewrite app_nil_r|]. cbn. by rewrite last_snoc. }
  destruct (deposit_outputs_game cf tr fl claim (set_unsettled true x1)) as [D1 D2].
  split_and!.
  - cbn [on_engine set_engine set_unsettled inFlight].
    assert (∀ x, inFlight (deposit_outputs cf tr fl claim x) = inFlight x) as ->; [|done].
    intros y. unfold deposit_outputs. cbn zeta. apply (foldl_inv (λ z, inFlight z = inFlight y)).
    + intros z [p tok] _ <-. apply deposit_flights.
    + destruct claim; [|done]. case_bool_decide; [|done]. unfold warnMultiplicity. case_decide; [done|]. cbn zeta. by case_bool_decide.
  - intros n. exact (D2 n).
  - cbn. by rewrite last_snoc.
Qed.

Context (isP : nat → bool) (pn : petri_net V) (cf : config V).
Hypothesis Hc : compile isP pn = Ok (cf_compiled cf).
Hypothesis Hwf : ∀ tid t, net_transitions pn !! tid = Some t → transition_wf t.
Hypothesis Htargets : placeMatchTargets cf = matchTargets (cf_compiled cf) <$> seq 0 (placeCount (cf_compiled cf)).
Variable providerThrows : jsstr → list (token V) → bool.

Lemma marked_dirty P tid x : tid < transitionCount (cf_compiled cf) → exec_upto cf P x → dirty_of (markTransitionDirty tid (x_engine x)) tid.
Proof.
  intros Hlt H. unfold dirty_of. cbn [markTransitionDirty set_dirty dirtySet].
  eapply sized_bit; [by apply (ei_dirty _ _ _ (xi_upto _ _ _ H))|by apply dirty_words_enough|by left].
Qed.

Lemma complete_flight_dirty tr tid fl x :
  exec_inv cf x → map_get tid (inFlight x) = Some fl → dirty_of (x_engine (complete_flight cf tr tid fl x)) tid.
Proof.
  intros H Hg. destruct (land_upto cf tid fl x H Hg) as (H1 & Hs & Hlt). unfold complete_flight. cbn zeta.
  case_bool; [by apply (marked_dirty _ tid _ Hlt H1)|]. destruct (validate tr fl) as [claim|]; [|by apply (marked_dirty _ tid _ Hlt H1)].
  apply (marked_dirty (λ y, y = tid) tid (deposit_outputs cf tr fl claim (set_unsettled true _)) Hlt).
  eapply deposit_outputs_upto; [done..| |done]. by eapply exec_upto_work; [|exact H1].
Qed.
End Completion.

(** C7: a completion deposits everything or nothing. For every flight of a run, processing its
    completion removes the flight and, when the action was not rejected with a truthy error and
    the output is one the transition's specification and relays accept, appends every written
    token to its place in the order written; otherwise the marking is unchanged and the failure is
    recorded. A rejection with a falsy value counts as success. *)
Theorem completion_all_or_nothing {V} isP rnd base (pn : petri_net V) initialTokens o cf x0 providerThrows s tid tr fl :
  deployed isP rnd base pn initialTokens o cf x0 → reachable cf providerThrows x0 s →
  (tid, fl) ∈ inFlight (s_exec s) → c_transition (cf_compiled cf) tid = Some tr →
  let x := s_exec s in
  let x' := complete_flight cf tr tid fl x in
  let succeeds := fl_error fl ≠ Some ErrTruthy ∧ accepted tr (harvest fl) (fl_matchedName fl) in
  tid ∉ (inFlight x').*1 ∧ (∀ tid' fl', tid' ≠ tid → (tid', fl') ∈ inFlight x' ↔ (tid', fl') ∈ inFlight x) ∧
  bit_of (dirtySet (x_engine x')) tid = true ∧
  (succeeds → (∀ n, queue (e_marking (x_engine x')) n = queue (e_marking (x_engine x)) n ++ landed (harvest fl) n) ∧
     last (e_log (x_engine x')) = Some (EvTransitionCompleted (t_name tr) (snd <$> harvest fl))) ∧
  (¬ succeeds → (∀ n, queue (e_marking (x_engine x')) n = queue (e_marking (x_engine x)) n) ∧
     last (e_log (x_engine x')) = Some (EvTransitionFailed (t_name tr))).
Proof.
  intros Hd Hr Hfl Ht. pose proof (deployed_inv Hd providerThrows _ Hr) as H. cbn zeta. set (x := s_exec s) in *.
  destruct (complete_flight_outcome cf tr tid fl x) as (E1 & E2 & E3).
  rewrite accepted_validate. assert (fl_error fl ≠ Some ErrTruthy ↔ truthy (fl_error fl) = false) as -> by (destruct (fl_error fl) as [[]|]; naive_solver).
  split_and!.
  - rewrite E1. unfold flights_delete. rewrite list_elem_of_fmap. intros (y & -> & [Hy _]%list_elem_of_filter). done.
  - intros tid' fl' Hne. rewrite E1. unfold flights_delete. rewrite list_elem_of_filter. naive_solver.
  - apply (complete_flight_dirty isP pn cf (deployed_compiled Hd) (deployed_wf Hd) (proj1 (deployed_start Hd)) providerThrows tr tid fl x H).
    apply elem_map_get; [apply (xi_keys _ _ _ H)|done].
  - intros [Hok Hv]. rewrite Hok in E2, E3. by destruct (validate tr fl).
  - intros Hn. destruct (negb (truthy (fl_error fl)) && _) eqn:Eo.
    + apply andb_true_iff in Eo as [Eo1%negb_true_iff Eo2]. destruct Hn. split; [done|]. by destruct (validate tr fl).
    + split; [|done]. intros n. by rewrite E2, app_nil_r.
Qed.

(** The join of the sample writes its output, then its promise is rejected with [undefined]. *)
Definition sample_rejected : sys (V := jsstr) :=
  settle 0 (Some ErrFalsy) (actionCall 0 (CallOutput pair_p [Some (js "v")] 21) sample_fired).
Definition rejected_flight : flight jsstr :=
  match map_get 0 (inFlight (s_exec sample_rejected)) with
  | Some fl => fl
  | None => Flight (context_new (built_or join_b) []) [] None None false
  end.

Lemma sample_rejected_reachable : reachable sample.1 (λ _ _, false) sample.2 sample_rejected.
Proof.
  eapply rtc_r; [|apply step_settle]. eapply rtc_r; [exact sample_reachable|]. apply step_call. vm_compute. discriminate.
Qed.

Lemma completion_all_or_nothing_witness :
  fl_error rejected_flight = Some ErrFalsy ∧
  let x' := complete_flight sample.1 (built_or join_b) 0 rejected_flight (s_exec sample_rejected) in
  queue (e_marking (x_engine x')) (js "pair") = [Token (Some (js "v")) 21].
Proof.
  split; [by vm_compute|]. cbn zeta.
  pose proof (completion_all_or_nothing (λ _, false) (js "r") 100 sample_net sample_tokens sample_options sample.1 sample.2 (λ _ _, false)
              sample_rejected 0 (built_or join_b) rejected_flight sample_deployed sample_rejected_reachable) as H.
  destruct H as (_ & _ & _ & H & _); [|by vm_compute|].
  - apply map_get_elem. by vm_compute.
  - destruct H as [H _]; [|rewrite H; by vm_compute].
    split; [by vm_compute|]. apply accepted_validate. by vm_compute.
Defined.
