(* ===== verification/ExecHost.v ===== *)
(** * The host's side of a run: events, terminal places, the end

    What happens to injected events, when a run counts as terminated by a terminal place, and the
    timer the loop parks with. *)
From S2P Require Import Prelude.
From S2P Require Import Net.
From S2P Require Import Out.
From S2P Require Import Transition.
From S2P Require Import Marking.
From S2P Require Import PetriNet.
From S2P Require Import Bitmap.
From S2P Require Import CompiledNet.
From S2P Require Import Context.
From S2P Require Import Executor.
From S2P Require Import ExecFire.
From S2P Require Import ExecLoop.
From S2P Require Import ExecInv.
From S2P Require Import ExecCache.
From S2P Require Import ExecCoherent.
From S2P Require Import ExecFiring.
From S2P Require Import ExecRun.
From S2P Require Import ExecInit.
From S2P Require Import ExecGame.
From S2P Require Import ExecContract.
From S2P Require Import ExecOrder.
From S2P Require Import ExecLive.
From S2P Require Import ExecOutcome.

(** ** What the parts of a cycle leave alone *)

Section Frames.
Context {V : Type} (cf : config V) (providerThrows : jsstr → list (token V) → bool).
Implicit Types (x : exec V) (e : engine V) (tr : transition V) (fl : flight V).
Abbreviation c := (cf_compiled cf).

(** The host's switches, and the queue of events with the answers given. *)
Definition switches x := (draining x, closed x, running x, reason x).
Definition events x := (externalQueue x, admissions x).

Lemma warnUnknownPlace_frame p tname x :
  let x' := warnUnknownPlace p tname x in
  switches x' = switches x ∧ events x' = events x ∧ terminalReached x' = terminalReached x.
Proof. unfold warnUnknownPlace. by case_decide. Qed.

Definition latches (p : place) : bool := match tryPlaceId c p with Some pid => is_terminal cf pid | None => false end.

Lemma deposit_frame tname p tok x :
  let x' := deposit cf tname p tok x in
  switches x' = switches x ∧ events x' = events x ∧ terminalReached x' = terminalReached x || latches p.
Proof.
  unfold deposit, latches. cbn zeta. destruct (tryPlaceId c p) as [pid|].
  - destruct (is_terminal cf pid); cbn; by rewrite ?orb_true_r, ?orb_false_r.
  - rewrite orb_false_r. unfold warnUnknownPlace. by case_decide.
Qed.

Lemma deposits_frame tname es x :
  let x' := foldl (λ x y, deposit cf tname y.1 y.2 x) x es in
  switches x' = switches x ∧ events x' = events x ∧
  terminalReached x' = terminalReached x || existsb (λ y : place * token V, latches y.1) es.
Proof.
  cbn zeta. revert x. induction es as [|[p tok] es IH]; intros x; cbn [foldl fst snd existsb]; [by rewrite orb_false_r|].
  destruct (IH (deposit cf tname p tok x)) as (-> & -> & ->). destruct (deposit_frame tname p tok x) as (-> & -> & ->).
  by rewrite orb_assoc.
Qed.

Lemma warnMultiplicity_frame tname es claim x :
  let x' := warnMultiplicity tname es claim x in
  switches x' = switches x ∧ events x' = events x ∧ terminalReached x' = terminalReached x.
Proof. cbn zeta. unfold warnMultiplicity. case_decide; [done|]. cbn zeta. by case_bool_decide. Qed.

Lemma deposit_outputs_frame tr fl claim x :
  let x' := deposit_outputs cf tr fl claim x in
  switches x' = switches x ∧ events x' = events x ∧
  terminalReached x' = terminalReached x || existsb (λ y : place * token V, latches y.1) (harvest fl).
Proof.
  cbn zeta. unfold deposit_outputs. cbn zeta.
  set (x1 := match claim with Some _ => _ | None => x end).
  assert (switches x1 = switches x ∧ events x1 = events x ∧ terminalReached x1 = terminalReached x) as (E1 & E2 & E3).
  { unfold x1. destruct claim; [|done]. case_bool_decide; [|done]. apply warnMultiplicity_frame. }
  destruct (deposits_frame (t_name tr) (harvest fl) x1) as (-> & -> & ->). by rewrite E1, E2, E3.
Qed.

Lemma complete_flight_frame tr tid fl x :
  let x' := complete_flight cf tr tid fl x in switches x' = switches x ∧ events x' = events x.
Proof.
  cbn zeta. unfold complete_flight. cbn zeta. case_bool; [done|]. destruct (validate tr fl) as [claim|]; [|done].
  match goal with |- context [deposit_outputs cf tr fl claim ?y] => destruct (deposit_outputs_frame tr fl claim y) as (E1 & E2 & _) end.
  split; [exact E1|exact E2].
Qed.

Lemma processCompleted_frame x :
  let x' := processCompletedTransitions cf x in switches x' = switches x ∧ events x' = events x.
Proof.
  cbn zeta. unfold processCompletedTransitions. case_bool_decide as Hl; [done|]. clear Hl.
  assert (∀ q x, switches (process_completions cf q x) = switches x ∧ events (process_completions cf q x) = events x) as H.
  { intros q. induction q as [|tid q IH]; intros y; [done|]. cbn [process_completions].
    destruct (map_get tid (inFlight y)) as [fl|]; [|apply IH]. destruct (c_transition c tid) as [tr|]; [|apply IH]. cbn zeta.
    destruct (complete_flight_frame tr tid fl y) as [E1 E2]. case_bool; [done|]. by destruct (IH (complete_flight cf tr tid fl y)) as [-> ->]. }
  exact (H (completionQueue x) x).
Qed.

Lemma process_external_switches q x : switches (process_external cf q x) = switches x.
Proof.
  revert x. induction q as [|ev q IH]; intros x; [done|]. cbn [process_external]. cbn zeta.
  destruct (deposit_frame [] (ev_place ev) (ev_token ev) x) as (E & _ & _). case_bool; [exact E|]. rewrite IH. exact E.
Qed.

Lemma fireContained_frame tid x :
  let x' := fireTransitionContained cf providerThrows tid x in
  switches x' = switches x ∧ events x' = events x ∧ terminalReached x' = terminalReached x.
Proof.
  cbn zeta. unfold fireTransitionContained. destruct (c_transition c tid) as [tr|]; [|done].
  by destruct (fireTransition cf providerThrows tid tr (x_engine x)) as [e [fl|]].
Qed.

Lemma fire_steps_frame x x' : rtc (fire_step cf providerThrows) x x' →
  switches x' = switches x ∧ events x' = events x ∧ terminalReached x' = terminalReached x.
Proof.
  induction 1 as [x|x y z Hxy _ (-> & -> & ->)]; [done|]. destruct Hxy as [tid tr Ht Hen Hin|]; [|done]. apply fireContained_frame.
Qed.

Lemma cycle_scan_frame a b x :
  let x' := cycle_scan cf a b x in
  switches x' = switches x ∧ events x' = events x ∧ terminalReached x' = terminalReached x ∧ game_of x' = game_of x.
Proof. cbn zeta. unfold cycle_scan. split_and!; [by case_bool..|]. apply scan_game. Qed.

(** ** External events *)

(** The events one pass admits: all, or up to the first on a terminal place. *)
Fixpoint admitted (q : list (external_event V)) : list (external_event V) :=
  match q with
  | [] => []
  | ev :: q => ev :: (if latches (ev_place ev) then [] else admitted q)
  end.

Definition entry (ev : external_event V) : place * token V := (ev_place ev, ev_token ev).

Lemma process_external_exact q x : externalQueue x = q → terminalReached x = false →
  let x' := process_external cf q x in
  let adm := admitted q in
  q = adm ++ externalQueue x' ∧
  admissions x' = admissions x ++ ((λ ev, (ev_id ev, true)) <$> adm) ∧
  (∀ n, queue (e_marking (x_engine x')) n = queue (e_marking (x_engine x)) n ++ landed (entry <$> adm) n) ∧
  inFlight x' = inFlight x ∧ terminalReached x' = existsb (λ ev, latches (ev_place ev)) adm.
Proof.
  cbn zeta. revert x. induction q as [|ev q IH]; intros x Hq Ht.
  { cbn [process_external admitted existsb fmap list_fmap]. rewrite !app_nil_r. split_and!; try done. intros n. by rewrite app_nil_r. }
  cbn [process_external admitted]. cbn zeta. destruct (deposit_frame [] (ev_place ev) (ev_token ev) x) as (_ & E2 & E3).
  pose proof (deposit_queues cf [] (ev_place ev) (ev_token ev) x) as Hn. pose proof (deposit_flights cf [] (ev_place ev) (ev_token ev) x) as Hf.
  set (x1 := deposit cf [] (ev_place ev) (ev_token ev) x) in *. pose proof (f_equal snd E2) as E4. apply (f_equal fst) in E2. unfold events in E2, E4. cbn [fst snd] in E2, E4. rewrite Hq in E2.
  rewrite E2, E4. cbn [tail]. set (x2 := set_external q _ x1).
  assert (terminalReached x2 = latches (ev_place ev)) as E5 by (transitivity (terminalReached x1); [done|by rewrite E3, Ht]).
  rewrite E5. cbn [existsb].
  destruct (latches (ev_place ev)) eqn:El.
  - split_and!; done.
  - destruct (IH x2) as (I1 & I2 & I3 & I4 & I5); [done|done|].
    split_and!.
    + cbn. by f_equal.
    + rewrite I2. cbn. by rewrite <- app_assoc.
    + intros n. rewrite I3. change (e_marking (x_engine x2)) with (e_marking (x_engine x1)). rewrite Hn, <- app_assoc. f_equal.
      rewrite fmap_cons. change (entry ev :: ?l) with ([entry ev] ++ l). unfold landed. by rewrite omap_app.
    + by rewrite I4.
    + by rewrite I5.
Qed.

Lemma processExternal_exact x : terminalReached x = false →
  let x' := processExternalEvents cf x in
  let adm := if closed x then [] else admitted (externalQueue x) in
  externalQueue x = adm ++ externalQueue x' ∧
  admissions x' = admissions x ++ ((λ ev, (ev_id ev, true)) <$> adm) ∧
  (∀ n, queue (e_marking (x_engine x')) n = queue (e_marking (x_engine x)) n ++ landed (entry <$> adm) n) ∧
  inFlight x' = inFlight x ∧ terminalReached x' = existsb (λ ev, latches (ev_place ev)) adm.
Proof.
  intros Ht. cbn zeta. unfold processExternalEvents.
  assert (∀ adm, adm = [] → externalQueue x = adm ++ externalQueue x ∧ admissions x = admissions x ++ ((λ ev, (ev_id ev, true)) <$> adm) ∧
    (∀ n, queue (e_marking (x_engine x)) n = queue (e_marking (x_engine x)) n ++ landed (entry <$> adm) n) ∧
    inFlight x = inFlight x ∧ terminalReached x = existsb (λ ev, latches (ev_place ev)) adm) as Hnone.
  { intros adm ->. cbn. rewrite app_nil_r. split_and!; try done. intros n. by rewrite app_nil_r. }
  case_bool_decide as Hl; [|destruct (closed x); [by apply Hnone|by apply process_external_exact]].
  apply Hnone. case_bool; [done|]. by destruct (externalQueue x).
Qed.

(** Every injected event is in the queue or answered. *)
Definition event_ids x : list nat := (admissions x).*1 ++ (ev_id <$> externalQueue x).

Lemma processExternal_ids x : terminalReached x = false →
  event_ids (processExternalEvents cf x) = event_ids x ∧ admissions x `prefix_of` admissions (processExternalEvents cf x).
Proof.
  intros Ht. destruct (processExternal_exact x Ht) as (E1 & E2 & _). unfold event_ids. rewrite E2. split; [|by eexists].
  rewrite E1 at 2. rewrite !fmap_app, <- list_fmap_compose, <- app_assoc. done.
Qed.
End Frames.

(** ** The cycle and the host's steps *)

Section Steps.
Context {V : Type} (isP : nat → bool) (pn : petri_net V) (cf : config V).
Hypothesis Hc : compile isP pn = Ok (cf_compiled cf).
Hypothesis Hwf : ∀ tid t, net_transitions pn !! tid = Some t → transition_wf t.
Hypothesis Htargets : placeMatchTargets cf = matchTargets (cf_compiled cf) <$> seq 0 (placeCount (cf_compiled cf)).
Variable providerThrows : jsstr → list (token V) → bool.
Abbreviation c := (cf_compiled cf).
Implicit Types (x : exec V) (e : engine V) (tr : transition V) (s : sys (V := V)).

(** [x'] has the events of [x], some of them answered since. *)
Definition answers x x' : Prop := event_ids x' = event_ids x ∧ admissions x `prefix_of` admissions x'.

Lemma answers_same x x' : events x' = events x → answers x x'.
Proof. unfold events, answers, event_ids. intros [= -> ->]. done. Qed.

Lemma answers_trans x y z : answers x y → answers y z → answers x z.
Proof. intros [E1 P1] [E2 P2]. split; [congruence|by etrans]. Qed.

(** The stages of a cycle: completions, events, the scan, the firings. *)
Lemma cycle_stages a b x : exec_inv cf x →
  let x1 := processCompletedTransitions cf x in
  let x2 := processExternalEvents cf x1 in
  let x3 := cycle_scan cf a b x2 in
  let r := cycle cf providerThrows a b x in
  r = (x, Exit) ∧ (running x = false ∨ terminalReached x = true) ∨
  terminalReached x = false ∧
   (r = (x1, Exit) ∧ terminalReached x1 = true ∨
    terminalReached x1 = false ∧
     (r = (x2, Exit) ∧ terminalReached x2 = true ∨
      terminalReached x2 = false ∧
       (r = (x3, Exit) ∧ shouldTerminate cf x3 = true ∨
        r.2 ≠ Exit ∧ rtc (fire_step cf providerThrows) x3 r.1))).
Proof.
  intros H. cbn zeta. unfold cycle.
  pose proof (processCompleted_inv isP pn cf Hc Hwf Htargets providerThrows x H) as H1.
  pose proof (processExternal_inv isP pn cf Hc Hwf Htargets providerThrows _ H1) as H2.
  destruct (scan_inv_exec isP pn cf Hc Hwf Htargets a b _ H2) as (H3 & _).
  destruct (terminalReached x) eqn:E0; [left; rewrite orb_true_r; tauto|].
  destruct (running x) eqn:Er; cbn [negb orb]; [|left; tauto]. right. split; [done|].
  set (x1 := processCompletedTransitions cf x) in *. destruct (terminalReached x1) eqn:E1; [by left|]. right. split; [done|].
  set (x2 := processExternalEvents cf x1) in *. destruct (terminalReached x2) eqn:E2; [by left|]. right. split; [done|].
  change (exec_inv cf (cycle_scan cf a b x2)) in H3. fold (cycle_scan cf a b x2). set (x3 := cycle_scan cf a b x2) in *.
  destruct (shouldTerminate cf x3) eqn:Es; [by left|]. right. split; [by case_bool|].
  apply (fireReady_steps isP pn cf Hc Hwf providerThrows b x3 H3).
Qed.

Lemma cycle_frame a b x : exec_inv cf x →
  let r := cycle cf providerThrows a b x in
  switches r.1 = switches x ∧ answers x r.1 ∧
  (r.2 = Exit → running x = true → terminalReached r.1 = true ∨ closed r.1 = true ∨ draining r.1 = true ∨ hasEnvironmentPlaces cf = false).
Proof.
  intros H. cbn zeta. pose proof (cycle_stages a b x H) as Hs. cbn zeta in Hs.
  destruct (processCompleted_frame cf x) as [C1 C2]. set (x1 := processCompletedTransitions cf x) in *.
  pose proof (answers_same _ _ C2) as A1.
  assert (terminalReached x1 = false → switches (processExternalEvents cf x1) = switches x ∧ answers x (processExternalEvents cf x1)) as H2.
  { intros Ht. destruct (processExternal_ids cf x1 Ht) as [I1 I2]. split; [|by eapply answers_trans; [exact A1|]].
    rewrite <- C1. unfold processExternalEvents. case_bool_decide; [done|]. case_bool; [done|]. apply process_external_switches. }
  set (x2 := processExternalEvents cf x1) in *. destruct (cycle_scan_frame cf a b x2) as (F1 & F2 & _).
  set (x3 := cycle_scan cf a b x2) in *.
  destruct Hs as [[-> Hs]|[E0 [[-> E1]|[E1 [[-> E2]|[E2 Hs]]]]]].
  - split_and!; [done|by apply answers_same|]. intros _ Hr. destruct Hs; [congruence|by left].
  - split_and!; [done|done|]. by left.
  - destruct (H2 E1). split_and!; [done|done|]. by left.
  - destruct (H2 E1) as [S2 A2]. destruct Hs as [[-> Es]|[Hn Hf]].
    + cbn [fst]. split_and!; [by rewrite F1|eapply answers_trans; [exact A2|by apply answers_same]|]. intros _ _. right.
      unfold shouldTerminate in Es. destruct (closed x3) eqn:Ec; [by left|]. right.
      destruct (hasEnvironmentPlaces cf); [|by right]. left. by apply andb_true_iff in Es as [[Es _]%andb_true_iff _].
    + destruct (fire_steps_frame cf providerThrows _ _ Hf) as (G1 & G2 & _). split_and!.
      * by rewrite G1, F1.
      * eapply answers_trans; [exact A2|]. apply answers_same. by rewrite G2.
      * done.
Qed.

(** The host's steps other than its switches and its events. *)
Definition quiet s s' : Prop :=
  let x := s_exec s in
  let x' := s_exec s' in
  switches x' = switches x ∧ events x' = events x ∧ terminalReached x' = terminalReached x ∧
  (s_point s' = Finished ↔ s_point s = Finished).

Lemma quiet_trans s1 s2 s3 : quiet s1 s2 → quiet s2 s3 → quiet s1 s3.
Proof. intros (A1 & A2 & A3 & A4) (B1 & B2 & B3 & B4). unfold quiet. cbn zeta. split_and!; [congruence..|tauto]. Qed.

Lemma wakeUp_quiet s : quiet s (wakeUp s).
Proof. unfold wakeUp, quiet. destruct s as [x [| | |w|w|]]; cbn [s_point s_exec]; try done; by destruct (w_wakeUp w). Qed.

Lemma settle_quiet tid err s : quiet s (settle tid err s).
Proof.
  unfold settle. cbn zeta. destruct (map_get tid (inFlight (s_exec s))) as [fl|]; [|done]. destruct (fl_settled fl); [done|].
  match goal with |- context [wakeUp ?s1] => pose proof (wakeUp_quiet s1) as H; set (s2 := wakeUp s1) in *; assert (quiet s s1) as H' by done end.
  pose proof (quiet_trans _ _ _ H' H) as H2. clearbody s2. destruct (s_point s2) as [| | |w|w|] eqn:E; try done.
  case_decide; [|done]. destruct H2 as (Q1 & Q2 & Q3 & Q4). unfold quiet. cbn zeta. cbn [s_exec s_point]. split_and!; try done.
  split; [done|]. intros HF. rewrite E in Q4. by apply Q4 in HF.
Qed.

Lemma actionTimedOut_quiet tid now s : quiet s (actionTimedOut cf tid now s).
Proof.
  unfold actionTimedOut. cbn zeta. destruct (map_get tid (inFlight (s_exec s))) as [fl|]; [|done].
  destruct (c_transition c tid) as [t|]; [|done]. destruct (actionTimeout t) as [[ms child]|]; [|done]. destruct (fl_settled fl); [done|].
  destruct (produceTimeoutOutput _ _ _) as [cx'|]; (eapply quiet_trans; [|apply settle_quiet]); done.
Qed.

(** Running until finished; once finished no event is queued and none will be. *)
Definition ended s : Prop :=
  match s_point s with
  | Finished => externalQueue (s_exec s) = [] ∧
      (terminalReached (s_exec s) = true ∨ closed (s_exec s) = true ∨ draining (s_exec s) = true ∨ hasEnvironmentPlaces cf = false)
  | _ => running (s_exec s) = true
  end.

Lemma ended_iff s : ended s ↔
  (s_point s ≠ Finished → running (s_exec s) = true) ∧
  (s_point s = Finished → externalQueue (s_exec s) = [] ∧
     (terminalReached (s_exec s) = true ∨ closed (s_exec s) = true ∨ draining (s_exec s) = true ∨ hasEnvironmentPlaces cf = false)).
Proof.
  unfold ended. split; [destruct (s_point s); intros H; (split; [by intros|by intros])|]. intros [H1 H2].
  destruct (s_point s); try (by apply H1). by apply H2.
Qed.

Lemma quiet_ended s s' : quiet s s' → ended s → ended s'.
Proof.
  intros (Q1 & Q2 & Q3 & Q4). rewrite !ended_iff. unfold switches, events in *. injection Q1 as -> -> -> _. injection Q2 as -> _.
  rewrite Q3, Q4. done.
Qed.

Lemma quiet_answers s s' : quiet s s' → answers (s_exec s) (s_exec s').
Proof. intros (_ & Q2 & _). by apply answers_same. Qed.

Lemma hosted_ended s dr cl rs : (draining (s_exec s) = true → dr = true) → (closed (s_exec s) = true → cl = true) →
  ended s → ended (Sys (set_host dr cl (running (s_exec s)) rs (s_exec s)) (s_point s)).
Proof. intros H1 H2. unfold ended. cbn [s_point s_exec]. destruct (s_point s); naive_solver. Qed.

Lemma finish_answers x : (finish x).(admissions) = admissions x ++ ((λ ev, (ev_id ev, false)) <$> externalQueue x) ∧ externalQueue (finish x) = [] ∧ answers x (finish x).
Proof.
  split_and!; [done|done|]. split; [|by eexists]. unfold event_ids. cbn. by rewrite app_nil_r, fmap_app, <- list_fmap_compose.
Qed.

(** What one step of the system does to the events. *)
Lemma sys_step_events s s' : sys_step cf providerThrows s s' → sys_inv cf s → ended s →
  ended s' ∧ admissions (s_exec s) `prefix_of` admissions (s_exec s') ∧
  (event_ids (s_exec s') = event_ids (s_exec s) ∨
   ∃ id p tok, inject cf id p tok s = Ok s' ∧ event_ids (s_exec s') ≡ₚ event_ids (s_exec s) ++ [id]).
Proof.
  intros Hstep Hi He.
  assert (quiet s s' → ended s' ∧ admissions (s_exec s) `prefix_of` admissions (s_exec s') ∧ event_ids (s_exec s') = event_ids (s_exec s)) as Hq.
  { intros Hq. destruct (quiet_answers _ _ Hq) as [A1 A2]. split_and!; [by eapply quiet_ended|done|done]. }
  assert (ended s' → answers (s_exec s) (s_exec s') → ended s' ∧ admissions (s_exec s) `prefix_of` admissions (s_exec s') ∧
    (event_ids (s_exec s') = event_ids (s_exec s) ∨
     ∃ id p tok, inject cf id p tok s = Ok s' ∧ event_ids (s_exec s') ≡ₚ event_ids (s_exec s) ++ [id])) as Ha.
  { intros ? [? ?]. split_and!; try done. by left. }
  destruct Hstep as [x n1 n2|x|x now|x w ms Hw|x w|id p tok s s' Hs Hin|s|s|b s|tid err s|tid now s Hn|tid call s Hcall|tid x pt].
  - destruct (cycle_frame n1 n2 x Hi) as (C1 & C2 & C3). cbn zeta in *. unfold ended in He. cbn [s_point s_exec] in *.
    destruct (cycle cf providerThrows n1 n2 x) as [y r]. cbn [fst snd] in *. unfold switches in C1. injection C1 as D1 D2 D3 D4.
    destruct r; cbn [after_cycle] in *.
    + apply Ha; [|eapply answers_trans; [exact C2|apply finish_answers]].
      unfold ended. cbn [s_point s_exec]. split; [done|]. exact (C3 eq_refl He).
    + apply Ha; [|exact C2]. unfold ended. cbn [s_point s_exec]. congruence.
    + apply Ha; [|exact C2]. unfold ended. cbn [s_point s_exec]. congruence.
  - apply Ha; [|done]. unfold ended in *. cbn [s_point s_exec] in *. by case_bool.
  - apply Ha; [|]; unfold park; repeat case_bool; done.
  - apply Ha; done.
  - apply Ha; done.
  - unfold inject in Hin. cbn zeta in Hin. case_bool_decide as Hp; [done|].
    destruct (closed (s_exec s) || draining (s_exec s) || terminalReached (s_exec s)) eqn:H.
    + injection Hin as <-. split_and!; [exact He|by eexists|]. right. exists id, p, tok. cbn zeta. split.
      { unfold inject. cbn zeta. rewrite bool_decide_false by tauto. by rewrite H. }
      cbn [s_exec]. unfold event_ids. cbn [set_external admissions externalQueue]. rewrite fmap_app. cbn. rewrite <- !app_assoc.
      apply Permutation_app_head, Permutation_app_comm.
    + injection Hin as <-. match goal with |- context [wakeUp ?s1] => pose proof (wakeUp_quiet s1) as Hw; set (s2 := s1) in * end.
      destruct (quiet_answers _ _ Hw) as [A1 A2]. split_and!.
      * apply (quiet_ended _ _ Hw). unfold ended in *. cbn [s2 s_point s_exec]. destruct (s_point s); try done.
        destruct He as [_ He]. apply orb_false_iff in H as [[H1 H2]%orb_false_iff H3]. exfalso.
        destruct He as [He|[He|[He|He]]]; try congruence. unfold hasEnvironmentPlaces in He. apply bool_decide_eq_false in He.
        destruct (environmentPlaces cf); [by apply not_elem_of_nil in Hp|]. cbn in He. lia.
      * exact A2.
      * right. exists id, p, tok. split.
        { unfold inject. cbn zeta. rewrite bool_decide_false by tauto. by rewrite H. }
        rewrite A1. cbn [s2 s_exec]. unfold event_ids. cbn [set_external admissions externalQueue]. by rewrite fmap_app, app_assoc.
  - apply Ha; [eapply quiet_ended; [apply wakeUp_quiet|by apply hosted_ended]|exact (quiet_answers _ _ (wakeUp_quiet _))].
  - apply Ha; [eapply quiet_ended; [apply wakeUp_quiet|by apply hosted_ended]|exact (quiet_answers _ _ (wakeUp_quiet _))].
  - unfold budgetExpired in *. cbn zeta in *. set (s1 := Sys (set_host _ _ _ _ (s_exec s)) (s_point s)) in *.
    assert (ended s1) as He1 by (by apply hosted_ended).
    destruct b; [|by apply Ha]. apply Ha; [|exact (quiet_answers _ _ (wakeUp_quiet _))].
    eapply quiet_ended; [apply wakeUp_quiet|by apply (hosted_ended s1)].
  - apply Ha; [eapply quiet_ended; [apply settle_quiet|done]|exact (quiet_answers _ _ (settle_quiet _ _ _))].
  - apply Ha; [eapply quiet_ended; [apply actionTimedOut_quiet|done]|exact (quiet_answers _ _ (actionTimedOut_quiet _ _ _))].
  - unfold actionCall in *. cbn zeta in *. destruct (map_get tid (inFlight (s_exec s))); apply Ha; done.
  - apply Ha; done.
Qed.

(** ** Terminal places *)

(** A terminal place holds a token. *)
Definition terminal_marked (m : marking V) : Prop :=
  ∃ pid q, is_terminal cf pid = true ∧ c_place c pid = Some q ∧ queue m (place_name q) ≠ [].

Definition latched x : Prop := terminalReached x = true ↔ terminal_marked (e_marking (x_engine x)).

Lemma latched_same x x' : terminalReached x' = terminalReached x → e_marking (x_engine x') = e_marking (x_engine x) → latched x → latched x'.
Proof. unfold latched. by intros -> ->. Qed.

Lemma landed_one p tok n : landed [(p, tok)] n = (if decide (place_name p = n) then [tok] else []) :> list (token V).
Proof. unfold landed. cbn. by case_decide. Qed.

Lemma deposit_latched tname p tok x : latched x → latched (deposit cf tname p tok x).
Proof.
  unfold latched. intros H. destruct (deposit_frame cf tname p tok x) as (_ & _ & ->).
  set (m' := e_marking (x_engine (deposit cf tname p tok x))).
  assert (∀ n, queue m' n = queue (e_marking (x_engine x)) n ++ landed [(p, tok)] n) as Hq by (intros n; apply deposit_queues).
  rewrite orb_true_iff, H. unfold latches. split.
  - intros [(pid & q & H1 & H2 & H3)|Hl].
    + exists pid, q. split_and!; [done|done|]. rewrite Hq. by destruct (queue (e_marking (x_engine x)) (place_name q)).
    + destruct (tryPlaceId c p) as [pid|] eqn:E; [|done]. destruct (pid_place isP pn cf Hc p pid E) as (_ & q & H2 & En).
      exists pid, q. split_and!; [done|done|]. rewrite Hq, landed_one, decide_True by done.
      by destruct (queue (e_marking (x_engine x)) (place_name q)).
  - intros (pid & q & H1 & H2 & H3). rewrite Hq, landed_one in H3. case_decide as En.
    + right. pose proof (place_pid isP pn cf Hc pid q H2) as E. unfold tryPlaceId in *. by rewrite En, E.
    + left. exists pid, q. rewrite app_nil_r in H3. done.
Qed.

Lemma complete_flight_latched tr tid fl x : latched x → latched (complete_flight cf tr tid fl x).
Proof.
  intros H. unfold complete_flight. cbn zeta. case_bool; [exact H|]. destruct (validate tr fl) as [claim|]; [|exact H].
  match goal with |- context [deposit_outputs cf tr fl claim ?y] => assert (latched (deposit_outputs cf tr fl claim y)) as H'; [|exact H'] end.
  unfold deposit_outputs. cbn zeta. apply (foldl_inv latched).
  - intros y [p tok] _ Hy. by apply deposit_latched.
  - destruct claim as [claim|]; [|exact H]. case_bool_decide; [|exact H].
    eapply latched_same; [apply warnMultiplicity_frame| |exact H].
    match goal with |- e_marking (x_engine ?a) = e_marking (x_engine ?b) => change ((game_of a).1 = (game_of b).1) end.
    by rewrite warnMultiplicity_game.
Qed.

Lemma processCompleted_latched x : latched x → latched (processCompletedTransitions cf x).
Proof.
  unfold processCompletedTransitions. case_bool_decide as Hl; [done|]. clear Hl. intros H.
  assert (∀ q x, latched x → latched (process_completions cf q x)) as Hq; [|exact (Hq (completionQueue x) x H)].
  clear H. intros q. induction q as [|tid q IH]; intros y H; [done|]. cbn [process_completions].
  destruct (map_get tid (inFlight y)) as [fl|]; [|by apply IH]. destruct (c_transition c tid) as [tr|]; [|by apply IH]. cbn zeta.
  pose proof (complete_flight_latched tr tid fl y H). case_bool; auto.
Qed.

Lemma processExternal_latched x : latched x → latched (processExternalEvents cf x).
Proof.
  unfold processExternalEvents. case_bool_decide as Hl; [done|]. clear Hl. case_bool; [done|]. clear Heqb. generalize (externalQueue x). intros q.
  revert x. induction q as [|ev q IH]; intros x Hx; [done|]. cbn [process_external]. cbn zeta.
  pose proof (deposit_latched [] (ev_place ev) (ev_token ev) x Hx) as H'. case_bool; [exact H'|]. apply IH. exact H'.
Qed.

(** Firings only take tokens, so a run that is not latched stays so. *)
Lemma fire_steps_latched x x' : rtc (fire_step cf providerThrows) x x' → exec_inv cf x → terminalReached x = false → latched x → latched x'.
Proof.
  induction 1 as [x|x y z Hxy _ IH]; intros Hi Ht H; [done|].
  destruct (fire_steps_frame cf providerThrows x y (rtc_once _ _ Hxy)) as (_ & _ & Et).
  apply IH; [by eapply fire_step_inv|by rewrite Et|]. unfold latched in *. rewrite Et, Ht in *. split; [done|].
  intros (pid & q & H1 & H2 & H3). apply H. exists pid, q. split_and!; [done|done|]. intros E. apply H3. clear H3.
  destruct Hxy as [tid tr Htr Hen Hin|]; [|exact E].
  assert (tid ∉ (inFlight x).*1) as Hfl.
  { intros Hk%(xi_flight _ _ _ Hi). by rewrite (fo_excl _ _ (ei_flags _ _ _ (xi_engine _ x Hi)) tid Hen) in Hk. }
  destruct (fire_tokens isP pn cf Hc Hwf providerThrows x tid tr Hi Htr Hfl) as [Hq _]. rewrite Hq. apply sublist_nil_r.
  rewrite <- E. apply marking_after_sublist.
Qed.

Lemma cycle_latched a b x : exec_inv cf x → latched x → latched (cycle cf providerThrows a b x).1.
Proof.
  intros Hi H. pose proof (cycle_stages a b x Hi) as Hs. cbn zeta in Hs.
  pose proof (processCompleted_inv isP pn cf Hc Hwf Htargets providerThrows x Hi) as H1.
  pose proof (processCompleted_latched x H) as L1. set (x1 := processCompletedTransitions cf x) in *.
  pose proof (processExternal_inv isP pn cf Hc Hwf Htargets providerThrows x1 H1) as H2.
  pose proof (processExternal_latched x1 L1) as L2. set (x2 := processExternalEvents cf x1) in *.
  destruct (scan_inv_exec isP pn cf Hc Hwf Htargets a b x2 H2) as (H3 & _). change (exec_inv cf (cycle_scan cf a b x2)) in H3.
  destruct (cycle_scan_frame cf a b x2) as (_ & _ & F3 & F4).
  assert (latched (cycle_scan cf a b x2)) as L3 by (eapply latched_same; [exact F3|exact (f_equal fst F4)|exact L2]).
  set (x3 := cycle_scan cf a b x2) in *.
  destruct Hs as [[-> _]|[_ [[-> _]|[_ [[-> _]|[E2 [[-> _]|[_ Hf]]]]]]]]; try done.
  apply (fire_steps_latched _ _ Hf); [done|by rewrite F3|done].
Qed.

Lemma wakeUp_still s : game_of (s_exec (wakeUp s)) = game_of (s_exec s) ∧ terminalReached (s_exec (wakeUp s)) = terminalReached (s_exec s).
Proof. split; [apply wakeUp_frame|apply wakeUp_quiet]. Qed.

Local Ltac still_tac := match goal with |- context [wakeUp ?s1] => by destruct (wakeUp_still s1) as [-> ->] end.

(** The steps other than the cycle leave the game as it is. *)
Lemma sys_step_still s s' : sys_step cf providerThrows s s' → sys_inv cf s →
  (∃ x a b, s = Sys x AtCycle ∧ s' = after_cycle (cycle cf providerThrows a b x)) ∨
  game_of (s_exec s') = game_of (s_exec s) ∧ terminalReached (s_exec s') = terminalReached (s_exec s).
Proof.
  intros Hstep Hi. pose proof (xi_keys _ _ _ Hi) as Hd.
  destruct Hstep as [x n1 n2|x|x now|x w ms Hw|x w|id p tok s s' Hs Hin|s|s|b s|tid err s|tid now s Hn|tid call s Hcall|tid x pt].
  - left. by exists x, n1, n2.
  - right. by case_bool.
  - right. unfold park. by repeat case_bool.
  - by right.
  - by right.
  - right. unfold inject in Hin. cbn zeta in Hin. case_bool_decide; [done|]. case_bool; injection Hin as <-; [done|]. still_tac.
  - right. unfold drain. cbn zeta. still_tac.
  - right. unfold close. cbn zeta. still_tac.
  - right. unfold budgetExpired. cbn zeta. destruct b; [|done]. unfold close. cbn zeta. still_tac.
  - right. rewrite (proj1 (settle_frame tid err s Hd)). split; [done|]. apply settle_quiet.
  - right. rewrite (proj1 (actionTimedOut_frame cf tid now s Hd)). split; [done|]. apply actionTimedOut_quiet.
  - right. unfold actionCall. cbn zeta. destruct (map_get tid (inFlight (s_exec s))) as [fl|] eqn:E; [|done].
    split; [|done]. by apply (set_flight_game tid fl).
  - by right.
Qed.

Lemma game_of_finish x : game_of (finish x) = game_of x ∧ terminalReached (finish x) = terminalReached x.
Proof. done. Qed.

Lemma sys_step_latched s s' : sys_step cf providerThrows s s' → sys_inv cf s → latched (s_exec s) → latched (s_exec s').
Proof.
  intros Hstep Hi H. destruct (sys_step_still s s' Hstep Hi) as [(x & a & b & -> & ->)|[E1 E2]].
  - pose proof (cycle_latched a b x Hi H) as H'. by destruct (cycle cf providerThrows a b x) as [y []].
  - eapply latched_same; [exact E2|exact (f_equal fst E1)|exact H].
Qed.

Lemma sys_step_frozen s s' : sys_step cf providerThrows s s' → sys_inv cf s → terminalReached (s_exec s) = true →
  game_of (s_exec s') = game_of (s_exec s) ∧ terminalReached (s_exec s') = true.
Proof.
  intros Hstep Hi H. destruct (sys_step_still s s' Hstep Hi) as [(x & a & b & -> & ->)|[E1 E2]]; [|by rewrite E2].
  cbn [s_exec] in *. unfold cycle. by rewrite H, orb_true_r.
Qed.

Lemma steps_frozen s s' : rtc (sys_step cf providerThrows) s s' → sys_inv cf s → terminalReached (s_exec s) = true →
  game_of (s_exec s') = game_of (s_exec s) ∧ terminalReached (s_exec s') = true.
Proof.
  induction 1 as [s|s1 s2 s3 Hs _ IH]; intros Hi Ht; [done|].
  destruct (sys_step_frozen s1 s2 Hs Hi Ht) as [E1 E2]. rewrite <- E1. apply IH; [|done].
  by apply (sys_step_inv isP pn cf Hc Hwf Htargets providerThrows s1 s2).
Qed.
End Steps.

(** ** Runs of deployed executors *)

Section Deployed.
Context {V : Type} {isP : nat → bool} {rnd : jsstr} {base : nat} {pn : petri_net V} {initialTokens : list (place * list (token V))}
  {o : options (V := V)} {cf : config V} {x0 : exec V}.
Hypothesis Hd : deployed isP rnd base pn initialTokens o cf x0.

(** An invariant of the steps holds wherever the run goes. *)
Lemma reachable_ind (P : sys → Prop) providerThrows s :
  (∀ s s', sys_step cf providerThrows s s' → sys_inv cf s → P s → P s') →
  P (Sys (start cf x0) AtCycle) → reachable cf providerThrows x0 s → P s.
Proof.
  intros Hstep H0 Hr. destruct (deployed_start Hd) as [Htg Hi]. pose proof (deployed_compiled Hd) as Hc. pose proof (deployed_wf Hd) as Hwf.
  assert (∀ a b, rtc (sys_step cf providerThrows) a b → sys_inv cf a → P a → P b) as H.
  { induction 1 as [|a b d Hab _ IH]; intros H1 H2; [done|]. apply IH; [|by apply (Hstep a b)].
    by apply (sys_step_inv isP pn cf Hc Hwf Htg providerThrows a b). }
  by apply (H _ _ Hr).
Qed.

Lemma deployed_timing tid tr : c_transition (cf_compiled cf) tid = Some tr → timing_ok (t_timing tr).
Proof.
  intros Ht. apply (transition_lookup isP pn cf (deployed_compiled Hd)) in Ht. apply list_elem_of_lookup_2 in Ht.
  destruct (dp_made _ _ _ _ _ _ _ _ Hd tr Ht) as (b & Hb & _). unfold build in Hb. apply res_seq_ok in Hb as [_ Hb].
  apply res_seq_ok in Hb as [H2 Hb]. apply res_seq_ok in Hb as [_ Hb]. apply res_seq_ok in Hb as [_ Hb]. injection Hb as <-.
  by apply check_timing_ok.
Qed.

Lemma start_latched : latched cf (start cf x0).
Proof.
  pose proof (start_game Hd) as Hg. apply (f_equal fst) in Hg. cbn [game_of fst] in Hg.
  destruct (deployed_fresh Hd) as (_ & _ & _ & _ & _ & _ & Et & _). pose proof (deployed_compiled Hd) as Hc.
  unfold latched. revert Hg. unfold start. cbn zeta.
  set (x1 := on_engine _ _). assert (terminalReached x1 = false) as E1 by done.
  destruct (hasTerminals (cf_compiled cf)) eqn:Eh.
  - intros _. unfold checkInitialTerminals.
    set (holds := existsb _ (seq 0 _)). assert (holds = true ↔ terminal_marked cf (e_marking (x_engine x1))) as Hh.
    { unfold holds. rewrite existsb_exists. unfold terminal_marked. split.
      - intros (pid & Hin%list_elem_of_In & [H1 H2]%andb_true_iff). apply elem_of_seq in Hin. apply Nat.ltb_lt in H2.
        destruct (lookup_lt_is_Some_2 (placesById (cf_compiled cf)) pid) as [q Hq]; [apply Hin|].
        exists pid, q. split_and!; [done|exact Hq|]. rewrite (tokens_at_place isP pn cf Hc q pid) in H2 by by eapply place_pid.
        intros Eq. rewrite Eq in H2. simpl in H2. lia.
      - intros (pid & q & H1 & H2 & H3). exists pid. split.
        + apply list_elem_of_In, elem_of_seq. split; [lia|]. unfold c_place in H2. by apply lookup_lt_Some in H2.
        + rewrite H1. apply Nat.ltb_lt. rewrite (tokens_at_place isP pn cf Hc q pid) by by eapply place_pid.
          destruct (queue _ _); [done|]. simpl. lia. }
    destruct holds; [|by rewrite E1]. cbn [set_terminal terminalReached x_engine]. tauto.
  - intros _. rewrite E1. split; [done|]. intros (pid & q & H1 & _). unfold is_terminal in H1. unfold hasTerminals in Eh.
    apply bool_decide_eq_false in Eh. by destruct (terminalFlags (cf_compiled cf)); [destruct Eh|].
Qed.

Lemma start_ended : ended cf (Sys (start cf x0) AtCycle).
Proof. unfold ended, start. cbn [s_point s_exec]. cbn zeta. case_bool; [|done]. unfold checkInitialTerminals. by case_bool. Qed.
End Deployed.

(** ** The timer of the wait *)

Section Timer.
Context {V : Type} (cf : config V).
Implicit Types (e : engine V) (tr : transition V).
Abbreviation c := (cf_compiled cf).
Hypothesis Hok : ∀ tid tr, c_transition c tid = Some tr → timing_ok (t_timing tr).

(** How long until an enabled transition may fire. *)
Definition remaining (now : Z) e (tid : nat) (z : Z) : Prop :=
  flag (enabledFlags e) tid = true ∧
  ∃ tr t0, c_transition c tid = Some tr ∧ stamp_at e tid = Some t0 ∧ z = (earliest (t_timing tr) - (now - t0))%Z.

Definition positive (m : jnum) : Prop := ∀ z, m = Fin z → (0 < z)%Z.

Lemma millis_loop_spec now e tids acc : flags_ok cf e → positive acc → (∀ tid, tid ∈ tids → tid < transitionCount c) →
  match millis_loop cf now e tids acc with
  | Infinity => acc = Infinity ∧ ∀ tid, tid ∈ tids → flag (enabledFlags e) tid = false
  | Fin ms => (0 ≤ ms)%Z ∧ (∀ z, acc = Fin z → (ms ≤ z)%Z) ∧
      (∀ tid z, tid ∈ tids → remaining now e tid z → (ms ≤ 0 `max` z)%Z) ∧
      (acc = Fin ms ∨ ∃ tid z, tid ∈ tids ∧ remaining now e tid z ∧ ms = (0 `max` z)%Z)
  end.
Proof.
  intros Hf. revert acc. induction tids as [|tid tids IH]; intros acc Hacc Hlt; cbn [millis_loop].
  { destruct acc as [z|]; [|by split; [|intros ? ?%not_elem_of_nil]]. pose proof (Hacc z eq_refl).
    split_and!; [lia|by intros z' [= ->]|by intros ? ? ?%not_elem_of_nil|by left]. }
  assert (∀ tid', tid' ∈ tids → tid' < transitionCount c) as Hlt' by (intros; apply Hlt; by right).
  destruct (flag (enabledFlags e) tid) eqn:Hen; cbn [negb].
  2:{ specialize (IH acc Hacc Hlt'). destruct (millis_loop cf now e tids acc) as [ms|].
    - destruct IH as (I1 & I2 & I3 & I4). split_and!; [done|done| |].
      + intros t z [->|Hin]%elem_of_cons Hr; [|by apply (I3 t)]. destruct Hr. congruence.
      + destruct I4 as [?|(t & z & ? & ?)]; [by left|]. right. exists t, z. by split; [right|].
    - destruct IH as [-> IH]. split; [done|]. intros t [->|Hin]%elem_of_cons; [done|by apply IH]. }
  destruct (lt_c_transition cf tid) as [tr Ht]; [apply Hlt; left|].
  destruct (proj1 (fo_stamp _ _ Hf tid) Hen) as [t0 Hst]. unfold elapsed. unfold stamp_at in Hst. rewrite Ht, Hst. cbn zeta.
  set (z := (earliest (t_timing tr) - (now - t0))%Z).
  assert (remaining now e tid z) as Hrem by (split; [done|]; by exists tr, t0).
  assert (∀ z', remaining now e tid z' → z' = z) as Huniq.
  { intros z' (_ & tr' & t0' & Ht' & Hst' & ->). unfold stamp_at in Hst'. by simplify_eq. }
  destruct (z <=? 0)%Z eqn:Ez; b2p.
  { split_and!; [lia|intros z' E; specialize (Hacc z' E); lia|intros; lia|]. right. exists tid, z. split_and!; [by left|done|lia]. }
  assert (∀ acc', acc' = jnum_min acc (Fin z) → match millis_loop cf now e tids acc' with
    | Infinity => acc = Infinity ∧ ∀ t, t ∈ tid :: tids → flag (enabledFlags e) t = false
    | Fin ms => (0 ≤ ms)%Z ∧ (∀ z, acc = Fin z → (ms ≤ z)%Z) ∧
        (∀ t z, t ∈ tid :: tids → remaining now e t z → (ms ≤ 0 `max` z)%Z) ∧
        (acc = Fin ms ∨ ∃ t z, t ∈ tid :: tids ∧ remaining now e t z ∧ ms = (0 `max` z)%Z) end) as Hnext.
  { intros acc' ->. assert (∃ y, jnum_min acc (Fin z) = Fin y ∧ (0 < y ≤ z)%Z ∧ (∀ a, acc = Fin a → (y ≤ a)%Z) ∧ (y = z ∨ acc = Fin y)) as (y & Ey & H1 & H2 & H3).
    { destruct acc as [a|].
      - rewrite jnum_min_Fin. pose proof (Hacc a eq_refl). exists (a `min` z)%Z. split_and!; [done|lia|lia|intros a' [= ->]; lia|].
        destruct (Z.min_spec a z) as [[? ->]|[? ->]]; auto.
      - rewrite jnum_min_Inf_l. exists z. split_and!; [done|lia|lia|done|by left]. }
    assert (positive (Fin y)) as Hp by (intros ? [= <-]; lia).
    rewrite Ey. specialize (IH (Fin y) Hp Hlt'). destruct (millis_loop cf now e tids (Fin y)) as [ms|]; destruct IH as [I1 I2]; try done.
    destruct I2 as (I2 & I3 & I4). specialize (I2 y eq_refl). split_and!; [done| | |].
    - intros a E. specialize (H2 a E). lia.
    - intros t z' [->|Hin]%elem_of_cons Hr; [rewrite (Huniq z' Hr); lia|by apply (I3 t)].
    - destruct I4 as [[= ->]|(t & z' & ? & ?)].
      + destruct H3 as [->|?]; [|by left]. right. exists tid, z. split_and!; [by left|done|lia].
      + right. exists t, z'. by split; [right|]. }
  destruct (hasDeadline (t_timing tr)) eqn:Hdl; [|by apply Hnext].
  pose proof (earliest_le_latest _ (Hok tid tr Ht)) as Hel.
  rewrite (proj2 (Z.leb_gt _ _)) by lia. apply Hnext.
  rewrite <- jnum_min_assoc, jnum_min_Fin. do 2 f_equal. lia.
Qed.

Lemma remaining_ready now d e tid z : flags_ok cf e → remaining now e tid z → is_ready cf (now + d) e tid ≠ None ↔ (z ≤ d)%Z.
Proof.
  intros Hf (Hen & tr & t0 & Ht & Hst & ->). unfold is_ready. rewrite Hen, (fo_excl _ _ Hf tid Hen), Ht. cbn [negb orb].
  unfold elapsed. unfold stamp_at in Hst. rewrite Hst. cbn [jnum_ltb]. case_bool; b2p; split; try done; lia.
Qed.
End Timer.

(** ** Properties *)

(** One pass admits the queued events first come, first served. It deposits the events in the
    order they were injected, all of them or, when one lands on a terminal place, those up to it; it
    answers each of them with [true] in that order and keeps the rest in the queue; a closed
    executor admits none. Nothing else happens to the marking, and the run is latched exactly when
    an admitted event landed on a terminal place. *)
Theorem external_events_fifo {V} (cf : config V) (x : exec V) :
  terminalReached x = false →
  let x' := processExternalEvents cf x in
  let adm := if closed x then [] else admitted cf (externalQueue x) in
  externalQueue x = adm ++ externalQueue x' ∧
  admissions x' = admissions x ++ ((λ ev, (ev_id ev, true)) <$> adm) ∧
  (∀ n, queue (e_marking (x_engine x')) n = queue (e_marking (x_engine x)) n ++ landed ((λ ev, (ev_place ev, ev_token ev)) <$> adm) n) ∧
  inFlight x' = inFlight x ∧ terminalReached x' = existsb (λ ev, latches cf (ev_place ev)) adm.
Proof. apply processExternal_exact. Qed.

Definition order_event (id : nat) (v : string) : external_event jsstr := ExternalEvent id order_p (Token (Some (js v)) 30).
Definition ordered_exec : exec jsstr :=
  set_external [order_event 1 "a"; ExternalEvent 2 done_p (Token None 30); order_event 3 "b"] [] (start sample.1 sample.2).

Lemma external_events_fifo_witness :
  let x' := processExternalEvents sample.1 ordered_exec in
  ev_id <$> admitted sample.1 (externalQueue ordered_exec) = [1; 2] ∧ terminalReached x' = true ∧
  admissions x' = admissions ordered_exec ++ ((λ ev, (ev_id ev, true)) <$> admitted sample.1 (externalQueue ordered_exec)).
Proof.
  cbn zeta. split; [by vm_compute|]. split; [by vm_compute|].
  destruct (external_events_fifo sample.1 ordered_exec) as (_ & H & _); [by vm_compute|]. rewrite H. by vm_compute.
Defined.

(** C20: no injected event is lost or answered twice. In every run, the identifiers answered
    followed by those queued change only when an event is injected, and then by that event's
    identifier; an answer once given stays; and a finished loop leaves no event unanswered, nor
    does any later step. *)
Theorem every_event_answered {V} isP rnd base (pn : petri_net V) initialTokens o cf x0 providerThrows s s' :
  deployed isP rnd base pn initialTokens o cf x0 → reachable cf providerThrows x0 s → sys_step cf providerThrows s s' →
  admissions (s_exec s) `prefix_of` admissions (s_exec s') ∧
  (event_ids (s_exec s') = event_ids (s_exec s) ∨
   ∃ id p tok, inject cf id p tok s = Ok s' ∧ event_ids (s_exec s') ≡ₚ event_ids (s_exec s) ++ [id]) ∧
  (s_point s' = Finished → externalQueue (s_exec s') = []).
Proof.
  intros Hd Hr Hstep. destruct (deployed_start Hd) as [Htg _]. pose proof (deployed_compiled Hd) as Hc. pose proof (deployed_wf Hd) as Hwf.
  assert (ended cf s) as He.
  { apply (reachable_ind Hd (ended cf) providerThrows s); [|apply start_ended|done].
    intros a b Hab Hi Ha. by apply (sys_step_events isP pn cf Hc Hwf Htg providerThrows a b). }
  destruct (sys_step_events isP pn cf Hc Hwf Htg providerThrows s s' Hstep (deployed_inv Hd providerThrows s Hr) He) as (E1 & E2 & E3).
  split_and!; [done|done|]. intros Hf. apply ended_iff in E1 as [_ E1]. by apply E1.
Qed.

Definition sample_injected : sys (V := jsstr) :=
  match inject sample.1 7 order_p (Token (Some (js "a")) 30) sample_start with Ok s => s | Err _ => sample_start end.

Lemma every_event_answered_witness :
  event_ids (s_exec sample_injected) = [7] ∧ admissions (s_exec sample_start) `prefix_of` admissions (s_exec sample_injected).
Proof.
  split; [by vm_compute|].
  destruct (every_event_answered (λ _, false) (js "r") 100 sample_net sample_tokens sample_options sample.1 sample.2 (λ _ _, false)
              sample_start sample_injected sample_deployed (rtc_refl _ _)) as (H & _ & _).
  - apply (step_inject sample.1 (λ _ _, false) 7 order_p (Token (Some (js "a")) 30)); [vm_compute; discriminate|by vm_compute].
  - exact H.
Defined.

(** C19: reaching a terminal place ends the run. In every state of a run the terminal latch is set
    exactly when a terminal place holds a token. Once set it stays set, no step deposits, consumes,
    fires or completes anything, the next pass of the loop ends it, and a run nobody stopped reports
    the reason [terminal]. *)
Theorem terminal_latch {V} isP rnd base (pn : petri_net V) initialTokens o cf x0 providerThrows s :
  deployed isP rnd base pn initialTokens o cf x0 → reachable cf providerThrows x0 s →
  let x := s_exec s in
  (terminalReached x = true ↔ terminal_marked cf (e_marking (x_engine x))) ∧
  (terminalReached x = true →
     (∀ s', rtc (sys_step cf providerThrows) s s' → game_of (s_exec s') = game_of x ∧ terminalReached (s_exec s') = true) ∧
     (∀ a b, after_cycle (cycle cf providerThrows a b x) = Sys (finish x) Finished) ∧
     (reason x = Running → reason (finish x) = Terminal)).
Proof.
  intros Hd Hr. destruct (deployed_start Hd) as [Htg _]. pose proof (deployed_compiled Hd) as Hc. pose proof (deployed_wf Hd) as Hwf.
  cbn zeta. split.
  - apply (reachable_ind Hd (λ s, latched cf (s_exec s)) providerThrows s); [|apply (start_latched Hd)|done].
    intros a b Hab Hi Ha. by apply (sys_step_latched isP pn cf Hc Hwf Htg providerThrows a b).
  - intros Ht. split_and!.
    + intros s' Hs. apply (steps_frozen isP pn cf Hc Hwf Htg providerThrows s s' Hs); [|done]. apply (deployed_inv Hd providerThrows s Hr).
    + intros a b. unfold cycle. by rewrite Ht, orb_true_r.
    + intros Hre. unfold finish. cbn. by rewrite Hre, Ht.
Qed.

(** The sample seeded on its terminal place. *)
Definition over_tokens : list (place * list (token jsstr)) := [(done_p, [Token None 1]); (pair_p, [Token None 2])].
Definition over : config jsstr * exec jsstr :=
  match construct (λ _, false) (js "r") 100 sample_net over_tokens sample_options with Ok r => r | Err _ => sample end.

Lemma over_deployed : deployed (λ _, false) (js "r") 100 sample_net over_tokens sample_options over.1 over.2.
Proof.
  constructor; [exact (dp_made _ _ _ _ _ _ _ _ sample_deployed)|by vm_compute|].
  intros s tok Hs Htok. unfold seed_of in Hs. cbn [o_restore sample_options] in Hs. unfold over_tokens in Hs.
  rewrite !elem_of_cons, elem_of_nil in Hs. destruct_or!; subst; try done; cbn [snd] in Htok; apply list_elem_of_singleton in Htok as ->;
    unfold safe_token; vm_compute; discriminate.
Qed.

Definition over_start : sys (V := jsstr) := Sys (start over.1 over.2) AtCycle.

Lemma terminal_latch_witness :
  terminalReached (s_exec over_start) = true ∧
  after_cycle (cycle over.1 (λ _ _, false) 30 30 (s_exec over_start)) = Sys (finish (s_exec over_start)) Finished.
Proof.
  assert (terminalReached (s_exec over_start) = true) as Ht by (by vm_compute). split; [exact Ht|].
  destruct (terminal_latch (λ _, false) (js "r") 100 sample_net over_tokens sample_options over.1 over.2 (λ _ _, false)
              over_start over_deployed (rtc_refl _ _)) as (_ & H).
  destruct (H Ht) as (_ & H' & _). exact (H' 30%Z 30%Z).
Defined.

(** C21: the timer of the wait is exact. In every state of a run and for every reading of the clock
    there is no timer exactly when nothing is enabled; otherwise the timer is the first delay after
    which some transition is ready to fire: before it none is. *)
Theorem wait_timer_exact {V} isP rnd base (pn : petri_net V) initialTokens o cf x0 providerThrows s now :
  deployed isP rnd base pn initialTokens o cf x0 → reachable cf providerThrows x0 s →
  let e := x_engine (s_exec s) in
  match millisUntilNextTimedTransition cf now e with
  | Infinity => ∀ tid, flag (enabledFlags e) tid = false
  | Fin ms => (0 ≤ ms)%Z ∧ (∀ d tid, (0 ≤ d < ms)%Z → is_ready cf (now + d) e tid = None) ∧
              ∃ tid, is_ready cf (now + ms) e tid ≠ None
  end.
Proof.
  intros Hd Hr. cbn zeta. set (e := x_engine (s_exec s)). pose proof (deployed_compiled Hd) as Hc.
  pose proof (ei_flags _ _ _ (xi_engine _ _ (deployed_inv Hd providerThrows s Hr))) as Hf. fold e in Hf.
  assert (∀ tid, tid ∈ seq 0 (transitionCount (cf_compiled cf)) → tid < transitionCount (cf_compiled cf)) as Hs by (intros tid [_ ?]%elem_of_seq; done).
  assert (positive Infinity) as Hp by done.
  pose proof (millis_loop_spec cf (deployed_timing Hd) now e (seq 0 (transitionCount (cf_compiled cf))) Infinity Hf Hp Hs) as H.
  unfold millisUntilNextTimedTransition. destruct (millis_loop _ _ _ _ _) as [ms|]; destruct H as [H1 H2].
  - destruct H2 as (_ & H2 & H3). split_and!; [done| |].
    + intros d tid Hdm. destruct (is_ready cf (now + d) e tid) as [sl|] eqn:E; [|done]. exfalso.
      pose proof E as (tr & Ht & Hen & _)%is_ready_spec. destruct (proj1 (fo_stamp _ _ Hf tid) Hen) as [t0 Hst].
      assert (remaining cf now e tid (earliest (t_timing tr) - (now - t0))) as Hrem by (split; [done|]; by exists tr, t0).
      assert (tid ∈ seq 0 (transitionCount (cf_compiled cf))) as Hin by (apply elem_of_seq; split; [lia|by eapply c_transition_lt]).
      specialize (H2 _ _ Hin Hrem). assert (is_ready cf (now + d) e tid ≠ None) as Hne by congruence.
      apply (remaining_ready cf now d e tid _ Hf Hrem) in Hne. lia.
    + destruct H3 as [?|(tid & z & _ & Hrem & ->)]; [done|]. exists tid. apply (remaining_ready cf now _ e tid z Hf Hrem). lia.
  - intros tid. destruct (flag (enabledFlags e) tid) eqn:E; [|done]. rewrite <- E. apply H2, elem_of_seq. split; [lia|].
    apply flag_lt in E. destruct (fo_len _ _ Hf) as (_ & _ & <-). done.
Qed.

(** The sample with its shipping step enabled at 21 and its window opening at 31. *)
Definition sample_shipping : sys (V := jsstr) := after_cycle (cycle sample.1 (λ _ _, false) 21 21 (s_exec sample_rejected)).

Lemma sample_shipping_reachable : reachable sample.1 (λ _ _, false) sample.2 sample_shipping.
Proof. eapply rtc_r; [exact sample_rejected_reachable|apply cycle_at; by vm_compute]. Qed.

Lemma wait_timer_exact_witness :
  millisUntilNextTimedTransition sample.1 25 (x_engine (s_exec sample_shipping)) = Fin 6 ∧
  ∀ d tid, (0 ≤ d < 6)%Z → is_ready sample.1 (25 + d) (x_engine (s_exec sample_shipping)) tid = None.
Proof.
  assert (millisUntilNextTimedTransition sample.1 25 (x_engine (s_exec sample_shipping)) = Fin 6) as E by (by vm_compute).
  split; [exact E|].
  pose proof (wait_timer_exact (λ _, false) (js "r") 100 sample_net sample_tokens sample_options sample.1 sample.2 (λ _ _, false)
              sample_shipping 25 sample_deployed sample_shipping_reachable) as H.
  cbn zeta in H. rewrite E in H. destruct H as (_ & H & _). exact H.
Defined.
