(* ===== verification/MarkingState.v ===== *)
(** * Count markings of the analyses

    [src/typescript/src/verification/marking-state.ts]: the immutable token counts the state-space
    analyses explore, and their builder. A [Map] is its entries in insertion order. *)
From S2P Require Import Prelude.
From S2P Require Import CodePoints.
From S2P Require Import Net.
From stdpp Require Import pretty.
#[local] Open Scope Z_scope.

(** [Map.prototype.delete] *)
Definition map_delete {A V} `{EqDecision A} (k : A) (m : list (A * V)) : list (A * V) := filter (λ y, y.1 ≠ k) m.

(** [String(n)] of an integer. *)
Definition number_string (n : Z) : jsstr := js (pretty n).

(** [l.join(sep)] *)
Fixpoint join (sep : jsstr) (l : list jsstr) : jsstr :=
  match l with
  | [] => []
  | [x] => x
  | x :: l => x ++ sep ++ join sep l
  end.

(** The fields a [MarkingState] and its builder share. *)
Record marking_state := MarkingState { tokenCounts : list (jsstr * Z); placesByName : list (jsstr * place) }.

Inductive marking_error :=
| NegativeCount (count : Z)
| CannotRemove (count : Z) (name : jsstr) (current : Z).

Definition ms_empty : marking_state := MarkingState [] [].

Definition ms_tokens (p : place) (m : marking_state) : Z := default 0 (map_get (place_name p) (tokenCounts m)).
Definition ms_hasTokens (p : place) (m : marking_state) : bool := 0 <? ms_tokens p m.
Definition hasTokensInAny (ps : list place) (m : marking_state) : bool := existsb (λ p, ms_hasTokens p m) ps.
Definition placesWithTokens (m : marking_state) : list place := (placesByName m).*2.
Definition totalTokens (m : marking_state) : Z := foldl (λ sum y, sum + y.2) 0 (tokenCounts m).
Definition ms_isEmpty (m : marking_state) : bool := bool_decide (length (tokenCounts m) = 0)%nat.

(** [`${name}:${count}`] *)
Definition entry_string (y : jsstr * Z) : jsstr := y.1 ++ js ":" ++ number_string y.2.
Definition ms_toString (m : marking_state) : jsstr :=
  if bool_decide (length (tokenCounts m) = 0)%nat then js "{}"
  else js "{" ++ join (js ", ") (entry_string <$> stable_sort (λ a b, compareCodePoints a.1 b.1 <=? 0) (tokenCounts m)) ++ js "}".

(** ** The builder *)

Definition set_tokens (p : place) (count : Z) (m : marking_state) : result marking_error marking_state :=
  if count <? 0 then Err (NegativeCount count)
  else if 0 <? count
  then Ok (MarkingState (map_set (place_name p) count (tokenCounts m)) (map_set (place_name p) p (placesByName m)))
  else Ok (MarkingState (map_delete (place_name p) (tokenCounts m)) (map_delete (place_name p) (placesByName m))).

Definition addTokens (p : place) (count : Z) (m : marking_state) : result marking_error marking_state :=
  if count <? 0 then Err (NegativeCount count)
  else if 0 <? count
  then let current := default 0 (map_get (place_name p) (tokenCounts m)) in
       Ok (MarkingState (map_set (place_name p) (current + count) (tokenCounts m)) (map_set (place_name p) p (placesByName m)))
  else Ok m.

Definition removeTokens (p : place) (count : Z) (m : marking_state) : result marking_error marking_state :=
  let current := default 0 (map_get (place_name p) (tokenCounts m)) in
  let newCount := current - count in
  if newCount <? 0 then Err (CannotRemove count (place_name p) current)
  else if newCount =? 0
  then Ok (MarkingState (map_delete (place_name p) (tokenCounts m)) (map_delete (place_name p) (placesByName m)))
  else Ok (MarkingState (map_set (place_name p) newCount (tokenCounts m)) (placesByName m)).

Definition copyFrom (other m : marking_state) : marking_state :=
  foldl (λ m p, MarkingState (map_set (place_name p) (ms_tokens p other) (tokenCounts m))
                             (map_set (place_name p) p (placesByName m))) m (placesWithTokens other).

(** ** Counts *)

(** The count the marking holds under a name. *)
Definition count_of (m : marking_state) (n : jsstr) : Z := default 0 (map_get n (tokenCounts m)).

(** A marking the builder makes: positive counts, each with the place it is for. *)
Record ms_wf (m : marking_state) : Prop := {
  wf_keys : NoDup (tokenCounts m).*1;
  wf_places : ∀ n, n ∈ (placesByName m).*1 ↔ n ∈ (tokenCounts m).*1;
  wf_names : ∀ n p, (n, p) ∈ placesByName m → place_name p = n;
  wf_pkeys : NoDup (placesByName m).*1;
  wf_counts : ∀ n z, (n, z) ∈ tokenCounts m → 0 < z
}.

Section Maps.
Context {A V : Type} `{EqDecision A}.
Implicit Types (m : list (A * V)).

Lemma map_delete_keys k m x : x ∈ (map_delete k m).*1 ↔ x ∈ m.*1 ∧ x ≠ k.
Proof.
  unfold map_delete. rewrite !list_elem_of_fmap. setoid_rewrite list_elem_of_filter. split; [naive_solver|].
  intros [(y & -> & Hy) Hne]. exists y. naive_solver.
Qed.

Lemma NoDup_map_delete k m : NoDup m.*1 → NoDup (map_delete k m).*1.
Proof.
  unfold map_delete. induction m as [|y m IH]; intros Hd; [constructor|]. rewrite fmap_cons in Hd. apply NoDup_cons in Hd as [Hn Hd].
  rewrite filter_cons. case_decide; [|auto]. rewrite fmap_cons. constructor; [|auto]. intros Hy. apply Hn.
  apply list_elem_of_fmap in Hy as (z & E & [_ Hz]%list_elem_of_filter). rewrite E. by apply list_elem_of_fmap_2.
Qed.

Lemma map_get_delete k k' m : map_get k (map_delete k' m) = if decide (k = k') then None else map_get k m.
Proof.
  unfold map_delete. induction m as [|[k1 v1] m IH]; [by case_decide|]. rewrite filter_cons. cbn [fst].
  repeat (case_decide; cbn [map_get]; subst); rewrite ?IH; repeat case_decide; congruence.
Qed.
End Maps.

Lemma count_nonneg m n : ms_wf m → 0 <= count_of m n.
Proof.
  intros H. unfold count_of. destruct (map_get n (tokenCounts m)) as [z|] eqn:E; simpl; [|lia].
  apply map_get_elem in E. apply (wf_counts m H) in E. lia.
Qed.

Lemma count_tokens p m : ms_tokens p m = count_of m (place_name p).
Proof. done. Qed.

Lemma ms_empty_wf : ms_wf ms_empty.
Proof. constructor; [constructor|done|by intros ? ? ?%not_elem_of_nil|constructor|by intros ? ? ?%not_elem_of_nil]. Qed.

Lemma set_entry_wf p z m : ms_wf m → 0 < z →
  ms_wf (MarkingState (map_set (place_name p) z (tokenCounts m)) (map_set (place_name p) p (placesByName m))).
Proof.
  intros [H1 H2 H3 H4 H5] Hz. constructor; cbn [tokenCounts placesByName].
  - by apply NoDup_map_set.
  - intros n. by rewrite !elem_of_map_set_keys, H2.
  - intros n q [[-> ->]|Hin]%map_set_entries; auto.
  - by apply NoDup_map_set.
  - intros n y [[-> ->]|Hin]%map_set_entries; eauto.
Qed.

Lemma delete_entry_wf n m : ms_wf m → ms_wf (MarkingState (map_delete n (tokenCounts m)) (map_delete n (placesByName m))).
Proof.
  intros [H1 H2 H3 H4 H5]. constructor; cbn [tokenCounts placesByName].
  - by apply NoDup_map_delete.
  - intros x. by rewrite !map_delete_keys, H2.
  - intros x q [_ Hin]%list_elem_of_filter. by apply H3.
  - by apply NoDup_map_delete.
  - intros x y [_ Hin]%list_elem_of_filter. by eapply H5.
Qed.

(** [f] with one value replaced. *)
Definition update (f : jsstr → Z) (n : jsstr) (z : Z) : jsstr → Z := λ x, if decide (x = n) then z else f x.

Lemma count_set p z m ps n : count_of (MarkingState (map_set (place_name p) z (tokenCounts m)) ps) n = update (count_of m) (place_name p) z n.
Proof. unfold count_of, update. cbn [tokenCounts]. rewrite map_get_set. by case_decide. Qed.
Lemma count_delete p m ps n : count_of (MarkingState (map_delete (place_name p) (tokenCounts m)) ps) n = update (count_of m) (place_name p) 0 n.
Proof. unfold count_of, update. cbn [tokenCounts]. rewrite map_get_delete. by case_decide. Qed.

Lemma set_tokens_spec p z m m' : ms_wf m → set_tokens p z m = Ok m' →
  ms_wf m' ∧ ∀ n, count_of m' n = update (count_of m) (place_name p) z n.
Proof.
  intros Hw. unfold set_tokens. case_bool; [done|]. case_bool; intros [= <-]; b2p.
  - split; [by apply set_entry_wf|]. apply count_set.
  - split; [by apply delete_entry_wf|]. intros n. rewrite count_delete. assert (z = 0) as -> by lia. done.
Qed.

Lemma set_tokens_ok p z m : 0 <= z → is_ok (set_tokens p z m).
Proof. intros H. unfold set_tokens. rewrite (proj2 (Z.ltb_ge z 0)) by lia. by case_bool. Qed.

Lemma addTokens_spec p z m m' : ms_wf m → addTokens p z m = Ok m' →
  ms_wf m' ∧ ∀ n, count_of m' n = update (count_of m) (place_name p) (count_of m (place_name p) + z) n.
Proof.
  intros Hw. unfold addTokens. case_bool; [done|]. case_bool; intros [= <-]; b2p.
  - pose proof (count_nonneg m (place_name p) Hw). split; [apply set_entry_wf; [done|unfold count_of in *; lia]|]. apply count_set.
  - split; [done|]. intros n. unfold update. case_decide; [|done]. subst. lia.
Qed.

Lemma addTokens_ok p z m : 0 <= z → is_ok (addTokens p z m).
Proof. intros H. unfold addTokens. rewrite (proj2 (Z.ltb_ge z 0)) by lia. by case_bool. Qed.

Lemma removeTokens_spec p z m m' : ms_wf m → 0 <= z → removeTokens p z m = Ok m' →
  ms_wf m' ∧ ∀ n, count_of m' n = update (count_of m) (place_name p) (count_of m (place_name p) - z) n.
Proof.
  intros Hw Hz. unfold removeTokens. cbn zeta. fold (count_of m (place_name p)). case_bool; [done|]. case_bool; intros [= <-]; b2p.
  - split; [by apply delete_entry_wf|]. intros n. rewrite count_delete. assert (count_of m (place_name p) - z = 0) as -> by lia. done.
  - split; [|apply count_set]. destruct Hw as [H1 H2 H3 H4 H5].
    assert (place_name p ∈ (tokenCounts m).*1) as Hin.
    { destruct (map_get (place_name p) (tokenCounts m)) as [c|] eqn:E.
      - apply map_get_elem in E. apply list_elem_of_fmap. by exists (place_name p, c).
      - unfold count_of in *. rewrite E in *. simpl in *. lia. }
    constructor; cbn [tokenCounts placesByName]; [by apply NoDup_map_set| |done|done|].
    + intros n. rewrite H2, elem_of_map_set_keys. naive_solver.
    + intros n y [[-> ->]|Hy]%map_set_entries; [lia|eauto].
Qed.

Lemma removeTokens_ok p z m : z <= count_of m (place_name p) → is_ok (removeTokens p z m).
Proof. intros H. unfold removeTokens. cbn zeta. fold (count_of m (place_name p)). rewrite (proj2 (Z.ltb_ge _ 0)) by lia. by case_bool. Qed.

Lemma copyFrom_spec other : ms_wf other →
  ms_wf (copyFrom other ms_empty) ∧ ∀ n, count_of (copyFrom other ms_empty) n = count_of other n.
Proof.
  intros Hw. unfold copyFrom, placesWithTokens.
  assert (∀ l m, (∀ n p, (n, p) ∈ l → (n, p) ∈ placesByName other) → ms_wf m →
    let m' := foldl (λ m p, MarkingState (map_set (place_name p) (ms_tokens p other) (tokenCounts m))
                              (map_set (place_name p) p (placesByName m))) m l.*2 in
    ms_wf m' ∧ ∀ n, count_of m' n = if decide (n ∈ l.*1) then count_of other n else count_of m n) as H.
  { induction l as [|[n p] l IH]; intros m Hl Hm; [done|]. rewrite !fmap_cons. cbn [foldl fst snd].
    assert (place_name p = n) as En by (apply (wf_names other Hw); apply Hl; left).
    assert (0 < ms_tokens p other) as Hpos.
    { rewrite count_tokens, En. assert (n ∈ (tokenCounts other).*1) as Hk.
      { apply (wf_places other Hw). apply list_elem_of_fmap. exists (n, p). split; [done|apply Hl; left]. }
      apply list_elem_of_fmap in Hk as ([n' z] & -> & Hz). unfold count_of. cbn [fst].
      rewrite (elem_map_get n' z _ (wf_keys other Hw) Hz). by apply (wf_counts other Hw) in Hz. }
    destruct (IH (MarkingState (map_set (place_name p) (ms_tokens p other) (tokenCounts m)) (map_set (place_name p) p (placesByName m)))) as [I1 I2].
    { intros. apply Hl. by right. } { by apply set_entry_wf. }
    split; [exact I1|]. intros x. rewrite I2, count_set, count_tokens. unfold update. rewrite En.
    repeat case_decide; subst; try done; set_solver. }
  destruct (H (placesByName other) ms_empty) as [H1 H2]; [done|apply ms_empty_wf|]. split; [exact H1|].
  intros n. rewrite H2. case_decide as Hn; [done|]. rewrite (wf_places other Hw) in Hn. unfold count_of.
  by rewrite (proj2 (map_get_None n (tokenCounts other)) Hn).
Qed.

(** ** The printed marking determines the counts *)

Definition digit (c : Z) : Prop := 48 <= c <= 57.

Lemma js_app a b : js (String.append a b) = js a ++ js b.
Proof. unfold js. induction a as [|x a IH]; [done|]. simpl. by f_equal. Qed.

Lemma js_injective a b : js a = js b → a = b.
Proof.
  revert b. induction a as [|x a IH]; intros [|y b]; try done. unfold js. simpl. intros [= E1 E2].
  apply Nat2Z.inj in E1. rewrite <- (ascii_nat_embedding x), <- (ascii_nat_embedding y), E1. f_equal. by apply IH.
Qed.

Lemma pretty_go_digits x s : Forall digit (js s) → Forall digit (js (pretty_N_go x s)).
Proof.
  revert s. induction (N.lt_wf_0 x) as [x _ IH]. intros s Hs. destruct (decide (x = 0)%N) as [->|Hx].
  - by rewrite pretty_N_go_0.
  - rewrite pretty_N_go_step by lia. apply IH; [apply N.div_lt; lia|]. constructor; [|exact Hs]. simpl.
    assert (∀ d, (d < 10)%N → digit (Z.of_nat (nat_of_ascii (pretty_N_char d)))) as Hd.
    { intros d Hlt. unfold pretty_N_char, digit. repeat case_match; vm_compute; split; discriminate. }
    apply Hd. apply N.mod_lt. lia.
Qed.

Lemma number_digits z : 0 <= z → Forall digit (number_string z).
Proof.
  intros Hz. unfold number_string, pretty, pretty_Z. destruct z as [|z|z]; [repeat constructor; vm_compute; discriminate| |lia].
  unfold pretty, pretty_positive, pretty, pretty_N. case_decide; [done|]. apply pretty_go_digits. constructor.
Qed.

Lemma number_string_inj a b : number_string a = number_string b → a = b.
Proof. unfold number_string. intros E%js_injective. by apply (inj pretty) in E. Qed.

Definition COLON_UNIT : Z := 58.
Definition COMMA_UNIT : Z := 44.
(** A name without the separator of the printed entries. *)
Definition plain_name (n : jsstr) : Prop := COMMA_UNIT ∉ n.
#[export] Instance plain_name_dec n : Decision (plain_name n).
Proof. unfold plain_name. apply _. Defined.

Lemma entry_string_eq y : entry_string y = y.1 ++ COLON_UNIT :: number_string y.2.
Proof. done. Qed.

Lemma join_cons sep x y l : join sep (x :: y :: l) = x ++ sep ++ join sep (y :: l).
Proof. done. Qed.

(** Words without the separator are read back off their join. *)
Lemma join_unit_inj (u : Z) (l l' : list jsstr) : (∀ x : jsstr, x ∈ l → u ∉ x) → (∀ x : jsstr, x ∈ l' → u ∉ x) → l ≠ [] → l' ≠ [] →
  join [u] l = join [u] l' → l = l'.
Proof.
  assert (∀ x y l, join [u] (x :: y :: l) = x ++ u :: join [u] (y :: l)) as Hc by done.
  revert l'. induction l as [|x l IH]; [by intros ??? []|]. intros [|x' l'] Hl Hl' _ ?; [done|].
  pose proof (Hl x ltac:(left)) as Hx. pose proof (Hl' x' ltac:(left)) as Hx'.
  destruct l as [|y l], l' as [|y' l'].
  - cbn [join]. by intros ->.
  - rewrite Hc. cbn [join]. intros E. destruct Hx. rewrite E. apply elem_of_app. right. left.
  - rewrite Hc. cbn [join]. intros E. destruct Hx'. rewrite <- E. apply elem_of_app. right. left.
  - rewrite !Hc. intros E. apply split_first in E as [-> E]; [|done|done]. f_equal. apply IH; try done; intros; [apply Hl|apply Hl']; by right.
Qed.

Lemma not_digit c z : 0 <= z → ¬ digit c → c ∉ number_string z.
Proof. intros Hz%number_digits Hc Hin. rewrite Forall_forall in Hz. by apply Hc, Hz. Qed.

Lemma entry_no_comma y : plain_name y.1 → 0 <= y.2 → COMMA_UNIT ∉ entry_string y.
Proof.
  intros Hn Hz. rewrite entry_string_eq, not_elem_of_app, not_elem_of_cons. split_and!; [done|done|]. apply not_digit; [done|]. unfold digit, COMMA_UNIT. lia.
Qed.

Lemma entry_string_inj y y' : 0 <= y.2 → 0 <= y'.2 → entry_string y = entry_string y' → y = y'.
Proof.
  destruct y as [n z], y' as [n' z']. intros Hz Hz'. rewrite !entry_string_eq. cbn [fst snd] in *. intros E.
  apply last_split in E as [-> E%number_string_inj]; [by subst| |]; apply not_digit; try done; unfold digit, COLON_UNIT; lia.
Qed.

Lemma join_entries_inj (l l' : list (jsstr * Z)) :
  (∀ y, y ∈ l → plain_name y.1 ∧ 0 <= y.2) → (∀ y, y ∈ l' → plain_name y.1 ∧ 0 <= y.2) → l ≠ [] → l' ≠ [] →
  join (js ", ") (entry_string <$> l) = join (js ", ") (entry_string <$> l') → l = l'.
Proof.
  assert (∀ x y (l : list jsstr), join (js ", ") (x :: y :: l) = x ++ COMMA_UNIT :: 32 :: join (js ", ") (y :: l)) as Hj by reflexivity.
  revert l'. induction l as [|y l IH]; intros [|y' l'] Hl Hl' Hne Hne' E; try done. clear Hne Hne'.
  destruct (Hl y) as [Hn Hz]; [left|]. destruct (Hl' y') as [Hn' Hz']; [left|].
  pose proof (entry_no_comma y Hn Hz) as Hc. pose proof (entry_no_comma y' Hn' Hz') as Hc'.
  destruct l as [|x l], l' as [|x' l']; rewrite !fmap_cons in E.
  - cbn [join fmap list_fmap] in E. by apply entry_string_inj in E as ->.
  - rewrite Hj in E. cbn [join fmap list_fmap] in E. destruct Hc. rewrite E. apply elem_of_app. right. left.
  - rewrite Hj in E. cbn [join fmap list_fmap] in E. destruct Hc'. rewrite <- E. apply elem_of_app. right. left.
  - rewrite !Hj in E. apply split_first in E as [E1 E2]; [|done|done]. apply entry_string_inj in E1 as ->; [|done|done]. f_equal.
    injection E2 as E2. apply IH; try done; intros; [apply Hl|apply Hl']; by right.
Qed.

Lemma join_nonempty (l : list (jsstr * Z)) : l ≠ [] → join (js ", ") (entry_string <$> l) ≠ [].
Proof.
  intros Hl E. destruct l as [|y l]; [done|]. rewrite fmap_cons in E.
  destruct (entry_string <$> l); cbn [join] in E; rewrite entry_string_eq in E; by destruct y.1.
Qed.

Lemma braces_full (l : list (jsstr * Z)) : l ≠ [] → js "{" ++ join (js ", ") (entry_string <$> l) ++ js "}" = js "{}" → False.
Proof.
  intros Hl%join_nonempty. generalize dependent (join (js ", ") (entry_string <$> l)). intros t Ht E.
  change (js "{}") with (js "{" ++ [] ++ js "}") in E. apply app_inv_head, app_inv_tail in E. done.
Qed.

Lemma toString_counts m m' : ms_wf m → ms_wf m' →
  (∀ n, n ∈ (tokenCounts m).*1 → plain_name n) → (∀ n, n ∈ (tokenCounts m').*1 → plain_name n) →
  ms_toString m = ms_toString m' → ∀ n, count_of m n = count_of m' n.
Proof.
  intros Hw Hw' Hp Hp' E.
  assert (∀ m, ms_wf m → (∀ n, n ∈ (tokenCounts m).*1 → plain_name n) →
    ∀ y, y ∈ stable_sort (λ a b : jsstr * Z, compareCodePoints a.1 b.1 <=? 0) (tokenCounts m) → plain_name y.1 ∧ 0 <= y.2) as Hs.
  { clear. intros m Hw Hp [n z] Hy. rewrite stable_sort_Permutation in Hy. split; [apply Hp; by apply (list_elem_of_fmap_2 fst _ (n, z))|].
    apply (wf_counts m Hw) in Hy. simpl. lia. }
  assert (∀ l : list (jsstr * Z), stable_sort (λ a b : jsstr * Z, compareCodePoints a.1 b.1 <=? 0) l = [] ↔ l = []) as Hnil.
  { intros l. split; [|by intros ->]. intros E1. symmetry. apply Permutation_nil_l. rewrite <- E1. apply stable_sort_Permutation. }
  assert (stable_sort (λ a b : jsstr * Z, compareCodePoints a.1 b.1 <=? 0) (tokenCounts m) =
          stable_sort (λ a b : jsstr * Z, compareCodePoints a.1 b.1 <=? 0) (tokenCounts m')) as Es.
  { unfold ms_toString in E. repeat case_bool_decide.
    - destruct (tokenCounts m), (tokenCounts m'); done.
    - symmetry in E. by apply braces_full in E; [|rewrite Hnil; destruct (tokenCounts m')].
    - by apply braces_full in E; [|rewrite Hnil; destruct (tokenCounts m)].
    - apply join_entries_inj; [by apply Hs|by apply Hs|rewrite Hnil; by destruct (tokenCounts m)|rewrite Hnil; by destruct (tokenCounts m')|].
      apply app_inv_head, app_inv_tail in E. exact E. }
  intros n. unfold count_of.
  assert (tokenCounts m ≡ₚ tokenCounts m') as HP.
  { rewrite <- (stable_sort_Permutation (λ a b : jsstr * Z, compareCodePoints a.1 b.1 <=? 0) (tokenCounts m)), Es. apply stable_sort_Permutation. }
  f_equal. destruct (map_get n (tokenCounts m)) as [z|] eqn:E1.
  - apply map_get_elem in E1. rewrite HP in E1. symmetry. by apply elem_map_get; [apply wf_keys|].
  - symmetry. apply map_get_None. apply map_get_None in E1. by rewrite <- HP.
Qed.

(** Names that hold the separator break this: two markings with different counts print alike. *)
Definition comma_name : jsstr := js "a:1, b".
Definition one_comma : marking_state := MarkingState [(comma_name, 1)] [(comma_name, Place 0 comma_name)].
Definition two_plain : marking_state := MarkingState [(js "a", 1); (js "b", 1)] [(js "a", Place 1 (js "a")); (js "b", Place 2 (js "b"))].

Lemma toString_collides : ms_toString one_comma = ms_toString two_plain ∧ count_of one_comma (js "a") ≠ count_of two_plain (js "a").
Proof. split; vm_compute; [reflexivity|discriminate]. Qed.
