(* ===== verification/Dbm.v ===== *)
(** * Difference-bound matrices

    [src/typescript/src/verification/analysis/dbm.ts]: the firing domains of the state classes, the
    upper bounds on the differences of the times to fire. A number of seconds is the integer count
    of units of [10^-9 / scale] seconds, for a resolution [scale] of the reader's choice: the
    tolerance [EPSILON] is [scale] units, and the theorems hold at every resolution. Rounding of
    binary fractions is not modelled. *)
From S2P Require Import Prelude.
From S2P Require Import MarkingState.
#[local] Open Scope Z_scope.

Record dbm := DBM { bounds : list jnum; dim : nat; clockNames : list jsstr; dbm_empty : bool }.

Inductive dbm_error := InvalidFiredClock (index : Z).

Section Dbm.
Variable scale : Z.

Definition EPSILON : Z := scale.
(** One millisecond, [1 / 1000] of a second. *)
Definition millisecond : Z := 1000000 * scale.
Definition second : Z := 1000 * millisecond.

(** ** The matrix *)

Definition cell (d i j : nat) (m : list jnum) : jnum := default (Fin 0) (m !! (i * d + j)%nat).
Definition set_cell (d i j : nat) (v : jnum) (m : list jnum) : list jnum := <[(i * d + j)%nat := v]> m.

Definition makeMatrix (d : nat) (fill : jnum) : list jnum :=
  foldl (λ m i, set_cell d i i (Fin 0) m) (replicate (d * d) fill) (seq 0 d).

(** The innermost body of the three loops. *)
Definition relax (d k i : nat) (m : list jnum) (j : nat) : list jnum :=
  match cell d i k m, cell d k j m with
  | Fin ik, Fin kj => if jnum_ltb (Fin (ik + kj)) (cell d i j m) then set_cell d i j (Fin (ik + kj)) m else m
  | _, _ => m
  end.
Definition relax_all (d : nat) (m : list jnum) : list jnum :=
  foldl (λ m k, foldl (λ m i, foldl (relax d k i) m (seq 0 d)) m (seq 0 d)) m (seq 0 d).

(** The matrix it leaves and its answer. *)
Definition canonicalizeInPlace (m : list jnum) (d : nat) : list jnum * bool :=
  let m := relax_all d m in
  (m, forallb (λ i, negb (jnum_ltb (cell d i i m) (Fin (- EPSILON)))) (seq 0 d)).

(** ** Zones *)

Definition empty_zone (names : list jsstr) : dbm := DBM [Fin 0] 1 names true.

Definition canonicalize (z : dbm) : dbm :=
  if dbm_empty z then z
  else match canonicalizeInPlace (bounds z) (dim z) with
       | (m, true) => DBM m (dim z) (clockNames z) false
       | (_, false) => empty_zone (clockNames z)
       end.

(** The interval of clock [i]. *)
Definition set_interval (d i : nat) (lower : Z) (upper : jnum) (m : list jnum) : list jnum :=
  set_cell d (S i) 0 upper (set_cell d 0 (S i) (Fin (- lower)) m).

Definition create (names : list jsstr) (lowerBounds : list Z) (upperBounds : list jnum) : dbm :=
  let n := length names in
  let d := S n in
  let m := foldl (λ m i, set_interval d i (default 0 (lowerBounds !! i)) (default (Fin 0) (upperBounds !! i)) m)
                 (makeMatrix d Infinity) (seq 0 n) in
  canonicalize (DBM m d names false).

Definition isEmpty (z : dbm) : bool := dbm_empty z.
Definition clockCount (z : dbm) : nat := length (clockNames z).

(** A lower bound, which a zone without one reports as [-Infinity]. *)
Inductive lower_bound := NegInfinity | Lower (z : Z).

Definition out_of_range (z : dbm) (clockIndex : Z) : bool :=
  dbm_empty z || (clockIndex <? 0) || (Z.of_nat (length (clockNames z)) <=? clockIndex).

Definition getLowerBound (z : dbm) (clockIndex : Z) : lower_bound :=
  if out_of_range z clockIndex then Lower 0
  else match cell (dim z) 0 (S (Z.to_nat clockIndex)) (bounds z) with Fin b => Lower (- b) | Infinity => NegInfinity end.
Definition getUpperBound (z : dbm) (clockIndex : Z) : jnum :=
  if out_of_range z clockIndex then Infinity else cell (dim z) (S (Z.to_nat clockIndex)) 0 (bounds z).

Definition dbm_canFire (z : dbm) (clockIndex : Z) : bool :=
  negb (dbm_empty z) && match getLowerBound z clockIndex with Lower l => l <=? EPSILON | NegInfinity => true end.

(** ** The successor *)

(** [Math.max(0, -b)] *)
Definition max0neg (b : jnum) : Z := match b with Fin b => 0 `max` (- b) | Infinity => 0 end.

(** Step 1: the fired clock is first. *)
Definition fires_first (d f n : nat) (firedClock : nat) (m : list jnum) : list jnum :=
  foldl (λ m i, if (i =? firedClock)%nat then m else set_cell d f (S i) (jnum_min (cell d f (S i) m) (Fin 0)) m) m (seq 0 n).

(** Steps 3 and 4 for the [pi]-th persistent clock. *)
Definition copy_persistent (d f newDim : nat) (constrained : list jnum) (persistentClocks : list nat) (m : list jnum)
    (pi : nat) : list jnum :=
  let oldIdx := S (default 0%nat (persistentClocks !! pi)) in
  let newIdx := S pi in
  let upper := cell d oldIdx f constrained in
  let lower := max0neg (cell d f oldIdx constrained) in
  let m := set_cell newDim newIdx 0 upper (set_cell newDim 0 newIdx (Fin (- lower)) m) in
  foldl (λ m pj, set_cell newDim newIdx (S pj) (cell d oldIdx (S (default 0%nat (persistentClocks !! pj))) constrained) m)
    m (seq 0 (length persistentClocks)).

Definition dbm_fireTransition (z : dbm) (firedClock : Z) (newClockNames : list jsstr) (newLowerBounds : list Z)
    (newUpperBounds : list jnum) (persistentClocks : list nat) : result dbm_error dbm :=
  if dbm_empty z then Ok z
  else
    let n := length (clockNames z) in
    if (firedClock <? 0) || (Z.of_nat n <=? firedClock) then Err (InvalidFiredClock firedClock)
    else
      let d := dim z in
      let fired := Z.to_nat firedClock in
      let f := S fired in
      match canonicalizeInPlace (fires_first d f n fired (bounds z)) d with
      | (_, false) => Ok (empty_zone [])
      | (constrained, true) =>
          let np := length persistentClocks in
          let newDim := S (np + length newClockNames) in
          let m := makeMatrix newDim Infinity in
          let m := foldl (copy_persistent d f newDim constrained persistentClocks) m (seq 0 np) in
          let m := foldl (λ m k, set_interval newDim (np + k) (default 0 (newLowerBounds !! k)) (default (Fin 0) (newUpperBounds !! k)) m)
                         m (seq 0 (length newClockNames)) in
          let allNames := ((λ idx, default [] (clockNames z !! idx)) <$> persistentClocks) ++ newClockNames in
          Ok (canonicalize (DBM m newDim allNames false))
      end.

(** [order] holds the old index of each new clock. *)
Definition permuted (order : list nat) (z : dbm) : dbm :=
  if dbm_empty z then z
  else
    let n := length (clockNames z) in
    let d := dim z in
    let src i := match i with O => O | S i => S (default 0%nat (order !! i)) end in
    DBM ((λ x, if (x =? 0)%nat then Fin 0 else cell d (src (x / d)%nat) (src (x mod d)%nat) (bounds z)) <$> seq 0 (d * d)) d
        ((λ i, default [] (clockNames z !! default 0%nat (order !! i))) <$> seq 0 n) false.

Definition letTimePass (z : dbm) : dbm :=
  if dbm_empty z then z
  else canonicalize (DBM (foldl (λ m i, set_cell (dim z) 0 i (Fin 0) m) (bounds z) (seq 1 (dim z - 1))) (dim z) (clockNames z) false).

(** [Math.abs(a - b) > EPSILON] fails; two infinite bounds differ by [NaN], which is not greater. *)
Definition close_bounds (a b : jnum) : bool :=
  match a, b with
  | Fin a, Fin b => Z.abs (a - b) <=? EPSILON
  | Infinity, Infinity => true
  | _, _ => false
  end.

Definition dbm_equals (z z' : dbm) : bool :=
  if dbm_empty z && dbm_empty z' then true
  else if dbm_empty z || dbm_empty z' then false
  else bool_decide (clockNames z = clockNames z') && (length (bounds z) =? length (bounds z'))%nat
       && forallb (λ y, close_bounds y.1 y.2) (zip (bounds z) (bounds z')).

(** ** Printing *)

(** [b.toFixed(3)] *)
Definition toFixed3 (b : Z) : jsstr :=
  let n := (2 * Z.abs b + millisecond) / (2 * millisecond) in
  let digits := number_string n in
  let digits := replicate (4 - length digits) 48 ++ digits in
  (if b <? 0 then js "-" else []) ++ firstn (length digits - 3) digits ++ js "." ++ skipn (length digits - 3) digits.

Definition formatBound (b : jnum) : jsstr :=
  match b with
  | Infinity => [8734]
  | Fin b => if b mod second =? 0 then number_string (b / second) else toFixed3 b
  end.
Definition formatLower (b : lower_bound) : jsstr := match b with NegInfinity => js "-Infinity" | Lower l => formatBound (Fin l) end.

Definition zoneKey (z : dbm) : jsstr :=
  if dbm_empty z then js "DBM[empty]"
  else join (js "|") (join (js ",") (clockNames z) :: (formatBound <$> bounds z)).

Definition dbm_toString (z : dbm) : jsstr :=
  if dbm_empty z then js "DBM[empty]"
  else js "DBM{" ++ join (js ", ")
         ((λ i, default [] (clockNames z !! i) ++ js ":[" ++ formatLower (getLowerBound z (Z.of_nat i)) ++ js ","
                ++ formatBound (getUpperBound z (Z.of_nat i)) ++ js "]") <$> seq 0 (length (clockNames z))) ++ js "}".
End Dbm.

(** ** Bounds *)

Definition jle (a b : jnum) : Prop := match a, b with _, Infinity => True | Fin x, Fin y => x <= y | Infinity, Fin _ => False end.
Definition jadd (a b : jnum) : jnum := match a, b with Fin x, Fin y => Fin (x + y) | _, _ => Infinity end.

Lemma jle_refl a : jle a a.
Proof. destruct a; simpl; [lia|done]. Qed.
Lemma jle_trans a b c : jle a b → jle b c → jle a c.
Proof. destruct a, b, c; simpl; try done. lia. Qed.
Lemma jmin_le a b : jle (jnum_min a b) a ∧ jle (jnum_min a b) b.
Proof. destruct a as [x|], b as [y|]; rewrite ?jnum_min_Fin, ?jnum_min_Inf_l, ?jnum_min_Inf_r; simpl; lia. Qed.
Lemma jmin_cases a b : jnum_min a b = a ∧ jle a b ∨ jnum_min a b = b ∧ jle b a.
Proof.
  destruct a as [x|], b as [y|]; rewrite ?jnum_min_Fin, ?jnum_min_Inf_l, ?jnum_min_Inf_r; simpl; auto.
  destruct (Z.min_spec x y) as [[? ->]|[? ->]]; [left|right]; (split; [done|lia]).
Qed.
Lemma jadd_mono a b c d : jle a b → jle c d → jle (jadd a c) (jadd b d).
Proof. destruct a, b, c, d; simpl; try done. lia. Qed.
Lemma jadd_assoc a b c : jadd a (jadd b c) = jadd (jadd a b) c.
Proof. destruct a, b, c; simpl; try done. f_equal. lia. Qed.
Lemma jadd_comm a b : jadd a b = jadd b a.
Proof. destruct a, b; simpl; try done. f_equal. lia. Qed.
Lemma jmin_absorb a b : jle (Fin 0) b → jnum_min a (jadd a b) = a.
Proof. destruct a as [x|], b as [y|]; simpl; intros; rewrite ?jnum_min_Fin, ?jnum_min_Inf_l, ?jnum_min_Inf_r; try done. f_equal. lia. Qed.

(** ** Cells *)

Section Cells.
Variable d : nat.
Implicit Types (m : list jnum).

Definition square m : Prop := length m = (d * d)%nat.

Lemma cell_index i j i' j' : (j < d)%nat → (j' < d)%nat → (i * d + j = i' * d + j')%nat ↔ i = i' ∧ j = j'.
Proof.
  intros Hj Hj'. split; [|by intros [-> ->]]. intros E.
  destruct (Nat.lt_trichotomy i i') as [H|[->|H]]; [exfalso| split; [done|lia]|exfalso].
  - assert (i' = i + S (i' - i - 1))%nat as Ei by lia. rewrite Ei in E. nia.
  - assert (i = i' + S (i - i' - 1))%nat as Ei by lia. rewrite Ei in E. nia.
Qed.

Lemma cell_bound i j : (i < d)%nat → (j < d)%nat → (i * d + j < d * d)%nat.
Proof. intros. nia. Qed.

Lemma square_set i j v m : square m → square (set_cell d i j v m).
Proof. unfold square, set_cell. by rewrite length_insert. Qed.

Lemma cell_set i j v m i' j' : square m → (i < d)%nat → (j < d)%nat → (j' < d)%nat →
  cell d i' j' (set_cell d i j v m) = if decide (i' = i ∧ j' = j) then v else cell d i' j' m.
Proof.
  intros Hm Hi Hj Hj'. unfold cell, set_cell. case_decide as E.
  - destruct E as [-> ->]. rewrite list_lookup_insert_eq; [done|]. rewrite Hm. by apply cell_bound.
  - rewrite list_lookup_insert_ne; [done|]. intros E'. apply E. symmetry in E'. by apply cell_index in E'.
Qed.

(** [v] satisfies the difference constraints. *)
Definition holds m (v : nat → Z) : Prop :=
  ∀ i j, (i < d)%nat → (j < d)%nat → jle (Fin (v i - v j)) (cell d i j m).

Definition below m m' : Prop := ∀ i j, (i < d)%nat → (j < d)%nat → jle (cell d i j m) (cell d i j m').

Lemma below_trans m1 m2 m3 : below m1 m2 → below m2 m3 → below m1 m3.
Proof. intros H1 H2 i j Hi Hj. eapply jle_trans; eauto. Qed.

Lemma holds_below m m' v : below m m' → holds m v → holds m' v.
Proof. intros Hb H i j Hi Hj. eapply jle_trans; [by apply H|by apply Hb]. Qed.

(** ** The closure *)

Lemma relax_eq k i j m : relax d k i m j =
  if jnum_ltb (jadd (cell d i k m) (cell d k j m)) (cell d i j m) then set_cell d i j (jadd (cell d i k m) (cell d k j m)) m else m.
Proof. unfold relax. by destruct (cell d i k m), (cell d k j m), (cell d i j m). Qed.

Lemma relax_square k i j m : square m → square (relax d k i m j).
Proof. intros. rewrite relax_eq. case_bool; [by apply square_set|done]. Qed.

Lemma relax_cell k i j m i' j' : square m → (i < d)%nat → (j < d)%nat → (j' < d)%nat →
  cell d i' j' (relax d k i m j) =
  if decide (i' = i ∧ j' = j) then jnum_min (cell d i j m) (jadd (cell d i k m) (cell d k j m)) else cell d i' j' m.
Proof.
  intros Hm Hi Hj Hj'. rewrite relax_eq, jnum_min_comm. unfold jnum_min. case_bool.
  - by rewrite cell_set.
  - case_decide as E; [|done]. by destruct E as [-> ->].
Qed.

Lemma relax_below k i j m : square m → (i < d)%nat → (j < d)%nat → below (relax d k i m j) m.
Proof.
  intros Hm Hi Hj i' j' Hi' Hj'. rewrite relax_cell by done. case_decide as E; [|apply jle_refl].
  destruct E as [-> ->]. apply jmin_le.
Qed.

Lemma relax_holds k i j m v : square m → (k < d)%nat → (i < d)%nat → (j < d)%nat → holds m v → holds (relax d k i m j) v.
Proof.
  intros Hm Hk Hi Hj H i' j' Hi' Hj'. rewrite relax_cell by done. case_decide as E; [|by apply H]. destruct E as [-> ->].
  destruct (jmin_cases (cell d i j m) (jadd (cell d i k m) (cell d k j m))) as [[-> _]|[-> _]]; [by apply H|].
  pose proof (H i k Hi Hk). pose proof (H k j Hk Hj). destruct (cell d i k m), (cell d k j m); simpl in *; lia || done.
Qed.

(** What the relaxations preserve, for every matrix the loops go through. *)
Lemma relax_all_inv (P : list jnum → Prop) m :
  (∀ k i j m, (k < d)%nat → (i < d)%nat → (j < d)%nat → square m → P m → P (relax d k i m j)) →
  square m → P m → square (relax_all d m) ∧ P (relax_all d m).
Proof.
  intros Hstep Hm HP. unfold relax_all.
  apply (foldl_inv (λ m, square m ∧ P m)); [|done]. intros m1 k [_ Hk]%elem_of_seq [H1 H2].
  apply (foldl_inv (λ m, square m ∧ P m)); [|done]. intros m2 i [_ Hi]%elem_of_seq [H3 H4].
  apply (foldl_inv (λ m, square m ∧ P m)); [|done]. intros m3 j [_ Hj]%elem_of_seq [H5 H6].
  split; [by apply relax_square|by apply Hstep].
Qed.

Lemma relax_all_square m : square m → square (relax_all d m).
Proof. intros H. by apply (relax_all_inv (λ _, True)). Qed.

Lemma relax_all_below m : square m → below (relax_all d m) m.
Proof.
  intros H. apply (relax_all_inv (λ m', below m' m)); [|done|intros ????; apply jle_refl].
  intros k i j m' Hk Hi Hj Hm' Hb. eapply below_trans; [by apply relax_below|done].
Qed.

Lemma relax_all_holds m v : square m → holds (relax_all d m) v ↔ holds m v.
Proof.
  intros H. split; [apply holds_below, relax_all_below, H|]. intros Hv. apply (relax_all_inv (λ m', holds m' v)); [|done|done].
  intros k i j m' Hk Hi Hj Hm' Hh. by apply relax_holds.
Qed.

(** Node [k] is on no negative cycle yet. *)
Definition good k m : Prop := jle (Fin 0) (cell d k k m).

Definition via k m i j : jnum := jnum_min (cell d i j m) (jadd (cell d i k m) (cell d k j m)).

Lemma via_column k m i : good k m → via k m i k = cell d i k m.
Proof. intros H. by apply jmin_absorb. Qed.
Lemma via_row k m j : good k m → via k m k j = cell d k j m.
Proof. intros H. unfold via. rewrite jadd_comm. by apply jmin_absorb. Qed.
Lemma jmin_again a b : jnum_min (jnum_min a b) b = jnum_min a b.
Proof. rewrite <- jnum_min_assoc. f_equal. unfold jnum_min. by rewrite jnum_ltb_irrefl. Qed.

Lemma row_loop k i m js : square m → (k < d)%nat → (i < d)%nat → (∀ j, j ∈ js → (j < d)%nat) → good k m →
  let m' := foldl (relax d k i) m js in
  square m' ∧ ∀ i' j', (j' < d)%nat → cell d i' j' m' = if decide (i' = i ∧ j' ∈ js) then via k m i j' else cell d i' j' m.
Proof.
  intros Hm Hk Hi Hjs Hg. cbn zeta. induction js as [|j js IH] using rev_ind.
  { split; [done|]. intros i' j' _. rewrite decide_False; [done|]. by intros [_ ?%not_elem_of_nil]. }
  rewrite foldl_app. cbn [foldl]. destruct IH as [I1 I2]; [intros; apply Hjs, elem_of_app; by left|].
  assert (j < d)%nat as Hj by (apply Hjs, elem_of_app; right; left). set (m1 := foldl (relax d k i) m js) in *.
  split; [by apply relax_square|]. intros i' j' Hj'. rewrite relax_cell by done.
  assert (∀ x, x ∈ js ++ [j] ↔ x ∈ js ∨ x = j) as Hin by (intros; by rewrite elem_of_app, list_elem_of_singleton).
  assert (cell d i k m1 = cell d i k m) as E1 by (rewrite I2 by done; case_decide; [by apply via_column|done]).
  assert (jadd (cell d i k m) (cell d k j m1) = jadd (cell d i k m) (cell d k j m)) as E2.
  { rewrite I2 by done. case_decide as E; [|done]. destruct E as [<- _]. by rewrite via_row. }
  case_decide as E.
  - destruct E as [-> ->]. rewrite (decide_True (P := i = i ∧ j ∈ js ++ [j])) by (rewrite Hin; tauto). rewrite E1, E2, I2 by done.
    case_decide; [|done]. unfold via. apply jmin_again.
  - rewrite I2 by done. destruct (decide (i' = i ∧ j' ∈ js ++ [j])) as [F|F], (decide (i' = i ∧ j' ∈ js)) as [G|G]; try done; rewrite Hin in F; tauto.
Qed.

Lemma stage_loop k m rows : square m → (k < d)%nat → (∀ i, i ∈ rows → (i < d)%nat) → good k m →
  let m' := foldl (λ m i, foldl (relax d k i) m (seq 0 d)) m rows in
  square m' ∧ ∀ i' j', (j' < d)%nat → cell d i' j' m' = if decide (i' ∈ rows) then via k m i' j' else cell d i' j' m.
Proof.
  intros Hm Hk His Hg. cbn zeta. induction rows as [|i rows IH] using rev_ind.
  { split; [done|]. intros i' j' _. rewrite decide_False; [done|]. by intros ?%not_elem_of_nil. }
  rewrite foldl_app. cbn [foldl]. destruct IH as [I1 I2]; [intros; apply His, elem_of_app; by left|].
  assert (i < d)%nat as Hi by (apply His, elem_of_app; right; left). set (m1 := foldl _ m rows) in *.
  assert (∀ j, (j < d)%nat → cell d k j m1 = cell d k j m) as E1 by (intros j Hj; rewrite I2 by done; case_decide; [by apply via_row|done]).
  assert (good k m1) as Hg1 by (unfold good; by rewrite E1).
  destruct (row_loop k i m1 (seq 0 d) I1 Hk Hi) as [R1 R2]; [by intros j [_ ?]%elem_of_seq|done|].
  split; [done|]. intros i' j' Hj'. rewrite R2 by done.
  assert (∀ x, x ∈ rows ++ [i] ↔ x ∈ rows ∨ x = i) as Hins by (intros; by rewrite elem_of_app, list_elem_of_singleton).
  assert (j' ∈ seq 0 d) as Hin by (apply elem_of_seq; lia).
  destruct (decide (i' = i)) as [->|Hne].
  - rewrite (decide_True (P := i = i ∧ _)) by done. rewrite (decide_True (P := i ∈ rows ++ [i])) by (rewrite Hins; tauto). unfold via.
    rewrite E1 by done. rewrite !I2 by done. case_decide as E; [|done]. rewrite via_column by done. unfold via. apply jmin_again.
  - rewrite (decide_False (P := i' = i ∧ _)) by tauto. rewrite I2 by done.
    destruct (decide (i' ∈ rows ++ [i])) as [F|F], (decide (i' ∈ rows)) as [G|G]; try done; rewrite Hins in F; tauto.
Qed.

Lemma stage_spec k m : square m → (k < d)%nat → good k m →
  let m' := foldl (λ m i, foldl (relax d k i) m (seq 0 d)) m (seq 0 d) in
  square m' ∧ ∀ i j, (i < d)%nat → (j < d)%nat → cell d i j m' = via k m i j.
Proof.
  intros Hm Hk Hg. cbn zeta. destruct (stage_loop k m (seq 0 d) Hm Hk) as [S1 S2]; [by intros j [_ ?]%elem_of_seq|done|].
  split; [done|]. intros i j Hi Hj. rewrite S2 by done. by rewrite decide_True by (apply elem_of_seq; lia).
Qed.

(** The triangle inequality through the nodes below [K]. *)
Definition closed_upto (K : nat) m : Prop :=
  ∀ n i j, (n < K)%nat → (n < d)%nat → (i < d)%nat → (j < d)%nat → jle (cell d i j m) (jadd (cell d i n m) (cell d n j m)).

Lemma via_below k m i j : jle (via k m i j) (cell d i j m) ∧ jle (via k m i j) (jadd (cell d i k m) (cell d k j m)).
Proof. apply jmin_le. Qed.

Lemma closed_step k m m' : (k < d)%nat → good k m → closed_upto k m →
  (∀ i j, (i < d)%nat → (j < d)%nat → cell d i j m' = via k m i j) → closed_upto (S k) m'.
Proof.
  intros Hk Hg Hcl Hm' n i j Hn Hnd Hi Hj. rewrite !Hm' by done. unfold good in Hg.
  destruct (via_below k m i j) as [V1 V2]. destruct (decide (n = k)) as [->|Hne].
  { by rewrite via_column, via_row by done. }
  assert (n < k)%nat as Hnk by lia.
  destruct (jmin_cases (cell d i n m) (jadd (cell d i k m) (cell d k n m))) as [[E1 _]|[E1 _]];
    destruct (jmin_cases (cell d n j m) (jadd (cell d n k m) (cell d k j m))) as [[E2 _]|[E2 _]];
    unfold via at 2 3; rewrite E1, E2.
  - eapply jle_trans; [exact V1|]. by apply Hcl.
  - eapply jle_trans; [exact V2|]. rewrite jadd_assoc. apply jadd_mono; [by apply Hcl|apply jle_refl].
  - eapply jle_trans; [exact V2|]. rewrite <- jadd_assoc. apply jadd_mono; [apply jle_refl|by apply Hcl].
  - eapply jle_trans; [exact V2|]. rewrite <- jadd_assoc. apply jadd_mono; [apply jle_refl|].
    pose proof (Hcl n k k Hnk Hnd Hk Hk) as H. rewrite jadd_assoc.
    assert (jle (Fin 0) (jadd (cell d k n m) (cell d n k m))) as H0 by (by eapply jle_trans).
    destruct (cell d k n m), (cell d n k m), (cell d k j m); simpl in *; try done; lia.
Qed.

Definition stage m k : list jnum := foldl (λ m i, foldl (relax d k i) m (seq 0 d)) m (seq 0 d).

Lemma stages_below ks m : square m → (∀ k, k ∈ ks → (k < d)%nat) → square (foldl stage m ks) ∧ below (foldl stage m ks) m.
Proof.
  intros Hm. revert m Hm. induction ks as [|k ks IH]; intros m Hm Hks; cbn [foldl]; [split; [done|intros ????; apply jle_refl]|].
  assert (square (stage m k) ∧ below (stage m k) m) as [S1 S2].
  { unfold stage. apply (foldl_inv (λ m', square m' ∧ below m' m)); [|split; [done|intros ????; apply jle_refl]].
    intros m1 i [_ Hi]%elem_of_seq [H1 H2]. apply (foldl_inv (λ m', square m' ∧ below m' m)); [|done].
    intros m2 j [_ Hj]%elem_of_seq [H3 H4]. split; [by apply relax_square|]. eapply below_trans; [by apply relax_below|done]. }
  destruct (IH (stage m k) S1) as [I1 I2]; [intros; apply Hks; by right|]. split; [done|]. by eapply below_trans.
Qed.

Lemma relax_all_closed m : square m → (∀ i, (i < d)%nat → jle (Fin 0) (cell d i i (relax_all d m))) → closed_upto d (relax_all d m).
Proof.
  intros Hm Hdiag. change (relax_all d m) with (foldl stage m (seq 0 d)) in *.
  assert (∀ K, (K ≤ d)%nat → closed_upto K (foldl stage m (seq 0 K))) as H; [|by apply H].
  induction K as [|K IH]; intros HK; [intros n i j Hn; lia|]. rewrite seq_S, foldl_app. cbn [foldl Nat.add].
  destruct (stages_below (seq 0 K) m Hm) as [P1 _]; [intros k [_ ?]%elem_of_seq; lia|].
  set (mK := foldl stage m (seq 0 K)) in *.
  assert (good K mK) as Hg.
  { unfold good. eapply jle_trans; [apply (Hdiag K); lia|].
    assert (seq 0 d = seq 0 K ++ seq K (d - K)) as -> by (rewrite <- seq_app; f_equal; lia). rewrite foldl_app. fold mK.
    apply (stages_below (seq K (d - K)) mK P1); [intros k [_ ?]%elem_of_seq; lia|lia|lia]. }
  destruct (stage_spec K mK P1) as [_ S2]; [lia|done|]. apply (closed_step K mK); [lia|done|apply IH; lia|].
  intros i j Hi Hj. by apply S2.
Qed.

(** A canonical matrix: the triangle inequality and a nonnegative diagonal. *)
Definition closed m : Prop := square m ∧ closed_upto d m ∧ ∀ i, (i < d)%nat → jle (Fin 0) (cell d i i m).

(** Every bound is a whole number of milliseconds, or infinite. *)
Definition whole (scale : Z) m : Prop := ∀ i j b, (i < d)%nat → (j < d)%nat → cell d i j m = Fin b → (millisecond scale | b).

Lemma relax_all_whole scale m : square m → whole scale m → whole scale (relax_all d m).
Proof.
  intros Hm Hw. apply (relax_all_inv (whole scale)); [|done|done]. intros k i j m' Hk Hi Hj Hm' Hw' i' j' b Hi' Hj'.
  rewrite relax_cell by done. case_decide as E; [|by apply Hw']. destruct E as [-> ->].
  destruct (jmin_cases (cell d i j m') (jadd (cell d i k m') (cell d k j m'))) as [[-> _]|[-> _]]; [by apply Hw'|].
  destruct (cell d i k m') as [x|] eqn:E1, (cell d k j m') as [y|] eqn:E2; simpl; try done. intros [= <-].
  apply Z.divide_add_r; [by apply (Hw' i k)|by apply (Hw' k j)].
Qed.

Section Canonical.
Variable scale : Z.
Hypothesis Hscale : 0 < scale.

Lemma whole_sign b : (millisecond scale | b) → - EPSILON scale <= b → 0 <= b.
Proof.
  unfold millisecond, EPSILON. intros [q ->] H. destruct (Z_lt_le_dec q 0); [exfalso|apply Z.mul_nonneg_nonneg; lia].
  assert (q * (1000000 * scale) <= -1 * (1000000 * scale)) by (apply Z.mul_le_mono_nonneg_r; lia). lia.
Qed.

(** The closure keeps the solutions, and answers whether there are any. *)
Lemma canonicalizeInPlace_spec m : square m → whole scale m →
  let r := canonicalizeInPlace scale m d in
  square r.1 ∧ whole scale r.1 ∧ below r.1 m ∧ (∀ v, holds r.1 v ↔ holds m v) ∧
  if r.2 then closed r.1 else ∀ v, ¬ holds m v.
Proof.
  intros Hm Hw. cbn zeta. unfold canonicalizeInPlace. cbn [fst snd].
  pose proof (relax_all_square m Hm) as H1. pose proof (relax_all_whole scale m Hm Hw) as H2.
  pose proof (relax_all_below m Hm) as H3. pose proof (relax_all_holds m) as H4.
  set (m' := relax_all d m) in *. split_and!; [done|done|done|by intros v; apply H4|].
  destruct (forallb _ _) eqn:E.
  - assert (∀ i, (i < d)%nat → jle (Fin 0) (cell d i i m')) as Hdiag.
    { intros i Hi. rewrite forallb_forall in E. specialize (E i (proj2 (in_seq d 0 i) (conj (Nat.le_0_l i) Hi))). apply negb_true_iff in E.
      destruct (cell d i i m') as [b|] eqn:Eb; [|done]. simpl in *. b2p. by apply (whole_sign b); [apply (H2 i i)|]. }
    split_and!; [done|by apply relax_all_closed|done].
  - intros v Hv. apply H4 in Hv; [|done].
    assert (∃ i, (i < d)%nat ∧ jnum_ltb (cell d i i m') (Fin (- EPSILON scale)) = true) as (i & Hi & Eb).
    { clear -E. assert (∀ l, forallb (λ i, negb (jnum_ltb (cell d i i m') (Fin (- EPSILON scale)))) l = false →
        ∃ i, i ∈ l ∧ jnum_ltb (cell d i i m') (Fin (- EPSILON scale)) = true) as H.
      { induction l as [|i l IH]; [done|]. cbn [forallb]. intros [H|H]%andb_false_iff.
        - exists i. split; [left|]. by apply negb_false_iff.
        - destruct (IH H) as (i' & ? & ?). exists i'. split; [by right|done]. }
      destruct (H _ E) as (i & [_ ?]%elem_of_seq & ?). by exists i. }
    specialize (Hv i i Hi Hi). destruct (cell d i i m') as [b|]; [|done]. simpl in *. unfold EPSILON in *. b2p. lia.
Qed.
End Canonical.

(** ** Solutions of canonical matrices *)

(** A number between finitely many lower and upper bounds. *)
Lemma between (ls us : list Z) (top : Z) :
  (∀ l u, l ∈ ls → u ∈ us → l <= u) → (∀ l, l ∈ ls → l <= top) →
  ∃ x, x <= top ∧ (∀ l, l ∈ ls → l <= x) ∧ (∀ u, u ∈ us → x <= u).
Proof.
  intros H Ht. exists (foldr Z.min top us). split_and!.
  - clear. induction us; simpl; lia.
  - intros l Hl. assert (∀ u, u ∈ us → l <= u) as Hu by auto. specialize (Ht l Hl). clear H Hl.
    induction us as [|u us IH]; simpl; [done|]. pose proof (Hu u (list_elem_of_here _ _)). specialize (IH (λ v Hv, Hu v (list_elem_of_further _ _ _ Hv))). lia.
  - intros u Hu. clear -Hu. induction us as [|u' us IH]; [by apply not_elem_of_nil in Hu|]. simpl.
    apply elem_of_cons in Hu as [->|Hu]; [lia|]. specialize (IH Hu). lia.
Qed.

(** [v] satisfies the constraints among the nodes [S]. *)
Definition holds_on (S : nat → Prop) m (v : nat → Z) : Prop :=
  ∀ i j, S i → S j → (i < d)%nat → (j < d)%nat → jle (Fin (v i - v j)) (cell d i j m).

Definition jsub (z : Z) (b : jnum) : option Z := match b with Fin b => Some (z - b) | Infinity => None end.
Definition jplus (z : Z) (b : jnum) : option Z := match b with Fin b => Some (z + b) | Infinity => None end.

(** A partial solution of a canonical matrix extends to one more node. *)
Lemma extend_one m (S : list nat) v n : closed m → (∀ i, i ∈ S → (i < d)%nat) → (n < d)%nat → holds_on (.∈ S) m v →
  ∃ x, holds_on (λ i, i ∈ S ∨ i = n) m (λ i, if decide (i = n) then (if decide (n ∈ S) then v n else x) else v i).
Proof.
  intros (_ & Hcl & Hdiag) HS Hn Hv.
  destruct (decide (n ∈ S)) as [Hin|Hout].
  { exists 0. intros i j Hi Hj Hid Hjd. assert (i ∈ S) by naive_solver. assert (j ∈ S) by naive_solver. repeat case_decide; subst; by apply Hv. }
  set (ls := omap (λ i, jsub (v i) (cell d i n m)) S). set (us := omap (λ j, jplus (v j) (cell d n j m)) S).
  assert (∀ l u, l ∈ ls → u ∈ us → l <= u) as Hlu.
  { intros l u (i & Hi & El)%list_elem_of_omap (j & Hj & Eu)%list_elem_of_omap.
    pose proof (Hcl n i j Hn Hn (HS i Hi) (HS j Hj)) as Ht. pose proof (Hv i j Hi Hj (HS i Hi) (HS j Hj)) as Hij.
    destruct (cell d i n m) as [a|], (cell d n j m) as [b|], (cell d i j m) as [c|]; simpl in *; simplify_eq; try done; lia. }
  destruct (between ls us (foldr Z.max 0 ls) Hlu) as (x & _ & Hl & Hu).
  { intros l Hl. clear -Hl. induction ls as [|y ls IH]; [by apply not_elem_of_nil in Hl|]. simpl.
    apply elem_of_cons in Hl as [->|Hl]; [lia|]. specialize (IH Hl). lia. }
  exists x. intros i j Hi Hj Hid Hjd. repeat case_decide; subst; try done.
  - rewrite Z.sub_diag. by apply Hdiag.
  - assert (j ∈ S) as HjS by naive_solver. destruct (cell d n j m) as [b|] eqn:E; [|done]. simpl.
    assert (x <= v j + b); [|lia]. apply Hu, list_elem_of_omap. exists j. by rewrite E.
  - assert (i ∈ S) as HiS by naive_solver. destruct (cell d i n m) as [b|] eqn:E; [|done]. simpl.
    assert (v i - b <= x); [|lia]. apply Hl, list_elem_of_omap. exists i. by rewrite E.
  - apply Hv; naive_solver.
Qed.

(** It extends to all of them. *)
Lemma extend m (S : list nat) v : closed m → (∀ i, i ∈ S → (i < d)%nat) → holds_on (.∈ S) m v →
  ∃ w, (∀ i, i ∈ S → w i = v i) ∧ holds m w.
Proof.
  intros Hcl HS Hv.
  assert (∀ K, (K ≤ d)%nat → ∃ w, (∀ i, i ∈ S → w i = v i) ∧ holds_on (.∈ seq 0 K ++ S) m w) as H.
  { induction K as [|K IH]; intros HK; [by exists v|]. destruct IH as (w & E & Hw); [lia|].
    assert (∀ i, i ∈ seq 0 K ++ S → (i < d)%nat) as HS' by (intros i [[_ ?]%elem_of_seq|?]%elem_of_app; [lia|auto]).
    destruct (extend_one m (seq 0 K ++ S) w K Hcl HS') as [x Hx]; [lia|done|].
    eexists. split; [|intros i j Hi Hj; apply Hx].
    - intros i Hi. cbn beta. destruct (decide (i = K)) as [->|]; [|by apply E].
      rewrite decide_True by (apply elem_of_app; by right). by apply E.
    - rewrite seq_S in Hi. set_solver.
    - rewrite seq_S in Hj. set_solver. }
  destruct (H d (Nat.le_refl d)) as (w & E & Hw). exists w. split; [done|]. intros i j Hi Hj.
  apply Hw; [..|done|done]; apply elem_of_app; left; apply elem_of_seq; lia.
Qed.
End Cells.

(** ** Matrices by writes *)

Section Writes.
Variable d : nat.
Implicit Types (m : list jnum).

Definition write m (w : (nat * nat) * jnum) : list jnum := set_cell d w.1.1 w.1.2 w.2 m.

(** A sequence of writes of the cells of one function leaves that function on the cells it wrote. *)
Lemma writes_cell (G : nat → nat → jnum) ws m : square d m →
  (∀ w, w ∈ ws → (w.1.1 < d)%nat ∧ (w.1.2 < d)%nat ∧ w.2 = G w.1.1 w.1.2) →
  let m' := foldl write m ws in
  square d m' ∧ ∀ i j, (i < d)%nat → (j < d)%nat → cell d i j m' = if decide ((i, j) ∈ ws.*1) then G i j else cell d i j m.
Proof.
  intros Hm. cbn zeta. induction ws as [|w ws IH] using rev_ind; intros Hw.
  { split; [done|]. intros i j _ _. rewrite decide_False; [done|]. by intros ?%not_elem_of_nil. }
  destruct IH as [I1 I2]; [intros; apply Hw, elem_of_app; by left|]. destruct (Hw w) as (H1 & H2 & H3); [apply elem_of_app; right; left|].
  rewrite foldl_app. cbn [foldl]. split; [by apply square_set|]. intros i j Hi Hj. unfold write at 1. rewrite cell_set by done.
  assert ((i, j) ∈ (ws ++ [w]).*1 ↔ (i, j) ∈ ws.*1 ∨ i = w.1.1 ∧ j = w.1.2) as Hin.
  { rewrite fmap_app, elem_of_app. cbn. rewrite list_elem_of_singleton. destruct w as [[a b] v]. simpl. naive_solver. }
  destruct (decide (i = w.1.1 ∧ j = w.1.2)) as [[-> ->]|Hne].
  - rewrite decide_True by (apply Hin; tauto). exact H3.
  - rewrite I2 by done. destruct (decide ((i, j) ∈ ws.*1)) as [F|F], (decide ((i, j) ∈ (ws ++ [w]).*1)) as [F'|F']; try done; rewrite Hin in F'; tauto.
Qed.

Lemma foldl_bind {A B C} (f : A → B → A) (g : C → list B) l a : foldl f a (l ≫= g) = foldl (λ a x, foldl f a (g x)) a l.
Proof. revert a. induction l as [|x l IH]; intros a; [done|]. cbn. by rewrite foldl_app, <- IH. Qed.

Lemma foldl_map {A B C} (f : A → B → A) (g : C → B) l a : foldl f a (g <$> l) = foldl (λ a x, f a (g x)) a l.
Proof. revert a. induction l as [|x l IH]; intros a; [done|]. cbn. by rewrite <- IH. Qed.

Lemma makeMatrix_spec fill : square d (makeMatrix d fill) ∧
  ∀ i j, (i < d)%nat → (j < d)%nat → cell d i j (makeMatrix d fill) = if decide (i = j) then Fin 0 else fill.
Proof.
  assert (makeMatrix d fill = foldl write (replicate (d * d) fill) ((λ i, ((i, i), Fin 0)) <$> seq 0 d)) as -> by (by rewrite foldl_map).
  assert (square d (replicate (d * d) fill)) as Hr by apply length_replicate.
  destruct (writes_cell (λ _ _, Fin 0) ((λ i, ((i, i), Fin 0)) <$> seq 0 d) _ Hr) as [W1 W2].
  { intros w (i & -> & [_ Hi]%elem_of_seq)%list_elem_of_fmap. simpl. by split_and!. }
  split; [exact W1|]. intros i j Hi Hj. rewrite W2 by done.
  assert ((i, j) ∈ ((λ i, ((i, i), Fin 0)) <$> seq 0 d).*1 ↔ i = j) as Hin.
  { rewrite <- list_fmap_compose, list_elem_of_fmap. split; [intros (x & [= -> ->] & _); done|].
    intros ->. exists j. split; [done|apply elem_of_seq; lia]. }
  destruct (decide (i = j)) as [F|F], (decide _) as [F'|F']; try done; try tauto.
  unfold cell. by rewrite lookup_replicate_2 by (by apply cell_bound).
Qed.

(** The intervals of [n] clocks from the [o]-th on. *)
Definition interval_writes (o n : nat) (lo : nat → Z) (up : nat → jnum) : list ((nat * nat) * jnum) :=
  seq 0 n ≫= λ k, [((0%nat, S (o + k)), Fin (- lo k)); ((S (o + k), 0%nat), up k)].

Lemma intervals_eq o n lo up m :
  foldl (λ m k, set_interval d (o + k) (lo k) (up k) m) m (seq 0 n) = foldl write m (interval_writes o n lo up).
Proof. unfold interval_writes. by rewrite foldl_bind. Qed.

Lemma elem_of_intervals o n lo up w : w ∈ interval_writes o n lo up ↔
  ∃ k, (k < n)%nat ∧ (w = ((0%nat, S (o + k)), Fin (- lo k)) ∨ w = ((S (o + k), 0%nat), up k)).
Proof.
  unfold interval_writes. rewrite list_elem_of_bind. setoid_rewrite elem_of_seq. setoid_rewrite elem_of_cons. setoid_rewrite list_elem_of_singleton.
  split; [intros (k & ? & ?); exists k; naive_solver lia|intros (k & ? & ?); exists k; naive_solver lia].
Qed.

(** The fired clock is constrained to be first. *)
Lemma fires_first_spec f n fired m : square d m → (f < d)%nat → d = S n →
  let m' := fires_first d f n fired m in
  square d m' ∧ ∀ i j, (i < d)%nat → (j < d)%nat →
    cell d i j m' = if decide (i = f ∧ j ≠ 0%nat ∧ j ≠ S fired) then jnum_min (cell d i j m) (Fin 0) else cell d i j m.
Proof.
  intros Hm Hf Hd. cbn zeta. unfold fires_first.
  assert (∀ l, (∀ i, i ∈ l → (S i < d)%nat) →
    let m' := foldl (λ m i, if (i =? fired)%nat then m else set_cell d f (S i) (jnum_min (cell d f (S i) m) (Fin 0)) m) m l in
    square d m' ∧ ∀ i j, (i < d)%nat → (j < d)%nat →
      cell d i j m' = if decide (i = f ∧ j ∈ S <$> filter (.≠ fired) l) then jnum_min (cell d i j m) (Fin 0) else cell d i j m) as H.
  2:{ destruct (H (seq 0 n)) as [H1 H2]; [intros i [_ ?]%elem_of_seq; lia|]. split; [exact H1|]. intros i j Hi Hj. rewrite H2 by done.
      assert (j ∈ S <$> filter (.≠ fired) (seq 0 n) ↔ j ≠ 0%nat ∧ j ≠ S fired) as Hk.
      { rewrite list_elem_of_fmap. setoid_rewrite list_elem_of_filter. setoid_rewrite elem_of_seq.
        split; [intros (k & -> & ? & ?); lia|]. intros [? ?]. exists (j - 1)%nat. lia. }
      destruct (decide (i = f ∧ j ∈ _)) as [F|F], (decide (i = f ∧ j ≠ 0%nat ∧ j ≠ S fired)) as [F'|F']; try done; rewrite Hk in F; tauto. }
  induction l as [|x l IH] using rev_ind; intros Hl; cbn zeta.
  { split; [done|]. intros i j _ _. rewrite decide_False; [done|]. by intros [_ ?%not_elem_of_nil]. }
  destruct IH as [I1 I2]; [intros; apply Hl, elem_of_app; by left|]. rewrite foldl_app. cbn [foldl].
  set (m1 := foldl _ m l) in *. assert (S x < d)%nat as Hx by (apply Hl, elem_of_app; right; left).
  assert (∀ j, j ∈ S <$> filter (.≠ fired) (l ++ [x]) ↔ j ∈ S <$> filter (.≠ fired) l ∨ (j = S x ∧ x ≠ fired)) as Hin.
  { intros j. rewrite filter_app, fmap_app, elem_of_app, filter_cons, filter_nil.
    case_decide as F; rewrite ?fmap_cons, ?fmap_nil, ?elem_of_cons, ?elem_of_nil; tauto. }
  destruct (x =? fired)%nat eqn:Ex.
  - apply Nat.eqb_eq in Ex. split; [done|]. intros i j Hi Hj. rewrite I2 by done. specialize (Hin j).
    destruct (decide (i = f ∧ j ∈ S <$> filter _ l)) as [F|F], (decide (i = f ∧ j ∈ S <$> filter _ (l ++ [x]))) as [F'|F']; try done; tauto.
  - apply Nat.eqb_neq in Ex. split; [by apply square_set|]. intros i j Hi Hj. rewrite cell_set by done. specialize (Hin j).
    destruct (decide (i = f ∧ j = S x)) as [[-> ->]|Hne].
    + rewrite (decide_True (P := f = f ∧ S x ∈ S <$> filter _ (l ++ [x]))) by tauto. rewrite I2 by done. case_decide; [|done]. apply jmin_again.
    + rewrite I2 by done.
      destruct (decide (i = f ∧ j ∈ S <$> filter _ l)) as [F|F], (decide (i = f ∧ j ∈ S <$> filter _ (l ++ [x]))) as [F'|F']; try done; tauto.
Qed.
End Writes.

(** ** Properties *)

(** Two nodes of a canonical matrix at any distance its bounds allow. *)
Lemma closed_pair d m i j x : closed d m → (i < d)%nat → (j < d)%nat → i ≠ j → jle (Fin x) (cell d i j m) → jle (Fin (- x)) (cell d j i m) →
  ∃ v, holds d m v ∧ v i - v j = x.
Proof.
  intros Hc Hi Hj Hne H1 H2.
  destruct (extend d m [i; j] (λ k, if decide (k = i) then x else 0) Hc) as (w & E & Hw).
  - by intros k [->|[->|[]%not_elem_of_nil]%elem_of_cons]%elem_of_cons.
  - destruct Hc as (_ & _ & Hd).
    intros a b [->|[->|[]%not_elem_of_nil]%elem_of_cons]%elem_of_cons [->|[->|[]%not_elem_of_nil]%elem_of_cons]%elem_of_cons _ _;
      rewrite ?(decide_True (P := i = i)), ?(decide_False (P := j = i)) by congruence; rewrite ?Z.sub_diag, ?Z.sub_0_r; auto.
  - exists w. split; [done|]. rewrite (E i), (E j) by set_solver. rewrite decide_True, decide_False by congruence. lia.
Qed.

(** The closure of a difference-bound matrix of whole milliseconds is exact. It keeps the
    solutions of the constraints, answers true exactly when there are any, and every bound it leaves
    between two clocks is attained: a finite bound by some solution, and an infinite one is exceeded
    by solutions without limit. *)
Theorem canonicalizeInPlace_exact scale d m : 0 < scale → square d m → whole d scale m →
  let r := canonicalizeInPlace scale m d in
  (∀ v, holds d r.1 v ↔ holds d m v) ∧ (r.2 = true ↔ ∃ v, holds d m v) ∧
  (r.2 = true → ∀ i j, (i < d)%nat → (j < d)%nat → i ≠ j →
     match cell d i j r.1 with
     | Fin b => ∃ v, holds d m v ∧ v i - v j = b
     | Infinity => ∀ K, ∃ v, holds d m v ∧ K <= v i - v j
     end).
Proof.
  intros Hs Hm Hw. cbn zeta. destruct (canonicalizeInPlace_spec d scale Hs m Hm Hw) as (_ & _ & _ & Hh & Hr).
  destruct (canonicalizeInPlace scale m d) as [r ok]; cbn [fst snd] in *. split_and!; [done| |].
  - destruct ok.
    + split; [|done]. intros _. destruct (extend d r [] (λ _, 0) Hr) as (w & _ & Hw'); [by intros ? ?%not_elem_of_nil|by intros ?? ?%not_elem_of_nil|].
      exists w. by apply Hh.
    + split; [done|]. intros (v & Hv). by destruct (Hr v).
  - intros -> i j Hi Hj Hne. pose proof Hr as (_ & Ht & Hd).
    assert (jle (Fin 0) (jadd (cell d i j r) (cell d j i r))) as Hsum by (eapply jle_trans; [by apply (Hd i)|by apply Ht]).
    destruct (cell d i j r) as [b|] eqn:E.
    + destruct (closed_pair d r i j b Hr Hi Hj Hne) as (v & Hv & Ev); [rewrite E; apply jle_refl| |exists v; by rewrite <- Hh].
      destruct (cell d j i r); simpl in *; lia || done.
    + intros K. set (x := Z.max K (match cell d j i r with Fin b => - b | Infinity => K end)).
      destruct (closed_pair d r i j x Hr Hi Hj Hne) as (v & Hv & Ev); [by rewrite E| |exists v; rewrite <- Hh; split; [done|lia]].
      destruct (cell d j i r); simpl in *; lia || done.
Qed.

(** Two clocks, the second at least a second after the first and at most two seconds from now. *)
Definition example_matrix : list jnum :=
  [Fin 0; Fin 0; Fin 0; Infinity; Fin 0; Fin (- second 1); Fin (2 * second 1); Infinity; Fin 0].

Lemma canonicalizeInPlace_exact_witness :
  let r := canonicalizeInPlace 1 example_matrix 3 in
  r.2 = true ∧ cell 3 1 0 r.1 = Fin (second 1) ∧ ∃ v, holds 3 example_matrix v ∧ v 1%nat - v 0%nat = second 1.
Proof.
  assert (whole 3 1 example_matrix) as Hw.
  { intros i j b Hi Hj E. destruct i as [|[|[|i]]], j as [|[|[|j]]]; try lia; vm_compute in E; try discriminate; injection E as <-;
      apply Z.mod_divide; vm_compute; discriminate || reflexivity. }
  destruct (canonicalizeInPlace_exact 1 3 example_matrix ltac:(lia) eq_refl Hw) as (_ & _ & H).
  split; [vm_compute; reflexivity|]. split; [vm_compute; reflexivity|].
  exact (H ltac:(vm_compute; reflexivity) 1%nat 0%nat ltac:(lia) ltac:(lia) ltac:(lia)).
Defined.
