(* ===== verification/DbmZone.v ===== *)
(** * Zones: the sets of times to fire that difference-bound matrices denote

    The points of a zone of [Dbm], and what each operation of
    [src/typescript/src/verification/analysis/dbm.ts] does to them: construction from intervals, the
    passage of time, the firing of a clock and the reordering of the clocks are exact. *)
From S2P Require Import Prelude.
From stdpp Require Import pretty.
From S2P Require Import MarkingState.
From S2P Require Import Dbm.
#[local] Open Scope Z_scope.

(** ** Zones *)

(** The times to fire of the clocks, after the reference clock. *)
Definition clock_val (θ : nat → Z) (i : nat) : Z := match i with O => 0 | S i => θ i end.

Definition in_zone (z : dbm) (θ : nat → Z) : Prop := dbm_empty z = false ∧ holds (dim z) (bounds z) (clock_val θ).

(** Every lower bound is finite and not negative. *)
Definition forward (d : nat) (m : list jnum) : Prop := ∀ j, (j < d)%nat → ∃ b, cell d 0 j m = Fin b ∧ b <= 0.

Section Zones.
Variable scale : Z.
Hypothesis Hscale : 0 < scale.
Implicit Types (z : dbm) (θ : nat → Z).

Record dbm_wf z : Prop := {
  zw_dim : dim z = S (length (clockNames z));
  zw_closed : closed (dim z) (bounds z);
  zw_whole : whole (dim z) scale (bounds z);
  zw_forward : forward (dim z) (bounds z)
}.
Definition zone_wf z : Prop := dbm_empty z = false → dbm_wf z.

Lemma canonicalize_zone m d names : square d m → whole d scale m → forward d m → d = S (length names) →
  let z := canonicalize scale (DBM m d names false) in
  zone_wf z ∧ (dbm_empty z = false → clockNames z = names) ∧ ∀ θ, in_zone z θ ↔ holds d m (clock_val θ).
Proof.
  intros Hm Hw Hf Hd. cbn zeta. unfold canonicalize. cbn [dbm_empty bounds dim clockNames].
  destruct (canonicalizeInPlace_spec d scale Hscale m Hm Hw) as (H1 & H2 & H3 & H4 & H5).
  destruct (canonicalizeInPlace scale m d) as [m' []]; cbn [fst snd] in *.
  - split_and!.
    + intros _. constructor; cbn [dim bounds clockNames]; try done. intros j Hj. destruct (Hf j Hj) as (b & E & Hb).
      assert (0 < d)%nat as H0 by lia. pose proof (H3 0%nat j H0 Hj) as Hle. rewrite E in Hle.
      destruct (cell d 0 j m') as [b'|]; [|done]. simpl in Hle. exists b'. split; [done|lia].
    + done.
    + intros θ. unfold in_zone. cbn [dbm_empty dim bounds]. rewrite H4. tauto.
  - split_and!; [done|done|]. intros θ. unfold in_zone. cbn [empty_zone dbm_empty]. split; [by intros [? _]|]. intros Hh. by destruct (H5 _ Hh).
Qed.

(** A zone that is not marked empty has a point: every clock at its lower bound. *)
Lemma zone_inhabited z : zone_wf z → dbm_empty z = false → ∃ θ, in_zone z θ.
Proof.
  intros Hz He. destruct (Hz He) as [H1 (H2 & H3 & H4) H5 H6].
  set (low := λ j, match cell (dim z) 0 j (bounds z) with Fin b => - b | Infinity => 0 end).
  exists (λ i, low (S i) - low 0%nat). split; [done|].
  assert (holds (dim z) (bounds z) low) as Hl.
  { intros i j Hi Hj. unfold low. assert (0 < dim z)%nat as H0 by lia. pose proof (H3 i 0%nat j Hi Hi H0 Hj) as Ht.
    destruct (H6 i Hi) as (a & Ea & _), (H6 j Hj) as (b & Eb & _). rewrite Ea, Eb in *. simpl in *.
    destruct (cell (dim z) i j (bounds z)); [|done]. simpl in *. lia. }
  intros i j Hi Hj. specialize (Hl i j Hi Hj). destruct i, j; (eapply jle_trans; [|exact Hl]); simpl; lia.
Qed.

Lemma create_spec (names : list jsstr) (lo : list Z) (up : list jnum) :
  length lo = length names → length up = length names →
  (∀ b : Z, b ∈ lo → 0 <= b ∧ (millisecond scale | b)) → (∀ b : Z, Fin b ∈ up → (millisecond scale | b)) →
  let z := create scale names lo up in
  zone_wf z ∧ (dbm_empty z = false → clockNames z = names) ∧
  ∀ θ, in_zone z θ ↔ ∀ i l u, lo !! i = Some l → up !! i = Some u → l <= θ i ∧ jle (Fin (θ i)) u.
Proof.
  intros Hl Hu Hlo Hup. cbn zeta. unfold create. cbn zeta. set (n := length names) in *. set (d := S n).
  set (flo := λ k, default 0 (lo !! k)). set (fup := λ k, default (Fin 0) (up !! k)).
  change (foldl _ (makeMatrix d Infinity) (seq 0 n)) with (foldl (λ m i, set_interval d (0 + i) (flo i) (fup i) m) (makeMatrix d Infinity) (seq 0 n)).
  rewrite intervals_eq. destruct (makeMatrix_spec d Infinity) as [M1 M2].
  set (G := λ i j : nat, match i, j with O, S k => Fin (- flo k) | S k, O => fup k | _, _ => Fin 0 end).
  destruct (writes_cell d G (interval_writes 0 n flo fup) _ M1) as [W1 W2].
  { intros w (k & Hk & [->| ->])%elem_of_intervals; simpl; split_and!; unfold d; try done; lia. }
  set (m := foldl (write d) (makeMatrix d Infinity) (interval_writes 0 n flo fup)) in *.
  assert (∀ i j, (i < d)%nat → (j < d)%nat → cell d i j m = match i, j with O, O => Fin 0 | O, S k => Fin (- flo k) | S k, O => fup k
    | S a, S b => if decide (a = b) then Fin 0 else Infinity end) as Hcell.
  { intros i j Hi Hj. rewrite W2, M2 by done.
    assert ((i, j) ∈ (interval_writes 0 n flo fup).*1 ↔ (i = 0%nat ∧ j ≠ 0%nat) ∨ (i ≠ 0%nat ∧ j = 0%nat)) as Hin.
    { rewrite list_elem_of_fmap. setoid_rewrite elem_of_intervals. unfold d in *. split.
      - intros (w & E & k & Hk & [->| ->]); simpl in E; injection E as -> ->; lia.
      - intros [[-> Hne]|[Hne ->]].
        + exists ((0%nat, S (0 + (j - 1))), Fin (- flo (j - 1)%nat)). split; [simpl; f_equal; lia|]. exists (j - 1)%nat. split; [lia|by left].
        + exists ((S (0 + (i - 1)), 0%nat), fup (i - 1)%nat). split; [simpl; f_equal; lia|]. exists (i - 1)%nat. split; [lia|by right]. }
    destruct i as [|i], j as [|j]; destruct (decide _) as [F|F]; rewrite Hin in F; try done; try (exfalso; lia);
      destruct (decide _) as [F'|F'], (decide (i = j)) as [F''|F'']; done || congruence || (exfalso; congruence). }
  assert (∀ k, (k < n)%nat → ∃ l u, lo !! k = Some l ∧ up !! k = Some u ∧ flo k = l ∧ fup k = u) as Hk.
  { intros k Hk. destruct (lookup_lt_is_Some_2 lo k) as [l El]; [lia|]. destruct (lookup_lt_is_Some_2 up k) as [u Eu]; [lia|].
    exists l, u. unfold flo, fup. by rewrite El, Eu. }
  destruct (canonicalize_zone m d names W1) as (Z1 & Z2 & Z3); [..|done|].
  - intros i j b Hi Hj. rewrite Hcell by done. destruct i as [|i], j as [|j].
    + intros [= <-]. apply Z.divide_0_r.
    + intros [= <-]. apply Z.divide_opp_r. destruct (Hk j) as (l & u & El & Eu & -> & _); [unfold d in *; lia|]. apply Hlo. by eapply list_elem_of_lookup_2.
    + intros E. destruct (Hk i) as (l & u & El & Eu & _ & E'); [unfold d in *; lia|]. apply Hup. rewrite <- E, E'. by eapply list_elem_of_lookup_2.
    + case_decide; [|done]. intros [= <-]. apply Z.divide_0_r.
  - intros j Hj. rewrite Hcell by (unfold d in *; lia). destruct j as [|j]; [exists 0; split; [done|lia]|].
    destruct (Hk j) as (l & u & El & Eu & E & _); [unfold d in *; lia|]. eexists. split; [done|]. rewrite E.
    destruct (Hlo l); [by eapply list_elem_of_lookup_2|lia].
  - split_and!; [done|done|]. intros θ. rewrite Z3. split.
    + intros Hh i l u El Eu. assert (i < n)%nat as Hi by (rewrite <- Hl; by eapply lookup_lt_Some).
      pose proof (Hh 0%nat (S i)) as H1. pose proof (Hh (S i) 0%nat) as H2. rewrite Hcell in H1, H2 by (unfold d; lia).
      unfold flo, fup in *. rewrite El in H1. rewrite Eu in H2. cbn in H1. specialize (H1 ltac:(unfold d; lia) ltac:(unfold d; lia)).
      specialize (H2 ltac:(unfold d; lia) ltac:(unfold d; lia)). simpl in *. split; [lia|]. destruct u; simpl in *; lia || done.
    + intros Hh i j Hi Hj. rewrite Hcell by done. destruct i as [|i], j as [|j]; simpl; try lia.
      * destruct (Hk j) as (l & u & El & Eu & -> & _); [unfold d in *; lia|]. destruct (Hh j l u El Eu). lia.
      * destruct (Hk i) as (l & u & El & Eu & _ & ->); [unfold d in *; lia|]. destruct (Hh i l u El Eu) as [_ H]. destruct u; simpl in *; lia || done.
      * case_decide; [subst; simpl; lia|done].
Qed.

Lemma zone_dim0 z : dbm_wf z → (0 < dim z)%nat.
Proof. intros H. rewrite (zw_dim z H). lia. Qed.

(** Letting time pass: the points from which a later point of the zone is reached by waiting. *)
Lemma letTimePass_spec z : zone_wf z → dbm_empty z = false →
  let z' := letTimePass scale z in
  zone_wf z' ∧ (dbm_empty z' = false → clockNames z' = clockNames z) ∧
  ∀ θ, in_zone z' θ ↔ (∀ i, (i < length (clockNames z))%nat → 0 <= θ i) ∧ ∃ δ, 0 <= δ ∧ in_zone z (λ i, θ i + δ).
Proof.
  intros Hz He. destruct (Hz He) as [D1 (D2 & D3 & D4) D5 D6]. cbn zeta. unfold letTimePass. rewrite He. set (d := dim z) in *.
  change (foldl _ (bounds z) (seq 1 (d - 1))) with (foldl (λ m i, write d m ((0%nat, i), Fin 0)) (bounds z) (seq 1 (d - 1))).
  rewrite <- (foldl_map (write d) (λ i, ((0%nat, i), Fin 0))).
  destruct (writes_cell d (λ _ _, Fin 0) ((λ i, ((0%nat, i), Fin 0)) <$> seq 1 (d - 1)) _ D2) as [W1 W2].
  { intros w (i & -> & [? ?]%elem_of_seq)%list_elem_of_fmap. simpl. split_and!; [lia|lia|done]. }
  set (m := foldl (write d) _ _) in *.
  assert (∀ i j, (i < d)%nat → (j < d)%nat → cell d i j m = if decide (i = 0%nat ∧ j ≠ 0%nat) then Fin 0 else cell d i j (bounds z)) as Hcell.
  { intros i j Hi Hj. rewrite W2 by done.
    assert ((i, j) ∈ ((λ i, ((0%nat, i), Fin 0)) <$> seq 1 (d - 1)).*1 ↔ i = 0%nat ∧ j ≠ 0%nat) as Hin.
    { rewrite <- list_fmap_compose, list_elem_of_fmap. setoid_rewrite elem_of_seq. split; [intros (k & [= -> ->] & ?); lia|].
      intros [-> ?]. exists j. split; [done|lia]. }
    destruct (decide (i = 0%nat ∧ j ≠ 0%nat)) as [F|F], (decide ((i, j) ∈ _)) as [F'|F']; try done; tauto. }
  assert (0 < d)%nat as H0 by lia.
  destruct (canonicalize_zone m d (clockNames z) W1) as (Z1 & Z2 & Z3); [..|done|].
  - intros i j b Hi Hj. rewrite Hcell by done. case_decide; [|by apply D5]. intros [= <-]. apply Z.divide_0_r.
  - intros j Hj. rewrite Hcell by done. case_decide; [exists 0; split; [done|lia]|by apply D6].
  - split_and!; [done|done|]. intros θ. rewrite Z3. unfold in_zone. fold d. split.
    + intros Hh. assert (∀ i, (i < length (clockNames z))%nat → 0 <= θ i) as Hpos.
      { intros i Hi. assert (S i < d)%nat as Hi' by lia. pose proof (Hh 0%nat (S i) H0 Hi') as H. rewrite Hcell in H by done. simpl in H. lia. }
      split; [done|].
      assert (∀ i j, (i < d)%nat → (j < d)%nat → (i = 0%nat → j = 0%nat) → jle (Fin (clock_val θ i - clock_val θ j)) (cell d i j (bounds z))) as Hold.
      { intros i j Hi Hj Hij. specialize (Hh i j Hi Hj). rewrite Hcell in Hh by done. rewrite decide_False in Hh by tauto. done. }
      set (ls := omap (λ i, jsub (clock_val θ i) (cell d i 0 (bounds z))) (seq 1 (d - 1))).
      set (us := omap (λ j, jplus (clock_val θ j) (cell d 0 j (bounds z))) (seq 1 (d - 1))).
      destruct (between ls us 0) as (x & Hx & Hl & Hu).
      * intros l u (i & Hi%elem_of_seq & El)%list_elem_of_omap (j & Hj%elem_of_seq & Eu)%list_elem_of_omap.
        pose proof (Hold i j ltac:(lia) ltac:(lia) ltac:(lia)) as Hij. pose proof (D3 0%nat i j H0 H0 ltac:(lia) ltac:(lia)) as Ht.
        destruct (cell d i 0 (bounds z)) as [a|], (cell d 0 j (bounds z)) as [b|], (cell d i j (bounds z)) as [c|];
          simpl in *; simplify_eq; try done; lia.
      * intros l (i & Hi%elem_of_seq & El)%list_elem_of_omap. pose proof (Hold i 0%nat ltac:(lia) H0 ltac:(lia)) as Hi0.
        destruct (cell d i 0 (bounds z)) as [a|]; simpl in *; simplify_eq. lia.
      * exists (- x). split; [lia|]. split; [done|]. intros i j Hi Hj. destruct i as [|i], j as [|j]; cbn [clock_val].
        -- rewrite Z.sub_diag. by apply D4.
        -- destruct (cell d 0 (S j) (bounds z)) as [b|] eqn:E; [|done]. simpl.
           assert (x <= clock_val θ (S j) + b); [|simpl in *; lia]. apply Hu, list_elem_of_omap. exists (S j).
           split; [apply elem_of_seq; lia|]. by rewrite E.
        -- destruct (cell d (S i) 0 (bounds z)) as [b|] eqn:E; [|done]. simpl.
           assert (clock_val θ (S i) - b <= x); [|simpl in *; lia]. apply Hl, list_elem_of_omap. exists (S i).
           split; [apply elem_of_seq; lia|]. by rewrite E.
        -- eapply jle_trans; [|apply (Hold (S i) (S j)); lia]. simpl. lia.
    + intros (Hpos & δ & Hδ & _ & Hh) i j Hi Hj. rewrite Hcell by done. case_decide as E.
      * destruct E as [-> Hj0]. destruct j as [|j]; [done|]. simpl. assert (0 <= θ j) by (apply Hpos; lia). lia.
      * specialize (Hh i j Hi Hj). destruct i as [|i], j as [|j]; try (exfalso; apply E; split; [done|lia]);
          (eapply jle_trans; [|exact Hh]); simpl; lia.
Qed.

(** ** The successor of a firing *)

Section Fire.
Variables (d f newDim : nat) (constrained : list jnum) (pers : list nat) (nf : nat) (flo : nat → Z) (fup : nat → jnum).
Abbreviation np := (length pers).
Hypothesis Hdim : newDim = S (np + nf).

(** The old index of the [k]-th persistent clock. *)
Definition old (k : nat) : nat := S (default 0%nat (pers !! k)).

(** The cells of the new matrix. *)
Definition successor_cell (i j : nat) : jnum :=
  match i, j with
  | O, O => Fin 0
  | O, S k => if (k <? np)%nat then Fin (- max0neg (cell d f (old k) constrained)) else Fin (- flo (k - np))
  | S k, O => if (k <? np)%nat then cell d (old k) f constrained else fup (k - np)
  | S a, S b => if (a <? np)%nat && (b <? np)%nat then cell d (old a) (old b) constrained
                else if (a =? b)%nat then Fin 0 else Infinity
  end.

Definition persistent_writes : list ((nat * nat) * jnum) :=
  seq 0 np ≫= λ p, [((0%nat, S p), successor_cell 0 (S p)); ((S p, 0%nat), successor_cell (S p) 0)]
                   ++ ((λ q, ((S p, S q), successor_cell (S p) (S q))) <$> seq 0 np).

Lemma copies_eq m : foldl (copy_persistent d f newDim constrained pers) m (seq 0 np) = foldl (write newDim) m persistent_writes.
Proof.
  unfold persistent_writes. rewrite foldl_bind.
  assert (∀ l m, (∀ p, p ∈ l → (p < np)%nat) → foldl (copy_persistent d f newDim constrained pers) m l =
    foldl (λ m p, foldl (write newDim) m ([((0%nat, S p), successor_cell 0 (S p)); ((S p, 0%nat), successor_cell (S p) 0)]
      ++ ((λ q, ((S p, S q), successor_cell (S p) (S q))) <$> seq 0 np))) m l) as H; [|apply H; by intros p [_ ?]%elem_of_seq].
  induction l as [|p l IH]; intros m1 Hl; [done|]. cbn [foldl]. rewrite IH by (intros; apply Hl; by right). f_equal.
  assert (p < np)%nat as Hp by (apply Hl; left). unfold copy_persistent. cbn zeta. rewrite foldl_app, foldl_map. cbn [foldl].
  assert (write newDim (write newDim m1 ((0%nat, S p), successor_cell 0 (S p))) ((S p, 0%nat), successor_cell (S p) 0) =
          set_cell newDim (S p) 0 (cell d (old p) f constrained) (set_cell newDim 0 (S p) (Fin (- max0neg (cell d f (old p) constrained))) m1)) as ->.
  { unfold write. cbn [fst snd successor_cell]. by rewrite (proj2 (Nat.ltb_lt p np) Hp). }
  fold (old p). set (m2 := set_cell newDim (S p) 0 _ _).
  assert (∀ l m, (∀ q, q ∈ l → (q < np)%nat) →
    foldl (λ m pj, set_cell newDim (S p) (S pj) (cell d (old p) (S (default 0%nat (pers !! pj))) constrained) m) m l =
    foldl (λ m q, write newDim m ((S p, S q), successor_cell (S p) (S q))) m l) as H; [|apply H; by intros q [_ ?]%elem_of_seq].
  clear -Hp. induction l as [|q l IH]; intros m Hl; [done|]. cbn [foldl]. rewrite IH by (intros; apply Hl; by right). f_equal.
  unfold write. cbn [fst snd successor_cell]. rewrite (proj2 (Nat.ltb_lt p np) Hp), (proj2 (Nat.ltb_lt q np)) by (apply Hl; left). done.
Qed.

Lemma fresh_eq m : foldl (λ m k, set_interval newDim (np + k) (flo k) (fup k) m) m (seq 0 nf) =
  foldl (write newDim) m (interval_writes np nf flo fup).
Proof. apply intervals_eq. Qed.

Lemma successor_matrix :
  let m := foldl (λ m k, set_interval newDim (np + k) (flo k) (fup k) m)
             (foldl (copy_persistent d f newDim constrained pers) (makeMatrix newDim Infinity) (seq 0 np)) (seq 0 nf) in
  square newDim m ∧ ∀ i j, (i < newDim)%nat → (j < newDim)%nat → cell newDim i j m = successor_cell i j.
Proof.
  cbn zeta. rewrite copies_eq, fresh_eq, <- foldl_app. destruct (makeMatrix_spec newDim Infinity) as [M1 M2].
  assert (∀ w, w ∈ persistent_writes ++ interval_writes np nf flo fup →
    (w.1.1 < newDim)%nat ∧ (w.1.2 < newDim)%nat ∧ w.2 = successor_cell w.1.1 w.1.2) as Hw.
  { intros w [Hw|Hw]%elem_of_app.
    - apply list_elem_of_bind in Hw as (p & Hw & [_ Hp]%elem_of_seq). apply elem_of_app in Hw as [Hw|Hw].
      + apply elem_of_cons in Hw as [->|Hw]; [|apply list_elem_of_singleton in Hw as ->]; cbn [fst snd]; split_and!; done || lia.
      + apply list_elem_of_fmap in Hw as (q & -> & [_ Hq]%elem_of_seq). cbn [fst snd]. split_and!; done || lia.
    - apply elem_of_intervals in Hw as (k & Hk & [->| ->]); cbn [fst snd successor_cell]; split_and!; try lia.
      all: rewrite (proj2 (Nat.ltb_ge _ _)) by lia; do 3 f_equal; lia. }
  destruct (writes_cell newDim successor_cell _ _ M1 Hw) as [W1 W2]. split; [exact W1|]. intros i j Hi Hj. rewrite W2, M2 by done.
  assert ((i = 0%nat ∧ j ≠ 0%nat) ∨ (i ≠ 0%nat ∧ j = 0%nat) ∨ (i ≠ 0%nat ∧ j ≠ 0%nat ∧ (i ≤ np)%nat ∧ (j ≤ np)%nat) →
          (i, j) ∈ (persistent_writes ++ interval_writes np nf flo fup).*1) as Hin.
  { intros Hij. assert (∀ w, w.1 = (i, j) → w ∈ persistent_writes ++ interval_writes np nf flo fup →
      (i, j) ∈ (persistent_writes ++ interval_writes np nf flo fup).*1) as Hmem by (intros w <-; apply list_elem_of_fmap_2).
    destruct i as [|i], j as [|j]; try (exfalso; lia).
    - destruct (decide (j < np)%nat).
      + apply (Hmem ((0%nat, S j), successor_cell 0 (S j))); [done|]. apply elem_of_app. left. apply list_elem_of_bind. exists j.
        split; [|apply elem_of_seq; lia]. apply elem_of_app. left. left.
      + apply (Hmem ((0%nat, S (np + (j - np))), Fin (- flo (j - np)%nat))); [simpl; f_equal; lia|]. apply elem_of_app. right.
        apply elem_of_intervals. exists (j - np)%nat. split; [lia|by left].
    - destruct (decide (i < np)%nat).
      + apply (Hmem ((S i, 0%nat), successor_cell (S i) 0)); [done|]. apply elem_of_app. left. apply list_elem_of_bind. exists i.
        split; [|apply elem_of_seq; lia]. apply elem_of_app. left. right. left.
      + apply (Hmem ((S (np + (i - np)), 0%nat), fup (i - np)%nat)); [simpl; f_equal; lia|]. apply elem_of_app. right.
        apply elem_of_intervals. exists (i - np)%nat. split; [lia|by right].
    - apply (Hmem ((S i, S j), successor_cell (S i) (S j))); [done|]. apply elem_of_app. left. apply list_elem_of_bind. exists i.
      split; [|apply elem_of_seq; lia]. apply elem_of_app. right. apply list_elem_of_fmap. exists j. split; [done|apply elem_of_seq; lia]. }
  case_decide as E; [done|]. destruct i as [|i], j as [|j]; try (exfalso; apply E, Hin; lia); [done|].
  cbn [successor_cell]. destruct ((i <? np)%nat && (j <? np)%nat) eqn:Eb.
  - apply andb_true_iff in Eb as [E1%Nat.ltb_lt E2%Nat.ltb_lt]. exfalso. apply E, Hin. lia.
  - destruct (Nat.eqb_spec i j), (decide (S i = S j)); try done; lia.
Qed.
End Fire.

(** The point [θ'] is reached from [θ] by firing clock [fired]: it is first, the persistent clocks
    keep what remains, and the new clocks start anywhere in their intervals. *)
Definition fires_to (n fired : nat) (pers : list nat) (lo : list Z) (up : list jnum) (θ θ' : nat → Z) : Prop :=
  (∀ i, (i < n)%nat → θ fired <= θ i) ∧
  (∀ p idx, pers !! p = Some idx → θ' p = θ idx - θ fired) ∧
  (∀ k l u, lo !! k = Some l → up !! k = Some u → l <= θ' (length pers + k)%nat ∧ jle (Fin (θ' (length pers + k)%nat)) u).

Section Successor.
Variables (z : dbm) (fired : nat) (names : list jsstr) (lo : list Z) (up : list jnum) (pers : list nat).
Abbreviation n := (length (clockNames z)).
Abbreviation np := (length pers).
Abbreviation nf := (length names).
Hypothesis Hz : zone_wf z.
Hypothesis He : dbm_empty z = false.
Hypothesis Hfired : (fired < n)%nat.
Hypothesis Hlo : length lo = nf.
Hypothesis Hup : length up = nf.
Hypothesis Hlo_ok : ∀ b : Z, b ∈ lo → 0 <= b ∧ (millisecond scale | b).
Hypothesis Hup_ok : ∀ b : Z, Fin b ∈ up → (millisecond scale | b).
Hypothesis Hpers : ∀ idx, idx ∈ pers → (idx < n)%nat ∧ idx ≠ fired.
Hypothesis Hdup : NoDup pers.

Abbreviation d := (dim z).
Abbreviation f := (S fired).
Definition first_matrix : list jnum := fires_first d f n fired (bounds z).

Lemma first_holds v : holds d first_matrix v ↔ holds d (bounds z) v ∧ ∀ i, (i < n)%nat → v f <= v (S i).
Proof.
  destruct (Hz He) as [D1 (D2 & _) _ _]. destruct (fires_first_spec d f n fired (bounds z) D2) as [_ F2]; [lia|lia|].
  unfold first_matrix. split.
  - intros Hh. split.
    + intros i j Hi Hj. specialize (Hh i j Hi Hj). rewrite F2 in Hh by done. case_decide; [|done].
      eapply jle_trans; [exact Hh|apply jmin_le].
    + intros i Hi. destruct (decide (i = fired)) as [->|Hne]; [lia|]. pose proof (Hh f (S i) ltac:(lia) ltac:(lia)) as H.
      rewrite F2, decide_True in H by lia. eapply jle_trans in H; [|apply jle_refl]. 
      pose proof (jle_trans _ _ _ H (proj2 (jmin_le (cell d f (S i) (bounds z)) (Fin 0)))) as H'. simpl in H'. lia.
  - intros [Hh Hf] i j Hi Hj. rewrite F2 by done. case_decide as E; [|by apply Hh]. destruct E as (-> & Hj0 & Hjf).
    destruct (jmin_cases (cell d f j (bounds z)) (Fin 0)) as [[-> _]|[-> _]]; [by apply Hh|].
    destruct j as [|j]; [done|]. specialize (Hf j). simpl. assert (v f <= v (S j)) by (apply Hf; lia). lia.
Qed.

Lemma first_ok : square d first_matrix ∧ whole d scale first_matrix.
Proof.
  destruct (Hz He) as [D1 (D2 & _) D5 _]. destruct (fires_first_spec d f n fired (bounds z) D2) as [F1 F2]; [lia|lia|].
  split; [exact F1|]. intros i j b Hi Hj. unfold first_matrix. rewrite F2 by done. case_decide; [|by apply D5].
  destruct (jmin_cases (cell d i j (bounds z)) (Fin 0)) as [[-> _]|[-> _]]; [by apply D5|]. intros [= <-]. apply Z.divide_0_r.
Qed.

Lemma old_lt p : (p < np)%nat → ∃ idx, pers !! p = Some idx ∧ old pers p = S idx ∧ (S idx < d)%nat.
Proof.
  intros Hp. destruct (lookup_lt_is_Some_2 pers p Hp) as [idx E]. exists idx. split_and!; [done|by unfold old; rewrite E|].
  destruct (Hz He) as [D1 _ _ _]. assert (idx < n)%nat by (apply Hpers; by eapply list_elem_of_lookup_2). lia.
Qed.

(** The matrix of the successor, before its closure. *)
Abbreviation newDim := (S (np + nf)).
Definition fresh_lower (k : nat) : Z := default 0 (lo !! k).
Definition fresh_upper (k : nat) : jnum := default (Fin 0) (up !! k).

Lemma fresh_lookup k : (k < nf)%nat → lo !! k = Some (fresh_lower k) ∧ up !! k = Some (fresh_upper k) ∧
  0 <= fresh_lower k ∧ (millisecond scale | fresh_lower k) ∧ (∀ b, fresh_upper k = Fin b → (millisecond scale | b)).
Proof.
  intros Hk. unfold fresh_lower, fresh_upper. destruct (lookup_lt_is_Some_2 lo k) as [l El]; [lia|].
  destruct (lookup_lt_is_Some_2 up k) as [u Eu]; [lia|]. rewrite El, Eu. cbn [default from_option id].
  destruct (Hlo_ok l) as [? ?]; [by eapply list_elem_of_lookup_2|]. split_and!; try done.
  intros b ->. apply Hup_ok. by eapply list_elem_of_lookup_2.
Qed.

Section Matrix.
Variable c : list jnum.
Hypothesis Hc : closed d c.
Hypothesis Hcw : whole d scale c.
Abbreviation G := (successor_cell d f c pers fresh_lower fresh_upper).

Lemma successor_whole i j b : (i < newDim)%nat → (j < newDim)%nat → G i j = Fin b → (millisecond scale | b).
Proof.
  intros Hi Hj. destruct i as [|i], j as [|j]; cbn [successor_cell].
  - intros [= <-]. apply Z.divide_0_r.
  - destruct (Nat.ltb_spec j np) as [H|H]; intros [= <-]; apply Z.divide_opp_r.
    + destruct (old_lt j H) as (idx & _ & -> & Hidx). destruct (cell d f (S idx) c) as [x|] eqn:E; simpl; [|apply Z.divide_0_r].
      destruct (Z.max_spec 0 (- x)) as [[_ ->]|[_ ->]]; [|apply Z.divide_0_r]. apply Z.divide_opp_r, (Hcw f (S idx)); [|done..].
      destruct (Hz He) as [D1 _ _ _]. lia.
    + apply fresh_lookup. lia.
  - destruct (Nat.ltb_spec i np) as [H|H].
    + destruct (old_lt i H) as (idx & _ & -> & Hidx). apply Hcw; [done|]. destruct (Hz He) as [D1 _ _ _]. lia.
    + apply fresh_lookup. lia.
  - destruct (Nat.ltb_spec i np) as [H|H], (Nat.ltb_spec j np) as [H'|H']; cbn [andb].
    1:{ destruct (old_lt i H) as (idx & _ & -> & Hidx), (old_lt j H') as (idx' & _ & -> & Hidx'). by apply Hcw. }
    all: destruct (i =? j)%nat; [|done]; intros [= <-]; apply Z.divide_0_r.
Qed.

Lemma successor_forward j : ∃ b, G 0 j = Fin b ∧ b <= 0 ∨ (newDim ≤ j)%nat.
Proof.
  destruct (decide (j < newDim)%nat) as [Hj|]; [|exists 0; right; lia]. destruct j as [|j]; cbn [successor_cell].
  { exists 0. left. split; [done|lia]. }
  destruct (Nat.ltb_spec j np) as [H|H]; eexists; left; (split; [reflexivity|]).
  - unfold max0neg. destruct (cell d f (old pers j) c); lia.
  - assert (0 <= fresh_lower (j - np)) by (apply fresh_lookup; lia). lia.
Qed.

(** The points of the new matrix are the persistent parts of the points of the old one, with fresh clocks. *)
Lemma successor_solves θ θ' : holds d c (clock_val θ) → fires_to n fired pers lo up θ θ' →
  ∀ i j, (i < newDim)%nat → (j < newDim)%nat → jle (Fin (clock_val θ' i - clock_val θ' j)) (G i j).
Proof.
  intros Hh (H1 & H2 & H3). assert (f < d)%nat as Hf by (destruct (Hz He) as [D1 _ _ _]; lia).
  intros i j Hi Hj. destruct i as [|i], j as [|j]; cbn [successor_cell clock_val].
  - simpl. lia.
  - destruct (Nat.ltb_spec j np) as [H|H].
    + destruct (old_lt j H) as (idx & Ep & -> & Hidx). rewrite (H2 _ _ Ep). specialize (H1 idx). specialize (Hh f (S idx) Hf Hidx).
      cbn [clock_val] in Hh. assert (θ fired <= θ idx) by (apply H1, Hpers; by eapply list_elem_of_lookup_2).
      unfold max0neg. destruct (cell d f (S idx) c); simpl in *; lia.
    + destruct (fresh_lookup (j - np)) as (El & Eu & _); [lia|]. destruct (H3 _ _ _ El Eu) as [H4 _].
      replace (np + (j - np))%nat with j in H4 by lia. simpl. lia.
  - destruct (Nat.ltb_spec i np) as [H|H].
    + destruct (old_lt i H) as (idx & Ep & -> & Hidx). rewrite (H2 _ _ Ep). specialize (Hh (S idx) f Hidx Hf). cbn [clock_val] in Hh.
      by rewrite Z.sub_0_r.
    + destruct (fresh_lookup (i - np)) as (El & Eu & _); [lia|]. destruct (H3 _ _ _ El Eu) as [_ H4].
      replace (np + (i - np))%nat with i in H4 by lia. by rewrite Z.sub_0_r.
  - destruct (Nat.ltb_spec i np) as [H|H], (Nat.ltb_spec j np) as [H'|H']; cbn [andb].
    1:{ destruct (old_lt i H) as (idx & Ep & -> & Hidx), (old_lt j H') as (idx' & Ep' & -> & Hidx').
        rewrite (H2 _ _ Ep), (H2 _ _ Ep'). specialize (Hh (S idx) (S idx') Hidx Hidx'). cbn [clock_val] in Hh.
        eapply jle_trans; [|exact Hh]. simpl. lia. }
    all: destruct (Nat.eqb_spec i j); [subst; simpl; lia|done].
Qed.

(** The time a persistent node has in [θ']. *)
Definition kept (θ' : nat → Z) (node : nat) : Z :=
  if decide (node = f) then 0 else match list_find (λ idx, S idx = node) pers with Some (p, _) => θ' p | None => 0 end.

Lemma kept_eq θ' p idx : pers !! p = Some idx → kept θ' (S idx) = θ' p.
Proof.
  intros Ep. assert (idx ≠ fired) as Hne by (apply Hpers; by eapply list_elem_of_lookup_2). unfold kept.
  rewrite decide_False by congruence. destruct (list_find_elem_of (λ i, S i = S idx) pers idx) as [[q y] Hq]; [by eapply list_elem_of_lookup_2|done|].
  rewrite Hq. apply list_find_Some in Hq as (Eq & [= ->] & _). f_equal. exact (NoDup_lookup _ _ _ _ Hdup Eq Ep).
Qed.

Lemma successor_comes θ' : (∀ i j, (i < newDim)%nat → (j < newDim)%nat → jle (Fin (clock_val θ' i - clock_val θ' j)) (G i j)) →
  ∃ θ, holds d c (clock_val θ) ∧ (∀ p idx, pers !! p = Some idx → θ' p = θ idx - θ fired).
Proof.
  intros Hh. assert (f < d)%nat as Hf by (destruct (Hz He) as [D1 _ _ _]; lia).
  assert (kept θ' f = 0) as Kf by (unfold kept; by rewrite decide_True).
  assert (∀ p, (p < np)%nat → (p <? np)%nat = true) as Hb by (intros; by apply Nat.ltb_lt).
  assert (holds_on d (.∈ f :: (S <$> pers)) c (kept θ')) as Hon.
  { assert (∀ i, i ∈ f :: (S <$> pers) → i = f ∨ ∃ p idx, pers !! p = Some idx ∧ i = S idx ∧ kept θ' i = θ' p ∧ (p < np)%nat ∧ old pers p = S idx) as Hin.
    { intros i [->|(idx & -> & Hi)%list_elem_of_fmap]%elem_of_cons; [by left|]. right. apply list_elem_of_lookup in Hi as [p Ep].
      pose proof (lookup_lt_Some _ _ _ Ep) as Hp. exists p, idx. split_and!; [done|done|by apply kept_eq|done|unfold old; by rewrite Ep]. }
    intros i j Hi Hj _ _. destruct (Hin i Hi) as [->|(p & idx & Ep & -> & Kp & Hp & Op)], (Hin j Hj) as [->|(q & idy & Eq & -> & Kq & Hq & Oq)].
    - rewrite Z.sub_diag. by apply Hc.
    - pose proof (Hh 0%nat (S q) ltac:(lia) ltac:(lia)) as H. cbn [successor_cell clock_val] in H. rewrite Hb, Oq in H by done.
      rewrite Kf, Kq. destruct (cell d f (S idy) c) as [b|]; [|done]. unfold max0neg in H. simpl in *. lia.
    - pose proof (Hh (S p) 0%nat ltac:(lia) ltac:(lia)) as H. cbn [successor_cell clock_val] in H. rewrite Hb, Op in H by done. by rewrite Kf, Kp.
    - pose proof (Hh (S p) (S q) ltac:(lia) ltac:(lia)) as H. cbn [successor_cell clock_val] in H. rewrite !Hb, Op, Oq in H by done.
      cbn [andb] in H. by rewrite Kp, Kq. }
  destruct (extend d c (f :: (S <$> pers)) (kept θ') Hc) as (w & Ew & Hw); [|done|].
  { intros i [->|(idx & -> & Hi)%list_elem_of_fmap]%elem_of_cons; [done|]. apply Hpers in Hi as [Hi _]. destruct (Hz He) as [D1 _ _ _]. lia. }
  exists (λ i, w (S i) - w 0%nat). split.
  - intros i j Hi Hj. eapply jle_trans; [|by apply Hw]. destruct i, j; simpl; lia.
  - intros p idx Ep. rewrite <- (kept_eq θ' p idx Ep). rewrite (Ew f) by left. rewrite Kf.
    rewrite (Ew (S idx)) by (right; apply list_elem_of_fmap_2; by eapply list_elem_of_lookup_2). lia.
Qed.
End Matrix.

(** Firing a clock of a zone: the points of the answer are exactly those one firing of that clock
    reaches from the points of the zone. *)
Lemma dbm_fire_spec : ∃ z',
  dbm_fireTransition scale z (Z.of_nat fired) names lo up pers = Ok z' ∧ zone_wf z' ∧
  (dbm_empty z' = false → clockNames z' = ((λ idx, default [] (clockNames z !! idx)) <$> pers) ++ names) ∧
  ∀ θ', in_zone z' θ' ↔ ∃ θ, in_zone z θ ∧ fires_to n fired pers lo up θ θ'.
Proof.
  unfold dbm_fireTransition. rewrite He. cbn zeta. rewrite (proj2 (Z.ltb_ge (Z.of_nat fired) 0)), (proj2 (Z.leb_gt (Z.of_nat n) (Z.of_nat fired))) by lia.
  cbn [orb]. rewrite Nat2Z.id. fold first_matrix. destruct first_ok as [F1 F2].
  destruct (canonicalizeInPlace_spec d scale Hscale first_matrix F1 F2) as (C1 & C2 & C3 & C4 & C5).
  destruct (canonicalizeInPlace scale first_matrix d) as [c []]; cbn [fst snd] in *.
  2:{ eexists. split; [reflexivity|]. split_and!; [done|done|]. intros θ'. unfold in_zone at 1. cbn [empty_zone dbm_empty].
      split; [by intros [? _]|]. intros (θ & [_ H1] & H2 & _). destruct (C5 (clock_val θ)). apply first_holds. split; [done|].
      intros i Hi. by apply H2. }
  destruct (successor_matrix d f newDim c pers nf fresh_lower fresh_upper eq_refl) as [S1 S2].
  set (m := foldl _ _ (seq 0 nf)) in S1, S2. change (foldl _ (foldl _ (makeMatrix newDim Infinity) (seq 0 np)) (seq 0 nf)) with m.
  destruct (canonicalize_zone m newDim (((λ idx, default [] (clockNames z !! idx)) <$> pers) ++ names) S1) as (Z1 & Z2 & Z3).
  - intros i j b Hi Hj. rewrite S2 by done. by apply successor_whole.
  - intros j Hj. rewrite S2 by lia. destruct (successor_forward c j) as [b [H|H]]; [by exists b|lia].
  - by rewrite length_app, length_fmap.
  - eexists. split; [reflexivity|]. split_and!; [exact Z1|exact Z2|]. intros θ'. rewrite Z3. split.
    + intros Hh. destruct (successor_comes c C5 θ') as (θ & T1 & T2); [intros i j Hi Hj; rewrite <- S2 by done; by apply Hh|].
      exists θ. apply C4, first_holds in T1 as [T1 T3]. split; [done|]. split_and!; [exact T3|exact T2|].
      intros k l u El Eu. assert (k < nf)%nat as Hk by (rewrite <- Hlo; by eapply lookup_lt_Some).
      destruct (fresh_lookup k Hk) as (El' & Eu' & _). simplify_eq.
      pose proof (Hh 0%nat (S (np + k)) ltac:(lia) ltac:(lia)) as H1. pose proof (Hh (S (np + k)) 0%nat ltac:(lia) ltac:(lia)) as H2.
      rewrite S2 in H1, H2 by lia. cbn [successor_cell clock_val] in H1, H2. rewrite (proj2 (Nat.ltb_ge _ _)) in H1, H2 by lia.
      replace (np + k - np)%nat with k in * by lia. rewrite Z.sub_0_r in H2. simpl in H1. split; [lia|done].
    + intros (θ & [_ T1] & T2) i j Hi Hj. rewrite S2 by done. apply (successor_solves c θ); [|done|done|done].
      apply C4, first_holds. split; [done|]. intros i' Hi'. by apply T2.
Qed.
End Successor.

(** A zone only constrains its own clocks. *)
Lemma in_zone_ext z θ θ' : zone_wf z → (∀ i, (i < length (clockNames z))%nat → θ i = θ' i) → in_zone z θ → in_zone z θ'.
Proof.
  intros Hz E [He H]. split; [done|]. destruct (Hz He) as [D1 _ _ _].
  intros i j Hi Hj. specialize (H i j Hi Hj). destruct i, j; cbn [clock_val] in *; rewrite <- ?E by lia; done.
Qed.

Lemma zone_nonneg z θ i : zone_wf z → in_zone z θ → (i < length (clockNames z))%nat → 0 <= θ i.
Proof.
  intros Hz [He H] Hi. destruct (Hz He) as [D1 _ _ D6]. destruct (D6 (S i)) as (b & E & Hb); [lia|].
  specialize (H 0%nat (S i) ltac:(lia) ltac:(lia)). rewrite E in H. cbn in H. lia.
Qed.

(** Reordering the clocks. *)
Lemma permuted_spec z (order : list nat) : zone_wf z → dbm_empty z = false → order ≡ₚ seq 0 (length (clockNames z)) →
  zone_wf (permuted order z) ∧ dbm_empty (permuted order z) = false ∧
  clockNames (permuted order z) = ((λ k, default [] (clockNames z !! default 0%nat (order !! k))) <$> seq 0 (length (clockNames z))) ∧
  ∀ θ, in_zone (permuted order z) (λ k, θ (default 0%nat (order !! k))) ↔ in_zone z θ.
Proof.
  intros Hz He Hord. destruct (Hz He) as [D1 (D2 & D3 & D4) D5 D6]. unfold zone_wf, in_zone. unfold permuted. rewrite He. cbn zeta.
  cbn [dbm_empty bounds dim clockNames]. set (d := dim z) in *. set (n := length (clockNames z)) in *.
  set (src := λ i : nat, match i with O => O | S i => S (default 0%nat (order !! i)) end).
  set (m := (λ x, _) <$> seq 0 (d * d)).
  assert (length order = n) as Hlen by (rewrite Hord; apply length_seq).
  assert (∀ k, (k < n)%nat → ∃ o, order !! k = Some o ∧ (o < n)%nat) as Hk.
  { intros k Hk. destruct (lookup_lt_is_Some_2 order k) as [o E]; [lia|]. exists o. split; [done|].
    apply list_elem_of_lookup_2 in E. rewrite Hord, elem_of_seq in E. lia. }
  assert (∀ i, (i < d)%nat → (src i < d)%nat) as Hsrc.
  { intros [|i] Hi; [done|]. cbn [src]. destruct (Hk i) as (o & -> & Ho); [lia|]. simpl. lia. }
  assert (∀ i j, (i < d)%nat → (j < d)%nat → cell d i j m = if decide (i = 0%nat ∧ j = 0%nat) then Fin 0 else cell d (src i) (src j) (bounds z)) as Hcell.
  { intros i j Hi Hj. unfold cell at 1, m. rewrite list_lookup_fmap, lookup_seq_lt by nia. cbn [fmap option_fmap option_map default from_option id Nat.add].
    destruct (Nat.eqb_spec (i * d + j) 0) as [E|E]; case_decide as F; try done; [exfalso; apply F; nia|exfalso; apply E; destruct F as [-> ->]; lia|].
    rewrite (Nat.div_add_l i d j), (Nat.div_small j d), Nat.add_0_r by lia.
    rewrite (Nat.add_comm (i * d) j), Nat.Div0.mod_add, (Nat.mod_small j d) by lia. done. }
  assert (∀ i j, (i < d)%nat → (j < d)%nat → jle (cell d i j m) (cell d (src i) (src j) (bounds z))) as Hle.
  { intros i j Hi Hj. rewrite Hcell by done. case_decide as F; [|apply jle_refl]. destruct F as [-> ->]. by apply D4. }
  split_and!; [|done|done|].
  - intros _. constructor; cbn [dim bounds clockNames]; fold d m.
    + by rewrite length_fmap, length_seq.
    + split_and!.
      * unfold square, m. by rewrite length_fmap, length_seq.
      * intros k i j Hkd _ Hi Hj. rewrite (Hcell i j) by done. pose proof (D3 (src k) (src i) (src j)) as Ht.
        case_decide as F; [destruct F as [-> ->]|].
        { rewrite !Hcell by done. destruct k as [|k]; [done|]. eapply jle_trans; [apply (D4 0%nat); done|]. rewrite !decide_False by lia.
          apply Ht; by apply Hsrc. }
        rewrite !Hcell by done. specialize (Ht (Hsrc k Hkd) (Hsrc k Hkd) (Hsrc i Hi) (Hsrc j Hj)).
        destruct (decide (i = 0%nat ∧ k = 0%nat)) as [[-> ->]|]; [rewrite decide_False by lia; destruct (cell d (src 0%nat) (src j) (bounds z)); simpl; lia || done|].
        destruct (decide (k = 0%nat ∧ j = 0%nat)) as [[-> ->]|]; [|done]. destruct (cell d (src i) (src 0%nat) (bounds z)); simpl; lia || done.
      * intros i Hi. rewrite Hcell by done. case_decide; [simpl; lia|]. by apply D4, Hsrc.
    + intros i j b Hi Hj. rewrite Hcell by done. case_decide; [|apply D5; by apply Hsrc]. intros [= <-]. apply Z.divide_0_r.
    + intros j Hj. rewrite Hcell by lia. case_decide; [exists 0; split; [done|lia]|]. by apply D6, Hsrc.
  - intros θ. fold m. assert (∀ i, (i < d)%nat → clock_val (λ k, θ (default 0%nat (order !! k))) i = clock_val θ (src i)) as Ev by (by intros [|i] Hi).
    split; intros [_ H]; (split; [done|]).
    + intros a b Ha Hb. assert (∀ a, (a < d)%nat → ∃ i, (i < d)%nat ∧ src i = a) as Hsurj.
      { clear -Hord D1. intros [|a] Ha; [exists 0%nat; split; [lia|done]|].
        assert (a ∈ order) as Hin by (rewrite Hord, elem_of_seq; lia). apply list_elem_of_lookup in Hin as [i E].
        exists (S i). split; [|cbn [src]; by rewrite E]. apply lookup_lt_Some in E. rewrite Hord, length_seq in E. lia. }
      destruct (Hsurj a Ha) as (i & Hi & <-), (Hsurj b Hb) as (j & Hj & <-). rewrite <- !Ev by done.
      eapply jle_trans; [by apply H|by apply Hle].
    + intros i j Hi Hj. rewrite !Ev by done. rewrite Hcell by done. case_decide as F; [destruct F as [-> ->]; simpl; lia|]. apply H; by apply Hsrc.
Qed.
End Zones.

(** * Zone keys

    The printed zone determines its bounds: the deduplication keys of
    [src/typescript/src/verification/analysis/dbm.ts] ([zoneKey], [formatBound]) are faithful on
    matrices of whole milliseconds. *)
#[local] Open Scope Z_scope.

(** ** Keys *)

(** The value of a decimal numeral. *)
Fixpoint dec_value (s : jsstr) : Z := match s with [] => 0 | c :: s => (c - 48) * 10 ^ Z.of_nat (length s) + dec_value s end.

Lemma dec_value_app a b : dec_value (a ++ b) = dec_value a * 10 ^ Z.of_nat (length b) + dec_value b.
Proof.
  induction a as [|c a IH]; [done|]. cbn [app dec_value]. rewrite IH, length_app, Nat2Z.inj_add, Z.pow_add_r by lia. lia.
Qed.

Lemma dec_value_zeros k s : dec_value (replicate k 48 ++ s) = dec_value s.
Proof. rewrite dec_value_app. assert (dec_value (replicate k 48) = 0) as ->; [|lia]. induction k as [|k IH]; [done|]. cbn [replicate dec_value]. lia. Qed.

Lemma pretty_char_value x : (x < 10)%N → Z.of_nat (nat_of_ascii (pretty_N_char x)) = 48 + Z.of_N x.
Proof.
  intros Hx. destruct x as [|p]; [done|].
  do 4 (destruct p as [p|p|]; try done); exfalso; lia.
Qed.

Lemma pretty_go_value x s : dec_value (js (pretty_N_go x s)) = Z.of_N x * 10 ^ Z.of_nat (length (js s)) + dec_value (js s).
Proof.
  revert s. induction (N.lt_wf_0 x) as [x _ IH]. intros s. destruct (decide (x = 0)%N) as [->|Hx]; [by rewrite pretty_N_go_0|].
  rewrite pretty_N_go_step by lia. rewrite IH by (apply N.div_lt; lia).
  change (js (String.String (pretty_N_char (x mod 10)) s)) with (Z.of_nat (nat_of_ascii (pretty_N_char (x mod 10))) :: js s).
  cbn [dec_value length]. rewrite pretty_char_value by (apply N.mod_lt; lia).
  rewrite Nat2Z.inj_succ, Z.pow_succ_r by lia. rewrite N2Z.inj_div, N2Z.inj_mod.
  rewrite (Z.div_mod (Z.of_N x) 10) at 3 by lia. simpl (Z.of_N 10). lia.
Qed.

Lemma number_value z : 0 <= z → dec_value (number_string z) = z.
Proof.
  intros Hz. unfold number_string, pretty, pretty_Z. destruct z as [|z|z]; [done| |lia].
  unfold pretty, pretty_positive, pretty, pretty_N. case_decide; [done|]. rewrite pretty_go_value. change (js "") with (@nil Z).
  cbn [length dec_value]. change (10 ^ Z.of_nat 0) with 1. lia.
Qed.

Definition POINT : Z := 46.
Definition BAR : Z := 124.

Lemma digit_plain s : Forall digit s → POINT ∉ s ∧ BAR ∉ s ∧ 45 ∉ s.
Proof. intros H. rewrite Forall_forall in H. split_and!; intros Hc%H; unfold digit in Hc; [unfold POINT in Hc|unfold BAR in Hc|]; lia. Qed.

Lemma not_in_digits c s n : Forall digit s → ¬ digit c → c ∉ s ∧ c ∉ firstn n s ∧ c ∉ skipn n s.
Proof.
  intros Hs Hc. assert (∀ s, Forall digit s → c ∉ s) as H by (intros l Hl Hin; rewrite Forall_forall in Hl; by apply Hc, Hl).
  split_and!; apply H; [done|by apply Forall_take|by apply Forall_drop].
Qed.

Lemma number_neg z : z < 0 → number_string z = 45 :: number_string (- z).
Proof. intros H. destruct z as [|z|z]; [lia|lia|]. reflexivity. Qed.

Lemma number_plain z : POINT ∉ number_string z ∧ BAR ∉ number_string z.
Proof.
  destruct (decide (0 <= z)) as [H|H].
  - destruct (digit_plain _ (number_digits z H)) as (? & ? & _). done.
  - rewrite number_neg by lia. destruct (digit_plain _ (number_digits (- z) ltac:(lia))) as (? & ? & _).
    unfold POINT, BAR in *. split; by intros [?|?]%elem_of_cons.
Qed.

Section Keys.
Variable scale : Z.
Hypothesis Hscale : 0 < scale.

Definition padded (n : Z) : jsstr := replicate (4 - length (number_string n)) 48 ++ number_string n.

Lemma padded_digits n : 0 <= n → Forall digit (padded n).
Proof. intros Hn. apply Forall_app. split; [apply Forall_replicate; unfold digit; lia|by apply number_digits]. Qed.

Lemma toFixed3_eq q : toFixed3 scale (q * millisecond scale) = (if q <? 0 then [45] else []) ++ (firstn (length (padded (Z.abs q)) - 3) (padded (Z.abs q))
  ++ POINT :: skipn (length (padded (Z.abs q)) - 3) (padded (Z.abs q))).
Proof.
  unfold toFixed3. cbn zeta. assert (0 < millisecond scale) as Hms by (unfold millisecond; lia).
  assert ((2 * Z.abs (q * millisecond scale) + millisecond scale) / (2 * millisecond scale) = Z.abs q) as ->.
  { rewrite Z.abs_mul, (Z.abs_eq (millisecond scale)) by lia. symmetry. apply (Z.div_unique _ _ _ (millisecond scale)); lia. }
  assert ((q * millisecond scale <? 0) = (q <? 0)) as ->; [|done].
  destruct (Z.ltb_spec q 0), (Z.ltb_spec (q * millisecond scale) 0); try done; nia.
Qed.

Lemma point_split n : 0 <= n → POINT ∉ firstn (length (padded n) - 3) (padded n).
Proof.
  intros Hn. apply not_in_digits; [by apply padded_digits|]. unfold digit, POINT. lia.
Qed.

Lemma toFixed3_units q c : ¬ digit c → c ≠ 45 → c ≠ POINT → c ∉ toFixed3 scale (q * millisecond scale).
Proof.
  intros Hc H1 H2. rewrite toFixed3_eq, !not_elem_of_app, not_elem_of_cons.
  destruct (not_in_digits c _ (length (padded (Z.abs q)) - 3) (padded_digits _ (Z.abs_nonneg q)) Hc) as (_ & H3 & H4).
  split_and!; try done. destruct (q <? 0); [by intros ?%list_elem_of_singleton|apply not_elem_of_nil].
Qed.

Lemma toFixed3_inj q q' : toFixed3 scale (q * millisecond scale) = toFixed3 scale (q' * millisecond scale) → q = q'.
Proof.
  rewrite !toFixed3_eq. pose proof (Z.abs_nonneg q) as A. pose proof (Z.abs_nonneg q') as A'.
  assert (∀ n, 0 <= n → ∃ c t, firstn (length (padded n) - 3) (padded n) = c :: t ∧ digit c) as Hhd.
  { intros n Hn. pose proof (padded_digits n Hn) as Hd. assert (4 ≤ length (padded n))%nat as H4 by (unfold padded; rewrite length_app, length_replicate; lia).
    destruct (padded n) as [|c s]; [cbn in H4; lia|]. cbn [length] in *. destruct (S (length s) - 3)%nat eqn:E; [lia|]. cbn [take]. exists c, (take n0 s).
    by apply Forall_cons in Hd as [? _]. }
  assert (∀ n n', 0 <= n → 0 <= n' → firstn (length (padded n) - 3) (padded n) ++ POINT :: skipn (length (padded n) - 3) (padded n) =
     firstn (length (padded n') - 3) (padded n') ++ POINT :: skipn (length (padded n') - 3) (padded n') → n = n') as Hp.
  { intros n n' Hn Hn' E. apply split_first in E as [E1 E2]; [|by apply point_split|by apply point_split].
    assert (padded n = padded n') as E by (by rewrite <- (take_drop (length (padded n) - 3) (padded n)), E1, E2, take_drop).
    apply (f_equal dec_value) in E. unfold padded in E. rewrite !dec_value_zeros, !number_value in E by done. done. }
  destruct (Hhd _ A) as (c & t & E & Hc), (Hhd _ A') as (c' & t' & E' & Hc'). unfold digit in *.
  destruct (Z.ltb_spec q 0), (Z.ltb_spec q' 0); cbn [app]; intros H'.
  - injection H' as H'. apply Hp in H'; [|done|done]. lia.
  - rewrite E' in H'. cbn [app] in H'. injection H' as <- _. lia.
  - rewrite E in H'. cbn [app] in H'. injection H' as -> _. lia.
  - apply Hp in H'; [|done|done]. lia.
Qed.

Lemma formatBound_inj a b : (∀ x, a = Fin x → (millisecond scale | x)) → (∀ x, b = Fin x → (millisecond scale | x)) →
  formatBound scale a = formatBound scale b → a = b.
Proof.
  intros Ha Hb. assert (0 < second scale) as Hs by (unfold second, millisecond; lia).
  assert (∀ q, POINT ∈ toFixed3 scale (q * millisecond scale)) as Hpt.
  { intros q. rewrite toFixed3_eq. rewrite !elem_of_app. right. right. left. }
  assert (∀ q, 8734 ∉ toFixed3 scale (q * millisecond scale)) as Hinf.
  { intros q. apply toFixed3_units; unfold digit; [lia|done|done]. }
  assert (∀ z, 8734 ∉ number_string z) as Hinf'.
  { intros z. destruct (decide (0 <= z)) as [H|H].
    - apply (not_in_digits _ _ 0 (number_digits z H)). unfold digit. lia.
    - rewrite number_neg, not_elem_of_cons by lia. split; [done|]. apply (not_in_digits _ _ 0 (number_digits (- z) ltac:(lia))). unfold digit. lia. }
  destruct a as [x|], b as [y|]; cbn [formatBound]; [| | |done].
  - destruct (Ha x eq_refl) as [q ->], (Hb y eq_refl) as [q' ->].
    destruct (Z.eqb_spec ((q * millisecond scale) mod second scale) 0) as [E1|E1], (Z.eqb_spec ((q' * millisecond scale) mod second scale) 0) as [E2|E2]; intros E.
    + apply number_string_inj in E. f_equal. rewrite (Z.div_mod (q * millisecond scale) (second scale)), (Z.div_mod (q' * millisecond scale) (second scale)) by lia. by rewrite E, E1, E2.
    + destruct (proj1 (number_plain (q * millisecond scale / second scale))). rewrite E. apply Hpt.
    + destruct (proj1 (number_plain (q' * millisecond scale / second scale))). rewrite <- E. apply Hpt.
    + by apply toFixed3_inj in E as ->.
  - destruct (Ha x eq_refl) as [q ->]. intros E. exfalso. case_bool; [eapply Hinf'|eapply Hinf]; rewrite E; left.
  - destruct (Hb y eq_refl) as [q ->]. intros E. exfalso. case_bool; [eapply Hinf'|eapply Hinf]; rewrite <- E; left.
Qed.

Lemma formatBound_plain a : (∀ x, a = Fin x → (millisecond scale | x)) → BAR ∉ formatBound scale a.
Proof.
  intros Ha. destruct a as [x|]; cbn [formatBound]; [|by intros ?%list_elem_of_singleton]. destruct (Ha x eq_refl) as [q ->].
  case_bool; [apply number_plain|]. apply toFixed3_units; unfold digit, BAR; [lia|done|done].
Qed.

Lemma zone_bounds z : dbm_wf scale z → bounds z ≠ [] ∧ ∀ b, b ∈ bounds z → ∀ x, b = Fin x → (millisecond scale | x).
Proof.
  intros [D1 (D2 & _) D3 _]. unfold square in D2. split; [intros E; rewrite E in D2; cbn in D2; nia|].
  intros b Hb x ->. apply list_elem_of_lookup in Hb as [i E]. assert (i < dim z * dim z)%nat as Hi by (rewrite <- D2; by eapply lookup_lt_Some).
  apply (D3 (i / dim z)%nat (i mod dim z)%nat); [apply Nat.Div0.div_lt_upper_bound; lia|apply Nat.mod_upper_bound; lia|].
  unfold cell. rewrite (Nat.mul_comm (i / dim z)), <- Nat.div_mod by lia. by rewrite E.
Qed.

Lemma printed_bounds_inj z z' : dbm_wf scale z → dbm_wf scale z' →
  join (js "|") (formatBound scale <$> bounds z) = join (js "|") (formatBound scale <$> bounds z') → bounds z = bounds z'.
Proof.
  intros [N1 W1]%zone_bounds [N1' W1']%zone_bounds E. apply (join_unit_inj BAR) in E.
  - revert E. clear -W1 W1' Hscale. revert W1'. generalize (bounds z') as l'. revert W1. generalize (bounds z) as l. induction l as [|a l IH]; intros W1 [|a' l'] W1' E; try done.
    rewrite !fmap_cons in E. injection E as E1 E2. f_equal.
    + apply formatBound_inj in E1; [done|apply W1; left|apply W1'; left].
    + apply IH; try done; intros; [eapply W1|eapply W1']; try done; by right.
  - intros x (b & -> & Hb)%list_elem_of_fmap. apply formatBound_plain. by apply W1.
  - intros x (b & -> & Hb)%list_elem_of_fmap. apply formatBound_plain. by apply W1'.
  - by intros ?%fmap_nil_inv.
  - by intros ?%fmap_nil_inv.
Qed.

Lemma zoneKey_eq z : dbm_wf scale z → dbm_empty z = false →
  zoneKey scale z = join (js ",") (clockNames z) ++ BAR :: join (js "|") (formatBound scale <$> bounds z).
Proof.
  intros [N _]%zone_bounds He. unfold zoneKey. rewrite He. destruct (bounds z) as [|b l]; [done|]. rewrite fmap_cons. by rewrite join_cons.
Qed.

(** Zones over the same clocks with the same key have the same bounds. *)
Lemma zoneKey_inj z z' : dbm_wf scale z → dbm_wf scale z' → dbm_empty z = false → dbm_empty z' = false → clockNames z = clockNames z' →
  zoneKey scale z = zoneKey scale z' → bounds z = bounds z' ∧ dim z = dim z'.
Proof.
  intros D D' He He' En. rewrite !zoneKey_eq, En by done. intros E. apply app_inv_head in E. injection E as E.
  split; [by apply printed_bounds_inj|]. by rewrite (zw_dim _ _ D), (zw_dim _ _ D'), En.
Qed.

(** The key of a zone whose clock names hold no separator determines the clocks too. *)
Lemma zoneKey_clocks z z' : dbm_wf scale z → dbm_wf scale z' → dbm_empty z = false → dbm_empty z' = false →
  (∀ n : jsstr, n ∈ clockNames z ∨ n ∈ clockNames z' → COMMA_UNIT ∉ n ∧ BAR ∉ n) → zoneKey scale z = zoneKey scale z' → clockNames z = clockNames z'.
Proof.
  intros D D' He He' Hn. rewrite !zoneKey_eq by done. intros E.
  assert (∀ l : list jsstr, (∀ n, n ∈ l → BAR ∉ n) → BAR ∉ join (js ",") l) as Hb.
  { induction l as [|x l IH]; intros Hl; [apply not_elem_of_nil|]. destruct l as [|y l]; [apply Hl; left|]. rewrite join_cons, !not_elem_of_app.
    split_and!; [apply Hl; left|by intros [?|?%not_elem_of_nil]%elem_of_cons|apply IH; intros; apply Hl; by right]. }
  apply split_first in E as [E1 E2]; [|apply Hb; intros; by apply Hn; auto..]. apply printed_bounds_inj in E2; [|done|done].
  assert (length (clockNames z) = length (clockNames z')) as El.
  { pose proof (zw_closed _ _ D) as (S & _). pose proof (zw_closed _ _ D') as (S' & _). unfold square in S, S'.
    rewrite E2, S', (zw_dim _ _ D), (zw_dim _ _ D') in S. nia. }
  destruct (clockNames z) as [|n l], (clockNames z') as [|n' l']; try done. change (js ",") with [COMMA_UNIT] in E1.
  apply join_unit_inj in E1; [done| | |done|done]; intros; apply Hn; auto.
Qed.
End Keys.

(** The key prints three decimals of a second, so below a millisecond it is coarser than [equals]:
    two zones a fifth of a millisecond apart share a key. *)
Definition short_zone (b : Z) : dbm := create 1 [js "t"] [b] [Fin b].

Lemma zoneKey_rounds : zoneKey 1 (short_zone 100000) = zoneKey 1 (short_zone 300000) ∧
  dbm_equals 1 (short_zone 100000) (short_zone 300000) = false.
Proof. split; vm_compute; reflexivity. Qed.
