(* ===== verification/Outcomes.v ===== *)
(** * The ways one firing can end

    [src/typescript/src/verification/analysis/branch-outcomes.ts]: the deposits of every branch of
    an output specification, and of its timeout, as the analyses read them. *)
From S2P Require Import Prelude.
From S2P Require Import CodePoints.
From S2P Require Import Net.
From S2P Require Import Out.
From S2P Require Import OutSpec.
From S2P Require Import Transition.
From S2P Require Import Context.
#[local] Open Scope Z_scope.

Inductive deposit :=
| DepositTokens (count : Z)
| DepositDrained (from : place).

Record outcome_deposit := OutcomeDeposit { od_place : place; od_deposit : deposit }.

Record outcome := Outcome { deposits : list outcome_deposit; oc_places : list place }.

Inductive outcome_error := XorInTimeout (transition : jsstr).

Definition ONE : deposit := DepositTokens 1.

(** The keys are the names of the places. *)
Definition makeOutcome (m : list (jsstr * outcome_deposit)) : outcome :=
  let sorted := stable_sort (λ x y, compareCodePoints (place_name (od_place x)) (place_name (od_place y)) <=? 0) m.*2 in
  Outcome sorted (set_of (od_place <$> sorted)).

Definition emptyOutcome : outcome := makeOutcome [].

Definition depositCount (d : deposit) (drained : place → Z) : Z :=
  match d with DepositTokens count => count | DepositDrained from => drained from end.

Definition sameDeposit (x y : deposit) : bool :=
  match x, y with
  | DepositTokens a, DepositTokens b => a =? b
  | DepositDrained p, DepositDrained q => bool_decide (place_name p = place_name q)
  | _, _ => false
  end.

Definition sameOutcome (x y : outcome) : bool :=
  (length (deposits x) =? length (deposits y))%nat
  && forallb (λ z : outcome_deposit * outcome_deposit,
       bool_decide (place_name (od_place z.1) = place_name (od_place z.2)) && sameDeposit (od_deposit z.1) (od_deposit z.2))
       (zip (deposits x) (deposits y)).

Section Outcomes.
Context {V : Type}.
Implicit Types (t : transition V).

Definition forwardDeposit t (from : place) : deposit :=
  match js_find (λ s, bool_decide (place_name (in_place s) = place_name from)) (inputSpecs t) with
  | None => DepositTokens 0
  | Some spec =>
      match spec with
      | InOne _ | InExactly _ _ => DepositTokens (requiredCount spec)
      | InAll p | InAtLeast p _ => DepositDrained p
      end
  end.

Fixpoint timeoutDeposits t (o : out) (acc : list (jsstr * outcome_deposit)) : result outcome_error (list (jsstr * outcome_deposit)) :=
  match o with
  | OutPlace p => Ok (map_set (place_name p) (OutcomeDeposit p ONE) acc)
  | OutForwardInput from to =>
      let d := forwardDeposit t from in
      if match d with DepositTokens 0 => true | _ => false end then Ok acc
      else Ok (map_set (place_name to) (OutcomeDeposit to d) acc)
  | OutTimeout _ child => timeoutDeposits t child acc
  | OutAnd children => foldl (λ r c, let* acc := r in timeoutDeposits t c acc) (Ok acc) children
  | OutXor _ => Err (XorInTimeout (t_name t))
  end.

Definition branch_outcome (branch : list place) : outcome :=
  makeOutcome (foldl (λ m p, map_set (place_name p) (OutcomeDeposit p ONE) m) [] branch).

Definition outcomes t : result outcome_error (list outcome) :=
  match outputSpec t with
  | None => Ok [emptyOutcome]
  | Some spec =>
      let result := branch_outcome <$> enumerateBranches spec in
      let result := if bool_decide (length result = 0)%nat then [emptyOutcome] else result in
      match actionTimeout t with
      | None => Ok result
      | Some (_, child) =>
          let* m := timeoutDeposits t child [] in
          let outcome := makeOutcome m in
          Ok (if existsb (λ o, sameOutcome o outcome) result then result else result ++ [outcome])
      end
  end.

(** A place the executor writes on timeout, and the input a forward copies. *)
Record timeout_write := TimeoutWrite { tw_to : jsstr; tw_from : option jsstr }.

Fixpoint timeout_walk (o : out) : list timeout_write :=
  match o with
  | OutPlace p => [TimeoutWrite (place_name p) None]
  | OutForwardInput from to => [TimeoutWrite (place_name to) (Some (place_name from))]
  | OutTimeout _ child => timeout_walk child
  | OutXor children | OutAnd children => flat_map timeout_walk children
  end.
Definition timeoutWrites t : list timeout_write :=
  match actionTimeout t with Some (_, child) => timeout_walk child | None => [] end.

Record drained_forward := DrainedForward { df_transition : jsstr; df_from : jsstr; df_to : jsstr }.

(** The first drained deposit of one list of outcomes. *)
Definition first_drained t (os : list outcome) : option drained_forward :=
  head (o ← os; d ← deposits o;
        match od_deposit d with
        | DepositDrained from => [DrainedForward (t_name t) (place_name from) (place_name (od_place d))]
        | DepositTokens _ => []
        end).

Fixpoint drainedForward (ts : list (transition V)) : result outcome_error (option drained_forward) :=
  match ts with
  | [] => Ok None
  | t :: ts =>
      let* os := outcomes t in
      match first_drained t os with Some f => Ok (Some f) | None => drainedForward ts end
  end.

Definition drainedForwardReason (f : drained_forward) : jsstr :=
  js "transition '" ++ df_transition f ++ js "' forwards its All/AtLeast input '" ++ df_from f ++ js "' to '" ++ df_to f ++ js "' " ++
  js "on timeout, which deposits one token per token drained (IO-014), a marking-dependent count the flat " ++
  js "encodings cannot express; refusing to certify on the linear routes (the state-space " ++
  js "graphs decide it exactly: VER-017 enumeration, Route B)".
End Outcomes.

(** ** Counts *)

(** What the deposits put under a name. *)
Definition total_deposit (drained : place → Z) (ds : list outcome_deposit) (n : jsstr) : Z :=
  foldr (λ d acc, (if decide (place_name (od_place d) = n) then depositCount (od_deposit d) drained else 0) + acc) 0 ds.
Definition deposited (drained : place → Z) (o : outcome) (n : jsstr) : Z := total_deposit drained (deposits o) n.

(** The counts of a map of deposits. *)
Definition map_deposit (drained : place → Z) (m : list (jsstr * outcome_deposit)) (n : jsstr) : Z :=
  match map_get n m with Some d => depositCount (od_deposit d) drained | None => 0 end.

(** The keys of the map are distinct and the names of its places. *)
Definition keyed (m : list (jsstr * outcome_deposit)) : Prop :=
  NoDup m.*1 ∧ ∀ n d, (n, d) ∈ m → place_name (od_place d) = n.

Lemma total_permutation drained ds ds' n : ds ≡ₚ ds' → total_deposit drained ds n = total_deposit drained ds' n.
Proof. induction 1 as [|d l l' H IH|d e l|l1 l2 l3 _ IH1 _ IH2]; cbn [total_deposit foldr] in *; unfold total_deposit in *; lia. Qed.

Lemma total_map drained m n : keyed m → total_deposit drained m.*2 n = map_deposit drained m n.
Proof.
  unfold map_deposit. induction m as [|[k d] m IH]; intros [Hd Hkeys]; [done|]. rewrite !fmap_cons in *. apply NoDup_cons in Hd as [Hn Hd].
  cbn [total_deposit foldr snd fst map_get] in *. unfold total_deposit in IH. rewrite IH by (split; [done|]; intros; apply Hkeys; by right).
  rewrite (Hkeys k d) by left. destruct (decide (k = n)) as [Ek|Hne], (decide (n = k)) as [E|E]; try congruence; [|lia].
  subst. rewrite (proj2 (map_get_None n m)) by done. lia.
Qed.

Lemma keyed_nil : keyed [].
Proof. split; [constructor|]. by intros ?? ?%not_elem_of_nil. Qed.

Lemma keyed_set p d m : keyed m → keyed (map_set (place_name p) (OutcomeDeposit p d) m).
Proof. intros [H1 H2]. split; [by apply NoDup_map_set|]. intros n e [[-> ->]|H]%map_set_entries; auto. Qed.

Lemma makeOutcome_deposited drained m n : keyed m → deposited drained (makeOutcome m) n = map_deposit drained m n.
Proof.
  intros Hm. unfold deposited, makeOutcome. cbn [deposits]. rewrite <- total_map by done. apply total_permutation, stable_sort_Permutation.
Qed.

(** Each place once. *)
Lemma makeOutcome_names m : keyed m → NoDup ((λ d, place_name (od_place d)) <$> deposits (makeOutcome m)).
Proof.
  intros [H1 H2]. unfold makeOutcome. cbn [deposits]. rewrite stable_sort_Permutation.
  assert ((λ d, place_name (od_place d)) <$> m.*2 = m.*1) as ->; [|done]. clear H1. induction m as [|[k d] m IH]; [done|].
  rewrite !fmap_cons. f_equal; [apply H2; left|]. apply IH. intros. apply H2. by right.
Qed.

Lemma sameOutcome_deposited drained x y n : (∀ p q, place_name p = place_name q → drained p = drained q) →
  sameOutcome x y = true → deposited drained x n = deposited drained y n.
Proof.
  intros Hd. unfold sameOutcome, deposited. generalize (deposits x), (deposits y). clear x y. induction l as [|a l IH]; intros [|b l'] [El E]%andb_true_iff; try done.
  cbn [zip zip_with forallb fst snd] in E. apply andb_true_iff in E as [[E1%bool_decide_eq_true E2]%andb_true_iff E3].
  cbn [total_deposit foldr]. unfold total_deposit in IH. rewrite (IH l') by (apply andb_true_iff; split; [exact El|done]). rewrite E1. f_equal.
  case_decide; [|done]. destruct (od_deposit a), (od_deposit b); try done; cbn [sameDeposit depositCount] in *; b2p; [done|by apply Hd].
Qed.

Lemma branch_map drained b m : NoDup (place_name <$> b) → (∀ p, p ∈ b → place_name p ∉ m.*1) → keyed m →
  let m' := foldl (λ m p, map_set (place_name p) (OutcomeDeposit p ONE) m) m b in
  keyed m' ∧ ∀ n, map_deposit drained m' n = if decide (n ∈ place_name <$> b) then 1 else map_deposit drained m n.
Proof.
  revert m. induction b as [|p b IH]; intros m Hb Hm Hk; [done|]. cbn [foldl]. rewrite fmap_cons in Hb. apply NoDup_cons in Hb as [Hp Hb].
  destruct (IH (map_set (place_name p) (OutcomeDeposit p ONE) m) Hb) as [I1 I2]; [|by apply keyed_set|].
  { intros q Hq. rewrite map_set_keys. assert (place_name q ≠ place_name p) by (intros E; apply Hp; rewrite <- E; by apply list_elem_of_fmap_2).
    assert (place_name q ∉ m.*1) by (apply Hm; by right). case_decide; set_solver. }
  split; [done|]. intros n. rewrite I2. unfold map_deposit. rewrite map_get_set, fmap_cons.
  destruct (decide (n ∈ place_name <$> b)); [by rewrite decide_True by (by right)|].
  destruct (decide (n = place_name p)) as [->|Hne]; [by rewrite decide_True by left|]. rewrite decide_False; [done|]. by intros [?|?]%elem_of_cons.
Qed.

Lemma branch_outcome_deposited drained b n : NoDup (place_name <$> b) →
  deposited drained (branch_outcome b) n = if decide (n ∈ place_name <$> b) then 1 else 0.
Proof.
  intros Hb. destruct (branch_map drained b [] Hb) as [K1 K2]; [set_solver|apply keyed_nil|].
  unfold branch_outcome. rewrite makeOutcome_deposited by done. rewrite K2. by case_decide.
Qed.

(** ** The timeout outcome *)

#[local] Arguments ti_getAll {V}.

Section Timeout.
Context {V : Type}.
Implicit Types (t : transition V).

(** What the leaves of a timeout child deposit under a name. *)
Fixpoint leaf_total (drained : place → Z) t (o : out) (n : jsstr) : Z :=
  match o with
  | OutPlace p => if decide (place_name p = n) then 1 else 0
  | OutForwardInput from to => if decide (place_name to = n) then depositCount (forwardDeposit t from) drained else 0
  | OutTimeout _ c => leaf_total drained t c n
  | OutAnd cs => foldr (λ c acc, leaf_total drained t c n + acc) 0 cs
  | OutXor _ => 0
  end.

Definition leaf_names (o : out) : list jsstr := tw_to <$> timeout_walk o.
Definition all_leaf_names (cs : list out) : list jsstr := flat_map leaf_names cs.

Lemma leaf_names_and cs : leaf_names (OutAnd cs) = all_leaf_names cs.
Proof.
  unfold leaf_names, all_leaf_names. cbn [timeout_walk]. induction cs as [|c cs IH]; [done|]. cbn [flat_map]. by rewrite fmap_app, IH.
Qed.

(** A child without alternatives has one branch, its leaves. *)
Lemma branches_leaves o : containsXor o = false → branches o = [leaf_names o].
Proof.
  induction o as [cs IH|cs IH|p|ms c IH|f t] using out_ind'; intros Hx; try done; [|by apply IH].
  rewrite leaf_names_and. cbn [branches]. induction IH as [|c cs Hc _ IHcs]; [done|]. cbn [containsXor existsb] in Hx.
  apply orb_false_iff in Hx as [H1 H2]. cbn [foldr]. rewrite (Hc H1), (IHcs H2). done.
Qed.

(** The map grew by the leaves. *)
Definition grown t (names : list jsstr) (total : (place → Z) → jsstr → Z) (acc m : list (jsstr * outcome_deposit)) : Prop :=
  keyed m ∧ (∀ n, n ∈ m.*1 → n ∈ acc.*1 ∨ n ∈ names) ∧ ∀ drained n, map_deposit drained m n = map_deposit drained acc n + total drained n.

Lemma leaf_total_out drained t o n : n ∉ leaf_names o → leaf_total drained t o n = 0.
Proof.
  induction o as [cs IH|cs IH|p|ms c IH|f to] using out_ind'; intros Hn; [|done| | |].
  - rewrite leaf_names_and in Hn. cbn [leaf_total]. induction IH as [|c cs Hc _ IHcs]; [done|]. unfold all_leaf_names in Hn. cbn [flat_map] in Hn.
    apply not_elem_of_app in Hn as [H1 H2]. cbn [foldr]. by rewrite Hc, IHcs.
  - cbn [leaf_total]. rewrite decide_False; [done|]. intros <-. apply Hn. left.
  - by apply IH.
  - cbn [leaf_total]. rewrite decide_False; [done|]. intros <-. apply Hn. left.
Qed.

Lemma set_deposit drained p d m n : place_name p ∉ m.*1 →
  map_deposit drained (map_set (place_name p) (OutcomeDeposit p d) m) n =
  map_deposit drained m n + (if decide (place_name p = n) then depositCount d drained else 0).
Proof.
  intros Hp. unfold map_deposit. rewrite map_get_set. destruct (decide (n = place_name p)) as [->|Hne].
  - rewrite decide_True, (proj2 (map_get_None _ m)) by done. done.
  - rewrite decide_False by congruence. lia.
Qed.

Lemma timeoutDeposits_spec t o acc : containsXor o = false → NoDup (leaf_names o) → (∀ n, n ∈ leaf_names o → n ∉ acc.*1) → keyed acc →
  ∃ m, timeoutDeposits t o acc = Ok m ∧ grown t (leaf_names o) (λ drained n, leaf_total drained t o n) acc m.
Proof.
  revert acc. induction o as [cs IH|cs IH|p|ms c IH|f to] using out_ind'; intros acc Hx Hd Ha Hk; [|done| |by apply IH|].
  - rewrite leaf_names_and in Hd, Ha. cbn [timeoutDeposits]. revert acc Ha Hk. induction IH as [|c cs Hc _ IHcs]; intros acc Ha Hk.
    { exists acc. split; [done|]. split_and!; [done|auto|]. intros. cbn. lia. }
    cbn [containsXor existsb] in Hx. apply orb_false_iff in Hx as [X1 X2]. unfold all_leaf_names in *. cbn [flat_map] in *.
    apply NoDup_app in Hd as (D1 & D2 & D3).
    destruct (Hc acc X1 D1) as (m1 & E1 & K1 & N1 & T1); [intros; apply Ha, elem_of_app; by left|done|].
    destruct (IHcs X2 D3 m1) as (m2 & E2 & K2 & N2 & T2); [|done|].
    { intros n Hn Hm%N1. destruct Hm as [Hm|Hm]; [by apply (Ha n); [apply elem_of_app; right|]|]. by apply (D2 n). }
    exists m2. cbn [foldl res_bind]. rewrite E1, E2. split; [done|]. split_and!; [done| |].
    + intros n [Hn|Hn]%N2; [apply N1 in Hn as [?|?]; [by left|]|]; right; rewrite leaf_names_and; unfold all_leaf_names; cbn [flat_map]; apply elem_of_app; [by left|].
      right. by rewrite leaf_names_and in Hn.
    + intros drained n. rewrite T2, T1. cbn [leaf_total foldr]. lia.
  - eexists. split; [reflexivity|]. split_and!; [by apply keyed_set| |].
    + intros n [->|Hn]%elem_of_map_set_keys; [right; left|by left].
    + intros drained n. rewrite set_deposit; [done|]. apply Ha. left.
  - cbn [timeoutDeposits]. cbn zeta. destruct (forwardDeposit t f) as [[|c|c]|from] eqn:E.
    1:{ eexists. split; [reflexivity|]. split_and!; [done|auto|]. intros drained n. cbn [leaf_total]. rewrite E. cbn [depositCount]. case_decide; lia. }
    all: eexists; (split; [reflexivity|]); split_and!; [by apply keyed_set| |].
    all: try (intros n [->|Hn]%elem_of_map_set_keys; [right; left|by left]).
    all: intros drained n; rewrite set_deposit by (apply Ha; left); cbn [leaf_total]; by rewrite E.
Qed.

(** The tokens of a list of entries that go to a place. *)
Definition count_entries (n : jsstr) (es : list (place * token V)) : Z := Z.of_nat (length (filter (λ e : place * token V, place_name e.1 = n) es)).

Definition drained_from (input : token_input V) (p : place) : Z := Z.of_nat (length (ti_getAll p input)).

(** The input holds what a firing of [t] consumes. *)
Definition consumed t (input : token_input V) : Prop :=
  ∀ s, s ∈ inputSpecs t → ∃ available, consumptionCount s available = Ok (drained_from input (in_place s)).

Lemma drained_from_name input p q : place_name p = place_name q → drained_from input p = drained_from input q.
Proof. unfold drained_from, ti_getAll. by intros ->. Qed.

Lemma count_entries_app n es es' : count_entries n (es ++ es') = count_entries n es + count_entries n es'.
Proof. unfold count_entries. rewrite filter_app, length_app. lia. Qed.

Lemma forwardDeposit_consumed t input f : consumed t input → place_name f ∈ input_names (inputSpecs t) →
  depositCount (forwardDeposit t f) (drained_from input) = drained_from input f.
Proof.
  intros Hc Hf. unfold forwardDeposit, js_find. destruct (list_find _ (inputSpecs t)) as [[i s]|] eqn:E; cbn [mbind option_bind].
  - apply list_find_Some in E as (E1 & E2%Is_true_true%bool_decide_eq_true & _). apply list_elem_of_lookup_2 in E1.
    destruct (Hc s E1) as [a Ha]. rewrite <- (drained_from_name input (in_place s) f E2). unfold consumptionCount in Ha.
    destruct (a <? requiredCount s); [done|]. cbn [snd]. destruct s; cbn [depositCount requiredCount in_place] in *; congruence.
  - apply list_find_None in E. rewrite Forall_forall in E. unfold input_names in Hf. apply list_elem_of_fmap in Hf as (s & Es & Hs).
    destruct (E s Hs). apply Is_true_true, bool_decide_eq_true. done.
Qed.

Lemma leaf_total_entries t input now o n : consumed t input → containsXor o = false → countTimeouts o = 0 →
  (∀ f g, (f, g) ∈ findForwardInputs o → place_name f ∈ input_names (inputSpecs t)) →
  leaf_total (drained_from input) t o n = count_entries n (timeout_entries input now o).
Proof.
  intros Hc. induction o as [cs IH|cs IH|p|ms c IH|f to] using out_ind'; intros Hx Hn Hf; [|done| | |].
  - cbn [leaf_total timeout_entries]. assert (∀ c, c ∈ cs → leaf_total (drained_from input) t c n = count_entries n (timeout_entries input now c)) as Hall.
    { intros c Hin. rewrite Forall_forall in IH. apply IH; [done|by eapply (existsb_false containsXor cs)| |].
      - cbn [countTimeouts] in Hn. pose proof (countTimeouts_child cs c Hin). pose proof (countTimeouts_nonneg c). lia.
      - intros g g' Hg. apply (Hf g g'). cbn [findForwardInputs]. by eapply elem_of_flat_map. }
    clear -Hall. induction cs as [|c cs IHcs]; [done|]. cbn [foldr flat_map]. rewrite count_entries_app, Hall, IHcs; [done| |left].
    intros d Hd. apply Hall. by right.
  - cbn [leaf_total timeout_entries]. unfold count_entries. rewrite filter_cons, filter_nil. cbn [fst]. by case_decide.
  - cbn [countTimeouts] in Hn. pose proof (countTimeouts_nonneg c). lia.
  - cbn [leaf_total timeout_entries]. rewrite forwardDeposit_consumed by (done || (apply (Hf f to); left)). unfold count_entries, drained_from.
    generalize (ti_getAll f input). intros l. case_decide as E.
    + f_equal. induction l as [|x l IHl]; [done|]. rewrite fmap_cons, filter_cons_True by done. cbn [length]. by f_equal.
    + induction l as [|x l IHl]; [done|]. rewrite fmap_cons, filter_cons_False by done. done.
Qed.
End Timeout.

(** ** Properties *)

Lemma findTimeout_dup_free o ms c : dup_free o → findTimeout o = Some (ms, c) → dup_free c.
Proof.
  induction o as [cs IH|cs IH|p|ms' c' IH|f t] using out_ind'; intros Hd Ht; try done; [| |by injection Ht as -> ->].
  - apply findTimeout_list_Some in Ht as (d & Hin & Ht). rewrite Forall_forall in IH. apply (IH d Hin); [|done].
    destruct Hd as [Hd _]. rewrite foldr_and_Forall, Forall_forall in Hd. by apply Hd.
  - apply findTimeout_list_Some in Ht as (d & Hin & Ht). rewrite Forall_forall in IH. apply (IH d Hin); [|done].
    simpl in Hd. rewrite foldr_and_Forall, Forall_forall in Hd. by apply Hd.
Qed.

Lemma findTimeout_universe o ms c x : findTimeout o = Some (ms, c) → x ∈ universe c → x ∈ universe o.
Proof.
  induction o as [cs IH|cs IH|p|ms' c' IH|f t] using out_ind'; intros Ht Hx; try done; [| |by injection Ht as -> ->].
  all: apply findTimeout_list_Some in Ht as (d & Hin & Ht); rewrite Forall_forall in IH.
  - apply elem_of_universe_and. eauto.
  - apply elem_of_universe_xor. eauto.
Qed.

(** A number of tokens, or the batch of an input. *)
Definition deposit_ok {V} (t : transition V) (d : outcome_deposit) : Prop :=
  match od_deposit d with DepositTokens c => 0 <= c | DepositDrained from => from ∈ in_place <$> inputSpecs t end.

Lemma timeoutDeposits_ok {V} (t : transition V) o acc m : inputs_wf (inputSpecs t) → timeoutDeposits t o acc = Ok m →
  (∀ n d, (n, d) ∈ acc → deposit_ok t d ∧ n = place_name (od_place d)) → ∀ n d, (n, d) ∈ m → deposit_ok t d ∧ n = place_name (od_place d).
Proof.
  intros [_ Hr]. revert acc m. induction o as [cs IH|cs IH|p|ms c IH|f to] using out_ind'; intros acc m E Ha; [|done| |by apply (IH acc)|].
  - cbn [timeoutDeposits] in E. revert acc Ha E. induction IH as [|c cs Hc _ IHcs]; intros acc Ha E; [by injection E as <-|].
    cbn [foldl res_bind] in E. destruct (timeoutDeposits t c acc) as [m1|e] eqn:E1; [by apply (IHcs m1); [apply (Hc acc)|]|].
    exfalso. clear -E. induction cs as [|c' cs IH]; [done|]. by apply IH.
  - injection E as <-. intros n d [[-> ->]|Hd]%map_set_entries; [by split|auto].
  - cbn [timeoutDeposits] in E. cbn zeta in E.
    assert (deposit_ok t (OutcomeDeposit to (forwardDeposit t f))) as Hok.
    { unfold deposit_ok, forwardDeposit. cbn [od_deposit]. destruct (js_find _ _) as [s|] eqn:Es; [|done].
      unfold js_find in Es. destruct (list_find _ _) as [[k y]|] eqn:El; [|done]. injection Es as ->.
      apply list_find_Some in El as (El & _). apply list_elem_of_lookup_2 in El. rewrite Forall_forall in Hr. specialize (Hr s El).
      destruct s; cbn [requiredCount] in *; try lia; by apply (list_elem_of_fmap_2 in_place) in El. }
    destruct (forwardDeposit t f) as [[|c|c]|from]; injection E as <-; [done| | |];
      intros n d [[-> ->]|Hd]%map_set_entries; (split; done) || auto.
Qed.

(** The outcomes of a built transition deposit numbers of tokens into places of its specification. *)
Lemma outcomes_ok {V} (b : builder V) (t : transition V) : (∀ o, b_output b = Some o → inhabited_xors o = true) → build b = Ok t →
  ∃ os, outcomes t = Ok os ∧ ∀ oc d, oc ∈ os → d ∈ deposits oc →
    deposit_ok t d ∧ ∃ o, outputSpec t = Some o ∧ place_name (od_place d) ∈ universe o.
Proof.
  intros Hi Hb. apply build_ok in Hb as [(Hin & _ & Ho & _) ->]; [|done]. unfold outcomes.
  change (outputSpec (built b)) with (b_output b). change (actionTimeout (built b)) with (b_output b ≫= findTimeout).
  destruct (b_output b) as [o|] eqn:Eo.
  2:{ eexists. split; [reflexivity|]. intros oc d ->%list_elem_of_singleton ?%not_elem_of_nil. done. }
  destruct (Ho o eq_refl) as (Hbw & Hn & Hx & _ & Hf). specialize (Hi o eq_refl).
  assert (dup_free o) as Hdf by (apply duplicateInBranch_dup_free; by apply branches_wf_checks in Hbw as [? _]).
  pose proof (enumerateBranches_spec o Hdf) as Hen. cbn zeta.
  assert (∀ m oc d, oc = makeOutcome m → d ∈ deposits oc → ∃ n, (n, d) ∈ m) as Hmake.
  { intros m oc d -> Hd. unfold makeOutcome in Hd. cbn [deposits] in Hd. rewrite stable_sort_Permutation in Hd.
    apply list_elem_of_fmap in Hd as ([n d'] & -> & Hd). by exists n. }
  set (acts := if bool_decide _ then _ else _).
  assert (∀ oc d, oc ∈ acts → d ∈ deposits oc → deposit_ok (built b) d ∧ ∃ o', Some o = Some o' ∧ place_name (od_place d) ∈ universe o') as Hacts.
  { intros oc d Hoc Hd. unfold acts in Hoc. case_bool_decide.
    { apply list_elem_of_singleton in Hoc as ->. by apply not_elem_of_nil in Hd. }
    apply list_elem_of_fmap in Hoc as (ps & -> & Hps). destruct (Hmake _ _ d eq_refl Hd) as [n Hin'].
    assert (∀ m, (∀ x, x ∈ m → ∃ p, p ∈ ps ∧ x.2 = OutcomeDeposit p ONE) → ∀ l, (∀ p, p ∈ l → p ∈ ps) →
      ∀ x, x ∈ foldl (λ m p, map_set (place_name p) (OutcomeDeposit p ONE) m) m l → ∃ p, p ∈ ps ∧ x.2 = OutcomeDeposit p ONE) as Hfold.
    { intros m Hm l. revert m Hm. induction l as [|p l IH]; intros m Hm Hl; [done|]. cbn [foldl]. apply IH; [|intros; apply Hl; by right].
      intros [k v] [[-> ->]|Hk]%map_set_entries; [exists p; split; [apply Hl; left|done]|by apply Hm]. }
    destruct (Hfold [] ltac:(by intros ? ?%not_elem_of_nil) ps ltac:(done) (n, d) Hin') as (p & Hp & Ed). cbn in Ed. subst d.
    split; [unfold deposit_ok; cbn; lia|]. exists o. split; [done|]. cbn. by eapply enumerates_universe. }
  cbn [mbind option_bind]. destruct (findTimeout o) as [[ms c]|] eqn:Et; [|by eexists].
  destruct (findTimeout_ok o ms c Hn Hx Et) as (X1 & X2 & X3). pose proof (findTimeout_dup_free o ms c Hdf Et) as Hdc.
  destruct (timeoutDeposits_spec (built b) c []) as (m & Em & K & N & _); [done| |by intros ? _ ?%not_elem_of_nil|apply keyed_nil|].
  { apply (dup_free_branches c); [done|]. rewrite branches_leaves by done. left. }
  rewrite Em. cbn [res_bind]. eexists. split; [reflexivity|]. intros oc d Hoc Hd.
  destruct (existsb _ _); [by apply (Hacts oc)|]. apply elem_of_app in Hoc as [Hoc|Hoc]; [by apply (Hacts oc)|]. apply list_elem_of_singleton in Hoc as ->.
  destruct (Hmake m _ d eq_refl Hd) as [n Hnd].
  destruct (timeoutDeposits_ok (built b) c [] m Hin Em) with (n := n) (d := d) as [H1 ->]; [by intros ?? ?%not_elem_of_nil|done|].
  split; [done|]. exists o. split; [done|]. apply (findTimeout_universe o ms c); [done|].
  destruct (N (place_name (od_place d))) as [?|Hleaf]; [by apply (list_elem_of_fmap_2 fst _ (_, _) Hnd)|by apply not_elem_of_nil in H|].
  apply (branches_universe c (leaf_names c)); [rewrite branches_leaves by done; left|done].
Qed.

(** What a firing of a built transition can deposit. *)
Lemma outcomes_total {V} (b : builder V) (t : transition V) o :
  b_output b = Some o → inhabited_xors o = true → build b = Ok t →
  ∃ os, outcomes t = Ok os ∧ (length os ≤ length (branches o) + 1)%nat ∧
    (∀ oc, oc ∈ os → NoDup ((λ d, place_name (od_place d)) <$> deposits oc)) ∧
    (∀ i br, branches o !! i = Some br → ∃ oc, os !! i = Some oc ∧
       ∀ drained n, deposited drained oc n = if decide (n ∈ br) then 1 else 0) ∧
    (actionTimeout t = None → length os = length (branches o)) ∧
    ∀ ms c, actionTimeout t = Some (ms, c) → ∃ oc, oc ∈ os ∧ ((length (branches o) < length os)%nat → last os = Some oc) ∧
      ∀ drained n, (∀ p q, place_name p = place_name q → drained p = drained q) → deposited drained oc n = leaf_total drained t c n.
Proof.
  intros Eo Hi Hb. apply build_ok in Hb as [(_ & _ & Ho & _) ->]; [|intros o'; rewrite Eo; by intros [= <-]].
  destruct (Ho o Eo) as (Hbw & Hn & Hx & _ & Hf).
  assert (dup_free o) as Hdf by (apply duplicateInBranch_dup_free; by apply branches_wf_checks in Hbw as [? _]).
  destruct (enumerateBranches_spec o Hdf) as [En _].
  assert (length (enumerateBranches o) = length (branches o)) as Elen by (rewrite <- En; unfold names; by rewrite length_fmap).
  assert (∀ i br, branches o !! i = Some br → ∃ oc, (branch_outcome <$> enumerateBranches o) !! i = Some oc ∧
       ∀ drained n, deposited drained oc n = if decide (n ∈ br) then 1 else 0) as Hbr.
  { intros i br Ei. rewrite <- En in Ei. unfold names in Ei. rewrite list_lookup_fmap in Ei. rewrite list_lookup_fmap.
    destruct (enumerateBranches o !! i) as [ps|] eqn:Eps; [|done]. injection Ei as <-. eexists. split; [reflexivity|].
    intros drained n. apply branch_outcome_deposited. apply (dup_free_branches o); [done|]. rewrite <- En.
    apply list_elem_of_fmap. exists ps. split; [done|]. by eapply list_elem_of_lookup_2. }
  assert (∀ oc, oc ∈ branch_outcome <$> enumerateBranches o → NoDup ((λ d, place_name (od_place d)) <$> deposits oc)) as Hnd.
  { intros oc (ps & -> & Hps)%list_elem_of_fmap. apply makeOutcome_names.
    destruct (branch_map (λ _, 0) ps []) as [K _]; [|set_solver|apply keyed_nil|done].
    apply (dup_free_branches o); [done|]. rewrite <- En. apply list_elem_of_fmap. by exists ps. }
  unfold outcomes. change (outputSpec (built b)) with (b_output b). rewrite Eo. cbn zeta.
  rewrite (bool_decide_eq_false_2 (length _ = 0)%nat).
  2:{ rewrite length_fmap, Elen. intros E0. by apply length_zero_iff_nil, branches_nonempty in E0. }
  change (actionTimeout (built b)) with (b_output b ≫= findTimeout). rewrite Eo. cbn [mbind option_bind].
  destruct (findTimeout o) as [[ms c]|] eqn:Et.
  2:{ eexists. split; [reflexivity|]. rewrite length_fmap. split_and!; try done. lia. }
  destruct (findTimeout_ok o ms c Hn Hx Et) as (X1 & X2 & X3).
  pose proof (findTimeout_dup_free o ms c Hdf Et) as Hdc.
  destruct (timeoutDeposits_spec (built b) c []) as (m & Em & K & _ & T); [done| |by intros ? _ ?%not_elem_of_nil|apply keyed_nil|].
  { apply (dup_free_branches c); [done|]. rewrite branches_leaves by done. left. }
  rewrite Em. cbn [res_bind].
  assert (∀ drained n, deposited drained (makeOutcome m) n = leaf_total drained (built b) c n) as Hdep.
  { intros drained n. rewrite makeOutcome_deposited, T by done. unfold map_deposit at 1. cbn [map_get]. lia. }
  destruct (existsb _ _) eqn:Ex.
  - eexists. split; [reflexivity|]. rewrite length_fmap. split_and!; [lia|exact Hnd|exact Hbr|done|]. intros ms' c' [= <- <-].
    apply existsb_exists in Ex as (oc & Hoc & Hs). exists oc. split_and!; [by apply list_elem_of_In|lia|]. intros drained n Hc.
    rewrite <- Hdep. by apply sameOutcome_deposited.
  - eexists. split; [reflexivity|]. rewrite length_app, length_fmap. cbn [length]. split_and!; [lia| | |done|].
    + intros oc [Hoc|Hoc]%elem_of_app; [by apply Hnd|]. apply list_elem_of_singleton in Hoc as ->. by apply makeOutcome_names.
    + intros i br Ei. destruct (Hbr i br Ei) as (oc & Eoc & Hoc). exists oc. split; [|done]. by apply lookup_app_l_Some.
    + intros ms' c' [= <- <-]. exists (makeOutcome m). split_and!; [apply elem_of_app; right; left|by rewrite last_snoc|by intros; apply Hdep].
Qed.

(** The timeout's deposit in the entries the executor writes. *)
Lemma outcomes_spec {V} (b : builder V) (t : transition V) o :
  b_output b = Some o → inhabited_xors o = true → build b = Ok t →
  ∃ os, outcomes t = Ok os ∧ (length os ≤ length (branches o) + 1)%nat ∧
    (∀ oc, oc ∈ os → NoDup ((λ d, place_name (od_place d)) <$> deposits oc)) ∧
    (∀ i br, branches o !! i = Some br → ∃ oc, os !! i = Some oc ∧
       ∀ drained n, deposited drained oc n = if decide (n ∈ br) then 1 else 0) ∧
    (actionTimeout t = None → length os = length (branches o)) ∧
    ∀ ms c, actionTimeout t = Some (ms, c) → ∃ oc, oc ∈ os ∧ ((length (branches o) < length os)%nat → last os = Some oc) ∧
      ∀ input now n, consumed t input → deposited (drained_from input) oc n = count_entries n (timeout_entries input now c).
Proof.
  intros Eo Hi Hb. destruct (outcomes_total b t o Eo Hi Hb) as (os & E & H1 & H2 & H3 & H4 & H5). exists os. split_and!; try done.
  intros ms c Et. destruct (H5 ms c Et) as (oc & Hoc & Hl & Hd). exists oc. split_and!; [done|done|]. intros input now n Hc. rewrite Hd by apply drained_from_name.
  apply build_ok in Hb as [(_ & _ & Ho & _) ->]; [|intros o'; rewrite Eo; by intros [= <-]].
  destruct (Ho o Eo) as (_ & Hn & Hx & _ & Hf). unfold built in Et. cbn [actionTimeout] in Et. rewrite Eo in Et. cbn [mbind option_bind] in Et.
  destruct (findTimeout_ok o ms c Hn Hx Et) as (X1 & X2 & X3). apply leaf_total_entries; [done|done|done|]. intros f g Hfg%X3. by eapply Hf.
Qed.

(** The outcomes the analyses explore are what a firing of a built transition can deposit. The
    [i]-th outcome puts one token into each place of the [i]-th branch of the output specification
    and nothing elsewhere; when the transition has a timeout, one outcome deposits, under every
    name, exactly as many tokens as the executor's timeout production writes there for the tokens
    the firing consumed (a forward moves the whole batch); there is no other outcome; and no
    outcome lists a place twice. *)
Theorem outcomes_exact {V} (b : builder V) (t : transition V) o :
  b_output b = Some o → inhabited_xors o = true → build b = Ok t →
  ∃ os, outcomes t = Ok os ∧ (length os ≤ length (branches o) + 1)%nat ∧
    (∀ oc, oc ∈ os → NoDup ((λ d, place_name (od_place d)) <$> deposits oc)) ∧
    (∀ i br, branches o !! i = Some br → ∃ oc, os !! i = Some oc ∧
       ∀ drained n, deposited drained oc n = if decide (n ∈ br) then 1 else 0) ∧
    (actionTimeout t = None → length os = length (branches o)) ∧
    ∀ ms c, actionTimeout t = Some (ms, c) → ∃ oc, oc ∈ os ∧ ((length (branches o) < length os)%nat → last os = Some oc) ∧
      ∀ input now n, consumed t input → deposited (drained_from input) oc n = count_entries n (timeout_entries input now c).
Proof. apply outcomes_spec. Qed.

Definition example_input : token_input unit :=
  ti_add (Place 1 (js "slot")) (Token None 1) (ti_add (Place 0 (js "in")) (Token (Some ()) 7) (ti_add (Place 0 (js "in")) (Token (Some ()) 9) [])).

Lemma outcomes_exact_witness : ∃ os oc, outcomes (built example_builder) = Ok os ∧ length os = 3%nat ∧ oc ∈ os ∧
  deposited (drained_from example_input) oc (js "retry") = 2 ∧ deposited (drained_from example_input) oc (js "ok") = 0.
Proof.
  destruct (outcomes_exact example_builder (built example_builder)
    (OutXor [OutPlace (Place 2 (js "ok")); OutTimeout 30 (OutForwardInput (Place 0 (js "in")) (Place 3 (js "retry")))]))
    as (os & E & _ & _ & _ & _ & T); [reflexivity|reflexivity|reflexivity|].
  assert (length os = 3%nat) as L by (vm_compute in E; by injection E as <-).
  destruct (T 30 (OutForwardInput (Place 0 (js "in")) (Place 3 (js "retry"))) eq_refl) as (oc & Hin & _ & D).
  assert (consumed (built example_builder) example_input) as Hc.
  { intros s [->|[->|[]%not_elem_of_nil]%elem_of_cons]%elem_of_cons; [exists 2|exists 1]; reflexivity. }
  exists os, oc. split; [exact E|]. split; [exact L|]. split; [exact Hin|].
  split; [rewrite (D example_input 0 (js "retry") Hc)|rewrite (D example_input 0 (js "ok") Hc)]; reflexivity.
Defined.
