(* ===== verification/StateClass.v ===== *)
(** * State classes

    [src/typescript/src/verification/analysis/state-class.ts], [environment-analysis-mode.ts] and the
    firing rule of [state-class-graph.ts]: enabling, the two halves of a firing, the canonical clock
    order, the initial class and the successor of a class. Transitions are their positions in
    [net.transitions]. *)
From S2P Require Import Prelude.
From S2P Require Import CodePoints.
From S2P Require Import Net.
From S2P Require Import Out.
From S2P Require Import Transition.
From S2P Require Import MarkingState.
From S2P Require Import Dbm.
From S2P Require Import Outcomes.
From S2P Require Import PetriNet.
From S2P Require Import CompiledNet.
#[local] Open Scope Z_scope.

(** ** Environment modes *)

Inductive environment_mode :=
| AlwaysAvailable
| Bounded (maxTokens : Z)
| Arrivals (minTokens maxTokens : Z)
| Ignore.

Inductive mode_error :=
| MaxTokensNegative
| MaxTokensNotNatural (got : Z)
| ArrivalsBounds (first second : Z).

Definition alwaysAvailable : environment_mode := AlwaysAvailable.
Definition bounded (maxTokens : Z) : result mode_error environment_mode :=
  if maxTokens <? 0 then Err MaxTokensNegative else Ok (Bounded maxTokens).
Definition arrivals (first : Z) (second : option Z) : result mode_error environment_mode :=
  match second with
  | None => if first <? 0 then Err (MaxTokensNotNatural first) else Ok (Arrivals 0 first)
  | Some second => if (first <? 0) || (second <? first) then Err (ArrivalsBounds first second) else Ok (Arrivals first second)
  end.
Definition ignore : environment_mode := Ignore.

(** ** Classes *)

Record state_class := StateClass {
  sc_marking : marking_state;
  firingDomain : dbm;
  enabledTransitions : list nat;
  readyEarliest : list lower_bound
}.

Inductive scg_error :=
| ArrivalsNotModelled (where_ : string)
| ScgMarking (e : marking_error)
| ScgInput (e : in_error)
| ScgDomain (e : dbm_error)
| ScgOutcome (e : outcome_error)
| ScgPassthrough (transition : jsstr)
| ScgStubborn (transition : jsstr)
| ScgStopped.

Definition lift {E A} (f : E → scg_error) (r : result E A) : result scg_error A :=
  match r with Ok a => Ok a | Err e => Err (f e) end.

Definition sc_isEmpty (c : state_class) : bool := isEmpty (firingDomain c).

(** [indexOf]: the position, or [-1]. *)
Definition transitionIndex (i : nat) (c : state_class) : Z :=
  match find_index (λ j, (j =? i)%nat) (enabledTransitions c) with Some k => Z.of_nat k | None => -1 end.

Definition sc_canFire (i : nat) (c : state_class) : bool :=
  let idx := transitionIndex i c in
  if idx <? 0 then false else negb (jnum_ltb (getUpperBound (firingDomain c) idx) (Fin 0)).

Definition sc_equals (scale : Z) (c c' : state_class) : bool :=
  bool_decide (ms_toString (sc_marking c) = ms_toString (sc_marking c')) && dbm_equals scale (firingDomain c) (firingDomain c').

Definition sc_toString (scale : Z) (c : state_class) : jsstr :=
  js "StateClass{" ++ ms_toString (sc_marking c) ++ js ", " ++ dbm_toString scale (firingDomain c) ++ js "}".

(** ** The canonical order *)

(** [null] when the names are in order already. *)
Definition canonicalOrder (names : list jsstr) : option (list nat) :=
  let name i := default [] (names !! i) in
  if forallb (λ i, 0 <=? compareCodePoints (name i) (name (i - 1)%nat)) (seq 1 (length names - 1)) then None
  else Some (stable_sort (λ a b, (let c := compareCodePoints (name a) (name b) in
                                  if c =? 0 then Z.of_nat a - Z.of_nat b else c) <=? 0) (seq 0 (length names))).

Definition permute {A} (items : list A) (order : list nat) : list A := omap (λ i, items !! i) order.

(** ** Firing *)

(** [for (x of l) if (!f(x)) return false; return true;] *)
Fixpoint every {E A} (f : A → result E bool) (l : list A) : result E bool :=
  match l with
  | [] => Ok true
  | x :: l => let* b := f x in if b then every f l else Ok false
  end.

(** A loop over a list that may throw. *)
Definition fold_result {E A B} (f : B → A → result E B) (b : B) (l : list A) : result E B :=
  foldl (λ r x, let* b := r in f b x) (Ok b) l.

Definition inputRequiredCount (s : in_spec) : Z :=
  match s with InOne _ => 1 | InExactly _ n => n | InAll _ => 1 | InAtLeast _ m => m end.

Definition inputConsumeCount (s : in_spec) (available : Z) : result in_error Z := consumptionCount s available.

Section Firing.
Context {V : Type}.
Variables (scale : Z) (ts : list (transition V)) (env : list jsstr) (mode : environment_mode).
Implicit Types (t : transition V) (m : marking_state).

Definition checkPlaceEnabled (p : place) (required : Z) m : result scg_error bool :=
  if bool_decide (place_name p ∈ env)
  then match mode with
       | AlwaysAvailable => Ok true
       | Bounded k => Ok (required <=? k)
       | Ignore => Ok (required <=? ms_tokens p m)
       | Arrivals _ _ => Err (ArrivalsNotModelled "StateClassGraph")
       end
  else Ok (required <=? ms_tokens p m).

Definition sc_isEnabled t m : result scg_error bool :=
  let* inputs := every (λ s, checkPlaceEnabled (in_place s) (inputRequiredCount s) m) (inputSpecs t) in
  if negb inputs then Ok false
  else
    let* rs := every (λ p, checkPlaceEnabled p 1 m) (reads t) in
    if negb rs then Ok false
    else Ok (forallb (λ p, negb (ms_hasTokens p m)) (inhibitors t)).

Definition consumeFromPlace (p : place) (count : Z) (builder : marking_state) : result scg_error marking_state :=
  if bool_decide (place_name p ∈ env)
  then match mode with Ignore => lift ScgMarking (removeTokens p count builder) | _ => Ok builder end
  else lift ScgMarking (removeTokens p count builder).

Definition consume_spec m (builder : marking_state) (s : in_spec) : result scg_error marking_state :=
  let available := ms_tokens (in_place s) m in
  if available <? inputRequiredCount s then Ok builder
  else let* toConsume := lift ScgInput (inputConsumeCount s available) in
       consumeFromPlace (in_place s) toConsume builder.

Definition consumeInputs m t : result scg_error marking_state :=
  let* builder := fold_result (consume_spec m) (copyFrom m ms_empty) (inputSpecs t) in
  fold_result (λ builder p, lift ScgMarking (set_tokens p 0 builder)) builder (resets t).

(** The tokens the firing takes from [from]. *)
Definition drained m t (from : place) : result scg_error Z :=
  match js_find (λ s, bool_decide (place_name (in_place s) = place_name from)) (inputSpecs t) with
  | None => Ok 0
  | Some s =>
      if bool_decide (place_name (in_place s) ∈ env) && match mode with Ignore => false | _ => true end
      then Ok (requiredCount s)
      else
        let available := ms_tokens (in_place s) m in
        if available <? requiredCount s then Ok available else lift ScgInput (inputConsumeCount s available)
  end.

Definition produce_deposit m t (builder : marking_state) (d : outcome_deposit) : result scg_error marking_state :=
  let* count := match od_deposit d with DepositTokens count => Ok count | DepositDrained from => drained m t from end in
  if 0 <? count then lift ScgMarking (addTokens (od_place d) count builder) else Ok builder.

Definition produceOutputs m intermediate t (o : outcome) : result scg_error marking_state :=
  fold_result (produce_deposit m t) (copyFrom intermediate ms_empty) (deposits o).

Fixpoint find_enabled_from m (i : nat) (l : list (transition V)) : result scg_error (list nat) :=
  match l with
  | [] => Ok []
  | t :: l =>
      let* b := sc_isEnabled t m in
      let* rest := find_enabled_from m (S i) l in
      Ok (if b then i :: rest else rest)
  end.
Definition findEnabledTransitions m : result scg_error (list nat) := find_enabled_from m 0 ts.

(** ** Clocks *)

Definition clockTiming (untimed : bool) t : timing := if untimed then immediate else t_timing t.
Definition name_at (i : nat) : jsstr := from_option t_name [] (ts !! i).
(** In seconds, which is the model's unit times [1000] per millisecond. *)
Definition lower_at (untimed : bool) (i : nat) : Z := from_option (λ t, earliest (clockTiming untimed t) * millisecond scale) 0 (ts !! i).
Definition upper_at (untimed : bool) (i : nat) : jnum := from_option (λ t, Fin (latest (clockTiming untimed t) * millisecond scale)) (Fin 0) (ts !! i).

(** The class whose clocks [z] has: earliest times first, then time passes. *)
Definition finish_class m (enabled : list nat) (z : dbm) : state_class :=
  StateClass m (letTimePass scale z) enabled ((λ k, getLowerBound z (Z.of_nat k)) <$> seq 0 (length enabled)).

Definition initialStateClass (untimed : bool) m : result scg_error state_class :=
  let* found := findEnabledTransitions m in
  let enabled := match canonicalOrder (name_at <$> found) with None => found | Some order => permute found order end in
  Ok (finish_class m enabled (create scale (name_at <$> enabled) (lower_at untimed <$> enabled) (upper_at untimed <$> enabled))).

(** ** Successors *)

Record virtual_transition := VirtualTransition { vt_transition : nat; branchIndex : nat; vt_outcome : outcome }.

Definition expandTransition (i : nat) t : result scg_error (list virtual_transition) :=
  let* os := lift ScgOutcome (outcomes t) in
  Ok (imap (λ b o, VirtualTransition i b o) os).

Record enabling_gate := EnablingGate { between : nat → bool; after : nat → bool }.

Definition gate_between (gate : option enabling_gate) (i : nat) : bool := match gate with Some g => between g i | None => true end.
Definition gate_after (gate : option enabling_gate) (l : list nat) : list nat :=
  match gate with Some g => filter (λ i, after g i = true) l | None => l end.

(** [t !== transition && newEnabledAll.includes(t) && isEnabled(t, intermediate) && gate]: the positions of the clocks kept. *)
Fixpoint persistent_from (intermediate : marking_state) (gate : option enabling_gate) (fired : nat) (newEnabledAll : list nat)
    (k : nat) (enabled : list nat) : result scg_error (list (nat * nat)) :=
  match enabled with
  | [] => Ok []
  | i :: enabled =>
      let* keep := if negb (i =? fired)%nat && bool_decide (i ∈ newEnabledAll)
                   then match ts !! i with
                        | Some t => let* b := sc_isEnabled t intermediate in Ok (b && gate_between gate i)
                        | None => Ok false
                        end
                   else Ok false in
      let* rest := persistent_from intermediate gate fired newEnabledAll (S k) enabled in
      Ok (if keep then (i, k) :: rest else rest)
  end.

Definition computeSuccessor (current : state_class) (fired : virtual_transition) (untimed : bool) (gate : option enabling_gate)
    (t : transition V) : result scg_error state_class :=
  let i := vt_transition fired in
  let* intermediate := consumeInputs (sc_marking current) t in
  let* newMarking := produceOutputs (sc_marking current) intermediate t (vt_outcome fired) in
  let* found := findEnabledTransitions newMarking in
  let newEnabledAll := gate_after gate found in
  let* kept := persistent_from intermediate gate i newEnabledAll 0 (enabledTransitions current) in
  let persistent := kept.*1 in
  let newlyEnabled := filter (λ j, j ∉ persistent) newEnabledAll in
  let* firedDBM := lift ScgDomain (dbm_fireTransition scale (firingDomain current) (transitionIndex i current)
                     (name_at <$> newlyEnabled) (lower_at untimed <$> newlyEnabled) (upper_at untimed <$> newlyEnabled) kept.*2) in
  let allEnabled := persistent ++ newlyEnabled in
  Ok (match canonicalOrder (name_at <$> allEnabled) with
      | None => finish_class newMarking allEnabled firedDBM
      | Some order => finish_class newMarking (permute allEnabled order) (permuted order firedDBM)
      end).
End Firing.

(** * The state-class graph

    [StateClassGraph] of [src/typescript/src/verification/analysis/state-class-graph.ts]: the
    breadth-first construction with deduplication by key and its queries. A class of the graph is
    its position in [stateClasses]; the set of keys is the key set of the class map. A stubborn-set
    selector, the answers of the deadline and which transitions carry [passthrough] are arguments. *)
#[local] Open Scope Z_scope.

Record branch_edge := BranchEdge { be_branch : nat; be_target : nat }.

(** The arrays and maps of the construction. *)
Record exploration := Exploration {
  x_classes : list state_class;
  x_map : list (jsstr * nat);
  x_edges : list (list (nat * list branch_edge))
}.

Record scg := Scg {
  g_classes : list state_class;
  g_transitions : list (list (nat * list branch_edge));
  g_complete : bool;
  g_expanded : nat
}.

Section Build.
Context {V : Type}.
Variables (scale : Z) (ts : list (transition V)) (env : list jsstr) (mode : environment_mode) (untimed : bool).

Definition classKey (c : state_class) : jsstr := ms_toString (sc_marking c) ++ js "|" ++ zoneKey scale (firingDomain c).

(** [tEdges.get(transition).push(edge)], creating the entry. *)
Definition push_edge (i : nat) (e : branch_edge) (m : list (nat * list branch_edge)) : list (nat * list branch_edge) :=
  map_set i (default [] (map_get i m) ++ [e]) m.

(** Adds one successor of class [k]: its edge, and the class itself when its key is new. *)
Definition add_successor (k : nat) (vt : virtual_transition) (successor : state_class) (x : exploration) : exploration :=
  if sc_isEmpty successor then x
  else
    let key := classKey successor in
    let edge target := alter (push_edge (vt_transition vt) (BranchEdge (branchIndex vt) target)) k (x_edges x) in
    match map_get key (x_map x) with
    | None => let target := length (x_classes x) in
              Exploration (x_classes x ++ [successor]) (map_set key target (x_map x)) (edge target ++ [[]])
    | Some canonical => Exploration (x_classes x) (x_map x) (edge canonical)
    end.

Definition expand_transition (k : nat) (current : state_class) (x : exploration) (i : nat) : result scg_error exploration :=
  match ts !! i with
  | None => Ok x
  | Some t =>
      let* vts := expandTransition i t in
      fold_result (λ x vt, let* successor := computeSuccessor scale ts env mode current vt untimed None t in
                           Ok (add_successor k vt successor x)) x vts
  end.

Definition expand_class (stubborn : option (marking_state → list nat → result scg_error (list nat))) (k : nat) (current : state_class) (x : exploration)
    : result scg_error exploration :=
  let* expand := match stubborn with
                 | None => Ok (enabledTransitions current)
                 | Some select => select (sc_marking current) (enabledTransitions current)
                 end in
  fold_result (expand_transition k current) x expand.

(** The loop; [None] when the fuel is spent. [stops n] is whether the deadline's [n]-th check throws. *)
Fixpoint explore (stubborn : option (marking_state → list nat → result scg_error (list nat))) (stops : option (nat → bool)) (maxClasses : Z)
    (fuel : nat) (x : exploration) (expanded : nat) : result scg_error (option scg) :=
  match fuel with
  | O => Ok None
  | S fuel =>
      match x_classes x !! expanded with
      | None => Ok (Some (Scg (x_classes x) (x_edges x) true expanded))
      | Some current =>
          if maxClasses <=? Z.of_nat (length (x_classes x)) then Ok (Some (Scg (x_classes x) (x_edges x) false expanded))
          else if match stops with Some s => (S expanded mod 16 =? 0)%nat && s (S expanded / 16)%nat | None => false end then Err ScgStopped
          else let* x := expand_class stubborn expanded current x in
               explore stubborn stops maxClasses fuel x (S expanded)
      end
  end.

Definition start_exploration (c : state_class) : exploration := Exploration [c] [(classKey c, 0%nat)] [[]].

Definition lift_compile {A} (r : result compile_error A) : result scg_error A :=
  match r with
  | Ok a => Ok a
  | Err (PassthroughWithOutput t) | Err (CompileDuplicateInput t _) => Err (ScgPassthrough t)
  end.

Definition scg_build (isPassthrough : nat → bool) (stubborn : option (marking_state → list nat → result scg_error (list nat))) (stops : option (nat → bool))
    (initialMarking : marking_state) (maxClasses : Z) : result scg_error (option scg) :=
  do* lift_compile (requireOutputProducingActions isPassthrough 0 ts);
  if match mode with Arrivals _ _ => negb (bool_decide (env = [])) | _ => false end then Err (ArrivalsNotModelled "StateClassGraph.build")
  else
    let* c := initialStateClass scale ts env mode untimed initialMarking in
    explore stubborn stops maxClasses (S (Z.to_nat maxClasses)) (start_exploration c) 0.
End Build.

(** ** Queries *)

Definition g_size (g : scg) : nat := length (g_classes g).
Definition isComplete (g : scg) : bool := g_complete g.
Definition expandedCount (g : scg) : nat := g_expanded g.

Definition targets (m : list (nat * list branch_edge)) : list nat := y ← m; be_target <$> y.2.
Definition outgoingBranchEdges (g : scg) (k : nat) : list (nat * list branch_edge) := default [] (g_transitions g !! k).
Definition scg_successors (g : scg) (k : nat) : list nat := set_of (targets (outgoingBranchEdges g k)).
Definition scg_predecessors (g : scg) (k : nat) : list nat :=
  set_of (y ← imap pair (g_transitions g); if bool_decide (k ∈ targets y.2) then [y.1] else []).
Definition branchEdges (g : scg) (k i : nat) : list branch_edge := default [] (map_get i (outgoingBranchEdges g k)).
Definition scg_enabledTransitions (g : scg) (k : nat) : list nat := (outgoingBranchEdges g k).*1.
Definition edgeCount (g : scg) : nat := foldl (λ n m, foldl (λ n y, (n + length y.2)%nat) n m) 0%nat (g_transitions g).

Definition same_marking (m : marking_state) (c : state_class) : bool := bool_decide (ms_toString (sc_marking c) = ms_toString m).
Definition classesWithMarking (g : scg) (m : marking_state) : list state_class := filter (λ c, same_marking m c = true) (g_classes g).
Definition isReachable (g : scg) (m : marking_state) : bool := existsb (same_marking m) (g_classes g).
Definition reachableMarkings (g : scg) : list jsstr := set_of ((λ c, ms_toString (sc_marking c)) <$> g_classes g).

Definition scg_toString (g : scg) : jsstr :=
  js "StateClassGraph[classes=" ++ number_string (Z.of_nat (g_size g)) ++ js ", edges=" ++ number_string (Z.of_nat (edgeCount g))
  ++ js ", complete=" ++ js (if isComplete g then "true" else "false") ++ js "]".
