(* ===== verification/ClassSteps.v ===== *)
(** * The firing rule of the analyses, on counts

    What enabling and the two halves of a firing of [StateClass] do to the counts of a marking, and
    that they do not throw on the transitions a builder makes; the timed states of a class and the
    states its successor holds, under a gate that may hold enabled transitions back. *)
From S2P Require Import Prelude.
From S2P Require Import Net.
From S2P Require Import Out.
From S2P Require Import Transition.
From S2P Require Import MarkingState.
From S2P Require Import Outcomes.
From S2P Require Import StateClass.
From S2P Require Import CodePoints.
From S2P Require Import Dbm.
From S2P Require Import DbmZone.
#[local] Open Scope Z_scope.

(** What a consuming arc takes of the tokens its place holds. *)
Definition take_count (s : in_spec) (available : Z) : Z :=
  match s with InOne _ => 1 | InExactly _ n => n | InAll _ | InAtLeast _ _ => available end.

Definition mode_ok (env : list jsstr) (mode : environment_mode) : Prop := match mode with Arrivals _ _ => env = [] | _ => True end.

(** Every deposit is of a number of tokens. *)
Definition outcome_ok (o : outcome) : Prop := ∀ d, d ∈ deposits o → match od_deposit d with DepositTokens c => 0 <= c | DepositDrained _ => True end.

Lemma forallb_ext_eq {A} (f g : A → bool) l : (∀ x, f x = g x) → forallb f l = forallb g l.
Proof. intros E. induction l as [|x l IH]; [done|]. cbn [forallb]. by rewrite E, IH. Qed.

Section Counts.
Context {V : Type}.
Variables (env : list jsstr) (mode : environment_mode).
Hypothesis Hmode : mode_ok env mode.
Implicit Types (t : transition V) (c : jsstr → Z) (m : marking_state).

(** The environment places the analysis refills. *)
Definition supplied (n : jsstr) : bool := bool_decide (n ∈ env) && match mode with Ignore => false | _ => true end.

Definition can_take (n : jsstr) (required : Z) c : bool :=
  if supplied n then match mode with Bounded k => required <=? k | _ => true end else required <=? c n.

Definition enabled_counts t c : bool :=
  forallb (λ s, can_take (place_name (in_place s)) (requiredCount s) c) (inputSpecs t)
  && forallb (λ p, can_take (place_name p) 1 c) (reads t)
  && forallb (λ p, c (place_name p) <=? 0) (inhibitors t).

Definition spec_of t (n : jsstr) : option in_spec := js_find (λ s, bool_decide (place_name (in_place s) = n)) (inputSpecs t).

(** The tokens a firing removes from a place. *)
Definition removed t c (n : jsstr) : Z :=
  match spec_of t n with
  | Some s => if supplied n || (c n <? requiredCount s) then 0 else take_count s (c n)
  | None => 0
  end.

Definition intermediate_counts t c (n : jsstr) : Z := if decide (n ∈ place_name <$> resets t) then 0 else c n - removed t c n.

(** The tokens a timeout forward moves. *)
Definition drained_counts t c (from : place) : Z :=
  match spec_of t (place_name from) with
  | None => 0
  | Some s => if supplied (place_name from) then requiredCount s
              else if c (place_name from) <? requiredCount s then c (place_name from) else take_count s (c (place_name from))
  end.

Definition fired_counts t (o : outcome) c (n : jsstr) : Z := intermediate_counts t c n + deposited (drained_counts t c) o n.

(** ** Enabling *)

Lemma checkPlaceEnabled_spec p r m : checkPlaceEnabled env mode p r m = Ok (can_take (place_name p) r (count_of m)).
Proof.
  unfold checkPlaceEnabled, can_take, supplied. unfold mode_ok in Hmode. rewrite count_tokens. case_bool_decide as E; [|done].
  destruct mode; try done. subst env. by apply not_elem_of_nil in E.
Qed.

Lemma every_ok {E A} (f : A → result E bool) (g : A → bool) l : (∀ x, x ∈ l → f x = Ok (g x)) → every f l = Ok (forallb g l).
Proof.
  induction l as [|x l IH]; intros H; [done|]. cbn [every forallb]. rewrite H by left. cbn [res_bind].
  destruct (g x); [|done]. rewrite IH; [done|]. intros. apply H. by right.
Qed.

Lemma inputRequired_eq s : inputRequiredCount s = requiredCount s.
Proof. by destruct s. Qed.

Lemma sc_isEnabled_spec t m : sc_isEnabled env mode t m = Ok (enabled_counts t (count_of m)).
Proof.
  unfold sc_isEnabled, enabled_counts.
  rewrite (every_ok _ (λ s, can_take (place_name (in_place s)) (requiredCount s) (count_of m)))
    by (intros; by rewrite checkPlaceEnabled_spec, inputRequired_eq). cbn [res_bind].
  destruct (forallb _ (inputSpecs t)); [|done]. cbn [negb].
  rewrite (every_ok _ (λ p, can_take (place_name p) 1 (count_of m))) by (intros; apply checkPlaceEnabled_spec). cbn [res_bind].
  destruct (forallb _ (reads t)); [|done]. cbn [negb andb]. f_equal. induction (inhibitors t) as [|p l IH]; [done|].
  cbn [forallb]. rewrite IH. f_equal. unfold ms_hasTokens. rewrite count_tokens.
  destruct (Z.ltb_spec 0 (count_of m (place_name p))), (Z.leb_spec (count_of m (place_name p)) 0); done || lia.
Qed.

Lemma enabled_counts_ext t c c' : (∀ n, c n = c' n) → enabled_counts t c = enabled_counts t c'.
Proof.
  intros E. unfold enabled_counts, can_take. f_equal; [f_equal|]; apply forallb_ext_eq; intros; by rewrite ?E.
Qed.

(** ** Consumption *)

Lemma consumption_take s z : requiredCount s <= z → inputConsumeCount s z = Ok (take_count s z).
Proof. intros H. unfold inputConsumeCount, consumptionCount. rewrite (proj2 (Z.ltb_ge _ _)) by done. by destruct s. Qed.

Lemma take_bounds s z : 1 <= requiredCount s → requiredCount s <= z → 0 <= take_count s z <= z.
Proof. destruct s; cbn [requiredCount take_count]; lia. Qed.

Lemma spec_of_elem t s : NoDup (input_names (inputSpecs t)) → s ∈ inputSpecs t → spec_of t (place_name (in_place s)) = Some s.
Proof.
  unfold spec_of, input_names. induction (inputSpecs t) as [|x l IH]; intros Hd Hs; [by apply not_elem_of_nil in Hs|].
  rewrite fmap_cons in Hd. apply NoDup_cons in Hd as [Hn Hd]. unfold js_find in *. cbn [list_find]. destruct (decide _) as [E|E].
  - apply Is_true_true, bool_decide_eq_true in E. apply elem_of_cons in Hs as [->|Hs]; [done|]. destruct Hn. rewrite E. by apply (list_elem_of_fmap_2 (λ s, place_name (in_place s))).
  - apply elem_of_cons in Hs as [->|Hs]; [by destruct E; apply Is_true_true, bool_decide_eq_true|]. specialize (IH Hd Hs).
    destruct (list_find _ l) as [[k y]|]; done.
Qed.

Lemma spec_of_Some t n s : spec_of t n = Some s → s ∈ inputSpecs t ∧ place_name (in_place s) = n.
Proof.
  unfold spec_of, js_find. destruct (list_find _ _) as [[k y]|] eqn:E; [|done]. intros [= ->]. apply list_find_Some in E as (E1 & E2 & _).
  split; [by eapply list_elem_of_lookup_2|]. by apply Is_true_true, bool_decide_eq_true in E2.
Qed.

Lemma spec_of_None t n : spec_of t n = None → n ∉ input_names (inputSpecs t).
Proof.
  unfold spec_of, js_find. destruct (list_find _ _) as [[k y]|] eqn:E; [done|]. intros _ Hn. apply list_find_None in E. rewrite Forall_forall in E.
  unfold input_names in Hn. apply list_elem_of_fmap in Hn as (s & -> & Hs). destruct (E s Hs). by apply Is_true_true, bool_decide_eq_true.
Qed.

Lemma removed_bounds t c n : inputs_wf (inputSpecs t) → 0 <= c n → 0 <= removed t c n <= c n.
Proof.
  intros [_ Hr] Hc. unfold removed. destruct (spec_of t n) as [s|] eqn:E; [|lia]. apply spec_of_Some in E as [Hs <-].
  rewrite Forall_forall in Hr. specialize (Hr s Hs). destruct (supplied _ || _) eqn:Eb; [lia|]. b2p. by apply take_bounds.
Qed.

Lemma consumeFromPlace_spec p z b : ms_wf b → 0 <= z <= count_of b (place_name p) →
  ∃ b', consumeFromPlace env mode p z b = Ok b' ∧ ms_wf b' ∧
    ∀ n, count_of b' n = if decide (n = place_name p) then count_of b n - (if supplied n then 0 else z) else count_of b n.
Proof.
  intros Hb Hz. unfold consumeFromPlace, supplied.
  assert (∃ b', lift ScgMarking (removeTokens p z b) = Ok b' ∧ ms_wf b' ∧ ∀ n, count_of b' n = if decide (n = place_name p) then count_of b n - z else count_of b n) as Hrem.
  { pose proof (removeTokens_ok p z b) as Hok. destruct (removeTokens p z b) as [b'|] eqn:E; [|by destruct Hok; lia].
    apply removeTokens_spec in E as [H1 H2]; [|done|lia]. exists b'. split_and!; [done|done|]. intros n. rewrite H2. unfold update. case_decide; by subst. }
  assert (∃ b', Ok b = (Ok b' : result scg_error marking_state) ∧ ms_wf b' ∧ ∀ n, count_of b' n = if decide (n = place_name p) then count_of b n - 0 else count_of b n) as Hkeep.
  { exists b. split_and!; [done|done|]. intros n. case_decide; lia. }
  case_bool_decide as E; [destruct mode|].
  1-3: destruct Hkeep as (b' & E1 & E2 & E3); exists b'; split_and!; [done|done|]; intros n; rewrite E3; case_decide as F; [|done]; subst; by rewrite bool_decide_eq_true_2.
  all: destruct Hrem as (b' & E1 & E2 & E3); exists b'; split_and!; [done|done|]; intros n; rewrite E3; case_decide as F; [|done]; subst.
  - by rewrite bool_decide_eq_true_2.
  - by rewrite bool_decide_eq_false_2.
Qed.

(** The inputs already consumed. *)
Lemma consume_loop t m specs pre : ms_wf m → inputs_wf (inputSpecs t) → inputSpecs t = pre ++ specs →
  ∀ b, ms_wf b → (∀ n, count_of b n = count_of m n - (if decide (n ∈ input_names pre) then removed t (count_of m) n else 0)) →
  ∃ b', fold_result (consume_spec env mode m) b specs = Ok b' ∧ ms_wf b' ∧
    ∀ n, count_of b' n = count_of m n - removed t (count_of m) n.
Proof.
  intros Hm Hwf. revert pre. induction specs as [|s specs IH]; intros pre Ep b Hb Hc.
  { exists b. split_and!; [done|done|]. intros n. rewrite Hc. case_decide as E; [done|]. unfold removed.
    destruct (spec_of t n) as [s|] eqn:Es; [|done]. apply spec_of_Some in Es as [Hs <-]. destruct E. rewrite Ep, app_nil_r in Hs.
    by apply (list_elem_of_fmap_2 (λ s, place_name (in_place s))). }
  destruct Hwf as [Hd Hr]. set (n0 := place_name (in_place s)).
  assert (s ∈ inputSpecs t) as Hs by (rewrite Ep; apply elem_of_app; right; left).
  assert (spec_of t n0 = Some s) as Esp by (by apply spec_of_elem).
  assert (1 <= requiredCount s) as Hreq by (rewrite Forall_forall in Hr; by apply Hr).
  assert (n0 ∉ input_names pre) as Hn0.
  { rewrite Ep in Hd. unfold input_names in Hd. rewrite fmap_app, NoDup_app in Hd. destruct Hd as (_ & Hdis & _). intros Hin. apply (Hdis n0 Hin). left. }
  assert (count_of b n0 = count_of m n0) as Eb by (rewrite Hc, decide_False by done; lia).
  assert (∃ b', consume_spec env mode m b s = Ok b' ∧ ms_wf b' ∧
    ∀ n, count_of b' n = count_of m n - (if decide (n ∈ input_names (pre ++ [s])) then removed t (count_of m) n else 0)) as (b1 & E1 & W1 & C1).
  { assert (∀ n, n ∈ input_names (pre ++ [s]) ↔ n ∈ input_names pre ∨ n = n0) as Hin.
    { intros n. unfold input_names. by rewrite fmap_app, elem_of_app, fmap_cons, fmap_nil, list_elem_of_singleton. }
    unfold consume_spec. rewrite count_tokens, inputRequired_eq. cbn zeta. fold n0. destruct (Z.ltb_spec (count_of m n0) (requiredCount s)) as [Hlt|Hge].
    - exists b. split_and!; [done|done|]. intros n. rewrite Hc. specialize (Hin n). destruct (decide (n ∈ input_names (pre ++ [s]))) as [F|F], (decide (n ∈ input_names pre)) as [G|G]; try done; try tauto.
      apply Hin in F as [F| ->]; [done|]. unfold removed. rewrite Esp. rewrite (proj2 (Z.ltb_lt _ _)) by done. by rewrite orb_true_r.
    - rewrite consumption_take by done. cbn [lift res_bind]. pose proof (take_bounds s _ Hreq Hge).
      destruct (consumeFromPlace_spec (in_place s) (take_count s (count_of m n0)) b Hb) as (b' & E & W & C); [by fold n0; rewrite Eb|].
      exists b'. split_and!; [done|done|]. intros n. rewrite C. fold n0. specialize (Hin n). case_decide as F.
      + subst n. rewrite decide_True by tauto. rewrite Eb. unfold removed. rewrite Esp, (proj2 (Z.ltb_ge _ _)) by done. rewrite orb_false_r. done.
      + rewrite Hc. destruct (decide (n ∈ input_names (pre ++ [s]))), (decide (n ∈ input_names pre)); done || tauto. }
  destruct (IH (pre ++ [s])) with (b := b1) as (b2 & E2 & W2 & C2); [by rewrite <- app_assoc|done|done|].
  exists b2. split_and!; [|done|done]. unfold fold_result in *. cbn [foldl res_bind]. by rewrite E1.
Qed.

Lemma reset_loop (ps : list place) b : ms_wf b →
  ∃ b', fold_result (λ b p, lift ScgMarking (set_tokens p 0 b)) b ps = Ok b' ∧ ms_wf b' ∧
    ∀ n, count_of b' n = if decide (n ∈ place_name <$> ps) then 0 else count_of b n.
Proof.
  revert b. induction ps as [|p ps IH]; intros b Hb; [by exists b|].
  destruct (set_tokens p 0 b) as [b1|] eqn:E; [|done]. pose proof (set_tokens_spec p 0 b b1 Hb E) as [W1 C1].
  destruct (IH b1 W1) as (b2 & E2 & W2 & C2). exists b2. split_and!; [|done|].
  - unfold fold_result in *. cbn [foldl res_bind]. by rewrite E.
  - intros n. rewrite C2, C1. unfold update. rewrite fmap_cons.
    destruct (decide (n ∈ place_name <$> ps)); [by rewrite decide_True by (by right)|].
    destruct (decide (n = place_name p)) as [->|]; [by rewrite decide_True by left|]. rewrite decide_False; [done|]. by intros [?|?]%elem_of_cons.
Qed.

Lemma consumeInputs_spec t m : ms_wf m → inputs_wf (inputSpecs t) →
  ∃ m', consumeInputs env mode m t = Ok m' ∧ ms_wf m' ∧ ∀ n, count_of m' n = intermediate_counts t (count_of m) n.
Proof.
  intros Hm Hwf. destruct (copyFrom_spec m Hm) as [W0 C0].
  destruct (consume_loop t m (inputSpecs t) [] Hm Hwf eq_refl (copyFrom m ms_empty) W0) as (b & E & W & C).
  { intros n. rewrite C0. rewrite decide_False; [lia|]. apply not_elem_of_nil. }
  destruct (reset_loop (resets t) b W) as (b' & E' & W' & C'). exists b'. split_and!; [|done|].
  - unfold consumeInputs. by rewrite E.
  - intros n. rewrite C', C. done.
Qed.

(** ** Production *)

Lemma drained_spec t m from : drained env mode m t from = Ok (drained_counts t (count_of m) from).
Proof.
  unfold drained, drained_counts. fold (spec_of t (place_name from)). destruct (spec_of t (place_name from)) as [s|] eqn:E; [|done].
  apply spec_of_Some in E as [_ Es]. unfold supplied. rewrite Es. destruct (_ && _); [done|]. rewrite count_tokens, Es. cbn zeta.
  destruct (Z.ltb_spec (count_of m (place_name from)) (requiredCount s)) as [|H]; [done|]. by rewrite consumption_take.
Qed.

Lemma drained_nonneg t c from : inputs_wf (inputSpecs t) → (∀ n, 0 <= c n) → 0 <= drained_counts t c from.
Proof.
  intros [_ Hr] Hc. unfold drained_counts. destruct (spec_of t (place_name from)) as [s|] eqn:E; [|lia]. apply spec_of_Some in E as [Hs <-].
  rewrite Forall_forall in Hr. specialize (Hr s Hs). destruct (supplied _); [lia|]. specialize (Hc (place_name (in_place s))).
  destruct (Z.ltb_spec (c (place_name (in_place s))) (requiredCount s)) as [|H]; [lia|]. by apply take_bounds.
Qed.

Lemma produce_loop t m (ds : list outcome_deposit) b : ms_wf m → inputs_wf (inputSpecs t) → ms_wf b →
  (∀ d, d ∈ ds → match od_deposit d with DepositTokens c => 0 <= c | DepositDrained _ => True end) →
  ∃ b', fold_result (produce_deposit env mode m t) b ds = Ok b' ∧ ms_wf b' ∧
    ∀ n, count_of b' n = count_of b n + total_deposit (drained_counts t (count_of m)) ds n.
Proof.
  intros Hm Hwf. revert b. induction ds as [|d ds IH]; intros b Hb Hd.
  { exists b. split_and!; [done|done|]. intros n. cbn. lia. }
  set (z := depositCount (od_deposit d) (drained_counts t (count_of m))).
  assert (0 <= z) as Hz.
  { unfold z. specialize (Hd d ltac:(left)). destruct (od_deposit d); cbn [depositCount]; [done|]. apply drained_nonneg; [done|]. intros n. by apply count_nonneg. }
  assert (∃ b1, produce_deposit env mode m t b d = Ok b1 ∧ ms_wf b1 ∧
    ∀ n, count_of b1 n = count_of b n + (if decide (place_name (od_place d) = n) then z else 0)) as (b1 & E1 & W1 & C1).
  { unfold produce_deposit.
    assert (match od_deposit d with DepositTokens count => Ok count | DepositDrained from => drained env mode m t from end = Ok z) as ->.
    { unfold z. destruct (od_deposit d); [done|]. apply drained_spec. }
    cbn [res_bind]. destruct (Z.ltb_spec 0 z) as [Hpos|Hnp].
    - pose proof (addTokens_ok (od_place d) z b Hz) as Hok. destruct (addTokens (od_place d) z b) as [b1|] eqn:E; [|done].
      apply addTokens_spec in E as [W C]; [|done]. exists b1. split_and!; [done|done|]. intros n. rewrite C. unfold update. repeat case_decide; subst; try done; lia.
    - exists b. split_and!; [done|done|]. intros n. case_decide; lia. }
  destruct (IH b1 W1) as (b2 & E2 & W2 & C2); [intros; apply Hd; by right|]. exists b2. split_and!; [|done|].
  - unfold fold_result in *. cbn [foldl res_bind]. by rewrite E1.
  - intros n. rewrite C2, C1. cbn [total_deposit foldr]. fold (total_deposit (drained_counts t (count_of m)) ds n). fold z. lia.
Qed.

Lemma produceOutputs_spec t m m1 o : ms_wf m → ms_wf m1 → inputs_wf (inputSpecs t) → outcome_ok o →
  ∃ m', produceOutputs env mode m m1 t o = Ok m' ∧ ms_wf m' ∧
    ∀ n, count_of m' n = count_of m1 n + deposited (drained_counts t (count_of m)) o n.
Proof.
  intros Hm Hm1 Hwf Ho. destruct (copyFrom_spec m1 Hm1) as [W0 C0].
  destruct (produce_loop t m (deposits o) (copyFrom m1 ms_empty) Hm Hwf W0 Ho) as (b & E & W & C).
  exists b. split_and!; [done|done|]. intros n. rewrite C, C0. done.
Qed.
End Counts.

(** * The state classes are exact

    The times-to-fire semantics of a net (waiting, and firing a transition whose time has come), and
    the theorem that the successor of a class holds exactly the states one firing of that
    transition reaches from the states of the class. *)
#[local] Open Scope Z_scope.

(** ** Orders *)

Definition at_ (l : list nat) (k : nat) : nat := default 0%nat (l !! k).

Lemma permute_lookup {A} (items : list A) order k : Forall (λ i, i < length items)%nat order →
  permute items order !! k = order !! k ≫= λ i, items !! i.
Proof.
  unfold permute. revert k. induction order as [|o order IH]; intros k Ho; [done|]. apply Forall_cons in Ho as [Ho Hr].
  destruct (lookup_lt_is_Some_2 items o Ho) as [x E]. cbn [omap list_omap]. rewrite E. destruct k as [|k]; [by cbn; rewrite E|].
  cbn [lookup list_lookup]. by apply IH.
Qed.

Lemma permute_seq {A} (items : list A) : permute items (seq 0 (length items)) = items.
Proof.
  apply list_eq. intros k. rewrite permute_lookup by (apply Forall_forall; intros i [_ ?]%elem_of_seq; lia).
  destruct (decide (k < length items)%nat) as [H|H].
  - by rewrite lookup_seq_lt by done.
  - rewrite lookup_seq_ge by lia. cbn. symmetry. apply lookup_ge_None. lia.
Qed.

Lemma permute_Permutation {A} (items : list A) order : order ≡ₚ seq 0 (length items) → permute items order ≡ₚ items.
Proof. intros H. rewrite <- (permute_seq items) at 2. unfold permute. by rewrite H. Qed.

Lemma canonicalOrder_Permutation names order : canonicalOrder names = Some order → order ≡ₚ seq 0 (length names).
Proof. unfold canonicalOrder. destruct (forallb _ _); [done|]. intros [= <-]. apply stable_sort_Permutation. Qed.

(** The list in canonical order. *)
Definition canonical {A} (names : list jsstr) (items : list A) : list A :=
  match canonicalOrder names with None => items | Some order => permute items order end.

Lemma canonical_Permutation {A} names (items : list A) : length names = length items → canonical names items ≡ₚ items.
Proof.
  intros E. unfold canonical. destruct (canonicalOrder names) as [order|] eqn:Eo; [|done].
  apply permute_Permutation. rewrite <- E. by apply canonicalOrder_Permutation.
Qed.

Section Steps.
Context {V : Type}.
Variables (scale : Z) (ts : list (transition V)) (env : list jsstr) (mode : environment_mode) (untimed : bool).
Hypothesis Hscale : 0 < scale.
Hypothesis Hmode : mode_ok env mode.
Hypothesis Hinputs : ∀ t, t ∈ ts → inputs_wf (inputSpecs t).
Hypothesis Htimings : ∀ t, t ∈ ts → timing_ok (t_timing t).
Implicit Types (c : jsstr → Z) (m : marking_state) (i j : nat) (t : transition V).

Abbreviation lo := (lower_at scale ts untimed).
Abbreviation hi := (upper_at scale ts untimed).

Definition enabled_at c i : bool := match ts !! i with Some t => enabled_counts env mode t c | None => false end.
Definition enabled_list c : list nat := filter (λ i, enabled_at c i = true) (seq 0 (length ts)).

Lemma elem_of_enabled c i : i ∈ enabled_list c ↔ enabled_at c i = true.
Proof.
  unfold enabled_list. rewrite list_elem_of_filter, elem_of_seq. split; [tauto|]. intros H. split; [done|]. unfold enabled_at in H.
  destruct (ts !! i) eqn:E; [|done]. apply lookup_lt_Some in E. lia.
Qed.

Lemma NoDup_enabled c : NoDup (enabled_list c).
Proof. apply NoDup_filter, NoDup_seq. Qed.

Lemma enabled_list_ext c c' : (∀ n, c n = c' n) → enabled_list c = enabled_list c'.
Proof.
  intros E. unfold enabled_list. apply list_filter_iff. intros i. unfold enabled_at. destruct (ts !! i); [|done]. by rewrite (enabled_counts_ext env mode _ c c').
Qed.

(** ** The timed net *)

(** Counts by name, and the time to fire of every enabled transition. *)
Record tstate := TState { ts_counts : jsstr → Z; to_fire : nat → Z }.

(** Time passes, while no enabled transition is due. *)
Definition wait_step (s s' : tstate) : Prop :=
  ∃ δ, 0 <= δ ∧ (∀ n, ts_counts s' n = ts_counts s n) ∧
    ∀ i, enabled_at (ts_counts s) i = true → δ <= to_fire s i ∧ to_fire s' i = to_fire s i - δ.

(** The clock of [j] keeps running across a firing of [i]. *)
Definition persists c (i j : nat) : bool :=
  negb (j =? i)%nat && enabled_at c j && match ts !! i with Some t => enabled_at (intermediate_counts env mode t c) j | None => false end.

(** Transition [i] is due and fires, ending in [o]; the clocks that do not persist restart. *)
Definition fire_step (i : nat) (o : outcome) (s s' : tstate) : Prop :=
  ∃ t, ts !! i = Some t ∧ enabled_at (ts_counts s) i = true ∧ to_fire s i = 0 ∧
    (∀ n, ts_counts s' n = fired_counts env mode t o (ts_counts s) n) ∧
    ∀ j, enabled_at (ts_counts s') j = true →
      if persists (ts_counts s) i j then to_fire s' j = to_fire s j else lo j <= to_fire s' j ∧ jle (Fin (to_fire s' j)) (hi j).

(** A state at the start of a run: every enabled transition has just become enabled. *)
Definition start_state m (s : tstate) : Prop :=
  (∀ n, ts_counts s n = count_of m n) ∧ ∀ j, enabled_at (ts_counts s) j = true → lo j <= to_fire s j ∧ jle (Fin (to_fire s j)) (hi j).

(** ** Classes *)

Record class_wf (c : state_class) : Prop := {
  cw_marking : ms_wf (sc_marking c);
  cw_zone : zone_wf scale (firingDomain c);
  cw_enabled : enabledTransitions c ≡ₚ enabled_list (count_of (sc_marking c));
  cw_names : dbm_empty (firingDomain c) = false → clockNames (firingDomain c) = name_at ts <$> enabledTransitions c
}.

(** ** Gates

    A construction may hold more back than the counts do: [g] is whether it lets a transition be
    enabled. With a gate for the class, one for the marking between the halves of a firing and one
    for the marking after it, the definitions above become: *)

Definition live_at (g : nat → bool) c i : bool := enabled_at c i && g i.
Definition live_list (g : nat → bool) c : list nat := filter (λ i, g i = true) (enabled_list c).

Definition gated_wait (g : nat → bool) (s s' : tstate) : Prop :=
  ∃ δ, 0 <= δ ∧ (∀ n, ts_counts s' n = ts_counts s n) ∧
    ∀ i, live_at g (ts_counts s) i = true → δ <= to_fire s i ∧ to_fire s' i = to_fire s i - δ.

Definition gated_persists (gc gb : nat → bool) c (i j : nat) : bool :=
  negb (j =? i)%nat && live_at gc c j && match ts !! i with Some t => live_at gb (intermediate_counts env mode t c) j | None => false end.

Definition gated_fire (gc gb ga : nat → bool) (i : nat) (o : outcome) (s s' : tstate) : Prop :=
  ∃ t, ts !! i = Some t ∧ live_at gc (ts_counts s) i = true ∧ to_fire s i = 0 ∧
    (∀ n, ts_counts s' n = fired_counts env mode t o (ts_counts s) n) ∧
    ∀ j, live_at ga (ts_counts s') j = true →
      if gated_persists gc gb (ts_counts s) i j then to_fire s' j = to_fire s j else lo j <= to_fire s' j ∧ jle (Fin (to_fire s' j)) (hi j).

Record gated_class (g : nat → bool) (c : state_class) : Prop := {
  gc_marking : ms_wf (sc_marking c);
  gc_zone : zone_wf scale (firingDomain c);
  gc_enabled : enabledTransitions c ≡ₚ live_list g (count_of (sc_marking c));
  gc_names : dbm_empty (firingDomain c) = false → clockNames (firingDomain c) = name_at ts <$> enabledTransitions c
}.

(** The gate that holds nothing back. *)
Definition open_gate : nat → bool := λ _, true.

Lemma live_open c i : live_at open_gate c i = enabled_at c i.
Proof. apply andb_true_r. Qed.

Lemma live_list_open c : live_list open_gate c = enabled_list c.
Proof. unfold live_list. induction (enabled_list c) as [|i l IH]; [done|]. rewrite filter_cons. cbn. by f_equal. Qed.

Lemma elem_of_live g c i : i ∈ live_list g c ↔ live_at g c i = true.
Proof. unfold live_list, live_at. rewrite list_elem_of_filter, elem_of_enabled, andb_true_iff. tauto. Qed.

Lemma NoDup_live g c : NoDup (live_list g c).
Proof. apply NoDup_filter, NoDup_enabled. Qed.

Lemma wait_open s s' : gated_wait open_gate s s' ↔ wait_step s s'.
Proof. unfold gated_wait, wait_step. by setoid_rewrite live_open. Qed.

Lemma persists_open c i j : gated_persists open_gate open_gate c i j = persists c i j.
Proof. unfold gated_persists, persists. rewrite live_open. destruct (ts !! i); [|done]. by rewrite live_open. Qed.

Lemma fire_open i o s s' : gated_fire open_gate open_gate open_gate i o s s' ↔ fire_step i o s s'.
Proof. unfold gated_fire, fire_step. setoid_rewrite persists_open. by setoid_rewrite live_open. Qed.

Lemma class_open (c : state_class) : gated_class open_gate c ↔ class_wf c.
Proof. split; intros [H1 H2 H3 H4]; constructor; try done; [by rewrite <- live_list_open|by rewrite live_list_open]. Qed.

(** The states of a class. *)
Definition in_class (c : state_class) (s : tstate) : Prop :=
  (∀ n, count_of (sc_marking c) n = ts_counts s n) ∧ in_zone (firingDomain c) (λ k, to_fire s (at_ (enabledTransitions c) k)).

Lemma lower_ok j : 0 <= lo j ∧ (millisecond scale | lo j).
Proof.
  assert (0 < millisecond scale) by (unfold millisecond; lia). unfold lower_at. destruct (ts !! j) as [t|] eqn:E; cbn [from_option]; [|split; [lia|apply Z.divide_0_r]].
  split; [|apply Z.divide_factor_r]. apply list_elem_of_lookup_2, Htimings, earliest_le_latest in E. apply Z.mul_nonneg_nonneg; [|lia].
  unfold clockTiming. destruct untimed; [done|lia].
Qed.

Lemma upper_ok j b : hi j = Fin b → (millisecond scale | b).
Proof. unfold upper_at. destruct (ts !! j); cbn [from_option]; intros [= <-]; [apply Z.divide_factor_r|apply Z.divide_0_r]. Qed.

Lemma find_enabled_spec m pre l : ts = pre ++ l →
  find_enabled_from env mode m (length pre) l = Ok (filter (λ i, enabled_at (count_of m) i = true) (seq (length pre) (length l))).
Proof.
  revert pre. induction l as [|t l IH]; intros pre Ep; [done|]. cbn [find_enabled_from length seq].
  rewrite (sc_isEnabled_spec env mode Hmode). cbn [res_bind].
  specialize (IH (pre ++ [t])). rewrite length_app in IH. cbn [length] in IH. rewrite Nat.add_1_r in IH. rewrite IH by (by rewrite <- app_assoc).
  cbn [res_bind]. assert (enabled_at (count_of m) (length pre) = enabled_counts env mode t (count_of m)) as E.
  { unfold enabled_at. by rewrite Ep, list_lookup_middle. }
  rewrite filter_cons, E. by destruct (enabled_counts env mode t (count_of m)).
Qed.

Lemma findEnabled_spec m : findEnabledTransitions ts env mode m = Ok (enabled_list (count_of m)).
Proof. apply (find_enabled_spec m [] ts eq_refl). Qed.

(** ** Finishing a class *)

(** Putting the clocks in canonical order. *)
Definition ordered_zone (en : list nat) (z : dbm) : dbm :=
  match canonicalOrder (name_at ts <$> en) with None => z | Some order => permuted order z end.

Lemma ordered_zone_spec (en : list nat) z : zone_wf scale z → (dbm_empty z = false → clockNames z = name_at ts <$> en) →
  let en' := canonical (name_at ts <$> en) en in let z' := ordered_zone en z in
  zone_wf scale z' ∧ (dbm_empty z' = false → clockNames z' = name_at ts <$> en') ∧
  ∀ τ : nat → Z, in_zone z' (λ k, τ (at_ en' k)) ↔ in_zone z (λ k, τ (at_ en k)).
Proof.
  intros Hz Hn. cbn zeta. unfold canonical, ordered_zone. destruct (canonicalOrder (name_at ts <$> en)) as [order|] eqn:Eo; [|done].
  apply canonicalOrder_Permutation in Eo. rewrite length_fmap in Eo.
  destruct (dbm_empty z) eqn:He.
  { unfold permuted. rewrite He. unfold in_zone. rewrite He. split_and!; [done|done|]. intros τ. split; by intros [? _]. }
  specialize (Hn eq_refl). destruct (permuted_spec scale z order Hz He) as (P1 & P2 & P3 & P4).
  { by rewrite Hn, length_fmap. }
  assert (Forall (λ i, i < length en)%nat order) as Hf by (rewrite Forall_forall; intros i Hi; rewrite Eo, elem_of_seq in Hi; lia).
  split_and!; [done| |].
  - intros _. rewrite P3, Hn, length_fmap. apply list_eq. intros k. rewrite !list_lookup_fmap, permute_lookup by done.
    destruct (decide (k < length en)%nat) as [Hk|Hk].
    + rewrite lookup_seq_lt by done. cbn [fmap option_fmap option_map Nat.add].
      destruct (lookup_lt_is_Some_2 order k) as [o E]; [by rewrite Eo, length_seq|]. rewrite E. cbn [default from_option id mbind option_bind].
      rewrite list_lookup_fmap. apply list_elem_of_lookup_2 in E. rewrite Forall_forall in Hf. specialize (Hf o E).
      destruct (lookup_lt_is_Some_2 en o Hf) as [x ->]. done.
    + rewrite lookup_seq_ge by lia. rewrite (lookup_ge_None_2 order) by (rewrite Eo, length_seq; lia). done.
  - intros τ. rewrite <- (P4 (λ k, τ (at_ en k))). split; apply (in_zone_ext scale); try done; intros k Hk;
      rewrite P3, length_fmap, length_seq, Hn, length_fmap in Hk; unfold at_; rewrite permute_lookup by done;
      (destruct (lookup_lt_is_Some_2 order k) as [o E]; [by rewrite Eo, length_seq|]); by rewrite E.
Qed.

Lemma passes_spec (en : list nat) z : zone_wf scale z → (dbm_empty z = false → clockNames z = name_at ts <$> en) →
  zone_wf scale (letTimePass scale z) ∧ (dbm_empty (letTimePass scale z) = false → clockNames (letTimePass scale z) = name_at ts <$> en) ∧
  ∀ τ : nat → Z, in_zone (letTimePass scale z) (λ k, τ (at_ en k)) ↔
    (∀ j, j ∈ en → 0 <= τ j) ∧ ∃ δ, 0 <= δ ∧ in_zone z (λ k, τ (at_ en k) + δ).
Proof.
  intros Hz Hn. destruct (dbm_empty z) eqn:He.
  { unfold letTimePass. rewrite He. unfold in_zone. rewrite He. split_and!; [done|done|]. intros τ. split; [by intros [? _]|by intros (_ & ? & _ & ? & _)]. }
  specialize (Hn eq_refl). destruct (letTimePass_spec scale Hscale z Hz He) as (L1 & L2 & L3).
  split_and!; [done|intros H; by rewrite L2|]. intros τ. rewrite L3. rewrite Hn, length_fmap.
  assert ((∀ k, (k < length en)%nat → 0 <= τ (at_ en k)) ↔ ∀ j, j ∈ en → 0 <= τ j) as ->; [|done]. split.
  - intros H j [k E]%list_elem_of_lookup. specialize (H k (lookup_lt_Some _ _ _ E)). unfold at_ in H. by rewrite E in H.
  - intros H k Hk. destruct (lookup_lt_is_Some_2 en k Hk) as [j E]. unfold at_. rewrite E. apply H. by eapply list_elem_of_lookup_2.
Qed.

(** The states before the last wait. *)
Definition entered m (en : list nat) (z : dbm) (s : tstate) : Prop :=
  (∀ n, count_of m n = ts_counts s n) ∧ in_zone z (λ k, to_fire s (at_ en k)).

Lemma live_at_ext g c c' j : (∀ n, c n = c' n) → live_at g c j = live_at g c' j.
Proof. intros E. unfold live_at, enabled_at. destruct (ts !! j); [|done]. by rewrite (enabled_counts_ext env mode _ c c'). Qed.

Lemma finish_spec g m (en : list nat) z : ms_wf m → zone_wf scale z → (dbm_empty z = false → clockNames z = name_at ts <$> en) →
  en ≡ₚ live_list g (count_of m) →
  let c := finish_class scale m (canonical (name_at ts <$> en) en) (ordered_zone en z) in
  gated_class g c ∧ ∀ s, in_class c s ↔ ∃ s0, entered m en z s0 ∧ gated_wait g s0 s.
Proof.
  intros Hm Hz Hn Hen. cbn zeta. destruct (ordered_zone_spec en z Hz Hn) as (O1 & O2 & O3).
  set (en' := canonical _ en) in *. destruct (passes_spec en' (ordered_zone en z) O1 O2) as (P1 & P2 & P3).
  assert (en' ≡ₚ live_list g (count_of m)) as Hen' by (unfold en'; by rewrite canonical_Permutation by (by rewrite length_fmap)).
  assert (∀ j, j ∈ en' ↔ live_at g (count_of m) j = true) as Hin by (intros j; by rewrite Hen', elem_of_live).
  pose proof (live_at_ext g) as Hext.
  split; [by constructor|]. intros s. unfold in_class, finish_class. cbn [sc_marking firingDomain enabledTransitions]. rewrite P3. split.
  - intros (Hc & Hpos & δ & Hδ & Hin0). exists (TState (ts_counts s) (λ j, to_fire s j + δ)). unfold entered. cbn [ts_counts to_fire]. split; [split; [done|]|].
    + by apply (O3 (λ j, to_fire s j + δ)).
    + exists δ. cbn [ts_counts to_fire]. split_and!; [done|done|]. intros j Hj. split; [|lia].
      assert (0 <= to_fire s j); [|lia]. apply Hpos, Hin. by rewrite (Hext _ (ts_counts s)).
  - intros (s0 & [Hc Hin0] & δ & Hδ & Hcs & Ht). split; [intros n; by rewrite Hcs|].
    assert (∀ j, j ∈ en' → δ <= to_fire s0 j ∧ to_fire s j = to_fire s0 j - δ) as Ht' by (intros j Hj%Hin; apply Ht; by rewrite <- (Hext (count_of m))).
    split; [intros j Hj; destruct (Ht' j Hj) as [? ->]; lia|]. exists δ. split; [done|].
    apply (O3 (to_fire s0)) in Hin0. destruct Hin0 as [He Hin0].
    apply (in_zone_ext scale _ (λ k, to_fire s0 (at_ en' k))); [done| |done]. intros k Hk. rewrite (O2 He), length_fmap in Hk.
    destruct (lookup_lt_is_Some_2 en' k Hk) as [j E]. unfold at_. rewrite E. cbn [default from_option id].
    destruct (Ht' j) as [_ ->]; [by eapply list_elem_of_lookup_2|lia].
Qed.

(** ** The initial class *)

Lemma initial_spec m : ms_wf m →
  ∃ c : state_class, initialStateClass scale ts env mode untimed m = Ok c ∧ class_wf c ∧
    (∃ l, enabledTransitions c = canonical (name_at ts <$> l) l) ∧ sc_marking c = m ∧ ∀ s, in_class c s ↔ ∃ s0, start_state m s0 ∧ wait_step s0 s.
Proof.
  intros Hm. set (en := enabled_list (count_of m)). set (en' := canonical (name_at ts <$> en) en).
  assert (en' ≡ₚ en) as Hp by (unfold en'; by rewrite canonical_Permutation by (by rewrite length_fmap)).
  set (z := create scale (name_at ts <$> en') (lo <$> en') (hi <$> en')).
  destruct (create_spec scale Hscale (name_at ts <$> en') (lo <$> en') (hi <$> en')) as (C1 & C2 & C3);
    [by rewrite !length_fmap|by rewrite !length_fmap| | |].
  { intros b (j & -> & _)%list_elem_of_fmap. apply lower_ok. }
  { intros b (j & E & _)%list_elem_of_fmap. by apply (upper_ok j). }
  fold z in C1, C2, C3. destruct (passes_spec en' z C1 C2) as (P1 & P2 & P3).
  assert (initialStateClass scale ts env mode untimed m = Ok (finish_class scale m en' z)) as E.
  { unfold initialStateClass. rewrite findEnabled_spec. cbn [res_bind]. unfold z, en', canonical. fold en. by destruct (canonicalOrder _). }
  exists (finish_class scale m en' z). split; [done|]. split; [by constructor|]. split; [by exists en|]. split; [done|]. intros s.
  assert (∀ c c' j, (∀ n, c n = c' n) → enabled_at c j = enabled_at c' j) as Hext.
  { intros c c' j E'. unfold enabled_at. destruct (ts !! j); [|done]. by apply enabled_counts_ext. }
  assert (∀ j, j ∈ en' ↔ enabled_at (count_of m) j = true) as Hin by (intros j; by rewrite Hp; apply elem_of_enabled).
  assert (∀ τ : nat → Z, in_zone z (λ k, τ (at_ en' k)) ↔ ∀ j, j ∈ en' → lo j <= τ j ∧ jle (Fin (τ j)) (hi j)) as Hz.
  { intros τ. rewrite C3. split.
    - intros H j [k Ek]%list_elem_of_lookup. specialize (H k (lo j) (hi j)). rewrite !list_lookup_fmap, Ek in H. unfold at_ in H. rewrite Ek in H. by apply H.
    - intros H k l u El Eu. rewrite list_lookup_fmap in El. rewrite list_lookup_fmap in Eu. destruct (en' !! k) as [j|] eqn:Ek; [|done]. simplify_eq/=.
      unfold at_. rewrite Ek. apply H. by eapply list_elem_of_lookup_2. }
  unfold in_class, finish_class. cbn [sc_marking firingDomain enabledTransitions]. rewrite P3. split.
  - intros (Hc & Hpos & δ & Hδ & Hin0). exists (TState (ts_counts s) (λ j, to_fire s j + δ)).
    pose proof (proj1 (Hz (λ j, to_fire s j + δ)) Hin0) as Hin1. cbn beta in Hin1. split.
    + split; cbn [ts_counts to_fire]; [done|]. intros j Hj. apply Hin1, Hin. by rewrite (Hext _ (ts_counts s)).
    + exists δ. cbn [ts_counts to_fire]. split_and!; [done|done|]. intros j Hj. split; [|lia].
      assert (0 <= to_fire s j); [|lia]. apply Hpos, Hin. by rewrite (Hext _ (ts_counts s)).
  - intros (s0 & [Hc Hin0] & δ & Hδ & Hcs & Ht). split; [intros n; by rewrite Hcs, Hc|].
    assert (∀ j, j ∈ en' → δ <= to_fire s0 j ∧ to_fire s j = to_fire s0 j - δ) as Ht'.
    { intros j Hj%Hin. apply Ht. by rewrite (Hext _ (count_of m)). }
    split; [intros j Hj; destruct (Ht' j Hj) as [? ->]; lia|]. exists δ. split; [done|].
    apply (Hz (λ j, to_fire s j + δ)). intros j Hj. destruct (Ht' j Hj) as [_ ->]. rewrite Z.sub_add. apply Hin0. rewrite (Hext _ (count_of m)); [by apply Hin|done].
Qed.

(** ** The successor *)

Definition keeps (fired : nat) (next : list nat) (g : nat → bool) (inter : jsstr → Z) (j : nat) : bool :=
  negb (j =? fired)%nat && bool_decide (j ∈ next) && live_at g inter j.

Lemma persistent_spec m gate fired next k en :
  persistent_from ts env mode m gate fired next k en =
  Ok (filter (λ p : nat * nat, keeps fired next (gate_between gate) (count_of m) p.1 = true) (zip en (seq k (length en)))).
Proof.
  revert k. induction en as [|i en IH]; intros k; [done|]. cbn [persistent_from length seq zip zip_with]. rewrite IH. rewrite filter_cons. cbn [fst].
  assert (keeps fired next (gate_between gate) (count_of m) i = negb (i =? fired)%nat && bool_decide (i ∈ next) &&
            (match ts !! i with Some t => enabled_counts env mode t (count_of m) | None => false end && gate_between gate i)) as -> by done.
  destruct (negb (i =? fired)%nat && bool_decide (i ∈ next)); cbn [res_bind andb]; [|done].
  destruct (ts !! i) as [t|]; [|done]. rewrite (sc_isEnabled_spec env mode Hmode). cbn [res_bind].
  by destruct (enabled_counts env mode t (count_of m) && gate_between gate i).
Qed.

Section Kept.
Variables (fired : nat) (next : list nat) (g : nat → bool) (inter : jsstr → Z) (en : list nat).
Definition kept_pairs : list (nat * nat) := filter (λ p : nat * nat, keeps fired next g inter p.1 = true) (zip en (seq 0 (length en))).

Lemma zip_seq_lookup q j k : zip en (seq 0 (length en)) !! q = Some (j, k) ↔ q = k ∧ en !! k = Some j.
Proof.
  rewrite lookup_zip_Some, lookup_seq. split; [intros (H & -> & _); done|]. intros [-> E]. split_and!; [done|done|by eapply lookup_lt_Some].
Qed.

Lemma kept_elem j k : (j, k) ∈ kept_pairs ↔ en !! k = Some j ∧ keeps fired next g inter j = true.
Proof.
  unfold kept_pairs. rewrite list_elem_of_filter. cbn [fst]. split.
  - intros [H [q Hq]%list_elem_of_lookup]. apply zip_seq_lookup in Hq as [_ ?]. done.
  - intros [E H]. split; [done|]. apply list_elem_of_lookup. exists k. by apply zip_seq_lookup.
Qed.

Lemma filter_fst_sub {A B} (P : A * B → Prop) `{∀ x, Decision (P x)} (l : list (A * B)) : NoDup l.*1 → NoDup (filter P l).*1.
Proof.
  induction l as [|x l IH]; intros Hd; [constructor|]. rewrite fmap_cons in Hd. apply NoDup_cons in Hd as [Hn Hd]. rewrite filter_cons.
  case_decide; [|auto]. rewrite fmap_cons. constructor; [|auto]. intros Hin. apply Hn. apply list_elem_of_fmap in Hin as (y & -> & [_ Hy]%list_elem_of_filter). by apply list_elem_of_fmap_2.
Qed.
Lemma filter_snd_sub {A B} (P : A * B → Prop) `{∀ x, Decision (P x)} (l : list (A * B)) : NoDup l.*2 → NoDup (filter P l).*2.
Proof.
  induction l as [|x l IH]; intros Hd; [constructor|]. rewrite fmap_cons in Hd. apply NoDup_cons in Hd as [Hn Hd]. rewrite filter_cons.
  case_decide; [|auto]. rewrite fmap_cons. constructor; [|auto]. intros Hin. apply Hn. apply list_elem_of_fmap in Hin as (y & -> & [_ Hy]%list_elem_of_filter). by apply list_elem_of_fmap_2.
Qed.

Lemma kept_NoDup : NoDup en → NoDup kept_pairs.*1 ∧ NoDup kept_pairs.*2.
Proof.
  intros Hd. split; [apply filter_fst_sub|apply filter_snd_sub].
  - rewrite fst_zip; [done|]. by rewrite length_seq.
  - rewrite snd_zip; [apply NoDup_seq|]. by rewrite length_seq.
Qed.

Lemma kept_in j : NoDup en → j ∈ kept_pairs.*1 ↔ j ∈ en ∧ keeps fired next g inter j = true.
Proof.
  intros Hd. rewrite list_elem_of_fmap. split.
  - intros ([j' k] & -> & [E H]%kept_elem). split; [by eapply list_elem_of_lookup_2|done].
  - intros [[k E]%list_elem_of_lookup H]. exists (j, k). split; [done|]. by apply kept_elem.
Qed.
End Kept.

(** The transitions enabled after, those that persist first, are the enabled transitions. *)
Lemma kept_then_new (next kept : list nat) : NoDup next → NoDup kept → (∀ j, j ∈ kept → j ∈ next) →
  kept ++ filter (λ j, j ∉ kept) next ≡ₚ next.
Proof.
  intros Hn Hk Hs. apply NoDup_Permutation; [|done|].
  - apply NoDup_app. split_and!; [done| |by apply NoDup_filter]. intros j Hj [Hnj _]%list_elem_of_filter. done.
  - intros j. rewrite elem_of_app, list_elem_of_filter. split; [intros [?|[_ ?]]; auto|]. intros Hj. destruct (decide (j ∈ kept)); [by left|by right].
Qed.

(** The position of a transition among the enabled ones. *)
Definition position (en : list nat) (j : nat) : nat := default 0%nat (find_index (λ i, (i =? j)%nat) en).

Lemma position_lookup (en : list nat) k j : NoDup en → en !! k = Some j → find_index (λ i, (i =? j)%nat) en = Some k.
Proof.
  revert k. induction en as [|i en IH]; intros k Hd E; [done|]. apply NoDup_cons in Hd as [Hn Hd]. cbn [find_index].
  destruct k as [|k]; cbn in E; [injection E as ->; by rewrite Nat.eqb_refl|].
  destruct (Nat.eqb_spec i j) as [->|]; [destruct Hn; by eapply list_elem_of_lookup_2|]. by rewrite (IH k Hd E).
Qed.

Lemma enabled_at_ext c c' j : (∀ n, c n = c' n) → enabled_at c j = enabled_at c' j.
Proof. intros E. unfold enabled_at. destruct (ts !! j); [|done]. by apply enabled_counts_ext. Qed.

Lemma intermediate_ext t c c' n : (∀ n, c n = c' n) → intermediate_counts env mode t c n = intermediate_counts env mode t c' n.
Proof. intros E. unfold intermediate_counts, removed. case_decide; [done|]. destruct (spec_of t n); by rewrite !E. Qed.

Lemma drained_ext t c c' p : (∀ n, c n = c' n) → drained_counts env mode t c p = drained_counts env mode t c' p.
Proof. intros E. unfold drained_counts. destruct (spec_of t (place_name p)); [|done]. by rewrite !E. Qed.

Lemma deposited_ext d d' o n : (∀ p, d p = d' p) → deposited d o n = deposited d' o n.
Proof.
  intros E. unfold deposited. induction (deposits o) as [|x l IH]; [done|]. cbn [total_deposit foldr]. unfold total_deposit in IH. rewrite IH. f_equal.
  case_decide; [|done]. unfold depositCount. destruct (od_deposit x); [done|apply E].
Qed.

Lemma fired_ext t o c c' n : (∀ n, c n = c' n) → fired_counts env mode t o c n = fired_counts env mode t o c' n.
Proof. intros E. unfold fired_counts. rewrite (intermediate_ext t c c') by done. f_equal. apply deposited_ext. intros p. by apply drained_ext. Qed.

Lemma persists_ext gc gb c c' i j : (∀ n, c n = c' n) → gated_persists gc gb c i j = gated_persists gc gb c' i j.
Proof.
  intros E. unfold gated_persists. rewrite (live_at_ext gc c c') by done. f_equal. destruct (ts !! i) as [t|]; [|done].
  apply live_at_ext. intros n. by apply intermediate_ext.
Qed.

Section Successor.
Variables (gc gb ga : nat → bool) (current : state_class) (i : nat) (t : transition V) (o : outcome) (m1 m2 : marking_state) (z1 : dbm).
Abbreviation cm := (count_of (sc_marking current)).
Abbreviation en := (enabledTransitions current).
Abbreviation zone := (firingDomain current).
Hypothesis Hwf : gated_class gc current.
Hypothesis Hi : i ∈ en.
Hypothesis Ht : ts !! i = Some t.
Hypothesis Hm1 : ∀ n, count_of m1 n = intermediate_counts env mode t cm n.
Hypothesis Hm2 : ∀ n, count_of m2 n = fired_counts env mode t o cm n.
Definition next : list nat := live_list ga (count_of m2).
Definition kept : list (nat * nat) := kept_pairs i next gb (count_of m1) en.
Definition fresh : list nat := filter (λ j, j ∉ kept.*1) next.
Definition clocks : list nat := kept.*1 ++ fresh.
Abbreviation f := (position en i).

Lemma live_NoDup : NoDup en.
Proof. rewrite (gc_enabled gc current Hwf). apply NoDup_live. Qed.

Lemma live_in j : j ∈ en ↔ live_at gc cm j = true.
Proof. rewrite (gc_enabled gc current Hwf). apply elem_of_live. Qed.

Lemma at_lookup l k j : l !! k = Some j → at_ l k = j.
Proof. unfold at_. by intros ->. Qed.

Lemma fired_at : en !! f = Some i ∧ (f < length en)%nat.
Proof.
  destruct (proj1 (list_elem_of_lookup _ _) Hi) as [k E]. unfold position. rewrite (position_lookup en k i live_NoDup E). cbn.
  split; [done|by eapply lookup_lt_Some].
Qed.

Lemma kept_persists j : j ∈ next → j ∈ kept.*1 ↔ gated_persists gc gb cm i j = true.
Proof.
  intros Hj. unfold kept. rewrite kept_in by apply live_NoDup. unfold keeps, gated_persists. rewrite Ht, bool_decide_eq_true_2, live_in by done.
  rewrite (live_at_ext gb (count_of m1) (intermediate_counts env mode t cm)) by done. rewrite !andb_true_iff. tauto.
Qed.

Lemma clocks_Permutation : clocks ≡ₚ next.
Proof.
  apply kept_then_new; [apply NoDup_live|apply (kept_NoDup i next gb (count_of m1) en live_NoDup)|].
  intros j Hj. unfold kept in Hj. rewrite kept_in in Hj by apply live_NoDup. destruct Hj as [_ Hj]. unfold keeps in Hj.
  by apply andb_true_iff in Hj as [[_ ?%bool_decide_eq_true]%andb_true_iff _].
Qed.

Lemma kept_lookup p k : kept.*2 !! p = Some k → ∃ j, at_ clocks p = j ∧ en !! k = Some j ∧ j ∈ kept.*1.
Proof.
  rewrite list_lookup_fmap. destruct (kept !! p) as [[j k']|] eqn:E; [|done]. intros [= ->]. exists j.
  assert (kept.*1 !! p = Some j) as E1 by (by rewrite list_lookup_fmap, E). split_and!.
  - apply at_lookup. unfold clocks. by apply lookup_app_l_Some.
  - apply list_elem_of_lookup_2, kept_elem in E as [? _]. done.
  - by eapply list_elem_of_lookup_2.
Qed.

Lemma fresh_lookup_at q j : fresh !! q = Some j → at_ clocks (length kept.*2 + q) = j.
Proof.
  intros E. apply at_lookup. unfold clocks. rewrite lookup_app_r by (rewrite !length_fmap; lia). rewrite !length_fmap, Nat.add_comm, Nat.add_sub. done.
Qed.

Hypothesis Hz1 : ∀ τ, in_zone z1 τ ↔ ∃ ζ, in_zone zone ζ ∧ fires_to (length en) f kept.*2 (lo <$> fresh) (hi <$> fresh) ζ τ.

Lemma fire_forward s2 : entered m2 clocks z1 s2 → ∃ s s1, in_class current s ∧ gated_wait gc s s1 ∧ gated_fire gc gb ga i o s1 s2.
Proof.
  intros [Hc (ζ & Hζ & F1 & F2 & F3)%Hz1]. destruct fired_at as [Ef Hf].
  assert (∀ k j, en !! k = Some j → position en j = k) as Hpos by (intros k j E; unfold position; by rewrite (position_lookup en k j live_NoDup E)).
  exists (TState cm (λ j, ζ (position en j))), (TState cm (λ j, ζ (position en j) - ζ f)). split_and!.
  - split; [done|]. cbn [to_fire]. apply (in_zone_ext scale _ ζ); [apply Hwf| |done]. intros k Hk. destruct Hζ as [He _].
    rewrite (gc_names gc current Hwf He), length_fmap in Hk. destruct (lookup_lt_is_Some_2 en k Hk) as [j E]. by rewrite (at_lookup _ _ _ E), (Hpos k j E).
  - exists (ζ f). cbn [ts_counts to_fire]. split_and!; [|done|].
    + apply (zone_nonneg scale zone); [apply Hwf|done|]. destruct Hζ as [He _]. by rewrite (gc_names gc current Hwf He), length_fmap.
    + intros j Hj%live_in. apply list_elem_of_lookup in Hj as [k E]. rewrite (Hpos k j E). split; [apply F1; by eapply lookup_lt_Some|lia].
  - exists t. cbn [ts_counts to_fire]. split_and!; [done|by apply live_in|by rewrite Z.sub_diag|intros n; by rewrite <- Hc, Hm2|].
    intros j Hj. rewrite <- (live_at_ext ga (count_of m2)) in Hj by done. apply elem_of_live in Hj. fold next in Hj.
    destruct (gated_persists gc gb cm i j) eqn:Ep.
    + apply kept_persists in Ep; [|done]. apply list_elem_of_fmap in Ep as ([j' k] & -> & Hjk). cbn [fst] in *.
      pose proof (proj1 (kept_elem _ _ _ _ _ _ _) Hjk) as [E _]. apply list_elem_of_lookup in Hjk as [p Hp].
      assert (kept.*2 !! p = Some k) as Ep by (by rewrite list_lookup_fmap, Hp). pose proof (F2 p k Ep) as H.
      destruct (kept_lookup p k Ep) as (j & E1 & E2 & _). rewrite E1 in H. assert (j' = j) as -> by congruence. by rewrite (Hpos k j E).
    + assert (j ∈ fresh) as Hjf. { apply list_elem_of_filter. split; [|done]. rewrite kept_persists by done. by rewrite Ep. }
      apply list_elem_of_lookup in Hjf as [q Eq]. pose proof (F3 q (lo j) (hi j)) as H. rewrite (fresh_lookup_at q j Eq) in H.
      apply H; by rewrite list_lookup_fmap, Eq.
Qed.

Lemma fire_backward s s1 s2 : in_class current s → gated_wait gc s s1 → gated_fire gc gb ga i o s1 s2 → entered m2 clocks z1 s2.
Proof.
  intros [Hc Hζ] (δ & Hδ & Hc1 & Hw) (t' & Et & _ & H0 & Hc2 & Hf2). assert (t' = t) as -> by congruence. destruct fired_at as [Ef Hf].
  assert (∀ n, ts_counts s1 n = cm n) as Hc1' by (intros n; by rewrite Hc1, Hc).
  assert (∀ n, count_of m2 n = ts_counts s2 n) as Hc2' by (intros n; rewrite Hc2, Hm2; symmetry; by apply fired_ext).
  assert (∀ j, j ∈ en → δ <= to_fire s j ∧ to_fire s1 j = to_fire s j - δ) as Hw'.
  { intros j Hj%live_in. apply Hw. by rewrite <- (live_at_ext gc cm). }
  assert (to_fire s i = δ) as Hδi by (destruct (Hw' i Hi); lia).
  assert (∀ j, j ∈ next → if gated_persists gc gb cm i j then to_fire s2 j = to_fire s1 j else lo j <= to_fire s2 j ∧ jle (Fin (to_fire s2 j)) (hi j)) as Hn.
  { intros j Hj%elem_of_live. rewrite <- (persists_ext gc gb (ts_counts s1)) by done. apply Hf2. by rewrite <- (live_at_ext ga (count_of m2)). }
  split; [done|]. apply Hz1. exists (λ k, to_fire s (at_ en k)). split; [done|]. split_and!.
  - intros k Hk. destruct (lookup_lt_is_Some_2 en k Hk) as [j E]. rewrite (at_lookup _ _ _ Ef), (at_lookup _ _ _ E), Hδi.
    apply Hw'. by eapply list_elem_of_lookup_2.
  - intros p k Ep. destruct (kept_lookup p k Ep) as (j & -> & E & Hj). rewrite (at_lookup _ _ _ E), (at_lookup _ _ _ Ef), Hδi.
    assert (j ∈ next) as Hjn by (rewrite <- clocks_Permutation; unfold clocks; apply elem_of_app; by left).
    specialize (Hn j Hjn). apply kept_persists in Hj; [|done]. rewrite Hj in Hn. rewrite Hn. apply Hw'. by eapply list_elem_of_lookup_2.
  - intros q l u El Eu. rewrite list_lookup_fmap in El. rewrite list_lookup_fmap in Eu. destruct (fresh !! q) as [j|] eqn:Eq; [|done]. simplify_eq/=.
    rewrite (fresh_lookup_at q j Eq). apply list_elem_of_lookup_2 in Eq. unfold fresh in Eq. apply list_elem_of_filter in Eq as [Hnk Hjn].
    specialize (Hn j Hjn). rewrite kept_persists in Hnk by done. by destruct (gated_persists gc gb cm i j).
Qed.
End Successor.

(** The states of a gated successor are exactly those reached by waiting, firing and waiting again. *)
Lemma gated_successor_spec gc gb ga (current : state_class) i b t o : gated_class gc current → i ∈ enabledTransitions current → ts !! i = Some t → outcome_ok o →
  ∃ c' : state_class, computeSuccessor scale ts env mode current (VirtualTransition i b o) untimed (Some (EnablingGate gb ga)) t = Ok c' ∧ gated_class ga c' ∧
    (∃ l, enabledTransitions c' = canonical (name_at ts <$> l) l) ∧ (∀ n, count_of (sc_marking c') n = fired_counts env mode t o (count_of (sc_marking current)) n) ∧
    ∀ s', in_class c' s' ↔ ∃ s s1 s2, in_class current s ∧ gated_wait gc s s1 ∧ gated_fire gc gb ga i o s1 s2 ∧ gated_wait ga s2 s'.
Proof.
  intros Hwf Hi Ht Ho. pose proof (gc_marking gc current Hwf) as Hm.
  assert (inputs_wf (inputSpecs t)) as Hin by (apply Hinputs; by eapply list_elem_of_lookup_2).
  destruct (consumeInputs_spec env mode Hmode t (sc_marking current) Hm Hin) as (m1 & E1 & W1 & C1).
  destruct (produceOutputs_spec env mode t (sc_marking current) m1 o Hm W1 Hin Ho) as (m2 & E2 & W2 & C2).
  assert (∀ n, count_of m2 n = fired_counts env mode t o (count_of (sc_marking current)) n) as C2' by (intros n; by rewrite C2, C1).
  set (cl := clocks gb ga current i m1 m2). set (kp := kept gb ga current i m1 m2). set (fr := fresh gb ga current i m1 m2).
  destruct (fired_at gc current i Hwf Hi) as [Ef Hf]. set (fi := position (enabledTransitions current) i) in *.
  assert (∃ z1, dbm_fireTransition scale (firingDomain current) (transitionIndex i current) (name_at ts <$> fr) (lo <$> fr) (hi <$> fr) kp.*2 = Ok z1 ∧
    zone_wf scale z1 ∧ (dbm_empty z1 = false → clockNames z1 = name_at ts <$> cl) ∧
    ∀ τ, in_zone z1 τ ↔ ∃ ζ, in_zone (firingDomain current) ζ ∧ fires_to (length (enabledTransitions current)) fi kp.*2 (lo <$> fr) (hi <$> fr) ζ τ)
    as (z1 & Ez & Wz & Nz & Sz).
  { destruct (dbm_empty (firingDomain current)) eqn:He.
    { exists (firingDomain current). unfold dbm_fireTransition, in_zone. rewrite He. split_and!; [done|apply Hwf|done|].
      intros τ. split; [by intros [? _]|by intros (? & [? _] & _)]. }
    pose proof (gc_names gc current Hwf He) as Hnames.
    assert (transitionIndex i current = Z.of_nat fi) as ->.
    { unfold transitionIndex, fi, position. by rewrite (position_lookup (enabledTransitions current) fi i (live_NoDup gc current Hwf) Ef). }
    destruct (dbm_fire_spec scale Hscale (firingDomain current) fi (name_at ts <$> fr) (lo <$> fr) (hi <$> fr) kp.*2) as (z1 & Ez & Wz & Nz & Sz).
    - apply Hwf.
    - done.
    - by rewrite Hnames, length_fmap.
    - by rewrite !length_fmap.
    - by rewrite !length_fmap.
    - intros x (j & -> & _)%list_elem_of_fmap. apply lower_ok.
    - intros x (j & E & _)%list_elem_of_fmap. by apply (upper_ok j).
    - intros k ([j k'] & -> & Hk)%list_elem_of_fmap. unfold kp, kept in Hk. apply kept_elem in Hk as [E Hk]. cbn [snd].
      split; [rewrite Hnames, length_fmap; by eapply lookup_lt_Some|]. intros ->. rewrite Ef in E. injection E as <-. unfold keeps in Hk.
      by rewrite Nat.eqb_refl in Hk.
    - apply (kept_NoDup i _ _ _ _ (live_NoDup gc current Hwf)).
    - exists z1. split_and!; [done|done| |].
      + intros H. rewrite (Nz H). unfold cl, clocks. fold kp fr. rewrite fmap_app. f_equal. apply list_eq. intros p. rewrite !list_lookup_fmap.
        destruct (kp !! p) as [[j k]|] eqn:E; [|done]. cbn [fmap option_fmap option_map]. apply list_elem_of_lookup_2 in E. unfold kp, kept in E.
        apply kept_elem in E as [E _]. rewrite Hnames, list_lookup_fmap. cbn [fst snd]. by rewrite E.
      + intros τ. rewrite Sz, Hnames, length_fmap. done. }
  destruct (finish_spec ga m2 cl z1 W2 Wz Nz (clocks_Permutation gc gb ga current i m1 m2 Hwf)) as [F1 F2].
  exists (finish_class scale m2 (canonical (name_at ts <$> cl) cl) (ordered_zone cl z1)). split_and!; [|exact F1|by exists cl|exact C2'|].
  - unfold computeSuccessor. cbn [vt_transition vt_outcome]. rewrite E1. cbn [res_bind]. rewrite E2. cbn [res_bind]. rewrite findEnabled_spec. cbn [res_bind gate_after after].
    rewrite persistent_spec. cbn [res_bind]. change (gate_between (Some (EnablingGate gb ga))) with gb. fold (live_list ga (count_of m2)).
    fold (kept_pairs i (live_list ga (count_of m2)) gb (count_of m1) (enabledTransitions current)).
    change (kept_pairs i (live_list ga (count_of m2)) gb (count_of m1) (enabledTransitions current)) with kp.
    change (filter (λ j, j ∉ kp.*1) (live_list ga (count_of m2))) with fr. rewrite Ez. cbn [lift res_bind].
    change (kp.*1 ++ fr) with cl. unfold canonical, ordered_zone. by destruct (canonicalOrder _).
  - intros s'. rewrite F2. split.
    + intros (s2 & H2 & Hw). apply (fire_forward gc gb ga current i t o m1 m2 z1 Hwf Hi Ht C1 C2' Sz) in H2 as (s & s1 & ? & ? & ?). by exists s, s1, s2.
    + intros (s & s1 & s2 & H1 & H2 & H3 & Hw). exists s2. split; [|done]. by apply (fire_backward gc gb ga current i t o m1 m2 z1 Hwf Hi Ht C1 C2' Sz s s1 s2).
Qed.

Lemma en_NoDup (current : state_class) : class_wf current → NoDup (enabledTransitions current).
Proof. intros H%class_open. by apply live_NoDup in H. Qed.

Lemma en_in (current : state_class) (W : class_wf current) j : j ∈ enabledTransitions current ↔ enabled_at (count_of (sc_marking current)) j = true.
Proof. apply class_open in W. by rewrite (live_in open_gate current W), live_open. Qed.

Lemma computeSuccessor_open (current : state_class) vt t :
  computeSuccessor scale ts env mode current vt untimed None t = computeSuccessor scale ts env mode current vt untimed (Some (EnablingGate open_gate open_gate)) t.
Proof.
  assert (∀ l, gate_after (Some (EnablingGate open_gate open_gate)) l = l) as Ha.
  { intros l. cbn. induction l as [|i l IH]; [done|]. rewrite filter_cons. cbn. by f_equal. }
  assert (∀ m1 fired next en k, persistent_from ts env mode m1 None fired next k en = persistent_from ts env mode m1 (Some (EnablingGate open_gate open_gate)) fired next k en) as Hp.
  { intros m1 fired next en. induction en as [|i en IH]; intros k; [done|]. cbn [persistent_from]. by rewrite IH. }
  unfold computeSuccessor. destruct (consumeInputs _ _ _ _) as [m1|]; [|done]. cbn [res_bind]. destruct (produceOutputs _ _ _ _ _ _) as [m2|]; [|done]. cbn [res_bind].
  destruct (findEnabledTransitions _ _ _ _) as [found|]; [|done]. cbn [res_bind]. by rewrite Ha, Hp.
Qed.

(** The states of the successor are exactly those reached by waiting, firing and waiting again. *)
Lemma successor_spec (current : state_class) i b t o : class_wf current → i ∈ enabledTransitions current → ts !! i = Some t → outcome_ok o →
  ∃ c' : state_class, computeSuccessor scale ts env mode current (VirtualTransition i b o) untimed None t = Ok c' ∧ class_wf c' ∧
    (∃ l, enabledTransitions c' = canonical (name_at ts <$> l) l) ∧ (∀ n, count_of (sc_marking c') n = fired_counts env mode t o (count_of (sc_marking current)) n) ∧
    ∀ s', in_class c' s' ↔ ∃ s s1 s2, in_class current s ∧ wait_step s s1 ∧ fire_step i o s1 s2 ∧ wait_step s2 s'.
Proof.
  intros W%class_open Hi Ht Ho. destruct (gated_successor_spec open_gate open_gate open_gate current i b t o W Hi Ht Ho) as (c' & E & W' & L & C & S).
  exists c'. rewrite computeSuccessor_open. split_and!; [done|by apply class_open|done|done|]. intros s'. rewrite S. by setoid_rewrite wait_open; setoid_rewrite fire_open.
Qed.
End Steps.
