(* ===== verification/ClassKeys.v ===== *)
(** * The deduplication key of a class

    Classes with the same key have the same states: the clock order is a function of the marking,
    and the printed marking and zone determine the counts and the bounds. *)
From S2P Require Import Prelude.
From S2P Require Import CodePoints.
From S2P Require Import Net.
From S2P Require Import Transition.
From S2P Require Import MarkingState.
From S2P Require Import Dbm.
From S2P Require Import DbmZone.
From S2P Require Import Outcomes.
From S2P Require Import StateClass.
From S2P Require Import ClassSteps.
#[local] Open Scope Z_scope.

(** ** Sorted lists *)

Lemma fmap_inj_eq {A B} (f : A → B) (l1 l2 : list A) : (∀ x y, x ∈ l1 → y ∈ l2 → f x = f y → x = y) → f <$> l1 = f <$> l2 → l1 = l2.
Proof.
  revert l2. induction l1 as [|x l1 IH]; intros [|y l2] Hf E; try done. rewrite !fmap_cons in E. injection E as E1 E2. f_equal.
  - apply Hf; [left|left|done].
  - apply IH; [|done]. intros; apply Hf; [by right|by right|done].
Qed.

Lemma StronglySorted_weaken {A} (R R' : A → A → Prop) (l : list A) :
  (∀ x y, x ∈ l → y ∈ l → R x y → R' x y) → StronglySorted R l → StronglySorted R' l.
Proof.
  induction l as [|x l IH]; intros H Hs; [constructor|]. apply StronglySorted_inv in Hs as [Hs Hx]. constructor.
  - apply IH; [|done]. intros; apply H; [by right|by right|done].
  - rewrite Forall_forall in Hx. rewrite Forall_forall. intros y Hy. apply H; [left|by right|by apply Hx].
Qed.

Lemma StronglySorted_fmap_key {A B} (R : B → B → Prop) (f : A → B) (l : list A) :
  StronglySorted (λ x y, R (f x) (f y)) l → StronglySorted R (f <$> l).
Proof.
  induction 1 as [|x l _ IH Hx]; [constructor|]. rewrite fmap_cons. constructor; [done|]. rewrite Forall_forall in Hx. rewrite Forall_forall.
  intros y (z & -> & Hz)%list_elem_of_fmap. by apply Hx.
Qed.

(** One arrangement of a list is in code-point order of distinct keys. *)
Lemma sort_unique {A} (key : A → jsstr) (l1 l2 : list A) : l1 ≡ₚ l2 → (∀ x, x ∈ l1 → Forall unit16 (key x)) →
  (∀ x y, x ∈ l1 → y ∈ l1 → key x = key y → x = y) →
  StronglySorted (λ a b, code_point_le (key a) (key b)) l1 → StronglySorted (λ a b, code_point_le (key a) (key b)) l2 → l1 = l2.
Proof.
  intros Hp Hu Hi H1 H2. apply (fmap_inj_eq key); [intros x y Hx Hy; apply Hi; [done|by rewrite Hp]|].
  apply (StronglySorted_unique rank_le).
  - apply StronglySorted_fmap_key. eapply StronglySorted_weaken; [|exact H1]. intros x y Hx Hy. by rewrite rank_le_code_point_le by auto.
  - apply StronglySorted_fmap_key. eapply StronglySorted_weaken; [|exact H2]. intros x y Hx Hy. rewrite rank_le_code_point_le; [done|apply Hu; by rewrite Hp..].
  - by rewrite Hp.
Qed.

Lemma compare_sgn a b : Forall unit16 a → Forall unit16 b → Z.sgn (compareCodePoints a b) = - Z.sgn (compareCodePoints b a).
Proof. intros Ha Hb. rewrite !compareCodePoints_lex by done. apply lex_sgn_antisym. Qed.

(** ** The canonical order is sorted *)

Section Canonical.
Variable names : list jsstr.
Hypothesis Hnames : Forall (Forall unit16) names.
Definition nm (i : nat) : jsstr := default [] (names !! i).
Definition clock_le (a b : nat) : bool := (let c := compareCodePoints (nm a) (nm b) in if c =? 0 then Z.of_nat a - Z.of_nat b else c) <=? 0.

Lemma nm_unit16 i : Forall unit16 (nm i).
Proof.
  unfold nm. destruct (names !! i) eqn:E; [|constructor]. rewrite Forall_forall in Hnames. apply Hnames. by eapply list_elem_of_lookup_2.
Qed.
#[local] Hint Resolve nm_unit16 : core.

Lemma clock_le_code a b : clock_le a b = true → code_point_le (nm a) (nm b).
Proof. unfold clock_le, code_point_le. cbn zeta. destruct (Z.eqb_spec (compareCodePoints (nm a) (nm b)) 0); intros; b2p; lia. Qed.

Lemma clock_le_total a b : clock_le a b = true ∨ clock_le b a = true.
Proof.
  unfold clock_le. cbn zeta. pose proof (compare_sgn (nm a) (nm b) (nm_unit16 a) (nm_unit16 b)) as H. rewrite !Z.leb_le.
  destruct (Z.eqb_spec (compareCodePoints (nm a) (nm b)) 0) as [E|E], (Z.eqb_spec (compareCodePoints (nm b) (nm a)) 0) as [E'|E']; lia.
Qed.

Lemma clock_le_trans a b c : clock_le a b = true → clock_le b c = true → clock_le a c = true.
Proof.
  intros H1 H2. pose proof (code_point_le_trans (nm a) (nm b) (nm c) (nm_unit16 a) (nm_unit16 b) (nm_unit16 c) (clock_le_code a b H1) (clock_le_code b c H2)) as Hac.
  unfold code_point_le in Hac. unfold clock_le in *. cbn zeta in *. destruct (Z.eqb_spec (compareCodePoints (nm a) (nm c)) 0) as [E|E]; [|apply Z.leb_le; lia].
  (* all three names are equal *)
  assert (code_point_le (nm a) (nm b) ∧ code_point_le (nm b) (nm c)) as [L1 L2] by (split; unfold code_point_le; repeat case_bool; b2p; lia).
  assert (code_point_le (nm c) (nm a)) as L3.
  { unfold code_point_le. pose proof (compare_sgn (nm a) (nm c) (nm_unit16 a) (nm_unit16 c)). lia. }
  assert (nm a = nm b) as Eab by (apply code_point_le_antisym; try done; apply (code_point_le_trans _ (nm c)); done).
  assert (nm b = nm c) as Ebc by (apply code_point_le_antisym; try done; rewrite <- Eab; done).
  assert (∀ u, Forall unit16 u → compareCodePoints u u = 0) as Hrefl.
  { intros u Hu. pose proof (compare_sgn u u Hu Hu). lia. }
  rewrite Eab, Ebc, Hrefl in H1 by done. rewrite Ebc, Hrefl in H2 by done. cbn in *. b2p. apply Z.leb_le. lia.
Qed.

Lemma adjacent_sorted (l : list jsstr) : Forall (Forall unit16) l →
  forallb (λ i, 0 <=? compareCodePoints (default [] (l !! i)) (default [] (l !! (i - 1)%nat))) (seq 1 (length l - 1)) = true →
  StronglySorted code_point_le l.
Proof.
  induction l as [|x l IH]; intros Hu H; [constructor|]. apply Forall_cons in Hu as [Hx Hu].
  assert (StronglySorted code_point_le l) as Hl.
  { apply IH; [done|]. rewrite forallb_forall in H. apply forallb_forall. intros i Hi%in_seq.
    specialize (H (S i)). rewrite in_seq in H. cbn [length] in H. destruct i as [|i]; [lia|]. replace (S (S i) - 1)%nat with (S i) in H by lia. replace (S i - 1)%nat with i by lia. apply H. lia. }
  constructor; [done|]. destruct l as [|y l]; [constructor|]. apply Forall_cons in Hu as [Hy Hu].
  assert (code_point_le x y) as Hxy.
  { cbn [length seq forallb Nat.sub] in H. apply andb_true_iff in H as [H _]. cbn in H. b2p.
    unfold code_point_le. pose proof (compare_sgn x y Hx Hy). lia. }
  constructor; [done|]. apply StronglySorted_inv in Hl as [_ Hl]. rewrite Forall_forall in *. intros z Hz. apply (code_point_le_trans x y z); auto.
Qed.
End Canonical.

Section CanonicalSorted.
Context {V : Type}.
Variable ts : list (transition V).
Hypothesis Hnames : ∀ t, t ∈ ts → Forall unit16 (t_name t).

Lemma name_at_unit16 i : Forall unit16 (name_at ts i).
Proof. unfold name_at. destruct (ts !! i) eqn:E; [|constructor]. cbn. apply Hnames. by eapply list_elem_of_lookup_2. Qed.

Lemma canonical_sorted (en : list nat) :
  StronglySorted (λ a b, code_point_le (name_at ts a) (name_at ts b)) (canonical (name_at ts <$> en) en).
Proof.
  assert (Forall (Forall unit16) (name_at ts <$> en)) as Hu by (rewrite Forall_forall; intros x (j & -> & _)%list_elem_of_fmap; apply name_at_unit16).
  set (names := name_at ts <$> en). fold names in Hu. unfold canonical. destruct (canonicalOrder names) as [order|] eqn:E.
  - unfold canonicalOrder in E. destruct (forallb _ _) in E; [done|]. injection E as E.
    change (stable_sort (clock_le names) (seq 0 (length names)) = order) in E.
    assert (StronglySorted (in_order (clock_le names) (λ _ _, True)) order) as Hs.
    { rewrite <- E. apply stable_sort_sorted; [apply clock_le_total, Hu|apply clock_le_trans, Hu|].
      generalize (seq 0 (length names)). induction l; constructor; [done|]. by apply Forall_true. }
    assert (Forall (λ i, i < length en)%nat order) as Hr.
    { rewrite Forall_forall. intros i Hi. rewrite <- E, stable_sort_Permutation, elem_of_seq in Hi. unfold names in Hi. rewrite length_fmap in Hi. lia. }
    assert (∀ i j, en !! i = Some j → nm names i = name_at ts j) as Hnm by (intros i j Ej; unfold nm, names; by rewrite list_lookup_fmap, Ej).
    clear E. induction Hs as [|o order Hs IH Ho]; [constructor|]. apply Forall_cons in Hr as [Ho' Hr]. unfold permute in *. cbn [omap list_omap].
    destruct (lookup_lt_is_Some_2 en o Ho') as [j Ej]. rewrite Ej. constructor; [by apply IH|]. rewrite Forall_forall in *. intros j' Hj'.
    apply list_elem_of_omap in Hj' as (o' & Hin & Ej'). rewrite <- (Hnm o j Ej), <- (Hnm o' j' Ej'). apply (clock_le_code names). by apply Ho.
  - unfold canonicalOrder in E. destruct (forallb _ _) eqn:Ef in E; [|done]. apply (adjacent_sorted names) in Ef; [|done..].
    unfold names in Ef. clear -Ef. induction en as [|i en IH]; [constructor|]. rewrite fmap_cons in Ef. apply StronglySorted_inv in Ef as [E1 E2].
    constructor; [by apply IH|]. rewrite Forall_forall in E2. rewrite Forall_forall. intros j Hj. apply E2. by apply list_elem_of_fmap_2.
Qed.
End CanonicalSorted.

(** ** Printed markings *)

(** A name the printed marking and the key can be read back from. *)
Definition good_name (n : jsstr) : Prop := plain_name n ∧ BAR ∉ n ∧ Forall unit16 n.
#[export] Instance good_name_dec n : Decision (good_name n).
Proof. unfold good_name. apply _. Defined.

Lemma entries_no_bar (l : list (jsstr * Z)) : (∀ y, y ∈ l → BAR ∉ y.1) → BAR ∉ join (js ", ") (entry_string <$> l).
Proof.
  assert (∀ y : jsstr * Z, BAR ∉ y.1 → BAR ∉ entry_string y) as He.
  { intros y Hy. rewrite entry_string_eq, not_elem_of_app, not_elem_of_cons. split_and!; [done|done|apply number_plain]. }
  induction l as [|y l IH]; intros H; [apply not_elem_of_nil|]. rewrite fmap_cons. destruct l as [|y' l]; [apply He, H; left|].
  rewrite fmap_cons in *. rewrite join_cons, !not_elem_of_app. split_and!; [apply He, H; left| |apply IH; intros; apply H; by right].
  change (js ", ") with [44; 32]. rewrite !not_elem_of_cons. split_and!; [done|done|apply not_elem_of_nil].
Qed.

Definition good_marking (m : marking_state) : Prop := ms_wf m ∧ ∀ n, n ∈ (tokenCounts m).*1 → good_name n.

Lemma toString_no_bar m : good_marking m → BAR ∉ ms_toString m.
Proof.
  intros [_ H]. unfold ms_toString. change (js "{}") with [123; 125]. change (js "{") with [123]. change (js "}") with [125]. case_bool_decide; [by intros [?|[?|?%not_elem_of_nil]%elem_of_cons]%elem_of_cons|].
  rewrite !not_elem_of_app. split_and!; [by intros [?|?%not_elem_of_nil]%elem_of_cons| |by intros [?|?%not_elem_of_nil]%elem_of_cons].
  apply entries_no_bar. intros y Hy. rewrite stable_sort_Permutation in Hy. apply H. by apply list_elem_of_fmap_2.
Qed.

(** The printed marking is the counts. *)
Lemma toString_iff m m' : good_marking m → good_marking m' → ms_toString m = ms_toString m' ↔ ∀ n, count_of m n = count_of m' n.
Proof.
  intros [W G] [W' G']. split.
  - intros E. apply toString_counts; try done; intros n Hn; [by apply G|by apply G'].
  - intros E. assert (tokenCounts m ≡ₚ tokenCounts m') as Hp.
    { assert (∀ m m', ms_wf m → ms_wf m' → (∀ n, count_of m n = count_of m' n) → ∀ y, y ∈ tokenCounts m → y ∈ tokenCounts m') as Hsub.
      { clear. intros m m' W W' E [n z] Hy. pose proof (wf_counts m W n z Hy) as Hz. specialize (E n). unfold count_of in E.
        rewrite (elem_map_get n z _ (wf_keys m W) Hy) in E. destruct (map_get n (tokenCounts m')) as [z'|] eqn:E'; cbn in E; [|lia].
        subst. by apply map_get_elem. }
      apply NoDup_Permutation; [apply NoDup_fmap_1 with fst; by apply wf_keys|apply NoDup_fmap_1 with fst; by apply wf_keys|].
      intros y. split; [by apply Hsub|by apply Hsub]. }
    set (le := λ a b : jsstr * Z, compareCodePoints a.1 b.1 <=? 0).
    assert (stable_sort le (tokenCounts m) = stable_sort le (tokenCounts m')) as Es.
    { assert (∀ m, ms_wf m → (∀ n, n ∈ (tokenCounts m).*1 → good_name n) →
        StronglySorted (λ a b : jsstr * Z, code_point_le a.1 b.1) (stable_sort le (tokenCounts m))) as Hs.
      { clear. intros m W G. set (g := λ y : jsstr * Z, Forall unit16 y.1).
        assert (Forall g (tokenCounts m)) as Hg by (rewrite Forall_forall; intros y Hy; apply G; by apply list_elem_of_fmap_2).
        generalize dependent (tokenCounts m). clear. intros l _ Hg. induction Hg as [|x l Hx Hg IH]; [constructor|].
        cbn [stable_sort foldr]. assert (Forall g (stable_sort le l)) as Hg' by (by rewrite stable_sort_Permutation).
        change (foldr (insert_by le) [] l) with (stable_sort le l). generalize dependent (stable_sort le l). clear l Hg. intros l Hs Hg.
        induction Hs as [|y l Hs IH Hy]; [by repeat constructor|]. apply Forall_cons in Hg as [Hyg Hg]. cbn [insert_by].
        destruct (le x y) eqn:E.
        - unfold le in E. b2p. constructor; [by constructor|]. constructor; [done|]. rewrite Forall_forall in Hy, Hg. rewrite Forall_forall. intros z Hz.
          apply (code_point_le_trans _ y.1); [done|done|by apply Hg|done|by apply Hy].
        - unfold le in E. b2p. constructor; [by apply IH|]. rewrite insert_by_Permutation. constructor; [|done].
          unfold code_point_le. pose proof (compare_sgn x.1 y.1 Hx Hyg). lia. }
      apply (sort_unique fst).
      - by rewrite !stable_sort_Permutation.
      - intros y Hy. rewrite stable_sort_Permutation in Hy. apply G. by apply list_elem_of_fmap_2.
      - intros [n z] [n' z'] Hy Hy' En. rewrite stable_sort_Permutation in Hy, Hy'. cbn in En. subst n'. f_equal.
        pose proof (elem_map_get n z _ (wf_keys m W) Hy). pose proof (elem_map_get n z' _ (wf_keys m W) Hy'). congruence.
      - by apply Hs.
      - by apply Hs. }
    unfold ms_toString. fold le. rewrite Es.
    by rewrite (Permutation_length Hp).
Qed.

(** ** Keys *)

Section Keys.
Context {V : Type}.
Variables (scale : Z) (ts : list (transition V)) (env : list jsstr) (mode : environment_mode).
Hypothesis Hscale : 0 < scale.
Hypothesis Hunits : ∀ t, t ∈ ts → Forall unit16 (t_name t).
Hypothesis Hdistinct : NoDup (t_name <$> ts).

(** The clocks of the class are in canonical order, and its marking can be read back. *)
Definition class_ordered (c : state_class) : Prop :=
  StronglySorted (λ a b, code_point_le (name_at ts a) (name_at ts b)) (enabledTransitions c) ∧ good_marking (sc_marking c).

Lemma name_at_inj i j : (i < length ts)%nat → (j < length ts)%nat → name_at ts i = name_at ts j → i = j.
Proof.
  intros Hi Hj. unfold name_at. destruct (lookup_lt_is_Some_2 ts i Hi) as [a Ea], (lookup_lt_is_Some_2 ts j Hj) as [b Eb]. rewrite Ea, Eb. cbn.
  intros E. apply (NoDup_lookup _ _ _ (t_name a) Hdistinct); [by rewrite list_lookup_fmap, Ea|by rewrite list_lookup_fmap, Eb, E].
Qed.

Lemma enabled_unique c c' : class_wf scale ts env mode c → class_wf scale ts env mode c' → class_ordered c → class_ordered c' →
  (∀ n, count_of (sc_marking c) n = count_of (sc_marking c') n) → enabledTransitions c = enabledTransitions c'.
Proof.
  intros W W' [S _] [S' _] E.
  assert (∀ j, j ∈ enabledTransitions c → (j < length ts)%nat) as Hlt.
  { intros j Hj. rewrite (cw_enabled _ _ _ _ c W) in Hj. unfold enabled_list in Hj. apply list_elem_of_filter in Hj as [_ [_ ?]%elem_of_seq]. lia. }
  apply (sort_unique (name_at ts)); [| | |done|done].
  - rewrite (cw_enabled _ _ _ _ c W), (cw_enabled _ _ _ _ c' W'). by rewrite (enabled_list_ext ts env mode _ _ E).
  - intros j _. by apply name_at_unit16.
  - intros x y Hx Hy. apply name_at_inj; by apply Hlt.
Qed.

Lemma classKey_split c c' : good_marking (sc_marking c) → good_marking (sc_marking c') → classKey scale c = classKey scale c' →
  (∀ n, count_of (sc_marking c) n = count_of (sc_marking c') n) ∧ zoneKey scale (firingDomain c) = zoneKey scale (firingDomain c').
Proof.
  intros G G' E. unfold classKey in E. change (js "|") with [BAR] in E. cbn [app] in E.
  apply split_first in E as [E1 E2]; [|by apply toString_no_bar..]. split; [by apply (toString_iff _ _ G G')|done].
Qed.

Lemma same_states c c' : zone_wf scale (firingDomain c) → zone_wf scale (firingDomain c') → sc_isEmpty c = false → sc_isEmpty c' = false →
  (∀ n, count_of (sc_marking c) n = count_of (sc_marking c') n) → enabledTransitions c = enabledTransitions c' →
  clockNames (firingDomain c) = clockNames (firingDomain c') → zoneKey scale (firingDomain c) = zoneKey scale (firingDomain c') →
  ∀ s, in_class c s ↔ in_class c' s.
Proof.
  unfold sc_isEmpty, isEmpty. intros W W' He He' E1 En Ec E2. destruct (zoneKey_inj scale Hscale (firingDomain c) (firingDomain c')) as [Eb Ed]; auto.
  intros s. unfold in_class, in_zone. rewrite Eb, Ed, En, He, He'. split; intros [H1 H2]; (split; [|done]); intros n; by rewrite <- H1, E1.
Qed.

(** Classes with the same key have the same states. *)
Lemma classKey_inj c c' : class_wf scale ts env mode c → class_wf scale ts env mode c' → class_ordered c → class_ordered c' →
  sc_isEmpty c = false → sc_isEmpty c' = false → classKey scale c = classKey scale c' →
  ∀ s, in_class c s ↔ in_class c' s.
Proof.
  intros W W' O O' He He' E. apply classKey_split in E as [E1 E2]; [|apply O|apply O']. pose proof (enabled_unique c c' W W' O O' E1) as En.
  apply same_states; try done; [apply W|apply W'|]. by rewrite (cw_names _ _ _ _ c W He), (cw_names _ _ _ _ c' W' He'), En.
Qed.

(** So do gated classes, whatever their gates, when the names of the transitions hold no separator. *)
Lemma gated_key_inj g g' c c' : (∀ t, t ∈ ts → plain_name (t_name t) ∧ BAR ∉ t_name t) →
  gated_class scale ts env mode g c → gated_class scale ts env mode g' c' → good_marking (sc_marking c) → good_marking (sc_marking c') →
  sc_isEmpty c = false → sc_isEmpty c' = false → classKey scale c = classKey scale c' →
  enabledTransitions c = enabledTransitions c' ∧ (∀ n, count_of (sc_marking c) n = count_of (sc_marking c') n) ∧ ∀ s, in_class c s ↔ in_class c' s.
Proof.
  intros Hplain W W' G G' He He' E. apply classKey_split in E as [E1 E2]; [|done..].
  assert (∀ g c j, gated_class scale ts env mode g c → j ∈ enabledTransitions c → (j < length ts)%nat) as Hlt.
  { intros h d j Wd Hj. rewrite (gc_enabled _ _ _ _ _ d Wd) in Hj. unfold live_list, enabled_list in Hj. apply list_elem_of_filter in Hj as [_ [_ [_ ?]%elem_of_seq]%list_elem_of_filter]. lia. }
  assert (∀ g c n, gated_class scale ts env mode g c → n ∈ name_at ts <$> enabledTransitions c → plain_name n ∧ BAR ∉ n) as Hnm.
  { intros h d n Wd (j & -> & Hj)%list_elem_of_fmap. apply (Hlt h d j Wd) in Hj as [t Et]%lookup_lt_is_Some_2. unfold name_at. rewrite Et. cbn. apply Hplain. by eapply list_elem_of_lookup_2. }
  pose proof (gc_names _ _ _ _ _ c W He) as N. pose proof (gc_names _ _ _ _ _ c' W' He') as N'.
  assert (clockNames (firingDomain c) = clockNames (firingDomain c')) as Ec.
  { apply (zoneKey_clocks scale Hscale); try done; [by apply W|by apply W'|]. rewrite N, N'. intros n [Hn|Hn]; [exact (Hnm g c n W Hn)|exact (Hnm g' c' n W' Hn)]. }
  assert (enabledTransitions c = enabledTransitions c') as En.
  { apply (fmap_inj_eq (name_at ts)); [|congruence]. intros x y Hx Hy. apply name_at_inj; [by eapply (Hlt g c)|by eapply (Hlt g' c')]. }
  split_and!; [done|done|]. apply same_states; try done; [apply W|apply W'].
Qed.
End Keys.
