(* ===== verification/GraphExact.v ===== *)
(** * The state-class graph is exact

    The construction of [StateGraph] ends within its fuel, does not throw on the nets a builder
    makes, and its classes hold exactly the states the timed net reaches (the theorem that sums it
    up, with the edges, is in [GraphPaths]). *)
From S2P Require Import Prelude.
From S2P Require Import CodePoints.
From S2P Require Import Net.
From S2P Require Import Out.
From S2P Require Import OutSpec.
From S2P Require Import Transition.
From S2P Require Import PetriNet.
From S2P Require Import CompiledNet.
From S2P Require Import MarkingState.
From S2P Require Import Dbm.
From S2P Require Import DbmZone.
From S2P Require Import Outcomes.
From S2P Require Import StateClass.
From S2P Require Import ClassSteps.
From S2P Require Import ClassKeys.
#[local] Open Scope Z_scope.

(** ** The fuel *)

Section Fuel.
Context {V : Type}.
Variables (scale : Z) (ts : list (transition V)) (env : list jsstr) (mode : environment_mode) (untimed : bool).

Lemma explore_fuel stubborn stops maxClasses fuel x k : (Z.of_nat k <= maxClasses → maxClasses - Z.of_nat k < Z.of_nat fuel) → (0 < fuel)%nat →
  explore scale ts env mode untimed stubborn stops maxClasses fuel x k ≠ Ok None.
Proof.
  revert x k. induction fuel as [|fuel IH]; intros x k Hf H0; [lia|]. cbn [explore].
  destruct (x_classes x !! k) as [c|] eqn:E; [|done]. apply lookup_lt_Some in E. case_bool; b2p; [done|]. case_bool; [done|].
  destruct (expand_class _ _ _ _ _ _ _ _ _) as [x'|]; cbn [res_bind]; [|done]. apply IH; lia.
Qed.
End Fuel.

(** The stubborn-set selection of a construction, if any. *)
Abbreviation selector := (option (marking_state → list nat → result scg_error (list nat))).

(** ** Well-formed inputs *)

Record scg_net_ok {V} (ts : list (transition V)) (env : list jsstr) (mode : environment_mode) (m0 : marking_state) : Prop := {
  no_built : ∀ t, t ∈ ts → ∃ b, build b = Ok t ∧ ∀ o, b_output b = Some o → inhabited_xors o = true;
  no_distinct : NoDup (t_name <$> ts);
  no_units : ∀ t, t ∈ ts → Forall unit16 (t_name t);
  no_places : ∀ t o n, t ∈ ts → outputSpec t = Some o → n ∈ universe o → good_name n;
  no_initial : good_marking m0;
  no_mode : mode_ok env mode
}.

Section Exact.
Context {V : Type}.
Variables (scale : Z) (ts : list (transition V)) (env : list jsstr) (mode : environment_mode) (untimed : bool) (m0 : marking_state).
Hypothesis Hscale : 0 < scale.
Hypothesis Hnet : scg_net_ok ts env mode m0.
Implicit Types (s : tstate) (c : state_class) (x : exploration) (t : transition V).

Abbreviation wait := (wait_step ts env mode).
Abbreviation fire := (fire_step scale ts env mode untimed).
Abbreviation succ c i b o t := (computeSuccessor scale ts env mode c (VirtualTransition i b o) untimed None t).

(** The runs of the timed net. *)
Inductive timed_reachable : tstate → Prop :=
| reach_start s : start_state scale ts env mode untimed m0 s → timed_reachable s
| reach_wait s s' : timed_reachable s → wait s s' → timed_reachable s'
| reach_fire i t os o s s' : timed_reachable s → ts !! i = Some t → outcomes t = Ok os → o ∈ os → fire i o s s' → timed_reachable s'.

Lemma net_built t : t ∈ ts → inputs_wf (inputSpecs t) ∧ timing_ok (t_timing t).
Proof. intros (b & Hb & Hi)%(no_built _ _ _ _ Hnet). apply build_ok in Hb as [(H1 & H2 & _) ->]; done. Qed.
Lemma net_inputs t : t ∈ ts → inputs_wf (inputSpecs t).
Proof. apply net_built. Qed.
Lemma net_timings t : t ∈ ts → timing_ok (t_timing t).
Proof. apply net_built. Qed.
Lemma net_outcomes t : t ∈ ts → ∃ os, outcomes t = Ok os ∧ ∀ oc d, oc ∈ os → d ∈ deposits oc →
  deposit_ok t d ∧ ∃ o, outputSpec t = Some o ∧ place_name (od_place d) ∈ universe o.
Proof. intros (b & Hb & Hi)%(no_built _ _ _ _ Hnet). by apply (outcomes_ok b). Qed.

Lemma enabled_ext (g g' : jsstr → Z) j : (∀ n, g n = g' n) → enabled_at ts env mode g j = enabled_at ts env mode g' j.
Proof. apply enabled_at_ext. Qed.

Lemma wait_refl s : (∀ j, enabled_at ts env mode (ts_counts s) j = true → 0 <= to_fire s j) → wait s s.
Proof. intros H. exists 0. split_and!; [lia|done|]. intros j Hj. split; [by apply H|lia]. Qed.

Lemma wait_trans s1 s2 s3 : wait s1 s2 → wait s2 s3 → wait s1 s3.
Proof.
  intros (d1 & P1 & C1 & F1) (d2 & P2 & C2 & F2). exists (d1 + d2). split_and!; [lia|intros n; by rewrite C2, C1|]. intros j Hj.
  destruct (F1 j Hj) as [H1 H1']. destruct (F2 j) as [H2 H2']; [by rewrite (enabled_ext _ (ts_counts s1))|]. lia.
Qed.

(** ** Classes of the graph *)

Record class_ok c : Prop := {
  co_wf : class_wf scale ts env mode c;
  co_ordered : class_ordered ts c;
  co_full : sc_isEmpty c = false;
  co_closed : ∀ s s', in_class c s → wait s s' → in_class c s';
  co_reached : ∀ s, in_class c s → timed_reachable s
}.

Lemma interval_inhabited j : lower_at scale ts untimed j <= lower_at scale ts untimed j ∧
  jle (Fin (lower_at scale ts untimed j)) (upper_at scale ts untimed j).
Proof.
  split; [lia|]. unfold lower_at, upper_at. destruct (ts !! j) as [t|] eqn:E; cbn [from_option]; [|simpl; lia].
  apply list_elem_of_lookup_2, net_timings, earliest_le_latest in E. simpl. apply Z.mul_le_mono_nonneg_r; [unfold millisecond; lia|].
  unfold clockTiming. destruct untimed; [done|lia].
Qed.

Lemma in_class_full c s : in_class c s → sc_isEmpty c = false.
Proof. intros [_ [H _]]. exact H. Qed.

Lemma class_inhabited c : class_ok c → ∃ s, in_class c s.
Proof.
  intros [W _ He _ _]. destruct (zone_inhabited scale (firingDomain c)) as [θ Hθ]; [apply W|done|].
  exists (TState (count_of (sc_marking c)) (λ j, θ (position (enabledTransitions c) j))). split; [done|]. cbn [to_fire].
  apply (in_zone_ext scale _ θ); [apply W| |done]. intros k Hk. rewrite (cw_names _ _ _ _ c W He), length_fmap in Hk.
  destruct (lookup_lt_is_Some_2 _ k Hk) as [j E]. unfold at_, position. rewrite E. cbn [default from_option id].
  rewrite (position_lookup _ k j); [done|apply (en_NoDup scale ts env mode c W)|done].
Qed.

Lemma initial_ok : ∃ c, initialStateClass scale ts env mode untimed m0 = Ok c ∧ class_ok c ∧
  ∀ s, start_state scale ts env mode untimed m0 s → in_class c s.
Proof.
  destruct (initial_spec scale ts env mode untimed Hscale (no_mode _ _ _ _ Hnet) net_timings m0 (proj1 (no_initial _ _ _ _ Hnet)))
    as (c & E & W & (l & El) & Em & Hc).
  assert (∀ s, start_state scale ts env mode untimed m0 s → in_class c s) as Hstart.
  { intros s Hs. apply Hc. exists s. split; [done|]. apply wait_refl. intros j Hj. destruct Hs as [_ Hs]. destruct (Hs j Hj) as [H _].
    destruct (lower_ok scale ts untimed Hscale net_timings j). lia. }
  exists c. split; [done|]. split; [|done]. constructor; [done| | | |].
  - split; [rewrite El; apply canonical_sorted, (no_units _ _ _ _ Hnet)|rewrite Em; apply (no_initial _ _ _ _ Hnet)].
  - apply (in_class_full c (TState (count_of m0) (lower_at scale ts untimed))), Hstart. split; [done|]. intros j _. apply interval_inhabited.
  - intros s s' (s0 & H1 & H2)%Hc Hw. apply Hc. exists s0. split; [done|]. by eapply wait_trans.
  - intros s (s0 & H1 & H2)%Hc. eapply reach_wait; [by apply reach_start|done].
Qed.

(** The places of a successor's marking are those of the class or of the deposits. *)
Lemma fired_nonzero t o (c : jsstr → Z) n : inputs_wf (inputSpecs t) → (∀ n, 0 <= c n) → fired_counts env mode t o c n ≠ 0 →
  c n ≠ 0 ∨ ∃ d, d ∈ deposits o ∧ place_name (od_place d) = n.
Proof.
  intros Hwf Hc H. destruct (decide (c n = 0)) as [E|]; [|by left]. right. unfold fired_counts, intermediate_counts in H.
  pose proof (removed_bounds env mode t c n Hwf (Hc n)) as Hr. assert (removed env mode t c n = 0) as Er by lia. rewrite E, Er in H.
  assert (deposited (drained_counts env mode t c) o n ≠ 0) as Hd by (case_decide; lia). clear -Hd. unfold deposited in Hd.
  induction (deposits o) as [|d l IH]; [done|]. cbn [total_deposit foldr] in Hd. case_decide as E; [exists d; split; [left|done]|].
  destruct IH as (d' & ? & ?); [unfold total_deposit; lia|]. exists d'. split; [by right|done].
Qed.

Lemma counts_nonzero m n : ms_wf m → n ∈ (tokenCounts m).*1 ↔ count_of m n ≠ 0.
Proof.
  intros W. unfold count_of. split.
  - intros ([n' z] & -> & Hz)%list_elem_of_fmap. cbn [fst]. rewrite (elem_map_get n' z _ (wf_keys m W) Hz). apply (wf_counts m W) in Hz. cbn. lia.
  - intros H. destruct (map_get n (tokenCounts m)) eqn:E; [|done]. apply map_get_elem in E. by apply (list_elem_of_fmap_2 fst) in E.
Qed.

Lemma successor_ok c i b t os o : class_ok c → i ∈ enabledTransitions c → ts !! i = Some t → outcomes t = Ok os → os !! b = Some o →
  ∃ c', succ c i b o t = Ok c' ∧ (sc_isEmpty c' = false → class_ok c') ∧
    ∀ s s', in_class c s → fire i o s s' → in_class c' s'.
Proof.
  intros [W [So Go] He Hcl Hre] Hi Et Eos Eo. apply list_elem_of_lookup_2 in Eo.
  assert (t ∈ ts) as Hin by (by eapply list_elem_of_lookup_2).
  destruct (net_outcomes t Hin) as (os' & Eos' & Hos). assert (os' = os) as -> by congruence.
  assert (outcome_ok o) as Hok by (intros d Hd; destruct (Hos o d Eo Hd) as [H _]; unfold deposit_ok in H; by destruct (od_deposit d)).
  destruct (successor_spec scale ts env mode untimed Hscale (no_mode _ _ _ _ Hnet) net_inputs net_timings c i b t o W Hi Et Hok)
    as (c' & E & W' & (l & El) & Hcnt & Hc).
  exists c'. split; [done|]. split.
  - intros He'. constructor; [done| |done| |].
    + split; [rewrite El; apply canonical_sorted, (no_units _ _ _ _ Hnet)|]. split; [apply W'|]. intros n Hn.
      apply counts_nonzero in Hn; [|apply W']. rewrite Hcnt in Hn.
      destruct (fired_nonzero t o (count_of (sc_marking c)) n (net_inputs t Hin) (λ n', count_nonneg _ n' (cw_marking _ _ _ _ c W)) Hn) as [Hn'|(d & Hd & <-)].
      * apply Go. apply counts_nonzero; [apply W|exact Hn'].
      * destruct (Hos o d Eo Hd) as [_ (sp & Esp & Hu)]. by apply (no_places _ _ _ _ Hnet t sp).
    + intros s s' (s0 & s1 & s2 & H1 & H2 & H3 & H4)%Hc Hw. apply Hc. exists s0, s1, s2. split_and!; try done. by eapply wait_trans.
    + intros s' (s0 & s1 & s2 & H1 & H2 & H3 & H4)%Hc. eapply reach_wait; [|done]. eapply reach_fire; [|done|done|done|done].
      eapply reach_wait; [|done]. by apply Hre.
  - intros s s' Hs Hf. apply Hc. exists s, s, s'. split_and!; [done| |done|].
    + apply wait_refl. intros j Hj. destruct Hs as [Hcs Hz].
      assert (j ∈ enabledTransitions c) as Hjin by (apply (en_in scale ts env mode c W); by rewrite (enabled_ext _ (ts_counts s))).
      apply list_elem_of_lookup in Hjin as [k Ek]. pose proof (lookup_lt_Some _ _ _ Ek) as Hk.
      pose proof (zone_nonneg scale _ _ k (cw_zone _ _ _ _ c W) Hz) as Hp. unfold at_ in Hp. rewrite Ek in Hp. apply Hp.
      by rewrite (cw_names _ _ _ _ c W He), length_fmap.
    + apply wait_refl. intros j Hj. destruct Hf as (t' & _ & _ & _ & _ & Hf). specialize (Hf j Hj). destruct (persists _ _ _ _ _ _) eqn:Ep.
      * unfold persists in Ep. apply andb_true_iff in Ep as [[_ Ep]%andb_true_iff _]. destruct Hs as [Hcs Hz].
        assert (j ∈ enabledTransitions c) as Hjin by (apply (en_in scale ts env mode c W); by rewrite (enabled_ext _ (ts_counts s))).
        apply list_elem_of_lookup in Hjin as [k Ek]. pose proof (lookup_lt_Some _ _ _ Ek) as Hk.
        pose proof (zone_nonneg scale _ _ k (cw_zone _ _ _ _ c W) Hz) as Hp. unfold at_ in Hp. rewrite Ek in Hp. rewrite Hf. apply Hp.
        by rewrite (cw_names _ _ _ _ c W He), length_fmap.
      * destruct Hf as [Hf _]. destruct (lower_ok scale ts untimed Hscale net_timings j). lia.
Qed.

(** ** The construction *)

Record x_ok x : Prop := {
  xo_classes : ∀ c, c ∈ x_classes x → class_ok c;
  xo_map : ∀ key j, map_get key (x_map x) = Some j → ∃ c, x_classes x !! j = Some c ∧ classKey scale c = key;
  xo_len : length (x_edges x) = length (x_classes x)
}.

Definition edges_of x (k i : nat) : list branch_edge := default [] (map_get i (default [] (x_edges x !! k))).

Record x_le x x' : Prop := {
  xl_classes : ∀ k c, x_classes x !! k = Some c → x_classes x' !! k = Some c;
  xl_map : ∀ key j, map_get key (x_map x) = Some j → map_get key (x_map x') = Some j;
  xl_edges : ∀ k i e, e ∈ edges_of x k i → e ∈ edges_of x' k i
}.

Lemma x_le_refl x : x_le x x.
Proof. by constructor. Qed.
Lemma x_le_trans x1 x2 x3 : x_le x1 x2 → x_le x2 x3 → x_le x1 x3.
Proof. intros [A1 A2 A3] [B1 B2 B3]. constructor; auto. Qed.

(** The successor has a class with its key, and an edge to it. *)
Definition has_edge x (k i b : nat) c' : Prop :=
  sc_isEmpty c' = false → ∃ j, map_get (classKey scale c') (x_map x) = Some j ∧ BranchEdge b j ∈ edges_of x k i.

Lemma has_edge_le x x' k i b c' : x_le x x' → has_edge x k i b c' → has_edge x' k i b c'.
Proof. intros H He Hf. destruct (He Hf) as (j & H1 & H2). exists j. split; [by apply (xl_map x)|by apply (xl_edges x)]. Qed.

Lemma push_edge_elem i e m i' : default [] (map_get i' (push_edge i e m)) = default [] (map_get i' m) ++ (if decide (i' = i) then [e] else []).
Proof. unfold push_edge. rewrite map_get_set. case_decide as E; [by subst|by rewrite app_nil_r]. Qed.

Lemma edges_alter (l : list (list (nat * list branch_edge))) k i e k' i' : (k < length l)%nat →
  default [] (map_get i' (default [] (alter (push_edge i e) k l !! k'))) =
  default [] (map_get i' (default [] (l !! k'))) ++ (if decide (k' = k ∧ i' = i) then [e] else []).
Proof.
  intros Hk. destruct (decide (k' = k)) as [->|Hne].
  - rewrite list_lookup_alter, (decide_True (P := k = k)) by done. destruct (lookup_lt_is_Some_2 l k Hk) as [m E]. rewrite E.
    change (default [] (push_edge i e <$> Some m)) with (push_edge i e m). change (default [] (Some m)) with m. rewrite push_edge_elem. f_equal. destruct (decide (i' = i)), (decide (k = k ∧ i' = i)); done || tauto.
  - rewrite list_lookup_alter_ne by done. rewrite decide_False by tauto. by rewrite app_nil_r.
Qed.

Lemma add_successor_spec x k vt c' : x_ok x → (k < length (x_classes x))%nat → (sc_isEmpty c' = false → class_ok c') →
  let x' := add_successor scale k vt c' x in
  x_ok x' ∧ x_le x x' ∧ has_edge x' k (vt_transition vt) (branchIndex vt) c'.
Proof.
  intros [O1 O2 O3] Hk Hc. cbn zeta. unfold add_successor. destruct (sc_isEmpty c') eqn:He.
  { split; [done|]. split; [apply x_le_refl|]. intros H. congruence. }
  specialize (Hc eq_refl). cbn zeta. set (e := λ target, BranchEdge (branchIndex vt) target).
  assert (∀ l j k' i', (k < length l)%nat → edges_of (Exploration [] [] (alter (push_edge (vt_transition vt) (e j)) k l)) k' i' =
     default [] (map_get i' (default [] (l !! k'))) ++ (if decide (k' = k ∧ i' = vt_transition vt) then [e j] else [])) as Hed.
  { intros l j k' i' Hl. unfold edges_of. cbn [x_edges]. by apply edges_alter. }
  destruct (map_get (classKey scale c') (x_map x)) as [j|] eqn:E.
  - split; [|split].
    + constructor; cbn [x_classes x_map x_edges]; [done|done|by rewrite length_alter].
    + constructor; cbn [x_classes x_map]; [done|done|]. intros k' i' ed Hin. unfold edges_of in *. cbn [x_edges] in *.
      rewrite edges_alter by lia. apply elem_of_app. by left.
    + intros _. exists j. cbn [x_map]. split; [done|]. unfold edges_of. cbn [x_edges]. rewrite edges_alter by lia. rewrite decide_True by done.
      apply elem_of_app. right. left.
  - split; [|split].
    + constructor; cbn [x_classes x_map x_edges].
      * intros c [Hin|Hin]%elem_of_app; [by apply O1|]. by apply list_elem_of_singleton in Hin as ->.
      * intros key j. rewrite map_get_set. case_decide as Ek.
        -- intros [= <-]. exists c'. split; [|done]. by rewrite lookup_app_r, Nat.sub_diag by lia.
        -- intros (c & H1 & H2)%O2. exists c. split; [by apply lookup_app_l_Some|done].
      * rewrite !length_app, length_alter. simpl. lia.
    + assert (∀ k' i', edges_of (Exploration (x_classes x ++ [c']) (map_set (classKey scale c') (length (x_classes x)) (x_map x))
          (alter (push_edge (vt_transition vt) (e (length (x_classes x)))) k (x_edges x) ++ [[]])) k' i' =
        default [] (map_get i' (default [] (alter (push_edge (vt_transition vt) (e (length (x_classes x)))) k (x_edges x) !! k')))) as Happ.
      { intros k' i'. unfold edges_of. cbn [x_edges]. f_equal. f_equal. destruct (decide (k' < length (x_edges x))%nat) as [Hlt|Hge].
        - by rewrite lookup_app_l by (by rewrite length_alter).
        - rewrite (lookup_ge_None_2 (alter _ _ _)) by (rewrite length_alter; lia). destruct (decide (k' = length (x_edges x))) as [->|Hne].
          + rewrite lookup_app_r by (rewrite length_alter; lia). rewrite length_alter, Nat.sub_diag. done.
          + rewrite lookup_ge_None_2; [done|]. rewrite length_app, length_alter. simpl. lia. }
      constructor.
      * intros k' c H. cbn [x_classes]. by apply lookup_app_l_Some.
      * intros key j H. cbn [x_map]. rewrite map_get_set. case_decide; [congruence|done].
      * intros k' i' ed Hin. rewrite Happ. rewrite edges_alter by lia. apply elem_of_app. by left.
    + intros _. exists (length (x_classes x)). cbn [x_map]. rewrite map_get_set, decide_True by done. split; [done|].
      unfold edges_of. cbn [x_edges]. rewrite lookup_app_l by (rewrite length_alter; lia). rewrite edges_alter by lia. rewrite decide_True by done.
      apply elem_of_app. right. left.
Qed.

(** Class [k] has edges to all its successors by [i]. *)
Definition covered x k c i : Prop :=
  ∀ t os b o c', ts !! i = Some t → outcomes t = Ok os → os !! b = Some o → succ c i b o t = Ok c' → has_edge x k i b c'.

Lemma covered_le x x' k c i : x_le x x' → covered x k c i → covered x' k c i.
Proof. intros Hle H t os b o c' H1 H2 H3 H4. eapply has_edge_le; [done|]. by eapply H. Qed.

Lemma expand_transition_spec x k c i : x_ok x → x_classes x !! k = Some c → i ∈ enabledTransitions c →
  ∃ x', expand_transition scale ts env mode untimed k c x i = Ok x' ∧ x_ok x' ∧ x_le x x' ∧ covered x' k c i.
Proof.
  intros Hx Ek Hi. assert (class_ok c) as Hc by (apply (xo_classes x Hx); by eapply list_elem_of_lookup_2).
  assert (i < length ts)%nat as Hlt.
  { rewrite (cw_enabled _ _ _ _ c (co_wf c Hc)) in Hi. unfold enabled_list in Hi. apply list_elem_of_filter in Hi as [_ [_ ?]%elem_of_seq]. lia. }
  destruct (lookup_lt_is_Some_2 ts i Hlt) as [t Et]. destruct (net_outcomes t) as (os & Eos & _); [by eapply list_elem_of_lookup_2|].
  unfold expand_transition. rewrite Et. unfold expandTransition. rewrite Eos. cbn [lift res_bind].
  assert (∀ vts x, (∀ vt, vt ∈ vts → vt_transition vt = i ∧ os !! branchIndex vt = Some (vt_outcome vt)) → x_ok x → x_classes x !! k = Some c →
    ∃ x', fold_result (λ x vt, let* successor := computeSuccessor scale ts env mode c vt untimed None t in Ok (add_successor scale k vt successor x)) x vts = Ok x' ∧
      x_ok x' ∧ x_le x x' ∧ ∀ vt c', vt ∈ vts → computeSuccessor scale ts env mode c vt untimed None t = Ok c' → has_edge x' k i (branchIndex vt) c') as Hloop.
  { clear x Hx Ek. induction vts as [|vt vts IH]; intros x Hvts Hx Ek.
    { exists x. split_and!; [done|done|apply x_le_refl|by intros ? ? ?%not_elem_of_nil]. }
    destruct (Hvts vt ltac:(left)) as [Ei Eb]. destruct vt as [i' b o]. cbn [vt_transition branchIndex vt_outcome] in *. subst i'.
    destruct (successor_ok c i b t os o Hc Hi Et Eos Eb) as (c1 & E1 & Hok & _).
    destruct (add_successor_spec x k (VirtualTransition i b o) c1 Hx (lookup_lt_Some _ _ _ Ek) Hok) as (X1 & L1 & H1).
    set (x1 := add_successor scale k (VirtualTransition i b o) c1 x) in *.
    destruct (IH x1) as (x2 & E2 & X2 & L2 & H2); [intros; apply Hvts; by right|done|by apply (xl_classes x)|].
    exists x2. split; [|split; [done|split; [by eapply x_le_trans|]]].
    - unfold fold_result in *. cbn [foldl res_bind]. rewrite E1. exact E2.
    - intros vt c' [->|Hin]%elem_of_cons E; [|by apply H2]. rewrite E1 in E. injection E as <-. by eapply has_edge_le. }
  destruct (Hloop (imap (λ b o, VirtualTransition i b o) os) x) as (x' & E & X' & L' & H'); [|done|done|].
  { intros vt Hin. apply list_elem_of_lookup in Hin as [b Hb]. rewrite list_lookup_imap in Hb. destruct (os !! b) as [o|] eqn:Eb; [|done].
    injection Hb as <-. done. }
  exists x'. split_and!; [exact E|done|done|]. intros t' os' b o c' Et' Eos' Eb E'. assert (t' = t) as -> by congruence. assert (os' = os) as -> by congruence.
  apply (H' (VirtualTransition i b o)); [|done]. apply list_elem_of_lookup. exists b. rewrite list_lookup_imap. by rewrite Eb.
Qed.

(** What a class expands: its enabled transitions, or those a selector keeps. *)
Definition selected (sel : selector) c : result scg_error (list nat) :=
  match sel with None => Ok (enabledTransitions c) | Some select => select (sc_marking c) (enabledTransitions c) end.
Definition expanded_of (sel : selector) c : list nat := match selected sel c with Ok l => l | Err _ => [] end.

Variable sel : selector.
(** The selector does not throw on a class, and keeps enabled transitions. *)
Hypothesis Hsel : ∀ c, class_ok c → is_ok (selected sel c) ∧ ∀ i, i ∈ expanded_of sel c → i ∈ enabledTransitions c.

Lemma expand_class_spec x k c : x_ok x → x_classes x !! k = Some c →
  ∃ x', expand_class scale ts env mode untimed sel k c x = Ok x' ∧ x_ok x' ∧ x_le x x' ∧ ∀ i, i ∈ expanded_of sel c → covered x' k c i.
Proof.
  intros Hx Ek. unfold expand_class. change (match sel with None => Ok (enabledTransitions c) | Some select => select (sc_marking c) (enabledTransitions c) end) with (selected sel c).
  destruct (Hsel c) as [Hok Hin]; [apply (xo_classes x Hx); by eapply list_elem_of_lookup_2|]. unfold expanded_of in *. destruct (selected sel c) as [expand|]; [|done]. cbn [res_bind].
  assert (∀ l x, (∀ i, i ∈ l → i ∈ enabledTransitions c) → x_ok x → x_classes x !! k = Some c →
    ∃ x', fold_result (expand_transition scale ts env mode untimed k c) x l = Ok x' ∧ x_ok x' ∧ x_le x x' ∧ ∀ i, i ∈ l → covered x' k c i) as Hloop.
  { clear x Hx Ek. induction l as [|i l IH]; intros x Hl Hx Ek.
    { exists x. split_and!; [done|done|apply x_le_refl|by intros ? ?%not_elem_of_nil]. }
    destruct (expand_transition_spec x k c i Hx Ek) as (x1 & E1 & X1 & L1 & H1); [apply Hl; left|].
    destruct (IH x1) as (x2 & E2 & X2 & L2 & H2); [intros; apply Hl; by right|done|by apply (xl_classes x)|].
    exists x2. split; [|split; [done|split; [by eapply x_le_trans|]]].
    - unfold fold_result in *. cbn [foldl res_bind]. by rewrite E1.
    - intros j [->|Hj]%elem_of_cons; [by eapply covered_le|by apply H2]. }
  by apply Hloop.
Qed.

Definition covered_upto x (n : nat) : Prop := ∀ k c i, (k < n)%nat → x_classes x !! k = Some c → i ∈ expanded_of sel c → covered x k c i.

(** What the construction leaves. *)
Record graph_ok x (g : scg) : Prop := {
  go_x : x_ok x;
  go_classes : g_classes g = x_classes x;
  go_edges : g_transitions g = x_edges x;
  go_covered : covered_upto x (g_expanded g);
  go_complete : g_complete g = true → (length (x_classes x) ≤ g_expanded g)%nat
}.
Definition within (maxClasses : Z) (g : scg) : Prop := g_complete g = false → maxClasses <= Z.of_nat (length (g_classes g)).

Lemma explore_spec maxClasses fuel x k : (Z.of_nat k <= maxClasses → maxClasses - Z.of_nat k < Z.of_nat fuel) → (0 < fuel)%nat →
  x_ok x → covered_upto x k →
  ∃ x' g, explore scale ts env mode untimed sel None maxClasses fuel x k = Ok (Some g) ∧ x_le x x' ∧ graph_ok x' g ∧ within maxClasses g.
Proof.
  revert x k. induction fuel as [|fuel IH]; intros x k Hf H0 Hx Hk; [lia|]. cbn [explore].
  destruct (x_classes x !! k) as [c|] eqn:E.
  2:{ apply lookup_ge_None in E. exists x. eexists. split; [reflexivity|]. split; [apply x_le_refl|]. split; [by constructor|done]. }
  pose proof (lookup_lt_Some _ _ _ E) as Hlt. case_bool; b2p.
  { exists x. eexists. split; [reflexivity|]. split; [apply x_le_refl|]. split; [by constructor|]. by intros _. }
  destruct (expand_class_spec x k c Hx E) as (x1 & E1 & X1 & L1 & H1). rewrite E1. cbn [res_bind].
  destruct (IH x1 (S k)) as (x2 & g & E2 & L2 & G2 & B2); [lia|lia|done| |].
  - intros k' c' i Hk' Ec' Hi. destruct (decide (k' = k)) as [->|Hne].
    + assert (c' = c) as -> by (apply (xl_classes x x1 L1) in E; congruence). by apply H1.
    + destruct (lookup_lt_is_Some_2 (x_classes x) k') as [c0 E0]; [lia|]. assert (c' = c0) as -> by (apply (xl_classes x x1 L1) in E0; congruence).
      eapply covered_le; [done|]. apply Hk; [lia|done|done].
  - exists x2, g. split_and!; [done|by eapply x_le_trans|done|done].
Qed.

Variable isPassthrough : nat → bool.
Hypothesis Hactions : requireOutputProducingActions isPassthrough 0 ts = Ok ().

Lemma build_spec maxClasses : ∃ c0 x g,
  initialStateClass scale ts env mode untimed m0 = Ok c0 ∧
  scg_build scale ts env mode untimed isPassthrough sel None m0 maxClasses = Ok (Some g) ∧ graph_ok x g ∧ within maxClasses g ∧ x_classes x !! 0%nat = Some c0 ∧
  ∀ s, start_state scale ts env mode untimed m0 s → in_class c0 s.
Proof.
  destruct initial_ok as (c0 & E0 & Hc0 & Hstart). exists c0. unfold scg_build. rewrite Hactions. cbn [lift_compile res_bind].
  assert (match mode with Arrivals _ _ => negb (bool_decide (env = [])) | _ => false end = false) as ->.
  { pose proof (no_mode _ _ _ _ Hnet) as H. destruct mode; try done. cbn in H. by rewrite bool_decide_eq_true_2. }
  rewrite E0. cbn [res_bind].
  destruct (explore_spec maxClasses (S (Z.to_nat maxClasses)) (start_exploration scale c0) 0) as (x & g & E & L & G & B); [lia|lia| |intros ? ? ? ?; lia|].
  - constructor; unfold start_exploration; cbn [x_classes x_map x_edges]; [|intros key j; cbn [map_get]; case_decide as Ek; [|done]; intros [= <-]|done].
    + by intros c ->%list_elem_of_singleton.
    + exists c0. by split.
  - exists x, g. split_and!; [done|done|done|done| |done]. by apply (xl_classes _ _ L).
Qed.

(** Every run of the net stays in the classes of a complete graph. *)
Lemma graph_complete x g c0 : sel = None → graph_ok x g → g_complete g = true → x_classes x !! 0%nat = Some c0 →
  (∀ s, start_state scale ts env mode untimed m0 s → in_class c0 s) →
  ∀ s, timed_reachable s → ∃ c, c ∈ g_classes g ∧ in_class c s.
Proof.
  intros Esel [Hx -> _ Hcov Hall] Hcomp E0 Hstart s Hr. specialize (Hall Hcomp). induction Hr as [s Hs|s s' _ IH Hw|i t os o s s' _ IH Et Eos Ho Hf].
  - exists c0. split; [by eapply list_elem_of_lookup_2|by apply Hstart].
  - destruct IH as (c & Hc & Hin). exists c. split; [done|]. by apply (co_closed c (xo_classes x Hx c Hc) s).
  - destruct IH as (c & Hc & Hin). pose proof (xo_classes x Hx c Hc) as Hok. apply list_elem_of_lookup in Hc as [k Ek]. apply list_elem_of_lookup in Ho as [b Eb].
    assert (i ∈ enabledTransitions c) as Hi.
    { apply (en_in scale ts env mode c (co_wf c Hok)). destruct Hf as (t' & _ & Hen & _). rewrite (enabled_ext _ (ts_counts s)); [done|apply Hin]. }
    destruct (successor_ok c i b t os o Hok Hi Et Eos Eb) as (c' & E' & Hok' & Hstep). specialize (Hstep s s' Hin Hf).
    pose proof (in_class_full c' s' Hstep) as Hfull. specialize (Hok' Hfull).
    assert (i ∈ expanded_of sel c) as Hi' by (unfold expanded_of; by rewrite Esel). destruct (Hcov k c i) with (t := t) (os := os) (b := b) (o := o) (c' := c') as (j & Ej & _); try done.
    { eapply Nat.lt_le_trans; [by eapply lookup_lt_Some|done]. }
    apply (xo_map x Hx) in Ej as (cj & Ecj & Ekey). exists cj. split; [by eapply list_elem_of_lookup_2|].
    assert (class_ok cj) as Hokj by (apply (xo_classes x Hx); by eapply list_elem_of_lookup_2).
    apply (classKey_inj scale ts env mode Hscale (no_units _ _ _ _ Hnet) (no_distinct _ _ _ _ Hnet) c' cj); try done; [apply Hok'|apply Hokj|apply Hok'|apply Hokj|apply Hokj].
Qed.
End Exact.

(** ** The token game *)

Section TokenGame.
Context {V : Type}.
Variables (ts : list (transition V)) (env : list jsstr) (mode : environment_mode).

(** The markings the untimed net reaches, as counts: an enabled transition fires, and ends in one of its outcomes. *)
Inductive token_reachable (m0 : marking_state) : (jsstr → Z) → Prop :=
| token_start c : (∀ n, c n = count_of m0 n) → token_reachable m0 c
| token_fire c c' i t os o : token_reachable m0 c → ts !! i = Some t → enabled_counts env mode t c = true →
    outcomes t = Ok os → o ∈ os → (∀ n, c' n = fired_counts env mode t o c n) → token_reachable m0 c'.

Variables (scale : Z) (m0 : marking_state).
Hypothesis Hscale : 0 < scale.

Lemma token_timed c : token_reachable m0 c → timed_reachable scale ts env mode true m0 (TState c (λ _, 0)).
Proof.
  assert (∀ j, lower_at scale ts true j <= 0 ∧ jle (Fin 0) (upper_at scale ts true j)) as Hint.
  { intros j. unfold lower_at, upper_at. destruct (ts !! j); cbn [from_option]; [|simpl; lia]. simpl. unfold millisecond, MAX_DURATION_MS. lia. }
  induction 1 as [c Hc|c c' i t os o _ IH Et En Eos Ho Hc'].
  - apply reach_start. split; [done|]. intros j _. apply Hint.
  - eapply reach_fire; [exact IH|exact Et|exact Eos|exact Ho|]. exists t. cbn [ts_counts to_fire]. split_and!; [done|unfold enabled_at; by rewrite Et|done|done|].
    intros j _. destruct (persists _ _ _ _ _ _); [done|apply Hint].
Qed.

Lemma timed_token untimed s : timed_reachable scale ts env mode untimed m0 s → ∀ c, (∀ n, c n = ts_counts s n) → token_reachable m0 c.
Proof.
  induction 1 as [s [Hs _]|s s' _ IH (δ & _ & Hc & _)|i t os o s s' _ IH Et Eos Ho (t' & Et' & Hen & _ & Hc & _)]; intros c Ec.
  - apply token_start. intros n. by rewrite Ec.
  - apply IH. intros n. by rewrite Ec.
  - assert (t' = t) as -> by congruence. unfold enabled_at in Hen. rewrite Et in Hen.
    eapply (token_fire m0 (ts_counts s) c i t os o); try done; [by apply IH|]. intros n. by rewrite Ec, Hc.
Qed.
End TokenGame.

(** ** Properties *)

(** Building a state-class graph always ends: whatever the net, marking, environment, class
    limit, stubborn-set selector and deadline, the breadth-first loop stops within [maxClasses + 1]
    rounds, with a graph or a thrown error. *)
Theorem scg_build_terminates {V} scale (ts : list (transition V)) env mode untimed isPassthrough stubborn stops m0 maxClasses :
  scg_build scale ts env mode untimed isPassthrough stubborn stops m0 maxClasses ≠ Ok None.
Proof.
  unfold scg_build. destruct (lift_compile _) as [[]|]; cbn [res_bind]; [|done]. case_bool; [done|].
  destruct (initialStateClass _ _ _ _ _ _) as [c|]; cbn [res_bind]; [|done]. apply explore_fuel; lia.
Qed.

(** One step of the class graph is exact. For an enabled transition of a class and any of its
    outcomes, [computeSuccessor] does not throw and answers a class whose marking is the fired
    marking and whose states are exactly those reached from a state of the class by waiting (while no
    enabled transition is overdue), firing the transition when its time has come, and waiting again;
    the clocks that keep running are those of the other transitions enabled throughout the firing,
    and every other enabled transition starts a new interval. *)
Theorem computeSuccessor_exact {V} scale (ts : list (transition V)) env mode untimed c i b t o :
  0 < scale → mode_ok env mode → (∀ t, t ∈ ts → inputs_wf (inputSpecs t)) → (∀ t, t ∈ ts → timing_ok (t_timing t)) →
  class_wf scale ts env mode c → i ∈ enabledTransitions c → ts !! i = Some t → outcome_ok o →
  ∃ c', computeSuccessor scale ts env mode c (VirtualTransition i b o) untimed None t = Ok c' ∧ class_wf scale ts env mode c' ∧
    (∀ n, count_of (sc_marking c') n = fired_counts env mode t o (count_of (sc_marking c)) n) ∧
    ∀ s', in_class c' s' ↔ ∃ s s1 s2, in_class c s ∧ wait_step ts env mode s s1 ∧
      fire_step scale ts env mode untimed i o s1 s2 ∧ wait_step ts env mode s2 s'.
Proof.
  intros Hs Hm Hin Ht Hw Hi Et Ho. destruct (successor_spec scale ts env mode untimed Hs Hm Hin Ht c i b t o Hw Hi Et Ho) as (c' & E & W & _ & C & H).
  by exists c'.
Qed.

(** [isReachable] on a complete untimed graph decides reachability in the token game: it
    answers true exactly for the markings that some sequence of firings of enabled transitions
    produces from the initial marking. *)
Theorem isReachable_exact {V} scale (ts : list (transition V)) env mode isPassthrough m0 maxClasses g m :
  0 < scale → scg_net_ok ts env mode m0 → requireOutputProducingActions isPassthrough 0 ts = Ok () →
  scg_build scale ts env mode true isPassthrough None None m0 maxClasses = Ok (Some g) → isComplete g = true → good_marking m →
  isReachable g m = true ↔ token_reachable ts env mode m0 (count_of m).
Proof.
  intros Hs Hn Ha Eg Hcomp Hm. destruct (build_spec scale ts env mode true m0 Hs Hn None (λ _ _, conj I (λ _ H, H)) isPassthrough Ha maxClasses) as (c0 & x & g' & _ & E & G & _ & E0 & Hst).
  rewrite E in Eg. injection Eg as ->. pose proof G as [Hx Ec _ _ _].
  assert (∀ c, c ∈ g_classes g → class_ok scale ts env mode true m0 c) as Hcls by (intros c Hc; rewrite Ec in Hc; by apply (xo_classes _ _ _ _ _ _ x Hx)).
  unfold isReachable. rewrite existsb_exists. split.
  - intros (c & Hc%list_elem_of_In & Hsame). pose proof (Hcls c Hc) as Hok. unfold same_marking in Hsame. apply bool_decide_eq_true in Hsame.
    pose proof (proj1 (toString_iff _ _ (proj2 (co_ordered _ _ _ _ _ _ c Hok)) Hm) Hsame) as Hcnt.
    destruct (class_inhabited _ _ _ _ _ _ c Hok) as [s Hin].
    apply (timed_token ts env mode scale m0 true s (co_reached _ _ _ _ _ _ c Hok s Hin)). intros n. by rewrite <- (proj1 Hin n), Hcnt.
  - intros Hr. apply (token_timed ts env mode scale m0 Hs) in Hr.
    destruct (graph_complete scale ts env mode true m0 Hs Hn None x g c0 eq_refl G Hcomp E0 Hst _ Hr) as (c & Hc & Hin). exists c. split; [by apply list_elem_of_In|].
    apply bool_decide_eq_true. apply toString_iff; [apply (co_ordered _ _ _ _ _ _ c (Hcls c Hc))|done|]. intros n. by rewrite (proj1 Hin n).
Qed.

(** ** A concrete net *)

(** The hypotheses of a concrete net, by computation. *)
Definition checked_marking (m : marking_state) : bool :=
  bool_decide (NoDup (tokenCounts m).*1) && bool_decide ((placesByName m).*1 = (tokenCounts m).*1) &&
  forallb (λ y, bool_decide (place_name y.2 = y.1)) (placesByName m) && forallb (λ y, 0 <? y.2) (tokenCounts m) &&
  bool_decide (Forall good_name (tokenCounts m).*1).
Lemma checked_marking_good m : checked_marking m = true → good_marking m.
Proof.
  unfold checked_marking. rewrite !andb_true_iff, !bool_decide_eq_true, !forallb_elem, Forall_forall. intros [[[[H1 H2] H3] H4] H5]. split; [|done]. constructor.
  - done.
  - by rewrite H2.
  - intros n p Hin. specialize (H3 (n, p) Hin). by apply bool_decide_eq_true in H3.
  - by rewrite H2.
  - intros n z Hin. specialize (H4 (n, z) Hin). cbn in H4. lia.
Qed.

Definition checked_net {V} (bs : list (builder V)) (ts : list (transition V)) (m0 : marking_state) : bool :=
  forallb (λ b, from_option inhabited_xors true (b_output b)) bs && bool_decide (NoDup (t_name <$> ts)) &&
  bool_decide (Forall (Forall unit16) (t_name <$> ts)) && bool_decide (Forall (λ t, Forall good_name (from_option universe [] (outputSpec t))) ts) && checked_marking m0.
Lemma checked_net_ok {V} bs (ts : list (transition V)) m0 : build <$> bs = Ok <$> ts → checked_net bs ts m0 = true → scg_net_ok ts [] Ignore m0.
Proof.
  intros Hb. unfold checked_net. rewrite !andb_true_iff, !bool_decide_eq_true, forallb_elem, !Forall_forall. intros [[[[H1 H2] H3] H4] H5]. constructor.
  - intros t [i Ht]%list_elem_of_lookup. assert ((Ok <$> ts : list (result build_error (transition V))) !! i = Some (Ok t)) as Hi by (by rewrite list_lookup_fmap, Ht).
    rewrite <- Hb, list_lookup_fmap in Hi. apply fmap_Some in Hi as (b & Eb & Hi). exists b. split; [done|]. intros o Eo.
    specialize (H1 b ltac:(by eapply list_elem_of_lookup_2)). by rewrite Eo in H1.
  - done.
  - intros t Ht. apply H3. by apply list_elem_of_fmap_2.
  - intros t o n Ht Eo Hn. specialize (H4 t Ht). rewrite Eo, Forall_forall in H4. by apply H4.
  - by apply checked_marking_good.
  - done.
Qed.

Definition example_net : list (transition unit) := [built example_builder].
Definition example_initial : marking_state :=
  MarkingState [(js "in", 2); (js "slot", 1)] [(js "in", Place 0 (js "in")); (js "slot", Place 1 (js "slot"))].

Lemma example_initial_good : good_marking example_initial.
Proof. by apply checked_marking_good. Qed.

Lemma example_net_ok : scg_net_ok example_net [] Ignore example_initial.
Proof. by apply (checked_net_ok [example_builder]). Qed.

Definition example_outcome : outcome := branch_outcome [Place 2 (js "ok")].

Lemma computeSuccessor_exact_witness : ∃ c c',
  initialStateClass 1 example_net [] Ignore false example_initial = Ok c ∧
  computeSuccessor 1 example_net [] Ignore c (VirtualTransition 0 0 example_outcome) false None (built example_builder) = Ok c' ∧
  sc_isEmpty c' = false ∧
  ∀ s', in_class c' s' ↔ ∃ s s1 s2, in_class c s ∧ wait_step example_net [] Ignore s s1 ∧
    fire_step 1 example_net [] Ignore false 0 example_outcome s1 s2 ∧ wait_step example_net [] Ignore s2 s'.
Proof.
  destruct (initial_ok 1 example_net [] Ignore false example_initial ltac:(lia) example_net_ok) as (c & E & [W _ _ _ _] & _).
  assert (0%nat ∈ enabledTransitions c) as Hi by (vm_compute in E; injection E as <-; left).
  destruct (computeSuccessor_exact 1 example_net [] Ignore false c 0 0 (built example_builder) example_outcome) as (c' & E' & _ & _ & H).
  - lia.
  - exact I.
  - exact (net_inputs example_net [] Ignore example_initial example_net_ok).
  - exact (net_timings example_net [] Ignore example_initial example_net_ok).
  - exact W.
  - exact Hi.
  - reflexivity.
  - intros d ->%list_elem_of_singleton. discriminate.
  - exists c, c'. split; [exact E|]. split; [exact E'|]. split; [|exact H]. vm_compute in E. injection E as <-. vm_compute in E'. injection E' as <-. reflexivity.
Defined.

(** Its graph, untimed. *)
Definition example_graph : scg :=
  match scg_build 1 example_net [] Ignore true (λ _, false) None None example_initial 10 with Ok (Some g) => g | _ => Scg [] [] false 0 end.

Lemma isReachable_exact_witness :
  token_reachable example_net [] Ignore example_initial (count_of (MarkingState [(js "retry", 2)] [(js "retry", Place 3 (js "retry"))])) ∧
  ¬ token_reachable example_net [] Ignore example_initial (count_of (MarkingState [(js "retry", 3)] [(js "retry", Place 3 (js "retry"))])).
Proof.
  assert (∀ k, 0 < k → good_marking (MarkingState [(js "retry", k)] [(js "retry", Place 3 (js "retry"))])) as Hg.
  { intros k Hk. split; [constructor|].
    - apply NoDup_singleton.
    - done.
    - intros n p [= -> ->]%list_elem_of_singleton. done.
    - apply NoDup_singleton.
    - intros n z [= -> ->]%list_elem_of_singleton. lia.
    - intros n ->%list_elem_of_singleton. apply (bool_decide_unpack _). vm_compute. exact I. }
  assert (scg_build 1 example_net [] Ignore true (λ _, false) None None example_initial 10 = Ok (Some example_graph)) as E by (vm_compute; reflexivity).
  pose proof (isReachable_exact 1 example_net [] Ignore (λ _, false) example_initial 10 example_graph) as H.
  split.
  - apply H; [lia|exact example_net_ok|reflexivity|exact E|vm_compute; reflexivity|apply Hg; lia|vm_compute; reflexivity].
  - intros Hr. apply H in Hr; [vm_compute in Hr; discriminate|lia|exact example_net_ok|reflexivity|exact E|vm_compute; reflexivity|apply Hg; lia].
Defined.

(** A place name with the separator of the printed marking is read as two places: the graph of a net
    that holds one token on such a place reports another marking as reachable. *)
Lemma isReachable_collides : ∃ g, scg_build 1 ([] : list (transition unit)) [] Ignore true (λ _, false) None None one_comma 10 = Ok (Some g) ∧
  isComplete g = true ∧ isReachable g two_plain = true ∧ ¬ token_reachable ([] : list (transition unit)) [] Ignore one_comma (count_of two_plain).
Proof.
  eexists. split; [vm_compute; reflexivity|]. split; [reflexivity|]. split; [vm_compute; reflexivity|].
  intros H. inversion H as [c Hc|c c' i t os o _ Et]; [|done]. specialize (Hc (js "a")). vm_compute in Hc. discriminate.
Qed.
