(* ===== verification/Agreement.v ===== *)
(** * The analyses explore what the executor does

    The executor's firing and the firing rule of the analyses agree on the counts of a marking, so
    a complete untimed state-class graph covers every marking the executor reaches by firings that
    complete before the next one starts. *)
From S2P Require Import Prelude.
From S2P Require Import CodePoints.
From S2P Require Import Net.
From S2P Require Import Out.
From S2P Require Import OutSpec.
From S2P Require Import Transition.
From S2P Require Import Marking.
From S2P Require Import MatchEngine.
From S2P Require Import OutputCheck.
From S2P Require Import Context.
From S2P Require Import Executor.
From S2P Require Import ExecFire.
From S2P Require Import ExecGame.
From S2P Require Import PetriNet.
From S2P Require Import CompiledNet.
From S2P Require Import MarkingState.
From S2P Require Import Outcomes.
From S2P Require Import StateClass.
From S2P Require Import ClassSteps.
From S2P Require Import ClassKeys.
From S2P Require Import GraphExact.
#[local] Open Scope Z_scope.
#[local] Arguments ti_getAll {V}.

Section Agreement.
Context {V : Type}.
Implicit Types (t : transition V) (m : marking V) (es : list (place * token V)).

(** The counts of a marking of tokens. *)
Definition marking_counts m (n : jsstr) : Z := Z.of_nat (length (queue m n)).

Abbreviation enabledc t m := (enabled_counts [] Ignore t (marking_counts m)).

Lemma supplied_none n : supplied [] Ignore n = false.
Proof. unfold supplied. by rewrite andb_false_r. Qed.

Lemma can_take_none n r (c : jsstr → Z) : can_take [] Ignore n r c = (r <=? c n).
Proof. unfold can_take. by rewrite supplied_none. Qed.

(** Enabling: the executor's test, names of a join aside, is the analyses'. *)
Lemma enabled_agree t m : t_matchSpec t = None → enabled_in t m ↔ enabledc t m = true.
Proof.
  intros Hms. unfold enabled_in, enabled_counts. rewrite !andb_true_iff, !forallb_forall. setoid_rewrite can_take_none. setoid_rewrite Z.leb_le.
  setoid_rewrite <- list_elem_of_In. unfold marking_counts. rewrite Hms. split.
  - intros (H1 & H2 & H3 & _). split_and!; [exact H1| |].
    + intros p Hp. specialize (H2 p Hp). destruct (queue m (place_name p)); [done|]. cbn [length]. lia.
    + intros p Hp. by rewrite (H3 p Hp).
  - intros [[H1 H2] H3]. split_and!; [exact H1| | |done].
    + intros p Hp E. specialize (H2 p Hp). rewrite E in H2. cbn in H2. lia.
    + intros p Hp. specialize (H3 p Hp). destruct (queue m (place_name p)); [done|]. cbn [length] in H3. lia.
Qed.

Lemma input_count_take t s (q : list (token V)) : t_matchSpec t = None → 1 <= requiredCount s <= Z.of_nat (length q) →
  Z.of_nat (input_count t None s q) = take_count s (Z.of_nat (length q)) ∧ (input_count t None s q <= length q)%nat ∧
  input_left t None s q = drop (input_count t None s q) q ∧ length (input_taken t None s q) = input_count t None s q.
Proof.
  intros Hms Hr. unfold input_left, input_taken.
  assert (input_pred t None s = λ _, true) as -> by (unfold input_pred, input_predicate; by rewrite Hms).
  rewrite remove_matching_true, matching_true.
  assert (Z.of_nat (input_count t None s q) = take_count s (Z.of_nat (length q)) ∧ (input_count t None s q <= length q)%nat) as [H1 H2].
  { unfold input_count. assert (input_pred t None s = λ _, true) as -> by (unfold input_pred, input_predicate; by rewrite Hms).
    rewrite matching_true. destruct s; cbn [requiredCount take_count] in *; lia. }
  split_and!; [done|done|done|]. rewrite length_firstn. lia.
Qed.

(** Consumption: the executor takes what the analyses take. *)
Lemma consume_agree t m n : t_matchSpec t = None → inputs_wf (inputSpecs t) → enabled_in t m →
  Z.of_nat (length (marking_after t None m n)) = intermediate_counts [] Ignore t (marking_counts m) n.
Proof.
  intros Hms [Hd Hr] (He & _). unfold marking_after, intermediate_counts. case_decide; [done|].
  unfold left_after, removed. fold (spec_of t n). destruct (spec_of t n) as [s|] eqn:Es; [|unfold marking_counts; lia].
  apply spec_of_Some in Es as [Hs <-]. rewrite supplied_none. unfold marking_counts. specialize (He s Hs). rewrite Forall_forall in Hr. specialize (Hr s Hs).
  rewrite (proj2 (Z.ltb_ge _ _)) by done. cbn [orb].
  destruct (input_count_take t s (queue m (place_name (in_place s))) Hms) as (C1 & C2 & C3 & _); [done|]. rewrite C3, length_skipn, Nat2Z.inj_sub, C1 by done. done.
Qed.

Lemma landed_count es n : Z.of_nat (length (landed es n)) = count_entries n es.
Proof.
  unfold landed, count_entries. f_equal. induction es as [|[p tok] es IH]; [done|]. cbn [omap list_omap fst snd]. rewrite filter_cons. cbn [fst].
  case_decide; cbn [length]; by rewrite IH.
Qed.

Lemma count_entries_NoDup es n : NoDup ((λ y : place * token V, place_name y.1) <$> es) →
  count_entries n es = if decide (n ∈ (λ y : place * token V, place_name y.1) <$> es) then 1 else 0.
Proof.
  unfold count_entries. induction es as [|y es IH]; intros Hd; [done|]. rewrite fmap_cons in *. apply NoDup_cons in Hd as [Hn Hd].
  specialize (IH Hd). rewrite filter_cons. destruct (decide (place_name y.1 = n)) as [<-|Hne].
  - rewrite decide_False in IH by done. cbn [length]. rewrite Nat2Z.inj_succ, IH. by rewrite decide_True by left.
  - rewrite IH. destruct (decide (n ∈ (λ y0 : place * token V, place_name y0.1) <$> es)) as [H|H]; [by rewrite decide_True by (by right)|].
    rewrite decide_False; [done|]. by intros [?|?]%elem_of_cons.
Qed.

(** What a firing of [t] from [m] writes: an accepted output with one token per place, or the
    timeout production of the tokens it took. *)
Definition written t (o : out) m es : Prop :=
  (accepted t es None ∧ NoDup ((λ y, place_name y.1) <$> es) ∧ ∀ y, y ∈ es → place_name y.1 ∈ universe o) ∨
  ∃ ms c input now, actionTimeout t = Some (ms, c) ∧ es = timeout_entries input now c ∧
    ∀ s, s ∈ inputSpecs t → length (ti_getAll (in_place s) input) = length (input_taken t None s (queue m (place_name (in_place s)))).

(** The counts a firing's writes add are those of one of the analyses' outcomes. *)
Lemma written_counts (b : builder V) t o m es :
  build b = Ok t → b_output b = Some o → inhabited_xors o = true → Forall name_ok (universe o) → t_matchSpec t = None → enabled_in t m → written t o m es →
  ∃ os oc, outcomes t = Ok os ∧ oc ∈ os ∧ ∀ n, count_entries n es = deposited (drained_counts [] Ignore t (marking_counts m)) oc n.
Proof.
  intros Hb Eo Hi Hok Hms Hen Hw.
  assert (inputs_wf (inputSpecs t) ∧ outputSpec t = Some o) as [Hin Eot].
  { apply build_ok in Hb as [(H1 & _) ->]; [done|]. intros o'. rewrite Eo. by intros [= <-]. }
  destruct (outcomes_spec b t o Eo Hi Hb) as (os & Eos & _ & _ & Hbr & _ & Hto).
  exists os. destruct Hw as [(Ha & Hd & Hu)|(ms & c & input & now & Et & -> & Hin')].
  - destruct (Ha o Eot) as [Hv _]. set (P := set_of ((λ y, place_name y.1) <$> es)) in *.
    pose proof (validateOutSpec_spec o P Hok (NoDup_set_of _)) as Hspec. destruct (validateOutSpec o P) as [claim|]; [|done].
    destruct Hspec as (Hone & _ & _). unfold exactly_matching in Hone.
    destruct (filter _ (branches o)) as [|br [|]] eqn:Ef; try done.
    assert (br ∈ filter (λ b, same_set (relevant_names o P) b = true) (branches o)) as Hbrin by (rewrite Ef; left).
    apply list_elem_of_filter in Hbrin as [Hsame Hbrin]. apply list_elem_of_lookup in Hbrin as [i Ei].
    destruct (Hbr i br Ei) as (oc & Eoc & Hdep). exists oc. split; [done|]. split; [by eapply list_elem_of_lookup_2|]. intros n.
    rewrite Hdep, count_entries_NoDup by done. rewrite same_set_iff in Hsame. specialize (Hsame n).
    unfold relevant_names in Hsame. rewrite list_elem_of_filter, elem_of_specNames in Hsame. unfold P in Hsame. rewrite elem_of_set_of in Hsame.
    assert (n ∈ (λ y, place_name y.1) <$> es → n ∈ universe o) as Hu' by (intros (y & -> & Hy)%list_elem_of_fmap; by apply Hu).
    destruct (decide (n ∈ (λ y : place * token V, place_name y.1) <$> es)) as [H1|H1], (decide (n ∈ br)) as [H2|H2]; tauto.
  - destruct (Hto ms c Et) as (oc & Hoc & _ & Hdep). exists oc. split; [done|]. split; [done|]. intros n.
    assert (∀ s, s ∈ inputSpecs t → take_count s (marking_counts m (place_name (in_place s))) = drained_from input (in_place s) ∧
      requiredCount s <= marking_counts m (place_name (in_place s))) as Htake.
    { intros s Hs. destruct Hen as (Hen & _). specialize (Hen s Hs). destruct Hin as [_ Hr]. rewrite Forall_forall in Hr. specialize (Hr s Hs).
      destruct (input_count_take t s (queue m (place_name (in_place s))) Hms) as (C1 & _ & _ & C4); [done|]. unfold marking_counts, drained_from.
      rewrite (Hin' s Hs), C4, C1. done. }
    rewrite <- Hdep.
    2:{ intros s Hs. destruct (Htake s Hs) as [<- Hreq]. exists (marking_counts m (place_name (in_place s))). apply consumption_take. done. }
    unfold deposited. assert (∀ d, d ∈ deposits oc → ∀ from, od_deposit d = DepositDrained from → drained_from input from = drained_counts [] Ignore t (marking_counts m) from) as Hd.
    { intros d Hdin from Ed. unfold drained_counts. destruct (spec_of t (place_name from)) as [s|] eqn:Es.
      - apply spec_of_Some in Es as [Hs Es]. rewrite supplied_none. destruct (Htake s Hs) as [Ht Hreq]. rewrite Es in *.
        rewrite (proj2 (Z.ltb_ge _ _)), Ht by done. by apply drained_from_name.
      - destruct (outcomes_ok b t) as (os' & Eos' & Hok'); [intros o'; rewrite Eo; by intros [= <-]|done|]. assert (os' = os) as -> by congruence.
        destruct (Hok' oc d Hoc Hdin) as [Hdep' _]. unfold deposit_ok in Hdep'. rewrite Ed in Hdep'. apply list_elem_of_fmap in Hdep' as (s & -> & Hs).
        apply spec_of_None in Es. destruct Es. by apply (list_elem_of_fmap_2 (λ s, place_name (in_place s))). }
    clear -Hd. induction (deposits oc) as [|d l IH]; [done|]. cbn [total_deposit foldr]. unfold total_deposit in IH.
    rewrite IH by (intros; eapply Hd; [by right|done]). f_equal. case_decide; [|done]. unfold depositCount.
    destruct (od_deposit d) as [|from] eqn:Ed; [done|]. apply (Hd d); [left|done].
Qed.

(** One whole firing. *)
Lemma firing_agree (b : builder V) t o m m1 m2 es :
  build b = Ok t → b_output b = Some o → inhabited_xors o = true → Forall name_ok (universe o) → t_matchSpec t = None → enabled_in t m →
  (∀ n, queue m1 n = marking_after t None m n) → (∀ n, queue m2 n = queue m1 n ++ landed es n) → written t o m es →
  enabledc t m = true ∧ ∃ os oc, outcomes t = Ok os ∧ oc ∈ os ∧ ∀ n, marking_counts m2 n = fired_counts [] Ignore t oc (marking_counts m) n.
Proof.
  intros Hb Eo Hi Hok Hms Hen Hq1 Hq2 Hw. split; [by apply enabled_agree|].
  destruct (written_counts b t o m es Hb Eo Hi Hok Hms Hen Hw) as (os & oc & Eos & Hoc & Hdep). exists os, oc. split_and!; [done|done|]. intros n.
  unfold fired_counts. rewrite <- Hdep. unfold marking_counts at 1. rewrite Hq2, Hq1, length_app, Nat2Z.inj_add, landed_count. f_equal.
  apply consume_agree; [done| |done]. apply build_ok in Hb as [(H1 & _) ->]; [done|]. intros o'. rewrite Eo. by intros [= <-].
Qed.
End Agreement.

(** ** Runs *)

Section Runs.
Context {V : Type}.
Variables (ts : list (transition V)) (m0 : marking V).

(** The markings reached by whole firings, each completed before the next starts. *)
Inductive atomic_reachable : marking V → Prop :=
| atomic_start : atomic_reachable m0
| atomic_fire m m1 m2 i t o es : atomic_reachable m → ts !! i = Some t → outputSpec t = Some o → enabled_in t m →
    (∀ n, queue m1 n = marking_after t None m n) → (∀ n, queue m2 n = queue m1 n ++ landed es n) → written t o m es → atomic_reachable m2
| atomic_sink m m1 i t : atomic_reachable m → ts !! i = Some t → outputSpec t = None → enabled_in t m →
    (∀ n, queue m1 n = marking_after t None m n) → atomic_reachable m1.

(** Each firing that writes is two moves of the executor's token game. *)
Lemma atomic_moves env m m1 m2 i t es : ts !! i = Some t → t_matchSpec t = None → enabled_in t m → accepted t es None →
  (∀ n, queue m1 n = marking_after t None m n) → (∀ n, queue m2 n = queue m1 n ++ landed es n) →
  game_step ts env (m, []) (m1, [(i, None)]) ∧ game_step ts env (m1, [(i, None)]) (m2, []).
Proof.
  intros Et Hms He Ha H1 H2. assert (findBinding t (λ p, peekTokens p m) = None) as Ef by (unfold findBinding; by rewrite Hms).
  split.
  - pose proof (game_fire ts env m m1 [] i t Et) as H. rewrite Ef in H. apply H; [apply not_elem_of_nil|done|done].
  - pose proof (game_complete ts env m1 m2 [(i, None)] i None t es Et) as H. unfold land in H. rewrite filter_cons_False in H by (cbn; tauto).
    apply H; [left|done|done].
Qed.

Hypothesis Hbuilt : ∀ t, t ∈ ts → ∃ b, build b = Ok t ∧ ∀ o, b_output b = Some o → inhabited_xors o = true.
Hypothesis Hnames : ∀ t o, t ∈ ts → outputSpec t = Some o → Forall name_ok (universe o).
Hypothesis Hjoins : ∀ t, t ∈ ts → t_matchSpec t = None.

Lemma atomic_token ms m : (∀ n, count_of ms n = marking_counts m0 n) → atomic_reachable m → token_reachable ts [] Ignore ms (marking_counts m).
Proof.
  intros H0. induction 1 as [|m m1 m2 i t o es _ IH Et Eo Hen H1 H2 Hw|m m1 i t _ IH Et Eo Hen H1].
  - by apply token_start.
  - assert (t ∈ ts) as Hin by (by eapply list_elem_of_lookup_2). destruct (Hbuilt t Hin) as (b & Hb & Hi).
    assert (b_output b = Some o) as Ebo by (apply build_ok in Hb as [_ ->]; done).
    destruct (firing_agree b t o m m1 m2 es Hb Ebo (Hi o Ebo) (Hnames t o Hin Eo) (Hjoins t Hin) Hen H1 H2 Hw) as (He & os & oc & Eos & Hoc & Hc).
    by apply (token_fire ts [] Ignore ms (marking_counts m) _ i t os oc).
  - assert (t ∈ ts) as Hin by (by eapply list_elem_of_lookup_2). destruct (Hbuilt t Hin) as (b & Hb & Hi).
    assert (inputs_wf (inputSpecs t)) as Hwf by (by apply build_ok in Hb as [[? _] ->]).
    apply (token_fire ts [] Ignore ms (marking_counts m) _ i t [emptyOutcome] emptyOutcome); [done|done|by apply enabled_agree; [apply Hjoins|]| |left|].
    + unfold outcomes. by rewrite Eo.
    + intros n. unfold fired_counts. rewrite <- consume_agree by (auto; by apply Hjoins). unfold marking_counts. rewrite H1. cbn. lia.
Qed.
End Runs.

(** ** Properties *)

(** The analyses see what the executor does. On a net of built transitions without joins, with
    the executor's initial marking, every marking the executor reaches by whole firings (the tokens
    it takes, resets and deposits are those of its consumption rule and its accepted outputs of one
    token per place, or of its timeout production, batches included) has exactly the counts of some
    class of a complete untimed state-class graph: a marking the graph lacks is one such runs never
    reach. *)
Theorem graph_covers_executor {V} scale (ts : list (transition V)) isPassthrough maxClasses ms (m0 m : marking V) g :
  0 < scale → scg_net_ok ts [] Ignore ms → requireOutputProducingActions isPassthrough 0 ts = Ok () →
  (∀ t o, t ∈ ts → outputSpec t = Some o → Forall name_ok (universe o)) → (∀ t, t ∈ ts → t_matchSpec t = None) →
  (∀ n, count_of ms n = marking_counts m0 n) →
  scg_build scale ts [] Ignore true isPassthrough None None ms maxClasses = Ok (Some g) → isComplete g = true →
  atomic_reachable ts m0 m → ∃ c, c ∈ g_classes g ∧ ∀ n, count_of (sc_marking c) n = marking_counts m n.
Proof.
  intros Hs Hn Ha Hu Hj H0 Eg Hcomp Hr.
  apply (atomic_token ts m0 (no_built _ _ _ _ Hn) Hu Hj ms m H0), (token_timed ts [] Ignore scale ms Hs) in Hr.
  destruct (build_spec scale ts [] Ignore true ms Hs Hn None (λ _ _, conj I (λ _ H, H)) isPassthrough Ha maxClasses) as (c0 & x & g' & _ & E & G & _ & E0 & Hst).
  rewrite E in Eg. injection Eg as ->.
  destruct (graph_complete scale ts [] Ignore true ms Hs Hn None x g c0 eq_refl G Hcomp E0 Hst _ Hr) as (c & Hc & Hin & _). by exists c.
Qed.

Definition tok_at (n : Z) : token unit := Token (Some ()) n.
Definition example_tokens : marking unit :=
  addToken (Place 1 (js "slot")) (tok_at 3) (addToken (Place 0 (js "in")) (tok_at 2) (addToken (Place 0 (js "in")) (tok_at 1) (Marking [] []))).
Definition example_timed_out : marking unit :=
  addToken (Place 3 (js "retry")) (tok_at 2) (addToken (Place 3 (js "retry")) (tok_at 1) (Marking [] [])).
Definition example_taken : token_input unit :=
  ti_add (Place 1 (js "slot")) (tok_at 3) (ti_add (Place 0 (js "in")) (tok_at 2) (ti_add (Place 0 (js "in")) (tok_at 1) [])).

Lemma queue_empty n : queue (Marking [] [] : marking unit) n = [].
Proof. done. Qed.

(** The action of the example times out: both tokens are forwarded. *)
Lemma example_run : atomic_reachable example_net example_tokens example_timed_out.
Proof.
  apply (atomic_fire example_net example_tokens example_tokens (Marking [] []) example_timed_out 0 (built example_builder)
    (OutXor [OutPlace (Place 2 (js "ok")); OutTimeout 30 (OutForwardInput (Place 0 (js "in")) (Place 3 (js "retry")))])
    (timeout_entries example_taken 100 (OutForwardInput (Place 0 (js "in")) (Place 3 (js "retry"))))); [apply atomic_start|reflexivity|reflexivity| | | |].
  - apply enabled_agree; reflexivity.
  - intros n. unfold marking_after. rewrite decide_False by apply not_elem_of_nil. rewrite queue_empty.
    destruct (decide (n = js "in")) as [->|H1]; [reflexivity|]. destruct (decide (n = js "slot")) as [->|H2]; [reflexivity|].
    unfold left_after. rewrite js_find_name_None; [|by intros [?|[?|[]%not_elem_of_nil]%elem_of_cons]%elem_of_cons].
    unfold example_tokens. rewrite !queue_addToken, !decide_False by done. done.
  - intros n. unfold example_timed_out. rewrite !queue_addToken, queue_empty. cbn [place_name]. unfold landed.
    change (timeout_entries _ _ _) with [(Place 3 (js "retry"), tok_at 1); (Place 3 (js "retry"), tok_at 2)].
    cbn [omap list_omap fst snd place_name]. destruct (decide (n = js "retry")) as [->|H]; [by rewrite !decide_True|]. by rewrite !decide_False by congruence.
  - right. exists 30, (OutForwardInput (Place 0 (js "in")) (Place 3 (js "retry"))), example_taken, 100. split_and!; [done|done|].
    intros s [->|[->|[]%not_elem_of_nil]%elem_of_cons]%elem_of_cons; reflexivity.
Qed.

Lemma graph_covers_executor_witness :
  ∃ c, c ∈ g_classes example_graph ∧ ∀ n, count_of (sc_marking c) n = marking_counts example_timed_out n.
Proof.
  apply (graph_covers_executor 1 example_net (λ _, false) 10 example_initial example_tokens).
  - lia.
  - exact example_net_ok.
  - reflexivity.
  - intros t o ->%list_elem_of_singleton [= <-]. apply (bool_decide_unpack _). vm_compute. exact I.
  - intros t ->%list_elem_of_singleton. reflexivity.
  - intros n. unfold marking_counts, example_tokens. rewrite !queue_addToken, queue_empty. cbn [place_name]. unfold count_of, example_initial. cbn [tokenCounts map_get].
    destruct (decide (n = js "in")) as [->|H1]; [reflexivity|]. destruct (decide (n = js "slot")) as [->|H2]; [reflexivity|]. reflexivity.
  - vm_compute. reflexivity.
  - vm_compute. reflexivity.
  - exact example_run.
Defined.
