(* ===== verification/FlatNet.v ===== *)
(** * Flat nets and the incidence matrix

    [src/typescript/src/verification/encoding/]: [flat-transition.ts], [flat-net.ts],
    [net-flattener.ts], [incidence-matrix.ts]: integer-indexed pre and post vectors, one flat
    transition per way a firing can end. An absent key of a [Map] is [None]; a vector is the list of
    its entries. The source of a flat transition is its position in [net.transitions]. *)
From S2P Require Import Prelude.
From S2P Require Import CodePoints.
From S2P Require Import Net.
From S2P Require Import Out.
From S2P Require Import Transition.
From S2P Require Import PetriNet.
From S2P Require Import CompiledNet.
From S2P Require Import MarkingState.
From S2P Require Import Outcomes.
From S2P Require Import StateClass.
From S2P Require Import OutSpec.
From S2P Require Import ClassSteps.
From S2P Require Import GraphExact.
From stdpp Require Import relations.
#[local] Open Scope Z_scope.

(** ** Flat nets *)

Record flat_transition := FlatTransition {
  ft_name : jsstr;
  ft_source : nat;
  ft_branchIndex : Z;
  preVector : list Z;
  postVector : list Z;
  inhibitorIds : list nat;
  readIds : list nat;
  resetIds : list nat;
  consumeAll : list bool;
  reapable : bool
}.

Record flat_net := FlatNet {
  flatPlaces : list place;
  flatIndex : list (jsstr * nat);
  flatTransitions : list flat_transition;
  environmentBounds : list (jsstr * Z);
  environmentInjection : list (jsstr * option Z)
}.

Definition flatNetPlaceCount (net : flat_net) : nat := length (flatPlaces net).
Definition flatNetTransitionCount (net : flat_net) : nat := length (flatTransitions net).
Definition flatNetIndexOf (net : flat_net) (p : place) : Z := from_option Z.of_nat (-1) (map_get (place_name p) (flatIndex net)).

(** An entry of a vector, which every index of a loop over it has. *)
Definition entry_at (v : list Z) (i : nat) : Z := default 0 (v !! i).
Definition drains (ft : flat_transition) (i : nat) : bool := default false (consumeAll ft !! i).

(** ** Flattening *)

Inductive flat_error :=
| FlatArrivals (where_ : string)
| FlatOutcome (e : outcome_error).

Section Flatten.
Context {V : Type}.
Implicit Types (net : petri_net V) (t : transition V).

Definition flat_named net : list place :=
  net_places net ++ (t ← net_transitions net;
    (in_place <$> inputSpecs t) ++ from_option allPlaces [] (outputSpec t) ++ inhibitors t ++ reads t ++ resets t).

Definition flat_places net : list place :=
  stable_sort (λ a b, compareCodePoints (place_name a) (place_name b) <=? 0) (named_map (flat_named net)).*2.

(** The maps of the environment places: the bounds, then the injections. *)
Definition environment_maps (environmentPlaces : list place) (mode : environment_mode)
    : result flat_error (list (jsstr * Z) * list (jsstr * option Z)) :=
  match mode with
  | AlwaysAvailable => Ok ([], foldl (λ m p, map_set (place_name p) None m) [] environmentPlaces)
  | Bounded k => Ok (foldl (λ m p, map_set (place_name p) k m) [] environmentPlaces,
                     foldl (λ m p, map_set (place_name p) (Some k) m) [] environmentPlaces)
  | Ignore => Ok ([], [])
  | Arrivals _ _ => if bool_decide (length environmentPlaces = 0)%nat then Ok ([], []) else Err (FlatArrivals "flatten")
  end.

(** [placeIndex.get(name)] of every place, those without an index left out. *)
Definition ids (ix : list (jsstr * nat)) (ps : list place) : list nat := omap (λ p, map_get (place_name p) ix) ps.

Definition input_vectors (ix : list (jsstr * nat)) (n : nat) (specs : list in_spec) : list Z * list bool :=
  foldl (λ y s, match map_get (place_name (in_place s)) ix with
                | None => y
                | Some idx =>
                    match s with
                    | InOne _ => (<[idx := 1]> y.1, y.2)
                    | InExactly _ count => (<[idx := count]> y.1, y.2)
                    | InAll _ => (<[idx := 1]> y.1, <[idx := true]> y.2)
                    | InAtLeast _ minimum => (<[idx := minimum]> y.1, <[idx := true]> y.2)
                    end
                end) (replicate n 0, replicate n false) specs.

Definition minimum_of t (from : place) : Z :=
  from_option requiredCount 0 (js_find (λ s, bool_decide (place_name (in_place s) = place_name from)) (inputSpecs t)).

Definition post_vector (ix : list (jsstr * nat)) (n : nat) t (o : outcome) : list Z :=
  foldl (λ v d, match map_get (place_name (od_place d)) ix with
                | None => v
                | Some idx => <[idx := entry_at v idx + depositCount (od_deposit d) (minimum_of t)]> v
                end) (replicate n 0) (deposits o).

Definition flat_of (ix : list (jsstr * nat)) (n : nat) (reap : transition V → bool) (i : nat) t (branches : nat) (b : nat) (o : outcome)
    : flat_transition :=
  let name := if (1 <? branches)%nat then t_name t ++ js "_b" ++ number_string (Z.of_nat b) else t_name t in
  let vectors := input_vectors ix n (inputSpecs t) in
  FlatTransition name i (if (1 <? branches)%nat then Z.of_nat b else -1) vectors.1 (post_vector ix n t o)
    (ids ix (inhibitors t)) (ids ix (reads t)) (ids ix (resets t)) vectors.2 (reap t).

(** One flat transition per outcome. *)
Definition expand (ix : list (jsstr * nat)) (n : nat) (reap : transition V → bool) (i : nat) t : result flat_error (list flat_transition) :=
  match outcomes t with
  | Ok os => Ok (imap (flat_of ix n reap i t (length os)) os)
  | Err e => Err (FlatOutcome e)
  end.

Fixpoint expand_all (ix : list (jsstr * nat)) (n : nat) (reap : transition V → bool) (i : nat) (ts : list (transition V))
    : result flat_error (list flat_transition) :=
  match ts with
  | [] => Ok []
  | t :: ts =>
      let* fts := expand ix n reap i t in
      let* rest := expand_all ix n reap (S i) ts in
      Ok (fts ++ rest)
  end.

Definition flatten net (environmentPlaces : list place) (mode : environment_mode) (reap : transition V → bool) : result flat_error flat_net :=
  let ps := flat_places net in
  let ix := index_places ps in
  let* env := environment_maps environmentPlaces mode in
  let* fts := expand_all ix (length ps) reap 0 (net_transitions net) in
  Ok (FlatNet ps ix fts env.1 env.2).
End Flatten.

(** ** The incidence matrix *)

Record incidence_matrix := IncidenceMatrix {
  im_pre : list (list Z);
  im_post : list (list Z);
  incidence : list (list Z);
  numTransitions : nat;
  numPlaces : nat
}.

Definition unit_row (n i : nat) : list Z := <[i := 1]> (replicate n 0).
Definition injected_ids (fn : flat_net) : list nat := omap (λ y, map_get y.1 (flatIndex fn)) (environmentInjection fn).

(** [IncidenceMatrix.from]: a column per flat transition, then one per injected place. *)
Definition im_from (fn : flat_net) : incidence_matrix :=
  let n := length (flatPlaces fn) in
  let row v := (λ p, entry_at v p) <$> seq 0 n in
  let inc ft := (λ p, entry_at (postVector ft) p - entry_at (preVector ft) p) <$> seq 0 n in
  let injectors := injected_ids fn in
  IncidenceMatrix ((row ∘ preVector <$> flatTransitions fn) ++ ((λ _, replicate n 0) <$> injectors))
                  ((row ∘ postVector <$> flatTransitions fn) ++ (unit_row n <$> injectors))
                  ((inc <$> flatTransitions fn) ++ (unit_row n <$> injectors))
                  (length (flatTransitions fn) + length injectors) n.

Definition transposedIncidence (m : incidence_matrix) : list (list Z) :=
  (λ p, (λ row, entry_at row p) <$> take (numTransitions m) (incidence m)) <$> seq 0 (numPlaces m).

(** * Runs of a flat net

    The abstract states and steps of [src/typescript/src/verification/z3/abstract-replayer.ts]
    ([enabledA], [fireA], [injectA], [successors]), and the theorem that the flat net of
    [net-flattener.ts] runs exactly the token game of the net it was made from. *)
#[local] Open Scope Z_scope.

Abbreviation abstract_state := (list Z).

Inductive replay_step :=
| StepFire (transition : jsstr)
| StepInject (place : jsstr).

Definition stepName (s : replay_step) : jsstr :=
  match s with StepFire t => t | StepInject p => js "inject(" ++ p ++ js ")" end.

Definition stateKey (s : abstract_state) : jsstr := MarkingState.join (js ",") (number_string <$> s).

Definition vectorize (m : marking_state) (fn : flat_net) : abstract_state := (λ p, ms_tokens p m) <$> flatPlaces fn.

Definition toMarkingState (s : abstract_state) (fn : flat_net) : result marking_error marking_state :=
  fold_result (λ b y, let '(i, p) := y in if 0 <? entry_at s i then set_tokens p (entry_at s i) b else Ok b) ms_empty (imap pair (flatPlaces fn)).

Definition enabledA (s : abstract_state) (ft : flat_transition) : bool :=
  forallb (λ p, negb ((0 <? entry_at (preVector ft) p) && (entry_at s p <? entry_at (preVector ft) p))) (seq 0 (length s))
  && forallb (λ p, negb (entry_at s p <? 1)) (readIds ft)
  && forallb (λ p, entry_at s p =? 0) (inhibitorIds ft).

Definition fireIndexed (s : abstract_state) (ft : flat_transition) (resets : list nat) : abstract_state :=
  (λ p, if bool_decide (p ∈ resets) || drains ft p then entry_at (postVector ft) p
        else entry_at s p - entry_at (preVector ft) p + entry_at (postVector ft) p) <$> seq 0 (length s).
Definition fireA (s : abstract_state) (ft : flat_transition) : abstract_state := fireIndexed s ft (set_of (resetIds ft)).

Definition injectA (s : abstract_state) (i : nat) : abstract_state := <[i := entry_at s i + 1]> s.

(** [environmentBounds] as index and cap. *)
Definition environmentCaps (fn : flat_net) : list (nat * Z) :=
  omap (λ y, (λ i, (i, y.2)) <$> map_get y.1 (flatIndex fn)) (environmentBounds fn).

Record replay_index := ReplayIndex {
  ri_net : flat_net;
  resetSets : list (list nat);
  envInj : list (nat * option Z);
  envCaps : list (nat * Z)
}.

Definition buildIndex (fn : flat_net) : replay_index :=
  ReplayIndex fn ((λ ft, set_of (resetIds ft)) <$> flatTransitions fn)
    (foldl (λ m y, match map_get y.1 (flatIndex fn) with Some i => map_set i y.2 m | None => m end) [] (environmentInjection fn))
    (environmentCaps fn).

Definition withinEnvBounds (ri : replay_index) (s : abstract_state) : bool := forallb (λ y, negb (y.2 <? entry_at s y.1)) (envCaps ri).

Definition successorsIndexed (ri : replay_index) (s : abstract_state) : list (abstract_state * replay_step) :=
  (y ← imap pair (flatTransitions (ri_net ri));
   if enabledA s y.2
   then let next := fireIndexed s y.2 (default [] (resetSets ri !! y.1)) in
        if withinEnvBounds ri next then [(next, StepFire (ft_name y.2))] else []
   else [])
  ++ (y ← environmentInjection (ri_net ri);
      match map_get y.1 (flatIndex (ri_net ri)) with
      | None => []
      | Some i =>
          if match y.2 with None => true | Some bound => entry_at s i <? bound end then [(injectA s i, StepInject y.1)] else []
      end).
Definition successors (s : abstract_state) (fn : flat_net) : list (abstract_state * replay_step) := successorsIndexed (buildIndex fn) s.

(** ** Runs *)

Definition flat_step (fn : flat_net) (s s' : abstract_state) : Prop := s' ∈ (successors s fn).*1.
#[export] Instance flat_step_dec fn s s' : Decision (flat_step fn s s').
Proof. unfold flat_step. apply _. Defined.
Definition flat_reachable (fn : flat_net) : abstract_state → abstract_state → Prop := rtc (flat_step fn).

(** What a step is: a firing within the caps, or an injection below its bound. *)
Lemma flat_step_iff fn s s' : flat_step fn s s' ↔
  (∃ ft, ft ∈ flatTransitions fn ∧ enabledA s ft = true ∧ s' = fireA s ft ∧ withinEnvBounds (buildIndex fn) s' = true) ∨
  (∃ n bound i, (n, bound) ∈ environmentInjection fn ∧ map_get n (flatIndex fn) = Some i ∧ s' = injectA s i ∧
     match bound with None => True | Some k => entry_at s i < k end).
Proof.
  unfold flat_step, successors, successorsIndexed. cbn [buildIndex ri_net resetSets].
  rewrite fmap_app, elem_of_app, !list_elem_of_fmap. setoid_rewrite list_elem_of_bind.
  assert (∀ i ft, flatTransitions fn !! i = Some ft →
    default [] (((λ ft, set_of (resetIds ft)) <$> flatTransitions fn) !! i) = set_of (resetIds ft)) as Hr.
  { intros i ft E. by rewrite list_lookup_fmap, E. }
  split.
  - intros [([x st] & -> & [i ft] & Hx & Hi)|([x st] & -> & [n bound] & Hx & Hi)].
    + left. apply elem_of_lookup_imap in Hi as (i' & ft' & [= <- <-] & E). cbn [fst snd] in Hx. exists ft. rewrite (Hr i ft E) in Hx.
      destruct (enabledA s ft) eqn:En; [|by apply not_elem_of_nil in Hx].
      destruct (withinEnvBounds _ _) eqn:Ew; [|by apply not_elem_of_nil in Hx].
      apply list_elem_of_singleton in Hx as [= -> ->]. split_and!; [by eapply list_elem_of_lookup_2|done|done|done].
    + right. cbn [fst snd] in Hx. destruct (map_get n (flatIndex fn)) as [i|] eqn:En; [|by apply not_elem_of_nil in Hx].
      exists n, bound, i. case_bool; [|by apply not_elem_of_nil in Hx]. apply list_elem_of_singleton in Hx as [= -> ->].
      split_and!; [done|done|done|]. destruct bound; [|done]. by b2p.
  - intros [(ft & Hft & En & -> & Hw)|(n & bound & i & Hn & Ei & -> & Hb)].
    + left. exists (fireA s ft, StepFire (ft_name ft)). split; [done|]. apply list_elem_of_lookup in Hft as [i E].
      exists (i, ft). split; [|apply elem_of_lookup_imap; by exists i, ft]. cbn [fst snd]. rewrite En, (Hr i ft E). fold (fireA s ft).
      rewrite Hw. by left.
    + right. exists (injectA s i, StepInject n). split; [done|]. exists (n, bound). split; [|done]. cbn [fst snd]. rewrite Ei.
      destruct bound as [k|]; [|by left]. rewrite (proj2 (Z.ltb_lt _ _)) by done. by left.
Qed.

(** ** Vectors *)

Lemma entry_insert v i j z : (j < length v)%nat → entry_at (<[j := z]> v) i = if decide (i = j) then z else entry_at v i.
Proof.
  intros Hj. unfold entry_at. case_decide as E; [subst; by rewrite list_lookup_insert_eq|by rewrite list_lookup_insert_ne].
Qed.

Lemma entry_map (f : nat → Z) n i : (i < n)%nat → entry_at (f <$> seq 0 n) i = f i.
Proof. intros H. unfold entry_at. by rewrite list_lookup_fmap, lookup_seq_lt. Qed.

Lemma entry_zero n i : entry_at (replicate n 0) i = 0.
Proof. unfold entry_at. destruct (replicate n 0 !! i) eqn:E; [|done]. by apply lookup_replicate in E as [-> _]. Qed.

(** Two states of one length with the same counts are equal. *)
Lemma state_ext (s s' : abstract_state) : length s = length s' → (∀ i, (i < length s)%nat → entry_at s i = entry_at s' i) → s = s'.
Proof.
  intros El E. apply list_eq_same_length with (length s); [done|done|]. intros i x y Hi Hx Hy. specialize (E i Hi).
  unfold entry_at in E. by rewrite Hx, Hy in E.
Qed.

(** What an index of a flat net means. *)
Section Vectors.
Context {V : Type}.
Variables (ix : list (jsstr * nat)) (n : nat) (ps : list place).
Hypothesis Hix : ids_ok ps ix.
Hypothesis Hn : length ps = n.
Implicit Types (t : transition V).

Lemma id_lt nm i : map_get nm ix = Some i → (i < n)%nat.
Proof. intros E. apply Hix in E as (p & Hp & _). subst n. by eapply lookup_lt_Some. Qed.

Lemma id_inj a b i : map_get a ix = Some i → map_get b ix = Some i → a = b.
Proof. intros (p & Hp & <-)%Hix (q & Hq & <-)%Hix. by simplify_eq. Qed.

Lemma elem_of_ids qs i nm : map_get nm ix = Some i → i ∈ ids ix qs ↔ nm ∈ place_name <$> qs.
Proof.
  intros E. unfold ids. rewrite list_elem_of_omap, list_elem_of_fmap. split.
  - intros (q & Hq & Eq). exists q. split; [|done]. by eapply id_inj.
  - intros (q & -> & Hq). by exists q.
Qed.

Definition drained_input (s : in_spec) : bool := match s with InAll _ | InAtLeast _ _ => true | _ => false end.

Lemma input_vectors_at specs acc i nm : map_get nm ix = Some i → NoDup (input_names specs) → length acc.1 = n → length acc.2 = n →
  let y := foldl (λ y s, match map_get (place_name (in_place s)) ix with
                | None => y
                | Some idx =>
                    match s with
                    | InOne _ => (<[idx := 1]> y.1, y.2)
                    | InExactly _ count => (<[idx := count]> y.1, y.2)
                    | InAll _ => (<[idx := 1]> y.1, <[idx := true]> y.2)
                    | InAtLeast _ minimum => (<[idx := minimum]> y.1, <[idx := true]> y.2)
                    end
                end) acc specs in
  let s := js_find (λ s, bool_decide (place_name (in_place s) = nm)) specs in
  entry_at y.1 i = from_option requiredCount (entry_at acc.1 i) s ∧ default false (y.2 !! i) = from_option (λ s, drained_input s || default false (acc.2 !! i)) (default false (acc.2 !! i)) s
  ∧ length y.1 = n ∧ length y.2 = n.
Proof.
  intros Ei. revert acc. induction specs as [|s specs IH]; intros acc Hd H1 H2; [done|]. unfold input_names in Hd. rewrite fmap_cons in Hd.
  apply NoDup_cons in Hd as [Hs Hd]. cbn [foldl]. cbv zeta. set (acc' := match map_get _ ix with Some _ => _ | None => _ end).
  assert (length acc'.1 = n ∧ length acc'.2 = n) as [L1 L2].
  { unfold acc'. destruct (map_get (place_name (in_place s)) ix); [|done]. destruct s; cbn [fst snd]; by rewrite ?length_insert. }
  destruct (IH acc' Hd L1 L2) as (A & B & C & D). split_and!; [rewrite A|rewrite B|done|done]; clear A B C D; unfold js_find; cbn [list_find].
  all: destruct (decide (bool_decide (place_name (in_place s) = nm))) as [E|E].
  all: rewrite bool_decide_spec in E.
  1,3: assert (list_find (λ s : in_spec, bool_decide (place_name (in_place s) = nm)) specs = None) as ->
    by (apply list_find_None, Forall_forall; intros x Hx F; rewrite bool_decide_spec in F; apply Hs; rewrite E, <- F; by apply (list_elem_of_fmap_2 (λ s, place_name (in_place s)))).
  1,2: cbn [mbind option_bind from_option fst snd]; unfold acc'; rewrite E, Ei; pose proof (id_lt _ _ Ei).
  - destruct s; cbn [requiredCount fst snd]; by rewrite entry_insert, decide_True by lia.
  - destruct s; cbn [drained_input fst snd orb]; try done; by rewrite list_lookup_insert_eq by lia.
  - assert (entry_at acc'.1 i = entry_at acc.1 i) as ->; [|by destruct (list_find _ specs) as [[]|]]. unfold acc'.
    destruct (map_get (place_name (in_place s)) ix) as [j|] eqn:Ej; [|done]. assert (i ≠ j) by (intros ->; apply E; by eapply id_inj). pose proof (id_lt _ _ Ej).
    destruct s; cbn [fst snd]; rewrite entry_insert, decide_False by (done || lia); done.
  - assert (default false (acc'.2 !! i) = default false (acc.2 !! i)) as ->; [|by destruct (list_find _ specs) as [[]|]]. unfold acc'.
    destruct (map_get (place_name (in_place s)) ix) as [j|] eqn:Ej; [|done]. assert (i ≠ j) by (intros ->; apply E; by eapply id_inj).
    destruct s; cbn [fst snd]; rewrite ?list_lookup_insert_ne by done; done.
Qed.

(** The pre-vector holds what the input of a place requires, and the flag whether it drains it. *)
Lemma input_vectors_spec specs i nm : map_get nm ix = Some i → NoDup (input_names specs) →
  let s := js_find (λ s, bool_decide (place_name (in_place s) = nm)) specs in
  entry_at (input_vectors ix n specs).1 i = from_option requiredCount 0 s ∧
  default false ((input_vectors ix n specs).2 !! i) = from_option drained_input false s.
Proof.
  intros Ei Hd. destruct (input_vectors_at specs (replicate n 0, replicate n false) i nm Ei Hd) as (A & B & _ & _); cbn [fst snd] in *.
  1,2: apply length_replicate. unfold input_vectors. cbv zeta in *. rewrite A, B, entry_zero.
  assert (default false (replicate n false !! i) = false) as ->.
  { destruct (replicate n false !! i) eqn:E; [|done]. by apply lookup_replicate in E as [-> _]. }
  split; [done|]. destruct (js_find _ _); [|done]. cbn [from_option]. by rewrite orb_false_r.
Qed.

Lemma post_vector_at t o i nm : map_get nm ix = Some i → entry_at (post_vector ix n t o) i = deposited (minimum_of t) o nm.
Proof.
  intros Ei. unfold post_vector, deposited.
  assert (∀ ds v, length v = n → entry_at (foldl (λ v d, match map_get (place_name (od_place d)) ix with
                | None => v
                | Some idx => <[idx := entry_at v idx + depositCount (od_deposit d) (minimum_of t)]> v
                end) v ds) i = entry_at v i + total_deposit (minimum_of t) ds nm) as H.
  { induction ds as [|d ds IH]; intros v Hv; cbn [foldl total_deposit foldr]; [lia|]. rewrite IH.
    - fold (total_deposit (minimum_of t) ds nm). destruct (map_get (place_name (od_place d)) ix) as [j|] eqn:Ej.
      + pose proof (id_lt _ _ Ej). rewrite entry_insert by lia. destruct (decide (place_name (od_place d) = nm)) as [F|F].
        * assert (i = j) as -> by congruence. rewrite decide_True by done. lia.
        * rewrite decide_False by (intros ->; apply F; by eapply id_inj). lia.
      + case_decide as E; [|lia]. by rewrite E, Ei in Ej.
    - destruct (map_get (place_name (od_place d)) ix); [|done]. by rewrite length_insert. }
  rewrite H by apply length_replicate. by rewrite entry_zero.
Qed.
End Vectors.

(** ** Flattening is exact *)

Lemma expand_all_spec {V} ix n (reap : transition V → bool) ts : ∀ k fts, expand_all ix n reap k ts = Ok fts →
  ∀ ft, ft ∈ fts ↔ ∃ i t os b o, ts !! i = Some t ∧ outcomes t = Ok os ∧ os !! b = Some o ∧ ft = flat_of ix n reap (k + i) t (length os) b o.
Proof.
  induction ts as [|t ts IH]; intros k fts; cbn [expand_all].
  { intros [= <-] ft. split; [by intros ?%not_elem_of_nil|]. intros (i & t & _ & _ & _ & E & _). by rewrite lookup_nil in E. }
  unfold expand. destruct (outcomes t) as [os|] eqn:Eos; [|done]. cbn [res_bind]. intros (rest & Er & [= <-])%res_bind_ok ft.
  rewrite elem_of_app, (IH _ _ Er), elem_of_lookup_imap. split.
  - intros [(b & o & -> & Eb)|(i & t' & os' & b & o & E1 & E2 & E3 & ->)].
    + exists 0%nat, t, os, b, o. split_and!; try done. by rewrite Nat.add_0_r.
    + exists (S i), t', os', b, o. split_and!; try done. by rewrite Nat.add_succ_r.
  - intros ([|i] & t' & os' & b & o & E1 & E2 & E3 & ->).
    + injection E1 as <-. assert (os' = os) as -> by congruence. left. exists b, o. by rewrite Nat.add_0_r.
    + right. exists i, t', os', b, o. split_and!; try done. by rewrite Nat.add_succ_r.
Qed.

Lemma drainedForward_None {V} (ts : list (transition V)) t os o d : drainedForward ts = Ok None → t ∈ ts → outcomes t = Ok os →
  o ∈ os → d ∈ deposits o → ∃ c, od_deposit d = DepositTokens c.
Proof.
  induction ts as [|t' ts IH]; intros H Ht Eos Ho Hd; [by apply not_elem_of_nil in Ht|]. cbn [drainedForward] in H.
  apply res_bind_ok in H as (os' & Eos' & H). destruct (first_drained t' os') as [f|] eqn:Ef; [done|].
  apply elem_of_cons in Ht as [->|Ht]; [|by apply IH]. assert (os' = os) as -> by congruence.
  destruct (od_deposit d) as [c|from] eqn:Ed; [by exists c|]. exfalso. unfold first_drained in Ef. apply head_None in Ef.
  apply (not_elem_of_nil (DrainedForward (t_name t') (place_name from) (place_name (od_place d)))). rewrite <- Ef.
  apply list_elem_of_bind. exists o. split; [|done]. apply list_elem_of_bind. exists d. split; [|done]. rewrite Ed. left.
Qed.

Lemma elem_of_constant {A} (a : A) n b (ps : list place) :
  (n, b) ∈ foldl (λ m p, map_set (place_name p) a m) [] ps ↔ n ∈ place_name <$> ps ∧ b = a.
Proof.
  assert (∀ m, (∀ x y, (x, y) ∈ m → y = a) → NoDup m.*1 → let m' := foldl (λ m p, map_set (place_name p) a m) m ps in
    (∀ x y, (x, y) ∈ m' → y = a) ∧ ∀ x, x ∈ m'.*1 ↔ x ∈ m.*1 ∨ x ∈ place_name <$> ps) as H.
  { induction ps as [|p ps IH]; intros m Hm Hd; cbn [foldl]; [split; [done|set_solver]|].
    destruct (IH (map_set (place_name p) a m)) as [H1 H2].
    - intros x y [[_ ->]|Hxy]%map_set_entries; [done|by eapply Hm].
    - by apply NoDup_map_set.
    - split; [done|]. intros x. rewrite H2, elem_of_map_set_keys, fmap_cons, elem_of_cons. tauto. }
  destruct (H [] ltac:(by intros ?? ?%not_elem_of_nil) ltac:(constructor)) as [H1 H2]. split.
  - intros Hin. split; [|by eapply H1]. destruct (H2 n) as [H3 _]. destruct H3 as [?%not_elem_of_nil|?]; [|done|done].
    by apply (list_elem_of_fmap_2 fst) in Hin.
  - intros [Hn ->]. destruct (H2 n) as [_ H3]. specialize (H3 (or_intror Hn)). apply list_elem_of_fmap in H3 as ([x y] & -> & Hxy).
    pose proof (H1 _ _ Hxy) as ->. exact Hxy.
Qed.

Section Exact.
Context {V : Type}.
Variables (net : petri_net V) (environmentPlaces : list place) (mode : environment_mode) (reap : transition V → bool) (fn : flat_net).
Hypothesis Hflat : flatten net environmentPlaces mode reap = Ok fn.
Hypothesis Hinputs : ∀ t, t ∈ net_transitions net → inputs_wf (inputSpecs t).
Hypothesis Hdrained : drainedForward (net_transitions net) = Ok None.
Implicit Types (t : transition V) (c : jsstr → Z).

Lemma flat_fields : flatPlaces fn = flat_places net ∧ flatIndex fn = index_places (flat_places net) ∧
  environment_maps environmentPlaces mode = Ok (environmentBounds fn, environmentInjection fn) ∧
  expand_all (index_places (flat_places net)) (length (flat_places net)) reap 0 (net_transitions net) = Ok (flatTransitions fn).
Proof.
  clear -Hflat. unfold flatten in Hflat. apply res_bind_ok in Hflat as ([caps inj] & Em & Hflat).
  apply res_bind_ok in Hflat as (fts & E & [= <-]). done.
Qed.

Lemma flat_names nm : nm ∈ place_name <$> flatPlaces fn ↔ nm ∈ place_name <$> flat_named net.
Proof.
  destruct flat_fields as (-> & _). unfold flat_places. rewrite stable_sort_Permutation.
  destruct (named_map_keys (flat_named net)) as (_ & H2 & H3). by rewrite names_of_entries.
Qed.

Lemma flat_ids : ids_ok (flatPlaces fn) (flatIndex fn).
Proof.
  destruct flat_fields as (-> & -> & _). apply index_places_ok. unfold flat_places. rewrite stable_sort_Permutation.
  destruct (named_map_keys (flat_named net)) as (H1 & H2 & _). by rewrite names_of_entries.
Qed.

Lemma flat_named_id p : p ∈ flat_named net → ∃ i, map_get (place_name p) (flatIndex fn) = Some i.
Proof.
  intros Hp. assert (place_name p ∈ place_name <$> flatPlaces fn) as H by (apply flat_names; by apply list_elem_of_fmap_2).
  apply list_elem_of_fmap in H as (q & Eq & Hq). apply list_elem_of_lookup in Hq as [i Hi]. exists i. apply flat_ids. eauto.
Qed.

Lemma named_of_transition t p : t ∈ net_transitions net →
  p ∈ in_place <$> inputSpecs t ∨ p ∈ from_option allPlaces [] (outputSpec t) ∨ p ∈ inhibitors t ∨ p ∈ reads t ∨ p ∈ resets t → p ∈ flat_named net.
Proof.
  intros Ht Hp. unfold flat_named. apply elem_of_app. right. apply list_elem_of_bind. exists t. split; [|done].
  rewrite !elem_of_app. tauto.
Qed.

(** The state of a marking given by its counts. *)
Definition state_of c : abstract_state := (λ p, c (place_name p)) <$> flatPlaces fn.

Lemma at_state c nm i : map_get nm (flatIndex fn) = Some i → entry_at (state_of c) i = c nm.
Proof. intros (p & Hp & <-)%flat_ids. unfold entry_at, state_of. by rewrite list_lookup_fmap, Hp. Qed.

Lemma state_index c i : (i < length (state_of c))%nat → ∃ p, flatPlaces fn !! i = Some p ∧ map_get (place_name p) (flatIndex fn) = Some i.
Proof.
  unfold state_of. rewrite length_fmap. intros Hi. apply lookup_lt_is_Some in Hi as [p Hp]. exists p. split; [done|]. apply flat_ids. eauto.
Qed.

(** The flat transition of an outcome. *)
Definition flat_outcome (i : nat) t (k b : nat) (o : outcome) : flat_transition := flat_of (flatIndex fn) (length (flatPlaces fn)) reap i t k b o.

Lemma elem_of_flatTransitions ft : ft ∈ flatTransitions fn ↔
  ∃ i t os b o, net_transitions net !! i = Some t ∧ outcomes t = Ok os ∧ os !! b = Some o ∧ ft = flat_outcome i t (length os) b o.
Proof.
  destruct flat_fields as (E1 & E2 & _ & E). unfold flat_outcome. rewrite E1, E2. apply (expand_all_spec _ _ _ _ 0). done.
Qed.

Lemma pre_at t i k b o nm j : t ∈ net_transitions net → map_get nm (flatIndex fn) = Some j →
  entry_at (preVector (flat_outcome i t k b o)) j = from_option requiredCount 0 (spec_of t nm) ∧
  drains (flat_outcome i t k b o) j = from_option drained_input false (spec_of t nm).
Proof. intros Ht Ej. apply (input_vectors_spec _ _ _ flat_ids); [done|done|]. by apply Hinputs. Qed.

Lemma enabledA_exact t i k b o c : t ∈ net_transitions net → (∀ n, 0 <= c n) →
  enabledA (state_of c) (flat_outcome i t k b o) = enabled_counts [] Ignore t c.
Proof.
  intros Ht Hc. apply eq_true_iff_eq. unfold enabledA, enabled_counts. rewrite !andb_true_iff, !forallb_elem.
  assert (∀ n r, can_take [] Ignore n r c = (r <=? c n)) as Hcan by (intros; unfold can_take, supplied; by rewrite bool_decide_eq_false_2 by apply not_elem_of_nil).
  assert (∀ qs, (∀ p, p ∈ qs → p ∈ flat_named net) → ∀ j, j ∈ ids (flatIndex fn) qs ↔ ∃ p, p ∈ qs ∧ map_get (place_name p) (flatIndex fn) = Some j) as Hids
    by (intros qs _ j; unfold ids; by rewrite list_elem_of_omap).
  assert (∀ P Q : Z → bool, (∀ z, 0 <= z → P z = Q z) → ∀ qs, (∀ p, p ∈ qs → p ∈ flat_named net) →
    (∀ j, j ∈ ids (flatIndex fn) qs → P (entry_at (state_of c) j) = true) ↔ ∀ p, p ∈ qs → Q (c (place_name p)) = true) as Hall.
  { intros P Q HPQ qs Hqs. split.
    - intros H p Hp. destruct (flat_named_id p (Hqs p Hp)) as [j Ej]. rewrite <- (at_state c _ j Ej), <- HPQ by (rewrite (at_state c _ j Ej); apply Hc).
      apply H, Hids; [done|]. by exists p.
    - intros H j (p & Hp & Ej)%Hids; [|done]. rewrite HPQ by (rewrite (at_state c _ j Ej); apply Hc). rewrite (at_state c _ j Ej). by apply H. }
  change (readIds (flat_outcome i t k b o)) with (ids (flatIndex fn) (reads t)). change (inhibitorIds (flat_outcome i t k b o)) with (ids (flatIndex fn) (inhibitors t)).
  rewrite (Hall (λ z, negb (z <? 1)) (λ z, 1 <=? z)), (Hall (λ z, z =? 0) (λ z, z <=? 0)).
  2,4: intros z Hz; apply eq_true_iff_eq; first [rewrite negb_true_iff, Z.ltb_ge, Z.leb_le|rewrite Z.eqb_eq, Z.leb_le]; lia.
  2,3: intros p Hp; apply (named_of_transition t); tauto.
  setoid_rewrite Hcan.
  enough ((∀ x, x ∈ seq 0 (length (state_of c)) → negb ((0 <? entry_at (preVector (flat_outcome i t k b o)) x) && (entry_at (state_of c) x <? entry_at (preVector (flat_outcome i t k b o)) x)) = true)
    ↔ ∀ s, s ∈ inputSpecs t → (requiredCount s <=? c (place_name (in_place s))) = true) as -> by tauto.
  destruct (Hinputs t Ht) as [Hd Hr]. rewrite Forall_forall in Hr. split.
  - intros H s Hs. destruct (flat_named_id (in_place s)) as [j Ej]; [apply (named_of_transition t); [done|left; by apply list_elem_of_fmap_2]|].
    assert (j < length (state_of c))%nat as Hj by (unfold state_of; rewrite length_fmap; by eapply id_lt; [apply flat_ids|reflexivity|]).
    specialize (H j). rewrite elem_of_seq in H. specialize (H ltac:(lia)). destruct (pre_at t i k b o _ j Ht Ej) as [E _]. rewrite (spec_of_elem t s) in E by done. cbn [from_option] in E.
    rewrite E, (at_state c _ j Ej) in H. specialize (Hr s Hs). apply negb_true_iff, andb_false_iff in H. rewrite !Z.ltb_ge in H. apply Z.leb_le. lia.
  - intros H x Hx%elem_of_seq. destruct (state_index c x) as (p & _ & Ex); [lia|]. destruct (pre_at t i k b o _ x Ht Ex) as [-> _]. rewrite (at_state c _ x Ex).
    destruct (spec_of t (place_name p)) as [s|] eqn:Es; [|done]. apply spec_of_Some in Es as [Hs <-]. cbn. apply negb_true_iff, andb_false_iff. right.
    apply Z.ltb_ge. specialize (H s Hs). by b2p.
Qed.

Lemma fireA_exact t i k b os o c : t ∈ net_transitions net → (∀ n, 0 <= c n) → outcomes t = Ok os → o ∈ os → enabled_counts [] Ignore t c = true →
  fireA (state_of c) (flat_outcome i t k b o) = state_of (fired_counts [] Ignore t o c).
Proof.
  intros Ht Hc Eos Ho Hen. apply state_ext; unfold fireA, fireIndexed; rewrite length_fmap, length_seq; [by unfold state_of; rewrite !length_fmap|].
  intros x Hx. rewrite entry_map by done. destruct (state_index c x Hx) as (p & _ & Ex).
  rewrite !(at_state _ _ x Ex). destruct (pre_at t i k b o _ x Ht Ex) as [-> ->]. set (nm := place_name p) in *.
  change (postVector (flat_outcome i t k b o)) with (post_vector (flatIndex fn) (length (flatPlaces fn)) t o).
  rewrite (post_vector_at _ _ _ flat_ids eq_refl t o x nm Ex). unfold fired_counts.
  assert (deposited (minimum_of t) o nm = deposited (drained_counts [] Ignore t c) o nm) as ->.
  { unfold deposited. assert (∀ d, d ∈ deposits o → ∃ z, od_deposit d = DepositTokens z) as Hz by (intros d Hd; by eapply drainedForward_None).
    induction (deposits o) as [|d ds IH]; [done|]. cbn [total_deposit foldr]. destruct (Hz d ltac:(left)) as [z ->]. cbn [depositCount].
    f_equal. apply IH. intros. apply Hz. by right. }
  rewrite (bool_decide_ext _ (nm ∈ place_name <$> resets t)).
  2:{ rewrite elem_of_set_of. change (resetIds (flat_outcome i t k b o)) with (ids (flatIndex fn) (resets t)). by apply (elem_of_ids _ _ flat_ids). }
  unfold intermediate_counts. case_bool_decide as Er; [by rewrite decide_True|]. rewrite decide_False by done. cbn [orb]. unfold removed, supplied.
  rewrite bool_decide_eq_false_2 by apply not_elem_of_nil. cbn [andb orb]. destruct (spec_of t nm) as [s|] eqn:Es; [|cbn; lia]. cbn [from_option].
  assert (requiredCount s <= c nm) as Hreq.
  { unfold enabled_counts in Hen. rewrite !andb_true_iff, !forallb_elem in Hen. destruct Hen as [[Hen _] _]. apply spec_of_Some in Es as [Hs <-]. specialize (Hen s Hs).
    unfold can_take, supplied in Hen. rewrite bool_decide_eq_false_2 in Hen by apply not_elem_of_nil. cbn [andb] in Hen. by b2p. }
  rewrite (proj2 (Z.ltb_ge _ _)) by done. destruct s; cbn [drained_input take_count requiredCount] in *; lia.
Qed.

Lemma vectorize_state m : vectorize m fn = state_of (count_of m).
Proof. unfold vectorize, state_of. apply list_fmap_ext. intros i p _. apply count_tokens. Qed.

(** The environment places the net has. *)
Definition env_names : list jsstr := filter (λ n, n ∈ place_name <$> flatPlaces fn) (place_name <$> environmentPlaces).

Lemma env_name_id n : n ∈ env_names → ∃ i, map_get n (flatIndex fn) = Some i.
Proof.
  intros [Hn _]%list_elem_of_filter. apply list_elem_of_fmap in Hn as (p & -> & [i Hi]%list_elem_of_lookup). exists i. apply flat_ids. eauto.
Qed.

(** The injections and the caps of a flat net, by name. *)
Lemma injection_exact n b i : (n, b) ∈ environmentInjection fn ∧ map_get n (flatIndex fn) = Some i ↔
  n ∈ env_names ∧ map_get n (flatIndex fn) = Some i ∧ match mode with AlwaysAvailable => b = None | Bounded k => b = Some k | _ => False end.
Proof.
  destruct flat_fields as (_ & _ & Em & _).
  assert (map_get n (flatIndex fn) = Some i → n ∈ place_name <$> environmentPlaces ↔ n ∈ env_names) as Hn.
  { intros (p & Hp & <-)%flat_ids. unfold env_names. rewrite list_elem_of_filter. split; [|tauto]. split; [|done].
    apply list_elem_of_fmap_2. by eapply list_elem_of_lookup_2. }
  unfold environment_maps in Em. destruct mode.
  - injection Em as _ <-. rewrite elem_of_constant. naive_solver.
  - injection Em as _ <-. rewrite elem_of_constant. naive_solver.
  - case_bool_decide; [|done]. injection Em as _ <-. rewrite elem_of_nil. naive_solver.
  - injection Em as _ <-. rewrite elem_of_nil. naive_solver.
Qed.

Lemma caps_exact c : withinEnvBounds (buildIndex fn) (state_of c) = true ↔ match mode with Bounded k => ∀ n, n ∈ env_names → c n <= k | _ => True end.
Proof.
  pose proof flat_ids as Hids. pose proof (at_state c) as Hat. destruct flat_fields as (_ & _ & Em & _). unfold withinEnvBounds, buildIndex, environmentCaps. cbn [envCaps]. rewrite forallb_elem.
  unfold environment_maps in Em. destruct mode as [|k| |].
  1,3,4: assert (environmentBounds fn = []) as -> by (first [by injection Em as <- _|case_bool_decide; [by injection Em as <- _|done]]);
    split; [done|]; intros _ x Hx; by apply not_elem_of_nil in Hx.
  assert (∀ n z, (n, z) ∈ environmentBounds fn ↔ n ∈ place_name <$> environmentPlaces ∧ z = k) as Hb
    by (intros n z; injection Em as <- _; apply elem_of_constant).
  split.
  - intros H n [Hn1 Hn2]%list_elem_of_filter. apply list_elem_of_fmap in Hn1 as (p & -> & Hp). apply list_elem_of_lookup in Hp as [i Hi].
    assert (map_get (place_name p) (flatIndex fn) = Some i) as Ei by (apply Hids; eauto).
    specialize (H (i, k)). rewrite list_elem_of_omap in H. cbn [fst snd] in H. rewrite (Hat _ i Ei) in H.
    apply Z.ltb_ge, negb_true_iff, H. exists (place_name p, k). split; [by apply Hb|]. cbn [fst snd]. by rewrite Ei.
  - intros H [i z] ((n & z') & Hn & E)%list_elem_of_omap. cbn [fst snd] in *. apply Hb in Hn as [Hn ->].
    destruct (map_get n (flatIndex fn)) as [i'|] eqn:Ei; [|done]. injection E as -> <-. apply negb_true_iff, Z.ltb_ge. rewrite (Hat _ i Ei).
    apply H. unfold env_names. apply list_elem_of_filter. split; [|done]. apply Hids in Ei as (p & Hp & <-).
    apply list_elem_of_fmap_2. by eapply list_elem_of_lookup_2.
Qed.

Lemma injectA_exact c n i : map_get n (flatIndex fn) = Some i → injectA (state_of c) i = state_of (update c n (c n + 1)).
Proof.
  intros Ei. assert (i < length (state_of c))%nat as Hi by (unfold state_of; rewrite length_fmap; by eapply id_lt; [apply flat_ids|reflexivity|]).
  apply state_ext; unfold injectA; rewrite length_insert; [by unfold state_of; rewrite !length_fmap|].
  intros x Hx. rewrite entry_insert by done. destruct (state_index c x Hx) as (p & _ & Ex).
  rewrite (at_state (update c n (c n + 1)) _ x Ex), (at_state c _ x Ex), (at_state c _ i Ei). unfold update. destruct (decide (x = i)) as [->|Hne].
  - rewrite decide_True; [done|]. by eapply id_inj; [apply flat_ids|..].
  - rewrite decide_False; [done|]. intros E. rewrite E in Ex. congruence.
Qed.
End Exact.

(** ** Reachability *)

Lemma deposited_nonneg {V} (t : transition V) o c n : inputs_wf (inputSpecs t) → (∀ n, 0 <= c n) → (∀ d, d ∈ deposits o → deposit_ok t d) →
  0 <= deposited (drained_counts [] Ignore t c) o n.
Proof.
  intros Hwf Hc Hd. unfold deposited. induction (deposits o) as [|d ds IH]; cbn [total_deposit foldr]; [lia|].
  assert (0 <= total_deposit (drained_counts [] Ignore t c) ds n) by (apply IH; intros; apply Hd; by right). unfold total_deposit in *.
  specialize (Hd d ltac:(left)). unfold deposit_ok in Hd. case_decide; [|lia].
  destruct (od_deposit d); cbn [depositCount]; [lia|]. pose proof (drained_nonneg [] Ignore t c from Hwf Hc). lia.
Qed.

(** The token game of an open net: firings, and the arrivals on environment places the mode allows. A
    bounded environment caps its places, in the encoding, after every firing. *)
Inductive open_reachable {V} (ts : list (transition V)) (envn : list jsstr) (mode : environment_mode) (m0 : marking_state) : (jsstr → Z) → Prop :=
| open_start c : (∀ n, c n = count_of m0 n) → open_reachable ts envn mode m0 c
| open_fire c c' i t os o : open_reachable ts envn mode m0 c → ts !! i = Some t → enabled_counts [] Ignore t c = true →
    outcomes t = Ok os → o ∈ os → (∀ n, c' n = fired_counts [] Ignore t o c n) →
    match mode with Bounded k => ∀ n, n ∈ envn → c' n <= k | _ => True end → open_reachable ts envn mode m0 c'
| open_inject c c' n : open_reachable ts envn mode m0 c → n ∈ envn →
    match mode with AlwaysAvailable => True | Bounded k => c n < k | _ => False end →
    (∀ x, c' x = update c n (c n + 1) x) → open_reachable ts envn mode m0 c'.

(** A closed net plays the token game of the state-class graph. *)
Lemma open_closed {V} (ts : list (transition V)) envn m0 c : open_reachable ts envn Ignore m0 c ↔ token_reachable ts [] Ignore m0 c.
Proof.
  split.
  - induction 1 as [c Hc|c c' i t os o _ IH Et En Eos Ho Hc' _|c c' n _ _ _ [] _]; [by apply token_start|]. by eapply token_fire.
  - induction 1 as [c Hc|c c' i t os o _ IH Et En Eos Ho Hc']; [by apply open_start|]. by eapply open_fire.
Qed.

Definition built_net {V} (net : petri_net V) : Prop :=
  ∀ t, t ∈ net_transitions net → ∃ b, build b = Ok t ∧ ∀ o, b_output b = Some o → inhabited_xors o = true.

Section Reach.
Context {V : Type}.
Variables (net : petri_net V) (environmentPlaces : list place) (mode : environment_mode) (reap : transition V → bool) (fn : flat_net) (m0 : marking_state).
Hypothesis Hflat : flatten net environmentPlaces mode reap = Ok fn.
Hypothesis Hbuilt : built_net net.
Hypothesis Hdrained : drainedForward (net_transitions net) = Ok None.
Hypothesis Hm0 : ms_wf m0.
Local Abbreviation reached := (open_reachable (net_transitions net) (env_names environmentPlaces fn) mode m0).

Lemma built_inputs t : t ∈ net_transitions net → inputs_wf (inputSpecs t).
Proof. intros Ht. destruct (Hbuilt t Ht) as (b & Hb & Hi). by apply build_ok in Hb as [[? _] ->]. Qed.

Lemma fired_nonneg i t os o c n : net_transitions net !! i = Some t → outcomes t = Ok os → o ∈ os → (∀ n, 0 <= c n) →
  0 <= fired_counts [] Ignore t o c n.
Proof.
  intros Et Eos Ho Hc. assert (t ∈ net_transitions net) as Ht by (by eapply list_elem_of_lookup_2). unfold fired_counts.
  pose proof (removed_bounds [] Ignore t c n (built_inputs t Ht) (Hc n)).
  assert (0 <= deposited (drained_counts [] Ignore t c) o n).
  { apply deposited_nonneg; [by apply built_inputs|done|]. intros d Hd. destruct (Hbuilt t Ht) as (b & Hb & Hi).
    destruct (outcomes_ok b t Hi Hb) as (os' & Eos' & Hall). assert (os' = os) as -> by congruence. by apply (Hall o). }
  unfold intermediate_counts. case_decide; lia.
Qed.

Lemma reached_nonneg c : reached c → ∀ n, 0 <= c n.
Proof.
  induction 1 as [c Hc|c c' i t os o _ IH Et _ Eos Ho Hc' _|c c' n _ IH _ _ Hc']; intros x.
  - rewrite Hc. by apply count_nonneg.
  - rewrite Hc'. by eapply fired_nonneg.
  - rewrite Hc'. unfold update. specialize (IH x) as Hx. specialize (IH n). case_decide; lia.
Qed.

Lemma state_of_ext c c' : (∀ n, c n = c' n) → state_of fn c = state_of fn c'.
Proof. intros E. apply list_fmap_ext. intros. apply E. Qed.

Lemma flat_of_open c : reached c → flat_reachable fn (vectorize m0 fn) (state_of fn c).
Proof.
  intros Hr. pose proof Hr as Hr'. induction Hr as [c Hc|c c' i t os o Hr IH Et En Eos Ho Hc' Hcap|c c' n Hr IH Hn Hb Hc'].
  { rewrite vectorize_state, (state_of_ext c (count_of m0)) by done. apply rtc_refl. }
  all: pose proof (reached_nonneg c Hr) as Hnn; eapply rtc_r; [by apply IH|]; apply flat_step_iff.
  - left. assert (t ∈ net_transitions net) as Ht by (by eapply list_elem_of_lookup_2). apply list_elem_of_lookup in Ho as [b Eb].
    exists (flat_outcome reap fn i t (length os) b o). split_and!.
    + apply (elem_of_flatTransitions net environmentPlaces mode reap fn Hflat). by exists i, t, os, b, o.
    + by rewrite (enabledA_exact net environmentPlaces mode reap fn Hflat built_inputs).
    + rewrite (fireA_exact net environmentPlaces mode reap fn Hflat built_inputs Hdrained t i _ b os o c Ht Hnn Eos)
        by (done || by eapply list_elem_of_lookup_2). by apply state_of_ext.
    + by apply (caps_exact net environmentPlaces mode reap fn Hflat).
  - right. destruct (env_name_id net environmentPlaces mode reap fn Hflat n Hn) as [i Ei].
    assert (∃ b, (n, b) ∈ environmentInjection fn ∧ match mode with AlwaysAvailable => b = None | Bounded k => b = Some k | _ => False end) as (b & Hin & Eb).
    { destruct mode as [|k| |] eqn:Em; [exists None|exists (Some k)|done|done]; (split; [|done]);
        by apply (injection_exact net environmentPlaces _ reap fn Hflat n _ i). }
    exists n, b, i. split_and!; [done|done| |].
    + rewrite (injectA_exact net environmentPlaces mode reap fn Hflat c n i Ei). by apply state_of_ext.
    + destruct mode; try done; subst b; [done|]. by rewrite (at_state net environmentPlaces _ reap fn Hflat c n i Ei).
Qed.

Lemma open_of_flat s : flat_reachable fn (vectorize m0 fn) s → ∃ c, reached c ∧ s = state_of fn c.
Proof.
  rewrite vectorize_state. revert s. apply rtc_ind_r.
  - exists (count_of m0). split; [by apply open_start|done].
  - intros s1 s2 _ Hstep (c & Hc & ->). pose proof (reached_nonneg c Hc) as Hnn.
    apply flat_step_iff in Hstep as [(ft & Hft & En & -> & Hw)|(n & bound & i & Hn & Ei & -> & Hb)].
    + apply (elem_of_flatTransitions net environmentPlaces mode reap fn Hflat) in Hft as (i & t & os & b & o & Et & Eos & Eb & ->).
      assert (t ∈ net_transitions net) as Ht by (by eapply list_elem_of_lookup_2). assert (o ∈ os) as Ho by (by eapply list_elem_of_lookup_2).
      rewrite (enabledA_exact net environmentPlaces mode reap fn Hflat built_inputs) in En by done.
      rewrite (fireA_exact net environmentPlaces mode reap fn Hflat built_inputs Hdrained t i _ b os o c Ht Hnn Eos Ho En) in Hw |- *.
      apply (caps_exact net environmentPlaces mode reap fn Hflat) in Hw. exists (fired_counts [] Ignore t o c). split; [|done]. by eapply open_fire.
    + destruct (proj1 (injection_exact net environmentPlaces mode reap fn Hflat n bound i) (conj Hn Ei)) as (Hen & _ & Em).
      rewrite (at_state net environmentPlaces mode reap fn Hflat c n i Ei) in Hb.
      exists (update c n (c n + 1)). split; [|by apply (injectA_exact net environmentPlaces mode reap fn Hflat)].
      eapply open_inject; [done|done| |done]. destruct mode; try done. by subst bound.
Qed.
End Reach.

Lemma expand_all_total {V} ix n (reap : transition V → bool) ts : (∀ t, t ∈ ts → is_ok (outcomes t)) → ∀ k, ∃ fts, expand_all ix n reap k ts = Ok fts.
Proof.
  induction ts as [|t ts IH]; intros Ht k; cbn [expand_all]; [by eexists|]. unfold expand. specialize (Ht t ltac:(left)) as Hok.
  destruct (outcomes t); [|done]. cbn [res_bind]. destruct (IH ltac:(intros; apply Ht; by right) (S k)) as [rest ->]. by eexists.
Qed.

Lemma environment_maps_total envs mode : (match mode with Arrivals _ _ => envs = [] | _ => True end) → is_ok (environment_maps envs mode).
Proof. destruct mode; try done. by intros ->. Qed.

(** A net of built transitions flattens. *)
Lemma flattens {V} (net : petri_net V) environmentPlaces mode reap : built_net net →
  match mode with Arrivals _ _ => environmentPlaces = [] | _ => True end → ∃ fn, flatten net environmentPlaces mode reap = Ok fn.
Proof.
  intros Hb Hmode. assert (∀ t, t ∈ net_transitions net → is_ok (outcomes t)) as Ho.
  { intros t Ht. destruct (Hb t Ht) as (b & E & Hi). by destruct (outcomes_ok b t Hi E) as (os & -> & _). }
  destruct (expand_all_total (index_places (flat_places net)) (length (flat_places net)) reap _ Ho 0) as [fts E].
  pose proof (environment_maps_total environmentPlaces mode Hmode) as Hem. destruct (environment_maps environmentPlaces mode) as [env|] eqn:Em; [|done].
  eexists. unfold flatten. rewrite Em. cbn [res_bind]. by rewrite E.
Qed.

(** ** Properties *)

(** C37: the flattening of a net is exact, in every environment mode the verifier flattens. A net of
    built transitions, none of which forwards a drained batch, flattens without throwing, and the
    flat net runs its token game: the vectors the steps of the replayer reach from the initial one
    are exactly the markings that firings (each with one of its outcomes) and arrivals on
    environment places reach, read off by place; places of one name share one index. *)
Theorem flatten_exact {V} (net : petri_net V) environmentPlaces mode reap m0 :
  built_net net → drainedForward (net_transitions net) = Ok None → ms_wf m0 →
  match mode with Arrivals _ _ => environmentPlaces = [] | _ => True end →
  ∃ fn, flatten net environmentPlaces mode reap = Ok fn ∧ NoDup (place_name <$> flatPlaces fn) ∧
    (∀ c, open_reachable (net_transitions net) (env_names environmentPlaces fn) mode m0 c → flat_reachable fn (vectorize m0 fn) (state_of fn c)) ∧
    ∀ s, flat_reachable fn (vectorize m0 fn) s →
      ∃ c, open_reachable (net_transitions net) (env_names environmentPlaces fn) mode m0 c ∧ s = state_of fn c.
Proof.
  intros Hb Hd Hm Hmode. destruct (flattens net environmentPlaces mode reap Hb Hmode) as [fn Ef].
  eexists. split; [exact Ef|]. split; [by apply (flat_ids net environmentPlaces mode reap)|]. split.
  - by apply (flat_of_open net environmentPlaces mode reap).
  - by apply (open_of_flat net environmentPlaces mode reap).
Qed.

Definition example_petri : petri_net unit := PetriNet (js "net") [] example_net [].

Lemma example_petri_built : built_net example_petri.
Proof. intros t Ht. apply (no_built _ _ _ _ example_net_ok t Ht). Qed.

(** One more token arrives on [slot], then the action times out. *)
Lemma flatten_exact_witness : ∃ fn c, flatten example_petri [Place 1 (js "slot")] (Bounded 2) (λ _, false) = Ok fn ∧
  state_of fn c = [0; 0; 2; 1] ∧ open_reachable example_net [js "slot"] (Bounded 2) example_initial c.
Proof.
  destruct (flatten_exact example_petri [Place 1 (js "slot")] (Bounded 2) (λ _, false) example_initial) as (fn & E & _ & _ & H).
  - exact example_petri_built.
  - reflexivity.
  - apply example_initial_good.
  - exact I.
  - destruct (H [0; 0; 2; 1]) as (c & Hc & Ec).
    + vm_compute in E. injection E as <-. apply rtc_l with [2; 0; 0; 2]; [|apply rtc_once]; apply (bool_decide_unpack _); vm_compute; exact I.
    + exists fn, c. split; [exact E|]. split; [by symmetry|]. vm_compute in E. injection E as <-. exact Hc.
Defined.
