(* ===== verification/PInvariant.v ===== *)
(** * JavaScript numbers, and finite sums

    The [number] arithmetic of the invariant computation
    ([src/typescript/src/verification/invariant/p-invariant-computer.ts]): IEEE doubles that hold
    integers, with rounding to 53 bits, overflow to an infinity, and [NaN]. Every value the code
    computes from integers is one of these: products, differences, remainders and exact quotients
    of integers are integers. [-0] is not told apart from [0]. The sums of the linear algebra are
    sums over an initial segment of the indices. *)
From S2P Require Import Prelude.
From S2P Require Import Net.
From S2P Require Import Bitmap.
From S2P Require Import MarkingState.
From S2P Require Import FlatNet.
#[local] Open Scope Z_scope.

(** ** Doubles *)

Inductive num := Num (z : Z) | Inf (negative : bool) | NaN.

#[export] Instance num_eq_dec : EqDecision num.
Proof. solve_decision. Defined.

Definition MAX_SAFE_INTEGER : Z := 2 ^ 53 - 1.
Definition isSafeInteger (x : num) : bool := match x with Num z => Z.abs z <=? MAX_SAFE_INTEGER | _ => false end.

(** [a / 2^e] rounded to an integer, ties to even. *)
Definition round_even (a e : Z) : Z :=
  let q := a / 2 ^ e in
  let r := a mod 2 ^ e in
  let half := 2 ^ (e - 1) in
  if r <? half then q else if half <? r then q + 1 else if Z.even q then q else q + 1.

(** The double nearest to an integer. *)
Definition of_Z (z : Z) : num :=
  let a := Z.abs z in
  let e := Z.log2 a - 52 in
  if e <=? 0 then Num z
  else let m := round_even a e * 2 ^ e in
       if 2 ^ 1024 <=? m then Inf (z <? 0) else Num (Z.sgn z * m).

Definition is_negative (x : num) : bool := match x with Num z => z <? 0 | Inf n => n | NaN => false end.
Definition is_positive (x : num) : bool := match x with Num z => 0 <? z | Inf n => negb n | NaN => false end.
(** [x !== 0] *)
Definition nonzero (x : num) : bool := match x with Num z => negb (z =? 0) | _ => true end.

Definition num_neg (x : num) : num := match x with Num z => Num (- z) | Inf n => Inf (negb n) | NaN => NaN end.
Definition num_abs (x : num) : num := match x with Num z => Num (Z.abs z) | Inf _ => Inf false | NaN => NaN end.

Definition num_mul (x y : num) : num :=
  match x, y with
  | NaN, _ | _, NaN => NaN
  | Num a, Num b => of_Z (a * b)
  | _, _ => if nonzero x && nonzero y then Inf (xorb (is_negative x) (is_negative y)) else NaN
  end.

Definition num_add (x y : num) : num :=
  match x, y with
  | NaN, _ | _, NaN => NaN
  | Num a, Num b => of_Z (a + b)
  | Inf a, Inf b => if Bool.eqb a b then Inf a else NaN
  | Inf a, Num _ | Num _, Inf a => Inf a
  end.
Definition num_sub (x y : num) : num := num_add x (num_neg y).

(** [x % y], which is exact. *)
Definition num_rem (x y : num) : num :=
  match x, y with
  | NaN, _ | _, NaN | Inf _, _ => NaN
  | Num a, Num b => if b =? 0 then NaN else Num (Z.rem a b)
  | Num a, Inf _ => Num a
  end.

(** [x / y] of an integer by a divisor of it, or of an infinity. *)
Definition num_quot (x y : num) : num :=
  match x, y with
  | Num a, Num b => Num (Z.quot a b)
  | Inf n, Num b => Inf (xorb n (b <? 0))
  | _, _ => NaN
  end.

Definition num_gt1 (x : num) : bool := match x with Num z => 1 <? z | Inf n => negb n | NaN => false end.

(** The sign of [a - b], as a comparator uses it: [NaN] counts as equal. *)
Definition num_cmp (a b : num) : Z := match num_sub a b with Num z => Z.sgn z | Inf n => if n then -1 else 1 | NaN => 0 end.

(** [BigInt(x)] of a safe integer. *)
Definition num_int (x : num) : Z := match x with Num z => z | _ => 0 end.

Lemma round_even_bounds a e : 0 <= a → 1 <= e → a / 2 ^ e <= round_even a e <= a / 2 ^ e + 1.
Proof. intros _ _. unfold round_even. repeat case_match; lia. Qed.

Lemma of_Z_small z : Z.abs z <= 2 ^ 53 → of_Z z = Num z.
Proof.
  intros Hz. unfold of_Z. destruct (Z.leb_spec (Z.log2 (Z.abs z) - 52) 0) as [|He]; [done|].
  destruct (Z.le_gt_cases (2 ^ 53) (Z.abs z)) as [Hge|Hlt].
  2:{ exfalso. assert (Z.abs z <> 0) by (intros E; rewrite E in He; simpl in He; lia). apply Z.log2_lt_pow2 in Hlt; lia. }
  assert (Z.abs z = 2 ^ 53) as E by lia. rewrite E, Z.log2_pow2 by lia. change (53 - 52) with 1.
  assert (round_even (2 ^ 53) 1 * 2 ^ 1 = 2 ^ 53) as -> by (vm_compute; reflexivity).
  rewrite (proj2 (Z.leb_gt _ _)) by (vm_compute; reflexivity). f_equal. lia.
Qed.

Lemma isSafe_Num x : isSafeInteger x = true → x = Num (num_int x) ∧ Z.abs (num_int x) <= MAX_SAFE_INTEGER.
Proof. destruct x; try done. cbn. intros. by b2p. Qed.

(** ** The greatest common divisor *)

(** The loop of [gcd]; [None] when the fuel is spent. *)
Fixpoint gcd (fuel : nat) (a b : num) : option num :=
  if nonzero b then match fuel with O => None | S fuel => gcd fuel b (num_rem a b) end else Some a.

(** On integers it answers, after at most two rounds per bit of the smaller one. *)
Lemma gcd_finite k fuel a b : 0 <= a → 0 <= b < 2 ^ Z.of_nat k → (2 * k + 1 <= fuel)%nat → gcd fuel (Num a) (Num b) = Some (Num (Z.gcd a b)).
Proof.
  revert fuel a b. induction k as [|k IH]; intros fuel a b Ha Hb Hf.
  { simpl in Hb. assert (b = 0) as -> by lia. destruct fuel; cbn; by rewrite Z.gcd_0_r, Z.abs_eq. }
  destruct (Z.eq_dec b 0) as [->|Hb0]; [destruct fuel; cbn; by rewrite Z.gcd_0_r, Z.abs_eq|].
  destruct fuel as [|[|fuel]]; [lia|lia|]. cbn [gcd nonzero]. rewrite (proj2 (Z.eqb_neq b 0)) by done. cbn [negb num_rem].
  rewrite (proj2 (Z.eqb_neq b 0)), (Z.rem_mod_nonneg a b) by lia. pose proof (Z.mod_pos_bound a b ltac:(lia)) as Hr. set (r := a mod b) in *.
  assert (Z.gcd a b = Z.gcd b r) as -> by (unfold r; rewrite (Z.gcd_comm b (a mod b)), Z.gcd_mod by done; apply Z.gcd_comm).
  destruct (Z.eq_dec r 0) as [Er|Hr0]; [rewrite Er; cbn; by rewrite Z.gcd_0_r, Z.abs_eq by lia|].
  assert (nonzero (Num r) = true) as -> by (cbn; by rewrite (proj2 (Z.eqb_neq r 0))). unfold num_rem. rewrite (proj2 (Z.eqb_neq r 0)), (Z.rem_mod_nonneg b r) by lia. rewrite IH.
  - rewrite (Z.gcd_comm r (b mod r)), Z.gcd_mod by done. f_equal. f_equal. apply Z.gcd_comm.
  - lia.
  - split; [apply Z.mod_pos_bound; lia|]. rewrite Nat2Z.inj_succ, Z.pow_succ_r in Hb by lia.
    destruct (Z.le_gt_cases (2 * r) b); [pose proof (Z.mod_pos_bound b r ltac:(lia)); lia|].
    assert (b mod r = b - r) as -> by (rewrite (Z.mod_eq b r) by lia; assert (b / r = 1) as -> by (symmetry; apply Z.div_unique with (b - r); lia); lia). lia.
  - lia.
Qed.

(** Once it meets an infinity or [NaN] it never ends. *)
Lemma gcd_NaN fuel a : gcd fuel a NaN = None.
Proof. revert a. induction fuel as [|fuel IH]; intros a; [done|]. cbn. destruct a; apply IH. Qed.

Lemma gcd_Inf fuel a : 0 < a → gcd fuel (Num a) (Inf false) = None.
Proof.
  intros Ha. destruct fuel as [|[|fuel]]; [done|cbn; destruct a; done|]. cbn [gcd nonzero num_rem].
  rewrite (proj2 (Z.eqb_neq a 0)) by lia. cbn [negb]. apply gcd_NaN.
Qed.

(** ** Sums *)

Fixpoint sum (n : nat) (f : nat → Z) : Z := match n with O => 0 | S n => sum n f + f n end.

Lemma sum_ext n f g : (∀ i, (i < n)%nat → f i = g i) → sum n f = sum n g.
Proof. induction n as [|n IH]; intros E; cbn [sum]; [done|]. rewrite IH, E; [done|lia|]. intros. apply E. lia. Qed.

Lemma sum_zero n f : (∀ i, (i < n)%nat → f i = 0) → sum n f = 0.
Proof. induction n as [|n IH]; intros E; cbn [sum]; [done|]. rewrite IH, E; [done|lia|]. intros. apply E. lia. Qed.

Lemma sum_add n f g : sum n (λ i, f i + g i) = sum n f + sum n g.
Proof. induction n as [|n IH]; cbn [sum]; [done|]. rewrite IH. lia. Qed.

Lemma sum_sub n f g : sum n (λ i, f i - g i) = sum n f - sum n g.
Proof. induction n as [|n IH]; cbn [sum]; [done|]. rewrite IH. lia. Qed.

Lemma sum_scale n k f : sum n (λ i, k * f i) = k * sum n f.
Proof. induction n as [|n IH]; cbn [sum]; [lia|]. rewrite IH. lia. Qed.

Lemma sum_single n k f : (k < n)%nat → (∀ i, (i < n)%nat → i ≠ k → f i = 0) → sum n f = f k.
Proof.
  induction n as [|n IH]; intros Hk E; [lia|]. cbn [sum]. destruct (decide (k = n)) as [->|Hne].
  - rewrite sum_zero; [done|]. intros i Hi. apply E; lia.
  - rewrite IH, (E n); try lia. intros. apply E; lia.
Qed.

Lemma sum_swap n m f : sum n (λ i, sum m (λ j, f i j)) = sum m (λ j, sum n (λ i, f i j)).
Proof.
  induction n as [|n IH]; cbn [sum]; [symmetry; by apply sum_zero|]. by rewrite IH, <- sum_add.
Qed.

Lemma sum_le n f g : (∀ i, (i < n)%nat → f i <= g i) → sum n f <= sum n g.
Proof. induction n as [|n IH]; intros H; cbn [sum]; [lia|]. specialize (IH ltac:(intros; apply H; lia)). specialize (H n ltac:(lia)). lia. Qed.

Lemma sum_term n k f : (k < n)%nat → (∀ i, (i < n)%nat → 0 <= f i) → f k <= sum n f.
Proof.
  intros Hk Hf. induction n as [|n IH]; [lia|]. cbn [sum]. destruct (decide (k = n)) as [->|Hne].
  - pose proof (sum_le n (λ _, 0) f ltac:(intros; apply Hf; lia)) as H. rewrite (sum_zero n (λ _, 0)) in H by done. lia.
  - specialize (IH ltac:(lia) ltac:(intros; apply Hf; lia)). specialize (Hf n ltac:(lia)). lia.
Qed.

(** Folds over the indices are sums. *)
Lemma foldl_sum (f : nat → Z) n z : foldl (λ acc i, acc + f i) z (seq 0 n) = z + sum n f.
Proof. induction n as [|n IH]; cbn [sum]; [cbn; lia|]. rewrite seq_S, foldl_app, IH. cbn. lia. Qed.

(** * Place invariants

    [src/typescript/src/verification/invariant/p-invariant.ts], [p-invariant-computer.ts]: the
    null-space basis by integer elimination, the exact gate every invariant passes before it is
    used, the semiflows by Farkas' method with their pruning, and the canonical order. The
    elimination runs on JavaScript numbers ([Numbers]): a computation that never ends (a greatest
    common divisor that meets an infinity) is [None] for every fuel. Deadline polls are not
    modelled. *)
#[local] Open Scope Z_scope.

Record p_invariant := PInvariant { weights : list num; pi_constant : num; support : list nat }.

(** A number as it prints; only integers occur. *)
Definition weight_string (x : num) : jsstr :=
  match x with Num z => number_string z | Inf n => js (if n then "-Infinity" else "Infinity") | NaN => js "NaN" end.

Definition pInvariantToString (inv : p_invariant) : jsstr :=
  js "PInvariant[" ++ join (js " + ")
    ((λ i, let w := default NaN (weights inv !! i) in
           if bool_decide (w = Num 1) then js "p" ++ number_string (Z.of_nat i)
           else weight_string w ++ js "*p" ++ number_string (Z.of_nat i)) <$> support inv)
  ++ js " = " ++ weight_string (pi_constant inv) ++ js "]".

(** ** Vectors of numbers *)

Definition nth_num (v : list num) (i : nat) : num := default NaN (v !! i).

(** The constant [Σ weights · M0] of a row, and its support. *)
Definition law (P : nat) (places : list place) (m : marking_state) (w : list num) : num * list nat :=
  foldl (λ y i, if nonzero (nth_num w i)
                then (num_add y.1 (num_mul (nth_num w i) (of_Z (from_option (λ p, ms_tokens p m) 0 (places !! i)))), set_add i y.2)
                else y) (Num 0, []) (seq 0 P).

Definition invariant_of (P : nat) (places : list place) (m : marking_state) (w : list num) : p_invariant :=
  let y := law P places m w in PInvariant w y.1 y.2.

(** ** The null-space basis *)

Section Elimination.
Variable fuel : nat.

(** [normalizeRow] *)
Definition normalizeRow (row : list num) : option (list num) :=
  g ← foldl (λ g x, if nonzero x then g ← g; gcd fuel g (num_abs x) else g) (Some (Num 0)) row;
  Some (if num_gt1 g then (λ x, num_quot x g) <$> row else row).

Definition cell_num (m : list (list num)) (i j : nat) : num := default NaN ((m !! i) ≫= λ row, row !! j).

(** One row of the elimination of a column. *)
Definition eliminate_row (pivotRow col : nat) (m : list (list num)) (row : nat) : option (list (list num)) :=
  if (row =? pivotRow)%nat || negb (nonzero (cell_num m row col)) then Some m
  else
    let a := cell_num m pivotRow col in
    let b := cell_num m row col in
    r ← normalizeRow (zip_with (λ x y, num_sub (num_mul a x) (num_mul b y)) (default [] (m !! row)) (default [] (m !! pivotRow)));
    Some (<[row := r]> m).

Definition find_pivot (m : list (list num)) (P pivotRow col : nat) : option nat :=
  js_find (λ row, nonzero (cell_num m row col)) (seq pivotRow (P - pivotRow)).

Definition swap_rows {A} (m : list A) (i j : nat) : list A :=
  match m !! i, m !! j with Some x, Some y => <[j := x]> (<[i := y]> m) | _, _ => m end.

Fixpoint iterate {A} (f : A → nat → option A) (a : A) (l : list nat) : option A :=
  match l with [] => Some a | i :: l => a ← f a i; iterate f a l end.

(** The loop over the columns: the matrix and the pivot row. *)
Definition eliminate_column (P : nat) (x : list (list num) * nat) (col : nat) : option (list (list num) * nat) :=
  let '(m, pivotRow) := x in
  if (pivotRow <? P)%nat then
    match find_pivot m P pivotRow col with
    | None => Some (m, pivotRow)
    | Some pivot =>
        m ← iterate (eliminate_row pivotRow col) (swap_rows m pivotRow pivot) (seq 0 P);
        Some (m, S pivotRow)
    end
  else Some (m, pivotRow).

Definition augmented (matrix : incidence_matrix) : list (list num) :=
  imap (λ i row, (of_Z <$> row) ++ (<[i := Num 1]> (replicate (numPlaces matrix) (Num 0)))) (transposedIncidence matrix).

Definition rowIsExact (w : list num) : bool := forallb isSafeInteger w.

(** What a row of the reduced matrix contributes. *)
Definition extract (T P : nat) (places : list place) (m : marking_state) (row : list num) : list p_invariant :=
  let w := take P (drop T row) in
  if existsb nonzero (take T row) then []
  else if negb (rowIsExact w) then [invariant_of P places m w]
  else if negb (existsb is_positive w) && negb (existsb is_negative w) then []
  else [invariant_of P places m (if existsb is_positive w then w else num_neg <$> w)].

Definition computePInvariants (matrix : incidence_matrix) (fn : flat_net) (m : marking_state) : option (list p_invariant) :=
  let P := numPlaces matrix in
  let T := numTransitions matrix in
  if (P =? 0)%nat || (T =? 0)%nat then Some []
  else
    x ← iterate (eliminate_column P) (augmented matrix, 0%nat) (seq 0 T);
    Some (flat_map (extract T P (flatPlaces fn) m) x.1).
End Elimination.

(** ** The exact gate *)

Inductive drop_reason :=
| WeightCount (got expected : nat)
| WeightOverflow (p : nat)
| ConstantUnsafe (constant : num)
| NonlinearSupport (p : nat)
| EntryUnsafe (entry : Z) (t p : nat)
| NotConserved (dot : Z) (t : nat)
| MarkingUnsafe (p : nat) (tokens : Z)
| ConstantMismatch (constant exact : Z).

Definition nonlinearPlaces (fn : flat_net) : list nat :=
  foldl (λ s ft, set_union (set_union s (filter (λ p, drains ft p = true) (seq 0 (length (consumeAll ft))))) (resetIds ft)) [] (flatTransitions fn).

(** The first throw or return of a loop over indices. *)
Definition first_some {A} (f : nat → option A) (l : list nat) : option A := head (omap f l).

Definition safe_Z (z : Z) : bool := Z.abs z <=? MAX_SAFE_INTEGER.

Definition check_column (P : nat) (y : nat → Z) (t : nat) (row : list Z) : option drop_reason :=
  match first_some (λ p, if y p =? 0 then None else if safe_Z (entry_at row p) then None else Some (EntryUnsafe (entry_at row p) t p)) (seq 0 P) with
  | Some r => Some r
  | None =>
      let dot := foldl (λ acc p, acc + y p * entry_at row p) 0 (seq 0 P) in
      if dot =? 0 then None else Some (NotConserved dot t)
  end.

Definition exactCheckFailure (matrix : incidence_matrix) (inv : p_invariant) (nonlinear : list nat) (fn : flat_net) (m : marking_state)
    : option drop_reason :=
  let P := numPlaces matrix in
  let T := numTransitions matrix in
  if negb (length (weights inv) =? P)%nat then Some (WeightCount (length (weights inv)) P)
  else match first_some (λ p, if isSafeInteger (nth_num (weights inv) p) then None else Some (WeightOverflow p)) (seq 0 P) with
  | Some r => Some r
  | None =>
  if negb (isSafeInteger (pi_constant inv)) then Some (ConstantUnsafe (pi_constant inv))
  else match first_some (λ p, if nonzero (nth_num (weights inv) p) && bool_decide (p ∈ nonlinear) then Some (NonlinearSupport p) else None)
               (seq 0 (length (weights inv))) with
  | Some r => Some r
  | None =>
  let y p := num_int (nth_num (weights inv) p) in
  match first_some (λ t, check_column P y t (default [] (incidence matrix !! t))) (seq 0 T) with
  | Some r => Some r
  | None =>
  let tokens p := from_option (λ q, ms_tokens q m) 0 (flatPlaces fn !! p) in
  match first_some (λ p, if y p =? 0 then None else if safe_Z (tokens p) then None else Some (MarkingUnsafe p (tokens p))) (seq 0 P) with
  | Some r => Some r
  | None =>
      let exact := foldl (λ acc p, acc + y p * tokens p) 0 (seq 0 P) in
      if exact =? num_int (pi_constant inv) then None else Some (ConstantMismatch (num_int (pi_constant inv)) exact)
  end end end end.

Record invariant_validation := InvariantValidation { valid : list p_invariant; dropped : list (p_invariant * drop_reason) }.

Definition validateInvariantsExact (matrix : incidence_matrix) (invs : list p_invariant) (fn : flat_net) (m : marking_state) : invariant_validation :=
  let nonlinear := nonlinearPlaces fn in
  foldl (λ v inv, match exactCheckFailure matrix inv nonlinear fn m with
                  | None => InvariantValidation (valid v ++ [inv]) (dropped v)
                  | Some r => InvariantValidation (valid v) (dropped v ++ [(inv, r)])
                  end) (InvariantValidation [] []) invs.

(** ** Semiflows *)

Record semiflow_row := SemiflowRow { sig : list Z; weight : list Z }.

Definition sameInvariant (a b : p_invariant) : bool :=
  bool_decide (pi_constant a = pi_constant b) && (length (weights a) =? length (weights b))%nat
  && forallb (λ y : num * num, bool_decide (y.1 = y.2)) (zip (weights a) (weights b)).

(** The strengthened list, and how many semiflows it gained. *)
Definition strengthenWithSemiflows (invs semiflows : list p_invariant) : list p_invariant * nat :=
  foldl (λ y sf, if existsb (λ inv, sameInvariant inv sf) y.1 then y else (y.1 ++ [sf], S y.2)) (invs, 0%nat) semiflows.

Definition MAX_SEMIFLOW_ROWS : Z := 8192.
Definition MAX_SEMIFLOW_CANDIDATES : Z := 65536.

(** [cp*a + cn*b], or [None] when an entry leaves the safe integers. *)
Fixpoint combineRow (cp : Z) (a : list Z) (cn : Z) (b : list Z) : option (list Z) :=
  match a, b with
  | x :: a, y :: b =>
      let v := num_add (num_mul (Num cp) (Num x)) (num_mul (Num cn) (Num y)) in
      if isSafeInteger v then rest ← combineRow cp a cn b; Some (num_int v :: rest) else None
  | _, _ => Some []
  end.

(** The loops end on integers, so this is the divisor they find ([gcd_finite]). *)
Definition row_gcd (s w : list Z) : Z := foldl (λ g v, Z.gcd g (Z.abs v)) 0 (s ++ w).
Definition reduceGcd (r : semiflow_row) : semiflow_row :=
  let g := row_gcd (sig r) (weight r) in
  if 1 <? g then SemiflowRow ((λ v, Z.quot v g) <$> sig r) ((λ v, Z.quot v g) <$> weight r) else r.

(** ** The pruning: supports as machine words, swept in ascending size *)

Definition support_size (w : list Z) : nat := length (filter (λ v, v ≠ 0) w).
Definition support_bits (words : nat) (w : list Z) : list Z :=
  foldl (λ arr y, if bool_decide (y.2 = 0) then arr else setBit arr y.1) (new_words words) (imap pair w).

(** [(jb & ~base) === 0] in every word. *)
Definition subset_words (words : nat) (jb ib : list Z) : bool :=
  forallb (λ k, js_and (word_at jb k) (js_not (word_at ib k)) =? 0) (seq 0 words).

Fixpoint take_while {A} (f : A → bool) (l : list A) : list A :=
  match l with x :: l => if f x then x :: take_while f l else [] | [] => [] end.

Definition keepSupportMinimal (rows : list semiflow_row) : list semiflow_row :=
  if (length rows <? 2)%nat then rows
  else
    let words := Nat.max 1 ((from_option (λ r, length (weight r)) 0 (rows !! 0) + 31) / 32)%nat in
    let bits i := from_option (λ r, support_bits words (weight r)) [] (rows !! i) in
    let size i := from_option (λ r, support_size (weight r)) 0%nat (rows !! i) in
    let order := stable_sort (λ a b, (size a <=? size b)%nat) (seq 0 (length rows)) in
    let drops y := existsb (λ j, subset_words words (bits j) (bits y.2))
                           (take_while (λ j, (size j <? size y.2)%nat) (take y.1 order)) in
    let dropped := snd <$> filter (λ y, drops y = true) (imap pair order) in
    snd <$> filter (λ y, y.1 ∉ dropped) (imap pair rows).

Definition sig_at (t : nat) (r : semiflow_row) : Z := entry_at (sig r) t.

Definition combine_rows (t : nat) (next : list semiflow_row) (y : semiflow_row * semiflow_row) : list semiflow_row :=
  if MAX_SEMIFLOW_CANDIDATES <=? Z.of_nat (length next) then next
  else
    let cp := - sig_at t y.2 in
    let cn := sig_at t y.1 in
    match combineRow cp (sig y.1) cn (sig y.2), combineRow cp (weight y.1) cn (weight y.2) with
    | Some s, Some w => next ++ [reduceGcd (SemiflowRow s w)]
    | _, _ => next
    end.

Definition eliminate_transition (rows : list semiflow_row) (t : nat) : list semiflow_row :=
  let next := filter (λ r, sig_at t r = 0) rows in
  let pos := filter (λ r, 0 < sig_at t r) rows in
  let neg := filter (λ r, sig_at t r < 0) rows in
  let rows := keepSupportMinimal (foldl (combine_rows t) next (rp ← pos; pair rp <$> neg)) in
  if MAX_SEMIFLOW_ROWS <? Z.of_nat (length rows) then take (Z.to_nat MAX_SEMIFLOW_ROWS) rows else rows.

Definition start_rows (matrix : incidence_matrix) : list semiflow_row :=
  (λ p, SemiflowRow ((λ t, entry_at (default [] (incidence matrix !! t)) p) <$> seq 0 (numTransitions matrix))
                    (<[p := 1]> (replicate (numPlaces matrix) 0))) <$> seq 0 (numPlaces matrix).

Definition computePSemiflows (matrix : incidence_matrix) (fn : flat_net) (m : marking_state) : list p_invariant :=
  if (numPlaces matrix =? 0)%nat then []
  else
    let rows := foldl eliminate_transition (start_rows matrix) (seq 0 (numTransitions matrix)) in
    r ← rows;
    if negb (existsb (λ v, negb (v =? 0)) (weight r)) then []
    else let inv := invariant_of (numPlaces matrix) (flatPlaces fn) m (Num <$> weight r) in
         if isSafeInteger (pi_constant inv) then [inv] else [].

(** ** Coverage and canonical order *)

Definition isCoveredByInvariants (invs : list p_invariant) (n : nat) : bool :=
  let covered := foldl (λ c inv, if existsb is_negative (weights inv) then c
                                 else foldl (λ c i, if (i <? n)%nat then <[i := true]> c else c) c (support inv)) (replicate n false) invs in
  forallb id covered.

(** The comparators of the sort: a positive answer sorts the first argument after the second. *)
Fixpoint lex_num (a b : list num) : Z :=
  match a, b with
  | x :: a, y :: b => if bool_decide (x = y) then lex_num a b else num_cmp x y
  | _, _ => Z.of_nat (length a) - Z.of_nat (length b)
  end.
Fixpoint lex_nat (a b : list nat) : Z :=
  match a, b with
  | x :: a, y :: b => if (x =? y)%nat then lex_nat a b else Z.of_nat x - Z.of_nat y
  | _, _ => Z.of_nat (length a) - Z.of_nat (length b)
  end.
Definition sorted_support (inv : p_invariant) : list nat := stable_sort Nat.leb (support inv).
Definition compare_invariants (a b : p_invariant) : Z :=
  let s := lex_nat (sorted_support a) (sorted_support b) in
  if negb (s =? 0) then s
  else let w := lex_num (weights a) (weights b) in
       if negb (w =? 0) then w else num_cmp (pi_constant a) (pi_constant b).
Definition canonicalInvariantOrder (invs : list p_invariant) : list p_invariant :=
  stable_sort (λ a b, compare_invariants a b <=? 0) invs.
