(* ===== verification/Conservation.v ===== *)
(** * What passes the exact gate is a conservation law

    Every invariant [validateInvariantsExact] keeps holds in every marking the net reaches, however
    the candidate was computed: the gate re-derives the law in exact integers and refuses weights on
    places that are drained, reset or injected. A net every place of which such laws of one sign
    cover is bounded. *)
From S2P Require Import Prelude.
From S2P Require Import Net.
From S2P Require Import Out.
From S2P Require Import Transition.
From S2P Require Import PetriNet.
From S2P Require Import CompiledNet.
From S2P Require Import MarkingState.
From S2P Require Import Outcomes.
From S2P Require Import StateClass.
From S2P Require Import ClassSteps.
From S2P Require Import GraphExact.
From S2P Require Import FlatNet.
From S2P Require Import PInvariant.
From stdpp Require Import relations.
#[local] Open Scope Z_scope.

Lemma first_some_None {A} (f : nat → option A) l : first_some f l = None ↔ ∀ i, i ∈ l → f i = None.
Proof.
  unfold first_some. rewrite head_None. split.
  - intros H i Hi. destruct (f i) as [x|] eqn:E; [|done]. exfalso. apply (not_elem_of_nil x). rewrite <- H.
    apply list_elem_of_omap. by exists i.
  - intros H. apply elem_of_nil_inv. intros x Hx. apply list_elem_of_omap in Hx as (i & Hi & E). by rewrite H in E.
Qed.

Lemma first_some_seq {A} (f : nat → option A) n : first_some f (seq 0 n) = None ↔ ∀ i, (i < n)%nat → f i = None.
Proof. rewrite first_some_None. setoid_rewrite elem_of_seq. split; intros H i Hi; apply H; lia. Qed.

(** ** The gate *)

(** The weight of a place, and the weighted count of a state. *)
Definition weight_of (inv : p_invariant) (p : nat) : Z := num_int (nth_num (weights inv) p).
Definition weighted (P : nat) (y : nat → Z) (s : abstract_state) : Z := sum P (λ p, y p * entry_at s p).

Lemma exactCheck_spec matrix inv nonlinear fn m : exactCheckFailure matrix inv nonlinear fn m = None →
  length (weights inv) = numPlaces matrix ∧
  (∀ p, (p < numPlaces matrix)%nat → nth_num (weights inv) p = Num (weight_of inv p)) ∧
  pi_constant inv = Num (num_int (pi_constant inv)) ∧
  (∀ p, (p < numPlaces matrix)%nat → p ∈ nonlinear → weight_of inv p = 0) ∧
  (∀ t row, (t < numTransitions matrix)%nat → incidence matrix !! t = Some row → sum (numPlaces matrix) (λ p, weight_of inv p * entry_at row p) = 0) ∧
  num_int (pi_constant inv) = sum (numPlaces matrix) (λ p, weight_of inv p * from_option (λ q, ms_tokens q m) 0 (flatPlaces fn !! p)).
Proof.
  unfold exactCheckFailure. destruct (Nat.eqb_spec (length (weights inv)) (numPlaces matrix)) as [El|]; [|done]. cbn [negb].
  destruct (first_some _ (seq 0 (numPlaces matrix))) eqn:E1; [done|]. rewrite first_some_seq in E1.
  destruct (isSafeInteger (pi_constant inv)) eqn:E2; [|done]. cbn [negb].
  destruct (first_some _ (seq 0 (length (weights inv)))) eqn:E3; [done|]. rewrite El in E3. rewrite first_some_seq in E3.
  destruct (first_some _ (seq 0 (numTransitions matrix))) eqn:E4; [done|]. rewrite first_some_seq in E4.
  destruct (first_some _ _) eqn:E5; [done|]. clear E5. rewrite foldl_sum. case_bool; [|done]. intros _. b2p.
  assert (∀ p, (p < numPlaces matrix)%nat → nth_num (weights inv) p = Num (weight_of inv p)) as Hw.
  { intros p Hp. specialize (E1 p Hp). destruct (isSafeInteger (nth_num (weights inv) p)) eqn:Es; [|done]. by apply isSafe_Num. }
  split_and!; [done|done|by apply isSafe_Num| | |symmetry; assumption].
  - intros p Hp Hin. specialize (E3 p Hp). rewrite (bool_decide_eq_true_2 _ Hin), andb_true_r, (Hw p Hp) in E3. cbn in E3.
    by destruct (Z.eqb_spec (weight_of inv p) 0).
  - intros t row Ht Er. specialize (E4 t Ht). unfold check_column in E4. rewrite Er in E4. cbn [default] in E4.
    destruct (first_some _ _); [done|]. rewrite foldl_sum in E4. case_bool; [|done]. b2p. assumption.
Qed.

Lemma valid_spec matrix invs fn m inv : inv ∈ valid (validateInvariantsExact matrix invs fn m) ↔
  inv ∈ invs ∧ exactCheckFailure matrix inv (nonlinearPlaces fn) fn m = None.
Proof.
  unfold validateInvariantsExact. set (f := λ v inv, _).
  assert (∀ v, inv ∈ valid (foldl f v invs) ↔ inv ∈ valid v ∨ (inv ∈ invs ∧ exactCheckFailure matrix inv (nonlinearPlaces fn) fn m = None)) as H.
  { induction invs as [|x invs IH]; intros v; cbn [foldl]; [split; [by left|intros [?|[[]%not_elem_of_nil _]]; done]|].
    rewrite IH, elem_of_cons. unfold f. destruct (exactCheckFailure matrix x _ fn m) eqn:E; cbn [valid].
    - split; [naive_solver|]. intros [?|[[->|?] ?]]; [by left|congruence|by right].
    - rewrite elem_of_app, list_elem_of_singleton. naive_solver. }
  rewrite H. cbn [valid]. split; [intros [?%not_elem_of_nil|?]; done|by right].
Qed.

Lemma elem_of_nonlinear fn p : p ∈ nonlinearPlaces fn ↔ ∃ ft, ft ∈ flatTransitions fn ∧ (drains ft p = true ∨ p ∈ resetIds ft).
Proof.
  unfold nonlinearPlaces.
  assert (∀ l s, p ∈ foldl (λ s ft, set_union (set_union s (filter (λ p, drains ft p = true) (seq 0 (length (consumeAll ft))))) (resetIds ft)) s l ↔
    p ∈ s ∨ ∃ ft, ft ∈ l ∧ (drains ft p = true ∨ p ∈ resetIds ft)) as H.
  { induction l as [|ft l IH]; intros s; cbn [foldl]; [set_solver|]. rewrite IH, !elem_of_set_union, list_elem_of_filter, elem_of_seq.
    assert (drains ft p = true → (p < length (consumeAll ft))%nat).
    { unfold drains. destruct (consumeAll ft !! p) eqn:E; [|done]. intros _. by eapply lookup_lt_Some. }
    setoid_rewrite elem_of_cons. split.
    - intros [[[?|[? _]]|?]|(ft' & ? & ?)]; [by left|right; exists ft; tauto|right; exists ft; tauto|right; exists ft'; tauto].
    - intros [?|(ft' & [->|?] & ?)]; [tauto| |right; by exists ft']. left. destruct H0 as [Hd|?]; [|tauto]. left. right. split; [done|]. specialize (H Hd). lia. }
  rewrite H. split; [intros [?%not_elem_of_nil|?]; done|by right].
Qed.

(** ** Conservation along runs *)

Section Conservation.
Variables (fn : flat_net) (y : nat → Z).
Local Abbreviation P := (length (flatPlaces fn)).
Hypothesis Hindex : ∀ n i, map_get n (flatIndex fn) = Some i → (i < P)%nat.
Hypothesis Hnonlinear : ∀ p, (p < P)%nat → p ∈ nonlinearPlaces fn → y p = 0.

(** The change a firing makes, where no weighted place is drained or reset. *)
Lemma weighted_fire s ft : length s = P → ft ∈ flatTransitions fn →
  weighted P y (fireA s ft) = weighted P y s + sum P (λ p, y p * (entry_at (postVector ft) p - entry_at (preVector ft) p)).
Proof.
  intros Hs Hft. unfold weighted. rewrite <- sum_add. apply sum_ext. intros p Hp. unfold fireA, fireIndexed. rewrite Hs, entry_map by done.
  case_bool; [|lia]. rewrite Hnonlinear; [lia|done|]. apply elem_of_nonlinear. exists ft. split; [done|].
  apply orb_true_iff in Heqb as [?|?]; [right|by left]. b2p. by apply elem_of_set_of.
Qed.

Lemma weighted_inject s i : length s = P → (i < P)%nat → weighted P y (injectA s i) = weighted P y s + y i.
Proof.
  intros Hs Hi. unfold weighted, injectA.
  assert (sum P (λ p, if decide (p = i) then y i else 0) = y i) as <-.
  { rewrite (sum_single P i) by (done || by intros p _ Hp; rewrite decide_False). by rewrite decide_True. }
  rewrite <- sum_add. apply sum_ext. intros p Hp. rewrite entry_insert by lia. case_decide; subst; lia.
Qed.

Lemma flat_step_length s s' : flat_step fn s s' → length s' = length s.
Proof.
  intros [(ft & _ & _ & -> & _)|(n & b & i & _ & _ & -> & _)]%flat_step_iff.
  - unfold fireA, fireIndexed. by rewrite length_fmap, length_seq.
  - unfold injectA. by rewrite length_insert.
Qed.

Lemma flat_reachable_length s s' : flat_reachable fn s s' → length s' = length s.
Proof. induction 1 as [|s s1 s2 H _ IH]; [done|]. by rewrite IH, (flat_step_length s s1). Qed.

(** The columns of the incidence matrix are the firings and the injections. *)
Lemma column_fire ft : ft ∈ flatTransitions fn → ∃ t row, (t < numTransitions (im_from fn))%nat ∧ incidence (im_from fn) !! t = Some row ∧
  ∀ p, (p < P)%nat → entry_at row p = entry_at (postVector ft) p - entry_at (preVector ft) p.
Proof.
  intros [t Ht]%list_elem_of_lookup. pose proof (lookup_lt_Some _ _ _ Ht). eexists t, _. split_and!.
  - cbn [im_from numTransitions]. lia.
  - cbn [im_from incidence]. rewrite lookup_app_l by (by rewrite length_fmap). by rewrite list_lookup_fmap, Ht.
  - intros p Hp. by rewrite entry_map.
Qed.

Lemma column_inject n b i : (n, b) ∈ environmentInjection fn → map_get n (flatIndex fn) = Some i →
  ∃ t row, (t < numTransitions (im_from fn))%nat ∧ incidence (im_from fn) !! t = Some row ∧
  ∀ p, (p < P)%nat → entry_at row p = if decide (p = i) then 1 else 0.
Proof.
  intros Hn Ei. assert (i ∈ injected_ids fn) as [k Hk]%list_elem_of_lookup by (apply list_elem_of_omap; by exists (n, b)).
  pose proof (lookup_lt_Some _ _ _ Hk). pose proof (Hindex n i Ei). exists (length (flatTransitions fn) + k)%nat, (unit_row P i). split_and!.
  - cbn [im_from numTransitions]. lia.
  - cbn [im_from incidence]. rewrite lookup_app_r by (rewrite length_fmap; lia). rewrite length_fmap.
    replace (length (flatTransitions fn) + k - length (flatTransitions fn))%nat with k by lia. by rewrite list_lookup_fmap, Hk.
  - intros p Hp. unfold unit_row. rewrite entry_insert by (by rewrite length_replicate). by rewrite entry_zero.
Qed.

Hypothesis Hconserved : ∀ t row, (t < numTransitions (im_from fn))%nat → incidence (im_from fn) !! t = Some row → sum P (λ p, y p * entry_at row p) = 0.

Lemma weighted_step s s' : length s = P → flat_step fn s s' → weighted P y s' = weighted P y s.
Proof.
  intros Hs [(ft & Hft & _ & -> & _)|(n & b & i & Hn & Ei & -> & _)]%flat_step_iff.
  - destruct (column_fire ft Hft) as (t & row & Ht & Er & Hrow). rewrite weighted_fire by done.
    rewrite (sum_ext P _ (λ p, y p * entry_at row p)) by (intros p Hp; by rewrite Hrow). rewrite (Hconserved t row) by done. lia.
  - destruct (column_inject n b i Hn Ei) as (t & row & Ht & Er & Hrow). pose proof (Hindex n i Ei). rewrite weighted_inject by done.
    specialize (Hconserved t row Ht Er). rewrite (sum_single P i) in Hconserved.
    + rewrite Hrow, decide_True in Hconserved by done. lia.
    + done.
    + intros p Hp Hne. rewrite Hrow, decide_False by done. lia.
Qed.

Lemma weighted_reachable s s' : length s = P → flat_reachable fn s s' → weighted P y s' = weighted P y s.
Proof.
  intros Hs Hr. induction Hr as [s|s s1 s2 H _ IH]; [done|]. rewrite IH by (by rewrite (flat_step_length s s1)). by apply weighted_step.
Qed.
End Conservation.

(** ** The laws on the markings of the net *)

Section Laws.
Context {V : Type}.
Variables (net : petri_net V) (environmentPlaces : list place) (mode : environment_mode) (reap : transition V → bool) (fn : flat_net) (m0 : marking_state).
Hypothesis Hflat : flatten net environmentPlaces mode reap = Ok fn.
Hypothesis Hbuilt : built_net net.
Hypothesis Hdrained : drainedForward (net_transitions net) = Ok None.
Hypothesis Hm0 : ms_wf m0.

Lemma flat_index_lt n i : map_get n (flatIndex fn) = Some i → (i < length (flatPlaces fn))%nat.
Proof. eapply id_lt; [by apply (flat_ids net environmentPlaces mode reap)|done]. Qed.

(** A law that passed the gate holds of every marking the open net reaches. *)
Lemma gate_sound inv c : exactCheckFailure (im_from fn) inv (nonlinearPlaces fn) fn m0 = None →
  open_reachable (net_transitions net) (env_names environmentPlaces fn) mode m0 c →
  sum (length (flatPlaces fn)) (λ p, weight_of inv p * from_option (λ q, c (place_name q)) 0 (flatPlaces fn !! p)) = num_int (pi_constant inv).
Proof.
  intros Hg Hc. apply exactCheck_spec in Hg as (_ & _ & _ & Hnl & Hcol & Hk). cbn [im_from numPlaces] in *.
  apply (flat_of_open net environmentPlaces mode reap fn m0 Hflat Hbuilt Hdrained Hm0) in Hc.
  apply (weighted_reachable fn (weight_of inv) flat_index_lt Hnl Hcol) in Hc; [|unfold vectorize; apply length_fmap].
  rewrite Hk. etrans; [|etrans; [exact Hc|]]; apply sum_ext; intros p Hp; f_equal; unfold entry_at, state_of, vectorize;
    rewrite list_lookup_fmap; by destruct (flatPlaces fn !! p).
Qed.
End Laws.

(** ** Supports *)

(** The support lists exactly the places with a weight. *)
Definition support_ok (P : nat) (inv : p_invariant) : Prop := ∀ p, p ∈ support inv ↔ (p < P)%nat ∧ nonzero (nth_num (weights inv) p) = true.

Lemma law_support P places m w p : p ∈ (law P places m w).2 ↔ (p < P)%nat ∧ nonzero (nth_num w p) = true.
Proof.
  unfold law. set (f := λ y i, _).
  assert (∀ n y, p ∈ (foldl f y (seq 0 n)).2 ↔ p ∈ y.2 ∨ ((p < n)%nat ∧ nonzero (nth_num w p) = true)) as H.
  { induction n as [|n IH]; intros y; [cbn; split; [by left|intros [?|[? _]]; [done|lia]]|].
    rewrite seq_S, foldl_app. cbn [foldl]. unfold f at 1. cbn [plus]. destruct (nonzero (nth_num w n)) eqn:En; cbn [snd].
    - rewrite elem_of_set_add, IH. split; [intros [->|[?|[? ?]]]; [right; split; [lia|done]|tauto|right; split; [lia|done]]|].
      intros [?|[Hp ?]]; [tauto|]. destruct (decide (p = n)); [by left|]. right. right. split; [lia|done].
    - rewrite IH. split; [intros [?|[? ?]]; [tauto|right; split; [lia|done]]|]. intros [?|[Hp Hn]]; [tauto|].
      destruct (decide (p = n)) as [->|]; [congruence|]. right. split; [lia|done]. }
  rewrite H. cbn [snd]. split; [intros [?%not_elem_of_nil|?]; done|by right].
Qed.

Lemma invariant_of_support P places m w : support_ok P (invariant_of P places m w).
Proof. intros p. apply law_support. Qed.

Lemma extract_support T P places m row inv : inv ∈ extract T P places m row → support_ok P inv.
Proof.
  unfold extract. destruct (existsb nonzero (take T row)); [by intros ?%not_elem_of_nil|].
  destruct (negb (rowIsExact _)); [intros ->%list_elem_of_singleton; apply invariant_of_support|].
  destruct (negb _ && negb _); [by intros ?%not_elem_of_nil|]. intros ->%list_elem_of_singleton. apply invariant_of_support.
Qed.

Lemma computePInvariants_support fuel matrix fn m invs inv : computePInvariants fuel matrix fn m = Some invs → inv ∈ invs → support_ok (numPlaces matrix) inv.
Proof.
  unfold computePInvariants. cbn zeta. case_bool; [by intros [= <-] ?%not_elem_of_nil|].
  destruct (iterate _ _ _) as [x|]; [|done]. intros [= <-] Hin. rewrite list_elem_of_In in Hin. apply in_flat_map in Hin as (row & _ & Hin).
  apply list_elem_of_In in Hin. by eapply extract_support.
Qed.

Lemma computePSemiflows_support matrix fn m inv : inv ∈ computePSemiflows matrix fn m → support_ok (numPlaces matrix) inv.
Proof.
  unfold computePSemiflows. case_bool; [by intros ?%not_elem_of_nil|]. cbv zeta. intros (r & Hin & _)%list_elem_of_bind.
  destruct (negb _); [by apply not_elem_of_nil in Hin|]. destruct (isSafeInteger _); [|by apply not_elem_of_nil in Hin].
  apply list_elem_of_singleton in Hin as ->. apply invariant_of_support.
Qed.

(** ** The laws the verifier uses *)

Inductive semiflow_option := SemiflowsOff | SemiflowsOn | SemiflowsAuto.

(** Phase 3 of the verifier: the basis through the gate, the semiflows through the gate when the
    option asks for them or the basis lost a law to a drained or reset place, their union, in
    canonical order. The code reads the lost law off the text of the reason; a place or transition
    whose name holds that text apart, it is this constructor. *)
Definition verifier_laws (fuel : nat) (semiflowInvariants : semiflow_option) (fn : flat_net) (m : marking_state) : option (list p_invariant) :=
  let matrix := im_from fn in
  basis ← computePInvariants fuel matrix fn m;
  let v := validateInvariantsExact matrix basis fn m in
  let basisLostALaw := existsb (λ y : p_invariant * drop_reason, match y.2 with NonlinearSupport _ => true | _ => false end) (dropped v) in
  let unionWanted := match semiflowInvariants with SemiflowsOn => true | SemiflowsAuto => basisLostALaw | SemiflowsOff => false end in
  let semiflows := if unionWanted then valid (validateInvariantsExact matrix (computePSemiflows matrix fn m) fn m) else [] in
  let laws := if unionWanted then (strengthenWithSemiflows (valid v) semiflows).1 else valid v in
  Some (canonicalInvariantOrder laws).

Lemma strengthen_elem invs semiflows inv : inv ∈ (strengthenWithSemiflows invs semiflows).1 → inv ∈ invs ∨ inv ∈ semiflows.
Proof.
  unfold strengthenWithSemiflows. set (f := λ y sf, _).
  assert (∀ y, inv ∈ (foldl f y semiflows).1 → inv ∈ y.1 ∨ inv ∈ semiflows) as H; [|apply (H (invs, 0%nat))].
  induction semiflows as [|sf l IH]; intros y; cbn [foldl]; [by left|]. intros [H|?]%IH; [|by right; right].
  unfold f in H. destruct (existsb _ _); [by left|]. cbn [fst] in H. apply elem_of_app in H as [?| ->%list_elem_of_singleton]; [by left|right; left].
Qed.

Lemma verifier_laws_spec fuel opt fn m laws inv : verifier_laws fuel opt fn m = Some laws → inv ∈ laws →
  exactCheckFailure (im_from fn) inv (nonlinearPlaces fn) fn m = None ∧ support_ok (length (flatPlaces fn)) inv.
Proof.
  unfold verifier_laws. destruct (computePInvariants _ _ _ _) as [basis|] eqn:Eb; [|done]. cbn [mbind option_bind]. intros [= <-].
  unfold canonicalInvariantOrder. rewrite stable_sort_Permutation. set (u := match opt with SemiflowsOff => _ | _ => _ end). intros Hin.
  assert (inv ∈ valid (validateInvariantsExact (im_from fn) basis fn m) ∨ inv ∈ valid (validateInvariantsExact (im_from fn) (computePSemiflows (im_from fn) fn m) fn m)) as Hv.
  { destruct u; [|by left]. by apply strengthen_elem in Hin. }
  destruct Hv as [[H1 H2]%valid_spec|[H1 H2]%valid_spec]; (split; [done|]).
  - by apply (computePInvariants_support fuel (im_from fn) fn m basis).
  - by apply (computePSemiflows_support (im_from fn) fn m).
Qed.

(** ** Coverage *)

Lemma covered_by invs n p : isCoveredByInvariants invs n = true → (p < n)%nat →
  ∃ inv, inv ∈ invs ∧ existsb is_negative (weights inv) = false ∧ p ∈ support inv.
Proof.
  unfold isCoveredByInvariants. set (f := λ c inv, _). intros Hc Hp. rewrite forallb_elem in Hc.
  assert (∀ l c, length (foldl (λ c i, if (i <? n)%nat then <[i := true]> c else c) c l) = length c ∧
    (foldl (λ c i, if (i <? n)%nat then <[i := true]> c else c) c l !! p = Some true → c !! p = Some true ∨ p ∈ l)) as Hl.
  { induction l as [|i l IH]; intros c; cbn [foldl]; [by split; [|left]|]. destruct (IH (if (i <? n)%nat then <[i := true]> c else c)) as [H1 H2].
    split; [rewrite H1; case_bool; by rewrite ?length_insert|]. intros [H|?]%H2; [|by right; right].
    case_bool; [|by left]. destruct (decide (p = i)) as [->|]; [right; left|]. rewrite list_lookup_insert_ne in H by done. by left. }
  assert (∀ c, length (foldl f c invs) = length c ∧ (foldl f c invs !! p = Some true → c !! p = Some true ∨
    ∃ inv, inv ∈ invs ∧ existsb is_negative (weights inv) = false ∧ p ∈ support inv)) as H.
  { clear Hc. induction invs as [|inv invs IH]; intros c; cbn [foldl]; [by split; [|left]|]. destruct (IH (f c inv)) as [H1 H2].
    assert (length (f c inv) = length c ∧ (f c inv !! p = Some true → c !! p = Some true ∨ existsb is_negative (weights inv) = false ∧ p ∈ support inv)) as [F1 F2].
    { unfold f. destruct (existsb is_negative (weights inv)) eqn:En; [by split; [|left]|]. destruct (Hl (support inv) c) as [L1 L2]. split; [done|].
      intros [?|?]%L2; [by left|by right]. }
    split; [congruence|]. intros [[?|?]%F2|(i & Hi & ?)]%H2; [by left|right; exists inv; split; [left|done]|right; exists i; split; [by right|done]]. }
  destruct (H (replicate n false)) as [H1 H2]. rewrite length_replicate in H1. destruct (lookup_lt_is_Some_2 (foldl f (replicate n false) invs) p) as [b Eb]; [lia|].
  assert (b = true) as -> by (apply (Hc b); by eapply list_elem_of_lookup_2). destruct (H2 Eb) as [E|?]; [|done].
  apply lookup_replicate in E as [? _]. done.
Qed.

(** ** Properties *)

(** C38: every law the verifier conjoins is true. Whatever the null-space elimination and the
    semiflow search computed, rounded or not, each invariant that survives the exact gate, the union
    and the canonical order is an equation between integers that every marking the net reaches
    satisfies, by firings with any of their outcomes and by arrivals on environment places: the
    weighted token count is its constant. *)
Theorem verifier_laws_sound {V} (net : petri_net V) environmentPlaces mode reap m0 fn fuel opt laws inv c :
  built_net net → drainedForward (net_transitions net) = Ok None → ms_wf m0 →
  flatten net environmentPlaces mode reap = Ok fn → verifier_laws fuel opt fn m0 = Some laws → inv ∈ laws →
  open_reachable (net_transitions net) (env_names environmentPlaces fn) mode m0 c →
  (∀ p, (p < length (flatPlaces fn))%nat → weights inv !! p = Some (Num (weight_of inv p))) ∧
  pi_constant inv = Num (sum (length (flatPlaces fn)) (λ p, weight_of inv p * from_option (λ q, c (place_name q)) 0 (flatPlaces fn !! p))).
Proof.
  intros Hb Hd Hm Hf El Hin Hc. destruct (verifier_laws_spec fuel opt fn m0 laws inv El Hin) as [Hg _].
  rewrite (gate_sound net environmentPlaces mode reap fn m0 Hf Hb Hd Hm inv c Hg Hc).
  apply exactCheck_spec in Hg as (Hl & Hw & Hk & _). cbn [im_from numPlaces] in *. split; [|done].
  intros p Hp. specialize (Hw p Hp). unfold nth_num in Hw. destruct (weights inv !! p) as [x|] eqn:E; [by rewrite <- Hw|done].
Qed.

(** C39: the answer "structurally bounded" is true. When the laws of one sign cover every place, no
    place ever holds more tokens than the constant of a law that weighs it, in any marking the net
    reaches. *)
Theorem covered_net_bounded {V} (net : petri_net V) environmentPlaces mode reap m0 fn fuel opt laws :
  built_net net → drainedForward (net_transitions net) = Ok None → ms_wf m0 →
  flatten net environmentPlaces mode reap = Ok fn → verifier_laws fuel opt fn m0 = Some laws →
  isCoveredByInvariants laws (length (flatPlaces fn)) = true →
  ∀ q, q ∈ flatPlaces fn → ∃ inv k, inv ∈ laws ∧ pi_constant inv = Num k ∧
    ∀ c, open_reachable (net_transitions net) (env_names environmentPlaces fn) mode m0 c → c (place_name q) <= k.
Proof.
  intros Hb Hd Hm Hf El Hcov q [p Hq]%list_elem_of_lookup. pose proof (lookup_lt_Some _ _ _ Hq) as Hp.
  destruct (covered_by laws _ p Hcov Hp) as (inv & Hin & Hneg & Hs).
  destruct (verifier_laws_spec fuel opt fn m0 laws inv El Hin) as [Hg Hsup]. apply Hsup in Hs as [_ Hnz].
  pose proof (exactCheck_spec _ _ _ _ _ Hg) as (Hl & Hw & Hk & _). cbn [im_from numPlaces] in *.
  exists inv, (num_int (pi_constant inv)). split_and!; [done|done|]. intros c Hc.
  rewrite <- (gate_sound net environmentPlaces mode reap fn m0 Hf Hb Hd Hm inv c Hg Hc).
  pose proof (reached_nonneg net environmentPlaces mode fn m0 Hb Hm c Hc) as Hnn.
  assert (∀ i, (i < length (flatPlaces fn))%nat → 0 <= weight_of inv i) as Hpos.
  { intros i Hi. specialize (Hw i Hi). unfold nth_num in Hw. destruct (weights inv !! i) as [x|] eqn:E; [|done]. cbn in Hw.
    pose proof (existsb_false is_negative (weights inv) x Hneg (list_elem_of_lookup_2 _ _ _ E)) as Hx. rewrite Hw in Hx. cbn in Hx. by b2p. }
  etrans; [|apply (sum_term _ p)]; cbn beta.
  - rewrite Hq. cbn [from_option]. rewrite (Hw p Hp) in Hnz. cbn in Hnz. b2p. specialize (Hpos p Hp). specialize (Hnn (place_name q)). nia.
  - done.
  - intros i Hi. apply Z.mul_nonneg_nonneg; [by apply Hpos|]. destruct (flatPlaces fn !! i); cbn; [apply Hnn|done].
Qed.

(** A ring of two places beside a pipe fed by the environment. *)
Definition ring_builders : list (builder unit) :=
  [with_outputs (OutPlace (Place 1 (js "b"))) (with_inputs [InOne (Place 0 (js "a"))] (builder_new (js "go")));
   with_outputs (OutPlace (Place 0 (js "a"))) (with_inputs [InOne (Place 1 (js "b"))] (builder_new (js "back")))].
Definition pipe_builder : builder unit :=
  with_outputs (OutPlace (Place 3 (js "out"))) (with_inputs [InOne (Place 2 (js "in"))] (builder_new (js "pipe"))).

Definition ring_net : petri_net unit := PetriNet (js "ring") [] (built <$> ring_builders) [].
Definition ring_pipe_net : petri_net unit := PetriNet (js "ring") [] (built <$> (pipe_builder :: ring_builders)) [].
Definition one_a : marking_state := MarkingState [(js "a", 1)] [(js "a", Place 0 (js "a"))].

Lemma one_a_wf : ms_wf one_a.
Proof.
  constructor.
  - apply NoDup_singleton.
  - done.
  - intros n p [= -> ->]%list_elem_of_singleton. done.
  - apply NoDup_singleton.
  - intros n z [= -> ->]%list_elem_of_singleton. lia.
Qed.

Lemma ring_pipe_built : built_net ring_pipe_net.
Proof.
  intros t Ht. apply list_elem_of_fmap in Ht as (b & -> & Hb). exists b.
  repeat (apply elem_of_cons in Hb as [->|Hb]; [split; [reflexivity|intros o [= <-]; reflexivity]|]). by apply not_elem_of_nil in Hb.
Qed.

Lemma ring_built : built_net ring_net.
Proof. intros t Ht. apply ring_pipe_built. apply elem_of_cons. by right. Qed.

(** The one law kept is [a + b = 1]; the law of the pipe falls to the injector column. *)
Lemma verifier_laws_sound_witness : ∃ fn law, flatten ring_pipe_net [Place 2 (js "in")] AlwaysAvailable (λ _, false) = Ok fn ∧
  verifier_laws 100 SemiflowsOff fn one_a = Some [law] ∧ weights law = [Num 1; Num 1; Num 0; Num 0] ∧
  pi_constant law = Num 1 ∧
  pi_constant law = Num (sum (length (flatPlaces fn)) (λ p, weight_of law p * from_option (λ q, count_of one_a (place_name q)) 0 (flatPlaces fn !! p))).
Proof.
  destruct (flatten ring_pipe_net [Place 2 (js "in")] AlwaysAvailable (λ _, false)) as [fn|] eqn:Ef; [|discriminate].
  assert (∃ law, verifier_laws 100 SemiflowsOff fn one_a = Some [law] ∧ weights law = [Num 1; Num 1; Num 0; Num 0] ∧ pi_constant law = Num 1) as (law & El & Ew & Ek)
    by (vm_compute in Ef; injection Ef as <-; eexists; split; [vm_compute; reflexivity|split; reflexivity]).
  exists fn, law. split; [reflexivity|]. split; [exact El|]. split; [exact Ew|]. split; [exact Ek|].
  apply (verifier_laws_sound ring_pipe_net [Place 2 (js "in")] AlwaysAvailable (λ _, false) one_a fn 100 SemiflowsOff [law] law (count_of one_a)).
  - exact ring_pipe_built.
  - reflexivity.
  - exact one_a_wf.
  - exact Ef.
  - exact El.
  - left.
  - by apply open_start.
Defined.

Lemma covered_net_bounded_witness : ∃ fn laws, flatten ring_net [] Ignore (λ _, false) = Ok fn ∧
  verifier_laws 100 SemiflowsOn fn one_a = Some laws ∧ isCoveredByInvariants laws 2 = true ∧
  ∃ k, ∀ c, open_reachable (net_transitions ring_net) [] Ignore one_a c → c (js "b") <= k.
Proof.
  destruct (flatten ring_net [] Ignore (λ _, false)) as [fn|] eqn:Ef; [|discriminate].
  destruct (verifier_laws 100 SemiflowsOn fn one_a) as [laws|] eqn:El; [|vm_compute in Ef; injection Ef as <-; vm_compute in El; discriminate].
  assert (length (flatPlaces fn) = 2%nat ∧ Place 1 (js "b") ∈ flatPlaces fn ∧ isCoveredByInvariants laws 2 = true) as (Hn & Hq & Hc).
  { vm_compute in Ef. injection Ef as <-. vm_compute in El. injection El as <-. split; [reflexivity|]. split; [right; left|reflexivity]. }
  exists fn, laws. split; [reflexivity|]. split; [exact El|]. split; [exact Hc|].
  destruct (covered_net_bounded ring_net [] Ignore (λ _, false) one_a fn 100 SemiflowsOn laws) with (q := Place 1 (js "b")) as (inv & k & _ & _ & H).
  - exact ring_built.
  - reflexivity.
  - exact one_a_wf.
  - exact Ef.
  - exact El.
  - rewrite Hn. exact Hc.
  - exact Hq.
  - exists k. exact H.
Defined.

(** [combineRow] tests the rounded sum: a product beyond the safe integers rounds, and the sum comes
    back into range with a wrong value. *)
Lemma combineRow_rounds : combineRow 3 [2 ^ 52 + 1] 1 [- (2 ^ 53 - 1)] = Some [3 * (2 ^ 52 + 1) - (2 ^ 53 - 1) + 1].
Proof. reflexivity. Qed.
