(* ===== verification/Elimination.v ===== *)
(** * The elimination computes a basis of the conservation laws

    Reference: the elimination of [computePInvariants] on exact integers, which gives up when a
    product or a difference leaves the safe integers. Where it does not give up, the computation on
    JavaScript numbers ends and agrees with it; and its zero rows are a basis of the vectors that
    every column of the incidence matrix annihilates. *)
From S2P Require Import Prelude.
From S2P Require Import Net.
From S2P Require Import Transition.
From S2P Require Import MarkingState.
From S2P Require Import StateClass.
From S2P Require Import FlatNet.
From S2P Require Import PInvariant.
From S2P Require Import Conservation.
#[local] Open Scope Z_scope.

(** ** The exact elimination *)

Definition zcell (m : list (list Z)) (i j : nat) : Z := entry_at (default [] (m !! i)) j.

Definition znormalize (row : list Z) : list Z :=
  let g := foldl (λ g x, Z.gcd g (Z.abs x)) 0 row in if 1 <? g then (λ x, Z.quot x g) <$> row else row.

Definition zcombine (a b : Z) (rx rp : list Z) : option (list Z) :=
  if forallb (λ y : Z * Z, safe_Z (a * y.1) && safe_Z (b * y.2) && safe_Z (a * y.1 - b * y.2)) (zip rx rp)
  then Some (zip_with (λ x y, a * x - b * y) rx rp) else None.

Definition zeliminate_row (pivotRow col : nat) (m : list (list Z)) (row : nat) : option (list (list Z)) :=
  if (row =? pivotRow)%nat || (zcell m row col =? 0) then Some m
  else r ← zcombine (zcell m pivotRow col) (zcell m row col) (default [] (m !! row)) (default [] (m !! pivotRow));
       Some (<[row := znormalize r]> m).

Definition zfind_pivot (m : list (list Z)) (P pivotRow col : nat) : option nat :=
  js_find (λ row, negb (zcell m row col =? 0)) (seq pivotRow (P - pivotRow)).

Definition zeliminate_column (P : nat) (x : list (list Z) * nat) (col : nat) : option (list (list Z) * nat) :=
  let '(m, pivotRow) := x in
  if (pivotRow <? P)%nat then
    match zfind_pivot m P pivotRow col with
    | None => Some (m, pivotRow)
    | Some pivot =>
        m ← iterate (zeliminate_row pivotRow col) (swap_rows m pivotRow pivot) (seq 0 P);
        Some (m, S pivotRow)
    end
  else Some (m, pivotRow).

Definition zaugmented (matrix : incidence_matrix) : list (list Z) :=
  imap (λ i row, row ++ unit_row (numPlaces matrix) i) (transposedIncidence matrix).

(** [None] when some value leaves the safe integers. *)
Definition exact_elimination (matrix : incidence_matrix) : option (list (list Z)) :=
  if forallb (forallb safe_Z) (transposedIncidence matrix)
  then x ← iterate (zeliminate_column (numPlaces matrix)) (zaugmented matrix, 0%nat) (seq 0 (numTransitions matrix)); Some x.1
  else None.

Lemma iterate_app {A} (f : A → nat → option A) l1 l2 a : iterate f a (l1 ++ l2) = iterate f a l1 ≫= λ a, iterate f a l2.
Proof. revert a. induction l1 as [|x l1 IH]; intros a; [done|]. cbn [iterate app]. destruct (f a x); [apply IH|done]. Qed.

(** ** Shapes *)

Definition shape (P n : nat) (m : list (list Z)) : Prop := length m = P ∧ ∀ row, row ∈ m → length row = n.

Lemma shape_row P n m i : shape P n m → (i < P)%nat → ∃ row, m !! i = Some row ∧ length row = n.
Proof.
  intros [Hl Hr] Hi. destruct (lookup_lt_is_Some_2 m i) as [row E]; [lia|]. exists row. split; [done|]. apply Hr. by eapply list_elem_of_lookup_2.
Qed.

Lemma zcell_insert P n m i j k row : shape P n m → (i < P)%nat → zcell (<[i := row]> m) j k = if decide (j = i) then entry_at row k else zcell m j k.
Proof.
  intros [Hl _] Hi. unfold zcell. case_decide as E; [subst; by rewrite list_lookup_insert_eq by lia|]. by rewrite list_lookup_insert_ne.
Qed.

Lemma shape_insert P n m i row : shape P n m → length row = n → shape P n (<[i := row]> m).
Proof.
  intros [Hl Hr] Hn. split; [by rewrite length_insert|]. intros row' H. apply list_elem_of_lookup in H as [k Hk].
  apply list_lookup_insert_Some in Hk as [(_ & <- & _)|[_ Hk]]; [done|]. apply Hr. by eapply list_elem_of_lookup_2.
Qed.

Lemma shape_swap P n m i j : shape P n m → shape P n (swap_rows m i j).
Proof.
  intros Hs. unfold swap_rows. destruct (m !! i) as [x|] eqn:Ei; [|done]. destruct (m !! j) as [y|] eqn:Ej; [|done].
  destruct Hs as [Hl Hr]. apply shape_insert; [apply shape_insert; [done|]|]; apply Hr; by eapply list_elem_of_lookup_2.
Qed.

Lemma zcell_swap P n m i j k x : shape P n m → (i < P)%nat → (j < P)%nat →
  zcell (swap_rows m i j) k x = zcell m (if decide (k = j) then i else if decide (k = i) then j else k) x.
Proof.
  intros Hs Hi Hj. destruct (shape_row P n m i Hs Hi) as (ri & Ei & Li), (shape_row P n m j Hs Hj) as (rj & Ej & Lj).
  unfold swap_rows. rewrite Ei, Ej. rewrite (zcell_insert P n) by (done || by apply shape_insert). rewrite (zcell_insert P n) by done.
  repeat case_decide; subst; unfold zcell; by rewrite ?Ei, ?Ej.
Qed.

(** ** Normalisation *)

Lemma gcd_fold_spec row g : 0 <= g → let d := foldl (λ g x, Z.gcd g (Z.abs x)) g row in 0 <= d ∧ (d | g) ∧ ∀ x, x ∈ row → (d | x).
Proof.
  revert g. induction row as [|y row IH]; intros g Hg; cbn [foldl]; [split_and!; [done|done|]; by intros x ?%not_elem_of_nil|].
  destruct (IH (Z.gcd g (Z.abs y)) (Z.gcd_nonneg _ _)) as (H0 & H1 & H2). split_and!; [done| |].
  - etrans; [exact H1|apply Z.gcd_divide_l].
  - intros x [->|Hx]%elem_of_cons; [|by apply H2]. apply Z.divide_abs_r. etrans; [exact H1|apply Z.gcd_divide_r].
Qed.

(** Normalising divides a row by a positive number. *)
Lemma znormalize_spec row : ∃ g, 0 < g ∧ length (znormalize row) = length row ∧ ∀ k, g * entry_at (znormalize row) k = entry_at row k.
Proof.
  unfold znormalize. set (g := foldl _ 0 row). destruct (Z.ltb_spec 1 g) as [Hg|]; [|exists 1; split_and!; [lia|done|intros; lia]].
  exists g. split_and!; [lia|by rewrite length_fmap|]. intros k. unfold entry_at. rewrite list_lookup_fmap. destruct (row !! k) as [x|] eqn:E; cbn; [|lia].
  destruct (gcd_fold_spec row 0 ltac:(lia)) as (_ & _ & H). fold g in H. destruct (H x) as [q ->]; [by eapply list_elem_of_lookup_2|].
  rewrite Z.quot_mul by lia. lia.
Qed.

Lemma zcombine_spec a b rx rp r : zcombine a b rx rp = Some r → length rx = length rp →
  length r = length rx ∧ ∀ k, entry_at r k = a * entry_at rx k - b * entry_at rp k.
Proof.
  unfold zcombine. case_match; [|done]. intros [= <-] Hl. split; [rewrite length_zip_with; lia|]. intros k. unfold entry_at. rewrite lookup_zip_with.
  destruct (rx !! k) as [x|] eqn:Ex; cbn.
  - destruct (lookup_lt_is_Some_2 rp k) as [y Ey]; [rewrite <- Hl; by eapply lookup_lt_Some|]. by rewrite Ey.
  - apply lookup_ge_None in Ex. rewrite (proj2 (lookup_ge_None rp k)) by lia. cbn. lia.
Qed.

Lemma sum_indicator n i z : (i < n)%nat → sum n (λ j, if decide (j = i) then z else 0) = z.
Proof. intros Hi. rewrite (sum_single n i) by (done || by intros j _ Hj; rewrite decide_False). by rewrite decide_True. Qed.

(** ** What the elimination keeps *)

Section Invariant.
Variables (P T : nat) (C : nat → nat → Z).
Implicit Types (m : list (list Z)).

Local Abbreviation n := (T + P)%nat.
Definition law_part m (i p : nat) : Z := zcell m i (T + p).

(** The rows record how they combine the rows of the incidence matrix, are independent, and span. *)
Record combos m : Prop := {
  cb_shape : shape P n m;
  cb_trace : ∀ i t, (i < P)%nat → (t < T)%nat → zcell m i t = sum P (λ p, law_part m i p * C t p);
  cb_independent : ∀ k, (∀ p, (p < P)%nat → sum P (λ i, k i * law_part m i p) = 0) → ∀ i, (i < P)%nat → k i = 0;
  cb_span : ∀ y, ∃ d k, d ≠ 0 ∧ ∀ p, (p < P)%nat → d * y p = sum P (λ i, k i * law_part m i p)
}.

(** Replacing row [i] by a multiple [a/g], [a] not zero, plus a multiple of another row. *)
Definition row_op m m' (i r : nat) (a b g : Z) : Prop :=
  a ≠ 0 ∧ g ≠ 0 ∧ i ≠ r ∧ (i < P)%nat ∧ (r < P)%nat ∧ shape P n m' ∧
  (∀ x, (x < n)%nat → g * zcell m' i x = a * zcell m i x - b * zcell m r x) ∧
  ∀ j x, j ≠ i → zcell m' j x = zcell m j x.

Lemma row_op_combos m m' i r a b g : combos m → row_op m m' i r a b g → combos m'.
Proof.
  intros [Hs Ht Hi Hp] (Ha & Hg & Hne & Li & Lr & Hs' & Hrow & Hother). unfold law_part in *.
  assert (∀ p, (p < P)%nat → g * zcell m' i (T + p) = a * zcell m i (T + p) - b * zcell m r (T + p)) as Hlaw by (intros; apply Hrow; lia).
  constructor; unfold law_part; [done| | |].
  - intros j t Hj Hlt. destruct (decide (j = i)) as [->|E].
    + apply (Z.mul_reg_l _ _ g Hg). rewrite Hrow, !Ht, <- !sum_scale, <- sum_sub by lia.
      apply sum_ext. intros p Hpp. transitivity (g * zcell m' i (T + p) * C t p); [rewrite (Hlaw p Hpp)|]; ring.
    + rewrite Hother, Ht by done. apply sum_ext. intros p _. by rewrite Hother.
  - intros k Hk. set (k' := λ j, g * k j + (if decide (j = i) then (a - g) * k i else 0) + (if decide (j = r) then - b * k i else 0)).
    assert (∀ j, (j < P)%nat → k' j = 0) as Hk'.
    { apply Hi. intros p Hpp. specialize (Hk p Hpp).
      transitivity (g * sum P (λ j, k j * zcell m' j (T + p))); [|by rewrite Hk; lia].
      rewrite <- sum_scale.
      transitivity (sum P (λ j, g * (k j * zcell m' j (T + p)) + (if decide (j = i) then a * k i * zcell m i (T + p) - k i * (g * zcell m' i (T + p)) else 0)
        + (if decide (j = r) then - b * k i * zcell m r (T + p) else 0))).
      - apply sum_ext. intros j Hj. unfold k'. repeat case_decide; subst; try done; rewrite ?(Hother j) by done; try lia. rewrite (Hother r) by done. lia.
      - rewrite !sum_add, !sum_indicator by done. rewrite (Hlaw p Hpp). lia. }
    assert (k i = 0) as Eki.
    { pose proof (Hk' i Li) as E. unfold k' in E. rewrite decide_True, decide_False in E by done. nia. }
    intros j Hj. destruct (decide (j = i)) as [->|E]; [done|]. pose proof (Hk' j Hj) as F. unfold k' in F. rewrite decide_False in F by done.
    rewrite Eki in F. case_decide; nia.
  - intros y. destruct (Hp y) as (d & k & Hd & Hy).
    exists (a * d), (λ j, a * k j + (if decide (j = i) then (g - a) * k i else 0) + (if decide (j = r) then b * k i else 0)). split; [nia|].
    intros p Hpp. rewrite <- Z.mul_assoc, (Hy p Hpp), <- sum_scale.
    transitivity (sum P (λ j, a * (k j * zcell m j (T + p)) + (if decide (j = i) then k i * (g * zcell m' i (T + p)) - a * k i * zcell m i (T + p) else 0)
        + (if decide (j = r) then b * k i * zcell m r (T + p) else 0))).
    + rewrite !sum_add, !sum_indicator by done. rewrite (Hlaw p Hpp). lia.
    + apply sum_ext. intros j Hj. repeat case_decide; subst; try done; rewrite ?(Hother j) by done; try lia. rewrite (Hother r) by done. lia.
Qed.

(** Exchanging two rows. *)
Lemma sum_exchange (f : nat → Z) i j : (i < P)%nat → (j < P)%nat →
  sum P (λ k, f (if decide (k = j) then i else if decide (k = i) then j else k)) = sum P f.
Proof.
  intros Hi Hj. destruct (decide (i = j)) as [->|Hne]; [apply sum_ext; intros k _; repeat case_decide; by subst|].
  transitivity (sum P (λ k, f k + (if decide (k = i) then f j - f i else 0) + (if decide (k = j) then f i - f j else 0))).
  - apply sum_ext. intros k _. repeat case_decide; subst; try done; lia.
  - rewrite !sum_add, !sum_indicator by done. lia.
Qed.

Lemma swap_combos m i j : combos m → (i < P)%nat → (j < P)%nat → combos (swap_rows m i j).
Proof.
  intros [Hs Ht Hi Hp] Li Lj. unfold law_part in *. set (σ := λ k, if decide (k = j) then i else if decide (k = i) then j else k).
  assert (∀ k x, zcell (swap_rows m i j) k x = zcell m (σ k) x) as Hc by (intros; by apply (zcell_swap P n)).
  assert (∀ k, (k < P)%nat → (σ k < P)%nat) as Hσ by (intros; unfold σ; repeat case_decide; lia).
  assert (∀ k, σ (σ k) = k) as Hinv by (intros; unfold σ; repeat case_decide; subst; done).
  assert (∀ k p, sum P (λ l, k l * zcell m (σ l) (T + p)) = sum P (λ l, k (σ l) * zcell m l (T + p))) as Hsum.
  { intros k p. rewrite <- (sum_exchange (λ l, k (σ l) * zcell m l (T + p)) i j) by done. apply sum_ext. intros l _. fold (σ l). by rewrite Hinv. }
  constructor; unfold law_part.
  - by apply shape_swap.
  - intros k t Hk Hlt. rewrite Hc, Ht by auto. apply sum_ext. intros p _. by rewrite Hc.
  - intros k Hk l Hl. assert (∀ l, (l < P)%nat → k (σ l) = 0) as H.
    { apply Hi. intros p Hpp. rewrite <- Hsum, <- (Hk p Hpp). apply sum_ext. intros q _. by rewrite Hc. }
    rewrite <- (Hinv l). by apply H, Hσ.
  - intros y. destruct (Hp y) as (d & k & Hd & Hy). exists d, (λ l, k (σ l)). split; [done|]. intros p Hpp. rewrite (Hy p Hpp).
    transitivity (sum P (λ l, k (σ (σ l)) * zcell m l (T + p))); [apply sum_ext; intros; by rewrite Hinv|].
    rewrite <- (Hsum (λ l, k (σ l))). apply sum_ext. intros l _. by rewrite Hc.
Qed.

(** *** The echelon *)

(** The columns below [c] are done: the rows from [r] on are zero there, and each row below [r] has a
    column of its own. *)
Definition echelon m (r c : nat) : Prop :=
  (∀ i t, (r <= i < P)%nat → (t < c)%nat → zcell m i t = 0) ∧
  ∀ j, (j < r)%nat → ∃ t, (t < c)%nat ∧ zcell m j t ≠ 0 ∧ ∀ i, (i < P)%nat → i ≠ j → zcell m i t = 0.

Lemma row_op_echelon m m' i r c a b g : row_op m m' i r a b g → (c <= T)%nat → echelon m r c → echelon m' r c.
Proof.
  intros (Ha & Hg & Hne & Li & Lr & _ & Hrow & Hother) Hc [H1 H2]. split.
  - intros j t Hj Ht. destruct (decide (j = i)) as [->|E]; [|rewrite Hother by done; by apply H1].
    specialize (Hrow t ltac:(lia)). rewrite (H1 i t), (H1 r t) in Hrow by lia. nia.
  - intros j Hj. destruct (H2 j Hj) as (t & Ht & Hn & Hz). exists t.
    assert (zcell m r t = 0) as Hr by (apply Hz; lia). specialize (Hrow t ltac:(lia)). rewrite Hr in Hrow. split_and!; [done| |].
    + destruct (decide (j = i)) as [->|E]; [nia|by rewrite Hother].
    + intros k Hk Hkj. destruct (decide (k = i)) as [->|E]; [rewrite (Hz i) in Hrow by done; nia|rewrite Hother by done; by apply Hz].
Qed.

Lemma swap_echelon m r p c : shape P n m → (r < P)%nat → (r <= p < P)%nat → echelon m r c → echelon (swap_rows m r p) r c.
Proof.
  intros Hs Hr Hp [H1 H2]. split.
  - intros i t Hi Ht. rewrite (zcell_swap P n) by (done || lia). apply H1; [|done]. repeat case_decide; lia.
  - intros j Hj. destruct (H2 j Hj) as (t & Ht & Hn & Hz). exists t. split_and!; [done| |].
    + rewrite (zcell_swap P n) by (done || lia). rewrite !decide_False by lia. done.
    + intros i Hi Hij. rewrite (zcell_swap P n) by (done || lia). apply Hz; repeat case_decide; lia.
Qed.

(** *** One column *)

Lemma zeliminate_row_op m m' r c i : combos m → (r < P)%nat → (i < P)%nat → zeliminate_row r c m i = Some m' →
  (m' = m ∧ (i = r ∨ zcell m i c = 0)) ∨ (zcell m i c ≠ 0 ∧ i ≠ r ∧ ∃ g, zcell m r c ≠ 0 → row_op m m' i r (zcell m r c) (zcell m i c) g).
Proof.
  intros [Hs _ _ _] Hr Hi. unfold zeliminate_row. destruct (Nat.eqb_spec i r) as [->|Hne]; [intros [= <-]; left; split; [done|by left]|]. cbn [orb].
  destruct (Z.eqb_spec (zcell m i c) 0) as [E|E]; [intros [= <-]; left; split; [done|by right]|].
  destruct (zcombine _ _ _ _) as [row|] eqn:Ec; [|done]. cbn [mbind option_bind]. intros [= <-]. right. split; [done|]. split; [done|].
  destruct (shape_row P n m i Hs Hi) as (ri & Ei & Li), (shape_row P n m r Hs Hr) as (rr & Er & Lr). rewrite Ei, Er in Ec. cbn [default from_option id] in Ec.
  apply zcombine_spec in Ec as [Hl He]; [|congruence]. destruct (znormalize_spec row) as (g & Hg & Hgl & Hge). exists g. intros Ha.
  assert (shape P n (<[i := znormalize row]> m)) as Hs' by (apply shape_insert; [done|congruence]).
  split_and!; try done; try lia.
  - intros x Hx. rewrite (zcell_insert P n), decide_True by done. rewrite Hge, He. unfold zcell. by rewrite Ei, Er.
  - intros j x Hj. rewrite (zcell_insert P n) by done. by rewrite decide_False.
Qed.

Lemma column_rows r c m m' k : (r < P)%nat → (c < T)%nat → (k <= P)%nat → combos m → echelon m r c → zcell m r c ≠ 0 →
  iterate (zeliminate_row r c) m (seq 0 k) = Some m' →
  combos m' ∧ echelon m' r c ∧ zcell m' r c ≠ 0 ∧ ∀ i, (i < k)%nat → i ≠ r → zcell m' i c = 0.
Proof.
  intros Hr Hc. revert m'. induction k as [|k IH]; intros m' Hk Hm He Hp.
  { intros [= <-]. split_and!; [done|done|done|]. intros i Hi. lia. }
  rewrite seq_S, iterate_app. destruct (iterate _ m (seq 0 k)) as [m1|] eqn:E1; [|done]. cbn [mbind option_bind plus iterate].
  destruct (IH m1 ltac:(lia) Hm He Hp eq_refl) as (C1 & E2 & P1 & Z1). destruct (zeliminate_row r c m1 k) as [m2|] eqn:Er; [|done].
  cbn [mbind option_bind]. intros [= <-]. destruct (zeliminate_row_op m1 m2 r c k C1 Hr ltac:(lia) Er) as [[-> Hz]|(Hz & Hkr & g & Hop)].
  - split_and!; [done|done|done|]. intros i Hi Hir. destruct (decide (i = k)) as [->|]; [by destruct Hz|]. apply Z1; [lia|done].
  - specialize (Hop P1). pose proof Hop as (Ha & Hg & _ & _ & _ & _ & Hrow & Hother). split_and!.
    + by eapply row_op_combos.
    + eapply row_op_echelon; [done|lia|done].
    + by rewrite Hother.
    + intros i Hi Hir. destruct (decide (i = k)) as [->|]; [|rewrite Hother by done; apply Z1; [lia|done]].
      specialize (Hrow c ltac:(lia)). nia.
Qed.

Lemma zfind_pivot_spec m r c : match zfind_pivot m P r c with
  | Some p => (r <= p < P)%nat ∧ zcell m p c ≠ 0 | None => ∀ i, (r <= i < P)%nat → zcell m i c = 0 end.
Proof.
  unfold zfind_pivot, js_find. destruct (list_find _ _) as [[k p]|] eqn:E; cbn [mbind option_bind].
  - apply list_find_Some in E as (E & Hp & _). apply list_elem_of_lookup_2, elem_of_seq in E. split; [cbn; lia|].
    apply Is_true_true in Hp. b2p. done.
  - apply list_find_None in E. rewrite Forall_forall in E. intros i Hi. specialize (E i). rewrite elem_of_seq in E. specialize (E ltac:(lia)).
    destruct (Z.eqb_spec (zcell m i c) 0) as [|Hn]; [done|]. destruct E. by apply Is_true_true.
Qed.

Lemma column_step m r c m' r' : (c < T)%nat → (r <= P)%nat → combos m → echelon m r c → zeliminate_column P (m, r) c = Some (m', r') →
  combos m' ∧ echelon m' r' (S c) ∧ (r' <= P)%nat.
Proof.
  intros Hc Hr Hm He. unfold zeliminate_column. destruct (Nat.ltb_spec r P) as [Hlt|Hge].
  2:{ intros [= <- <-]. destruct He as [H1 H2]. split_and!; [done| |lia]. split; [intros i t Hi; lia|].
      intros j Hj. destruct (H2 j Hj) as (t & ? & ? & ?). exists t. split_and!; [lia|done|done]. }
  pose proof (zfind_pivot_spec m r c) as Hp. destruct (zfind_pivot m P r c) as [p|].
  2:{ intros [= <- <-]. destruct He as [H1 H2]. split_and!; [done| |lia]. split.
      - intros i t Hi Ht. destruct (decide (t = c)) as [->|]; [by apply Hp|apply H1; lia].
      - intros j Hj. destruct (H2 j Hj) as (t & ? & ? & ?). exists t. split_and!; [lia|done|done]. }
  destruct Hp as [Hp Hnz]. destruct (iterate _ _ _) as [m1|] eqn:Ei; [|done]. cbn [mbind option_bind]. intros [= <- <-].
  destruct (column_rows r c (swap_rows m r p) m1 P) as (C1 & [E1 E2] & N1 & Z1); try done; try lia.
  - apply swap_combos; [done|lia..].
  - apply swap_echelon; [apply Hm|lia|lia|done].
  - rewrite (zcell_swap P n) by (apply Hm || lia). case_decide as E; [subst; done|]. by rewrite decide_True.
  - split_and!; [done| |lia]. split.
    + intros i t Hi Ht. destruct (decide (t = c)) as [->|]; [apply Z1; lia|apply E1; lia].
    + intros j Hj. destruct (decide (j = r)) as [->|].
      * exists c. split_and!; [lia|done|]. intros i Hi Hir. by apply Z1.
      * destruct (E2 j ltac:(lia)) as (t & ? & ? & ?). exists t. split_and!; [lia|done|done].
Qed.

Lemma columns_steps k m r : (k <= T)%nat → ∀ m' r', combos m → (r <= P)%nat → echelon m r 0 →
  iterate (zeliminate_column P) (m, r) (seq 0 k) = Some (m', r') → combos m' ∧ echelon m' r' k ∧ (r' <= P)%nat.
Proof.
  induction k as [|k IH]; intros Hk m' r' Hm Hr He.
  { intros [= <- <-]. done. }
  rewrite seq_S, iterate_app. destruct (iterate _ (m, r) (seq 0 k)) as [[m1 r1]|] eqn:E1; [|done]. cbn [mbind option_bind plus iterate].
  destruct (IH ltac:(lia) m1 r1 Hm Hr He eq_refl) as (C1 & E2 & R1). destruct (zeliminate_column P (m1, r1) k) as [[m2 r2]|] eqn:Er; [|done].
  cbn [mbind option_bind]. intros [= <- <-]. by apply (column_step m1 r1 k).
Qed.

(** *** The zero rows are a basis *)

Lemma zero_rows m r : echelon m r T → (r <= P)%nat → ∀ i, (i < P)%nat → (∀ t, (t < T)%nat → zcell m i t = 0) ↔ (r <= i)%nat.
Proof.
  intros [H1 H2] Hr i Hi. split.
  - intros Hz. destruct (Nat.lt_ge_cases i r) as [Hlt|]; [|done]. destruct (H2 i Hlt) as (t & Ht & Hn & _). by destruct Hn; apply Hz.
  - intros Hge t Ht. by apply H1.
Qed.

Lemma zero_rows_span m r y : combos m → echelon m r T → (r <= P)%nat → (∀ t, (t < T)%nat → sum P (λ p, y p * C t p) = 0) →
  ∃ d k, d ≠ 0 ∧ (∀ i, (i < r)%nat → k i = 0) ∧ ∀ p, (p < P)%nat → d * y p = sum P (λ i, k i * law_part m i p).
Proof.
  intros [Hs Ht Hi Hp] [H1 H2] Hr Hy. destruct (Hp y) as (d & k & Hd & Hk). exists d, k. split_and!; [done| |done].
  intros j Hj. destruct (H2 j Hj) as (t & Htt & Hn & Hz).
  assert (sum P (λ i, k i * zcell m i t) = 0) as E.
  { transitivity (sum P (λ i, sum P (λ p, k i * law_part m i p * C t p))).
    - apply sum_ext. intros i Hii. rewrite Ht, <- sum_scale by done. apply sum_ext. intros; lia.
    - rewrite sum_swap. transitivity (sum P (λ p, d * (y p * C t p))); [|by rewrite sum_scale, Hy; [lia|]].
      apply sum_ext. intros p Hpp. rewrite Z.mul_assoc, (Hk p Hpp), Z.mul_comm, <- sum_scale. apply sum_ext. intros; lia. }
  rewrite (sum_single P j) in E; [nia|lia|]. intros i Hii Hij. rewrite Hz by done. lia.
Qed.
End Invariant.

(** ** The matrix it starts from *)

Section Start.
Variable matrix : incidence_matrix.
Hypothesis Hrows : length (incidence matrix) = numTransitions matrix.
Local Abbreviation P := (numPlaces matrix).
Local Abbreviation T := (numTransitions matrix).

Definition column (t p : nat) : Z := entry_at (default [] (incidence matrix !! t)) p.

Lemma zaugmented_row i : (i < P)%nat → zaugmented matrix !! i = Some (((λ row, entry_at row i) <$> incidence matrix) ++ unit_row P i).
Proof.
  intros Hi. unfold zaugmented, transposedIncidence. rewrite list_lookup_imap, list_lookup_fmap, lookup_seq_lt by done. cbn.
  by rewrite take_ge by lia.
Qed.

Lemma zaugmented_combos : combos P T column (zaugmented matrix).
Proof.
  assert (∀ i x, (i < P)%nat → zcell (zaugmented matrix) i x = if (x <? T)%nat then column x i else if (x =? T + i)%nat then 1 else 0) as Hc.
  { intros i x Hi. unfold zcell. rewrite zaugmented_row by done. cbn [default from_option id]. unfold entry_at at 1.
    destruct (Nat.ltb_spec x T).
    - rewrite lookup_app_l by (rewrite length_fmap; lia). rewrite list_lookup_fmap. unfold column. destruct (lookup_lt_is_Some_2 (incidence matrix) x) as [row ->]; [lia|done].
    - rewrite lookup_app_r by (rewrite length_fmap; lia). rewrite length_fmap, Hrows. change (entry_at (unit_row P i) (x - T) = if (x =? T + i)%nat then 1 else 0).
      unfold unit_row. rewrite entry_insert by (by rewrite length_replicate). rewrite entry_zero. case_decide; destruct (Nat.eqb_spec x (T + i)); lia || done. }
  assert (∀ i p, (i < P)%nat → (p < P)%nat → law_part T (zaugmented matrix) i p = if decide (p = i) then 1 else 0) as Hl.
  { intros i p Hi Hp. unfold law_part. rewrite Hc by done. destruct (Nat.ltb_spec (T + p) T); [lia|]. destruct (Nat.eqb_spec (T + p) (T + i)); case_decide; done || lia. }
  constructor.
  - split; [unfold zaugmented, transposedIncidence; by rewrite length_imap, length_fmap, length_seq|]. intros row Hrow.
    apply list_elem_of_lookup in Hrow as [i Hi]. assert (i < P)%nat as Hlt by (apply lookup_lt_Some in Hi; unfold zaugmented, transposedIncidence in Hi; by rewrite length_imap, length_fmap, length_seq in Hi).
    rewrite zaugmented_row in Hi by done. injection Hi as <-. unfold unit_row. rewrite length_app, length_fmap, length_insert, length_replicate. lia.
  - intros i t Hi Ht. rewrite Hc by done. rewrite (proj2 (Nat.ltb_lt t T)) by done.
    rewrite (sum_ext P _ (λ p, if decide (p = i) then column t i else 0)); [by rewrite sum_indicator|]. intros p Hp. rewrite Hl by done. case_decide; subst; lia.
  - intros k Hk i Hi. rewrite <- (Hk i Hi). rewrite (sum_ext P _ (λ j, if decide (j = i) then k i else 0)); [by rewrite sum_indicator|].
    intros j Hj. rewrite Hl by done. repeat case_decide; subst; done || lia.
  - intros y. exists 1, y. split; [done|]. intros p Hp. rewrite (sum_ext P _ (λ j, if decide (j = p) then y p else 0)); [rewrite sum_indicator by done; lia|].
    intros j Hj. rewrite Hl by done. repeat case_decide; subst; done || lia.
Qed.
End Start.

(** ** On JavaScript numbers *)

Definition lift_rows (m : list (list Z)) : list (list num) := (λ row : list Z, Num <$> row) <$> m.
Definition safe_rows (m : list (list Z)) : Prop := ∀ row x, row ∈ m → x ∈ row → Z.abs x <= MAX_SAFE_INTEGER.

Lemma safe_Z_spec z : safe_Z z = true ↔ Z.abs z <= MAX_SAFE_INTEGER.
Proof. apply Z.leb_le. Qed.

Lemma of_safe z : Z.abs z <= MAX_SAFE_INTEGER → of_Z z = Num z.
Proof. intros H. apply of_Z_small. unfold MAX_SAFE_INTEGER in H. lia. Qed.

Lemma cell_lift P n m i j : shape P n m → (i < P)%nat → (j < n)%nat → cell_num (lift_rows m) i j = Num (zcell m i j).
Proof.
  intros Hs Hi Hj. destruct (shape_row P n m i Hs Hi) as (row & E & Hl). unfold cell_num, lift_rows, zcell. rewrite list_lookup_fmap, E.
  cbn. rewrite list_lookup_fmap. unfold entry_at. destruct (lookup_lt_is_Some_2 row j) as [x ->]; [lia|done].
Qed.

Lemma normalize_lift fuel row : (107 <= fuel)%nat → (∀ x, x ∈ row → Z.abs x <= MAX_SAFE_INTEGER) →
  normalizeRow fuel (Num <$> row) = Some (Num <$> znormalize row).
Proof.
  intros Hf Hr. unfold normalizeRow, znormalize.
  assert (∀ g, 0 <= g → foldl (λ g x, if nonzero x then g ← g; gcd fuel g (num_abs x) else g) (Some (Num g)) (Num <$> row)
    = Some (Num (foldl (λ g x, Z.gcd g (Z.abs x)) g row))) as Hg.
  { induction row as [|x row IH]; intros g Hg; [done|]. cbn [fmap list_fmap foldl]. cbn [nonzero].
    assert (Z.abs x < 2 ^ Z.of_nat 53) by (specialize (Hr x ltac:(left)); unfold MAX_SAFE_INTEGER in Hr; change (Z.of_nat 53) with 53; lia).
    destruct (Z.eqb_spec x 0) as [->|Hx]; cbn [negb].
    - rewrite IH by (done || intros; apply Hr; by right). by rewrite Z.gcd_0_r, (Z.abs_eq g).
    - cbn [mbind option_bind num_abs]. rewrite (gcd_finite 53) by lia. apply IH; [intros; apply Hr; by right|apply Z.gcd_nonneg]. }
  rewrite Hg by lia. cbn [mbind option_bind num_gt1]. f_equal. case_bool; [|done]. rewrite <- !list_fmap_compose. apply list_fmap_ext. done.
Qed.

Lemma combine_lift a b rx rp r : zcombine a b rx rp = Some r →
  zip_with (λ x y, num_sub (num_mul (Num a) x) (num_mul (Num b) y)) (Num <$> rx) (Num <$> rp) = Num <$> r ∧
  ∀ x, x ∈ r → Z.abs x <= MAX_SAFE_INTEGER.
Proof.
  unfold zcombine. destruct (forallb _ _) eqn:E; [|done]. intros [= <-]. revert rp E. induction rx as [|x rx IH]; intros [|y rp] E; cbn [fmap list_fmap zip_with zip];
    try (split; [done|by intros ? ?%not_elem_of_nil]).
  cbn [zip zip_with forallb fst snd] in E. apply andb_true_iff in E as [E Er]. rewrite !andb_true_iff, !safe_Z_spec in E. destruct E as [[E1 E2] E3].
  destruct (IH rp Er) as [IH1 IH2]. split.
  - f_equal; [|exact IH1]. unfold num_sub. cbn [num_mul]. rewrite !of_safe by done. cbn [num_neg num_add]. rewrite of_safe; [f_equal; lia|].
    by replace (a * x + - (b * y)) with (a * x - b * y) by lia.
  - intros z [->|Hz]%elem_of_cons; [done|by apply IH2].
Qed.

Lemma znormalize_safe row x : (∀ x, x ∈ row → Z.abs x <= MAX_SAFE_INTEGER) → x ∈ znormalize row → Z.abs x <= MAX_SAFE_INTEGER.
Proof.
  intros Hr Hx. unfold znormalize in Hx. case_bool; [|by apply Hr]. b2p. apply list_elem_of_fmap in Hx as (z & -> & Hz). specialize (Hr z Hz).
  pose proof (Z.quot_abs z (foldl (λ g x, Z.gcd g (Z.abs x)) 0 row) ltac:(lia)) as E.
  rewrite (Z.abs_eq (foldl _ 0 row)) in E by lia. rewrite <- E. pose proof (Z.quot_le_upper_bound (Z.abs z) (foldl (λ g x, Z.gcd g (Z.abs x)) 0 row) (Z.abs z) ltac:(lia)). nia.
Qed.

Section Lift.
Variables (fuel P n : nat).
Hypothesis Hfuel : (107 <= fuel)%nat.

Lemma lift_insert i row m : lift_rows (<[i := row]> m) = <[i := Num <$> row]> (lift_rows m).
Proof. unfold lift_rows. by rewrite list_fmap_insert. Qed.

Lemma lift_swap m i j : lift_rows (swap_rows m i j) = swap_rows (lift_rows m) i j.
Proof.
  unfold swap_rows. unfold lift_rows at 2 3. rewrite !list_lookup_fmap. destruct (m !! i); cbn; [|done]. destruct (m !! j); cbn; [|done].
  by rewrite !lift_insert.
Qed.

Lemma safe_insert m i row : safe_rows m → (∀ x, x ∈ row → Z.abs x <= MAX_SAFE_INTEGER) → safe_rows (<[i := row]> m).
Proof.
  intros Hm Hr row' x Hin Hx. apply list_elem_of_lookup in Hin as [k Hk]. apply list_lookup_insert_Some in Hk as [(_ & <- & _)|[_ Hk]]; [by apply Hr|].
  apply (Hm row'); [by eapply list_elem_of_lookup_2|done].
Qed.

Lemma eliminate_row_lift r c m m' i : shape P n m → safe_rows m → (r < P)%nat → (i < P)%nat → (c < n)%nat →
  zeliminate_row r c m i = Some m' → eliminate_row fuel r c (lift_rows m) i = Some (lift_rows m') ∧ shape P n m' ∧ safe_rows m'.
Proof.
  intros Hs Hm Hr Hi Hc. unfold zeliminate_row, eliminate_row. rewrite !(cell_lift P n) by done. cbn [nonzero]. rewrite negb_involutive.
  destruct (_ || _); [by intros [= <-]|]. destruct (shape_row P n m i Hs Hi) as (ri & Ei & Li), (shape_row P n m r Hs Hr) as (rr & Er & Lr).
  assert (lift_rows m !! i = Some (Num <$> ri)) as -> by (unfold lift_rows; by rewrite list_lookup_fmap, Ei).
  assert (lift_rows m !! r = Some (Num <$> rr)) as -> by (unfold lift_rows; by rewrite list_lookup_fmap, Er). rewrite Ei, Er. cbn [default from_option id].
  destruct (zcombine _ _ ri rr) as [row|] eqn:E; [|done]. cbn [mbind option_bind]. intros [= <-]. destruct (combine_lift _ _ _ _ _ E) as [-> Hsafe].
  rewrite normalize_lift by done. cbn [mbind option_bind]. apply zcombine_spec in E as [Hl _]; [|congruence].
  destruct (znormalize_spec row) as (_ & _ & Hn & _). rewrite lift_insert. split_and!; [done|apply shape_insert; [done|congruence]|].
  apply safe_insert; [done|]. intros x Hx. by eapply znormalize_safe.
Qed.

Lemma eliminate_rows_lift r c l m m' : shape P n m → safe_rows m → (r < P)%nat → (c < n)%nat → (∀ i, i ∈ l → (i < P)%nat) →
  iterate (zeliminate_row r c) m l = Some m' → iterate (eliminate_row fuel r c) (lift_rows m) l = Some (lift_rows m') ∧ shape P n m' ∧ safe_rows m'.
Proof.
  revert m. induction l as [|i l IH]; intros m Hs Hm Hr Hc Hl; cbn [iterate]; [by intros [= <-]|].
  destruct (zeliminate_row r c m i) as [m1|] eqn:E; [|done]. cbn [mbind option_bind].
  destruct (eliminate_row_lift r c m m1 i) as (-> & Hs1 & Hm1); try done; [apply Hl; left|]. cbn [mbind option_bind].
  apply IH; try done. intros; apply Hl; by right.
Qed.

Lemma safe_swap m i j : safe_rows m → safe_rows (swap_rows m i j).
Proof.
  intros Hm. unfold swap_rows. destruct (m !! i) as [x|] eqn:Ei; [|done]. destruct (m !! j) as [y|] eqn:Ej; [|done].
  apply safe_insert; [apply safe_insert; [done|]|]; intros z Hz; eapply Hm; try exact Hz; by eapply list_elem_of_lookup_2.
Qed.

Lemma find_pivot_lift m r c : shape P n m → (c < n)%nat → find_pivot (lift_rows m) P r c = zfind_pivot m P r c.
Proof.
  intros Hs Hc. unfold find_pivot, zfind_pivot, js_find. f_equal.
  assert (∀ l, (∀ i, i ∈ l → (i < P)%nat) → list_find (λ row, nonzero (cell_num (lift_rows m) row c)) l = list_find (λ row, negb (zcell m row c =? 0)) l) as H.
  { induction l as [|i l IH]; intros Hl; [done|]. cbn [list_find]. rewrite (cell_lift P n) by (done || apply Hl; left). cbn [nonzero].
    rewrite IH by (intros; apply Hl; by right). by repeat case_decide. }
  apply H. intros i Hi%elem_of_seq. lia.
Qed.

Lemma eliminate_column_lift c m r m' r' : shape P n m → safe_rows m → (c < n)%nat → zeliminate_column P (m, r) c = Some (m', r') →
  eliminate_column fuel P (lift_rows m, r) c = Some (lift_rows m', r') ∧ shape P n m' ∧ safe_rows m'.
Proof.
  intros Hs Hm Hc. unfold zeliminate_column, eliminate_column. destruct (Nat.ltb_spec r P); [|by intros [= <- <-]].
  rewrite find_pivot_lift by done. destruct (zfind_pivot m P r c) as [p|]; [|by intros [= <- <-]].
  destruct (iterate (zeliminate_row r c) _ _) as [m1|] eqn:E; [|done]. cbn [mbind option_bind]. intros [= <- <-]. rewrite <- lift_swap.
  destruct (eliminate_rows_lift r c (seq 0 P) (swap_rows m r p) m1) as (-> & ? & ?); try done.
  - by apply shape_swap.
  - by apply safe_swap.
  - intros i Hi%elem_of_seq. lia.
Qed.

Lemma eliminate_columns_lift l m r m' r' : shape P n m → safe_rows m → (∀ c, c ∈ l → (c < n)%nat) →
  iterate (zeliminate_column P) (m, r) l = Some (m', r') →
  iterate (eliminate_column fuel P) (lift_rows m, r) l = Some (lift_rows m', r') ∧ shape P n m' ∧ safe_rows m'.
Proof.
  revert m r. induction l as [|c l IH]; intros m r Hs Hm Hl; cbn [iterate]; [by intros [= <- <-]|].
  destruct (zeliminate_column P (m, r) c) as [[m1 r1]|] eqn:E; [|done]. cbn [mbind option_bind].
  destruct (eliminate_column_lift c m r m1 r1) as (-> & Hs1 & Hm1); try done; [apply Hl; left|]. cbn [mbind option_bind].
  apply IH; try done. intros; apply Hl; by right.
Qed.
End Lift.

(** ** What is extracted *)

Section Extract.
Variables (T P : nat) (places : list place) (m0 : marking_state).
Hypothesis HP : (0 < P)%nat.

Definition law_row (row : list Z) : list Z := take P (drop T row).
Definition law_sign (row : list Z) : Z := if existsb (λ x, 0 <? x) (law_row row) then 1 else -1.

Lemma existsb_lift f g (row : list Z) : (∀ z, f (Num z) = g z) → existsb f (Num <$> row) = existsb g row.
Proof. intros E. induction row as [|z row IH]; [done|]. cbn. by rewrite E, IH. Qed.

(** A row of safe integers whose law part is not zero contributes exactly when its first part is. *)
Lemma extract_spec row : length row = (T + P)%nat → (∀ x, x ∈ row → Z.abs x <= MAX_SAFE_INTEGER) → (∃ p, (p < P)%nat ∧ entry_at row (T + p) ≠ 0) →
  extract T P places m0 (Num <$> row) =
  if existsb (λ z, negb (z =? 0)) (take T row) then [] else [invariant_of P places m0 ((λ z, Num (law_sign row * z)) <$> law_row row)].
Proof.
  intros Hl Hsafe (p & Hp & Hn). unfold extract. rewrite <- fmap_take, (existsb_lift nonzero (λ z, negb (z =? 0))) by done.
  destruct (existsb _ (take T row)); [done|]. rewrite <- fmap_drop, <- fmap_take. fold (law_row row).
  assert (rowIsExact (Num <$> law_row row) = true) as ->.
  { unfold rowIsExact. apply forallb_elem. intros x Hx. apply list_elem_of_fmap in Hx as (z & -> & Hz). cbn. apply Z.leb_le, Hsafe.
    unfold law_row in Hz. apply list_elem_of_lookup in Hz as [k Hk]. apply lookup_take_Some in Hk as [Hk _]. rewrite lookup_drop in Hk. by eapply list_elem_of_lookup_2. }
  cbn [negb]. rewrite (existsb_lift is_positive (λ x, 0 <? x)), (existsb_lift is_negative (λ x, x <? 0)) by done. unfold law_sign.
  destruct (existsb (λ x, 0 <? x) (law_row row)) eqn:Ep; cbn [negb andb].
  - f_equal. f_equal. apply list_fmap_ext. intros i z _. by rewrite Z.mul_1_l.
  - assert (existsb (λ x, x <? 0) (law_row row) = true) as ->.
    { apply existsb_elem. exists (entry_at row (T + p)).
      assert (entry_at row (T + p) ∈ law_row row) as Hin.
      { unfold law_row, entry_at. destruct (lookup_lt_is_Some_2 row (T + p)) as [x Ex]; [lia|]. rewrite Ex. cbn.
        apply list_elem_of_lookup. exists p. rewrite lookup_take_lt by done. by rewrite lookup_drop. }
      split; [done|]. pose proof (existsb_false (λ x, 0 <? x) (law_row row) _ Ep Hin) as H. cbn in H. b2p. apply Z.ltb_lt. lia. }
    cbn [negb]. f_equal. f_equal. rewrite <- list_fmap_compose. apply list_fmap_ext. intros i z _. cbn. f_equal; lia.
Qed.
End Extract.

(** ** The basis *)

Lemma sum_split a b f : sum (a + b) f = sum a f + sum b (λ j, f (a + j)%nat).
Proof. induction b as [|b IH]; [rewrite Nat.add_0_r; cbn; lia|]. rewrite Nat.add_succ_r. cbn [sum]. rewrite IH. lia. Qed.

Lemma sum_tail r P f : (r <= P)%nat → (∀ i, (i < r)%nat → f i = 0) → sum P f = sum (P - r) (λ j, f (r + j)%nat).
Proof. intros Hr Hz. replace P with (r + (P - r))%nat at 1 by lia. rewrite sum_split, (sum_zero r) by done. lia. Qed.

Lemma flat_map_tail {A B} (f : A → list B) (g : A → B) l r : (∀ i x, l !! i = Some x → f x = if (i <? r)%nat then [] else [g x]) →
  flat_map f l = g <$> drop r l.
Proof.
  revert r. induction l as [|x l IH]; intros r H; [by rewrite drop_nil|]. cbn [flat_map]. rewrite (H 0%nat x) by done. destruct r as [|r]; cbn [Nat.ltb Nat.leb].
  - rewrite (IH 0%nat); [done|]. intros i y E. by apply (H (S i)).
  - cbn [app drop]. apply IH. intros i y E. by rewrite (H (S i)).
Qed.

(** The weight of the [j]-th invariant on place [p]. *)
Definition basis_weight (invs : list p_invariant) (j p : nat) : Z := from_option (λ inv, weight_of inv p) 0 (invs !! j).

Section Basis.
Variables (matrix : incidence_matrix) (fn : flat_net) (m0 : marking_state) (mz : list (list Z)) (fuel : nat).
Hypothesis Hrows : length (incidence matrix) = numTransitions matrix.
Hypothesis Helim : exact_elimination matrix = Some mz.
Hypothesis Hfuel : (107 <= fuel)%nat.
Hypothesis HT : (0 < numTransitions matrix)%nat.
Local Abbreviation P := (numPlaces matrix).
Local Abbreviation T := (numTransitions matrix).

Lemma elimination_spec : ∃ r, combos P T (column matrix) mz ∧ echelon P mz r T ∧ (r <= P)%nat ∧ safe_rows mz ∧
  iterate (eliminate_column fuel P) (augmented matrix, 0%nat) (seq 0 T) = Some (lift_rows mz, r).
Proof.
  unfold exact_elimination in Helim. destruct (forallb (forallb safe_Z) _) eqn:Hsafe; [|done].
  destruct (iterate (zeliminate_column P) (zaugmented matrix, 0%nat) (seq 0 T)) as [[m r]|] eqn:Ez; [|done]. cbn [mbind option_bind fst] in Helim.
  injection Helim as ->. pose proof (zaugmented_combos matrix Hrows) as H0. exists r.
  destruct (columns_steps P T (column matrix) T (zaugmented matrix) 0 ltac:(lia) mz r) as (H1 & H2 & H3); try done; [lia|by split; [intros i t; lia|lia]|].
  assert (safe_rows (zaugmented matrix)) as Hs0.
  { intros row x Hrow Hx. apply elem_of_lookup_imap in Hrow as (i & row' & -> & Hi). apply elem_of_app in Hx as [Hx|Hx].
    - apply list_elem_of_lookup_2 in Hi. rewrite forallb_elem in Hsafe. specialize (Hsafe row' Hi). rewrite forallb_elem in Hsafe. apply safe_Z_spec. by apply Hsafe.
    - unfold unit_row in Hx. apply list_elem_of_lookup in Hx as [k Hk]. apply list_lookup_insert_Some in Hk as [(_ & <- & _)|[_ Hk]]; [done|].
      by apply lookup_replicate in Hk as [-> _]. }
  destruct (eliminate_columns_lift fuel P (T + P) Hfuel (seq 0 T) (zaugmented matrix) 0 mz r) as (H4 & _ & H5); try done; [apply H0|intros c Hc%elem_of_seq; lia|].
  split_and!; [done|done|done|done|]. rewrite <- H4. f_equal. f_equal. unfold augmented, zaugmented, lift_rows.
  apply list_eq. intros i. rewrite list_lookup_fmap, !list_lookup_imap. destruct (transposedIncidence matrix !! i) as [row|] eqn:Ei; [|done]. cbn. f_equal.
  rewrite fmap_app. f_equal.
  - apply list_fmap_ext. intros k x Hx. apply of_safe, safe_Z_spec. rewrite forallb_elem in Hsafe. specialize (Hsafe row (list_elem_of_lookup_2 _ _ _ Ei)).
    rewrite forallb_elem in Hsafe. apply Hsafe. by eapply list_elem_of_lookup_2.
  - unfold unit_row. rewrite list_fmap_insert. f_equal. by rewrite fmap_replicate.
Qed.

Definition basis_row (row : list Z) : p_invariant := invariant_of P (flatPlaces fn) m0 ((λ z, Num (law_sign T P row * z)) <$> law_row T P row).

Lemma computed_basis : ∃ r, combos P T (column matrix) mz ∧ echelon P mz r T ∧ (r <= P)%nat ∧
  computePInvariants fuel matrix fn m0 = Some (basis_row <$> drop r mz).
Proof.
  destruct elimination_spec as (r & Hc & He & Hr & Hsafe & Ei). exists r. split_and!; [done|done|done|]. unfold computePInvariants. cbn zeta.
  destruct (Nat.eqb_spec P 0) as [HP|HP]; cbn [orb].
  { destruct (cb_shape _ _ _ _ Hc) as [Hl _]. rewrite HP in Hl. apply nil_length_inv in Hl as ->. by rewrite drop_nil. }
  destruct (Nat.eqb_spec T 0); [lia|]. rewrite Ei. cbn [mbind option_bind fst]. f_equal.
  assert (∀ (l : list (list Z)), flat_map (extract T P (flatPlaces fn) m0) (lift_rows l) = flat_map (λ row, extract T P (flatPlaces fn) m0 (Num <$> row)) l) as ->
    by (induction l as [|row l IH]; [done|]; cbn; by rewrite <- IH).
  apply flat_map_tail. intros i row Hi. pose proof (lookup_lt_Some _ _ _ Hi) as Hlt. destruct (cb_shape _ _ _ _ Hc) as [Hl Hn]. rewrite Hl in Hlt.
  assert (length row = (T + P)%nat) as Lr by (apply Hn; by eapply list_elem_of_lookup_2).
  assert (∀ x, zcell mz i x = entry_at row x) as Hcell by (intros; unfold zcell; by rewrite Hi).
  rewrite extract_spec; [|lia|done|intros x Hx; by apply (Hsafe row); [eapply list_elem_of_lookup_2|]|].
  - assert (existsb (λ z, negb (z =? 0)) (take T row) = (i <? r)%nat) as ->; [|done]. apply eq_true_iff_eq. rewrite Nat.ltb_lt. pose proof (zero_rows P T mz r He Hr i Hlt) as Hz.
    rewrite existsb_elem. split.
    + intros (z & Hz1 & Hz2). apply list_elem_of_lookup in Hz1 as [t Ht]. apply lookup_take_Some in Ht as [Ht Htt]. destruct (Nat.lt_ge_cases i r); [done|].
      exfalso. pose proof (proj2 Hz H t Htt) as Hall. rewrite Hcell in Hall. unfold entry_at in Hall. rewrite Ht in Hall. cbn in Hall. subst z. done.
    + intros Hlt'. destruct He as [_ He]. destruct (He i Hlt') as (t & Ht & Hnz & _). exists (zcell mz i t). split; [|by destruct (Z.eqb_spec (zcell mz i t) 0)].
      rewrite Hcell. unfold entry_at. destruct (lookup_lt_is_Some_2 row t) as [x Ex]; [lia|]. rewrite Ex. cbn. apply list_elem_of_lookup. exists t. by rewrite lookup_take_lt.
  - destruct (decide (Exists (λ p, entry_at row (T + p) ≠ 0) (seq 0 P))) as [H|Hno].
    { apply Exists_exists in H as (p & Hp%elem_of_seq & Hne). exists p. split; [lia|done]. }
    exfalso. assert (∀ p, (p < P)%nat → sum P (λ j, (if decide (j = i) then 1 else 0) * law_part T mz j p) = 0) as H.
    { intros p Hp. rewrite (sum_ext P _ (λ j, if decide (j = i) then law_part T mz i p else 0)) by (intros j _; case_decide; subst; lia).
      rewrite sum_indicator by done. unfold law_part. rewrite Hcell. destruct (decide (entry_at row (T + p) = 0)) as [E|E]; [done|].
      destruct Hno. apply Exists_exists. exists p. rewrite elem_of_seq. split; [lia|done]. }
    pose proof (cb_independent _ _ _ _ Hc _ H i Hlt) as E. cbn beta in E. by rewrite decide_True in E.
Qed.

(** The sign with which row [i] is extracted. *)
Definition row_sign (i : nat) : Z := law_sign T P (default [] (mz !! i)).

Lemma row_sign_square i : row_sign i * row_sign i = 1.
Proof. unfold row_sign, law_sign. by case_match. Qed.

Lemma basis_row_weight r j p : shape P (T + P) mz → (p < P)%nat → (r + j < P)%nat →
  basis_weight (basis_row <$> drop r mz) j p = row_sign (r + j) * law_part T mz (r + j) p ∧
  ∃ inv, (basis_row <$> drop r mz) !! j = Some inv ∧ weights inv !! p = Some (Num (weight_of inv p)).
Proof using Type.
  clear Helim Hfuel HT Hrows fuel.
  intros Hs Hp Hj. destruct (shape_row P _ mz (r + j) Hs Hj) as (row & Er & Hl).
  assert ((basis_row <$> drop r mz) !! j = Some (basis_row row)) as E by (rewrite list_lookup_fmap, lookup_drop; by rewrite Er).
  assert (weights (basis_row row) !! p = Some (Num (law_sign T P row * entry_at row (T + p)))) as Ew.
  { unfold basis_row, invariant_of. destruct (law _ _ _ _) as [c sp]. cbn [weights]. rewrite list_lookup_fmap. unfold law_row. rewrite lookup_take_lt, lookup_drop by done.
    unfold entry_at. destruct (lookup_lt_is_Some_2 row (T + p)) as [x ->]; [lia|done]. }
  assert (weight_of (basis_row row) p = law_sign T P row * entry_at row (T + p)) as Ewt by (unfold weight_of, nth_num; by rewrite Ew).
  unfold basis_weight. rewrite E. cbn [from_option]. rewrite Ewt. unfold row_sign, law_part, zcell. rewrite Er. split; [done|].
  exists (basis_row row). split; [done|]. by rewrite Ewt.
Qed.
End Basis.

(** ** Properties *)

(** C40: the elimination computes a basis of the conservation laws. When no product or difference
    of the elimination leaves the safe integers, [computePInvariants] ends, its weights are exact,
    each invariant is annihilated by every column of the incidence matrix, the invariants are
    linearly independent, and every integer weighting the columns annihilate is, up to a factor, a
    combination of them: no law of the net is missing from their span. *)
Theorem computePInvariants_basis fn m0 mz fuel : exact_elimination (im_from fn) = Some mz → (107 <= fuel)%nat →
  (0 < numTransitions (im_from fn))%nat →
  ∃ invs, computePInvariants fuel (im_from fn) fn m0 = Some invs ∧
    (∀ inv p, inv ∈ invs → (p < length (flatPlaces fn))%nat → weights inv !! p = Some (Num (weight_of inv p))) ∧
    (∀ inv t, inv ∈ invs → (t < numTransitions (im_from fn))%nat → sum (length (flatPlaces fn)) (λ p, weight_of inv p * column (im_from fn) t p) = 0) ∧
    (∀ k, (∀ p, (p < length (flatPlaces fn))%nat → sum (length invs) (λ j, k j * basis_weight invs j p) = 0) → ∀ j, (j < length invs)%nat → k j = 0) ∧
    ∀ y, (∀ t, (t < numTransitions (im_from fn))%nat → sum (length (flatPlaces fn)) (λ p, y p * column (im_from fn) t p) = 0) →
      ∃ d k, d ≠ 0 ∧ ∀ p, (p < length (flatPlaces fn))%nat → d * y p = sum (length invs) (λ j, k j * basis_weight invs j p).
Proof.
  intros Hz Hf HT. assert (length (incidence (im_from fn)) = numTransitions (im_from fn)) as Hrows by (cbn; by rewrite length_app, !length_fmap).
  destruct (computed_basis (im_from fn) fn m0 mz fuel Hrows Hz Hf HT) as (r & Hc & He & Hr & E). eexists. split; [exact E|]. clear E.
  change (numPlaces (im_from fn)) with (length (flatPlaces fn)) in *. set (P := length (flatPlaces fn)) in *. set (T := numTransitions (im_from fn)) in *.
  pose proof (cb_shape _ _ _ _ Hc) as Hs. set (invs := basis_row (im_from fn) fn m0 <$> drop r mz).
  set (σ := λ j, row_sign (im_from fn) mz (r + j)).
  assert (length invs = (P - r)%nat) as Hlen by (unfold invs; rewrite length_fmap, length_drop; by destruct Hs as [-> _]).
  assert (∀ j p, (j < length invs)%nat → (p < P)%nat → basis_weight invs j p = σ j * law_part T mz (r + j) p ∧
    ∃ inv, invs !! j = Some inv ∧ weights inv !! p = Some (Num (weight_of inv p))) as Hw by (intros j p Hj Hp; apply (basis_row_weight (im_from fn) fn m0 mz r j p Hs Hp); change (r + j < P)%nat; lia).
  assert (∀ j, σ j * σ j = 1) as Hσ by (intros; apply row_sign_square).
  assert (∀ (k : nat → Z) p, (p < P)%nat → (∀ i, (i < r)%nat → k i = 0) →
    sum P (λ i, k i * law_part T mz i p) = sum (length invs) (λ j, k (r + j)%nat * σ j * basis_weight invs j p)) as Hsum.
  { intros k p Hp Hk. rewrite Hlen, (sum_tail r) by (done || (intros i Hi; rewrite Hk by done; lia)). apply sum_ext. intros j Hj.
    destruct (Hw j p) as [-> _]; [rewrite Hlen; exact Hj|done|].
    transitivity (k (r + j)%nat * (σ j * σ j) * law_part T mz (r + j) p); [rewrite Hσ|]; ring. }
  split_and!.
  - intros inv p [j Hj]%list_elem_of_lookup Hp. destruct (Hw j p) as [_ (inv' & Hj' & Hx)]; [by eapply lookup_lt_Some|done|]. rewrite Hj in Hj'. by injection Hj' as <-.
  - intros inv t [j Hj]%list_elem_of_lookup Ht. pose proof (lookup_lt_Some _ _ _ Hj) as Hlt.
    assert (∀ p, weight_of inv p = basis_weight invs j p) as Eb by (intros; unfold basis_weight; by rewrite Hj).
    transitivity (σ j * sum P (λ p, law_part T mz (r + j) p * column (im_from fn) t p)).
    + rewrite <- sum_scale. apply sum_ext. intros p Hp. rewrite Eb. destruct (Hw j p) as [-> _]; [done..|]. lia.
    + rewrite <- (cb_trace _ _ _ _ Hc) by lia. destruct He as [He _]. rewrite He by (fold T; lia). lia.
  - intros k Hk j Hj. set (k' := λ i, if (i <? r)%nat then 0 else k (i - r)%nat * σ (i - r)%nat).
    assert (k' (r + j)%nat = 0) as E.
    { apply (cb_independent _ _ _ _ Hc); [|lia]. intros p Hp. fold P T. rewrite Hsum; [|done|by intros i Hi; unfold k'; destruct (Nat.ltb_spec i r); [|lia]].
      rewrite <- (Hk p Hp). apply sum_ext. intros i Hi. unfold k'. destruct (Nat.ltb_spec (r + i) r); [lia|]. replace (r + i - r)%nat with i by lia.
      rewrite <- (Z.mul_1_r (k i)) at 2. rewrite <- (Hσ i). lia. }
    unfold k' in E. destruct (Nat.ltb_spec (r + j) r); [lia|]. replace (r + j - r)%nat with j in E by lia. specialize (Hσ j). nia.
  - intros y Hy. destruct (zero_rows_span P T _ mz r y Hc He Hr Hy) as (d & k & Hd & Hk & E). exists d, (λ j, k (r + j)%nat * σ j).
    split; [done|]. intros p Hp. rewrite (E p Hp). by apply Hsum.
Qed.

Lemma computePInvariants_basis_witness : ∃ fn mz invs, flatten ring_net [] Ignore (λ _, false) = Ok fn ∧
  exact_elimination (im_from fn) = Some mz ∧ computePInvariants 107 (im_from fn) fn one_a = Some invs ∧ length invs = 1%nat ∧
  ∃ d k, d ≠ 0 ∧ ∀ p, (p < 2)%nat → d * 1 = sum 1 (λ j, k j * basis_weight invs j p).
Proof.
  destruct (flatten ring_net [] Ignore (λ _, false)) as [fn|] eqn:Ef; [|discriminate].
  assert (∃ mz, exact_elimination (im_from fn) = Some mz) as [mz Ez] by (vm_compute in Ef; injection Ef as <-; eexists; vm_compute; reflexivity).
  assert (numTransitions (im_from fn) = 2%nat) as HT by (vm_compute in Ef; injection Ef as <-; reflexivity).
  destruct (computePInvariants_basis fn one_a mz 107 Ez ltac:(lia) ltac:(rewrite HT; lia)) as (invs & E & _ & _ & _ & H).
  assert (length invs = 1%nat) as El by (vm_compute in Ef; injection Ef as <-; vm_compute in E; injection E as <-; reflexivity).
  exists fn, mz, invs. split; [reflexivity|]. split; [exact Ez|]. split; [exact E|]. split; [exact El|].
  rewrite El in H. destruct (H (λ _, 1)) as (d & k & Hd & Hk).
  - intros t Ht. rewrite HT in Ht. vm_compute in Ef; injection Ef as <-. destruct t as [|[|t]]; [reflexivity|reflexivity|exfalso; lia].
  - exists d, k. split; [exact Hd|]. assert (length (flatPlaces fn) = 2%nat) as Hn by (vm_compute in Ef; injection Ef as <-; reflexivity).
    rewrite Hn in Hk. exact Hk.
Defined.
