(* ===== verification/NameMarking.v ===== *)
(** * The name layer of a marking

    [src/typescript/src/verification/analysis/name-marking.ts]: per coloured place, how many tokens
    carry each name symbol. A symbol is an opaque number; a [Map] is its entries in insertion
    order. The key of a layer is exact: equal keys are layers equal up to a permutation of symbols. *)
From S2P Require Import Prelude.
From S2P Require Import CodePoints.
From S2P Require Import MarkingState.
From S2P Require Import ClassKeys.
#[local] Open Scope Z_scope.

(** ** The data and its operations *)

Abbreviation name_marking := (list (jsstr * list (Z * Z))).

Definition nm_copy (m : name_marking) : name_marking := m.

Definition nm_add (place : jsstr) (sym count : Z) (m : name_marking) : name_marking :=
  if count =? 0 then m
  else let syms := default [] (map_get place m) in map_set place (map_set sym (default 0 (map_get sym syms) + count) syms) m.

(** The answer, and the marking afterwards. *)
Definition nm_remove (place : jsstr) (sym count : Z) (m : name_marking) : bool * name_marking :=
  match map_get place m with
  | None => (false, m)
  | Some syms =>
      match map_get sym syms with
      | None => (false, m)
      | Some have =>
          if have <? count then (false, m)
          else if have - count =? 0 then
            let syms := map_delete sym syms in
            (true, if bool_decide (syms = []) then map_delete place m else map_set place syms m)
          else (true, map_set place (map_set sym (have - count) syms) m)
      end
  end.

Definition countOf (place : jsstr) (sym : Z) (m : name_marking) : Z :=
  default 0 (map_get place m ≫= map_get sym).
Definition symbolsIn (place : jsstr) (m : name_marking) : list Z := from_option (λ syms : list (Z * Z), syms.*1) [] (map_get place m).

(** The symbols seen against the first one: [None] at the first other symbol. *)
Fixpoint same_symbol (first : option Z) (syms : list Z) : option (option Z) :=
  match syms with
  | [] => Some first
  | s :: syms => match first with
                 | None => same_symbol (Some s) syms
                 | Some f => if s =? f then same_symbol first syms else None
                 end
  end.
Fixpoint aligned_from (first : option Z) (places : list jsstr) (m : name_marking) : bool :=
  match places with
  | [] => true
  | p :: places => match same_symbol first (symbolsIn p m) with
                   | None => false
                   | Some first => aligned_from first places m
                   end
  end.
Definition aligned (places : list jsstr) (m : name_marking) : bool := aligned_from None places m.

Definition liveSymbols (m : name_marking) : list Z := set_of (y ← m; y.2.*1).

Fixpoint compareNumberArrays (a b : list Z) : Z :=
  match a, b with
  | x :: a, y :: b => if x =? y then compareNumberArrays a b else x - y
  | _, _ => Z.of_nat (length a) - Z.of_nat (length b)
  end.

(** The symbols ranked by their counts over the coloured places, then by symbol. *)
Definition signature (colouredOrder : list jsstr) (m : name_marking) (s : Z) : list Z := (λ p, countOf p s m) <$> colouredOrder.
Definition ranked (colouredOrder : list jsstr) (m : name_marking) : list (list Z * Z) :=
  stable_sort (λ a b, (let c := compareNumberArrays a.1 b.1 in if negb (c =? 0) then c else a.2 - b.2) <=? 0)
    ((λ s, (signature colouredOrder m s, s)) <$> liveSymbols m).
Definition rank_of (rs : list (list Z * Z)) (s : Z) : Z := from_option Z.of_nat (-1) (find_index (λ y, y =? s) rs.*2).

Definition canonicalKey (colouredOrder : list jsstr) (m : name_marking) : jsstr :=
  let rs := ranked colouredOrder m in
  join (js "#") ((λ p,
    let entries := stable_sort (λ a b : Z * Z, (if negb (a.1 =? b.1) then a.1 - b.1 else a.2 - b.2) <=? 0)
                     ((λ y : Z * Z, (rank_of rs y.1, y.2)) <$> default [] (map_get p m)) in
    p ++ js ":{" ++ join (js ",") ((λ y, number_string y.1 ++ js "x" ++ number_string y.2) <$> entries) ++ js "}") <$> colouredOrder).

(** ** Alignment *)

(** The predicate compares every symbol of the places with every other. *)
Lemma aligned_spec places m : aligned places m = true ↔
  ∀ p q s t, p ∈ places → q ∈ places → s ∈ symbolsIn p m → t ∈ symbolsIn q m → s = t.
Proof.
  assert (∀ syms first, match same_symbol first syms with
    | None => ∃ s t, s ∈ option_list first ++ syms ∧ t ∈ option_list first ++ syms ∧ s ≠ t
    | Some f => (∀ s, s ∈ option_list first ++ syms → f = Some s) ∧ (f = None ∨ ∃ s, f = Some s ∧ s ∈ option_list first ++ syms) end) as Hs.
  { induction syms as [|s syms IH]; intros first; cbn [same_symbol].
    - rewrite app_nil_r. destruct first as [f|]; cbn [option_list]; [|split; [by intros ? ?%not_elem_of_nil|by left]].
      split; [by intros ? ->%list_elem_of_singleton|]. right. exists f. split; [done|left].
    - destruct first as [f|].
      + destruct (Z.eqb_spec s f) as [->|Hne]; [|exists s, f; cbn; set_solver].
        specialize (IH (Some f)). destruct (same_symbol (Some f) syms) as [f'|]; cbn [option_list app] in *.
        * destruct IH as [H1 H2]. split; [intros x Hx; apply H1; set_solver|]. destruct H2 as [?|(x & ? & ?)]; [by left|right; exists x; set_solver].
        * destruct IH as (x & y & ? & ? & ?). exists x, y. set_solver.
      + specialize (IH (Some s)). cbn [option_list app] in *. exact IH. }
  assert (∀ places first, aligned_from first places m = true ↔
    ∀ s t, (s ∈ option_list first ∨ ∃ p, p ∈ places ∧ s ∈ symbolsIn p m) → (t ∈ option_list first ∨ ∃ p, p ∈ places ∧ t ∈ symbolsIn p m) → s = t) as H.
  { clear places. induction places as [|p places IH]; intros first; cbn [aligned_from].
    - split; [|done]. intros _ s t [Hs'|(? & ?%not_elem_of_nil & _)] [Ht|(? & ?%not_elem_of_nil & _)]; try done.
      destruct first; cbn in *; [|by apply not_elem_of_nil in Hs']. apply list_elem_of_singleton in Hs', Ht. congruence.
    - specialize (Hs (symbolsIn p m) first). destruct (same_symbol first (symbolsIn p m)) as [f|].
      + destruct Hs as [H1 H2]. rewrite IH. split; intros H s t.
        * intros Ha Hb. apply H.
          -- destruct Ha as [Ha|(q & [->|Hq]%elem_of_cons & Ha)]; [left; rewrite (H1 s) by set_solver; left|left; rewrite (H1 s) by set_solver; left|right; by exists q].
          -- destruct Hb as [Hb|(q & [->|Hq]%elem_of_cons & Hb)]; [left; rewrite (H1 t) by set_solver; left|left; rewrite (H1 t) by set_solver; left|right; by exists q].
        * assert (∀ x, x ∈ option_list f → x ∈ option_list first ∨ ∃ q, q ∈ p :: places ∧ x ∈ symbolsIn q m) as Hf.
          { intros x Hx. destruct H2 as [->|(y & -> & Hy)]; [by apply not_elem_of_nil in Hx|]. apply list_elem_of_singleton in Hx as ->.
            apply elem_of_app in Hy as [?|?]; [by left|right; exists p; split; [left|done]]. }
          intros Ha Hb. apply H.
          -- destruct Ha as [Ha|(q & Hq & Ha)]; [by apply Hf|right; exists q; split; [by right|done]].
          -- destruct Hb as [Hb|(q & Hq & Hb)]; [by apply Hf|right; exists q; split; [by right|done]].
      + split; [done|]. intros H. destruct Hs as (s & t & Hs & Ht & Hne). destruct Hne. apply H.
        * apply elem_of_app in Hs as [?|?]; [by left|right; exists p; split; [left|done]].
        * apply elem_of_app in Ht as [?|?]; [by left|right; exists p; split; [left|done]]. }
  unfold aligned. rewrite H. split.
  - intros Ha p q s t Hp Hq Hs1 Ht. apply Ha; right; [by exists p|by exists q].
  - intros Ha s t [?%not_elem_of_nil|(p & Hp & Hs1)] [?%not_elem_of_nil|(q & Hq & Ht)]; try done. by apply (Ha p q).
Qed.

(** ** Layers as functions *)

(** How many tokens of each place carry each symbol. *)
Abbreviation layer := (jsstr → Z → Z).
Definition layer_of (m : name_marking) : layer := λ p s, countOf p s m.

Definition bijective (σ : Z → Z) : Prop := ∃ τ, (∀ s, τ (σ s) = s) ∧ ∀ s, σ (τ s) = s.

(** The layers differ by a permutation of the symbols. *)
Definition renames (σ : Z → Z) (N N' : layer) : Prop := bijective σ ∧ ∀ p s, N' p (σ s) = N p s.
Definition renamed (N N' : layer) : Prop := ∃ σ, renames σ N N'.

Record nm_wf (m : name_marking) : Prop := {
  nw_places : NoDup m.*1;
  nw_entries : ∀ p syms, (p, syms) ∈ m → syms ≠ [] ∧ NoDup syms.*1 ∧ ∀ s c, (s, c) ∈ syms → 0 < c
}.

(** Every name lies on one of the places. *)
Definition nm_within (places : list jsstr) (m : name_marking) : Prop := ∀ p s, countOf p s m ≠ 0 → p ∈ places.

Lemma nm_wf_nil : nm_wf [].
Proof. constructor; [constructor|by intros ?? ?%not_elem_of_nil]. Qed.

Lemma countOf_get p s m : countOf p s m = default 0 (map_get s (default [] (map_get p m))).
Proof. unfold countOf. by destruct (map_get p m). Qed.

Lemma wf_get p syms m : nm_wf m → map_get p m = Some syms → syms ≠ [] ∧ NoDup syms.*1 ∧ ∀ s c, (s, c) ∈ syms → 0 < c.
Proof. intros W E%map_get_elem. by apply (nw_entries m W p). Qed.

Lemma countOf_nonneg p s m : nm_wf m → 0 <= countOf p s m.
Proof.
  intros W. unfold countOf. destruct (map_get p m) as [syms|] eqn:E; [|done]. cbn [mbind option_bind].
  destruct (map_get s syms) eqn:Es; [|done]. apply map_get_elem in Es. apply (wf_get p syms m W E) in Es. simpl. lia.
Qed.

Lemma elem_symbolsIn p s m : nm_wf m → s ∈ symbolsIn p m ↔ countOf p s m ≠ 0.
Proof.
  intros W. unfold symbolsIn, countOf. destruct (map_get p m) as [syms|] eqn:E; cbn [from_option mbind option_bind]; [|set_solver].
  destruct (wf_get p syms m W E) as (_ & _ & Hc). split.
  - intros Hs. destruct (map_get s syms) as [c|] eqn:Es; [|by apply map_get_None in Es]. apply map_get_elem, Hc in Es. simpl. lia.
  - intros H. destruct (map_get s syms) eqn:Es; [|done]. apply map_get_elem in Es. by apply (list_elem_of_fmap_2 fst) in Es.
Qed.

Lemma NoDup_symbolsIn p m : nm_wf m → NoDup (symbolsIn p m).
Proof. intros W. unfold symbolsIn. destruct (map_get p m) eqn:E; [by apply (wf_get _ _ _ W) in E as (_ & ? & _)|constructor]. Qed.

Lemma elem_liveSymbols s m : nm_wf m → s ∈ liveSymbols m ↔ ∃ p, countOf p s m ≠ 0.
Proof.
  intros W. unfold liveSymbols. rewrite elem_of_set_of, list_elem_of_bind. split.
  - intros ([p syms] & Hs & Hin). exists p. apply elem_symbolsIn; [done|]. unfold symbolsIn. by rewrite (elem_map_get p syms m (nw_places m W) Hin).
  - intros [p Hp%elem_symbolsIn]; [|done]. unfold symbolsIn in Hp. destruct (map_get p m) as [syms|] eqn:E; [|by apply not_elem_of_nil in Hp].
    exists (p, syms). split; [done|by apply map_get_elem].
Qed.

(** ** What the operations do to the counts *)

Lemma nm_add_count p s c m p' s' : countOf p' s' (nm_add p s c m) = countOf p' s' m + (if decide (p' = p ∧ s' = s) then c else 0).
Proof.
  unfold nm_add. destruct (Z.eqb_spec c 0) as [->|Hc]; [case_decide; lia|]. rewrite !countOf_get, map_get_set.
  destruct (decide (p' = p)) as [->|Hp]; [|rewrite decide_False by tauto; lia]. cbn [default from_option id]. rewrite map_get_set.
  destruct (decide (s' = s)) as [->|Hs]; [rewrite decide_True by done; cbn; lia|rewrite decide_False by tauto; lia].
Qed.

Lemma nm_add_wf p s c m : nm_wf m → 0 <= c → nm_wf (nm_add p s c m).
Proof.
  intros W Hc. unfold nm_add. destruct (Z.eqb_spec c 0); [done|]. constructor; [by apply NoDup_map_set, W|].
  intros p' syms [[-> ->]|Hin]%map_set_entries; [|by apply (nw_entries m W p')].
  assert (NoDup (default [] (map_get p m)).*1 ∧ ∀ s c, (s, c) ∈ default [] (map_get p m) → 0 < c) as [Hd Hpos].
  { destruct (map_get p m) eqn:E; [by apply (wf_get p _ m W) in E as (_ & ? & ?)|]. split; [constructor|by intros ?? ?%not_elem_of_nil]. }
  split_and!.
  - by destruct (default [] (map_get p m)) as [|[s0 c0] l]; cbn [map_set]; [|case_decide].
  - by apply NoDup_map_set.
  - intros s' c' [[-> ->]|Hin]%map_set_entries; [|by eapply Hpos]. destruct (map_get s (default [] (map_get p m))) eqn:E; cbn [default from_option id]; [|lia].
    apply map_get_elem, Hpos in E. lia.
Qed.

Lemma nm_remove_spec p s c m : nm_wf m → 0 <= c <= countOf p s m →
  nm_wf (nm_remove p s c m).2 ∧ ∀ p' s', countOf p' s' (nm_remove p s c m).2 = countOf p' s' m - (if decide (p' = p ∧ s' = s) then c else 0).
Proof.
  intros W Hc. unfold nm_remove. destruct (map_get p m) as [syms|] eqn:E; cbn [snd].
  2:{ split; [done|]. intros p' s'. rewrite countOf_get, E in Hc. cbn in Hc. case_decide; lia. }
  destruct (wf_get p syms m W E) as (Hne & Hd & Hpos). rewrite countOf_get, E in Hc. cbn [default from_option id] in Hc.
  destruct (map_get s syms) as [have|] eqn:Es; cbn [snd].
  2:{ split; [done|]. intros p' s'. cbn in Hc. case_decide; lia. }
  cbn in Hc. rewrite (proj2 (Z.ltb_ge _ _)) by lia. destruct (Z.eqb_spec (have - c) 0) as [Ez|Ez]; cbn [snd].
  - assert (∀ p' s', default 0 (map_get s' (default [] (map_get p' (if bool_decide (map_delete s syms = []) then map_delete p m else map_set p (map_delete s syms) m)))) =
        countOf p' s' m - (if decide (p' = p ∧ s' = s) then c else 0)) as Hcnt.
    { intros p' s'. rewrite countOf_get. destruct (decide (p' = p)) as [->|Hp].
      - rewrite E. cbn [default from_option id]. assert (default 0 (map_get s' (map_delete s syms)) = default 0 (map_get s' syms) - (if decide (p = p ∧ s' = s) then c else 0)) as <-.
        { rewrite map_get_delete. destruct (decide (s' = s)) as [->|]; [rewrite Es, decide_True by done; cbn; lia|rewrite decide_False by tauto; lia]. }
        case_bool_decide as Ed; [by rewrite map_get_delete, decide_True, Ed|by rewrite map_get_set, decide_True].
      - rewrite (decide_False (P := p' = p ∧ s' = s)) by tauto. rewrite Z.sub_0_r. case_bool_decide; [by rewrite map_get_delete, decide_False|by rewrite map_get_set, decide_False]. }
    split; [|intros p' s'; rewrite countOf_get; apply Hcnt]. case_bool_decide as Ed.
    + constructor; [by apply NoDup_map_delete, W|]. intros p' syms' [_ Hin]%list_elem_of_filter. by apply (nw_entries m W p').
    + constructor; [by apply NoDup_map_set, W|]. intros p' syms' [[-> ->]|Hin]%map_set_entries; [|by apply (nw_entries m W p')].
      split_and!; [done|by apply NoDup_map_delete|]. intros s' c' [_ Hin]%list_elem_of_filter. by apply (Hpos s').
  - split.
    + constructor; [by apply NoDup_map_set, W|]. intros p' syms' [[-> ->]|Hin]%map_set_entries; [|by apply (nw_entries m W p')]. split_and!.
      * by destruct syms as [|[s0 c0] l]; cbn [map_set]; [|case_decide].
      * by apply NoDup_map_set.
      * intros s' c' [[-> ->]|Hin]%map_set_entries; [lia|by apply (Hpos s')].
    + intros p' s'. rewrite !countOf_get, map_get_set. destruct (decide (p' = p)) as [->|Hp]; [|rewrite decide_False by tauto; lia]. rewrite E.
      cbn [default from_option id]. rewrite map_get_set. destruct (decide (s' = s)) as [->|]; [rewrite Es, decide_True by done; cbn; lia|rewrite decide_False by tauto; lia].
Qed.

(** ** Permutations of the symbols *)

Definition swap_names (a b x : Z) : Z := if decide (x = a) then b else if decide (x = b) then a else x.

Lemma swap_swap a b x : swap_names a b (swap_names a b x) = x.
Proof. unfold swap_names. repeat case_decide; congruence. Qed.

Lemma swap_bijective a b : bijective (swap_names a b).
Proof. exists (swap_names a b). split; intros; apply swap_swap. Qed.

Lemma compose_bijective σ τ : bijective σ → bijective τ → bijective (τ ∘ σ).
Proof. intros (σ' & A1 & A2) (τ' & B1 & B2). exists (σ' ∘ τ'). unfold compose. split; intros; congruence. Qed.

Lemma id_bijective : bijective id.
Proof. by exists id. Qed.

Lemma bijective_inj σ x y : bijective σ → σ x = σ y → x = y.
Proof. intros (τ & H & _) E. by rewrite <- (H x), E, H. Qed.

#[export] Instance renamed_equivalence : Equivalence renamed.
Proof.
  split.
  - intros N. exists id. split; [apply id_bijective|done].
  - intros N N' (σ & (τ & H1 & H2) & H). exists τ. split; [by exists σ|]. intros p s. by rewrite <- H, H2.
  - intros N1 N2 N3 (σ & B & H) (τ & B' & H'). exists (τ ∘ σ). split; [by apply compose_bijective|]. intros p s. unfold compose. by rewrite H', H.
Qed.

(** Finitely many pairs of symbols extend to a permutation. *)
Lemma extend_bijection (l : list (Z * Z)) : NoDup l.*1 → NoDup l.*2 → ∃ σ, bijective σ ∧ ∀ x y, (x, y) ∈ l → σ x = y.
Proof.
  induction l as [|[a b] l IH]; intros H1 H2; [exists id; split; [apply id_bijective|by intros ?? ?%not_elem_of_nil]|].
  rewrite fmap_cons in H1. rewrite fmap_cons in H2. apply NoDup_cons in H1 as [N1 H1], H2 as [N2 H2]. destruct (IH H1 H2) as (σ & B & Hσ).
  exists (swap_names (σ a) b ∘ σ). split; [by apply compose_bijective; [|apply swap_bijective]|]. unfold compose.
  intros x y [[= -> ->]|Hin]%elem_of_cons; [unfold swap_names; by rewrite decide_True|]. rewrite (Hσ x y Hin). unfold swap_names.
  destruct (decide (y = σ a)) as [Ey|_].
  - destruct N1. rewrite <- (Hσ x y Hin) in Ey. apply (bijective_inj σ) in Ey as <-; [|done]. by apply (list_elem_of_fmap_2 fst) in Hin.
  - destruct (decide (y = b)) as [->|_]; [|done]. destruct N2. by apply (list_elem_of_fmap_2 snd) in Hin.
Qed.

(** ** The canonical key *)

Lemma compareNumberArrays_lex a b : Z.sgn (compareNumberArrays a b) = lex_sgn a b.
Proof.
  revert b. induction a as [|x a IH]; intros [|y b]; cbn [compareNumberArrays lex_sgn length]; try lia. destruct (Z.eqb_spec x y); [apply IH|done].
Qed.

Lemma find_index_lookup (l : list Z) s k : NoDup l → find_index (λ y, y =? s) l = Some k ↔ l !! k = Some s.
Proof.
  revert k. induction l as [|x l IH]; intros k Hd; [done|]. apply NoDup_cons in Hd as [Hn Hd]. cbn [find_index].
  destruct (Z.eqb_spec x s) as [->|Hx].
  - split; [by intros [= <-]|]. destruct k as [|k]; [done|]. intros E. destruct Hn. by eapply list_elem_of_lookup_2.
  - destruct k as [|k]; [split; [by destruct (find_index _ l)|by intros [= ->]]|]. cbn [lookup list_lookup]. rewrite <- IH by done.
    destruct (find_index _ l); cbn; split; congruence.
Qed.

Lemma omap_sorted {A B} (R : A → A → Prop) (R' : B → B → Prop) (f : A → option B) (l : list A) : StronglySorted R l →
  (∀ x y u v, R x y → f x = Some u → f y = Some v → R' u v) → StronglySorted R' (omap f l).
Proof.
  intros Hs Hf. induction Hs as [|x l _ IH Hx]; [constructor|]. cbn [omap list_omap]. destruct (f x) as [u|] eqn:E; [|done]. constructor; [done|].
  rewrite Forall_forall in Hx. apply Forall_forall. intros v (y & Hy & Ev)%list_elem_of_omap. apply (Hf x y); auto.
Qed.

Lemma seq_sorted (i n : nat) : StronglySorted lt (seq i n).
Proof. revert i. induction n as [|n IH]; intros i; cbn [seq]; constructor; [done|]. apply Forall_forall. intros k [? _]%elem_of_seq. lia. Qed.

(** The counts of the symbols of a place, by rank. *)
Definition column (rows : list (list Z)) (q : nat) : list (Z * Z) :=
  omap (λ k, row ← rows !! k; c ← (row : list Z) !! q; if decide (c = 0) then None else Some (Z.of_nat k, c)) (seq 0 (length rows)).
Definition rank_entry (y : Z * Z) : jsstr := number_string y.1 ++ js "x" ++ number_string y.2.
Definition render (order : list jsstr) (rows : list (list Z)) : jsstr :=
  join (js "#") (imap (λ q p, p ++ js ":{" ++ join (js ",") (rank_entry <$> column rows q) ++ js "}") order).

Definition pair_le (a b : Z * Z) : bool := (if negb (a.1 =? b.1) then a.1 - b.1 else a.2 - b.2) <=? 0.
Definition row_le (a b : list Z * Z) : bool := (let c := compareNumberArrays a.1 b.1 in if negb (c =? 0) then c else a.2 - b.2) <=? 0.

Lemma pair_le_spec a b : pair_le a b = true ↔ a.1 < b.1 ∨ a.1 = b.1 ∧ a.2 <= b.2.
Proof. unfold pair_le. rewrite Z.leb_le. destruct (Z.eqb_spec a.1 b.1); cbn [negb]; lia. Qed.

#[export] Instance pair_le_antisym : AntiSymm (=) (λ a b : Z * Z, pair_le a b = true).
Proof. intros [a c] [b d]. rewrite !pair_le_spec. cbn. intros H1 H2. f_equal; lia. Qed.
#[export] Instance pair_le_transitive : Transitive (λ a b : Z * Z, pair_le a b = true).
Proof. intros x y z. rewrite !pair_le_spec. lia. Qed.
#[export] Instance lex_antisym : AntiSymm (=) (λ a b, lex_sgn a b <= 0).
Proof. intros a b. rewrite (lex_sgn_antisym a b). intros. apply lex_sgn_eq. lia. Qed.
#[export] Instance lex_transitive : Transitive (λ a b, lex_sgn a b <= 0).
Proof. intros a b c. apply lex_sgn_trans. Qed.

Lemma row_le_spec a b : row_le a b = true ↔ lex_sgn a.1 b.1 < 0 ∨ a.1 = b.1 ∧ a.2 <= b.2.
Proof.
  unfold row_le. cbn zeta. pose proof (compareNumberArrays_lex a.1 b.1) as H. rewrite Z.leb_le.
  destruct (Z.eqb_spec (compareNumberArrays a.1 b.1) 0) as [E|E]; cbn [negb].
  - rewrite E in H. symmetry in H. cbn in H. apply lex_sgn_eq in H. rewrite H, lex_sgn_refl. split; [intros ?; right; split; [done|lia]|intros [?|[_ ?]]; lia].
  - split; [intros; left; lia|]. intros [?|[Ea _]]; [lia|]. assert (lex_sgn a.1 b.1 = 0) by (by rewrite Ea, lex_sgn_refl). lia.
Qed.

Lemma column_elem rows q r c : (r, c) ∈ column rows q ↔ ∃ k row, r = Z.of_nat k ∧ rows !! k = Some row ∧ row !! q = Some c ∧ c ≠ 0.
Proof.
  unfold column. rewrite list_elem_of_omap. split.
  - intros (k & _ & E). destruct (rows !! k) as [row|] eqn:Er; [|done]. cbn [mbind option_bind] in E. destruct (row !! q) as [c'|] eqn:Ec; [|done].
    cbn [mbind option_bind] in E. case_decide; [done|]. injection E as <- <-. by exists k, row.
  - intros (k & row & -> & Er & Ec & Hc). exists k. split; [apply elem_of_seq; split; [lia|by apply lookup_lt_Some in Er]|].
    rewrite Er. cbn [mbind option_bind]. rewrite Ec. cbn [mbind option_bind]. by rewrite decide_False.
Qed.

Lemma column_sorted rows q : StronglySorted (λ a b : Z * Z, a.1 < b.1) (column rows q).
Proof.
  apply (omap_sorted lt); [apply seq_sorted|]. intros k k' u v Hk E E'. destruct (rows !! k) as [row|]; [|done]. destruct (rows !! k') as [row'|]; [|done].
  cbn [mbind option_bind] in *. destruct (row !! q); [|done]. destruct (row' !! q); [|done]. cbn [mbind option_bind] in *. repeat case_decide; simplify_eq/=. lia.
Qed.

Section Key.
Variables (order : list jsstr) (m : name_marking).
Hypothesis Hm : nm_wf m.
Abbreviation rs := (ranked order m).
Definition rows : list (list Z) := rs.*1.

Lemma ranked_Permutation : rs ≡ₚ (λ s, (signature order m s, s)) <$> liveSymbols m.
Proof. apply stable_sort_Permutation. Qed.

Lemma ranked_symbols : rs.*2 ≡ₚ liveSymbols m.
Proof. rewrite ranked_Permutation, <- list_fmap_compose. unfold compose. cbn. by rewrite list_fmap_id. Qed.

Lemma NoDup_ranked : NoDup rs.*2.
Proof. rewrite ranked_symbols. apply NoDup_set_of. Qed.

Lemma ranked_lookup k row s : rs !! k = Some (row, s) → row = signature order m s ∧ s ∈ liveSymbols m.
Proof. intros E%list_elem_of_lookup_2. rewrite ranked_Permutation in E. apply list_elem_of_fmap in E as (s' & [= -> ->] & ?). done. Qed.

Lemma rank_of_lookup s : s ∈ liveSymbols m → ∃ k, rank_of rs s = Z.of_nat k ∧ rs !! k = Some (signature order m s, s).
Proof.
  intros Hs. rewrite <- ranked_symbols in Hs. apply list_elem_of_lookup in Hs as [k E]. exists k. unfold rank_of.
  rewrite (proj2 (find_index_lookup rs.*2 s k NoDup_ranked) E). split; [done|]. rewrite list_lookup_fmap in E. destruct (rs !! k) as [[row s']|] eqn:Er; [|done].
  injection E as ->. by destruct (ranked_lookup k row s Er) as [-> _].
Qed.

Lemma rows_lookup k row : rows !! k = Some row ↔ ∃ s, rs !! k = Some (row, s).
Proof.
  unfold rows. rewrite list_lookup_fmap. destruct (rs !! k) as [[r s]|]; cbn; [|split; [done|by intros [? ?]]].
  split; [intros [= ->]; by exists s|by intros [? [= -> ->]]].
Qed.

Lemma column_of_rows q p : order !! q = Some p →
  stable_sort pair_le ((λ y : Z * Z, (rank_of rs y.1, y.2)) <$> default [] (map_get p m)) = column rows q.
Proof.
  intros Ep. set (es := (λ y : Z * Z, (rank_of rs y.1, y.2)) <$> default [] (map_get p m)).
  assert (∀ s c, (s, c) ∈ default [] (map_get p m) ↔ countOf p s m = c ∧ c ≠ 0) as Hin.
  { intros s c. rewrite countOf_get. destruct (map_get p m) as [syms|] eqn:E; cbn [default from_option id]; [|split; [by intros ?%not_elem_of_nil|cbn; lia]].
    destruct (wf_get p syms m Hm E) as (_ & Hd & Hpos). split.
    - intros H. rewrite (elem_map_get s c syms Hd H). apply Hpos in H. cbn. lia.
    - destruct (map_get s syms) as [c'|] eqn:Es; cbn; [intros [<- _]; by apply map_get_elem|lia]. }
  assert (∀ s, countOf p s m ≠ 0 → s ∈ liveSymbols m) as Hlive by (intros s Hs; apply elem_liveSymbols; [done|by exists p]).
  apply (StronglySorted_unique (λ a b : Z * Z, pair_le a b = true)).
  - assert (StronglySorted (in_order pair_le (λ _ _, True)) (stable_sort pair_le es)) as Hs.
    { apply stable_sort_sorted; [intros x y; rewrite !pair_le_spec; lia|intros x y z; rewrite !pair_le_spec; lia|].
      induction es; constructor; [done|by apply Forall_true]. }
    eapply StronglySorted_weaken; [|exact Hs]. by intros x y _ _ [? _].
  - eapply StronglySorted_weaken; [|apply column_sorted]. cbn. intros x y _ _ ?. apply pair_le_spec. lia.
  - rewrite stable_sort_Permutation. apply NoDup_Permutation.
    + unfold es. apply NoDup_fmap_1 with fst. rewrite <- list_fmap_compose. change (fst ∘ (λ y : Z * Z, (rank_of rs y.1, y.2))) with (rank_of rs ∘ (fst : Z * Z → Z)).
      rewrite list_fmap_compose. assert (NoDup (default [] (map_get p m)).*1) as Hd by (destruct (map_get p m) eqn:E; [by apply (wf_get _ _ _ Hm) in E as (_ & ? & _)|constructor]).
      assert (∀ s, s ∈ (default [] (map_get p m)).*1 → s ∈ liveSymbols m) as Hl.
      { intros s ([s' c] & -> & [H1 H2]%Hin)%list_elem_of_fmap. apply Hlive. cbn. congruence. }
      clear -Hd Hl Hm. induction (default [] (map_get p m)).*1 as [|s l IH]; [constructor|]. apply NoDup_cons in Hd as [Hn Hd]. rewrite fmap_cons. constructor.
      * intros (s' & E & Hs')%list_elem_of_fmap. destruct (rank_of_lookup s) as (k & E1 & E2); [apply Hl; left|].
        destruct (rank_of_lookup s') as (k' & E1' & E2'); [apply Hl; by right|]. assert (k = k') as <- by lia. rewrite E2 in E2'. injection E2' as _ ->. done.
      * apply IH; [done|]. intros; apply Hl; by right.
    + pose proof (column_sorted rows q) as Hs. induction Hs as [|x l _ IH Hx]; constructor; [|done]. rewrite Forall_forall in Hx. intros Hin'%Hx. lia.
    + intros [r c]. rewrite column_elem. unfold es. rewrite list_elem_of_fmap. split.
      * intros ([s c'] & [= -> ->] & [Ec Hc]%Hin). destruct (rank_of_lookup s) as (k & Ek & Er); [apply Hlive; congruence|]. exists k, (signature order m s).
        split_and!; [done|apply rows_lookup; by exists s| |done]. unfold signature. rewrite list_lookup_fmap, Ep. cbn. by rewrite Ec.
      * intros (k & row & -> & [s Es]%rows_lookup & Ec & Hc). destruct (ranked_lookup k row s Es) as [-> Hs]. unfold signature in Ec. rewrite list_lookup_fmap, Ep in Ec.
        injection Ec as Ec. exists (s, c). split; [|by apply Hin]. cbn [fst snd]. f_equal. destruct (rank_of_lookup s Hs) as (k' & -> & Ek'). f_equal.
        apply (NoDup_lookup rs.*2 _ _ s NoDup_ranked); by rewrite list_lookup_fmap, ?Es, ?Ek'.
Qed.

Lemma canonicalKey_render : canonicalKey order m = render order rows.
Proof.
  unfold canonicalKey, render. cbn zeta. f_equal. apply list_eq. intros q. rewrite list_lookup_fmap, list_lookup_imap. destruct (order !! q) as [p|] eqn:Ep; [|done].
  cbn [fmap option_fmap option_map]. f_equal. f_equal. f_equal. f_equal. change (λ a b : Z * Z, (if negb (a.1 =? b.1) then a.1 - b.1 else a.2 - b.2) <=? 0) with pair_le.
  by rewrite (column_of_rows q p Ep).
Qed.

Lemma rows_sorted : StronglySorted (λ a b, lex_sgn a b <= 0) rows.
Proof.
  apply StronglySorted_fmap_key. assert (StronglySorted (in_order row_le (λ _ _, True)) rs) as Hs.
  { assert (∀ a b : list Z, lex_sgn a b < 0 ∨ a = b ∨ lex_sgn b a < 0) as Htri.
    { intros a b. rewrite (lex_sgn_antisym a b). destruct (decide (lex_sgn a b = 0)) as [?%lex_sgn_eq|]; [by right; left|lia]. }
    change rs with (stable_sort row_le ((λ s, (signature order m s, s)) <$> liveSymbols m)). apply stable_sort_sorted.
    - intros x y. rewrite !row_le_spec. destruct (Htri x.1 y.1) as [?|[?|?]]; [by left; left| |by right; left].
      destruct (Z.le_ge_cases x.2 y.2); [left|right]; by right.
    - intros x y z. rewrite !row_le_spec. intros [H1|[E1 H1]] [H2|[E2 H2]].
      + left. assert (lex_sgn x.1 z.1 <= 0) by (apply (lex_sgn_trans _ y.1); lia). destruct (decide (lex_sgn x.1 z.1 = 0)) as [E%lex_sgn_eq|]; [|lia].
        rewrite E, (lex_sgn_antisym y.1 z.1) in H1. lia.
      + left. by rewrite <- E2.
      + left. by rewrite E1.
      + right. split; [congruence|lia].
    - induction (_ <$> liveSymbols m); constructor; [done|by apply Forall_true]. }
  eapply StronglySorted_weaken; [|exact Hs]. intros x y _ _ [H _]. apply row_le_spec in H as [H|[-> _]]; [lia|by rewrite lex_sgn_refl].
Qed.
End Key.

(** ** The key determines the layer up to a permutation *)

Definition part (y : jsstr * list (Z * Z)) : jsstr := y.1 ++ js ":{" ++ join (js ",") (rank_entry <$> y.2) ++ js "}".

Lemma join_no_unit (u : Z) (sep : jsstr) (l : list jsstr) : u ∉ sep → (∀ x, x ∈ l → u ∉ (x : jsstr)) → u ∉ join sep l.
Proof.
  intros Hs. induction l as [|x l IH]; intros Hl; [apply not_elem_of_nil|]. destruct l as [|y l]; [apply Hl; left|].
  rewrite join_cons, !not_elem_of_app. split_and!; [apply Hl; left|done|apply IH; intros; apply Hl; by right].
Qed.

Definition entry_ok (y : Z * Z) : Prop := 0 <= y.1 ∧ 0 <= y.2.

Lemma rank_entry_no_unit (u : Z) y : entry_ok y → ¬ digit u → u ≠ 120 → u ∉ rank_entry y.
Proof.
  intros [H1 H2] Hu Hx. unfold rank_entry. change (js "x") with [120]. rewrite !not_elem_of_app, list_elem_of_singleton.
  split_and!; [by apply not_digit|done|by apply not_digit].
Qed.

Lemma rank_entry_inj y y' : entry_ok y → entry_ok y' → rank_entry y = rank_entry y' → y = y'.
Proof.
  destruct y as [a b], y' as [a' b']. intros [H1 H2] [H1' H2']. unfold rank_entry. change (js "x") with [120]. cbn [fst snd app] in *. intros E.
  apply split_first in E as [->%number_string_inj ->%number_string_inj]; [done| |]; apply not_digit; try done; unfold digit; lia.
Qed.

Lemma entries_inj (l l' : list (Z * Z)) : Forall entry_ok l → Forall entry_ok l' → join (js ",") (rank_entry <$> l) = join (js ",") (rank_entry <$> l') → l = l'.
Proof.
  rewrite !Forall_forall. intros Hl Hl' E. assert (∀ l, Forall entry_ok l → l ≠ [] → join (js ",") (rank_entry <$> l) ≠ []) as Hne.
  { clear. intros [|y l] _ Hn; [done|]. rewrite fmap_cons. destruct (rank_entry <$> l); cbn [join]; unfold rank_entry; by destruct (number_string y.1). }
  destruct (decide (l = [])) as [->|Hn], (decide (l' = [])) as [->|Hn']; [done| | |].
  - symmetry in E. by destruct (Hne l'); [apply Forall_forall| |].
  - by destruct (Hne l); [apply Forall_forall| |].
  - apply (join_unit_inj 44) in E.
    + apply (fmap_inj_eq rank_entry); [|done]. intros x y Hx Hy. apply rank_entry_inj; auto.
    + intros x (y & -> & Hy)%list_elem_of_fmap. apply rank_entry_no_unit; [auto|unfold digit; lia|lia].
    + intros x (y & -> & Hy)%list_elem_of_fmap. apply rank_entry_no_unit; [auto|unfold digit; lia|lia].
    + by intros ?%fmap_nil_inv.
    + by intros ?%fmap_nil_inv.
Qed.

Lemma parts_inj (ps ps' : list (jsstr * list (Z * Z))) : ps.*1 = ps'.*1 → (∀ y, y ∈ ps → Forall entry_ok y.2) → (∀ y, y ∈ ps' → Forall entry_ok y.2) →
  join (js "#") (part <$> ps) = join (js "#") (part <$> ps') → ps = ps'.
Proof.
  assert (∀ l, Forall entry_ok l → (125 : Z) ∉ join (js ",") (rank_entry <$> l)) as Hno.
  { intros l Hl. rewrite Forall_forall in Hl. apply join_no_unit; [by intros [?|?%not_elem_of_nil]%elem_of_cons|].
    intros x (y & -> & Hy)%list_elem_of_fmap. apply rank_entry_no_unit; [auto|unfold digit; lia|lia]. }
  assert (∀ p l l' r r', Forall entry_ok l → Forall entry_ok l' → part (p, l) ++ r = part (p, l') ++ r' → l = l' ∧ r = r') as Hone.
  { intros p l l' r r' Hl Hl' E. unfold part in E. change (js "}") with [125] in E. cbn [fst snd] in E. rewrite <- !app_assoc in E. apply app_inv_head, app_inv_head in E.
    cbn [app] in E. apply split_first in E as [E1 E2]; [|by apply Hno..]. split; [by apply entries_inj|done]. }
  revert ps'. induction ps as [|[p l] ps IH]; intros [|[p' l'] ps'] Ef Ho Ho' E; try done. rewrite !fmap_cons in Ef. injection Ef as Ep Ef. cbn [fst] in Ep. subst p'.
  pose proof (Ho (p, l) ltac:(left)) as Hl. pose proof (Ho' (p, l') ltac:(left)) as Hl'. cbn [snd] in Hl, Hl'.
  assert (∀ y, y ∈ ps → Forall entry_ok y.2) as Hr by (intros; apply Ho; by right). assert (∀ y, y ∈ ps' → Forall entry_ok y.2) as Hr' by (intros; apply Ho'; by right).
  rewrite !fmap_cons in E. destruct ps as [|y ps], ps' as [|y' ps']; try done.
  - cbn [fmap list_fmap join] in E. rewrite <- (app_nil_r (part (p, l))), <- (app_nil_r (part (p, l'))) in E. by apply Hone in E as [-> _].
  - rewrite !fmap_cons, !join_cons in E. apply Hone in E as [-> E]; [|done..]. f_equal. apply (app_inv_head (js "#")) in E. by apply IH.
Qed.

Definition row_ok (n : nat) (row : list Z) : Prop := length row = n ∧ Forall (λ c, 0 <= c) row ∧ ∃ q c, row !! q = Some c ∧ c ≠ 0.

Lemma columns_inj (n : nat) (rows rows' : list (list Z)) : Forall (row_ok n) rows → Forall (row_ok n) rows' →
  (∀ q, (q < n)%nat → column rows q = column rows' q) → rows = rows'.
Proof.
  rewrite !Forall_forall. intros H H' E.
  assert (∀ R R', (∀ x, x ∈ R → row_ok n x) → (∀ q, (q < n)%nat → column R q = column R' q) →
    ∀ k row q c, R !! k = Some row → row !! q = Some c → c ≠ 0 → ∃ row', R' !! k = Some row' ∧ row' !! q = Some c) as Hstep.
  { clear. intros R R' HR E k row q c Ek Ec Hc. assert (q < n)%nat as Hq.
    { apply list_elem_of_lookup_2, HR in Ek as [<- _]. by apply lookup_lt_Some in Ec. }
    assert ((Z.of_nat k, c) ∈ column R q) as Hin by (apply column_elem; by exists k, row). rewrite (E q Hq) in Hin.
    apply column_elem in Hin as (k' & row' & Ek' & Er & Ec' & _). apply Nat2Z.inj in Ek' as <-. by exists row'. }
  assert (∀ R R', (∀ x, x ∈ R → row_ok n x) → (∀ x, x ∈ R' → row_ok n x) → (∀ q, (q < n)%nat → column R q = column R' q) →
    ∀ k row, R !! k = Some row → R' !! k = Some row) as Hall.
  { clear -Hstep. intros R R' HR HR' E k row Ek. destruct (HR row) as (L & _ & (q0 & c0 & E0 & Hc0)); [by eapply list_elem_of_lookup_2|].
    destruct (Hstep R R' HR E k row q0 c0 Ek E0 Hc0) as (row' & Ek' & _). rewrite Ek'. f_equal. symmetry.
    destruct (HR' row') as (L' & _ & _); [by eapply list_elem_of_lookup_2|]. apply list_eq_same_length with n; [done|done|]. intros q c c' Hq Ec Ec'.
    destruct (decide (c = 0)) as [->|Hc].
    - destruct (decide (c' = 0)) as [->|Hc']; [done|]. destruct (Hstep R' R HR' (λ q Hq, eq_sym (E q Hq)) k row' q c' Ek' Ec' Hc') as (row2 & ? & ?). congruence.
    - destruct (Hstep R R' HR E k row q c Ek Ec Hc) as (row2 & ? & ?). congruence. }
  apply list_eq. intros k. destruct (rows !! k) as [row|] eqn:Ek.
  - symmetry. by apply (Hall rows rows').
  - destruct (rows' !! k) as [row'|] eqn:Ek'; [|done]. apply (Hall rows' rows) in Ek'; [congruence|done|done|]. intros q Hq. symmetry. by apply E.
Qed.

Lemma column_entries n rows q : Forall (row_ok n) rows → Forall entry_ok (column rows q).
Proof.
  rewrite !Forall_forall. intros H [r c] (k & row & -> & Ek & Ec & _)%column_elem. split; cbn; [lia|].
  apply list_elem_of_lookup_2, H in Ek as (_ & Hn & _). rewrite Forall_forall in Hn. by apply list_elem_of_lookup_2, Hn in Ec.
Qed.

Lemma render_inj order (rows rows' : list (list Z)) : Forall (row_ok (length order)) rows → Forall (row_ok (length order)) rows' →
  render order rows = render order rows' → rows = rows'.
Proof.
  intros H H' E. apply (columns_inj (length order)); [done|done|]. intros q Hq.
  assert (∀ R, render order R = join (js "#") (part <$> imap (λ q p, (p, column R q)) order)) as Hr.
  { intros R. unfold render. f_equal. apply list_eq. intros i. rewrite list_lookup_fmap, !list_lookup_imap. by destruct (order !! i). }
  assert (∀ R, Forall (row_ok (length order)) R → ∀ y, y ∈ imap (λ q p, (p, column R q)) order → Forall entry_ok y.2) as Ho.
  { intros R HR y. rewrite list_elem_of_lookup. setoid_rewrite list_lookup_imap. intros [i Ei]. destruct (order !! i); [|done]. injection Ei as <-. by eapply column_entries. }
  rewrite !Hr in E. apply parts_inj in E; [|apply list_eq; intros i; rewrite !list_lookup_fmap, !list_lookup_imap; by destruct (order !! i)|by apply Ho|by apply Ho].
  apply (f_equal (.!! q)) in E. rewrite !list_lookup_imap in E. destruct (lookup_lt_is_Some_2 order q Hq) as [p Ep]. rewrite Ep in E. by injection E.
Qed.

Section Same.
Variable order : list jsstr.
Implicit Types m : name_marking.

Lemma rows_ok m : nm_wf m → nm_within order m → Forall (row_ok (length order)) (rows order m).
Proof.
  intros W Hin. apply Forall_forall. intros row (k & [s Es]%rows_lookup)%list_elem_of_lookup. destruct (ranked_lookup order m k row s Es) as [-> Hs].
  split_and!; [apply length_fmap| |].
  - apply Forall_forall. intros c (p & -> & _)%list_elem_of_fmap. by apply countOf_nonneg.
  - apply elem_liveSymbols in Hs as [p Hp]; [|done]. pose proof (Hin p s Hp) as [q Eq]%list_elem_of_lookup. exists q, (countOf p s m). split; [|done].
    unfold signature. by rewrite list_lookup_fmap, Eq.
Qed.

(** The symbol of each rank, against the symbol of the same rank. *)
Lemma same_rows_renamed m m' : nm_wf m → nm_wf m' → nm_within order m → nm_within order m' → rows order m = rows order m' → renamed (layer_of m) (layer_of m').
Proof.
  intros W W' Hin Hin' E. set (rs := ranked order m). set (rs' := ranked order m').
  assert (length rs = length rs') as El by (rewrite <- (length_fmap fst rs), <- (length_fmap fst rs'); exact (f_equal length E)).
  destruct (extend_bijection (zip rs.*2 rs'.*2)) as (σ & B & Hσ).
  { rewrite fst_zip by (rewrite !length_fmap; lia). apply NoDup_ranked. } { rewrite snd_zip by (rewrite !length_fmap; lia). apply NoDup_ranked. }
  assert (∀ k s, rs !! k = Some (signature order m s, s) → rs' !! k = Some (signature order m' (σ s), σ s) ∧ signature order m' (σ s) = signature order m s) as Hk.
  { intros k s Ek. destruct (lookup_lt_is_Some_2 rs' k) as [[row' s'] Ek']; [rewrite <- El; by apply lookup_lt_Some in Ek|].
    destruct (ranked_lookup order m' k row' s' Ek') as [-> _]. assert (σ s = s') as ->.
    { apply Hσ. apply list_elem_of_lookup. exists k. apply lookup_zip_Some. by rewrite !list_lookup_fmap, Ek, Ek'. }
    split; [done|]. apply (f_equal (.!! k)) in E. unfold rows in E. rewrite !list_lookup_fmap in E. fold rs rs' in E. rewrite Ek, Ek' in E. by injection E. }
  assert (∀ p s, p ∈ order → s ∈ liveSymbols m → countOf p (σ s) m' = countOf p s m) as Hlive.
  { intros p s [q Eq]%list_elem_of_lookup Hs. destruct (rank_of_lookup order m s Hs) as (k & _ & Ek). apply Hk in Ek as [_ Es].
    apply (f_equal (.!! q)) in Es. unfold signature in Es. rewrite !list_lookup_fmap, Eq in Es. by injection Es. }
  exists σ. split; [done|]. intros p s. unfold layer_of. destruct (decide (s ∈ liveSymbols m)) as [Hs|Hs].
  - destruct (decide (p ∈ order)) as [Hp|Hp]; [by apply Hlive|].
    destruct (decide (countOf p s m = 0)) as [->|]; [|by destruct Hp; apply (Hin p s)]. destruct (decide (countOf p (σ s) m' = 0)); [done|]. by destruct Hp; apply (Hin' p (σ s)).
  - assert (countOf p s m = 0) as -> by (destruct (decide (countOf p s m = 0)); [done|]; destruct Hs; apply elem_liveSymbols; [done|by exists p]).
    destruct (decide (countOf p (σ s) m' = 0)) as [|Hp]; [done|]. assert (σ s ∈ liveSymbols m') as (k & _ & Ek)%(rank_of_lookup order) by (apply elem_liveSymbols; [done|by exists p]).
    fold rs' in Ek. destruct (lookup_lt_is_Some_2 rs k) as [[row s0] Ek0]; [rewrite El; by apply lookup_lt_Some in Ek|].
    destruct (ranked_lookup order m k row s0 Ek0) as [-> Hs0]. apply Hk in Ek0 as [Ek0 _]. assert (σ s0 = σ s) as ->%bijective_inj by congruence; done.
Qed.

Lemma renamed_same_rows m m' : nm_wf m → nm_wf m' → renamed (layer_of m) (layer_of m') → rows order m = rows order m'.
Proof.
  intros W W' (σ & B & H). unfold layer_of in H.
  assert (∀ m, rows order m ≡ₚ signature order m <$> liveSymbols m) as Hp.
  { intros x. unfold rows. rewrite ranked_Permutation, <- list_fmap_compose. done. }
  apply (StronglySorted_unique (λ a b, lex_sgn a b <= 0)); [apply rows_sorted|apply rows_sorted|].
  rewrite !Hp. assert (liveSymbols m' ≡ₚ σ <$> liveSymbols m) as ->.
  { destruct B as (τ & T1 & T2). apply NoDup_Permutation; [apply NoDup_set_of| |].
    - apply NoDup_fmap_2; [|apply NoDup_set_of]. intros x y E. by rewrite <- (T1 x), E, T1.
    - intros s. rewrite list_elem_of_fmap, elem_liveSymbols by done. split.
      + intros [p Hps]. exists (τ s). split; [done|]. apply elem_liveSymbols; [done|]. exists p. by rewrite <- H, T2.
      + intros (s0 & -> & [p Hs]%elem_liveSymbols); [|done]. exists p. by rewrite H. }
  rewrite <- list_fmap_compose. apply Permutation_refl'. apply list_fmap_ext. intros _ s _. unfold signature, compose. apply list_fmap_ext. intros _ p _. by rewrite H.
Qed.
End Same.

(** C25: Two name layers over the coloured places have the same canonical key exactly when a
    permutation of the symbols turns one into the other. *)
Theorem canonicalKey_exact (order : list jsstr) (m m' : name_marking) : nm_wf m → nm_wf m' → nm_within order m → nm_within order m' →
  canonicalKey order m = canonicalKey order m' ↔ renamed (layer_of m) (layer_of m').
Proof.
  intros W W' Hin Hin'. rewrite !canonicalKey_render by done. split.
  - intros E. apply (same_rows_renamed order); try done. by apply (render_inj order); [apply rows_ok..|].
  - intros E. by rewrite (renamed_same_rows order m m' W W' E).
Qed.

(** ** Concrete layers *)

Lemma nm_add_within order p s c m : p ∈ order → nm_within order m → nm_within order (nm_add p s c m).
Proof. intros Hp Hm q x. rewrite nm_add_count. case_decide as H; [by destruct H as [-> ->]|]. rewrite Z.add_0_r. apply Hm. Qed.

(** Two tokens on two places, named [x] and [y]. *)
Definition two_names (x y : Z) : name_marking := nm_add (js "b") y 1 (nm_add (js "a") x 1 []).
Definition two_order : list jsstr := [js "a"; js "b"].

Lemma two_names_ok x y : nm_wf (two_names x y) ∧ nm_within two_order (two_names x y).
Proof.
  split; [by repeat apply nm_add_wf; [apply nm_wf_nil|..]|]. apply nm_add_within; [by right; left|]. apply nm_add_within; [left|].
  intros p s. by unfold countOf.
Qed.

(** Two different names are like any two different names, and unlike one name on both places. *)
Lemma canonicalKey_exact_witness :
  (canonicalKey two_order (two_names 5 9) = canonicalKey two_order (two_names 9 2) ∧
   renamed (layer_of (two_names 5 9)) (layer_of (two_names 9 2))) ∧
  canonicalKey two_order (two_names 5 9) ≠ canonicalKey two_order (two_names 4 4) ∧
  ¬ renamed (layer_of (two_names 5 9)) (layer_of (two_names 4 4)).
Proof.
  pose proof (two_names_ok 5 9) as [W1 H1]. pose proof (two_names_ok 9 2) as [W2 H2]. pose proof (two_names_ok 4 4) as [W3 H3].
  assert (canonicalKey two_order (two_names 5 9) = canonicalKey two_order (two_names 9 2)) as E by (vm_compute; reflexivity).
  assert (canonicalKey two_order (two_names 5 9) ≠ canonicalKey two_order (two_names 4 4)) as N by (vm_compute; discriminate).
  split; [split; [exact E|]|split; [exact N|]].
  - apply (canonicalKey_exact two_order (two_names 5 9) (two_names 9 2) W1 W2 H1 H2). exact E.
  - intros R. apply N. apply (canonicalKey_exact two_order (two_names 5 9) (two_names 4 4) W1 W3 H1 H3). exact R.
Defined.
