(* ===== verification/SmtProperty.v ===== *)
(** * Properties, and what violates them

    [src/typescript/src/verification/]: [smt-property.ts], [rest-set.ts], [count-clause.ts],
    [name-alignment.ts], [graph-decision.ts]. The bound of a count is a [jnum], the other numbers
    are integers. A [Set] of places is a list of distinct places; a thrown error is its text, or a
    constructor where the text renders the arguments of a factory. *)
From S2P Require Import Prelude.
From S2P Require Import CodePoints.
From S2P Require Import Net.
From S2P Require Import MarkingState.
From S2P Require Import NameMarking.
From S2P Require Import FlatNet.
#[local] Open Scope Z_scope.

(** ** Properties *)

Inductive smt_property :=
| DeadlockFree
| TerminatesAtSink
| MutualExclusion (p1 p2 : place)
| PlaceBound (p : place) (bound : Z)
| Unreachable (places : list place)
| BranchPlaceBound (p : place) (bound : Z)
| JoinedOrDeadLettered (pending : place)
| QuiescentCount (places : list place) (min : Z) (max : jnum) (waivedBy : list place)
| NameAligned (places : list place)
| QuiescentNameAligned (places : list place).

Inductive property_error :=
| CountBounds (min : Z) (max : jnum)
| NoPlaces (factory : string)
| RouteBOnly (message : jsstr).

Definition quiescentCount (places : list place) (min : Z) (max : jnum) (waivedBy : list place) : result property_error smt_property :=
  do* throw_if ((min <? 0) || jnum_ltb max (Fin min)) (CountBounds min max);
  Ok (QuiescentCount places min max waivedBy).

(** Each name once, at its first occurrence. *)
Definition distinct_names (places : list place) : list place :=
  (foldl (λ y p, if decide (place_name p ∈ y.1) then y else (set_add (place_name p) y.1, y.2 ++ [p])) ([], []) places).2.
Definition alignmentPlaces (factory : string) (places : list place) : result property_error (list place) :=
  do* throw_if (bool_decide (length places = 0)%nat) (NoPlaces factory); Ok (distinct_names places).
Definition nameAligned (places : list place) : result property_error smt_property :=
  let* ps := alignmentPlaces "nameAligned" places in Ok (NameAligned ps).
Definition quiescentNameAligned (places : list place) : result property_error smt_property :=
  let* ps := alignmentPlaces "quiescentNameAligned" places in Ok (QuiescentNameAligned ps).

(** ** Descriptions *)

Definition jnum_string (x : jnum) : jsstr := match x with Fin z => number_string z | Infinity => js "Infinity" end.
Abbreviation comma_names ps := (join (js ", ") (place_name <$> ps)).

Definition placeList (places : list place) : jsstr :=
  let names := place_name <$> places in
  let last := default [] (last names) in
  match removelast names with [] => last | names => join (js ", ") names ++ js " and " ++ last end.

Definition countPhrase (min : Z) (max : jnum) : jsstr :=
  if bool_decide (max = Fin min) then js "exactly " ++ number_string min
  else match max with
       | Infinity => if min =? 0 then js "any number" else js "at least " ++ number_string min
       | Fin max => if min =? 0 then js "at most " ++ number_string max
                    else js "between " ++ number_string min ++ js " and " ++ number_string max
       end.
Definition countAcross (min : Z) (max : jnum) (places : list place) : jsstr :=
  countPhrase min max ++ js " across {" ++ comma_names places ++ js "}".

(** The Greek letter of the branch bound is its code unit. *)
Definition propertyDescription (prop : smt_property) : jsstr :=
  match prop with
  | DeadlockFree => js "Deadlock-freedom"
  | TerminatesAtSink => js "Terminates at a declared sink"
  | MutualExclusion p1 p2 => js "Mutual exclusion of " ++ place_name p1 ++ js " and " ++ place_name p2
  | PlaceBound p b => js "Place " ++ place_name p ++ js " bounded by " ++ number_string b
  | Unreachable ps => js "Unreachability of marking with tokens in {" ++ comma_names ps ++ js "}"
  | BranchPlaceBound p b => js "Branch place bound (" ++ [957] ++ js "-budget): " ++ place_name p ++ js " <= " ++ number_string b
  | JoinedOrDeadLettered p => js "Joined-or-dead-lettered: " ++ place_name p ++ js " = 0 at quiescence"
  | QuiescentCount ps min max waivedBy =>
      let count := js "Quiescent count: " ++ countAcross min max ps in
      if bool_decide (length waivedBy = 0)%nat then count
      else count ++ js "; lower bound waived while {" ++ comma_names waivedBy ++ js "} is marked"
  | NameAligned ps => js "Name alignment of " ++ placeList ps
  | QuiescentNameAligned ps => js "Quiescent name alignment of " ++ placeList ps
  end.

Definition isNameAlignment (prop : smt_property) : bool :=
  match prop with NameAligned _ | QuiescentNameAligned _ => true | _ => false end.
Definition routeBOnlyReason (prop : smt_property) : jsstr :=
  propertyDescription prop ++ js " is decided only by the name-partition state-class graph (NU-055, Route B)".

(** ** Where a token may rest *)

Record conditional_sinks := ConditionalSinks { marker : place; rest_places : list place }.

(** Per flat place: [None] when it never counts as stranded, else the markers that excuse it. *)
Definition excuse_place (ix : list (jsstr * nat)) (mid : nat) (ex : list (option (list nat))) (p : place) : list (option (list nat)) :=
  match map_get (place_name p) ix with
  | None => ex
  | Some pid => match ex !! pid with
                | Some (Some l) => if bool_decide (mid ∈ l) then ex else <[pid := Some (l ++ [mid])]> ex
                | _ => ex
                end
  end.
Definition excuse_conditional (ix : list (jsstr * nat)) (ex : list (option (list nat))) (c : conditional_sinks) : list (option (list nat)) :=
  match map_get (place_name (marker c)) ix with
  | None => ex
  | Some mid => foldl (excuse_place ix mid) (<[mid := None]> ex) (rest_places c)
  end.
Definition strandingExcuses (fn : flat_net) (sinkPlaces : list place) (conditional : list conditional_sinks) : list (option (list nat)) :=
  let ex := replicate (length (flatPlaces fn)) (Some []) in
  let ex := foldl (λ ex sink, match map_get (place_name sink) (flatIndex fn) with Some pid => <[pid := None]> ex | None => ex end) ex sinkPlaces in
  let ex := foldl (excuse_conditional (flatIndex fn)) ex conditional in
  option_map (stable_sort Nat.leb) <$> ex.

Definition restingNames (m : marking_state) (sinkPlaces : list place) (conditional : list conditional_sinks) : list jsstr :=
  foldl (λ resting c, let resting := set_add (place_name (marker c)) resting in
                      if ms_hasTokens (marker c) m then set_union resting (place_name <$> rest_places c) else resting)
        (set_of (place_name <$> sinkPlaces)) conditional.
Definition strandsToken (m : marking_state) (sinkPlaces : list place) (conditional : list conditional_sinks) : bool :=
  existsb (λ p, bool_decide (place_name p ∉ restingNames m sinkPlaces conditional)) (placesWithTokens m).
Definition strandedPlaces (m : marking_state) (sinkPlaces : list place) (conditional : list conditional_sinks) : list place :=
  filter (λ p, place_name p ∉ restingNames m sinkPlaces conditional) (placesWithTokens m).

Definition describeSinks (sinkPlaces : list place) (conditional : list conditional_sinks) : option jsstr :=
  let parts := (if bool_decide (length sinkPlaces = 0)%nat then [] else [js "sinks: " ++ comma_names sinkPlaces])
    ++ ((λ c, js "when " ++ place_name (marker c) ++
              (if bool_decide (length (rest_places c) = 0)%nat then [] else js ": " ++ comma_names (rest_places c))) <$> conditional) in
  if bool_decide (length parts = 0)%nat then None else Some (join (js "; ") parts).

(** ** Counts across places *)

Definition tokensAcross (m : marking_state) (places : list place) : Z :=
  (foldl (λ y p, if decide (place_name p ∈ y.1) then y else (set_add (place_name p) y.1, y.2 + ms_tokens p m)) ([], 0) places).2.

Inductive count_bound := LowerBound | UpperBound.
Definition countViolation (m : marking_state) (places : list place) (min : Z) (max : jnum) (waivedBy : list place) : option count_bound :=
  let count := tokensAcross m places in
  if jnum_ltb max (Fin count) then Some UpperBound
  else if (count <? min) && negb (hasTokensInAny waivedBy m) then Some LowerBound
  else None.

(** ** The decision over a graph of classes *)

Record class_view := ClassView {
  view_count : nat;
  markingOf : nat → marking_state;
  view_quiescent : nat → bool;
  namesOf : option (nat → name_marking)
}.

Definition requireNames (names : option name_marking) (prop : smt_property) : result property_error name_marking :=
  match names with Some n => Ok n | None => Err (RouteBOnly (routeBOnlyReason prop)) end.

(** The predicate of a property that reads a class alone; [None] for a quiescence property. *)
Definition safetyViolation (prop : smt_property) : option (marking_state → option name_marking → result property_error bool) :=
  match prop with
  | PlaceBound p bound | BranchPlaceBound p bound => Some (λ m _, Ok (bound <? ms_tokens p m))
  | Unreachable ps => Some (λ m _, Ok (forallb (λ p, ms_hasTokens p m) ps))
  | MutualExclusion p1 p2 => Some (λ m _, Ok (ms_hasTokens p1 m && ms_hasTokens p2 m))
  | NameAligned ps => Some (λ _ names, let* n := requireNames names prop in Ok (negb (aligned (place_name <$> ps) n)))
  | DeadlockFree | TerminatesAtSink | JoinedOrDeadLettered _ | QuiescentCount _ _ _ _ | QuiescentNameAligned _ => None
  end.

Definition anySinkMarked (m : marking_state) (sinks : list place) : bool :=
  let sinkNames := set_of (place_name <$> sinks) in
  existsb (λ p, bool_decide (place_name p ∈ sinkNames)) (placesWithTokens m).

(** [firstWhere]; [None] is [-1]. *)
Fixpoint first_where {E} (pred : nat → result E bool) (l : list nat) : result E (option nat) :=
  match l with
  | [] => Ok None
  | i :: l => let* b := pred i in if b then Ok (Some i) else first_where pred l
  end.

Definition decideOverClasses (view : class_view) (prop : smt_property) (sinkPlaces : list place) (conditionalSinks : list conditional_sinks)
    : result property_error (option nat) :=
  let names i := (λ f : nat → name_marking, f i) <$> namesOf view in
  let firstWhere pred := first_where pred (seq 0 (view_count view)) in
  let quiescent i (r : result property_error bool) := if view_quiescent view i then r else Ok false in
  do* throw_if (isNameAlignment prop && bool_decide (namesOf view = None)) (RouteBOnly (routeBOnlyReason prop));
  match safetyViolation prop with
  | Some violates => firstWhere (λ i, violates (markingOf view i) (names i))
  | None =>
      match prop with
      | DeadlockFree => firstWhere (λ i, quiescent i (Ok (strandsToken (markingOf view i) sinkPlaces conditionalSinks)))
      | TerminatesAtSink => firstWhere (λ i, quiescent i (Ok (negb (anySinkMarked (markingOf view i) sinkPlaces))))
      | JoinedOrDeadLettered p => firstWhere (λ i, quiescent i (Ok (ms_hasTokens p (markingOf view i))))
      | QuiescentCount ps min max waivedBy =>
          firstWhere (λ i, quiescent i (Ok (bool_decide (countViolation (markingOf view i) ps min max waivedBy ≠ None))))
      | QuiescentNameAligned ps =>
          firstWhere (λ i, quiescent i (let* n := requireNames (names i) prop in Ok (negb (aligned (place_name <$> ps) n))))
      | _ => Ok None
      end
  end.

Definition prefixNote (graph : jsstr) (maxClasses : Z) : jsstr :=
  [10] ++ js "Note: the " ++ graph ++ js " was truncated at " ++ number_string maxClasses ++
  js " classes; the violation was found in the explored prefix. Every explored class is reachable, so the counterexample is a real firing sequence, the shortest within the explored graph. A truncated graph never proves a property." ++ [10].

(** ** What violates a property *)

Abbreviation names_of ps := (place_name <$> ps).

(** A token in [n] is at rest: in a sink, a marker, or a place of a marked marker. *)
Definition may_rest (sinks : list place) (cond : list conditional_sinks) (c : jsstr → Z) (n : jsstr) : Prop :=
  n ∈ names_of sinks ∨ ∃ k, k ∈ cond ∧ (n = place_name (marker k) ∨ 0 < c (place_name (marker k)) ∧ n ∈ names_of (rest_places k)).

(** The tokens over distinct names. *)
Definition total_of (c : jsstr → Z) (ns : list jsstr) : Z := foldr (λ n z, c n + z) 0 (set_of ns).

(** The contract of every route: the counts [c], at which the net rests or not, violate the
    property. Name alignment is not a predicate of counts. *)
Definition violates (prop : smt_property) (sinks : list place) (cond : list conditional_sinks) (c : jsstr → Z) (rests : Prop) : Prop :=
  match prop with
  | DeadlockFree => rests ∧ ∃ n, 0 < c n ∧ ¬ may_rest sinks cond c n
  | TerminatesAtSink => rests ∧ ∀ n, n ∈ names_of sinks → c n <= 0
  | MutualExclusion p1 p2 => 0 < c (place_name p1) ∧ 0 < c (place_name p2)
  | PlaceBound p bound | BranchPlaceBound p bound => bound < c (place_name p)
  | Unreachable ps => ∀ n, n ∈ names_of ps → 0 < c n
  | JoinedOrDeadLettered p => rests ∧ 0 < c (place_name p)
  | QuiescentCount ps min max waivedBy =>
      rests ∧ (jnum_ltb max (Fin (total_of c (names_of ps))) = true ∨ total_of c (names_of ps) < min ∧ ∀ n, n ∈ names_of waivedBy → c n <= 0)
  | NameAligned _ | QuiescentNameAligned _ => False
  end.

Lemma total_of_app (c : jsstr → Z) l n : NoDup (l ++ [n]) → foldr (λ n z, c n + z) 0 (l ++ [n]) = foldr (λ n z, c n + z) 0 l + c n.
Proof. intros _. induction l as [|x l IH]; cbn; [lia|]. rewrite IH. lia. Qed.

Lemma total_of_ext (c c' : jsstr → Z) ns : (∀ n, c n = c' n) → total_of c ns = total_of c' ns.
Proof. intros H. unfold total_of. induction (set_of ns) as [|x l IH]; cbn; [done|]. by rewrite H, IH. Qed.

Lemma violates_ext prop sinks cond (c c' : jsstr → Z) (r r' : Prop) : (∀ n, c n = c' n) → (r ↔ r') → violates prop sinks cond c r ↔ violates prop sinks cond c' r'.
Proof.
  intros Hc Hr. destruct prop; cbn [violates]; rewrite ?Hr; try done; repeat setoid_rewrite Hc; try done.
  - unfold may_rest. by repeat setoid_rewrite Hc.
  - by rewrite (total_of_ext c c').
Qed.

Lemma marked_place m n : ms_wf m → 0 < count_of m n ↔ n ∈ names_of (placesWithTokens m).
Proof.
  intros W. unfold placesWithTokens. transitivity (n ∈ (placesByName m).*1).
  - rewrite (wf_places m W). split.
    + unfold count_of. destruct (map_get n (tokenCounts m)) eqn:E; [|done]. intros _. apply map_get_elem in E. by apply (list_elem_of_fmap_2 fst) in E.
    + intros ([n' z] & -> & Hz)%list_elem_of_fmap. unfold count_of. cbn [fst]. rewrite (elem_map_get n' z _ (wf_keys m W) Hz). by apply (wf_counts m W) in Hz.
  - rewrite <- list_fmap_compose, !list_elem_of_fmap. split; intros ([k p] & -> & H); exists (k, p); (split; [|done]); cbn; [symmetry|]; by apply (wf_names m W).
Qed.

Lemma hasTokens_count p m : ms_hasTokens p m = (0 <? count_of m (place_name p)).
Proof. done. Qed.

Lemma elem_restingNames m sinks cond n : n ∈ restingNames m sinks cond ↔ may_rest sinks cond (count_of m) n.
Proof.
  unfold restingNames, may_rest.
  assert (∀ l s, n ∈ foldl (λ resting c, let resting := set_add (place_name (marker c)) resting in
      if ms_hasTokens (marker c) m then set_union resting (place_name <$> rest_places c) else resting) s l ↔
    n ∈ s ∨ ∃ k, k ∈ l ∧ (n = place_name (marker k) ∨ 0 < count_of m (place_name (marker k)) ∧ n ∈ names_of (rest_places k))) as H.
  { induction l as [|k l IH]; intros s; cbn [foldl].
    - split; [by left|]. intros [?|(? & ?%not_elem_of_nil & _)]; done.
    - rewrite IH. clear IH. cbv zeta. rewrite hasTokens_count.
      assert (∀ Q : conditional_sinks → Prop, (∃ k', k' ∈ k :: l ∧ Q k') ↔ Q k ∨ ∃ k', k' ∈ l ∧ Q k') as -> by (intros Q; set_solver).
      destruct (Z.ltb_spec 0 (count_of m (place_name (marker k)))); rewrite ?elem_of_set_union, elem_of_set_add; naive_solver lia. }
  rewrite H. by rewrite elem_of_set_of.
Qed.

Lemma strandsToken_spec m sinks cond : ms_wf m → strandsToken m sinks cond = true ↔ ∃ n, 0 < count_of m n ∧ ¬ may_rest sinks cond (count_of m) n.
Proof.
  intros W. unfold strandsToken. rewrite existsb_elem. setoid_rewrite bool_decide_eq_true. setoid_rewrite elem_restingNames. split.
  - intros (p & Hp & Hn). exists (place_name p). split; [|done]. apply marked_place; [done|]. by apply list_elem_of_fmap_2.
  - intros (n & Hp & Hn). apply marked_place, list_elem_of_fmap in Hp as (p & -> & Hp); [|done]. by exists p.
Qed.

(** The stranded places are the witnesses of the stranding. *)
Lemma strandedPlaces_spec m sinks cond : ms_wf m →
  (∀ n, n ∈ names_of (strandedPlaces m sinks cond) ↔ 0 < count_of m n ∧ ¬ may_rest sinks cond (count_of m) n) ∧
  (strandsToken m sinks cond = false ↔ strandedPlaces m sinks cond = []).
Proof.
  intros W. assert (∀ n, n ∈ names_of (strandedPlaces m sinks cond) ↔ 0 < count_of m n ∧ ¬ may_rest sinks cond (count_of m) n) as H.
  { intros n. rewrite (marked_place m n W). unfold strandedPlaces. rewrite !list_elem_of_fmap. setoid_rewrite list_elem_of_filter.
    setoid_rewrite elem_restingNames. naive_solver. }
  split; [done|]. rewrite <- not_true_iff_false, (strandsToken_spec m sinks cond W). split.
  - intros Hn. apply elem_of_nil_inv. intros p Hp. apply Hn. exists (place_name p). apply H. by apply list_elem_of_fmap_2.
  - intros E (n & Hn%H). rewrite E in Hn. by apply not_elem_of_nil in Hn.
Qed.

Lemma tokensAcross_spec m ps : tokensAcross m ps = total_of (count_of m) (names_of ps).
Proof.
  unfold tokensAcross, total_of, set_of.
  assert (∀ ps s z, NoDup s → z = foldr (λ n z, count_of m n + z) 0 s →
    (foldl (λ y p, if decide (place_name p ∈ y.1) then y else (set_add (place_name p) y.1, y.2 + ms_tokens p m)) (s, z) ps).2 =
    foldr (λ n z, count_of m n + z) 0 (foldl (λ s x, set_add x s) s (names_of ps))) as H; [|apply H; [constructor|done]].
  clear ps. induction ps as [|p ps IH]; intros s z Hs Ez; cbn [foldl fmap list_fmap]; [done|]. cbn [fst snd]. destruct (decide (place_name p ∈ s)) as [Hin|Hin].
  - assert (set_add (place_name p) s = s) as -> by (unfold set_add; by rewrite decide_True). by apply IH.
  - assert (set_add (place_name p) s = s ++ [place_name p]) as -> by (unfold set_add; by rewrite decide_False).
    assert (NoDup (s ++ [place_name p])) as Hn by (apply NoDup_app; split_and!; [done|intros x Hx ->%list_elem_of_singleton; done|apply NoDup_singleton]).
    apply IH; [done|]. rewrite total_of_app, <- Ez by done. by rewrite count_tokens.
Qed.

Lemma anySinkMarked_spec m sinks : ms_wf m → negb (anySinkMarked m sinks) = true ↔ ∀ n, n ∈ names_of sinks → count_of m n <= 0.
Proof.
  intros W. rewrite negb_true_iff, <- not_true_iff_false. unfold anySinkMarked. rewrite existsb_elem. setoid_rewrite bool_decide_eq_true. setoid_rewrite elem_of_set_of. split.
  - intros H n Hn. destruct (Z.lt_ge_cases 0 (count_of m n)) as [Hp|]; [|lia]. destruct H.
    apply marked_place, list_elem_of_fmap in Hp as (p & -> & Hp); [|done]. by exists p.
  - intros H (p & Hp & Hn). specialize (H _ Hn). assert (0 < count_of m (place_name p)); [|lia]. apply marked_place; [done|]. by apply list_elem_of_fmap_2.
Qed.

Lemma countViolation_spec m ps min max waivedBy : bool_decide (countViolation m ps min max waivedBy ≠ None) = true ↔
  jnum_ltb max (Fin (total_of (count_of m) (names_of ps))) = true ∨
  total_of (count_of m) (names_of ps) < min ∧ ∀ n, n ∈ names_of waivedBy → count_of m n <= 0.
Proof.
  rewrite bool_decide_eq_true. unfold countViolation. cbv zeta. rewrite tokensAcross_spec. destruct (jnum_ltb max _); [naive_solver|].
  destruct (Z.ltb_spec (total_of (count_of m) (names_of ps)) min); cbn [andb]; [|naive_solver lia].
  assert (negb (hasTokensInAny waivedBy m) = true ↔ ∀ n, n ∈ names_of waivedBy → count_of m n <= 0) as <-.
  { rewrite negb_true_iff, <- not_true_iff_false. unfold hasTokensInAny. rewrite existsb_elem. setoid_rewrite hasTokens_count. setoid_rewrite Z.ltb_lt. split.
    - intros Hn n (p & -> & Hp)%list_elem_of_fmap. destruct (Z.lt_ge_cases 0 (count_of m (place_name p))); [|lia]. destruct Hn. by exists p.
    - intros Hn (p & Hp & Hc). specialize (Hn (place_name p) (list_elem_of_fmap_2 _ _ _ Hp)). lia. }
  destruct (negb _); naive_solver.
Qed.

(** ** The decision decides the contract *)

Lemma first_where_spec {E} (pred : nat → result E bool) (f : nat → bool) n : (∀ i, (i < n)%nat → pred i = Ok (f i)) →
  ∃ r, first_where pred (seq 0 n) = Ok r ∧
  match r with Some i => (i < n)%nat ∧ f i = true ∧ ∀ j, (j < i)%nat → f j = false | None => ∀ i, (i < n)%nat → f i = false end.
Proof.
  intros Hp. assert (∀ k a, (∀ i, (a <= i < a + k)%nat → pred i = Ok (f i)) → ∃ r, first_where pred (seq a k) = Ok r ∧
    match r with Some i => (a <= i < a + k)%nat ∧ f i = true ∧ ∀ j, (a <= j < i)%nat → f j = false
               | None => ∀ i, (a <= i < a + k)%nat → f i = false end) as H.
  { clear n Hp. induction k as [|k IH]; intros a Hp; cbn [seq first_where]; [exists None; split; [done|intros; lia]|].
    rewrite Hp by lia. cbn [res_bind]. destruct (f a) eqn:Ef; [exists (Some a); split; [done|]; split_and!; [lia|lia|done|intros; lia]|].
    destruct (IH (S a)) as (r & -> & Hr); [intros; apply Hp; lia|]. exists r. split; [done|]. destruct r as [i|].
    - destruct Hr as (? & ? & Hr). split_and!; [lia|lia|done|]. intros j Hj. destruct (decide (j = a)) as [->|]; [done|apply Hr; lia].
    - intros i Hi. destruct (decide (i = a)) as [->|]; [done|apply Hr; lia]. }
  destruct (H n 0%nat) as (r & Er & Hr); [intros; apply Hp; lia|]. exists r. split; [done|]. destruct r as [i|].
  - destruct Hr as (? & ? & Hr). split_and!; [lia|done|]. intros; apply Hr; lia.
  - intros; apply Hr; lia.
Qed.

(** Each class is tested against the contract, in order. *)
Lemma decide_spec view prop sinks cond : isNameAlignment prop = false → (∀ i, (i < view_count view)%nat → ms_wf (markingOf view i)) →
  ∃ r, decideOverClasses view prop sinks cond = Ok r ∧
  let bad i := violates prop sinks cond (count_of (markingOf view i)) (view_quiescent view i = true) in
  match r with Some i => (i < view_count view)%nat ∧ bad i ∧ ∀ j, (j < i)%nat → ¬ bad j | None => ∀ i, (i < view_count view)%nat → ¬ bad i end.
Proof.
  intros Hna Hwf. cbv zeta. unfold decideOverClasses. rewrite Hna. cbn [andb throw_if res_bind].
  set (bad i := violates prop sinks cond (count_of (markingOf view i)) (view_quiescent view i = true)).
  assert (∀ (pred : nat → result property_error bool) (f : nat → bool), (∀ i, (i < view_count view)%nat → pred i = Ok (f i)) → (∀ i, (i < view_count view)%nat → f i = true ↔ bad i) →
    ∃ r, first_where pred (seq 0 (view_count view)) = Ok r ∧
    match r with Some i => (i < view_count view)%nat ∧ bad i ∧ ∀ j, (j < i)%nat → ¬ bad j | None => ∀ i, (i < view_count view)%nat → ¬ bad i end) as Hgo.
  { intros pred f Hp Hf. destruct (first_where_spec (E := property_error) pred f (view_count view) Hp) as (r & E & Hr). exists r. split; [exact E|]. destruct r as [i|].
    - destruct Hr as (Hi & Hfi & Hj). split_and!; [done|by apply Hf|]. intros j Hlt Hb%Hf; [|lia]. rewrite Hj in Hb by done. done.
    - intros i Hi Hb%Hf; [|done]. rewrite Hr in Hb by done. done. }
  assert (∀ b : nat → bool, (∀ i, (i < view_count view)%nat → view_quiescent view i = true → b i = true ↔ bad i) → (∀ i, bad i → view_quiescent view i = true) →
    ∃ r, first_where (λ i, if view_quiescent view i then Ok (b i) else Ok false) (seq 0 (view_count view)) = Ok (E := property_error) r ∧
    match r with Some i => (i < view_count view)%nat ∧ bad i ∧ ∀ j, (j < i)%nat → ¬ bad j | None => ∀ i, (i < view_count view)%nat → ¬ bad i end) as Hq.
  { intros b Hb Hr. apply (Hgo _ (λ i, view_quiescent view i && b i)); intros i Hi; [by destruct (view_quiescent view i)|].
    rewrite andb_true_iff. split; [intros [H1 H2]; by apply Hb|]. intros H. split; [by apply Hr|]. apply Hb; [done|by apply Hr|done]. }
  destruct prop; try discriminate Hna; cbn [safetyViolation];
    first [apply Hq; [intros i Hi Hr|intros i Hb; apply Hb]|apply (Hgo _ (λ i, _) (λ i _, eq_refl)); intros i Hi];
    unfold bad; cbn [violates]; specialize (Hwf i Hi).
  - rewrite strandsToken_spec by done. tauto.
  - rewrite anySinkMarked_spec by done. tauto.
  - rewrite andb_true_iff, !hasTokens_count, !Z.ltb_lt. done.
  - by rewrite Z.ltb_lt.
  - rewrite forallb_elem. setoid_rewrite list_elem_of_fmap. setoid_rewrite hasTokens_count. setoid_rewrite Z.ltb_lt. naive_solver.
  - by rewrite Z.ltb_lt.
  - rewrite hasTokens_count, Z.ltb_lt. tauto.
  - rewrite countViolation_spec. tauto.
Qed.

(** A property that lists no place is violated by every marking on the graph routes. *)
Lemma unreachable_nothing sinks cond c : violates (Unreachable []) sinks cond c False.
Proof. intros n Hn. by apply not_elem_of_nil in Hn. Qed.
