(* ===== verification/StubbornSets.v ===== *)
(** * Stubborn sets

    [src/typescript/src/verification/analysis/stubborn-sets.ts]: at each class the enumeration
    expands only the enabled transitions of one stubborn set. A transition is its position; a
    [Uint8Array] of flags is a list of booleans; the stack of the closure has its top first. *)
From S2P Require Import Prelude.
From S2P Require Import CodePoints.
From S2P Require Import Net.
From S2P Require Import Transition.
From S2P Require Import MarkingState.
From S2P Require Import Outcomes.
From S2P Require Import StateClass.
#[local] Open Scope Z_scope.

(** ** Footprints *)

Record condition := Condition { cond_place : jsstr; cond_need : Z; cond_inhibitor : bool }.

Record footprint := Footprint {
  fp_tests : list jsstr;
  fp_writes : list jsstr;
  fp_overwrites : list jsstr;
  fp_decreases : list jsstr;
  fp_increases : list jsstr;
  fp_conditions : list condition
}.

Section Footprint.
Context {V : Type}.
Implicit Types (t : transition V).

Definition drains_input (s : in_spec) : bool := match s with InAll _ | InAtLeast _ _ => true | _ => false end.

(** Inputs, then reads, by place name; then the inhibitors by name. *)
Definition enabling_conditions t : list condition :=
  let enabling := ((λ s, Condition (place_name (in_place s)) (requiredCount s) false) <$> inputSpecs t)
                  ++ ((λ p, Condition (place_name p) 1 false) <$> reads t) in
  stable_sort (λ x y, compareCodePoints (cond_place x) (cond_place y) <=? 0) enabling
  ++ ((λ p, Condition p 0 true) <$> stable_sort (λ x y, compareCodePoints x y <=? 0) (place_name <$> inhibitors t)).

Definition footprint_of t : result scg_error footprint :=
  let inputs := (λ s, place_name (in_place s)) <$> inputSpecs t in
  let drained := (λ s, place_name (in_place s)) <$> filter (λ s, drains_input s = true) (inputSpecs t) in
  let reset := place_name <$> resets t in
  let* os := lift ScgOutcome (outcomes t) in
  let deposited := o ← os; (λ d, place_name (od_place d)) <$> deposits o in
  Ok (Footprint (set_of (inputs ++ (place_name <$> reads t) ++ stable_sort (λ x y, compareCodePoints x y <=? 0) (place_name <$> inhibitors t)))
                (set_of (inputs ++ reset ++ deposited)) (set_of (drained ++ reset)) (set_of (inputs ++ reset)) (set_of deposited)
                (enabling_conditions t)).

Fixpoint footprints (ts : list (transition V)) : result scg_error (list footprint) :=
  match ts with
  | [] => Ok []
  | t :: ts => let* f := footprint_of t in let* fs := footprints ts in Ok (f :: fs)
  end.
End Footprint.

(** ** The constructor *)

(** [add(m, p, i)] *)
Definition index_add (i : nat) (m : list (jsstr * list nat)) (p : jsstr) : list (jsstr * list nat) :=
  match map_get p m with
  | None => map_set p [i] m
  | Some l => if bool_decide (last l = Some i) then m else map_set p (l ++ [i]) m
  end.
Definition index_of (part : footprint → list jsstr) (fs : list footprint) : list (jsstr * list nat) :=
  foldl (λ m y, foldl (index_add y.1) m (part y.2)) [] (imap pair fs).

Record stubborn_sets := StubbornSets {
  ss_names : list jsstr;
  dependents : list (list nat);
  conditions : list (list condition);
  increasers : list (jsstr * list nat);
  decreasers : list (jsstr * list nat)
}.

Definition collect (i : nat) (places : list jsstr) (index : list (jsstr * list nat)) (dep : list nat) : list nat :=
  foldl (λ dep p, foldl (λ dep j, if (j =? i)%nat then dep else set_add j dep) dep (default [] (map_get p index))) dep places.

Definition stubborn_new {V} (ts : list (transition V)) : result scg_error stubborn_sets :=
  let* fs := footprints ts in
  let testers := index_of fp_tests fs in
  let writers := index_of fp_writes fs in
  let overwriters := index_of fp_overwrites fs in
  let dependents_of i f :=
    let dep := collect i (fp_writes f) testers [] in
    let dep := collect i (fp_tests f) writers dep in
    let dep := collect i (fp_overwrites f) writers dep in
    let dep := collect i (fp_writes f) overwriters dep in
    stable_sort Nat.leb dep in
  Ok (StubbornSets (t_name <$> ts) (imap dependents_of fs) (fp_conditions <$> fs) (index_of fp_increases fs) (index_of fp_decreases fs)).

(** ** The selection *)

Section Select.
Variables (ss : stubborn_sets) (counts : list (jsstr * Z)).

Definition violated (c : condition) : bool :=
  let have := default 0 (map_get (cond_place c) counts) in
  if cond_inhibitor c then 0 <? have else have <? cond_need c.

(** The transitions that can satisfy the first unsatisfied condition of a disabled transition. *)
Definition scapegoat (i : nat) : result scg_error (list nat) :=
  match js_find violated (default [] (conditions ss !! i)) with
  | Some c => Ok (default [] (map_get (cond_place c) (if cond_inhibitor c then decreasers ss else increasers ss)))
  | None => Err (ScgStubborn (default [] (ss_names ss !! i)))
  end.

(** [push]: the flags and the stack. *)
Definition push_new (y : list bool * list nat) (j : nat) : list bool * list nat :=
  if default false (y.1 !! j) then y else (<[j := true]> y.1, j :: y.2).

(** The loop: [Some None] is [null], [None] is out of fuel. *)
Fixpoint closure_loop (isEnabled : list bool) (bound : option nat) (fuel : nat) (inSet : list bool) (work : list nat) (enabledCount : nat)
    : result scg_error (option (option (list bool))) :=
  match work with
  | [] => Ok (Some (Some inSet))
  | i :: work =>
      match fuel with
      | O => Ok None
      | S fuel =>
          if default false (isEnabled !! i) then
            if match bound with Some b => (b <=? S enabledCount)%nat | None => false end then Ok (Some None)
            else let y := foldl push_new (inSet, work) (default [] (dependents ss !! i)) in
                 closure_loop isEnabled bound fuel y.1 y.2 (S enabledCount)
          else let* l := scapegoat i in
               let y := foldl push_new (inSet, work) l in
               closure_loop isEnabled bound fuel y.1 y.2 enabledCount
      end
  end.

Definition closure (seed : nat) (isEnabled : list bool) (bound : option nat) : result scg_error (option (option (list nat))) :=
  let n := length (ss_names ss) in
  let* r := closure_loop isEnabled bound n (<[seed := true]> (replicate n false)) [seed] 0 in
  Ok (match r with
      | Some (Some inSet) => Some (Some (filter (λ i, default false (inSet !! i) && default false (isEnabled !! i) = true) (seq 0 (length inSet))))
      | Some None => Some None
      | None => None
      end).

(** The loop over the seeds; it stops at a set of one transition. *)
Fixpoint best_closure (isEnabled : list bool) (seeds : list nat) (best : option (list nat)) : result scg_error (option (option (list nat))) :=
  match seeds with
  | [] => Ok (Some best)
  | seed :: seeds =>
      let* r := closure seed isEnabled (length <$> best) in
      match r with
      | None => Ok None
      | Some None => best_closure isEnabled seeds best
      | Some (Some set) =>
          if match best with None => true | Some b => (length set <? length b)%nat end then
            if (length set =? 1)%nat then Ok (Some (Some set)) else best_closure isEnabled seeds (Some set)
          else best_closure isEnabled seeds best
      end
  end.
End Select.

(** [select]; [None] when the fuel of a closure is spent. *)
Definition select_stubborn (ss : stubborn_sets) (m : marking_state) (enabled : list nat) : result scg_error (option (list nat)) :=
  if (length enabled <=? 1)%nat then Ok (Some enabled)
  else
    let isEnabled := foldl (λ l i, <[i := true]> l) (replicate (length (ss_names ss)) false) enabled in
    let counts := foldl (λ c p, map_set (place_name p) (ms_tokens p m) c) [] (placesWithTokens m) in
    let name i := default [] (ss_names ss !! i) in
    let seeds := stable_sort (λ x y, compareCodePoints (name x) (name y) <=? 0) enabled in
    let* best := best_closure ss counts isEnabled seeds None in
    Ok (match best with
        | Some (Some chosen) => Some (filter (λ i, i ∈ chosen) enabled)
        | Some None => Some []
        | None => None
        end).
