(* ===== verification/GraphPaths.v ===== *)
(** * The paths of a state-class graph

    Whatever a selector expands, every edge the construction of [StateGraph] records is a firing
    from its class to the class of its successor, every expanded class has the edges to all its
    successors, and every class but the first is reached from an earlier one. With [GraphExact]
    this makes the graph exact, classes and edges. *)
From S2P Require Import Prelude.
From S2P Require Import Net.
From S2P Require Import Transition.
From S2P Require Import PetriNet.
From S2P Require Import CompiledNet.
From S2P Require Import MarkingState.
From S2P Require Import Dbm.
From S2P Require Import Outcomes.
From S2P Require Import StateClass.
From S2P Require Import ClassSteps.
From S2P Require Import ClassKeys.
From S2P Require Import GraphExact.
#[local] Open Scope Z_scope.

Lemma fold_result_inv {E A B} (P : B → Prop) (f : B → A → result E B) l : (∀ b x b', x ∈ l → P b → f b x = Ok b' → P b') →
  ∀ b b', P b → fold_result f b l = Ok b' → P b'.
Proof.
  unfold fold_result. intros Hf. assert (∀ l', (∀ x, x ∈ l' → x ∈ l) → ∀ r b', (∀ b, r = Ok b → P b) →
    foldl (λ r x, let* b := r in f b x) r l' = Ok b' → P b') as H.
  { induction l' as [|x l' IH]; intros Hl r b' Hr; cbn [foldl]; [by apply Hr|]. apply IH; [intros; apply Hl; by right|].
    intros b Eb. destruct r as [b0|]; [|done]. eapply Hf; [apply Hl; left|by apply Hr|exact Eb]. }
  intros b b' Hb. apply (H l); [done|]. by intros ? [= <-].
Qed.

Lemma edges_push classes m (l tl : list (list (nat * list branch_edge))) k i e k' i' : (k < length l)%nat → (∀ row, row ∈ tl → row = []) →
  edges_of (Exploration classes m (alter (push_edge i e) k l ++ tl)) k' i' =
  default [] (map_get i' (default [] (l !! k'))) ++ (if decide (k' = k ∧ i' = i) then [e] else []).
Proof.
  intros Hk Htl. rewrite <- edges_alter by done. unfold edges_of. cbn [x_edges]. f_equal. f_equal.
  destruct (decide (k' < length l)%nat) as [Hlt|Hge]; [by rewrite lookup_app_l by (by rewrite length_alter)|].
  rewrite (lookup_ge_None_2 (alter _ _ _)) by (rewrite length_alter; lia). rewrite lookup_app_r by (rewrite length_alter; lia).
  destruct (tl !! _) as [row|] eqn:E; [|done]. by rewrite (Htl row) by (by eapply list_elem_of_lookup_2).
Qed.

Section Paths.
Context {V : Type}.
Variables (scale : Z) (ts : list (transition V)) (env : list jsstr) (mode : environment_mode) (untimed : bool) (sel : selector).
Implicit Types (c : state_class) (x : exploration) (t : transition V).

Abbreviation succ c i b o t := (computeSuccessor scale ts env mode c (VirtualTransition i b o) untimed None t).

(** A firing of [i] with its outcome [b] leads from class [k] to class [j]. *)
Definition fires x (k i b j : nat) : Prop := ∃ c t os o c' cj,
  x_classes x !! k = Some c ∧ i ∈ expanded_of sel c ∧ ts !! i = Some t ∧ outcomes t = Ok os ∧ os !! b = Some o ∧
  succ c i b o t = Ok c' ∧ sc_isEmpty c' = false ∧ x_classes x !! j = Some cj ∧ classKey scale cj = classKey scale c'.

Record traced x : Prop := {
  tr_len : length (x_edges x) = length (x_classes x);
  tr_map : ∀ key j, map_get key (x_map x) = Some j → ∃ c, x_classes x !! j = Some c ∧ classKey scale c = key;
  tr_edge : ∀ k i e, e ∈ edges_of x k i → fires x k i (be_branch e) (be_target e);
  tr_root : ∀ j, (0 < j < length (x_classes x))%nat → ∃ k i e, (k < j)%nat ∧ e ∈ edges_of x k i ∧ be_target e = j;
  tr_rows : ∀ row, row ∈ x_edges x → NoDup row.*1
}.

Lemma fires_grow x x' k i b j : (∀ k c, x_classes x !! k = Some c → x_classes x' !! k = Some c) → fires x k i b j → fires x' k i b j.
Proof. intros H (c & t & os & o & c' & cj & ? & ? & ? & ? & ? & ? & ? & ? & ?). exists c, t, os, o, c', cj. split_and!; auto. Qed.

Lemma push_rows (l : list (list (nat * list branch_edge))) k i e : (∀ row, row ∈ l → NoDup row.*1) → ∀ row, row ∈ alter (push_edge i e) k l → NoDup row.*1.
Proof.
  intros H row [k' Hk]%list_elem_of_lookup. destruct (decide (k' = k)) as [->|Hne].
  - rewrite list_lookup_alter, decide_True in Hk by done. apply fmap_Some in Hk as (r & E & ->). apply NoDup_map_set, H. by eapply list_elem_of_lookup_2.
  - rewrite list_lookup_alter_ne in Hk by done. apply H. by eapply list_elem_of_lookup_2.
Qed.

Lemma add_successor_traced x k c i t os b o c' : traced x → x_classes x !! k = Some c → i ∈ expanded_of sel c → ts !! i = Some t →
  outcomes t = Ok os → os !! b = Some o → succ c i b o t = Ok c' →
  let x' := add_successor scale k (VirtualTransition i b o) c' x in traced x' ∧ (∀ k c, x_classes x !! k = Some c → x_classes x' !! k = Some c).
Proof.
  intros [T1 T2 T3 T4 T5] Ek Hi Et Eos Eb Es. cbn zeta. unfold add_successor. destruct (sc_isEmpty c') eqn:He; [by split; [constructor|]|].
  cbn zeta. cbn [vt_transition branchIndex]. pose proof (lookup_lt_Some _ _ _ Ek) as Hk.
  destruct (map_get (classKey scale c') (x_map x)) as [j|] eqn:Em.
  - destruct (T2 _ _ Em) as (cj & Ej & Ekey). split; [|done].
    assert (∀ k' i', edges_of (Exploration (x_classes x) (x_map x) (alter (push_edge i (BranchEdge b j)) k (x_edges x))) k' i' =
      edges_of x k' i' ++ (if decide (k' = k ∧ i' = i) then [BranchEdge b j] else [])) as Hed.
    { intros k' i'. unfold edges_of at 2. rewrite <- (edges_push (x_classes x) (x_map x) (x_edges x) []) by (lia || by intros ? ?%not_elem_of_nil). by rewrite app_nil_r. }
    constructor; cbn [x_classes x_map x_edges]; [by rewrite length_alter|done| | |by apply push_rows].
    + intros k' i' e. rewrite Hed, elem_of_app. intros [H|H]; [by apply (fires_grow x); [|apply T3]|].
      case_decide as Hd; [|by apply not_elem_of_nil in H]. destruct Hd as [-> ->]. apply list_elem_of_singleton in H as ->. cbn.
      exists c, t, os, o, c', cj. done.
    + intros j' Hj'. destruct (T4 j' Hj') as (k' & i' & e & ? & He' & ?). exists k', i', e. split_and!; [done| |done]. rewrite Hed. apply elem_of_app. by left.
  - assert (∀ k c0, x_classes x !! k = Some c0 → (x_classes x ++ [c']) !! k = Some c0) as Hg by (intros; by apply lookup_app_l_Some).
    split; [|done].
    assert (∀ k' i', edges_of (Exploration (x_classes x ++ [c']) (map_set (classKey scale c') (length (x_classes x)) (x_map x))
        (alter (push_edge i (BranchEdge b (length (x_classes x)))) k (x_edges x) ++ [[]])) k' i' =
      edges_of x k' i' ++ (if decide (k' = k ∧ i' = i) then [BranchEdge b (length (x_classes x))] else [])) as Hed.
    { intros k' i'. rewrite edges_push by (lia || by intros ? ->%list_elem_of_singleton). done. }
    assert ((x_classes x ++ [c']) !! length (x_classes x) = Some c') as Enew by (by rewrite lookup_app_r, Nat.sub_diag by lia).
    constructor; cbn [x_classes x_map x_edges].
    + rewrite !length_app, length_alter. simpl. lia.
    + intros key j. rewrite map_get_set. case_decide as Hkey; [intros [= <-]; by exists c'|]. intros (c0 & ? & ?)%T2. exists c0. by split; [apply Hg|].
    + intros k' i' e. rewrite Hed, elem_of_app. intros [H|H]; [by apply (fires_grow x); [apply Hg|apply T3]|].
      case_decide as Hd; [|by apply not_elem_of_nil in H]. destruct Hd as [-> ->]. apply list_elem_of_singleton in H as ->. cbn.
      exists c, t, os, o, c', c'. split_and!; try done. by apply Hg.
    + intros j' Hj'. rewrite length_app in Hj'. simpl in Hj'. destruct (decide (j' = length (x_classes x))) as [->|Hne].
      * exists k, i, (BranchEdge b (length (x_classes x))). split_and!; [done| |done]. rewrite Hed, decide_True by done. apply elem_of_app. right. left.
      * destruct (T4 j' ltac:(lia)) as (k' & i' & e & ? & He' & ?). exists k', i', e. split_and!; [done| |done]. rewrite Hed. apply elem_of_app. by left.
    + intros row [Hrow| ->%list_elem_of_singleton]%elem_of_app; [by eapply push_rows|constructor].
Qed.

Lemma expand_class_traced k c x x' : traced x → x_classes x !! k = Some c → expand_class scale ts env mode untimed sel k c x = Ok x' →
  traced x' ∧ ∀ k c, x_classes x !! k = Some c → x_classes x' !! k = Some c.
Proof.
  intros Hx Ek. unfold expand_class. fold (selected sel c). change (match sel with None => Ok (enabledTransitions c) | Some select => select (sc_marking c) (enabledTransitions c) end) with (selected sel c).
  destruct (selected sel c) as [l|] eqn:El; cbn [res_bind]; [|done].
  apply (fold_result_inv (λ y, traced y ∧ ∀ k c, x_classes x !! k = Some c → x_classes y !! k = Some c)); [|done].
  intros y i y' Hi [Hy Hg] E. unfold expand_transition in E. destruct (ts !! i) as [t|] eqn:Et; [|by injection E as <-].
  unfold expandTransition in E. destruct (outcomes t) as [os|] eqn:Eos; cbn [lift res_bind] in E; [|done].
  revert E. apply (fold_result_inv (λ y, traced y ∧ ∀ k c, x_classes x !! k = Some c → x_classes y !! k = Some c)); [|done].
  intros z vt z' [b Hb]%list_elem_of_lookup [Hz Hgz] E. rewrite list_lookup_imap in Hb. destruct (os !! b) as [o|] eqn:Eb; [|done]. injection Hb as <-.
  destruct (succ c i b o t) as [c'|] eqn:Es; cbn [res_bind] in E; [|done]. injection E as <-.
  destruct (add_successor_traced z k c i t os b o c') as [H1 H2]; try done; [by apply Hgz|unfold expanded_of; by rewrite El|].
  split; [done|]. intros. by apply H2, Hgz.
Qed.

Lemma explore_traced stops maxClasses fuel x k g : traced x → explore scale ts env mode untimed sel stops maxClasses fuel x k = Ok (Some g) →
  ∃ x', traced x' ∧ g_classes g = x_classes x' ∧ g_transitions g = x_edges x' ∧ ∀ k c, x_classes x !! k = Some c → x_classes x' !! k = Some c.
Proof.
  revert x k. induction fuel as [|fuel IH]; intros x k Hx; cbn [explore]; [done|].
  destruct (x_classes x !! k) as [c|] eqn:Ek; [|intros [= <-]; by exists x]. case_bool; [intros [= <-]; by exists x|]. case_bool; [done|].
  destruct (expand_class _ _ _ _ _ _ _ _ _) as [x1|] eqn:Ex; cbn [res_bind]; [|done]. destruct (expand_class_traced k c x x1 Hx Ek Ex) as [H1 G1].
  intros E. destruct (IH x1 (S k) H1 E) as (x' & H2 & ? & ? & G2). exists x'. split_and!; [done|done|done|]. intros. by apply G2, G1.
Qed.

Lemma start_traced c : traced (start_exploration scale c).
Proof.
  unfold start_exploration. constructor; cbn [x_classes x_map x_edges length]; [done| | | |].
  - intros key j. cbn [map_get]. case_decide as Hk; [|done]. intros [= <-]. by exists c.
  - intros [|k] i e H; unfold edges_of in H; cbn in H; by apply not_elem_of_nil in H.
  - intros j Hj. lia.
  - intros row ->%list_elem_of_singleton. constructor.
Qed.

(** The graph of a construction. *)
Lemma build_traced isPassthrough stops m0 maxClasses g c0 : initialStateClass scale ts env mode untimed m0 = Ok c0 →
  scg_build scale ts env mode untimed isPassthrough sel stops m0 maxClasses = Ok (Some g) →
  ∃ x, traced x ∧ g_classes g = x_classes x ∧ g_transitions g = x_edges x ∧ x_classes x !! 0%nat = Some c0.
Proof.
  intros E0. unfold scg_build. destruct (lift_compile _) as [[]|]; cbn [res_bind]; [|done]. case_bool; [done|]. rewrite E0. cbn [res_bind].
  intros E. destruct (explore_traced _ _ _ _ _ _ (start_traced c0) E) as (x & ? & ? & ? & Hg). exists x. split_and!; [done..|]. by apply Hg.
Qed.

(** ** Edges as the queries see them *)

Lemma row_edges x k i es e : traced x → (i, es) ∈ default [] (x_edges x !! k) → e ∈ es → e ∈ edges_of x k i.
Proof.
  intros Hx Hin He. unfold edges_of. destruct (x_edges x !! k) as [row|] eqn:Er; [|by apply not_elem_of_nil in Hin]. cbn [default from_option id] in *.
  rewrite (elem_map_get i es row); [done| |done]. apply (tr_rows x Hx). by eapply list_elem_of_lookup_2.
Qed.

Lemma edges_row x k i e : e ∈ edges_of x k i → ∃ es, (i, es) ∈ default [] (x_edges x !! k) ∧ e ∈ es.
Proof.
  unfold edges_of. destruct (map_get i _) as [es|] eqn:E; cbn [default from_option id]; [|by intros ?%not_elem_of_nil].
  intros H. exists es. split; [|done]. by apply map_get_elem.
Qed.

Lemma graph_targets x k j : traced x → j ∈ targets (default [] (x_edges x !! k)) ↔ ∃ i e, e ∈ edges_of x k i ∧ be_target e = j.
Proof.
  intros Hx. unfold targets. rewrite list_elem_of_bind. split.
  - intros ([i es] & H1 & H2). cbn [snd] in H1. apply list_elem_of_fmap in H1 as (e & -> & He). exists i, e. split; [by eapply row_edges|done].
  - intros (i & e & He & <-). destruct (edges_row x k i e He) as (es & Hin & He'). exists (i, es). split; [|done]. cbn. by apply list_elem_of_fmap_2.
Qed.
End Paths.

(** ** Edges are firings *)

Section Edges.
Context {V : Type}.
Variables (scale : Z) (ts : list (transition V)) (env : list jsstr) (mode : environment_mode) (untimed : bool) (m0 : marking_state).
Hypothesis Hscale : 0 < scale.
Hypothesis Hnet : scg_net_ok ts env mode m0.
Implicit Types (c : state_class) (x : exploration) (t : transition V).

(** The states of [c'] are those reached from [c] by firing [i] with outcome [o], time passing before and after. *)
Definition firing_between c (i : nat) (o : outcome) c' : Prop := ∀ s', in_class c' s' ↔
  ∃ s s1 s2, in_class c s ∧ wait_step ts env mode s s1 ∧ fire_step scale ts env mode untimed i o s1 s2 ∧ wait_step ts env mode s2 s'.

Abbreviation class_fine := (class_ok scale ts env mode untimed m0).

(** The class of a firing and the class its key is found at have the same states. *)
Lemma fires_between sel x k i b j : (∀ c, c ∈ x_classes x → class_fine c) →
  (∀ c, class_fine c → ∀ i, i ∈ expanded_of sel c → i ∈ enabledTransitions c) → fires scale ts env mode untimed sel x k i b j →
  ∃ c t os o cj, x_classes x !! k = Some c ∧ ts !! i = Some t ∧ outcomes t = Ok os ∧ os !! b = Some o ∧ x_classes x !! j = Some cj ∧
    firing_between c i o cj.
Proof.
  intros Hall Hsel (c & t & os & o & c' & cj & Ec & Hi & Et & Eos & Eb & Es & Hfull & Ej & Ekey). exists c, t, os, o, cj. split_and!; try done.
  pose proof (Hall c ltac:(by eapply list_elem_of_lookup_2)) as Hc. pose proof (Hall cj ltac:(by eapply list_elem_of_lookup_2)) as Hcj.
  apply (Hsel c Hc) in Hi. destruct (successor_ok scale ts env mode untimed m0 Hscale Hnet c i b t os o Hc Hi Et Eos Eb) as (c1 & E1 & Hok & _).
  assert (c1 = c') as -> by congruence. specialize (Hok Hfull).
  assert (outcome_ok o) as Ho.
  { destruct (net_outcomes ts env mode m0 Hnet t) as (os' & Eos' & Hos); [by eapply list_elem_of_lookup_2|]. assert (os' = os) as -> by congruence.
    intros d Hd. destruct (Hos o d (list_elem_of_lookup_2 _ _ _ Eb) Hd) as [H _]. unfold deposit_ok in H. by destruct (od_deposit d). }
  destruct (successor_spec scale ts env mode untimed Hscale (no_mode _ _ _ _ Hnet) (net_inputs ts env mode m0 Hnet)
              (net_timings ts env mode m0 Hnet) c i b t o (co_wf _ _ _ _ _ _ c Hc) Hi Et Ho) as (c2 & E2 & _ & _ & _ & Hstates).
  assert (c2 = c') as -> by congruence. intros s'. rewrite <- Hstates. symmetry.
  apply (classKey_inj scale ts env mode Hscale (no_units _ _ _ _ Hnet) (no_distinct _ _ _ _ Hnet)); try done;
    first [apply Hok|apply Hcj|by symmetry].
Qed.

(** A firing from a state of an expanded class has its edge. *)
Lemma firing_edge x (g : scg) k c i t os b o s s' : graph_ok scale ts env mode untimed m0 None x g →
  (k < expandedCount g)%nat → x_classes x !! k = Some c → ts !! i = Some t → outcomes t = Ok os → os !! b = Some o →
  in_class c s → fire_step scale ts env mode untimed i o s s' → ∃ j, BranchEdge b j ∈ branchEdges g k i.
Proof.
  intros [Hx Ec Ed Hcov Hall] Hk Ek Et Eos Eb Hin Hf.
  assert (class_fine c) as Hc by (apply (xo_classes _ _ _ _ _ _ x Hx); by eapply list_elem_of_lookup_2).
  assert (i ∈ enabledTransitions c) as Hi.
  { apply (en_in scale ts env mode c (co_wf _ _ _ _ _ _ c Hc)). destruct Hf as (t' & _ & Hen & _). rewrite (enabled_ext ts env mode _ (ts_counts s)); [done|apply Hin]. }
  destruct (successor_ok scale ts env mode untimed m0 Hscale Hnet c i b t os o Hc Hi Et Eos Eb) as (c' & Es & Hok & Hstep).
  specialize (Hstep s s' Hin Hf). apply in_class_full in Hstep.
  destruct (Hcov k c i Hk Ek) with (t := t) (os := os) (b := b) (o := o) (c' := c') as (j & _ & Hj); try done.
  exists j. unfold branchEdges, outgoingBranchEdges. by rewrite Ed.
Qed.
End Edges.

(** C35: the state-class graph of a net of built transitions is exact, at every resolution of time,
    with and without timing, in every environment mode a graph supports. It is always built; every
    class of it is inhabited and all its states (a marking, and a time to fire for every enabled
    transition) are reached by runs of the timed net; and when it is complete every state of every
    run is in one of its classes. Its edges are the firings: an edge of a transition and a branch
    leads to a class whose states are exactly those reached from its source by firing the
    transition with the outcome of that branch, time passing before and after; and an expanded
    class has an edge for every transition and branch that fire from one of its states. It is
    incomplete only when it holds at least [maxClasses] classes, and a complete graph has expanded
    them all. Place names must be free of the separators of the deduplication key, and transition
    names distinct. *)
Theorem scg_build_exact {V} scale (ts : list (transition V)) env mode untimed isPassthrough m0 maxClasses :
  0 < scale → scg_net_ok ts env mode m0 → requireOutputProducingActions isPassthrough 0 ts = Ok () →
  ∃ g, scg_build scale ts env mode untimed isPassthrough None None m0 maxClasses = Ok (Some g) ∧
    (∀ c, c ∈ g_classes g → (∃ s, in_class c s) ∧ ∀ s, in_class c s → timed_reachable scale ts env mode untimed m0 s) ∧
    (isComplete g = true → ∀ s, timed_reachable scale ts env mode untimed m0 s → ∃ c, c ∈ g_classes g ∧ in_class c s) ∧
    (∀ k i e, e ∈ branchEdges g k i → ∃ c t os o cj, g_classes g !! k = Some c ∧ ts !! i = Some t ∧ outcomes t = Ok os ∧
       os !! be_branch e = Some o ∧ g_classes g !! be_target e = Some cj ∧ firing_between scale ts env mode untimed c i o cj) ∧
    (∀ k c i t os b o s s', (k < expandedCount g)%nat → g_classes g !! k = Some c → ts !! i = Some t → outcomes t = Ok os →
       os !! b = Some o → in_class c s → fire_step scale ts env mode untimed i o s s' → ∃ j, BranchEdge b j ∈ branchEdges g k i) ∧
    (isComplete g = true → (g_size g ≤ expandedCount g)%nat) ∧
    (isComplete g = false → maxClasses <= Z.of_nat (g_size g)).
Proof.
  intros Hs Hn Ha. destruct (build_spec scale ts env mode untimed m0 Hs Hn None (λ _ _, conj I (λ _ H, H)) isPassthrough Ha maxClasses) as (c0 & x & g & Ei & E & G & B & E0 & Hst).
  destruct (build_traced scale ts env mode untimed None isPassthrough None m0 maxClasses g c0 Ei E) as (y & T & Yc & Ye & _).
  pose proof G as [Hx Ec Ed Hcov Hall]. exists g. split; [done|]. split_and!.
  - intros c Hc. rewrite Ec in Hc. pose proof (xo_classes _ _ _ _ _ _ x Hx c Hc) as Hok. split; [by eapply class_inhabited|]. apply Hok.
  - intros Hcomp. by apply (graph_complete scale ts env mode untimed m0 Hs Hn None x g c0).
  - intros k i e He. unfold branchEdges, outgoingBranchEdges in He. rewrite Ye in He. apply (tr_edge _ _ _ _ _ _ y T) in He.
    rewrite Yc. eapply (fires_between scale ts env mode untimed m0 Hs Hn None); [|by intros c _ i'|exact He].
    intros c Hc. rewrite <- Yc, Ec in Hc. by apply (xo_classes _ _ _ _ _ _ x Hx).
  - intros k c i t os b o s s' Hk Ek Et Eos Eb Hin Hf. rewrite Ec in Ek.
    eapply (firing_edge scale ts env mode untimed m0 Hs Hn x g k c i t os b o s s'); done.
  - intros Hcomp. unfold g_size. rewrite Ec. by apply Hall.
  - exact B.
Qed.

(** The graph of the example: the initial marking, the two branches of the action, and the timeout
    that forwards both tokens, one edge for each. *)
Lemma scg_build_exact_witness :
  ∃ g, scg_build 1 example_net [] Ignore false (λ _, false) None None example_initial 10 = Ok (Some g) ∧
    g_size g = 4%nat ∧ isComplete g = true ∧ isReachable g (MarkingState [(js "retry", 2)] [(js "retry", Place 3 (js "retry"))]) = true ∧
    (∀ s, timed_reachable 1 example_net [] Ignore false example_initial s → ∃ c, c ∈ g_classes g ∧ in_class c s) ∧
    ∃ c o cj, g_classes g !! 0%nat = Some c ∧ g_classes g !! 1%nat = Some cj ∧ firing_between 1 example_net [] Ignore false c 0 o cj.
Proof.
  destruct (scg_build_exact 1 example_net [] Ignore false (λ _, false) example_initial 10) as (g & E & _ & Hall & Hed & _).
  - lia.
  - exact example_net_ok.
  - reflexivity.
  - exists g. split; [exact E|]. vm_compute in E. injection E as <-. split; [reflexivity|]. split; [reflexivity|]. split; [reflexivity|].
    split; [apply Hall; reflexivity|]. destruct (Hed 0%nat 0%nat (BranchEdge 0 1)) as (c & t & os & o & cj & E1 & _ & _ & _ & E2 & H); [left|].
    exists c, o, cj. split; [exact E1|]. split; [exact E2|exact H].
Defined.
