(* ===== verification/ScgVerifier.v ===== *)
(** * Verification by enumeration

    [src/typescript/src/verification/scg-verifier.ts]: build the state-class graph of an untimed net
    and read the verdict, and the path to a violation, off it. A class is its position; a [Map] or
    [Set] keyed on classes is keyed on positions. *)
From S2P Require Import Prelude.
From S2P Require Import Net.
From S2P Require Import Transition.
From S2P Require Import PetriNet.
From S2P Require Import CompiledNet.
From S2P Require Import MarkingState.
From S2P Require Import Outcomes.
From S2P Require Import StateClass.
From S2P Require Import SmtProperty.
From S2P Require Import StubbornSets.
#[local] Open Scope Z_scope.

Inductive verdict :=
| Proven (method : jsstr) (inductiveInvariant : option jsstr)
| Violated
| Unknown (reason : jsstr).

Inductive scg_outcome :=
| Decided (v : verdict) (trace : list marking_state) (transitions : list jsstr) (classCount : nat) (truncated : bool)
| Truncated (classCount : nat).

Inductive route_error :=
| RouteGraph (e : scg_error)
| RouteProperty (e : property_error).
Definition lift_graph {A} (r : result scg_error A) : result route_error A := match r with Ok a => Ok a | Err e => Err (RouteGraph e) end.
Definition lift_property {A} (r : result property_error A) : result route_error A := match r with Ok a => Ok a | Err e => Err (RouteProperty e) end.

Definition isUntimed {V} (ts : list (transition V)) : bool := forallb (λ t, match t_timing t with TimingImmediate => true | _ => false end) ts.

(** ** The shortest path *)

Record search := Search {
  s_parent : list (nat * nat);
  s_via : list (nat * jsstr);
  s_seen : list nat;
  s_queue : list nat
}.

Section Path.
Variables (g : scg) (name : nat → jsstr).

Definition visit_edge (current i : nat) (s : search) (e : branch_edge) : search :=
  if bool_decide (be_target e ∈ s_seen s) then s
  else Search (map_set (be_target e) current (s_parent s)) (map_set (be_target e) (name i) (s_via s))
              (set_add (be_target e) (s_seen s)) (s_queue s ++ [be_target e]).

Definition visit_class (current : nat) (s : search) : search :=
  foldl (λ s y, foldl (visit_edge current y.1) s y.2) s (outgoingBranchEdges g current).

(** The loop over the queue; [None] when the fuel is spent. *)
Fixpoint search_path (target : nat) (fuel : nat) (s : search) (head : nat) : option search :=
  match fuel with
  | O => None
  | S fuel =>
      match s_queue s !! head with
      | None => Some s
      | Some current => if (current =? target)%nat then Some s else search_path target fuel (visit_class current s) (S head)
      end
  end.

(** The classes from [cur] back to one without a parent. *)
Fixpoint walk_back (parent : list (nat * nat)) (fuel : nat) (cur : nat) : option (list nat) :=
  match fuel with
  | O => None
  | S fuel => match map_get cur parent with
              | None => Some [cur]
              | Some p => chain ← walk_back parent fuel p; Some (cur :: chain)
              end
  end.

Definition marking_at (k : nat) : marking_state := from_option sc_marking ms_empty (g_classes g !! k).

Definition counterexamplePath (target : nat) : option (list marking_state * list jsstr) :=
  s ← search_path target (S (g_size g)) (Search [] [] [0%nat] [0%nat]) 0;
  chain ← walk_back (s_parent s) (S (g_size g)) target;
  let chain := reverse chain in
  Some (marking_at <$> chain, (λ k, default [] (map_get k (s_via s))) <$> tail chain).
End Path.

(** ** The decision *)

Definition enumeration_method : jsstr := js "state-space enumeration (VER-017)".

Section Decide.
Context {V : Type}.
Variable ts : list (transition V).

Definition scg_quiescent (g : scg) (reapable : list jsstr) (i : nat) : bool :=
  (i <? expandedCount g)%nat &&
  (bool_decide (length (scg_successors g i) = 0)%nat
   || negb (bool_decide (length reapable = 0)%nat)
      && forallb (λ t, bool_decide (name_at ts t ∈ reapable)) (from_option enabledTransitions [] (g_classes g !! i))).

(** [None] when the fuel of the path search is spent. *)
Definition decideOverStateSpace (g : scg) (prop : smt_property) (sinkPlaces : list place) (conditionalSinks : list conditional_sinks)
    (asPrefix : bool) (reapable : list jsstr) : result property_error (option scg_outcome) :=
  if isNameAlignment prop then Ok (Some (Decided (Unknown (routeBOnlyReason prop)) [] [] (g_size g) false))
  else
    let closed := isComplete g && negb asPrefix in
    let* violating := decideOverClasses (ClassView (g_size g) (marking_at g) (scg_quiescent g reapable) None) prop sinkPlaces conditionalSinks in
    match violating with
    | Some k => Ok (y ← counterexamplePath g (name_at ts) k; Some (Decided Violated y.1 y.2 (g_size g) (negb closed)))
    | None => Ok (Some (if closed then Decided (Proven enumeration_method None) [] [] (g_size g) false else Truncated (g_size g)))
    end.

(** A selection of [StubbornSets] as the selector of a construction; one without fuel selects nothing. *)
Definition stubborn_selector (ss : stubborn_sets) (m : marking_state) (enabled : list nat) : result scg_error (list nat) :=
  let* r := select_stubborn ss m enabled in Ok (default [] r).

(** When the verifier reads a reduced graph: for a quiescence property, on a net without a drained forward. *)
Definition stubbornEnumeration (partialOrderReduction : bool) (prop : smt_property) : result outcome_error bool :=
  match prop with
  | DeadlockFree | TerminatesAtSink | JoinedOrDeadLettered _ | QuiescentCount _ _ _ _ =>
      if partialOrderReduction then let* f := drainedForward ts in Ok (match f with None => true | Some _ => false end) else Ok false
  | _ => Ok false
  end.

Definition buildStateSpace (scale : Z) (isPassthrough : nat → bool) (initial : marking_state) (maxClasses : Z) (stops : option (nat → bool)) (stubborn : bool)
    : result scg_error (option scg) :=
  let* sel := if stubborn then let* ss := stubborn_new ts in Ok (Some (stubborn_selector ss)) else Ok None in
  scg_build scale ts [] Ignore false isPassthrough sel stops initial maxClasses.

Definition verifyViaStateClassGraph (scale : Z) (isPassthrough : nat → bool) (initial : marking_state) (prop : smt_property) (sinkPlaces : list place)
    (maxClasses : Z) (conditionalSinks : list conditional_sinks) (stops : option (nat → bool)) (stubborn : bool) : result route_error (option scg_outcome) :=
  let* g := lift_graph (buildStateSpace scale isPassthrough initial maxClasses stops stubborn) in
  match g with
  | None => Ok None
  | Some g => lift_property (decideOverStateSpace g prop sinkPlaces conditionalSinks false [])
  end.
End Decide.

(** * The path search finds a shortest path

    The breadth-first search of [counterexamplePath] ([ScgVerifier]): its queue is sorted by the
    distance from the first class, the edges into it form a tree, and a class the graph reaches is
    found along a path no longer than any other. *)
#[local] Open Scope nat_scope.

Section Bfs.
Variables (g : scg) (name : nat → jsstr).
Implicit Types (s : search) (d : nat → nat).

Definition edge (k i j : nat) : Prop := ∃ es e, (i, es) ∈ outgoingBranchEdges g k ∧ e ∈ es ∧ be_target e = j.

(** Paths of the graph, with their length. *)
Inductive gpath (k : nat) : nat → nat → Prop :=
| gp_nil : gpath k 0 k
| gp_snoc n i j j' : gpath k n j → edge j i j' → gpath k (S n) j'.

Hypothesis Hbound : ∀ k i j, edge k i j → j < g_size g.
Hypothesis Hroot : 0 < g_size g.

(** The search tree, its first [h] classes being expanded; [d] is the distance from the root. *)
Record tree s (h : nat) d (D : nat) : Prop := {
  t_seen : s_seen s = s_queue s;
  t_nodup : NoDup (s_queue s);
  t_root : s_queue s !! 0 = Some 0 ∧ d 0 = 0 ∧ map_get 0 (s_parent s) = None;
  t_parent : ∀ q v, 0 < q → s_queue s !! q = Some v → ∃ p u i, p < q ∧ p < h ∧ s_queue s !! p = Some u ∧
    map_get v (s_parent s) = Some u ∧ map_get v (s_via s) = Some (name i) ∧ edge u i v ∧ d v = S (d u);
  t_sorted : ∀ p q u v, p ≤ q → s_queue s !! p = Some u → s_queue s !! q = Some v → d u ≤ d v;
  t_max : ∀ v, v ∈ s_queue s → d v ≤ S D;
  t_bound : ∀ v, v ∈ s_queue s → v < g_size g
}.

Definition closed_upto s (h : nat) d : Prop :=
  ∀ p u i v, p < h → s_queue s !! p = Some u → edge u i v → v ∈ s_queue s ∧ d v ≤ S (d u).

Definition grown s d s' d' : Prop := (∃ l, s_queue s' = s_queue s ++ l) ∧ ∀ v, v ∈ s_queue s → d' v = d v.

Lemma grown_refl s d : grown s d s d.
Proof. split; [exists []; by rewrite app_nil_r|done]. Qed.
Lemma grown_trans s1 d1 s2 d2 s3 d3 : grown s1 d1 s2 d2 → grown s2 d2 s3 d3 → grown s1 d1 s3 d3.
Proof.
  intros [[l1 E1] H1] [[l2 E2] H2]. split; [exists (l1 ++ l2); by rewrite E2, E1, <- app_assoc|].
  intros v Hv. rewrite H2, H1; [done|done|]. rewrite E1. apply elem_of_app. by left.
Qed.
Lemma grown_lookup s d s' d' p u : grown s d s' d' → s_queue s !! p = Some u → s_queue s' !! p = Some u ∧ d' u = d u.
Proof. intros [[l E] H] Hp. split; [rewrite E; by apply lookup_app_l_Some|]. apply H. by eapply list_elem_of_lookup_2. Qed.
Lemma grown_elem s d s' d' v : grown s d s' d' → v ∈ s_queue s → v ∈ s_queue s' ∧ d' v = d v.
Proof. intros Hg [p Hp]%list_elem_of_lookup. destruct (grown_lookup _ _ _ _ _ _ Hg Hp). split; [by eapply list_elem_of_lookup_2|done]. Qed.

Lemma visit_edge_tree s h d current i e : tree s (S h) d (d current) → s_queue s !! h = Some current → edge current i (be_target e) →
  let s' := visit_edge name current i s e in ∃ d', tree s' (S h) d' (d current) ∧ grown s d s' d' ∧ be_target e ∈ s_queue s'.
Proof.
  intros T Hcur He. cbn zeta. unfold visit_edge. case_bool_decide as Hin.
  { exists d. rewrite (t_seen _ _ _ _ T) in Hin. split_and!; [done|apply grown_refl|done]. }
  set (v := be_target e) in *. set (s' := Search _ _ _ _). rewrite (t_seen _ _ _ _ T) in Hin.
  assert (∃ d' : nat → nat, d' v = S (d current) ∧ ∀ x, x ≠ v → d' x = d x) as (d' & Dv & Do).
  { exists (λ x, if decide (x = v) then S (d current) else d x). split; [by rewrite decide_True|]. intros x Hx. by rewrite decide_False. }
  exists d'. assert (grown s d s' d') as G by (split; [by exists [v]|]; intros x Hx; apply Do; by intros ->).
  assert (v ∈ s_queue s') as Hv by (apply elem_of_app; right; left).
  pose proof (lookup_lt_Some _ _ _ Hcur) as Hlt. destruct (t_root _ _ _ _ T) as (R1 & R2 & R3).
  assert (v ≠ 0) as Hv0 by (intros E; apply Hin; rewrite E; by eapply list_elem_of_lookup_2).
  split; [|done]. constructor.
  - cbn [s_seen s_queue s']. unfold set_add. rewrite (t_seen _ _ _ _ T), decide_False by done. done.
  - cbn [s_queue s']. apply NoDup_app. split_and!; [apply T|intros x Hx ->%list_elem_of_singleton; done|apply NoDup_singleton].
  - destruct (grown_lookup _ _ _ _ _ _ G R1) as [H1 H2]. split_and!; [done|congruence|]. cbn [s_parent s']. by rewrite map_get_set, decide_False.
  - intros q x Hq Hx. cbn [s_queue s'] in Hx. apply lookup_snoc_Some in Hx as [[Hlq Hx]|[-> <-]].
    + destruct (t_parent _ _ _ _ T q x Hq Hx) as (p & u & i' & ? & ? & Hu & Ep & Ev & Ee & Ed). exists p, u, i'.
      destruct (grown_lookup _ _ _ _ _ _ G Hu) as [Hu' Du]. destruct (grown_lookup _ _ _ _ _ _ G Hx) as [_ Dx].
      assert (x ≠ v) as Hxv by (intros ->; apply Hin; by eapply list_elem_of_lookup_2).
      cbn [s_parent s_via s']. rewrite !map_get_set, !(decide_False (P := x = v)) by done. split_and!; try done. congruence.
    + exists h, current, i. cbn [s_parent s_via s' s_queue]. rewrite !map_get_set, !decide_True by done.
      destruct (grown_lookup _ _ _ _ _ _ G Hcur) as [Hc' Dc]. split_and!; try done; [lia|congruence].
  - intros p q x y Hpq Hx Hy. cbn [s_queue s'] in Hx, Hy. apply lookup_snoc_Some in Hy as [[Hlq Hy]|[-> <-]].
    + rewrite lookup_app_l in Hx by lia. rewrite (proj2 (grown_lookup _ _ _ _ _ _ G Hx)), (proj2 (grown_lookup _ _ _ _ _ _ G Hy)). exact (t_sorted _ _ _ _ T p q x y Hpq Hx Hy).
    + rewrite Dv. apply lookup_snoc_Some in Hx as [[_ Hx]|[_ <-]]; [|by rewrite Dv].
      rewrite (proj2 (grown_lookup _ _ _ _ _ _ G Hx)). apply (t_max _ _ _ _ T). by eapply list_elem_of_lookup_2.
  - intros x [Hx| ->%list_elem_of_singleton]%elem_of_app; [|by rewrite Dv].
    rewrite (proj2 (grown_elem _ _ _ _ _ G Hx)). by apply (t_max _ _ _ _ T).
  - intros x [Hx| ->%list_elem_of_singleton]%elem_of_app; [by apply (t_bound _ _ _ _ T)|]. by eapply Hbound.
Qed.

Lemma visit_edges_tree h current i es : (∀ e, e ∈ es → edge current i (be_target e)) → ∀ s d, tree s (S h) d (d current) → s_queue s !! h = Some current →
  let s' := foldl (visit_edge name current i) s es in
  ∃ d', tree s' (S h) d' (d' current) ∧ grown s d s' d' ∧ ∀ e, e ∈ es → be_target e ∈ s_queue s'.
Proof.
  intros Hes. induction es as [|e es IH]; intros s d T Hcur; cbn [foldl].
  { exists d. split_and!; [done|apply grown_refl|by intros ? ?%not_elem_of_nil]. }
  destruct (visit_edge_tree s h d current i e T Hcur (Hes e ltac:(left))) as (d1 & T1 & G1 & H1).
  destruct (grown_lookup _ _ _ _ _ _ G1 Hcur) as [Hcur1 Dcur]. rewrite <- Dcur in T1.
  destruct (IH ltac:(intros; apply Hes; by right) _ d1 T1 Hcur1) as (d2 & T2 & G2 & H2). exists d2. split_and!; [done|by eapply grown_trans|].
  intros e' [->|He']%elem_of_cons; [by eapply grown_elem|by apply H2].
Qed.

Lemma visit_rows_tree h current rows : (∀ i es e, (i, es) ∈ rows → e ∈ es → edge current i (be_target e)) →
  ∀ s d, tree s (S h) d (d current) → s_queue s !! h = Some current →
  let s' := foldl (λ s y, foldl (visit_edge name current y.1) s y.2) s rows in
  ∃ d', tree s' (S h) d' (d' current) ∧ grown s d s' d' ∧ ∀ i es e, (i, es) ∈ rows → e ∈ es → be_target e ∈ s_queue s'.
Proof.
  induction rows as [|[i es] rows IH]; intros Hr s d T Hcur; cbn [foldl fst snd].
  { exists d. split_and!; [done|apply grown_refl|by intros ? ? ? ?%not_elem_of_nil]. }
  destruct (visit_edges_tree h current i es) with (s := s) (d := d) as (d1 & T1 & G1 & H1); [intros; by eapply Hr; [left|]|done|done|].
  destruct (grown_lookup _ _ _ _ _ _ G1 Hcur) as [Hcur1 _].
  destruct (IH ltac:(intros; eapply Hr; [by right|done]) _ d1 T1 Hcur1) as (d2 & T2 & G2 & H2). exists d2. split_and!; [done|by eapply grown_trans|].
  intros i' es' e [[= -> ->]|Hin]%elem_of_cons He; [by eapply grown_elem; [exact G2|apply H1]|by eapply H2].
Qed.

(** The loop invariant before class [h] of the queue. *)
Definition ready s (h : nat) (target : nat) d : Prop :=
  (∃ D, tree s h d D) ∧ closed_upto s h d ∧ h ≤ length (s_queue s) ∧ (∀ p, p < h → s_queue s !! p ≠ Some target) ∧
  ∀ u v, s_queue s !! h = Some u → v ∈ s_queue s → d v ≤ S (d u).

Lemma queue_bound s h d D : tree s h d D → length (s_queue s) ≤ g_size g.
Proof.
  intros T. rewrite <- (length_seq (g_size g) 0). apply submseteq_length, NoDup_submseteq; [apply T|].
  intros v Hv%(t_bound _ _ _ _ T). apply elem_of_seq. lia.
Qed.

Lemma search_steps target fuel : ∀ s h d, ready s h target d → g_size g < fuel + h →
  ∃ s' h' d', search_path g name target fuel s h = Some s' ∧ ready s' h' target d' ∧
    (s_queue s' !! h' = Some target ∨ h' = length (s_queue s')).
Proof.
  induction fuel as [|fuel IH]; intros s h d R Hf.
  { destruct R as ([D T] & _ & Hh & _). apply queue_bound in T. lia. }
  cbn [search_path]. destruct (s_queue s !! h) as [current|] eqn:Hcur.
  2:{ exists s, h, d. split_and!; [done|done|]. right. apply lookup_ge_None in Hcur. destruct R as (_ & _ & Hh & _). lia. }
  destruct (Nat.eqb_spec current target) as [->|Hne]; [exists s, h, d; split_and!; [done|done|by left]|].
  destruct R as ([D T] & Hc & Hh & Hn & Hmax).
  assert (tree s (S h) d (d current)) as T1.
  { destruct T as [T1 T2 T3 T4 T5 T6 T7]. constructor; try done.
    - intros q v Hq Hv. destruct (T4 q v Hq Hv) as (p & u & i & ? & ? & ?). exists p, u, i. split_and!; [done|lia|naive_solver..].
    - intros v Hv. by apply Hmax. }
  destruct (visit_rows_tree h current (outgoingBranchEdges g current)) with (s := s) (d := d) as (d' & T' & G & Hv); [|done|done|].
  { intros i es e ? ?. by exists es, e. }
  change (foldl _ s (outgoingBranchEdges g current)) with (visit_class g name current s) in *. set (s' := visit_class g name current s) in *.
  destruct (grown_lookup _ _ _ _ _ _ G Hcur) as [Hcur' Dcur]. pose proof (lookup_lt_Some _ _ _ Hcur') as Hlt.
  apply IH with (d := d'); [|lia]. split_and!; [by eexists| | | |].
  - intros p u i v Hp Hu Hed. destruct (decide (p = h)) as [->|Hph].
    + assert (u = current) as -> by congruence. destruct Hed as (es & e & H1 & H2 & <-).
      specialize (Hv i es e H1 H2). split; [done|]. by apply (t_max _ _ _ _ T').
    + assert (s_queue s !! p = Some u) as Hu0.
      { destruct G as [[l E] _]. rewrite E in Hu. rewrite lookup_app_l in Hu; [done|]. apply lookup_lt_Some in Hcur. lia. }
      destruct (grown_lookup _ _ _ _ _ _ G Hu0) as [_ ->]. destruct (Hc p u i v ltac:(lia) Hu0 Hed) as [Hin Hd].
      destruct (grown_elem _ _ _ _ _ G Hin) as [? ->]. done.
  - lia.
  - intros p Hp E. destruct (decide (p = h)) as [->|Hph]; [congruence|]. apply (Hn p ltac:(lia)).
    destruct G as [[l El] _]. rewrite El in E. rewrite lookup_app_l in E; [done|]. apply lookup_lt_Some in Hcur. lia.
  - intros u v Hu Hv'. etrans; [by apply (t_max _ _ _ _ T')|]. apply le_n_S. by apply (t_sorted _ _ _ _ T' h (S h)); [lia| |].
Qed.

Lemma start_ready target : ready (Search [] [] [0] [0]) 0 target (λ _, 0).
Proof.
  split_and!; [exists 0; constructor; cbn [s_seen s_queue s_parent]| | | |]; try done.
  - apply NoDup_singleton.
  - intros q v Hq Hv. apply list_lookup_singleton_Some in Hv as [-> _]. lia.
  - intros. lia.
  - intros v ->%list_elem_of_singleton. done.
  - intros p u i v Hp. lia.
  - cbn. lia.
  - intros p Hp. lia.
  - intros. lia.
Qed.

Lemma search_found target n : gpath 0 n target →
  ∃ s h d, search_path g name target (S (g_size g)) (Search [] [] [0] [0]) 0 = Some s ∧ (∃ D, tree s h d D) ∧
    s_queue s !! h = Some target ∧ ∀ n, gpath 0 n target → d target ≤ n.
Proof.
  intros Hp. destruct (search_steps target (S (g_size g)) _ 0 _ (start_ready target) ltac:(lia)) as (s & h & d & E & R & Hend).
  destruct R as ([D T] & Hc & Hh & Hn & Hmax). destruct (t_root _ _ _ _ T) as (R1 & R2 & R3).
  assert (s_queue s !! h = Some target) as Ht.
  { destruct Hend as [|Hend]; [done|]. exfalso. assert (∀ n v, gpath 0 n v → v ∈ s_queue s) as Hall.
    { induction 1 as [|m i j j' _ IH He]; [by eapply list_elem_of_lookup_2|]. apply list_elem_of_lookup in IH as [p Hj].
      eapply Hc; [|exact Hj|exact He]. apply lookup_lt_Some in Hj. lia. }
    destruct (proj1 (list_elem_of_lookup _ _) (Hall _ _ Hp)) as [p Hp']. apply (Hn p); [|done]. apply lookup_lt_Some in Hp'. lia. }
  exists s, h, d. split_and!; [done|by exists D|done|]. intros m Hm.
  assert (∀ m v, gpath 0 m v → (v ∈ s_queue s ∧ d v ≤ m) ∨ d target ≤ m) as Hall.
  { induction 1 as [|k i j j' _ IH He]; [left; split; [by eapply list_elem_of_lookup_2|lia]|]. destruct IH as [[Hj Hd]|]; [|right; lia].
    apply list_elem_of_lookup in Hj as [p Hj]. destruct (decide (p < h)) as [Hlt|Hge].
    - left. destruct (Hc p j i j' Hlt Hj He). split; [done|lia].
    - right. pose proof (t_sorted _ _ _ _ T h p target j ltac:(lia) Ht Hj). lia. }
  destruct (Hall m target Hm) as [[_ ?]|]; done.
Qed.

(** ** The chain of parents *)

Lemma distance_bound s h d D : tree s h d D → ∀ q v, s_queue s !! q = Some v → d v ≤ q.
Proof.
  intros T q. induction q as [q IH] using (well_founded_induction lt_wf). intros v Hv. destruct (decide (q = 0)) as [->|Hq].
  - destruct (t_root _ _ _ _ T) as (R1 & R2 & _). assert (v = 0) as -> by congruence. lia.
  - destruct (t_parent _ _ _ _ T q v ltac:(lia) Hv) as (p & u & i & Hpq & _ & Hu & _ & _ & _ & Ed). specialize (IH p Hpq u Hu). lia.
Qed.

(** A list of classes along edges, labelled by the names the search recorded. *)
Definition chain_ok s (ids : list nat) : Prop := head ids = Some 0 ∧
  ∀ j a b, ids !! j = Some a → ids !! S j = Some b → ∃ i, map_get b (s_via s) = Some (name i) ∧ edge a i b.

Lemma walk_back_chain s h d D : tree s h d D → ∀ fuel q v, s_queue s !! q = Some v → d v < fuel →
  ∃ chain, walk_back (s_parent s) fuel v = Some chain ∧ length chain = S (d v) ∧ last (reverse chain) = Some v ∧ chain_ok s (reverse chain).
Proof.
  intros T. destruct (t_root _ _ _ _ T) as (R1 & R2 & R3). induction fuel as [|fuel IH]; intros q v Hv Hd; [lia|]. cbn [walk_back].
  destruct (decide (q = 0)) as [->|Hq].
  { assert (v = 0) as -> by congruence. rewrite R3. exists [0]. split_and!; [done|by rewrite R2|done|]. split; [done|].
    intros [|j] a b H1 H2; [done|]. destruct j; done. }
  destruct (t_parent _ _ _ _ T q v ltac:(lia) Hv) as (p & u & i & Hpq & _ & Hu & Ep & Ev & Ee & Ed). rewrite Ep.
  destruct (IH p u Hu ltac:(lia)) as (chain & -> & Hl & Hlast & Hhead & Hedges). cbn [mbind option_bind]. exists (v :: chain). split_and!; [done|cbn; lia| |].
  - rewrite reverse_cons, last_snoc. done.
  - rewrite reverse_cons. split; [by destruct (reverse chain)|]. intros j a b Ha Hb. apply lookup_snoc_Some in Hb as [[_ Hb]|[Ej <-]].
    + apply (Hedges j); [|done]. apply lookup_lt_Some in Hb. by rewrite lookup_app_l in Ha by lia.
    + rewrite lookup_app_l in Ha by lia. rewrite last_lookup, <- Ej in Hlast. cbn in Hlast. assert (a = u) as -> by congruence. by exists i.
Qed.

(** The path to a class the graph reaches: it starts at the first class, follows edges with the
    names of their transitions, ends at the class, and no other path is shorter. *)
Lemma counterexamplePath_spec target n : gpath 0 n target →
  ∃ ids names, counterexamplePath g name target = Some (marking_at g <$> ids, names) ∧
    head ids = Some 0 ∧ last ids = Some target ∧ length ids = S (length names) ∧
    (∀ j a b, ids !! j = Some a → ids !! S j = Some b → ∃ i, names !! j = Some (name i) ∧ edge a i b) ∧
    ∀ n, gpath 0 n target → length names ≤ n.
Proof.
  intros Hp. destruct (search_found target n Hp) as (s & h & d & E & [D T] & Ht & Hmin). unfold counterexamplePath. rewrite E. cbn [mbind option_bind].
  pose proof (distance_bound s h d D T h target Ht) as Hd. pose proof (queue_bound s h d D T) as Hq. pose proof (lookup_lt_Some _ _ _ Ht) as Hlt.
  destruct (walk_back_chain s h d D T (S (g_size g)) h target Ht ltac:(lia)) as (chain & -> & Hl & Hlast & Hhead & Hedges). cbn [mbind option_bind].
  eexists _, _. split; [reflexivity|]. assert (length (reverse chain) = S (d target)) as Hlr by (by rewrite length_reverse).
  destruct (reverse chain) as [|a ids] eqn:Er; [discriminate Hlr|]. cbn [length tail] in *. split_and!; [done|done|by rewrite length_fmap| |].
  - intros j x y Hx Hy. destruct (Hedges j x y Hx Hy) as (i & Ei & He). exists i. split; [|done].
    change (ids !! j = Some y) in Hy. rewrite list_lookup_fmap, Hy. cbn. by rewrite Ei.
  - rewrite length_fmap. injection Hlr as ->. done.
Qed.
End Bfs.
