(* ===== verification/StubbornRuns.v ===== *)
(** * Stubborn sets keep the dead markings

    The token game on counts, independence of transitions by their footprints, and the theorem
    behind [StubbornSets]: from a marking with a stubborn set that has an enabled member, every run
    to a dead marking can be reordered to start with a member of the set. *)
From S2P Require Import Prelude.
From S2P Require Import Net.
From S2P Require Import Transition.
From S2P Require Import MarkingState.
From S2P Require Import Outcomes.
From S2P Require Import StateClass.
From S2P Require Import ClassSteps.
From S2P Require Import Agreement.
From S2P Require Import StubbornSets.
#[local] Open Scope Z_scope.

(** ** Footprints of a transition *)

Section Footprints.
Context {V : Type}.
Implicit Types (t u : transition V) (c : jsstr → Z) (o : outcome).

Abbreviation enabled t c := (enabled_counts [] Ignore t c).
Abbreviation fired t o c := (fired_counts [] Ignore t o c).
Abbreviation input_ns t := ((λ s, place_name (in_place s)) <$> inputSpecs t).
Abbreviation deposit_ns o := ((λ d, place_name (od_place d)) <$> deposits o).

Definition tests t (n : jsstr) : Prop := n ∈ input_ns t ∨ n ∈ place_name <$> reads t ∨ n ∈ place_name <$> inhibitors t.
Definition increases t (n : jsstr) : Prop := ∃ os o, outcomes t = Ok os ∧ o ∈ os ∧ n ∈ deposit_ns o.
Definition decreases t (n : jsstr) : Prop := n ∈ input_ns t ∨ n ∈ place_name <$> resets t.
Definition writes t (n : jsstr) : Prop := decreases t n ∨ increases t n.
Definition overwrites t (n : jsstr) : Prop := (∃ s, s ∈ inputSpecs t ∧ drains_input s = true ∧ place_name (in_place s) = n) ∨ n ∈ place_name <$> resets t.

Record independent t u : Prop := {
  ind_wt : ∀ n, writes t n → ¬ tests u n;
  ind_tw : ∀ n, tests t n → ¬ writes u n;
  ind_ow : ∀ n, overwrites t n → ¬ writes u n;
  ind_wo : ∀ n, writes t n → ¬ overwrites u n
}.

(** The places one firing with outcome [o] can change. *)
Definition touched t o (n : jsstr) : Prop := decreases t n ∨ n ∈ deposit_ns o.

#[local] Instance touched_dec t o n : Decision (touched t o n).
Proof. unfold touched, decreases. solve_decision. Defined.

Lemma touched_writes t os o n : outcomes t = Ok os → o ∈ os → touched t o n → writes t n.
Proof. intros E Ho [H|H]; [by left|]. right. by exists os, o. Qed.

Lemma spec_of_input t n s : spec_of t n = Some s → n ∈ input_ns t.
Proof. intros [Hs <-]%spec_of_Some. by apply (list_elem_of_fmap_2 (λ s, place_name (in_place s))). Qed.

Lemma deposited_elsewhere drained o n : n ∉ deposit_ns o → deposited drained o n = 0.
Proof.
  unfold deposited. induction (deposits o) as [|d ds IH]; cbn [total_deposit foldr]; [done|]. rewrite fmap_cons, not_elem_of_cons. intros [H1 H2].
  rewrite decide_False by done. unfold total_deposit in IH. rewrite IH by done. lia.
Qed.

Lemma untouched t o c n : ¬ touched t o n → fired t o c n = c n.
Proof.
  intros H. unfold touched, decreases in H. unfold fired_counts, intermediate_counts. rewrite decide_False by tauto.
  rewrite deposited_elsewhere by tauto. unfold removed. destruct (spec_of t n) eqn:E; [|lia]. destruct H. left. left. by eapply spec_of_input.
Qed.

(** A firing only adds where it does not decrease. *)
Lemma only_adds t o c n : ¬ decreases t n → fired t o c n = c n + deposited (drained_counts [] Ignore t c) o n.
Proof.
  intros H. unfold decreases in H. unfold fired_counts, intermediate_counts. rewrite decide_False by tauto.
  unfold removed. destruct (spec_of t n) eqn:E; [|lia]. destruct H. left. by eapply spec_of_input.
Qed.

Lemma enabled_same t c c' : (∀ n, tests t n → c n = c' n) → enabled t c = enabled t c'.
Proof.
  intros H. unfold enabled_counts. f_equal; [f_equal|]; apply Bool.eq_iff_eq_true; rewrite !forallb_elem;
    (split; intros Hx x Hin; specialize (Hx x Hin)); rewrite ?can_take_none in *.
  1,2: assert (tests t (place_name (in_place x))) as Ht by (left; by apply (list_elem_of_fmap_2 (λ s, place_name (in_place s)))); by rewrite (H _ Ht) in *.
  1,2: assert (tests t (place_name x)) as Ht by (right; left; by apply list_elem_of_fmap_2); by rewrite (H _ Ht) in *.
  1,2: assert (tests t (place_name x)) as Ht by (right; right; by apply list_elem_of_fmap_2); by rewrite (H _ Ht) in *.
Qed.

Lemma drained_agree t c c' p : (∀ n, tests t n → c n = c' n) → drained_counts [] Ignore t c p = drained_counts [] Ignore t c' p.
Proof.
  intros H. unfold drained_counts. destruct (spec_of t (place_name p)) as [s|] eqn:E; [|done].
  by rewrite (H (place_name p)) by (left; by eapply spec_of_input).
Qed.

Lemma fired_agree t o c c' n : (∀ n, tests t n → c n = c' n) → c n = c' n → fired t o c n = fired t o c' n.
Proof.
  intros H Hn. unfold fired_counts. rewrite (deposited_ext _ (drained_counts [] Ignore t c') o n) by (intros p; by apply drained_agree).
  f_equal. unfold intermediate_counts, removed. by rewrite Hn.
Qed.

(** Independent transitions commute, wherever they fire. *)
Lemma independent_commute t u ost osu o o' c n : independent t u → outcomes t = Ok ost → o ∈ ost → outcomes u = Ok osu → o' ∈ osu →
  fired u o' (fired t o c) n = fired t o (fired u o' c) n.
Proof.
  intros [I1 I2 I3 I4] Et Ho Eu Ho'.
  assert (∀ m, tests u m → fired t o c m = c m) as Htu.
  { intros m Hm. apply untouched. intros Hm'. by apply (I1 m); [eapply touched_writes|]. }
  assert (∀ m, tests t m → fired u o' c m = c m) as Hut.
  { intros m Hm. apply untouched. intros Hm'. by apply (I2 m); [|eapply touched_writes]. }
  destruct (decide (touched u o' n)) as [Hu|Hu].
  2:{ rewrite (untouched u o' _ n Hu). symmetry. apply fired_agree; [done|]. by apply untouched. }
  destruct (decide (touched t o n)) as [Ht|Ht].
  2:{ rewrite (untouched t o _ n Ht). apply fired_agree; [done|]. by apply untouched. }
  pose proof (touched_writes _ _ _ _ Et Ho Ht) as Wt. pose proof (touched_writes _ _ _ _ Eu Ho' Hu) as Wu.
  assert (¬ decreases t n) as Dt.
  { intros [H|H]; [by apply (I2 n); [left|]|]. by apply (I3 n); [right|]. }
  assert (¬ decreases u n) as Du.
  { intros [H|H]; [by apply (I1 n); [|left]|]. by apply (I4 n); [|right]. }
  rewrite !(only_adds u), !(only_adds t) by done.
  rewrite (deposited_ext (drained_counts [] Ignore u (fired t o c)) (drained_counts [] Ignore u c) o' n) by (intros p; by apply drained_agree).
  rewrite (deposited_ext (drained_counts [] Ignore t (fired u o' c)) (drained_counts [] Ignore t c) o n) by (intros p; by apply drained_agree).
  rewrite (only_adds u o' c) by done. lia.
Qed.
End Footprints.

(** ** Runs *)

Section Runs.
Context {V : Type}.
Variable ts : list (transition V).
Hypothesis Hinputs : ∀ t, t ∈ ts → inputs_wf (inputSpecs t).
Hypothesis Houtcomes : ∀ t os o, t ∈ ts → outcomes t = Ok os → o ∈ os → outcome_ok o.
Implicit Types (t u : transition V) (c d : jsstr → Z) (o : outcome).

Abbreviation enabled t c := (enabled_counts [] Ignore t c).
Abbreviation fired t o c := (fired_counts [] Ignore t o c).

(** One firing, of the [i]-th transition with outcome [o]. *)
Definition token_step (i : nat) o c c' : Prop :=
  ∃ t os, ts !! i = Some t ∧ enabled t c = true ∧ outcomes t = Ok os ∧ o ∈ os ∧ ∀ n, c' n = fired t o c n.

Inductive run c : list (nat * outcome) → (jsstr → Z) → Prop :=
| run_nil c' : (∀ n, c' n = c n) → run c [] c'
| run_cons i o c1 l c' : token_step i o c c1 → run c1 l c' → run c ((i, o) :: l) c'.

Definition dead c : Prop := ∀ t, t ∈ ts → enabled t c = false.
Definition nonneg c : Prop := ∀ n, 0 <= c n.

Lemma step_ext i o c1 c2 c' : (∀ n, c2 n = c1 n) → token_step i o c1 c' → token_step i o c2 c'.
Proof.
  intros H (t & os & Et & En & Eos & Ho & Hc). exists t, os. split_and!; try done.
  - by rewrite (enabled_counts_ext [] Ignore t c2 c1).
  - intros n. rewrite Hc. symmetry. by apply fired_ext.
Qed.

Lemma run_ext c1 c2 l d : (∀ n, c2 n = c1 n) → run c1 l d → run c2 l d.
Proof.
  intros H Hr. destruct Hr as [d Hd|i o c1' l d Hs Hr]; [apply run_nil; intros n; by rewrite Hd|]. eapply run_cons; [|exact Hr]. by eapply step_ext.
Qed.

Lemma run_app c l1 l2 d : run c (l1 ++ l2) d → ∃ c1, run c l1 c1 ∧ run c1 l2 d.
Proof.
  revert c. induction l1 as [|[i o] l1 IH]; intros c H; [exists c; split; [by apply run_nil|done]|].
  inversion H as [|? ? c1 ? ? Hs Hr]; subst. destruct (IH c1 Hr) as (c2 & ? & ?). exists c2. split; [by eapply run_cons|done].
Qed.

Lemma deposit_total_nonneg t c o n : inputs_wf (inputSpecs t) → outcome_ok o → nonneg c → 0 <= deposited (drained_counts [] Ignore t c) o n.
Proof.
  intros Hi Ho Hc. unfold deposited, outcome_ok in *. induction (deposits o) as [|d ds IH]; cbn [total_deposit foldr]; [done|].
  specialize (IH ltac:(intros; apply Ho; by right)). unfold total_deposit in IH. case_decide; [|lia].
  specialize (Ho d ltac:(left)). assert (0 <= depositCount (od_deposit d) (drained_counts [] Ignore t c)); [|lia].
  unfold depositCount. destruct (od_deposit d); [done|]. by apply drained_nonneg.
Qed.

Lemma step_nonneg i o c c' : nonneg c → token_step i o c c' → nonneg c'.
Proof.
  intros Hc (t & os & Et & _ & Eos & Ho & Hf) n. assert (t ∈ ts) as Hin by (by eapply list_elem_of_lookup_2). rewrite Hf. unfold fired_counts.
  pose proof (deposit_total_nonneg t c o n (Hinputs t Hin) (Houtcomes t os o Hin Eos Ho) Hc). unfold intermediate_counts. case_decide; [lia|].
  pose proof (removed_bounds [] Ignore t c n (Hinputs t Hin) (Hc n)). lia.
Qed.

Lemma run_nonneg c l d : nonneg c → run c l d → nonneg d.
Proof. intros Hc Hr. induction Hr as [c d Hd|c i o c1 l d Hs _ IH]; [intros n; rewrite Hd; apply Hc|]. apply IH. by eapply step_nonneg. Qed.

Lemma run_not_increased c l d n : nonneg c → run c l d → (∀ i o u, (i, o) ∈ l → ts !! i = Some u → ¬ increases u n) → d n <= c n.
Proof.
  intros Hc Hr. induction Hr as [c d Hd|c i o c1 l d Hs Hr IH]; intros Hl; [rewrite Hd; lia|].
  pose proof (step_nonneg _ _ _ _ Hc Hs) as Hc1. etrans; [apply IH; [done|intros; eapply Hl; [by right|done]]|].
  destruct Hs as (t & os & Et & _ & Eos & Ho & Hf). rewrite Hf. unfold fired_counts. rewrite deposited_elsewhere.
  2:{ intros Hn. apply (Hl i o t ltac:(left) Et). by exists os, o. }
  unfold intermediate_counts. case_decide; [specialize (Hc n); lia|].
  pose proof (removed_bounds [] Ignore t c n (Hinputs t ltac:(by eapply list_elem_of_lookup_2)) (Hc n)). lia.
Qed.

Lemma run_not_decreased c l d n : nonneg c → run c l d → (∀ i o u, (i, o) ∈ l → ts !! i = Some u → ¬ decreases u n) → c n <= d n.
Proof.
  intros Hc Hr. induction Hr as [c d Hd|c i o c1 l d Hs Hr IH]; intros Hl; [rewrite Hd; lia|].
  pose proof (step_nonneg _ _ _ _ Hc Hs) as Hc1. etrans; [|apply IH; [done|intros; eapply Hl; [by right|done]]].
  destruct Hs as (t & os & Et & _ & Eos & Ho & Hf). rewrite Hf, only_adds by (by eapply Hl; [left|]). assert (t ∈ ts) as Hin by (by eapply list_elem_of_lookup_2).
  pose proof (deposit_total_nonneg t c o n (Hinputs t Hin) (Houtcomes t os o Hin Eos Ho) Hc). lia.
Qed.

(** ** Stubborn sets *)

Record stubborn_at c (S : nat → Prop) : Prop := {
  sb_enabled : ∀ i t j u, S i → ts !! i = Some t → enabled t c = true → ts !! j = Some u → ¬ S j → independent t u;
  sb_disabled : ∀ i t, S i → ts !! i = Some t → enabled t c = false → ∃ n,
    (∃ k, c n < k ∧ (∀ c', enabled t c' = true → k <= c' n) ∧ ∀ j u, ts !! j = Some u → increases u n → S j) ∨
    (0 < c n ∧ (∀ c', enabled t c' = true → c' n <= 0) ∧ ∀ j u, ts !! j = Some u → decreases u n → S j)
}.

Lemma independent_enabled t u i o c c' : independent t u → ts !! i = Some u → token_step i o c c' → enabled t c = enabled t c'.
Proof.
  intros I Eu (u' & os & Eu' & _ & Eos & Ho & Hf). assert (u' = u) as -> by congruence. apply enabled_same. intros n Hn. rewrite Hf. symmetry.
  apply untouched. intros H. apply (ind_tw _ _ I n Hn). by eapply touched_writes.
Qed.

(** An enabled transition independent of what comes before it moves to the front. *)
Lemma swap_front j o t l1 l2 d : ∀ c, ts !! j = Some t → enabled t c = true →
  (∀ i o u, (i, o) ∈ l1 → ts !! i = Some u → independent t u) → run c (l1 ++ (j, o) :: l2) d → ∃ c', token_step j o c c' ∧ run c' (l1 ++ l2) d.
Proof.
  induction l1 as [|[k o'] l1 IH]; intros c Et En Hind Hr; cbn [app] in *.
  { inversion Hr; subst. eauto. }
  inversion Hr as [|? ? c1 ? ? Hk Hr1]; subst. assert (Hk' := Hk). destruct Hk' as (u & osu & Eu & Enu & Eosu & Ho' & Hf1).
  pose proof (Hind k o' u ltac:(left) Eu) as I. rewrite (independent_enabled t u k o' c c1 I Eu Hk) in En.
  destruct (IH c1 Et En ltac:(intros; eapply Hind; [by right|done]) Hr1) as (c2 & Hj & Hr2). rewrite <- (independent_enabled t u k o' c c1 I Eu Hk) in En.
  assert (Hj' := Hj). destruct Hj' as (t' & os & Et' & _ & Eos & Ho & Hf2). assert (t' = t) as -> by congruence.
  exists (fired t o c). split; [by exists t, os|]. eapply run_cons; [|exact Hr2]. exists u, osu. split_and!; try done.
  - rewrite <- Enu. apply enabled_same. intros n Hn. apply untouched. intros H. by apply (ind_wt _ _ I n); [eapply touched_writes|].
  - intros n. rewrite Hf2. rewrite (fired_ext [] Ignore t o c1 (fired u o' c) n Hf1). symmetry. by eapply independent_commute.
Qed.

Section Step.
Variables (c : jsstr → Z) (S : nat → Prop).
Context `{∀ i, Decision (S i)}.
Hypothesis Hc : nonneg c.
Hypothesis HS : stubborn_at c S.

Lemma split_at_member (l : list (nat * outcome)) : (∀ x, x ∈ l → ¬ S x.1) ∨ ∃ l1 j o l2, l = l1 ++ (j, o) :: l2 ∧ S j ∧ ∀ x, x ∈ l1 → ¬ S x.1.
Proof.
  induction l as [|[i o] l IH]; [left; by intros x ?%not_elem_of_nil|]. destruct (decide (S i)) as [Hi|Hi].
  - right. exists [], i, o, l. split_and!; [done|done|by intros x ?%not_elem_of_nil].
  - destruct IH as [IH|(l1 & j & o' & l2 & -> & Hj & Hl)].
    + left. intros x [->|Hx]%elem_of_cons; [done|by apply IH].
    + right. exists ((i, o) :: l1), j, o', l2. split_and!; [done|done|]. intros x [->|Hx]%elem_of_cons; [done|by apply Hl].
Qed.

(** A run of non-members keeps the enabled members enabled. *)
Lemma outsiders_keep i t l : S i → ts !! i = Some t → enabled t c = true → (∀ x, x ∈ l → ¬ S x.1) → ∀ c1 d, run c1 l d → enabled t c1 = enabled t d.
Proof.
  intros Hi Et En. induction l as [|[k o] l IH]; intros Hl c1 d Hr; inversion Hr as [? Hd|? ? c2 ? ? Hk Hr1]; subst.
  - symmetry. apply enabled_counts_ext. intros n. apply Hd.
  - assert (Hk' := Hk). destruct Hk' as (u & _ & Eu & _). pose proof (sb_enabled _ _ HS i t k u Hi Et En Eu (Hl (k, o) ltac:(left))) as I.
    rewrite (independent_enabled t u k o c1 c2 I Eu Hk). apply IH; [|done]. intros. apply Hl. by right.
Qed.

(** A member that fires after non-members was enabled before them. *)
Lemma member_enabled j t l c1 : S j → ts !! j = Some t → (∀ x, x ∈ l → ¬ S x.1) → run c l c1 → enabled t c1 = true → enabled t c = true.
Proof.
  intros Hj Et Hl Hr En. destruct (enabled t c) eqn:E; [done|]. exfalso. destruct (sb_disabled _ _ HS j t Hj Et E) as (n & [(k & Hk & Hn & Hin)|(Hk & Hn & Hin)]).
  - specialize (Hn c1 En). assert (c1 n <= c n); [|lia]. eapply run_not_increased; [done|done|]. intros i o u Hio Eu Hi. apply (Hl _ Hio). by apply (Hin i u).
  - specialize (Hn c1 En). assert (c n <= c1 n); [|lia]. eapply run_not_decreased; [done|done|]. intros i o u Hio Eu Hi. apply (Hl _ Hio). by apply (Hin i u).
Qed.

(** A run to a dead marking has a member of the set, and can start with it. *)
Lemma stubborn_step i t l d : S i → ts !! i = Some t → enabled t c = true → run c l d → dead d →
  ∃ j o c' l', S j ∧ token_step j o c c' ∧ run c' l' d ∧ length l = Datatypes.S (length l').
Proof.
  intros Hi Et En Hr Hd. destruct (split_at_member l) as [Hl|(l1 & j & o & l2 & -> & Hj & Hl)].
  - specialize (Hd t ltac:(by eapply list_elem_of_lookup_2)). rewrite <- (outsiders_keep i t l Hi Et En Hl c d Hr) in Hd. congruence.
  - assert (Hr' := Hr). apply run_app in Hr' as (c1 & H1 & H2). inversion H2 as [|? ? c2 ? ? Hs _]; subst. assert (Hs' := Hs). destruct Hs' as (t' & os & Et' & En' & _).
    pose proof (member_enabled j t' l1 c1 Hj Et' Hl H1 En') as Enj.
    destruct (swap_front j o t' l1 l2 d c Et' Enj) as (c' & Hj' & Hr'); [|done|].
    + intros k o' u Hin Eu. by eapply (sb_enabled _ _ HS j t' k u); [| | | |apply (Hl (k, o'))].
    + exists j, o, c', (l1 ++ l2). split_and!; [done|done|done|]. rewrite !length_app. cbn. lia.
Qed.
End Step.
End Runs.
