(* ===== verification/StubbornExact.v ===== *)
(** * The selection is a stubborn set

    The footprints and indexes of [StubbornSets] are those of the transitions, its closure ends
    within its fuel and is a stubborn set at the marking, and the transitions it answers are the
    enabled members. *)
From S2P Require Import Prelude.
From S2P Require Import CodePoints.
From S2P Require Import Net.
From S2P Require Import Transition.
From S2P Require Import MarkingState.
From S2P Require Import Outcomes.
From S2P Require Import StateClass.
From S2P Require Import ClassSteps.
From S2P Require Import Agreement.
From S2P Require Import StubbornSets.
From S2P Require Import StubbornRuns.
#[local] Open Scope Z_scope.

(** ** The indexes *)

Abbreviation at_name p m := (default [] (map_get p m)).

Lemma index_add_spec i m q p (j : nat) : j ∈ at_name p (index_add i m q) ↔ (p = q ∧ j = i) ∨ j ∈ at_name p m.
Proof.
  unfold index_add. destruct (map_get q m) as [l|] eqn:E.
  - case_bool_decide as Hl.
    + split; [by right|]. intros [[-> ->]|?]; [|done]. rewrite E. apply last_Some_elem_of in Hl. done.
    + rewrite map_get_set. case_decide as Hp; [subst|naive_solver]. rewrite E. cbn. rewrite elem_of_app, list_elem_of_singleton. naive_solver.
  - rewrite map_get_set. case_decide as Hp; [subst|naive_solver]. rewrite E. cbn. rewrite list_elem_of_singleton. set_solver.
Qed.

Lemma index_of_spec part fs p (j : nat) : j ∈ at_name p (index_of part fs) ↔ ∃ f, fs !! j = Some f ∧ p ∈ part f.
Proof.
  unfold index_of.
  assert (∀ l m, j ∈ at_name p (foldl (λ m (y : nat * footprint), foldl (index_add y.1) m (part y.2)) m l) ↔
    j ∈ at_name p m ∨ ∃ f, (j, f) ∈ l ∧ p ∈ part f) as H.
  { induction l as [|[i f] l IH]; intros m; cbn [foldl]; [set_solver|]. rewrite IH. clear IH. cbn [fst snd].
    assert (∀ ps m, j ∈ at_name p (foldl (index_add i) m ps) ↔ j ∈ at_name p m ∨ (j = i ∧ p ∈ ps)) as ->.
    { induction ps as [|q ps IH]; intros m'; cbn [foldl]; [set_solver|]. rewrite IH, index_add_spec. set_solver. }
    set_solver. }
  rewrite H. cbn. split.
  - intros [Hj|(f & [k Hk]%list_elem_of_lookup & Hp)]; [by apply not_elem_of_nil in Hj|]. rewrite list_lookup_imap in Hk.
    destruct (fs !! k) as [f'|] eqn:E; [|done]. injection Hk as <- <-. by exists f'.
  - intros (f & Hf & Hp). right. exists f. split; [|done]. apply list_elem_of_lookup. exists j. by rewrite list_lookup_imap, Hf.
Qed.

Lemma collect_spec i places index dep j : j ∈ collect i places index dep ↔ j ∈ dep ∨ (j ≠ i ∧ ∃ p, p ∈ places ∧ j ∈ at_name p index).
Proof.
  unfold collect. revert dep. induction places as [|p places IH]; intros dep; cbn [foldl]; [set_solver|]. rewrite IH. clear IH.
  assert (∀ l dep, j ∈ foldl (λ dep j, if (j =? i)%nat then dep else set_add j dep) dep l ↔ j ∈ dep ∨ (j ≠ i ∧ j ∈ l)) as ->.
  { induction l as [|k l IH]; intros dep'; cbn [foldl]; [set_solver|]. rewrite IH. destruct (Nat.eqb_spec k i) as [->|]; rewrite ?elem_of_set_add; set_solver. }
  set_solver.
Qed.

(** ** The footprints *)

Section Exact.
Context {V : Type}.
Variable ts : list (transition V).
Implicit Types (t u : transition V).

Lemma footprints_spec fs : footprints ts = Ok fs → length fs = length ts ∧ ∀ i t, ts !! i = Some t → ∃ f, fs !! i = Some f ∧ footprint_of t = Ok f.
Proof.
  revert fs. induction ts as [|t l IH]; intros fs; cbn [footprints]; [by intros [= <-]|].
  destruct (footprint_of t) as [f|] eqn:Ef; cbn [res_bind]; [|done]. destruct (footprints l) as [fs'|]; cbn [res_bind]; [|done]. intros [= <-].
  destruct (IH fs' eq_refl) as [Hl H]. split; [cbn; lia|]. intros [|i] t' E; [injection E as ->; by exists f|]. by apply H.
Qed.

Lemma sorted_elem (l : list jsstr) le n : n ∈ stable_sort le l ↔ n ∈ l.
Proof. by rewrite stable_sort_Permutation. Qed.

Lemma footprint_spec t f : footprint_of t = Ok f →
  (∀ n, n ∈ fp_tests f ↔ tests t n) ∧ (∀ n, n ∈ fp_writes f ↔ writes t n) ∧ (∀ n, n ∈ fp_overwrites f ↔ overwrites t n) ∧
  (∀ n, n ∈ fp_decreases f ↔ decreases t n) ∧ (∀ n, n ∈ fp_increases f ↔ increases t n) ∧ fp_conditions f = enabling_conditions t.
Proof.
  unfold footprint_of. destruct (outcomes t) as [os|] eqn:Eos; cbn [lift res_bind]; [|done]. intros [= <-].
  cbn [fp_tests fp_writes fp_overwrites fp_decreases fp_increases fp_conditions].
  assert (∀ n, n ∈ (o ← os; (λ d, place_name (od_place d)) <$> deposits o) ↔ increases t n) as Hinc.
  { intros n. unfold increases. rewrite list_elem_of_bind. split.
    - intros (o & Hn & Ho). by exists os, o.
    - intros (os' & o & E & Ho & Hn). assert (os' = os) as -> by congruence. by exists o. }
  split_and!; intros; rewrite ?elem_of_set_of, ?elem_of_app, ?sorted_elem, ?Hinc; unfold tests, writes, decreases, overwrites; try tauto; try done.
  rewrite list_elem_of_fmap. setoid_rewrite list_elem_of_filter. naive_solver.
Qed.

Variable ss : stubborn_sets.
Hypothesis Hss : stubborn_new ts = Ok ss.

Lemma names_spec : ss_names ss = t_name <$> ts.
Proof. unfold stubborn_new in Hss. destruct (footprints ts) as [fs|]; cbn [res_bind] in Hss; [|done]. by injection Hss as <-. Qed.

Lemma indexes_spec (j : nat) n :
  (j ∈ at_name n (increasers ss) ↔ ∃ u, ts !! j = Some u ∧ increases u n) ∧
  (j ∈ at_name n (decreasers ss) ↔ ∃ u, ts !! j = Some u ∧ decreases u n).
Proof.
  unfold stubborn_new in Hss. destruct (footprints ts) as [fs|] eqn:Ef; cbn [res_bind] in Hss; [|done]. injection Hss as <-. cbn [increasers decreasers].
  apply footprints_spec in Ef as [Hl Hf]. assert (∀ f, fs !! j = Some f → ∃ u, ts !! j = Some u ∧ footprint_of u = Ok f) as Hb.
  { intros f E. destruct (lookup_lt_is_Some_2 ts j) as [u Eu]; [rewrite <- Hl; by eapply lookup_lt_Some|]. destruct (Hf j u Eu) as (f' & E' & ?).
    exists u. split; [done|]. congruence. }
  rewrite !index_of_spec. split; (split; [intros (f & (u & Eu & Hu)%Hb & Hn); exists u; split; [done|]; by apply (footprint_spec u f Hu)|
    intros (u & Eu & Hn); destruct (Hf j u Eu) as (f & E & Hu); exists f; split; [done|]; by apply (footprint_spec u f Hu)]).
Qed.

Lemma conditions_spec i t : ts !! i = Some t → conditions ss !! i = Some (enabling_conditions t).
Proof.
  intros Et. unfold stubborn_new in Hss. destruct (footprints ts) as [fs|] eqn:Ef; cbn [res_bind] in Hss; [|done]. injection Hss as <-. cbn [conditions].
  apply footprints_spec in Ef as [_ Hf]. destruct (Hf i t Et) as (f & E & Hu). rewrite list_lookup_fmap, E. cbn. f_equal. by apply (footprint_spec t f Hu).
Qed.

(** Every transition outside the dependents of [t] is independent of it. *)
Lemma dependents_spec i t : ts !! i = Some t → ∃ l, dependents ss !! i = Some l ∧ (∀ j, j ∈ l → (j < length ts)%nat) ∧
  ∀ j u, ts !! j = Some u → j ≠ i → j ∉ l → independent t u.
Proof.
  intros Et. unfold stubborn_new in Hss. destruct (footprints ts) as [fs|] eqn:Ef; cbn [res_bind] in Hss; [|done]. injection Hss as <-. cbn [dependents].
  apply footprints_spec in Ef as [Hlen Hf]. destruct (Hf i t Et) as (f & E & Hu). rewrite list_lookup_imap, E. cbn [fmap option_fmap option_map]. eexists. split; [reflexivity|].
  destruct (footprint_spec t f Hu) as (F1 & F2 & F3 & _).
  assert (∀ j, j ∈ stable_sort Nat.leb (collect i (fp_writes f) (index_of fp_overwrites fs) (collect i (fp_overwrites f) (index_of fp_writes fs)
      (collect i (fp_tests f) (index_of fp_writes fs) (collect i (fp_writes f) (index_of fp_tests fs) [])))) ↔ j ≠ i ∧
    ∃ g p, fs !! j = Some g ∧ ((p ∈ fp_writes f ∧ p ∈ fp_tests g) ∨ (p ∈ fp_tests f ∧ p ∈ fp_writes g) ∨ (p ∈ fp_overwrites f ∧ p ∈ fp_writes g) ∨
      (p ∈ fp_writes f ∧ p ∈ fp_overwrites g))) as Hj.
  { intros j. rewrite stable_sort_Permutation, !collect_spec. setoid_rewrite index_of_spec. clear. set_solver. }
  split.
  - intros j [_ (g & p & Eg & _)]%Hj. rewrite <- Hlen. by eapply lookup_lt_Some.
  - intros j u Eu Hne Hn. destruct (Hf j u Eu) as (g & Eg & Hg). destruct (footprint_spec u g Hg) as (G1 & G2 & G3 & _).
    constructor; intros n Hx Hy; apply Hn, Hj; (split; [done|]); exists g, n; (split; [done|]).
    + left. split; [by apply F2|by apply G1].
    + right; left. split; [by apply F1|by apply G2].
    + right; right; left. split; [by apply F3|by apply G2].
    + right; right; right. split; [by apply F2|by apply G3].
Qed.

(** ** The conditions *)

Section AtMarking.
Variables (m : marking_state) (counts : list (jsstr * Z)).
Hypothesis Hm : ms_wf m.
Hypothesis Hcounts : ∀ n, default 0 (map_get n counts) = count_of m n.

Abbreviation enabled t := (enabled_counts [] Ignore t (count_of m)).

Lemma violated_spec c : violated counts c = if cond_inhibitor c then 0 <? count_of m (cond_place c) else count_of m (cond_place c) <? cond_need c.
Proof. unfold violated. cbv zeta. by rewrite Hcounts. Qed.

Lemma elem_of_conditions t c : c ∈ enabling_conditions t ↔
  (∃ s, s ∈ inputSpecs t ∧ c = Condition (place_name (in_place s)) (requiredCount s) false) ∨
  (∃ p, p ∈ reads t ∧ c = Condition (place_name p) 1 false) ∨ (∃ p, p ∈ inhibitors t ∧ c = Condition (place_name p) 0 true).
Proof.
  unfold enabling_conditions. cbv zeta. rewrite elem_of_app, stable_sort_Permutation, elem_of_app, !list_elem_of_fmap. setoid_rewrite stable_sort_Permutation.
  setoid_rewrite list_elem_of_fmap. naive_solver.
Qed.

(** A transition is enabled when none of its conditions is violated. *)
Lemma enabled_iff t c' : enabled_counts [] Ignore t c' = true ↔
  ∀ c, c ∈ enabling_conditions t → if cond_inhibitor c then c' (cond_place c) <= 0 else cond_need c <= c' (cond_place c).
Proof.
  setoid_rewrite elem_of_conditions. unfold enabled_counts. rewrite !andb_true_iff, !forallb_elem. setoid_rewrite can_take_none. split.
  - intros [[H1 H2] H3] c [(s & Hs & ->)|[(p & Hp & ->)|(p & Hp & ->)]]; cbn.
    + specialize (H1 s Hs). by b2p.
    + specialize (H2 p Hp). by b2p.
    + specialize (H3 p Hp). by b2p.
  - intros H. split_and!.
    + intros s Hs. apply Z.leb_le. apply (H (Condition (place_name (in_place s)) (requiredCount s) false)). left. by exists s.
    + intros p Hp. apply Z.leb_le. apply (H (Condition (place_name p) 1 false)). right; left. by exists p.
    + intros p Hp. apply Z.leb_le. apply (H (Condition (place_name p) 0 true)). right; right. by exists p.
Qed.

(** The scapegoat of a disabled transition: what can satisfy its first violated condition. *)
Lemma scapegoat_spec i t : ts !! i = Some t → enabled t = false → ∃ l, scapegoat ss counts i = Ok l ∧ (∀ j, j ∈ l → (j < length ts)%nat) ∧
  ∀ S : nat → Prop, (∀ j, j ∈ l → S j) → ∃ n,
    (∃ k, count_of m n < k ∧ (∀ c', enabled_counts [] Ignore t c' = true → k <= c' n) ∧ ∀ j u, ts !! j = Some u → increases u n → S j) ∨
    (0 < count_of m n ∧ (∀ c', enabled_counts [] Ignore t c' = true → c' n <= 0) ∧ ∀ j u, ts !! j = Some u → decreases u n → S j).
Proof.
  intros Et En. unfold scapegoat. rewrite (conditions_spec i t Et). cbn [default from_option id].
  destruct (js_find (violated counts) (enabling_conditions t)) as [c|] eqn:Ef.
  - unfold js_find in Ef. destruct (list_find _ _) as [[k c0]|] eqn:El; [|done]. injection Ef as ->. apply list_find_Some in El as (Hk & Hv & _).
    apply Is_true_true in Hv. apply list_elem_of_lookup_2 in Hk. rewrite violated_spec in Hv. eexists. split; [reflexivity|].
    pose proof (λ c' H, proj1 (enabled_iff t c') H c Hk) as Hc. split.
    + intros j Hj. destruct (indexes_spec j (cond_place c)) as [I1 I2]. destruct (cond_inhibitor c); [apply I2 in Hj as (u & Eu & _)|apply I1 in Hj as (u & Eu & _)]; by eapply lookup_lt_Some.
    + intros S HS. exists (cond_place c). destruct (cond_inhibitor c).
      * right. b2p. split_and!; [done|done|]. intros j u Eu Hd. apply HS, indexes_spec. by exists u.
      * left. exists (cond_need c). b2p. split_and!; [done|done|]. intros j u Eu Hd. apply HS, indexes_spec. by exists u.
  - exfalso. unfold js_find in Ef. destruct (list_find _ _) as [[]|] eqn:El; [done|]. apply list_find_None in El. rewrite Forall_forall in El.
    assert (enabled t = true); [|congruence]. apply enabled_iff. intros c Hc. specialize (El c Hc). rewrite violated_spec in El.
    destruct (cond_inhibitor c); destruct (Z.ltb_spec 0 (count_of m (cond_place c))), (Z.ltb_spec (count_of m (cond_place c)) (cond_need c)); try done; by destruct El.
Qed.

(** ** The closure *)

Variable isEnabled : list bool.
Hypothesis Hen : ∀ i t, ts !! i = Some t → default false (isEnabled !! i) = enabled t.

Definition in_flags (flags : list bool) (i : nat) : Prop := flags !! i = Some true.
Definition unset (flags : list bool) : nat := length (filter (λ b, b = false) flags).

Lemma unset_insert flags j : flags !! j = Some false → S (unset (<[j := true]> flags)) = unset flags.
Proof.
  unfold unset. revert j. induction flags as [|b flags IH]; intros j E; [done|]. destruct j as [|j]; cbn in E.
  - injection E as ->. cbn. done.
  - change (<[S j:=true]> (b :: flags)) with (b :: <[j := true]> flags). rewrite !filter_cons. specialize (IH j E). case_decide; cbn [length]; lia.
Qed.

Lemma push_spec l : ∀ flags work, length flags = length ts → (∀ j, j ∈ l → (j < length ts)%nat) →
  let y := foldl push_new (flags, work) l in
  length y.1 = length ts ∧ (unset y.1 + length y.2 = unset flags + length work)%nat ∧
  (∀ i, in_flags flags i → in_flags y.1 i) ∧ (∀ j, j ∈ l → in_flags y.1 j) ∧ (∀ i, i ∈ work → i ∈ y.2) ∧
  ∀ i, in_flags y.1 i → in_flags flags i ∨ i ∈ y.2.
Proof.
  induction l as [|j l IH]; intros flags work Hl Hj; cbn zeta; cbn [foldl].
  { cbn [fst snd]. split_and!; [done|done|done|by intros ? ?%not_elem_of_nil|done|by left]. }
  assert (j < length ts)%nat as Hlt by (apply Hj; left). destruct (lookup_lt_is_Some_2 flags j) as [b Eb]; [lia|].
  assert (push_new (flags, work) j = if b then (flags, work) else (<[j := true]> flags, j :: work)) as -> by (unfold push_new; cbn [fst snd]; rewrite Eb; by destruct b).
  destruct b.
  - destruct (IH flags work Hl ltac:(intros; apply Hj; by right)) as (H1 & H2 & H3 & H4 & H5 & H6). split_and!; try done.
    all: intros i [->|Hi]%elem_of_cons; [by apply H3|by apply H4].
  - destruct (IH (<[j := true]> flags) (j :: work) ltac:(by rewrite length_insert) ltac:(intros; apply Hj; by right)) as (H1 & H2 & H3 & H4 & H5 & H6).
    pose proof (unset_insert flags j Eb) as Hu. cbn [length] in H2. assert (in_flags (<[j := true]> flags) j) as Hjf by (apply list_lookup_insert_eq; lia).
    split_and!; [done|lia| | | |].
    + intros i Hi. apply H3. destruct (decide (i = j)) as [->|]; [done|]. unfold in_flags. by rewrite list_lookup_insert_ne.
    + intros i [->|Hi]%elem_of_cons; [by apply H3|by apply H4].
    + intros i Hi. apply H5. by right.
    + intros i [Hi|Hi]%H6; [|by right]. destruct (decide (i = j)) as [->|Hne]; [right; apply H5; left|]. left.
      unfold in_flags in Hi. by rewrite list_lookup_insert_ne in Hi.
Qed.

(** What the closure has done for a member. *)
Definition processed (flags : list bool) (i : nat) : Prop :=
  (default false (isEnabled !! i) = true → ∀ j, j ∈ default [] (dependents ss !! i) → in_flags flags j) ∧
  (default false (isEnabled !! i) = false → ∃ l, scapegoat ss counts i = Ok l ∧ ∀ j, j ∈ l → in_flags flags j).

Lemma processed_mono flags flags' i : (∀ j, in_flags flags j → in_flags flags' j) → processed flags i → processed flags' i.
Proof. intros H [H1 H2]. split; [auto|]. intros (l & E & Hl)%H2. exists l. split; [done|auto]. Qed.

Lemma closure_loop_spec bound fuel : ∀ flags work count, length flags = length ts → (unset flags + length work ≤ fuel)%nat →
  (∀ i, i ∈ work → in_flags flags i) → (∀ i, in_flags flags i → i ∉ work → processed flags i) →
  ∃ r, closure_loop ss counts isEnabled bound fuel flags work count = Ok (Some r) ∧
  match r with
  | None => bound ≠ None
  | Some flags' => length flags' = length ts ∧ (∀ i, in_flags flags i → in_flags flags' i) ∧ ∀ i, in_flags flags' i → processed flags' i
  end.
Proof.
  induction fuel as [|fuel IH]; intros flags work count Hl Hf Hw Hp; (destruct work as [|i work]; cbn [closure_loop];
    [exists (Some flags); split_and!; [done|done|done|intros i Hi; by apply Hp; [|apply not_elem_of_nil]]|]); [cbn in Hf; lia|].
  cbn [length] in Hf. assert (in_flags flags i) as Hi by (apply Hw; left). assert (i < length ts)%nat as Hlt by (rewrite <- Hl; by eapply lookup_lt_Some).
  destruct (lookup_lt_is_Some_2 ts i Hlt) as [t Et].
  assert (∀ l count, (∀ j, j ∈ l → (j < length ts)%nat) → (∀ flags', (∀ j, j ∈ l → in_flags flags' j) → processed flags' i) →
    let y := foldl push_new (flags, work) l in
    ∃ r, closure_loop ss counts isEnabled bound fuel y.1 y.2 count = Ok (Some r) ∧
    match r with None => bound ≠ None | Some flags' => length flags' = length ts ∧ (∀ i, in_flags flags i → in_flags flags' i) ∧ ∀ i, in_flags flags' i → processed flags' i end) as Hgo.
  { intros l count' Hlts Hproc. cbn zeta. destruct (push_spec l flags work Hl Hlts) as (P1 & P2 & P3 & P4 & P5 & P6).
    set (y := foldl push_new (flags, work) l) in *. destruct (IH y.1 y.2 count' P1 ltac:(lia)) as (r & E & Hr).
    - intros j Hj. assert (∀ l flags work, length flags = length ts → (∀ j, j ∈ l → (j < length ts)%nat) → (∀ j, j ∈ work → in_flags flags j) →
        ∀ j, j ∈ (foldl push_new (flags, work) l).2 → in_flags (foldl push_new (flags, work) l).1 j) as Hwf.
      { clear. intros l. induction l as [|k l IHl]; intros flags work Hl Hk Hw; cbn [foldl]; [done|]. unfold push_new at 2 4. cbn [fst snd].
        destruct (default false (flags !! k)); [apply IHl; [done|intros; apply Hk; by right|done]|].
        apply IHl; [by rewrite length_insert|intros; apply Hk; by right|]. assert (k < length ts)%nat by (apply Hk; left).
        intros j [->|Hj]%elem_of_cons; [apply list_lookup_insert_eq; lia|]. destruct (decide (j = k)) as [->|]; [apply list_lookup_insert_eq; lia|].
        unfold in_flags. rewrite list_lookup_insert_ne by done. by apply Hw. }
      apply (Hwf l flags work); try done. intros k Hk. apply Hw. by right.
    - intros j Hj Hnw. destruct (decide (j = i)) as [->|Hne]; [by apply Hproc|]. destruct (P6 j Hj) as [Hj'|]; [|done].
      eapply processed_mono; [exact P3|]. apply Hp; [done|]. intros [->|Hjw]%elem_of_cons; [done|]. by apply Hnw, P5.
    - exists r. split; [done|]. destruct r as [flags'|]; [|done]. destruct Hr as (R1 & R2 & R3). split_and!; [done| |done]. intros k Hk. by apply R2, P3. }
  destruct (default false (isEnabled !! i)) eqn:Een.
  - destruct (match bound with Some b => _ | None => false end) eqn:Eb; [exists None; split; [done|by destruct bound]|].
    destruct (dependents_spec i t Et) as (l & El & Hlts & _). rewrite El. cbn [default from_option id]. apply Hgo; [done|].
    intros flags' Hfl. split; [|congruence]. intros _. by rewrite El.
  - destruct (scapegoat_spec i t Et) as (l & El & Hlts & _); [by rewrite <- (Hen i t Et)|]. rewrite El. cbn [res_bind]. apply Hgo; [done|].
    intros flags' Hfl. split; [congruence|]. intros _. by exists l.
Qed.

Lemma closed_stubborn flags : length flags = length ts → (∀ i, in_flags flags i → processed flags i) → stubborn_at ts (count_of m) (in_flags flags).
Proof.
  intros Hl Hp. constructor.
  - intros i t j u Hi Et En Eu Hj. destruct (Hp i Hi) as [Hd _]. rewrite (Hen i t Et) in Hd. specialize (Hd En).
    destruct (dependents_spec i t Et) as (l & El & _ & Hind). rewrite El in Hd. cbn [default from_option id] in Hd.
    apply (Hind j u Eu); [by intros ->|]. intros Hjl. by apply Hj, Hd.
  - intros i t Hi Et En. destruct (Hp i Hi) as [_ Hd]. rewrite (Hen i t Et) in Hd. destruct (Hd En) as (l & El & Hfl).
    destruct (scapegoat_spec i t Et En) as (l' & El' & _ & H). assert (l' = l) as -> by congruence. by apply H.
Qed.

(** The answer of a closure: its enabled members, or [None] within a bound. *)
Definition closure_answer (seed : nat) (set : list nat) : Prop := ∃ flags, length flags = length ts ∧ in_flags flags seed ∧
  stubborn_at ts (count_of m) (in_flags flags) ∧ ∀ i, i ∈ set ↔ in_flags flags i ∧ default false (isEnabled !! i) = true.

Lemma closure_spec seed bound : (seed < length ts)%nat → ∃ r, closure ss counts seed isEnabled bound = Ok (Some r) ∧
  match r with None => bound ≠ None | Some set => closure_answer seed set end.
Proof.
  intros Hs. unfold closure. cbv zeta. assert (length (ss_names ss) = length ts) as -> by (by rewrite names_spec, length_fmap).
  assert (length (<[seed := true]> (replicate (length ts) false)) = length ts) as Hl by (by rewrite length_insert, length_replicate).
  assert ((replicate (length ts) false) !! seed = Some false) as Er by (by apply lookup_replicate_2).
  destruct (closure_loop_spec bound (length ts) (<[seed := true]> (replicate (length ts) false)) [seed] 0) as (r & E & Hr).
  - done.
  - pose proof (unset_insert _ _ Er) as Hu. assert (unset (replicate (length ts) false) ≤ length ts)%nat; [|cbn [length]; lia].
    unfold unset. etrans; [apply length_filter|]. by rewrite length_replicate.
  - intros i ->%list_elem_of_singleton. apply list_lookup_insert_eq. by rewrite length_replicate.
  - intros i Hi Hn. exfalso. apply Hn. unfold in_flags in Hi. destruct (decide (i = seed)) as [->|]; [left|].
    rewrite list_lookup_insert_ne in Hi by done. by apply lookup_replicate in Hi as [? _].
  - rewrite E. cbn [res_bind]. destruct r as [flags|]; [|by exists None]. destruct Hr as (R1 & R2 & R3). eexists (Some _). split; [reflexivity|].
    exists flags. split_and!; [done|apply R2, list_lookup_insert_eq; by rewrite length_replicate|by apply closed_stubborn|].
    intros i. rewrite list_elem_of_filter, elem_of_seq, andb_true_iff, R1. unfold in_flags. split.
    + intros [[H1 H2] _]. split; [|done]. by destruct (flags !! i) as [[]|].
    + intros [H1 H2]. rewrite H1. split_and!; [done|done|lia|]. rewrite <- R1. by eapply lookup_lt_Some.
Qed.

Lemma best_closure_spec seeds : (∀ i, i ∈ seeds → (i < length ts)%nat) → ∀ best, (best = None → seeds ≠ []) →
  (∀ set, best = Some set → ∃ seed, default false (isEnabled !! seed) = true ∧ closure_answer seed set) →
  (∀ i, i ∈ seeds → default false (isEnabled !! i) = true) →
  ∃ set seed, best_closure ss counts isEnabled seeds best = Ok (Some (Some set)) ∧ default false (isEnabled !! seed) = true ∧ closure_answer seed set.
Proof.
  induction seeds as [|seed seeds IH]; intros Hlt best Hb Hbest Hen'; cbn [best_closure].
  { destruct best as [set|]; [|by destruct (Hb eq_refl)]. destruct (Hbest set eq_refl) as (seed & ? & ?). by exists set, seed. }
  destruct (closure_spec seed (length <$> best)) as (r & E & Hr); [apply Hlt; left|]. rewrite E. cbn [res_bind].
  assert (∀ i, i ∈ seeds → (i < length ts)%nat) as Hlt' by (intros; apply Hlt; by right).
  assert (∀ i, i ∈ seeds → default false (isEnabled !! i) = true) as Hen1 by (intros; apply Hen'; by right).
  assert (default false (isEnabled !! seed) = true) as Hseed by (apply Hen'; left).
  destruct r as [set|].
  - destruct (match best with None => true | Some b => _ end) eqn:Eb.
    + case_bool; [by exists set, seed|]. apply IH; try done. intros s [= <-]. by exists seed.
    + apply IH; try done. intros ->. done.
  - apply IH; try done. intros ->. by destruct Hr.
Qed.
End AtMarking.

(** ** The selection *)


(** The selection at a class: it does not throw and keeps enabled transitions, at least one if there
    is one; and they are the enabled members of a stubborn set. *)
Lemma select_spec m enabled : ms_wf m → NoDup enabled → (∀ i, i ∈ enabled ↔ ∃ t, ts !! i = Some t ∧ enabled_counts [] Ignore t (count_of m) = true) →
  ∃ l, select_stubborn ss m enabled = Ok (Some l) ∧ (∀ i, i ∈ l → i ∈ enabled) ∧ (enabled ≠ [] → l ≠ []) ∧
  (enabled ≠ [] → ∃ flags i, i ∈ enabled ∧ in_flags flags i ∧ stubborn_at ts (count_of m) (in_flags flags) ∧ ∀ i, i ∈ enabled → in_flags flags i → i ∈ l).
Proof.
  intros Hm Hnd Hen. unfold select_stubborn. destruct (Nat.leb_spec (length enabled) 1) as [Hle|Hgt].
  { exists enabled. split_and!; [done|done|done|]. intros Hne. destruct enabled as [|i enabled]; [done|]. exists (replicate (length ts) true), i.
    assert (∀ j u, ts !! j = Some u → in_flags (replicate (length ts) true) j) as Hall by (intros j u Eu%lookup_lt_Some; by apply lookup_replicate_2).
    destruct (proj1 (Hen i) ltac:(left)) as (t & Et & _). split_and!; [left|by eapply Hall| |done]. constructor.
    - intros i' t' j u _ _ _ Eu Hn. destruct Hn. by eapply Hall.
    - intros i' t' _ Et' En. destruct (enabled_counts [] Ignore t' (count_of m)) eqn:E'; [done|]. clear En.
      assert (¬ ∀ c, c ∈ enabling_conditions t' → if cond_inhibitor c then count_of m (cond_place c) <= 0 else cond_need c <= count_of m (cond_place c)) as Hn
        by (intros H%(enabled_iff t' (count_of m)); congruence).
      assert (Exists (λ c, ¬ (if cond_inhibitor c then count_of m (cond_place c) <= 0 else cond_need c <= count_of m (cond_place c))) (enabling_conditions t')) as He.
      { apply not_Forall_Exists; [intros c; destruct (cond_inhibitor c); apply _|]. by rewrite Forall_forall. }
      apply Exists_exists in He as (c & Hc & Hv). exists (cond_place c). pose proof (λ c' H, proj1 (enabled_iff t' c') H c Hc) as Hall'.
      destruct (cond_inhibitor c); [right|left; exists (cond_need c)]; (split_and!; [lia|done|intros; by eapply Hall]). }
  cbv zeta. set (counts := foldl _ _ _). set (isEnabled := foldl _ _ _).
  assert (length (ss_names ss) = length ts) as Hlen by (by rewrite names_spec, length_fmap).
  assert (∀ n, default 0 (map_get n counts) = count_of m n) as Hcounts.
  { intros n. unfold counts, placesWithTokens.
    assert (∀ l c, (∀ p, p ∈ l → True) → default 0 (map_get n (foldl (λ c p, map_set (place_name p) (ms_tokens p m) c) c l)) =
      if decide (n ∈ place_name <$> l) then count_of m n else default 0 (map_get n c)) as H.
    { induction l as [|p l IH]; intros c _; cbn [foldl]; [done|]. rewrite IH by done. rewrite map_get_set, fmap_cons.
      destruct (decide (n ∈ place_name <$> l)) as [Hin|Hin]; [by rewrite decide_True by (by right)|].
      destruct (decide (n = place_name p)) as [->|Hne]; [rewrite decide_True by left; done|]. by rewrite decide_False by (by intros [?|?]%elem_of_cons). }
    rewrite H by done. case_decide as Hn; [done|]. cbn. symmetry. unfold count_of. destruct (map_get n (tokenCounts m)) as [z|] eqn:E; [|done].
    exfalso. apply Hn. apply map_get_elem, (list_elem_of_fmap_2 fst) in E. cbn in E. apply (wf_places m Hm), list_elem_of_fmap in E as ([n' p] & -> & Hp).
    rewrite <- list_fmap_compose. apply list_elem_of_fmap. exists (n', p). split; [cbn; symmetry; by apply (wf_names m Hm)|done]. }
  assert (∀ i t, ts !! i = Some t → default false (isEnabled !! i) = enabled_counts [] Ignore t (count_of m)) as Hfl.
  { intros i t Et. assert (∀ l flags, length flags = length ts → default false (foldl (λ l i, <[i := true]> l) flags l !! i) =
      if decide (i ∈ l) then true else default false (flags !! i)) as H.
    { induction l as [|k l IH]; intros flags Hf; cbn [foldl]; [done|]. rewrite IH by (by rewrite length_insert).
      destruct (decide (i ∈ l)) as [Hin|Hin]; [by rewrite decide_True by (by right)|]. destruct (decide (i = k)) as [->|Hne].
      - rewrite decide_True by left. rewrite list_lookup_insert_eq; [done|]. rewrite Hf. by eapply lookup_lt_Some.
      - rewrite decide_False by (by intros [?|?]%elem_of_cons). by rewrite list_lookup_insert_ne. }
    unfold isEnabled. rewrite H by (by rewrite length_replicate, Hlen). case_decide as Hin.
    - apply Hen in Hin as (t' & Et' & E). congruence.
    - rewrite Hlen, lookup_replicate_2 by (by eapply lookup_lt_Some). cbn. symmetry. apply not_true_iff_false. intros E. apply Hin, Hen. by exists t. }
  destruct (best_closure_spec m counts Hcounts isEnabled Hfl (stable_sort (λ x y, compareCodePoints (default [] (ss_names ss !! x)) (default [] (ss_names ss !! y)) <=? 0) enabled))
    with (best := @None (list nat)) as (set & seed & E & Hseed & flags & F1 & F2 & F3 & F4).
  - intros i. rewrite stable_sort_Permutation. intros (t & Et & _)%Hen. by eapply lookup_lt_Some.
  - intros _ E. pose proof (stable_sort_Permutation (λ x y, compareCodePoints (default [] (ss_names ss !! x)) (default [] (ss_names ss !! y)) <=? 0) enabled) as Hp.
    rewrite E in Hp. symmetry in Hp. apply Permutation_nil_r in Hp. subst. cbn in Hgt. lia.
  - done.
  - intros i. rewrite stable_sort_Permutation. intros (t & Et & En)%Hen. by rewrite (Hfl i t Et).
  - rewrite E. cbn [res_bind]. eexists. split; [reflexivity|].
    assert (seed < length ts)%nat as Hlt by (rewrite <- F1; by eapply lookup_lt_Some). destruct (lookup_lt_is_Some_2 ts seed Hlt) as [t Et].
    assert (seed ∈ enabled) as Hin by (apply Hen; exists t; split; [done|]; by rewrite <- (Hfl seed t Et)).
    assert (∀ i, i ∈ enabled → in_flags flags i → i ∈ filter (λ i, i ∈ set) enabled) as Hmem.
    { intros i Hi Hf. apply list_elem_of_filter. split; [|done]. apply F4. split; [done|]. apply Hen in Hi as (t' & Et' & En'). by rewrite (Hfl i t' Et'). }
    split_and!.
    + intros i [_ ?]%list_elem_of_filter. done.
    + intros _ Hnil. specialize (Hmem seed Hin F2). rewrite Hnil in Hmem. by apply not_elem_of_nil in Hmem.
    + intros _. by exists flags, seed.
Qed.

End Exact.

#[export] Instance in_flags_dec flags i : Decision (in_flags flags i).
Proof. unfold in_flags. solve_decision. Defined.

(** The constructor throws only where an outcome does. *)
Lemma stubborn_new_ok {V} (ts : list (transition V)) : (∀ t, t ∈ ts → is_ok (outcomes t)) → ∃ ss, stubborn_new ts = Ok ss.
Proof.
  intros H. unfold stubborn_new. assert (∃ fs, footprints ts = Ok fs) as [fs ->]; [|by eexists].
  induction ts as [|t l IH]; [by exists []|]. cbn [footprints]. unfold footprint_of. specialize (H t ltac:(left)) as Ht. destruct (outcomes t); [|done].
  cbn [lift res_bind]. destruct IH as [fs ->]; [intros; apply H; by right|]. by eexists.
Qed.
