(* ===== verification/ScgExact.v ===== *)
(** * The enumeration route is exact

    What [ScgVerifier] answers on an untimed net, in terms of the runs of the token game
    ([StubbornRuns.run]): every edge of the graph is a firing, a complete graph holds every
    reachable marking, or every reachable dead marking when it is reduced by stubborn sets, and the
    verdict is that of the property's contract over the runs. *)
From S2P Require Import Prelude.
From S2P Require Import Net.
From S2P Require Import Out.
From S2P Require Import Transition.
From S2P Require Import OutSpec.
From S2P Require Import PetriNet.
From S2P Require Import CompiledNet.
From S2P Require Import MarkingState.
From S2P Require Import Dbm.
From S2P Require Import Outcomes.
From S2P Require Import StateClass.
From S2P Require Import ClassSteps.
From S2P Require Import ClassKeys.
From S2P Require Import GraphExact.
From S2P Require Import SmtProperty.
From S2P Require Import StubbornSets.
From S2P Require Import GraphPaths.
From S2P Require Import ScgVerifier.
From S2P Require Import StubbornRuns.
From S2P Require Import StubbornExact.
#[local] Open Scope Z_scope.

Lemma violates_mono prop sinks cond c (r r' : Prop) : (r → r') → violates prop sinks cond c r → violates prop sinks cond c r'.
Proof. intros H. destruct prop; cbn [violates]; tauto. Qed.

Section Space.
Context {V : Type}.
Variables (scale : Z) (ts : list (transition V)) (m0 : marking_state).
Hypothesis Hscale : 0 < scale.
Hypothesis Hnet : scg_net_ok ts [] Ignore m0.
Hypothesis Huntimed : isUntimed ts = true.
Implicit Types (c : state_class) (x : exploration) (t : transition V) (d : jsstr → Z).

Abbreviation class_ok := (class_ok scale ts [] Ignore false m0).
Abbreviation succ c i b o t := (computeSuccessor scale ts [] Ignore c (VirtualTransition i b o) false None t).
Abbreviation counts c := (count_of (sc_marking c)).
Abbreviation enabled := (enabled_at ts [] Ignore).

(** The state of a class in which everything enabled is due. *)
Definition due d : tstate := TState d (λ _, 0).

Lemma immediate_at j : lower_at scale ts false j = 0 ∧ jle (Fin 0) (upper_at scale ts false j).
Proof.
  unfold lower_at, upper_at. destruct (ts !! j) as [t|] eqn:E; cbn [from_option]; [|simpl; split; [done|lia]].
  apply list_elem_of_lookup_2 in E. unfold isUntimed in Huntimed. rewrite forallb_elem in Huntimed. specialize (Huntimed t E).
  unfold clockTiming. destruct (t_timing t); try done. simpl. unfold millisecond, MAX_DURATION_MS. split; [done|lia].
Qed.

Lemma class_enabled c j : class_ok c → j ∈ enabledTransitions c ↔ enabled (counts c) j = true.
Proof. intros Hc. apply (en_in scale ts [] Ignore c (co_wf _ _ _ _ _ _ c Hc)). Qed.

Lemma enabled_token c i t : class_ok c → ts !! i = Some t → i ∈ enabledTransitions c ↔ enabled_counts [] Ignore t (counts c) = true.
Proof. intros Hc Et. rewrite class_enabled by done. unfold enabled_at. by rewrite Et. Qed.

(** A successor by a due transition. *)
Lemma due_step c i b t os o : class_ok c → in_class c (due (counts c)) → i ∈ enabledTransitions c → ts !! i = Some t → outcomes t = Ok os → os !! b = Some o →
  ∃ c', succ c i b o t = Ok c' ∧ class_ok c' ∧ sc_isEmpty c' = false ∧ in_class c' (due (counts c')) ∧ ∀ n, counts c' n = fired_counts [] Ignore t o (counts c) n.
Proof.
  intros Hc Hz Hi Et Eos Eb. destruct (successor_ok scale ts [] Ignore false m0 Hscale Hnet c i b t os o Hc Hi Et Eos Eb) as (c' & E & Hok & Hstep).
  assert (in_class c' (due (fired_counts [] Ignore t o (counts c)))) as Hin.
  { apply (Hstep (due (counts c))); [done|]. exists t. split_and!; [done|by apply class_enabled|done|done|].
    intros j _. destruct (persists _ _ _ _ _ _); [done|]. destruct (immediate_at j) as [-> ?]. by split. }
  pose proof (in_class_full c' _ Hin) as Hfull. exists c'. split_and!; [done|by apply Hok|done| |apply Hin]. destruct Hin as [Hcnt Hz']. by split.
Qed.

Lemma outcomes_inhabited t os : outcomes t = Ok os → os ≠ [].
Proof.
  clear. unfold outcomes. destruct (outputSpec t) as [spec|]; [|by intros [= <-]]. set (l := if bool_decide _ then _ else _).
  assert (l ≠ []) as Hl by (unfold l; case_bool_decide as H; [done|]; by intros E; rewrite E in H).
  destruct (actionTimeout t) as [[? child]|]; [|by intros [= <-]]. destruct (timeoutDeposits t child []) as [m|]; cbn [res_bind]; [|done].
  destruct (existsb _ _); intros [= <-]; [done|]. by destruct l.
Qed.

Lemma outcomes_inhabited_net t : t ∈ ts → ∃ os o, outcomes t = Ok os ∧ o ∈ os.
Proof.
  intros Ht. destruct (net_outcomes ts [] Ignore m0 Hnet t Ht) as (os & Eos & _). pose proof (outcomes_inhabited t os Eos) as Hne.
  destruct os as [|o os]; [done|]. exists (o :: os), o. split; [done|left].
Qed.

Lemma net_outcomes_ok t os o : t ∈ ts → outcomes t = Ok os → o ∈ os → outcome_ok o.
Proof.
  intros Ht Eos Ho. destruct (net_outcomes ts [] Ignore m0 Hnet t Ht) as (os' & Eos' & H). assert (os' = os) as -> by congruence.
  intros d Hd. destruct (H o d Ho Hd) as [H' _]. unfold deposit_ok in H'. by destruct (od_deposit d).
Qed.

Lemma counts_nonneg c : class_ok c → nonneg (counts c).
Proof. intros Hc n. apply count_nonneg, (cw_marking _ _ _ _ c (co_wf _ _ _ _ _ _ c Hc)). Qed.

Section Graph.
Variable sel : selector.
Hypothesis Hsel : ∀ c, class_ok c → is_ok (selected sel c) ∧ ∀ i, i ∈ expanded_of sel c → i ∈ enabledTransitions c.
Hypothesis Hprogress : ∀ c, class_ok c → enabledTransitions c ≠ [] → expanded_of sel c ≠ [].

(** What a construction with the selector leaves. *)
Record space x (g : scg) : Prop := {
  sp_graph : graph_ok scale ts [] Ignore false m0 sel x g;
  sp_traced : traced scale ts [] Ignore false sel x;
  sp_root : ∃ c0, x_classes x !! 0%nat = Some c0 ∧ (∀ n, counts c0 n = count_of m0 n) ∧ in_class c0 (due (counts c0))
}.

Lemma space_built isPassthrough maxClasses : requireOutputProducingActions isPassthrough 0 ts = Ok () →
  ∃ x g, scg_build scale ts [] Ignore false isPassthrough sel None m0 maxClasses = Ok (Some g) ∧ space x g ∧ within maxClasses g.
Proof.
  intros Ha. destruct (build_spec scale ts [] Ignore false m0 Hscale Hnet sel Hsel isPassthrough Ha maxClasses) as (c0 & x & g & E0 & E & G & B & Ex & Hst).
  exists x, g. split; [done|]. split; [|done].
  destruct (build_traced scale ts [] Ignore false sel isPassthrough None m0 maxClasses g c0 E0 E) as (x' & T & Ec & Ee & _).
  assert (x_classes x' = x_classes x ∧ x_edges x' = x_edges x) as [Hc He] by (destruct G; split; congruence).
  assert (in_class c0 (due (count_of m0))) as Hin.
  { apply Hst. split; [done|]. intros j _. destruct (immediate_at j) as [-> ?]. done. }
  constructor; [done| |].
  - destruct T as [T1 T2 T3 T4 T5]. constructor.
    + by rewrite <- Hc, <- He.
    + apply (xo_map _ _ _ _ _ _ x (go_x _ _ _ _ _ _ _ _ _ G)).
    + intros k i e Hed. unfold edges_of in Hed. rewrite <- He in Hed. destruct (T3 k i e Hed) as (c & t & os & o & c' & cj & H). exists c, t, os, o, c', cj. by rewrite <- Hc.
    + intros j Hj. rewrite <- Hc in Hj. destruct (T4 j Hj) as (k & i & e & H). exists k, i, e. unfold edges_of. by rewrite <- He.
    + intros row Hrow. apply T5. by rewrite He.
  - exists c0. destruct Hin as [Hcnt Hz]. by split.
Qed.

Variables (x : exploration) (g : scg).
Hypothesis HS : space x g.

Lemma class_at k c : x_classes x !! k = Some c → class_ok c.
Proof. intros E. apply (xo_classes _ _ _ _ _ _ x (go_x _ _ _ _ _ _ _ _ _ (sp_graph x g HS))). by eapply list_elem_of_lookup_2. Qed.

Lemma same_key c c' : class_ok c → class_ok c' → classKey scale c = classKey scale c' → ∀ s, in_class c s ↔ in_class c' s.
Proof.
  intros [W O He _ _] [W' O' He' _ _]. by apply (classKey_inj scale ts [] Ignore Hscale (no_units _ _ _ _ Hnet) (no_distinct _ _ _ _ Hnet)).
Qed.

Lemma key_due c c' : class_ok c → class_ok c' → classKey scale c = classKey scale c' → in_class c' (due (counts c')) →
  in_class c (due (counts c)) ∧ ∀ n, counts c n = counts c' n.
Proof. intros H H' E Hin. apply (same_key c c' H H' E) in Hin as [Hc Hz]. by split. Qed.

Lemma all_due k : ∀ c, x_classes x !! k = Some c → in_class c (due (counts c)).
Proof.
  induction k as [k IH] using (well_founded_induction lt_wf). intros c Ec. destruct (sp_root x g HS) as (c0 & E0 & _ & Hz).
  destruct (decide (k = 0%nat)) as [->|Hk]; [by replace c with c0 by congruence|].
  destruct (tr_root _ _ _ _ _ _ x (sp_traced x g HS) k) as (k' & i & e & Hlt & He & Et); [apply lookup_lt_Some in Ec; lia|].
  destruct (tr_edge _ _ _ _ _ _ x (sp_traced x g HS) k' i e He) as (c1 & t & os & o & c' & cj & E1 & Hi & Ei & Eos & Eb & Es & _ & Ej & Ekey).
  assert (cj = c) as -> by congruence. pose proof (class_at k' c1 E1) as Hc1. apply (proj2 (Hsel c1 Hc1)) in Hi.
  destruct (due_step c1 i (be_branch e) t os o Hc1 (IH k' Hlt c1 E1) Hi Ei Eos Eb) as (c'' & E'' & Hc'' & _ & Hd & _).
  assert (c'' = c') as -> by congruence. by apply (key_due c c'); [eapply class_at| | |].
Qed.

(** An edge is a firing of the token game. *)
Lemma edge_step k i e : e ∈ edges_of x k i → ∃ c cj o, x_classes x !! k = Some c ∧ x_classes x !! be_target e = Some cj ∧
  i ∈ expanded_of sel c ∧ token_step ts i o (counts c) (counts cj).
Proof.
  intros He. destruct (tr_edge _ _ _ _ _ _ x (sp_traced x g HS) k i e He) as (c & t & os & o & c' & cj & Ec & Hi & Ei & Eos & Eb & Es & _ & Ej & Ekey).
  pose proof (class_at k c Ec) as Hc. assert (i ∈ enabledTransitions c) as Hen by (by apply (proj2 (Hsel c Hc))).
  destruct (due_step c i (be_branch e) t os o Hc (all_due k c Ec) Hen Ei Eos Eb) as (c'' & E'' & Hc'' & _ & Hd & Hcnt).
  assert (c'' = c') as -> by congruence. destruct (key_due cj c') as [_ Hj]; [by eapply class_at|done|done|done|].
  exists c, cj, o. split_and!; [done..|]. exists t, os. split_and!; [done|by apply (enabled_token c i t Hc Ei)|done|by eapply list_elem_of_lookup_2|].
  intros n. by rewrite Hj.
Qed.

(** A firing the selector keeps is an edge of an expanded class. *)
Lemma step_edge k c i o d : (k < expandedCount g)%nat → x_classes x !! k = Some c → i ∈ expanded_of sel c → token_step ts i o (counts c) d →
  ∃ e cj, e ∈ edges_of x k i ∧ x_classes x !! be_target e = Some cj ∧ ∀ n, counts cj n = d n.
Proof.
  intros Hk Ec Hi (t & os & Et & _ & Eos & [b Eb]%list_elem_of_lookup & Hd). pose proof (class_at k c Ec) as Hc.
  destruct (due_step c i b t os o Hc (all_due k c Ec) (proj2 (Hsel c Hc) i Hi) Et Eos Eb) as (c' & E' & Hc' & Hfull & Hdue & Hcnt).
  pose proof (sp_graph x g HS) as G. destruct (go_covered _ _ _ _ _ _ _ _ _ G k c i Hk Ec Hi t os b o c' Et Eos Eb E' Hfull) as (j & Ej & He).
  apply (xo_map _ _ _ _ _ _ x (go_x _ _ _ _ _ _ _ _ _ G)) in Ej as (cj & Ej & Ekey). exists (BranchEdge b j), cj. split_and!; [done|done|].
  destruct (key_due cj c') as [_ Hj]; [by eapply class_at|done|done|done|]. intros n. by rewrite Hj, Hcnt.
Qed.

Lemma marking_at_class k c : x_classes x !! k = Some c → marking_at g k = sc_marking c.
Proof. intros E. unfold marking_at. by rewrite (go_classes _ _ _ _ _ _ _ _ _ (sp_graph x g HS)), E. Qed.

Lemma class_of_index k : (k < g_size g)%nat → ∃ c, x_classes x !! k = Some c.
Proof. intros H. apply lookup_lt_is_Some_2. unfold g_size in H. by rewrite <- (go_classes _ _ _ _ _ _ _ _ _ (sp_graph x g HS)). Qed.

Lemma class_dead c : class_ok c → dead ts (counts c) ↔ enabledTransitions c = [].
Proof.
  intros Hc. split.
  - intros Hd. apply elem_of_nil_inv. intros i Hi%class_enabled; [|done]. unfold enabled_at in Hi. destruct (ts !! i) as [t|] eqn:Et; [|done].
    rewrite Hd in Hi; [done|by eapply list_elem_of_lookup_2].
  - intros Hn t [i Et]%list_elem_of_lookup. apply not_true_iff_false. intros H%(enabled_token c i t Hc Et). rewrite Hn in H. by apply not_elem_of_nil in H.
Qed.

(** A class rests exactly when it was expanded and nothing is enabled in it. *)
Lemma quiescent_iff k c : x_classes x !! k = Some c → scg_quiescent ts g [] k = true ↔ (k < expandedCount g)%nat ∧ dead ts (counts c).
Proof.
  intros Ec. pose proof (class_at k c Ec) as Hc. pose proof (sp_traced x g HS) as T. unfold scg_quiescent. cbn [negb]. rewrite (bool_decide_eq_true_2 (length [] = 0%nat)) by done.
  cbn [negb andb]. rewrite orb_false_r, andb_true_iff, Nat.ltb_lt, bool_decide_eq_true, length_zero_iff_nil, class_dead by done.
  assert (∀ j, j ∈ scg_successors g k ↔ ∃ i e, e ∈ edges_of x k i ∧ be_target e = j) as Hsucc.
  { intros j. unfold scg_successors, outgoingBranchEdges. rewrite elem_of_set_of, (go_edges _ _ _ _ _ _ _ _ _ (sp_graph x g HS)). by eapply graph_targets. }
  split; intros [Hk Hn]; (split; [done|]).
  - destruct (decide (enabledTransitions c = [])) as [|Hne]; [done|exfalso]. apply (Hprogress c Hc) in Hne. destruct (expanded_of sel c) as [|i l] eqn:El; [done|].
    assert (i ∈ expanded_of sel c) as Hi by (rewrite El; left). pose proof (proj2 (Hsel c Hc) i Hi) as Hen.
    assert (∃ t, ts !! i = Some t) as [t Et]. { apply class_enabled in Hen; [|done]. unfold enabled_at in Hen. destruct (ts !! i); [by eexists|done]. }
    destruct (outcomes_inhabited_net t) as (os & o & Eos & Ho); [by eapply list_elem_of_lookup_2|].
    destruct (step_edge k c i o (fired_counts [] Ignore t o (counts c)) Hk Ec Hi) as (e & cj & He & _).
    { exists t, os. split_and!; [done|by apply (enabled_token c i t Hc Et)|done|done|done]. }
    assert (be_target e ∈ scg_successors g k) as H by (apply Hsucc; by exists i, e). rewrite Hn in H. by apply not_elem_of_nil in H.
  - apply elem_of_nil_inv. intros j (i & e & He & _)%Hsucc. destruct (edge_step k i e He) as (c' & cj & o & Ec' & _ & Hi & _).
    assert (c' = c) as -> by congruence. apply (proj2 (Hsel c Hc)) in Hi. rewrite Hn in Hi. by apply not_elem_of_nil in Hi.
Qed.
(** ** Runs through the graph *)

Lemma expanded_index k c : g_complete g = true → x_classes x !! k = Some c → (k < expandedCount g)%nat.
Proof.
  intros Hcomp Ec%lookup_lt_Some. eapply Nat.lt_le_trans; [exact Ec|]. apply (go_complete _ _ _ _ _ _ _ _ _ (sp_graph x g HS) Hcomp).
Qed.

(** A complete graph that expands every enabled transition holds every run. *)
Lemma full_holds : (∀ c, class_ok c → ∀ i, i ∈ enabledTransitions c → i ∈ expanded_of sel c) → g_complete g = true →
  ∀ l k c d, x_classes x !! k = Some c → run ts (counts c) l d → ∃ k' c', x_classes x !! k' = Some c' ∧ ∀ n, counts c' n = d n.
Proof.
  intros Hfull Hcomp. induction l as [|[i o] l IH]; intros k c d Ec Hr; inversion Hr as [? Hd|? ? d1 ? ? Hs Hr1]; subst.
  { exists k, c. split; [done|]. intros n. by rewrite Hd. }
  assert (Hs' := Hs). destruct Hs' as (t & os & Et & En & _). pose proof (class_at k c Ec) as Hc.
  destruct (step_edge k c i o d1) as (e & cj & _ & Ej & Hj); [by eapply expanded_index|done|by apply Hfull; [|apply (enabled_token c i t Hc Et)]|done|].
  eapply IH; [exact Ej|]. by eapply run_ext.
Qed.

(** The selector keeps the enabled members of a stubborn set. *)
Definition keeps_stubborn : Prop := ∀ c, class_ok c → enabledTransitions c ≠ [] → ∃ flags i, i ∈ enabledTransitions c ∧ in_flags flags i ∧
  stubborn_at ts (counts c) (in_flags flags) ∧ ∀ i, i ∈ enabledTransitions c → in_flags flags i → i ∈ expanded_of sel c.

(** A complete graph reduced by stubborn sets holds every dead marking of a run. *)
Lemma reduced_holds_dead : keeps_stubborn → g_complete g = true →
  ∀ n l k c d, length l = n → x_classes x !! k = Some c → run ts (counts c) l d → dead ts d → ∃ k' c', x_classes x !! k' = Some c' ∧ ∀ n, counts c' n = d n.
Proof.
  intros Hst Hcomp. induction n as [|n IH]; intros l k c d Hl Ec Hr Hd; pose proof (class_at k c Ec) as Hc.
  { destruct l; [|done]. inversion Hr as [? Hcd|]; subst. exists k, c. split; [done|]. intros m. by rewrite Hcd. }
  destruct l as [|[i0 o0] l]; [done|]. assert (enabledTransitions c ≠ []) as Hne.
  { inversion Hr as [|? ? ? ? ? (t & os & Et & En & _) _]; subst. apply (enabled_token c i0 t Hc Et) in En. intros E. rewrite E in En. by apply not_elem_of_nil in En. }
  destruct (Hst c Hc Hne) as (flags & i & Hi & Hf & HS' & Hkeep).
  assert (∃ t, ts !! i = Some t) as [t Et]. { apply class_enabled in Hi; [|done]. unfold enabled_at in Hi. destruct (ts !! i); [by eexists|done]. }
  destruct (stubborn_step ts (net_inputs ts [] Ignore m0 Hnet) net_outcomes_ok (counts c) (in_flags flags) (counts_nonneg c Hc) HS' i t ((i0, o0) :: l) d Hf Et) as (j & o & d1 & l' & Hj & Hs & Hr' & Hlen); [by apply (enabled_token c i t Hc Et)|done|done|].
  assert (Hs' := Hs). destruct Hs' as (u & os & Eu & En & _). destruct (step_edge k c j o d1) as (e & cj & _ & Ej & Hcj); [by eapply expanded_index|done| |done|].
  { apply Hkeep; [|done]. by apply (enabled_token c j u Hc Eu). }
  eapply (IH l' (be_target e) cj d); [cbn in *; lia|done|by eapply run_ext|done].
Qed.
(** ** Paths of the graph *)

Lemma edge_iff k i j : edge g k i j ↔ ∃ e, e ∈ edges_of x k i ∧ be_target e = j.
Proof.
  unfold edge, outgoingBranchEdges. rewrite (go_edges _ _ _ _ _ _ _ _ _ (sp_graph x g HS)). split.
  - intros (es & e & Hin & He & <-). exists e. split; [|done]. by eapply row_edges; [apply (sp_traced x g HS)| |].
  - intros (e & He & <-). destruct (edges_row x k i e He) as (es & Hin & He'). by exists es, e.
Qed.

Lemma size_classes : g_size g = length (x_classes x).
Proof. unfold g_size. by rewrite (go_classes _ _ _ _ _ _ _ _ _ (sp_graph x g HS)). Qed.

Lemma edge_bound k i j : edge g k i j → (j < g_size g)%nat.
Proof. intros (e & He & <-)%edge_iff. destruct (edge_step k i e He) as (c & cj & o & _ & Ej & _). rewrite size_classes. by eapply lookup_lt_Some. Qed.

Lemma path_to k : (k < g_size g)%nat → ∃ n, gpath g 0 n k.
Proof.
  induction k as [k IH] using (well_founded_induction lt_wf). intros Hk. destruct (decide (k = 0%nat)) as [->|Hk0]; [exists 0%nat; constructor|].
  rewrite size_classes in *. destruct (tr_root _ _ _ _ _ _ x (sp_traced x g HS) k) as (k' & i & e & Hlt & He & Et); [lia|].
  destruct (IH k' Hlt ltac:(lia)) as [n Hn]. exists (S n). eapply gp_snoc; [exact Hn|]. apply edge_iff. by exists e.
Qed.

(** A sequence of firings from the initial marking, with the names of what fires. *)
Definition firing_sequence (trace : list marking_state) (names : list jsstr) : Prop :=
  (∃ m, head trace = Some m ∧ ∀ n, count_of m n = count_of m0 n) ∧ length trace = S (length names) ∧
  ∀ j m m', trace !! j = Some m → trace !! S j = Some m' → ∃ i o, names !! j = Some (name_at ts i) ∧ token_step ts i o (count_of m) (count_of m').

(** The path search answers, for a class of the graph, a firing sequence to its marking, and no
    path of the graph to that class is shorter. *)
Lemma counterexample_sequence k c : x_classes x !! k = Some c → ∃ trace names, counterexamplePath g (name_at ts) k = Some (trace, names) ∧
  firing_sequence trace names ∧ last trace = Some (sc_marking c) ∧ ∀ n, gpath g 0 n k → (length names ≤ n)%nat.
Proof.
  intros Ek. assert (k < g_size g)%nat as Hk by (rewrite size_classes; by eapply lookup_lt_Some). destruct (path_to k Hk) as [n Hn].
  destruct (counterexamplePath_spec g (name_at ts) edge_bound ltac:(lia) k n Hn) as (ids & names & E & Hhead & Hlast & Hlen & Hstep & Hmin).
  eexists _, names. split; [exact E|]. split; [|split; [|done]].
  - split; [|split; [by rewrite length_fmap|]].
    + destruct (sp_root x g HS) as (c0 & E0 & H0 & _). exists (sc_marking c0). split; [|done]. rewrite <- (marking_at_class 0 c0 E0).
      destruct ids; [done|]. cbn in *. by injection Hhead as ->.
    + intros j m m' Hm Hm'. rewrite list_lookup_fmap in Hm, Hm'. apply fmap_Some in Hm as (a & Ha & ->). apply fmap_Some in Hm' as (b & Hb & ->).
      destruct (Hstep j a b Ha Hb) as (i & Hi & (e & He & <-)%edge_iff). destruct (edge_step a i e He) as (ca & cb & o & Ea & Eb & _ & Hs).
      exists i, o. split; [done|]. by rewrite (marking_at_class a ca Ea), (marking_at_class _ cb Eb).
  - rewrite fmap_last, Hlast. cbn. by rewrite (marking_at_class k c Ek).
Qed.

(** ** The decision *)

Variables (prop : smt_property) (sinks : list place) (cond : list conditional_sinks).
Hypothesis Hprop : isNameAlignment prop = false.

(** What the route's outcome says of the runs. *)
Definition outcome_sound (proves : Prop) (maxClasses : Z) (out : scg_outcome) : Prop :=
  match out with
  | Decided (Proven _ _) _ _ _ _ => proves
  | Decided Violated trace names _ _ => firing_sequence trace names ∧
      ∃ m, last trace = Some m ∧ violates prop sinks cond (count_of m) (dead ts (count_of m))
  | Decided (Unknown _) _ _ _ _ => False
  | Truncated n => maxClasses <= Z.of_nat n
  end.

Lemma decision_sound maxClasses (proves : Prop) : within maxClasses g →
  (g_complete g = true → (∀ k c, x_classes x !! k = Some c → ¬ violates prop sinks cond (counts c) (dead ts (counts c))) → proves) →
  ∃ out, decideOverStateSpace ts g prop sinks cond false [] = Ok (Some out) ∧ outcome_sound proves maxClasses out.
Proof.
  intros Hw Hproves. unfold decideOverStateSpace. rewrite Hprop, andb_true_r.
  destruct (decide_spec (ClassView (g_size g) (marking_at g) (scg_quiescent ts g []) None) prop sinks cond Hprop) as (r & E & Hr).
  { intros i Hi. destruct (class_of_index i Hi) as [c Ec]. cbn [markingOf]. rewrite (marking_at_class i c Ec). apply (co_wf _ _ _ _ _ _ c (class_at i c Ec)). }
  rewrite E. cbn [res_bind]. cbn [view_count markingOf view_quiescent] in Hr. destruct r as [k|].
  - destruct Hr as (Hk & Hbad & _). destruct (class_of_index k Hk) as [c Ec]. destruct (counterexample_sequence k c Ec) as (trace & names & Ep & Hseq & Hlast & _).
    rewrite Ep. cbn [mbind option_bind]. eexists. split; [reflexivity|]. cbn [outcome_sound fst snd]. split; [done|]. exists (sc_marking c). split; [done|].
    rewrite (marking_at_class k c Ec) in Hbad. eapply violates_mono; [|exact Hbad]. intros H. by apply (quiescent_iff k c Ec).
  - eexists. split; [reflexivity|]. unfold isComplete. destruct (g_complete g) eqn:Hcomp; cbn [outcome_sound].
    + apply Hproves; [done|]. intros k c Ec Hbad. apply (Hr k); [rewrite size_classes; by eapply lookup_lt_Some|]. rewrite (marking_at_class k c Ec).
      eapply violates_mono; [|exact Hbad]. intros H. apply (quiescent_iff k c Ec). split; [by eapply expanded_index|done].
    + by apply Hw.
Qed.
End Graph.
End Space.

Lemma dead_ext {V} (ts : list (transition V)) d d' : dead ts d → (∀ n, d' n = d n) → dead ts d'.
Proof. intros H E t Ht. rewrite <- (H t Ht). by apply enabled_counts_ext. Qed.

Lemma run_end_ext {V} (ts : list (transition V)) c l d d' : run ts c l d → (∀ n, d' n = d n) → run ts c l d'.
Proof. intros Hr E. induction Hr as [c d Hd|c i o c1 l d Hs _ IH]; [apply run_nil; intros n; by rewrite E|]. eapply run_cons; [exact Hs|]. by apply IH. Qed.

Lemma run_snoc {V} (ts : list (transition V)) c l d i o d' : run ts c l d → token_step ts i o d d' → run ts c (l ++ [(i, o)]) d'.
Proof.
  intros Hr Hs. induction Hr as [c d Hd|c i' o' c1 l d Hs' _ IH]; cbn [app].
  - eapply run_cons; [by eapply step_ext; [|exact Hs]|by apply run_nil].
  - eapply run_cons; [exact Hs'|]. by apply IH.
Qed.

(** A firing sequence is a run. *)
Lemma sequence_run {V} (ts : list (transition V)) m0 trace names : firing_sequence ts m0 trace names →
  ∀ m, last trace = Some m → ∃ l, run ts (count_of m0) l (count_of m).
Proof.
  intros ((m1 & Hhead & H1) & Hlen & Hstep) m Hlast. rewrite last_lookup in Hlast.
  assert (∀ k m, trace !! k = Some m → ∃ l, run ts (count_of m0) l (count_of m)) as H; [|by eapply H].
  clear m Hlast. induction k as [|k IH]; intros m Hm.
  - exists []. apply run_nil. destruct trace; [done|]. injection Hhead as ->. by injection Hm as <-.
  - destruct (lookup_lt_is_Some_2 trace k) as [m' Hm']; [apply lookup_lt_Some in Hm; lia|]. destruct (IH m' Hm') as [l Hr].
    destruct (Hstep k m' m Hm' Hm) as (i & o & _ & Hs). exists (l ++ [(i, o)]). by eapply run_snoc.
Qed.

Definition quiescence_property (prop : smt_property) : bool :=
  match prop with DeadlockFree | TerminatesAtSink | JoinedOrDeadLettered _ | QuiescentCount _ _ _ _ => true | _ => false end.

Lemma violates_rests prop sinks cond c r : quiescence_property prop = true → violates prop sinks cond c r → r.
Proof. destruct prop; try done; cbn [violates]; tauto. Qed.

(** The verifier reduces the graph for these properties only. *)
Lemma stubbornEnumeration_quiescence {V} (ts : list (transition V)) por prop : stubbornEnumeration ts por prop = Ok true → quiescence_property prop = true.
Proof. by destruct prop. Qed.

(** The selectors of the route keep enabled transitions, and some of a class that has any. *)
Section Selectors.
Context {V : Type}.
Variables (scale : Z) (ts : list (transition V)) (m0 : marking_state).
Hypothesis Hscale : 0 < scale.
Hypothesis Hnet : scg_net_ok ts [] Ignore m0.
Abbreviation class_ok := (class_ok scale ts [] Ignore false m0).
Abbreviation good sel := ((∀ c, class_ok c → is_ok (selected sel c) ∧ ∀ i, i ∈ expanded_of sel c → i ∈ enabledTransitions c) ∧
  (∀ c, class_ok c → enabledTransitions c ≠ [] → expanded_of sel c ≠ [])).

Lemma full_selector : good (None : selector).
Proof. split; [by intros c Hc; split|done]. Qed.

Lemma stubborn_selector_ok : ∃ ss, stubborn_new ts = Ok ss ∧ good (Some (stubborn_selector ss)) ∧ keeps_stubborn scale ts m0 (Some (stubborn_selector ss)).
Proof.
  destruct (stubborn_new_ok ts) as [ss Ess]. { intros t Ht. by destruct (net_outcomes ts [] Ignore m0 Hnet t Ht) as (os & -> & _). }
  exists ss. split; [done|].
  assert (∀ c, class_ok c → ∃ l, selected (Some (stubborn_selector ss)) c = Ok l ∧ expanded_of (Some (stubborn_selector ss)) c = l ∧
    (∀ i, i ∈ l → i ∈ enabledTransitions c) ∧ (enabledTransitions c ≠ [] → l ≠ []) ∧
    (enabledTransitions c ≠ [] → ∃ flags i, i ∈ enabledTransitions c ∧ in_flags flags i ∧ stubborn_at ts (count_of (sc_marking c)) (in_flags flags) ∧
      ∀ i, i ∈ enabledTransitions c → in_flags flags i → i ∈ l)) as H.
  { intros c Hc. pose proof (co_wf _ _ _ _ _ _ c Hc) as W.
    destruct (select_spec ts ss Ess (sc_marking c) (enabledTransitions c)) as (l & E & H1 & H2 & H3).
    - apply W.
    - apply (en_NoDup scale ts [] Ignore c W).
    - intros i. rewrite (en_in scale ts [] Ignore c W). unfold enabled_at. destruct (ts !! i); naive_solver.
    - exists l. unfold expanded_of, selected, stubborn_selector. rewrite E. by split_and!. }
  split; [split|].
  - intros c Hc. destruct (H c Hc) as (l & -> & -> & ? & _). by split.
  - intros c Hc. destruct (H c Hc) as (l & _ & -> & _ & ? & _). done.
  - intros c Hc. destruct (H c Hc) as (l & _ & -> & _ & _ & ?). done.
Qed.
End Selectors.

(** ** Properties *)

(** C8: the enumeration route is exact. On an untimed net of built transitions, for every property
    but name alignment, with and without stubborn-set reduction (the latter for the quiescence
    properties it is used for), it never throws and always answers. "Proven" holds exactly as
    stated: no firing sequence from the initial marking ends in a marking that violates the
    property, at rest when it is dead. "Violated" comes with a firing sequence of the net, each step
    labelled by its transition, that ends in such a marking. It gives up only when the graph has
    [maxClasses] classes. *)
Theorem enumeration_exact {V} scale (ts : list (transition V)) isPassthrough m0 prop sinks cond maxClasses (stubborn : bool) :
  0 < scale → scg_net_ok ts [] Ignore m0 → requireOutputProducingActions isPassthrough 0 ts = Ok () → isUntimed ts = true →
  isNameAlignment prop = false → (stubborn = true → quiescence_property prop = true) →
  ∃ out, verifyViaStateClassGraph ts scale isPassthrough m0 prop sinks maxClasses cond None stubborn = Ok (Some out) ∧
    outcome_sound ts m0 prop sinks cond (∀ l c, run ts (count_of m0) l c → ¬ violates prop sinks cond c (dead ts c)) maxClasses out.
Proof.
  intros Hs Hn Ha Hu Hp Hq. unfold verifyViaStateClassGraph, buildStateSpace.
  assert (∃ sel, (if stubborn then let* ss := stubborn_new ts in Ok (Some (stubborn_selector ss)) else Ok None) = Ok sel ∧
    (∀ c, class_ok scale ts [] Ignore false m0 c → is_ok (selected sel c) ∧ ∀ i, i ∈ expanded_of sel c → i ∈ enabledTransitions c) ∧
    (∀ c, class_ok scale ts [] Ignore false m0 c → enabledTransitions c ≠ [] → expanded_of sel c ≠ []) ∧
    (if stubborn then keeps_stubborn scale ts m0 sel else sel = None)) as (sel & -> & Hsel & Hprog & Hkeep).
  { destruct stubborn; [|exists None; by destruct (full_selector scale ts m0)].
    destruct (stubborn_selector_ok scale ts m0 Hn) as (ss & -> & [H1 H2] & H3). cbn [res_bind]. by eexists. }
  cbn [res_bind]. destruct (space_built scale ts m0 Hs Hn Hu sel Hsel isPassthrough maxClasses Ha) as (x & g & -> & HS & Hw). cbn [lift_graph res_bind].
  destruct (sp_root _ _ _ _ x g HS) as (c0 & E0 & Hc0 & _).
  destruct (decision_sound scale ts m0 Hs Hn Hu sel Hsel Hprog x g HS prop sinks cond Hp maxClasses (∀ l c, run ts (count_of m0) l c → ¬ violates prop sinks cond c (dead ts c)) Hw)
    as (out & Eout & Hout).
  - intros Hcomp Hnone l d Hr Hbad. apply (run_ext ts (count_of m0) (count_of (sc_marking c0))) in Hr; [|done].
    assert (∃ k' c', x_classes x !! k' = Some c' ∧ ∀ n, count_of (sc_marking c') n = d n) as (k & c & Ek & Hc).
    { destruct stubborn.
      - eapply (reduced_holds_dead scale ts m0 Hs Hn Hu sel Hsel x g HS Hkeep Hcomp (length l) l 0); [done|done|done|]. eapply violates_rests; [by apply Hq|exact Hbad].
      - subst sel. by eapply (full_holds scale ts m0 Hs Hn Hu None Hsel x g HS); [| | |exact Hr]. }
    apply (Hnone k c Ek). eapply violates_ext; [exact Hc| |exact Hbad]. split; intros H t Ht; specialize (H t Ht); by rewrite <- H; [..|]; apply enabled_counts_ext.
  - exists out. rewrite Eout. by split.
Qed.

(** C14: stubborn sets keep every deadlock. The reduced graph of an untimed net of built transitions
    is always built, and when it is complete its resting classes are exactly the dead markings of
    the token game: a count vector that enables nothing is reached by some firing sequence of the
    net if and only if a class at rest carries it. *)
Theorem stubborn_keeps_dead {V} scale (ts : list (transition V)) isPassthrough m0 maxClasses :
  0 < scale → scg_net_ok ts [] Ignore m0 → requireOutputProducingActions isPassthrough 0 ts = Ok () → isUntimed ts = true →
  ∃ g, buildStateSpace ts scale isPassthrough m0 maxClasses None true = Ok (Some g) ∧
    (isComplete g = true → ∀ d, (dead ts d ∧ ∃ l, run ts (count_of m0) l d) ↔
      ∃ k, (k < g_size g)%nat ∧ scg_quiescent ts g [] k = true ∧ ∀ n, count_of (marking_at g k) n = d n) ∧
    (isComplete g = false → maxClasses <= Z.of_nat (g_size g)).
Proof.
  intros Hs Hn Ha Hu. unfold buildStateSpace. destruct (stubborn_selector_ok scale ts m0 Hn) as (ss & -> & [Hsel Hprog] & Hkeep). cbn [res_bind].
  destruct (space_built scale ts m0 Hs Hn Hu _ Hsel isPassthrough maxClasses Ha) as (x & g & E & HS & Hw). exists g. split; [exact E|]. split; [|exact Hw].
  intros Hcomp d. destruct (sp_root _ _ _ _ x g HS) as (c0 & E0 & Hc0 & _). split.
  - intros [Hd [l Hr]]. apply (run_ext ts (count_of m0) (count_of (sc_marking c0))) in Hr; [|done].
    destruct (reduced_holds_dead scale ts m0 Hs Hn Hu _ Hsel x g HS Hkeep Hcomp (length l) l 0 c0 d eq_refl E0 Hr Hd) as (k & c & Ek & Hc).
    exists k. split_and!; [rewrite (size_classes _ _ _ _ x g HS); by eapply lookup_lt_Some| |by rewrite (marking_at_class _ _ _ _ x g HS k c Ek)].
    apply (quiescent_iff scale ts m0 Hs Hn Hu _ Hsel Hprog x g HS k c Ek). split; [by apply (expanded_index _ _ _ _ x g HS k c Hcomp Ek)|]. by eapply dead_ext.
  - intros (k & Hk & Hq & Hc). destruct (class_of_index _ _ _ _ x g HS k Hk) as [c Ek]. rewrite (marking_at_class _ _ _ _ x g HS k c Ek) in Hc.
    destruct (proj1 (quiescent_iff scale ts m0 Hs Hn Hu _ Hsel Hprog x g HS k c Ek) Hq) as [_ Hdead]. split; [eapply dead_ext; [exact Hdead|]; intros n; by rewrite Hc|].
    destruct (counterexample_sequence scale ts m0 Hs Hn Hu _ Hsel x g HS k c Ek) as (trace & names & _ & Hseq & Hlast & _).
    destruct (sequence_run ts m0 trace names Hseq _ Hlast) as [l Hr]. exists l. eapply run_end_ext; [exact Hr|]. intros n. by rewrite Hc.
Qed.

(** ** Concrete nets *)

Definition place_of (k : nat) (n : string) : place := Place k (js n).
Definition moves (name : string) (from to : place) : builder unit := with_outputs (OutPlace to) (with_inputs [InOne from] (builder_new (js name))).

(** Two tokens on their own, each with one move. *)
Definition fork_builders : list (builder unit) := [moves "left" (place_of 0 "a") (place_of 2 "c"); moves "right" (place_of 1 "b") (place_of 3 "d")].
Definition fork_net : list (transition unit) := built <$> fork_builders.
Definition fork_initial : marking_state := MarkingState [(js "a", 1); (js "b", 1)] [(js "a", place_of 0 "a"); (js "b", place_of 1 "b")].

Lemma fork_initial_good : good_marking fork_initial.
Proof. by apply checked_marking_good. Qed.

Lemma fork_net_ok : scg_net_ok fork_net [] Ignore fork_initial.
Proof. by apply (checked_net_ok fork_builders). Qed.

Definition fork_verdict (prop : smt_property) (sinks : list place) (stubborn : bool) : result route_error (option scg_outcome) :=
  verifyViaStateClassGraph fork_net 1 (λ _, false) fork_initial prop sinks 10 [] None stubborn.

Definition fork_sinks : list place := [place_of 2 "c"; place_of 3 "d"].
Definition fork_both : smt_property := MutualExclusion (place_of 2 "c") (place_of 3 "d").

(** The reduced graph of three classes proves that both tokens come to rest in sinks; the full
    graph of four finds the way to both sinks. *)
Lemma enumeration_exact_witness :
  (fork_verdict DeadlockFree fork_sinks true = Ok (Some (Decided (Proven enumeration_method None) [] [] 3 false)) ∧
   ∀ l c, run fork_net (count_of fork_initial) l c → ¬ violates DeadlockFree fork_sinks [] c (dead fork_net c)) ∧
  ∃ trace, fork_verdict fork_both [] false = Ok (Some (Decided Violated trace [js "left"; js "right"] 4 false)) ∧
    firing_sequence fork_net fork_initial trace [js "left"; js "right"] ∧
    ∃ m, last trace = Some m ∧ violates fork_both [] [] (count_of m) (dead fork_net (count_of m)).
Proof.
  split.
  - assert (fork_verdict DeadlockFree fork_sinks true = Ok (Some (Decided (Proven enumeration_method None) [] [] 3 false))) as E by (vm_compute; reflexivity).
    split; [exact E|]. destruct (enumeration_exact 1 fork_net (λ _, false) fork_initial DeadlockFree fork_sinks [] 10 true) as (out & E' & H).
    + lia.
    + exact fork_net_ok.
    + reflexivity.
    + reflexivity.
    + reflexivity.
    + reflexivity.
    + unfold fork_verdict in E. rewrite E in E'. injection E' as <-. exact H.
  - destruct (enumeration_exact 1 fork_net (λ _, false) fork_initial fork_both [] [] 10 false) as (out & E' & H).
    + lia.
    + exact fork_net_ok.
    + reflexivity.
    + reflexivity.
    + reflexivity.
    + discriminate.
    + vm_compute in E'. injection E' as <-. eexists. split; [vm_compute; reflexivity|]. exact H.
Defined.

Lemma stubborn_keeps_dead_witness : ∃ g, buildStateSpace fork_net 1 (λ _, false) fork_initial 10 None true = Ok (Some g) ∧ g_size g = 3%nat ∧
  ∀ d, (dead fork_net d ∧ ∃ l, run fork_net (count_of fork_initial) l d) ↔
    ∃ k, (k < g_size g)%nat ∧ scg_quiescent fork_net g [] k = true ∧ ∀ n, count_of (marking_at g k) n = d n.
Proof.
  destruct (stubborn_keeps_dead 1 fork_net (λ _, false) fork_initial 10) as (g & E & H & _).
  - lia.
  - exact fork_net_ok.
  - reflexivity.
  - reflexivity.
  - exists g. split; [exact E|]. vm_compute in E. injection E as <-. split; [reflexivity|]. apply H. reflexivity.
Defined.
