(* ===== verification/VerifierInput.v ===== *)
(** * What the verifier is asked

    [src/typescript/src/verification/smt-verifier.ts]: the net every route sees (marked places the
    net does not declare join it as inert places), the places a property names, and the refusal of a
    property that names a place the net does not have. *)
From S2P Require Import Prelude.
From S2P Require Import Net.
From S2P Require Import Transition.
From S2P Require Import PetriNet.
From S2P Require Import CompiledNet.
From S2P Require Import MarkingState.
From S2P Require Import FlatNet.
From S2P Require Import SmtProperty.
#[local] Open Scope Z_scope.

(** [net] with every marked place it does not declare; the same net when there is none. *)
Definition withInertMarkedPlaces {V} (net : petri_net V) (m : marking_state) : result net_error (petri_net V) :=
  let declared := set_of (place_name <$> net_places net) in
  let inert := filter (λ p, place_name p ∉ declared) (placesWithTokens m) in
  if bool_decide (length inert = 0)%nat then Ok net
  else
    let b := foldl (λ b p, nb_place p b) (net_builder_new (net_name net)) (net_places net ++ inert) in
    let b := foldl (λ b p, nb_terminal p b) b (net_terminals net) in
    let b := foldl (λ b y, nb_transition y.1 y.2 b) b (imap pair (net_transitions net)) in
    net_build b.

Definition propertyPlaces (prop : smt_property) : list place :=
  match prop with
  | DeadlockFree | TerminatesAtSink => []
  | MutualExclusion p1 p2 => [p1; p2]
  | PlaceBound p _ | BranchPlaceBound p _ | JoinedOrDeadLettered p => [p]
  | Unreachable ps | NameAligned ps | QuiescentNameAligned ps => ps
  | QuiescentCount ps _ _ waivedBy => ps ++ waivedBy
  end.

Definition unresolvedPropertyPlaceInNet {V} (net : petri_net V) (prop : smt_property) : option jsstr :=
  let declared := set_of (place_name <$> net_places net) in
  place_name <$> js_find (λ p, bool_decide (place_name p ∉ declared)) (propertyPlaces prop).

Definition unresolvedPropertyPlace (fn : flat_net) (prop : smt_property) : option jsstr :=
  place_name <$> js_find (λ p, bool_decide (map_get (place_name p) (flatIndex fn) = None)) (propertyPlaces prop).

(** ** What they ensure *)

Lemma js_find_None {A} (f : A → bool) l : js_find f l = None ↔ ∀ x, x ∈ l → f x = false.
Proof.
  unfold js_find. destruct (list_find _ l) as [[i x]|] eqn:E; cbn.
  - split; [done|]. intros H. apply list_find_Some in E as (E & Hf & _). apply list_elem_of_lookup_2 in E. by rewrite H in Hf.
  - split; [|done]. intros _ x Hx. apply list_find_None in E. rewrite Forall_forall in E. specialize (E x Hx). by destruct (f x).
Qed.

Lemma unresolved_None {V} (net : petri_net V) prop : unresolvedPropertyPlaceInNet net prop = None ↔
  ∀ p, p ∈ propertyPlaces prop → place_name p ∈ place_name <$> net_places net.
Proof.
  unfold unresolvedPropertyPlaceInNet. cbv zeta. rewrite fmap_None, js_find_None. setoid_rewrite bool_decide_eq_false. setoid_rewrite elem_of_set_of.
  split; intros H p Hp; specialize (H p Hp); destruct (decide (place_name p ∈ place_name <$> net_places net)); tauto.
Qed.

Section Inert.
Context {V : Type}.
Implicit Types (b : net_builder V).

Lemma nb_places_spec ps b : let b' := foldl (λ b p, nb_place p b) b ps in
  (∀ p, p ∈ nb_places b' ↔ p ∈ nb_places b ∨ p ∈ ps) ∧ nb_transitions b' = nb_transitions b ∧ nb_terminals b' = nb_terminals b.
Proof.
  revert b. induction ps as [|q ps IH]; intros b; cbn [foldl]; [set_solver|]. destruct (IH (nb_place q b)) as (H1 & -> & ->).
  split_and!; [|done|done]. intros p. rewrite H1. cbn [nb_place nb_places]. rewrite elem_of_set_add. set_solver.
Qed.

Lemma nb_terminals_spec ps b : NoDup (place_name <$> ps) → (∀ p, p ∈ ps → map_get (place_name p) (nb_terminals b) = None) →
  let b' := foldl (λ b p, nb_terminal p b) b ps in
  (∀ p, p ∈ nb_places b → p ∈ nb_places b') ∧ nb_transitions b' = nb_transitions b ∧ (nb_terminals b').*2 = (nb_terminals b).*2 ++ ps.
Proof.
  revert b. induction ps as [|q ps IH]; intros b Hd Hf; cbn [foldl]; [by rewrite app_nil_r|]. rewrite fmap_cons in Hd. apply NoDup_cons in Hd as [Hq Hd].
  pose proof (Hf q ltac:(left)) as Hn. destruct (IH (nb_terminal q b)) as (H1 & H2 & H3).
  - done.
  - intros p Hp. cbn [nb_terminal nb_terminals]. rewrite Hn, map_get_set, decide_False; [apply Hf; by right|]. intros E. apply Hq. rewrite <- E. by apply list_elem_of_fmap_2.
  - split_and!; [|by rewrite H2|].
    + intros p Hp. apply H1. cbn. rewrite elem_of_set_add. by right.
    + rewrite H3. cbn [nb_terminal nb_terminals]. rewrite Hn, map_set_fresh by done. rewrite fmap_app, <- app_assoc. done.
Qed.

Lemma nb_transitions_spec (l : list (nat * transition V)) b : NoDup l.*1 → (∀ i, i ∈ l.*1 → i ∉ (nb_transitions b).*1) →
  let b' := foldl (λ b y, nb_transition y.1 y.2 b) b l in
  (∀ p, p ∈ nb_places b → p ∈ nb_places b') ∧ nb_transitions b' = nb_transitions b ++ l ∧ nb_terminals b' = nb_terminals b.
Proof.
  revert b. induction l as [|[i t] l IH]; intros b Hd Hf; cbn [foldl]; [by rewrite app_nil_r|]. rewrite fmap_cons in Hd. apply NoDup_cons in Hd as [Hi Hd].
  pose proof (Hf i ltac:(left)) as Hn. destruct (IH (nb_transition i t b)) as (H1 & H2 & H3).
  - done.
  - intros j Hj. cbn [nb_transition nb_transitions]. rewrite decide_False by done. rewrite fmap_app, not_elem_of_app. split; [apply Hf; by right|].
    cbn. intros ->%list_elem_of_singleton. done.
  - cbn [fst snd]. split_and!; [|rewrite H2|by rewrite H3].
    + intros p Hp. apply H1. cbn. rewrite elem_of_set_union. by left.
    + cbn [nb_transition nb_transitions]. rewrite decide_False by done. by rewrite <- app_assoc.
Qed.

(** The net the routes see has the transitions and terminals of the net, and all marked places. *)
Lemma withInert_spec (net : petri_net V) m : net_wf net → ms_wf m → ∃ net', withInertMarkedPlaces net m = Ok net' ∧
  net_transitions net' = net_transitions net ∧ net_terminals net' = net_terminals net ∧
  (∀ p, p ∈ net_places net → p ∈ net_places net') ∧ ∀ n, 0 < count_of m n → n ∈ place_name <$> net_places net'.
Proof.
  intros (W1 & W2 & W3 & W4) Hm. unfold withInertMarkedPlaces. cbv zeta. set (inert := filter _ _).
  assert (∀ n, 0 < count_of m n → n ∈ place_name <$> net_places net ∨ n ∈ place_name <$> inert) as Hmark.
  { intros n Hn. apply marked_place in Hn; [|done]. apply list_elem_of_fmap in Hn as (p & -> & Hp).
    destruct (decide (place_name p ∈ place_name <$> net_places net)) as [|Hno]; [by left|right]. apply list_elem_of_fmap_2, list_elem_of_filter.
    by rewrite elem_of_set_of. }
  case_bool_decide as Hl.
  { exists net. split_and!; try done. intros n Hn. destruct (Hmark n Hn) as [|Hi]; [done|]. apply nil_length_inv in Hl. rewrite Hl in Hi. by apply not_elem_of_nil in Hi. }
  destruct (nb_places_spec (net_places net ++ inert) (net_builder_new (net_name net))) as (P1 & P2 & P3). cbn zeta in *. set (b1 := foldl _ _ (_ ++ inert)) in *.
  destruct (nb_terminals_spec (net_terminals net) b1 W3) as (T1 & T2 & T3); [by intros p _; rewrite P3|]. cbn zeta in *. set (b2 := foldl _ b1 _) in *.
  assert ((imap pair (net_transitions net)).*1 = seq 0 (length (net_transitions net))) as Hseq.
  { apply list_eq. intros i. rewrite list_lookup_fmap, list_lookup_imap. destruct (net_transitions net !! i) eqn:E; cbn.
    - symmetry. apply lookup_seq_lt. by eapply lookup_lt_Some.
    - symmetry. apply lookup_seq_ge. by apply lookup_ge_None. }
  destruct (nb_transitions_spec (imap pair (net_transitions net)) b2) as (N1 & N2 & N3).
  { rewrite Hseq. apply NoDup_seq. }
  { intros i _. rewrite T2, P2. by apply not_elem_of_nil. }
  cbn zeta in *. set (b3 := foldl _ b2 _) in *.
  assert ((nb_transitions b3).*2 = net_transitions net) as Et.
  { rewrite N2, T2, P2. cbn [app nb_transitions net_builder_new]. apply list_eq. intros i. rewrite list_lookup_fmap, list_lookup_imap. by destruct (_ !! i). }
  assert ((nb_terminals b3).*2 = net_terminals net) as Ek by (rewrite N3, T3, P3; done).
  unfold net_build. cbv zeta. rewrite Et, Ek. assert (requireWellFormedTerminals (net_terminals net) (net_transitions net) = Ok ()) as ->
    by (apply requireWellFormedTerminals_ok; intros p t; apply W4). cbn [res_bind].
  eexists. split; [reflexivity|]. cbn [net_transitions net_terminals net_places]. split_and!; [done|done| |].
  - intros p Hp. apply N1, T1, P1. right. apply elem_of_app. by left.
  - intros n [Hn|Hn]%Hmark; apply list_elem_of_fmap in Hn as (p & -> & Hp); apply list_elem_of_fmap_2, N1, T1, P1; right; apply elem_of_app; tauto.
Qed.
End Inert.
