(* ===== verification/Replay.v ===== *)
(** * Replaying a counterexample

    The second half of [src/typescript/src/verification/z3/abstract-replayer.ts]: the violation
    predicate on count vectors and the breadth-first search for a firing order of a decoded
    counterexample. A search node is its position in [nodes]; a [parent] of -1 is [None]. *)
From S2P Require Import Prelude.
From S2P Require Import Net.
From S2P Require Import Transition.
From S2P Require Import PetriNet.
From S2P Require Import CompiledNet.
From S2P Require Import MarkingState.
From S2P Require Import StateClass.
From S2P Require Import FlatNet.
From S2P Require Import SmtProperty.
From S2P Require Import DbmZone.
From stdpp Require Import relations.
#[local] Open Scope Z_scope.

(** ** The violation predicate *)

(** An injectable place meets a requirement its bound allows. *)
Definition injectable (bound : option Z) (need : Z) : bool := negb (match bound with Some b => b <? need | None => false end).

Definition enabledRelaxEnv (s : abstract_state) (ft : flat_transition) (envInj : list (nat * option Z)) : bool :=
  forallb (λ p, let pre := entry_at (preVector ft) p in
    if pre <=? 0 then true
    else match map_get p envInj with Some bound => injectable bound pre | None => negb (entry_at s p <? pre) end) (seq 0 (length s))
  && forallb (λ p, match map_get p envInj with Some bound => injectable bound 1 | None => negb (entry_at s p <? 1) end) (readIds ft)
  && forallb (λ p, entry_at s p =? 0) (inhibitorIds ft).

Definition isQuiescent (ri : replay_index) (s : abstract_state) : bool :=
  forallb (λ ft, reapable ft || negb (enabledRelaxEnv s ft (envInj ri))) (flatTransitions (ri_net ri)).

Definition resolvedIndices (fn : flat_net) (places : list place) : list nat := set_of (ids (flatIndex fn) places).

(** A place is stranded when none of the markers that excuse it is marked. *)
Definition stranded_at (excuses : list (option (list nat))) (s : abstract_state) (pid : nat) : bool :=
  match default None (excuses !! pid) with
  | None => false
  | Some markers => negb (entry_at s pid <? 1) && forallb (λ k, entry_at s k =? 0) markers
  end.

Definition satisfiesBadIndexed (ri : replay_index) (s : abstract_state) (prop : smt_property) (sinks : list place) (cond : list conditional_sinks)
    : result property_error bool :=
  let fn := ri_net ri in
  match prop with
  | DeadlockFree =>
      Ok (isQuiescent ri s && existsb (stranded_at (strandingExcuses fn sinks cond) s) (seq 0 (length (flatPlaces fn))))
  | TerminatesAtSink => Ok (isQuiescent ri s && forallb (λ pid, entry_at s pid =? 0) (resolvedIndices fn sinks))
  | MutualExclusion p1 p2 =>
      Ok (match map_get (place_name p1) (flatIndex fn), map_get (place_name p2) (flatIndex fn) with
          | Some i, Some j => (1 <=? entry_at s i) && (1 <=? entry_at s j)
          | _, _ => false
          end)
  | PlaceBound p bound | BranchPlaceBound p bound =>
      Ok (match map_get (place_name p) (flatIndex fn) with Some i => bound <? entry_at s i | None => false end)
  | JoinedOrDeadLettered p =>
      Ok (match map_get (place_name p) (flatIndex fn) with Some i => isQuiescent ri s && (1 <=? entry_at s i) | None => false end)
  | Unreachable ps =>
      let resolved := ids (flatIndex fn) ps in
      Ok (forallb (λ i, negb (entry_at s i <? 1)) resolved && (0 <? length resolved)%nat)
  | QuiescentCount ps min max waivedBy =>
      let count := foldl (λ z i, z + entry_at s i) 0 (resolvedIndices fn ps) in
      Ok (isQuiescent ri s &&
          (if jnum_ltb max (Fin count) then true
           else (count <? min) && forallb (λ k, entry_at s k =? 0) (resolvedIndices fn waivedBy)))
  | NameAligned _ | QuiescentNameAligned _ => Err (RouteBOnly (routeBOnlyReason prop))
  end.

Definition satisfiesBad (s : abstract_state) (fn : flat_net) (prop : smt_property) (sinks : list place) (cond : list conditional_sinks)
    : result property_error bool := satisfiesBadIndexed (buildIndex fn) s prop sinks cond.

Definition violationPredicate (fn : flat_net) (prop : smt_property) (sinks : list place) (cond : list conditional_sinks) (s : abstract_state)
    : result property_error bool := satisfiesBadIndexed (buildIndex fn) s prop sinks cond.

(** ** The search *)

Record replay_options := ReplayOptions { opt_segmentBudget : option Z; opt_nodeBudget : option Z }.

Inductive replay_outcome :=
| Confirmed (states : list abstract_state) (steps : list replay_step) (nodesExplored : nat)
| NoChain (nodesExplored : nat)
| Exhausted (reason : jsstr) (nodesExplored : nat).

Record search_node := SearchNode {
  sn_state : abstract_state;
  sn_step : option replay_step;
  sn_parent : option nat;
  sn_segment : nat
}.

Record replay_search := ReplaySearch {
  rs_nodes : list search_node;
  bestSegment : list (jsstr * nat);
  rs_queue : list nat
}.

(** The nodes from [i] back to the root. *)
Fixpoint walk_nodes (nodes : list search_node) (fuel : nat) (i : nat) : option (list search_node) :=
  match fuel with
  | O => None
  | S fuel =>
      node ← nodes !! i;
      match sn_parent node with
      | None => Some [node]
      | Some p => rest ← walk_nodes nodes fuel p; Some (node :: rest)
      end
  end.

Definition reconstruct (nodes : list search_node) (last : nat) : option (list abstract_state * list replay_step) :=
  chain ← walk_nodes nodes (S last) last;
  Some (reverse (sn_state <$> chain), reverse (omap sn_step chain)).

Section Replay.
Variables (fn : flat_net) (prop : smt_property) (sinks : list place) (cond : list conditional_sinks).
Variables (segmentBudget nodeBudget : Z) (anchors : list jsstr).

Definition dominated (key : jsstr) (segment : nat) (x : replay_search) : bool :=
  match map_get key (bestSegment x) with Some prior => (prior <=? segment)%nat | None => false end.

(** The successors of a node; [inl] is an answer, [None] a chain that does not lead back to the root. *)
Fixpoint visit_successors (idx : nat) (node : search_node) (succs : list (abstract_state * replay_step)) (x : replay_search)
    : result property_error (option (replay_outcome + replay_search)) :=
  match succs with
  | [] => Ok (Some (inr x))
  | succ :: succs =>
      let key := stateKey succ.1 in
      let segment := if decide (key ∈ anchors) then 0%nat else S (sn_segment node) in
      if dominated key segment x then visit_successors idx node succs x
      else
        let best := map_set key segment (bestSegment x) in
        if nodeBudget <=? Z.of_nat (length (rs_nodes x)) then
          Ok (Some (inl (Exhausted (js "search budget exhausted (" ++ number_string nodeBudget ++ js " nodes) before reaching a violating state")
                           (length (rs_nodes x)))))
        else
          let nodes := rs_nodes x ++ [SearchNode succ.1 (Some succ.2) (Some idx) segment] in
          let child := (length nodes - 1)%nat in
          let* bad := satisfiesBadIndexed (buildIndex fn) succ.1 prop sinks cond in
          if bad then Ok (y ← reconstruct nodes child; Some (inl (Confirmed y.1 y.2 (length nodes))))
          else visit_successors idx node succs (ReplaySearch nodes best (rs_queue x ++ [child]))
  end.

(** The loop over the queue; [None] when the fuel is spent. *)
Fixpoint replay_loop (fuel : nat) (x : replay_search) (head : nat) (truncated : bool) : result property_error (option replay_outcome) :=
  match fuel with
  | O => Ok None
  | S fuel =>
      match rs_queue x !! head with
      | None =>
          Ok (Some (if truncated
                    then Exhausted (js "no violating state within " ++ number_string segmentBudget ++ js " abstract step(s) of a decoded state (" ++
                                    number_string (Z.of_nat (length (bestSegment x))) ++ js " state(s) explored)") (length (rs_nodes x))
                    else NoChain (length (rs_nodes x))))
      | Some idx =>
          match rs_nodes x !! idx with
          | None => Ok None
          | Some node =>
              if segmentBudget <=? Z.of_nat (sn_segment node) then replay_loop fuel x (S head) true
              else
                let* r := visit_successors idx node (successorsIndexed (buildIndex fn) (sn_state node)) x in
                match r with
                | None => Ok None
                | Some (inl answer) => Ok (Some answer)
                | Some (inr x) => replay_loop fuel x (S head) truncated
                end
          end
      end
  end.
End Replay.

Definition replayCounterexample (fn : flat_net) (initial : abstract_state) (decodedStates : list abstract_state) (prop : smt_property)
    (sinks : list place) (options : replay_options) (cond : list conditional_sinks) : result property_error (option replay_outcome) :=
  let segmentBudget := default 3 (opt_segmentBudget options) in
  let nodeBudget := default 10000 (opt_nodeBudget options) in
  let anchors := set_of (stateKey <$> decodedStates) in
  if bool_decide (length anchors = 0)%nat then Ok (Some (Exhausted (js "no decoded states to replay") 0))
  else if negb (bool_decide (stateKey initial ∈ anchors)) then
    Ok (Some (Exhausted (js "the initial marking is not among the decoded states") 0))
  else
    let* bad := satisfiesBadIndexed (buildIndex fn) initial prop sinks cond in
    if bad then Ok (Some (Confirmed [initial] [] 1))
    else replay_loop fn prop sinks cond segmentBudget nodeBudget anchors (S (S (Z.to_nat nodeBudget)))
           (ReplaySearch [SearchNode initial None None 0] [(stateKey initial, 0%nat)] [0%nat]) 0 false.

(** * A replay answers the truth

    The search of [Replay]: it always answers; a confirmed counterexample is a chain of steps of the
    flat net from the initial state to a violating one; and when the search answers that there is no
    chain, no reachable state violates the property. *)
#[local] Open Scope Z_scope.

(** ** Keys *)

Lemma number_no_comma z : COMMA_UNIT ∉ number_string z.
Proof.
  destruct (decide (0 <= z)) as [H|H]; [by apply not_digit; [|unfold digit, COMMA_UNIT; lia]|].
  rewrite number_neg by lia. intros [?|Hin]%elem_of_cons; [done|]. revert Hin. apply not_digit; [lia|unfold digit, COMMA_UNIT; lia].
Qed.

Lemma stateKey_inj (s s' : abstract_state) : length s = length s' → stateKey s = stateKey s' → s = s'.
Proof.
  intros El E. destruct s as [|z s]; [by destruct s'|]. destruct s' as [|z' s']; [done|].
  apply (join_unit_inj COMMA_UNIT) in E; [|by intros x (n & -> & _)%list_elem_of_fmap; apply number_no_comma..|done|done].
  pose proof (number_string_inj : Inj eq eq number_string). revert E. apply (inj (fmap number_string)).
Qed.

(** ** Steps *)

Lemma fireIndexed_length s ft resets : length (fireIndexed s ft resets) = length s.
Proof. unfold fireIndexed. by rewrite length_fmap, length_seq. Qed.

Lemma successors_length fn s s' st : (s', st) ∈ successors s fn → length s' = length s.
Proof.
  intros H. assert (flat_step fn s s') as Hs by (by apply (list_elem_of_fmap_2 fst) in H). apply flat_step_iff in Hs as [(ft & _ & _ & -> & _)|(n & b & i & _ & _ & -> & _)]; cbn.
  - apply fireIndexed_length.
  - apply length_insert.
Qed.

(** A chain of labelled steps. *)
Definition linked (fn : flat_net) (states : list abstract_state) (steps : list replay_step) : Prop :=
  length states = S (length steps) ∧
  ∀ j s s', states !! j = Some s → states !! S j = Some s' → ∃ st, steps !! j = Some st ∧ (s', st) ∈ successors s fn.

Lemma linked_snoc fn states steps s s' st : linked fn states steps → last states = Some s → (s', st) ∈ successors s fn →
  linked fn (states ++ [s']) (steps ++ [st]).
Proof.
  intros [Hl Hs] Hlast Hst. split; [rewrite !length_app; cbn; lia|]. intros j a b Ha Hb.
  apply lookup_snoc_Some in Hb as [[Hlt Hb]|[Ej <-]].
  - rewrite lookup_app_l in Ha by lia. destruct (Hs j a b Ha Hb) as (st' & Est & ?). exists st'. split; [by apply lookup_app_l_Some|done].
  - rewrite last_lookup, <- Ej in Hlast. cbn in Hlast. rewrite lookup_app_l in Ha by lia. assert (a = s) as -> by congruence.
    exists st. split; [|done]. rewrite lookup_app_r by lia. by replace (j - length steps)%nat with 0%nat by lia.
Qed.

Section Search.
Variables (fn : flat_net) (prop : smt_property) (sinks : list place) (cond : list conditional_sinks).
Variables (segmentBudget nodeBudget : Z) (anchors : list jsstr) (init : abstract_state).
Hypothesis Hprop : isNameAlignment prop = false.
Implicit Types (x : replay_search) (nodes : list search_node) (s : abstract_state).

Abbreviation bad s := (satisfiesBadIndexed (buildIndex fn) s prop sinks cond).

Lemma bad_ok s : bad s = Ok true ∨ bad s = Ok false.
Proof. destruct prop; try done; cbn [satisfiesBadIndexed]; match goal with |- Ok ?b = _ ∨ _ => destruct b; auto end. Qed.

(** ** The tree of nodes *)

Record tree_ok nodes : Prop := {
  tn_root : nodes !! 0%nat = Some (SearchNode init None None 0);
  tn_child : ∀ k nd, (0 < k)%nat → nodes !! k = Some nd → ∃ p pnd st, sn_parent nd = Some p ∧ (p < k)%nat ∧ nodes !! p = Some pnd ∧
    sn_step nd = Some st ∧ (sn_state nd, st) ∈ successors (sn_state pnd) fn
}.

Lemma walk_chain nodes : tree_ok nodes → ∀ fuel i nd, (i < fuel)%nat → nodes !! i = Some nd →
  ∃ chain, walk_nodes nodes fuel i = Some chain ∧ let states := reverse (sn_state <$> chain) in
    head states = Some init ∧ last states = Some (sn_state nd) ∧ linked fn states (reverse (omap sn_step chain)).
Proof.
  intros [T0 T]. induction fuel as [|fuel IH]; intros i nd Hi Ei; [lia|]. cbn [walk_nodes]. rewrite Ei. cbn [mbind option_bind].
  destruct (decide (i = 0%nat)) as [->|Hi0].
  - assert (nd = SearchNode init None None 0) as -> by congruence. cbn [sn_parent]. eexists. split; [reflexivity|]. cbn. split_and!; [done|done|].
    split; [done|]. by intros [|j] s s' Ha Hb.
  - destruct (T i nd ltac:(lia) Ei) as (p & pnd & st & Ep & Hp & Epn & Est & Hst). rewrite Ep.
    destruct (IH p pnd ltac:(lia) Epn) as (chain & -> & Hhead & Hlast & Hlink). cbn [mbind option_bind]. eexists. split; [reflexivity|]. cbv zeta in *.
    rewrite fmap_cons, reverse_cons. cbn [omap list_omap]. rewrite Est, reverse_cons. split_and!; [by destruct (reverse (sn_state <$> chain))|by rewrite last_snoc|].
    by eapply linked_snoc.
Qed.

Lemma reconstruct_chain nodes i nd : tree_ok nodes → nodes !! i = Some nd →
  ∃ states steps, reconstruct nodes i = Some (states, steps) ∧ head states = Some init ∧ last states = Some (sn_state nd) ∧ linked fn states steps.
Proof.
  intros T Ei. unfold reconstruct. destruct (walk_chain nodes T (S i) i nd ltac:(lia) Ei) as (chain & -> & H). cbn [mbind option_bind]. eauto.
Qed.

(** ** The search *)

Record search_ok x : Prop := {
  so_tree : tree_ok (rs_nodes x);
  so_queue : rs_queue x = seq 0 (length (rs_nodes x));
  so_best : ∀ key seg, map_get key (bestSegment x) = Some seg → ∃ nd, nd ∈ rs_nodes x ∧ stateKey (sn_state nd) = key;
  so_length : ∀ nd, nd ∈ rs_nodes x → length (sn_state nd) = length init;
  so_good : ∀ nd, nd ∈ rs_nodes x → bad (sn_state nd) = Ok false;
  so_size : Z.of_nat (length (rs_nodes x)) <= Z.max 1 nodeBudget
}.

(** What an answer says. *)
Definition answer_ok (out : replay_outcome) : Prop :=
  match out with
  | Confirmed states steps _ => head states = Some init ∧ linked fn states steps ∧ ∃ s, last states = Some s ∧ bad s = Ok true
  | NoChain _ => ∀ s, flat_reachable fn init s → bad s = Ok false
  | Exhausted _ _ => True
  end.

Definition known x s : Prop := is_Some (map_get (stateKey s) (bestSegment x)).
Definition extends x x' : Prop := (∃ l, rs_nodes x' = rs_nodes x ++ l) ∧ ∀ s, known x s → known x' s.

Lemma extends_refl x : extends x x.
Proof. split; [exists []; by rewrite app_nil_r|done]. Qed.
Lemma extends_trans x1 x2 x3 : extends x1 x2 → extends x2 x3 → extends x1 x3.
Proof. intros [[l1 E1] H1] [[l2 E2] H2]. split; [exists (l1 ++ l2); by rewrite E2, E1, <- app_assoc|auto]. Qed.
Lemma extends_node x x' k nd : extends x x' → rs_nodes x !! k = Some nd → rs_nodes x' !! k = Some nd.
Proof. intros [[l ->] _]. apply lookup_app_l_Some. Qed.

(** One successor enters the search. *)
Lemma admit_ok x idx nd s st segment : search_ok x → rs_nodes x !! idx = Some nd → (s, st) ∈ successors (sn_state nd) fn → bad s = Ok false →
  Z.of_nat (length (rs_nodes x)) < nodeBudget →
  let x' := ReplaySearch (rs_nodes x ++ [SearchNode s (Some st) (Some idx) segment]) (map_set (stateKey s) segment (bestSegment x))
              (rs_queue x ++ [(length (rs_nodes x ++ [SearchNode s (Some st) (Some idx) segment]) - 1)%nat]) in
  search_ok x' ∧ extends x x' ∧ known x' s.
Proof.
  intros [[T0 T] Q B L G Z0] Ei Hs Hb Hn. cbn zeta. pose proof (lookup_lt_Some _ _ _ Ei) as Hlt. set (nw := SearchNode _ _ _ _). split; [|split].
  - constructor; cbn [rs_nodes rs_queue bestSegment].
    + constructor; [by apply lookup_app_l_Some|]. intros k nd' Hk [[_ Hl]|[-> <-]]%lookup_snoc_Some.
      * destruct (T k nd' Hk Hl) as (p & pnd & st' & ? & ? & Hp & ? & ?). exists p, pnd, st'. split_and!; try done. by apply lookup_app_l_Some.
      * exists idx, nd, st. split_and!; try done. by apply lookup_app_l_Some.
    + rewrite Q, length_app. cbn [length]. rewrite Nat.add_sub, Nat.add_1_r, seq_S. done.
    + intros key seg. rewrite map_get_set. case_decide as Ek.
      * intros _. exists nw. split; [apply elem_of_app; right; left|by rewrite Ek].
      * intros (nd' & ? & ?)%B. exists nd'. split; [apply elem_of_app; by left|done].
    + intros nd' [?| ->%list_elem_of_singleton]%elem_of_app; [by apply L|]. cbn. rewrite (successors_length fn _ _ _ Hs). apply L. by eapply list_elem_of_lookup_2.
    + intros nd' [?| ->%list_elem_of_singleton]%elem_of_app; [by apply G|done].
    + rewrite length_app. cbn. lia.
  - split; [by eexists|]. intros s' [seg Hk]. unfold known. cbn [bestSegment]. rewrite map_get_set. case_decide; by eexists.
  - unfold known. cbn [bestSegment]. rewrite map_get_set, decide_True by done. by eexists.
Qed.

Lemma visit_spec idx nd succs : ∀ x, search_ok x → rs_nodes x !! idx = Some nd → (∀ y, y ∈ succs → y ∈ successors (sn_state nd) fn) →
  ∃ r, visit_successors fn prop sinks cond nodeBudget anchors idx nd succs x = Ok (Some r) ∧
  match r with
  | inl out => answer_ok out
  | inr x' => search_ok x' ∧ extends x x' ∧ ∀ y, y ∈ succs → known x' y.1
  end.
Proof.
  induction succs as [|[s st] succs IH]; intros x Hx Ei Hall; cbn [visit_successors].
  { exists (inr x). split; [done|]. split_and!; [done|apply extends_refl|by intros y ?%not_elem_of_nil]. }
  cbv zeta. cbn [fst snd]. set (segment := if decide _ then _ else _). unfold dominated.
  assert (∀ y, y ∈ succs → y ∈ successors (sn_state nd) fn) as Hall' by (intros; apply Hall; by right).
  destruct (match map_get (stateKey s) (bestSegment x) with Some _ => _ | None => _ end) eqn:Ed.
  - destruct (IH x Hx Ei Hall') as (r & -> & Hr). exists r. split; [done|]. destruct r as [|x']; [done|]. destruct Hr as (H1 & H2 & H3). split_and!; [done|done|].
    intros y [->|Hy]%elem_of_cons; [|by apply H3]. apply H2. revert Ed. unfold known. cbn [fst]. destruct (map_get (stateKey s) (bestSegment x)); [by eexists|done].
  - clear Ed. destruct (Z.leb_spec nodeBudget (Z.of_nat (length (rs_nodes x)))) as [Hn|Hn]; [eexists; split; [reflexivity|done]|].
    specialize (Hall (s, st) ltac:(left)) as Hs. destruct (bad_ok s) as [Eb|Eb]; rewrite Eb; cbn [res_bind].
    + destruct (reconstruct_chain (rs_nodes x ++ [SearchNode s (Some st) (Some idx) segment]) (length (rs_nodes x ++ [SearchNode s (Some st) (Some idx) segment]) - 1)
        (SearchNode s (Some st) (Some idx) segment)) as (states & steps & -> & H1 & H2 & H3).
      * destruct (so_tree x Hx) as [T0 T]. constructor; [by apply lookup_app_l_Some|]. intros k nd' Hk [[_ Hl]|[-> <-]]%lookup_snoc_Some.
        -- destruct (T k nd' Hk Hl) as (p & pnd & st' & ? & ? & Hp & ? & ?). exists p, pnd, st'. split_and!; try done. by apply lookup_app_l_Some.
        -- exists idx, nd, st. split_and!; try done; [by eapply lookup_lt_Some|by apply lookup_app_l_Some].
      * rewrite length_app. cbn [length]. rewrite Nat.add_sub, lookup_app_r, Nat.sub_diag by lia. done.
      * cbn [mbind option_bind fst snd]. eexists. split; [reflexivity|]. cbn. split_and!; [done|done|]. by exists s.
    + destruct (admit_ok x idx nd s st segment Hx Ei Hs Eb Hn) as (Hx' & Hext & Hk). cbn zeta in *.
      destruct (IH _ Hx' (extends_node _ _ _ _ Hext Ei) Hall') as (r & -> & Hr). exists r. split; [done|]. destruct r as [|x'']; [done|].
      destruct Hr as (H1 & H2 & H3). split_and!; [done|by eapply extends_trans|]. intros y [->|Hy]%elem_of_cons; [by apply H2|by apply H3].
Qed.

(** The first [h] nodes have all their successors in the search. *)
Definition closed_below x (h : nat) : Prop := ∀ k nd s st, (k < h)%nat → rs_nodes x !! k = Some nd → (s, st) ∈ successors (sn_state nd) fn → known x s.

Lemma closed_reachable x : search_ok x → closed_below x (length (rs_nodes x)) → ∀ s, flat_reachable fn init s → bad s = Ok false.
Proof.
  intros Hx Hc. assert (∀ s, flat_reachable fn init s → ∃ nd, nd ∈ rs_nodes x ∧ sn_state nd = s) as H.
  { apply rtc_ind_r.
    - exists (SearchNode init None None 0). split; [|done]. eapply list_elem_of_lookup_2. apply (so_tree x Hx).
    - intros s1 s2 _ ([s st] & -> & Hst)%list_elem_of_fmap (nd & Hnd & <-). apply list_elem_of_lookup in Hnd as Hk. destruct Hk as [k Hk].
      destruct (Hc k nd s st (lookup_lt_Some _ _ _ Hk) Hk Hst) as [seg Hs]. destruct (so_best x Hx _ _ Hs) as (nd' & Hnd' & Ek).
      exists nd'. split; [done|]. apply stateKey_inj; [|done]. cbn. by rewrite (so_length x Hx nd' Hnd'), (successors_length fn _ _ _ Hst), (so_length x Hx nd Hnd). }
  intros s (nd & Hnd & <-)%H. by apply (so_good x Hx).
Qed.

Lemma loop_spec fuel : ∀ x h truncated, search_ok x → (h ≤ length (rs_nodes x))%nat → (truncated = false → closed_below x h) →
  Z.max 1 nodeBudget < Z.of_nat (fuel + h) →
  ∃ out, replay_loop fn prop sinks cond segmentBudget nodeBudget anchors fuel x h truncated = Ok (Some out) ∧ answer_ok out.
Proof.
  induction fuel as [|fuel IH]; intros x h truncated Hx Hh Hc Hf; [pose proof (so_size x Hx); lia|]. cbn [replay_loop]. rewrite (so_queue x Hx).
  destruct (decide (h < length (rs_nodes x))%nat) as [Hlt|Hge].
  2:{ rewrite lookup_seq_ge by lia. eexists. split; [reflexivity|]. destruct truncated; [done|]. cbn. replace h with (length (rs_nodes x)) in Hc by lia. by apply (closed_reachable x Hx), Hc. }
  rewrite lookup_seq_lt by done. cbn [Nat.add]. destruct (lookup_lt_is_Some_2 (rs_nodes x) h Hlt) as [nd End]. rewrite End.
  destruct (Z.leb_spec segmentBudget (Z.of_nat (sn_segment nd))).
  { apply IH; [done|lia|done|lia]. }
  destruct (visit_spec h nd (successorsIndexed (buildIndex fn) (sn_state nd)) x Hx End ltac:(done)) as (r & -> & Hr). cbn [res_bind].
  destruct r as [out|x']; [by exists out|]. destruct Hr as (Hx' & Hext & Hk). apply IH; [done| | |lia].
  - destruct Hext as [[l ->] _]. rewrite length_app. lia.
  - intros Et k nd' s st Hk' Ek Hst. destruct (decide (k = h)) as [->|Hne].
    + rewrite (extends_node _ _ _ _ Hext End) in Ek. injection Ek as <-. by apply (Hk (s, st)).
    + destruct (lookup_lt_is_Some_2 (rs_nodes x) k ltac:(lia)) as [nd0 E0]. rewrite (extends_node _ _ _ _ Hext E0) in Ek. injection Ek as <-.
      apply Hext. by apply (Hc Et k nd0 s st ltac:(lia) E0).
Qed.
End Search.

Lemma replay_spec fn initial decoded prop sinks options cond : isNameAlignment prop = false →
  ∃ out, replayCounterexample fn initial decoded prop sinks options cond = Ok (Some out) ∧ answer_ok fn prop sinks cond initial out.
Proof.
  intros Hp. unfold replayCounterexample. cbv zeta. case_bool_decide; [by eexists|]. case_bool_decide as Hin; cbn [negb]; [|by eexists].
  destruct (bad_ok fn prop sinks cond Hp initial) as [Eb|Eb]; rewrite Eb; cbn [res_bind].
  - eexists. split; [reflexivity|]. cbn. split_and!; [done|split; [done|by intros [|j] s s' Ha Hb]|by exists initial].
  - apply loop_spec; [done| |cbn; lia|intros _ k nd s st Hk; lia|lia]. constructor; cbn [rs_nodes rs_queue bestSegment].
    + constructor; [done|]. by intros [|k] nd Hk Hl; [lia|].
    + done.
    + intros key seg. cbn [map_get]. case_decide as Ek; [|done]. intros _. exists (SearchNode initial None None 0). split; [left|done].
    + by intros nd ->%list_elem_of_singleton.
    + by intros nd ->%list_elem_of_singleton.
    + cbn. lia.
Qed.
