(* ===== verification/ReplayContract.v ===== *)
(** * The replayer and the enumeration share one contract

    On a closed net the violation predicate of the replayer ([Replay]) on count vectors is the
    contract [SmtProperty.violates] of the enumeration route, so that a confirmed replay is a run of
    the token game to a violating marking, and an exhaustive one proves there is none. *)
From stdpp Require Import relations.
From S2P Require Import Prelude.
From S2P Require Import Net.
From S2P Require Import Out.
From S2P Require Import OutSpec.
From S2P Require Import Transition.
From S2P Require Import PetriNet.
From S2P Require Import CompiledNet.
From S2P Require Import MarkingState.
From S2P Require Import Context.
From S2P Require Import Outcomes.
From S2P Require Import StateClass.
From S2P Require Import ClassSteps.
From S2P Require Import GraphExact.
From S2P Require Import FlatNet.
From S2P Require Import SmtProperty.
From S2P Require Import VerifierInput.
From S2P Require Import StubbornRuns.
From S2P Require Import ScgExact.
From S2P Require Import Replay.
#[local] Open Scope Z_scope.

(** ** Sums over distinct indices *)

Lemma set_of_snoc {A} `{EqDecision A} (l : list A) x : set_of (l ++ [x]) = set_add x (set_of l).
Proof. unfold set_of. by rewrite foldl_app. Qed.

Lemma sum_set_add (c : jsstr → Z) (s : list jsstr) n : foldr (λ n z, c n + z) 0 (set_add n s) = foldr (λ n z, c n + z) 0 s + (if decide (n ∈ s) then 0 else c n).
Proof.
  unfold set_add. case_decide; [lia|]. clear. induction s as [|x s IH]; cbn; [lia|]. rewrite IH. lia.
Qed.

Lemma foldl_sum_app (f : nat → Z) l l' z : foldl (λ z i, z + f i) z (l ++ l') = foldl (λ z i, z + f i) z l + foldl (λ z i, z + f i) 0 l'.
Proof. revert z. induction l as [|x l IH]; intros z; cbn [foldl app]; [|apply IH]. revert z. induction l' as [|y l' IH]; intros z; cbn; [lia|]. rewrite IH, (IH (0 + f y)). lia. Qed.

(** A sum over the distinct names is the sum over their distinct indices, absent names counting nothing. *)
Lemma sum_indices (f : jsstr → option nat) (c : jsstr → Z) (g : nat → Z) (ns : list jsstr) :
  (∀ a b i, f a = Some i → f b = Some i → a = b) → (∀ a i, f a = Some i → g i = c a) → (∀ a, f a = None → c a = 0) →
  foldl (λ z i, z + g i) 0 (set_of (omap f ns)) = foldr (λ n z, c n + z) 0 (set_of ns).
Proof.
  intros Hinj Hg Hnone. induction ns as [|n ns IH] using rev_ind; [done|]. rewrite omap_app, set_of_snoc, sum_set_add, <- IH. cbn [omap list_omap].
  destruct (f n) as [i|] eqn:En; [|rewrite app_nil_r, (Hnone n En); case_decide; lia].
  rewrite set_of_snoc. unfold set_add. assert (i ∈ set_of (omap f ns) ↔ n ∈ set_of ns) as Hin.
  { rewrite !elem_of_set_of, list_elem_of_omap. split; [intros (a & Ha & Ea); by rewrite <- (Hinj a n i Ea En)|by exists n]. }
  destruct (decide (i ∈ set_of (omap f ns))); destruct (decide (n ∈ set_of ns)); try tauto; [lia|]. rewrite foldl_sum_app. cbn [foldl]. rewrite (Hg n i En). lia.
Qed.

(** ** Excuses *)

Section Excuses.
Variables (ps : list place) (ix : list (jsstr * nat)).
Hypothesis Hix : ids_ok ps ix.
Variables (pid : nat) (p : place).
Hypothesis Hp : ps !! pid = Some p.
Implicit Types (ex : list (option (list nat))).

Definition ex_at ex : option (list nat) := default None (ex !! pid).

Lemma excuse_index : map_get (place_name p) ix = Some pid.
Proof. apply Hix. eauto. Qed.
Lemma name_of q : map_get q ix = Some pid → q = place_name p.
Proof. intros (x & Hx & <-)%Hix. by simplify_eq. Qed.

Lemma ex_insert ex i v : length ex = length ps → (i < length ps)%nat → ex_at (<[i := v]> ex) = if decide (i = pid) then v else ex_at ex.
Proof.
  intros Hl Hi. unfold ex_at. case_decide as E; [subst; by rewrite list_lookup_insert_eq by lia|by rewrite list_lookup_insert_ne].
Qed.

(** What a fold of exceptions leaves: [None] when [P], else a list of the [m] with [Q m]. *)
Definition excused ex (P : Prop) (Q : nat → Prop) : Prop :=
  length ex = length ps ∧ match ex_at ex with None => P | Some l => ¬ P ∧ ∀ m, m ∈ l ↔ Q m end.

Lemma excused_ext ex P Q P' Q' : (P ↔ P') → (∀ m, Q m ↔ Q' m) → excused ex P Q → excused ex P' Q'.
Proof.
  intros HP HQ [Hl H]. split; [done|]. destruct (ex_at ex); [|by apply HP]. destruct H as [H1 H2]. split; [by rewrite <- HP|]. intros m. by rewrite H2.
Qed.

Lemma index_bound n i : map_get n ix = Some i → (i < length ps)%nat.
Proof. intros (q & Hq & _)%Hix. by eapply lookup_lt_Some. Qed.

Lemma excuse_places mid qs : ∀ ex P Q, excused ex P Q → excused (foldl (excuse_place ix mid) ex qs) P (λ m, Q m ∨ m = mid ∧ place_name p ∈ place_name <$> qs).
Proof.
  induction qs as [|q qs IH]; intros ex P Q H; cbn [foldl].
  { eapply excused_ext; [| |exact H]; [done|]. intros m. rewrite fmap_nil, elem_of_nil. tauto. }
  eapply excused_ext; [reflexivity| |apply IH with (Q := λ m, Q m ∨ m = mid ∧ place_name p = place_name q)].
  { intros m. rewrite fmap_cons, elem_of_cons. tauto. }
  clear IH. unfold excuse_place. destruct (map_get (place_name q) ix) as [i|] eqn:Ei.
  2:{ eapply excused_ext; [| |exact H]; [done|]. intros m. split; [tauto|]. intros [?|[_ E]]; [done|]. rewrite <- E, excuse_index in Ei. done. }
  destruct (decide (i = pid)) as [->|Hne].
  - apply name_of in Ei. destruct H as [Hl H]. unfold ex_at in H. destruct (ex !! pid) as [[l|]|] eqn:Ex; cbn [default from_option id] in H.
    + destruct H as [H1 H2]. case_bool_decide as Hin.
      * split; [done|]. unfold ex_at. rewrite Ex. cbn. split; [done|]. intros m. rewrite H2. split; [tauto|]. intros [?|[-> _]]; [done|by apply H2].
      * split; [by rewrite length_insert|]. rewrite ex_insert, decide_True by (done || rewrite <- Hl; by eapply lookup_lt_Some). split; [done|].
        intros m. rewrite elem_of_app, list_elem_of_singleton, H2. naive_solver.
    + split; [done|]. unfold ex_at. by rewrite Ex.
    + split; [done|]. unfold ex_at. by rewrite Ex.
  - assert (place_name p ≠ place_name q) as Hnq. { intros E. rewrite <- E, excuse_index in Ei. congruence. }
    eapply excused_ext with (P := P) (Q := Q); [done|intros m; naive_solver|]. destruct H as [Hl H]. pose proof (index_bound _ _ Ei).
    destruct (ex !! i) as [[l|]|]; [|by split..]. case_bool_decide; [by split|]. split; [by rewrite length_insert|]. by rewrite ex_insert, decide_False.
Qed.

Lemma excuse_conditionals cond : ∀ ex P Q, excused ex P Q → excused (foldl (excuse_conditional ix) ex cond)
  (P ∨ ∃ k, k ∈ cond ∧ place_name p = place_name (marker k))
  (λ m, Q m ∨ ∃ k, k ∈ cond ∧ map_get (place_name (marker k)) ix = Some m ∧ place_name p ∈ place_name <$> rest_places k).
Proof.
  induction cond as [|k cond IH]; intros ex P Q H; cbn [foldl].
  { eapply excused_ext; [| |exact H]; [|intros m]; setoid_rewrite elem_of_nil; naive_solver. }
  eapply excused_ext; [| |apply IH with (P := P ∨ place_name p = place_name (marker k))
    (Q := λ m, Q m ∨ map_get (place_name (marker k)) ix = Some m ∧ place_name p ∈ place_name <$> rest_places k)].
  1,2: setoid_rewrite elem_of_cons; naive_solver.
  clear IH. unfold excuse_conditional. destruct (map_get (place_name (marker k)) ix) as [mid|] eqn:Em.
  2:{ eapply excused_ext; [| |exact H]; [|naive_solver]. split; [tauto|]. intros [?|E]; [done|]. rewrite <- E, excuse_index in Em. done. }
  eapply excused_ext; [reflexivity| |apply excuse_places with (Q := Q)]; [naive_solver|].
  destruct H as [Hl H]. split; [by rewrite length_insert|]. pose proof (index_bound _ _ Em). rewrite ex_insert by done. case_decide as E.
  - subst mid. apply name_of in Em. by right.
  - assert (place_name p ≠ place_name (marker k)) as Hne. { intros E'. rewrite <- E', excuse_index in Em. congruence. }
    destruct (ex_at ex); [|by left]. destruct H as [H1 H2]. split; [tauto|done].
Qed.

Lemma excuse_sinks sinks : ∀ ex P Q, excused ex P Q →
  excused (foldl (λ ex sink, match map_get (place_name sink) ix with Some i => <[i := None]> ex | None => ex end) ex sinks) (P ∨ place_name p ∈ place_name <$> sinks) Q.
Proof.
  induction sinks as [|q sinks IH]; intros ex P Q H; cbn [foldl].
  { eapply excused_ext; [| |exact H]; [|done]. rewrite fmap_nil, elem_of_nil. tauto. }
  eapply excused_ext; [|reflexivity|apply IH with (P := P ∨ place_name p = place_name q)]; [rewrite fmap_cons, elem_of_cons; tauto|].
  clear IH. destruct (map_get (place_name q) ix) as [i|] eqn:Ei.
  2:{ eapply excused_ext; [|reflexivity|exact H]. split; [tauto|]. intros [?|E]; [done|]. rewrite <- E, excuse_index in Ei. done. }
  destruct H as [Hl H]. split; [by rewrite length_insert|]. pose proof (index_bound _ _ Ei). rewrite ex_insert by done. case_decide as E.
  - subst i. apply name_of in Ei. by right.
  - assert (place_name p ≠ place_name q) as Hne. { intros E'. rewrite <- E', excuse_index in Ei. congruence. }
    destruct (ex_at ex); [|by left]. destruct H as [H1 H2]. split; [tauto|done].
Qed.
End Excuses.

(** ** The contract *)

Section Contract.
Context {V : Type}.
Variables (net : petri_net V) (fn : flat_net) (m0 : marking_state).
Hypothesis Hflat : flatten net [] Ignore (λ _, false) = Ok fn.
Hypothesis Hbuilt : built_net net.
Hypothesis Hdrained : drainedForward (net_transitions net) = Ok None.
Abbreviation ts := (net_transitions net).
Implicit Types (c : jsstr → Z) (prop : smt_property).

Lemma closed_injection : environmentInjection fn = [].
Proof. destruct (flat_fields net [] Ignore (λ _, false) fn Hflat) as (_ & _ & E & _). by injection E. Qed.

Lemma relax_closed s ft : enabledRelaxEnv s ft (envInj (buildIndex fn)) = enabledA s ft.
Proof.
  unfold buildIndex. cbn [envInj]. rewrite closed_injection. cbn [foldl]. unfold enabledRelaxEnv, enabledA. f_equal. f_equal.
  apply forallb_ext_eq. intros p. cbn [map_get]. cbv zeta. destruct (Z.leb_spec (entry_at (preVector ft) p) 0), (Z.ltb_spec 0 (entry_at (preVector ft) p)); try lia; done.
Qed.

Lemma closed_quiescent c : nonneg c → isQuiescent (buildIndex fn) (state_of fn c) = true ↔ dead ts c.
Proof.
  intros Hc. unfold isQuiescent. change (flatTransitions (ri_net (buildIndex fn))) with (flatTransitions fn). rewrite forallb_elem. setoid_rewrite relax_closed.
  pose proof (elem_of_flatTransitions net [] Ignore (λ _, false) fn Hflat) as Hel. split.
  - intros H t Ht. destruct (Hbuilt t Ht) as (b & Hb & Hi). destruct (outcomes_ok b t Hi Hb) as (os & Eos & _). pose proof (outcomes_inhabited t os Eos) as Hne.
    destruct os as [|o os]; [done|]. apply list_elem_of_lookup in Ht as Hi'. destruct Hi' as [i Ei].
    specialize (H (flat_outcome (λ _, false) fn i t (length (o :: os)) 0 o)). rewrite Hel in H. specialize (H ltac:(by exists i, t, (o :: os), 0%nat, o)).
    rewrite (enabledA_exact net [] Ignore (λ _, false) fn Hflat (built_inputs net Hbuilt)) in H by done. cbn [reapable] in H. by apply negb_true_iff in H.
  - intros H ft (i & t & os & b & o & Ei & Eos & Eb & ->)%Hel. assert (t ∈ ts) as Ht by (by eapply list_elem_of_lookup_2).
    rewrite (enabledA_exact net [] Ignore (λ _, false) fn Hflat (built_inputs net Hbuilt)) by done. by rewrite H.
Qed.

(** Only places of the net are marked. *)
Definition inside c : Prop := ∀ n, n ∉ place_name <$> flatPlaces fn → c n = 0.

Lemma no_index n : map_get n (flatIndex fn) = None → n ∉ place_name <$> flatPlaces fn.
Proof.
  intros E (p & -> & [i Hi]%list_elem_of_lookup)%list_elem_of_fmap. assert (map_get (place_name p) (flatIndex fn) = Some i); [|congruence].
  apply (flat_ids net [] Ignore (λ _, false) fn Hflat). eauto.
Qed.

Lemma inside_step i o c c' : inside c → token_step ts i o c c' → inside c'.
Proof.
  intros Hc (t & os & Et & _ & Eos & Ho & Hf) n Hn. rewrite Hf, untouched; [by apply Hc|]. assert (t ∈ ts) as Ht by (by eapply list_elem_of_lookup_2).
  intros Hw. apply Hn. apply (flat_names net [] Ignore (λ _, false) fn Hflat).
  assert (∃ p, p ∈ flat_named net ∧ place_name p = n) as (p & Hp & <-); [|by apply list_elem_of_fmap_2].
  destruct Hw as [[Hw|Hw]|Hw].
  - apply list_elem_of_fmap in Hw as (s & -> & Hs). exists (in_place s). split; [|done]. apply (named_of_transition net t); [done|]. left. by apply list_elem_of_fmap_2.
  - apply list_elem_of_fmap in Hw as (p & -> & Hp). exists p. split; [|done]. apply (named_of_transition net t); [done|]. tauto.
  - apply list_elem_of_fmap in Hw as (d & -> & Hd). destruct (Hbuilt t Ht) as (b & Hb & Hi). destruct (outcomes_ok b t Hi Hb) as (os' & Eos' & Hall).
    assert (os' = os) as -> by congruence. destruct (Hall o d Ho Hd) as [_ (sp & Esp & Hu)]. apply universe_places in Hu as (p & Hp & <-). exists p. split; [|done].
    apply (named_of_transition net t); [done|]. right. left. by rewrite Esp.
Qed.

(** The places a property must name in the net for the routes to agree. *)
Definition resolved prop : Prop :=
  match prop with
  | PlaceBound p _ | BranchPlaceBound p _ => place_name p ∈ place_name <$> flatPlaces fn
  | Unreachable ps => ps ≠ [] ∧ ∀ p, p ∈ ps → place_name p ∈ place_name <$> flatPlaces fn
  | _ => True
  end.

Section At.
Variable c : jsstr → Z.
Hypothesis Hc : nonneg c.
Hypothesis Hin : inside c.
Abbreviation st := (state_of fn c).

Lemma at_name n : match map_get n (flatIndex fn) with Some i => entry_at st i = c n | None => c n = 0 end.
Proof.
  destruct (map_get n (flatIndex fn)) as [i|] eqn:E; [by apply (at_state net [] Ignore (λ _, false) fn Hflat)|]. by apply Hin, no_index.
Qed.

Lemma elem_of_resolved qs i : i ∈ resolvedIndices fn qs ↔ ∃ n, n ∈ place_name <$> qs ∧ map_get n (flatIndex fn) = Some i.
Proof.
  unfold resolvedIndices, ids. rewrite elem_of_set_of, list_elem_of_omap. setoid_rewrite list_elem_of_fmap. naive_solver.
Qed.

Lemma resolved_empty qs : forallb (λ k, entry_at st k =? 0) (resolvedIndices fn qs) = true ↔ ∀ n, n ∈ place_name <$> qs → c n <= 0.
Proof.
  rewrite forallb_elem. setoid_rewrite elem_of_resolved. setoid_rewrite Z.eqb_eq. split.
  - intros H n Hn. pose proof (at_name n) as Ha. destruct (map_get n (flatIndex fn)) as [i|] eqn:E; [|lia]. rewrite <- Ha, H; [done|]. by exists n.
  - intros H i (n & Hn & E). pose proof (at_name n) as Ha. rewrite E in Ha. rewrite Ha. specialize (H n Hn). specialize (Hc n). lia.
Qed.

Lemma resolved_total qs : foldl (λ z i, z + entry_at st i) 0 (resolvedIndices fn qs) = total_of c (place_name <$> qs).
Proof.
  unfold resolvedIndices, total_of. assert (ids (flatIndex fn) qs = omap (λ n, map_get n (flatIndex fn)) (place_name <$> qs)) as ->.
  { unfold ids. induction qs as [|q qs IH]; [done|]. cbn. by rewrite IH. }
  apply sum_indices.
  - intros a b i. by apply (id_inj _ _ (flat_ids net [] Ignore (λ _, false) fn Hflat)).
  - intros a i E. pose proof (at_name a) as Ha. by rewrite E in Ha.
  - intros a E. pose proof (at_name a) as Ha. by rewrite E in Ha.
Qed.

Lemma stranded_exists sinks cond : existsb (stranded_at (strandingExcuses fn sinks cond) st) (seq 0 (length (flatPlaces fn))) = true ↔
  ∃ n, 0 < c n ∧ ¬ may_rest sinks cond c n.
Proof.
  pose proof (flat_ids net [] Ignore (λ _, false) fn Hflat) as Hix.
  assert (∀ pid p, flatPlaces fn !! pid = Some p → stranded_at (strandingExcuses fn sinks cond) st pid = true ↔ 0 < c (place_name p) ∧ ¬ may_rest sinks cond c (place_name p)) as H.
  { intros pid p Hp. pose proof (excuse_conditionals _ _ Hix pid p Hp cond _ _ _ (excuse_sinks _ _ Hix pid p Hp sinks (replicate (length (flatPlaces fn)) (Some [])) False (λ _, False)
      ltac:(split; [by apply length_replicate|unfold ex_at; rewrite lookup_replicate_2 by (by eapply lookup_lt_Some); cbn; split; [tauto|intros m; rewrite elem_of_nil; done]]))) as [_ He].
    pose proof (excuse_index _ _ Hix pid p Hp) as Epid. pose proof (at_name (place_name p)) as Hat. rewrite Epid in Hat.
    unfold stranded_at, strandingExcuses. cbv zeta. rewrite list_lookup_fmap. unfold ex_at in He. set (ex := foldl _ (foldl _ _ sinks) cond) in *.
    destruct (ex !! pid) as [[l|]|] eqn:Ex; cbn [fmap option_fmap option_map default from_option id] in *.
    2,3: split; [done|]; intros [_ Hn]; destruct Hn; unfold may_rest; destruct He as [[[]|?]|(k & ? & ?)]; [by left|right; exists k; auto].
    destruct He as [He1 He2]. rewrite andb_true_iff, negb_true_iff, Z.ltb_ge, forallb_elem, Hat. setoid_rewrite stable_sort_Permutation. setoid_rewrite He2. setoid_rewrite Z.eqb_eq.
    split.
    - intros [Hpos Hz]. split; [lia|]. intros [Hs|(k & Hk & [E|[Hm Hr]])]; [apply He1; by left; right|apply He1; right; by exists k|].
      pose proof (at_name (place_name (marker k))) as Hak. destruct (map_get (place_name (marker k)) (flatIndex fn)) as [m|] eqn:Em; [|lia].
      specialize (Hz m). rewrite Hak in Hz. assert (c (place_name (marker k)) = 0); [|lia]. apply Hz. right. by exists k.
    - intros [Hpos Hn]. split; [lia|]. intros m [[]|(k & Hk & Em & Hr)]. pose proof (at_name (place_name (marker k))) as Hak. rewrite Em in Hak. rewrite Hak.
      destruct (Z.lt_ge_cases 0 (c (place_name (marker k)))); [|specialize (Hc (place_name (marker k))); lia]. destruct Hn. right. exists k. auto. }
  rewrite existsb_elem. split.
  - intros (pid & Hpid%elem_of_seq & Hs). destruct (lookup_lt_is_Some_2 (flatPlaces fn) pid ltac:(lia)) as [p Hp]. exists (place_name p). by apply (H pid).
  - intros (n & Hpos & Hn). destruct (decide (n ∈ place_name <$> flatPlaces fn)) as [Hf|Hf]; [|rewrite Hin in Hpos by done; lia].
    apply list_elem_of_fmap in Hf as (p & -> & [pid Hp]%list_elem_of_lookup). exists pid. split; [apply elem_of_seq; apply lookup_lt_Some in Hp; lia|]. by apply (H pid p).
Qed.

(** The replayer's predicate is the contract. *)
Lemma satisfiesBad_violates prop sinks cond : isNameAlignment prop = false → resolved prop →
  satisfiesBadIndexed (buildIndex fn) st prop sinks cond = Ok true ↔ violates prop sinks cond c (dead ts c).
Proof.
  intros Hna Hr. pose proof at_name as Ha. pose proof (closed_quiescent c Hc) as Hq.
  assert (∀ b : bool, Ok (E := property_error) b = Ok true ↔ b = true) as HOk by (intros b; split; [by intros [= ->]|by intros ->]).
  assert (∀ q, place_name q ∈ place_name <$> flatPlaces fn → ∃ i, map_get (place_name q) (flatIndex fn) = Some i) as Hres.
  { intros q Hq'. destruct (map_get (place_name q) (flatIndex fn)) eqn:E; [by eexists|]. by apply no_index in E. }
  destruct prop; try done; cbn [satisfiesBadIndexed violates resolved] in *; change (ri_net (buildIndex fn)) with fn; rewrite HOk.
  - by rewrite andb_true_iff, Hq, stranded_exists.
  - by rewrite andb_true_iff, Hq, resolved_empty.
  - pose proof (Ha (place_name p1)) as H1. pose proof (Ha (place_name p2)) as H2.
    destruct (map_get (place_name p1) _), (map_get (place_name p2) _); rewrite ?andb_true_iff, ?Z.leb_le; (split; [intros ?|intros [??]]); try done; lia.
  - destruct (Hres _ Hr) as [i E]. specialize (Ha (place_name p)). rewrite E in *. rewrite Z.ltb_lt. lia.
  - destruct Hr as [Hne Hr]. rewrite andb_true_iff, forallb_elem, Nat.ltb_lt. split.
    + intros [H _] n (q & -> & Hq')%list_elem_of_fmap. destruct (Hres q (Hr q Hq')) as [i E]. specialize (Ha (place_name q)). rewrite E in Ha.
      specialize (H i). unfold ids in H. rewrite list_elem_of_omap in H. specialize (H ltac:(by exists q)). apply negb_true_iff, Z.ltb_ge in H. lia.
    + intros H. split.
      * intros i (q & Hq' & E)%list_elem_of_omap. specialize (Ha (place_name q)). rewrite E in Ha. specialize (H (place_name q) (list_elem_of_fmap_2 _ _ _ Hq')).
        apply negb_true_iff, Z.ltb_ge. lia.
      * destruct places as [|q qs]; [done|]. unfold ids. cbn [omap list_omap]. destruct (Hres q (Hr q ltac:(left))) as [i ->]. cbn. lia.
  - destruct (Hres _ Hr) as [i E]. specialize (Ha (place_name p)). rewrite E in *. rewrite Z.ltb_lt. lia.
  - specialize (Ha (place_name pending)). destruct (map_get (place_name pending) _); [rewrite andb_true_iff, Z.leb_le, Hq; split; intros [? ?]; (split; [done|lia])|].
    split; [done|]. intros [_ ?]. lia.
  - rewrite andb_true_iff, Hq, resolved_total. destruct (jnum_ltb max _); [tauto|]. rewrite andb_true_iff, resolved_empty, Z.ltb_lt. naive_solver.
Qed.
End At.
End Contract.

(** ** Runs *)

Lemma token_run {V} (ts : list (transition V)) m0 c : token_reachable ts [] Ignore m0 c ↔ ∃ l, run ts (count_of m0) l c.
Proof.
  split.
  - induction 1 as [c Hc|c c' i t os o _ [l IH] Et En Eos Ho Hc']; [exists []; by apply run_nil|].
    exists (l ++ [(i, o)]). eapply run_snoc; [exact IH|]. by exists t, os.
  - intros [l Hr]. assert (∀ c0 l c, run ts c0 l c → token_reachable ts [] Ignore m0 c0 → token_reachable ts [] Ignore m0 c) as H.
    { clear. induction 1 as [c0 c Hc|c0 i o c1 l c (t & os & Et & En & Eos & Ho & Hf) _ IH]; intros H0.
      - destruct H0 as [c0 H0|c0 c' i t os o H0 Et En Eos Ho Hc']; [apply token_start; intros n; by rewrite Hc|].
        eapply token_fire; [exact H0|done|done|done|done|]. intros n. by rewrite Hc.
      - apply IH. by eapply token_fire. }
    by eapply H; [exact Hr|apply token_start].
Qed.

Lemma linked_reachable fn states steps s0 s : linked fn states steps → head states = Some s0 → last states = Some s → flat_reachable fn s0 s.
Proof.
  intros [Hl Hs] H0 Hlast. rewrite last_lookup in Hlast.
  assert (∀ j s, states !! j = Some s → flat_reachable fn s0 s) as H; [|by eapply H].
  clear s Hlast. induction j as [|j IH]; intros s Ej.
  - destruct states; [done|]. cbn in *. simplify_eq. apply rtc_refl.
  - destruct (lookup_lt_is_Some_2 states j) as [s1 E1]; [apply lookup_lt_Some in Ej; lia|]. eapply rtc_r; [by apply IH|].
    destruct (Hs j s1 s E1 Ej) as (st & _ & Hst). by apply (list_elem_of_fmap_2 fst) in Hst.
Qed.

Lemma run_invariant {V} (ts : list (transition V)) (P : (jsstr → Z) → Prop) c l c' : (∀ i o c c', P c → token_step ts i o c c' → P c') →
  (∀ c c', (∀ n, c' n = c n) → P c → P c') → P c → run ts c l c' → P c'.
Proof. intros Hs He Hc Hr. induction Hr as [c c' Hcc|c i o c1 l c' Hst _ IH]; [by eapply He|]. by apply IH, (Hs i o c). Qed.

Lemma replay_contract {V} (net : petri_net V) fn m0 prop sinks cond decoded options : flatten net [] Ignore (λ _, false) = Ok fn →
  built_net net → drainedForward (net_transitions net) = Ok None → ms_wf m0 → isNameAlignment prop = false →
  inside fn (count_of m0) → resolved fn prop → ∃ out,
  replayCounterexample fn (vectorize m0 fn) decoded prop sinks options cond = Ok (Some out) ∧
  match out with
  | Confirmed states steps _ => head states = Some (vectorize m0 fn) ∧ linked fn states steps ∧
      ∃ l c, run (net_transitions net) (count_of m0) l c ∧ last states = Some (state_of fn c) ∧ violates prop sinks cond c (dead (net_transitions net) c)
  | NoChain _ => ∀ l c, run (net_transitions net) (count_of m0) l c → ¬ violates prop sinks cond c (dead (net_transitions net) c)
  | Exhausted _ _ => True
  end.
Proof.
  intros Ef Hb Hd Hm Hp Hin Hr. destruct (replay_spec fn (vectorize m0 fn) decoded prop sinks options cond Hp) as (out & E & H). exists out. split; [done|].
  assert (∀ c, token_reachable (net_transitions net) [] Ignore m0 c → nonneg c ∧ inside fn c) as Hreach.
  { intros c Ht. split; [intros n; eapply (reached_nonneg net [] Ignore fn m0 Hb Hm); by apply open_closed|]. apply token_run in Ht as [l Hl].
    eapply (run_invariant _ (inside fn)); [| |exact Hin|exact Hl].
    - intros i o c1 c2. by apply (inside_step net fn Ef Hb).
    - intros c1 c2 E12 H1 n Hn. by rewrite E12, H1. }
  destruct out as [states steps k|k|]; [| |done]; cbn [answer_ok] in H.
  - destruct H as (Hh & Hl & s & Hs & Hbad). split_and!; [done|done|].
    destruct (open_of_flat net [] Ignore (λ _, false) fn m0 Ef Hb Hd Hm s) as (c & Hc & ->); [by eapply linked_reachable|].
    apply open_closed in Hc. destruct (Hreach c Hc) as [Hnn Hi]. apply token_run in Hc as [l Hrun]. exists l, c. split_and!; [done|done|].
    by apply (satisfiesBad_violates net fn Ef Hb c Hnn Hi).
  - intros l c Hrun Hv. assert (token_reachable (net_transitions net) [] Ignore m0 c) as Ht by (apply token_run; by exists l).
    destruct (Hreach c Ht) as [Hnn Hi]. apply (satisfiesBad_violates net fn Ef Hb c Hnn Hi prop sinks cond Hp Hr) in Hv.
    rewrite H in Hv; [done|]. apply (flat_of_open net [] Ignore (λ _, false) fn m0 Ef Hb Hd Hm). by apply open_closed.
Qed.

(** ** Properties *)


Definition fork_places : list place := [place_of 0 "a"; place_of 1 "b"; place_of 2 "c"; place_of 3 "d"].
Definition fork_petri : petri_net unit := PetriNet (js "fork") fork_places fork_net [].
Definition fork_flat : flat_net := match flatten fork_petri [] Ignore (λ _, false) with Ok fn => fn | Err _ => FlatNet [] [] [] [] [] end.

Lemma fork_petri_ok : built_net fork_petri ∧ net_wf fork_petri.
Proof.
  split; [intros t Ht; apply (no_built _ _ _ _ fork_net_ok t Ht)|]. split_and!; [|by intros ? ?%not_elem_of_nil|constructor|by intros ? ? ?%not_elem_of_nil].
  assert (Forall (λ t, Forall (λ p, p ∈ fork_places) (arc_places t)) fork_net) as H by (apply (bool_decide_unpack _); vm_compute; exact I).
  rewrite Forall_forall in H. intros t p Ht Hp. specialize (H t Ht). rewrite Forall_forall in H. by apply H.
Qed.

