(* ===== verification/Siphons.v ===== *)
(** * Siphons and traps

    [src/typescript/src/verification/invariant/structural-check.ts], and the verifier's conditions on
    its use ([smt-verifier.ts], phase 2): the search for the minimal siphons, the maximal trap of
    each, and the structural proof of deadlock freedom. A set of places is the list of its indices;
    the polls of the deadline are left out. *)
From S2P Require Import Prelude.
From S2P Require Import Net.
From S2P Require Import MarkingState.
From S2P Require Import FlatNet.
From S2P Require Import SmtProperty.
From S2P Require Import Transition.
From S2P Require Import PetriNet.
From S2P Require Import CompiledNet.
From S2P Require Import Outcomes.
From S2P Require Import StateClass.
From S2P Require Import ClassSteps.
From S2P Require Import VerifierInput.
From S2P Require Import Out.
From S2P Require Import GraphExact.
From S2P Require Import StubbornRuns.
From S2P Require Import ScgExact.
From S2P Require Import ReplayContract.
From stdpp Require Import relations.
#[local] Open Scope Z_scope.

Definition MAX_PLACES_FOR_SIPHON_ANALYSIS : nat := 50.
Definition SIPHON_SEARCH_BUDGET : Z := 10000.

Inductive structural_result :=
| NoPotentialDeadlock
| PotentialDeadlock (siphon : list nat)
| Inconclusive (reason : jsstr).

Definition isSubsetOf (sub sup : list nat) : bool :=
  negb (length sup <? length sub)%nat && forallb (λ v, bool_decide (v ∈ sup)) sub.

Section Siphons.
Variable fn : flat_net.

(** ** Minimal siphons *)

(** A producer into the set without an input in it. *)
Definition violating (siphon : list nat) (ft : flat_transition) : bool :=
  existsb (λ p, 0 <? entry_at (postVector ft) p) siphon && negb (existsb (λ p, 0 <? entry_at (preVector ft) p) siphon).

(** What the search keeps: the siphons found and the nodes visited. *)
Definition siphon_search : Type := list (list nat) * Z.

(** The branches of one node, over the places; [None] is out of fuel, [false] out of budget. *)
Fixpoint branch_inputs (grow : list nat → siphon_search → option (bool * siphon_search)) (siphon : list nat) (ft : flat_transition)
    (qs : list nat) (x : siphon_search) : option (bool * siphon_search) :=
  match qs with
  | [] => Some (true, x)
  | q :: qs =>
      if 0 <? entry_at (preVector ft) q then
        y ← grow (set_add q siphon) x;
        if y.1 : bool then branch_inputs grow siphon ft qs y.2 else Some (false, y.2)
      else branch_inputs grow siphon ft qs x
  end.

Fixpoint grow (budget : jnum) (fuel : nat) (siphon : list nat) (x : siphon_search) : option (bool * siphon_search) :=
  match fuel with
  | O => None
  | S fuel =>
      let nodes := x.2 + 1 in
      if jnum_ltb budget (Fin nodes) then Some (false, (x.1, nodes))
      else if existsb (λ f, isSubsetOf f siphon) x.1 then Some (true, (x.1, nodes))
      else match js_find (violating siphon) (flatTransitions fn) with
           | None => Some (true, (x.1 ++ [siphon], nodes))
           | Some ft => branch_inputs (grow budget fuel) siphon ft (seq 0 (length (flatPlaces fn))) (x.1, nodes)
           end
  end.

Fixpoint grow_all (budget : jnum) (starts : list nat) (x : siphon_search) : option (bool * siphon_search) :=
  match starts with
  | [] => Some (true, x)
  | start :: starts =>
      y ← grow budget (S (length (flatPlaces fn))) [start] x;
      if y.1 : bool then grow_all budget starts y.2 else Some (false, y.2)
  end.

(** The sets no other found set lies in. *)
Definition minimal_of (found : list (list nat)) : list (list nat) :=
  snd <$> filter (λ y, negb (existsb (λ z, negb (z.1 =? y.1)%nat && isSubsetOf z.2 y.2) (imap pair found))) (imap pair found).

(** [Some None] is [null]; [None] is out of fuel. *)
Definition findMinimalSiphons (budget : jnum) : option (option (list (list nat))) :=
  y ← grow_all budget (seq 0 (length (flatPlaces fn))) ([], 0);
  Some (if y.1 : bool then Some (minimal_of y.2.1) else None).

(** ** Maximal traps *)

(** Every consumer from the place produces into the set. *)
Definition keeps_trap (trap : list nat) (p : nat) : bool :=
  forallb (λ ft, negb (0 <? entry_at (preVector ft) p) || existsb (λ q, 0 <? entry_at (postVector ft) q) trap) (flatTransitions fn).

Fixpoint contract (fuel : nat) (trap : list nat) : option (list nat) :=
  match fuel with
  | O => None
  | S fuel =>
      let toRemove := filter (λ p, negb (keeps_trap trap p)) trap in
      if bool_decide (length toRemove = 0)%nat then Some trap
      else contract fuel (filter (λ p, p ∉ toRemove) trap)
  end.

Definition findMaximalTrapIn (places : list nat) : option (list nat) := contract (S (length places)) places.

(** ** The check *)

Definition isMarked (placeIndices : list nat) (marking : marking_state) : bool :=
  existsb (λ idx, from_option (λ p, 0 <? ms_tokens p marking) false (flatPlaces fn !! idx)) placeIndices.

Fixpoint first_unmarked (siphons : list (list nat)) (marking : marking_state) : option structural_result :=
  match siphons with
  | [] => Some NoPotentialDeadlock
  | siphon :: siphons =>
      trap ← findMaximalTrapIn siphon;
      if bool_decide (length trap = 0)%nat || negb (isMarked trap marking) then Some (PotentialDeadlock siphon)
      else first_unmarked siphons marking
  end.

(** [None] is out of fuel. *)
Definition structuralCheck (initialMarking : marking_state) : option structural_result :=
  let P := length (flatPlaces fn) in
  if bool_decide (length (flatTransitions fn) = 0)%nat then Some (Inconclusive (js "net has no transitions; Commoner's theorem needs one"))
  else if (P =? 0)%nat then Some NoPotentialDeadlock
  else if (MAX_PLACES_FOR_SIPHON_ANALYSIS <? P)%nat then
    Some (Inconclusive (js "Net has " ++ number_string (Z.of_nat P) ++ js " places, siphon enumeration skipped"))
  else
    siphons ← findMinimalSiphons (Fin SIPHON_SEARCH_BUDGET);
    match siphons with
    | None => Some (Inconclusive (js "siphon search exceeded " ++ number_string SIPHON_SEARCH_BUDGET ++ js " nodes"))
    | Some siphons => first_unmarked siphons initialMarking
    end.

(** ** When the verifier uses it *)

Definition commonerApplies : bool :=
  forallb (λ ft,
    bool_decide (length (readIds ft) = 0)%nat && bool_decide (length (inhibitorIds ft) = 0)%nat && bool_decide (length (resetIds ft) = 0)%nat
    && negb (existsb id (consumeAll ft)) && negb (existsb (λ w, 1 <? w) (preVector ft))) (flatTransitions fn).

Definition structuralCandidate (prop : smt_property) (hasMatch : bool) (sinkPlaces : list place) (conditionalSinks : list conditional_sinks)
    (environmentPlaces : list place) : bool :=
  match prop with DeadlockFree => true | _ => false end && negb hasMatch && negb (existsb reapable (flatTransitions fn)) && commonerApplies
  && bool_decide (length sinkPlaces = 0)%nat && bool_decide (length conditionalSinks = 0)%nat && bool_decide (length environmentPlaces = 0)%nat.
End Siphons.

(** * Commoner's theorem

    The search of [Siphons] finds exactly the minimal siphons, the contraction the largest trap, so the
    structural check decides Commoner's condition; and on an ordinary closed net the condition keeps
    every reachable marking alive. *)
#[local] Open Scope Z_scope.

(** ** Sets as lists *)

Abbreviation within_set a b := (∀ v : nat, v ∈ a → v ∈ b).

Lemma isSubsetOf_spec (a b : list nat) : NoDup a → isSubsetOf a b = true ↔ within_set a b.
Proof.
  intros Hd. unfold isSubsetOf. rewrite andb_true_iff, negb_true_iff, Nat.ltb_ge, forallb_elem. setoid_rewrite bool_decide_eq_true.
  split; [tauto|]. intros H. split; [|done]. by apply submseteq_length, NoDup_submseteq.
Qed.

Lemma subset_same (a b : list nat) : NoDup a → NoDup b → within_set a b → (length b ≤ length a)%nat → within_set b a.
Proof.
  intros Ha Hb H Hl v Hv. apply NoDup_submseteq in H; [|done]. apply submseteq_length_Permutation in H; [|done]. by rewrite H.
Qed.

Lemma js_find_Some_in {A} (f : A → bool) l x : js_find f l = Some x → x ∈ l ∧ f x = true.
Proof.
  unfold js_find. destruct (list_find _ l) as [[i y]|] eqn:E; cbn; [|done]. intros [= ->]. apply list_find_Some in E as (E & Hf & _).
  split; [by eapply list_elem_of_lookup_2|]. by destruct (f x).
Qed.

Section Commoner.
Variable fn : flat_net.
Abbreviation P := (length (flatPlaces fn)).
Implicit Types (S T U : list nat) (ft : flat_transition) (found : list (list nat)).

Definition produces_into S ft : Prop := ∃ p, p ∈ S ∧ 0 < entry_at (postVector ft) p.
Definition consumes_from S ft : Prop := ∃ p, p ∈ S ∧ 0 < entry_at (preVector ft) p.
Definition siphon S : Prop := ∀ ft, ft ∈ flatTransitions fn → produces_into S ft → consumes_from S ft.
Definition trap S : Prop := ∀ ft, ft ∈ flatTransitions fn → consumes_from S ft → produces_into S ft.
Definition tree_bounded S : Prop := ∀ p, p ∈ S → (p < P)%nat.
Definition place_set S : Prop := NoDup S ∧ tree_bounded S.

#[local] Instance consumes_dec S ft : Decision (consumes_from S ft).
Proof. refine (cast_if (decide (Exists (λ p, 0 < entry_at (preVector ft) p) S))); unfold consumes_from; by rewrite <- Exists_exists. Defined.

Lemma violating_iff S ft : violating S ft = true ↔ produces_into S ft ∧ ¬ consumes_from S ft.
Proof.
  unfold violating, produces_into, consumes_from. rewrite andb_true_iff, negb_true_iff, existsb_elem, <- not_true_iff_false, existsb_elem.
  by repeat setoid_rewrite Z.ltb_lt.
Qed.

Lemma place_set_length S : place_set S → (length S ≤ P)%nat.
Proof.
  intros [Hd Hb]. rewrite <- (length_seq P 0). apply submseteq_length, NoDup_submseteq; [done|]. intros p Hp%Hb. apply elem_of_seq. lia.
Qed.

(** ** The search *)

(** The sets found are siphons, none containing an earlier one. *)
Record found_ok found : Prop := {
  fo_sets : ∀ f, f ∈ found → place_set f ∧ f ≠ [] ∧ siphon f;
  fo_chain : ∀ i j f g, (i < j)%nat → found !! i = Some f → found !! j = Some g → ¬ within_set f g
}.

Definition covers found T : Prop := ∃ f, f ∈ found ∧ within_set f T.
Definition found_grows found found' : Prop := ∃ l, found' = found ++ l.

Lemma covers_grow found found' T : found_grows found found' → covers found T → covers found' T.
Proof. intros [l ->] (f & Hf & H). exists f. split; [apply elem_of_app; by left|done]. Qed.
Lemma grows_trans a b c : found_grows a b → found_grows b c → found_grows a c.
Proof. intros [l ->] [l' ->]. exists (l ++ l'). by rewrite app_assoc. Qed.

Lemma found_add found S : found_ok found → place_set S → S ≠ [] → siphon S → (∀ f, f ∈ found → ¬ within_set f S) → found_ok (found ++ [S]).
Proof.
  intros [F1 F2] HS Hne Hsi Hn. constructor.
  - intros f [Hf| ->%list_elem_of_singleton]%elem_of_app; [by apply F1|done].
  - intros i j f g Hij Hf [[_ Hg]|[Ej <-]]%lookup_snoc_Some.
    + apply lookup_lt_Some in Hg as Hl. rewrite lookup_app_l in Hf by lia. by apply (F2 i j).
    + rewrite lookup_app_l in Hf by lia. apply Hn. by eapply list_elem_of_lookup_2.
Qed.

(** What one call of the search does, given that its set holds [S]. *)
Definition grown_ok S (x : siphon_search) (r : option (bool * siphon_search)) (reach : list nat → Prop) : Prop :=
  ∃ b x', r = Some (b, x') ∧ found_ok x'.1 ∧ found_grows x.1 x'.1 ∧
    (b = true → ∀ T, tree_bounded T → siphon T → within_set S T → reach T → covers x'.1 T).

Lemma branch_spec gr S ft qs : (∀ q x, (q < P)%nat → q ∉ S → found_ok x.1 → grown_ok (set_add q S) x (gr (set_add q S) x) (λ _, True)) →
  ¬ consumes_from S ft → (∀ q, q ∈ qs → (q < P)%nat) → ∀ x, found_ok x.1 →
  grown_ok S x (branch_inputs gr S ft qs x) (λ T, ∃ q, q ∈ qs ∧ q ∈ T ∧ 0 < entry_at (preVector ft) q).
Proof.
  intros Hgr Hc. induction qs as [|q qs IH]; intros Hq x Hx; cbn [branch_inputs].
  { exists true, x. split_and!; [done|done|by exists []; rewrite app_nil_r|]. intros _ T _ _ _ (q & ?%not_elem_of_nil & _). done. }
  assert (∀ q, q ∈ qs → (q < P)%nat) as Hq' by (intros; apply Hq; by right). destruct (Z.ltb_spec 0 (entry_at (preVector ft) q)) as [Hpre|Hpre].
  - assert (q ∉ S) as HqS by (intros H; apply Hc; by exists q). destruct (Hgr q x (Hq q ltac:(left)) HqS Hx) as (b & x1 & -> & F1 & G1 & C1).
    cbn [mbind option_bind fst snd]. destruct b; [|by exists false, x1]. destruct (IH Hq' x1 F1) as (b & x2 & -> & F2 & G2 & C2).
    exists b, x2. split_and!; [done|done|by eapply grows_trans|]. intros Hb T HbT HT HS (q' & [->|Hq'']%elem_of_cons & HqT & Hp).
    + eapply covers_grow; [exact G2|]. apply C1; [done|done|done| |done]. intros v [->|Hv]%elem_of_set_add; [done|by apply HS].
    + apply C2; [done|done|done|done|]. by exists q'.
  - destruct (IH Hq' x Hx) as (b & x2 & -> & F2 & G2 & C2). exists b, x2. split_and!; [done|done|done|]. intros Hb T HbT HT HS (q' & [->|Hq'']%elem_of_cons & HqT & Hp); [lia|].
    apply C2; [done|done|done|done|]. by exists q'.
Qed.

Lemma grow_spec budget fuel : ∀ S x, place_set S → S ≠ [] → (P < fuel + length S)%nat → found_ok x.1 → grown_ok S x (grow fn budget fuel S x) (λ _, True).
Proof.
  induction fuel as [|fuel IH]; intros S x HS Hne Hf Hx; [apply place_set_length in HS; lia|]. cbn [grow]. cbv zeta.
  assert (∀ b, (b = true → ∀ T, tree_bounded T → siphon T → within_set S T → True → covers x.1 T) → grown_ok S x (Some (b, (x.1, x.2 + 1))) (λ _, True)) as Hsame.
  { intros b Hb. exists b, (x.1, x.2 + 1). split_and!; [done|done|by exists []; rewrite app_nil_r|done]. }
  destruct (jnum_ltb budget _); [by apply Hsame|]. destruct (existsb (λ f, isSubsetOf f S) x.1) eqn:Ex.
  { apply Hsame. intros _ T _ _ HT _. apply existsb_elem in Ex as (f & Hfin & Hsub). exists f. split; [done|].
    rewrite isSubsetOf_spec in Hsub by apply (fo_sets _ Hx f Hfin). auto. }
  destruct (js_find _ _) as [ft|] eqn:Ev.
  - apply js_find_Some_in in Ev as [Hft [Hprod Hcons]%violating_iff]. destruct HS as [Hd Hb].
    destruct (branch_spec (grow fn budget fuel) S ft (seq 0 P)) with (x := (x.1, x.2 + 1)) as (b & x' & -> & F & G & C); [|done|intros q Hq%elem_of_seq; lia|done|].
    + intros q y Hq HqS Hy. assert (set_add q S = S ++ [q]) as Eadd by (unfold set_add; by rewrite decide_False).
      apply IH; [|by rewrite Eadd; destruct S|rewrite Eadd, length_app; cbn; lia|done]. rewrite Eadd. split.
      * apply NoDup_app. split_and!; [done|intros v Hv ->%list_elem_of_singleton; done|apply NoDup_singleton].
      * intros p [Hp| ->%list_elem_of_singleton]%elem_of_app; [by apply Hb|done].
    + exists b, x'. split_and!; [done|done|done|]. intros Hb' T HbT HT HST _. apply C; [done|done|done|done|].
      destruct (HT ft Hft) as (q & HqT & Hq); [destruct Hprod as (p & Hp & ?); exists p; auto|].
      exists q. split_and!; [apply elem_of_seq; specialize (HbT q HqT); lia|done|done].
  - exists true, (x.1 ++ [S], x.2 + 1). split_and!; [done| |by exists [S]|].
    + apply found_add; [done|done|done| |].
      * intros ft Hft Hprod. pose proof (proj1 (js_find_None _ _) Ev ft Hft) as Hv. destruct (decide (consumes_from S ft)) as [|Hn]; [done|].
        rewrite (proj2 (violating_iff S ft)) in Hv; done.
      * intros f Hfin Hsub. rewrite <- not_true_iff_false in Ex. apply Ex. apply existsb_elem. exists f. split; [done|].
        apply isSubsetOf_spec; [apply (fo_sets _ Hx f Hfin)|done].
    + intros _ T _ _ HT _. exists S. split; [apply elem_of_app; right; left|done].
Qed.

Lemma grow_all_spec budget starts : (∀ p, p ∈ starts → (p < P)%nat) → ∀ x, found_ok x.1 →
  grown_ok [] x (grow_all fn budget starts x) (λ T, ∃ p, p ∈ starts ∧ p ∈ T).
Proof.
  induction starts as [|p starts IH]; intros Hp x Hx; cbn [grow_all].
  { exists true, x. split_and!; [done|done|by exists []; rewrite app_nil_r|]. intros _ T _ _ _ (q & ?%not_elem_of_nil & _). done. }
  destruct (grow_spec budget (Datatypes.S P) [p] x) as (b & x1 & -> & F1 & G1 & C1); [|done|cbn; lia|done|].
  { split; [apply NoDup_singleton|]. intros q ->%list_elem_of_singleton. apply Hp. left. }
  cbn [mbind option_bind fst snd]. destruct b; [|by exists false, x1].
  destruct (IH ltac:(intros; apply Hp; by right) x1 F1) as (b & x2 & -> & F2 & G2 & C2). exists b, x2. split_and!; [done|done|by eapply grows_trans|].
  intros Hb T HbT HT HS (q & [->|Hq]%elem_of_cons & HqT).
  - eapply covers_grow; [exact G2|]. apply C1; [done|done|done| |done]. by intros v ->%list_elem_of_singleton.
  - apply C2; [done|done|done|done|]. by exists q.
Qed.

(** A non-empty siphon that contains no other. *)
Definition minimal_siphon S : Prop := place_set S ∧ S ≠ [] ∧ siphon S ∧
  ∀ T, tree_bounded T → T ≠ [] → siphon T → within_set T S → within_set S T.

Lemma elem_of_minimal found f : found_ok found → f ∈ minimal_of found ↔
  ∃ i, found !! i = Some f ∧ ∀ j g, j ≠ i → found !! j = Some g → ¬ within_set g f.
Proof.
  intros F. unfold minimal_of. rewrite list_elem_of_fmap. setoid_rewrite list_elem_of_filter. setoid_rewrite elem_of_lookup_imap.
  assert (∀ i f, Is_true (negb (existsb (λ z, negb (z.1 =? i)%nat && isSubsetOf z.2 f) (imap pair found))) ↔ ∀ j g, j ≠ i → found !! j = Some g → ¬ within_set g f) as H.
  { intros i f'. rewrite Is_true_true, negb_true_iff, <- not_true_iff_false, existsb_elem. setoid_rewrite elem_of_lookup_imap. split.
    - intros Hn j g Hj Hg Hsub. apply Hn. exists (j, g). split; [by exists j, g|]. cbn. apply andb_true_iff. split; [by apply negb_true_iff, Nat.eqb_neq|].
      apply isSubsetOf_spec; [|done]. apply (fo_sets _ F g). by eapply list_elem_of_lookup_2.
    - intros Hall ([j g] & (j' & g' & [= <- <-] & Hg) & [Hj Hsub]%andb_true_iff). cbn in *. apply negb_true_iff, Nat.eqb_neq in Hj. apply (Hall j g Hj Hg).
      apply isSubsetOf_spec; [|done]. apply (fo_sets _ F g). by eapply list_elem_of_lookup_2. }
  split.
  - intros ([i f'] & -> & Hk & (i' & f'' & [= <- <-] & Hf)). exists i. split; [done|]. by apply H.
  - intros (i & Hf & Hall). exists (i, f). split_and!; [done|by apply H|]. by exists i, f.
Qed.

(** Every set found contains a kept one. *)
Lemma minimal_below found f : found_ok found → f ∈ found → ∃ g, g ∈ minimal_of found ∧ within_set g f.
Proof.
  intros F. remember (length f) as n eqn:En. revert f En. induction n as [n IH] using (well_founded_induction lt_wf). intros f -> Hf.
  destruct (decide (Exists (λ g, isSubsetOf g f = true ∧ (length g < length f)%nat) found)) as [(g & Hg & Hsub & Hlt)%Exists_exists|Hn].
  - rewrite isSubsetOf_spec in Hsub by apply (fo_sets _ F g Hg). destruct (IH _ Hlt g eq_refl Hg) as (h & Hh & Hhg). exists h. auto.
  - exists f. split; [|done]. apply elem_of_minimal; [done|]. apply list_elem_of_lookup in Hf as Hi. destruct Hi as [i Hi]. exists i. split; [done|].
    intros j g Hj Hg Hsub. pose proof (proj1 (fo_sets _ F f Hf)) as [Hdf _]. assert (g ∈ found) as Hgf by (by eapply list_elem_of_lookup_2).
    pose proof (proj1 (fo_sets _ F g Hgf)) as [Hdg _]. destruct (decide (j < i)%nat) as [Hlt|Hge]; [by apply (fo_chain _ F j i g f Hlt Hg Hi)|].
    apply (fo_chain _ F i j f g ltac:(lia) Hi Hg). apply subset_same; [done|done|done|].
    destruct (decide (length g < length f)%nat) as [Hl|]; [|lia]. destruct Hn. apply Exists_exists. exists g. split_and!; [done|by apply isSubsetOf_spec|done].
Qed.

(** The search ends; when it is not cut short it answers the minimal siphons, one below each siphon. *)
Lemma findMinimalSiphons_spec budget : ∃ r, findMinimalSiphons fn budget = Some r ∧ ∀ l, r = Some l →
  (∀ S, S ∈ l → minimal_siphon S) ∧ ∀ T, tree_bounded T → T ≠ [] → siphon T → ∃ S, S ∈ l ∧ within_set S T.
Proof.
  unfold findMinimalSiphons. destruct (grow_all_spec budget (seq 0 P)) with (x := ([] : list (list nat), 0)) as (b & x & -> & F & _ & C).
  { intros p Hp%elem_of_seq. lia. }
  { constructor; [by intros f ?%not_elem_of_nil|]. intros i j f g _ Hf. by destruct i. }
  cbn [mbind option_bind fst snd]. eexists. split; [reflexivity|]. intros l El. destruct b; [|done]. injection El as <-.
  assert (∀ T, tree_bounded T → T ≠ [] → siphon T → ∃ f, f ∈ x.1 ∧ within_set f T) as Hcov.
  { intros T HbT Hne HT. destruct T as [|p T]; [done|]. apply (C eq_refl); [done|done|by intros v ?%not_elem_of_nil|]. exists p.
    split; [apply elem_of_seq; specialize (HbT p ltac:(left)); lia|left]. }
  split.
  - intros S (i & Hi & Hmin)%elem_of_minimal; [|done]. assert (S ∈ x.1) as HS by (by eapply list_elem_of_lookup_2). destruct (fo_sets _ F S HS) as (H1 & H2 & H3).
    split_and!; [done|done|done|]. intros T HbT Hne HT HTS. destruct (Hcov T HbT Hne HT) as (f & [j Hj]%list_elem_of_lookup & HfT).
    destruct (decide (j = i)) as [->|Hji]; [by simplify_eq|]. destruct (Hmin j f Hji Hj). auto.
  - intros T HbT Hne HT. destruct (Hcov T HbT Hne HT) as (f & Hf & HfT). destruct (minimal_below x.1 f F Hf) as (g & Hg & Hgf). exists g. auto.
Qed.

(** ** The largest trap *)

Lemma keeps_trap_iff S p : keeps_trap fn S p = true ↔ ∀ ft, ft ∈ flatTransitions fn → 0 < entry_at (preVector ft) p → produces_into S ft.
Proof.
  unfold keeps_trap, produces_into. rewrite forallb_elem. setoid_rewrite orb_true_iff. setoid_rewrite negb_true_iff. setoid_rewrite existsb_elem.
  setoid_rewrite Z.ltb_lt. setoid_rewrite Z.ltb_ge. split; intros H ft Hft; specialize (H ft Hft).
  - intros Hp. destruct H as [?|?]; [lia|done].
  - destruct (Z.lt_ge_cases 0 (entry_at (preVector ft) p)); [right; auto|by left].
Qed.

Lemma contract_spec fuel : ∀ S, (length S < fuel)%nat → ∃ r, contract fn fuel S = Some r ∧ within_set r S ∧ trap r ∧ ∀ U, trap U → within_set U S → within_set U r.
Proof.
  induction fuel as [|fuel IH]; intros S Hf; [lia|]. cbn [contract]. cbv zeta. set (rem := filter _ S). case_bool_decide as Hl.
  - exists S. split_and!; [done|done| |done]. intros ft Hft (p & Hp & Hpre). apply nil_length_inv in Hl.
    assert (keeps_trap fn S p = true) as Hk.
    { destruct (keeps_trap fn S p) eqn:E; [done|]. assert (p ∈ rem) as Hr by (apply list_elem_of_filter; by rewrite E). rewrite Hl in Hr. by apply not_elem_of_nil in Hr. }
    by apply (proj1 (keeps_trap_iff S p) Hk).
  - assert (length (filter (λ p, p ∉ rem) S) < length S)%nat as Hlt.
    { destruct rem as [|p rem'] eqn:Er; [done|]. apply length_filter_lt with p; [|by intros H; apply H; left]. assert (p ∈ rem) as Hp by (rewrite Er; left).
      by apply list_elem_of_filter in Hp as [_ ?]. }
    destruct (IH (filter (λ p, p ∉ rem) S) ltac:(lia)) as (r & -> & H1 & H2 & H3). exists r. split_and!; [done| |done|].
    + intros v Hv%H1. by apply list_elem_of_filter in Hv as [_ ?].
    + intros U HU HUS. apply H3; [done|]. intros v Hv. apply list_elem_of_filter. split; [|by apply HUS]. intros [Hk _]%list_elem_of_filter.
      apply Is_true_true, negb_true_iff, not_true_iff_false in Hk. apply Hk. apply keeps_trap_iff. intros ft Hft Hpre.
      destruct (HU ft Hft) as (q & Hq & Hpost); [by exists v|]. exists q. auto.
Qed.

(** ** Commoner's condition *)

Variable m : marking_state.

Definition marked S : Prop := ∃ i p, i ∈ S ∧ flatPlaces fn !! i = Some p ∧ 0 < ms_tokens p m.

Lemma isMarked_iff S : isMarked fn S m = true ↔ marked S.
Proof.
  unfold isMarked, marked. rewrite existsb_elem. split.
  - intros (i & Hi & H). destruct (flatPlaces fn !! i) as [p|] eqn:Ei; [|done]. cbn in H. exists i, p. split_and!; [done|done|by apply Z.ltb_lt].
  - intros (i & p & Hi & Ei & H). exists i. split; [done|]. rewrite Ei. by apply Z.ltb_lt.
Qed.

Definition has_marked_trap S : Prop := ∃ U, trap U ∧ within_set U S ∧ marked U.

Lemma first_unmarked_spec l : ∃ r, first_unmarked fn l m = Some r ∧
  ((r = NoPotentialDeadlock ∧ ∀ S, S ∈ l → has_marked_trap S) ∨ ∃ S, r = PotentialDeadlock S ∧ S ∈ l ∧ ¬ has_marked_trap S).
Proof.
  induction l as [|S l IH]; cbn [first_unmarked]; [eexists; split; [reflexivity|]; left; by split; [|intros S ?%not_elem_of_nil]|].
  unfold findMaximalTrapIn. destruct (contract_spec (Datatypes.S (length S)) S ltac:(lia)) as (U & -> & H1 & H2 & H3). cbn [mbind option_bind].
  destruct (_ || _) eqn:E.
  - eexists. split; [reflexivity|]. right. exists S. split_and!; [done|left|]. intros (U' & HU & HUS & i & p & Hi & Ei & Hp). apply (H3 U' HU HUS) in Hi.
    apply orb_true_iff in E as [E|E].
    + apply bool_decide_eq_true in E. apply nil_length_inv in E. rewrite E in Hi. by apply not_elem_of_nil in Hi.
    + apply negb_true_iff, not_true_iff_false in E. apply E, isMarked_iff. by exists i, p.
  - apply orb_false_iff in E as [_ E]. apply negb_false_iff, isMarked_iff in E. destruct IH as (r & -> & Hr). exists r. split; [done|]. destruct Hr as [[-> Hr]|(S' & -> & HS & Hn)].
    + left. split; [done|]. intros S' [->|HS']%elem_of_cons; [by exists U|by apply Hr].
    + right. exists S'. split_and!; [done|by right|done].
Qed.

Definition commoner_condition : Prop := ∀ T, tree_bounded T → T ≠ [] → siphon T → has_marked_trap T.

(** The check always answers, and decides the condition when it is conclusive. *)
Lemma structuralCheck_spec : ∃ r, structuralCheck fn m = Some r ∧ match r with
  | NoPotentialDeadlock => flatTransitions fn ≠ [] ∧ commoner_condition
  | PotentialDeadlock D => minimal_siphon D ∧ ¬ has_marked_trap D
  | Inconclusive _ => flatTransitions fn = [] ∨ (MAX_PLACES_FOR_SIPHON_ANALYSIS < P)%nat ∨ findMinimalSiphons fn (Fin SIPHON_SEARCH_BUDGET) = Some None
  end.
Proof.
  unfold structuralCheck. cbv zeta. case_bool_decide as Ht; [eexists; split; [reflexivity|]; left; by apply nil_length_inv|].
  assert (flatTransitions fn ≠ []) as Hne by (by intros E; rewrite E in Ht). destruct (Nat.eqb_spec P 0) as [HP|HP].
  { eexists. split; [reflexivity|]. split; [done|]. intros T HbT HT. destruct T as [|p T]; [done|]. specialize (HbT p ltac:(left)). lia. }
  destruct (Nat.ltb_spec MAX_PLACES_FOR_SIPHON_ANALYSIS P); [eexists; split; [reflexivity|]; (right; left; done)|].
  destruct (findMinimalSiphons_spec (Fin SIPHON_SEARCH_BUDGET)) as (r & Er & Hr). rewrite Er. cbn [mbind option_bind]. destruct r as [l|]; [|eexists; split; [reflexivity|]; (right; right; done)].
  destruct (Hr l eq_refl) as [H1 H2]. destruct (first_unmarked_spec l) as (r & -> & [[-> Hall]|(D & -> & HD & Hn)]); eexists; (split; [reflexivity|]).
  - split; [done|]. intros T HbT HT Hs. destruct (H2 T HbT HT Hs) as (D & HD & HDT). destruct (Hall D HD) as (U & ? & HUD & ?). exists U. auto.
  - split; [|done]. by apply H1.
Qed.
End Commoner.

(** ** Ordinary nets stay alive *)

Section Alive.
Variable fn : flat_net.
Hypothesis Happlies : commonerApplies fn = true.
Hypothesis Hclosed : environmentInjection fn = [].
Hypothesis Hvectors : ∀ ft, ft ∈ flatTransitions fn → ∀ p, (p < length (flatPlaces fn))%nat → 0 <= entry_at (preVector ft) p ∧ 0 <= entry_at (postVector ft) p.
Implicit Types (s : abstract_state) (ft : flat_transition) (U : list nat).

Lemma ordinary ft : ft ∈ flatTransitions fn → readIds ft = [] ∧ inhibitorIds ft = [] ∧ resetIds ft = [] ∧
  (∀ p, drains ft p = false) ∧ ∀ p, entry_at (preVector ft) p <= 1.
Proof.
  intros Hft. unfold commonerApplies in Happlies. rewrite forallb_elem in Happlies. specialize (Happlies ft Hft).
  rewrite !andb_true_iff, !bool_decide_eq_true, !negb_true_iff in Happlies. destruct Happlies as [[[[H1 H2] H3] H4] H5].
  split_and!; [by apply nil_length_inv..| |].
  - intros p. unfold drains. destruct (consumeAll ft !! p) as [[]|] eqn:E; [|done..]. rewrite <- not_true_iff_false in H4. destruct H4. apply existsb_elem. exists true.
    split; [by eapply list_elem_of_lookup_2|done].
  - intros p. unfold entry_at. destruct (preVector ft !! p) as [w|] eqn:E; cbn; [|lia]. apply Z.nlt_ge. intros Hw. rewrite <- not_true_iff_false in H5. destruct H5. apply existsb_elem.
    exists w. split; [by eapply list_elem_of_lookup_2|by apply Z.ltb_lt].
Qed.

Lemma enabled_ordinary s ft : ft ∈ flatTransitions fn → enabledA s ft = true ↔ ∀ p, (p < length s)%nat → 0 < entry_at (preVector ft) p → entry_at (preVector ft) p <= entry_at s p.
Proof.
  intros Hft. destruct (ordinary ft Hft) as (Hr & Hi & _). unfold enabledA. rewrite Hr, Hi. cbn [forallb]. rewrite !andb_true_r, forallb_elem.
  setoid_rewrite elem_of_seq. setoid_rewrite negb_true_iff. setoid_rewrite andb_false_iff. setoid_rewrite Z.ltb_ge. split.
  - intros H p Hp Hpre. specialize (H p ltac:(lia)). lia.
  - intros H p Hp. destruct (Z.lt_ge_cases 0 (entry_at (preVector ft) p)); [right; apply H; lia|by left].
Qed.

Lemma fire_ordinary s ft p : ft ∈ flatTransitions fn → (p < length s)%nat →
  entry_at (fireA s ft) p = entry_at s p - entry_at (preVector ft) p + entry_at (postVector ft) p.
Proof.
  intros Hft Hp. destruct (ordinary ft Hft) as (_ & _ & Hres & Hd & _). unfold fireA, fireIndexed. rewrite entry_map by done. rewrite Hres, Hd.
  by rewrite bool_decide_eq_false_2 by apply not_elem_of_nil.
Qed.

Lemma closed_set_step s s' : flat_step fn s s' → ∃ ft, ft ∈ flatTransitions fn ∧ enabledA s ft = true ∧ s' = fireA s ft.
Proof. intros [(ft & ? & ? & ? & _)|(n & b & i & Hn & _)]%flat_step_iff; [by exists ft|]. rewrite Hclosed in Hn. by apply not_elem_of_nil in Hn. Qed.

(** States with counts, in which the traps of [Q] are marked. *)
Definition keeps (Q : list nat → Prop) s : Prop := length s = length (flatPlaces fn) ∧ (∀ p, 0 <= entry_at s p) ∧
  ∀ U, Q U → tree_bounded fn U → trap fn U → ∃ p, p ∈ U ∧ 0 < entry_at s p.

Lemma keeps_step Q s s' : keeps Q s → flat_step fn s s' → keeps Q s'.
Proof.
  intros (Hl & Hn & Ht) (ft & Hft & Hen & ->)%closed_set_step. destruct (enabled_ordinary s ft Hft) as [Hpre _]. specialize (Hpre Hen).
  assert (length (fireA s ft) = length s) as El by (unfold fireA, fireIndexed; by rewrite length_fmap, length_seq).
  assert (∀ p, (p < length s)%nat → entry_at (preVector ft) p <= entry_at s p) as Hle.
  { intros p Hp. destruct (Hvectors ft Hft p ltac:(lia)). destruct (Z.lt_ge_cases 0 (entry_at (preVector ft) p)); [by apply Hpre|specialize (Hn p); lia]. }
  split_and!; [by rewrite El| |].
  - intros p. destruct (decide (p < length s)%nat) as [Hp|Hp].
    + rewrite fire_ordinary by done. destruct (Hvectors ft Hft p ltac:(lia)). specialize (Hle p Hp). lia.
    + unfold entry_at. rewrite lookup_ge_None_2 by lia. done.
  - intros U HQ HU Htr. destruct (Ht U HQ HU Htr) as (p & Hp & Hpos). pose proof (HU p Hp) as Hlt.
    destruct (Z.lt_ge_cases 0 (entry_at (preVector ft) p)) as [Hc|Hc].
    + destruct (Htr ft Hft) as (q & Hq & Hpost); [by exists p|]. exists q. split; [done|]. specialize (HU q Hq). rewrite fire_ordinary by (done || lia). specialize (Hle q ltac:(lia)). lia.
    + exists p. split; [done|]. rewrite fire_ordinary by (done || lia). destruct (Hvectors ft Hft p ltac:(lia)). lia.
Qed.

(** Commoner: while every siphon contains a marked trap, something is enabled. *)
Lemma commoner_alive m s0 s : s0 = vectorize m fn → (∀ p, 0 <= entry_at s0 p) → flatTransitions fn ≠ [] → commoner_condition fn m → flat_reachable fn s0 s →
  ∃ ft, ft ∈ flatTransitions fn ∧ enabledA s ft = true.
Proof.
  intros Es0 H0 Hne Hcom Hreach. set (Q := marked fn m). assert (keeps Q s) as (Hl & Hn & Ht).
  { revert s Hreach. apply rtc_ind_r; [|intros s1 s2 _ Hst Hk; by eapply keeps_step]. split_and!; [subst s0; unfold vectorize; by rewrite length_fmap|done|].
    intros U (i & p & Hi & Ei & Hp) _ _. exists i. split; [done|]. subst s0. unfold entry_at, vectorize. by rewrite list_lookup_fmap, Ei. }
  destruct (decide (Exists (λ ft, enabledA s ft = true) (flatTransitions fn))) as [He|Hdead]; [by apply Exists_exists in He|exfalso].
  set (E := filter (λ p, entry_at s p = 0) (seq 0 (length (flatPlaces fn)))).
  assert (∀ p, p ∈ E ↔ (p < length (flatPlaces fn))%nat ∧ entry_at s p = 0) as HE.
  { intros p. unfold E. rewrite list_elem_of_filter, elem_of_seq. split; [intros [? ?]; split; [lia|done]|intros [? ?]; split; [done|lia]]. }
  assert (∀ ft, ft ∈ flatTransitions fn → consumes_from E ft) as Hinput.
  { intros ft Hft. assert (¬ ∀ p, (p < length s)%nat → 0 < entry_at (preVector ft) p → entry_at (preVector ft) p <= entry_at s p) as Hx.
    { intros H%enabled_ordinary; [|done]. apply Hdead, Exists_exists. by exists ft. }
    destruct (decide (Exists (λ p, 0 < entry_at (preVector ft) p ∧ ¬ entry_at (preVector ft) p <= entry_at s p) (seq 0 (length s)))) as [Hp|Hp].
    - apply Exists_exists in Hp as (p & Hp%elem_of_seq & Hpre & Hlt). exists p. split; [|done]. apply HE. split; [lia|].
      destruct (ordinary ft Hft) as (_ & _ & _ & _ & H1). specialize (H1 p). specialize (Hn p). lia.
    - destruct Hx. intros p Hlt Hpre. apply Z.nlt_ge. intros Hgt. apply Hp, Exists_exists. exists p. split; [apply elem_of_seq; lia|]. split; [done|lia]. }
  destruct (flatTransitions fn) as [|ft0 fts] eqn:Efts; [done|].
  destruct (Hcom E) as (U & HU & HUE & Hm).
  - intros p Hp%HE. lia.
  - destruct (Hinput ft0 ltac:(left)) as (p & Hp & _). intros Enil. rewrite Enil in Hp. by apply not_elem_of_nil in Hp.
  - intros ft Hft _. apply Hinput. by rewrite <- Efts.
  - destruct (Ht U Hm) as (p & Hp & Hpos); [intros p Hp%HUE%HE; lia|done|]. apply HUE, HE in Hp. lia.
Qed.
End Alive.

(** * The structural proof of deadlock freedom

    Phase 2 of the verifier on a net: what the structural check ([Siphons]) answers, and that its proof
    is one about the runs of the token game ([Commoner]). *)
#[local] Open Scope Z_scope.

Section Structural.
Context {V : Type}.
Variables (net : petri_net V) (fn : flat_net) (m0 : marking_state).
Hypothesis Hflat : flatten net [] Ignore (λ _, false) = Ok fn.
Hypothesis Hbuilt : built_net net.
Hypothesis Hdrained : drainedForward (net_transitions net) = Ok None.
Hypothesis Hm : ms_wf m0.

Lemma total_nonneg (f : place → Z) ds n : (∀ d, d ∈ ds → 0 <= depositCount (od_deposit d) f) → 0 <= total_deposit f ds n.
Proof.
  intros H. induction ds as [|d ds IH]; cbn [total_deposit foldr]; [done|]. specialize (IH ltac:(intros; apply H; by right)). unfold total_deposit in IH.
  specialize (H d ltac:(left)). case_decide; lia.
Qed.

(** The vectors of a flattened net hold no negative entry. *)
Lemma vectors_nonneg ft : ft ∈ flatTransitions fn → ∀ p, (p < length (flatPlaces fn))%nat → 0 <= entry_at (preVector ft) p ∧ 0 <= entry_at (postVector ft) p.
Proof.
  intros (i & t & os & b & o & Et & Eos & Eb & ->)%(elem_of_flatTransitions net [] Ignore (λ _, false) fn Hflat) p Hp.
  assert (t ∈ net_transitions net) as Ht by (by eapply list_elem_of_lookup_2). pose proof (flat_ids net [] Ignore (λ _, false) fn Hflat) as Hix.
  destruct (lookup_lt_is_Some_2 (flatPlaces fn) p Hp) as [q Hq]. assert (map_get (place_name q) (flatIndex fn) = Some p) as Ep by (apply Hix; eauto).
  destruct (pre_at net [] Ignore (λ _, false) fn Hflat (built_inputs net Hbuilt) t i (length os) b o (place_name q) p Ht Ep) as [-> _].
  change (postVector (flat_outcome (λ _, false) fn i t (length os) b o)) with (post_vector (flatIndex fn) (length (flatPlaces fn)) t o).
  rewrite (post_vector_at _ _ _ Hix eq_refl t o p (place_name q) Ep). destruct (built_inputs net Hbuilt t Ht) as [_ Hr]. rewrite Forall_forall in Hr. split.
  - destruct (spec_of t (place_name q)) as [s|] eqn:Es; [|done]. apply spec_of_Some in Es as [Hs _]. specialize (Hr s Hs). cbn. lia.
  - apply total_nonneg. intros d Hd. destruct (Hbuilt t Ht) as (bd & Hb & Hi). destruct (outcomes_ok bd t Hi Hb) as (os' & Eos' & Hall). assert (os' = os) as -> by congruence.
    destruct (Hall o d ltac:(by eapply list_elem_of_lookup_2) Hd) as [Hok _]. unfold deposit_ok in Hok. destruct (od_deposit d) as [z|from]; [done|]. cbn [depositCount].
    unfold minimum_of. destruct (js_find _ _) as [s|] eqn:Es; [|done]. apply js_find_Some_in in Es as [Hs _]. specialize (Hr s Hs). cbn. lia.
Qed.

(** When the check finds Commoner's condition on an ordinary net, no run ends in a dead marking. *)
Lemma structural_alive l c : commonerApplies fn = true → flatTransitions fn ≠ [] → commoner_condition fn m0 →
  run (net_transitions net) (count_of m0) l c → ¬ dead (net_transitions net) c.
Proof.
  intros Happ Hne Hcom Hrun Hdead. assert (token_reachable (net_transitions net) [] Ignore m0 c) as Ht by (apply token_run; by exists l). apply open_closed with (envn := env_names [] fn) in Ht.
  pose proof (reached_nonneg net [] Ignore fn m0 Hbuilt Hm c Ht) as Hnn.
  destruct (commoner_alive fn Happ (closed_injection net fn Hflat) vectors_nonneg m0 (vectorize m0 fn) (state_of fn c)) as (ft & Hft & Hen); [done| |done|done| |].
  - intros p. rewrite vectorize_state. unfold entry_at, state_of. rewrite list_lookup_fmap. destruct (flatPlaces fn !! p); cbn; [by apply count_nonneg|done].
  - by apply (flat_of_open net [] Ignore (λ _, false) fn m0 Hflat Hbuilt Hdrained Hm).
  - apply (elem_of_flatTransitions net [] Ignore (λ _, false) fn Hflat) in Hft as (i & t & os & b & o & Et & Eos & Eb & ->).
    rewrite (enabledA_exact net [] Ignore (λ _, false) fn Hflat (built_inputs net Hbuilt)) in Hen; [|by eapply list_elem_of_lookup_2|done].
    rewrite Hdead in Hen; [done|by eapply list_elem_of_lookup_2].
Qed.
End Structural.

(** ** Properties *)

(** C18: the structural proof of deadlock freedom is right, and the check behind it exact. For every
    well-formed closed net of built transitions without a drained forward, the check always answers.
    "No potential deadlock" holds exactly when every siphon contains an initially marked trap (and
    there is a transition); "potential deadlock" comes with a minimal siphon that contains none; it is
    inconclusive only without transitions, above fifty places, or past the search budget. Where the
    verifier turns "no potential deadlock" into "proven", no firing sequence of the net ends in a
    marking that violates the property. *)
Theorem structural_proof_sound {V} (net : petri_net V) m0 :
  built_net net → net_wf net → drainedForward (net_transitions net) = Ok None → ms_wf m0 →
  ∃ net' fn r, withInertMarkedPlaces net m0 = Ok net' ∧ flatten net' [] Ignore (λ _, false) = Ok fn ∧ structuralCheck fn m0 = Some r ∧
    match r with
    | NoPotentialDeadlock => commoner_condition fn m0 ∧ ∀ prop hasMatch sinks cond, structuralCandidate fn prop hasMatch sinks cond [] = true →
        ∀ l c, run (net_transitions net) (count_of m0) l c → ¬ violates prop sinks cond c (dead (net_transitions net) c)
    | PotentialDeadlock D => minimal_siphon fn D ∧ ¬ has_marked_trap fn m0 D
    | Inconclusive _ => flatTransitions fn = [] ∨ (50 < length (flatPlaces fn))%nat ∨ findMinimalSiphons fn (Fin 10000) = Some None
    end.
Proof.
  intros Hb Hwf Hd Hm. destruct (withInert_spec net m0 Hwf Hm) as (net' & En & Et & _ & _ & _).
  assert (built_net net') as Hb' by (intros t; rewrite Et; apply Hb). rewrite <- Et in Hd |- *.
  destruct (flattens net' [] Ignore (λ _, false) Hb' I) as [fn Ef]. destruct (structuralCheck_spec fn m0) as (r & Er & Hr).
  exists net', fn, r. do 3 (split; [done|]). destruct r as [|D|]; [|done|done]. destruct Hr as [Hne Hcom]. split; [done|].
  intros prop hasMatch sinks cond Hc l c Hrun Hv. unfold structuralCandidate in Hc. rewrite !andb_true_iff in Hc.
  destruct Hc as [[[[[[Hp _] _] Happ] _] _] _]. destruct prop; try done. cbn [violates] in Hv.
  apply (structural_alive net' fn m0 Ef Hb' Hd Hm l c Happ Hne Hcom Hrun), Hv.
Qed.

(** A token that goes back and forth. *)
Definition cycle_net : list (transition unit) := built <$> [moves "go" (place_of 0 "a") (place_of 1 "b"); moves "back" (place_of 1 "b") (place_of 0 "a")].
Definition cycle_petri : petri_net unit := PetriNet (js "cycle") [place_of 0 "a"; place_of 1 "b"] cycle_net [].
Definition cycle_initial : marking_state := MarkingState [(js "a", 1)] [(js "a", place_of 0 "a")].

Lemma cycle_ok : built_net cycle_petri ∧ net_wf cycle_petri ∧ ms_wf cycle_initial.
Proof.
  split; [|split; [split_and!|]].
  - intros t (b & -> & Hb)%list_elem_of_fmap. exists b. repeat (apply elem_of_cons in Hb as [->|Hb]; [split; [reflexivity|by intros o [= <-]]|]). by apply not_elem_of_nil in Hb.
  - assert (Forall (λ t, Forall (λ p, p ∈ net_places cycle_petri) (arc_places t)) cycle_net) as H by (apply (bool_decide_unpack _); vm_compute; exact I).
    rewrite Forall_forall in H. intros t p Ht Hp. specialize (H t Ht). rewrite Forall_forall in H. by apply H.
  - by intros ? ?%not_elem_of_nil.
  - constructor.
  - by intros ? ? ?%not_elem_of_nil.
  - constructor.
    + apply NoDup_singleton.
    + done.
    + intros n p [= -> ->]%list_elem_of_singleton. done.
    + apply NoDup_singleton.
    + intros n z [= -> ->]%list_elem_of_singleton. lia.
Qed.

Lemma structural_proof_sound_witness :
  (∃ fn, flatten cycle_petri [] Ignore (λ _, false) = Ok fn ∧ findMinimalSiphons fn Infinity = Some (Some [[0; 1]%nat]) ∧ structuralCheck fn cycle_initial = Some NoPotentialDeadlock) ∧
  ∀ l c, run cycle_net (count_of cycle_initial) l c → ¬ violates DeadlockFree [] [] c (dead cycle_net c).
Proof.
  destruct cycle_ok as (Hb & Hwf & Hm). destruct (structural_proof_sound cycle_petri cycle_initial Hb Hwf eq_refl Hm) as (net' & fn & r & En & Ef & Er & H).
  vm_compute in En. injection En as <-. vm_compute in Ef. injection Ef as <-. vm_compute in Er. injection Er as <-. split.
  - eexists. split; [vm_compute; reflexivity|]. split; vm_compute; reflexivity.
  - destruct H as [_ H]. apply (H DeadlockFree false [] []). vm_compute. reflexivity.
Defined.
