(* ===== verification/PreNet.v ===== *)
(** * Precompiled nets

    [src/typescript/src/runtime/precompiled-net.ts]: a compiled net rewritten into flat arrays, one
    cell per transition or place. The places of a transition of the net have identifiers, so a
    lookup of one does not throw. A store into an [Int32Array] wraps. *)
From S2P Require Import Prelude.
From S2P Require Import Net.
From S2P Require Import Out.
From S2P Require Import Transition.
From S2P Require Import PetriNet.
From S2P Require Import Bitmap.
From S2P Require Import CompiledNet.
#[local] Open Scope Z_scope.

(** ** Opcodes *)

Definition CONSUME_ONE : Z := 0.
Definition CONSUME_N : Z := 1.
Definition CONSUME_ALL : Z := 2.
Definition CONSUME_ATLEAST : Z := 3.
Definition RESET : Z := 4.

Definition SPARSE_EMPTY : Z := -2.
Definition SPARSE_MULTI : Z := -1.

(** ** Sparse masks *)

(** The four cells of a transition: the word of a single-word mask, its bits, and for a mask over
    several words their indices and bits. *)
Record sparse := Sparse {
  singleWordIndex : Z;
  singleWordMask : Z;
  sparseIndices : list nat;
  sparseMasks : list Z
}.

Definition compileSparse (mask : list Z) (wordCount : nat) : sparse :=
  let '(nonZeroCount, lastNonZeroWord) :=
    foldl (λ x w, if word_at mask w =? 0 then x else (x.1 + 1, Z.of_nat w)) (0, -1) (seq 0 wordCount) in
  if nonZeroCount =? 0 then Sparse SPARSE_EMPTY 0 [] []
  else if nonZeroCount =? 1 then Sparse lastNonZeroWord (word_at mask (Z.to_nat lastNonZeroWord)) [] []
  else
    let idx := filter (λ w, word_at mask w ≠ 0) (seq 0 wordCount) in
    Sparse SPARSE_MULTI 0 idx (word_at mask <$> idx).

(** [((snapshot[w] & m) >>> 0) === m] *)
Definition word_contains (snapshot : list Z) (w : nat) (m : Z) : bool := to_uint32 (js_and (word_at snapshot w) m) =? m.
(** [(snapshot[w] & m) !== 0] *)
Definition word_meets (snapshot : list Z) (w : nat) (m : Z) : bool := negb (js_and (word_at snapshot w) m =? 0).

Definition needs_pass (s : sparse) (snapshot : list Z) : bool :=
  if singleWordIndex s =? SPARSE_EMPTY then true
  else if 0 <=? singleWordIndex s then word_contains snapshot (Z.to_nat (singleWordIndex s)) (singleWordMask s)
  else forallb (λ x, word_contains snapshot x.1 x.2) (zip (sparseIndices s) (sparseMasks s)).

Definition inhibitors_pass (s : sparse) (snapshot : list Z) : bool :=
  if singleWordIndex s =? SPARSE_EMPTY then true
  else if 0 <=? singleWordIndex s then negb (word_meets snapshot (Z.to_nat (singleWordIndex s)) (singleWordMask s))
  else negb (existsb (λ x, word_meets snapshot x.1 x.2) (zip (sparseIndices s) (sparseMasks s))).

(** ** The program *)

Section PreNet.
Context {V : Type}.
Implicit Types (t : transition V) (c : compiled V).

Record precompiled := Precompiled {
  pc_compiled : compiled V;
  places : list place;
  consumeOps : list (list Z);
  resetOpsStart : list nat;
  readOps : list (list nat);
  needsMask : list (list Z);
  inhibitorMask : list (list Z);
  needsSparse : list sparse;
  inhibitorSparse : list sparse;
  earliestMs : list Z;
  latestMs : list Z;
  hasDeadline : list bool;
  isExact : list bool;
  priorities : list Z;
  transitionToPriorityIndex : list Z;
  priorityLevels : list Z;
  simpleOutputPlaceId : list Z;
  inputPlaceCount : list nat;
  inputPlaceMaskWords : list (list Z);
  placeToTransitions : list (list nat);
  consumptionPlaceIds : list (list nat);
  cardinalityChecks : list (option (list (nat * Z)));
  hasMatch : list bool;
  allImmediate : bool;
  allSamePriority : bool;
  anyDeadlines : bool
}.

(** [compiled.placeId(place)] *)
Definition pid c (p : place) : nat := pid_of (placeIndex c) p.

Definition needs_mask c t : list Z :=
  foldl setBit (foldl setBit (new_words (wordCount c)) (pid c <$> (in_place <$> inputSpecs t))) (pid c <$> reads t).
Definition inhibitor_mask c t : list Z := foldl setBit (new_words (wordCount c)) (pid c <$> inhibitors t).
Definition input_mask c t : list Z := foldl setBit (new_words (wordCount c)) (pid c <$> (in_place <$> inputSpecs t)).

Definition consume_op c (s : in_spec) : list Z :=
  match s with
  | InOne p => [CONSUME_ONE; Z.of_nat (pid c p)]
  | InExactly p count => [CONSUME_N; Z.of_nat (pid c p); count]
  | InAll p => [CONSUME_ALL; Z.of_nat (pid c p)]
  | InAtLeast p minimum => [CONSUME_ATLEAST; Z.of_nat (pid c p); minimum]
  end.
Definition reset_op c (p : place) : list Z := [RESET; Z.of_nat (pid c p)].

(** The opcodes and the start of the reset tail. *)
Definition compileConsumeProgram c t : list Z * nat :=
  let ops := s ← inputSpecs t; consume_op c s in
  (ops ++ (p ← resets t; reset_op c p), length ops).

Definition compileReadProgram c t : list nat := pid c <$> reads t.

(** -2 without an output, -1 when it is not one place. *)
Definition simpleOutputPlace c (spec : out) : Z := match spec with OutPlace p => Z.of_nat (pid c p) | _ => -1 end.
Definition simple_output c t : Z := match outputSpec t with None => -2 | Some spec => simpleOutputPlace c spec end.

Definition is_exact_timing (ti : timing) : bool := match ti with TimingExact _ => true | _ => false end.
Definition is_immediate_timing (ti : timing) : bool := match ti with TimingImmediate => true | _ => false end.

(** The distinct priorities, the greatest first. *)
Definition priority_levels (ps : list Z) : list Z := stable_sort (λ a b, b - a <=? 0) (set_of ps).
(** [levelIndex.get(priority)!], stored in a [Uint32Array]: 0 when there is none. *)
Definition level_index (levels : list Z) (p : Z) : Z :=
  from_option (λ i, to_uint32 (Z.of_nat i)) 0 (map_get p (foldl (λ m x, map_set x.2 x.1 m) [] (imap pair levels))).

Definition compileFrom c : precompiled :=
  let ts := c_transitions c in
  let tids := seq 0 (transitionCount c) in
  let levels := priority_levels (priority <$> ts) in
  let prios := (λ t, to_int32 (priority t)) <$> ts in
  let firstPriority := from_option priority 0 (head ts) in
  Precompiled c (placesById c)
    ((λ t, (compileConsumeProgram c t).1) <$> ts) ((λ t, (compileConsumeProgram c t).2) <$> ts) (compileReadProgram c <$> ts)
    (needs_mask c <$> ts) (inhibitor_mask c <$> ts)
    ((λ t, compileSparse (needs_mask c t) (wordCount c)) <$> ts) ((λ t, compileSparse (inhibitor_mask c t) (wordCount c)) <$> ts)
    ((λ t, earliest (t_timing t)) <$> ts) ((λ t, latest (t_timing t)) <$> ts)
    ((λ t, Net.hasDeadline (t_timing t)) <$> ts) ((λ t, is_exact_timing (t_timing t)) <$> ts)
    prios (level_index levels <$> prios) levels
    (simple_output c <$> ts) ((λ t, length (inputSpecs t) + length (reads t))%nat <$> ts) (input_mask c <$> ts)
    (affectedTransitions c <$> seq 0 (placeCount c)) (CompiledNet.consumptionPlaceIds c <$> tids)
    (cardinalityCheck c <$> tids) (CompiledNet.hasMatch c <$> tids)
    (forallb (λ t, is_immediate_timing (t_timing t)) ts) (forallb (λ t, priority t =? firstPriority) ts)
    (existsb (λ t, Net.hasDeadline (t_timing t)) ts).

Definition compile (isPassthrough : nat → bool) (net : petri_net V) : result compile_error precompiled :=
  let* c := CompiledNet.compile isPassthrough net in Ok (compileFrom c).

Definition placeCount (p : precompiled) : nat := CompiledNet.placeCount (pc_compiled p).
Definition transitionCount (p : precompiled) : nat := CompiledNet.transitionCount (pc_compiled p).
Definition wordCount (p : precompiled) : nat := CompiledNet.wordCount (pc_compiled p).
Definition transition_at (p : precompiled) (tid : nat) : option (transition V) := c_transition (pc_compiled p) tid.

Definition no_sparse : sparse := Sparse SPARSE_EMPTY 0 [] [].
Definition canEnableSparse (p : precompiled) (tid : nat) (snapshot : list Z) : bool :=
  if negb (needs_pass (default no_sparse (needsSparse p !! tid)) snapshot) then false
  else inhibitors_pass (default no_sparse (inhibitorSparse p !! tid)) snapshot.
End PreNet.
Arguments precompiled : clear implicits.
