(* ===== verification/PreExec.v ===== *)
(** * The precompiled executor

    [src/typescript/src/runtime/precompiled-net-executor.ts]: tokens in one queue per place, in-flight
    firings in arrays indexed by transition, the scan, the deadline pass and firing by opcodes. The
    conventions are those of [Executor]: clock readings are arguments, host code is a parameter or a
    step, an event carries no time stamp. [None] as the result of a firing marks the two things a
    compiled program does not do: take a token from an empty queue, which hands on [undefined], and
    meet an unknown opcode. *)
From S2P Require Import Prelude.
From S2P Require Import CodePoints.
From S2P Require Import Net.
From S2P Require Import Out.
From S2P Require Import OutSpec.
From S2P Require Import Transition.
From S2P Require Import Marking.
From S2P Require Import MatchEngine.
From S2P Require Import PetriNet.
From S2P Require Import Bitmap.
From S2P Require Import CompiledNet.
From S2P Require Import OutputCheck.
From S2P Require Import Context.
From S2P Require Import Executor.
From S2P Require Import ExecLoop.
From S2P Require Import PreNet.

Section PreExec.
Context {V : Type}.

(** ** State *)

Record engine := Engine {
  tokenQueues : list (list (token V));
  unknownPlaceTokens : list (jsstr * (place * list (token V)));
  markingBitmap : list Z;
  dirtyBitmap : list Z;
  enabledAtMs : list (option Z);
  inFlightFlags : list bool;
  enabledFlags : list bool;
  enabledTransitionCount : Z;
  restartPendingWords : list Z;
  anyRestartPending : bool;
  matchCaches : list (option matcher);
  e_log : list (net_event V)
}.

(** The cells of the in-flight arrays of a transition. A promise is [null], pending or settled. *)
Record exec := Exec {
  x_engine : engine;
  inFlightPromises : list (option bool);
  inFlightContexts : list (option (context V));
  inFlightConsumed : list (option (list (token V)));
  inFlightMatched : list (option name_id);
  inFlightErrors : list (option thrown);
  inFlightCount : Z;
  completionQueue : list nat;
  externalQueue : list (external_event V);
  admissions : list (nat * bool);
  warnedMultiplicity : list jsstr;
  freshNameCounter : nat;
  wakeUpPending : bool;
  draining : bool;
  closed : bool;
  terminalReached : bool;
  unsettled : bool;
  running : bool;
  reason : termination_reason
}.

Record config := Config {
  program : precompiled V;
  thresholds : list jnum;
  placeMatchTargets : list (list (nat * nat));
  skipOutputValidation : bool;
  deadlineToleranceMs : Z;
  environmentPlaces : list jsstr;
  executionScope : jsstr
}.

(** ** Writing the fields *)

Implicit Types (e : engine) (x : exec) (t : transition V).

Definition set_queue (pid : nat) (q : list (token V)) e : engine :=
  Engine (<[pid := q]> (tokenQueues e)) (unknownPlaceTokens e) (markingBitmap e) (dirtyBitmap e) (enabledAtMs e) (inFlightFlags e)
    (enabledFlags e) (enabledTransitionCount e) (restartPendingWords e) (anyRestartPending e) (matchCaches e) (e_log e).
Definition set_unknown (u : list (jsstr * (place * list (token V)))) e : engine :=
  Engine (tokenQueues e) u (markingBitmap e) (dirtyBitmap e) (enabledAtMs e) (inFlightFlags e)
    (enabledFlags e) (enabledTransitionCount e) (restartPendingWords e) (anyRestartPending e) (matchCaches e) (e_log e).
Definition set_bitmap (b : list Z) e : engine :=
  Engine (tokenQueues e) (unknownPlaceTokens e) b (dirtyBitmap e) (enabledAtMs e) (inFlightFlags e)
    (enabledFlags e) (enabledTransitionCount e) (restartPendingWords e) (anyRestartPending e) (matchCaches e) (e_log e).
Definition set_dirty (d : list Z) e : engine :=
  Engine (tokenQueues e) (unknownPlaceTokens e) (markingBitmap e) d (enabledAtMs e) (inFlightFlags e)
    (enabledFlags e) (enabledTransitionCount e) (restartPendingWords e) (anyRestartPending e) (matchCaches e) (e_log e).
Definition set_enabledAt (tid : nat) (at_ms : option Z) e : engine :=
  Engine (tokenQueues e) (unknownPlaceTokens e) (markingBitmap e) (dirtyBitmap e) (<[tid := at_ms]> (enabledAtMs e)) (inFlightFlags e)
    (enabledFlags e) (enabledTransitionCount e) (restartPendingWords e) (anyRestartPending e) (matchCaches e) (e_log e).
Definition set_inFlight (tid : nat) (b : bool) e : engine :=
  Engine (tokenQueues e) (unknownPlaceTokens e) (markingBitmap e) (dirtyBitmap e) (enabledAtMs e) (<[tid := b]> (inFlightFlags e))
    (enabledFlags e) (enabledTransitionCount e) (restartPendingWords e) (anyRestartPending e) (matchCaches e) (e_log e).
Definition set_enabled (tid : nat) (b : bool) (count : Z) e : engine :=
  Engine (tokenQueues e) (unknownPlaceTokens e) (markingBitmap e) (dirtyBitmap e) (enabledAtMs e) (inFlightFlags e)
    (<[tid := b]> (enabledFlags e)) (enabledTransitionCount e + count) (restartPendingWords e) (anyRestartPending e) (matchCaches e) (e_log e).
Definition set_restart (ws : list Z) (any : bool) e : engine :=
  Engine (tokenQueues e) (unknownPlaceTokens e) (markingBitmap e) (dirtyBitmap e) (enabledAtMs e) (inFlightFlags e)
    (enabledFlags e) (enabledTransitionCount e) ws any (matchCaches e) (e_log e).
Definition set_cache (tid : nat) (m : option matcher) e : engine :=
  Engine (tokenQueues e) (unknownPlaceTokens e) (markingBitmap e) (dirtyBitmap e) (enabledAtMs e) (inFlightFlags e)
    (enabledFlags e) (enabledTransitionCount e) (restartPendingWords e) (anyRestartPending e) (<[tid := m]> (matchCaches e)) (e_log e).
Definition emitEvent (ev : net_event V) e : engine :=
  Engine (tokenQueues e) (unknownPlaceTokens e) (markingBitmap e) (dirtyBitmap e) (enabledAtMs e) (inFlightFlags e)
    (enabledFlags e) (enabledTransitionCount e) (restartPendingWords e) (anyRestartPending e) (matchCaches e) (e_log e ++ [ev]).

Definition disable (tid : nat) e : engine := set_enabledAt tid None (set_enabled tid false (-1) e).

Definition queue_at (pid : nat) e : list (token V) := default [] (tokenQueues e !! pid).

(** ** Enablement *)

Variable cf : config.
Abbreviation prog := (program cf).

Definition transition_name (tid : nat) : jsstr := from_option t_name [] (transition_at prog tid).
Definition place_name_at (pid : nat) : jsstr := from_option place_name [] (places prog !! pid).

(** [p => this.tokenQueues[prog.compiled.placeId(p)]!] *)
Definition tokens_of e (p : place) : list (token V) := queue_at (pid (pc_compiled prog) p) e.

Definition canEnable (tid : nat) (markingSnap : list Z) e : bool :=
  if negb (canEnableSparse prog tid markingSnap) then false
  else if existsb (λ x : nat * Z, (Z.of_nat (length (queue_at x.1 e)) <? x.2)%Z) (default [] (default None (cardinalityChecks prog !! tid)))
  then false
  else if flag (hasMatch prog) tid then
    match default None (matchCaches e !! tid) with
    | Some cache => bool_decide (best cache ≠ None)
    | None => match transition_at prog tid with
              | Some t => bool_decide (findBinding t (tokens_of e) ≠ None)
              | None => false
              end
    end
  else true.

Definition markTransitionDirty (tid : nat) e : engine := set_dirty (setBit (dirtyBitmap e) tid) e.
Definition markDirty (pid : nat) e : engine :=
  foldl (λ e tid, markTransitionDirty tid e) e (default [] (placeToTransitions prog !! pid)).
Definition setMarkingBit (pid : nat) e : engine := set_bitmap (setBit (markingBitmap e) pid) e.
Definition clearMarkingBit (pid : nat) e : engine := set_bitmap (clearBit (markingBitmap e) pid) e.
Definition hasDirtyBits e : bool := existsb (λ w, negb (w =? 0)%Z) (dirtyBitmap e).

(** One transition of the dirty scan. *)
Definition rescan (nowMs : Z) (snap : list Z) (tid : nat) e : engine :=
  if flag (inFlightFlags e) tid then e
  else
    let wasEnabled := flag (enabledFlags e) tid in
    let canNow := canEnable tid snap e in
    if canNow && negb wasEnabled then
      emitEvent (EvTransitionEnabled (transition_name tid)) (set_enabledAt tid (Some nowMs) (set_enabled tid true 1 e))
    else if negb canNow && wasEnabled then disable tid e
    else if canNow && wasEnabled && anyRestartPending e && testBit (restartPendingWords e) tid then
      emitEvent (EvClockRestarted (transition_name tid)) (set_enabledAt tid (Some nowMs) e)
    else e.

Definition updateDirtyTransitions (nowMs : Z) e : engine :=
  let markingSnap := markingBitmap e in
  let dirtySnap := dirtyBitmap e in
  let e := set_dirty ((λ _, 0%Z) <$> dirtyBitmap e) e in
  let e := scan_words (rescan nowMs markingSnap) (transitionCount prog) 0 dirtySnap e in
  if anyRestartPending e then set_restart ((λ _, 0%Z) <$> restartPendingWords e) false e else e.

(** [nowMs - enabledAtMs[tid]] *)
Definition elapsed (nowMs : Z) (tid : nat) e : jnum :=
  match default None (enabledAtMs e !! tid) with Some at_ms => Fin (nowMs - at_ms) | None => Infinity end.

Definition enforce_deadline (nowMs : Z) e (tid : nat) : engine :=
  if negb (flag (hasDeadline prog) tid) then e
  else if flag (isExact prog) tid then e
  else if negb (flag (enabledFlags e) tid) || flag (inFlightFlags e) tid then e
  else if jnum_ltb (Fin (default 0%Z (latestMs prog !! tid) + deadlineToleranceMs cf)) (elapsed nowMs tid e)
  then emitEvent (EvTransitionTimedOut (transition_name tid)) (disable tid e)
  else e.
Definition enforceDeadlines (nowMs : Z) e : engine :=
  foldl (enforce_deadline nowMs) e (seq 0 (transitionCount prog)).

Definition flag_intermediate (tid : nat) e (other : nat) : engine :=
  if bool_decide (other = tid) || negb (flag (enabledFlags e) other) || flag (inFlightFlags e) other then e
  else if testBit (restartPendingWords e) other then e
  else if negb (canEnable other (markingBitmap e) e)
  then set_restart (setBit (restartPendingWords e) other) true e
  else e.
Definition flagIntermediateDisablements (tid pid : nat) e : engine :=
  foldl (flag_intermediate tid) e (default [] (placeToTransitions prog !! pid)).

Definition update_consumed (tid : nat) e (pid : nat) : engine :=
  let left := length (queue_at pid e) in
  let e := if left =? 0 then clearMarkingBit pid e else e in
  let e := markDirty pid e in
  if jnum_ltb (Fin (Z.of_nat left)) (default (Fin 0) (thresholds cf !! pid))
  then flagIntermediateDisablements tid pid e else e.
Definition updateBitmapAfterConsumption (tid : nat) e : engine :=
  foldl (update_consumed tid) e (default [] (consumptionPlaceIds prog !! tid)).

(** ** Firing *)

Definition countMatching (pid : nat) (predicate : option V → bool) e : nat :=
  foldl (λ matching tok, if predicate (tok_value tok) then matching + 1 else matching) 0 (queue_at pid e).

Definition removeFirstMatching (pid : nat) (predicate : option V → bool) e : option (token V) * engine :=
  match splice_first predicate (queue_at pid e) with
  | Some (tok, q) => (Some tok, set_queue pid q e)
  | None => (None, e)
  end.

(** [this.tokenQueues[pid]!.shift()]; [None] is [undefined]. *)
Definition shift (pid : nat) e : option (token V) * engine :=
  match queue_at pid e with
  | [] => (None, e)
  | tok :: q => (Some tok, set_queue pid q e)
  end.

Record firing := Firing { f_engine : engine; f_consumed : list (token V); f_inputs : token_input V }.
Implicit Types (f : firing).

(** A consumed token is recorded, handed to the action and reported. *)
Definition take (p : place) (tok : token V) (f : firing) e : firing :=
  Firing (emitEvent (EvTokenRemoved (place_name p) tok) e) (f_consumed f ++ [tok]) (ti_add p tok (f_inputs f)).

(** [n] times [shift]. *)
Fixpoint shift_n (pid : nat) (p : place) (n : nat) f : option firing :=
  match n with
  | O => Some f
  | S n =>
      match shift pid (f_engine f) with
      | (Some tok, e) => shift_n pid p n (take p tok f e)
      | (None, _) => None
      end
  end.

(** The opcodes from the program counter to the reset tail. *)
Fixpoint run_inputs (ops : list Z) f : option firing :=
  match ops with
  | [] => Some f
  | opcode :: ops =>
      if (opcode =? CONSUME_ONE)%Z then
        match ops with
        | pid :: ops => p ← places prog !! Z.to_nat pid; f' ← shift_n (Z.to_nat pid) p 1 f; run_inputs ops f'
        | [] => None
        end
      else if (opcode =? CONSUME_N)%Z then
        match ops with
        | pid :: count :: ops => p ← places prog !! Z.to_nat pid; f' ← shift_n (Z.to_nat pid) p (Z.to_nat count) f; run_inputs ops f'
        | _ => None
        end
      else if (opcode =? CONSUME_ALL)%Z then
        match ops with
        | pid :: ops =>
            p ← places prog !! Z.to_nat pid;
            f' ← shift_n (Z.to_nat pid) p (length (queue_at (Z.to_nat pid) (f_engine f))) f; run_inputs ops f'
        | [] => None
        end
      else if (opcode =? CONSUME_ATLEAST)%Z then
        match ops with
        | pid :: _ :: ops =>
            p ← places prog !! Z.to_nat pid;
            f' ← shift_n (Z.to_nat pid) p (length (queue_at (Z.to_nat pid) (f_engine f))) f; run_inputs ops f'
        | _ => None
        end
      else None
  end.

(** [splice(0)]: the place is emptied, its tokens consumed and reported. *)
Definition drain_place (pid : nat) (p : place) f : firing :=
  let tokens := queue_at pid (f_engine f) in
  Firing (foldl (λ e tok, emitEvent (EvTokenRemoved (place_name p) tok) e) (set_queue pid [] (f_engine f)) tokens)
    (f_consumed f ++ tokens) (f_inputs f).

Fixpoint run_resets (ops : list Z) f : option firing :=
  match ops with
  | [] => Some f
  | opcode :: ops =>
      if (opcode =? RESET)%Z then
        match ops with
        | pid :: ops => p ← places prog !! Z.to_nat pid; run_resets ops (drain_place (Z.to_nat pid) p f)
        | [] => None
        end
      else None
  end.

Definition peek_read f (pid : nat) : firing :=
  match places prog !! pid, queue_at pid (f_engine f) with
  | Some p, tok :: _ => Firing (f_engine f) (f_consumed f) (ti_add p tok (f_inputs f))
  | _, _ => f
  end.
Definition peekReadArcs (tid : nat) f : firing := foldl peek_read f (default [] (readOps prog !! tid)).

(** The predicate of a correlated input of a join. *)
Definition match_predicate (ms : match_spec V) (chosen : option name_id) (s : in_spec) : option (option V → bool) :=
  match keyForPlace ms (place_name (in_place s)), chosen with
  | Some key, Some name => Some (λ v, bool_decide (key v = Some name))
  | _, _ => None
  end.

Fixpoint match_loop (pid : nat) (p : place) (pred : option (option V → bool)) (n : nat) f : firing :=
  match n with
  | O => f
  | S n =>
      match (match pred with Some g => removeFirstMatching pid g (f_engine f) | None => shift pid (f_engine f) end) with
      | (None, _) => f
      | (Some tok, e) => match_loop pid p pred n (take p tok f e)
      end
  end.

Definition match_input (ms : match_spec V) (chosen : option name_id) f (s : in_spec) : firing :=
  let pid := pid (pc_compiled prog) (in_place s) in
  let pred := match_predicate ms chosen s in
  let toConsume := match s with
                   | InOne _ => 1
                   | InExactly _ n => Z.to_nat n
                   | InAll _ | InAtLeast _ _ =>
                       match pred with Some g => countMatching pid g (f_engine f) | None => length (queue_at pid (f_engine f)) end
                   end in
  match_loop pid (in_place s) pred toConsume f.

Definition fireTransitionMatched (tid : nat) t (ms : match_spec V) e : firing * option name_id :=
  let cache := default None (matchCaches e !! tid) in
  let chosen := match cache with Some cache => best cache | None => findBinding t (tokens_of e) end in
  let e := match cache, chosen with
           | Some cache, Some name => set_cache tid (Some (matcher_consume name cache)) e
           | _, _ => e
           end in
  let f := foldl (match_input ms chosen) (Firing e [] []) (inputSpecs t) in
  let f := peekReadArcs tid f in
  (foldl (λ f p, drain_place (pid (pc_compiled prog) p) p f) f (resets t), chosen).

(** The consumption of a firing, and the name a join fires with. *)
Definition consume (tid : nat) t e : option (firing * option name_id) :=
  match t_matchSpec t with
  | Some ms => Some (fireTransitionMatched tid t ms e)
  | None =>
      let ops := default [] (consumeOps prog !! tid) in
      let start := default 0 (resetOpsStart prog !! tid) in
      f ← run_inputs (firstn start ops) (Firing e [] []);
      f ← run_resets (skipn start ops) (peekReadArcs tid f);
      Some (f, None)
  end.

Variable providerThrows : jsstr → list (token V) → bool.

Definition set_engine e x : exec :=
  Exec e (inFlightPromises x) (inFlightContexts x) (inFlightConsumed x) (inFlightMatched x) (inFlightErrors x) (inFlightCount x)
    (completionQueue x) (externalQueue x) (admissions x) (warnedMultiplicity x) (freshNameCounter x) (wakeUpPending x) (draining x)
    (closed x) (terminalReached x) (unsettled x) (running x) (reason x).
Definition on_engine (f : engine → engine) x : exec := set_engine (f (x_engine x)) x.
Definition set_unsettled (b : bool) x : exec :=
  Exec (x_engine x) (inFlightPromises x) (inFlightContexts x) (inFlightConsumed x) (inFlightMatched x) (inFlightErrors x) (inFlightCount x)
    (completionQueue x) (externalQueue x) (admissions x) (warnedMultiplicity x) (freshNameCounter x) (wakeUpPending x) (draining x)
    (closed x) (terminalReached x) b (running x) (reason x).
Definition set_matched (tid : nat) (name : option name_id) x : exec :=
  Exec (x_engine x) (inFlightPromises x) (inFlightContexts x) (inFlightConsumed x) (<[tid := name]> (inFlightMatched x)) (inFlightErrors x)
    (inFlightCount x) (completionQueue x) (externalQueue x) (admissions x) (warnedMultiplicity x) (freshNameCounter x) (wakeUpPending x)
    (draining x) (closed x) (terminalReached x) (unsettled x) (running x) (reason x).

(** The cells of a flight that starts. *)
Definition track (tid : nat) (cx : context V) (consumed : list (token V)) x : exec :=
  Exec (x_engine x) (<[tid := Some false]> (inFlightPromises x)) (<[tid := Some cx]> (inFlightContexts x))
    (<[tid := Some consumed]> (inFlightConsumed x)) (inFlightMatched x) (<[tid := None]> (inFlightErrors x)) (inFlightCount x + 1)
    (completionQueue x) (externalQueue x) (admissions x) (warnedMultiplicity x) (freshNameCounter x) (wakeUpPending x) (draining x)
    (closed x) (terminalReached x) (unsettled x) (running x) (reason x).
(** The cells of a flight that ends. *)
Definition untrack (tid : nat) x : exec :=
  Exec (x_engine x) (<[tid := None]> (inFlightPromises x)) (<[tid := None]> (inFlightContexts x))
    (<[tid := None]> (inFlightConsumed x)) (<[tid := None]> (inFlightMatched x)) (<[tid := None]> (inFlightErrors x)) (inFlightCount x - 1)
    (completionQueue x) (externalQueue x) (admissions x) (warnedMultiplicity x) (freshNameCounter x) (wakeUpPending x) (draining x)
    (closed x) (terminalReached x) (unsettled x) (running x) (reason x).

(** The executor when [fireTransition] returns, or, with [true], when it throws. *)
Definition fireTransition (tid : nat) t x : option (exec * bool) :=
  r ← consume tid t (x_engine x);
  let '(f, matched) := r in
  let x := match t_matchSpec t with Some _ => set_matched tid matched x | None => x end in
  let e := updateBitmapAfterConsumption tid (f_engine f) in
  let e := emitEvent (EvTransitionStarted (t_name t) (f_consumed f)) e in
  if providerThrows (t_name t) (f_consumed f) then Some (set_engine e x, true)
  else Some (track tid (context_new t (f_inputs f)) (f_consumed f) (set_engine (disable tid (set_inFlight tid true e)) x), false).

(** The recovery of a firing that threw. *)
Definition fire_failed (tid : nat) x : exec :=
  let x := if flag (enabledFlags (x_engine x)) tid then on_engine (disable tid) x else x in
  let x := if flag (inFlightFlags (x_engine x)) tid then on_engine (set_inFlight tid false) (untrack tid x) else x in
  let e := updateBitmapAfterConsumption tid (x_engine x) in
  let e := set_cache tid None e in
  let e := emitEvent (EvTransitionFailed (transition_name tid)) e in
  set_engine (markTransitionDirty tid e) x.

Definition fireTransitionContained (tid : nat) x : option exec :=
  match transition_at prog tid with
  | None => Some x
  | Some t =>
      r ← fireTransition tid t (set_unsettled true x);
      let '(x, threw) := r in
      Some (if threw : bool then fire_failed tid (set_unsettled false x) else set_unsettled false x)
  end.

Definition fire_immediate (x : exec) (tid : nat) : option exec :=
  let e := x_engine x in
  if negb (flag (enabledFlags e) tid) || flag (inFlightFlags e) tid then Some x
  else if canEnable tid (markingBitmap e) e then fireTransitionContained tid x
  else Some (on_engine (disable tid) x).

(** A loop whose body may stop the model. *)
Fixpoint fold_opt {A B} (f : B → A → option B) (l : list A) (b : B) : option B :=
  match l with [] => Some b | a :: l => b' ← f b a; fold_opt f l b' end.

Definition fireReadyImmediate x : option exec := fold_opt fire_immediate (seq 0 (transitionCount prog)) x.

Definition is_ready (nowMs : Z) e (tid : nat) : option ready_slot :=
  if negb (flag (enabledFlags e) tid) || flag (inFlightFlags e) tid then None
  else if jnum_ltb (elapsed nowMs tid e) (Fin (default 0%Z (earliestMs prog !! tid))) then None
  else Some (ReadySlot tid (default 0%Z (priorities prog !! tid)) (default None (enabledAtMs e !! tid))).

Definition fire_slot (acc : exec * list Z) (s : ready_slot) : option (exec * list Z) :=
  let '(x, freshSnap) := acc in
  let tid := rs_tid s in
  if flag (enabledFlags (x_engine x)) tid && canEnable tid freshSnap (x_engine x) then
    x ← fireTransitionContained tid x; Some (x, markingBitmap (x_engine x))
  else Some (on_engine (disable tid) x, freshSnap).

Definition fireReadyGeneral (nowMs : Z) x : option exec :=
  let ready := omap (is_ready nowMs (x_engine x)) (seq 0 (transitionCount prog)) in
  if bool_decide (length ready = 0) then Some x
  else fst <$> fold_opt fire_slot (stable_sort slot_le ready) (x, markingBitmap (x_engine x)).

Definition fireReadyTransitions (nowMs : Z) x : option exec :=
  if allImmediate prog && allSamePriority prog then fireReadyImmediate x else fireReadyGeneral nowMs x.
End PreExec.
Arguments engine : clear implicits. Arguments exec : clear implicits. Arguments config : clear implicits. Arguments firing : clear implicits.
