(* ===== verification/PreLoop.v ===== *)
(** * The precompiled executor's construction, loop and host interface

    [src/typescript/src/runtime/precompiled-net-executor.ts] continued, along [ExecLoop]: the
    constructor and the match caches, deposits, completions and external events, the loop cut at its
    yield points, the wait, the marking built on demand and the calls a host makes. *)
From S2P Require Import Prelude.
From S2P Require Import CodePoints.
From S2P Require Import Net.
From S2P Require Import Out.
From S2P Require Import OutSpec.
From S2P Require Import Transition.
From S2P Require Import Marking.
From S2P Require Import MatchEngine.
From S2P Require Import PetriNet.
From S2P Require Import Bitmap.
From S2P Require Import CompiledNet.
From S2P Require Import OutputCheck.
From S2P Require Import Context.
From S2P Require Import Executor.
From S2P Require Import ExecLoop.
From S2P Require Import PreNet.
From S2P Require Import PreExec.

Section PreLoop.
Context {V : Type}.
Implicit Types (x : exec V) (e : engine V) (t : transition V) (cf : config V).

(** ** Writing the fields *)

Definition set_terminal x : exec V :=
  Exec (x_engine x) (inFlightPromises x) (inFlightContexts x) (inFlightConsumed x) (inFlightMatched x) (inFlightErrors x) (inFlightCount x)
    (completionQueue x) (externalQueue x) (admissions x) (warnedMultiplicity x) (freshNameCounter x) (wakeUpPending x) (draining x)
    (closed x) true (unsettled x) (running x) (reason x).
Definition set_completions (q : list nat) x : exec V :=
  Exec (x_engine x) (inFlightPromises x) (inFlightContexts x) (inFlightConsumed x) (inFlightMatched x) (inFlightErrors x) (inFlightCount x)
    q (externalQueue x) (admissions x) (warnedMultiplicity x) (freshNameCounter x) (wakeUpPending x) (draining x)
    (closed x) (terminalReached x) (unsettled x) (running x) (reason x).
Definition set_external (q : list (external_event V)) (adm : list (nat * bool)) x : exec V :=
  Exec (x_engine x) (inFlightPromises x) (inFlightContexts x) (inFlightConsumed x) (inFlightMatched x) (inFlightErrors x) (inFlightCount x)
    (completionQueue x) q adm (warnedMultiplicity x) (freshNameCounter x) (wakeUpPending x) (draining x)
    (closed x) (terminalReached x) (unsettled x) (running x) (reason x).
Definition set_multi (multi : list jsstr) x : exec V :=
  Exec (x_engine x) (inFlightPromises x) (inFlightContexts x) (inFlightConsumed x) (inFlightMatched x) (inFlightErrors x) (inFlightCount x)
    (completionQueue x) (externalQueue x) (admissions x) multi (freshNameCounter x) (wakeUpPending x) (draining x)
    (closed x) (terminalReached x) (unsettled x) (running x) (reason x).
Definition set_fresh (n : nat) x : exec V :=
  Exec (x_engine x) (inFlightPromises x) (inFlightContexts x) (inFlightConsumed x) (inFlightMatched x) (inFlightErrors x) (inFlightCount x)
    (completionQueue x) (externalQueue x) (admissions x) (warnedMultiplicity x) n (wakeUpPending x) (draining x)
    (closed x) (terminalReached x) (unsettled x) (running x) (reason x).
Definition set_wake (b : bool) x : exec V :=
  Exec (x_engine x) (inFlightPromises x) (inFlightContexts x) (inFlightConsumed x) (inFlightMatched x) (inFlightErrors x) (inFlightCount x)
    (completionQueue x) (externalQueue x) (admissions x) (warnedMultiplicity x) (freshNameCounter x) b (draining x)
    (closed x) (terminalReached x) (unsettled x) (running x) (reason x).
Definition set_host (dr cl run : bool) (r : termination_reason) x : exec V :=
  Exec (x_engine x) (inFlightPromises x) (inFlightContexts x) (inFlightConsumed x) (inFlightMatched x) (inFlightErrors x) (inFlightCount x)
    (completionQueue x) (externalQueue x) (admissions x) (warnedMultiplicity x) (freshNameCounter x) (wakeUpPending x) dr
    cl (terminalReached x) (unsettled x) run r.
(** The handlers of the action's promise write its error and settle the flight's promise. *)
Definition set_settled (tid : nat) (err : option thrown) x : exec V :=
  Exec (x_engine x) (<[tid := Some true]> (inFlightPromises x)) (inFlightContexts x) (inFlightConsumed x) (inFlightMatched x)
    (<[tid := err]> (inFlightErrors x)) (inFlightCount x) (completionQueue x ++ [tid]) (externalQueue x) (admissions x)
    (warnedMultiplicity x) (freshNameCounter x) (wakeUpPending x) (draining x) (closed x) (terminalReached x) (unsettled x) (running x) (reason x).
(** The context of a flight is an object its action writes to. *)
Definition set_context (tid : nat) (cx : context V) x : exec V :=
  Exec (x_engine x) (inFlightPromises x) (<[tid := Some cx]> (inFlightContexts x)) (inFlightConsumed x) (inFlightMatched x) (inFlightErrors x)
    (inFlightCount x) (completionQueue x) (externalQueue x) (admissions x) (warnedMultiplicity x) (freshNameCounter x) (wakeUpPending x)
    (draining x) (closed x) (terminalReached x) (unsettled x) (running x) (reason x).

(** ** Construction *)

Inductive construct_error :=
| ConstructCompile (e : compile_error)
| NegativeTolerance (got : Z)
| RestoreAndTokens
| ConstructScope (e : scope_error).

Record options := Options {
  o_environment : list place;
  o_skipOutputValidation : bool;
  o_program : option (precompiled V);
  o_tolerance : option Z;
  o_restore : option (snapshot_form V);
  o_scope : option jsstr
}.

(** [retainUnknownToken] *)
Definition retainUnknownToken (p : place) (tok : token V) (tname : jsstr) e : engine V :=
  match map_get (place_name p) (unknownPlaceTokens e) with
  | Some (q, tokens) => set_unknown (map_set (place_name p) (q, tokens ++ [tok]) (unknownPlaceTokens e)) e
  | None =>
      emitEvent (EvUnknownPlace (place_name p) tname)
        (set_unknown (map_set (place_name p) (p, [tok]) (unknownPlaceTokens e)) e)
  end.

(** One entry of the initial tokens. *)
Definition load_tokens (c : compiled V) e (s : place * list (token V)) : engine V :=
  match tryPlaceId c s.1 with
  | None => foldl (λ e tok, retainUnknownToken s.1 tok [] e) e s.2
  | Some pid => foldl (λ e tok, set_queue pid (queue_at pid e ++ [tok]) e) e s.2
  end.

Definition seed_matcher (c : compiled V) e (requireds : list Z) (keys : list (match_key V)) : matcher :=
  foldl (λ cache k, foldl (λ cache tok, cache_add k.1 (mk_key k.2) tok cache) cache (queue_at (pid c (mk_place_of k.2)) e))
        (matcher_new requireds) (imap pair keys).

Definition init_cache (c : compiled V) e (tid : nat) t : option matcher :=
  ms ← t_matchSpec t;
  rq ← eligible_requireds c tid t (ms_keys ms);
  Some (seed_matcher c e rq (ms_keys ms)).
Definition initMatchCaches (c : compiled V) e : list (option matcher) := imap (init_cache c e) (c_transitions c).

Definition transitionWords (prog : precompiled V) : nat := Z.to_nat (Z.shiftr (Z.of_nat (transitionCount prog) + BIT_MASK) WORD_SHIFT).

Definition make_engine (prog : precompiled V) : engine V :=
  let tc := transitionCount prog in
  Engine (replicate (placeCount prog) []) [] (new_words (wordCount prog)) (new_words (transitionWords prog)) (replicate tc None)
    (replicate tc false) (replicate tc false) 0 (new_words (transitionWords prog)) false [] [].
Definition set_caches (l : list (option matcher)) e : engine V :=
  Engine (tokenQueues e) (unknownPlaceTokens e) (markingBitmap e) (dirtyBitmap e) (enabledAtMs e) (inFlightFlags e)
    (enabledFlags e) (enabledTransitionCount e) (restartPendingWords e) (anyRestartPending e) l (e_log e).

Definition construct (isP : nat → bool) (rnd : jsstr) (base : nat) (net : petri_net V)
    (initialTokens : list (place * list (token V))) (o : options) : result construct_error (config V * exec V) :=
  let* prog := match o_program o with
               | Some prog => Ok prog
               | None => match compile isP net with Ok prog => Ok prog | Err e => Err (ConstructCompile e) end
               end in
  let c := pc_compiled prog in
  let env := set_of (place_name <$> o_environment o) in
  let tolerance := default DEADLINE_TOLERANCE_MS (o_tolerance o) in
  do* throw_if (tolerance <? 0)%Z (NegativeTolerance tolerance);
  do* throw_if (bool_decide (is_Some (o_restore o)) && bool_decide (0 < length initialTokens)) RestoreAndTokens;
  let* scope := match resolveExecutionScope rnd (o_scope o) with Ok s => Ok s | Err e => Err (ConstructScope e) end in
  let seedTokens := match o_restore o with Some s => restoredTokens base s | None => initialTokens end in
  let e := foldl (load_tokens c) (make_engine prog) seedTokens in
  let seeded := seededPlaceNames seedTokens in
  let e := foldl (λ e a, emitEvent (EvDeadArc a) e) e
             (findDeadArcs net (λ n, bool_decide (n ∈ seeded)) (λ n, bool_decide (n ∈ env))) in
  let e := set_caches (initMatchCaches c e) e in
  let tc := transitionCount prog in
  let cf := Config prog (restartThresholds c) (matchTargets c <$> seq 0 (placeCount prog)) (o_skipOutputValidation o) tolerance env scope in
  Ok (cf, Exec e (replicate tc None) (replicate tc None) (replicate tc None) (replicate tc None) (replicate tc None) 0
            [] [] [] [] 0 false false false false false false Running).

(** ** Deposits *)

Variable cf : config V.
Abbreviation prog := (program cf).
Abbreviation net := (pc_compiled prog).

Definition cache_target (tok : token V) e (target : nat * nat) : engine V :=
  match default None (matchCaches e !! target.1), transition_at prog target.1 ≫= t_matchSpec with
  | Some cache, Some ms =>
      match ms_keys ms !! target.2 with
      | Some mk => set_cache target.1 (Some (cache_add target.2 (mk_key mk) tok cache)) e
      | None => e
      end
  | _, _ => e
  end.
Definition cacheAddToken (pid : nat) (tok : token V) e : engine V :=
  foldl (cache_target tok) e (default [] (placeMatchTargets cf !! pid)).

Definition is_terminal (pid : nat) : bool :=
  match terminalFlags net with Some flags => flag flags pid | None => false end.

Definition produceToken (p : place) (tok : token V) (tname : jsstr) x : exec V :=
  match tryPlaceId net p with
  | None => on_engine (retainUnknownToken p tok tname) x
  | Some pid =>
      let x := on_engine (λ e, let e := cacheAddToken pid tok e in
                               markDirty cf pid (setMarkingBit pid (set_queue pid (queue_at pid e ++ [tok]) e))) x in
      if is_terminal pid then set_terminal x else x
  end.

Definition deposit (tname : jsstr) (p : place) (tok : token V) x : exec V :=
  on_engine (emitEvent (EvTokenAdded (place_name p) tok)) (produceToken p tok tname x).

(** ** Completions *)

Definition warnMultiplicity (tname : jsstr) (entries : list (place * token V)) (claim : list jsstr) x : exec V :=
  if decide (tname ∈ warnedMultiplicity x) then x
  else
    let counts := foldl (λ counts y, if decide (place_name y.1 ∈ claim)
                                     then map_set (place_name y.1) (default 0 (map_get (place_name y.1) counts) + 1) counts
                                     else counts) [] entries in
    if bool_decide (filter (λ y : jsstr * nat, 1 < y.2) counts = []) then x
    else on_engine (emitEvent (EvMultiplicity tname)) (set_multi (set_add tname (warnedMultiplicity x)) x).

(** Output validation: the claim to compare repeated writes with, or the violation. *)
Definition validate t (tid : nat) (entries : list (place * token V)) (matched : option name_id) : result out_violation (option (list jsstr)) :=
  match outputSpec t with
  | Some spec =>
      if skipOutputValidation cf then Ok None
      else
        let simplePid := default (-2)%Z (simpleOutputPlaceId prog !! tid) in
        let produced := set_of ((λ y, place_name y.1) <$> entries) in
        if (0 <=? simplePid)%Z then
          let named := place_name_at cf (Z.to_nat simplePid) in
          if bool_decide (named ∉ produced) then Err NoBranchClaims
          else do* validateRelays t entries matched; Ok (Some [named])
        else if (simplePid =? -1)%Z then
          let* claim := validateOutSpec spec produced in
          do* validateRelays t entries matched; Ok (Some claim)
        else do* validateRelays t entries matched; Ok None
  | None => Ok None
  end.

Definition deposit_outputs t (entries : list (place * token V)) (claim : option (list jsstr)) x : exec V :=
  let produced := set_of ((λ y, place_name y.1) <$> entries) in
  let x := match claim with
           | Some claim => if bool_decide (length produced < length entries) then warnMultiplicity (t_name t) entries claim x else x
           | None => x
           end in
  foldl (λ x y, deposit (t_name t) y.1 y.2 x) x entries.

Definition fail_completion t (tid : nat) x : exec V :=
  on_engine (λ e, markTransitionDirty tid (emitEvent (EvTransitionFailed (t_name t)) e)) x.

(** The body of the loop: the flight's cells are read, then cleared. *)
Definition complete_flight t (tid : nat) (cx : context V) x : exec V :=
  let error := default None (inFlightErrors x !! tid) in
  let matched := default None (inFlightMatched x !! tid) in
  let x := on_engine (set_inFlight tid false) (untrack tid x) in
  if truthy error then fail_completion t tid x
  else
    let entries := cx_harvest cx in
    match validate t tid entries matched with
    | Ok claim =>
        let x := deposit_outputs t entries claim (set_unsettled true x) in
        let x := set_unsettled false (on_engine (markTransitionDirty tid) x) in
        on_engine (emitEvent (EvTransitionCompleted (t_name t) (snd <$> entries))) x
    | Err _ => fail_completion t tid (set_unsettled false x)
    end.

(** A queued transition is in flight: it has a context. *)
Fixpoint process_completions (queue : list nat) x : exec V :=
  match queue with
  | [] => x
  | tid :: rest =>
      match default None (inFlightContexts x !! tid), transition_at prog tid with
      | Some cx, Some t =>
          let error := default None (inFlightErrors x !! tid) in
          let x := complete_flight t tid cx x in
          if negb (truthy error) && terminalReached x then x else process_completions rest x
      | _, _ => process_completions rest x
      end
  end.
Definition processCompletedTransitions x : exec V :=
  if bool_decide (length (completionQueue x) = 0) then x
  else set_completions [] (process_completions (completionQueue x) x).

(** ** External events *)

Fixpoint process_external (queue : list (external_event V)) x : exec V :=
  match queue with
  | [] => x
  | ev :: rest =>
      let x := deposit [] (ev_place ev) (ev_token ev) x in
      let x := set_external (tail (externalQueue x)) (admissions x ++ [(ev_id ev, true)]) x in
      if terminalReached x then x else process_external rest x
  end.
Definition processExternalEvents x : exec V :=
  if bool_decide (length (externalQueue x) = 0) then x
  else if closed x then x
  else process_external (externalQueue x) x.

Definition drainPendingExternalEvents x : exec V :=
  set_external [] (admissions x ++ ((λ ev, (ev_id ev, false)) <$> externalQueue x)) x.

(** ** The loop *)

Definition hasEnvironmentPlaces : bool := bool_decide (0 < length (environmentPlaces cf)).

Definition shouldTerminate x : bool :=
  let idle := (inFlightCount x =? 0)%Z && bool_decide (length (completionQueue x) = 0) in
  if closed x then idle
  else if hasEnvironmentPlaces
  then draining x && (enabledTransitionCount (x_engine x) =? 0)%Z && idle
  else (enabledTransitionCount (x_engine x) =? 0)%Z && idle.

Definition initializeMarkingBitmap e : engine V :=
  foldl (λ e pid, if 0 <? length (queue_at pid e) then setMarkingBit pid e else e) e (seq 0 (placeCount prog)).

Definition checkInitialTerminals (flags : list bool) x : exec V :=
  if existsb (λ pid, flag flags pid && (0 <? length (queue_at pid (x_engine x)))) (seq 0 (length flags)) then set_terminal x else x.

Definition markAllDirty e : engine V := set_dirty (markAllDirty_words (transitionCount prog) (transitionWords prog)) e.

(** [executeLoop] up to its [while]. *)
Definition start x : exec V :=
  let x := set_host (draining x) (closed x) true (reason x) x in
  let x := on_engine (λ e, markAllDirty (initializeMarkingBitmap e)) x in
  match terminalFlags net with Some flags => checkInitialTerminals flags x | None => x end.

Variable providerThrows : jsstr → list (token V) → bool.

(** One pass of the loop; [scanMs] and [cycleNowMs] are its two clock readings. *)
Definition cycle (scanMs cycleNowMs : Z) x : option (exec V * next) :=
  if negb (running x) || terminalReached x then Some (x, Exit)
  else
    let x := processCompletedTransitions x in
    if terminalReached x then Some (x, Exit)
    else
      let x := processExternalEvents x in
      if terminalReached x then Some (x, Exit)
      else
        let x := on_engine (updateDirtyTransitions cf scanMs) x in
        let x := if anyDeadlines prog then on_engine (enforceDeadlines cf cycleNowMs) x else x in
        if shouldTerminate x then Some (x, Exit)
        else
          x ← fireReadyTransitions cf providerThrows cycleNowMs x;
          Some (x, if hasDirtyBits (x_engine x) then Continue else Await).

(** [executeLoop] after its [while]. *)
Definition finish x : exec V :=
  let x := drainPendingExternalEvents (set_host (draining x) (closed x) false (reason x) x) in
  set_host (draining x) (closed x) (running x)
    (match reason x with
     | Running => if terminalReached x then Terminal else if closed x then Closed else Quiescent
     | r => r
     end) x.

(** ** The wait *)

Fixpoint millis_loop (nowMs : Z) e (tids : list nat) (minWaitMs : jnum) : jnum :=
  match tids with
  | [] => minWaitMs
  | tid :: rest =>
      if negb (flag (enabledFlags e) tid) then millis_loop nowMs e rest minWaitMs
      else match elapsed nowMs tid e with
           | Infinity => Fin 0
           | Fin elapsedMs =>
               let remainingEarliest := (default 0 (earliestMs prog !! tid) - elapsedMs)%Z in
               if (remainingEarliest <=? 0)%Z then Fin 0
               else
                 let minWaitMs := jnum_min minWaitMs (Fin remainingEarliest) in
                 if flag (hasDeadline prog) tid then
                   let remainingDeadline := (default 0 (latestMs prog !! tid) - elapsedMs)%Z in
                   if (remainingDeadline <=? 0)%Z then Fin 0
                   else millis_loop nowMs e rest (jnum_min minWaitMs (Fin remainingDeadline))
                 else millis_loop nowMs e rest minWaitMs
           end
  end.
Definition millisUntilNextTimedTransition (nowMs : Z) e : jnum :=
  millis_loop nowMs e (seq 0 (transitionCount prog)) Infinity.

(** [awaitWork] before its yield. *)
Definition work_queued x : bool :=
  bool_decide (0 < length (completionQueue x)) || (negb (closed x) && bool_decide (0 < length (externalQueue x))).

(** The flights whose promises the race holds. *)
Definition race_promises x : list nat :=
  if (0 <? inFlightCount x)%Z
  then filter (λ tid, default None (inFlightPromises x !! tid) ≠ None) (seq 0 (transitionCount prog)) else [].

(** [awaitWork] after its yield: the executor and, when it parks, the race it parks on. *)
Definition park (nowMs : Z) x : exec V * option wait :=
  if wakeUpPending x then (set_wake false x, None)
  else if work_queued x then (x, None)
  else if closed x && (inFlightCount x =? 0)%Z then (x, None)
  else
    let flights := race_promises x in
    if closed x then (x, if bool_decide (0 < length flights) then Some (Wait flights false None) else None)
    else
      let timerMs := millisUntilNextTimedTransition nowMs (x_engine x) in
      if bool_decide (timerMs = Fin 0) && bool_decide (length flights = 0) then (x, None)
      else (x, Some (Wait flights true match timerMs with Fin ms => if (0 <? ms)%Z then Some ms else None | Infinity => None end)).

(** ** The marking on demand *)

Definition syncMarkingFromQueues e : marking V :=
  let m := foldl (λ m pid, match places prog !! pid with
                           | Some p => foldl (λ m tok, addToken p tok m) m (queue_at pid e)
                           | None => m
                           end) empty (seq 0 (placeCount prog)) in
  foldl (λ m u, foldl (λ m tok, addToken u.2.1 tok m) m u.2.2) m (unknownPlaceTokens e).

(** [snapshotMarking]: the marked places of the net by name, in code-point order. *)
Definition snapshotMarking x : list (jsstr * list (token V)) :=
  let entries := omap (λ pid, p ← places prog !! pid;
                              let q := queue_at pid (x_engine x) in
                              if bool_decide (length q = 0) then None else Some (place_name p, q))
                      (seq 0 (placeCount prog)) in
  stable_sort (λ a b, compareCodePoints a.1 b.1 <=? 0)%Z entries.

Definition exec_snapshot x : result snapshot_error (snapshot_form V * bool) :=
  if draining x || closed x then Err SnapshotUnavailable
  else Ok (snapshot (syncMarkingFromQueues (x_engine x)),
           (0 <? inFlightCount x)%Z || unsettled x || bool_decide (0 < length (externalQueue x))).

Definition isQuiescent x : bool := (enabledTransitionCount (x_engine x) =? 0)%Z && (inFlightCount x =? 0)%Z.

(** ** The host interface *)

Record sys := Sys { s_exec : exec V; s_point : point }.

Definition wakeUp (s : sys) : sys :=
  match s_point s with
  | Parked w => if w_wakeUp w then Sys (s_exec s) (Resumed w) else Sys (set_wake true (s_exec s)) (Parked w)
  | Resumed w => if w_wakeUp w then s else Sys (set_wake true (s_exec s)) (Resumed w)
  | p => Sys (set_wake true (s_exec s)) p
  end.

(** [inject] and [injectNoAwait]; [id] names the admission promise. *)
Definition inject (id : nat) (p : place) (tok : token V) (s : sys) : result jsstr sys :=
  let x := s_exec s in
  if bool_decide (place_name p ∉ environmentPlaces cf) then Err (place_name p)
  else if closed x || draining x || terminalReached x
  then Ok (Sys (set_external (externalQueue x) (admissions x ++ [(id, false)]) x) (s_point s))
  else Ok (wakeUp (Sys (set_external (externalQueue x ++ [ExternalEvent id p tok]) (admissions x) x) (s_point s))).

Definition drain (s : sys) : sys :=
  let x := s_exec s in wakeUp (Sys (set_host true (closed x) (running x) (reason x) x) (s_point s)).
Definition close (s : sys) : sys :=
  let x := s_exec s in wakeUp (Sys (set_host true true (running x) (reason x) x) (s_point s)).

(** An expired budget of [run(timeoutMs, onTimeout)]. *)
Definition budgetExpired (close_on_timeout : bool) (s : sys) : sys :=
  let x := s_exec s in
  let r := match reason x with Running => Stopped | r => r end in
  let s := Sys (set_host (draining x) (closed x) (running x) r x) (s_point s) in
  if close_on_timeout then close s else s.

(** The handlers of the action's promise: the completion is queued, the loop woken, the flight's
    own promise resolved. *)
Definition settle (tid : nat) (err : option thrown) (s : sys) : sys :=
  match default None (inFlightPromises (s_exec s) !! tid) with
  | Some false =>
      let s := wakeUp (Sys (set_settled tid err (s_exec s)) (s_point s)) in
      match s_point s with
      | Parked w => if decide (tid ∈ w_flights w) then Sys (s_exec s) (Resumed w) else s
      | _ => s
      end
  | _ => s
  end.

(** The action timeout of a flight whose promise is pending: sever, produce the branch, settle. *)
Definition actionTimedOut (tid : nat) (now : Z) (s : sys) : sys :=
  let x := s_exec s in
  match default None (inFlightPromises x !! tid), default None (inFlightContexts x !! tid), transition_at prog tid with
  | Some false, Some cx, Some t =>
      match actionTimeout t with
      | Some (_, child) =>
          let cx := detachForTimeout cx in
          match produceTimeoutOutput child now cx with
          | Ok cx' => settle tid None (Sys (on_engine (emitEvent (EvActionTimedOut (t_name t))) (set_context tid cx' x)) (s_point s))
          | Err _ => settle tid (Some ErrTruthy) (Sys (set_context tid cx x) (s_point s))
          end
      | None => s
      end
  | _, _, _ => s
  end.

(** A call of the action on its context, before or after its promise settles. *)
Definition actionCall (tid : nat) (call : action_call V) (s : sys) : sys :=
  match default None (inFlightContexts (s_exec s) !! tid) with
  | Some cx => Sys (set_context tid (run_calls [call] cx) (s_exec s)) (s_point s)
  | None => s
  end.

(** [ctx.freshName()] *)
Definition freshName (tid : nat) x : name_id * exec V :=
  (mintedName (transition_name cf tid) (executionScope cf) (freshNameCounter x), set_fresh (S (freshNameCounter x)) x).

(** ** The system *)

Definition after_cycle (r : exec V * next) : sys :=
  match r with
  | (x, Exit) => Sys (finish x) Finished
  | (x, Continue) => Sys x AtCycle
  | (x, Await) => Sys x AtWait
  end.
Definition after_park (r : exec V * option wait) : sys :=
  match r with (x, None) => Sys x AtCycle | (x, Some w) => Sys x (Parked w) end.

Inductive sys_step : sys → sys → Prop :=
| step_cycle x scanMs cycleNowMs r : cycle scanMs cycleNowMs x = Some r → sys_step (Sys x AtCycle) (after_cycle r)
| step_wait x : sys_step (Sys x AtWait) (Sys x (if work_queued x then AtCycle else AtFlush))
| step_park x now : sys_step (Sys x AtFlush) (after_park (park now x))
| step_timer x w ms : w_timer w = Some ms → sys_step (Sys x (Parked w)) (Sys x (Resumed w))
| step_resume x w : sys_step (Sys x (Resumed w)) (Sys x AtCycle)
| step_inject id p tok s s' :
    (createdAt tok ≤ MAX_SAFE_INTEGER)%Z → inject id p tok s = Ok s' → sys_step s s'
| step_drain s : sys_step s (drain s)
| step_close s : sys_step s (close s)
| step_budget b s : sys_step s (budgetExpired b s)
| step_settle tid err s : sys_step s (settle tid err s)
| step_timeout tid now s : (now ≤ MAX_SAFE_INTEGER)%Z → sys_step s (actionTimedOut tid now s)
| step_call tid call s : call_safe call → sys_step s (actionCall tid call s)
| step_fresh tid x p : sys_step (Sys x p) (Sys (freshName tid x).2 p).

(** What [run] reaches from a constructed executor. *)
Definition reachable x0 : sys → Prop := rtc sys_step (Sys (start x0) AtCycle).
End PreLoop.
Arguments options : clear implicits. Arguments sys : clear implicits.
