(* ===== verification/PreSim.v ===== *)
(** * The precompiled program is the compiled net

    Sparse masks answer what the full masks answer, and the cells of a program are those of the
    compiled net and its transitions. *)
From S2P Require Import Prelude.
From S2P Require Import PreNet.
From S2P Require Import PreExec.
From S2P Require Import PreLoop.
From S2P Require Import Net.
From S2P Require Import Out.
From S2P Require Import Transition.
From S2P Require Import Marking.
From S2P Require Import MatchEngine.
From S2P Require Import PetriNet.
From S2P Require Import Bitmap.
From S2P Require Import CompiledNet.
From S2P Require Import OutputCheck.
From S2P Require Import Context.
From S2P Require Import Executor.
From S2P Require Import ExecScan.
From S2P Require Import ExecFire.
From S2P Require Import ExecLoop.
From S2P Require Import ExecInv.
From S2P Require Import ExecCoherent.
(** ** Sparse masks *)

Section Sparse.
Implicit Types (snap mask : list Z).

Lemma sparse_word_tail snap w : word_at (tail snap) w = word_at snap (S w).
Proof. by destruct snap. Qed.

Lemma containsAll_forallb snap mask :
  containsAll snap mask = forallb (λ w, (word_at mask w =? 0)%Z || word_contains snap w (word_at mask w)) (seq 0 (length mask)).
Proof.
  unfold containsAll. revert snap. induction mask as [|m mask IH]; intros snap; [done|]. cbn [containsAll_from length seq forallb].
  rewrite IH, <- fmap_S_seq. change (word_at (m :: mask) 0) with m.
  assert (word_contains snap 0 m = (to_uint32 (js_and (match snap with s :: _ => s | [] => 0%Z end) m) =? m)%Z) as -> by (by destruct snap).
  assert (∀ l, forallb (λ w, (word_at (m :: mask) w =? 0)%Z || word_contains snap w (word_at (m :: mask) w)) (S <$> l) =
    forallb (λ w, (word_at mask w =? 0)%Z || word_contains (tail snap) w (word_at mask w)) l) as ->.
  { induction l as [|w l IHl]; [done|]. rewrite fmap_cons. cbn [forallb]. rewrite IHl. unfold word_contains. by rewrite sparse_word_tail. }
  by destruct (m =? 0)%Z, (to_uint32 _ =? m)%Z.
Qed.

Lemma intersects_existsb snap mask :
  intersects snap mask = existsb (λ w, negb (word_at mask w =? 0)%Z && word_meets snap w (word_at mask w)) (seq 0 (length mask)).
Proof.
  unfold intersects. revert snap. induction mask as [|m mask IH]; intros snap; [done|]. cbn [intersects_from length seq existsb].
  rewrite IH, <- fmap_S_seq. change (word_at (m :: mask) 0) with m.
  assert (word_meets snap 0 m = match snap with s :: _ => negb (js_and s m =? 0)%Z | [] => false end) as ->.
  { destruct snap as [|s snap]; [|done]. unfold word_meets, js_and. change (to_int32 (word_at [] 0)) with 0%Z. by rewrite Z.land_0_l. }
  assert (∀ l, existsb (λ w, negb (word_at (m :: mask) w =? 0)%Z && word_meets snap w (word_at (m :: mask) w)) (S <$> l) =
    existsb (λ w, negb (word_at mask w =? 0)%Z && word_meets (tail snap) w (word_at mask w)) l) as ->.
  { induction l as [|w l IHl]; [done|]. rewrite fmap_cons. cbn [existsb]. rewrite IHl. unfold word_meets. by rewrite sparse_word_tail. }
  destruct (m =? 0)%Z; [done|]. destruct snap as [|s snap]; [done|]. by destruct (js_and s m =? 0)%Z.
Qed.

Lemma forallb_guard (g P : nat → bool) l : forallb (λ w, g w || P w) l = forallb P (filter (λ w, g w = false) l).
Proof.
  induction l as [|w l IH]; [done|]. cbn [forallb]. rewrite filter_cons, IH. destruct (g w); [by rewrite decide_False|].
  by rewrite decide_True.
Qed.

Lemma existsb_guard (g P : nat → bool) l : existsb (λ w, negb (g w) && P w) l = existsb P (filter (λ w, g w = false) l).
Proof.
  induction l as [|w l IH]; [done|]. cbn [existsb]. rewrite filter_cons, IH. destruct (g w); [by rewrite decide_False|].
  by rewrite decide_True.
Qed.

Lemma sparse_scan mask l n z :
  let idx := filter (λ w, word_at mask w ≠ 0%Z) l in
  foldl (λ x w, if (word_at mask w =? 0)%Z then x else (x.1 + 1, Z.of_nat w)%Z) (n, z) l =
  (n + Z.of_nat (length idx), default z (Z.of_nat <$> last idx))%Z.
Proof.
  cbn zeta. revert n z. induction l as [|w l IH]; intros n z; simpl; [f_equal; lia|]. rewrite filter_cons. destruct (word_at mask w =? 0)%Z eqn:E; b2p.
  - rewrite decide_False by congruence. apply IH.
  - rewrite decide_True by congruence. rewrite IH. cbn [fst]. f_equal; [simpl; lia|]. rewrite last_cons.
    by destruct (last (filter _ l)).
Qed.

Lemma zip_indices {A B} (f : A → B) (P : A * B → bool) l : forallb P (zip l (f <$> l)) = forallb (λ w, P (w, f w)) l.
Proof. induction l as [|w l IH]; [done|]. rewrite fmap_cons. simpl. by rewrite IH. Qed.
Lemma zip_indices_existsb {A B} (f : A → B) (P : A * B → bool) l : existsb P (zip l (f <$> l)) = existsb (λ w, P (w, f w)) l.
Proof. induction l as [|w l IH]; [done|]. rewrite fmap_cons. simpl. by rewrite IH. Qed.

(** The three cases of a sparse mask. *)
Lemma compileSparse_spec mask wc :
  let idx := filter (λ w, word_at mask w ≠ 0%Z) (seq 0 wc) in
  compileSparse mask wc = match idx with
                          | [] => Sparse SPARSE_EMPTY 0 [] []
                          | [w] => Sparse (Z.of_nat w) (word_at mask w) [] []
                          | _ => Sparse SPARSE_MULTI 0 idx (word_at mask <$> idx)
                          end.
Proof.
  cbn zeta. unfold compileSparse. rewrite sparse_scan. set (idx := filter _ (seq 0 wc)). rewrite Z.add_0_l.
  destruct idx as [|w [|w' idx]]; [done| |].
  - cbn. by rewrite Nat2Z.id.
  - rewrite (proj2 (Z.eqb_neq _ _)) by (simpl; lia). by rewrite (proj2 (Z.eqb_neq _ _)) by (simpl; lia).
Qed.

Lemma nonzero_filter mask (l : list nat) : filter (λ w, (word_at mask w =? 0)%Z = false) l = filter (λ w, word_at mask w ≠ 0%Z) l.
Proof. apply list_filter_iff. intros w. apply Z.eqb_neq. Qed.

Lemma needs_pass_spec mask snap : needs_pass (compileSparse mask (length mask)) snap = containsAll snap mask.
Proof.
  rewrite containsAll_forallb, (forallb_guard (λ w, word_at mask w =? 0)%Z), nonzero_filter, compileSparse_spec. cbn zeta.
  set (idx := filter _ _). destruct idx as [|w [|w' idx']] eqn:E; [done| |].
  - unfold needs_pass. cbn [singleWordIndex singleWordMask].
    rewrite (proj2 (Z.eqb_neq _ _)) by (unfold SPARSE_EMPTY; lia). rewrite (proj2 (Z.leb_le _ _)) by lia. cbn [forallb]. by rewrite Nat2Z.id, andb_true_r.
  - unfold needs_pass. cbn [singleWordIndex sparseIndices sparseMasks Z.eqb SPARSE_MULTI SPARSE_EMPTY Z.leb Z.compare]. by rewrite zip_indices.
Qed.

Lemma inhibitors_pass_spec mask snap : inhibitors_pass (compileSparse mask (length mask)) snap = negb (intersects snap mask).
Proof.
  rewrite intersects_existsb, (existsb_guard (λ w, word_at mask w =? 0)%Z), nonzero_filter, compileSparse_spec. cbn zeta.
  set (idx := filter _ _). destruct idx as [|w [|w' idx']] eqn:E; [done| |].
  - unfold inhibitors_pass. cbn [singleWordIndex singleWordMask].
    rewrite (proj2 (Z.eqb_neq _ _)) by (unfold SPARSE_EMPTY; lia). rewrite (proj2 (Z.leb_le _ _)) by lia. cbn [existsb]. by rewrite Nat2Z.id, orb_false_r.
  - unfold inhibitors_pass. cbn [singleWordIndex sparseIndices sparseMasks Z.eqb SPARSE_MULTI SPARSE_EMPTY Z.leb Z.compare]. by rewrite zip_indices_existsb.
Qed.
End Sparse.

(** ** The cells of a program *)

Section Program.
Context {V : Type} (isP : nat → bool) (pn : petri_net V) (c : compiled V).
Hypothesis Hc : compile isP pn = Ok c.
Abbreviation prog := (compileFrom c).
Implicit Types (t : transition V).

Lemma masks_compiled tid t : c_transition c tid = Some t →
  CompiledNet.needsMask c !! tid = Some (needs_mask c t) ∧ CompiledNet.inhibitorMask c !! tid = Some (inhibitor_mask c t) ∧
  length (needs_mask c t) = wordCount c ∧ length (inhibitor_mask c t) = wordCount c.
Proof.
  intros Ht. destruct (compile_inv _ _ _ Hc) as (rows & Hrows & E & _ & _ & _ & En & Ei & _).
  unfold c_transition in Ht. rewrite E in Ht. destruct (compile_rows_lookup _ _ _ _ _ _ Hrows Ht) as (r & Hr & Hct).
  unfold compile_transition in Hct. apply res_bind_ok in Hct as ([[needs pushes] card] & Hx & Hct). injection Hct as <-.
  apply compile_inputs_spec in Hx as (E1 & _). simpl in E1. subst needs. rewrite En, Ei, !list_lookup_fmap, Hr.
  cbn [fmap option_fmap option_map r_needs r_inhibitors]. unfold needs_mask, inhibitor_mask, pid. rewrite <- list_fmap_compose.
  assert (∀ l arr, length (foldl setBit arr l) = length arr) as Hl.
  { induction l as [|p l IH]; intros arr; [done|]. cbn [foldl]. by rewrite IH, length_setBit. }
  rewrite !Hl. unfold new_words. by rewrite length_replicate.
Qed.

Lemma canEnableSparse_bitmap tid t snap : c_transition c tid = Some t → canEnableSparse prog tid snap = canEnableBitmap c tid snap.
Proof.
  intros Ht. destruct (masks_compiled tid t Ht) as (E1 & E2 & L1 & L2). unfold canEnableSparse, canEnableBitmap.
  cbn [needsSparse inhibitorSparse compileFrom]. unfold c_transition in Ht. rewrite !list_lookup_fmap, Ht, E1, E2. cbn [fmap option_fmap option_map default].
  unfold id. rewrite <- L1 at 1. rewrite needs_pass_spec. rewrite <- L2 at 1. rewrite inhibitors_pass_spec. by destruct (containsAll _ _), (intersects _ _).
Qed.

Lemma lookup_cell {A} (f : transition V → A) (d : A) tid t : c_transition c tid = Some t → default d ((f <$> c_transitions c) !! tid) = f t.
Proof. unfold c_transition. intros Ht. by rewrite list_lookup_fmap, Ht. Qed.

Lemma lookup_seq_cell {A} (f : nat → A) (d : A) n i : i < n → default d ((f <$> seq 0 n) !! i) = f i.
Proof. intros Hi. by rewrite list_lookup_fmap, lookup_seq_lt. Qed.

Lemma affected_cell p : default [] (PreNet.placeToTransitions prog !! p) = affectedTransitions c p.
Proof.
  cbn [PreNet.placeToTransitions compileFrom]. destruct (decide (p < placeCount c)) as [Hp|Hp]; [by apply lookup_seq_cell|].
  rewrite lookup_ge_None_2 by (rewrite length_fmap, length_seq; lia). unfold affectedTransitions.
  destruct (compile_inv _ _ _ Hc) as (rows & _ & _ & _ & _ & _ & _ & _ & E & _). rewrite E, lookup_ge_None_2; [done|].
  rewrite length_fmap, length_seq. lia.
Qed.

Lemma per_transition {A} (l : list A) tid (d : A) : length l = transitionCount c →
  default d (((λ i, default d (l !! i)) <$> seq 0 (transitionCount c)) !! tid) = default d (l !! tid).
Proof.
  intros Hl. destruct (decide (tid < transitionCount c)) as [Hp|Hp]; [by apply (lookup_seq_cell (λ i, default d (l !! i)))|].
  by rewrite !lookup_ge_None_2 by (rewrite ?length_fmap, ?length_seq; lia).
Qed.

Lemma rows_length : length (consumptionIds c) = transitionCount c ∧ length (CompiledNet.cardinalityChecks c) = transitionCount c ∧
  length (hasMatches c) = transitionCount c.
Proof.
  destruct (compile_inv _ _ _ Hc) as (rows & Hrows & E & _ & _ & _ & _ & _ & _ & E1 & E2 & E3).
  unfold transitionCount. rewrite E, E1, E2, E3, !length_fmap. by rewrite (compile_rows_length _ _ _ _ Hrows).
Qed.

Lemma consumption_cell tid : default [] (PreNet.consumptionPlaceIds prog !! tid) = CompiledNet.consumptionPlaceIds c tid.
Proof. destruct rows_length as (H & _ & _). apply (per_transition (consumptionIds c) tid [] H). Qed.
Lemma cardinality_cell tid : default None (PreNet.cardinalityChecks prog !! tid) = cardinalityCheck c tid.
Proof. destruct rows_length as (_ & H & _). apply (per_transition (CompiledNet.cardinalityChecks c) tid None H). Qed.
Lemma hasMatch_cell tid : flag (PreNet.hasMatch prog) tid = CompiledNet.hasMatch c tid.
Proof. destruct rows_length as (_ & _ & H). apply (per_transition (hasMatches c) tid false H). Qed.

Lemma pid_try p i : tryPlaceId c p = Some i → pid c p = i.
Proof. unfold tryPlaceId, pid, pid_of. by intros ->. Qed.
End Program.

(** * The precompiled engine simulates the bitmap engine

    An engine of the precompiled executor and one of the bitmap executor are related when their bits,
    flags, stamps, matchers and logs are equal and the queues hold what the marking holds. Enablement,
    the scan and the deadline pass preserve the relation. *)
Section Sim.
Context {V : Type} (isP : nat → bool) (pn : petri_net V) (c : compiled V).
Hypothesis Hc : compile isP pn = Ok c.
Hypothesis Hwf : ∀ tid t, net_transitions pn !! tid = Some t → transition_wf t.
Variables (tol : Z) (env : list jsstr) (scope : jsstr).

(** The two configurations. *)
Abbreviation cf := (make_config c tol env scope).
Definition pre_config : PreExec.config V :=
  PreExec.Config (compileFrom c) (restartThresholds c) (matchTargets c <$> seq 0 (placeCount c)) false tol env scope.
Abbreviation pcf := pre_config.
Implicit Types (pe : PreExec.engine V) (e : engine V) (m : marking V).

(** The tokens retained for undeclared places. *)
Variable u : list (jsstr * (place * list (token V))).
Definition retained_queue (n : jsstr) : list (token V) := from_option (λ y, y.2) [] (map_get n u).

Record queues_rel m pe : Prop := {
  qr_length : length (tokenQueues pe) = placeCount c;
  qr_known : ∀ p i, tryPlaceId c p = Some i → queue_at i pe = queue m (place_name p);
  qr_retained : unknownPlaceTokens pe = u;
  qr_unknown : ∀ n, map_get n (placeIndex c) = None → queue m n = retained_queue n;
  qr_keys : NoDup u.*1 ∧ ∀ y, y ∈ u → place_name y.2.1 = y.1 ∧ map_get y.1 (placeIndex c) = None
}.

(** The bitmap engine with marking [m] and the other fields of [pe]. *)
Definition engine_of m pe : engine V :=
  Engine m (PreExec.markingBitmap pe) (dirtyBitmap pe) (PreExec.enabledAtMs pe) (PreExec.inFlightFlags pe) (PreExec.enabledFlags pe)
    (PreExec.enabledTransitionCount pe) (PreExec.restartPendingWords pe) (PreExec.anyRestartPending pe) (PreExec.matchCaches pe) (PreExec.e_log pe).

Definition engine_rel pe e : Prop := ∃ m, e = engine_of m pe ∧ queues_rel m pe.

Lemma queues_same m pe pe' : tokenQueues pe' = tokenQueues pe → unknownPlaceTokens pe' = unknownPlaceTokens pe → queues_rel m pe → queues_rel m pe'.
Proof.
  intros E1 E2 [H1 H2 H3 H4 H5]. constructor; [by rewrite E1| |by rewrite E2|done|done].
  intros p i Hp. unfold queue_at. rewrite E1. by apply H2.
Qed.

(** Folding related steps keeps related states. *)
Lemma foldl_rel {A B C} (R : A → B → Prop) (f : A → C → A) (g : B → C → B) l a b :
  (∀ x a b, x ∈ l → R a b → R (f a x) (g b x)) → R a b → R (foldl f a l) (foldl g b l).
Proof.
  revert a b. induction l as [|x l IH]; intros a b H Hr; [done|]. cbn [foldl]. apply IH; [intros; apply H; [by right|done]|]. apply H; [by left|done].
Qed.

Lemma scan_words_rel {A B} (R : A → B → Prop) (f : nat → A → A) (g : nat → B → B) count w words a b :
  (∀ tid a b, R a b → R (f tid a) (g tid b)) → R a b → R (scan_words f count w words a) (scan_words g count w words b).
Proof.
  intros H. assert (∀ fuel w word a b, R a b → R (scan_word fuel f count w word a) (scan_word fuel g count w word b)) as Hw.
  { induction fuel as [|fuel IH]; intros w0 word a0 b0 Hr; [done|]. cbn [scan_word]. repeat case_match; auto. }
  revert w a b. induction words as [|word words IH]; intros w a b Hr; [done|]. cbn [scan_words]. auto.
Qed.

Lemma same_rel pe pe' e e' :
  engine_rel pe e → tokenQueues pe' = tokenQueues pe → unknownPlaceTokens pe' = unknownPlaceTokens pe →
  e' = engine_of (e_marking e) pe' → engine_rel pe' e'.
Proof. intros (m & -> & Hq) E1 E2 ->. exists m. split; [done|]. by eapply queues_same. Qed.

(** ** Enablement *)

Lemma tokens_at_queue pe m i : queues_rel m pe → i < placeCount c → tokens_at cf i m = length (queue_at i pe).
Proof.
  intros Hq Hi. destruct (lookup_lt_is_Some_2 (placesById c) i Hi) as [p Hp].
  assert (tryPlaceId c p = Some i) as Ht by (by apply (place_pid isP pn cf Hc)).
  by rewrite (tokens_at_place isP pn cf Hc p i m Ht), (qr_known _ _ Hq p i Ht).
Qed.

Lemma name_of_tid tid : PreExec.transition_name pcf tid = transition_name cf tid.
Proof. done. Qed.

Lemma input_pid tid t p : c_transition c tid = Some t → place_name p ∈ input_names (inputSpecs t) →
  ∃ i, tryPlaceId c p = Some i ∧ pid c p = i ∧ i < placeCount c.
Proof.
  intros Ht Hp. apply list_elem_of_fmap in Hp as (s & En & Hs). destruct (touched_pid isP pn cf Hc tid t (in_place s) Ht) as (i & E & _).
  - unfold touched_places. apply elem_of_app. left. by apply list_elem_of_fmap_2.
  - exists i. assert (tryPlaceId c p = Some i) as Hi by (unfold tryPlaceId in *; by rewrite En). split_and!; [done|by apply pid_try|].
    by apply (pid_place isP pn cf Hc) in Hi as [? _].
Qed.

Lemma canEnable_none tid snap : c_transition c tid = None → canEnableSparse (compileFrom c) tid snap = canEnableBitmap c tid snap.
Proof.
  intros Ht. apply lookup_ge_None_1 in Ht. destruct (compile_inv _ _ _ Hc) as (rows & Hrows & E & _ & _ & _ & E1 & E2 & _).
  apply compile_rows_length in Hrows. rewrite <- E in Hrows. unfold canEnableSparse, canEnableBitmap. cbn [needsSparse inhibitorSparse compileFrom].
  by rewrite E1, E2, !lookup_ge_None_2 by (rewrite length_fmap; lia).
Qed.

Lemma binding_rel pe m tid t : c_transition c tid = Some t → queues_rel m pe →
  findBinding t (tokens_of pcf pe) = findBinding t (λ p, peekTokens p m).
Proof.
  intros Ht Hq. apply findBinding_ext; [|by eapply (transition_wf_of isP pn cf Hc Hwf)]. intros p Hp.
  destruct (input_pid tid t p Ht Hp) as (i & E & Ei & _). unfold tokens_of. cbn [program pc_compiled compileFrom pre_config].
  rewrite Ei, peekTokens_queue. by apply (qr_known _ _ Hq).
Qed.

Lemma canEnable_rel pe e tid snap : engine_rel pe e → PreExec.canEnable pcf tid snap pe = canEnable cf tid snap e.
Proof.
  intros (m & -> & Hq). unfold PreExec.canEnable, canEnable. cbn [program cf_compiled make_config pre_config].
  rewrite (cardinality_cell isP pn c Hc tid), (hasMatch_cell isP pn c Hc tid).
  destruct (c_transition c tid) as [t|] eqn:Ht.
  - rewrite (canEnableSparse_bitmap isP pn c Hc tid t snap Ht). destruct (canEnableBitmap c tid snap); [|done]. cbn [negb].
    assert (existsb (λ x : nat * Z, (Z.of_nat (length (queue_at x.1 pe)) <? x.2)%Z) (default [] (cardinalityCheck c tid)) =
            existsb (λ x : nat * Z, (Z.of_nat (tokens_at cf x.1 m) <? x.2)%Z) (default [] (cardinalityCheck c tid))) as ->.
    { pose proof (cardinality_spec isP pn cf Hc tid t Ht) as E. cbn [cf_compiled make_config] in E. rewrite E. clear E.
      destruct (existsb _ (inputSpecs t)); [|done]. cbn [default from_option]. unfold id.
      assert (∀ s, s ∈ inputSpecs t → pid_of (placeIndex c) (in_place s) < placeCount c) as Hpid.
      { intros s Hs. destruct (input_pid tid t (in_place s) Ht) as (i & _ & E & ?); [by apply (list_elem_of_fmap_2 (λ s, place_name (in_place s)))|].
        unfold pid in E. by rewrite E. }
      induction (inputSpecs t) as [|s l IH]; [done|]. rewrite !fmap_cons. cbn [existsb fst snd]. rewrite IH by (intros; apply Hpid; by right).
      f_equal. by rewrite (tokens_at_queue pe m _ Hq) by (apply Hpid; left). }
    destruct (existsb _ _); [done|]. destruct (CompiledNet.hasMatch c tid); [|done].
    cbn [matchCaches engine_of]. destruct (default None _); [done|]. unfold transition_at. cbn [pc_compiled compileFrom]. rewrite Ht.
    by rewrite (binding_rel pe m tid t Ht Hq).
  - rewrite (canEnable_none tid snap Ht). destruct (canEnableBitmap c tid snap); [|done]. cbn [negb].
    assert (cardinalityCheck c tid = None ∧ CompiledNet.hasMatch c tid = false) as [-> ->]; [|done].
    destruct (rows_length isP pn c Hc) as (_ & L2 & L3). apply lookup_ge_None_1 in Ht. unfold cardinalityCheck, CompiledNet.hasMatch.
    by rewrite !lookup_ge_None_2 by (unfold transitionCount in *; lia).
Qed.

(** ** The scan and the deadline pass *)

Lemma markTransitionDirty_rel pe e tid : engine_rel pe e → engine_rel (PreExec.markTransitionDirty tid pe) (markTransitionDirty tid e).
Proof. intros H. eapply same_rel; [done..|]. by destruct H as (m & -> & _). Qed.

Lemma markDirty_rel pe e i : engine_rel pe e → engine_rel (PreExec.markDirty pcf i pe) (markDirty cf i e).
Proof.
  intros H. unfold PreExec.markDirty, markDirty. cbn [program pre_config cf_compiled make_config].
  rewrite (affected_cell isP pn c Hc i). apply foldl_rel; [|done]. intros x a b _. apply markTransitionDirty_rel.
Qed.

Lemma disable_rel pe e tid : engine_rel pe e → engine_rel (PreExec.disable tid pe) (disable tid e).
Proof. intros H. eapply same_rel; [done..|]. by destruct H as (m & -> & _). Qed.
Lemma emit_rel pe e ev : engine_rel pe e → engine_rel (emitEvent ev pe) (emit ev e).
Proof. intros H. eapply same_rel; [done..|]. by destruct H as (m & -> & _). Qed.
Lemma set_enabledAt_rel pe e tid at_ms : engine_rel pe e → engine_rel (PreExec.set_enabledAt tid at_ms pe) (set_enabledAt tid at_ms e).
Proof. intros H. eapply same_rel; [done..|]. by destruct H as (m & -> & _). Qed.
Lemma set_enabled_rel pe e tid b n : engine_rel pe e → engine_rel (PreExec.set_enabled tid b n pe) (set_enabled tid b n e).
Proof. intros H. eapply same_rel; [done..|]. by destruct H as (m & -> & _). Qed.
Lemma set_inFlight_rel pe e tid b : engine_rel pe e → engine_rel (PreExec.set_inFlight tid b pe) (set_inFlight tid b e).
Proof. intros H. eapply same_rel; [done..|]. by destruct H as (m & -> & _). Qed.
Lemma set_restart_rel pe e ws b : engine_rel pe e → engine_rel (PreExec.set_restart ws b pe) (set_restart ws b e).
Proof. intros H. eapply same_rel; [done..|]. by destruct H as (m & -> & _). Qed.
Lemma set_dirty_rel pe e ws : engine_rel pe e → engine_rel (PreExec.set_dirty ws pe) (set_dirty ws e).
Proof. intros H. eapply same_rel; [done..|]. by destruct H as (m & -> & _). Qed.
Lemma set_bitmap_rel pe e ws : engine_rel pe e → engine_rel (PreExec.set_bitmap ws pe) (set_bitmap ws e).
Proof. intros H. eapply same_rel; [done..|]. by destruct H as (m & -> & _). Qed.
Lemma set_cache_rel pe e tid k : engine_rel pe e → engine_rel (PreExec.set_cache tid k pe) (set_cache tid k e).
Proof. intros H. eapply same_rel; [done..|]. by destruct H as (m' & -> & _). Qed.

(** The fields of related engines are equal. *)
Lemma rel_fields pe e : engine_rel pe e →
  PreExec.markingBitmap pe = markingBitmap e ∧ dirtyBitmap pe = dirtySet e ∧ PreExec.enabledAtMs pe = enabledAtMs e ∧
  PreExec.inFlightFlags pe = inFlightFlags e ∧ PreExec.enabledFlags pe = enabledFlags e ∧
  PreExec.enabledTransitionCount pe = enabledTransitionCount e ∧ PreExec.restartPendingWords pe = restartPendingWords e ∧
  PreExec.anyRestartPending pe = anyRestartPending e ∧ PreExec.matchCaches pe = matchCaches e ∧ PreExec.e_log pe = e_log e.
Proof. by intros (m & -> & _). Qed.

#[local] Hint Resolve markTransitionDirty_rel markDirty_rel disable_rel emit_rel set_enabledAt_rel set_enabled_rel set_inFlight_rel set_restart_rel
  set_dirty_rel set_bitmap_rel set_cache_rel : sim.

(** Reads every field on the side of the bitmap engine. *)
Ltac read_fields H :=
  let E1 := fresh in let E2 := fresh in let E3 := fresh in let E4 := fresh in let E5 := fresh in
  let E6 := fresh in let E7 := fresh in let E8 := fresh in let E9 := fresh in let E10 := fresh in
  destruct (rel_fields _ _ H) as (E1 & E2 & E3 & E4 & E5 & E6 & E7 & E8 & E9 & E10);
  rewrite ?E1, ?E2, ?E3, ?E4, ?E5, ?E6, ?E7, ?E8, ?E9, ?E10.

Lemma rescan_rel pe e now snap tid : engine_rel pe e → engine_rel (PreExec.rescan pcf now snap tid pe) (rescan cf now snap tid e).
Proof.
  intros H. unfold PreExec.rescan, rescan. rewrite (canEnable_rel pe e tid snap H). read_fields H. rewrite name_of_tid.
  repeat case_match; auto 6 with sim.
Qed.

Lemma updateDirty_rel pe e now : engine_rel pe e → engine_rel (PreExec.updateDirtyTransitions pcf now pe) (updateDirtyTransitions cf now e).
Proof.
  intros H. unfold PreExec.updateDirtyTransitions, updateDirtyTransitions. read_fields H.
  set (words := dirtySet e). set (snap := markingBitmap e).
  match goal with |- engine_rel (if PreExec.anyRestartPending ?a then _ else _) (if anyRestartPending ?b then _ else _) =>
    assert (engine_rel a b) as H' end.
  { apply scan_words_rel; [|auto with sim]. intros x a b. apply rescan_rel. }
  read_fields H'. case_match; auto with sim.
Qed.

Lemma elapsed_rel pe e now tid : engine_rel pe e → PreExec.elapsed now tid pe = elapsed now tid e.
Proof. by intros (m & -> & _). Qed.

Lemma enforceDeadlines_rel pe e now : engine_rel pe e → engine_rel (PreExec.enforceDeadlines pcf now pe) (enforceDeadlines cf now e).
Proof.
  intros H. unfold PreExec.enforceDeadlines, enforceDeadlines. apply foldl_rel; [|done]. clear H pe e. intros tid pe e Htid H.
  apply elem_of_seq in Htid. destruct (lt_c_transition cf tid) as [t Ht]; [cbn in Htid |- *; lia|]. pose proof Ht as Ht'. change (c_transition c tid = Some t) in Ht'.
  unfold PreExec.enforce_deadline, enforce_deadline. rewrite (elapsed_rel pe e now tid H), Ht. read_fields H.
  cbn [program pre_config compileFrom PreNet.hasDeadline isExact latestMs PreExec.deadlineToleranceMs make_config hasDeadlineFlags isExactFlags deadlineToleranceMs].
  unfold is_exact, is_exact_timing. rewrite (lookup_cell c (λ t, latest (t_timing t)) 0%Z tid t Ht).
  assert (PreExec.transition_name pcf tid = t_name t) as -> by (unfold PreExec.transition_name, transition_at; cbn [program pre_config pc_compiled compileFrom]; by rewrite Ht').
  repeat (case_bool; try done). eapply same_rel; [done..|]. by destruct H as (m & -> & _).
Qed.

Lemma flagIntermediate_rel pe e tid i : engine_rel pe e →
  engine_rel (PreExec.flagIntermediateDisablements pcf tid i pe) (flagIntermediateDisablements cf tid i e).
Proof.
  intros H. unfold PreExec.flagIntermediateDisablements, flagIntermediateDisablements. cbn [program pre_config cf_compiled make_config].
  rewrite (affected_cell isP pn c Hc i). apply foldl_rel; [|done]. clear H pe e. intros other pe e _ H.
  unfold PreExec.flag_intermediate, flag_intermediate. rewrite (canEnable_rel pe e other _ H). read_fields H. repeat case_match; auto with sim.
Qed.

Lemma update_consumed_rel pe e tid i : i < placeCount c → engine_rel pe e →
  engine_rel (PreExec.update_consumed pcf tid pe i) (update_consumed cf tid e i).
Proof.
  intros Hi H. unfold PreExec.update_consumed, update_consumed. cbn [thresholds pre_config cf_thresholds make_config].
  assert (length (queue_at i pe) = tokens_at cf i (e_marking e)) as ->.
  { destruct H as (m & -> & Hq). symmetry. by apply tokens_at_queue. }
  assert (engine_rel (PreExec.markDirty pcf i (if tokens_at cf i (e_marking e) =? 0 then clearMarkingBit i pe else pe))
            (markDirty cf i (if tokens_at cf i (e_marking e) =? 0 then set_bitmap (clearBit (markingBitmap e) i) e else e))) as H'.
  { apply markDirty_rel. case_match; [|done]. unfold clearMarkingBit. read_fields H. auto with sim. }
  destruct (jnum_ltb _ _); [by apply flagIntermediate_rel|done].
Qed.
End Sim.
