(* ===== verification/PreFire.v ===== *)
(** * Firing by opcodes

    On related engines the opcode program of an enabled transition takes the tokens the bitmap
    executor's consumption takes: it never meets an empty queue or an unknown opcode. *)
From S2P Require Import Prelude.
From S2P Require Import PreNet.
From S2P Require Import PreExec.
From S2P Require Import PreLoop.
From S2P Require Import Net.
From S2P Require Import Out.
From S2P Require Import Transition.
From S2P Require Import Marking.
From S2P Require Import MatchEngine.
From S2P Require Import PetriNet.
From S2P Require Import Bitmap.
From S2P Require Import CompiledNet.
From S2P Require Import OutputCheck.
From S2P Require Import Context.
From S2P Require Import Executor.
From S2P Require Import ExecScan.
From S2P Require Import ExecFire.
From S2P Require Import ExecLoop.
From S2P Require Import ExecInv.
From S2P Require Import ExecCoherent.
From S2P Require Import ExecFiring.
From S2P Require Import PreSim.
From S2P Require Import ExecRun.
From S2P Require Import ExecOrder.
Section PreFire.
Context {V : Type} (isP : nat → bool) (pn : petri_net V) (c : compiled V).
Hypothesis Hc : compile isP pn = Ok c.
Hypothesis Hwf : ∀ tid t, net_transitions pn !! tid = Some t → transition_wf t.
Variables (tol : Z) (env : list jsstr) (scope : jsstr).
Abbreviation cf := (make_config c tol env scope).
Abbreviation pcf := (pre_config c tol env scope).
Variable u : list (jsstr * (place * list (token V))).
Abbreviation engine_rel := (PreSim.engine_rel c u).
Abbreviation queues_rel := (PreSim.queues_rel c u).
Implicit Types (pe : PreExec.engine V) (e : engine V) (m : marking V) (pf : PreExec.firing V) (f : firing V) (q : list (token V)).

(** ** Changing a queue *)

Lemma queue_change m m' pe p i q : queues_rel m pe → tryPlaceId c p = Some i →
  (∀ n, queue m' n = if decide (n = place_name p) then q else queue m n) →
  queues_rel m' (PreExec.set_queue i q pe).
Proof.
  intros [H1 H2 H3 H4 H5] Hp Hm. pose proof (pid_place isP pn cf Hc p i Hp) as (Hlt & r & Hr & Er). constructor.
  - cbn [tokenQueues PreExec.set_queue]. by rewrite length_insert.
  - intros p' i' Hp'. rewrite Hm. unfold queue_at. cbn [tokenQueues PreExec.set_queue]. destruct (decide (i' = i)) as [->|Hne].
    + rewrite list_lookup_insert_eq by (rewrite H1; exact Hlt). cbn. rewrite decide_True; [done|].
      pose proof (pid_place isP pn cf Hc p' i Hp') as (_ & r' & Hr' & Er'). congruence.
    + rewrite list_lookup_insert_ne by done. rewrite decide_False; [by apply H2|].
      intros En. apply Hne. unfold tryPlaceId in Hp, Hp'. rewrite En in Hp'. congruence.
  - done.
  - intros n Hn. rewrite Hm, decide_False; [by apply H4|]. intros ->. unfold tryPlaceId in Hp. congruence.
  - done.
Qed.

Lemma change_rel pe e p i q m' : engine_rel pe e → tryPlaceId c p = Some i →
  (∀ n, queue m' n = if decide (n = place_name p) then q else queue (e_marking e) n) →
  engine_rel (PreExec.set_queue i q pe) (set_marking m' e).
Proof. intros (m & -> & Hq) Hp Hm. exists m'. split; [done|]. by eapply queue_change. Qed.

Lemma queue_at_rel pe e p i : engine_rel pe e → tryPlaceId c p = Some i → queue_at i pe = queue (e_marking e) (place_name p).
Proof. intros (m & -> & Hq) Hp. by apply (qr_known _ _ _ _ Hq). Qed.

(** ** One place *)

Record fire_rel pf f : Prop := {
  fr_engine : engine_rel (PreExec.f_engine pf) (f_engine f);
  fr_consumed : PreExec.f_consumed pf = f_consumed f;
  fr_inputs : PreExec.f_inputs pf = f_inputs f
}.

Lemma ti_add_name p r (t : token V) ti : place_name p = place_name r → ti_add p t ti = ti_add r t ti.
Proof. intros E. unfold ti_add. by rewrite E. Qed.

Lemma take_rel pf f p r tok pe e : fire_rel pf f → engine_rel pe e → place_name r = place_name p →
  fire_rel (PreExec.take r tok pf pe) (Firing (emit (EvTokenRemoved (place_name p) tok) e) (f_consumed f ++ [tok]) (ti_add p tok (f_inputs f))).
Proof.
  intros [H1 H2 H3] He En. constructor; cbn [PreExec.take PreExec.f_engine PreExec.f_consumed PreExec.f_inputs f_engine f_consumed f_inputs].
  - rewrite En. by apply (emit_rel c u).
  - by rewrite H2.
  - by rewrite H3, (ti_add_name r p).
Qed.

(** The removals of one token from a place agree. *)
Lemma remove_rel pe e p i pred : engine_rel pe e → tryPlaceId c p = Some i →
  match (match pred with Some _ => removeFirstMatching (p, pred) (e_marking e) | None => removeFirst p (e_marking e) end) with
  | (Some tok, m') => ∃ pe', (match pred with Some g => PreExec.removeFirstMatching i g pe | None => shift i pe end) = (Some tok, pe') ∧
                             engine_rel pe' (set_marking m' e)
  | (None, _) => (match pred with Some g => PreExec.removeFirstMatching i g pe | None => shift i pe end).1 = None
  end.
Proof.
  intros H Hp. pose proof (queue_at_rel pe e p i H Hp) as Eq. pose proof (remove_one p pred (e_marking e)) as Hr.
  destruct (match pred with Some _ => _ | None => _ end) as [[tok|] m'].
  - destruct Hr as (q' & Hs & ->). assert (∀ n, queue (set_queue p q' (e_marking e)) n = if decide (n = place_name p) then q' else queue (e_marking e) n) as Hm by (intros; apply queue_set).
    exists (PreExec.set_queue i q' pe). split; [|by eapply change_rel]. destruct pred as [g|]; cbn [pred_of default from_option] in Hs.
    + unfold PreExec.removeFirstMatching. rewrite Eq. unfold id in Hs. by rewrite Hs.
    + unfold shift. rewrite Eq. destruct (queue (e_marking e) (place_name p)) as [|t l]; [done|]. cbn in Hs. by injection Hs as <- <-.
  - destruct pred as [g|]; cbn [pred_of default from_option] in Hr.
    + unfold PreExec.removeFirstMatching. rewrite Eq. unfold id in Hr. by rewrite Hr.
    + unfold shift. rewrite Eq. by destruct (queue (e_marking e) (place_name p)).
Qed.

(** A loop by predicate, as joins run it. *)
Lemma match_loop_rel p i pred n pf f : tryPlaceId c p = Some i → fire_rel pf f → fire_rel (match_loop i p pred n pf) (consume_loop p pred n f).
Proof.
  intros Hp. revert pf f. induction n as [|n IH]; intros pf f H; [done|]. cbn [match_loop consume_loop].
  pose proof (remove_rel _ _ p i pred (fr_engine _ _ H) Hp) as Hr.
  destruct (match pred with Some _ => removeFirstMatching _ _ | None => _ end) as [[tok|] m'].
  - destruct Hr as (pe' & -> & He). apply IH. by apply take_rel.
  - destruct (match pred with Some _ => _ | None => _ end) as [[?|] ?]; [done|done].
Qed.

(** [n] tokens from the front, when there are as many. *)
Lemma shift_n_rel p r i n pf f : tryPlaceId c p = Some i → place_name r = place_name p → fire_rel pf f →
  n ≤ length (queue (e_marking (f_engine f)) (place_name p)) →
  ∃ pf', shift_n i r n pf = Some pf' ∧ fire_rel pf' (consume_loop p None n f).
Proof.
  intros Hp En. revert pf f. induction n as [|n IH]; intros pf f H Hn; [by exists pf|]. cbn [shift_n consume_loop].
  pose proof (remove_rel _ _ p i None (fr_engine _ _ H) Hp) as Hr. cbn beta iota in Hr.
  rewrite removeFirst_spec in Hr |- *. destruct (queue _ (place_name p)) as [|tok q] eqn:Eq; [simpl in Hn; lia|].
  destruct Hr as (pe' & -> & He). apply IH; [by apply take_rel|]. cbn [f_engine emit e_marking set_marking]. rewrite queue_set, decide_True by done.
  simpl in Hn. lia.
Qed.

Lemma emits_rel p (toks : list (token V)) pe e : engine_rel pe e →
  engine_rel (foldl (λ pe tok, emitEvent (EvTokenRemoved p tok) pe) pe toks) (foldl (λ e t, emit (EvTokenRemoved p t) e) e toks).
Proof. intros H. apply foldl_rel; [|done]. intros x a b _. apply (emit_rel c u). Qed.

Lemma drain_rel p r i pf f : tryPlaceId c p = Some i → place_name r = place_name p → fire_rel pf f →
  fire_rel (drain_place i r pf) (reset_arc f p).
Proof.
  intros Hp En [H1 H2 H3]. unfold drain_place, reset_arc. rewrite (queue_at_rel _ _ p i H1 Hp), removeAll_spec.
  assert (∀ n, queue (match queue (e_marking (f_engine f)) (place_name p) with [] => ([], e_marking (f_engine f)) | _ => (queue (e_marking (f_engine f)) (place_name p), set_queue p [] (e_marking (f_engine f))) end).2 n
    = if decide (n = place_name p) then [] else queue (e_marking (f_engine f)) n) as Hm.
  { intros n. destruct (queue _ (place_name p)) eqn:Eq; cbn [snd]; [case_decide; [by subst|done]|apply queue_set]. }
  constructor; cbn [PreExec.f_engine PreExec.f_consumed PreExec.f_inputs f_engine f_consumed f_inputs].
  - rewrite En. assert ((match queue (e_marking (f_engine f)) (place_name p) with [] => ([], e_marking (f_engine f)) | _ => (queue (e_marking (f_engine f)) (place_name p), set_queue p [] (e_marking (f_engine f))) end).1 = queue (e_marking (f_engine f)) (place_name p)) as Eq by (by destruct (queue _ _)).
    destruct (queue (e_marking (f_engine f)) (place_name p)); apply emits_rel; by eapply change_rel.
  - rewrite H2. by destruct (queue _ _).
  - done.
Qed.

(** ** Programs *)

Lemma place_cell p i : tryPlaceId c p = Some i → ∃ r, places (program pcf) !! i = Some r ∧ place_name r = place_name p.
Proof. intros (_ & r & Hr & En)%(pid_place isP pn cf Hc). by exists r. Qed.

Lemma known_place tid t p : c_transition c tid = Some t → p ∈ touched_places t → tryPlaceId c p = Some (pid c p).
Proof. intros Ht Hp. destruct (touched_pid isP pn cf Hc tid t p Ht Hp) as (i & E & E1). change (pid c p = i) in E1. by rewrite E1. Qed.

Lemma run_inputs_rel t specs rest pf f : t_matchSpec t = None → NoDup (input_names specs) →
  (∀ s, s ∈ specs → tryPlaceId c (in_place s) = Some (pid c (in_place s))) →
  (∀ s, s ∈ specs → (requiredCount s ≤ Z.of_nat (length (queue (e_marking (f_engine f)) (place_name (in_place s)))))%Z) →
  fire_rel pf f →
  ∃ pf', run_inputs pcf ((s ← specs; consume_op c s) ++ rest) pf = run_inputs pcf rest pf' ∧
         fire_rel pf' (foldl (consume_input_spec t None) f specs).
Proof.
  intros Hms. revert pf f. induction specs as [|s specs IH]; intros pf f Hd Hk Hn H; [by exists pf|].
  cbn [foldl]. rewrite bind_cons, <- app_assoc. apply NoDup_cons in Hd as [Hd Hds].
  assert (∃ pf1, run_inputs pcf (consume_op c s ++ ((s ← specs; consume_op c s) ++ rest)) pf =
                 run_inputs pcf ((s ← specs; consume_op c s) ++ rest) pf1 ∧ fire_rel pf1 (consume_input_spec t None f s)) as (pf1 & E1 & H1).
  { specialize (Hk s ltac:(left)). specialize (Hn s ltac:(left)). destruct (place_cell _ _ Hk) as (r & Hr & En).
    pose proof (queue_at_rel _ _ _ _ (fr_engine _ _ H) Hk) as Eq.
    assert (input_predicate t None s = None) as Hpred by (unfold input_predicate; by rewrite Hms).
    assert (∀ n, n ≤ length (queue (e_marking (f_engine f)) (place_name (in_place s))) → consume_count s None (e_marking (f_engine f)) = n →
      ∃ pf1, shift_n (pid c (in_place s)) r n pf = Some pf1 ∧ fire_rel pf1 (consume_input_spec t None f s)) as Hshift.
    { intros n Hle En'. unfold consume_input_spec. rewrite Hpred, En'. by apply shift_n_rel. }
    destruct s as [p|p n|p|p n]; cbn [consume_op app in_place requiredCount consume_count run_inputs] in *.
    - destruct (Hshift 1) as (pf1 & E & ?); [lia|done|]. exists pf1. split; [|done].
      cbn [Z.eqb CONSUME_ONE]. rewrite Nat2Z.id, Hr. cbn [mbind option_bind]. by rewrite E.
    - destruct (Hshift (Z.to_nat n)) as (pf1 & E & ?); [lia|done|]. exists pf1. split; [|done].
      cbn [Z.eqb CONSUME_ONE CONSUME_N Pos.eqb]. rewrite Nat2Z.id, Hr. cbn [mbind option_bind]. by rewrite E.
    - rewrite tokenCount_queue in Hshift. destruct (Hshift _ ltac:(done) ltac:(done)) as (pf1 & E & ?). exists pf1. split; [|done].
      cbn [Z.eqb CONSUME_ONE CONSUME_N CONSUME_ALL Pos.eqb]. rewrite Nat2Z.id, Hr. cbn [mbind option_bind]. rewrite Eq. by rewrite E.
    - rewrite tokenCount_queue in Hshift. destruct (Hshift _ ltac:(done) ltac:(done)) as (pf1 & E & ?). exists pf1. split; [|done].
      cbn [Z.eqb CONSUME_ONE CONSUME_N CONSUME_ALL CONSUME_ATLEAST Pos.eqb]. rewrite Nat2Z.id, Hr. cbn [mbind option_bind]. rewrite Eq. by rewrite E. }
  destruct (IH pf1 (consume_input_spec t None f s)) as (pf' & E' & H'); [done|intros; apply Hk; by right| |done|].
  - intros s' Hs'. destruct (consume_input_spec_spec t None f s) as [(_ & _ & _ & _ & Hq) _]. rewrite Hq, decide_False; [by apply Hn; right|].
    intros En. apply Hd. change (place_name (in_place s) ∈ input_names specs). rewrite <- En. unfold input_names. by apply (list_elem_of_fmap_2 (λ s, place_name (in_place s))).
  - exists pf'. by rewrite E1, E'.
Qed.

Lemma run_resets_rel ps pf f : (∀ p, p ∈ ps → tryPlaceId c p = Some (pid c p)) → fire_rel pf f →
  ∃ pf', run_resets pcf (p ← ps; reset_op c p) pf = Some pf' ∧ fire_rel pf' (foldl reset_arc f ps).
Proof.
  revert pf f. induction ps as [|p ps IH]; intros pf f Hk H; [by exists pf|]. rewrite bind_cons. cbn [reset_op app run_resets foldl].
  destruct (place_cell p _ (Hk p ltac:(left))) as (r & Hr & En). rewrite Z.eqb_refl, Nat2Z.id, Hr. cbn [mbind option_bind].
  apply IH; [intros; apply Hk; by right|]. apply drain_rel; [by apply Hk; left|done|done].
Qed.

Lemma peek_reads_rel ps pf f : (∀ p, p ∈ ps → tryPlaceId c p = Some (pid c p)) → fire_rel pf f →
  fire_rel (foldl (peek_read pcf) pf (pid c <$> ps)) (foldl read_arc f ps).
Proof.
  revert pf f. induction ps as [|p ps IH]; intros pf f Hk H; [done|]. rewrite fmap_cons. cbn [foldl]. apply IH; [intros; apply Hk; by right|].
  unfold peek_read, read_arc. destruct (place_cell p _ (Hk p ltac:(left))) as (r & -> & En).
  rewrite (queue_at_rel _ _ p _ (fr_engine _ _ H)) by (apply Hk; left). unfold peekFirst, queue.
  destruct (map_get (place_name p) (m_tokens _)) as [[|tok q]|]; cbn [default from_option]; unfold id; try done. destruct H as [H1 H2 H3].
  constructor; cbn; [done|done|]. by rewrite H3, (ti_add_name r p).
Qed.

(** ** The consumption of a firing *)

Lemma match_input_rel t ms chosen s pf f : t_matchSpec t = Some ms → tryPlaceId c (in_place s) = Some (pid c (in_place s)) → fire_rel pf f →
  fire_rel (match_input pcf ms chosen pf s) (consume_input_spec t chosen f s).
Proof.
  intros Hms Hp H. unfold match_input, consume_input_spec. cbn [program pre_config pc_compiled compileFrom].
  assert (match_predicate ms chosen s = input_predicate t chosen s) as ->.
  { unfold match_predicate, input_predicate. rewrite Hms. by destruct (keyForPlace _ _), chosen. }
  assert ((match s with InOne _ => 1 | InExactly _ n => Z.to_nat n | InAll _ | InAtLeast _ _ =>
            match input_predicate t chosen s with Some g => PreExec.countMatching (pid c (in_place s)) g (PreExec.f_engine pf)
            | None => length (queue_at (pid c (in_place s)) (PreExec.f_engine pf)) end end) =
          consume_count s (input_predicate t chosen s) (e_marking (f_engine f))) as ->.
  { pose proof (queue_at_rel _ _ _ _ (fr_engine _ _ H) Hp) as Eq. unfold PreExec.countMatching.
    destruct s; cbn [in_place consume_count] in *; try done; rewrite Eq; (destruct (input_predicate _ _ _) as [g|]; [|by rewrite tokenCount_queue]);
      rewrite countMatching_queue, (countMatching_foldl V); done. }
  by apply match_loop_rel.
Qed.

Lemma readOps_cell tid t : c_transition c tid = Some t → default [] (readOps (compileFrom c) !! tid) = pid c <$> reads t.
Proof. intros Ht. by apply (lookup_cell c (compileReadProgram c)). Qed.

Lemma name_rel tid t ms pe e : c_transition c tid = Some t → t_matchSpec t = Some ms → engine_rel pe e →
  match default None (PreExec.matchCaches pe !! tid) with Some cache => best cache | None => findBinding t (tokens_of pcf pe) end = chosen_name t tid e.
Proof.
  intros Ht Hms H. unfold chosen_name. rewrite Hms. destruct (rel_fields c u pe e H) as (_ & _ & _ & _ & _ & _ & _ & _ & -> & _).
  destruct (default None _); [done|]. destruct H as (m & -> & Hq). by apply (binding_rel isP pn c Hc Hwf tol env scope u pe m tid t Ht).
Qed.

Lemma consume_rel tid t pe e : c_transition c tid = Some t → engine_rel pe e → enabled_in t (e_marking e) →
  ∃ pf, PreExec.consume pcf tid t pe = Some (pf, chosen_name t tid e) ∧ fire_rel pf (consume_all t tid e).
Proof.
  intros Ht H (Hen & _). destruct (transition_wf_of isP pn cf Hc Hwf tid t Ht) as [[Hnd Hone] _].
  assert (∀ p, p ∈ touched_places t → tryPlaceId c p = Some (pid c p)) as Hk by (intros; by eapply known_place).
  unfold touched_places in Hk. repeat setoid_rewrite elem_of_app in Hk.
  assert (∀ s, s ∈ inputSpecs t → tryPlaceId c (in_place s) = Some (pid c (in_place s))) as Hks by (intros; apply Hk; left; by apply list_elem_of_fmap_2).
  unfold PreExec.consume, consume_all, mirror_consume. destruct (t_matchSpec t) as [ms|] eqn:Hms.
  - cbn zeta. eexists. split.
    + unfold fireTransitionMatched. by rewrite (name_rel tid t ms pe e Ht Hms H).
    + destruct (rel_fields c u pe e H) as (_ & _ & _ & _ & _ & _ & _ & _ & -> & _).
      set (chosen := chosen_name t tid e).
      unfold peekReadArcs. cbn [program pre_config pc_compiled compileFrom]. rewrite (readOps_cell tid t Ht).
      apply foldl_rel.
      { intros p pf f Hp Hf. apply drain_rel; [by apply Hk; tauto|done|done]. }
      apply peek_reads_rel; [by intros; apply Hk; tauto|]. apply foldl_rel.
      { intros s pf f Hs Hf. by apply match_input_rel; [|apply Hks|]. }
      constructor; cbn; [|done|done]. destruct (default None (matchCaches e !! tid)), chosen; try done. by apply (set_cache_rel c u).
  - assert (chosen_name t tid e = None) as -> by (unfold chosen_name; by rewrite Hms). cbn zeta. cbn [program pre_config compileFrom consumeOps resetOpsStart].
    rewrite (lookup_cell c (λ t, (compileConsumeProgram c t).1) [] tid t Ht), (lookup_cell c (λ t, (compileConsumeProgram c t).2) 0 tid t Ht).
    unfold compileConsumeProgram. cbn zeta. cbn [fst snd]. rewrite take_app_length, drop_app_length.
    destruct (run_inputs_rel t (inputSpecs t) [] (PreExec.Firing pe [] []) (Firing e [] [])) as (pf & E & Hf); [done|done|done|done|done|].
    rewrite app_nil_r in E. rewrite E. cbn [run_inputs mbind option_bind].
    destruct (run_resets_rel (resets t) (peekReadArcs pcf tid pf) (foldl read_arc (foldl (consume_input_spec t None) (Firing e [] []) (inputSpecs t)) (reads t))) as (pf' & E' & Hf').
    + intros; apply Hk; tauto.
    + unfold peekReadArcs. cbn [program pre_config pc_compiled compileFrom]. rewrite (readOps_cell tid t Ht). apply peek_reads_rel; [by intros; apply Hk; tauto|done].
    + rewrite E'. by exists pf'.
Qed.
End PreFire.

(** * The precompiled executor simulates the bitmap executor: firing

    The relation between the two executors' states, and the ready transitions firing in lockstep. *)
Lemma filter_every {A} (P : A → Prop) `{∀ a, Decision (P a)} (l : list A) : (∀ a, a ∈ l → P a) → filter P l = l.
Proof.
  induction l as [|a l IH]; intros HP; [done|]. rewrite filter_cons, decide_True by (apply HP; left). by rewrite IH by (intros; apply HP; by right).
Qed.


Section PreRun.
Context {V : Type} (isP : nat → bool) (pn : petri_net V) (c : compiled V).
Hypothesis Hc : compile isP pn = Ok c.
Hypothesis Hwf : ∀ tid t, net_transitions pn !! tid = Some t → transition_wf t.
Variables (tol : Z) (env : list jsstr) (scope : jsstr).
Abbreviation cf := (make_config c tol env scope).
Abbreviation pcf := (pre_config c tol env scope).
Abbreviation engine_rel := (PreSim.engine_rel c).
Abbreviation retained := unknownPlaceTokens.
Abbreviation tc := (transitionCount c).
Implicit Types (pe : PreExec.engine V) (e : engine V) (px : PreExec.exec V) (x : exec V) (t : transition V).

(** ** The relation *)

(** The cells of a transition hold its flight, or nothing. *)
Definition cells px (tid : nat) (o : option (flight V)) : Prop :=
  match o with
  | Some fl => inFlightPromises px !! tid = Some (Some (fl_settled fl)) ∧ inFlightContexts px !! tid = Some (Some (fl_context fl)) ∧
               inFlightConsumed px !! tid = Some (Some (fl_consumed fl)) ∧ inFlightMatched px !! tid = Some (fl_matchedName fl) ∧
               inFlightErrors px !! tid = Some (fl_error fl)
  | None => inFlightPromises px !! tid = Some None ∧ inFlightContexts px !! tid = Some None
  end.

Record flights_rel px (fl : list (nat * flight V)) : Prop := {
  fl_lengths : length (inFlightPromises px) = tc ∧ length (inFlightContexts px) = tc ∧ length (inFlightConsumed px) = tc ∧
               length (inFlightMatched px) = tc ∧ length (inFlightErrors px) = tc;
  fl_number : inFlightCount px = Z.of_nat (length fl);
  fl_cells : ∀ tid, tid < tc → cells px tid (map_get tid fl);
  fl_unmatched : ∀ tid t, c_transition c tid = Some t → t_matchSpec t = None → inFlightMatched px !! tid = Some None
}.

Definition arrays px := (inFlightPromises px, inFlightContexts px, inFlightConsumed px, inFlightMatched px, inFlightErrors px, inFlightCount px).

Lemma arrays_rel px px' fl : arrays px' = arrays px → flights_rel px fl → flights_rel px' fl.
Proof.
  unfold arrays. intros E [H1 H2 H3 H4]. injection E as E1 E2 E3 E4 E5 E6. constructor; rewrite ?E1, ?E2, ?E3, ?E4, ?E5, ?E6; try done.
  intros tid Hlt. specialize (H3 tid Hlt). unfold cells in *. by rewrite E1, E2, E3, E4, E5.
Qed.

Ltac keep_flights := (eapply arrays_rel; [|eassumption]; done).

(** The fields the two executors share. *)
Definition pre_shared px :=
  (PreExec.completionQueue px, PreExec.externalQueue px, PreExec.admissions px, (unknownPlaceTokens (PreExec.x_engine px)).*1, PreExec.warnedMultiplicity px,
   PreExec.freshNameCounter px, (PreExec.wakeUpPending px, PreExec.draining px, PreExec.closed px, PreExec.terminalReached px, PreExec.unsettled px,
   PreExec.running px, PreExec.reason px)).
Definition shared x :=
  (completionQueue x, externalQueue x, admissions x, warnedUnknownPlaces x, warnedMultiplicity x,
   freshNameCounter x, (wakeUpPending x, draining x, closed x, terminalReached x, unsettled x, running x, reason x)).

Record exec_rel px x : Prop := {
  xr_engine : engine_rel (retained (PreExec.x_engine px)) (PreExec.x_engine px) (x_engine x);
  xr_flights : flights_rel px (inFlight x);
  xr_shared : pre_shared px = shared x
}.

Lemma retained_eq u pe e : engine_rel u pe e → retained pe = u.
Proof. intros (m & _ & Hq). apply (qr_retained _ _ _ _ Hq). Qed.
Lemma self_rel u pe e : engine_rel u pe e → engine_rel (retained pe) pe e.
Proof. intros H. by rewrite (retained_eq _ _ _ H). Qed.

(** A change of the engine that leaves the retained tokens alone. *)
Lemma set_engine_rel px x pe e : exec_rel px x → engine_rel (retained (PreExec.x_engine px)) pe e → exec_rel (PreExec.set_engine pe px) (set_engine e x).
Proof.
  intros [H1 H2 H3] He. pose proof (retained_eq _ _ _ He) as Hu.
  constructor; [by cbn; rewrite Hu|keep_flights|]. unfold pre_shared in *. cbn [PreExec.set_engine PreExec.x_engine PreExec.completionQueue
    PreExec.externalQueue PreExec.admissions PreExec.warnedMultiplicity PreExec.freshNameCounter PreExec.wakeUpPending PreExec.draining PreExec.closed
    PreExec.terminalReached PreExec.unsettled PreExec.running PreExec.reason]. by rewrite Hu.
Qed.

Lemma on_engine_rel px x f g : exec_rel px x → engine_rel (retained (PreExec.x_engine px)) (f (PreExec.x_engine px)) (g (x_engine x)) →
  exec_rel (PreExec.on_engine f px) (on_engine g x).
Proof. intros H He. by apply set_engine_rel. Qed.

Ltac shared_fields H := unfold pre_shared, shared in *; cbn in *; injection H as ? ? ? ? ? ? ? ? ? ? ? ? ?; repeat f_equal; done.

Lemma set_unsettled_rel b px x : exec_rel px x → exec_rel (PreExec.set_unsettled b px) (set_unsettled b x).
Proof. intros [H1 H2 H3]. constructor; [done|keep_flights|]. shared_fields H3. Qed.

(** ** The update after a consumption *)

Lemma update_rel u pe e tid t : c_transition c tid = Some t → engine_rel u pe e →
  engine_rel u (PreExec.updateBitmapAfterConsumption pcf tid pe) (updateBitmapAfterConsumption cf tid e).
Proof.
  intros Ht H. unfold PreExec.updateBitmapAfterConsumption, updateBitmapAfterConsumption. cbn [program pre_config cf_compiled make_config].
  rewrite (consumption_cell isP pn c Hc tid). apply foldl_rel; [|done]. intros i a b Hi Hab.
  apply (update_consumed_rel isP pn c Hc Hwf); [|done].
  apply (consumption_spec isP pn cf Hc tid t i Ht) in Hi as (p & Hp & _). by apply (pid_place isP pn cf Hc) in Hp as [? _].
Qed.

(** ** Firing *)

Variable providerThrows : jsstr → list (token V) → bool.

Lemma map_get_snoc {A} (l : list (nat * A)) k v i : k ∉ l.*1 → map_get i (l ++ [(k, v)]) = if decide (i = k) then Some v else map_get i l.
Proof.
  induction l as [|[j w] l IH]; intros Hk; cbn [map_get app]; [by case_decide|]. rewrite fmap_cons in Hk. rewrite IH by set_solver.
  repeat case_decide; subst; try done. set_solver.
Qed.

Lemma matched_keep px tid t name : c_transition c tid = Some t → t_matchSpec t ≠ None ∨ name = None →
  (∀ tid t, c_transition c tid = Some t → t_matchSpec t = None → inFlightMatched px !! tid = Some None) →
  ∀ tid' t', c_transition c tid' = Some t' → t_matchSpec t' = None → <[tid := name]> (inFlightMatched px) !! tid' = Some None.
Proof.
  intros Ht Hn H tid' t' Ht' Hm. destruct (decide (tid' = tid)) as [->|Hne]; [|rewrite list_lookup_insert_ne by done; by eapply H].
  assert (t' = t) as -> by congruence. destruct Hn as [?| ->]; [done|]. rewrite list_lookup_insert_eq; [done|]. eapply lookup_lt_Some, (H tid t Ht Hm).
Qed.

Lemma cells_other px px' tid o : inFlightPromises px' !! tid = inFlightPromises px !! tid → inFlightContexts px' !! tid = inFlightContexts px !! tid →
  inFlightConsumed px' !! tid = inFlightConsumed px !! tid → (o ≠ None → inFlightMatched px' !! tid = inFlightMatched px !! tid) →
  inFlightErrors px' !! tid = inFlightErrors px !! tid → cells px tid o → cells px' tid o.
Proof. intros E1 E2 E3 E4 E5. destruct o as [fl|]; unfold cells; rewrite E1, E2, ?E3, ?E5; [|done]. by rewrite E4. Qed.

Lemma set_matched_rel px fl tid t name : c_transition c tid = Some t → map_get tid fl = None → t_matchSpec t ≠ None ∨ name = None →
  flights_rel px fl → flights_rel (set_matched tid name px) fl.
Proof.
  intros Ht Hn Hm [(L1 & L2 & L3 & L4 & L5) H2 H3 H4]. constructor; [|done| |].
  - cbn. by rewrite length_insert.
  - intros i Hi. specialize (H3 i Hi). eapply cells_other; [..|exact H3]; cbn [set_matched inFlightPromises inFlightContexts inFlightConsumed inFlightMatched inFlightErrors]; try done.
    intros Ho. rewrite list_lookup_insert_ne; [done|]. intros ->. done.
  - by eapply matched_keep.
Qed.

Lemma track_rel px fl tid cx consumed name : tid < tc → tid ∉ fl.*1 → inFlightMatched px !! tid = Some name → flights_rel px fl →
  flights_rel (track tid cx consumed px) (fl ++ [(tid, Flight cx consumed name None false)]).
Proof.
  intros Hlt Hfresh Hm [(L1 & L2 & L3 & L4 & L5) H2 H3 H4]. constructor; [|cbn; rewrite H2, length_app; simpl; lia| |done].
  - cbn. by rewrite !length_insert.
  - intros i Hi. rewrite map_get_snoc by done. case_decide as E.
    + subst i. cbn. by rewrite !list_lookup_insert_eq by lia.
    + eapply cells_other; [..|by apply H3]; cbn; by rewrite ?list_lookup_insert_ne by done.
Qed.

Lemma fire_failed_rel px x tid t : c_transition c tid = Some t → tid ∉ (inFlight x).*1 → flag (inFlightFlags (x_engine x)) tid = false →
  exec_rel px x → exec_rel (PreExec.fire_failed pcf tid px) (fire_failed cf tid x).
Proof.
  intros Ht Hfresh Hfl H. unfold PreExec.fire_failed, fire_failed. cbn zeta.
  rewrite (decide_False (P := tid ∈ (inFlight x).*1)) by done.
  assert (flights_delete tid (inFlight x) = inFlight x) as Ed.
  { unfold flights_delete. apply filter_every. intros y Hy E. apply Hfresh. rewrite <- E. by apply list_elem_of_fmap_2. }
  rewrite Ed. set (px1 := if flag (PreExec.enabledFlags (PreExec.x_engine px)) tid then PreExec.on_engine (PreExec.disable tid) px else px).
  set (e1 := if flag (enabledFlags (x_engine x)) tid then disable tid (x_engine x) else x_engine x).
  assert (exec_rel px1 (set_engine e1 x)) as H1.
  { unfold px1, e1. destruct (rel_fields c _ _ _ (xr_engine _ _ H)) as (_ & _ & _ & _ & -> & _). destruct (flag (enabledFlags (x_engine x)) tid).
    - apply set_engine_rel; [done|]. apply disable_rel, H.
    - by destruct x. }
  assert (flag (PreExec.inFlightFlags (PreExec.x_engine px1)) tid = false) as ->.
  { destruct (rel_fields c _ _ _ (xr_engine _ _ H1)) as (_ & _ & _ & -> & _). cbn [set_engine x_engine]. unfold e1. by destruct (flag (enabledFlags (x_engine x)) tid). }
  pose proof (xr_engine _ _ H1) as He1. cbn [set_engine x_engine] in He1.
  apply (update_rel _ _ _ tid t Ht) in He1. apply (set_cache_rel c _ _ _ tid None) in He1.
  apply (emit_rel c _ _ _ (EvTransitionFailed (transition_name cf tid))) in He1. apply (markTransitionDirty_rel c _ _ _ tid) in He1.
  change (set_engine ?e (set_flights (inFlight x) x)) with (set_engine e (set_engine e1 x)).
  by apply set_engine_rel.
Qed.

Lemma contained_rel px x tid t : exec_inv cf x → exec_rel px x → c_transition c tid = Some t →
  flag (enabledFlags (x_engine x)) tid = true → enabled_in t (e_marking (x_engine x)) →
  ∃ px', PreExec.fireTransitionContained pcf providerThrows tid px = Some px' ∧ exec_rel px' (fireTransitionContained cf providerThrows tid x).
Proof.
  intros Hi H Ht Hen Hin. pose proof (xr_engine _ _ H) as He. pose proof (xr_flights _ _ H) as Hf.
  assert (tid < tc) as Hlt by (by eapply (c_transition_lt cf)).
  assert (tid ∉ (inFlight x).*1) as Hfresh.
  { intros Hk%(xi_flight _ _ _ Hi). by rewrite (fo_excl _ _ (ei_flags _ _ _ (xi_engine _ _ Hi)) tid Hen) in Hk. }
  destruct (consume_rel isP pn c Hc Hwf tol env scope _ tid t _ _ Ht He Hin) as (pf & Ec & [F1 F2 F3]).
  unfold PreExec.fireTransitionContained, fireTransitionContained, PreExec.fireTransition, fireTransition.
  change (transition_at (program pcf) tid) with (c_transition c tid). change (c_transition (cf_compiled cf) tid) with (c_transition c tid). rewrite Ht. cbn zeta.
  change (PreExec.x_engine (PreExec.set_unsettled true px)) with (PreExec.x_engine px). rewrite Ec. cbn [mbind option_bind]. rewrite F2, F3.
  pose proof (update_rel _ _ _ tid t Ht F1) as He1.
  pose proof (emit_rel c _ _ _ (EvTransitionStarted (t_name t) (f_consumed (consume_all t tid (x_engine x)))) He1) as He2.
  set (px1 := match t_matchSpec t with Some _ => _ | None => _ end).
  assert (flights_rel px1 (inFlight x) ∧ inFlightMatched px1 !! tid = Some (chosen_name t tid (x_engine x)) ∧ PreExec.x_engine px1 = PreExec.x_engine px ∧
          pre_shared (PreExec.set_unsettled false px1) = shared (set_unsettled false x)) as (Hf1 & Hm1 & Ee1 & Hs1).
  { pose proof (xr_shared _ _ (set_unsettled_rel false px x H)) as Hs. unfold px1. destruct (t_matchSpec t) as [ms|] eqn:Hms.
    - split_and!; [|cbn; apply list_lookup_insert_eq; by rewrite (proj1 (proj2 (proj2 (proj2 (fl_lengths _ _ Hf)))))|done|done].
      apply (set_matched_rel _ _ tid t); [done|by apply map_get_None|left; congruence|]. keep_flights.
    - split_and!; [keep_flights| |done|done]. cbn. rewrite (fl_unmatched _ _ Hf tid t Ht Hms). unfold chosen_name. by rewrite Hms. }
  assert (exec_rel (PreExec.set_unsettled false px1) (set_unsettled false x)) as H1.
  { constructor; [cbn; by rewrite Ee1|keep_flights|done]. }
  destruct (providerThrows _ _).
  - eexists. split; [done|]. apply (fire_failed_rel _ _ tid t); [done|done| |].
    + cbn [set_unsettled set_engine x_engine emit inFlightFlags].
      destruct (fire_consumption isP pn cf Hc Hwf _ tid t _ Ht (xi_engine _ _ Hi) Hin) as (_ & _ & -> & _). by apply (fo_excl _ _ (ei_flags _ _ _ (xi_engine _ _ Hi))).
    + rewrite <- Ee1 in He2. by apply (set_engine_rel _ _ _ _ H1 He2).
  - eexists. split; [done|]. pose proof (disable_rel c _ _ _ tid (set_inFlight_rel c _ _ _ tid true He2)) as He3. constructor.
    + exact (self_rel _ _ _ He3).
    + cbn [set_unsettled set_flights inFlight]. rewrite map_set_new by done.
      eapply arrays_rel; [|eapply (track_rel px1); [done|done|exact Hm1|done]]. done.
    + match goal with |- _ = shared ?y => change (shared y) with (shared (set_unsettled false x)) end. rewrite <- Hs1. unfold pre_shared.
      cbn [PreExec.set_unsettled track PreExec.set_engine PreExec.x_engine PreExec.completionQueue PreExec.externalQueue PreExec.admissions PreExec.warnedMultiplicity
        PreExec.freshNameCounter PreExec.wakeUpPending PreExec.draining PreExec.closed PreExec.terminalReached PreExec.unsettled PreExec.running PreExec.reason].
      by rewrite (retained_eq _ _ _ He3), Ee1.
Qed.

Lemma disable_exec_rel px x tid : exec_rel px x → exec_rel (PreExec.on_engine (PreExec.disable tid) px) (on_engine (disable tid) x).
Proof. intros H. apply on_engine_rel; [done|]. apply disable_rel, H. Qed.

(** ** The ready transitions *)

Lemma fire_immediate_rel px x tid : tid < tc → exec_inv cf x → exec_rel px x →
  ∃ px', PreExec.fire_immediate pcf providerThrows px tid = Some px' ∧ exec_rel px' (fire_immediate cf providerThrows x tid).
Proof.
  intros Hlt Hi H. destruct (lt_c_transition cf tid Hlt) as [t Ht]. unfold PreExec.fire_immediate, fire_immediate.
  rewrite (canEnable_rel isP pn c Hc Hwf tol env scope _ _ _ tid _ (xr_engine _ _ H)).
  destruct (rel_fields c _ _ _ (xr_engine _ _ H)) as (-> & _ & _ & -> & -> & _).
  destruct (flag (enabledFlags (x_engine x)) tid) eqn:E1; cbn [negb orb]; [|by exists px]. destruct (flag (inFlightFlags (x_engine x)) tid); [by exists px|].
  destruct (canEnable cf tid (markingBitmap (x_engine x)) (x_engine x)) eqn:E2.
  - apply (contained_rel px x tid t); [done|done|done|done|]. by apply (canEnable_inv isP pn cf Hc Hwf _ tid t _ Ht (xi_engine _ x Hi)).
  - eexists. split; [done|]. by apply disable_exec_rel.
Qed.

(** A loop that may stop the model, along the loop of the bitmap executor. *)
Lemma fold_opt_rel {A B C} (R : A → B → Prop) (f : A → C → option A) (g : B → C → B) l a b :
  (∀ k a b, k ∈ l → R a b → ∃ a', f a k = Some a' ∧ R a' (g b k)) → R a b → ∃ a', fold_opt f l a = Some a' ∧ R a' (foldl g b l).
Proof.
  revert a b. induction l as [|k l IH]; intros a b H Hr; [by exists a|]. destruct (H k a b ltac:(left) Hr) as (a1 & E & Hr1).
  cbn [fold_opt foldl]. rewrite E. cbn [mbind option_bind]. apply IH; [intros; apply H; [by right|done]|done].
Qed.

Lemma fireReadyImmediate_rel px x : exec_inv cf x → exec_rel px x →
  ∃ px', PreExec.fireReadyImmediate pcf providerThrows px = Some px' ∧ exec_rel px' (fireReadyImmediate cf providerThrows x).
Proof.
  intros Hi H. unfold PreExec.fireReadyImmediate, fireReadyImmediate.
  destruct (fold_opt_rel (λ px x, exec_inv cf x ∧ exec_rel px x) (PreExec.fire_immediate pcf providerThrows) (fire_immediate cf providerThrows) (seq 0 tc) px x)
    as (px' & E & _ & H'); [|done|by exists px'].
  intros tid a b [_ Hlt]%elem_of_seq [Hi' Hr]. destruct (fire_immediate_rel a b tid ltac:(lia) Hi' Hr) as (a' & E & Hr'). exists a'. split_and!; [done| |done].
  eapply fire_steps_inv; [done|done|by apply (fire_immediate_steps isP pn cf Hc Hwf providerThrows b tid)|done].
Qed.

(** Priorities are stored in 32 bits. *)
Definition priorities_fit : Prop := ∀ t, t ∈ net_transitions pn → (- 2 ^ 31 ≤ priority t < 2 ^ 31)%Z.
Hypothesis Hprio : priorities_fit.

Lemma to_int32_small z : (- 2 ^ 31 ≤ z < 2 ^ 31)%Z → to_int32 z = z.
Proof.
  intros Hz. unfold to_int32, to_uint32. cbv zeta. destruct (decide (0 ≤ z)%Z).
  - rewrite Z.mod_small by lia. by rewrite (proj2 (Z.leb_gt _ _)) by lia.
  - assert (z mod 2 ^ 32 = z + 2 ^ 32)%Z as -> by (symmetry; apply Z.mod_unique with (-1)%Z; lia). rewrite (proj2 (Z.leb_le _ _)) by lia. lia.
Qed.

Lemma is_ready_rel u pe e now tid : tid < tc → engine_rel u pe e → PreExec.is_ready pcf now pe tid = is_ready cf now e tid.
Proof.
  intros Hlt H. destruct (lt_c_transition cf tid Hlt) as [t Ht]. unfold PreExec.is_ready, is_ready.
  rewrite (elapsed_rel c u pe e now tid H), Ht. destruct (rel_fields c _ _ _ H) as (_ & _ & -> & -> & -> & _).
  change (c_transition c tid = Some t) in Ht. cbn [program pre_config compileFrom earliestMs priorities].
  rewrite (lookup_cell c (λ t, earliest (t_timing t)) 0%Z tid t Ht), (lookup_cell c (λ t, to_int32 (priority t)) 0%Z tid t Ht), to_int32_small; [done|].
  apply Hprio. apply (transition_lookup isP pn cf Hc) in Ht. by eapply list_elem_of_lookup_2.
Qed.

Lemma fire_slots_rel l px x : NoDup (rs_tid <$> l) → (∀ s, s ∈ l → flag (enabledFlags (x_engine x)) (rs_tid s) = true ∧ rs_tid s < tc) →
  exec_inv cf x → exec_rel px x →
  ∃ px' snap, fold_opt (PreExec.fire_slot pcf providerThrows) l (px, PreExec.markingBitmap (PreExec.x_engine px)) = Some (px', snap) ∧
    exec_rel px' (foldl (fire_slot cf providerThrows) (x, markingBitmap (x_engine x)) l).1.
Proof.
  revert px x. induction l as [|s l IH]; intros px x Hd Hl Hi H; [by do 2 eexists|]. rewrite fmap_cons in Hd. apply NoDup_cons in Hd as [Hn Hd].
  destruct (Hl s ltac:(left)) as [Hen Hlt]. destruct (lt_c_transition cf _ Hlt) as [t Ht].
  destruct (fire_slot_keys isP pn cf Hc Hwf providerThrows x s t Hi Ht Hen) as (Es & Hi' & Hfl & _). cbn zeta in *.
  pose proof (rel_fields c _ _ _ (xr_engine _ _ H)) as (Eb & _ & _ & _ & Ef & _).
  assert (∃ px', PreExec.fire_slot pcf providerThrows (px, PreExec.markingBitmap (PreExec.x_engine px)) s = Some (px', PreExec.markingBitmap (PreExec.x_engine px')) ∧
    exec_rel px' (fire_slot cf providerThrows (x, markingBitmap (x_engine x)) s).1) as (px' & E & H').
  { unfold PreExec.fire_slot, fire_slot. rewrite (canEnable_rel isP pn c Hc Hwf tol env scope _ _ _ _ _ (xr_engine _ _ H)), Ef, Eb, Hen. cbn [andb].
    destruct (canEnable cf (rs_tid s) (markingBitmap (x_engine x)) (x_engine x)) eqn:Ec.
    - destruct (contained_rel px x (rs_tid s) t Hi H Ht Hen) as (px' & -> & H').
      + by apply (canEnable_inv isP pn cf Hc Hwf _ _ t _ Ht (xi_engine _ x Hi)).
      + by exists px'.
    - exists (PreExec.on_engine (PreExec.disable (rs_tid s)) px). split; [by rewrite <- Eb|]. by apply disable_exec_rel. }
  cbn [fold_opt foldl]. rewrite E. cbn [mbind option_bind]. destruct (fire_slot cf providerThrows (x, markingBitmap (x_engine x)) s) as [x' snap].
  cbn [fst snd] in *. subst snap. apply IH; [done| |done|done]. intros s' Hs'. rewrite Hfl; [by apply Hl; right|].
  intros E'. apply Hn. rewrite <- E'. by apply list_elem_of_fmap_2.
Qed.

Lemma fireReady_rel now px x : exec_inv cf x → exec_rel px x →
  ∃ px', PreExec.fireReadyTransitions pcf providerThrows now px = Some px' ∧ exec_rel px' (fireReadyTransitions cf providerThrows now x).
Proof.
  intros Hi H. unfold PreExec.fireReadyTransitions, fireReadyTransitions.
  assert (PreNet.allImmediate (program pcf) && PreNet.allSamePriority (program pcf) = allImmediate cf && allSamePriority cf) as ->.
  { cbn [PreNet.allImmediate PreNet.allSamePriority program pre_config compileFrom allImmediate allSamePriority make_config]. by destruct (c_transitions c). }
  destruct (allImmediate cf && allSamePriority cf); [by apply fireReadyImmediate_rel|]. unfold PreExec.fireReadyGeneral, fireReadyGeneral.
  assert (omap (PreExec.is_ready pcf now (PreExec.x_engine px)) (seq 0 (PreNet.transitionCount (program pcf))) =
          omap (is_ready cf now (x_engine x)) (seq 0 (transitionCount (cf_compiled cf)))) as ->.
  { change (PreNet.transitionCount (program pcf)) with tc. change (transitionCount (cf_compiled cf)) with tc.
    assert (∀ l : list nat, (∀ tid, tid ∈ l → tid < tc) → omap (PreExec.is_ready pcf now (PreExec.x_engine px)) l = omap (is_ready cf now (x_engine x)) l) as Hom.
    { induction l as [|tid l IH]; intros Hl; [done|]. cbn [omap list_omap]. rewrite (is_ready_rel _ _ _ now tid (Hl tid ltac:(left)) (xr_engine _ _ H)).
      destruct (is_ready cf now (x_engine x) tid); [f_equal|]; apply IH; intros; apply Hl; by right. }
    apply Hom. intros tid [_ ?]%elem_of_seq. lia. }
  destruct (ready_slots cf now x) as [Hd Hl]. cbn zeta in *. case_bool_decide; [by exists px|].
  destruct (fire_slots_rel _ px x Hd Hl Hi H) as (px' & snap & -> & H'). by exists px'.
Qed.
End PreRun.

(** The relation survives a change of fields that are not cells; the shared fields are read off. *)
Ltac keep_flights := (eapply arrays_rel; [|eassumption]; done).
Ltac shared_fields H := unfold pre_shared, shared in *; cbn in *; injection H as ? ? ? ? ? ? ? ? ? ? ? ? ?; repeat f_equal; done.
