(* ===== verification/PreLand.v ===== *)
(** * The precompiled executor simulates the bitmap executor: deposits and the cycle

    Tokens landing on places, completions and external events in lockstep, then one whole pass of the
    loop. *)
From S2P Require Import Prelude.
From S2P Require Import PreNet.
From S2P Require Import PreExec.
From S2P Require Import PreLoop.
From S2P Require Import Net.
From S2P Require Import Out.
From S2P Require Import Transition.
From S2P Require Import Marking.
From S2P Require Import MatchEngine.
From S2P Require Import PetriNet.
From S2P Require Import Bitmap.
From S2P Require Import CompiledNet.
From S2P Require Import OutputCheck.
From S2P Require Import Context.
From S2P Require Import Executor.
From S2P Require Import ExecScan.
From S2P Require Import ExecFire.
From S2P Require Import ExecLoop.
From S2P Require Import ExecInv.
From S2P Require Import ExecCoherent.
From S2P Require Import ExecFiring.
From S2P Require Import ExecRun.
From S2P Require Import ExecOrder.
From S2P Require Import PreSim.
From S2P Require Import PreFire.

Section PreLand.
Context {V : Type} (isP : nat → bool) (pn : petri_net V) (c : compiled V).
Hypothesis Hc : compile isP pn = Ok c.
Hypothesis Hwf : ∀ tid t, net_transitions pn !! tid = Some t → transition_wf t.
Hypothesis Hprio : priorities_fit pn.
Variables (tol : Z) (env : list jsstr) (scope : jsstr).
Abbreviation cf := (make_config c tol env scope).
Abbreviation pcf := (pre_config c tol env scope).
Abbreviation engine_rel := (PreSim.engine_rel c).
Abbreviation exec_rel := (PreFire.exec_rel c).
Abbreviation flights_rel := (PreFire.flights_rel c).
Abbreviation tc := (transitionCount c).
Abbreviation retained := unknownPlaceTokens.
Implicit Types (pe : PreExec.engine V) (e : engine V) (px : PreExec.exec V) (x : exec V) (t : transition V) (m : marking V).

(** ** One token *)

Lemma cacheAddToken_rel u pe e i tok : engine_rel u pe e → engine_rel u (PreLoop.cacheAddToken pcf i tok pe) (cacheAddToken cf i tok e).
Proof.
  intros H. unfold PreLoop.cacheAddToken, cacheAddToken. cbn [PreExec.placeMatchTargets pre_config placeMatchTargets make_config].
  apply foldl_rel; [|done]. intros target a b _ Hab. unfold PreLoop.cache_target, cache_target.
  destruct (rel_fields c u a b Hab) as (_ & _ & _ & _ & _ & _ & _ & _ & -> & _). change (transition_at (program pcf) target.1) with (c_transition (cf_compiled cf) target.1).
  destruct (default None _); [|done]. destruct (c_transition _ _ ≫= _) as [ms|]; [|done]. destruct (ms_keys ms !! _); [|done]. by apply (set_cache_rel c).
Qed.

Lemma cacheAddToken_apart i tok m e : cacheAddToken cf i tok (set_marking m e) = set_marking m (cacheAddToken cf i tok e) ∧ e_marking (cacheAddToken cf i tok e) = e_marking e.
Proof.
  unfold cacheAddToken. generalize (default [] (placeMatchTargets cf !! i)). intros l. revert e. induction l as [|y l IH]; intros e; [done|]. cbn [foldl].
  assert (cache_target cf tok (set_marking m e) y = set_marking m (cache_target cf tok e y) ∧ e_marking (cache_target cf tok e y) = e_marking e) as [-> E].
  { unfold cache_target. cbn [set_marking matchCaches]. destruct (default None _); [|done]. destruct (c_transition _ _ ≫= _) as [ms|]; [|done]. by destruct (ms_keys ms !! _). }
  rewrite <- E. apply IH.
Qed.

Lemma deposit_known_rel u pe e p i tok : tryPlaceId c p = Some i → engine_rel u pe e →
  engine_rel u (let e := PreLoop.cacheAddToken pcf i tok pe in PreExec.markDirty pcf i (setMarkingBit i (PreExec.set_queue i (queue_at i e ++ [tok]) e)))
    (markDirty cf i (let e := cacheAddToken cf i tok (set_marking (addToken p tok (e_marking e)) e) in set_bitmap (setBit (markingBitmap e) i) e)).
Proof.
  intros Hp H. cbn zeta. apply (markDirty_rel isP pn c Hc). destruct (cacheAddToken_apart i tok (addToken p tok (e_marking e)) e) as [-> Em].
  pose proof (cacheAddToken_rel u pe e i tok H) as Ha. set (a := PreLoop.cacheAddToken pcf i tok pe) in *. set (b := cacheAddToken cf i tok e) in *.
  pose proof (queue_at_rel c u a b p i Ha Hp) as Eq.
  assert (engine_rel u (PreExec.set_queue i (queue_at i a ++ [tok]) a) (set_marking (addToken p tok (e_marking e)) b)) as Hs.
  { apply (change_rel isP pn c Hc tol env scope u a b p i _ _ Ha Hp). intros n. rewrite queue_addToken, Eq, Em. by case_decide; subst. }
  unfold setMarkingBit. destruct (rel_fields c u _ _ Hs) as (-> & _). by apply (set_bitmap_rel c).
Qed.

(** Retaining a token of an undeclared place. *)
Lemma retain_rel pe e p tok tname x : tryPlaceId c p = None → engine_rel (retained pe) pe e → warnedUnknownPlaces x = (retained pe).*1 → x_engine x = e →
  let x' := warnUnknownPlace p tname (set_engine (set_marking (addToken p tok (e_marking e)) e) x) in
  let pe' := retainUnknownToken p tok tname pe in
  engine_rel (retained pe') pe' (x_engine x') ∧ warnedUnknownPlaces x' = (retained pe').*1 ∧
  x' = set_warned (warnedUnknownPlaces x') (warnedMultiplicity x) (set_engine (x_engine x') x).
Proof.
  intros Hp (m & -> & Hq) Hw Hx. cbn zeta. unfold warnUnknownPlace, retainUnknownToken.
  assert (∀ v pe', retained pe' = map_set (place_name p) v (retained pe) → tokenQueues pe' = tokenQueues pe →
    v.2 = retained_queue (retained pe) (place_name p) ++ [tok] → place_name v.1 = place_name p →
    queues_rel c (retained pe') (addToken p tok m) pe') as Hq'.
  { intros v pe' E1 E2 Ev Ek. destruct Hq as [Q1 Q2 Q3 Q4 [Q5 Q6]]. constructor.
    - by rewrite E2.
    - intros p' i' Hp'. unfold queue_at. rewrite E2, queue_addToken. rewrite decide_False; [by apply Q2|]. intros En. unfold tryPlaceId in *. by rewrite En, Hp in Hp'.
    - done.
    - intros n Hn. rewrite queue_addToken. unfold retained_queue. rewrite E1, map_get_set. case_decide as E.
      + subst n. cbn. by rewrite Ev, Q4.
      + by apply Q4.
    - rewrite E1. split; [by apply NoDup_map_set|]. intros [n w] [[-> ->]|Hin]%map_set_entries; [by split|by apply Q6]. }
  cbn [set_engine warnedUnknownPlaces]. rewrite Hw.
  destruct (map_get (place_name p) (retained pe)) as [[q toks]|] eqn:Eg.
  - assert (place_name p ∈ (retained pe).*1) as Hin by (apply map_get_elem in Eg; by apply (list_elem_of_fmap_2 fst) in Eg).
    rewrite decide_True by done. cbn [set_engine x_engine warnedUnknownPlaces unknownPlaceTokens set_unknown]. rewrite map_set_keys, decide_True by done. split_and!; [|done|by destruct x].
    exists (addToken p tok m). split; [done|]. apply (Hq' (q, toks ++ [tok]) (set_unknown (map_set (place_name p) (q, toks ++ [tok]) (retained pe)) pe)); [done|done| |].
    + unfold retained_queue. by rewrite Eg.
    + by apply (proj2 (qr_keys _ _ _ _ Hq) (place_name p, (q, toks))), map_get_elem.
  - assert (place_name p ∉ (retained pe).*1) as Hin by (by apply map_get_None). rewrite decide_False by done.
    cbn [on_engine set_engine x_engine set_warned warnedUnknownPlaces unknownPlaceTokens set_unknown emitEvent]. rewrite map_set_keys, decide_False by done. unfold set_add. rewrite decide_False by done.
    split_and!; [|done|done]. exists (addToken p tok m). split; [done|]. apply (Hq' (p, [tok]) (emitEvent (EvUnknownPlace (place_name p) tname) (set_unknown (map_set (place_name p) (p, [tok]) (retained pe)) pe))); [done|done| |done]. unfold retained_queue. by rewrite Eg.
Qed.

Lemma set_terminal_rel px x : exec_rel px x → exec_rel (PreLoop.set_terminal px) (set_terminal x).
Proof. intros [HA HB HC]. constructor; [done|keep_flights|shared_fields HC]. Qed.

Lemma deposit_rel px x tname p tok : exec_rel px x → exec_rel (PreLoop.deposit pcf tname p tok px) (deposit cf tname p tok x).
Proof.
  intros H. unfold PreLoop.deposit, deposit. cbn zeta.
  match goal with |- exec_rel (PreExec.on_engine _ ?a) (on_engine _ ?b) => assert (exec_rel a b) as H' end.
  { unfold PreLoop.produceToken. change (tryPlaceId (pc_compiled (program pcf)) p) with (tryPlaceId c p). change (tryPlaceId (cf_compiled cf) p) with (tryPlaceId c p).
    destruct (tryPlaceId c p) as [i|] eqn:Hp.
    - change (PreLoop.is_terminal pcf i) with (is_terminal cf i).
      assert (exec_rel (PreExec.on_engine (λ pe, let pe := PreLoop.cacheAddToken pcf i tok pe in PreExec.markDirty pcf i (setMarkingBit i (PreExec.set_queue i (queue_at i pe ++ [tok]) pe))) px)
        (on_engine (λ e, markDirty cf i (let e := cacheAddToken cf i tok e in set_bitmap (setBit (markingBitmap e) i) e))
           (on_engine (λ e, set_marking (addToken p tok (e_marking e)) e) x))) as H1.
      { apply (set_engine_rel c px x _ _ H). apply deposit_known_rel; [done|apply H]. }
      destruct (is_terminal cf i); [by apply set_terminal_rel|done].
    - destruct H as [HA HB HC].
      assert (warnedUnknownPlaces x = (retained (PreExec.x_engine px)).*1) as Hw by (unfold pre_shared, shared in HC; by injection HC).
      destruct (retain_rel _ _ p tok tname x Hp HA Hw eq_refl) as (R1 & R2 & R3). constructor; [done| |].
      + replace (inFlight (warnUnknownPlace p tname (on_engine (λ e, set_marking (addToken p tok (e_marking e)) e) x))) with (inFlight x); [keep_flights|].
        unfold on_engine. by rewrite R3.
      + unfold on_engine in *. rewrite R3. shared_fields HC. }
  apply (on_engine_rel c); [done|]. apply (emit_rel c), H'.
Qed.

(** ** Completions *)

Lemma warnMultiplicity_rel px x tname es claim : exec_rel px x → exec_rel (PreLoop.warnMultiplicity tname es claim px) (warnMultiplicity tname es claim x).
Proof.
  intros H. unfold PreLoop.warnMultiplicity, warnMultiplicity.
  assert (PreExec.warnedMultiplicity px = warnedMultiplicity x) as -> by (destruct H as [_ _ H3]; unfold pre_shared, shared in H3; by injection H3).
  case_decide; [done|]. case_bool_decide; [done|]. apply (on_engine_rel c (PreLoop.set_multi _ px) (set_warned _ _ x)).
  - destruct H as [HA HB HC]. constructor; [done|keep_flights|shared_fields HC].
  - apply (emit_rel c), H.
Qed.

Lemma deposit_outputs_rel px x t fl claim : exec_rel px x →
  exec_rel (PreLoop.deposit_outputs pcf t (harvest fl) claim px) (deposit_outputs cf t fl claim x).
Proof.
  intros H. unfold PreLoop.deposit_outputs, deposit_outputs. apply foldl_rel; [intros; by apply deposit_rel|].
  destruct claim as [claim|]; [|done]. case_bool_decide; [by apply warnMultiplicity_rel|done].
Qed.

Lemma single_place_claim p (produced : list jsstr) : NoDup produced →
  validateOutSpec (OutPlace p) produced = if bool_decide (place_name p ∉ produced) then Err NoBranchClaims else Ok [place_name p].
Proof.
  intros Hd. unfold validateOutSpec. cbn [claimsWithin specNames spec_walk]. case_bool_decide as Hin.
  - rewrite bool_decide_eq_false_2 by tauto. assert (length (filter (λ n, n ∈ set_add (place_name p) []) produced) = 1) as ->; [|done].
    change (set_add (place_name p) []) with [place_name p]. apply Permutation_length with (l' := [place_name p]). apply NoDup_Permutation.
    + by apply NoDup_filter.
    + apply NoDup_singleton.
    + intros n. rewrite list_elem_of_filter, list_elem_of_singleton. split; [tauto|]. by intros ->.
  - by rewrite bool_decide_eq_true_2.
Qed.

Lemma validate_eq tid t fl : c_transition c tid = Some t → PreLoop.validate pcf t tid (harvest fl) (fl_matchedName fl) = validate t fl.
Proof.
  intros Ht. unfold PreLoop.validate, validate. cbn [skipOutputValidation pre_config program compileFrom simpleOutputPlaceId].
  rewrite (lookup_cell c (simple_output c) (-2)%Z tid t Ht). unfold simple_output. destruct (outputSpec t) as [spec|] eqn:Es; [|done].
  destruct spec as [cs|cs|p|ms ch|f to]; try done. cbn [simpleOutputPlace]. rewrite (proj2 (Z.leb_le _ _)) by lia. rewrite Nat2Z.id.
  assert (p ∈ named_places pn) as Hn.
  { unfold named_places. apply elem_of_app. left. apply list_elem_of_bind. exists t. split; [|apply (transition_lookup isP pn cf Hc) in Ht; by eapply list_elem_of_lookup_2].
    rewrite !elem_of_app. do 4 right. rewrite Es. cbn. apply list_elem_of_singleton. done. }
  destruct (tryPlaceId_named isP pn c p Hc Hn) as (i & E & _ & Ei). change (pid_of (placeIndex c) p) with (pid c p) in Ei. rewrite Ei.
  destruct (place_cell isP pn c Hc tol env scope p i E) as (r & Hr & En). unfold place_name_at. rewrite Hr. cbn [from_option]. rewrite En.
  rewrite single_place_claim by apply NoDup_set_of. by case_bool_decide.
Qed.

Lemma flights_delete_get tid i (l : list (nat * flight V)) : map_get i (flights_delete tid l) = if decide (i = tid) then None else map_get i l.
Proof.
  unfold flights_delete. induction l as [|[j w] l IH]; [by case_decide|]. rewrite filter_cons. cbn [fst map_get]. destruct (decide (j ≠ tid)).
  - cbn [map_get]. rewrite IH. repeat case_decide; subst; done.
  - rewrite IH. repeat case_decide; subst; try done; tauto.
Qed.

Lemma flights_delete_length tid (l : list (nat * flight V)) : NoDup l.*1 → tid ∈ l.*1 → S (length (flights_delete tid l)) = length l.
Proof.
  unfold flights_delete. induction l as [|[j w] l IH]; [by intros _ ?%not_elem_of_nil|]. rewrite fmap_cons, NoDup_cons, filter_cons. cbn [fst]. intros [Hn Hd] Hin.
  destruct (decide (j ≠ tid)) as [Hne|He].
  - simpl. f_equal. apply IH; [done|]. apply elem_of_cons in Hin as [?|?]; [by subst|done].
  - simpl. f_equal. assert (j = tid) as -> by (by apply dec_stable). f_equal. apply filter_every. intros y Hy E. apply Hn. rewrite <- E. by apply list_elem_of_fmap_2.
Qed.

Lemma untrack_rel px fl tid : tid < tc → NoDup fl.*1 → tid ∈ fl.*1 → flights_rel px fl → flights_rel (untrack tid px) (flights_delete tid fl).
Proof.
  intros Hlt Hd Hin [(L1 & L2 & L3 & L4 & L5) H2 H3 H4]. constructor.
  - cbn. by rewrite !length_insert.
  - cbn. rewrite H2. pose proof (flights_delete_length tid fl Hd Hin). lia.
  - intros i Hi. rewrite flights_delete_get. case_decide as E.
    + subst i. cbn. by rewrite !list_lookup_insert_eq by lia.
    + eapply cells_other; [..|by apply H3]; cbn; by rewrite ?list_lookup_insert_ne by done.
  - intros i t' Ht' Hm. cbn. destruct (decide (i = tid)) as [->|]; [by rewrite list_lookup_insert_eq by lia|]. rewrite list_lookup_insert_ne by done. by eapply H4.
Qed.

Lemma fail_completion_rel px x t tid : exec_rel px x → exec_rel (PreLoop.fail_completion t tid px) (fail_completion t tid x).
Proof. intros H. apply (on_engine_rel c); [done|]. apply (markTransitionDirty_rel c), (emit_rel c), H. Qed.

Lemma complete_flight_rel px x t tid fl : exec_inv cf x → exec_rel px x → c_transition c tid = Some t → map_get tid (inFlight x) = Some fl →
  exec_rel (PreLoop.complete_flight pcf t tid (fl_context fl) px) (complete_flight cf t tid fl x).
Proof.
  intros Hi H Ht Hg. assert (tid ∈ (inFlight x).*1) as Hin by (apply map_get_elem in Hg; by apply (list_elem_of_fmap_2 fst) in Hg).
  assert (tid < tc) as Hlt by (by apply (flight_lt cf x tid)). pose proof (fl_cells _ _ _ (xr_flights _ _ _ H) tid Hlt) as Hcell. rewrite Hg in Hcell.
  destruct Hcell as (_ & _ & _ & Em & Ee). unfold PreLoop.complete_flight, complete_flight. rewrite Em, Ee. cbn [default from_option]. unfold id. cbn zeta.
  assert (exec_rel (PreExec.on_engine (PreExec.set_inFlight tid false) (untrack tid px)) (on_engine (set_inFlight tid false) (set_flights (flights_delete tid (inFlight x)) x))) as H1.
  { apply (on_engine_rel c); [|apply (set_inFlight_rel c), H]. destruct H as [HA HB HC]. constructor; [done| |shared_fields HC].
    apply untrack_rel; [done|apply (xi_keys _ _ _ Hi)|done|done]. }
  destruct (truthy (fl_error fl)); [by apply fail_completion_rel|]. fold (harvest fl). rewrite (validate_eq tid t fl Ht).
  destruct (validate t fl) as [claim|err].
  - apply (set_unsettled_rel c true) in H1. apply (deposit_outputs_rel _ _ t fl claim) in H1.
    apply (on_engine_rel c _ _ _ (emit (EvTransitionCompleted (t_name t) (snd <$> harvest fl)))); [|apply (emit_rel c)]; cbn [PreExec.set_unsettled set_unsettled];
      [|apply (markTransitionDirty_rel c), H1].
    apply set_unsettled_rel. apply (on_engine_rel c); [done|]. apply (markTransitionDirty_rel c), H1.
  - apply fail_completion_rel. by apply set_unsettled_rel.
Qed.

Lemma terminal_eq px x : exec_rel px x → PreExec.terminalReached px = terminalReached x.
Proof. intros [_ _ H3]. unfold pre_shared, shared in H3. by injection H3. Qed.

Lemma process_completions_rel q px x : exec_inv cf x → exec_rel px x → exec_rel (PreLoop.process_completions pcf q px) (process_completions cf q x).
Proof.
  revert px x. induction q as [|tid q IH]; intros px x Hi H; [done|]. cbn [PreLoop.process_completions process_completions].
  change (transition_at (program pcf) tid) with (c_transition c tid). change (c_transition (cf_compiled cf) tid) with (c_transition c tid).
  destruct (c_transition c tid) as [t|] eqn:Ht.
  - assert (tid < tc) as Hlt by (by eapply (c_transition_lt cf)). pose proof (fl_cells _ _ _ (xr_flights _ _ _ H) tid Hlt) as Hcell.
    destruct (map_get tid (inFlight x)) as [fl|] eqn:Hg.
    + pose proof Hcell as (_ & -> & _ & _ & ->). cbn [default from_option]. unfold id. cbn zeta.
      pose proof (complete_flight_rel px x t tid fl Hi H Ht Hg) as H'. rewrite (terminal_eq _ _ H'). case_bool; [done|]. apply IH; [|done].
      by apply (complete_flight_inv isP pn cf Hc Hwf eq_refl (λ _ _, false)).
    + destruct Hcell as [_ ->]. by apply IH.
  - destruct (default None (inFlightContexts px !! tid)), (map_get tid (inFlight x)); by apply IH.
Qed.

(** The shared fields, read on the side of the bitmap executor. *)
Lemma shared_eq px x : exec_rel px x →
  PreExec.completionQueue px = completionQueue x ∧ PreExec.externalQueue px = externalQueue x ∧ PreExec.admissions px = admissions x ∧
  PreExec.freshNameCounter px = freshNameCounter x ∧ PreExec.wakeUpPending px = wakeUpPending x ∧ PreExec.draining px = draining x ∧
  PreExec.closed px = closed x ∧ PreExec.terminalReached px = terminalReached x ∧ PreExec.unsettled px = unsettled x ∧
  PreExec.running px = running x ∧ PreExec.reason px = reason x.
Proof. intros [_ _ H3]. unfold pre_shared, shared in H3. injection H3 as ? ? ? ? ? ? ? ? ? ? ? ? ?. by split_and!. Qed.

Ltac read_shared H :=
  let E1 := fresh in let E2 := fresh in let E3 := fresh in let E4 := fresh in let E5 := fresh in let E6 := fresh in
  let E7 := fresh in let E8 := fresh in let E9 := fresh in let E10 := fresh in let E11 := fresh in
  destruct (shared_eq _ _ H) as (E1 & E2 & E3 & E4 & E5 & E6 & E7 & E8 & E9 & E10 & E11);
  rewrite ?E1, ?E2, ?E3, ?E4, ?E5, ?E6, ?E7, ?E8, ?E9, ?E10, ?E11; clear E1 E2 E3 E4 E5 E6 E7 E8 E9 E10 E11.

Lemma set_completions_rel px x q : exec_rel px x → exec_rel (PreLoop.set_completions q px) (set_completions q x).
Proof. intros [HA HB HC]. constructor; [done|keep_flights|shared_fields HC]. Qed.
Lemma set_external_rel px x q adm : exec_rel px x → exec_rel (PreLoop.set_external q adm px) (set_external q adm x).
Proof. intros [HA HB HC]. constructor; [done|keep_flights|shared_fields HC]. Qed.
Lemma set_host_rel px x dr cl run r : exec_rel px x → exec_rel (PreLoop.set_host dr cl run r px) (set_host dr cl run r x).
Proof. intros [HA HB HC]. constructor; [done|keep_flights|shared_fields HC]. Qed.
Lemma set_wake_rel px x b : exec_rel px x → exec_rel (PreLoop.set_wake b px) (set_wake b x).
Proof. intros [HA HB HC]. constructor; [done|keep_flights|shared_fields HC]. Qed.

Lemma processCompleted_rel px x : exec_inv cf x → exec_rel px x → exec_rel (PreLoop.processCompletedTransitions pcf px) (processCompletedTransitions cf x).
Proof.
  intros Hi H. unfold PreLoop.processCompletedTransitions, processCompletedTransitions. read_shared H. case_bool_decide; [done|].
  apply set_completions_rel. by apply process_completions_rel.
Qed.

(** ** External events *)

Lemma process_external_rel q px x : exec_rel px x → exec_rel (PreLoop.process_external pcf q px) (process_external cf q x).
Proof.
  revert px x. induction q as [|ev q IH]; intros px x H; [done|]. cbn [PreLoop.process_external process_external]. cbn zeta.
  pose proof (deposit_rel px x [] (ev_place ev) (ev_token ev) H) as H1.
  assert (exec_rel (PreLoop.set_external (tail (PreExec.externalQueue (PreLoop.deposit pcf [] (ev_place ev) (ev_token ev) px)))
    (PreExec.admissions (PreLoop.deposit pcf [] (ev_place ev) (ev_token ev) px) ++ [(ev_id ev, true)]) (PreLoop.deposit pcf [] (ev_place ev) (ev_token ev) px))
    (set_external (tail (externalQueue (deposit cf [] (ev_place ev) (ev_token ev) x)))
    (admissions (deposit cf [] (ev_place ev) (ev_token ev) x) ++ [(ev_id ev, true)]) (deposit cf [] (ev_place ev) (ev_token ev) x))) as H2.
  { read_shared H1. by apply set_external_rel. }
  rewrite (terminal_eq _ _ H2). case_bool; [done|]. by apply IH.
Qed.

Lemma processExternal_rel px x : exec_rel px x → exec_rel (PreLoop.processExternalEvents pcf px) (processExternalEvents cf x).
Proof.
  intros H. unfold PreLoop.processExternalEvents, processExternalEvents. read_shared H. case_bool_decide; [done|]. case_bool; [done|]. by apply process_external_rel.
Qed.

(** ** The cycle *)

Lemma count_eq px x : exec_rel px x → (inFlightCount px =? 0)%Z = bool_decide (length (inFlight x) = 0) ∧ (0 <? inFlightCount px)%Z = bool_decide (0 < length (inFlight x)).
Proof.
  intros H. rewrite (fl_number _ _ _ (xr_flights _ _ _ H)). split.
  - case_bool_decide; [apply Z.eqb_eq|apply Z.eqb_neq]; lia.
  - case_bool_decide; [apply Z.ltb_lt|apply Z.ltb_ge]; lia.
Qed.

Lemma shouldTerminate_eq px x : exec_rel px x → PreLoop.shouldTerminate pcf px = shouldTerminate cf x.
Proof.
  intros H. unfold PreLoop.shouldTerminate, shouldTerminate. read_shared H. destruct (count_eq px x H) as [-> _].
  destruct (rel_fields c _ _ _ (xr_engine _ _ _ H)) as (_ & _ & _ & _ & _ & -> & _). done.
Qed.

Variable providerThrows : jsstr → list (token V) → bool.

Lemma cycle_rel now now' px x : exec_inv cf x → exec_rel px x →
  ∃ r, PreLoop.cycle pcf providerThrows now now' px = Some r ∧ exec_rel r.1 (cycle cf providerThrows now now' x).1 ∧
       r.2 = (cycle cf providerThrows now now' x).2.
Proof.
  intros Hi H. unfold PreLoop.cycle, cycle. read_shared H. case_bool; [by eexists|]. cbn zeta.
  pose proof (processCompleted_rel px x Hi H) as H1. pose proof (processCompleted_inv isP pn cf Hc Hwf eq_refl providerThrows x Hi) as Hi1.
  set (px1 := PreLoop.processCompletedTransitions pcf px) in *. set (x1 := processCompletedTransitions cf x) in *. read_shared H1. case_bool; [by eexists|].
  pose proof (processExternal_rel px1 x1 H1) as H2. pose proof (processExternal_inv isP pn cf Hc Hwf eq_refl providerThrows x1 Hi1) as Hi2.
  set (px2 := PreLoop.processExternalEvents pcf px1) in *. set (x2 := processExternalEvents cf x1) in *. read_shared H2. case_bool; [by eexists|].
  destruct (scan_inv_exec isP pn cf Hc Hwf eq_refl now now' x2 Hi2) as (Hi3 & _). cbn zeta in Hi3.
  assert (exec_rel (PreExec.on_engine (PreExec.updateDirtyTransitions pcf now) px2) (on_engine (updateDirtyTransitions cf now) x2)) as H3.
  { apply (on_engine_rel c); [done|]. apply (updateDirty_rel isP pn c Hc Hwf), H2. }
  assert (exec_rel (if anyDeadlines (program pcf) then PreExec.on_engine (PreExec.enforceDeadlines pcf now') (PreExec.on_engine (PreExec.updateDirtyTransitions pcf now) px2)
                    else PreExec.on_engine (PreExec.updateDirtyTransitions pcf now) px2)
    (if hasAnyDeadlines cf then on_engine (enforceDeadlines cf now') (on_engine (updateDirtyTransitions cf now) x2) else on_engine (updateDirtyTransitions cf now) x2)) as H4.
  { change (anyDeadlines (program pcf)) with (hasAnyDeadlines cf). case_bool; [|done]. apply (on_engine_rel c); [done|].
    apply enforceDeadlines_rel, H3. }
  set (px4 := if anyDeadlines _ then _ else _) in *. set (x4 := if hasAnyDeadlines _ then _ else _) in *.
  rewrite (shouldTerminate_eq px4 x4 H4). case_bool; [by eexists|].
  destruct (fireReady_rel isP pn c Hc Hwf tol env scope providerThrows Hprio now' px4 x4 Hi3 H4) as (px5 & -> & H5). cbn [mbind option_bind].
  eexists. split_and!; [done|done|]. cbn [snd]. unfold PreExec.hasDirtyBits, hasDirtyBits.
  by destruct (rel_fields c _ _ _ (xr_engine _ _ _ H5)) as (_ & -> & _).
Qed.

Lemma finish_rel px x : exec_rel px x → exec_rel (PreLoop.finish px) (finish x).
Proof.
  intros H. unfold PreLoop.finish, finish, PreLoop.drainPendingExternalEvents, drainPendingExternalEvents.
  assert (exec_rel (PreLoop.set_host (PreExec.draining px) (PreExec.closed px) false (PreExec.reason px) px) (set_host (draining x) (closed x) false (reason x) x)) as H1.
  { read_shared H. by apply set_host_rel. }
  set (px1 := PreLoop.set_host _ _ _ _ px) in *. set (x1 := set_host _ _ _ _ x) in *.
  assert (exec_rel (PreLoop.set_external [] (PreExec.admissions px1 ++ ((λ ev, (ev_id ev, false)) <$> PreExec.externalQueue px1)) px1)
    (set_external [] (admissions x1 ++ ((λ ev, (ev_id ev, false)) <$> externalQueue x1)) x1)) as H2.
  { read_shared H1. by apply set_external_rel. }
  cbn zeta. set (px2 := PreLoop.set_external _ _ px1) in *. set (x2 := set_external _ _ x1) in *. read_shared H2. by apply set_host_rel.
Qed.
End PreLand.
