(* ===== verification/PreSys.v ===== *)
(** * The precompiled executor simulates the bitmap executor: the host interface

    The wait, the calls a host makes and the systems in lockstep: related systems make the same steps. *)
From S2P Require Import Prelude.
From S2P Require Import PreNet.
From S2P Require Import PreExec.
From S2P Require Import PreLoop.
From S2P Require Import Net.
From S2P Require Import Out.
From S2P Require Import Transition.
From S2P Require Import Marking.
From S2P Require Import MatchEngine.
From S2P Require Import PetriNet.
From S2P Require Import Bitmap.
From S2P Require Import CompiledNet.
From S2P Require Import OutputCheck.
From S2P Require Import Context.
From S2P Require Import Executor.
From S2P Require Import ExecScan.
From S2P Require Import ExecFire.
From S2P Require Import ExecLoop.
From S2P Require Import ExecInv.
From S2P Require Import ExecCoherent.
From S2P Require Import ExecFiring.
From S2P Require Import ExecRun.
From S2P Require Import ExecOrder.
From S2P Require Import PreSim.
From S2P Require Import PreFire.
From S2P Require Import PreLand.
From S2P Require Import ExecInit.
Section PreSys.
Context {V : Type} (isP : nat → bool) (pn : petri_net V) (c : compiled V).
Hypothesis Hc : compile isP pn = Ok c.
Hypothesis Hwf : ∀ tid t, net_transitions pn !! tid = Some t → transition_wf t.
Variables (tol : Z) (env : list jsstr) (scope : jsstr).
Abbreviation cf := (make_config c tol env scope).
Abbreviation pcf := (pre_config c tol env scope).
Abbreviation exec_rel := (PreFire.exec_rel c).
Abbreviation flights_rel := (PreFire.flights_rel c).
Abbreviation tc := (transitionCount c).
Implicit Types (pe : PreExec.engine V) (e : engine V) (px : PreExec.exec V) (x : exec V) (t : transition V) (ps : PreLoop.sys V) (s : @sys V).

(** ** The wait *)

Lemma millis_loop_eq now pe e tids acc : (∀ tid, tid ∈ tids → tid < tc) → (∃ u, PreSim.engine_rel c u pe e) →
  PreLoop.millis_loop pcf now pe tids acc = millis_loop cf now e tids acc.
Proof.
  intros Hlt (u & m & -> & _). revert acc. induction tids as [|tid tids IH]; intros acc; [done|].
  specialize (IH (λ i Hi, Hlt i (list_elem_of_further _ _ _ Hi))). destruct (lt_c_transition cf tid) as [t Ht]; [apply Hlt; by left|].
  cbn [PreLoop.millis_loop millis_loop]. rewrite Ht. change (c_transition c tid = Some t) in Ht.
  cbn [program pre_config compileFrom earliestMs latestMs PreNet.hasDeadline].
  rewrite (lookup_cell c (λ t, earliest (t_timing t)) 0%Z tid t Ht), (lookup_cell c (λ t, latest (t_timing t)) 0%Z tid t Ht).
  assert (flag ((λ t, hasDeadline (t_timing t)) <$> c_transitions c) tid = hasDeadline (t_timing t)) as ->.
  { unfold flag. rewrite list_lookup_fmap. unfold c_transition in Ht. by rewrite Ht. }
  change (PreExec.elapsed now tid pe) with (elapsed now tid (engine_of m pe)). cbn [engine_of enabledFlags].
  destruct (negb _); [done|]. destruct (elapsed _ _ _); [|done]. rewrite !IH. done.
Qed.

(** Two waits race over the same flights. *)
Definition wait_rel (pw w : wait) : Prop :=
  w_wakeUp pw = w_wakeUp w ∧ w_timer pw = w_timer w ∧ ∀ tid, tid ∈ w_flights pw ↔ tid ∈ w_flights w.

Definition point_rel (pp p : point) : Prop :=
  match pp, p with
  | Parked pw, Parked w | Resumed pw, Resumed w => wait_rel pw w
  | AtCycle, AtCycle | AtWait, AtWait | AtFlush, AtFlush | Finished, Finished => True
  | _, _ => False
  end.

Record sys_rel ps s : Prop := {
  sr_exec : exec_rel (PreLoop.s_exec ps) (s_exec s);
  sr_point : point_rel (PreLoop.s_point ps) (s_point s)
}.

Ltac read_shared H :=
  let E1 := fresh in let E2 := fresh in let E3 := fresh in let E4 := fresh in let E5 := fresh in let E6 := fresh in
  let E7 := fresh in let E8 := fresh in let E9 := fresh in let E10 := fresh in let E11 := fresh in
  destruct (shared_eq c _ _ H) as (E1 & E2 & E3 & E4 & E5 & E6 & E7 & E8 & E9 & E10 & E11);
  rewrite ?E1, ?E2, ?E3, ?E4, ?E5, ?E6, ?E7, ?E8, ?E9, ?E10, ?E11; clear E1 E2 E3 E4 E5 E6 E7 E8 E9 E10 E11.

Lemma work_queued_eq px x : exec_rel px x → PreLoop.work_queued px = work_queued x.
Proof. intros H. unfold PreLoop.work_queued, work_queued. by read_shared H. Qed.

Lemma race_promises_spec px x tid : exec_inv cf x → exec_rel px x → tid ∈ race_promises pcf px ↔ tid ∈ (inFlight x).*1.
Proof.
  intros Hi H. unfold race_promises. destruct (count_eq c px x H) as [_ ->]. pose proof (xr_flights _ _ _ H) as Hf.
  assert (tid ∈ (inFlight x).*1 → tid < tc) as Hlt by apply (flight_lt cf x tid Hi).
  assert (tid < tc → tid ∈ (inFlight x).*1 ↔ default None (inFlightPromises px !! tid) ≠ None) as Hk.
  { intros Hl. pose proof (fl_cells _ _ _ Hf tid Hl) as Hcell. destruct (map_get tid (inFlight x)) as [fl|] eqn:E.
    - destruct Hcell as (-> & _). split; [done|]. intros _. apply map_get_elem in E. by apply (list_elem_of_fmap_2 fst) in E.
    - destruct Hcell as [-> _]. split; [|done]. by intros ?%map_get_None. }
  case_bool_decide as El.
  - rewrite list_elem_of_filter, elem_of_seq. change (PreNet.transitionCount (program pcf)) with tc. split; [intros [? ?]; apply Hk; [lia|done]|].
    intros Hin. pose proof (Hlt Hin). split; [by apply Hk|lia].
  - destruct (inFlight x); [done|]. simpl in El. lia.
Qed.

Lemma timer_eq now px x : exec_rel px x →
  PreLoop.millisUntilNextTimedTransition pcf now (PreExec.x_engine px) = millisUntilNextTimedTransition cf now (x_engine x).
Proof.
  intros H. unfold PreLoop.millisUntilNextTimedTransition, millisUntilNextTimedTransition. apply millis_loop_eq; [|eexists; apply H].
  intros tid Ht%elem_of_seq. cbn in Ht. lia.
Qed.

Definition after_rel (r1 : PreExec.exec V * option wait) (r2 : exec V * option wait) : Prop := sys_rel (PreLoop.after_park r1) (after_park r2).

Lemma length_zero {A} (l : list A) : bool_decide (length l = 0) = negb (bool_decide (0 < length l)).
Proof. repeat case_bool_decide; lia || done. Qed.

Lemma same_length_zero (l l' : list nat) : (∀ i, i ∈ l ↔ i ∈ l') → bool_decide (0 < length l) = bool_decide (0 < length l').
Proof.
  intros H. apply bool_decide_ext. destruct l as [|a l], l' as [|b l']; simpl; try lia.
  - specialize (H b). assert (b ∈ []) as ?%not_elem_of_nil; [apply H; left|done].
  - specialize (H a). assert (a ∈ []) as ?%not_elem_of_nil; [apply H; left|done].
Qed.

Lemma park_rel now px x : exec_inv cf x → exec_rel px x → after_rel (PreLoop.park pcf now px) (park cf now x).
Proof.
  intros Hi H. unfold PreLoop.park, park. rewrite (work_queued_eq _ _ H), (timer_eq now _ _ H). destruct (count_eq c px x H) as [-> _]. read_shared H.
  destruct (wakeUpPending x); [split; [by apply set_wake_rel|done]|]. destruct (work_queued x); [by split|].
  pose proof (λ tid, race_promises_spec px x tid Hi H) as Hr. set (flights := race_promises pcf px) in *. cbn zeta. rewrite (length_zero flights).
  assert (bool_decide (0 < length flights) = bool_decide (0 < length (inFlight x))) as El.
  { rewrite (same_length_zero _ _ Hr). by rewrite length_fmap. }
  rewrite El, (length_zero (inFlight x)). destruct (closed x); cbn [andb].
  - destruct (bool_decide (0 < length (inFlight x))); cbn [negb]; [|by split]. by split.
  - destruct (bool_decide (millisUntilNextTimedTransition cf now (x_engine x) = Fin 0) && _); by split.
Qed.

(** ** The host's calls *)

Lemma wakeUp_rel ps s : sys_rel ps s → sys_rel (PreLoop.wakeUp ps) (wakeUp s).
Proof.
  destruct ps as [px pp], s as [x p]. intros [Hx Hp]. cbn [PreLoop.s_exec s_exec PreLoop.s_point s_point] in *. unfold PreLoop.wakeUp, wakeUp.
  cbn [PreLoop.s_exec s_exec PreLoop.s_point s_point]. pose proof (set_wake_rel c _ _ true Hx).
  destruct pp as [| | |pw|pw|], p as [| | |w|w|]; try done; try (by split);
    destruct Hp as (E & Hp); rewrite E; destruct (w_wakeUp w) eqn:Ew; (split; [done|by repeat split; rewrite ?Ew; try apply Hp]).
Qed.

Lemma inject_rel id p tok ps s : sys_rel ps s →
  match PreLoop.inject pcf id p tok ps, inject cf id p tok s with
  | Ok ps', Ok s' => sys_rel ps' s'
  | Err a, Err b => a = b
  | _, _ => False
  end.
Proof.
  intros [Hx Hp]. unfold PreLoop.inject, inject. cbn [PreExec.environmentPlaces pre_config environmentPlaces make_config]. case_bool_decide; [done|].
  read_shared Hx. case_bool.
  - split; [by apply set_external_rel|done].
  - apply wakeUp_rel. split; [by apply set_external_rel|done].
Qed.

Lemma host_drain_rel ps s : sys_rel ps s → sys_rel (PreLoop.drain ps) (drain s).
Proof. intros [Hx Hp]. unfold PreLoop.drain, drain. read_shared Hx. apply wakeUp_rel. split; [by apply set_host_rel|done]. Qed.
Lemma close_rel ps s : sys_rel ps s → sys_rel (PreLoop.close ps) (close s).
Proof. intros [Hx Hp]. unfold PreLoop.close, close. read_shared Hx. apply wakeUp_rel. split; [by apply set_host_rel|done]. Qed.
Lemma budget_rel b ps s : sys_rel ps s → sys_rel (PreLoop.budgetExpired b ps) (budgetExpired b s).
Proof.
  intros [Hx Hp]. unfold PreLoop.budgetExpired, budgetExpired. read_shared Hx. cbn zeta.
  destruct b; [apply close_rel|]; (split; [by apply set_host_rel|done]).
Qed.

(** ** Flights *)

Lemma flight_get_set {A} (k : nat) (v w : A) l i : map_get k l = Some w → map_get i (map_set k v l) = if decide (i = k) then Some v else map_get i l.
Proof.
  induction l as [|[j a] l IH]; [done|]. cbn [map_get map_set]. destruct (decide (k = j)) as [->|Hne]; intros E; cbn [map_get].
  - repeat case_decide; congruence.
  - rewrite (IH E). repeat case_decide; congruence.
Qed.

Lemma flight_set_length {A} (k : nat) (v w : A) l : map_get k l = Some w → length (map_set k v l) = length l.
Proof.
  induction l as [|[j a] l IH]; [done|]. cbn [map_get map_set]. destruct (decide (k = j)); intros E; simpl; [done|]. by rewrite (IH E).
Qed.

(** A flight's cells change. *)
Lemma flights_update px px' fl tid f0 f' : map_get tid fl = Some f0 → tid < tc → cells px' tid (Some f') →
  (∀ i, i ≠ tid → ∀ o, cells px i o → cells px' i o) → inFlightMatched px' = inFlightMatched px → inFlightConsumed px' = inFlightConsumed px →
  length (inFlightPromises px') = length (inFlightPromises px) → length (inFlightContexts px') = length (inFlightContexts px) →
  length (inFlightErrors px') = length (inFlightErrors px) → inFlightCount px' = inFlightCount px →
  flights_rel px fl → flights_rel px' (map_set tid f' fl).
Proof.
  intros Hg Hlt Hcell Ho Em Ec E1 E2 E3 E4 [(L1 & L2 & L3 & L4 & L5) H2 H3 H4]. constructor.
  - rewrite Em, Ec. split_and!; congruence.
  - rewrite E4, H2. by rewrite (flight_set_length _ _ _ _ Hg).
  - intros i Hi. rewrite (flight_get_set _ _ _ _ _ Hg). case_decide; [by subst|]. apply Ho; [done|]. by apply H3.
  - intros i t. rewrite Em. apply H4.
Qed.

Lemma flight_cells px x tid fl : exec_inv cf x → exec_rel px x → map_get tid (inFlight x) = Some fl → tid < tc ∧ cells px tid (Some fl).
Proof.
  intros Hi H Hg. assert (tid < tc) as Hlt.
  { apply (flight_lt cf x tid Hi). apply map_get_elem in Hg. by apply (list_elem_of_fmap_2 fst) in Hg. }
  split; [done|]. pose proof (fl_cells _ _ _ (xr_flights _ _ _ H) tid Hlt) as Hcell. by rewrite Hg in Hcell.
Qed.

Lemma no_flight px x tid : exec_rel px x → map_get tid (inFlight x) = None →
  default None (inFlightPromises px !! tid) = None ∧ default None (inFlightContexts px !! tid) = None.
Proof.
  intros H Hg. destruct (decide (tid < tc)) as [Hlt|Hge].
  - pose proof (fl_cells _ _ _ (xr_flights _ _ _ H) tid Hlt) as Hcell. rewrite Hg in Hcell. by destruct Hcell as [-> ->].
  - destruct (fl_lengths _ _ _ (xr_flights _ _ _ H)) as (L1 & L2 & _). by rewrite !lookup_ge_None_2 by lia.
Qed.

Lemma set_settled_rel px x tid fl err : exec_inv cf x → exec_rel px x → map_get tid (inFlight x) = Some fl →
  exec_rel (set_settled tid err px)
    (set_completions (completionQueue x ++ [tid])
       (set_flight tid (Flight (fl_context fl) (fl_consumed fl) (fl_matchedName fl) err true) x)).
Proof.
  intros Hi H Hg. destruct (flight_cells px x tid fl Hi H Hg) as [Hlt (C1 & C2 & C3 & C4 & C5)].
  destruct (fl_lengths _ _ _ (xr_flights _ _ _ H)) as (L1 & L2 & L3 & L4 & L5). pose proof H as [HA HB HC]. constructor.
  - done.
  - apply (flights_update px _ _ _ fl); try done; cbn [set_settled inFlightPromises inFlightErrors]; rewrite ?length_insert; [|intros i Hne o|done..].
    + cbn. rewrite !list_lookup_insert_eq by lia. done.
    + apply cells_other; cbn; by rewrite ?list_lookup_insert_ne by done.
  - destruct (shared_eq c _ _ H) as (E & _). revert HC. unfold pre_shared, shared. cbn. rewrite E. intros HC. injection HC as ? ? ? ? ? ? ? ? ? ? ? ?. repeat f_equal; done.
Qed.

Lemma set_context_rel px x tid fl cx : exec_inv cf x → exec_rel px x → map_get tid (inFlight x) = Some fl →
  exec_rel (set_context tid cx px) (set_flight tid (with_context cx fl) x).
Proof.
  intros Hi H Hg. destruct (flight_cells px x tid fl Hi H Hg) as [Hlt (C1 & C2 & C3 & C4 & C5)].
  destruct (fl_lengths _ _ _ (xr_flights _ _ _ H)) as (L1 & L2 & L3 & L4 & L5). pose proof H as [HA HB HC]. constructor.
  - done.
  - apply (flights_update px _ _ _ fl); try done; cbn [set_context inFlightContexts]; rewrite ?length_insert; [|intros i Hne o|done..].
    + cbn. rewrite !list_lookup_insert_eq by lia. done.
    + apply cells_other; cbn; by rewrite ?list_lookup_insert_ne by done.
  - done.
Qed.

Lemma settle_rel tid err ps s : sys_inv cf s → sys_rel ps s → sys_rel (PreLoop.settle tid err ps) (settle tid err s).
Proof.
  intros Hi [Hx Hp]. unfold PreLoop.settle, settle. destruct (map_get tid (inFlight (s_exec s))) as [fl|] eqn:Hg.
  - destruct (flight_cells _ _ tid fl Hi Hx Hg) as [Hlt (C1 & _)]. rewrite C1. cbn [default from_option]. unfold id.
    destruct (fl_settled fl); [by split|]. cbn zeta.
    pose proof (set_settled_rel _ _ tid fl err Hi Hx Hg) as Hs.
    assert (sys_rel (PreLoop.wakeUp (PreLoop.Sys (set_settled tid err (PreLoop.s_exec ps)) (PreLoop.s_point ps)))
      (wakeUp (Sys (set_completions (completionQueue (s_exec s) ++ [tid])
         (set_flight tid (Flight (fl_context fl) (fl_consumed fl) (fl_matchedName fl) err true) (s_exec s))) (s_point s)))) as Hw.
    { by apply wakeUp_rel. }
    set (ps1 := PreLoop.wakeUp _) in *. set (s1 := wakeUp _) in *. pose proof Hw as [Hx1 Hp1].
    destruct (PreLoop.s_point ps1) as [| | |pw|pw|], (s_point s1) as [| | |w|w|]; try done.
    destruct Hp1 as (E1 & E2 & E3). destruct (decide (tid ∈ w_flights w)) as [Hin|Hin].
    + rewrite decide_True by (by apply E3). by split.
    + rewrite decide_False by (by rewrite E3). done.
  - destruct (no_flight _ _ tid Hx Hg) as [-> _]. by split.
Qed.

Lemma actionTimedOut_rel tid now ps s : (now ≤ MAX_SAFE_INTEGER)%Z → sys_inv cf s → sys_rel ps s →
  sys_rel (PreLoop.actionTimedOut pcf tid now ps) (actionTimedOut cf tid now s).
Proof.
  intros Hn Hi [Hx Hp]. unfold PreLoop.actionTimedOut, actionTimedOut.
  change (transition_at (program pcf) tid) with (c_transition c tid). change (c_transition (cf_compiled cf) tid) with (c_transition c tid).
  destruct (map_get tid (inFlight (s_exec s))) as [fl|] eqn:Hg.
  2:{ destruct (no_flight _ _ tid Hx Hg) as [-> _]. by split. }
  destruct (flight_cells _ _ tid fl Hi Hx Hg) as [Hlt (C1 & C2 & _)]. rewrite C1, C2. cbn [default from_option]. unfold id.
  destruct (lt_c_transition cf tid Hlt) as [t Ht]. change (c_transition c tid = Some t) in Ht. rewrite Ht.
  destruct (fl_settled fl) eqn:Es; [destruct (actionTimeout t) as [[]|]; by split|]. destruct (actionTimeout t) as [[ms child]|]; [|by split]. cbn zeta.
  pose proof (safe_detach _ (flight_safe cf tid fl _ Hi Hg)) as Hd.
  destruct (produceTimeoutOutput _ _ _) as [cx'|err] eqn:Ep; apply settle_rel.
  - apply exec_upto_emit. apply (set_flight_inv cf tid fl); [done|by eapply safe_produce|done].
  - split; [|done]. cbn [PreLoop.s_exec s_exec]. apply (on_engine_rel c); [by apply set_context_rel|]. apply (emit_rel c), Hx.
  - by apply (set_flight_inv cf tid fl).
  - split; [by apply set_context_rel|done].
Qed.

Lemma actionCall_rel tid call ps s : sys_inv cf s → sys_rel ps s → sys_rel (PreLoop.actionCall tid call ps) (actionCall tid call s).
Proof.
  intros Hi [Hx Hp]. unfold PreLoop.actionCall, actionCall. destruct (map_get tid (inFlight (s_exec s))) as [fl|] eqn:Hg.
  - destruct (flight_cells _ _ tid fl Hi Hx Hg) as [_ (_ & -> & _)]. split; [by apply set_context_rel|done].
  - destruct (no_flight _ _ tid Hx Hg) as [_ ->]. by split.
Qed.

Lemma freshName_rel tid px x : exec_rel px x →
  (PreLoop.freshName pcf tid px).1 = (freshName cf tid x).1 ∧ exec_rel (PreLoop.freshName pcf tid px).2 (freshName cf tid x).2.
Proof.
  intros H. unfold PreLoop.freshName, freshName. read_shared H. split; [done|]. destruct H as [HA HB HC].
  constructor; [done|keep_flights|shared_fields HC].
Qed.

(** ** Lockstep *)

Variable providerThrows : jsstr → list (token V) → bool.
Hypothesis Hprio : priorities_fit pn.

Lemma after_cycle_rel pr r : exec_rel pr.1 r.1 → pr.2 = r.2 → sys_rel (PreLoop.after_cycle pr) (after_cycle r).
Proof.
  destruct pr as [px n], r as [x n']. cbn. intros H <-. destruct n; (split; [|done]); [by apply finish_rel|done..].
Qed.

(** A step of the precompiled executor is one of the bitmap executor. *)
Lemma step_forward ps ps' s : sys_inv cf s → sys_rel ps s → PreLoop.sys_step pcf providerThrows ps ps' →
  ∃ s', sys_step cf providerThrows s s' ∧ sys_rel ps' s'.
Proof.
  intros Hi H Hstep. destruct s as [x p]. pose proof H as [Hx Hp].
  destruct Hstep as [px n1 n2 r Hr|px|px now|px pw ms Hw|px pw|id q tok ps ps' Hs Hj|ps|ps|b ps|tid err ps|tid now ps Hn|tid call ps Hcall|tid px pp];
    cbn [PreLoop.s_exec PreLoop.s_point s_exec s_point] in *.
  - destruct p; try done. destruct (cycle_rel isP pn c Hc Hwf Hprio tol env scope providerThrows n1 n2 px x Hi Hx) as (r' & E & H1 & H2).
    eexists. split; [apply (step_cycle _ _ x n1 n2)|]. assert (r' = r) as -> by congruence. by apply after_cycle_rel.
  - destruct p; try done. eexists. split; [apply step_wait|]. rewrite (work_queued_eq _ _ Hx). split; [done|]. by case_bool.
  - destruct p; try done. eexists. split; [apply (step_park _ _ x now)|]. by apply park_rel.
  - destruct p as [| | |w|w|]; try done. exists (Sys x (Resumed w)). pose proof Hp as (E1 & E2 & E3). split; [|by split].
    apply (step_timer _ _ x w ms). congruence.
  - destruct p as [| | |w|w|]; try done. exists (Sys x AtCycle). split; [apply step_resume|by split].
  - pose proof (inject_rel id q tok _ _ H) as Hinj. rewrite Hj in Hinj. destruct (inject cf id q tok (Sys x p)) as [s'|] eqn:E; [|done].
    exists s'. split; [by eapply step_inject|done].
  - eexists. split; [apply step_drain|]. by apply host_drain_rel.
  - eexists. split; [apply step_close|]. by apply close_rel.
  - eexists. split; [apply (step_budget _ _ b)|]. by apply budget_rel.
  - eexists. split; [apply (step_settle _ _ tid err)|]. by apply settle_rel.
  - eexists. split; [by apply (step_timeout _ _ tid now)|]. by apply actionTimedOut_rel.
  - eexists. split; [by apply (step_call _ _ tid call)|]. by apply actionCall_rel.
  - eexists. split; [apply (step_fresh _ _ tid)|]. split; [|done]. by apply freshName_rel.
Qed.

(** And the other way round. *)
Lemma step_backward ps s s' : sys_inv cf s → sys_rel ps s → sys_step cf providerThrows s s' →
  ∃ ps', PreLoop.sys_step pcf providerThrows ps ps' ∧ sys_rel ps' s'.
Proof.
  intros Hi H Hstep. destruct ps as [px pp]. pose proof H as [Hx Hp].
  destruct Hstep as [x n1 n2|x|x now|x w ms Hw|x w|id q tok s s' Hs Hj|s|s|b s|tid err s|tid now s Hn|tid call s Hcall|tid x p];
    cbn [PreLoop.s_exec PreLoop.s_point s_exec s_point] in *.
  - destruct pp; try done. destruct (cycle_rel isP pn c Hc Hwf Hprio tol env scope providerThrows n1 n2 px x Hi Hx) as (r' & E & H1 & H2).
    eexists. split; [by apply (PreLoop.step_cycle _ _ px n1 n2)|]. by apply after_cycle_rel.
  - destruct pp; try done. eexists. split; [apply PreLoop.step_wait|]. rewrite (work_queued_eq _ _ Hx). split; [done|]. by case_bool.
  - destruct pp; try done. eexists. split; [apply (PreLoop.step_park _ _ px now)|]. by apply park_rel.
  - destruct pp as [| | |pw|pw|]; try done. exists (PreLoop.Sys px (Resumed pw)). pose proof Hp as (E1 & E2 & E3). split; [|by split].
    apply (PreLoop.step_timer _ _ px pw ms). congruence.
  - destruct pp as [| | |pw|pw|]; try done. exists (PreLoop.Sys px AtCycle). split; [apply PreLoop.step_resume|by split].
  - pose proof (inject_rel id q tok _ _ H) as Hinj. rewrite Hj in Hinj. destruct (PreLoop.inject pcf id q tok (PreLoop.Sys px pp)) as [ps'|] eqn:E; [|done].
    exists ps'. split; [by eapply PreLoop.step_inject|done].
  - eexists. split; [apply PreLoop.step_drain|]. by apply host_drain_rel.
  - eexists. split; [apply PreLoop.step_close|]. by apply close_rel.
  - eexists. split; [apply (PreLoop.step_budget _ _ b)|]. by apply budget_rel.
  - eexists. split; [apply (PreLoop.step_settle _ _ tid err)|]. by apply settle_rel.
  - eexists. split; [by apply (PreLoop.step_timeout _ _ tid now)|]. by apply actionTimedOut_rel.
  - eexists. split; [by apply (PreLoop.step_call _ _ tid call)|]. by apply actionCall_rel.
  - eexists. split; [apply (PreLoop.step_fresh _ _ tid)|]. split; [|done]. by apply freshName_rel.
Qed.
End PreSys.

(** * The precompiled executor simulates the bitmap executor: construction

    Two executors constructed from one net, one seed and one set of options are related when they
    start, provided no two entries of the seed name one place. *)
Section PreStart.
Context {V : Type} (isP : nat → bool) (pn : petri_net V) (c : compiled V).
Hypothesis Hc : compile isP pn = Ok c.
Variables (tol : Z) (env : list jsstr) (scope : jsstr).
Abbreviation cf := (make_config c tol env scope).
Abbreviation pcf := (pre_config c tol env scope).
Abbreviation tc := (transitionCount c).
Abbreviation seed_form := (list (place * list (token V))).
Implicit Types (seed : seed_form) (m : marking V).

(** ** The seed *)

(** The tokens a seed has for a name. *)
Definition seed_tokens seed (n : jsstr) : list (token V) := s ← filter (λ s, place_name s.1 = n) seed; s.2.

Lemma seed_tokens_snoc seed s n : seed_tokens (seed ++ [s]) n = seed_tokens seed n ++ (if decide (place_name s.1 = n) then s.2 else []).
Proof.
  unfold seed_tokens. rewrite filter_app, bind_app. f_equal. rewrite filter_cons. case_decide; [|done]. cbn. by rewrite app_nil_r.
Qed.

(** [Marking.from] keeps what each place has, when no place is named twice. *)
Lemma queue_from seed n : NoDup ((λ s, place_name s.1) <$> seed) → queue (from seed) n = seed_tokens seed n.
Proof.
  induction seed as [|s seed IH] using rev_ind; [done|]. rewrite fmap_app, NoDup_app. intros (Hd & Hn & _). rewrite seed_tokens_snoc, <- IH by done.
  unfold from. rewrite foldl_snoc. set (m := foldl _ _ seed). unfold queue at 1. cbn [m_tokens]. rewrite map_get_set.
  destruct (decide (n = place_name s.1)) as [->|Hne].
  - rewrite decide_True by done. cbn [default from_option]. unfold id. replace (queue m (place_name s.1)) with (@nil (token V)); [done|].
    unfold m. fold (from seed). rewrite IH by done. unfold seed_tokens.
    destruct (filter (λ s', place_name s'.1 = place_name s.1) seed) as [|s' l] eqn:Ef; [done|]. exfalso.
    assert (s' ∈ filter (λ s', place_name s'.1 = place_name s.1) seed) as [E Hs]%list_elem_of_filter by (rewrite Ef; left). apply (Hn (place_name s.1)); [|by left]. rewrite <- E. by apply (list_elem_of_fmap_2 (λ s, place_name s.1)).
  - rewrite decide_False by congruence. by rewrite app_nil_r.
Qed.

(** ** Loading *)

(** The engine while the seed is loaded. *)
Definition loading (qs : list (list (token V))) (u : list (jsstr * (place * list (token V)))) (lg : list (net_event V)) : PreExec.engine V :=
  let e := PreLoop.make_engine (compileFrom c) in
  PreExec.Engine qs u (PreExec.markingBitmap e) (dirtyBitmap e) (PreExec.enabledAtMs e) (PreExec.inFlightFlags e) (PreExec.enabledFlags e)
    (PreExec.enabledTransitionCount e) (PreExec.restartPendingWords e) (PreExec.anyRestartPending e) [] lg.

Lemma load_known qs u lg i q toks : qs !! i = Some q →
  foldl (λ e tok, PreExec.set_queue i (queue_at i e ++ [tok]) e) (loading qs u lg) toks = loading (<[i := q ++ toks]> qs) u lg.
Proof.
  revert qs q. induction toks as [|tok toks IH]; intros qs q Hq; [by rewrite app_nil_r, list_insert_id|]. cbn [foldl].
  assert (PreExec.set_queue i (queue_at i (loading qs u lg) ++ [tok]) (loading qs u lg) = loading (<[i := q ++ [tok]]> qs) u lg) as ->.
  { unfold queue_at. cbn [tokenQueues loading]. by rewrite Hq. }
  assert (i < length qs) as Hlt by (by eapply lookup_lt_Some). rewrite (IH _ (q ++ [tok])) by (by rewrite list_lookup_insert_eq).
  by rewrite list_insert_insert_eq, <- app_assoc.
Qed.

Lemma load_retained qs u lg p r old toks : map_get (place_name p) u = Some (r, old) →
  ∃ u', foldl (λ e tok, retainUnknownToken p tok [] e) (loading qs u lg) toks = loading qs u' lg ∧ u'.*1 = u.*1 ∧
    (∀ n, map_get n u' = if decide (n = place_name p) then Some (r, old ++ toks) else map_get n u) ∧
    (∀ y, y ∈ u' → y ∈ u ∨ y.1 = place_name p ∧ y.2.1 = r).
Proof.
  revert u old. induction toks as [|tok toks IH]; intros u old Hg.
  { exists u. split_and!; [done|done| |by left]. intros n. rewrite app_nil_r. by case_decide; subst. }
  cbn [foldl]. assert (retainUnknownToken p tok [] (loading qs u lg) = loading qs (map_set (place_name p) (r, old ++ [tok]) u) lg) as ->.
  { unfold retainUnknownToken. cbn [unknownPlaceTokens loading]. by rewrite Hg. }
  destruct (IH (map_set (place_name p) (r, old ++ [tok]) u) (old ++ [tok])) as (u' & -> & Ek & Hu & Hin); [by rewrite map_get_set, decide_True|].
  exists u'. split_and!; [done| | |].
  - rewrite Ek, map_set_keys_in; [done|]. apply map_get_elem in Hg. by apply (list_elem_of_fmap_2 fst) in Hg.
  - intros n. rewrite Hu, map_get_set, <- app_assoc. by case_decide.
  - intros y [Hy|Hy]%Hin; [|by right]. destruct y as [k v]. apply map_set_entries in Hy as [[-> ->]|Hy]; [by right|by left].
Qed.

Lemma load_unknown qs u lg p toks : toks ≠ [] → map_get (place_name p) u = None →
  ∃ u', foldl (λ e tok, retainUnknownToken p tok [] e) (loading qs u lg) toks = loading qs u' (lg ++ [EvUnknownPlace (place_name p) []]) ∧
    u'.*1 = u.*1 ++ [place_name p] ∧ (∀ n, map_get n u' = if decide (n = place_name p) then Some (p, toks) else map_get n u) ∧
    (∀ y, y ∈ u' → y ∈ u ∨ y.1 = place_name p ∧ y.2.1 = p).
Proof.
  destruct toks as [|tok toks]; [done|]. intros _ Hg. cbn [foldl].
  assert (retainUnknownToken p tok [] (loading qs u lg) = loading qs (map_set (place_name p) (p, [tok]) u) (lg ++ [EvUnknownPlace (place_name p) []])) as ->.
  { unfold retainUnknownToken. cbn [unknownPlaceTokens loading]. by rewrite Hg. }
  destruct (load_retained qs (map_set (place_name p) (p, [tok]) u) (lg ++ [EvUnknownPlace (place_name p) []]) p p [tok] toks) as (u' & -> & Ek & Hu & Hin);
    [by rewrite map_get_set, decide_True|].
  exists u'. split_and!; [done| | |].
  - rewrite Ek, map_set_keys, decide_False; [done|]. by apply map_get_None.
  - intros n. rewrite Hu, map_get_set. by case_decide.
  - intros y [Hy|Hy]%Hin; [|by right]. destruct y as [k v]. apply map_set_entries in Hy as [[-> ->]|Hy]; [by right|by left].
Qed.

(** The bitmap executor while it warns. *)
Definition warned (m : marking V) (lg : list (net_event V)) (names : list jsstr) : exec V :=
  Exec (make_engine c m lg) [] [] [] [] names [] 0 false false false false false false Running.
Definition warn_entry (x : exec V) (s : place * list (token V)) : exec V :=
  if bool_decide (0 < length s.2) && bool_decide (tryPlaceId c s.1 = None) then warnUnknownPlace s.1 [] x else x.

Record loaded seed qs u : Prop := {
  ld_length : length qs = placeCount c;
  ld_known : ∀ p i, tryPlaceId c p = Some i → qs !! i = Some (seed_tokens seed (place_name p));
  ld_unknown : ∀ n, map_get n (placeIndex c) = None → from_option (λ y, y.2) [] (map_get n u) = seed_tokens seed n;
  ld_keys : NoDup u.*1 ∧ ∀ y, y ∈ u → place_name y.2.1 = y.1 ∧ map_get y.1 (placeIndex c) = None
}.

Lemma load_seed m seed : ∃ qs u lg, loaded seed qs u ∧
  foldl (load_tokens c) (PreLoop.make_engine (compileFrom c)) seed = loading qs u lg ∧ foldl warn_entry (warned m [] []) seed = warned m lg u.*1.
Proof.
  induction seed as [|s seed (qs & u & lg & [L1 L2 L3 [L4 L5]] & E1 & E2)] using rev_ind.
  { exists (replicate (placeCount c) []), [], []. split; [|done]. constructor; [by rewrite length_replicate| |done|].
    - intros p i (Hlt & _)%(pid_place isP pn cf Hc). by apply lookup_replicate_2.
    - split; [constructor|]. intros y Hy. by apply not_elem_of_nil in Hy. }
  rewrite !foldl_snoc, E1, E2. unfold load_tokens, warn_entry. destruct (tryPlaceId c s.1) as [i|] eqn:Hp.
  - rewrite andb_false_r. pose proof (L2 s.1 i Hp) as Hq. rewrite (load_known _ _ _ _ _ _ Hq).
    do 3 eexists. split; [|done]. constructor; [by rewrite length_insert| | |done].
    + intros p' i' Hp'. rewrite seed_tokens_snoc. destruct (decide (i' = i)) as [->|Hne].
      * rewrite list_lookup_insert_eq by (by eapply lookup_lt_Some). pose proof (pid_place isP pn cf Hc _ _ Hp') as (_ & r & Hr & En).
        pose proof (pid_place isP pn cf Hc _ _ Hp) as (_ & r' & Hr' & En'). assert (place_name s.1 = place_name p') as E by congruence. by rewrite decide_True, E.
      * rewrite list_lookup_insert_ne, (L2 p' i' Hp') by done. rewrite decide_False; [by rewrite app_nil_r|].
        intros En. unfold tryPlaceId in *. rewrite En in Hp. congruence.
    + intros n Hn. rewrite seed_tokens_snoc, decide_False; [rewrite app_nil_r; by apply L3|]. intros <-. unfold tryPlaceId in Hp. congruence.
  - rewrite (bool_decide_eq_true_2 (None = None)), andb_true_r by done.
    assert (∀ qs' u', qs' = qs → (∀ n, from_option (λ y, y.2) [] (map_get n u') =
              (from_option (λ y, y.2) [] (map_get n u) ++ if decide (place_name s.1 = n) then s.2 else [])) →
              NoDup u'.*1 → (∀ y, y ∈ u' → place_name y.2.1 = y.1 ∧ map_get y.1 (placeIndex c) = None) → loaded (seed ++ [s]) qs' u') as Hl.
    { intros qs' u' -> Hu Hd Hin. constructor; [done| | |done].
      - intros p' i' Hp'. rewrite seed_tokens_snoc, (L2 p' i' Hp'), decide_False; [by rewrite app_nil_r|]. intros En. unfold tryPlaceId in *. rewrite En in Hp. congruence.
      - intros n Hn. by rewrite Hu, seed_tokens_snoc, L3. }
    case_bool_decide as El.
    + destruct (map_get (place_name s.1) u) as [[r old]|] eqn:Hg.
      * destruct (load_retained qs u lg s.1 r old s.2 Hg) as (u' & -> & Ek & Hu & Hin). exists qs, u', lg. split_and!; [|done|].
        -- apply Hl; [done| |by rewrite Ek|].
           ++ intros n. rewrite Hu. destruct (decide (n = place_name s.1)) as [->|]; [by rewrite decide_True, Hg|]. rewrite decide_False by congruence. by rewrite app_nil_r.
           ++ intros y [Hy|[Ey1 Ey2]]%Hin; [by apply L5|]. rewrite Ey1, Ey2. split; [|by unfold tryPlaceId in Hp]. by apply (L5 (place_name s.1, (r, old))), map_get_elem.
        -- unfold warnUnknownPlace. cbn [warnedUnknownPlaces warned]. rewrite decide_True; [by rewrite Ek|]. apply map_get_elem in Hg. by apply (list_elem_of_fmap_2 fst) in Hg.
      * destruct (load_unknown qs u lg s.1 s.2) as (u' & -> & Ek & Hu & Hin); [intros E; rewrite E in El; simpl in El; lia|done|].
        assert (place_name s.1 ∉ u.*1) as Hni by (by apply map_get_None). exists qs, u', (lg ++ [EvUnknownPlace (place_name s.1) []]). split_and!; [|done|].
        -- apply Hl; [done| | |].
           ++ intros n. rewrite Hu. destruct (decide (n = place_name s.1)) as [->|]; [by rewrite decide_True, Hg|]. rewrite decide_False by congruence. by rewrite app_nil_r.
           ++ rewrite Ek. apply NoDup_app. split_and!; [done| |apply NoDup_singleton]. by intros n Hn ->%list_elem_of_singleton.
           ++ intros y [Hy|[Ey1 Ey2]]%Hin; [by apply L5|]. by rewrite Ey1, Ey2.
        -- unfold warnUnknownPlace. cbn [warnedUnknownPlaces warned]. rewrite decide_False by done. unfold set_add. rewrite decide_False by done. by rewrite Ek.
    + assert (s.2 = []) as Es by (apply nil_length_inv; lia). exists qs, u, lg. split_and!; [|by rewrite Es|done].
      apply Hl; [done| |done|done]. intros n. rewrite Es. case_decide; by rewrite app_nil_r.
Qed.

(** ** The match caches *)

Lemma eligible_named tid t keys rq : c_transition c tid = Some t → eligible_requireds c tid t keys = Some rq →
  ∀ mk, mk ∈ keys → tryPlaceId c (mk_place_of mk) = Some (pid c (mk_place_of mk)).
Proof.
  intros Ht. revert rq. induction keys as [|mk keys IH]; intros rq He mk' Hin; [by apply not_elem_of_nil in Hin|]. cbn [eligible_requireds] in He.
  assert (∃ s rest, js_find (λ s, bool_decide (place_name (in_place s) = key_name mk)) (inputSpecs t) = Some s ∧ eligible_requireds c tid t keys = Some rest) as (s & rest & Hf & Hrest).
  { destruct (js_find _ _) as [[]|]; try done; (destruct (_ || _); [done|]); (destruct (eligible_requireds c tid t keys); [|done]); eauto. }
  apply elem_of_cons in Hin as [->|Hin]; [|by eapply IH]. unfold js_find in Hf. destruct (list_find _ _) as [[j s']|] eqn:El; [|done]. injection Hf as ->.
  apply list_find_Some in El as (Hs & Hn%bool_decide_unpack & _). destruct (input_pid isP pn c Hc tol env scope tid t (mk_place_of mk) Ht) as (i & E & Ei & _); [|by rewrite Ei].
  change (place_name (mk_place_of mk)) with (key_name mk). rewrite <- Hn. apply list_elem_of_fmap. exists s. split; [done|]. by eapply list_elem_of_lookup_2.
Qed.

Lemma foldl_same {A B} (f g : A → B → A) a l : (∀ a x, x ∈ l → f a x = g a x) → foldl f a l = foldl g a l.
Proof. revert a. induction l as [|x l IH]; intros a H; [done|]. cbn [foldl]. rewrite H by (by left). apply IH. intros. apply H. by right. Qed.

Lemma caches_eq pe m : (∀ p i, tryPlaceId c p = Some i → queue_at i pe = queue m (place_name p)) →
  PreLoop.initMatchCaches c pe = initMatchCaches c m.
Proof.
  intros Hq. unfold PreLoop.initMatchCaches, initMatchCaches. apply imap_ext. intros tid t Ht. unfold PreLoop.init_cache, init_cache.
  destruct (t_matchSpec t) as [ms|]; [|done]. cbn [mbind option_bind]. destruct (eligible_requireds c tid t (ms_keys ms)) as [rq|] eqn:He; [|done].
  cbn [mbind option_bind]. f_equal. unfold PreLoop.seed_matcher, seed_matcher. apply foldl_same. intros k [i mk] Hk. cbn [fst snd].
  apply elem_of_lookup_imap in Hk as (j & y & [= -> ->] & Hy). rewrite peekTokens_queue. f_equal. apply Hq.
  apply (eligible_named tid t (ms_keys ms) rq Ht He). by eapply list_elem_of_lookup_2.
Qed.

(** ** Two constructed executors *)

Definition blank (pe : PreExec.engine V) : PreExec.exec V :=
  PreExec.Exec pe (replicate tc None) (replicate tc None) (replicate tc None) (replicate tc None) (replicate tc None) 0
    [] [] [] [] 0 false false false false false false Running.

Lemma blank_rel seed (arcs : list dead_arc) : NoDup ((λ s, place_name s.1) <$> seed) →
  let e := foldl (λ e a, emitEvent (EvDeadArc a) e) (foldl (load_tokens c) (PreLoop.make_engine (compileFrom c)) seed) arcs in
  PreFire.exec_rel c (blank (set_caches (PreLoop.initMatchCaches c e) e))
    (foldl (λ x a, on_engine (emit (EvDeadArc a)) x) (foldl warn_entry (warned (from seed) [] []) seed) arcs).
Proof.
  intros Hd. cbn zeta. destruct (load_seed (from seed) seed) as (qs & u & lg & [L1 L2 L3 L4] & -> & ->).
  assert (∀ lg, foldl (λ e a, emitEvent (EvDeadArc a) e) (loading qs u lg) arcs = loading qs u (lg ++ (EvDeadArc <$> arcs)) ∧
    foldl (λ x a, on_engine (emit (EvDeadArc a)) x) (warned (from seed) lg u.*1) arcs = warned (from seed) (lg ++ (EvDeadArc <$> arcs)) u.*1) as Hf.
  { clear. induction arcs as [|a arcs IH]; intros lg; [by rewrite app_nil_r|]. cbn [foldl]. destruct (IH (lg ++ [EvDeadArc a])) as [IH1 IH2].
    rewrite fmap_cons, cons_middle, app_assoc, <- IH1, <- IH2. done. }
  destruct (Hf lg) as [-> ->]. set (lg' := lg ++ _).
  assert (∀ p i, tryPlaceId c p = Some i → queue_at i (loading qs u lg') = queue (from seed) (place_name p)) as Hq.
  { intros p i Hp. unfold queue_at. cbn [loading tokenQueues]. by rewrite (L2 p i Hp), queue_from. }
  rewrite (caches_eq _ (from seed) Hq). constructor; [|constructor|done].
  - exists (from seed). split; [done|]. constructor; [done|exact Hq|done| |done]. intros n Hn. rewrite queue_from by done. unfold retained_queue.
    cbn [blank PreExec.x_engine set_caches unknownPlaceTokens loading]. by rewrite L3.
  - cbn. by rewrite !length_replicate.
  - done.
  - intros tid Hlt. cbn. by rewrite !lookup_replicate_2 by done.
  - intros tid t Ht _. cbn. apply lookup_replicate_2. by eapply lookup_lt_Some.
Qed.

(** ** The start *)

Lemma initial_marking_rel u pe e : PreSim.engine_rel c u pe e →
  PreSim.engine_rel c u (PreLoop.initializeMarkingBitmap pcf pe) (initializeMarkingBitmap cf e).
Proof.
  intros H. unfold PreLoop.initializeMarkingBitmap, initializeMarkingBitmap. change (PreNet.placeCount (program pcf)) with (placeCount c).
  change (placeCount (cf_compiled cf)) with (placeCount c). apply foldl_rel; [|done]. clear H pe e. intros i pe e Hi%elem_of_seq H.
  assert (length (queue_at i pe) = tokens_at cf i (e_marking e)) as ->.
  { destruct H as (m & -> & Hq). symmetry. apply (tokens_at_queue isP pn c Hc tol env scope u pe m i Hq). lia. }
  case_match; [|done]. unfold setMarkingBit. destruct (rel_fields c u pe e H) as (-> & _). by apply (set_bitmap_rel c).
Qed.

Lemma terminal_flags_length flags : terminalFlags c = Some flags → length flags = placeCount c.
Proof.
  revert Hc. unfold compile. intros [_ H]%res_seq_ok. cbn zeta in H. apply res_bind_ok in H as (rows & _ & [= <-]). unfold placeCount. cbn [terminalFlags placesById].
  case_bool_decide; [done|]. intros [= <-]. apply (foldl_inv (λ l, length l = length (allPlacesSet pn).*2)); [|apply length_replicate].
  intros l p _ <-. apply length_insert.
Qed.

Lemma start_rel px x : length (dirtySet (x_engine x)) = dirty_words c → PreFire.exec_rel c px x → PreFire.exec_rel c (PreLoop.start pcf px) (start cf x).
Proof.
  intros El H. unfold PreLoop.start, start. cbn zeta.
  match goal with |- context [PreLoop.checkInitialTerminals _ ?a] => set (px1 := a) end. match goal with |- context [checkInitialTerminals _ ?a] => set (x1 := a) end.
  assert (PreFire.exec_rel c px1 x1) as H1.
  { unfold px1, x1. apply (on_engine_rel c).
    - destruct (shared_eq c _ _ H) as (_ & _ & _ & _ & _ & -> & -> & _ & _ & _ & ->). by apply set_host_rel.
    - cbn [PreLoop.set_host set_host PreExec.x_engine x_engine]. unfold PreLoop.markAllDirty, markAllDirty.
      assert (length (dirtySet (initializeMarkingBitmap cf (x_engine x))) = dirty_words c) as ->.
      { rewrite <- El. unfold initializeMarkingBitmap. apply (foldl_inv (λ e, length (dirtySet e) = length (dirtySet (x_engine x)))); [|done].
        intros e i _ He. by case_match. }
      apply (set_dirty_rel c). apply initial_marking_rel, H. }
  clearbody px1 x1. change (terminalFlags (pc_compiled (program pcf))) with (terminalFlags c). change (hasTerminals (cf_compiled cf)) with (hasTerminals c).
  unfold hasTerminals. destruct (terminalFlags c) as [flags|] eqn:Ef; [|by rewrite bool_decide_eq_false_2 by (by intros [? ?])].
  rewrite bool_decide_eq_true_2 by done. unfold PreLoop.checkInitialTerminals, checkInitialTerminals. rewrite (terminal_flags_length flags Ef).
  assert (existsb (λ i, flag flags i && (0 <? length (queue_at i (PreExec.x_engine px1)))) (seq 0 (placeCount c)) =
          existsb (λ i, is_terminal cf i && (0 <? tokens_at cf i (e_marking (x_engine x1)))) (seq 0 (placeCount c))) as E.
  { assert (∀ l, (∀ i, i ∈ l → i < placeCount c) → existsb (λ i, flag flags i && (0 <? length (queue_at i (PreExec.x_engine px1)))) l =
          existsb (λ i, is_terminal cf i && (0 <? tokens_at cf i (e_marking (x_engine x1)))) l) as Hl; [|apply Hl; intros i ?%elem_of_seq; lia].
    intros l Hl. induction l as [|i l IH]; [done|]. cbn [existsb]. rewrite IH by (intros; apply Hl; by right). f_equal.
    unfold is_terminal. change (terminalFlags (cf_compiled cf)) with (terminalFlags c). rewrite Ef. f_equal. f_equal.
    destruct (xr_engine _ _ _ H1) as (m & -> & Hq). symmetry. apply (tokens_at_queue isP pn c Hc tol env scope _ _ m i Hq). apply Hl. left. }
  rewrite E. change (placeCount (cf_compiled cf)) with (placeCount c). case_match; [by apply set_terminal_rel|done].
Qed.
End PreStart.
