(* ===== verification/PreSame.v ===== *)
(** * The two executors run in lockstep

    A precompiled executor and a bitmap executor constructed from one net, one seed and one set of
    options are bisimilar, and a host cannot tell them apart. *)
From S2P Require Import Prelude.
From S2P Require Import PreNet.
From S2P Require Import PreExec.
From S2P Require Import PreLoop.
From S2P Require Import Net.
From S2P Require Import Out.
From S2P Require Import Transition.
From S2P Require Import Marking.
From S2P Require Import MatchEngine.
From S2P Require Import PetriNet.
From S2P Require Import Bitmap.
From S2P Require Import CompiledNet.
From S2P Require Import OutputCheck.
From S2P Require Import Context.
From S2P Require Import Executor.
From S2P Require Import ExecScan.
From S2P Require Import ExecFire.
From S2P Require Import ExecLoop.
From S2P Require Import ExecInv.
From S2P Require Import ExecInit.
From S2P Require Import ExecCoherent.
From S2P Require Import ExecFiring.
From S2P Require Import ExecRun.
From S2P Require Import ExecOrder.
From S2P Require Import PreSim.
From S2P Require Import PreFire.
From S2P Require Import PreLand.
From S2P Require Import PreSys.

From S2P Require Import ExecContract.

(** ** What a host observes *)

Section View.
Context {V : Type}.

(** The options of the precompiled executor that mean what the bitmap executor's do. *)
Definition same_options (o : options (V := V)) : PreLoop.options V :=
  PreLoop.Options (o_environment o) false None (o_tolerance o) (o_restore o) (o_scope o).

(** Two systems look the same: the events logged, the admissions answered, the markings, the
    snapshot's in-flight bit, quiescence, the termination reason and the place in the loop. *)
Record same_view (pcf : PreExec.config V) (cf : config V) (ps : PreLoop.sys V) (s : @sys V) : Prop := {
  sv_log : PreExec.e_log (PreExec.x_engine (PreLoop.s_exec ps)) = e_log (x_engine (s_exec s));
  sv_admissions : PreExec.admissions (PreLoop.s_exec ps) = admissions (s_exec s);
  sv_marking : PreLoop.snapshotMarking pcf (PreLoop.s_exec ps) = snapshotMarking cf (s_exec s);
  sv_tokens : same_content (syncMarkingFromQueues pcf (PreExec.x_engine (PreLoop.s_exec ps))) (e_marking (x_engine (s_exec s)));
  sv_snapshot : match PreLoop.exec_snapshot pcf (PreLoop.s_exec ps), exec_snapshot (s_exec s) with
                | Ok a, Ok b => a.2 = b.2
                | Err a, Err b => a = b
                | _, _ => False
                end;
  sv_quiescent : PreLoop.isQuiescent (PreLoop.s_exec ps) = isQuiescent (s_exec s);
  sv_reason : PreExec.reason (PreLoop.s_exec ps) = reason (s_exec s);
  sv_running : PreExec.running (PreLoop.s_exec ps) = running (s_exec s);
  sv_point : point_rel (PreLoop.s_point ps) (s_point s)
}.
End View.

Section PreSame.
Context {V : Type} (isP : nat → bool) (pn : petri_net V) (c : compiled V).
Hypothesis Hc : compile isP pn = Ok c.
Variables (tol : Z) (env : list jsstr) (scope : jsstr).
Abbreviation cf := (make_config c tol env scope).
Abbreviation pcf := (pre_config c tol env scope).

Lemma snapshotMarking_eq px x : PreFire.exec_rel c px x → PreLoop.snapshotMarking pcf px = snapshotMarking cf x.
Proof.
  intros H. unfold PreLoop.snapshotMarking, snapshotMarking. f_equal. change (PreNet.placeCount (program pcf)) with (placeCount c).
  change (placeCount (cf_compiled cf)) with (placeCount c). generalize (seq 0 (placeCount c)). intros l. induction l as [|i l IH]; [done|]. cbn [omap list_omap].
  rewrite IH. change (places (program pcf) !! i) with (placesById c !! i). change (c_place (cf_compiled cf) i) with (placesById c !! i).
  destruct (placesById c !! i) as [p|] eqn:Hp; [|done]. cbn [mbind option_bind]. rewrite peekTokens_queue.
  assert (tryPlaceId c p = Some i) as Ht by (by apply (place_pid isP pn cf Hc)).
  destruct (xr_engine _ _ _ H) as (m & -> & Hq). cbn [e_marking engine_of]. rewrite <- (qr_known _ _ _ _ Hq p i Ht), length_zero.
  by destruct (bool_decide _).
Qed.

Lemma queue_addTokens p (toks : list (token V)) m n :
  queue (foldl (λ m tok, addToken p tok m) m toks) n = if decide (n = place_name p) then queue m n ++ toks else queue m n.
Proof.
  revert m. induction toks as [|tok toks IH]; intros m; cbn [foldl]; [rewrite app_nil_r; by case_decide|].
  rewrite IH, queue_addToken. case_decide; [by subst; rewrite <- app_assoc|done].
Qed.

Lemma sync_known (pe : PreExec.engine V) k n : k ≤ placeCount c →
  queue (foldl (λ m pid, match places (program pcf) !! pid with
                         | Some p => foldl (λ m tok, addToken p tok m) m (queue_at pid pe)
                         | None => m
                         end) Marking.empty (seq 0 k)) n =
  match map_get n (placeIndex c) with Some i => if decide (i < k) then queue_at i pe else [] | None => [] end.
Proof.
  induction k as [|k IH]; intros Hk.
  - cbn. destruct (map_get _ _); [|done]. by rewrite decide_False by lia.
  - rewrite seq_S, foldl_snoc, Nat.add_0_l. change (places (program pcf)) with (placesById c). destruct (lookup_lt_is_Some_2 (placesById c) k Hk) as [p Hp]. rewrite Hp, queue_addTokens.
    change (placesById c) with (places (program pcf)). rewrite (IH ltac:(lia)).
    assert (map_get (place_name p) (placeIndex c) = Some k) as Ht by (by apply (place_pid isP pn cf Hc)).
    destruct (decide (n = place_name p)) as [->|Hne].
    + rewrite Ht, decide_False by lia. by rewrite decide_True by lia.
    + destruct (map_get n (placeIndex c)) as [i|] eqn:Hi; [|done]. assert (i ≠ k).
      { intros ->. apply Hne. destruct (pid_place isP pn cf Hc (Place 0 n) k Hi) as (_ & r & Hr & En). cbn in En, Hr. change (c_place c k) with (placesById c !! k) in Hr. congruence. }
      by destruct (decide (i < k)); [rewrite decide_True by lia|rewrite decide_False by lia].
Qed.

Lemma sync_unknown (u : list (jsstr * (place * list (token V)))) m n : NoDup u.*1 → (∀ y, y ∈ u → place_name y.2.1 = y.1) →
  queue (foldl (λ m y, foldl (λ m tok, addToken y.2.1 tok m) m y.2.2) m u) n = queue m n ++ from_option (λ y, y.2) [] (map_get n u).
Proof.
  revert m. induction u as [|[k [p toks]] u IH]; intros m; [by rewrite app_nil_r|]. rewrite fmap_cons, NoDup_cons. cbn [foldl fst snd map_get]. intros [Hk Hd] Hn.
  rewrite IH by (try done; intros; apply Hn; by right). rewrite queue_addTokens. pose proof (Hn (k, (p, toks)) ltac:(left)) as E. cbn in E. rewrite E.
  destruct (decide (n = k)) as [->|Hne]; [|done]. apply map_get_None in Hk. by rewrite Hk, app_nil_r.
Qed.

Lemma sync_content px x : PreFire.exec_rel c px x → same_content (syncMarkingFromQueues pcf (PreExec.x_engine px)) (e_marking (x_engine x)).
Proof.
  intros H n. destruct (xr_engine _ _ _ H) as (m & -> & [Q1 Q2 Q3 Q4 [Q5 Q6]]). unfold syncMarkingFromQueues. rewrite sync_unknown by (try done; intros; by apply Q6).
  change (PreNet.placeCount (program pcf)) with (placeCount c). rewrite sync_known by done. cbn [e_marking engine_of].
  destruct (map_get n (placeIndex c)) as [i|] eqn:Hi.
  - destruct (pid_place isP pn cf Hc (Place 0 n) i Hi) as (Hlt & _). rewrite decide_True by exact Hlt. assert (queue_at i (PreExec.x_engine px) = queue m n) as -> by exact (Q2 (Place 0 n) i Hi).
    destruct (map_get n (unknownPlaceTokens _)) as [y|] eqn:Hy; [|by rewrite app_nil_r]. apply map_get_elem, Q6 in Hy as [_ Hy]. cbn in Hy. congruence.
  - by rewrite (Q4 n Hi).
Qed.

Lemma view_rel ps s : PreSys.sys_rel c ps s → same_view pcf cf ps s.
Proof.
  intros [H Hp]. destruct (shared_eq c _ _ H) as (_ & Ex & Ea & _ & _ & Ed & Ecl & _ & Eu & Er & Es).
  destruct (rel_fields c _ _ _ (xr_engine _ _ _ H)) as (_ & _ & _ & _ & _ & En & _ & _ & _ & El). destruct (count_eq c _ _ H) as [C1 C2].
  constructor; try done.
  - by apply snapshotMarking_eq.
  - by apply sync_content.
  - unfold PreLoop.exec_snapshot, exec_snapshot. rewrite Ed, Ecl, C2, Eu, Ex. by destruct (_ || _).
  - unfold PreLoop.isQuiescent, isQuiescent. by rewrite En, C1.
Qed.
End PreSame.

(** ** Construction *)

Lemma construct_same {V} isP rnd base (pn : petri_net V) tokens o cf x :
  construct isP rnd base pn tokens o = Ok (cf, x) → NoDup ((λ s, place_name s.1) <$> seed_of base tokens o) →
  ∃ c tol env scope px, compile isP pn = Ok c ∧ cf = make_config c tol env scope ∧
    PreLoop.construct isP rnd base pn tokens (same_options o) = Ok (pre_config c tol env scope, px) ∧
    PreFire.exec_rel c (PreLoop.start (pre_config c tol env scope) px) (start cf x).
Proof.
  intros H Hd. pose proof H as (Hc & _ & ((log & Ee) & _))%construct_spec. revert H. unfold construct, PreLoop.construct, PreNet.compile.
  intros (c & E & H)%res_bind_ok. destruct (compile isP pn) as [c'|] eqn:Ec; [|done]. injection E as ->. cbn zeta in H.
  apply res_seq_ok in H as [Ht H]. apply res_seq_ok in H as [Hr H]. apply res_bind_ok in H as (sc & Hs & H). injection H as <- <-.
  cbn [res_bind o_program same_options PreLoop.o_environment PreLoop.o_tolerance PreLoop.o_restore PreLoop.o_scope o_skipOutputValidation].
  apply throw_if_ok in Ht, Hr. cbn zeta. rewrite Ht, Hr. cbn [throw_if res_bind].
  destruct (resolveExecutionScope rnd (o_scope o)) as [sc'|] eqn:Er; [|done]. injection Hs as ->. cbn [res_bind]. do 5 eexists. split_and!; [done|done|done|].
  apply (start_rel isP pn c Ec); [by rewrite Ee; cbn; unfold new_words; rewrite length_replicate|].
  exact (blank_rel isP pn c Ec 0%Z [] [] (seed_of base tokens o) _ Hd).
Qed.

(** ** The theorem *)

(** C3: the precompiled executor is a drop-in replacement of the bitmap executor. For a net made by
    the builders whose priorities fit an [Int32Array], a seed that names no place twice and the same
    options, the precompiled executor is constructed too, and the two are bisimilar: related systems
    show a host the same events, admissions, markings, snapshots, quiescence, termination reason and
    place in the loop, every step of one is answered by a step of the other into related systems, and
    the compiled opcodes never take a token from an empty queue nor meet an unknown opcode. *)
Theorem executors_bisimilar {V} isP rnd base (pn : petri_net V) tokens o cf x0 (providerThrows : jsstr → list (token V) → bool) :
  deployed isP rnd base pn tokens o cf x0 → priorities_fit pn → NoDup ((λ s, place_name s.1) <$> seed_of base tokens o) →
  ∃ pcf px0, PreLoop.construct isP rnd base pn tokens (same_options o) = Ok (pcf, px0) ∧
  ∃ R : PreLoop.sys V → @sys V → Prop,
    R (PreLoop.Sys (PreLoop.start pcf px0) AtCycle) (Sys (start cf x0) AtCycle) ∧
    ∀ ps s, R ps s →
      same_view pcf cf ps s ∧
      (∀ now now', is_Some (PreLoop.cycle pcf providerThrows now now' (PreLoop.s_exec ps))) ∧
      (∀ ps', PreLoop.sys_step pcf providerThrows ps ps' → ∃ s', sys_step cf providerThrows s s' ∧ R ps' s') ∧
      (∀ s', sys_step cf providerThrows s s' → ∃ ps', PreLoop.sys_step pcf providerThrows ps ps' ∧ R ps' s').
Proof.
  intros Hd Hp Hn. pose proof (dp_construct _ _ _ _ _ _ _ _ Hd) as Hcon.
  destruct (construct_same isP rnd base pn tokens o cf x0 Hcon Hn) as (c & tol & env & scope & px0 & Hc & -> & Hpre & Hstart).
  exists (pre_config c tol env scope), px0. split; [done|].
  pose proof (deployed_wf Hd) as Hwf. destruct (deployed_start Hd) as [Ht Hi].
  exists (λ ps s, PreSys.sys_rel c ps s ∧ sys_inv (make_config c tol env scope) s). split; [by split|]. intros ps s [Hr Hs]. split_and!.
  - by apply (view_rel isP pn c Hc).
  - intros now now'. destruct (cycle_rel isP pn c Hc Hwf Hp tol env scope providerThrows now now' _ _ Hs (sr_exec _ _ _ Hr)) as (r & -> & _). by eexists.
  - intros ps' Hstep. destruct (step_forward isP pn c Hc Hwf tol env scope providerThrows Hp ps ps' s Hs Hr Hstep) as (s' & Hs' & Hr').
    exists s'. split; [done|]. split; [done|]. by eapply (sys_step_inv isP pn (make_config c tol env scope) Hc Hwf Ht).
  - intros s' Hstep. destruct (step_backward isP pn c Hc Hwf tol env scope providerThrows Hp ps s s' Hs Hr Hstep) as (ps' & Hs' & Hr').
    exists ps'. split; [done|]. split; [done|]. by eapply (sys_step_inv isP pn (make_config c tol env scope) Hc Hwf Ht).
Qed.

(** The sample net under the precompiled executor. *)
Definition sample_pre : PreExec.config jsstr * PreExec.exec jsstr :=
  match PreLoop.construct (λ _, false) (js "r") 100 sample_net sample_tokens (same_options sample_options) with
  | Ok r => r
  | Err _ => (PreExec.Config (compileFrom (cf_compiled sample.1)) [] [] false 0 [] [], blank (cf_compiled sample.1) (loading (cf_compiled sample.1) [] [] []))
  end.

(** Its first cycle takes the two tokens of the join and starts it, as the bitmap executor does. *)
Example sample_pre_cycle :
  match PreLoop.cycle sample_pre.1 (λ _ _, false) 20 20 (PreLoop.start sample_pre.1 sample_pre.2) with
  | Some (px, n) => PreExec.e_log (PreExec.x_engine px) = e_log (x_engine (cycle sample.1 (λ _ _, false) 20 20 (start sample.1 sample.2)).1) ∧
                    PreExec.inFlightCount px = 1%Z ∧ n = (cycle sample.1 (λ _ _, false) 20 20 (start sample.1 sample.2)).2
  | None => False
  end.
Proof. vm_compute. by split_and!. Qed.

Lemma executors_bisimilar_witness :
  deployed (λ _, false) (js "r") 100 sample_net sample_tokens sample_options sample.1 sample.2 ∧
  ∃ pcf px0, PreLoop.construct (λ _, false) (js "r") 100 sample_net sample_tokens (same_options sample_options) = Ok (pcf, px0) ∧
  ∃ R : PreLoop.sys jsstr → @sys jsstr → Prop,
    R (PreLoop.Sys (PreLoop.start pcf px0) AtCycle) (Sys (start sample.1 sample.2) AtCycle) ∧
    ∀ ps s, R ps s →
      same_view pcf sample.1 ps s ∧
      (∀ now now', is_Some (PreLoop.cycle pcf (λ _ _, false) now now' (PreLoop.s_exec ps))) ∧
      (∀ ps', PreLoop.sys_step pcf (λ _ _, false) ps ps' → ∃ s', sys_step sample.1 (λ _ _, false) s s' ∧ R ps' s') ∧
      (∀ s', sys_step sample.1 (λ _ _, false) s s' → ∃ ps', PreLoop.sys_step pcf (λ _ _, false) ps ps' ∧ R ps' s').
Proof.
  split; [exact sample_deployed|].
  apply (executors_bisimilar (λ _, false) (js "r") 100 sample_net sample_tokens sample_options sample.1 sample.2 (λ _ _, false)).
  - exact sample_deployed.
  - intros t.
    assert (net_transitions sample_net = [built_or join_b; built_or ship_b; built_or accept_b]) as -> by (by vm_compute).
    rewrite !elem_of_cons, elem_of_nil. intros [->|[->|[->|[]]]]; by vm_compute.
  - vm_compute. rewrite !NoDup_cons, !not_elem_of_cons. repeat split; try done; try apply not_elem_of_nil; constructor.
Defined.

(** ** Why the hypotheses are there *)

(** Two entries of a seed for one name: [Marking.from] keeps the last, the queues keep both. *)
Definition repeated_seed : list (place * list (token jsstr)) := [(left_p, [Token (Some (js "x")) 1]); (Place 7 (js "left"), [Token (Some (js "y")) 2])].
Example repeated_seed_differs :
  queue (from repeated_seed) (js "left") = [Token (Some (js "y")) 2] ∧
  queue_at (pid (cf_compiled sample.1) left_p) (foldl (load_tokens (cf_compiled sample.1)) (PreLoop.make_engine (compileFrom (cf_compiled sample.1))) repeated_seed)
    = [Token (Some (js "x")) 1; Token (Some (js "y")) 2].
Proof. by vm_compute. Qed.

(** A priority below the range of an [Int32Array] wraps, has no level of its own and gets the first. *)
Definition low_net : petri_net jsstr :=
  PetriNet (js "low") [] [built_or ship_b; built_or (with_priority (-2147483649) accept_b)] [].
Example low_priority_wraps :
  match compile (λ _, false) low_net with
  | Ok c => priorityLevels (compileFrom c) = [5; -2147483649]%Z ∧ priorities (compileFrom c) = [5; 2147483647]%Z ∧
            transitionToPriorityIndex (compileFrom c) = [0; 0]%Z
  | Err _ => False
  end.
Proof. by vm_compute. Qed.
