(* ===== verification/NetRewrites.v ===== *)
(** * Rewrites of a net before it is verified

    [src/typescript/src/verification/in-flight.ts], [terminal-places.ts] and [reaping.ts]: the split
    of a transition into a start and a completion step, the inhibitors a net's terminal places stand
    for, and the latest bounds a late executor does not keep. A rewritten net is made by the
    builders, so a rewrite answers a net or the error a builder throws. The places the split adds
    are fresh objects, numbered from [fresh]. Report lines are not modelled. *)
From S2P Require Import Prelude.
From S2P Require Import CodePoints.
From S2P Require Import Net.
From S2P Require Import Out.
From S2P Require Import Transition.
From S2P Require Import PetriNet.
From S2P Require Import MarkingState.
From S2P Require Import SmtProperty.
From S2P Require Import OutSpec.
From S2P Require Import Outcomes.
From S2P Require Import StateClass.
From S2P Require Import ClassSteps.
From S2P Require Import FlatNet.
Inductive rewrite_error :=
| RewriteTransition (e : build_error)
| RewriteNet (e : net_error).

Section NetRewrites.
Context {V : Type}.
Implicit Types (t : transition V) (net : petri_net V).

(** [Transition.builder(name)…build()] and [PetriNet.builder(name)…build()] *)
Definition rebuild (b : builder V) : result rewrite_error (transition V) :=
  match build b with Ok t => Ok t | Err e => Err (RewriteTransition e) end.
Definition rebuild_net (name : jsstr) (ps : list place) (ts : list (transition V)) (terminals : list place) : result rewrite_error (petri_net V) :=
  let calls := (CallPlace <$> ps) ++ imap (CallTransition) ts ++ (CallTerminal <$> terminals) in
  match net_build (foldl (λ b c, nb_run c b) (net_builder_new name) calls) with
  | Ok net => Ok net
  | Err e => Err (RewriteNet e)
  end.

(** ** Terminal places *)

(** The same transition with inhibitor arcs from [ps] after its own. *)
Definition withInhibitors t (ps : list place) : result rewrite_error (transition V) :=
  let b := with_alias (placeAlias t) (with_priority (priority t) (with_timing (t_timing t) (builder_new (t_name t)))) in
  let b := with_output_of (outputSpec t) (with_inputs (inputSpecs t) b) in
  let b := with_inhibitors ps (with_inhibitors (inhibitors t) b) in
  rebuild (with_match_of (t_matchSpec t) (with_resets (resets t) (with_reads (reads t) b))).

Definition missing_terminals (terminals : list place) t : list place :=
  filter (λ p, place_name p ∉ place_name <$> inhibitors t) terminals.

Definition inhibit (terminals : list place) t : result rewrite_error (transition V) :=
  let missing := missing_terminals terminals t in
  if bool_decide (length missing = 0) then Ok t else withInhibitors t missing.

Definition withTerminalInhibitors net : result rewrite_error (petri_net V) :=
  if bool_decide (length (net_terminals net) = 0) then Ok net
  else
    let* ts := res_map (inhibit (net_terminals net)) (net_transitions net) in
    rebuild_net (net_name net) (net_places net) ts [].

Definition terminalExcusedPlaces net : list place := net_places net.

(** ** Actions in flight *)

Definition inFlightPlace (t : jsstr) : jsstr := js "inflight:" ++ t.
Definition completionTransition (t : jsstr) : jsstr := js "complete:" ++ t.

Definition is_drain (s : in_spec) : bool := match s with InAll _ | InAtLeast _ _ => true | _ => false end.

Definition nonMonotonePlaces net : list jsstr :=
  set_of ((place_name <$> net_terminals net) ++
    (t ← net_transitions net;
     (place_name <$> inhibitors t) ++ (place_name <$> resets t) ++
     ((λ s, place_name (in_place s)) <$> filter is_drain (inputSpecs t)))).

(** [t.name.startsWith('complete:')] and the slice after it. *)
Definition after_complete (name : jsstr) : option jsstr :=
  if decide (take 9 name = js "complete:") then Some (drop 9 name) else None.

Definition isCompletion t : bool :=
  match after_complete (t_name t) with
  | None => false
  | Some x =>
      match inputSpecs t with
      | [InOne p] => bool_decide (place_name p = inFlightPlace x) && bool_decide (length (reads t) = 0) && bool_decide (length (resets t) = 0)
      | _ => false
      end
  end.

(** What a verification tests beyond the arcs of its net. *)
Record split_demand := SplitDemand { tested : list jsstr; forced : list jsstr }.
Definition emptyDemand : split_demand := SplitDemand [] [].
Definition unionDemand (a b : split_demand) : split_demand :=
  SplitDemand (set_of (tested a ++ tested b)) (set_of (forced a ++ forced b)).

Definition needs_split (testedPlaces environment : list jsstr) (demand : split_demand) t : bool :=
  negb (isCompletion t) && bool_decide (t_name t ∉ environment)
  && (bool_decide (t_name t ∈ forced demand) || existsb (λ p, bool_decide (place_name p ∈ testedPlaces)) (outputPlaces t)).

Definition inFlightTransitionsFor net (environment : list jsstr) (demand : split_demand) : list jsstr :=
  let testedPlaces := set_union (nonMonotonePlaces net) (tested demand) in
  t_name <$> filter (needs_split testedPlaces environment demand) (net_transitions net).
Definition inFlightTransitions net (environment : list jsstr) : list jsstr := inFlightTransitionsFor net environment emptyDemand.

(** The demand of a lower bound at a terminal rest. *)
Definition quiescentCountDemand net (property : smt_property) : split_demand :=
  match property with
  | QuiescentCount ps min _ waivedBy =>
      let waived := set_of (place_name <$> waivedBy) in
      let unwaivedTerminal := existsb (λ p, bool_decide (place_name p ∉ waived)) (net_terminals net) in
      if (min =? 0)%Z || negb unwaivedTerminal then emptyDemand
      else SplitDemand (set_of ((place_name <$> ps) ++ waived)) []
  | _ => emptyDemand
  end.

(** The demand of conflict priority. *)
Definition prunes (ts : list (transition V)) (h : transition V) : bool :=
  existsb (λ l, bool_decide (t_name l ≠ t_name h) && (priority l <? priority h)%Z
                && existsb (λ p, bool_decide (place_name p ∈ place_name <$> inputPlaces h)) (inputPlaces l)) ts.
Definition conflictPruners net : list jsstr := t_name <$> filter (prunes (net_transitions net)) (net_transitions net).
Definition conflictDemand net : split_demand :=
  let pruners := conflictPruners net in
  foldl (λ d h, if bool_decide (t_name h ∈ pruners)
                then SplitDemand (set_union (set_union (tested d) (place_name <$> inputPlaces h)) (place_name <$> reads h)) (set_add (t_name h) (forced d))
                else d) emptyDemand (net_transitions net).

(** Why a transition cannot be split. *)
Inductive refusal_cause :=
| NuJoin
| ColouredOutput (p : jsstr)
| MultiTokenForward (from to : jsstr)
| NameTaken (name : jsstr).

(** The first forward under a timeout whose source is not [one]. *)
Fixpoint multiTokenForward (o : out) t (underTimeout : bool) : option (jsstr * jsstr) :=
  match o with
  | OutPlace _ => None
  | OutForwardInput from to =>
      let single := match js_find (λ s, bool_decide (place_name (in_place s) = place_name from)) (inputSpecs t) with
                    | None | Some (InOne _) => true | _ => false end in
      if underTimeout && negb single then Some (place_name from, place_name to) else None
  | OutTimeout _ child => multiTokenForward child t true
  | OutAnd cs | OutXor cs =>
      (fix first (l : list out) := match l with
        | [] => None
        | c :: l' => match multiTokenForward c t underTimeout with Some found => Some found | None => first l' end
        end) cs
  end.

Definition refusalCause t (coloured names : list jsstr) : option refusal_cause :=
  match t_matchSpec t with
  | Some _ => Some NuJoin
  | None =>
      let outs := stable_sort (λ a b, compareCodePoints a b <=? 0)%Z (place_name <$> outputPlaces t) in
      match js_find (λ p, bool_decide (p ∈ coloured)) outs with
      | Some p => Some (ColouredOutput p)
      | None =>
          match outputSpec t ≫= λ o, multiTokenForward o t false with
          | Some (from, to) => Some (MultiTokenForward from to)
          | None => NameTaken <$> js_find (λ n, bool_decide (n ∈ names)) [inFlightPlace (t_name t); completionTransition (t_name t)]
          end
      end
  end.

(** The coloured places, with those the match specifications colour. *)
Definition all_coloured net (coloured : list jsstr) : list jsstr :=
  set_union (set_of coloured)
    (t ← net_transitions net; match t_matchSpec t with Some ms => (key_name <$> ms_keys ms) ++ (key_name <$> ms_relays ms) | None => [] end).
Definition used_names net : list jsstr := set_of ((place_name <$> net_places net) ++ (t_name <$> net_transitions net)).

Definition firstUnsplittable net (coloured split : list jsstr) : option (jsstr * refusal_cause) :=
  head (omap (λ t, if bool_decide (t_name t ∈ split)
                   then pair (t_name t) <$> refusalCause t (all_coloured net coloured) (used_names net) else None) (net_transitions net)).

(** The output of the completion step: a forward becomes the place it forwards to. *)
Fixpoint completionOutput (o : out) : out :=
  match o with
  | OutPlace _ => o
  | OutForwardInput _ to => OutPlace to
  | OutAnd cs => OutAnd (completionOutput <$> cs)
  | OutXor cs => OutXor (completionOutput <$> cs)
  | OutTimeout ms c => OutTimeout ms (completionOutput c)
  end.

(** The start and the completion step of a transition; [p] is its in-flight place. *)
Definition start_half t (p : place) : result rewrite_error (transition V) :=
  let b := with_alias (placeAlias t) (with_priority (priority t) (with_timing (t_timing t) (builder_new (t_name t)))) in
  let b := with_resets (resets t) (with_reads (reads t) (with_inhibitors (inhibitors t) (with_inputs (inputSpecs t) b))) in
  rebuild (with_outputs (OutPlace p) (with_match_of (t_matchSpec t) b)).
Definition end_half t (p : place) : result rewrite_error (transition V) :=
  let b := with_inputs [InOne p] (with_priority (priority t) (with_timing immediate (builder_new (completionTransition (t_name t))))) in
  rebuild (with_output_of (completionOutput <$> outputSpec t) b).
Definition halves (fresh : nat) t : result rewrite_error (list (transition V)) :=
  let p := mk_place fresh (inFlightPlace (t_name t)) in
  let* start := start_half t p in
  let* end_ := end_half t p in
  Ok [start; end_].

Fixpoint split_transitions (fresh : nat) (toSplit : list jsstr) (ts : list (transition V)) : result rewrite_error (list (transition V)) :=
  match ts with
  | [] => Ok []
  | t :: ts =>
      let* here := if bool_decide (t_name t ∈ toSplit) then halves fresh t else Ok [t] in
      let* rest := split_transitions (S fresh) toSplit ts in
      Ok (here ++ rest)
  end.

(** [InFlight]; a refusal says whether an arc of the net demands the split. *)
Inductive in_flight :=
| Atomic
| Split (net : petri_net V) (split : list jsstr)
| Refused (transition : jsstr) (by_arcs : bool) (cause : refusal_cause).

Definition splitInFlightFor (fresh : nat) net (coloured environment : list jsstr) (demand : split_demand) : result rewrite_error in_flight :=
  let split := inFlightTransitionsFor net environment demand in
  if bool_decide (length split = 0) then Ok Atomic
  else
    match firstUnsplittable net coloured split with
    | Some (t, cause) => Ok (Refused t (bool_decide (t ∈ inFlightTransitions net environment)) cause)
    | None =>
        let* ts := split_transitions fresh split (net_transitions net) in
        let* rewritten := rebuild_net (net_name net) (net_places net) ts (net_terminals net) in
        Ok (Split rewritten split)
    end.
Definition splitInFlight (fresh : nat) net (coloured environment : list jsstr) : result rewrite_error in_flight :=
  splitInFlightFor fresh net coloured environment emptyDemand.

(** The starts a counterexample fires while an earlier firing is in flight. *)
Definition restartedTransitions (trace : list marking_state) (ts : list jsstr) : list jsstr :=
  if negb (length trace =? length ts + 1) then []
  else foldl (λ out x, if (0 <? ms_tokens (mk_place 0 (inFlightPlace x.1)) x.2)%Z && bool_decide (x.1 ∉ out) then out ++ [x.1] else out) [] (zip ts trace).

(** The transition of the caller's net a step stands for. *)
Definition sourceTransition net (name : jsstr) : jsstr :=
  match js_find (λ x, bool_decide (t_name x = name)) (net_transitions net) with
  | Some t => if isCompletion t then drop 9 name else name
  | None => name
  end.

(** ** Reaping *)

Definition isReapable (ti : timing) : bool := match ti with TimingDeadline _ | TimingWindow _ _ => true | _ => false end.
Definition reapableTransitions net : list jsstr := set_of (t_name <$> filter (λ t, isReapable (t_timing t)) (net_transitions net)).
Definition hasLatestBound (ti : timing) : bool := hasDeadline ti.
Definition lateTransitions net : list jsstr := set_of (t_name <$> filter (λ t, hasLatestBound (t_timing t)) (net_transitions net)).

Definition withTiming t (ti : timing) : result rewrite_error (transition V) :=
  let b := with_alias (placeAlias t) (with_priority (priority t) (with_timing ti (builder_new (t_name t)))) in
  let b := with_inhibitors (inhibitors t) (with_output_of (outputSpec t) (with_inputs (inputSpecs t) b)) in
  rebuild (with_match_of (t_matchSpec t) (with_resets (resets t) (with_reads (reads t) b))).

(** [e === 0 ? immediate() : delayed(e)]; an earliest bound is never negative, so [delayed] does not throw. *)
Definition relaxed_timing (ti : timing) : timing :=
  let e := earliest ti in if (e =? 0)%Z then immediate else TimingDelayed e.
Definition relaxes (late : list jsstr) t : bool := bool_decide (t_name t ∈ late) && hasLatestBound (t_timing t).
Definition relax (late : list jsstr) t : result rewrite_error (transition V) :=
  if relaxes late t then withTiming t (relaxed_timing (t_timing t)) else Ok t.

Definition relaxLate net (late : list jsstr) : result rewrite_error (petri_net V) :=
  if negb (existsb (relaxes late) (net_transitions net)) then Ok net
  else
    let* ts := res_map (relax late) (net_transitions net) in
    rebuild_net (net_name net) (net_places net) ts (net_terminals net).
End NetRewrites.

(** * What the rewritten transitions do

    Lemmas on [NetRewrites]: the transitions and terminals of a rebuilt net, the arcs and outcomes
    of a transition with terminal inhibitors, of a start half and of a completion half. *)
#[local] Open Scope Z_scope.

Section Facts.
Context {V : Type}.
Implicit Types (t : transition V) (net : petri_net V).

(** ** Builders *)

Lemma build_built (b : builder V) t : build b = Ok t → t = built b.
Proof.
  unfold build. intros H. do 4 apply res_seq_ok in H as [_ H]. by injection H as <-.
Qed.

Lemma rebuild_built (b : builder V) t : rebuild b = Ok t → t = built b.
Proof. unfold rebuild. destruct (build b) as [t'|] eqn:E; [|done]. intros [= <-]. by apply build_built. Qed.

Lemma res_map_elem {A B E} (f : A → result E B) l bs : res_map f l = Ok bs → ∀ b, b ∈ bs ↔ ∃ a, a ∈ l ∧ f a = Ok b.
Proof.
  revert bs. induction l as [|a l IH]; intros bs H b; cbn [res_map] in H.
  { injection H as <-. split; [by intros ?%not_elem_of_nil|]. by intros (? & ?%not_elem_of_nil & _). }
  destruct (f a) as [b0|] eqn:Ef; [|done]. cbn [res_bind] in H. destruct (res_map f l) as [bs0|]; [|done]. injection H as <-.
  rewrite elem_of_cons, (IH bs0 eq_refl b). split.
  - intros [->|(a' & Ha & E')]; [exists a; split; [left|done]|exists a'; split; [by right|done]].
  - intros (a' & [->|Ha]%elem_of_cons & E'); [left; congruence|right; by exists a'].
Qed.

(** Builder calls that add transitions under references in order. *)
Lemma place_calls (ps : list place) (b : net_builder V) :
  nb_transitions (foldl (λ b call, nb_run call b) b (CallPlace <$> ps)) = nb_transitions b ∧ nb_terminals (foldl (λ b call, nb_run call b) b (CallPlace <$> ps)) = nb_terminals b.
Proof. revert b. induction ps as [|p ps IH]; intros b; [done|]. rewrite fmap_cons. cbn [foldl]. by destruct (IH (nb_run (CallPlace p) b)) as [-> ->]. Qed.

Lemma transition_calls (ts : list (transition V)) k (b : net_builder V) : (∀ i, i ∈ (nb_transitions b).*1 → (i < k)%nat) →
  let b' := foldl (λ b call, nb_run call b) b (imap (λ i t, CallTransition (k + i)%nat t) ts) in
  (nb_transitions b').*2 = (nb_transitions b).*2 ++ ts ∧ nb_terminals b' = nb_terminals b.
Proof.
  revert k b. induction ts as [|t ts IH]; intros k b Hk; cbn zeta; [by rewrite app_nil_r|]. cbn [imap foldl nb_run]. unfold nb_transition.
  rewrite decide_False by (rewrite Nat.add_0_r; intros ?%Hk; lia).
  rewrite (imap_ext _ (λ i t, CallTransition (S k + i)%nat t)) by (intros; cbn; f_equal; lia).
  edestruct (IH (S k)) as [-> ->]; [|cbn; by rewrite fmap_app, <- app_assoc]. cbn [nb_transitions]. intros i. rewrite fmap_app, elem_of_app.
  intros [?%Hk|?%list_elem_of_singleton]; cbn in *; lia.
Qed.

Lemma terminal_calls (ps : list place) (b : net_builder V) : Forall (λ x, place_name x.2 = x.1) (nb_terminals b) →
  let b' := foldl (λ b call, nb_run call b) b (CallTerminal <$> ps) in
  nb_transitions b' = nb_transitions b ∧ Forall (λ x, place_name x.2 = x.1) (nb_terminals b') ∧
  ∀ n, n ∈ (nb_terminals b').*1 ↔ n ∈ (nb_terminals b).*1 ∨ n ∈ place_name <$> ps.
Proof.
  revert b. induction ps as [|p ps IH]; intros b Hb; cbn zeta; [split_and!; [done|done|]; intros; split; [by left|]; by intros [?|?%not_elem_of_nil]|].
  rewrite fmap_cons. cbn [foldl]. destruct (IH (nb_run (CallTerminal p) b)) as (E1 & E2 & E3).
  { cbn. destruct (map_get _ _) eqn:E; [done|]. rewrite map_set_fresh by done. apply Forall_app. split; [done|by repeat constructor]. }
  split_and!; [done|done|]. intros n. rewrite E3, fmap_cons, elem_of_cons. cbn. destruct (map_get (place_name p) (nb_terminals b)) eqn:E.
  - apply map_get_elem, (list_elem_of_fmap_2 fst) in E. cbn in E. split; [tauto|]. intros [?|[->|?]]; tauto.
  - rewrite elem_of_map_set_keys. tauto.
Qed.

Lemma terminal_names (l : list (jsstr * place)) : Forall (λ x, place_name x.2 = x.1) l → place_name <$> l.*2 = l.*1.
Proof. induction 1 as [|x l Hx _ IH]; [done|]. rewrite !fmap_cons, IH. by rewrite Hx. Qed.

Lemma rebuild_net_ok name ps (ts : list (transition V)) terminals net : rebuild_net name ps ts terminals = Ok net →
  net_transitions net = ts ∧ ∀ n, n ∈ place_name <$> net_terminals net ↔ n ∈ place_name <$> terminals.
Proof.
  unfold rebuild_net. destruct (net_build _) as [net'|] eqn:E; [|done]. intros [= <-]. unfold net_build in E.
  apply res_seq_ok in E as [_ E]. injection E as <-. cbn [net_transitions net_terminals]. rewrite !foldl_app.
  destruct (place_calls ps (net_builder_new name)) as [P1 P2]. set (b1 := foldl _ (net_builder_new name) (CallPlace <$> ps)) in *.
  destruct (transition_calls ts 0 b1) as [T1 T2]; [rewrite P1; by intros ? ?%not_elem_of_nil|]. cbn zeta in T1, T2.
  change (imap (λ i t, CallTransition (0 + i)%nat t) ts) with (imap CallTransition ts) in T1, T2.
  set (b2 := foldl _ b1 _) in *. assert (nb_terminals b2 = []) as E0 by (by rewrite T2, P2).
  destruct (terminal_calls terminals b2) as (A1 & A2 & A3); [by rewrite E0|]. cbn zeta in A1, A2, A3. split.
  - rewrite A1, T1, P1. done.
  - intros n. rewrite terminal_names by done. rewrite A3, E0. split; [|by right]. by intros [?%not_elem_of_nil|?].
Qed.

(** ** Transitions with the same arcs *)

(** [t'] fires as [t] does, but not while a place of [stop] is marked. *)
Record inhibited_by (stop : jsstr → Prop) t t' : Prop := {
  ib_name : t_name t' = t_name t;
  ib_inputs : inputSpecs t' = inputSpecs t;
  ib_reads : reads t' = reads t;
  ib_resets : resets t' = resets t;
  ib_inhibitors : ∀ n, n ∈ place_name <$> inhibitors t' ↔ n ∈ place_name <$> inhibitors t ∨ stop n
}.

Lemma inhibitors_free (ps : list place) (c : jsstr → Z) : forallb (λ p, c (place_name p) <=? 0) ps = true ↔ ∀ n, n ∈ place_name <$> ps → c n <= 0.
Proof.
  rewrite forallb_elem. setoid_rewrite Z.leb_le. split; [|by intros H p Hp; apply H, list_elem_of_fmap_2].
  by intros H n (p & -> & Hp)%list_elem_of_fmap; apply H.
Qed.

Lemma inhibited_enabled stop t t' c : inhibited_by stop t t' → enabled_counts [] Ignore t' c = true ↔
  enabled_counts [] Ignore t c = true ∧ ∀ n, stop n → c n <= 0.
Proof.
  intros H. unfold enabled_counts. rewrite (ib_inputs _ _ _ H), (ib_reads _ _ _ H), !andb_true_iff, !inhibitors_free.
  setoid_rewrite (ib_inhibitors _ _ _ H). naive_solver.
Qed.

Lemma inhibited_intermediate stop t t' c n : inhibited_by stop t t' → intermediate_counts [] Ignore t' c n = intermediate_counts [] Ignore t c n.
Proof. intros H. unfold intermediate_counts, removed, spec_of. by rewrite (ib_inputs _ _ _ H), (ib_resets _ _ _ H). Qed.

Lemma inhibited_drained stop t t' c p : inhibited_by stop t t' → drained_counts [] Ignore t' c p = drained_counts [] Ignore t c p.
Proof. intros H. unfold drained_counts, spec_of. by rewrite (ib_inputs _ _ _ H). Qed.

Lemma inhibited_trans stop t t1 t2 : inhibited_by (λ _, False) t t1 → inhibited_by stop t1 t2 → inhibited_by stop t t2.
Proof.
  intros H1 H2. split; [by rewrite (ib_name _ _ _ H2), (ib_name _ _ _ H1)|by rewrite (ib_inputs _ _ _ H2), (ib_inputs _ _ _ H1)
    |by rewrite (ib_reads _ _ _ H2), (ib_reads _ _ _ H1)|by rewrite (ib_resets _ _ _ H2), (ib_resets _ _ _ H1)|].
  intros n. rewrite (ib_inhibitors _ _ _ H2), (ib_inhibitors _ _ _ H1). tauto.
Qed.

Lemma timeoutDeposits_inputs t t' o acc : inputSpecs t' = inputSpecs t → t_name t' = t_name t → timeoutDeposits t' o acc = timeoutDeposits t o acc.
Proof.
  intros Ei En. revert acc. induction o as [cs IH|cs IH|p|ms c IH|f to] using out_ind'; intros acc; cbn [timeoutDeposits]; [|by rewrite En|done|done|].
  - generalize (Ok acc : result outcome_error (list (jsstr * outcome_deposit))). clear acc. intros r. revert r.
    induction IH as [|c cs Hc _ IH]; intros r; [done|]. cbn [foldl]. rewrite IH. f_equal. destruct r; cbn [res_bind]; [by rewrite Hc|done].
  - unfold forwardDeposit. by rewrite Ei.
Qed.

Lemma outcomes_same t t' : inputSpecs t' = inputSpecs t → t_name t' = t_name t → outputSpec t' = outputSpec t → actionTimeout t' = actionTimeout t →
  outcomes t' = outcomes t.
Proof.
  intros Ei En Eo Ea. unfold outcomes. rewrite Eo, Ea. destruct (outputSpec t) as [o|]; [|done]. cbn zeta. destruct (actionTimeout t) as [[ms c]|]; [|done].
  by rewrite (timeoutDeposits_inputs t t').
Qed.

(** A transition whose timeout is that of its output specification, as every built one. *)
Definition timeout_kept t : Prop := actionTimeout t = outputSpec t ≫= findTimeout.

Lemma built_timeout (b : builder V) : timeout_kept (built b).
Proof. done. Qed.

(** ** Terminal inhibitors *)

Lemma withInhibitors_spec t ps t' : withInhibitors t ps = Ok t' →
  t_name t' = t_name t ∧ inputSpecs t' = inputSpecs t ∧ outputSpec t' = outputSpec t ∧ reads t' = reads t ∧ resets t' = resets t ∧
  inhibitors t' = inhibitors t ++ ps ∧ timeout_kept t' ∧ t_timing t' = t_timing t ∧ priority t' = priority t ∧ placeAlias t' = placeAlias t.
Proof.
  intros ->%rebuild_built. destruct (outputSpec t) as [o|] eqn:Eo, (t_matchSpec t) as [ms|]; cbn; by rewrite ?app_nil_r.
Qed.

Lemma inhibit_spec (terminals : list place) t t' : timeout_kept t → inhibit terminals t = Ok t' →
  inhibited_by (λ n, n ∈ place_name <$> terminals) t t' ∧ outcomes t' = outcomes t ∧ timeout_kept t'.
Proof.
  intros Ht. unfold inhibit. case_bool_decide as El.
  - intros [= <-]. split; [|done]. split; try done. intros n. split; [by left|]. intros [?|(p & -> & Hp)%list_elem_of_fmap]; [done|].
    destruct (decide (place_name p ∈ place_name <$> inhibitors t)) as [|Hn]; [done|].
    assert (p ∈ missing_terminals terminals t) as Hm by (by apply list_elem_of_filter). apply nil_length_inv in El. rewrite El in Hm. by apply not_elem_of_nil in Hm.
  - intros (E1 & E2 & E3 & E4 & E5 & E6 & E7 & _)%withInhibitors_spec. split; [|split; [|done]].
    + split; try done. intros n. rewrite E6, fmap_app, elem_of_app. split; intros [H|H]; try (by left).
      * right. apply list_elem_of_fmap in H as (p & -> & [_ Hp]%list_elem_of_filter). by apply list_elem_of_fmap_2.
      * apply list_elem_of_fmap in H as (p & -> & Hp). destruct (decide (place_name p ∈ place_name <$> inhibitors t)) as [|Hn]; [by left|].
        right. apply list_elem_of_fmap_2, list_elem_of_filter. done.
    + apply outcomes_same; [done|done|done|]. unfold timeout_kept in *. by rewrite E7, Ht, E3.
Qed.

(** ** Halves *)

Lemma start_half_spec t p t' : start_half t p = Ok t' →
  inhibited_by (λ _, False) t t' ∧ outputSpec t' = Some (OutPlace p) ∧ timeout_kept t'.
Proof.
  intros ->%rebuild_built. destruct (t_matchSpec t) as [ms|]; cbn; (split; [|done]); split; cbn; rewrite ?app_nil_r; try done; intros n; tauto.
Qed.

Lemma end_half_spec t p t' : end_half t p = Ok t' →
  t_name t' = completionTransition (t_name t) ∧ inputSpecs t' = [InOne p] ∧ reads t' = [] ∧ resets t' = [] ∧ inhibitors t' = [] ∧
  outputSpec t' = completionOutput <$> outputSpec t ∧ timeout_kept t'.
Proof. intros ->%rebuild_built. destruct (outputSpec t); done. Qed.

Lemma start_outcomes t p t' : outputSpec t' = Some (OutPlace p) → timeout_kept t' → ∃ o, outcomes t' = Ok [o] ∧
  ∀ d n, deposited d o n = if decide (n = place_name p) then 1 else 0.
Proof.
  intros Eo Ht. exists (branch_outcome [p]). split.
  - unfold outcomes. rewrite Eo, Ht, Eo. done.
  - intros d n. rewrite branch_outcome_deposited by apply NoDup_singleton. cbn. destruct (decide (n = place_name p)) as [->|Hne].
    + by rewrite decide_True by left.
    + rewrite decide_False; [done|]. by intros ?%list_elem_of_singleton.
Qed.

(** ** The completion deposits what the transition does *)

Lemma findTimeout_completion o : findTimeout (completionOutput o) = (λ x, (x.1, completionOutput x.2)) <$> findTimeout o.
Proof.
  induction o as [cs IH|cs IH|p|ms c IH|f to] using out_ind'; cbn [completionOutput findTimeout]; try done.
  all: induction IH as [|c cs Hc _ IH]; [done|]; rewrite fmap_cons, Hc; destruct (findTimeout c) as [[ms' c']|]; [done|exact IH].
Qed.

Lemma enumerate_completion o : enumerateBranches (completionOutput o) = enumerateBranches o.
Proof.
  induction o as [cs IH|cs IH|p|ms c IH|f to] using out_ind'; cbn [completionOutput enumerateBranches]; try done.
  - generalize [@nil place]. induction IH as [|c cs Hc _ IH]; intros acc; [done|]. rewrite fmap_cons. cbn [foldl]. by rewrite Hc, IH.
  - generalize (@nil (list place)). induction IH as [|c cs Hc _ IH]; intros acc; [done|]. rewrite fmap_cons. cbn [foldl]. by rewrite Hc, IH.
Qed.

Lemma findTimeout_forward o t ms c : findTimeout o = Some (ms, c) → multiTokenForward o t false = None → multiTokenForward c t true = None.
Proof.
  induction o as [cs IH|cs IH|p|ms' c' IH|f to] using out_ind'; cbn [findTimeout multiTokenForward]; try done; [| |by intros [= -> ->]].
  all: induction IH as [|d cs Hd _ IH]; [done|]; destruct (findTimeout d) as [x|];
    destruct (multiTokenForward d t false); try done; intros [= ->] _; by apply Hd.
Qed.

Lemma forward_single t f to : multiTokenForward (OutForwardInput f to) t true = None → place_name f ∈ input_names (inputSpecs t) → forwardDeposit t f = ONE.
Proof.
  cbn [multiTokenForward]. unfold forwardDeposit. destruct (js_find _ _) as [s|] eqn:E.
  - by destruct s.
  - intros _ H. exfalso. unfold input_names in H. apply list_elem_of_fmap in H as (s & Es & Hs). unfold js_find in E.
    destruct (list_find _ _) as [[k y]|] eqn:El; [done|]. apply list_find_None in El. rewrite Forall_forall in El. apply (El s Hs).
    by apply Is_true_true, bool_decide_eq_true.
Qed.

Lemma completion_deposits t t' o acc : multiTokenForward o t true = None → containsXor o = false → (∀ f to, (f, to) ∈ findForwardInputs o → place_name f ∈ input_names (inputSpecs t)) →
  timeoutDeposits t' (completionOutput o) acc = timeoutDeposits t o acc.
Proof.
  revert acc. induction o as [cs IH|cs IH|p|ms c IH|f to] using out_ind'; intros acc Hm Hx Hf; cbn [completionOutput timeoutDeposits]; try done.
  - generalize (Ok acc : result outcome_error (list (jsstr * outcome_deposit))). clear acc. intros r. cbn [multiTokenForward] in Hm. cbn [containsXor] in Hx. revert r Hm Hx Hf.
    induction IH as [|c cs Hc _ IH]; intros r Hm Hx Hf; [done|]. rewrite fmap_cons. cbn [foldl].
    cbn [existsb] in Hx. apply orb_false_iff in Hx as [Hx1 Hx2]. destruct (multiTokenForward c t true) eqn:Em; [done|].
    rewrite IH; [|done|done|intros; eapply Hf; cbn [findForwardInputs flat_map]; apply elem_of_app; right; done].
    f_equal. destruct r; cbn [res_bind]; [|done]. apply Hc; [done|done|]. intros. eapply Hf. cbn [findForwardInputs flat_map]. apply elem_of_app. by left.
  - by apply IH.
  - rewrite (forward_single t f to) by (done || (apply (Hf f to); left)). done.
Qed.

Lemma end_outcomes t t' p : (∀ o, outputSpec t = Some o → output_wf (input_names (inputSpecs t)) o) → timeout_kept t → refusalCause t [] [] = None →
  end_half t p = Ok t' → outcomes t' = outcomes t.
Proof.
  intros Hwf Ht Hr (En & _ & _ & _ & _ & Eo & Hk)%end_half_spec. unfold outcomes. rewrite Eo, Hk, Ht, Eo.
  destruct (outputSpec t) as [o|] eqn:Eot; [|done]. change (completionOutput <$> Some o) with (Some (completionOutput o)). cbn [mbind option_bind]. cbn zeta.
  rewrite findTimeout_completion, enumerate_completion. destruct (findTimeout o) as [[ms c]|] eqn:Ef; [|done]. cbn [fmap option_fmap option_map fst snd].
  destruct (Hwf o eq_refl) as (_ & Hn & Hx & _ & Hfwd).
  destruct (findTimeout_ok o ms c Hn Hx Ef) as (X1 & _ & X3).
  rewrite (completion_deposits t t' c []); [done| |done|intros f to Hin%X3; by eapply Hfwd].
  apply (findTimeout_forward o t ms c Ef). unfold refusalCause in Hr. destruct (t_matchSpec t); [done|]. rewrite Eot in Hr.
  destruct (js_find _ _); [done|]. cbn [mbind option_bind] in Hr. destruct (multiTokenForward o t false) as [[]|]; done.
Qed.

(** Such a transition deposits numbers of tokens. *)
Lemma timeoutDeposits_single t o acc m : multiTokenForward o t true = None → (∀ f to, (f, to) ∈ findForwardInputs o → place_name f ∈ input_names (inputSpecs t)) →
  timeoutDeposits t o acc = Ok m → (∀ n d, (n, d) ∈ acc → ∃ k, od_deposit d = DepositTokens k) → ∀ n d, (n, d) ∈ m → ∃ k, od_deposit d = DepositTokens k.
Proof.
  revert acc m. induction o as [cs IH|cs IH|p|ms c IH|f to] using out_ind'; intros acc m Hm Hf E Ha; cbn [timeoutDeposits] in E; [|done| |by apply (IH acc)|].
  - cbn [multiTokenForward] in Hm. revert acc E Hm Hf Ha. induction IH as [|c cs Hc _ IH]; intros acc E Hm Hf Ha; [by injection E as <-|].
    cbn [foldl res_bind] in E. destruct (multiTokenForward c t true) eqn:Em; [done|].
    destruct (timeoutDeposits t c acc) as [m1|e] eqn:E1; [|exfalso; clear -E; induction cs as [|c' cs IHl]; [done|by apply IHl]].
    apply (IH m1); [done|done|intros; eapply Hf; cbn [findForwardInputs flat_map]; apply elem_of_app; by right|].
    apply (Hc acc); [done|intros; eapply Hf; cbn [findForwardInputs flat_map]; apply elem_of_app; by left|done|done].
  - injection E as <-. intros n d [[-> ->]|Hd]%map_set_entries; [by exists 1|by eapply Ha].
  - rewrite (forward_single t f to) in E by (done || (apply (Hf f to); left)). injection E as <-. intros n d [[-> ->]|Hd]%map_set_entries; [by exists 1|by eapply Ha].
Qed.

Lemma makeOutcome_elem m d : d ∈ deposits (makeOutcome m) → ∃ n, (n, d) ∈ m.
Proof.
  unfold makeOutcome. cbn [deposits]. rewrite stable_sort_Permutation. intros ([n d'] & -> & Hd)%list_elem_of_fmap. by exists n.
Qed.

Lemma branch_deposits ps d : d ∈ deposits (branch_outcome ps) → od_deposit d = ONE.
Proof.
  intros (n & Hn)%makeOutcome_elem. revert Hn. assert (∀ m : list (jsstr * outcome_deposit), (∀ x, x ∈ m → od_deposit x.2 = ONE) →
    ∀ x, x ∈ foldl (λ m p, map_set (place_name p) (OutcomeDeposit p ONE) m) m ps → od_deposit x.2 = ONE) as H.
  { induction ps as [|p ps IH]; intros m Hm; [done|]. cbn [foldl]. apply IH. intros [k v] [[-> ->]|Hk]%map_set_entries; [done|by apply (Hm (k, v))]. }
  intros Hn. apply (H [] ltac:(by intros ? ?%not_elem_of_nil) (n, d) Hn).
Qed.

Lemma single_deposits t : (∀ o, outputSpec t = Some o → output_wf (input_names (inputSpecs t)) o) → timeout_kept t → refusalCause t [] [] = None →
  ∀ os o, outcomes t = Ok os → o ∈ os → ∀ x, x ∈ deposits o → ∃ k, od_deposit x = DepositTokens k.
Proof.
  intros Hwf Ht Hr os o Eos Ho x Hx. unfold outcomes in Eos. rewrite Ht in Eos. destruct (outputSpec t) as [s|] eqn:Es.
  2:{ injection Eos as <-. apply list_elem_of_singleton in Ho as ->. by apply not_elem_of_nil in Hx. }
  cbn [mbind option_bind] in Eos. cbn zeta in Eos. set (acts := if bool_decide _ then _ else _) in Eos.
  assert (∀ o, o ∈ acts → ∀ x, x ∈ deposits o → ∃ k, od_deposit x = DepositTokens k) as Hacts.
  { clear. intros o Ho x Hx. unfold acts in Ho. case_bool_decide.
    - apply list_elem_of_singleton in Ho as ->. by apply not_elem_of_nil in Hx.
    - apply list_elem_of_fmap in Ho as (ps & -> & _). apply branch_deposits in Hx. by exists 1. }
  destruct (findTimeout s) as [[ms c]|] eqn:Ef; [|injection Eos as <-; by apply (Hacts o)].
  destruct (timeoutDeposits t c []) as [m|] eqn:Em; [|done]. cbn [res_bind] in Eos. injection Eos as <-.
  assert (∀ o, o = makeOutcome m → ∀ x, x ∈ deposits o → ∃ k, od_deposit x = DepositTokens k) as Hto.
  { intros ? -> y (n & Hy)%makeOutcome_elem. destruct (Hwf s eq_refl) as (_ & Hn & Hx' & _ & Hfwd). destruct (findTimeout_ok s ms c Hn Hx' Ef) as (_ & _ & X3).
    eapply (timeoutDeposits_single t c []); [|intros f to Hin%X3; by eapply Hfwd|exact Em|by intros ? ? ?%not_elem_of_nil|exact Hy].
    apply (findTimeout_forward s t ms c Ef). unfold refusalCause in Hr. destruct (t_matchSpec t); [done|]. rewrite Es in Hr.
    destruct (js_find _ _); [done|]. cbn [mbind option_bind] in Hr. destruct (multiTokenForward s t false) as [[]|]; done. }
  destruct (existsb _ _); [by apply (Hacts o)|]. apply elem_of_app in Ho as [Ho|Ho]; [by apply (Hacts o)|]. apply list_elem_of_singleton in Ho. by apply (Hto o).
Qed.

(** What a one-token forward leaves: deposits of a number of tokens. *)
Lemma refusal_forward t coloured names : refusalCause t coloured names = None → refusalCause t [] [] = None ∧
  (inFlightPlace (t_name t) ∉ names ∧ completionTransition (t_name t) ∉ names).
Proof.
  unfold refusalCause. destruct (t_matchSpec t); [done|]. destruct (js_find _ _); [done|].
  assert (∀ l : list jsstr, js_find (λ p, bool_decide (p ∈ ([] : list jsstr))) l = None) as Hnil.
  { intros l. unfold js_find. destruct (list_find _ l) as [[k y]|] eqn:E; [|done]. apply list_find_Some in E as (_ & E & _).
    apply Is_true_true, bool_decide_eq_true in E. by apply not_elem_of_nil in E. }
  rewrite !Hnil. destruct (_ ≫= _) as [[]|]; [done|]. intros H. split; [done|]. unfold js_find in H. destruct (list_find _ _) as [[k y]|] eqn:E; [done|].
  apply list_find_None in E. rewrite !Forall_cons in E. destruct E as (E1 & E2 & _). rewrite Is_true_true, bool_decide_eq_true in E1, E2. done.
Qed.
End Facts.
