(* ===== verification/InFlightRuns.v ===== *)
(** * The two-step firing of the executor, and when one step is enough

    The executor consumes a firing's inputs when its action starts and deposits its outputs when the
    action ends, other firings in between ([src/typescript/src/verification/in-flight.ts], module
    comment). [two_step_reachable] is that rule on counts, with the firings in flight; a transition
    of [instant] fires in one step. [restarts] is whether a transition may start again while a
    firing of its own is in flight (CONC-002): the TypeScript executor's rule is [false], the
    abstraction the analyses read [true]. The reduction: transitions none of whose outputs is tested may
    fire in one step without changing what is reached. *)
From S2P Require Import Prelude.
From S2P Require Import CodePoints.
From S2P Require Import Net.
From S2P Require Import Out.
From S2P Require Import OutSpec.
From S2P Require Import Transition.
From S2P Require Import MarkingState.
From S2P Require Import Outcomes.
From S2P Require Import StateClass.
From S2P Require Import ClassSteps.
From S2P Require Import FlatNet.
From S2P Require Import StubbornRuns.
From S2P Require Import NetRewrites.
From S2P Require Import Context.
From S2P Require Import PetriNet.
From S2P Require Import SmtProperty.
From S2P Require Import GraphExact.
From S2P Require Import ReplayContract.
From S2P Require Import ScgExact.
#[local] Open Scope Z_scope.

Section TwoStep.
Context {V : Type}.
Variables (ts : list (transition V)) (terminals : list jsstr) (m0 : marking_state) (restarts : bool).
Implicit Types (t : transition V) (c a : jsstr → Z) (instant : transition V → bool).
Local Abbreviation enabled := (enabled_counts [] Ignore).
Local Abbreviation intermediate := (intermediate_counts [] Ignore).
Local Abbreviation batch := (drained_counts [] Ignore).

(** A firing in flight: its transition, and the tokens its inputs gave. *)
Abbreviation pending := (nat * (place → Z))%type.
Implicit Types (F : list pending).

(** A marked terminal place stops the net. *)
Definition stopped c : bool := existsb (λ p, 0 <? c p) terminals.

(** [restarts] says whether a transition may start again while a firing of its own is in flight
    (CONC-002): the TypeScript executor never does that. *)
Inductive two_step_reachable instant : (jsstr → Z) → list pending → Prop :=
| two_initial c : (∀ n, c n = count_of m0 n) → two_step_reachable instant c []
| two_start c F c' i t d : two_step_reachable instant c F → ts !! i = Some t → instant t = false → restarts = true ∨ i ∉ F.*1 → stopped c = false →
    enabled t c = true → (∀ n, c' n = intermediate t c n) → (∀ p, d p = batch t c p) → two_step_reachable instant c' (F ++ [(i, d)])
| two_land c F1 F2 c' i t d os o : two_step_reachable instant c (F1 ++ (i, d) :: F2) → ts !! i = Some t → stopped c = false →
    outcomes t = Ok os → o ∈ os → (∀ n, c' n = c n + deposited d o n) → two_step_reachable instant c' (F1 ++ F2)
| two_instant c F c' i t os o : two_step_reachable instant c F → ts !! i = Some t → instant t = true → stopped c = false →
    enabled t c = true → outcomes t = Ok os → o ∈ os → (∀ n, c' n = fired_counts [] Ignore t o c n) → two_step_reachable instant c' F.

Hypothesis Hin : ∀ t, t ∈ ts → inputs_wf (inputSpecs t).
Hypothesis Hout : ∀ t os oc d, t ∈ ts → outcomes t = Ok os → oc ∈ os → d ∈ deposits oc →
  deposit_ok t d ∧ place_name (od_place d) ∈ place_name <$> outputPlaces t.
Hypothesis Hm0 : ms_wf m0.

Lemma stopped_false c : stopped c = false ↔ ∀ p, p ∈ terminals → c p <= 0.
Proof.
  unfold stopped. rewrite <- not_true_iff_false, existsb_exists. split.
  - intros H p Hp. destruct (Z.le_gt_cases (c p) 0); [done|]. destruct H. exists p. split; [by apply list_elem_of_In|by apply Z.ltb_lt].
  - intros H (p & Hp%list_elem_of_In & Hlt%Z.ltb_lt). specialize (H p Hp). lia.
Qed.

Lemma stopped_ext c c' : (∀ p, p ∈ terminals → c p = c' p) → stopped c = false → stopped c' = false.
Proof. rewrite !stopped_false. intros E H p Hp. rewrite <- E by done. by apply H. Qed.

Lemma two_step_ext instant c c' F : (∀ n, c' n = c n) → two_step_reachable instant c F → two_step_reachable instant c' F.
Proof.
  intros E H. destruct H.
  - apply two_initial. intros. by rewrite E.
  - eapply two_start; try done. intros. by rewrite E.
  - eapply two_land; try done. intros. by rewrite E.
  - eapply two_instant; try done. intros. by rewrite E.
Qed.

(** ** The counts of a run *)

Lemma intermediate_bounds t c n : t ∈ ts → 0 <= c n → 0 <= intermediate t c n <= c n.
Proof.
  intros Ht Hc. pose proof (removed_bounds [] Ignore t c n (Hin t Ht) Hc). unfold intermediate_counts. case_decide; lia.
Qed.

Definition flight_ok instant (f : pending) : Prop := (∀ p, 0 <= f.2 p) ∧ ∃ t, ts !! f.1 = Some t ∧ instant t = false.

Lemma deposit_nonneg t os o d n : t ∈ ts → outcomes t = Ok os → o ∈ os → (∀ p, 0 <= d p) → 0 <= deposited d o n.
Proof.
  intros Ht Eos Ho Hd. assert (∀ x, x ∈ deposits o → 0 <= depositCount (od_deposit x) d) as H.
  { intros x Hx. destruct (Hout t os o x Ht Eos Ho Hx) as [H _]. unfold deposit_ok in H. destruct (od_deposit x); cbn; [done|apply Hd]. }
  unfold deposited. induction (deposits o) as [|x l IH]; [done|]. cbn [total_deposit foldr]. unfold total_deposit in IH.
  pose proof (H x ltac:(left)). assert (∀ y, y ∈ l → 0 <= depositCount (od_deposit y) d) as H' by (intros; apply H; by right). specialize (IH H').
  case_decide; lia.
Qed.

Lemma two_step_ok instant c F : two_step_reachable instant c F → nonneg c ∧ Forall (flight_ok instant) F.
Proof.
  induction 1 as [c Hc|c F c' i t d _ [IH1 IH2] Et Ei _ _ _ Hc' Hd|c F1 F2 c' i t d os o _ [IH1 IH2] Et _ Eos Ho Hc'|c F c' i t os o _ [IH1 IH2] Et _ _ _ Eos Ho Hc'].
  - split; [|constructor]. intros n. rewrite Hc. by apply count_nonneg.
  - assert (t ∈ ts) as Ht by (by eapply list_elem_of_lookup_2). split.
    + intros n. rewrite Hc'. by apply intermediate_bounds.
    + apply Forall_app. split; [done|]. repeat constructor; [|by exists t]. intros p. cbn. rewrite Hd. apply drained_nonneg; [by apply Hin|done].
  - assert (t ∈ ts) as Ht by (by eapply list_elem_of_lookup_2). apply Forall_app in IH2 as [H1 [H2 H3]%Forall_cons]. split.
    + intros n. rewrite Hc'. pose proof (deposit_nonneg t os o d n Ht Eos Ho (proj1 H2)). specialize (IH1 n). lia.
    + by apply Forall_app.
  - assert (t ∈ ts) as Ht by (by eapply list_elem_of_lookup_2). split; [|done]. intros n. rewrite Hc'. unfold fired_counts.
    pose proof (intermediate_bounds t c n Ht (IH1 n)).
    assert (0 <= deposited (batch t c) o n); [|lia]. apply (deposit_nonneg t os); try done. intros p. apply drained_nonneg; [by apply Hin|done].
Qed.

(** ** More tokens on untested places *)

Variable tested : list jsstr.
Hypothesis Htested : ∀ n, n ∈ terminals → n ∈ tested.
Hypothesis Hinh : ∀ t p, t ∈ ts → p ∈ inhibitors t → place_name p ∈ tested.
Hypothesis Hreset : ∀ t p, t ∈ ts → p ∈ resets t → place_name p ∈ tested.
Hypothesis Hdrain : ∀ t s, t ∈ ts → s ∈ inputSpecs t → is_drain s = true → place_name (in_place s) ∈ tested.

(** Tokens added where no arc tests non-monotonically. *)
Definition extra a : Prop := nonneg a ∧ ∀ n, n ∈ tested → a n = 0.

Lemma take_count_mono s z b : is_drain s = false → take_count s (z + b) = take_count s z.
Proof. by destruct s. Qed.

Lemma supplied_closed n : supplied [] Ignore n = false.
Proof. unfold supplied. by rewrite andb_false_r. Qed.

Lemma enabled_more t c a : t ∈ ts → extra a → enabled t c = true → enabled t (λ n, c n + a n) = true.
Proof.
  intros Ht [Ha Hz]. unfold enabled_counts. rewrite !andb_true_iff, !forallb_forall. unfold can_take. setoid_rewrite supplied_closed.
  setoid_rewrite <- list_elem_of_In. setoid_rewrite Z.leb_le. intros [[H1 H2] H3]. split_and!.
  - intros s Hs. specialize (H1 s Hs). specialize (Ha (place_name (in_place s))). lia.
  - intros p Hp. specialize (H2 p Hp). specialize (Ha (place_name p)). lia.
  - intros p Hp. rewrite Hz by (by eapply Hinh). specialize (H3 p Hp). lia.
Qed.

Lemma required_of t c n s : enabled t c = true → spec_of t n = Some s → requiredCount s <= c n.
Proof.
  unfold enabled_counts. rewrite !andb_true_iff, !forallb_forall. unfold can_take. setoid_rewrite supplied_closed. setoid_rewrite Z.leb_le.
  intros [[H _] _] [Hs <-]%spec_of_Some. apply H. by apply list_elem_of_In.
Qed.

Lemma take_more t c a n s : t ∈ ts → extra a → enabled t c = true → spec_of t n = Some s → take_count s (c n + a n) = take_count s (c n).
Proof.
  intros Ht [_ Hz] He Es. destruct (is_drain s) eqn:Ed; [|by apply take_count_mono].
  apply spec_of_Some in Es as [Hs <-]. rewrite Hz by (by eapply Hdrain). by rewrite Z.add_0_r.
Qed.

Lemma intermediate_more t c a n : t ∈ ts → extra a → enabled t c = true → intermediate t (λ n, c n + a n) n = intermediate t c n + a n.
Proof.
  intros Ht Ha He. unfold intermediate_counts. case_decide as Er.
  { apply list_elem_of_fmap in Er as (p & -> & Hp). rewrite (proj2 Ha) by (by eapply Hreset). done. }
  unfold removed. destruct (spec_of t n) as [s|] eqn:Es; [|lia]. rewrite supplied_closed. pose proof (required_of t c n s He Es). pose proof (proj1 Ha n).
  rewrite !(proj2 (Z.ltb_ge _ _)) by lia. cbn [orb]. rewrite (take_more t) by done. lia.
Qed.

Lemma drained_more t c a p : t ∈ ts → extra a → enabled t c = true → batch t (λ n, c n + a n) p = batch t c p.
Proof.
  intros Ht Ha He. unfold drained_counts. destruct (spec_of t (place_name p)) as [s|] eqn:Es; [|done]. rewrite supplied_closed.
  pose proof (required_of t c _ s He Es). pose proof (proj1 Ha (place_name p)). rewrite !(proj2 (Z.ltb_ge _ _)) by lia. by apply (take_more t).
Qed.

Lemma stopped_more c a : extra a → stopped c = false → stopped (λ n, c n + a n) = false.
Proof. intros [_ Hz]. apply stopped_ext. intros p Hp. rewrite Hz by auto. lia. Qed.

(** ** The reduction *)

Variables (instant split : transition V → bool).
Hypothesis Hsplit : ∀ t p, t ∈ ts → instant t = false → split t = false → p ∈ outputPlaces t → place_name p ∉ tested.
Hypothesis Hinstant : ∀ t, t ∈ ts → split t = true → instant t = false.

(** The transitions that fire in one step once the others are split. *)
Definition one_step (t : transition V) : bool := negb (split t).

(** [landing F a G]: the flights of [F] that are not split land with some outcome each, adding [a];
    [G] are the others. *)
Inductive landing : list pending → (jsstr → Z) → list pending → Prop :=
| landing_nil a : (∀ n, a n = 0) → landing [] a []
| landing_keep i t d F a G : ts !! i = Some t → split t = true → landing F a G → landing ((i, d) :: F) a ((i, d) :: G)
| landing_land i t d os o F a a' G : ts !! i = Some t → split t = false → instant t = false → outcomes t = Ok os → o ∈ os → (∀ p, 0 <= d p) →
    landing F a G → (∀ n, a' n = deposited d o n + a n) → landing ((i, d) :: F) a' G.

Lemma landing_ext F a a' G : (∀ n, a' n = a n) → landing F a G → landing F a' G.
Proof.
  intros E H. revert a' E. induction H as [a Ha|i t d F a G Et Es _ IH|i t d os o F a b G Et Es Ei Eos Ho Hd H _ Hb]; intros a' E.
  - apply landing_nil. intros. by rewrite E.
  - eapply landing_keep; [done|done|]. by apply IH.
  - eapply landing_land; try done. intros. by rewrite E.
Qed.

Lemma landing_extra F a G : landing F a G → extra a.
Proof.
  induction 1 as [a Ha|i t d F a G _ _ _ IH|i t d os o F a b G Et Es Ei Eos Ho Hd H [IH1 IH2] Hb]; [|done|].
  - split; [intros n; by rewrite Ha|done].
  - assert (t ∈ ts) as Ht by (by eapply list_elem_of_lookup_2). split.
    + intros n. rewrite Hb. pose proof (deposit_nonneg t os o d n Ht Eos Ho Hd). specialize (IH1 n). lia.
    + intros n Hn. rewrite Hb, (IH2 n Hn). assert (n ∉ (λ d, place_name (od_place d)) <$> deposits o) as Hno.
      { intros (x & -> & Hx)%list_elem_of_fmap. destruct (Hout t os o x Ht Eos Ho Hx) as [_ (p & Ep & Hp)%list_elem_of_fmap].
        rewrite Ep in Hn. by apply (Hsplit t p). }
      by rewrite deposited_elsewhere.
Qed.

Lemma landing_app F1 F2 a1 a2 G1 G2 a : landing F1 a1 G1 → landing F2 a2 G2 → (∀ n, a n = a1 n + a2 n) → landing (F1 ++ F2) a (G1 ++ G2).
Proof.
  intros H1 H2. revert a. induction H1 as [a1 Ha|i t d F a1 G Et Es _ IH|i t d os o F a1 b G Et Es Ei Eos Ho Hd H IH Hb]; intros a E; cbn [app].
  - eapply landing_ext; [|done]. intros n. rewrite E, Ha. lia.
  - eapply landing_keep; [done|done|]. by apply IH.
  - eapply (landing_land _ _ _ _ _ _ (λ n, a1 n + a2 n)); try done; [by apply IH|]. intros n. rewrite E, Hb. lia.
Qed.

Lemma landing_app_inv F1 F2 a G : landing (F1 ++ F2) a G → ∃ a1 a2 G1 G2, G = G1 ++ G2 ∧ landing F1 a1 G1 ∧ landing F2 a2 G2 ∧ ∀ n, a n = a1 n + a2 n.
Proof.
  revert a G. induction F1 as [|f F1 IH]; intros a G H.
  { exists (λ _, 0), a, [], G. split_and!; [done|by apply landing_nil|done|done]. }
  cbn [app] in H. inversion H as [|i t d F b G' Et Es H'|i t d os o F b b' G' Et Es Ei Eos Ho Hd H' Hb]; subst;
    destruct (IH _ _ H') as (a1 & a2 & G1 & G2 & -> & L1 & L2 & E).
  - exists a1, a2, ((i, d) :: G1), G2. split_and!; [done|by eapply landing_keep|done|done].
  - exists (λ n, deposited d o n + a1 n), a2, G1, G2. split_and!; [done|by eapply landing_land|done|]. intros n. rewrite Hb, E. lia.
Qed.

Lemma landing_single i d t a G : ts !! i = Some t → landing [(i, d)] a G →
  (split t = true ∧ G = [(i, d)] ∧ ∀ n, a n = 0) ∨
  (∃ os o, split t = false ∧ outcomes t = Ok os ∧ o ∈ os ∧ G = [] ∧ ∀ n, a n = deposited d o n).
Proof.
  intros Et H. inversion H as [|? t' ? ? ? ? Et' Es L|? t' ? os o ? b ? ? Et' Es Ei Eos Ho Hd L Hb]; subst;
    rewrite Et in Et'; injection Et' as <-; inversion L as [b0 Hb0| |]; subst.
  - left. by split_and!.
  - right. exists os, o. split_and!; try done. intros n. rewrite Hb, Hb0. lia.
Qed.

Lemma landing_subset F a G i : landing F a G → i ∈ G.*1 → i ∈ F.*1.
Proof.
  induction 1 as [a Ha|j t d F a G Et Es _ IH|j t d os o F a b G Et Es Ei Eos Ho Hd H IH Hb]; cbn; [done| |].
  - rewrite !elem_of_cons. naive_solver.
  - rewrite elem_of_cons. naive_solver.
Qed.

Lemma landing_split F : Forall (λ f : pending, ∃ t, ts !! f.1 = Some t ∧ split t = true) F → landing F (λ _, 0) F.
Proof. induction 1 as [|[i d] F (t & Et & Es) _ IH]; [by apply landing_nil|]. by eapply landing_keep. Qed.

(** What the executor reaches, the flights of unsplit transitions landed, is reached with those
    transitions firing in one step. *)
Lemma two_step_lands c F a G : two_step_reachable instant c F → landing F a G → two_step_reachable one_step (λ n, c n + a n) G.
Proof.
  intros H. revert a G. induction H as [c Hc|c F c' i t d H IH Et Ei Hre Hs He Hc' Hd|c F1 F2 c' i t d os o H IH Et Hs Eos Ho Hc'|c F c' i t os o H IH Et Ei Hs He Eos Ho Hc']; intros a G L.
  - inversion L as [b Hb| |]; subst. apply two_initial. intros n. rewrite Hb, Hc. lia.
  - assert (t ∈ ts) as Ht by (by eapply list_elem_of_lookup_2).
    apply landing_app_inv in L as (a1 & a2 & G1 & G2 & -> & L1 & L2 & E). specialize (IH _ _ L1). pose proof (landing_extra _ _ _ L1) as Ha.
    destruct (two_step_ok _ _ _ H) as [Hnn _].
    apply (landing_single _ _ t) in L2 as [(Es & -> & Hb)|(os & o & Es & Eos & Ho & -> & Hb)]; [| |done].
    + eapply (two_start one_step (λ n, c n + a1 n)); [exact IH|exact Et|unfold one_step; by rewrite Es| |by apply stopped_more|by apply enabled_more| |].
      * destruct Hre as [|Hre]; [by left|right]. intros Hi. by apply Hre, (landing_subset F a1 G1).
      * intros n. rewrite intermediate_more by done. rewrite E, Hb, Hc'. lia.
      * intros p. by rewrite drained_more.
    + rewrite app_nil_r. eapply (two_instant one_step (λ n, c n + a1 n)); [exact IH|exact Et|unfold one_step; by rewrite Es|by apply stopped_more|by apply enabled_more|done|exact Ho|].
      intros n. unfold fired_counts. rewrite intermediate_more by done. rewrite E, Hb, Hc'.
      rewrite (deposited_ext (batch t (λ n, c n + a1 n)) d) by (intros p; by rewrite drained_more, Hd). lia.
  - assert (t ∈ ts) as Ht by (by eapply list_elem_of_lookup_2). destruct (two_step_ok _ _ _ H) as [Hnn Hf].
    apply Forall_app in Hf as [_ [(Hd & t' & Et' & Ei) _]%Forall_cons]. cbn [fst snd] in *. assert (t' = t) as -> by congruence.
    apply landing_app_inv in L as (a1 & a2 & G1 & G2 & -> & L1 & L2 & E). destruct (split t) eqn:Es.
    + assert (landing (F1 ++ (i, d) :: F2) a (G1 ++ (i, d) :: G2)) as L by (eapply landing_app; [done|by eapply landing_keep|done]).
      specialize (IH _ _ L). eapply two_land; [exact IH|exact Et|apply stopped_more; [by eapply landing_extra|done]|done|exact Ho|].
      intros n. rewrite Hc'. lia.
    + assert (landing (F1 ++ (i, d) :: F2) (λ n, deposited d o n + a n) (G1 ++ G2)) as L.
      { eapply landing_app; [done|by eapply (landing_land i t d os o F2 a2)|]. intros n. cbn. rewrite E. lia. }
      eapply two_step_ext; [|exact (IH _ _ L)]. intros n. cbn. rewrite Hc'. lia.
  - assert (t ∈ ts) as Ht by (by eapply list_elem_of_lookup_2). pose proof (landing_extra _ _ _ L) as Ha.
    eapply (two_instant one_step (λ n, c n + a n)); [by apply IH|exact Et| |by apply stopped_more|by apply enabled_more|done|exact Ho|].
    + unfold one_step. destruct (split t) eqn:Es; [|done]. rewrite (Hinstant t Ht Es) in Ei. done.
    + intros n. unfold fired_counts. rewrite intermediate_more by done. rewrite Hc'. unfold fired_counts.
      rewrite (deposited_ext (batch t (λ n, c n + a n)) (batch t c)) by (intros p; by rewrite drained_more). lia.
Qed.

(** A one-step firing is a start and a landing. *)
Lemma one_step_two c F : two_step_reachable one_step c F → two_step_reachable instant c F.
Proof.
  induction 1 as [c Hc|c F c' i t d H IH Et Ei Hre Hs He Hc' Hd|c F1 F2 c' i t d os o H IH Et Hs Eos Ho Hc'|c F c' i t os o H IH Et Ei Hs He Eos Ho Hc'].
  - by apply two_initial.
  - assert (t ∈ ts) as Ht by (by eapply list_elem_of_lookup_2). eapply two_start; try done. apply Hinstant; [done|]. unfold one_step in Ei. by destruct (split t).
  - by eapply two_land.
  - assert (t ∈ ts) as Ht by (by eapply list_elem_of_lookup_2). destruct (instant t) eqn:E; [by eapply two_instant|].
    assert (i ∉ F.*1) as Hfree.
    { intros ([j d] & -> & Hf)%list_elem_of_fmap. destruct (two_step_ok _ _ _ H) as [_ HF]. rewrite Forall_forall in HF.
      destruct (HF _ Hf) as (_ & u & Eu & Hu). cbn in *. congruence. }
    assert (two_step_reachable instant (intermediate t c) (F ++ [(i, batch t c)])) as Hstart by (eapply two_start; try done; by right).
    rewrite <- (app_nil_r F). eapply two_land; [exact Hstart|exact Et| |done|exact Ho|done].
    destruct (two_step_ok _ _ _ IH) as [Hnn _]. apply stopped_false. intros p Hp. pose proof (intermediate_bounds t c p Ht (Hnn p)).
    pose proof (proj1 (stopped_false c) Hs p Hp). lia.
Qed.
End TwoStep.

(** * The split net fires as the executor does

    The rewrites of [NetRewrites] against the two-step firing: the net [splitInFlightFor] and
    [withTerminalInhibitors] hand to the analyses reaches, by one-step firings, exactly what the
    caller's net reaches when an action consumes at its start and deposits at its end, with
    restarts and without. *)
#[local] Open Scope Z_scope.

(** ** The rewritten transitions *)

Section Rewritten.
Context {V : Type}.
Implicit Types (t : transition V) (net : petri_net V) (c g : jsstr → Z).

Lemma inFlightPlace_inj a b : inFlightPlace a = inFlightPlace b → a = b.
Proof. apply app_inv_head. Qed.

(** [t'] is the completion of [t], stopped by [stop]. *)
Record completes (stop : jsstr → Prop) t t' : Prop := {
  cp_input : ∃ p, inputSpecs t' = [InOne p] ∧ place_name p = inFlightPlace (t_name t);
  cp_reads : reads t' = [];
  cp_resets : resets t' = [];
  cp_inhibitors : ∀ n, n ∈ place_name <$> inhibitors t' ↔ stop n;
  cp_outcomes : outcomes t' = outcomes t;
  cp_name : t_name t' = completionTransition (t_name t)
}.

(** [t'] is the start of [t], stopped by [stop]. *)
Definition starts (stop : jsstr → Prop) t t' : Prop := inhibited_by stop t t' ∧ ∃ o, outcomes t' = Ok [o] ∧
  ∀ d n, deposited d o n = if decide (n = inFlightPlace (t_name t)) then 1 else 0.

Definition kept_as (stop : jsstr → Prop) t t' : Prop := inhibited_by stop t t' ∧ outcomes t' = outcomes t.

Lemma inhibited_refl t : inhibited_by (λ _, False) t t.
Proof. split; try done. intros n. tauto. Qed.

Definition halves_of t (t1 t2 : transition V) : Prop := ∃ p, place_name p = inFlightPlace (t_name t) ∧ start_half t p = Ok t1 ∧ end_half t p = Ok t2.

Lemma split_elem fresh (S : list jsstr) (ts ts' : list (transition V)) : split_transitions fresh S ts = Ok ts' →
  (∀ t', t' ∈ ts' → ∃ t, t ∈ ts ∧ ((t_name t ∉ S ∧ t' = t) ∨ (t_name t ∈ S ∧ ∃ t1 t2, halves_of t t1 t2 ∧ (t' = t1 ∨ t' = t2)))) ∧
  (∀ t, t ∈ ts → (t_name t ∉ S → t ∈ ts') ∧ (t_name t ∈ S → ∃ t1 t2, halves_of t t1 t2 ∧ t1 ∈ ts' ∧ t2 ∈ ts')).
Proof.
  revert fresh ts'. induction ts as [|t ts IH]; intros fresh ts' H; cbn [split_transitions] in H.
  { injection H as <-. split; intros ? ?%not_elem_of_nil; done. }
  apply res_bind_ok in H as (here & Eh & H). apply res_bind_ok in H as (rest & Er & H). injection H as <-.
  destruct (IH _ _ Er) as [I1 I2]. setoid_rewrite elem_of_app. setoid_rewrite elem_of_cons.
  assert ((t_name t ∉ S ∧ here = [t]) ∨ (t_name t ∈ S ∧ ∃ t1 t2, halves_of t t1 t2 ∧ here = [t1; t2])) as Hhere.
  { case_bool_decide as Es; [right|left; split; [done|by injection Eh as <-]]. split; [done|]. unfold halves in Eh.
    apply res_bind_ok in Eh as (t1 & E1 & Eh). apply res_bind_ok in Eh as (t2 & E2 & Eh). injection Eh as <-. exists t1, t2. split; [|done]. by exists (mk_place fresh (inFlightPlace (t_name t))). }
  clear Eh. split.
  - intros t' [Hin|Hin].
    + exists t. split; [by left|]. destruct Hhere as [[Hn ->]|(Hn & t1 & t2 & Hh & ->)].
      * left. by apply list_elem_of_singleton in Hin.
      * right. split; [done|]. exists t1, t2. split; [done|]. apply elem_of_cons in Hin as [->|Hin]; [by left|]. right. by apply list_elem_of_singleton in Hin.
    + destruct (I1 t' Hin) as (u & Hu & H). exists u. split; [by right|done].
  - intros u [->|Hu].
    + destruct Hhere as [[Hn ->]|(Hn & t1 & t2 & Hh & ->)]; split; intros Hs; try done.
      * left. left.
      * exists t1, t2. split; [done|]. split; left; [left|right; left].
    + destruct (I2 u Hu) as [J1 J2]. split; intros Hs; [right; by apply J1|]. destruct (J2 Hs) as (t1 & t2 & ? & ? & ?). exists t1, t2. split_and!; [done|by right|by right].
Qed.

(** The split leaves the net's terminals, and the transitions of an atomic answer. *)
Lemma splitInFlightFor_spec fresh net coloured environment demand r net' : splitInFlightFor fresh net coloured environment demand = Ok r →
  (r = Atomic ∧ net' = net) ∨ (∃ S, r = Split net' S) →
  let S := inFlightTransitionsFor net environment demand in
  firstUnsplittable net coloured S = None ∧ split_transitions fresh S (net_transitions net) = Ok (net_transitions net') ∧
  ∀ n, n ∈ place_name <$> net_terminals net' ↔ n ∈ place_name <$> net_terminals net.
Proof.
  intros H Hr S. unfold splitInFlightFor in H. fold S in H. case_bool_decide as El.
  - injection H as <-. destruct Hr as [[_ ->]|[? ?]]; [|done]. apply nil_length_inv in El. rewrite El. clear.
    assert (∀ (l : list (transition V)), omap (λ t, if bool_decide (t_name t ∈ ([] : list jsstr)) then pair (t_name t) <$> refusalCause t (all_coloured net coloured) (used_names net) else None) l = []) as Hn.
    { induction l as [|t l IH]; [done|]. cbn [omap list_omap]. rewrite bool_decide_eq_false_2 by apply not_elem_of_nil. exact IH. }
    split; [unfold firstUnsplittable; by rewrite Hn|]. split; [|done]. generalize fresh. induction (net_transitions net) as [|t l IH]; intros k; [done|].
    cbn [split_transitions]. rewrite bool_decide_eq_false_2 by apply not_elem_of_nil. cbn [res_bind]. by rewrite IH.
  - destruct (firstUnsplittable net coloured S) as [[]|]; [injection H as <-; naive_solver|]. split; [done|].
    apply res_bind_ok in H as (ts & Ets & H). apply res_bind_ok in H as (rw & Erw & H). injection H as <-.
    destruct Hr as [[? _]|[S' [= -> <-]]]; [done|]. apply rebuild_net_ok in Erw as [-> Ht]. by split.
Qed.

Lemma terminals_elem net' net'' : withTerminalInhibitors net' = Ok net'' → ∀ t'', t'' ∈ net_transitions net'' ↔
  ∃ t', t' ∈ net_transitions net' ∧ inhibit (net_terminals net') t' = Ok t''.
Proof.
  unfold withTerminalInhibitors. case_bool_decide as El.
  - intros [= <-] t''. apply nil_length_inv in El. rewrite El. assert (∀ t : transition V, inhibit [] t = Ok t) as E by done.
    setoid_rewrite E. split; [by exists t''|]. by intros (t' & ? & [= <-]).
  - intros H. apply res_bind_ok in H as (ts & Ets & H). apply rebuild_net_ok in H as [-> _]. by apply res_map_elem.
Qed.

(** The one-step firings of the rewritten net; without [restarts] a transition of [S] does not fire
    while its in-flight place is marked. *)
Inductive split_reachable (us : list (transition V)) (S : list jsstr) (m0 : marking_state) (restarts : bool) : (jsstr → Z) → Prop :=
| split_initial g : (∀ n, g n = count_of m0 n) → split_reachable us S m0 restarts g
| split_step g g' i t os o : split_reachable us S m0 restarts g → us !! i = Some t →
    restarts = true ∨ (t_name t ∈ S → g (inFlightPlace (t_name t)) <= 0) → enabled_counts [] Ignore t g = true →
    outcomes t = Ok os → o ∈ os → (∀ n, g' n = fired_counts [] Ignore t o g n) → split_reachable us S m0 restarts g'.

Lemma split_token us S m0 g : split_reachable us S m0 true g ↔ token_reachable us [] Ignore m0 g.
Proof.
  split.
  - induction 1 as [g Hg|g g' i t os o _ IH Et _ He Eos Ho Hg]; [by apply token_start|by eapply token_fire].
  - induction 1 as [g Hg|g g' i t os o _ IH Et He Eos Ho Hg]; [by apply split_initial|eapply split_step; try done; by left].
Qed.

Section Net.
Variables (fresh : nat) (net net' net'' : petri_net V) (coloured environment : list jsstr) (demand : split_demand) (r : in_flight (V:=V)).
Hypothesis Hsplit : splitInFlightFor fresh net coloured environment demand = Ok r.
Hypothesis Hr : (r = Atomic ∧ net' = net) ∨ (∃ S, r = Split net' S).
Hypothesis Hinh : withTerminalInhibitors net' = Ok net''.
Hypothesis Hbuilt : built_net net.

Definition split_names : list jsstr := inFlightTransitionsFor net environment demand.
Definition stop_name (n : jsstr) : Prop := n ∈ place_name <$> net_terminals net.

Lemma stop_same (terminals : list place) (t t' : transition V) : (∀ n, n ∈ place_name <$> terminals ↔ stop_name n) →
  inhibited_by (λ n, n ∈ place_name <$> terminals) t t' → inhibited_by stop_name t t'.
Proof. intros E [H1 H2 H3 H4 H5]. split; try done. intros n. by rewrite H5, E. Qed.

Lemma net_built_wf t : t ∈ net_transitions net → timeout_kept t ∧ inputs_wf (inputSpecs t) ∧
  ∀ o, outputSpec t = Some o → output_wf (input_names (inputSpecs t)) o.
Proof. intros Ht. destruct (Hbuilt t Ht) as (b & Hb & Hi). apply build_ok in Hb as [(H1 & _ & H3 & _) ->]; done. Qed.

Lemma unsplittable t : t ∈ net_transitions net → t_name t ∈ split_names → refusalCause t [] [] = None ∧
  inFlightPlace (t_name t) ∉ used_names net ∧ completionTransition (t_name t) ∉ split_names.
Proof.
  intros Ht Hs. destruct (splitInFlightFor_spec _ _ _ _ _ _ net' Hsplit Hr) as (Hf & _). unfold firstUnsplittable in Hf.
  destruct (omap _ _) as [|x l] eqn:E; [|done]. destruct (refusalCause t (all_coloured net coloured) (used_names net)) as [cause|] eqn:Ec.
  - assert ((t_name t, cause) ∈ ([] : list (jsstr * refusal_cause))) as ?%not_elem_of_nil; [|done]. rewrite <- E. apply list_elem_of_omap.
    exists t. split; [done|]. rewrite bool_decide_eq_true_2 by done. by rewrite Ec.
  - apply refusal_forward in Ec as [? [? Hc]]. split_and!; [done|done|]. intros Hin. apply Hc. unfold used_names. apply elem_of_set_of, elem_of_app. right.
    unfold split_names, inFlightTransitionsFor in Hin. apply list_elem_of_fmap in Hin as (u & -> & [_ Hu]%list_elem_of_filter). by apply list_elem_of_fmap_2.
Qed.

Lemma halves_facts t t1 t2 : t ∈ net_transitions net → t_name t ∈ split_names → halves_of t t1 t2 →
  (∀ t'', inhibit (net_terminals net') t1 = Ok t'' → starts stop_name t t'') ∧
  (∀ t'', inhibit (net_terminals net') t2 = Ok t'' → completes stop_name t t'').
Proof.
  intros Ht Hs (p & Ep & E1 & E2). destruct (net_built_wf t Ht) as (Hk & Hi & Ho). destruct (unsplittable t Ht Hs) as [Hc _].
  destruct (splitInFlightFor_spec _ _ _ _ _ _ net' Hsplit Hr) as (_ & _ & Hterm). split; intros t'' Et.
  - pose proof (start_half_spec t p t1 E1) as (I1 & O1 & K1). destruct (inhibit_spec _ _ _ K1 Et) as (I2 & O2 & _).
    apply stop_same in I2; [|exact Hterm]. split; [by eapply inhibited_trans|]. rewrite O2. destruct (start_outcomes t p t1 O1 K1) as (o & Eo & Hd).
    exists o. split; [done|]. intros d n. by rewrite Hd, Ep.
  - pose proof (end_half_spec t p t2 E2) as (F1 & F2 & F3 & F4 & F5 & _ & F7). destruct (inhibit_spec _ _ _ F7 Et) as (I2 & O2 & _).
    apply stop_same in I2; [|exact Hterm]. destruct I2 as [J1 J2 J3 J4 J5]. split; [exists p; split; congruence|congruence|congruence| | |congruence].
    + intros n. rewrite J5, F5. cbn. rewrite elem_of_nil. tauto.
    + rewrite O2. by apply (end_outcomes t t2 p).
Qed.

(** Each transition of the rewritten net, and each step of the original. *)
Lemma rewritten_cases t'' : t'' ∈ net_transitions net'' → ∃ t, t ∈ net_transitions net ∧
  ((t_name t ∉ split_names ∧ kept_as stop_name t t'') ∨ (t_name t ∈ split_names ∧ (starts stop_name t t'' ∨ completes stop_name t t''))).
Proof.
  intros (t' & Ht' & Et)%(terminals_elem _ _ Hinh). destruct (splitInFlightFor_spec _ _ _ _ _ _ net' Hsplit Hr) as (_ & Es & Hterm).
  destruct (split_elem _ _ _ _ Es) as [I1 _]. destruct (I1 t' Ht') as (t & Ht & [[Hn ->]|(Hs & t1 & t2 & Hh & Hu)]); exists t; (split; [done|]).
  - left. split; [done|]. destruct (inhibit_spec _ _ _ (proj1 (net_built_wf t Ht)) Et) as (I & O & _). split; [by eapply stop_same|done].
  - right. split; [done|]. destruct (halves_facts t t1 t2 Ht Hs Hh) as [H1 H2]. destruct Hu as [->| ->]; [left; by apply H1|right; by apply H2].
Qed.

Lemma inhibit_total t' : t' ∈ net_transitions net' → ∃ t'', inhibit (net_terminals net') t' = Ok t'' ∧ t'' ∈ net_transitions net''.
Proof.
  intros Ht'. assert (∃ t'', inhibit (net_terminals net') t' = Ok t'') as (t'' & E).
  { unfold withTerminalInhibitors in Hinh. case_bool_decide as El; [apply nil_length_inv in El; rewrite El; by exists t'|].
    apply res_bind_ok in Hinh as (ts & Ets & _). clear -Ets Ht'. revert ts Ets. induction (net_transitions net') as [|u l IH]; [by apply not_elem_of_nil in Ht'|].
    intros ts Ets. cbn [res_map] in Ets. destruct (inhibit _ u) as [u'|] eqn:Eu; [|done]. cbn [res_bind] in Ets. apply res_bind_ok in Ets as (bs & Eb & _).
    apply elem_of_cons in Ht' as [->|Ht']; [by exists u'|]. by eapply IH. }
  exists t''. split; [done|]. apply (terminals_elem _ _ Hinh). by exists t'.
Qed.

Lemma rewritten_kept t : t ∈ net_transitions net → t_name t ∉ split_names → ∃ t'', t'' ∈ net_transitions net'' ∧ kept_as stop_name t t''.
Proof.
  intros Ht Hn. destruct (splitInFlightFor_spec _ _ _ _ _ _ net' Hsplit Hr) as (_ & Es & Hterm). destruct (split_elem _ _ _ _ Es) as [_ I2].
  destruct (inhibit_total t) as (t'' & E & Hin); [by apply I2|]. exists t''. split; [done|].
  destruct (inhibit_spec _ _ _ (proj1 (net_built_wf t Ht)) E) as (I & O & _). split; [by eapply stop_same|done].
Qed.

Lemma rewritten_halves t : t ∈ net_transitions net → t_name t ∈ split_names →
  ∃ t1 t2, t1 ∈ net_transitions net'' ∧ t2 ∈ net_transitions net'' ∧ starts stop_name t t1 ∧ completes stop_name t t2.
Proof.
  intros Ht Hn. destruct (splitInFlightFor_spec _ _ _ _ _ _ net' Hsplit Hr) as (_ & Es & Hterm). destruct (split_elem _ _ _ _ Es) as [_ I2].
  destruct (proj2 (I2 t Ht) Hn) as (t1 & t2 & Hh & H1 & H2). destruct (halves_facts t t1 t2 Ht Hn Hh) as [J1 J2].
  destruct (inhibit_total t1 H1) as (u1 & E1 & F1), (inhibit_total t2 H2) as (u2 & E2 & F2). exists u1, u2. split_and!; auto.
Qed.

(** ** Runs *)

Hypothesis Hwf : net_wf net.
Hypothesis Hnames : NoDup (t_name <$> net_transitions net).
Variables (m0 : marking_state) (restarts : bool).
Hypothesis Hm0 : ms_wf m0.
Hypothesis Hplaces : ∀ n, count_of m0 n ≠ 0 → n ∈ place_name <$> net_places net.

Local Abbreviation ts := (net_transitions net).
Local Abbreviation stops := (place_name <$> net_terminals net).
Local Abbreviation enabled := (enabled_counts [] Ignore).
Local Abbreviation intermediate := (intermediate_counts [] Ignore).
Local Abbreviation batch := (drained_counts [] Ignore).

Definition is_split t : bool := bool_decide (t_name t ∈ split_names).
(** Completion steps and the environment's transitions fire in one step. *)
Definition instant_of t : bool := isCompletion t || bool_decide (t_name t ∈ environment).

(** The tokens the flights put on the in-flight places. *)
Definition flight_place (i : nat) : jsstr := inFlightPlace (from_option t_name [] (ts !! i)).
Definition in_flight_counts (F : list (nat * (place → Z))) (n : jsstr) : Z := Z.of_nat (length (filter (λ f, flight_place f.1 = n) F)).

Local Abbreviation two_step c F := (two_step_reachable ts stops m0 restarts (one_step is_split) c F).
Local Abbreviation reached g := (split_reachable (net_transitions net'') split_names m0 restarts g).

Lemma split_iff t : t ∈ ts → is_split t = true ↔ needs_split (set_union (nonMonotonePlaces net) (tested demand)) environment demand t = true.
Proof.
  intros Ht. unfold is_split, split_names, inFlightTransitionsFor. rewrite bool_decide_eq_true, list_elem_of_fmap. setoid_rewrite list_elem_of_filter. split.
  - intros (u & E & Hu & Hin). assert (u = t) as ->; [|by apply Is_true_true]. apply list_elem_of_lookup in Ht as [i Ei]. apply list_elem_of_lookup in Hin as [j Ej].
    assert (i = j) as ->; [|congruence]. eapply (NoDup_lookup _ i j (t_name t) Hnames); rewrite list_lookup_fmap; [by rewrite Ei|rewrite Ej; cbn; by rewrite E].
  - intros H. exists t. split_and!; [done|by apply Is_true_true|done].
Qed.

Lemma arc_in_net t p : t ∈ ts → p ∈ arc_places t → place_name p ∈ place_name <$> net_places net.
Proof. intros Ht Hp. apply list_elem_of_fmap_2. by apply (proj1 Hwf t p). Qed.

Lemma net_place_used n : n ∈ place_name <$> net_places net → n ∈ used_names net.
Proof. intros H. unfold used_names. apply elem_of_set_of, elem_of_app. by left. Qed.

Lemma flight_not_net t : t ∈ ts → is_split t = true → inFlightPlace (t_name t) ∉ place_name <$> net_places net.
Proof. intros Ht Hs%bool_decide_eq_true Hn%net_place_used. by destruct (unsplittable t Ht Hs) as (_ & [] & _). Qed.

Lemma stop_in_net n : stop_name n → n ∈ place_name <$> net_places net.
Proof. intros (p & -> & Hp)%list_elem_of_fmap. apply list_elem_of_fmap_2. by apply (proj1 (proj2 Hwf)). Qed.

Lemma out_in_net t os oc d : t ∈ ts → outcomes t = Ok os → oc ∈ os → d ∈ deposits oc →
  deposit_ok t d ∧ place_name (od_place d) ∈ place_name <$> outputPlaces t.
Proof.
  intros Ht Eos Hoc Hd. destruct (Hbuilt t Ht) as (b & Hb & Hi). destruct (outcomes_ok b t Hi Hb) as (os' & Eos' & H).
  assert (os' = os) as -> by congruence. destruct (H oc d Hoc Hd) as [H1 (o & Eo & (p & Hp & Ep)%universe_places)]. split; [done|].
  unfold outputPlaces. rewrite Eo. cbn. rewrite <- Ep. by apply list_elem_of_fmap_2.
Qed.

Lemma source_inputs t : t ∈ ts → inputs_wf (inputSpecs t).
Proof. intros Ht. by apply net_built_wf. Qed.

(** The places a transition tests or changes are the net's. *)
Lemma tests_in_net t n : t ∈ ts → tests t n → n ∈ place_name <$> net_places net.
Proof.
  intros Ht H. unfold tests in H. assert (∃ p, p ∈ arc_places t ∧ place_name p = n) as (p & Hp & <-); [|by eapply arc_in_net].
  unfold arc_places. setoid_rewrite elem_of_app. setoid_rewrite elem_of_app. setoid_rewrite elem_of_app. setoid_rewrite elem_of_app.
  destruct H as [(s & -> & Hs)%list_elem_of_fmap|[(p & -> & Hp)%list_elem_of_fmap|(p & -> & Hp)%list_elem_of_fmap]].
  - exists (in_place s). split; [|done]. left. by apply list_elem_of_fmap_2.
  - exists p. tauto.
  - exists p. tauto.
Qed.

Lemma intermediate_outside t c n : t ∈ ts → n ∉ place_name <$> net_places net → intermediate t c n = c n.
Proof.
  intros Ht Hn. unfold intermediate_counts. rewrite decide_False.
  2:{ intros (p & -> & Hp)%list_elem_of_fmap. apply Hn, (arc_in_net t); [done|]. unfold arc_places. rewrite !elem_of_app. tauto. }
  unfold removed. destruct (spec_of t n) as [s|] eqn:Es; [|lia]. apply spec_of_input in Es. destruct Hn. apply (tests_in_net t); [done|by left].
Qed.

Lemma intermediate_at t c g n : c n = g n → intermediate t c n = intermediate t g n.
Proof. intros E. unfold intermediate_counts, removed. by rewrite E. Qed.

(** [g] is [c] with tokens outside the net. *)
Definition agrees c g : Prop := ∀ n, n ∈ place_name <$> net_places net → g n = c n.

Lemma agree_enabled t c g : t ∈ ts → agrees c g → enabled t g = enabled t c.
Proof. intros Ht H. apply enabled_same. intros n Hn. by apply H, (tests_in_net t). Qed.

Lemma agree_intermediate t c k n : t ∈ ts → agrees c (λ n, c n + k n) → intermediate t (λ n, c n + k n) n = intermediate t c n + k n.
Proof.
  intros Ht H. destruct (decide (n ∈ place_name <$> net_places net)) as [Hn|Hn]; [|by rewrite !intermediate_outside].
  specialize (H n Hn). cbn in H. rewrite (intermediate_at t _ c) by done. lia.
Qed.

Lemma agree_stops c g : agrees c g → stopped stops c = false ↔ ∀ n, stop_name n → g n <= 0.
Proof.
  intros H. rewrite stopped_false. unfold stop_name. split; intros Hs n Hn; [rewrite H by (by apply stop_in_net)|rewrite <- H by (by apply stop_in_net)]; by apply Hs.
Qed.

Lemma in_flight_app F G n : in_flight_counts (F ++ G) n = in_flight_counts F n + in_flight_counts G n.
Proof. unfold in_flight_counts. rewrite filter_app, length_app. lia. Qed.
Lemma in_flight_cons f G n : in_flight_counts (f :: G) n = (if decide (n = flight_place f.1) then 1 else 0) + in_flight_counts G n.
Proof.
  unfold in_flight_counts. rewrite filter_cons. destruct (decide (flight_place f.1 = n)) as [E|E].
  - rewrite decide_True by done. cbn [length]. lia.
  - rewrite decide_False by done. lia.
Qed.

Definition split_flights (F : list (nat * (place → Z))) : Prop := Forall (λ f, ∃ t, ts !! f.1 = Some t ∧ is_split t = true) F.

Lemma in_flight_agrees c F : split_flights F → agrees c (λ n, c n + in_flight_counts F n).
Proof.
  intros HF n Hn. assert (in_flight_counts F n = 0) as ->; [|lia]. unfold in_flight_counts.
  rewrite filter_none; [done|]. intros [i d] Hf. unfold split_flights in HF. rewrite Forall_forall in HF. destruct (HF _ Hf) as (t & Et & Es). cbn in *.
  unfold flight_place. rewrite Et. cbn. intros <-. apply (flight_not_net t); [by eapply list_elem_of_lookup_2|done|done].
Qed.

Lemma two_flights c F : two_step c F → nonneg c ∧ split_flights F.
Proof.
  intros H. destruct (two_step_ok ts stops m0 restarts source_inputs out_in_net Hm0 _ _ _ H) as [H1 H2]. split; [done|].
  eapply Forall_impl; [exact H2|]. intros [i d] (_ & t & Et & Es). exists t. split; [done|]. unfold one_step in Es. by destruct (is_split t).
Qed.

Lemma outside_deposit t os o d n : t ∈ ts → outcomes t = Ok os → o ∈ os → n ∉ place_name <$> net_places net → deposited d o n = 0.
Proof.
  intros Ht Eos Ho Hn. apply deposited_elsewhere. intros (x & -> & Hx)%list_elem_of_fmap. destruct (out_in_net t os o x Ht Eos Ho Hx) as [_ (p & E & Hp)%list_elem_of_fmap].
  apply Hn. rewrite E. apply (arc_in_net t); [done|]. unfold arc_places. rewrite !elem_of_app. tauto.
Qed.

(** No token outside the net's places. *)
Lemma two_inside c F : two_step c F → ∀ n, n ∉ place_name <$> net_places net → c n = 0.
Proof.
  induction 1 as [c Hc|c F c' i t d H IH Et Ei Hre Hs He Hc' Hd|c F1 F2 c' i t d os o H IH Et Hs Eos Ho Hc'|c F c' i t os o H IH Et Ei Hs He Eos Ho Hc']; intros n Hn.
  - rewrite Hc. destruct (decide (count_of m0 n = 0)) as [|E]; [done|]. by apply Hplaces in E.
  - rewrite Hc', intermediate_outside; [by apply IH|by eapply list_elem_of_lookup_2|done].
  - rewrite Hc', IH by done. assert (t ∈ ts) as Ht by (by eapply list_elem_of_lookup_2). rewrite (outside_deposit t os); [done|done|done|done|done].
  - assert (t ∈ ts) as Ht by (by eapply list_elem_of_lookup_2). rewrite Hc'. unfold fired_counts. rewrite intermediate_outside, IH by done.
    by rewrite (outside_deposit t os).
Qed.

Lemma name_unique t u i j : ts !! i = Some t → ts !! j = Some u → t_name t = t_name u → i = j.
Proof. intros Ei Ej E. apply (NoDup_lookup _ i j (t_name t) Hnames); rewrite list_lookup_fmap; [by rewrite Ei|rewrite Ej; cbn; by rewrite E]. Qed.

Lemma start_enabled t t'' c F : t ∈ ts → inhibited_by stop_name t t'' → split_flights F →
  enabled t'' (λ n, c n + in_flight_counts F n) = true ↔ enabled t c = true ∧ stopped stops c = false.
Proof.
  intros Ht Hi HF. pose proof (in_flight_agrees c F HF) as Ha. rewrite (inhibited_enabled _ _ _ _ Hi), (agree_enabled t c) by done.
  by rewrite (agree_stops c _ Ha).
Qed.

Lemma complete_enabled t t'' c F : completes stop_name t t'' → split_flights F →
  enabled t'' (λ n, c n + in_flight_counts F n) = true ↔ 1 <= c (inFlightPlace (t_name t)) + in_flight_counts F (inFlightPlace (t_name t)) ∧ stopped stops c = false.
Proof.
  intros [(p & Ei & Ep) Er _ Eh _ _] HF. pose proof (in_flight_agrees c F HF) as Ha. rewrite (agree_stops c _ Ha).
  unfold enabled_counts. rewrite Ei, Er, !andb_true_iff, (inhibitors_free _ (λ n, c n + in_flight_counts F n)). setoid_rewrite Eh. cbn [forallb in_place requiredCount].
  unfold can_take. rewrite supplied_closed, Ep, andb_true_iff, Z.leb_le. tauto.
Qed.

Lemma complete_intermediate t t'' g n : completes stop_name t t'' → 1 <= g (inFlightPlace (t_name t)) →
  intermediate t'' g n = g n - if decide (n = inFlightPlace (t_name t)) then 1 else 0.
Proof.
  intros [(p & Ei & Ep) _ Er _ _ _] Hg. unfold intermediate_counts. rewrite Er, decide_False by apply not_elem_of_nil.
  unfold removed, spec_of. rewrite Ei. unfold js_find. cbn [list_find in_place].
  rewrite Ep. destruct (decide (n = inFlightPlace (t_name t))) as [->|Hne].
  - rewrite decide_True by (by apply Is_true_true, bool_decide_eq_true). cbn. rewrite supplied_closed, (proj2 (Z.ltb_ge _ _)) by done. done.
  - rewrite decide_False by (rewrite Is_true_true, bool_decide_eq_true; congruence). done.
Qed.

Lemma inhibited_fired stop t t'' o g n : inhibited_by stop t t'' →
  fired_counts [] Ignore t'' o g n = intermediate t g n + deposited (batch t g) o n.
Proof.
  intros Hi. unfold fired_counts. rewrite (inhibited_intermediate _ _ _ _ _ Hi). f_equal. apply deposited_ext. intros p. by apply (inhibited_drained stop).
Qed.

(** The deposits of a split transition do not depend on what its inputs gave. *)
Lemma split_deposits t os o d d' n : t ∈ ts → is_split t = true → outcomes t = Ok os → o ∈ os → deposited d o n = deposited d' o n.
Proof.
  intros Ht Hs%bool_decide_eq_true Eos Ho. destruct (rewritten_halves t Ht Hs) as (_ & t2 & _ & _ & _ & [(p & Ei & Ep) _ _ _ E2 _]).
  assert (∀ x, x ∈ deposits o → ∃ k, od_deposit x = DepositTokens k) as H.
  { destruct (unsplittable t Ht Hs) as [Hr0 _]. destruct (net_built_wf t Ht) as (Hk & _ & Hw). by apply (single_deposits t Hw Hk Hr0 os o Eos). }
  unfold deposited. induction (deposits o) as [|x l IH]; [done|]. cbn [total_deposit foldr]. unfold total_deposit in IH.
  rewrite IH by (intros; apply H; by right). destruct (H x ltac:(left)) as [k Ek]. by rewrite Ek.
Qed.

(** A split transition is in flight exactly when its in-flight place is marked. *)
Lemma free_count c F i t : two_step c F → ts !! i = Some t → is_split t = true → i ∉ F.*1 →
  c (inFlightPlace (t_name t)) + in_flight_counts F (inFlightPlace (t_name t)) = 0.
Proof.
  intros H Et Es Hi. destruct (two_flights _ _ H) as [_ HF]. rewrite (two_inside c F H) by (apply flight_not_net; [by eapply list_elem_of_lookup_2|done]).
  unfold in_flight_counts. rewrite filter_none; [done|]. intros [j d] Hf Ep. apply Hi. unfold split_flights in HF. rewrite Forall_forall in HF.
  destruct (HF _ Hf) as (u & Eu & _). cbn in *. unfold flight_place in Ep. rewrite Eu in Ep. apply inFlightPlace_inj in Ep.
  rewrite (name_unique t u i j Et Eu (eq_sym Ep)). by apply (list_elem_of_fmap_2 fst) in Hf.
Qed.
Lemma count_free c F i t : two_step c F → ts !! i = Some t → is_split t = true →
  c (inFlightPlace (t_name t)) + in_flight_counts F (inFlightPlace (t_name t)) <= 0 → i ∉ F.*1.
Proof.
  intros H Et Es Hle ([j d] & -> & Hf)%list_elem_of_fmap. cbn in Et. destruct (two_flights _ _ H) as [Hnn _]. specialize (Hnn (inFlightPlace (t_name t))).
  apply list_elem_of_split in Hf as (F1 & F2 & ->). rewrite in_flight_app, in_flight_cons in Hle. cbn [fst] in Hle.
  assert (flight_place j = inFlightPlace (t_name t)) as Ep by (unfold flight_place; by rewrite Et).
  rewrite Ep, decide_True in Hle by done. unfold in_flight_counts in Hle. lia.
Qed.

Lemma two_token c F : two_step c F → reached (λ n, c n + in_flight_counts F n).
Proof.
  induction 1 as [c Hc|c F c' i t d H IH Et Ei Hre Hs He Hc' Hd|c F1 F2 c' i t d os o H IH Et Hs Eos Ho Hc'|c F c' i t os o H IH Et Ei Hs He Eos Ho Hc'].
  - apply split_initial. intros n. rewrite Hc. change (in_flight_counts [] n) with 0. lia.
  - destruct (two_flights _ _ H) as [Hnn HF]. assert (t ∈ ts) as Ht by (by eapply list_elem_of_lookup_2).
    assert (is_split t = true) as Es by (unfold one_step in Ei; by destruct (is_split t)). pose proof (proj1 (bool_decide_eq_true _) Es) as Hin.
    destruct (rewritten_halves t Ht Hin) as (t1 & _ & H1 & _ & [Hi (o & Eo & Hdep)] & _). apply list_elem_of_lookup in H1 as [k Ek].
    eapply (split_step _ _ _ _ _ _ k t1 [o] o IH Ek); [|by apply (start_enabled t)|done|left|].
    { destruct Hre as [->|Hre]; [by left|right]. intros _. rewrite (ib_name _ _ _ Hi), (free_count c F i t); [lia|done..]. }
    intros n. rewrite (inhibited_fired stop_name t) by done. rewrite agree_intermediate by (done || by apply in_flight_agrees).
    assert (flight_place i = inFlightPlace (t_name t)) as Ep by (unfold flight_place; by rewrite Et).
    rewrite in_flight_app, in_flight_cons, Hc', Hdep. cbn [fst]. rewrite Ep. change (in_flight_counts [] n) with 0. lia.
  - destruct (two_flights _ _ H) as [Hnn HF]. assert (t ∈ ts) as Ht by (by eapply list_elem_of_lookup_2).
    assert (is_split t = true) as Es.
    { apply Forall_app in HF as [_ [(t' & Et' & Es) _]%Forall_cons]. cbn in Et'. congruence. }
    pose proof (proj1 (bool_decide_eq_true _) Es) as Hin. destruct (rewritten_halves t Ht Hin) as (_ & t2 & _ & H2 & _ & Hcp). apply list_elem_of_lookup in H2 as [k Ek].
    assert (flight_place i = inFlightPlace (t_name t)) as Ep by (unfold flight_place; by rewrite Et).
    assert (1 <= c (inFlightPlace (t_name t)) + in_flight_counts (F1 ++ (i, d) :: F2) (inFlightPlace (t_name t))) as Hone.
    { rewrite in_flight_app, in_flight_cons. cbn [fst]. rewrite Ep, decide_True by done. unfold in_flight_counts. specialize (Hnn (inFlightPlace (t_name t))). lia. }
    eapply (split_step _ _ _ _ _ _ k t2 os o IH Ek); [right; intros Hc2; rewrite (cp_name _ _ _ Hcp) in Hc2; by destruct (unsplittable t Ht Hin) as (_ & _ & [])|by apply (complete_enabled t)|by rewrite (cp_outcomes _ _ _ Hcp)|done|].
    intros n. unfold fired_counts. rewrite (complete_intermediate t) by done.
    rewrite Hc', !in_flight_app, in_flight_cons. cbn [fst]. rewrite Ep. rewrite (split_deposits t os o (batch t2 _) d) by done. case_decide; lia.
  - destruct (two_flights _ _ H) as [Hnn HF]. assert (t ∈ ts) as Ht by (by eapply list_elem_of_lookup_2).
    assert (t_name t ∉ split_names) as Hn by (unfold one_step, is_split in Ei; by apply negb_true_iff, bool_decide_eq_false in Ei).
    destruct (rewritten_kept t Ht Hn) as (t1 & H1 & Hi & Eo). apply list_elem_of_lookup in H1 as [k Ek].
    eapply (split_step _ _ _ _ _ _ k t1 os o IH Ek); [right; intros Hc2; by rewrite (ib_name _ _ _ Hi) in Hc2|by apply (start_enabled t)|by rewrite Eo|done|].
    intros n. rewrite (inhibited_fired stop_name t) by done. rewrite agree_intermediate by (done || by apply in_flight_agrees).
    rewrite Hc'. unfold fired_counts.
    rewrite (deposited_ext (batch t (λ n, c n + in_flight_counts F n)) (batch t c)); [lia|]. intros p. apply drained_agree. intros q Hq.
    apply (in_flight_agrees c F HF). by apply (tests_in_net t).
Qed.

Lemma token_two g : reached g → ∃ c F, two_step c F ∧ ∀ n, g n = c n + in_flight_counts F n.
Proof.
  induction 1 as [g Hg|g g' k t'' os o _ (c & F & H & Eg) Ek Hre He Eos Ho Hg'].
  { exists g, []. split; [by apply two_initial|]. intros n. change (in_flight_counts [] n) with 0. lia. }
  destruct (two_flights _ _ H) as [Hnn HF]. assert (t'' ∈ net_transitions net'') as Hin by (by eapply list_elem_of_lookup_2).
  assert (∀ n, g' n = fired_counts [] Ignore t'' o (λ n, c n + in_flight_counts F n) n) as Hg2 by (intros n; rewrite Hg'; by apply fired_ext). clear Hg'.
  rewrite (enabled_counts_ext [] Ignore t'' g (λ n, c n + in_flight_counts F n) Eg) in He.
  destruct (rewritten_cases t'' Hin) as (t & Ht & [(Hn & Hi & Eo)|(Hs & [[Hi (o' & Eo & Hd)]|Hcp])]).
  - apply (start_enabled t) in He as [He Hst]; [|done|done|done]. apply list_elem_of_lookup in Ht as Ht'. destruct Ht' as [i Et].
    exists (fired_counts [] Ignore t o c), F. split.
    + eapply two_instant; [exact H|exact Et|unfold one_step, is_split; by rewrite bool_decide_eq_false_2|done|done|by rewrite <- Eo|done|done].
    + intros n. rewrite Hg2, (inhibited_fired stop_name t) by done. rewrite agree_intermediate by (done || by apply in_flight_agrees). unfold fired_counts.
      rewrite (deposited_ext (batch t (λ n, c n + in_flight_counts F n)) (batch t c)); [lia|]. intros p. apply drained_agree. intros q Hq.
      apply (in_flight_agrees c F HF). by apply (tests_in_net t).
  - apply (start_enabled t) in He as [He Hst]; [|done|done|done]. apply list_elem_of_lookup in Ht as Ht'. destruct Ht' as [i Et].
    assert (o = o') as -> by (rewrite Eo in Eos; injection Eos as <-; by apply list_elem_of_singleton in Ho).
    exists (intermediate t c), (F ++ [(i, batch t c)]). split.
    + eapply two_start; [exact H|exact Et|unfold one_step, is_split; by rewrite bool_decide_eq_true_2| |done|done|done|done].
      destruct Hre as [->|Hre]; [by left|right]. rewrite (ib_name _ _ _ Hi) in Hre. specialize (Hre Hs). rewrite Eg in Hre.
      apply (count_free c F i t); try done. by apply bool_decide_eq_true.
    + intros n. rewrite Hg2, (inhibited_fired stop_name t) by done. rewrite agree_intermediate by (done || by apply in_flight_agrees).
      assert (flight_place i = inFlightPlace (t_name t)) as Ep by (unfold flight_place; by rewrite Et).
      rewrite in_flight_app, in_flight_cons, Hd. cbn [fst]. rewrite Ep. change (in_flight_counts [] n) with 0. lia.
  - apply (complete_enabled t) in He as [Hone Hst]; [|done|done]. assert (is_split t = true) as Es by (by apply bool_decide_eq_true).
    rewrite (two_inside c F H) in Hone by (by apply flight_not_net).
    assert (∃ F1 i d F2, F = F1 ++ (i, d) :: F2 ∧ flight_place i = inFlightPlace (t_name t)) as (F1 & i & d & F2 & -> & Ep).
    { unfold in_flight_counts in Hone. destruct (filter _ F) as [|[i d] l] eqn:E; [cbn in Hone; lia|].
      assert ((i, d) ∈ filter (λ f : nat * (place → Z), flight_place f.1 = inFlightPlace (t_name t)) F) as [Ef Hf]%list_elem_of_filter by (rewrite E; left).
      apply list_elem_of_split in Hf as (F1 & F2 & ->). by exists F1, i, d, F2. }
    assert (ts !! i = Some t) as Et.
    { apply Forall_app in HF as [_ [(u & Eu & _) _]%Forall_cons]. cbn in Eu. unfold flight_place in Ep. rewrite Eu in Ep. apply inFlightPlace_inj in Ep.
      apply list_elem_of_lookup in Ht as [j Ej]. by rewrite (name_unique u t i j Eu Ej Ep). }
    exists (λ n, c n + deposited d o n), (F1 ++ F2). rewrite (cp_outcomes _ _ _ Hcp) in Eos. split.
    + eapply two_land; [exact H|exact Et|done|done|exact Ho|done].
    + intros n. rewrite Hg2. unfold fired_counts. rewrite (complete_intermediate t) by (done || rewrite (two_inside c _ H) by (by apply flight_not_net); done).
      rewrite !in_flight_app, in_flight_cons. cbn [fst]. rewrite Ep. rewrite (split_deposits t os o (batch t'' _) d) by done. case_decide; lia.
Qed.

(** ** The executor's runs *)

Local Abbreviation executor c F := (two_step_reachable ts stops m0 restarts instant_of c F).

Lemma tested_untested t p : t ∈ ts → instant_of t = false → is_split t = false → p ∈ outputPlaces t →
  place_name p ∉ set_union (nonMonotonePlaces net) (tested demand).
Proof.
  intros Ht Hi Hs Hp Hn. apply not_true_iff_false in Hs. apply Hs, (split_iff t Ht). unfold instant_of in Hi. apply orb_false_iff in Hi as [Hi1 Hi2].
  unfold needs_split. rewrite Hi1. apply bool_decide_eq_false in Hi2. rewrite bool_decide_eq_true_2 by done. cbn [negb andb].
  apply orb_true_iff. right. apply existsb_elem. exists p. split; [done|]. by apply bool_decide_eq_true.
Qed.

Lemma split_not_instant t : t ∈ ts → is_split t = true → instant_of t = false.
Proof.
  intros Ht Hs. apply (split_iff t Ht) in Hs. unfold needs_split in Hs. apply andb_true_iff in Hs as [[H1 H2]%andb_true_iff _].
  unfold instant_of. apply negb_true_iff in H1. rewrite H1. apply bool_decide_eq_true in H2. by apply bool_decide_eq_false.
Qed.

Lemma monotone_tested n : n ∈ nonMonotonePlaces net → n ∈ set_union (nonMonotonePlaces net) (tested demand).
Proof. intros H. apply elem_of_set_union. by left. Qed.

Lemma nonMonotone_elem n : n ∈ nonMonotonePlaces net ↔ n ∈ stops ∨ ∃ t, t ∈ ts ∧
  (n ∈ place_name <$> inhibitors t ∨ n ∈ place_name <$> resets t ∨ ∃ s, s ∈ inputSpecs t ∧ is_drain s = true ∧ place_name (in_place s) = n).
Proof.
  unfold nonMonotonePlaces. rewrite elem_of_set_of, elem_of_app, list_elem_of_bind. setoid_rewrite elem_of_app. setoid_rewrite elem_of_app.
  apply or_iff_compat_l. split.
  - intros (t & [H|[H|(s & -> & [Hd Hs]%list_elem_of_filter)%list_elem_of_fmap]] & Ht); exists t; (split; [done|]); [by left|right; by left|].
    right. right. exists s. split_and!; [done|by apply Is_true_true|done].
  - intros (t & Ht & [H|[H|(s & Hs & Hd & <-)]]); exists t; (split; [|done]); [by left|right; by left|].
    right. right. apply (list_elem_of_fmap_2 (λ s, place_name (in_place s))), list_elem_of_filter. split; [by apply Is_true_true|done].
Qed.

Lemma executor_token c F a G : executor c F → landing ts instant_of is_split F a G → reached (λ n, c n + a n + in_flight_counts G n).
Proof.
  intros H L. apply (two_token (λ n, c n + a n) G).
  eapply (two_step_lands ts stops m0 restarts source_inputs out_in_net Hm0 (set_union (nonMonotonePlaces net) (tested demand))) with (instant := instant_of); try done.
  - intros n Hn. by apply monotone_tested, nonMonotone_elem; left.
  - intros t p Ht Hp. apply monotone_tested, nonMonotone_elem. right. exists t. split; [done|]. left. by apply list_elem_of_fmap_2.
  - intros t p Ht Hp. apply monotone_tested, nonMonotone_elem. right. exists t. split; [done|]. right. left. by apply list_elem_of_fmap_2.
  - intros t s Ht Hs Hd. apply monotone_tested, nonMonotone_elem. right. exists t. split; [done|]. right. right. by exists s.
  - apply tested_untested.
  - apply split_not_instant.
Qed.

Lemma token_executor g : reached g → ∃ c F, executor c F ∧ split_flights F ∧ ∀ n, g n = c n + in_flight_counts F n.
Proof.
  intros (c & F & H & E)%token_two. destruct (two_flights _ _ H) as [_ HF]. exists c, F. split_and!; [|done|done].
  eapply (one_step_two ts stops m0 restarts source_inputs out_in_net Hm0 _ is_split); [apply split_not_instant|done].
Qed.
End Net.
End Rewritten.

(** ** Counterexamples without a restart *)

Section Restarts.
Context {V : Type}.

Lemma restarted_none (trace : list marking_state) (names : list jsstr) : length trace = S (length names) → restartedTransitions trace names = [] →
  ∀ j n m, names !! j = Some n → trace !! j = Some m → count_of m (inFlightPlace n) <= 0.
Proof.
  intros Hlen H j n m Hn Hm. unfold restartedTransitions in H. rewrite (proj2 (Nat.eqb_eq _ _)) in H by lia. cbn [negb] in H.
  assert (zip names trace !! j = Some (n, m)) as Hz by (apply lookup_zip_Some; done).
  destruct (Z.le_gt_cases (count_of m (inFlightPlace n)) 0) as [|Hgt]; [done|]. exfalso. revert H.
  set (step := λ (out : list jsstr) (x : jsstr * marking_state), _).
  assert (∀ l out, out ≠ [] → foldl step out l ≠ []) as Hkeep.
  { induction l as [|x l IH]; intros out Ho; [done|]. cbn [foldl]. apply IH. unfold step. case_match; [by destruct out|done]. }
  apply list_elem_of_lookup_2, list_elem_of_split in Hz as (l1 & l2 & ->). rewrite foldl_app. cbn [foldl]. apply Hkeep.
  unfold step. cbn [fst snd]. change (ms_tokens (mk_place 0 (inFlightPlace n)) m) with (count_of m (inFlightPlace n)).
  rewrite (proj2 (Z.ltb_lt _ _)) by lia. cbn [andb]. case_bool_decide as Hin; intros E; [by apply app_eq_nil in E as [_ ?]|].
  rewrite E in Hin. by apply not_elem_of_nil in Hin.
Qed.

Lemma sequence_split (us : list (transition V)) S m0 trace names : firing_sequence us m0 trace names → restartedTransitions trace names = [] →
  ∀ k m, trace !! k = Some m → split_reachable us S m0 false (count_of m).
Proof.
  intros ((m1 & Hhead & H1) & Hlen & Hstep) Hre. induction k as [|k IH]; intros m Hm.
  - apply split_initial. destruct trace; [done|]. injection Hhead as ->. by injection Hm as <-.
  - destruct (lookup_lt_is_Some_2 trace k) as [m' Hm']; [apply lookup_lt_Some in Hm; lia|].
    destruct (Hstep k m' m Hm' Hm) as (i & o & Hn & t & os & Et & He & Eos & Ho & Hc).
    eapply split_step; [by apply IH|exact Et| |exact He|exact Eos|exact Ho|exact Hc]. right. intros _.
    unfold name_at in Hn. rewrite Et in Hn. by apply (restarted_none trace names Hlen Hre k).
Qed.
End Restarts.

(** ** Properties *)

(** C13: the rewrites verification puts before its analyses are exact for the two-step firing. Take
    a closed net of built transitions with distinct names, started on its own places, whose split
    is not refused and to whose split the terminal inhibitors are added. Its two-step runs start
    and land firings in any interleaving until a terminal place is marked; without restarts, the
    TypeScript executor's rule (CONC-002), no transition starts while a firing of its own is in
    flight. (1) Every state of a two-step run, the flights of unsplit transitions landed (any
    outcome each) and one token on [inflight:t] per flight of a split [t], is reached by one-step
    firings of the resulting net, and (2) every marking those reach is a state of a two-step run
    with only split transitions in flight; both hold with restarts and, on both sides, without:
    the firings of the net then do not fire a split [t] while [inflight:t] is marked. (3) All
    firings of the net, which the analyses read, are those with restarts, so for the TypeScript
    executor they over-approximate; but (4) a trace of firings of the net in which
    [restartedTransitions] finds no restart ends in a state the TypeScript executor's rule reaches. *)
Theorem split_exact {V} fresh (net net' net'' : petri_net V) coloured environment demand r m0 :
  built_net net → net_wf net → NoDup (t_name <$> net_transitions net) →
  ms_wf m0 → (∀ n, count_of m0 n ≠ 0 → n ∈ place_name <$> net_places net) →
  splitInFlightFor fresh net coloured environment demand = Ok r → (r = Atomic ∧ net' = net) ∨ (∃ S, r = Split net' S) →
  withTerminalInhibitors net' = Ok net'' →
  let two_step restarts := two_step_reachable (net_transitions net) (place_name <$> net_terminals net) m0 restarts (instant_of environment) in
  let one_step restarts := split_reachable (net_transitions net'') (split_names net environment demand) m0 restarts in
  let split := is_split net environment demand in
  (∀ restarts c F a G, two_step restarts c F → landing (net_transitions net) (instant_of environment) split F a G →
     one_step restarts (λ n, c n + a n + in_flight_counts net G n)) ∧
  (∀ restarts g, one_step restarts g → ∃ c F, two_step restarts c F ∧ split_flights net environment demand F ∧
     ∀ n, g n = c n + in_flight_counts net F n) ∧
  (∀ g, token_reachable (net_transitions net'') [] Ignore m0 g ↔ one_step true g) ∧
  (∀ trace names m, firing_sequence (net_transitions net'') m0 trace names → restartedTransitions trace names = [] → last trace = Some m →
     ∃ c F, two_step false c F ∧ split_flights net environment demand F ∧ ∀ n, count_of m n = c n + in_flight_counts net F n).
Proof.
  intros Hb Hw Hn Hm Hp Hs Hr Hi two_step one_step split. split_and!.
  - intros restarts c F a G H L. by eapply executor_token.
  - intros restarts g Hg. by eapply token_executor.
  - intros g. symmetry. apply split_token.
  - intros trace names m Htr Hre Hlast. rewrite last_lookup in Hlast. eapply token_executor; try done. by eapply sequence_split.
Qed.

(** [work] moves a token to [out], which inhibits [guard]; marking [end] stops the net. *)
Definition split_work : builder unit := with_outputs (OutPlace (Place 1 (js "out"))) (with_inputs [InOne (Place 0 (js "in"))] (builder_new (js "work"))).
Definition split_guard : builder unit := with_inhibitors [Place 1 (js "out")] (with_outputs (OutPlace (Place 3 (js "ok"))) (with_inputs [InOne (Place 2 (js "go"))] (builder_new (js "guard")))).
Definition split_net : petri_net unit :=
  PetriNet (js "net") [Place 0 (js "in"); Place 1 (js "out"); Place 2 (js "go"); Place 3 (js "ok"); Place 4 (js "end")]
    [built split_work; built split_guard] [Place 4 (js "end")].
Definition split_start : marking_state := MarkingState [(js "in", 1); (js "go", 1)] [(js "in", Place 0 (js "in")); (js "go", Place 2 (js "go"))].
Definition split_result := splitInFlightFor 5 split_net [] [] emptyDemand.
Definition split_target : petri_net unit := Eval vm_compute in match split_result with Ok (Split n _) => n | _ => split_net end.
Definition split_final : petri_net unit := Eval vm_compute in match withTerminalInhibitors split_target with Ok n => n | _ => split_net end.

Lemma split_net_ok : built_net split_net ∧ net_wf split_net ∧ NoDup (t_name <$> net_transitions split_net) ∧ ms_wf split_start ∧
  (∀ n, count_of split_start n ≠ 0 → n ∈ place_name <$> net_places split_net).
Proof.
  split_and!.
  - intros t [->|[->|[]%not_elem_of_nil]%elem_of_cons]%elem_of_cons; [exists split_work|exists split_guard]; (split; [reflexivity|]); by intros o [= <-].
  - split_and!.
    + intros t p Ht Hp. unfold split_net in *. cbn [net_transitions net_places] in *.
      assert (forallb (λ t, forallb (λ p, bool_decide (p ∈ net_places split_net)) (arc_places t)) (net_transitions split_net) = true) as H by (vm_compute; reflexivity).
      rewrite forallb_elem in H. specialize (H t Ht). rewrite forallb_elem in H. specialize (H p Hp). by apply bool_decide_eq_true in H.
    + intros p ->%list_elem_of_singleton. apply (bool_decide_unpack _). vm_compute. exact I.
    + apply NoDup_singleton.
    + intros p t ->%list_elem_of_singleton [->|[->|[]%not_elem_of_nil]%elem_of_cons]%elem_of_cons; (split; [|by intros q ?%not_elem_of_nil]);
        intros s ->%list_elem_of_singleton; done.
  - apply (bool_decide_unpack _). vm_compute. exact I.
  - constructor; [apply (bool_decide_unpack _); vm_compute; exact I|done| |apply (bool_decide_unpack _); vm_compute; exact I|].
    + intros n p [[= -> ->]|[[= -> ->]|[]%not_elem_of_nil]%elem_of_cons]%elem_of_cons; done.
    + intros n z [[= -> ->]|[[= -> ->]|[]%not_elem_of_nil]%elem_of_cons]%elem_of_cons; lia.
  - intros n. unfold count_of. cbn [tokenCounts split_start map_get]. repeat (case_decide; [subst; intros _; apply (bool_decide_unpack _); vm_compute; exact I|]). done.
Qed.

(** [work] in flight: its input is gone, its output not there; no transition restarts. *)
Lemma split_exact_witness : ∃ g, split_reachable (net_transitions split_final) (split_names split_net [] emptyDemand) split_start false g ∧
  g (js "inflight:work") = 1 ∧ g (js "in") = 0 ∧ g (js "out") = 0.
Proof.
  destruct split_net_ok as (H1 & H2 & H3 & H4 & H5).
  destruct (split_exact 5 split_net split_target split_final [] [] emptyDemand (Split split_target [js "work"]) split_start H1 H2 H3 H4 H5)
    as [H _]; [vm_compute; reflexivity|right; by exists [js "work"]|vm_compute; reflexivity|].
  set (d := drained_counts [] Ignore (built split_work) (count_of split_start)).
  set (c := intermediate_counts [] Ignore (built split_work) (count_of split_start)).
  exists (λ n, c n + 0 + in_flight_counts split_net [(0%nat, d)] n). split; [|done].
  apply (H false c [(0%nat, d)] (λ _, 0) [(0%nat, d)]).
  - apply (two_start _ _ _ _ _ (count_of split_start) [] c 0 (built split_work) d); try reflexivity; [by apply two_initial|right; apply not_elem_of_nil].
  - apply (landing_keep _ _ _ 0%nat (built split_work)); [reflexivity|reflexivity|by apply landing_nil].
Defined.
