(* ===== verification/Interleaving.v ===== *)
(** * The analyses cover the executor's interleaved runs

    The executor consumes the inputs of a firing when it starts it and deposits its output when it
    completes, other firings in between. A complete untimed state-class graph of the net the
    verification rewrites ([InFlightRuns]) has every marking such runs reach. *)
From S2P Require Import Prelude.
From S2P Require Import CodePoints.
From S2P Require Import Net.
From S2P Require Import Out.
From S2P Require Import OutSpec.
From S2P Require Import Transition.
From S2P Require Import Marking.
From S2P Require Import MatchEngine.
From S2P Require Import OutputCheck.
From S2P Require Import Context.
From S2P Require Import Executor.
From S2P Require Import ExecFire.
From S2P Require Import ExecGame.
From S2P Require Import PetriNet.
From S2P Require Import CompiledNet.
From S2P Require Import MarkingState.
From S2P Require Import Outcomes.
From S2P Require Import StateClass.
From S2P Require Import ClassSteps.
From S2P Require Import ClassKeys.
From S2P Require Import GraphExact.
From S2P Require Import FlatNet.
From S2P Require Import Agreement.
From S2P Require Import NetRewrites.
From S2P Require Import InFlightRuns.
#[local] Open Scope Z_scope.

Section Interleaving.
Context {V : Type}.
Variables (net : petri_net V) (m0 : marking V).
Implicit Types (t : transition V) (m : marking V).
Local Abbreviation ts := (net_transitions net).
Local Abbreviation terminals := (place_name <$> net_terminals net).

Definition terminal_free m : Prop := ∀ p, p ∈ net_terminals net → queue m (place_name p) = [].

(** The markings of interleaved runs; a flight keeps the marking its firing started from. A
    transition may start again while in flight, as the TypeScript executor never does (CONC-002):
    what holds of these runs holds of its runs. *)
Inductive interleaved : marking V → list (nat * marking V) → Prop :=
| il_initial : interleaved m0 []
| il_start m F m1 i t : interleaved m F → ts !! i = Some t → terminal_free m → enabled_in t m →
    (∀ n, queue m1 n = marking_after t None m n) → interleaved m1 (F ++ [(i, m)])
| il_land m F1 F2 i ms t o m2 es : interleaved m (F1 ++ (i, ms) :: F2) → ts !! i = Some t → terminal_free m → outputSpec t = Some o →
    (∀ n, queue m2 n = queue m n ++ landed es n) → written t o ms es → interleaved m2 (F1 ++ F2)
| il_sink m F1 F2 i ms t : interleaved m (F1 ++ (i, ms) :: F2) → ts !! i = Some t → terminal_free m → outputSpec t = None →
    interleaved m (F1 ++ F2).

Hypothesis Hbuilt : built_net net.
Hypothesis Hnames : ∀ t o, t ∈ ts → outputSpec t = Some o → Forall name_ok (universe o).
Hypothesis Hjoins : ∀ t, t ∈ ts → t_matchSpec t = None.
Hypothesis Hcompletions : ∀ t, t ∈ ts → isCompletion t = false.

(** The flight on counts. *)
Definition counted (f : nat * marking V) : nat * (place → Z) :=
  (f.1, λ p, match ts !! f.1 with Some t => drained_counts [] Ignore t (marking_counts f.2) p | None => 0 end).

Definition started (f : nat * marking V) : Prop := ∃ t, ts !! f.1 = Some t ∧ enabled_in t f.2.

Lemma interleaved_started m F : interleaved m F → Forall started F.
Proof.
  induction 1 as [|m F m1 i t _ IH Et Ht He H1|m F1 F2 i ms t o m2 es _ IH Et Ht Eo H2 Hw|m F1 F2 i ms t _ IH Et Ht Eo]; [constructor| | |].
  - apply Forall_app. split; [done|]. repeat constructor. by exists t.
  - apply Forall_app in IH as [? [_ ?]%Forall_cons]. by apply Forall_app.
  - apply Forall_app in IH as [? [_ ?]%Forall_cons]. by apply Forall_app.
Qed.

Lemma terminal_stopped m : terminal_free m → stopped terminals (marking_counts m) = false.
Proof.
  intros H. apply stopped_false. intros n (p & -> & Hp)%list_elem_of_fmap. unfold marking_counts. by rewrite (H p Hp).
Qed.

Lemma interleaved_two ms m F : (∀ n, count_of ms n = marking_counts m0 n) → interleaved m F →
  two_step_reachable ts terminals ms true (instant_of []) (marking_counts m) (counted <$> F).
Proof.
  intros H0 H. induction H as [|m F m1 i t H IH Et Ht He H1|m F1 F2 i mi t o m2 es H IH Et Ht Eo H2 Hw|m F1 F2 i mi t H IH Et Ht Eo].
  - apply two_initial. intros n. by rewrite H0.
  - assert (t ∈ ts) as Hin by (by eapply list_elem_of_lookup_2). destruct (Hbuilt t Hin) as (b & Hb & Hi).
    assert (inputs_wf (inputSpecs t)) as Hwf by (by apply build_ok in Hb as [[? _] ->]).
    rewrite fmap_app, fmap_cons, fmap_nil. eapply two_start; [exact IH|exact Et| |by left|by apply terminal_stopped|by apply enabled_agree; [apply Hjoins|]| |].
    + unfold instant_of. rewrite Hcompletions by done. apply bool_decide_eq_false, not_elem_of_nil.
    + intros n. unfold marking_counts at 1. rewrite H1. by apply consume_agree; [apply Hjoins| |].
    + intros p. cbn. by rewrite Et.
  - assert (t ∈ ts) as Hin by (by eapply list_elem_of_lookup_2). destruct (Hbuilt t Hin) as (b & Hb & Hi).
    assert (b_output b = Some o) as Ebo by (apply build_ok in Hb as [_ ->]; done).
    pose proof (interleaved_started _ _ H) as Hs. apply Forall_app in Hs as [_ [(t' & Et' & He) _]%Forall_cons]. cbn [fst snd] in *.
    assert (t' = t) as -> by congruence.
    destruct (written_counts b t o mi es Hb Ebo (Hi o Ebo) (Hnames t o Hin Eo) (Hjoins t Hin) He Hw) as (os & oc & Eos & Hoc & Hdep).
    rewrite fmap_app in *. rewrite fmap_cons in IH. eapply two_land; [exact IH|exact Et|by apply terminal_stopped|exact Eos|exact Hoc|].
    intros n. unfold marking_counts at 1. rewrite H2, length_app, Nat2Z.inj_add, landed_count, Hdep. unfold marking_counts at 1. f_equal.
    apply deposited_ext. intros p. cbn. by rewrite Et.
  - assert (t ∈ ts) as Hin by (by eapply list_elem_of_lookup_2).
    rewrite fmap_app in *. rewrite fmap_cons in IH. eapply two_land; [exact IH|exact Et|by apply terminal_stopped| |left|].
    + unfold outcomes. by rewrite Eo.
    + intros n. cbn. lia.
Qed.
End Interleaving.

(** ** Properties *)

(** C36: the analyses see what the executor does, actions in flight included. Take a closed net of
    built transitions with distinct names and no joins, and the net verification makes of it: the
    transitions whose outputs are tested split into a start and a completion, every terminal place
    an inhibitor. Then every marking the executor reaches by interleaved starts and completions
    (tokens taken and reset by its consumption rule, accepted outputs of one token per place or
    timeout productions, batches included, until a terminal place is marked) with only split
    transitions in flight has, with a token on [inflight:t] for each of them, exactly the counts of
    some class of a complete untimed state-class graph of that net. *)
Theorem graph_covers_interleaving {V} fresh scale (net net' net'' : petri_net V) coloured demand r isPassthrough maxClasses ms (m0 m : marking V) F g :
  0 < scale → built_net net → net_wf net → NoDup (t_name <$> net_transitions net) →
  (∀ t o, t ∈ net_transitions net → outputSpec t = Some o → Forall name_ok (universe o)) →
  (∀ t, t ∈ net_transitions net → t_matchSpec t = None ∧ isCompletion t = false) →
  ms_wf ms → (∀ n, count_of ms n = marking_counts m0 n) → (∀ n, count_of ms n ≠ 0 → n ∈ place_name <$> net_places net) →
  splitInFlightFor fresh net coloured [] demand = Ok r → (r = Atomic ∧ net' = net) ∨ (∃ S, r = Split net' S) →
  withTerminalInhibitors net' = Ok net'' → scg_net_ok (net_transitions net'') [] Ignore ms →
  requireOutputProducingActions isPassthrough 0 (net_transitions net'') = Ok () →
  scg_build scale (net_transitions net'') [] Ignore true isPassthrough None None ms maxClasses = Ok (Some g) → isComplete g = true →
  interleaved net m0 m F → (∀ f, f ∈ F → ∃ t, net_transitions net !! f.1 = Some t ∧ is_split net [] demand t = true) →
  ∃ c, c ∈ g_classes g ∧ ∀ n, count_of (sc_marking c) n = marking_counts m n + in_flight_counts net (counted net <$> F) n.
Proof.
  intros Hs Hb Hw Hn Hu Hj Hms H0 Hp Hsp Hr Hi Hok Ha Eg Hcomp Hrun HF.
  assert (two_step_reachable (net_transitions net) (place_name <$> net_terminals net) ms true (instant_of []) (marking_counts m) (counted net <$> F)) as Htwo
    by (eapply (interleaved_two net m0); try done; intros; by apply Hj).
  assert (token_reachable (net_transitions net'') [] Ignore ms (λ n, marking_counts m n + 0 + in_flight_counts net (counted net <$> F) n)) as Htok.
  { apply (split_token _ (split_names net [] demand)). eapply (executor_token fresh net net' net'' coloured [] demand r); try done. apply landing_split. apply Forall_forall. intros f (f0 & -> & Hf)%list_elem_of_fmap.
    by apply HF. }
  apply (token_timed _ [] Ignore scale ms Hs) in Htok.
  destruct (build_spec scale (net_transitions net'') [] Ignore true ms Hs Hok None (λ _ _, conj I (λ _ H, H)) isPassthrough Ha maxClasses) as (c0 & x & g' & _ & E & G & _ & E0 & Hst).
  rewrite E in Eg. injection Eg as ->.
  destruct (graph_complete scale (net_transitions net'') [] Ignore true ms Hs Hok None x g c0 eq_refl G Hcomp E0 Hst _ Htok) as (c & Hc & Hin & _).
  exists c. split; [done|]. intros n. specialize (Hin n). cbn in Hin. lia.
Qed.

(** The builder of a transition's own fields. *)
Definition builder_of (t : transition unit) : builder unit :=
  Builder unit (t_name t) (inputSpecs t) (outputSpec t) (inhibitors t) (reads t) (resets t) (t_timing t) (priority t) (placeAlias t) (t_matchSpec t).

Definition split_tokens : marking unit := addToken (Place 2 (js "go")) (tok_at 2) (addToken (Place 0 (js "in")) (tok_at 1) (Marking [] [])).
Definition split_taken : marking unit := addToken (Place 2 (js "go")) (tok_at 2) (Marking [] []).
Definition split_graph : scg := Eval vm_compute in match scg_build 1 (net_transitions split_final) [] Ignore true (λ _, false) None None split_start 50 with
  Ok (Some g) => g | _ => example_graph end.

Lemma split_final_ok : scg_net_ok (net_transitions split_final) [] Ignore split_start.
Proof. by apply (checked_net_ok (builder_of <$> net_transitions split_final)). Qed.

(** [work] is in flight; [guard] may still start. *)
Lemma split_run : interleaved split_net split_tokens split_taken [(0%nat, split_tokens)].
Proof.
  apply (il_start split_net split_tokens split_tokens [] split_taken 0 (built split_work)); [apply il_initial|reflexivity| | |].
  - intros p ->%list_elem_of_singleton. reflexivity.
  - apply enabled_agree; reflexivity.
  - intros n. unfold marking_after. rewrite decide_False by apply not_elem_of_nil.
    destruct (decide (n = js "in")) as [->|H1]; [reflexivity|]. unfold left_after. rewrite js_find_name_None; [|by intros ?%list_elem_of_singleton].
    unfold split_tokens, split_taken. rewrite !queue_addToken, queue_empty. cbn [place_name]. by rewrite (decide_False (P := n = js "in")) by done.
Qed.

Lemma graph_covers_interleaving_witness : ∃ c, c ∈ g_classes split_graph ∧
  ∀ n, count_of (sc_marking c) n = marking_counts split_taken n + in_flight_counts split_net (counted split_net <$> [(0%nat, split_tokens)]) n.
Proof.
  destruct split_net_ok as (H1 & H2 & H3 & H4 & H5).
  apply (graph_covers_interleaving 5 1 split_net split_target split_final [] emptyDemand (Split split_target [js "work"]) (λ _, false) 50 split_start split_tokens split_taken).
  - lia.
  - exact H1.
  - exact H2.
  - exact H3.
  - intros t o [->|[->|[]%not_elem_of_nil]%elem_of_cons]%elem_of_cons [= <-]; apply (bool_decide_unpack _); vm_compute; exact I.
  - intros t [->|[->|[]%not_elem_of_nil]%elem_of_cons]%elem_of_cons; split; reflexivity.
  - exact H4.
  - intros n. unfold marking_counts, split_tokens. rewrite !queue_addToken, queue_empty. cbn [place_name]. unfold count_of, split_start. cbn [tokenCounts map_get].
    destruct (decide (n = js "in")) as [->|N1]; [reflexivity|]. destruct (decide (n = js "go")) as [->|N2]; reflexivity.
  - exact H5.
  - vm_compute. reflexivity.
  - right. by exists [js "work"].
  - vm_compute. reflexivity.
  - exact split_final_ok.
  - reflexivity.
  - vm_compute. reflexivity.
  - vm_compute. reflexivity.
  - exact split_run.
  - intros f ->%list_elem_of_singleton. exists (built split_work). split; reflexivity.
Defined.
