(* ===== verification/StateSpaceCache.v ===== *)
(** * The cache of state spaces

    [src/typescript/src/verification/state-space-cache.ts]: the graphs a verifier remembers, keyed
    by the caller's net (its identity), the split it was built from, the initial marking as listed
    and whether the graph was reduced. A key string is the data it prints; a [Place] object is its
    record; weak references are not modelled. *)
From S2P Require Import Prelude.
From S2P Require Import Net.
From S2P Require Import Transition.
From S2P Require Import PetriNet.
From S2P Require Import CompiledNet.
From S2P Require Import MarkingState.
From S2P Require Import Dbm.
From S2P Require Import Outcomes.
From S2P Require Import StateClass.
From S2P Require Import GraphExact.
From S2P Require Import StubbornSets.
From S2P Require Import SmtProperty.
From S2P Require Import ScgVerifier.
#[local] Open Scope Z_scope.

(** A remembered attempt. *)
Inductive cache_entry :=
| EntryClosed (graph : scg)
| EntryTruncated (budget : Z) (graph : scg).

Inductive state_space_lookup :=
| LookupBuilt (graph : scg)
| LookupReused (graph : scg)
| LookupDeclined (graph : scg).

(** [`${stubborn…}${JSON.stringify(split)}|${markingKey(…)}`] *)
Abbreviation marking_key := (list (jsstr * nat * Z)).
Abbreviation cache_key := (bool * list jsstr * marking_key)%type.

Record cache_state := CacheState {
  cs_entries : list (nat * list (cache_key * cache_entry));
  cs_placeIds : list (place * nat);
  cs_nextPlaceId : nat
}.
Definition newState : cache_state := CacheState [] [] 0.
Definition cache_clear (st : cache_state) : cache_state := newState.

(** The id of one place, given to it at its first use. *)
Definition place_id (p : place) (st : cache_state) : nat * cache_state :=
  match map_get p (cs_placeIds st) with
  | Some id => (id, st)
  | None => (cs_nextPlaceId st, CacheState (cs_entries st) (map_set p (cs_nextPlaceId st) (cs_placeIds st)) (S (cs_nextPlaceId st)))
  end.
Definition markingKey (st : cache_state) (m : marking_state) : marking_key * cache_state :=
  foldl (λ acc p, let '(id, st) := place_id p acc.2 in (acc.1 ++ [(place_name p, id, ms_tokens p m)], st)) ([], st) (placesWithTokens m).

Section Cache.
Context {V : Type}.
Variable scale : Z.

(** One query: the caller's net and the split, the net built from, and the build's arguments. *)
Record cache_query := CacheQuery {
  q_keyNet : nat;
  q_split : list jsstr;
  q_buildNet : list (transition V);
  q_isPassthrough : nat → bool;
  q_initial : marking_state;
  q_budget : Z;
  q_deadline : option (nat → bool);
  q_stubborn : bool
}.

Definition query_build (q : cache_query) (budget : Z) (deadline : option (nat → bool)) : result scg_error (option scg) :=
  buildStateSpace (q_buildNet q) scale (q_isPassthrough q) (q_initial q) budget deadline (q_stubborn q).

(** [None] inside [Ok] when the build's fuel is spent. *)
Definition resolveStateSpace (st : cache_state) (q : cache_query) : result scg_error (option state_space_lookup) * cache_state :=
  let byMarking := default [] (map_get (q_keyNet q) (cs_entries st)) in
  let st := CacheState (map_set (q_keyNet q) byMarking (cs_entries st)) (cs_placeIds st) (cs_nextPlaceId st) in
  let '(mk, st) := markingKey st (q_initial q) in
  let key := (q_stubborn q, q_split q, mk) in
  let build :=
    match query_build q (q_budget q) (q_deadline q) with
    | Ok (Some graph) =>
        let entry := if isComplete graph then EntryClosed graph else EntryTruncated (q_budget q) graph in
        (Ok (Some (LookupBuilt graph)), CacheState (map_set (q_keyNet q) (map_set key entry byMarking) (cs_entries st)) (cs_placeIds st) (cs_nextPlaceId st))
    | Ok None => (Ok None, st)
    | Err e => (Err e, st)
    end in
  match map_get key byMarking with
  | Some (EntryClosed graph) =>
      (Ok (Some (if Z.of_nat (g_size graph) <? q_budget q then LookupReused graph else LookupDeclined graph)), st)
  | Some (EntryTruncated budget graph) => if q_budget q <=? budget then (Ok (Some (LookupDeclined graph)), st) else build
  | None => build
  end.
End Cache.
Arguments cache_query : clear implicits.

(** ** Builds at two budgets *)

Section Budgets.
Context {V : Type}.
Variables (scale : Z) (ts : list (transition V)) (env : list jsstr) (mode : environment_mode) (untimed : bool).
Variable sel : selector.
Local Abbreviation run := (explore scale ts env mode untimed sel).

Lemma add_successor_grows k vt c x : x_classes x `prefix_of` x_classes (add_successor scale k vt c x).
Proof. unfold add_successor. case_match; [done|]. cbn zeta. case_match; [done|]. cbn. by apply prefix_app_r. Qed.

Lemma fold_result_grows {B} (f : exploration → B → result scg_error exploration) l x x' :
  (∀ x b x', f x b = Ok x' → x_classes x `prefix_of` x_classes x') → fold_result f x l = Ok x' → x_classes x `prefix_of` x_classes x'.
Proof.
  intros Hf. unfold fold_result. revert x. induction l as [|b l IH]; intros x E; [by injection E as <-|]. cbn [foldl res_bind] in E.
  destruct (f x b) as [x1|e] eqn:Eb; [|exfalso; clear -E; induction l as [|b l IH]; [done|by apply IH]].
  etrans; [by eapply Hf|by apply IH].
Qed.

Lemma expand_class_grows k c x x' : expand_class scale ts env mode untimed sel k c x = Ok x' → x_classes x `prefix_of` x_classes x'.
Proof.
  unfold expand_class. intros (l & _ & E)%res_bind_ok. eapply fold_result_grows; [|exact E]. clear. intros x i x' E. unfold expand_transition in E.
  destruct (ts !! i) as [t|]; [|by injection E as <-]. apply res_bind_ok in E as (vts & _ & E). eapply fold_result_grows; [|exact E].
  clear. intros x vt x' E. apply res_bind_ok in E as (s & _ & E). injection E as <-. apply add_successor_grows.
Qed.

Lemma explore_grows max fuel x k g : run None max fuel x k = Ok (Some g) → x_classes x `prefix_of` g_classes g.
Proof.
  revert x k. induction fuel as [|fuel IH]; intros x k E; [done|]. cbn [explore] in E. destruct (x_classes x !! k) as [c|]; [|by injection E as <-].
  case_match; [by injection E as <-|]. apply res_bind_ok in E as (x' & E1 & E). etrans; [by eapply expand_class_grows|by eapply IH].
Qed.

(** A run at budget [b] follows the run at [max], up to where it truncates. *)
Lemma explore_two max b fuel1 fuel2 x k g1 : run None max fuel1 x k = Ok (Some g1) → b <= max ∨ g_complete g1 = true →
  (x_classes x !! k = None → Z.of_nat (length (x_classes x)) < b) →
  run None b fuel2 x k = Ok None ∨ ∃ g2, run None b fuel2 x k = Ok (Some g2) ∧ g_classes g2 `prefix_of` g_classes g1 ∧
    (g_complete g2 = true → g2 = g1 ∧ Z.of_nat (g_size g1) < b) ∧ (g_complete g1 = true → Z.of_nat (g_size g1) < b → g2 = g1).
Proof.
  revert fuel2 x k. induction fuel1 as [|fuel1 IH]; intros fuel2 x k E1 Hb Hlast; [done|]. destruct fuel2 as [|fuel2]; [by left|].
  pose proof (explore_grows _ _ _ _ _ E1) as Hg. cbn [explore] in *.
  destruct (x_classes x !! k) as [c|] eqn:Ek.
  2:{ injection E1 as <-. right. eexists. split; [reflexivity|]. split; [done|]. split; [|done]. intros _. split; [done|]. by apply Hlast. }
  destruct (Z.leb_spec b (Z.of_nat (length (x_classes x)))) as [Hle|Hlt].
  { right. eexists. split; [reflexivity|]. split; [done|]. split; [done|]. intros _ Hsz. apply prefix_length in Hg. unfold g_size in Hsz. lia. }
  destruct (Z.leb_spec max (Z.of_nat (length (x_classes x)))) as [Hle1|Hlt1].
  { injection E1 as <-. destruct Hb as [Hb|Hb]; [lia|done]. }
  apply res_bind_ok in E1 as (x' & Ex & E1). rewrite Ex. cbn [res_bind]. apply IH; [done|done|].
  intros Hn. apply lookup_ge_None in Hn. apply lookup_lt_Some in Ek. apply expand_class_grows, prefix_length in Ex. lia.
Qed.

(** A deadline that never throws leaves the graph as it is. *)
Lemma explore_deadline stops max fuel x k g : run stops max fuel x k = Ok (Some g) → run None max fuel x k = Ok (Some g).
Proof.
  revert x k. induction fuel as [|fuel IH]; intros x k E; [done|]. cbn [explore] in *. destruct (x_classes x !! k) as [c|]; [|done].
  destruct (max <=? _); [done|]. destruct (match stops with Some s => _ | None => false end); [done|].
  apply res_bind_ok in E as (x' & Ex & E). rewrite Ex. cbn [res_bind]. by apply IH.
Qed.
End Budgets.

Section Build.
Context {V : Type}.
Variables (scale : Z).
Implicit Types (q : cache_query V).

Lemma query_never_none q b d : query_build scale q b d ≠ Ok None.
Proof.
  unfold query_build, buildStateSpace. destruct (if q_stubborn q then _ else _) as [sel|]; [|done]. cbn [res_bind]. apply scg_build_terminates.
Qed.

Lemma query_deadline q b d g : query_build scale q b d = Ok (Some g) → query_build scale q b None = Ok (Some g).
Proof.
  unfold query_build, buildStateSpace, scg_build. destruct (if q_stubborn q then _ else _) as [sel|]; [|done]. cbn [res_bind].
  destruct (lift_compile _) as [[]|]; [|done]. cbn [res_bind]. destruct (initialStateClass _ _ _ _ _ _) as [c|]; [|done]. cbn [res_bind]. apply explore_deadline.
Qed.

Lemma query_two q max b g1 : query_build scale q max None = Ok (Some g1) → b <= max ∨ g_complete g1 = true →
  ∃ g2, query_build scale q b None = Ok (Some g2) ∧ g_classes g2 `prefix_of` g_classes g1 ∧
    (g_complete g2 = true → g2 = g1 ∧ Z.of_nat (g_size g1) < b) ∧ (g_complete g1 = true → Z.of_nat (g_size g1) < b → g2 = g1).
Proof.
  intros E Hb. pose proof (query_never_none q b None) as Hn. revert E Hn. unfold query_build, buildStateSpace, scg_build.
  destruct (if q_stubborn q then _ else _) as [sel|]; [|done]. cbn [res_bind].
  destruct (lift_compile _) as [[]|]; [|done]. cbn [res_bind]. destruct (initialStateClass _ _ _ _ _ _) as [c|]; [|done]. cbn [res_bind].
  intros E Hn. by destruct (explore_two scale _ _ _ _ sel max b _ (S (Z.to_nat b)) _ _ g1 E Hb) as [H|H].
Qed.
End Build.

(** ** Keys of markings *)

(** A marking lists its counts and its places in one order, as the builder keeps them. *)
Definition listed (m : marking_state) : Prop := ms_wf m ∧ (placesByName m).*1 = (tokenCounts m).*1.

Lemma map_set_same_keys {A B C} `{EqDecision A} (k : A) (v : B) (w : C) m m' : m.*1 = m'.*1 → (map_set k v m).*1 = (map_set k w m').*1.
Proof.
  revert m'. induction m as [|[a b] m IH]; intros [|[a' b'] m'] E; try done. rewrite !fmap_cons in E. injection E as E1 E2. cbn in E1. subst a'. cbn [map_set].
  case_decide; rewrite !fmap_cons; f_equal; [done|by apply IH].
Qed.
Lemma map_delete_same_keys {A B C} `{EqDecision A} (k : A) (m : list (A * B)) (m' : list (A * C)) : m.*1 = m'.*1 → (map_delete k m).*1 = (map_delete k m').*1.
Proof.
  revert m'. induction m as [|[a b] m IH]; intros [|[a' b'] m'] E; try done. rewrite !fmap_cons in E. injection E as E1 E2. cbn in E1. subst a'.
  unfold map_delete in *. rewrite !filter_cons. cbn [fst]. case_decide; rewrite ?fmap_cons; [f_equal|]; by apply IH.
Qed.
Lemma map_set_old_keys {A B} `{EqDecision A} (k : A) (v : B) m : k ∈ m.*1 → (map_set k v m).*1 = m.*1.
Proof.
  induction m as [|[a b] m IH]; intros H; [by apply not_elem_of_nil in H|]. cbn [map_set]. case_decide as E; [by subst|]. rewrite !fmap_cons in *. f_equal.
  apply elem_of_cons in H as [->|H]; [done|by apply IH].
Qed.

Lemma map_set_absent {A B} `{EqDecision A} (k : A) (v : B) m : map_get k m = None → map_set k v m = m ++ [(k, v)].
Proof. induction m as [|[a b] m IH]; simpl; [done|]. case_decide; [done|]. intros. by rewrite IH. Qed.

Lemma listed_empty : listed ms_empty.
Proof. split; [apply ms_empty_wf|done]. Qed.
Lemma listed_set p z m m' : listed m → set_tokens p z m = Ok m' → listed m'.
Proof.
  intros [W L] E. split; [by apply (set_tokens_spec p z m m' W E)|]. unfold set_tokens in E. destruct (z <? 0); [done|]. destruct (0 <? z); injection E as <-; cbn;
    [by apply map_set_same_keys|by apply map_delete_same_keys].
Qed.
Lemma listed_add p z m m' : listed m → addTokens p z m = Ok m' → listed m'.
Proof.
  intros [W L] E. split; [by apply (addTokens_spec p z m m' W E)|]. unfold addTokens in E. destruct (z <? 0); [done|]. destruct (0 <? z); injection E as <-; cbn; [|done].
  by apply map_set_same_keys.
Qed.
Lemma listed_remove p z m m' : listed m → 0 <= z → removeTokens p z m = Ok m' → listed m'.
Proof.
  intros [W L] Hz E. split; [by apply (removeTokens_spec p z m m' W Hz E)|]. unfold removeTokens in E. cbn zeta in E. destruct (_ <? 0) eqn:En; [done|].
  destruct (_ =? 0) eqn:E0; injection E as <-; cbn; [by apply map_delete_same_keys|]. b2p. destruct (map_get (place_name p) (tokenCounts m)) as [k|] eqn:Ek; cbn in *; [|lia].
  apply map_get_elem, (list_elem_of_fmap_2 fst) in Ek. by rewrite map_set_old_keys.
Qed.

(** The listing determines the marking. *)
Lemma listed_inj m m' : listed m → listed m' → ((λ p, (p, ms_tokens p m)) <$> placesWithTokens m) = ((λ p, (p, ms_tokens p m')) <$> placesWithTokens m') → m = m'.
Proof.
  assert (∀ m, listed m → placesByName m = (λ y, (place_name y.1, y.1)) <$> ((λ p, (p, ms_tokens p m)) <$> placesWithTokens m) ∧
    tokenCounts m = (λ y, (place_name y.1, y.2)) <$> ((λ p, (p, ms_tokens p m)) <$> placesWithTokens m)) as H.
  { intros [tc pn] [[W1 _ W3 _ _] L]. unfold placesWithTokens. cbn [tokenCounts placesByName] in *. rewrite <- !list_fmap_compose.
    assert (∀ n z, (n, z) ∈ tc → map_get n tc = Some z) as Hget by (intros; by apply elem_map_get).
    assert (∀ p z, place_name p = z.1 → z ∈ tc → ms_tokens p (MarkingState tc pn) = z.2) as Htok.
    { intros p [n z] Hp Hin. unfold ms_tokens. cbn [tokenCounts] in *. cbn in Hp. by rewrite Hp, (Hget n z Hin). }
    clear W1 Hget. generalize dependent (MarkingState tc pn). intros m1 Htok. revert tc L Htok. induction pn as [|[n p] pn IH]; intros [|[n' z] tc] L Htok; try done.
    rewrite !fmap_cons in *. injection L as E1 E2. cbn in E1. subst n'. cbn [fst snd compose]. pose proof (W3 n p ltac:(left)) as Ep.
    destruct (IH (λ n p H, W3 n p (list_elem_of_further _ _ _ H)) tc E2) as [I1 I2]; [intros q y Hq Hy; apply Htok; [done|by right]|].
    split.
    - f_equal; [by rewrite Ep|exact I1].
    - f_equal; [|exact I2]. unfold compose. cbn. rewrite (Htok p (n, z)) by (done || left). by rewrite Ep. }
  intros [E1 E2]%H [E3 E4]%H E. destruct m as [tc pn], m' as [tc' pn']. cbn [tokenCounts placesByName] in *. f_equal; (etrans; [eassumption|]; rewrite E; by symmetry).
Qed.

(** Ids of places are distinct and below the next one. *)
Definition ids_distinct (st : cache_state) : Prop :=
  NoDup (cs_placeIds st).*1 ∧ NoDup (cs_placeIds st).*2 ∧ ∀ i, i ∈ (cs_placeIds st).*2 → (i < cs_nextPlaceId st)%nat.

(** [st'] knows the ids of [st], and has its entries. *)
Definition ids_extend (st st' : cache_state) : Prop :=
  cs_entries st' = cs_entries st ∧ ∀ p i, map_get p (cs_placeIds st) = Some i → map_get p (cs_placeIds st') = Some i.

Lemma place_id_spec p st : ids_distinct st → let '(id, st') := place_id p st in
  ids_distinct st' ∧ ids_extend st st' ∧ map_get p (cs_placeIds st') = Some id.
Proof.
  intros (H1 & H2 & H3). unfold place_id. destruct (map_get p (cs_placeIds st)) as [id|] eqn:E; [by split_and!|].
  assert (p ∉ (cs_placeIds st).*1) as Hn by (by apply map_get_None). unfold ids_distinct, ids_extend. cbn [cs_placeIds cs_nextPlaceId cs_entries]. split_and!.
  - by apply NoDup_map_set.
  - rewrite map_set_absent by done. rewrite fmap_app. apply NoDup_app. split_and!; [done| |apply NoDup_singleton].
    intros i Hi ->%list_elem_of_singleton. apply H3 in Hi. cbn in Hi. lia.
  - intros i. rewrite map_set_absent by done. rewrite fmap_app, elem_of_app. intros [Hi|Hi]; [apply H3 in Hi; lia|]. apply list_elem_of_singleton in Hi. cbn in Hi. lia.
  - done.
  - intros q i Hq. rewrite map_get_set. case_decide; [congruence|done].
  - by rewrite map_get_set, decide_True.
Qed.

Definition key_of (ids : list (place * nat)) (m : marking_state) : marking_key :=
  (λ p, (place_name p, default 0%nat (map_get p ids), ms_tokens p m)) <$> placesWithTokens m.
Definition known (ids : list (place * nat)) (m : marking_state) : Prop := ∀ p, p ∈ placesWithTokens m → is_Some (map_get p ids).

Lemma markingKey_spec st m : ids_distinct st → let '(mk, st') := markingKey st m in
  ids_distinct st' ∧ ids_extend st st' ∧ mk = key_of (cs_placeIds st') m ∧ known (cs_placeIds st') m.
Proof.
  intros H. unfold markingKey, key_of, known.
  assert (∀ ps acc st, ids_distinct st → let '(mk, st') := foldl (λ acc p, let '(id, st) := place_id p acc.2 in (acc.1 ++ [(place_name p, id, ms_tokens p m)], st)) (acc, st) ps in
    ids_distinct st' ∧ ids_extend st st' ∧ mk = acc ++ ((λ p, (place_name p, default 0%nat (map_get p (cs_placeIds st')), ms_tokens p m)) <$> ps) ∧
    ∀ p, p ∈ ps → is_Some (map_get p (cs_placeIds st'))) as Hloop; [|by apply Hloop].
  clear H st. intros ps. induction ps as [|p ps IH]; intros acc st H; cbn [foldl].
  { split_and!; [done|done|by rewrite app_nil_r|by intros ? ?%not_elem_of_nil]. }
  cbn [fst snd]. pose proof (place_id_spec p st H) as Hp. destruct (place_id p st) as [id st1]. destruct Hp as (D1 & [X1 X1'] & G1).
  specialize (IH (acc ++ [(place_name p, id, ms_tokens p m)]) st1 D1). destruct (foldl _ _ ps) as [mk st2]. destruct IH as (D2 & [X2 X2'] & -> & K2).
  split_and!; [done|split; [congruence|auto]| |].
  - rewrite fmap_cons, <- app_assoc. cbn [app]. by rewrite (X2' p id G1).
  - intros q [->|Hq]%elem_of_cons; [by exists id; apply X2'|by apply K2].
Qed.

Lemma key_of_extend ids ids' m : (∀ p i, map_get p ids = Some i → map_get p ids' = Some i) → known ids m → key_of ids' m = key_of ids m ∧ known ids' m.
Proof.
  intros H K. unfold key_of, known in *. split.
  - apply list_fmap_ext. intros i p Hp. apply list_elem_of_lookup_2 in Hp. destruct (K p Hp) as [id E]. by rewrite E, (H p id E).
  - intros p Hp. destruct (K p Hp) as [id E]. exists id. by apply H.
Qed.

Lemma ids_inj (ids : list (place * nat)) p q i : NoDup ids.*2 → map_get p ids = Some i → map_get q ids = Some i → p = q.
Proof.
  intros Hd Ep%map_get_elem Eq%map_get_elem. apply list_elem_of_lookup in Ep as [k Ek], Eq as [l El].
  assert (k = l) as -> by (eapply (NoDup_lookup ids.*2 k l i Hd); rewrite list_lookup_fmap; [by rewrite Ek|by rewrite El]). congruence.
Qed.

Lemma key_of_inj ids m m' : NoDup ids.*2 → known ids m → known ids m' → listed m → listed m' → key_of ids m = key_of ids m' → m = m'.
Proof.
  intros Hd K K' L L' E. apply listed_inj; [done|done|]. unfold key_of, known in *. revert K K' E. generalize (placesWithTokens m) (placesWithTokens m').
  induction l as [|p l IH]; intros [|q l'] K K' E; try done. rewrite !fmap_cons in *. injection E as E1 E2 E3 E4.
  destruct (K p ltac:(left)) as [i Ei], (K' q ltac:(left)) as [j Ej]. rewrite Ei, Ej in E2. cbn in E2. subst j.
  assert (p = q) as -> by (by eapply ids_inj). rewrite E3. f_equal.
  apply IH; [intros; apply K; by right|intros; apply K'; by right|done].
Qed.

(** ** Histories *)

Section History.
Context {V : Type}.
Variable scale : Z.
(** The transitions a caller's net and a split are built from, and which of them carry [passthrough]. *)
Variable rewritten : nat → list jsstr → list (transition V) * (nat → bool).
Implicit Types (q : cache_query V).

Definition query_ok q : Prop := rewritten (q_keyNet q) (q_split q) = (q_buildNet q, q_isPassthrough q) ∧ listed (q_initial q).

(** What a verifier does to one cache: queries, whatever they answer, and clears. *)
Inductive cache_history : cache_state → Prop :=
| history_new : cache_history newState
| history_clear st : cache_history st → cache_history (cache_clear st)
| history_query st q : cache_history st → query_ok q → cache_history (resolveStateSpace scale st q).2.

(** An entry of the cache is a build. *)
Definition entry_build (net : nat) (split : list jsstr) (stubborn : bool) (m : marking_state) (budget : Z) : result scg_error (option scg) :=
  query_build scale (CacheQuery net split (rewritten net split).1 (rewritten net split).2 m budget None stubborn) budget None.
Definition entry_ok (net : nat) (split : list jsstr) (stubborn : bool) (m : marking_state) (e : cache_entry) : Prop :=
  match e with
  | EntryClosed g => isComplete g = true ∧ ∃ budget, entry_build net split stubborn m budget = Ok (Some g)
  | EntryTruncated budget g => isComplete g = false ∧ entry_build net split stubborn m budget = Ok (Some g)
  end.
Definition cache_ok (st : cache_state) : Prop := ids_distinct st ∧
  ∀ net l stubborn split mk e, map_get net (cs_entries st) = Some l → map_get (stubborn, split, mk) l = Some e →
    ∃ m, listed m ∧ known (cs_placeIds st) m ∧ mk = key_of (cs_placeIds st) m ∧ entry_ok net split stubborn m e.

Lemma newState_ok : cache_ok newState.
Proof. split; [|done]. split_and!; [apply NoDup_nil_2|apply NoDup_nil_2|by intros i ?%not_elem_of_nil]. Qed.

Lemma query_entry q b : query_ok q → query_build scale q b None = entry_build (q_keyNet q) (q_split q) (q_stubborn q) (q_initial q) b.
Proof. intros [E _]. unfold entry_build, query_build. by rewrite E. Qed.

(** The state after the key is made: the same entries under more ids. *)
Lemma keyed_ok st q : cache_ok st → let byMarking := default [] (map_get (q_keyNet q) (cs_entries st)) in
  let '(mk, st') := markingKey (CacheState (map_set (q_keyNet q) byMarking (cs_entries st)) (cs_placeIds st) (cs_nextPlaceId st)) (q_initial q) in
  cache_ok st' ∧ default [] (map_get (q_keyNet q) (cs_entries st')) = byMarking ∧ mk = key_of (cs_placeIds st') (q_initial q) ∧ known (cs_placeIds st') (q_initial q).
Proof.
  intros [Hd He] byMarking. set (st0 := CacheState _ _ _). assert (ids_distinct st0) as Hd0 by exact Hd.
  pose proof (markingKey_spec st0 (q_initial q) Hd0) as H. destruct (markingKey st0 (q_initial q)) as [mk st']. destruct H as (D & [X X'] & -> & K).
  assert (∀ net, default [] (map_get net (cs_entries st')) = default [] (map_get net (cs_entries st))) as Hsame.
  { intros net. rewrite X. unfold st0. cbn [cs_entries]. rewrite map_get_set. case_decide as E; [by rewrite E|done]. }
  split_and!; [|by rewrite Hsame|done|done]. split; [done|]. intros net l stubborn split mk e El Ek.
  pose proof (Hsame net) as Hl. rewrite El in Hl. cbn in Hl. destruct (map_get net (cs_entries st)) as [l0|] eqn:E0; cbn in Hl; [|by subst].
  subst l0. destruct (He net l stubborn split mk e E0 Ek) as (m & L & Km & -> & Hok). exists m.
  destruct (key_of_extend (cs_placeIds st) (cs_placeIds st') m X' Km) as [E1 K1]. by rewrite E1.
Qed.

(** One query: what it answers, and the cache it leaves. *)
Definition answer_ok q (a : result scg_error (option state_space_lookup)) : Prop :=
  match a with
  | Ok (Some (LookupBuilt g)) => query_build scale q (q_budget q) (q_deadline q) = Ok (Some g)
  | Ok (Some (LookupReused g)) => query_build scale q (q_budget q) None = Ok (Some g) ∧ isComplete g = true
  | Ok (Some (LookupDeclined g)) => ∃ g', query_build scale q (q_budget q) None = Ok (Some g') ∧ isComplete g' = false ∧ g_classes g' `prefix_of` g_classes g
  | Ok None => False
  | Err e => query_build scale q (q_budget q) (q_deadline q) = Err e
  end.

Lemma query_spec st q : cache_ok st → query_ok q → answer_ok q (resolveStateSpace scale st q).1 ∧ cache_ok (resolveStateSpace scale st q).2.
Proof.
  intros Hst Hq. pose proof (keyed_ok st q Hst) as Hk. cbn zeta in Hk. unfold resolveStateSpace. cbn zeta.
  destruct (markingKey _ (q_initial q)) as [mk st']. destruct Hk as (Hok & Eby & Emk & Kq). set (byMarking := default [] (map_get (q_keyNet q) (cs_entries st))) in *.
  set (build := match query_build scale q (q_budget q) (q_deadline q) with Ok (Some graph) => _ | Ok None => _ | Err e => _ end).
  assert (answer_ok q build.1 ∧ cache_ok build.2) as Hbuild.
  { unfold build. destruct (query_build scale q (q_budget q) (q_deadline q)) as [[g|]|e] eqn:Eb; [|by apply query_never_none in Eb|by split].
    split; [exact Eb|]. destruct Hok as [Hd He]. split; [exact Hd|]. cbn [snd cs_entries cs_placeIds]. intros net l stubborn split mk' e. rewrite map_get_set.
    case_decide as En; [|apply He]. intros [= <-]. rewrite map_get_set. case_decide as Ek.
    - intros [= <-]. injection Ek as -> -> ->. exists (q_initial q). split_and!; [apply Hq|done|done|]. subst net. apply query_deadline in Eb.
      rewrite (query_entry q) in Eb by done. destruct (isComplete g) eqn:Ec; split; [done|by exists (q_budget q)|done|done].
    - intros Ee. subst net. destruct (map_get (q_keyNet q) (cs_entries st')) as [l|] eqn:El; cbn in Eby; [|by rewrite <- Eby in Ee]. subst l. by apply (He _ byMarking). }
  destruct (map_get (q_stubborn q, q_split q, mk) byMarking) as [e|] eqn:Ee; [|exact Hbuild].
  assert (entry_ok (q_keyNet q) (q_split q) (q_stubborn q) (q_initial q) e) as Hentry.
  { destruct (map_get (q_keyNet q) (cs_entries st')) as [l|] eqn:El; cbn in Eby; [|by rewrite <- Eby in Ee]. subst l.
    destruct (proj2 Hok _ byMarking _ _ _ _ El Ee) as (m & L & Km & E & Hm). rewrite Emk in E.
    by rewrite (key_of_inj (cs_placeIds st') (q_initial q) m) by (done || apply Hok || apply Hq). }
  destruct e as [g|budget g].
  - destruct Hentry as [Hc [budget Hb]]. rewrite <- (query_entry q) in Hb by done. split; [|exact Hok].
    destruct (query_two scale q budget (q_budget q) g Hb) as (g2 & E2 & P & C1 & C2); [by right|].
    destruct (Z.ltb_spec (Z.of_nat (g_size g)) (q_budget q)) as [Hlt|Hge]; cbn [answer_ok].
    + rewrite (C2 Hc Hlt) in E2. by split.
    + exists g2. split_and!; [done| |done]. destruct (isComplete g2) eqn:E; [|done]. destruct (C1 E) as [_ H]. lia.
  - destruct Hentry as [Hc Hb]. rewrite <- (query_entry q) in Hb by done.
    destruct (Z.leb_spec (q_budget q) budget) as [Hle|Hgt]; [|exact Hbuild]. split; [|exact Hok].
    destruct (query_two scale q budget (q_budget q) g Hb) as (g2 & E2 & P & C1 & _); [by left|]. exists g2. split_and!; [done| |done].
    destruct (isComplete g2) eqn:E; [|done]. destruct (C1 E) as [-> _]. congruence.
Qed.

Lemma history_ok st : cache_history st → cache_ok st.
Proof.
  induction 1 as [|st _ _|st q _ IH Hq]; [apply newState_ok|apply newState_ok|]. by apply query_spec.
Qed.
End History.

(** ** Properties *)

(** C28: a shared cache never changes an answer. After any history of queries and clears, as long
    as each query builds from the net its caller's net and split stand for, a query answers what a
    build at its own budget would: a graph it built, a reused graph that is exactly the complete
    graph that budget gives, or a declined one, when that budget truncates and the cached graph
    extends the truncated one; an error is the build's own, and the construction never runs out. *)
Theorem cache_transparent {V} scale (rewritten : nat → list jsstr → list (transition V) * (nat → bool)) st (q : cache_query V) :
  cache_history scale rewritten st → query_ok rewritten q → answer_ok scale q (resolveStateSpace scale st q).1.
Proof. intros Hst Hq. by eapply query_spec; [eapply history_ok|]. Qed.

Definition cache_nets (net : nat) (split : list jsstr) : list (transition unit) * (nat → bool) := (example_net, λ _, false).
Definition cache_at (budget : Z) : cache_query unit := CacheQuery 0 [] example_net (λ _, false) example_initial budget None false.
Definition cache_first : cache_state := (resolveStateSpace 1 newState (cache_at 10)).2.

Lemma cache_at_ok b : query_ok cache_nets (cache_at b).
Proof. split; [reflexivity|]. split; [apply example_initial_good|reflexivity]. Qed.

(** The second query at budget 2 is declined: the graph has more classes. *)
Lemma cache_transparent_witness : ∃ g g', (resolveStateSpace 1 cache_first (cache_at 2)).1 = Ok (Some (LookupDeclined g)) ∧
  query_build 1 (cache_at 2) 2 None = Ok (Some g') ∧ isComplete g' = false ∧ g_classes g' `prefix_of` g_classes g.
Proof.
  assert (cache_history 1 cache_nets cache_first) as Hst by (apply (history_query 1 cache_nets newState (cache_at 10)); [apply history_new|apply cache_at_ok]).
  pose proof (cache_transparent 1 cache_nets cache_first (cache_at 2) Hst (cache_at_ok 2)) as H.
  assert (∃ g, (resolveStateSpace 1 cache_first (cache_at 2)).1 = Ok (Some (LookupDeclined g))) as [g E] by (vm_compute; eexists; reflexivity).
  rewrite E in H. destruct H as (g' & H1 & H2 & H3). exists g, g'. split; [exact E|]. split; [exact H1|]. split; [exact H2|exact H3].
Defined.
