(* ===== verification/SccAnalyzer.v ===== *)
(** * Strongly connected components

    [src/typescript/src/verification/analysis/scc-analyzer.ts]: Tarjan's algorithm and the terminal
    components, with their correctness. The stack is listed from its top; the recursion has fuel,
    and [None] is a call that runs out of it, or pops an empty stack. *)
From S2P Require Import Prelude.
From stdpp Require Import relations.

Section Scc.
Context {T : Type} `{EqDecision T}.
Implicit Types (v w : T) (ws : list T).

Record tarjan := Tarjan {
  indexMap : list (T * nat);
  lowlink : list (T * nat);
  onStack : list T;
  tj_stack : list T;
  tj_sccs : list (list T);
  tj_index : nat
}.
Implicit Types (s : tarjan).

Definition visited s v : bool := bool_decide (is_Some (map_get v (indexMap s))).
Definition index_of_node s v : nat := default 0 (map_get v (indexMap s)).
Definition lowlink_of s v : nat := default 0 (map_get v (lowlink s)).

(** [v] gets the next index and goes on the stack. *)
Definition enter v s : tarjan :=
  Tarjan (map_set v (tj_index s) (indexMap s)) (map_set v (tj_index s) (lowlink s)) (set_add v (onStack s)) (v :: tj_stack s) (tj_sccs s) (S (tj_index s)).
Definition lower v n s : tarjan :=
  Tarjan (indexMap s) (map_set v (lowlink_of s v `min` n) (lowlink s)) (onStack s) (tj_stack s) (tj_sccs s) (tj_index s).

(** The pops down to [v]. *)
Fixpoint pop_until v (stack on scc : list T) : option (list T * list T * list T) :=
  match stack with
  | [] => None
  | w :: stack =>
      let on := filter (λ x, x ≠ w) on in
      let scc := set_add w scc in
      if decide (w = v) then Some (stack, on, scc) else pop_until v stack on scc
  end.
Definition leave v s : option tarjan :=
  if decide (lowlink_of s v = index_of_node s v) then
    match pop_until v (tj_stack s) (onStack s) [] with
    | None => None
    | Some (stack, on, scc) => Some (Tarjan (indexMap s) (lowlink s) on stack (tj_sccs s ++ [scc]) (tj_index s))
    end
  else Some s.

Section Successors.
Variable successors : T → list T.

Section Visit.
Variable strongConnect : T → tarjan → option tarjan.
(** The loop over the successors of [v]. *)
Fixpoint visit_successors v ws s : option tarjan :=
  match ws with
  | [] => Some s
  | w :: ws =>
      if negb (visited s w) then
        match strongConnect w s with
        | None => None
        | Some s => visit_successors v ws (lower v (lowlink_of s w) s)
        end
      else if bool_decide (w ∈ onStack s) then visit_successors v ws (lower v (index_of_node s w) s)
      else visit_successors v ws s
  end.
End Visit.

Fixpoint strongConnect (fuel : nat) v s : option tarjan :=
  match fuel with
  | O => None
  | S fuel =>
      match visit_successors (strongConnect fuel) v (successors v) (enter v s) with
      | None => None
      | Some s => leave v s
      end
  end.

Fixpoint connect_all (fuel : nat) (nodes : list T) s : option tarjan :=
  match nodes with
  | [] => Some s
  | v :: nodes => if negb (visited s v) then match strongConnect fuel v s with None => None | Some s => connect_all fuel nodes s end
                  else connect_all fuel nodes s
  end.

Definition tarjan_start : tarjan := Tarjan [] [] [] [] [] 0.
Definition computeSCCs (nodes : list T) : option (list (list T)) := tj_sccs <$> connect_all (S (length nodes)) nodes tarjan_start.

(** No successor of a node of [scc] is outside it. *)
Definition is_terminal_scc (scc : list T) : bool := forallb (λ v, forallb (λ w, bool_decide (w ∈ scc)) (successors v)) scc.
Definition findTerminalSCCs (nodes : list T) : option (list (list T)) := filter (λ scc, is_terminal_scc scc = true) <$> computeSCCs nodes.

(** ** Reachability *)

Definition hop v w : Prop := w ∈ successors v.
Abbreviation reaches := (rtc hop).
Definition connected v w : Prop := reaches v w ∧ reaches w v.

(** [c] is the component of one of its nodes. *)
Definition component (c : list T) : Prop := ∃ v, v ∈ c ∧ ∀ w, w ∈ c ↔ connected v w.

(** A path that leaves a set leaves it by an edge. *)
Lemma path_leaves (P : T → Prop) `{∀ x, Decision (P x)} x y : reaches x y → P x → P y ∨ ∃ z z', reaches x z ∧ P z ∧ hop z z' ∧ ¬ P z' ∧ reaches z' y.
Proof.
  induction 1 as [x|x x' y E H1 IH]; intros Hx; [by left|]. destruct (decide (P x')) as [Hx'|Hn].
  - destruct (IH Hx') as [?|(z & z' & ? & ? & ? & ? & ?)]; [by left|]. right. exists z, z'. split_and!; try done. by eapply rtc_l.
  - right. exists x, x'. split_and!; try done.
Qed.

(** ** The invariant *)

Variable nodes : list T.
(** The states between the calls, [gray] the nodes whose calls are open. *)
Record tarjan_ok (gray : list T) s : Prop := {
  tk_nodup : NoDup (tj_stack s);
  tk_on : ∀ v, v ∈ onStack s ↔ v ∈ tj_stack s;
  tk_below : ∀ v i, map_get v (indexMap s) = Some i → (i < tj_index s)%nat;
  tk_stacked : ∀ v, v ∈ tj_stack s → is_Some (map_get v (indexMap s));
  tk_sorted : StronglySorted (λ v w, (index_of_node s w < index_of_node s v)%nat) (tj_stack s);
  tk_sccs : ∀ c, c ∈ tj_sccs s → component c;
  tk_done : ∀ v, (∃ c, c ∈ tj_sccs s ∧ v ∈ c) ↔ is_Some (map_get v (indexMap s)) ∧ v ∉ tj_stack s;
  tk_closed : ∀ v w, is_Some (map_get v (indexMap s)) → v ∉ tj_stack s → hop v w → is_Some (map_get w (indexMap s)) ∧ w ∉ tj_stack s;
  tk_gray : ∀ v, v ∈ gray → v ∈ tj_stack s;
  tk_older : ∀ v w, v ∈ gray → w ∈ tj_stack s → (index_of_node s v <= index_of_node s w)%nat → reaches v w;
  tk_back : ∀ w, w ∈ tj_stack s → ∃ v, v ∈ gray ∧ (index_of_node s v <= index_of_node s w)%nat ∧ reaches w v;
  tk_finished : ∀ v w, is_Some (map_get v (indexMap s)) → v ∉ gray → hop v w → is_Some (map_get w (indexMap s));
  tk_low : ∀ v, is_Some (map_get v (indexMap s)) → is_Some (map_get v (lowlink s));
  tk_disjoint : ∀ i j c d v, tj_sccs s !! i = Some c → tj_sccs s !! j = Some d → v ∈ c → v ∈ d → i = j;
  tk_nodes : ∀ v, is_Some (map_get v (indexMap s)) → v ∈ nodes
}.

(** [s'] knows what [s] knows. *)
Definition extends s s' : Prop := ∀ v i, map_get v (indexMap s) = Some i → map_get v (indexMap s') = Some i.

Lemma tarjan_extends_trans s1 s2 s3 : extends s1 s2 → extends s2 s3 → extends s1 s3.
Proof. unfold extends. auto. Qed.

Lemma extends_index s s' v : extends s s' → is_Some (map_get v (indexMap s)) → index_of_node s' v = index_of_node s v.
Proof. intros H [i E]. unfold index_of_node. by rewrite E, (H v i E). Qed.

Lemma visited_true s v : visited s v = true ↔ is_Some (map_get v (indexMap s)).
Proof. unfold visited. apply bool_decide_eq_true. Qed.

Lemma pop_until_spec v above below on scc : v ∉ above → NoDup (above ++ v :: below) → (∀ x, x ∈ above ++ [v] → x ∉ scc) →
  ∃ on', pop_until v (above ++ v :: below) on scc = Some (below, on', scc ++ above ++ [v]) ∧ ∀ x, x ∈ on' ↔ x ∈ on ∧ x ∉ above ++ [v].
Proof.
  revert on scc. induction above as [|a above IH]; intros on scc Hv Hd Hs; cbn [app pop_until].
  - rewrite decide_True by done. assert (set_add v scc = scc ++ [v]) as -> by (unfold set_add; rewrite decide_False; [done|apply Hs; left]).
    eexists. split; [reflexivity|]. intros x. rewrite list_elem_of_filter, list_elem_of_singleton. tauto.
  - apply not_elem_of_cons in Hv as [Hva Hv]. rewrite decide_False by congruence. cbn [app] in Hd. apply NoDup_cons in Hd as [Ha Hd].
    assert (set_add a scc = scc ++ [a]) as -> by (unfold set_add; rewrite decide_False; [done|apply Hs; left]).
    destruct (IH (filter (λ x, x ≠ a) on) (scc ++ [a])) as (on' & E & Hon); [done|done| |].
    + intros x Hx. rewrite elem_of_app, list_elem_of_singleton. intros [Hx'| ->]; [by apply (Hs x); [right|]|].
      apply Ha. apply elem_of_app in Hx as [?|?%list_elem_of_singleton]; apply elem_of_app; [by left|]. subst. right. left.
    + exists on'. split; [by rewrite E, <- app_assoc|]. intros x. rewrite Hon, list_elem_of_filter, elem_of_cons. tauto.
Qed.

(** ** One call *)

Lemma SSorted_mono_strong {A} (R R' : A → A → Prop) l : (∀ x y, x ∈ l → y ∈ l → R x y → R' x y) → StronglySorted R l → StronglySorted R' l.
Proof.
  intros H Hs. induction Hs as [|x l Hs IH Hx]; constructor.
  - apply IH. intros. apply H; [by right|by right|done].
  - rewrite Forall_forall in *. intros y Hy. apply H; [left|by right|auto].
Qed.

Lemma index_enter v s x : index_of_node (enter v s) x = if decide (x = v) then tj_index s else index_of_node s x.
Proof. unfold index_of_node, enter. cbn [indexMap]. rewrite map_get_set. by case_decide. Qed.

Lemma visited_enter v s x : is_Some (map_get x (indexMap (enter v s))) ↔ x = v ∨ is_Some (map_get x (indexMap s)).
Proof. unfold enter. cbn [indexMap]. rewrite map_get_set. case_decide; [split; [by left|by eexists]|]. split; [by right|by intros [?|?]]. Qed.

Lemma stack_index gray s v : tarjan_ok gray s → v ∈ tj_stack s → (index_of_node s v < tj_index s)%nat.
Proof. intros H [i E]%(tk_stacked _ _ H). unfold index_of_node. rewrite E. by apply (tk_below _ _ H v). Qed.

Lemma enter_extends v s : ¬ is_Some (map_get v (indexMap s)) → extends s (enter v s).
Proof. intros Hn x i E. unfold enter. cbn [indexMap]. rewrite map_get_set. case_decide; [|done]. subst. destruct Hn. by exists i. Qed.

Lemma enter_ok gray v s : v ∈ nodes → tarjan_ok gray s → ¬ is_Some (map_get v (indexMap s)) → (∀ g, g ∈ gray → reaches g v) → tarjan_ok (v :: gray) (enter v s).
Proof.
  intros Hin H Hn Hg. assert (v ∉ tj_stack s) as Hvs by (intros ?%(tk_stacked _ _ H); done).
  assert (∀ x, x ∈ tj_stack s → index_of_node (enter v s) x = index_of_node s x) as Hidx.
  { intros x Hx. rewrite index_enter, decide_False; [done|]. by intros ->. }
  constructor.
  - cbn. apply NoDup_cons. split; [done|apply H].
  - intros x. cbn. rewrite elem_of_set_add, elem_of_cons, (tk_on _ _ H). done.
  - intros x i. unfold enter. cbn [indexMap tj_index]. rewrite map_get_set. case_decide; [intros [= <-]; lia|]. intros E%(tk_below _ _ H). lia.
  - intros x [->|Hx]%elem_of_cons; apply visited_enter; [by left|right; by apply H].
  - change (tj_stack (enter v s)) with (v :: tj_stack s). constructor.
    + eapply SSorted_mono_strong; [|apply (tk_sorted _ _ H)]. intros x y Hx Hy. cbv beta. by rewrite (Hidx x), (Hidx y) by done.
    + apply Forall_forall. intros x Hx. rewrite Hidx by done. rewrite index_enter, decide_True by done. by eapply stack_index.
  - apply H.
  - intros x. change (tj_stack (enter v s)) with (v :: tj_stack s). change (tj_sccs (enter v s)) with (tj_sccs s). rewrite (tk_done _ _ H). rewrite visited_enter, not_elem_of_cons. split; [|naive_solver]. intros [Hx Hs]. split; [by right|]. split; [by intros ->|done].
  - intros x y Hx Hs Hxy. cbn in Hs. apply not_elem_of_cons in Hs as [Hxv Hs]. apply visited_enter in Hx as [?|Hx]; [done|].
    destruct (tk_closed _ _ H x y Hx Hs Hxy) as [H1 H2]. split; [apply visited_enter; by right|]. cbn. apply not_elem_of_cons. split; [by intros ->|done].
  - intros x [->|Hx]%elem_of_cons; cbn; [left|right; by apply (tk_gray _ _ H)].
  - intros x y Hx Hy Hle. cbn in Hy. apply elem_of_cons in Hy as [->|Hy].
    + apply elem_of_cons in Hx as [->|Hx]; [apply rtc_refl|by apply Hg].
    + apply elem_of_cons in Hx as [->|Hx].
      * rewrite index_enter, decide_True, Hidx in Hle by done. pose proof (stack_index _ _ y H Hy). lia.
      * rewrite !Hidx in Hle by (done || by apply (tk_gray _ _ H)). by apply (tk_older _ _ H).
  - intros x Hx. cbn in Hx. apply elem_of_cons in Hx as [->|Hx]; [exists v; split_and!; [left|done|apply rtc_refl]|].
    destruct (tk_back _ _ H x Hx) as (g & G1 & G2 & G3). exists g. split_and!; [by right| |done]. rewrite !Hidx; [done|done|by apply (tk_gray _ _ H)].
  - intros x y Hx Hs Hxy. apply not_elem_of_cons in Hs as [Hxv Hs]. apply visited_enter in Hx as [?|Hx]; [done|]. apply visited_enter. right. by apply (tk_finished _ _ H x).
  - intros x [->|Hx]%visited_enter; unfold enter; cbn [lowlink]; rewrite map_get_set; case_decide; try done; by apply (tk_low _ _ H).
  - apply H.
  - intros x [->|Hx]%visited_enter; [done|by apply (tk_nodes _ _ H)].
Qed.

Lemma tarjan_lower_ok gray v n s : tarjan_ok gray s → tarjan_ok gray (lower v n s).
Proof.
  intros H. constructor; try apply H. intros x Hx. unfold lower. cbn [lowlink]. rewrite map_get_set. case_decide; [done|]. by apply H.
Qed.

Lemma lowlink_lower v n s x : lowlink_of (lower v n s) x = if decide (x = v) then lowlink_of s v `min` n else lowlink_of s x.
Proof. unfold lowlink_of at 1, lower. cbn [lowlink]. rewrite map_get_set. by case_decide. Qed.

(** The state after a call on [v], from [s]: [above] is what it left on the stack. *)
Record call_post gray v s s' : Prop := {
  cl_ok : tarjan_ok gray s';
  cl_extends : extends s s';
  cl_visited : is_Some (map_get v (indexMap s'));
  cl_low : ∀ u, is_Some (map_get u (indexMap s)) → lowlink_of s' u = lowlink_of s u;
  cl_stack : ∃ above, tj_stack s' = above ++ tj_stack s ∧
    (∀ x y, x ∈ above → y ∈ tj_stack s → hop x y → (lowlink_of s' v <= index_of_node s y)%nat) ∧
    ((v ∈ above ∧ ∃ y, y ∈ tj_stack s ∧ reaches v y ∧ index_of_node s y = lowlink_of s' v) ∨
     (above = [] ∧ v ∉ tj_stack s' ∧ (tj_index s <= lowlink_of s' v)%nat))
}.

(** The state in the loop over the successors of [v], those of [seen] visited. *)
Record loop_inv gray v (seen : list T) s s' : Prop := {
  lp_ok : tarjan_ok (v :: gray) s';
  lp_extends : extends (enter v s) s';
  lp_low : ∀ u, is_Some (map_get u (indexMap s)) → lowlink_of s' u = lowlink_of s u;
  lp_seen : ∀ w, w ∈ seen → is_Some (map_get w (indexMap s')) ∧ (w ∈ tj_stack s → (lowlink_of s' v <= index_of_node s w)%nat);
  lp_bound : (lowlink_of s' v <= tj_index s)%nat;
  lp_attained : ∃ y, y ∈ tj_stack s' ∧ reaches v y ∧ index_of_node s' y = lowlink_of s' v;
  lp_stack : ∃ above, tj_stack s' = above ++ v :: tj_stack s ∧
    ∀ x y, x ∈ above → y ∈ tj_stack s → hop x y → (lowlink_of s' v <= index_of_node s y)%nat
}.

Section Call.
Variables (gray : list T) (v : T) (s : tarjan).
Hypothesis Hnode : v ∈ nodes.
Hypothesis Hok : tarjan_ok gray s.
Hypothesis Hnew : ¬ is_Some (map_get v (indexMap s)).
Hypothesis Hgray : ∀ g, g ∈ gray → reaches g v.

Lemma loop_start : loop_inv gray v [] s (enter v s).
Proof.
  constructor.
  - by apply enter_ok.
  - by intros x i E.
  - intros u Hu. unfold lowlink_of, enter. cbn [lowlink]. rewrite map_get_set, decide_False; [done|]. by intros ->.
  - by intros w ?%not_elem_of_nil.
  - unfold lowlink_of, enter. cbn [lowlink]. by rewrite map_get_set, decide_True.
  - exists v. split_and!; [left|apply rtc_refl|]. rewrite index_enter, decide_True by done. unfold lowlink_of, enter. cbn [lowlink]. by rewrite map_get_set, decide_True.
  - exists []. split; [done|]. by intros x y ?%not_elem_of_nil.
Qed.

Lemma loop_index seen s' x : loop_inv gray v seen s s' → x ∈ tj_stack s → index_of_node s' x = index_of_node s x.
Proof.
  intros H Hx. pose proof (tk_stacked _ _ Hok x Hx) as Hv. apply extends_index; [|done]. eapply tarjan_extends_trans; [by apply enter_extends|apply H].
Qed.

Lemma loop_index_v seen s' : loop_inv gray v seen s s' → index_of_node s' v = tj_index s.
Proof.
  intros H. rewrite (extends_index (enter v s) s' v); [|apply H|apply visited_enter; by left]. by rewrite index_enter, decide_True.
Qed.

Lemma loop_lower seen s' w n : loop_inv gray v seen s s' → is_Some (map_get w (indexMap s')) →
  (w ∈ tj_stack s → (n <= index_of_node s w)%nat) → (∃ y, y ∈ tj_stack s' ∧ reaches v y ∧ index_of_node s' y = n) →
  loop_inv gray v (seen ++ [w]) s (lower v n s').
Proof.
  intros H Hw Hn (y & Y1 & Y2 & Y3). constructor.
  - apply tarjan_lower_ok, H.
  - apply H.
  - intros u Hu. rewrite lowlink_lower, decide_False; [by apply H|]. by intros ->.
  - intros x [Hx|Hx]%elem_of_app; rewrite lowlink_lower, decide_True by done.
    + destruct (lp_seen _ _ _ _ _ H x Hx) as [H1 H2]. split; [done|]. intros Hs. specialize (H2 Hs). lia.
    + apply list_elem_of_singleton in Hx as ->. split; [done|]. intros Hs. specialize (Hn Hs). lia.
  - rewrite lowlink_lower, decide_True by done. pose proof (lp_bound _ _ _ _ _ H). lia.
  - rewrite lowlink_lower, decide_True by done. destruct (lp_attained _ _ _ _ _ H) as (z & Z1 & Z2 & Z3).
    destruct (Nat.min_dec (lowlink_of s' v) n) as [->| ->]; [by exists z|by exists y].
  - destruct (lp_stack _ _ _ _ _ H) as (above & E & Ha). exists above. split; [done|]. intros x z Hx Hz Hxz. rewrite lowlink_lower, decide_True by done.
    specialize (Ha x z Hx Hz Hxz). lia.
Qed.

(** A successor already done. *)
Lemma loop_skip seen s' w : loop_inv gray v seen s s' → is_Some (map_get w (indexMap s')) → w ∉ tj_stack s' → loop_inv gray v (seen ++ [w]) s s'.
Proof.
  intros H Hw Hns. constructor; try apply H. intros x [Hx|Hx]%elem_of_app; [by apply H|]. apply list_elem_of_singleton in Hx as ->. split; [done|].
  intros Hs. destruct Hns. destruct (lp_stack _ _ _ _ _ H) as (above & -> & _). apply elem_of_app. right. by right.
Qed.

(** A successor just visited. *)
Lemma loop_call seen s1 s2 w : loop_inv gray v seen s s1 → hop v w → ¬ is_Some (map_get w (indexMap s1)) → call_post (v :: gray) w s1 s2 → loop_inv gray v (seen ++ [w]) s (lower v (lowlink_of s2 w) s2).
Proof.
  intros H Hvw Hw C. destruct (cl_stack _ _ _ _ C) as (ab2 & E2 & Hab2 & Hcase). destruct (lp_stack _ _ _ _ _ H) as (ab1 & E1 & Hab1).
  pose proof (cl_extends _ _ _ _ C) as Hext. assert (is_Some (map_get v (indexMap s1))) as Hv1.
  { apply (tk_stacked _ _ (lp_ok _ _ _ _ _ H)). rewrite E1. apply elem_of_app. right. left. }
  assert (lowlink_of s2 v = lowlink_of s1 v) as El by (by apply C).
  assert (∀ x, x ∈ tj_stack s1 → index_of_node s2 x = index_of_node s1 x) as Hidx.
  { intros x Hx. apply extends_index; [done|]. by apply (tk_stacked _ _ (lp_ok _ _ _ _ _ H)). }
  assert (∀ x, x ∈ tj_stack s → x ∈ tj_stack s1) as Hsub by (intros x Hx; rewrite E1; apply elem_of_app; right; by right).
  assert (index_of_node s1 v = tj_index s) as Ev by (by eapply loop_index_v).
  assert (v ∈ tj_stack s1) as Hvs by (rewrite E1; apply elem_of_app; right; left).
  pose proof (stack_index _ _ v (lp_ok _ _ _ _ _ H) Hvs) as Hlt.
  constructor.
  - apply tarjan_lower_ok, C.
  - eapply tarjan_extends_trans; [apply H|exact Hext].
  - intros u Hu. rewrite lowlink_lower, decide_False by (by intros ->). rewrite (cl_low _ _ _ _ C), (lp_low _ _ _ _ _ H u Hu); [done|].
    destruct Hu as [i E]. exists i. apply (lp_extends _ _ _ _ _ H), enter_extends; done.
  - intros x Hx. rewrite lowlink_lower, decide_True by done. apply elem_of_app in Hx as [Hx|Hx].
    + destruct (lp_seen _ _ _ _ _ H x Hx) as [[i E] H2]. split; [exists i; by apply Hext|]. intros Hs. specialize (H2 Hs). lia.
    + apply list_elem_of_singleton in Hx as ->. split; [exact (cl_visited _ _ _ _ C)|]. intros Hs. destruct Hw. by apply (tk_stacked _ _ (lp_ok _ _ _ _ _ H)), Hsub.
  - rewrite lowlink_lower, decide_True by done. pose proof (lp_bound _ _ _ _ _ H). lia.
  - rewrite lowlink_lower, decide_True by done. change (∃ y, y ∈ tj_stack s2 ∧ reaches v y ∧ index_of_node s2 y = (lowlink_of s2 v `min` lowlink_of s2 w)%nat).
    destruct (lp_attained _ _ _ _ _ H) as (z & Z1 & Z2 & Z3). rewrite El.
    assert (∃ y, y ∈ tj_stack s2 ∧ reaches v y ∧ index_of_node s2 y = lowlink_of s1 v) as Hold.
    { exists z. split_and!; [rewrite E2; apply elem_of_app; by right|done|by rewrite Hidx]. }
    destruct Hcase as [(_ & y & Y1 & Y2 & Y3)|(_ & _ & Hbig)].
    + destruct (Nat.min_dec (lowlink_of s1 v) (lowlink_of s2 w)) as [->| ->]; [done|]. exists y. split_and!; [rewrite E2; apply elem_of_app; by right|by eapply rtc_l|by rewrite Hidx].
    + pose proof (lp_bound _ _ _ _ _ H). by rewrite Nat.min_l by lia.
  - exists (ab2 ++ ab1). split; [cbn; by rewrite E2, E1, <- app_assoc|]. intros x y [Hx|Hx]%elem_of_app Hy Hxy; rewrite lowlink_lower, decide_True by done; rewrite El.
    + specialize (Hab2 x y Hx (Hsub y Hy) Hxy). rewrite (loop_index seen s1 y H Hy) in Hab2. lia.
    + specialize (Hab1 x y Hx Hy Hxy). lia.
Qed.

(** The loop's end: every successor is visited, and the low link is below those on the stack. *)
Section Leave.
Variable s' : tarjan.
Hypothesis Hloop : loop_inv gray v (successors v) s s'.
Local Abbreviation low := (lowlink_of s' v).

Lemma leave_above : ∃ above, tj_stack s' = above ++ v :: tj_stack s ∧ v ∉ above ∧ NoDup (above ++ v :: tj_stack s) ∧
  (∀ x, x ∈ above → (tj_index s < index_of_node s' x)%nat) ∧ (∀ x, x ∈ tj_stack s → (index_of_node s' x < tj_index s)%nat ∧ index_of_node s' x = index_of_node s x) ∧
  (∀ x y, x ∈ above ∨ x = v → y ∈ tj_stack s → hop x y → (low <= index_of_node s y)%nat).
Proof.
  destruct (lp_stack _ _ _ _ _ Hloop) as (above & E & Ha). exists above. pose proof (tk_nodup _ _ (lp_ok _ _ _ _ _ Hloop)) as Hd. rewrite E in Hd.
  pose proof (tk_sorted _ _ (lp_ok _ _ _ _ _ Hloop)) as Hs. rewrite E in Hs. pose proof (loop_index_v _ _ Hloop) as Ev.
  split_and!; [done| |done| | |].
  - apply NoDup_app in Hd as (_ & Hd & _). intros Hv. apply (Hd v Hv). left.
  - intros x Hx. rewrite <- Ev. apply (StronglySorted_app_1_elem_of _ _ _ _ _ Hs Hx). left.
  - intros x Hx. split; [|by eapply loop_index]. rewrite (loop_index _ _ _ Hloop Hx). by eapply stack_index.
  - intros x y [Hx| ->] Hy Hxy; [by apply (Ha x)|]. by apply (lp_seen _ _ _ _ _ Hloop y).
Qed.

(** Nothing leaves [above] and [v] below the low link. *)
Lemma leave_exit above x y : tj_stack s' = above ++ v :: tj_stack s → (∀ x y, x ∈ above ∨ x = v → y ∈ tj_stack s → hop x y → (low <= index_of_node s y)%nat) →
  (x ∈ above ∨ x = v) → hop x y → (y ∈ above ∨ y = v) ∨ (is_Some (map_get y (indexMap s')) ∧ y ∉ tj_stack s') ∨ (y ∈ tj_stack s ∧ (low <= index_of_node s y)%nat).
Proof.
  intros E Hlow Hx Hxy. assert (is_Some (map_get y (indexMap s'))) as Hy.
  { destruct (decide (x ∈ v :: gray)) as [Hg|Hg].
    - apply elem_of_cons in Hg as [->|Hg]; [by apply (lp_seen _ _ _ _ _ Hloop)|]. exfalso. pose proof (tk_gray _ _ Hok x Hg) as Hs.
      pose proof (tk_nodup _ _ (lp_ok _ _ _ _ _ Hloop)) as Hd. rewrite E in Hd. apply NoDup_app in Hd as (_ & Hd & Hd'). apply NoDup_cons in Hd' as [Hv _].
      destruct Hx as [Hx| ->]; [apply (Hd x Hx); by right|done].
    - apply (tk_finished _ _ (lp_ok _ _ _ _ _ Hloop) x); [|done|done]. apply (tk_stacked _ _ (lp_ok _ _ _ _ _ Hloop)). rewrite E.
      apply elem_of_app. destruct Hx as [?| ->]; [by left|right; left]. }
  destruct (decide (y ∈ tj_stack s')) as [Hs|Hs]; [|by right; left]. rewrite E in Hs. apply elem_of_app in Hs as [?|[->|Hs]%elem_of_cons]; [by left; left|by left; right|].
  right. right. split; [done|]. by apply (Hlow x).
Qed.

Lemma done_reaches x y : is_Some (map_get x (indexMap s')) → x ∉ tj_stack s' → reaches x y → is_Some (map_get y (indexMap s')) ∧ y ∉ tj_stack s'.
Proof.
  intros H1 H2 H. induction H as [x|x z y Hxz _ IH]; [done|]. destruct (tk_closed _ _ (lp_ok _ _ _ _ _ Hloop) x z H1 H2 Hxz) as [? ?]. by apply IH.
Qed.

(** With a low link below its index, [v] stays on the stack. *)
Lemma leave_stays : low ≠ tj_index s → call_post gray v s s'.
Proof.
  intros Hne. destruct leave_above as (above & E & Hv & Hd & Hnew' & Hold & Hlow). pose proof (lp_bound _ _ _ _ _ Hloop) as Hb.
  pose proof (loop_index_v _ _ Hloop) as Ev. pose proof (lp_ok _ _ _ _ _ Hloop) as Hok'.
  destruct (lp_attained _ _ _ _ _ Hloop) as (y & Y1 & Y2 & Y3). assert (y ∈ tj_stack s) as Ys.
  { rewrite E in Y1. apply elem_of_app in Y1 as [Hy|[->|Hy]%elem_of_cons]; [apply Hnew' in Hy; lia|lia|done]. }
  assert (∃ g, g ∈ gray ∧ (index_of_node s' g <= index_of_node s' y)%nat ∧ reaches v g) as (g & G1 & G2 & G3).
  { destruct (tk_back _ _ Hok' y Y1) as (g & G1 & G2 & G3). exists g. apply elem_of_cons in G1 as [->|G1]; [lia|]. split_and!; [done|done|by etrans]. }
  constructor.
  - constructor; try apply Hok'.
    + intros x Hx. rewrite E. apply elem_of_app. right. right. by apply (tk_gray _ _ Hok).
    + intros x z Hx. apply (tk_older _ _ Hok'). by right.
    + intros x Hx. destruct (tk_back _ _ Hok' x Hx) as (h & H1 & H2 & H3). apply elem_of_cons in H1 as [->|H1]; [|by exists h].
      exists g. split_and!; [done|lia|by etrans].
    + intros x z Hx Hg Hxz. destruct (decide (x = v)) as [->|Hxv]; [by apply (lp_seen _ _ _ _ _ Hloop)|]. apply (tk_finished _ _ Hok' x); [done| |done]. by intros [?|?]%elem_of_cons.
  - eapply tarjan_extends_trans; [by apply (enter_extends v)|apply Hloop].
  - apply (tk_stacked _ _ Hok'). rewrite E. apply elem_of_app. right. left.
  - apply Hloop.
  - exists (above ++ [v]). split; [by rewrite E, <- app_assoc|]. split.
    + intros x z Hx Hz Hxz. apply (Hlow x); [|done|done]. apply elem_of_app in Hx as [?|?%list_elem_of_singleton]; tauto.
    + left. split; [apply elem_of_app; right; left|]. exists y. split_and!; [done|done|]. rewrite <- Y3. symmetry. by apply Hold.
Qed.

(** Otherwise [above] and [v] are a component. *)
Lemma leave_component above : tj_stack s' = above ++ v :: tj_stack s → low = tj_index s → ∀ w, w ∈ above ++ [v] ↔ connected v w.
Proof.
  intros E Hl. destruct leave_above as (above' & E' & Hv & Hd & Hnew' & Hold & Hlow). assert (above' = above) as ->.
  { rewrite E in E'. by apply app_inv_tail in E'. }
  clear E'. pose proof (lp_ok _ _ _ _ _ Hloop) as Hok'. pose proof (loop_index_v _ _ Hloop) as Ev.
  assert (∀ x, x ∈ tj_stack s → (index_of_node s x < tj_index s)%nat) as Hsmall by (intros x Hx; by eapply stack_index).
  assert (v ∈ tj_stack s') as Hvs by (rewrite E; apply elem_of_app; right; left).
  assert (∀ x y, (x ∈ above ∨ x = v) → reaches x y → (y ∈ above ∨ y = v) ∨ (is_Some (map_get y (indexMap s')) ∧ y ∉ tj_stack s')) as Hstay.
  { intros x y Hx Hxy. destruct (path_leaves (λ z, z ∈ above ∨ z = v) x y Hxy Hx) as [?|(z & z' & _ & Hz & Hzz & Hn & Hy)]; [by left|].
    destruct (leave_exit above z z' E Hlow Hz Hzz) as [?|[[H1 H2]|[H1 H2]]]; [done| |specialize (Hsmall z' H1); lia].
    right. by eapply done_reaches. }
  intros w. rewrite elem_of_app, list_elem_of_singleton. split.
  - intros Hw. assert (w ∈ tj_stack s') as Hws by (rewrite E; apply elem_of_app; destruct Hw as [?| ->]; [by left|right; left]). split.
    + apply (tk_older _ _ Hok'); [left|done|]. destruct Hw as [Hw| ->]; [|done]. apply Hnew' in Hw. lia.
    + destruct (tk_back _ _ Hok' w Hws) as (g & [->|G1]%elem_of_cons & G2 & G3); [done|]. exfalso. pose proof (tk_gray _ _ Hok g G1) as Hgs.
      destruct (Hstay w g Hw G3) as [[Hg| ->]|[_ Hg]].
      * apply NoDup_app in Hd as (_ & Hd & _). apply (Hd g Hg). by right.
      * apply Hsmall in Hgs as ?. apply (tk_stacked _ _ Hok) in Hgs. done.
      * apply Hg. rewrite E. apply elem_of_app. right. by right.
  - intros [H1 H2]. destruct (Hstay v w) as [?|[H3 H4]]; [by right|done|done|]. destruct (done_reaches w v H3 H4 H2) as [_ ?]. done.
Qed.

Lemma leave_pops : low = tj_index s → ∃ s'', leave v s' = Some s'' ∧ call_post gray v s s''.
Proof.
  intros Hl. destruct leave_above as (above & E & Hv & Hd & Hnew' & Hold & Hlow). pose proof (lp_ok _ _ _ _ _ Hloop) as Hok'.
  pose proof (loop_index_v _ _ Hloop) as Ev. unfold leave. rewrite decide_True by (by rewrite Ev).
  destruct (pop_until_spec v above (tj_stack s) (onStack s') []) as (on' & Ep & Hon); [done|done|by intros x _ ?%not_elem_of_nil|].
  rewrite <- E in Ep. rewrite Ep. cbn [app]. eexists. split; [reflexivity|]. pose proof (leave_component above E Hl) as Hcomp.
  assert (∀ x, x ∈ tj_stack s' ↔ x ∈ above ++ [v] ∨ x ∈ tj_stack s) as Hsplit.
  { intros x. rewrite E, !elem_of_app, elem_of_cons, list_elem_of_singleton. tauto. }
  assert (∀ x, x ∈ above ++ [v] → x ∉ tj_stack s) as Hdis.
  { rewrite cons_middle, app_assoc in Hd. apply NoDup_app in Hd as (_ & Hd & _). done. }
  assert (∀ x, x ∈ tj_stack s → is_Some (map_get x (indexMap s'))) as Hvis by (intros x Hx; apply (tk_stacked _ _ Hok'), Hsplit; by right).
  constructor.
  - constructor; cbn [tj_stack onStack indexMap tj_index tj_sccs lowlink]; try apply Hok'.
    + apply Hok.
    + intros x. rewrite Hon, (tk_on _ _ Hok'), Hsplit. specialize (Hdis x). tauto.
    + done.
    + eapply SSorted_mono_strong; [|apply (tk_sorted _ _ Hok)]. intros x y Hx Hy. cbv beta. unfold index_of_node at 3 4. cbn [indexMap].
      fold (index_of_node s' x) (index_of_node s' y). by rewrite (proj2 (Hold x Hx)), (proj2 (Hold y Hy)).
    + intros c [Hc|Hc]%elem_of_app; [by apply Hok'|]. apply list_elem_of_singleton in Hc as ->. exists v. split; [apply elem_of_app; right; left|done].
    + intros x. setoid_rewrite elem_of_app. setoid_rewrite list_elem_of_singleton. pose proof (tk_done _ _ Hok' x) as Hdone. split.
      * intros (c & [Hc| ->] & Hx).
        -- destruct (proj1 Hdone (ex_intro _ c (conj Hc Hx))) as [H1 H2]. split; [done|]. intros Hs. apply H2, Hsplit. by right.
        -- split; [|by apply Hdis]. apply (tk_stacked _ _ Hok'), Hsplit. by left.
      * intros [Hx Hs]. destruct (decide (x ∈ above ++ [v])) as [Hin|Hn]; [by exists (above ++ [v]); split; [right|]|].
        destruct (proj2 Hdone) as (c & Hc & Hxc); [|by exists c; split; [left|]]. split; [done|]. rewrite Hsplit. tauto.
    + intros x y Hx Hs Hxy. destruct (decide (x ∈ above ++ [v])) as [Hin|Hn].
      * assert (x ∈ above ∨ x = v) as Hin' by (apply elem_of_app in Hin as [?|?%list_elem_of_singleton]; tauto).
        destruct (leave_exit above x y E Hlow Hin' Hxy) as [Hy|[[H1 H2]|[H1 H2]]].
        -- assert (y ∈ above ++ [v]) as Hya by (apply elem_of_app; destruct Hy as [?| ->]; [by left|right; left]).
           split; [apply (tk_stacked _ _ Hok'), Hsplit; by left|by apply Hdis].
        -- split; [done|]. intros ?. apply H2, Hsplit. by right.
        -- pose proof (stack_index _ _ y Hok H1). lia.
      * destruct (tk_closed _ _ Hok' x y Hx) as [H1 H2]; [rewrite Hsplit; tauto|done|]. split; [done|]. intros ?. apply H2, Hsplit. by right.
    + apply Hok.
    + intros x y Hx Hy Hle. apply (tk_older _ _ Hok'); [by right|apply Hsplit; by right|done].
    + intros x Hx. destruct (tk_back _ _ Hok x Hx) as (g & G1 & G2 & G3). exists g. split_and!; [done| |done].
      unfold index_of_node. cbn [indexMap]. fold (index_of_node s' g) (index_of_node s' x).
      rewrite (proj2 (Hold x Hx)), (proj2 (Hold g (tk_gray _ _ Hok g G1))). done.
    + intros x y Hx Hg Hxy. destruct (decide (x = v)) as [->|Hxv]; [by apply (lp_seen _ _ _ _ _ Hloop)|]. apply (tk_finished _ _ Hok' x); [done| |done]. by intros [?|?]%elem_of_cons.
    + assert (∀ k c x, tj_sccs s' !! k = Some c → x ∈ c → x ∈ above ++ [v] → False) as Hfresh.
      { intros k c x Ek Hx Hin. destruct (proj1 (tk_done _ _ Hok' x)) as [_ Hn]; [exists c; split; [by eapply list_elem_of_lookup_2|done]|]. apply Hn, Hsplit. by left. }
      intros i j c d x Ei Ej Hc Hdx. apply lookup_snoc_Some in Ei as [[Hi Ei]|[-> <-]], Ej as [[Hj Ej]|[-> <-]].
      * by eapply (tk_disjoint _ _ Hok').
      * by destruct (Hfresh i c x Ei Hc Hdx).
      * by destruct (Hfresh j d x Ej Hdx Hc).
      * done.
  - cbn. eapply tarjan_extends_trans; [by apply (enter_extends v)|apply Hloop].
  - cbn [indexMap]. apply (tk_stacked _ _ Hok'), Hsplit. left. apply elem_of_app. right. left.
  - intros u Hu. apply Hloop. done.
  - exists []. cbn [tj_stack]. split; [done|]. split; [by intros x y ?%not_elem_of_nil|]. right. split; [done|]. split; [apply Hdis, elem_of_app; right; left|].
    unfold lowlink_of. cbn [lowlink]. fold (lowlink_of s' v). lia.
Qed.
End Leave.
End Call.

(** ** Fuel *)

Definition unvisited s : nat := length (filter (λ x, visited s x = false) nodes).

Lemma filter_le (P Q : T → Prop) `{∀ x, Decision (P x), ∀ x, Decision (Q x)} (l : list T) : (∀ x, P x → Q x) → (length (filter P l) <= length (filter Q l))%nat.
Proof.
  intros HPQ. induction l as [|x l IH]; [done|]. rewrite !filter_cons. destruct (decide (P x)) as [Hp|]; [rewrite decide_True by auto|case_decide]; cbn [length]; lia.
Qed.
Lemma filter_lt (P Q : T → Prop) `{∀ x, Decision (P x), ∀ x, Decision (Q x)} (l : list T) v : (∀ x, P x → Q x) → v ∈ l → ¬ P v → Q v → (length (filter P l) < length (filter Q l))%nat.
Proof.
  intros HPQ Hv Hp Hq. apply list_elem_of_split in Hv as (l1 & l2 & ->). rewrite !filter_app, !length_app, !filter_cons, decide_False, decide_True by done.
  pose proof (filter_le P Q l1 HPQ). pose proof (filter_le P Q l2 HPQ). cbn [length]. lia.
Qed.

Lemma unvisited_extends s s' : extends s s' → (unvisited s' <= unvisited s)%nat.
Proof.
  intros H. apply filter_le. intros x Hx. apply not_true_iff_false. rewrite visited_true. intros [i E]. apply not_true_iff_false in Hx. apply Hx, visited_true. exists i. by apply H.
Qed.

Lemma unvisited_enter v s : v ∈ nodes → ¬ is_Some (map_get v (indexMap s)) → (unvisited (enter v s) < unvisited s)%nat.
Proof.
  intros Hv Hn. apply filter_lt with v; [|done| |].
  - intros x Hx. apply not_true_iff_false. rewrite visited_true. intros Hs. apply not_true_iff_false in Hx. apply Hx, visited_true, visited_enter. by right.
  - intros Hx. apply not_true_iff_false in Hx. apply Hx, visited_true, visited_enter. by left.
  - apply not_true_iff_false. by rewrite visited_true.
Qed.

Hypothesis Hclosed : ∀ v w, v ∈ nodes → hop v w → w ∈ nodes.

Lemma strongConnect_spec fuel : ∀ gray v s, v ∈ nodes → tarjan_ok gray s → ¬ is_Some (map_get v (indexMap s)) → (∀ g, g ∈ gray → reaches g v) →
  (unvisited s <= fuel)%nat → ∃ s', strongConnect fuel v s = Some s' ∧ call_post gray v s s'.
Proof.
  induction fuel as [|fuel IH]; intros gray v s Hv Hok Hn Hg Hf; [pose proof (unvisited_enter v s Hv Hn); lia|]. cbn [strongConnect].
  pose proof (unvisited_enter v s Hv Hn) as Hlt.
  assert (∀ ws seen s1, successors v = seen ++ ws → loop_inv gray v seen s s1 →
    ∃ s2, visit_successors (strongConnect fuel) v ws s1 = Some s2 ∧ loop_inv gray v (successors v) s s2) as Hloop.
  { induction ws as [|w ws IHw]; intros seen s1 E H; [exists s1; by rewrite E, app_nil_r|]. cbn [visit_successors].
    assert (hop v w) as Hvw by (unfold hop; rewrite E; apply elem_of_app; right; left). rewrite cons_middle, app_assoc in E.
    destruct (visited s1 w) eqn:Ew; cbn [negb].
    - apply visited_true in Ew. case_bool_decide as Hon; apply (IHw (seen ++ [w])); try done.
      + apply (tk_on _ _ (lp_ok _ _ _ _ _ H)) in Hon. apply (loop_lower gray v s Hn); [done|done| |].
        * intros Hs. by rewrite (loop_index gray v s Hok Hn seen s1 w H Hs).
        * exists w. split_and!; [done|by apply rtc_once|done].
      + apply loop_skip; [done|done|]. intros Hs. by apply Hon, (tk_on _ _ (lp_ok _ _ _ _ _ H)).
    - apply not_true_iff_false in Ew. rewrite visited_true in Ew.
      destruct (IH (v :: gray) w s1) as (s2 & E2 & C2); [by eapply Hclosed|apply H|done| | |].
      + intros g [->|Hgg]%elem_of_cons; [by apply rtc_once|]. eapply rtc_r; [by apply Hg|done].
      + pose proof (unvisited_extends _ _ (lp_extends _ _ _ _ _ H)). lia.
      + rewrite E2. apply (IHw (seen ++ [w])); [done|]. by apply (loop_call gray v s Hok Hn seen s1 s2 w). }
  destruct (Hloop (successors v) [] (enter v s) eq_refl) as (s2 & E2 & L2); [by apply loop_start|]. rewrite E2.
  destruct (decide (lowlink_of s2 v = tj_index s)) as [El|El].
  - by apply (leave_pops gray v s Hok Hn).
  - exists s2. split; [|by apply leave_stays]. unfold leave. rewrite decide_False; [done|]. by rewrite (loop_index_v gray v s _ s2 L2).
Qed.

Lemma start_ok : tarjan_ok [] tarjan_start.
Proof.
  constructor; cbn; [apply NoDup_nil_2|done|done|by intros v ?%not_elem_of_nil|constructor|by intros c ?%not_elem_of_nil| |by intros v w []|
    by intros v ?%not_elem_of_nil|by intros v w ?%not_elem_of_nil|by intros v ?%not_elem_of_nil|by intros v w []|by intros v []|done|by intros v []].
  intros v. split; [by intros (c & ?%not_elem_of_nil & _)|by intros [[] _]].
Qed.

Lemma connect_all_spec fuel l : ∀ s, (∀ v, v ∈ l → v ∈ nodes) → tarjan_ok [] s → (unvisited s <= fuel)%nat →
  ∃ s', connect_all fuel l s = Some s' ∧ tarjan_ok [] s' ∧ extends s s' ∧ ∀ v, v ∈ l → is_Some (map_get v (indexMap s')).
Proof.
  induction l as [|v l IH]; intros s Hl Hok Hf; [exists s; split_and!; [done|done|by intros ? ?|by intros ? ?%not_elem_of_nil]|]. cbn [connect_all].
  assert (∀ s1, tarjan_ok [] s1 → extends s s1 → is_Some (map_get v (indexMap s1)) → ∃ s', connect_all fuel l s1 = Some s' ∧ tarjan_ok [] s' ∧ extends s s' ∧
    ∀ u, u ∈ v :: l → is_Some (map_get u (indexMap s'))) as Hrest.
  { intros s1 Hok1 Hext [i Ev]. destruct (IH s1) as (s' & E & O & X & H); [intros; apply Hl; by right|done|pose proof (unvisited_extends _ _ Hext); lia|].
    exists s'. split_and!; [done|done|by eapply tarjan_extends_trans|]. intros u [->|Hu]%elem_of_cons; [exists i; by apply X|by apply H]. }
  destruct (visited s v) eqn:Ev; cbn [negb].
  - apply Hrest; [done|by intros ? ?|by apply visited_true].
  - apply not_true_iff_false in Ev. rewrite visited_true in Ev.
    destruct (strongConnect_spec fuel [] v s) as (s1 & E & C); [apply Hl; left|done|done|by intros ? ?%not_elem_of_nil|done|]. rewrite E.
    apply Hrest; [apply (cl_ok _ _ _ _ C)|apply (cl_extends _ _ _ _ C)|apply (cl_visited _ _ _ _ C)].
Qed.

Lemma computeSCCs_spec : ∃ cs, computeSCCs nodes = Some cs ∧ (∀ c, c ∈ cs → component c ∧ ∀ v, v ∈ c → v ∈ nodes) ∧
  (∀ v, v ∈ nodes → ∃ c, c ∈ cs ∧ v ∈ c) ∧ ∀ i j c d v, cs !! i = Some c → cs !! j = Some d → v ∈ c → v ∈ d → i = j.
Proof.
  unfold computeSCCs. destruct (connect_all_spec (S (length nodes)) nodes tarjan_start) as (s & E & O & _ & H); [done|apply start_ok| |].
  { unfold unvisited. pose proof (length_filter (λ x, visited tarjan_start x = false) nodes). lia. }
  rewrite E. exists (tj_sccs s). split; [done|]. assert (∀ v, v ∉ tj_stack s) as Hempty.
  { intros v Hv. destruct (tk_back _ _ O v Hv) as (g & ?%not_elem_of_nil & _). done. }
  split_and!.
  - intros c Hc. split; [by apply O|]. intros v Hv. apply (tk_nodes _ _ O). apply (tk_done _ _ O). by exists c.
  - intros v Hv. apply (tk_done _ _ O). by split; [apply H|].
  - apply O.
Qed.

(** A component is terminal when nothing leaves it. *)
Lemma terminal_closed c v w : is_terminal_scc c = true → v ∈ c → reaches v w → w ∈ c.
Proof.
  unfold is_terminal_scc. setoid_rewrite forallb_elem. setoid_rewrite forallb_elem. intros H Hv Hr. revert Hv.
  induction Hr as [v|v x w Hvx _ IH]; intros Hv; [done|]. apply IH. specialize (H v Hv x Hvx). by apply bool_decide_eq_true in H.
Qed.
Lemma terminal_iff c : is_terminal_scc c = true ↔ ∀ v w, v ∈ c → reaches v w → w ∈ c.
Proof.
  split; [intros H v w; by apply terminal_closed|]. intros H. unfold is_terminal_scc. setoid_rewrite forallb_elem. setoid_rewrite forallb_elem.
  intros v Hv w Hw. apply bool_decide_eq_true. apply (H v); [done|by apply rtc_once].
Qed.
End Successors.
End Scc.
Arguments computeSCCs {T _} successors nodes.
Arguments findTerminalSCCs {T _} successors nodes.

(** ** Properties *)

(** C16: Tarjan's algorithm is correct. On any finite graph whose successors are its nodes,
    [computeSCCs] ends and answers exactly the strongly connected components: each set it lists is
    the class of a node under mutual reachability, every node is in one, and no node is in two; and
    [findTerminalSCCs] answers exactly those from which nothing outside can be reached. *)
Theorem computeSCCs_exact {T} `{EqDecision T} (successors : T → list T) nodes : (∀ v w, v ∈ nodes → w ∈ successors v → w ∈ nodes) →
  ∃ cs, computeSCCs successors nodes = Some cs ∧
    (∀ c, c ∈ cs → (∃ v, v ∈ c ∧ ∀ w, w ∈ c ↔ connected successors v w) ∧ ∀ v, v ∈ c → v ∈ nodes) ∧
    (∀ v, v ∈ nodes → ∃ c, c ∈ cs ∧ v ∈ c) ∧ (∀ i j c d v, cs !! i = Some c → cs !! j = Some d → v ∈ c → v ∈ d → i = j) ∧
    ∃ terminal, findTerminalSCCs successors nodes = Some terminal ∧ ∀ c, c ∈ terminal ↔ c ∈ cs ∧ ∀ v w, v ∈ c → rtc (hop successors) v w → w ∈ c.
Proof.
  intros Hc. destruct (computeSCCs_spec successors nodes Hc) as (cs & E & H1 & H2 & H3). exists cs. split_and!; [done|exact H1|done|done|].
  unfold findTerminalSCCs. rewrite E. eexists. split; [reflexivity|]. intros c. rewrite list_elem_of_filter, terminal_iff. tauto.
Qed.

(** A cycle of two, and a node it reaches. *)
Definition scc_example (v : nat) : list nat := match v with 0%nat => [1%nat] | 1%nat => [0; 2]%nat | _ => [] end.
Lemma computeSCCs_exact_witness : ∃ cs, computeSCCs scc_example [0; 1; 2]%nat = Some cs ∧ cs = [[2]; [1; 0]]%nat ∧
  (∀ v, v ∈ [0; 1; 2]%nat → ∃ c, c ∈ cs ∧ v ∈ c).
Proof.
  destruct (computeSCCs_exact scc_example [0; 1; 2]%nat) as (cs & E & _ & H & _).
  - intros v w. rewrite !elem_of_cons. intros [->|[->|[->|[]%not_elem_of_nil]]]; cbn; rewrite ?elem_of_cons, ?elem_of_nil; tauto.
  - exists cs. split; [exact E|]. split; [|exact H]. assert (computeSCCs scc_example [0; 1; 2]%nat = Some [[2]; [1; 0]]%nat) as E' by reflexivity. congruence.
Defined.
