(* ===== verification/LivenessAnalyzer.v ===== *)
(** * Liveness and branch coverage over the state-class graph

    [src/typescript/src/verification/analysis/time-petri-net-analyzer.ts]: the analyzer and its
    builder, goal liveness, classical liveness (L4) and the coverage of XOR branches. A class is its
    position in the graph, a transition its position in its net; which transitions of the rewritten
    net carry [passthrough] is an argument, as the numbers of the fresh in-flight places are. Report
    lines are not modelled. [None] is a loop that runs out of fuel. *)
From S2P Require Import Prelude.
From S2P Require Import CodePoints.
From S2P Require Import Net.
From S2P Require Import Out.
From S2P Require Import Transition.
From S2P Require Import PetriNet.
From S2P Require Import MarkingState.
From S2P Require Import Outcomes.
From S2P Require Import StateClass.
From S2P Require Import ScgVerifier.
From S2P Require Import SccAnalyzer.
From S2P Require Import NetRewrites.
From S2P Require Import OutSpec.
From S2P Require Import CompiledNet.
From S2P Require Import Dbm.
From S2P Require Import ClassSteps.
From S2P Require Import ClassKeys.
From S2P Require Import GraphExact.
From S2P Require Import GraphPaths.
From S2P Require Import SmtProperty.
From S2P Require Import StubbornSets.
From S2P Require Import StubbornRuns.
From S2P Require Import ScgExact.
From stdpp Require Import relations.
Record liveness_result := LivenessResult {
  lr_stateClassGraph : scg;
  lr_allSCCs : list (list nat);
  lr_terminalSCCs : list (list nat);
  lr_goalClasses : list nat;
  lr_canReachGoal : list nat;
  lr_isGoalLive : bool;
  lr_isL4Live : bool;
  lr_isComplete : bool
}.

(** ** Backward reachability *)

Definition visit_pred (acc : list nat * list nat) (pred : nat) : list nat * list nat :=
  if bool_decide (pred ∈ acc.1) then acc else (set_add pred acc.1, acc.2 ++ [pred]).
Fixpoint backward_loop (g : scg) (fuel : nat) (reachable queue : list nat) : option (list nat) :=
  match fuel with
  | O => None
  | S fuel =>
      match queue with
      | [] => Some reachable
      | current :: queue => let acc := foldl visit_pred (reachable, queue) (scg_predecessors g current) in backward_loop g fuel acc.1 acc.2
      end
  end.
Definition computeBackwardReachability (g : scg) (goals : list nat) : option (list nat) := backward_loop g (S (g_size g)) (set_of goals) goals.

Section Analyzer.
Context {V : Type}.
Implicit Types (net : petri_net V).

(** ** The analyzer and its builder *)

Record analyzer := Analyzer {
  an_net : petri_net V;
  an_callerNet : petri_net V;
  an_initialMarking : marking_state;
  an_goalPlaces : list place;
  an_maxClasses : Z;
  an_environmentPlaces : list place;
  an_environmentMode : environment_mode
}.

Definition analyzer_create (fresh : nat) net (initial : marking_state) (goals : list place) (maxClasses : Z) (envs : list place) (mode : environment_mode)
    : result rewrite_error analyzer :=
  let* split := splitInFlight fresh net [] [] in
  let split_net := match split with Split n _ => n | Atomic | Refused _ _ _ => net end in
  let* inhibited := withTerminalInhibitors split_net in
  Ok (Analyzer inhibited net initial goals maxClasses envs mode).

Record analyzer_builder := AnalyzerBuilder {
  ab_net : petri_net V;
  ab_initialMarking : marking_state;
  ab_goalPlaces : list place;
  ab_maxClasses : Z;
  ab_environmentPlaces : list place;
  ab_environmentMode : environment_mode
}.
Definition analyzer_forNet net : analyzer_builder := AnalyzerBuilder net ms_empty [] 100000 [] Ignore.

Inductive analyzer_call :=
| CallInitialMarking (m : marking_state)
| CallGoalPlaces (ps : list place)
| CallMaxClasses (max : Z)
| CallEnvironmentPlaces (ps : list place)
| CallEnvironmentMode (mode : environment_mode).
Definition analyzer_call_run (b : analyzer_builder) (c : analyzer_call) : analyzer_builder :=
  let '(AnalyzerBuilder net m goals max envs mode) := b in
  match c with
  | CallInitialMarking m => AnalyzerBuilder net m goals max envs mode
  | CallGoalPlaces ps => AnalyzerBuilder net m (set_union goals ps) max envs mode
  | CallMaxClasses max => AnalyzerBuilder net m goals max envs mode
  | CallEnvironmentPlaces ps => AnalyzerBuilder net m goals max (set_union envs ps) mode
  | CallEnvironmentMode mode => AnalyzerBuilder net m goals max envs mode
  end.

Inductive analyzer_error :=
| NoGoalPlace
| AnalyzerRewrite (e : rewrite_error).
Definition analyzer_build (fresh : nat) (b : analyzer_builder) : result analyzer_error analyzer :=
  if bool_decide (length (ab_goalPlaces b) = 0) then Err NoGoalPlace
  else match analyzer_create fresh (ab_net b) (ab_initialMarking b) (ab_goalPlaces b) (ab_maxClasses b) (ab_environmentPlaces b) (ab_environmentMode b) with
       | Ok an => Ok an
       | Err e => Err (AnalyzerRewrite e)
       end.

(** ** Liveness *)

Definition goal_classes (g : scg) (goals : list place) : list nat := filter (λ k, hasTokensInAny goals (marking_at g k) = true) (seq 0 (g_size g)).

(** The caller's transitions an edge within [scc] fires. *)
Definition transitionsInSCC net (g : scg) (scc : list nat) : list jsstr :=
  set_of (k ← scc; i ← scg_enabledTransitions g k; e ← branchEdges g k i;
          if bool_decide (be_target e ∈ scc) then [sourceTransition net (from_option t_name [] (net_transitions net !! i))] else []).
Definition missing_transitions net (g : scg) (allTransitions : list jsstr) (scc : list nat) : list jsstr :=
  filter (λ t, t ∉ transitionsInSCC net g scc) allTransitions.

Definition analyze (scale : Z) (isPassthrough : nat → bool) (an : analyzer) : result scg_error (option liveness_result) :=
  let net := an_net an in
  let* built := scg_build scale (net_transitions net) (place_name <$> an_environmentPlaces an) (an_environmentMode an) false isPassthrough None None
                  (an_initialMarking an) (an_maxClasses an) in
  Ok (g ← built;
      let classes := seq 0 (g_size g) in
      let goals := goal_classes g (an_goalPlaces an) in
      allSCCs ← computeSCCs (scg_successors g) classes;
      terminal ← findTerminalSCCs (scg_successors g) classes;
      canReachGoal ← computeBackwardReachability g goals;
      let withoutGoal := filter (λ scc, existsb (λ k, bool_decide (k ∈ goals)) scc = false) terminal in
      let missingSCCs := filter (λ scc, bool_decide (length (missing_transitions net g (t_name <$> net_transitions (an_callerNet an)) scc) = 0) = false) terminal in
      Some (LivenessResult g allSCCs terminal goals canReachGoal
              (bool_decide (length withoutGoal = 0) && bool_decide (g_size g - length canReachGoal = 0))
              (bool_decide (length missingSCCs = 0) && isComplete g) (isComplete g))).

(** ** Branch coverage *)

Record xor_branch_info := XorBranchInfo {
  totalBranches : nat;
  takenBranches : list nat;
  untakenBranches : list nat;
  branchOutputs : list (list place)
}.

(** [new Map(ts.map(t => [t.name, t])).get(name)]: the last transition of that name. *)
Definition in_graph (ts : list (transition V)) (name : jsstr) : option nat :=
  last (omap (λ y : nat * transition V, if bool_decide (t_name y.2 = name) then Some y.1 else None) (imap pair ts)).

(** The branches the edges of [label] take; [None] is a transition object the graph does not know. *)
Definition taken_branches (g : scg) (label : option nat) : list nat :=
  match label with
  | None => []
  | Some i => set_of (k ← seq 0 (g_size g); be_branch <$> branchEdges g k i)
  end.

(** The step that takes the branches of a transition named [name], and its completion when that is it. *)
Definition branch_label (graphNet : petri_net V) (g : scg) (own : bool) (i : nat) (name : jsstr) : option nat * option nat :=
  let completion := in_graph (net_transitions graphNet) (completionTransition name) in
  let split :=
    match completion with
    | None => None
    | Some c => if existsb (λ k, 0 <? length (branchEdges g k c)) (seq 0 (g_size g))
                   || existsb (λ k, (0 <? ms_tokens (mk_place 0 (inFlightPlace name)) (marking_at g k))%Z) (seq 0 (g_size g))
                then Some c else None
    end in
  (match split with
   | Some c => Some c
   | None => match in_graph (net_transitions graphNet) name with Some j => Some j | None => if own then Some i else None end
   end, split).

(** [own] is a call without a net: the result is keyed by the transitions of the graph's own net. *)
Definition analyzeXorBranches (graphNet : petri_net V) (g : scg) (net : option (petri_net V)) : result outcome_error (list (nat * xor_branch_info)) :=
  let own := match net with None => true | Some _ => false end in
  let source := default graphNet net in
  foldl (λ r y,
    let* result := r in
    let '(i, t) := (y : nat * transition V) in
    if own && negb (bool_decide (sourceTransition graphNet (t_name t) = t_name t)) then Ok result
    else
      let '(label, split) := branch_label graphNet g own i (t_name t) in
      let* allBranches := outcomes (match split with Some c => if own then default t (net_transitions graphNet !! c) else t | None => t end) in
      if length allBranches <=? 1 then Ok result
      else
        let taken := taken_branches g label in
        Ok (result ++ [(i, XorBranchInfo (length allBranches) taken (filter (λ b, b ∉ taken) (seq 0 (length allBranches))) (oc_places <$> allBranches))]))
    (Ok []) (imap pair (net_transitions source)).

Definition unreachableBranches (result : list (nat * xor_branch_info)) : list (nat * list nat) :=
  omap (λ y : nat * xor_branch_info, if 0 <? length (untakenBranches y.2) then Some (y.1, untakenBranches y.2) else None) result.
Definition isXorComplete (result : list (nat * xor_branch_info)) : bool :=
  forallb (λ y : nat * xor_branch_info, negb (0 <? length (untakenBranches y.2))) result.
End Analyzer.

(** * The liveness analysis is exact

    The verdicts of [LivenessAnalyzer] on the graph, and on an untimed net what they say of its
    firing sequences. *)
#[local] Open Scope nat_scope.

(** ** The graph *)

Section Graph.
Variable g : scg.
Local Abbreviation next := (scg_successors g).
Local Abbreviation leads := (rtc (hop (scg_successors g))).
Hypothesis Hbound : ∀ k j, j ∈ next k → j < g_size g.
Hypothesis Hrows : length (g_transitions g) = g_size g.

Lemma predecessors_iff k p : p ∈ scg_predecessors g k ↔ k ∈ next p.
Proof.
  unfold scg_predecessors, scg_successors, outgoingBranchEdges. rewrite !elem_of_set_of, list_elem_of_bind. split.
  - intros ([p' row] & H & Hin). apply list_elem_of_lookup in Hin as [q Hq]. rewrite list_lookup_imap in Hq. destruct (g_transitions g !! q) as [r|] eqn:E; [|done].
    injection Hq as <- <-. cbn [fst snd] in H. case_bool_decide as Hk; [|by apply not_elem_of_nil in H]. apply list_elem_of_singleton in H as ->. by rewrite E.
  - destruct (g_transitions g !! p) as [r|] eqn:E; [|by intros ?%not_elem_of_nil]. cbn [default from_option id]. intros Hk. exists (p, r). cbn [fst snd].
    rewrite bool_decide_eq_true_2 by done. split; [left|]. apply list_elem_of_lookup. exists p. by rewrite list_lookup_imap, E.
Qed.

Lemma successor_row p k : k ∈ next p → p < g_size g.
Proof.
  unfold scg_successors, outgoingBranchEdges. rewrite elem_of_set_of. destruct (g_transitions g !! p) eqn:E; [|by intros ?%not_elem_of_nil].
  intros _. rewrite <- Hrows. by eapply lookup_lt_Some.
Qed.

Lemma leads_bound k j : k < g_size g → leads k j → j < g_size g.
Proof. intros Hk H. induction H as [k|k i j Hi _ IH]; [done|]. by apply IH, (Hbound k). Qed.

(** ** Backward reachability *)

(** The state of the search: what is reachable, what is queued. *)
Record backward_ok (goals reachable queue : list nat) : Prop := {
  bw_nodup : NoDup reachable;
  bw_bound : ∀ k, k ∈ reachable → k < g_size g;
  bw_queue : ∀ k, k ∈ queue → k ∈ reachable;
  bw_goals : ∀ k, k ∈ goals → k ∈ reachable;
  bw_sound : ∀ k, k ∈ reachable → ∃ j, j ∈ goals ∧ leads k j;
  bw_closed : ∀ k p, k ∈ reachable → k ∉ queue → k ∈ next p → p ∈ reachable
}.

Lemma backward_size goals reachable queue : backward_ok goals reachable queue → length reachable <= g_size g.
Proof.
  intros H. assert (length reachable <= length (seq 0 (g_size g))) as Hle; [|by rewrite length_seq in Hle].
  apply submseteq_length, NoDup_submseteq; [apply H|]. intros k Hk%(bw_bound _ _ _ H). apply elem_of_seq. lia.
Qed.

(** Taking in the predecessors of one class. *)
Lemma visit_preds (goals : list nat) current preds : ∀ reachable queue, (∀ p, p ∈ preds → current ∈ next p) → current ∈ reachable →
  NoDup reachable → (∀ k, k ∈ reachable → k < g_size g) → (∀ k, k ∈ reachable → ∃ j, j ∈ goals ∧ leads k j) →
  let acc := foldl visit_pred (reachable, queue) preds in ∃ new, acc.2 = queue ++ new ∧ (∀ k, k ∈ acc.1 ↔ k ∈ reachable ∨ k ∈ new) ∧
    NoDup acc.1 ∧ (∀ k, k ∈ acc.1 → k < g_size g) ∧ (∀ k, k ∈ acc.1 → ∃ j, j ∈ goals ∧ leads k j) ∧
    (∀ p, p ∈ preds → p ∈ acc.1) ∧ length acc.1 = length reachable + length new.
Proof.
  induction preds as [|p preds IH]; intros reachable queue Hp Hc Hd Hb Hs; cbn zeta; cbn [foldl].
  { exists []. cbn. rewrite app_nil_r. split_and!; try done; try lia; try (intros k; rewrite elem_of_nil; tauto); by intros ? ?%not_elem_of_nil. }
  pose proof (Hp p ltac:(left)) as Hpc. destruct (decide (p ∈ reachable)) as [Hin|Hn].
  - replace (visit_pred (reachable, queue) p) with (reachable, queue) by (unfold visit_pred; cbn; by rewrite bool_decide_eq_true_2).
    destruct (IH reachable queue) as (new & E1 & E2 & E3 & E4 & E5 & E6 & E7); [intros; apply Hp; by right|done..|].
    exists new. split_and!; try done. intros q [->|Hq]%elem_of_cons; [apply E2; by left|by apply E6].
  - replace (visit_pred (reachable, queue) p) with (reachable ++ [p], queue ++ [p])
      by (unfold visit_pred; cbn; rewrite bool_decide_eq_false_2 by done; unfold set_add; by rewrite decide_False).
    destruct (IH (reachable ++ [p]) (queue ++ [p])) as (new & E1 & E2 & E3 & E4 & E5 & E6 & E7); [intros; apply Hp; by right|apply elem_of_app; by left| | | |].
    + apply NoDup_app. split_and!; [done| |apply NoDup_singleton]. by intros k Hk ->%list_elem_of_singleton.
    + intros k [Hk|Hk]%elem_of_app; [by apply Hb|]. apply list_elem_of_singleton in Hk as ->. by eapply successor_row.
    + intros k [Hk|Hk]%elem_of_app; [by apply Hs|]. apply list_elem_of_singleton in Hk as ->. destruct (Hs current Hc) as (j & Hj & Hr). exists j. split; [done|]. by eapply rtc_l.
    + exists (p :: new). cbn [fst snd] in *. split_and!; [by rewrite E1, <- app_assoc| |done|done|done| |rewrite E7, length_app; cbn; lia].
      * intros k. rewrite E2, elem_of_app, !elem_of_cons, elem_of_nil. tauto.
      * intros q [->|Hq]%elem_of_cons; [apply E2; left; apply elem_of_app; right; left|by apply E6].
Qed.

Lemma backward_loop_spec goals fuel : ∀ reachable queue, backward_ok goals reachable queue → length queue + (g_size g - length reachable) < fuel →
  ∃ r, backward_loop g fuel reachable queue = Some r ∧ backward_ok goals r [].
Proof.
  induction fuel as [|fuel IH]; intros reachable queue H Hf; [lia|]. cbn [backward_loop]. destruct queue as [|current queue]; [by exists reachable|].
  assert (current ∈ reachable) as Hc by (apply (bw_queue _ _ _ H); left).
  destruct (visit_preds goals current (scg_predecessors g current) reachable queue) as (new & E1 & E2 & E3 & E4 & E5 & E6 & E7);
    [by intros p Hp%predecessors_iff|done|apply H|apply H|apply H|].
  cbn zeta. set (acc := foldl visit_pred _ _) in *. apply IH.
  - constructor; try done.
    + intros k. rewrite E1, E2, elem_of_app. intros [Hk|Hk]; [left; apply (bw_queue _ _ _ H); by right|by right].
    + intros k Hk. apply E2. left. by apply (bw_goals _ _ _ H).
    + intros k p Hk Hq Hp. rewrite E1, not_elem_of_app in Hq. destruct Hq as [Hq Hn]. destruct (decide (k = current)) as [->|Hne].
      * by apply E6, predecessors_iff.
      * apply E2. left. apply (bw_closed _ _ _ H k); [apply E2 in Hk; tauto| |done]. by intros [?|?]%elem_of_cons.
  - assert (backward_ok goals acc.1 (acc.1)) as Hok'.
    { constructor; try done. - intros k Hk. apply E2. left. by apply (bw_goals _ _ _ H). }
    apply backward_size in Hok'. rewrite E1, length_app, E7. rewrite E7 in Hok'. cbn [length] in Hf. lia.
Qed.

Lemma backward_spec (goals : list nat) : NoDup goals → (∀ k, k ∈ goals → k < g_size g) →
  ∃ r, computeBackwardReachability g goals = Some r ∧ NoDup r ∧ (∀ k, k ∈ r → k < g_size g) ∧ ∀ k, k ∈ r ↔ ∃ j, j ∈ goals ∧ leads k j.
Proof.
  intros Hd Hb. unfold computeBackwardReachability. rewrite set_of_NoDup by done.
  assert (backward_ok goals goals goals) as H0 by (constructor; try done; intros k Hk; exists k; split; [done|apply rtc_refl]).
  destruct (backward_loop_spec goals (S (g_size g)) goals goals H0) as (r & E & H).
  { pose proof (backward_size _ _ _ H0). lia. }
  exists r. split_and!; [done|apply H|apply H|]. intros k. split; [apply H|]. intros (j & Hj & Hr). apply (bw_goals _ _ _ H) in Hj.
  induction Hr as [k|k i j Hi _ IH]; [done|]. apply (bw_closed _ _ _ H i); [by apply IH|apply not_elem_of_nil|done].
Qed.

(** ** Components *)

Lemma leads_dec k j : j < g_size g → leads k j ∨ ¬ leads k j.
Proof.
  intros Hj. destruct (backward_spec [j]) as (r & _ & _ & _ & Hr); [apply NoDup_singleton|by intros ? ->%list_elem_of_singleton|].
  destruct (decide (k ∈ r)) as [Hk|Hk]; rewrite Hr in Hk; [left|right].
  - by destruct Hk as (i & ->%list_elem_of_singleton & ?).
  - intros H. apply Hk. exists j. split; [left|done].
Qed.

Lemma reached_list k : ∃ l, NoDup l ∧ ∀ j, j ∈ l ↔ j < g_size g ∧ leads k j.
Proof.
  assert (∀ n, n <= g_size g → ∃ l, NoDup l ∧ ∀ j, j ∈ l ↔ j < n ∧ leads k j) as H; [|by apply H].
  induction n as [|n IH]; intros Hn.
  { exists []. split; [apply NoDup_nil_2|]. intros j. rewrite elem_of_nil. lia. }
  destruct (IH ltac:(lia)) as (l & Hd & Hl). destruct (leads_dec k n ltac:(lia)) as [Hr|Hr].
  - exists (n :: l). split; [apply NoDup_cons; split; [rewrite Hl; lia|done]|]. intros j. rewrite elem_of_cons, Hl. split; [intros [->|[? ?]]; (split; [lia|done])|].
    intros [Hj Hl']. destruct (decide (j = n)); [by left|right; split; [lia|done]].
  - exists l. split; [done|]. intros j. rewrite Hl. split; [intros [? ?]; split; [lia|done]|]. intros [Hj Hl']. split; [|done]. destruct (decide (j = n)); [by subst|lia].
Qed.

Variables (sccs terminal : list (list nat)).
Hypothesis Hterm : ∀ c, c ∈ terminal ↔ c ∈ sccs ∧ ∀ v w, v ∈ c → leads v w → w ∈ c.
Hypothesis Hsccs : ∀ c, c ∈ sccs → (∃ v, v ∈ c ∧ ∀ w, w ∈ c ↔ connected next v w) ∧ ∀ v, v ∈ c → v < g_size g.
Hypothesis Hcover : ∀ v, v < g_size g → ∃ c, c ∈ sccs ∧ v ∈ c.

(** Every class reaches a terminal component. *)
Lemma terminal_reached k : k < g_size g → ∃ c v, c ∈ terminal ∧ v ∈ c ∧ leads k v.
Proof.
  intros Hk. destruct (reached_list k) as (l & Hd & Hl). remember (length l) as n eqn:En. assert (length l <= n) as Hn by lia. clear En.
  revert k l Hk Hd Hl Hn. induction n as [|n IH]; intros k l Hk Hd Hl Hn.
  { assert (k ∈ l) as H by (apply Hl; split; [done|apply rtc_refl]). destruct l; [by apply not_elem_of_nil in H|cbn in Hn; lia]. }
  destruct (Hcover k Hk) as (c & Hc & Hkc). destruct (Hsccs c Hc) as [(v0 & Hv0c & Hv0) Hcb].
  assert (∀ v, v ∈ c → leads k v) as Hin. { intros v Hv. destruct (proj1 (Hv0 k) Hkc) as [? H1], (proj1 (Hv0 v) Hv) as [H2 ?]. by etrans. }
  assert ((∃ v w, v ∈ c ∧ hop next v w ∧ w ∉ c) ∨ ∀ v w, v ∈ c → hop next v w → w ∈ c) as [(v & w & Hv & Hw & Hnw)|Hcl].
  { destruct (is_terminal_scc next c) eqn:Et.
    - right. intros v w Hv Hw. apply (proj1 (terminal_iff next c) Et v); [done|by apply rtc_once].
    - left. unfold is_terminal_scc in Et. apply not_true_iff_false in Et.
      destruct (decide (Exists (λ v, Exists (λ w, w ∉ c) (next v)) c)) as [He|He].
      + apply Exists_exists in He as (v & Hv & (w & Hw & Hn')%Exists_exists). by exists v, w.
      + exfalso. apply Et. apply forallb_elem. intros v Hv. apply forallb_elem. intros w Hw. apply bool_decide_eq_true. destruct (decide (w ∈ c)) as [|Hn']; [done|].
        destruct He. apply Exists_exists. exists v. split; [done|]. apply Exists_exists. by exists w. }
  - assert (leads k w) as Hkw by (eapply rtc_r; [by apply Hin|done]). destruct (reached_list w) as (l' & Hd' & Hl').
    destruct (IH w l') as (c' & v' & H1 & H2 & H3); [by eapply Hbound|done|done| |exists c', v'; split_and!; [done|done|by etrans]].
    assert (k ∉ l') as Hkl'. { intros [_ Hwk]%Hl'. apply Hnw. apply Hv0. destruct (proj1 (Hv0 k) Hkc) as [Hk1 Hk2]. split; [by etrans|by etrans]. }
    assert (k :: l' ⊆+ l) as Hsub.
    { apply NoDup_submseteq; [by apply NoDup_cons|]. intros j [->|Hj]%elem_of_cons; apply Hl; [split; [done|apply rtc_refl]|]. apply Hl' in Hj as [? ?]. split; [done|by etrans]. }
    apply submseteq_length in Hsub. cbn [length] in Hsub. lia.
  - exists c, k. split_and!; [|done|apply rtc_refl]. apply Hterm. split; [done|]. intros v w Hv Hr. induction Hr as [v|v i w Hi _ IHr]; [done|]. apply IHr. by eapply Hcl.
Qed.

(** A condition of every class that the steps of the graph keep: it holds everywhere when every
    terminal component has it. *)
Lemma terminal_everywhere (P : nat → Prop) : (∀ k, k < g_size g → ∃ j, leads k j ∧ P j) ↔ ∀ c, c ∈ terminal → ∃ j, j ∈ c ∧ P j.
Proof.
  split.
  - intros H c Hc. destruct (proj1 (Hterm c) Hc) as [Hs Hcl]. destruct (Hsccs c Hs) as [(v & Hv & _) Hb]. destruct (H v (Hb v Hv)) as (j & Hr & Hj).
    exists j. split; [by eapply Hcl|done].
  - intros H k Hk. destruct (terminal_reached k Hk) as (c & v & Hc & Hv & Hr). destruct (H c Hc) as (j & Hj & HP). exists j. split; [|done].
    etrans; [exact Hr|]. destruct (proj1 (Hterm c) Hc) as [Hs _]. destruct (Hsccs c Hs) as [(v0 & Hv0c & Hv0) _]. destruct (proj1 (Hv0 v) Hv) as [? H1], (proj1 (Hv0 j) Hj) as [H2 ?]. by etrans.
Qed.
End Graph.

Lemma all_or_some {A} (P : A → bool) (l : list A) : bool_decide (length (filter (λ x, P x = false) l) = 0) = true ↔ ∀ x, x ∈ l → P x = true.
Proof.
  rewrite bool_decide_eq_true, length_zero_iff_nil. split.
  - intros E x Hx. destruct (P x) eqn:Hf; [done|exfalso]. assert (x ∈ filter (λ x, P x = false) l) as H by (apply list_elem_of_filter; by split).
    rewrite E in H. by apply not_elem_of_nil in H.
  - intros H. apply elem_of_nil_inv. intros x [Hf Hx]%list_elem_of_filter. by rewrite H in Hf.
Qed.

Lemma filter_true {A} (P : A → bool) (l : list A) x : x ∈ filter (λ x, P x = true) l ↔ P x = true ∧ x ∈ l.
Proof. by rewrite list_elem_of_filter. Qed.

(** ** The verdicts on the graph *)

(** An edge out of [k] that fires the caller's [name]. *)
Definition fires_name {V} (net : petri_net V) (g : scg) (name : jsstr) (k : nat) : Prop :=
  ∃ i e, i ∈ scg_enabledTransitions g k ∧ e ∈ branchEdges g k i ∧ sourceTransition net (from_option t_name [] (net_transitions net !! i)) = name.

Section Verdicts.
Context {V : Type}.
Variables (scale : Z) (isPassthrough : nat → bool) (an : analyzer (V := V)) (g : scg).
Hypothesis Hbuilt : scg_build scale (net_transitions (an_net an)) (place_name <$> an_environmentPlaces an) (an_environmentMode an) false isPassthrough None None
  (an_initialMarking an) (an_maxClasses an) = Ok (Some g).
Hypothesis Hbound : ∀ k j, j ∈ scg_successors g k → j < g_size g.
Hypothesis Hrows : length (g_transitions g) = g_size g.
Local Abbreviation leads := (rtc (hop (scg_successors g))).
Local Abbreviation is_goal k := (hasTokensInAny (an_goalPlaces an) (marking_at g k) = true).

Lemma branch_successor k i e : e ∈ branchEdges g k i → be_target e ∈ scg_successors g k.
Proof.
  unfold branchEdges, scg_successors, targets. rewrite elem_of_set_of, list_elem_of_bind. destruct (map_get i _) as [es|] eqn:E; [|by intros ?%not_elem_of_nil].
  intros He. exists (i, es). split; [by apply list_elem_of_fmap_2|]. by apply map_get_elem.
Qed.

Lemma goal_classes_iff k : k ∈ goal_classes g (an_goalPlaces an) ↔ k < g_size g ∧ is_goal k.
Proof. unfold goal_classes. rewrite list_elem_of_filter, elem_of_seq. split; intros [? ?]; split; try done; lia. Qed.

(** A terminal component fires a transition on one of its edges when one of its classes does. *)
Lemma fires_in_scc name scc : (∀ v w, v ∈ scc → leads v w → w ∈ scc) →
  name ∈ transitionsInSCC (an_net an) g scc ↔ ∃ k, k ∈ scc ∧ fires_name (an_net an) g name k.
Proof.
  intros Hcl. unfold transitionsInSCC, fires_name. rewrite elem_of_set_of, list_elem_of_bind. split.
  - intros (k & H & Hk). apply list_elem_of_bind in H as (i & H & Hi). apply list_elem_of_bind in H as (e & H & He).
    case_bool_decide; [|by apply not_elem_of_nil in H]. apply list_elem_of_singleton in H as ->. exists k. split; [done|]. by exists i, e.
  - intros (k & Hk & i & e & Hi & He & <-). exists k. split; [|done]. apply list_elem_of_bind. exists i. split; [|done]. apply list_elem_of_bind. exists e. split; [|done].
    rewrite bool_decide_eq_true_2; [left|]. apply (Hcl k); [done|]. apply rtc_once. by eapply branch_successor.
Qed.

Lemma analyze_graph : ∃ r, analyze scale isPassthrough an = Ok (Some r) ∧ lr_stateClassGraph r = g ∧ lr_isComplete r = isComplete g ∧
  (∀ k, k ∈ lr_canReachGoal r ↔ ∃ j, j < g_size g ∧ is_goal j ∧ leads k j) ∧
  (lr_isGoalLive r = true ↔ ∀ k, k < g_size g → ∃ j, leads k j ∧ is_goal j) ∧
  (lr_isL4Live r = true ↔ isComplete g = true ∧ ∀ name, name ∈ t_name <$> net_transitions (an_callerNet an) →
    ∀ k, k < g_size g → ∃ j, leads k j ∧ fires_name (an_net an) g name j).
Proof.
  unfold analyze. rewrite Hbuilt. cbn [res_bind mbind option_bind].
  destruct (computeSCCs_spec (scg_successors g) (seq 0 (g_size g))) as (cs & Ecs & Hcs & Hcov & _).
  { intros v w _ Hw%Hbound. apply elem_of_seq. lia. }
  assert (findTerminalSCCs (scg_successors g) (seq 0 (g_size g)) = Some (filter (λ scc, is_terminal_scc (scg_successors g) scc = true) cs)) as Et by (unfold findTerminalSCCs; by rewrite Ecs).
  set (terminal := filter _ cs) in Et. rewrite Ecs, Et. cbn [mbind option_bind].
  set (goals := goal_classes g (an_goalPlaces an)). assert (∀ k, k ∈ goals ↔ k < g_size g ∧ is_goal k) as Hgoals by exact goal_classes_iff.
  destruct (backward_spec g Hrows goals) as (back & Eb & Hbd & Hbb & Hback).
  { apply NoDup_filter, NoDup_seq. } { by intros k [? _]%Hgoals. }
  rewrite Eb. cbn [mbind option_bind]. eexists. split; [reflexivity|]. cbn [lr_stateClassGraph lr_isComplete lr_canReachGoal lr_isGoalLive lr_isL4Live].
  assert (∀ c, c ∈ terminal ↔ c ∈ cs ∧ ∀ v w, v ∈ c → leads v w → w ∈ c) as Hterm.
  { intros c. unfold terminal. rewrite filter_true, terminal_iff. tauto. }
  assert (∀ c, c ∈ cs → (∃ v, v ∈ c ∧ ∀ w, w ∈ c ↔ connected (scg_successors g) v w) ∧ ∀ v, v ∈ c → v < g_size g) as Hsccs.
  { intros c Hc. destruct (Hcs c Hc) as [H1 H2]. split; [exact H1|]. intros v Hv%H2%elem_of_seq. lia. }
  assert (∀ v, v < g_size g → ∃ c, c ∈ cs ∧ v ∈ c) as Hcover by (intros v Hv; apply Hcov, elem_of_seq; lia).
  pose proof (terminal_everywhere g Hbound Hrows cs terminal Hterm Hsccs Hcover) as Hev.
  assert (∀ k, k ∈ back ↔ ∃ j, j < g_size g ∧ is_goal j ∧ leads k j) as Hback'.
  { intros k. rewrite Hback. setoid_rewrite Hgoals. split; [intros (j & [? ?] & ?)|intros (j & ? & ? & ?)]; by exists j. }
  split_and!; [done|done|exact Hback'| |].
  - rewrite andb_true_iff, all_or_some, Hev, bool_decide_eq_true. split.
    + intros [H _] c Hc. specialize (H c Hc). apply existsb_elem in H as (k & Hk & Hg%bool_decide_eq_true). exists k. split; [done|]. by apply Hgoals.
    + intros H. split.
      * intros c Hc. destruct (H c Hc) as (j & Hj & HP). apply existsb_elem. exists j. split; [done|]. apply bool_decide_eq_true, Hgoals. split; [|done].
        apply Hterm in Hc as [Hc _]. by apply (Hsccs c Hc).
      * assert (length (seq 0 (g_size g)) <= length back) as Hle; [|rewrite length_seq in Hle; lia]. apply submseteq_length, NoDup_submseteq; [apply NoDup_seq|].
        intros k Hk%elem_of_seq. apply Hback'. destruct (proj2 (Hev _) H k ltac:(lia)) as (j & Hr & Hg). exists j. split_and!; [|done|done]. by eapply leads_bound; [| |exact Hr]; [|lia].
  - rewrite andb_true_iff, all_or_some. assert (∀ A B C : Prop, (A ↔ C) → (A ∧ B ↔ B ∧ C)) as Hswap by tauto. apply Hswap. split.
    + intros H name Hname. apply Hev. intros c Hc. apply fires_in_scc; [by apply Hterm|]. specialize (H c Hc). apply bool_decide_eq_true, length_zero_iff_nil in H.
      destruct (decide (name ∈ transitionsInSCC (an_net an) g c)) as [|Hn]; [done|]. assert (name ∈ missing_transitions (an_net an) g (t_name <$> net_transitions (an_callerNet an)) c) as Hm by (apply list_elem_of_filter; by split).
      rewrite H in Hm. by apply not_elem_of_nil in Hm.
    + intros H c Hc. apply bool_decide_eq_true, length_zero_iff_nil, elem_of_nil_inv. intros name [Hn Hin]%list_elem_of_filter. apply Hn, fires_in_scc; [by apply Hterm|].
      by apply Hev; [intros k Hk; apply H|].
Qed.
End Verdicts.

(** ** The runs of an untimed net *)

Section Runs.
Context {V : Type}.
Variables (scale : Z) (net : petri_net V) (m0 : marking_state).
Local Abbreviation ts := (net_transitions net).
Hypothesis Hscale : (0 < scale)%Z.
Hypothesis Hnet : scg_net_ok ts [] Ignore m0.
Hypothesis Huntimed : isUntimed ts = true.
Variables (x : exploration) (g : scg).
Hypothesis HS : space scale ts m0 None x g.
Local Abbreviation leads := (rtc (hop (scg_successors g))).
Local Abbreviation counts c := (count_of (sc_marking c)).
Local Abbreviation full := (proj1 (full_selector scale ts m0)).

Lemma hop_iff k j : hop (scg_successors g) k j ↔ ∃ i e, e ∈ edges_of x k i ∧ be_target e = j.
Proof.
  unfold hop, scg_successors, outgoingBranchEdges. rewrite elem_of_set_of, (go_edges _ _ _ _ _ _ _ _ _ (sp_graph _ _ _ _ x g HS)).
  eapply graph_targets, (sp_traced _ _ _ _ x g HS).
Qed.

Lemma hop_bound k j : j ∈ scg_successors g k → j < g_size g.
Proof.
  intros (i & e & He & <-)%hop_iff. destruct (edge_step scale ts m0 Hscale Hnet Huntimed None full x g HS k i e He) as (_ & cj & _ & _ & Ej & _).
  rewrite (size_classes _ _ _ _ x g HS). by eapply lookup_lt_Some.
Qed.

Lemma graph_rows : length (g_transitions g) = g_size g.
Proof. by rewrite (go_edges _ _ _ _ _ _ _ _ _ (sp_graph _ _ _ _ x g HS)), (size_classes _ _ _ _ x g HS), (tr_len _ _ _ _ _ _ x (sp_traced _ _ _ _ x g HS)). Qed.

(** A path of the graph is a run. *)
Lemma leads_run k j c : leads k j → x_classes x !! k = Some c → ∃ cj l, x_classes x !! j = Some cj ∧ run ts (counts c) l (counts cj).
Proof.
  intros Hr. revert c. induction Hr as [k|k i j Hi _ IH]; intros c Ec; [exists c, []; split; [done|by apply run_nil]|].
  apply hop_iff in Hi as (n & e & He & <-). destruct (edge_step scale ts m0 Hscale Hnet Huntimed None full x g HS k n e He) as (c' & ci & o & Ec' & Ei & _ & Hs).
  assert (c' = c) as -> by congruence. destruct (IH ci Ei) as (cj & l & Ej & Hl). exists cj, ((n, o) :: l). split; [done|]. by eapply run_cons.
Qed.

(** A run from the marking of a class is a path of a complete graph. *)
Lemma run_leads : g_complete g = true → ∀ l k c d, x_classes x !! k = Some c → run ts (counts c) l d →
  ∃ j cj, leads k j ∧ x_classes x !! j = Some cj ∧ ∀ n, counts cj n = d n.
Proof.
  intros Hcomp. induction l as [|[i o] l IH]; intros k c d Ec Hr; inversion Hr as [? Hd|? ? d1 ? ? Hs Hr1]; subst.
  { exists k, c. split_and!; [apply rtc_refl|done|]. intros n. by rewrite Hd. }
  assert (Hs' := Hs). destruct Hs' as (t & os & Et & En & _). pose proof (class_at _ _ _ _ x g HS k c Ec) as Hc.
  destruct (step_edge scale ts m0 Hscale Hnet Huntimed None full x g HS k c i o d1) as (e & cj & He & Ej & Hj); [by eapply (expanded_index _ _ _ _ x g HS)|done|by apply (enabled_token scale ts m0 c i t Hc Et)|done|].
  destruct (IH (be_target e) cj d Ej) as (j' & c' & Hl & H); [by eapply run_ext|]. exists j', c'. split; [|done]. eapply rtc_l; [|done]. apply hop_iff. by exists i, e.
Qed.

(** Every class is reached. *)
Lemma class_run k c : x_classes x !! k = Some c → ∃ l, run ts (count_of m0) l (counts c).
Proof.
  intros Ec. destruct (counterexample_sequence scale ts m0 Hscale Hnet Huntimed None full x g HS k c Ec) as (trace & names & _ & Hseq & Hlast & _).
  by apply (sequence_run ts m0 trace names Hseq).
Qed.

Lemma run_class l d : g_complete g = true → run ts (count_of m0) l d → ∃ k c, x_classes x !! k = Some c ∧ ∀ n, counts c n = d n.
Proof.
  intros Hcomp Hr. destruct (sp_root _ _ _ _ x g HS) as (c0 & E0 & Hc0 & _). destruct (run_leads Hcomp l 0 c0 d E0) as (k & c & _ & H); [by eapply run_ext|by exists k, c].
Qed.

(** What can happen from every class can happen after every run. *)
Lemma everywhere (P : nat → Prop) (Q : (jsstr → Z) → Prop) : g_complete g = true → (∀ d d', Q d → (∀ n, d' n = d n) → Q d') →
  (∀ k c, x_classes x !! k = Some c → P k ↔ Q (counts c)) →
  (∀ k, k < g_size g → ∃ j, leads k j ∧ P j) ↔ ∀ l d, run ts (count_of m0) l d → ∃ l' d', run ts d l' d' ∧ Q d'.
Proof.
  intros Hcomp Hext HPQ. split.
  - intros H l d Hr. destruct (run_class l d Hcomp Hr) as (k & c & Ek & Hc). destruct (H k) as (j & Hl & Hj); [rewrite (size_classes _ _ _ _ x g HS); by eapply lookup_lt_Some|].
    destruct (leads_run k j c Hl Ek) as (cj & l' & Ej & Hrun). exists l', (counts cj). split; [eapply run_ext; [|exact Hrun]; intros n; by rewrite Hc|]. by apply (HPQ j).
  - intros H k Hk. destruct (class_of_index _ _ _ _ x g HS k Hk) as [c Ek]. destruct (class_run k c Ek) as [l Hr]. destruct (H l _ Hr) as (l' & d' & Hr' & HQ).
    destruct (run_leads Hcomp l' k c d' Ek Hr') as (j & cj & Hl & Ej & Hc). exists j. split; [done|]. apply (HPQ j cj Ej). by eapply Hext.
Qed.

(** An edge of a class fires a name exactly when its marking can fire a transition of that source. *)
Lemma fires_class name k c : g_complete g = true → x_classes x !! k = Some c →
  fires_name net g name k ↔ ∃ i t, ts !! i = Some t ∧ sourceTransition net (t_name t) = name ∧ enabled_counts [] Ignore t (counts c) = true.
Proof.
  intros Hcomp Ec. pose proof (class_at _ _ _ _ x g HS k c Ec) as Hc. unfold fires_name, branchEdges, scg_enabledTransitions, outgoingBranchEdges.
  rewrite (go_edges _ _ _ _ _ _ _ _ _ (sp_graph _ _ _ _ x g HS)). split.
  - intros (i & e & _ & He & <-). destruct (edge_step scale ts m0 Hscale Hnet Huntimed None full x g HS k i e He) as (c' & cj & o & Ec' & _ & _ & (t & os & Et & En & _)).
    assert (c' = c) as -> by congruence. exists i, t. by rewrite Et.
  - intros (i & t & Et & <- & En). destruct (outcomes_inhabited_net ts m0 Hnet t) as (os & o & Eos & Ho); [by eapply list_elem_of_lookup_2|].
    destruct (step_edge scale ts m0 Hscale Hnet Huntimed None full x g HS k c i o (fired_counts [] Ignore t o (counts c))) as (e & cj & He & _).
    + by eapply (expanded_index _ _ _ _ x g HS).
    + done.
    + by apply (enabled_token scale ts m0 c i t Hc Et).
    + by exists t, os.
    + exists i, e. split_and!; [|exact He|by rewrite Et]. destruct (edges_row x k i e He) as (es & Hin & _). by apply (list_elem_of_fmap_2 fst _ (i, es)).
Qed.
End Runs.

(** A goal place of [goals] is marked. *)
Definition marks_goal (goals : list place) (d : jsstr → Z) : Prop := ∃ p, p ∈ goals ∧ (0 < d (place_name p))%Z.

Lemma marks_goal_iff goals m : hasTokensInAny goals m = true ↔ marks_goal goals (count_of m).
Proof. unfold hasTokensInAny, marks_goal. rewrite existsb_elem. by setoid_rewrite hasTokens_count; setoid_rewrite Z.ltb_lt. Qed.

(** ** Properties *)

(** C15: the liveness analysis is exact. On an untimed closed net of built transitions it always
    answers, and when the graph is complete its two verdicts are statements about the firing
    sequences of the analysed net: "goal live" holds exactly when after every firing sequence from
    the initial marking some continuation marks a goal place, and "L4 live" exactly when after every
    firing sequence every transition of the caller's net can still be made to fire (a split one by
    firing the step that stands for it). On a graph cut at [maxClasses] "L4 live" is never answered. *)
Theorem liveness_exact {V} scale isPassthrough (an : analyzer (V := V)) :
  let net := an_net an in let ts := net_transitions net in let m0 := an_initialMarking an in
  (0 < scale)%Z → scg_net_ok ts [] Ignore m0 → isUntimed ts = true → requireOutputProducingActions isPassthrough 0 ts = Ok () →
  an_environmentPlaces an = [] → an_environmentMode an = Ignore →
  ∃ r, analyze scale isPassthrough an = Ok (Some r) ∧
    (lr_isComplete r = true →
      (lr_isGoalLive r = true ↔ ∀ l d, run ts (count_of m0) l d → ∃ l' d', run ts d l' d' ∧ marks_goal (an_goalPlaces an) d') ∧
      (lr_isL4Live r = true ↔ ∀ u, u ∈ net_transitions (an_callerNet an) → ∀ l d, run ts (count_of m0) l d → ∃ l' d', run ts d l' d' ∧
        ∃ i t, ts !! i = Some t ∧ sourceTransition net (t_name t) = t_name u ∧ enabled_counts [] Ignore t d' = true)) ∧
    (lr_isComplete r = false → lr_isL4Live r = false ∧ (an_maxClasses an <= Z.of_nat (g_size (lr_stateClassGraph r)))%Z).
Proof.
  intros net ts m0 Hs Hn Hu Ha He Hm.
  destruct (space_built scale ts m0 Hs Hn Hu None (proj1 (full_selector scale ts m0)) isPassthrough (an_maxClasses an) Ha) as (x & g & E & HS & Hw).
  pose proof (hop_bound scale net m0 Hs Hn Hu x g HS) as Hb. pose proof (graph_rows scale net m0 x g HS) as Hr.
  destruct (analyze_graph scale isPassthrough an g) as (r & Er & Eg & Ec & _ & Hgoal & Hlive); [by rewrite He, Hm|done|done|].
  exists r. split; [exact Er|]. rewrite Eg, Ec, Hgoal, Hlive. split.
  - intros Hcomp. split.
    + apply (everywhere scale net m0 Hs Hn Hu x g HS); [done| |].
      * intros d d' (p & Hp & Hd) Hdd. exists p. by rewrite Hdd.
      * intros k c Ek. rewrite (marking_at_class _ _ _ _ x g HS k c Ek). apply marks_goal_iff.
    + rewrite Hcomp. set (Q name d := ∃ i t, ts !! i = Some t ∧ sourceTransition net (t_name t) = name ∧ enabled_counts [] Ignore t d = true).
      assert (∀ name, (∀ k, k < g_size g → ∃ j, rtc (hop (scg_successors g)) k j ∧ fires_name net g name j) ↔
        ∀ l d, run ts (count_of m0) l d → ∃ l' d', run ts d l' d' ∧ Q name d') as H.
      { intros name. apply (everywhere scale net m0 Hs Hn Hu x g HS); [done| |].
        - intros d d' (i & t & Et & Es & En) Hdd. exists i, t. split_and!; [done|done|]. by erewrite enabled_counts_ext.
        - intros k c Ek. by apply (fires_class scale net m0 Hs Hn Hu x g HS). }
      split.
      * intros [_ HL] u Hu'. apply H, HL. by apply list_elem_of_fmap_2.
      * intros HL. split; [done|]. intros name (u & -> & Hu')%list_elem_of_fmap. by apply H, HL.
  - intros Hinc. split; [|by apply Hw]. apply not_true_iff_false. rewrite Hlive, Hinc. by intros [? _].
Qed.

(** A token between two places, and another that leaves one for good. *)
Definition beat_builders : list (builder unit) :=
  [moves "tick" (place_of 0 "a") (place_of 1 "b"); moves "tock" (place_of 1 "b") (place_of 0 "a"); moves "once" (place_of 2 "c") (place_of 3 "d")].
Definition beat_net : petri_net unit := PetriNet (js "beat") [place_of 0 "a"; place_of 1 "b"; place_of 2 "c"; place_of 3 "d"] (built <$> beat_builders) [].
Definition beat_initial : marking_state := MarkingState [(js "a", 1%Z); (js "c", 1%Z)] [(js "a", place_of 0 "a"); (js "c", place_of 2 "c")].
Definition beat_analyzer : analyzer := Analyzer beat_net beat_net beat_initial [place_of 1 "b"] 100 [] Ignore.

Lemma liveness_exact_witness : ∃ r, analyze 1 (λ _, false) beat_analyzer = Ok (Some r) ∧
  g_size (lr_stateClassGraph r) = 4 ∧ length (lr_allSCCs r) = 2 ∧ length (lr_terminalSCCs r) = 1 ∧ lr_isGoalLive r = true ∧ lr_isL4Live r = false ∧
  (∀ l d, run (built <$> beat_builders) (count_of beat_initial) l d → ∃ l' d', run (built <$> beat_builders) d l' d' ∧ marks_goal [place_of 1 "b"] d').
Proof.
  destruct (liveness_exact 1 (λ _, false) beat_analyzer) as (r & E & H & _).
  - lia.
  - by apply (checked_net_ok beat_builders).
  - reflexivity.
  - reflexivity.
  - reflexivity.
  - reflexivity.
  - exists r. split; [exact E|]. assert (lr_isComplete r = true ∧ lr_isGoalLive r = true) as [Hc Hg] by (vm_compute in E; injection E as <-; split; reflexivity).
    destruct (H Hc) as [H1 _]. assert (Hrun := proj1 H1 Hg). clear H H1. vm_compute in E. injection E as <-. split_and!; try reflexivity. exact Hrun.
Defined.
