(* ===== verification/SubnetRewriter.v ===== *)
(** * Rewriting the places of transitions: renaming, substitution, channel merges, fusion

    [src/typescript/src/core/internal/subnet-rewriter.ts]. A remap is the [Map] of the code, keyed
    by place name. A transition object is its identity, its record and its action; the built-in
    passthrough is one value, an action of the host another, and the sequence a channel merge makes
    is a fresh closure. Fresh objects are numbered by a counter the operations thread, which together
    with the errors thrown is the monad [alloc]. Messages are constructors of [compose_error]. *)
From S2P Require Import Prelude.
From S2P Require Import Net.
From S2P Require Import Out.
From S2P Require Import OutSpec.
From S2P Require Import Transition.
From S2P Require Import PetriNet.
#[local] Open Scope Z_scope.

(** ** Errors and fresh objects *)

Inductive arc_sort := SortInput | SortInhibitor | SortRead | SortReset.
#[export] Instance arc_sort_eq_dec : EqDecision arc_sort.
Proof. solve_decision. Defined.

(** What made two input arcs meet. *)
Inductive seam := SeamChannel (channel : jsstr) | SeamFusion (set : jsstr).

Inductive compose_error :=
| InFactory (e : in_error)
| OutFactory (e : out_error)
| BuildFailed (transition : jsstr) (e : build_error)
| NetFailed (e : net_error)
| EmptyMergedName
| MatchConflict (channel : jsstr)
| AliasConflict (channel declared caller instance : jsstr)
| TimingConflict (channel : jsstr) (caller instance : timing)
| InputCollision (s : seam) (a b : in_spec)
| ArcKindConflict (channel place : jsstr) (caller instance : list arc_sort)
| SubnetTerminals (operation subnet : jsstr) (places : list jsstr)
| DuplicatePort (port : jsstr)
| DuplicateChannel (channel : jsstr)
| PortNotInBody (port place : jsstr)
| ChannelNotInBody (channel transition : jsstr)
| BadPrefix (prefix : jsstr)
| UnknownPort (port : jsstr)
| UnknownChannel (channel : jsstr)
| UnknownTransition (name : jsstr)
| PortAlreadyBound (port : jsstr)
| ChannelAlreadyBound (channel : jsstr)
| ChannelsNotBound (subnet : jsstr) (channels : list jsstr)
| TransitionCollision (transition subnet : jsstr)
| InputPortsCollide (first second instance host transition : jsstr)
| OutputPortsCollide (first second instance host transition : jsstr)
| RetiredPortNamed (place port instance host : jsstr)
| FusionOverlap (place : jsstr) (first second : jsstr)
| FusionEmpty (set : jsstr)
| FusionUnnamed
| MissingGenerator (port : jsstr)
| NullSeed (port : jsstr)
| PassthroughWithOutput (transition : jsstr).

(** A computation that may throw and allocates fresh objects. *)
Definition alloc (A : Type) : Type := nat → result compose_error (nat * A).
#[export] Instance alloc_ret : MRet alloc := λ A a n, Ok (n, a).
#[export] Instance alloc_bind : MBind alloc := λ A B k m n, match m n with Ok (n', a) => k a n' | Err e => Err e end.
Definition fresh : alloc nat := λ n, Ok (S n, n).
Definition lift {A} (r : result compose_error A) : alloc A := λ n, match r with Ok a => Ok (n, a) | Err e => Err e end.
Definition map_err {E E' A} (f : E → E') (r : result E A) : result E' A := match r with Ok a => Ok a | Err e => Err (f e) end.

(** ** Actions and transition objects *)

Section Rewriter.
Context {V A : Type} `{EqDecision A}.

Inductive action := Passthrough | Host (a : A) | Then (closure : nat) (caller instance : action).
#[export] Instance action_eq_dec : EqDecision action.
Proof. solve_decision. Defined.
Definition isPassthrough (a : action) : bool := match a with Passthrough => true | _ => false end.

Record tobj := TObj { o_ref : nat; o_t : transition V; o_action : action }.
Definition o_name (o : tobj) : jsstr := t_name (o_t o).
Definition new_tobj (t : transition V) (a : action) : alloc tobj := r ← fresh; mret (TObj r t a).

Implicit Types (t : transition V) (remap : list (jsstr * place)).

(** ** Arcs *)

Definition remap_place remap (p : place) : place := default p (map_get (place_name p) remap).

Definition rewriteIn remap (s : in_spec) : result compose_error in_spec :=
  match s with
  | InOne p => Ok (one (remap_place remap p))
  | InExactly p n => map_err InFactory (exactly n (remap_place remap p))
  | InAll p => Ok (all (remap_place remap p))
  | InAtLeast p n => map_err InFactory (atLeast n (remap_place remap p))
  end.

Fixpoint rewriteOut remap (o : out) : result compose_error out :=
  match o with
  | OutPlace p => Ok (outPlace (remap_place remap p))
  | OutForwardInput f t => Ok (forwardInput (remap_place remap f) (remap_place remap t))
  | OutAnd cs => let* cs := res_map (rewriteOut remap) cs in Ok (OutAnd cs)
  | OutXor cs => let* cs := res_map (rewriteOut remap) cs in Ok (OutXor cs)
  | OutTimeout ms c => let* c := rewriteOut remap c in map_err OutFactory (timeout_ ms c)
  end.

Definition remap_key remap (k : match_key V) : match_key V := MatchKey (remap_place remap (mk_place_of k)) (mk_key k).

(** ** The declared → actual correspondence *)

Definition record_place remap (alias : list (jsstr * place)) (p : place) : list (jsstr * place) :=
  match map_get (place_name p) alias with
  | Some _ => alias
  | None => map_set (place_name p) (remap_place remap p) alias
  end.
(** The places the first pass walks, in its order. *)
Definition declared_places t : list place :=
  (in_place <$> inputSpecs t) ++ reads t ++ inhibitors t ++ resets t ++ outputPlaces t.
Definition buildPlaceAlias t remap : list (jsstr * place) :=
  let prev := placeAlias t in
  if bool_decide (length remap = 0)%nat && bool_decide (length prev = 0)%nat then []
  else
    let alias :=
      if (0 <? length prev)%nat then (λ y, (y.1, remap_place remap y.2)) <$> prev
      else foldl (record_place remap) [] (declared_places t) in
    if existsb (λ y, negb (bool_decide (place_name y.2 = y.1))) alias then alias else [].

(** ** Input arcs that meet on a place *)

Definition summableCount (s : in_spec) : Z := match s with InOne _ => 1 | InExactly _ n => n | InAll _ | InAtLeast _ _ => -1 end.
Definition mergeInPair (a b : in_spec) (s : seam) : result compose_error in_spec :=
  match a, b with
  | InAll _, InAll _ => Ok a
  | InAtLeast _ m, InAtLeast _ n => Ok (if n <=? m then a else b)
  | _, _ =>
      let countA := summableCount a in
      let countB := summableCount b in
      if negb (countA =? -1) && negb (countB =? -1) then map_err InFactory (exactly (countA + countB) (in_place a))
      else Err (InputCollision s a b)
  end.

Fixpoint normalize_loop (seamOf : jsstr → seam) (arcs : list in_spec) (byPlace : list (jsstr * in_spec)) (collided : bool)
    : result compose_error (list (jsstr * in_spec) * bool) :=
  match arcs with
  | [] => Ok (byPlace, collided)
  | arc :: arcs =>
      let name := place_name (in_place arc) in
      match map_get name byPlace with
      | None => normalize_loop seamOf arcs (map_set name arc byPlace) collided
      | Some prior => let* merged := mergeInPair prior arc (seamOf name) in normalize_loop seamOf arcs (map_set name merged byPlace) true
      end
  end.
Definition normalizeInputArcs (seamOf : jsstr → seam) (arcs : list in_spec) : result compose_error (list in_spec) :=
  if (length arcs <? 2)%nat then Ok arcs
  else let* r := normalize_loop seamOf arcs [] false in Ok (if r.2 then r.1.*2 else arcs).

(** ** Rebuilding a transition *)

Definition rebuild_as (b : builder V) : result compose_error (transition V) := map_err (BuildFailed (b_name V b)) (build b).

Definition rebuildWithName t (name : jsstr) remap (normalizeInputs : option (jsstr → seam)) : result compose_error (transition V) :=
  let b := with_alias (buildPlaceAlias t remap) (with_priority (priority t) (with_timing (t_timing t) (builder_new name))) in
  let* inputs := res_map (rewriteIn remap) (inputSpecs t) in
  let* inputs := match normalizeInputs with Some seamOf => normalizeInputArcs seamOf inputs | None => Ok inputs end in
  let* output := match outputSpec t with Some o => let* o := rewriteOut remap o in Ok (Some o) | None => Ok None end in
  let b := with_output_of output (with_inputs inputs b) in
  let b := with_resets (remap_place remap <$> resets t) (with_reads (remap_place remap <$> reads t)
             (with_inhibitors (remap_place remap <$> inhibitors t) b)) in
  rebuild_as (match t_matchSpec t with
              | Some ms => with_match (remap_key remap <$> ms_keys ms) (Some (remap_key remap <$> ms_relays ms)) b
              | None => b
              end).

Definition slash : jsstr := js "/".
Definition prefixed (prefix name : jsstr) : jsstr := prefix ++ slash ++ name.
Definition renamePlace (prefix : jsstr) (orig : place) : alloc place := r ← fresh; mret (mk_place r (prefixed prefix (place_name orig))).

Definition rewriteTransition (prefix : jsstr) remap (o : tobj) : alloc tobj :=
  t ← lift (rebuildWithName (o_t o) (prefixed prefix (o_name o)) remap None); new_tobj t (o_action o).
Definition substitutePlaces remap (o : tobj) : alloc tobj :=
  t ← lift (rebuildWithName (o_t o) (o_name o) remap None); new_tobj t (o_action o).

(** ** Fusion *)

Definition fusionTouchesInputs remap t : bool :=
  if bool_decide (length remap = 0)%nat then false
  else existsb (λ s, bool_decide (is_Some (map_get (place_name (in_place s)) remap))) (inputSpecs t).
Definition fuse_transition (seamOf : jsstr → seam) remap (o : tobj) : alloc tobj :=
  t ← lift (rebuildWithName (o_t o) (o_name o) remap (if fusionTouchesInputs remap (o_t o) then Some seamOf else None)); new_tobj t (o_action o).
Definition applyFusion (seamOf : jsstr → seam) remap (ts : list tobj) : alloc (list tobj) := mapM (fuse_transition seamOf remap) ts.

(** ** Merging a channel's transition with the caller's *)

Definition mergeTimings (channel : jsstr) (caller instance : timing) : result compose_error timing :=
  match caller, instance with
  | TimingImmediate, TimingImmediate => Ok immediate
  | TimingImmediate, _ => Ok instance
  | _, TimingImmediate => Ok caller
  | _, _ => if decide (caller = instance) then Ok caller else Err (TimingConflict channel caller instance)
  end.
Definition pickPriority (caller instance : Z) : Z := caller.
Definition composeActions (caller instance : action) : alloc action :=
  if isPassthrough caller && isPassthrough instance then mret Passthrough
  else if isPassthrough caller then mret instance
  else if isPassthrough instance then mret caller
  else r ← fresh; mret (Then r caller instance).
Definition mergeMatchSpecs (channel : jsstr) (caller instance : option (match_spec V)) : result compose_error (option (match_spec V)) :=
  match caller, instance with
  | None, _ => Ok instance
  | _, None => Ok caller
  | Some _, Some _ => Err (MatchConflict channel)
  end.

Definition merge_alias_entry (channel : jsstr) (r : result compose_error (list (jsstr * place))) (y : jsstr * place) : result compose_error (list (jsstr * place)) :=
  let* merged := r in
  let '(declared, actual) := y in
  match map_get declared merged with
  | Some existing =>
      if bool_decide (place_name existing = place_name actual) then Ok (map_set declared actual merged)
      else if bool_decide (place_name existing = declared) then Ok (map_set declared actual merged)
      else if bool_decide (place_name actual = declared) then Ok merged
      else Err (AliasConflict channel declared (place_name existing) (place_name actual))
  | None => Ok (map_set declared actual merged)
  end.
Definition mergePlaceAlias (channel : jsstr) (caller instance : list (jsstr * place)) : result compose_error (list (jsstr * place)) :=
  if bool_decide (length caller = 0)%nat then Ok instance
  else if bool_decide (length instance = 0)%nat then Ok caller
  else foldl (merge_alias_entry channel) (Ok caller) instance.

Definition mergeOutputs (caller instance : option out) : result compose_error (option out) :=
  match caller, instance with
  | None, _ => Ok instance
  | _, None => Ok caller
  | Some c, Some i => map_err OutFactory (let* o := and_ [c; i] in Ok (Some o))
  end.

(** Inhibitor, read and reset arcs: the key of an arc is its kind and its place's name. *)
Definition union_arc (seen : list (jsstr * place)) (p : place) : list (jsstr * place) :=
  match map_get (place_name p) seen with Some _ => seen | None => map_set (place_name p) p seen end.
Definition unionArcs (caller instance : list place) : list place := (foldl union_arc (foldl union_arc [] caller) instance).*2.

Definition add_sort (k : arc_sort) (kinds : list (jsstr * list arc_sort)) (name : jsstr) : list (jsstr * list arc_sort) :=
  map_set name (set_add k (default [] (map_get name kinds))) kinds.
Definition arcKindsByPlace t : list (jsstr * list arc_sort) :=
  let kinds := foldl (add_sort SortInput) [] (input_names (inputSpecs t)) in
  let kinds := foldl (add_sort SortInhibitor) kinds (place_name <$> inhibitors t) in
  let kinds := foldl (add_sort SortRead) kinds (place_name <$> reads t) in
  foldl (add_sort SortReset) kinds (place_name <$> resets t).
Definition sameKindSet (a b : list arc_sort) : bool := bool_decide (length a = length b)%nat && forallb (λ k, bool_decide (k ∈ b)) a.
Definition rejectCrossSideKindConflicts (channel : jsstr) (caller instance : transition V) : result compose_error () :=
  let callerKinds := arcKindsByPlace caller in
  if bool_decide (length callerKinds = 0)%nat then Ok ()
  else res_iter (λ y, match map_get y.1 callerKinds with
                      | Some callerSet => throw_if (negb (sameKindSet callerSet y.2)) (ArcKindConflict channel y.1 callerSet y.2)
                      | None => Ok ()
                      end) (arcKindsByPlace instance).

(** The record of the merged transition. *)
Definition merge_records (channel : jsstr) (caller instance : transition V) : result compose_error (transition V) :=
  let* ti := mergeTimings channel (t_timing caller) (t_timing instance) in
  let* ms := mergeMatchSpecs channel (t_matchSpec caller) (t_matchSpec instance) in
  let* alias := mergePlaceAlias channel (placeAlias caller) (placeAlias instance) in
  do* rejectCrossSideKindConflicts channel caller instance;
  let* inputs := normalizeInputArcs (λ _, SeamChannel channel) (inputSpecs caller ++ inputSpecs instance) in
  let* output := mergeOutputs (outputSpec caller) (outputSpec instance) in
  let b := with_priority (pickPriority (priority caller) (priority instance)) (with_timing ti (builder_new channel)) in
  let b := with_output_of output (with_inputs inputs b) in
  let b := with_inhibitors (unionArcs (inhibitors caller) (inhibitors instance)) b in
  let b := with_resets (unionArcs (resets caller) (resets instance)) (with_reads (unionArcs (reads caller) (reads instance)) b) in
  rebuild_as (with_alias alias (with_match_of ms b)).
Definition mergeTransitions (caller instance : tobj) (mergedName : jsstr) : alloc tobj :=
  _ ← lift (throw_if (bool_decide (length mergedName = 0)%nat) EmptyMergedName);
  t ← lift (merge_records mergedName (o_t caller) (o_t instance));
  a ← composeActions (o_action caller) (o_action instance);
  new_tobj t a.
End Rewriter.
Arguments action : clear implicits. Arguments tobj : clear implicits.
