(* ===== verification/NetComposer.v ===== *)
(** * Nets with their transition objects; the builder with fusion sets and composed subnets

    The part of [src/typescript/src/core/petri-net.ts] that [PetriNet] leaves out, with
    [src/typescript/src/core/fusion-set.ts], [internal/terminal-check.ts] and [renameNet] of
    [internal/subnet-rewriter.ts]: nets that carry their transition objects and subnet membership,
    the resolver of actions, fusion at build, retired ports and [subnetOf]. The cache of [subnetOf]
    is not modelled. *)
From S2P Require Import Prelude.
From S2P Require Import Net.
From S2P Require Import Out.
From S2P Require Import OutSpec.
From S2P Require Import Transition.
From S2P Require Import PetriNet.
From S2P Require Import SubnetRewriter.

(** ** Fusion sets *)

(** A fusion set object; the first member is the canonical one. *)
Record fusion_set := FusionSet { fs_ref : nat; fs_name : jsstr; fs_first : place; fs_rest : list place }.
Definition fs_members (s : fusion_set) : list place := fs_first s :: fs_rest s.
Definition canonical (s : fusion_set) : place := fs_first s.
Definition nonCanonical (s : fusion_set) : list place := fs_rest s.
Definition fusion_of (name : jsstr) (first : place) (rest : list place) : alloc fusion_set := r ← fresh; mret (FusionSet r name first rest).

(** The fluent builder: a name and the members so far. *)
Definition fusion_builder (name : jsstr) : result compose_error (jsstr * list place) :=
  if bool_decide (length name = 0) then Err FusionUnnamed else Ok (name, []).
Definition fusion_member (p : place) (b : jsstr * list place) : jsstr * list place := (b.1, b.2 ++ [p]).
Definition fusion_build (b : jsstr * list place) : alloc fusion_set :=
  match b.2 with [] => lift (Err (FusionEmpty b.1)) | p :: rest => fusion_of b.1 p rest end.

(** ** Nets *)

Section NetComposer.
Context {V A : Type} `{EqDecision A}.

Record net_obj := NetObj {
  n_name : jsstr;
  n_places : list place;
  n_transitions : list (tobj V A);
  n_subnetMembership : list (jsstr * jsstr);
  n_terminals : list place
}.
(** The net the engines see. *)
Definition net_of (n : net_obj) : petri_net V := PetriNet (n_name n) (n_places n) (o_t <$> n_transitions n) (n_terminals n).

Implicit Types (n : net_obj) (t : transition V).

(** *** Actions *)

Definition rebuildWithAction (o : tobj V A) (a : action A) : alloc (tobj V A) :=
  let t := o_t o in
  let b := with_alias (placeAlias t) (with_priority (priority t) (with_timing (t_timing t) (builder_new (t_name t)))) in
  let b := with_inhibitors (inhibitors t) (with_output_of (outputSpec t) (with_inputs (inputSpecs t) b)) in
  t ← lift (rebuild_as (with_match_of (t_matchSpec t) (with_resets (resets t) (with_reads (reads t) b)))); new_tobj t a.
Definition bind_action (resolver : jsstr → option (action A)) (o : tobj V A) : alloc (tobj V A) :=
  match resolver (o_name o) with
  | Some a => if decide (a = o_action o) then mret o else rebuildWithAction o a
  | None => mret o
  end.
Definition bindActionsWithResolver (resolver : jsstr → option (action A)) n : alloc net_obj :=
  ts ← mapM (bind_action resolver) (n_transitions n);
  mret (NetObj (n_name n) (n_places n) ts (n_subnetMembership n) (n_terminals n)).
Definition bindActions (bindings : list (jsstr * action A)) n : alloc net_obj :=
  bindActionsWithResolver (λ name, Some (default Passthrough (map_get name bindings))) n.

(** *** Which subnet a node belongs to *)

(** The positions of ['/'] after the first character. *)
Definition slash_positions (s : jsstr) : list nat := filter (λ i, s !! i = Some 47%Z) (seq 1 (length s - 1)).
Definition transition_prefixes (ts : list (tobj V A)) : list jsstr := o ← ts; (λ i, take i (o_name o)) <$> slash_positions (o_name o).
Definition subnetOf n (name : jsstr) : option jsstr :=
  if bool_decide (name ∈ (place_name <$> n_places n) ++ (o_name <$> n_transitions n)) then
    match map_get name (n_subnetMembership n) with
    | Some owner => Some owner
    | None => js_find (λ prefix, bool_decide (prefix ∈ transition_prefixes (n_transitions n))) ((λ i, take i name) <$> reverse (slash_positions name))
    end
  else None.

(** ** The builder *)

Record retired_port := RetiredPort { rp_port : jsstr; rp_instance : jsstr; rp_host : jsstr }.

Record host_builder := HostBuilder {
  hb_name : jsstr;
  hb_places : list place;
  hb_transitions : list (tobj V A);
  hb_fusionSets : list fusion_set;
  hb_contributions : list (jsstr * list jsstr);
  hb_terminals : list (jsstr * place);
  hb_retiredPorts : list (jsstr * retired_port)
}.
Implicit Types (b : host_builder).

Definition hb_new (name : jsstr) : host_builder := HostBuilder name [] [] [] [] [] [].

Definition hb_place (p : place) b : host_builder :=
  HostBuilder (hb_name b) (set_add p (hb_places b)) (hb_transitions b) (hb_fusionSets b) (hb_contributions b) (hb_terminals b) (hb_retiredPorts b).
Definition hb_terminal (p : place) b : host_builder :=
  HostBuilder (hb_name b) (set_add p (hb_places b)) (hb_transitions b) (hb_fusionSets b) (hb_contributions b)
    (match map_get (place_name p) (hb_terminals b) with Some _ => hb_terminals b | None => map_set (place_name p) p (hb_terminals b) end)
    (hb_retiredPorts b).
Definition hb_transition (o : tobj V A) b : host_builder :=
  HostBuilder (hb_name b) (set_union (hb_places b) (arc_places (o_t o)))
    (if decide (o_ref o ∈ o_ref <$> hb_transitions b) then hb_transitions b else hb_transitions b ++ [o])
    (hb_fusionSets b) (hb_contributions b) (hb_terminals b) (hb_retiredPorts b).
(** [_transitions.delete(t)] *)
Definition hb_delete (o : tobj V A) b : host_builder :=
  HostBuilder (hb_name b) (hb_places b) (filter (λ x, o_ref x ≠ o_ref o) (hb_transitions b)) (hb_fusionSets b) (hb_contributions b) (hb_terminals b) (hb_retiredPorts b).
Definition hb_fuse (sets : list fusion_set) b : host_builder :=
  HostBuilder (hb_name b) (hb_places b) (hb_transitions b) (hb_fusionSets b ++ sets) (hb_contributions b) (hb_terminals b) (hb_retiredPorts b).
(** The callback overload: the declarer registers members in order. *)
Definition hb_fuse_members (members : list place) b : alloc host_builder :=
  fb ← lift (fusion_builder (hb_name b ++ js "-fusion"));
  s ← fusion_build (foldl (λ fb p, fusion_member p fb) fb members);
  mret (hb_fuse [s] b).
Definition recordContribution (node subnet : jsstr) b : host_builder :=
  HostBuilder (hb_name b) (hb_places b) (hb_transitions b) (hb_fusionSets b)
    (map_set node (set_add subnet (default [] (map_get node (hb_contributions b)))) (hb_contributions b)) (hb_terminals b) (hb_retiredPorts b).
Definition hb_retire (port_place : jsstr) (r : retired_port) b : host_builder :=
  HostBuilder (hb_name b) (hb_places b) (hb_transitions b) (hb_fusionSets b) (hb_contributions b) (hb_terminals b) (map_set port_place r (hb_retiredPorts b)).

(** *** Build *)

Definition resolveSubnetMembership b : list (jsstr * jsstr) :=
  omap (λ y, match y.2 with [owner] => Some (y.1, owner) | _ => None end) (hb_contributions b).
Definition filterFusedMembership (membership : list (jsstr * jsstr)) (nonCanonicalNames : list jsstr) : list (jsstr * jsstr) :=
  if bool_decide (length membership = 0) || bool_decide (length nonCanonicalNames = 0) then membership
  else filter (λ y, y.1 ∉ nonCanonicalNames) membership.

Definition rejectBoundPortReferences (retired : list (jsstr * retired_port)) (ts : list (tobj V A)) : result compose_error () :=
  if bool_decide (length retired = 0) then Ok ()
  else
    let check (p : place) := match map_get (place_name p) retired with
      | Some r => Err (RetiredPortNamed (place_name p) (rp_port r) (rp_instance r) (rp_host r))
      | None => Ok ()
      end in
    res_iter (λ o, res_iter check ((in_place <$> inputSpecs (o_t o)) ++ outputPlaces (o_t o) ++ reads (o_t o) ++ inhibitors (o_t o) ++ resets (o_t o))) ts.

(** Which set owns each member's name. *)
Definition claim_member (s : fusion_set) (r : result compose_error (list (jsstr * fusion_set))) (p : place) : result compose_error (list (jsstr * fusion_set)) :=
  let* ownership := r in
  do* match map_get (place_name p) ownership with
      | Some prior => throw_if (negb (bool_decide (fs_ref prior = fs_ref s))) (FusionOverlap (place_name p) (fs_name prior) (fs_name s))
      | None => Ok ()
      end;
  Ok (map_set (place_name p) s ownership).
Definition fusion_ownership (sets : list fusion_set) : result compose_error (list (jsstr * fusion_set)) :=
  foldl (λ r s, foldl (claim_member s) r (fs_members s)) (Ok []) sets.
Definition fusion_map (sets : list fusion_set) : list (jsstr * place) :=
  foldl (λ m s, foldl (λ m p, map_set (place_name p) (canonical s) m) m (nonCanonical s)) [] sets.
Definition nonCanonicalNames (sets : list fusion_set) : list jsstr := set_of (s ← sets; place_name <$> nonCanonical s).

(** The terminals after fusion, by name, with the places they add. *)
Definition fused_terminals (fusionMap : list (jsstr * place)) (terminals : list (jsstr * place)) : list (jsstr * place) :=
  foldl (λ byName y, let c := remap_place fusionMap y.2 in
                     match map_get (place_name c) byName with Some _ => byName | None => map_set (place_name c) c byName end) [] terminals.

Definition buildWithFusion (membership : list (jsstr * jsstr)) b : alloc net_obj :=
  let sets := hb_fusionSets b in
  ownership ← lift (fusion_ownership sets);
  let fusionMap := fusion_map sets in
  let gone := nonCanonicalNames sets in
  let seamOf name := SeamFusion (match map_get name ownership with Some s => fs_name s | None => name end) in
  ts ← applyFusion seamOf fusionMap (hb_transitions b);
  _ ← lift (rejectBoundPortReferences (hb_retiredPorts b) ts);
  let places := set_union (filter (λ p, place_name p ∉ gone) (hb_places b)) (o ← ts; arc_places (o_t o)) in
  let places := set_union places ((λ y, remap_place fusionMap y.2) <$> hb_terminals b) in
  let terminals := (fused_terminals fusionMap (hb_terminals b)).*2 in
  _ ← lift (map_err NetFailed (requireWellFormedTerminals terminals (o_t <$> ts)));
  mret (NetObj (hb_name b) places ts (filterFusedMembership membership gone) terminals).

Definition hb_build b : alloc net_obj :=
  let membership := resolveSubnetMembership b in
  if bool_decide (length (hb_fusionSets b) = 0) then
    _ ← lift (rejectBoundPortReferences (hb_retiredPorts b) (hb_transitions b));
    let terminals := (hb_terminals b).*2 in
    _ ← lift (map_err NetFailed (requireWellFormedTerminals terminals (o_t <$> hb_transitions b)));
    mret (NetObj (hb_name b) (hb_places b) (hb_transitions b) membership terminals)
  else buildWithFusion membership b.

(** ** Renaming a net *)

Definition rejectSubnetTerminals n (subnet operation : jsstr) : result compose_error () :=
  throw_if (negb (bool_decide (length (n_terminals n) = 0))) (SubnetTerminals operation subnet (place_name <$> n_terminals n)).

(** Every place of the body under its prefixed name, keyed by the name it had. *)
Fixpoint rename_places (prefix : jsstr) (ps : list place) (remap : list (jsstr * place)) : alloc (list (jsstr * place)) :=
  match ps with
  | [] => mret remap
  | p :: ps => q ← renamePlace prefix p; rename_places prefix ps (map_set (place_name p) q remap)
  end.
Fixpoint rename_transitions (prefix : jsstr) (remap : list (jsstr * place)) (ts : list (tobj V A)) (transitions : list (jsstr * tobj V A)) b
    : alloc (list (jsstr * tobj V A) * host_builder) :=
  match ts with
  | [] => mret (transitions, b)
  | o :: ts => o' ← rewriteTransition prefix remap o; rename_transitions prefix remap ts (map_set (o_name o) o' transitions) (hb_transition o' b)
  end.
(** The renamed net, with the place and transition remaps. *)
Definition renameNet (body : net_obj) (prefix : jsstr) : alloc (net_obj * list (jsstr * place) * list (jsstr * tobj V A)) :=
  _ ← lift (rejectSubnetTerminals body (n_name body) (js "SubnetDef.instantiate"));
  placeRemap ← rename_places prefix (n_places body) [];
  r ← rename_transitions prefix placeRemap (n_transitions body) [] (foldl (λ b y, hb_place y.2 b) (hb_new (prefixed prefix (n_name body))) placeRemap);
  renamed ← hb_build r.2;
  mret (renamed, placeRemap, r.1).
End NetComposer.
Arguments net_obj : clear implicits. Arguments host_builder : clear implicits.
