(* ===== verification/Subnet.v ===== *)
(** * Subnets: interfaces, definitions, instances and their composition into a net

    [src/typescript/src/core/]: [interface.ts], [subnet-def.ts], [instance.ts],
    [compose-bindings.ts] and the four forms of [compose] of [petri-net.ts]. The parameters of an
    instance are host data and have no field. The verification of a definition is modelled up to
    the synthetic net and its environment places; running the verifier on it is not modelled. *)
From S2P Require Import Prelude.
From S2P Require Import CodePoints.
From S2P Require Import Net.
From S2P Require Import Out.
From S2P Require Import OutSpec.
From S2P Require Import Transition.
From S2P Require Import PetriNet.
From S2P Require Import SubnetRewriter.
From S2P Require Import NetComposer.

Section Subnet.
Context {V A : Type} `{EqDecision A}.

(** ** Interfaces *)

Inductive port_direction := DirInput | DirOutput | DirInout.
Record port := Port { port_name : jsstr; port_direction_of : port_direction; port_place : place }.
Record channel := Channel { ch_name : jsstr; ch_transition : tobj V A }.
Record interface := Interface { if_ports : list (jsstr * port); if_channels : list (jsstr * channel) }.

Definition ib_new : interface := Interface [] [].
Definition ib_port (p : port) (i : interface) : result compose_error interface :=
  do* throw_if (bool_decide (is_Some (map_get (port_name p) (if_ports i)))) (DuplicatePort (port_name p));
  Ok (Interface (map_set (port_name p) p (if_ports i)) (if_channels i)).
Definition ib_channel (c : channel) (i : interface) : result compose_error interface :=
  do* throw_if (bool_decide (is_Some (map_get (ch_name c) (if_channels i)))) (DuplicateChannel (ch_name c));
  Ok (Interface (if_ports i) (map_set (ch_name c) c (if_channels i))).
Definition portsAll (ps : list port) (i : interface) : result compose_error interface := foldl (λ r p, let* i := r in ib_port p i) (Ok i) ps.
Definition channelsAll (cs : list channel) (i : interface) : result compose_error interface := foldl (λ r c, let* i := r in ib_channel c i) (Ok i) cs.
Definition interface_build (ps : list port) (cs : list channel) : result compose_error interface := let* i := portsAll ps ib_new in channelsAll cs i.
Definition placeAs (name : jsstr) (i : interface) : option place := port_place <$> map_get name (if_ports i).

(** ** Definitions *)

Record subnet_def := SubnetDef { sd_name : jsstr; sd_body : net_obj V A; sd_iface : interface }.

(** The checks [fromNet] and the builder share: unique names, places by name, transitions by identity. *)
Fixpoint check_ports (body : net_obj V A) (seen : list jsstr) (ps : list port) : result compose_error () :=
  match ps with
  | [] => Ok ()
  | p :: ps =>
      do* throw_if (bool_decide (port_name p ∈ seen)) (DuplicatePort (port_name p));
      do* throw_if (bool_decide (place_name (port_place p) ∉ place_name <$> n_places body)) (PortNotInBody (port_name p) (place_name (port_place p)));
      check_ports body (set_add (port_name p) seen) ps
  end.
Fixpoint check_channels (body : net_obj V A) (seen : list jsstr) (cs : list channel) : result compose_error () :=
  match cs with
  | [] => Ok ()
  | c :: cs =>
      do* throw_if (bool_decide (ch_name c ∈ seen)) (DuplicateChannel (ch_name c));
      do* throw_if (bool_decide (o_ref (ch_transition c) ∉ o_ref <$> n_transitions body)) (ChannelNotInBody (ch_name c) (o_name (ch_transition c)));
      check_channels body (set_add (ch_name c) seen) cs
  end.
Definition fromNet (net : net_obj V A) (iface : interface) : result compose_error subnet_def :=
  do* check_ports net [] (if_ports iface).*2;
  do* check_channels net [] (if_channels iface).*2;
  Ok (SubnetDef (n_name net) net iface).

(** The fluent builder of a definition: its body builder, ports and channels. *)
Record subnet_builder := SubnetBuilder { sb_body : host_builder V A; sb_ports : list port; sb_channels : list channel }.
Definition sb_new (name : jsstr) : subnet_builder := SubnetBuilder (hb_new name) [] [].
Definition sb_transition (o : tobj V A) (b : subnet_builder) : subnet_builder := SubnetBuilder (hb_transition o (sb_body b)) (sb_ports b) (sb_channels b).
Definition sb_place (p : place) (b : subnet_builder) : subnet_builder := SubnetBuilder (hb_place p (sb_body b)) (sb_ports b) (sb_channels b).
Definition sb_port (p : port) (b : subnet_builder) : subnet_builder := SubnetBuilder (sb_body b) (sb_ports b ++ [p]) (sb_channels b).
Definition sb_channel (c : channel) (b : subnet_builder) : subnet_builder := SubnetBuilder (sb_body b) (sb_ports b) (sb_channels b ++ [c]).
Definition subnet_build (b : subnet_builder) : alloc subnet_def :=
  built ← hb_build (sb_body b);
  _ ← lift (check_ports built [] (sb_ports b));
  _ ← lift (check_channels built [] (sb_channels b));
  iface ← lift (interface_build (sb_ports b) (sb_channels b));
  mret (SubnetDef (hb_name (sb_body b)) built iface).

(** The same definition over a net with rebuilt transitions of the same names. *)
Definition transitions_by_name (net : net_obj V A) : list (jsstr * tobj V A) := foldl (λ m o, map_set (o_name o) o m) [] (n_transitions net).
Definition repoint (byName : list (jsstr * tobj V A)) (c : channel) : result compose_error channel :=
  match map_get (o_name (ch_transition c)) byName with
  | Some o => Ok (Channel (ch_name c) o)
  | None => Err (ChannelNotInBody (ch_name c) (o_name (ch_transition c)))
  end.
Definition withBody (body : net_obj V A) (def : subnet_def) : result compose_error subnet_def :=
  let* channels := res_map (repoint (transitions_by_name body)) (if_channels (sd_iface def)).*2 in
  let* iface := interface_build (if_ports (sd_iface def)).*2 channels in
  Ok (SubnetDef (sd_name def) body iface).
Definition def_bindActions (bindings : list (jsstr * action A)) (def : subnet_def) : alloc subnet_def :=
  body ← bindActions bindings (sd_body def); lift (withBody body def).
Definition def_bindActionsWithResolver (resolver : jsstr → option (action A)) (def : subnet_def) : alloc subnet_def :=
  body ← bindActionsWithResolver resolver (sd_body def); lift (withBody body def).

(** ** Instances *)

Record instance := Instance {
  in_prefix : jsstr;
  in_def : subnet_def;
  in_renamedBody : net_obj V A;
  in_portHandles : list (jsstr * place);
  in_channelHandles : list (jsstr * tobj V A)
}.

Definition validatePrefix (prefix : jsstr) : result compose_error () :=
  do* throw_if (bool_decide (length prefix = 0)) (BadPrefix prefix);
  throw_if (bool_decide (47%Z ∈ prefix)) (BadPrefix prefix).

Definition port_handle (placeRemap : list (jsstr * place)) (p : port) : result compose_error (jsstr * place) :=
  match map_get (place_name (port_place p)) placeRemap with
  | Some renamed => Ok (port_name p, renamed)
  | None => Err (PortNotInBody (port_name p) (place_name (port_place p)))
  end.
Definition channel_handle (transitionRemap : list (jsstr * tobj V A)) (c : channel) : result compose_error (jsstr * tobj V A) :=
  match map_get (o_name (ch_transition c)) transitionRemap with
  | Some renamed => Ok (ch_name c, renamed)
  | None => Err (ChannelNotInBody (ch_name c) (o_name (ch_transition c)))
  end.
Definition instantiate (prefix : jsstr) (def : subnet_def) : alloc instance :=
  _ ← lift (validatePrefix prefix);
  r ← renameNet (sd_body def) prefix;
  let '(renamedBody, placeRemap, transitionRemap) := r : net_obj V A * list (jsstr * place) * list (jsstr * tobj V A) in
  portHandles ← lift (res_map (port_handle placeRemap) (if_ports (sd_iface def)).*2);
  channelHandles ← lift (res_map (channel_handle transitionRemap) (if_channels (sd_iface def)).*2);
  mret (Instance prefix def renamedBody portHandles channelHandles).

Definition in_port (name : jsstr) (i : instance) : result compose_error place :=
  match map_get name (in_portHandles i) with Some p => Ok p | None => Err (UnknownPort name) end.
Definition in_channel (name : jsstr) (i : instance) : result compose_error (tobj V A) :=
  match map_get name (in_channelHandles i) with Some o => Ok o | None => Err (UnknownChannel name) end.

(** The debug descriptor: the instance's transitions and its exposed places. *)
Definition descriptor (i : instance) : jsstr * jsstr * list jsstr * list jsstr :=
  (in_prefix i, sd_name (in_def i), o_name <$> n_transitions (in_renamedBody i), place_name <$> (in_portHandles i).*2).

Definition in_bindActions (actions : list (jsstr * action A)) (i : instance) : alloc instance :=
  let names := o_name <$> n_transitions (in_renamedBody i) in
  _ ← lift (res_iter (λ y, throw_if (bool_decide (prefixed (in_prefix i) y.1 ∉ names)) (UnknownTransition y.1)) actions);
  let prefixedByName := foldl (λ m y, map_set (prefixed (in_prefix i) y.1) y.2 m) [] actions in
  let resolver name :=
    match map_get name prefixedByName with
    | Some a => Some a
    | None => o_action <$> js_find (λ o, bool_decide (o_name o = name)) (n_transitions (in_renamedBody i))
    end in
  rebound ← bindActionsWithResolver resolver (in_renamedBody i);
  handles ← lift (res_map (λ y, match map_get (o_name y.2) (transitions_by_name rebound) with
                                | Some o => Ok (y.1, o)
                                | None => Err (ChannelNotInBody y.1 (o_name y.2))
                                end) (in_channelHandles i));
  mret (Instance (in_prefix i) (in_def i) rebound (in_portHandles i) handles).

(** ** Bindings *)

Record compose_bindings := ComposeBindings { cb_ports : list (jsstr * place); cb_channels : list (jsstr * tobj V A) }.
Inductive bind_call := BindPort (name : jsstr) (caller : place) | BindChannel (name : jsstr) (caller : tobj V A).
Definition bind_run (r : result compose_error compose_bindings) (c : bind_call) : result compose_error compose_bindings :=
  let* b := r in
  match c with
  | BindPort name p =>
      do* throw_if (bool_decide (is_Some (map_get name (cb_ports b)))) (PortAlreadyBound name);
      Ok (ComposeBindings (map_set name p (cb_ports b)) (cb_channels b))
  | BindChannel name o =>
      do* throw_if (bool_decide (is_Some (map_get name (cb_channels b)))) (ChannelAlreadyBound name);
      Ok (ComposeBindings (cb_ports b) (map_set name o (cb_channels b)))
  end.

(** ** Composition *)

Implicit Types (b : host_builder V A) (o : tobj V A).

(** The check of one transition before its ports are replaced. *)
Fixpoint port_inputs_collide (prefix : jsstr) (o : tobj V A) (mergeMap : list (jsstr * place)) (portOf : list (jsstr * jsstr))
    (names : list jsstr) (byHost : list (jsstr * jsstr)) : result compose_error () :=
  match names with
  | [] => Ok ()
  | original :: names =>
      let host := from_option place_name original (map_get original mergeMap) in
      match map_get host byHost with
      | Some prior => Err (InputPortsCollide (default prior (map_get prior portOf)) (default original (map_get original portOf)) prefix host (o_name o))
      | None => port_inputs_collide prefix o mergeMap portOf names (map_set host original byHost)
      end
  end.
Definition rejectPortBindingCollision (prefix : jsstr) (o : tobj V A) (mergeMap : list (jsstr * place)) (portOf : list (jsstr * jsstr)) : result compose_error () :=
  do* port_inputs_collide prefix o mergeMap portOf (input_names (inputSpecs (o_t o))) [];
  match outputSpec (o_t o) ≫= duplicateInBranch (λ p, from_option place_name (place_name p) (map_get (place_name p) mergeMap)) with
  | Some d =>
      let first := place_name (bd_first d) in let second := place_name (bd_second d) in
      throw_if (negb (bool_decide (first = second)))
        (OutputPortsCollide (default first (map_get first portOf)) (default second (map_get second portOf)) prefix (bd_name d) (o_name o))
  | None => Ok ()
  end.

(** Step 1: the instance's transitions with the host's places, keyed by name. *)
Fixpoint rewrite_instance (prefix : jsstr) (mergeMap : list (jsstr * place)) (portOf : list (jsstr * jsstr)) (ts : list (tobj V A))
    (rewritten : list (jsstr * tobj V A)) : alloc (list (jsstr * tobj V A)) :=
  match ts with
  | [] => mret rewritten
  | o :: ts =>
      _ ← lift (rejectPortBindingCollision prefix o mergeMap portOf);
      o' ← substitutePlaces mergeMap o;
      rewrite_instance prefix mergeMap portOf ts (map_set (o_name o) o' rewritten)
  end.

(** The port places the composition replaced by another place. *)
Definition retire_ports (i : instance) (mergeMap : list (jsstr * place)) b : host_builder V A :=
  foldl (λ b y,
    match map_get (place_name y.2) mergeMap with
    | Some host =>
        if negb (bool_decide (place_name host = place_name y.2)) && bool_decide (map_get (place_name y.2) (hb_retiredPorts b) = None)
        then hb_retire (place_name y.2) (RetiredPort y.1 (in_prefix i) (place_name host)) b else b
    | None => b
    end) b (in_portHandles i).

(** Step 2: one channel binding. *)
Definition merge_channel (i : instance) (rewritten : list (jsstr * tobj V A)) (name : jsstr) (caller : tobj V A) b
    : alloc (list (jsstr * tobj V A) * host_builder V A) :=
  renamed ← lift (in_channel name i);
  match map_get (o_name renamed) rewritten with
  | None => lift (Err (ChannelNotInBody name (o_name renamed)))
  | Some o =>
      merged ← mergeTransitions caller o (o_name caller);
      mret (filter (λ y, y.1 ≠ o_name renamed) rewritten, hb_transition merged (hb_delete caller b))
  end.
Fixpoint merge_channels (i : instance) (rewritten : list (jsstr * tobj V A)) (bindings : list (jsstr * tobj V A)) b
    : alloc (list (jsstr * tobj V A) * host_builder V A) :=
  match bindings with
  | [] => mret (rewritten, b)
  | (name, caller) :: bindings => r ← merge_channel i rewritten name caller b; merge_channels i r.1 bindings r.2
  end.

Definition applyComposition (i : instance) (mergeMap : list (jsstr * place)) (channelBindings : list (jsstr * tobj V A)) b : alloc (host_builder V A) :=
  _ ← lift (rejectSubnetTerminals (sd_body (in_def i)) (sd_name (in_def i)) (js "compose(Instance)"));
  let portOf := foldl (λ m y, map_set (place_name y.2) y.1 m) [] (in_portHandles i) in
  rewritten ← rewrite_instance (in_prefix i) mergeMap portOf (n_transitions (in_renamedBody i)) [];
  r ← merge_channels i rewritten channelBindings (retire_ports i mergeMap b);
  mret (foldl (λ b y, hb_transition y.2 b) r.2 r.1).

Fixpoint merge_map (i : instance) (portMappings : list (jsstr * place)) (mergeMap : list (jsstr * place)) : result compose_error (list (jsstr * place)) :=
  match portMappings with
  | [] => Ok mergeMap
  | (name, caller) :: portMappings =>
      do* throw_if (bool_decide (map_get name (if_ports (sd_iface (in_def i))) = None)) (UnknownPort name);
      let* p := in_port name i in
      merge_map i portMappings (map_set (place_name p) caller mergeMap)
  end.
Definition composeInternal (i : instance) (portMappings : list (jsstr * place)) (channelBindings : list (jsstr * tobj V A)) b : alloc (host_builder V A) :=
  mergeMap ← lift (merge_map i portMappings []);
  applyComposition i mergeMap channelBindings b.

(** The names of the channels, for the message: sorted by UTF-16 unit. *)
Definition channel_names (i : interface) : list jsstr := stable_sort (λ x y, negb (js_ltb y x)) (ch_name <$> (if_channels i).*2).
Definition by_name (ps : list place) : list (jsstr * place) := foldl (λ m p, map_set (place_name p) p m) [] ps.

Definition composeAuto (i : instance) b : alloc (host_builder V A) :=
  let iface := sd_iface (in_def i) in
  if negb (bool_decide (length (if_channels iface) = 0)) then lift (Err (ChannelsNotBound (sd_name (in_def i)) (channel_names iface)))
  else
    let hostByName := by_name (hb_places b) in
    if negb (bool_decide (length (if_ports iface) = 0)) then
      let portMappings := foldl (λ m p, map_set (port_name p) (remap_place hostByName (port_place p)) m) [] (if_ports iface).*2 in
      composeInternal i portMappings [] b
    else
      let prefix := in_prefix i ++ slash in
      let mergeMap := foldl (λ m p,
        if decide (prefix `prefix_of` place_name p) then
          match map_get (drop (length prefix) (place_name p)) hostByName with
          | Some host => map_set (place_name p) host m
          | None => m
          end
        else m) [] (n_places (in_renamedBody i)) in
      applyComposition i mergeMap [] b.

(** Direct composition: the body under its own names. *)
Definition sanitized (name : jsstr) : jsstr := (λ c, if decide (c = 47%Z) then 95%Z else c) <$> name.
Definition direct_place (hostByName : list (jsstr * place)) (subnet : jsstr) (acc : host_builder V A * list (jsstr * place)) (p : place)
    : host_builder V A * list (jsstr * place) :=
  let host := map_get (place_name p) hostByName in
  (recordContribution (place_name p) subnet (hb_place (default p host) acc.1),
   match host with Some h => map_set (place_name p) h acc.2 | None => acc.2 end).
Fixpoint direct_transitions (mergeMap : list (jsstr * place)) (subnet : jsstr) (ts : list (tobj V A)) b : alloc (host_builder V A) :=
  match ts with
  | [] => mret b
  | o :: ts => o' ← substitutePlaces mergeMap o; direct_transitions mergeMap subnet ts (recordContribution (o_name o) subnet (hb_transition o' b))
  end.
Definition composeDirect (def : subnet_def) b : alloc (host_builder V A) :=
  _ ← lift (rejectSubnetTerminals (sd_body def) (sd_name def) (js "compose(SubnetDef)"));
  _ ← lift (throw_if (negb (bool_decide (length (if_channels (sd_iface def)) = 0))) (ChannelsNotBound (sd_name def) (channel_names (sd_iface def))));
  let names := o_name <$> hb_transitions b in
  _ ← lift (res_iter (λ o, throw_if (bool_decide (o_name o ∈ names)) (TransitionCollision (o_name o) (sd_name def))) (n_transitions (sd_body def)));
  let subnet := sanitized (sd_name def) in
  let r := foldl (direct_place (by_name (hb_places b)) subnet) (b, []) (n_places (sd_body def)) in
  direct_transitions r.2 subnet (n_transitions (sd_body def)) r.1.

(** The forms of [compose]. *)
Inductive compose_form :=
| FormDirect (def : subnet_def)
| FormAuto (i : instance)
| FormMap (i : instance) (ports : list (jsstr * place))
| FormBind (i : instance) (calls : list bind_call).
Definition compose (f : compose_form) b : alloc (host_builder V A) :=
  match f with
  | FormDirect def => composeDirect def b
  | FormAuto i => composeAuto i b
  | FormMap i ports => composeInternal i ports [] b
  | FormBind i calls =>
      bindings ← lift (foldl bind_run (Ok (ComposeBindings [] [])) calls);
      composeInternal i (cb_ports bindings) (cb_channels bindings) b
  end.

(** ** The synthetic net a definition is verified in *)

(** The place a port is bound to. [generators] is the harness's map, with whether the generator
    made a seed. *)
Definition harness_port (generators : list (jsstr * bool)) (p : port) : alloc (place * option jsstr) :=
  let seed := match map_get (port_name p) generators with
    | None => Err (MissingGenerator (port_name p))
    | Some made => throw_if (negb made) (NullSeed (port_name p))
    end in
  match port_direction_of p with
  | DirInput => _ ← lift seed; r ← fresh; let name := js "harness_in_" ++ port_name p in mret (mk_place r name, Some name)
  | DirOutput => r ← fresh; mret (mk_place r (js "harness_out_" ++ port_name p), None)
  | DirInout => _ ← lift seed; r ← fresh; let name := js "harness_io_" ++ port_name p in mret (mk_place r name, Some name)
  end.
Fixpoint harness_ports (generators : list (jsstr * bool)) (ps : list port) (mappings : list (jsstr * place)) (envs : list jsstr)
    : alloc (list (jsstr * place) * list jsstr) :=
  match ps with
  | [] => mret (mappings, envs)
  | p :: ps => r ← harness_port generators p; harness_ports generators ps (map_set (port_name p) r.1 mappings) (envs ++ option_list r.2)
  end.
(** The synthetic net and the names of its environment places. *)
Definition synthetic_net (generators : list (jsstr * bool)) (def : subnet_def) : alloc (net_obj V A * list jsstr) :=
  sut ← instantiate (js "sut") def;
  r ← harness_ports generators (if_ports (sd_iface def)).*2 [] [];
  b ← composeInternal sut r.1 [] (hb_new (js "verify_" ++ sd_name def));
  net ← hb_build b;
  _ ← lift (res_iter (λ o, throw_if (bool_decide (is_Some (outputSpec (o_t o))) && isPassthrough (o_action o)) (PassthroughWithOutput (o_name o))) (n_transitions net));
  mret (net, r.2).
End Subnet.
Arguments port_direction : clear implicits. Arguments channel : clear implicits. Arguments interface : clear implicits.
Arguments subnet_def : clear implicits. Arguments instance : clear implicits. Arguments compose_form : clear implicits. Arguments bind_call : clear implicits.
