(* ===== verification/RewriteExact.v ===== *)
(** * A rewritten transition is the image of the one it was made from

    What [SubnetRewriter.rebuildWithName] answers: the transition with a function applied to every
    place, always when the function keeps the transition's places apart; and the token game of the
    image is that of the original read through the function. *)
From S2P Require Import Prelude.
From S2P Require Import CodePoints.
From S2P Require Import Net.
From S2P Require Import Out.
From S2P Require Import OutSpec.
From S2P Require Import Transition.
From S2P Require Import PetriNet.
From S2P Require Import Context.
From S2P Require Import MarkingState.
From S2P Require Import Outcomes.
From S2P Require Import StateClass.
From S2P Require Import ClassSteps.
From S2P Require Import FlatNet.
From S2P Require Import StubbornSets.
From S2P Require Import StubbornRuns.
From S2P Require Import SubnetRewriter.
#[local] Open Scope Z_scope.

(** ** Images of arcs *)

Definition map_in (f : place → place) (s : in_spec) : in_spec :=
  match s with InOne p => InOne (f p) | InExactly p n => InExactly (f p) n | InAll p => InAll (f p) | InAtLeast p n => InAtLeast (f p) n end.
Fixpoint map_out (f : place → place) (o : out) : out :=
  match o with
  | OutPlace p => OutPlace (f p)
  | OutForwardInput p q => OutForwardInput (f p) (f q)
  | OutAnd cs => OutAnd (map_out f <$> cs)
  | OutXor cs => OutXor (map_out f <$> cs)
  | OutTimeout ms c => OutTimeout ms (map_out f c)
  end.
Definition map_key {V} (f : place → place) (k : match_key V) : match_key V := MatchKey (f (mk_place_of k)) (mk_key k).
Definition map_match {V} (f : place → place) (ms : match_spec V) : match_spec V := MatchSpec (map_key f <$> ms_keys ms) (map_key f <$> ms_relays ms).

(** Every timeout of the specification is one the factory made. *)
Fixpoint timeouts_positive (o : out) : bool :=
  match o with
  | OutPlace _ | OutForwardInput _ _ => true
  | OutAnd cs | OutXor cs => forallb timeouts_positive cs
  | OutTimeout ms c => (0 <? ms) && timeouts_positive c
  end.

Lemma map_in_name f s : in_place (map_in f s) = f (in_place s).
Proof. by destruct s. Qed.
Lemma map_in_required f s : requiredCount (map_in f s) = requiredCount s.
Proof. by destruct s. Qed.
Lemma map_in_take f s n : take_count (map_in f s) n = take_count s n.
Proof. by destruct s. Qed.

Lemma res_map_ok {A B E} (f : A → result E B) (g : A → B) l : (∀ x, x ∈ l → f x = Ok (g x)) → res_map f l = Ok (g <$> l).
Proof.
  induction l as [|x l IH]; intros H; [done|]. cbn [res_map]. rewrite H by left. cbn [res_bind]. rewrite IH; [done|]. intros; apply H; by right.
Qed.
Lemma res_map_inv {A B E} (f : A → result E B) (g : A → B) l l' : (∀ x y, x ∈ l → f x = Ok y → y = g x) → res_map f l = Ok l' → l' = g <$> l.
Proof.
  revert l'. induction l as [|x l IH]; intros l' H Er; cbn [res_map] in Er; [by injection Er as <-|].
  apply res_bind_ok in Er as (y & Ey & Er). apply res_bind_ok in Er as (ys & Eys & [= <-]). rewrite fmap_cons. f_equal; [by apply H; [left|]|].
  apply IH; [|done]. intros; apply H; [by right|done].
Qed.

Section Remap.
Variable remap : list (jsstr * place).
Abbreviation f := (remap_place remap).

Lemma rewriteIn_inv s s' : rewriteIn remap s = Ok s' → s' = map_in f s.
Proof. destruct s; cbn; unfold one, all, exactly, atLeast; try (case_bool; cbn); intros [=]; subst; done. Qed.
Lemma rewriteIn_ok s : 1 <= requiredCount s → rewriteIn remap s = Ok (map_in f s).
Proof. destruct s; cbn; unfold exactly, atLeast; intros; try (case_bool; b2p; [lia|]); done. Qed.

Lemma rewriteOut_inv o o' : rewriteOut remap o = Ok o' → o' = map_out f o.
Proof.
  revert o'. induction o as [cs IH|cs IH|p|ms c IH|p q] using out_ind'; intros o' E; cbn [rewriteOut map_out] in *; try (by injection E as <-).
  1,2: apply res_bind_ok in E as (cs' & Ecs & [= <-]); f_equal; apply (res_map_inv _ (map_out f)) in Ecs; [done|]; rewrite Forall_forall in IH; intros x y Hx Ey; by apply (IH x Hx).
  apply res_bind_ok in E as (c' & Ec & E). unfold timeout_ in E. case_bool; [done|]. injection E as <-. f_equal. by apply IH.
Qed.
Lemma rewriteOut_ok o : timeouts_positive o = true → rewriteOut remap o = Ok (map_out f o).
Proof.
  induction o as [cs IH|cs IH|p|ms c IH|p q] using out_ind'; intros Ht; cbn [rewriteOut map_out timeouts_positive] in *; try done.
  1,2: rewrite forallb_elem in Ht; rewrite Forall_forall in IH; rewrite (res_map_ok _ (map_out f)); [done|]; intros x Hx; by apply IH, Ht.
  apply andb_true_iff in Ht as [Hm Hc]. rewrite (IH Hc). cbn [res_bind]. unfold timeout_. case_bool; b2p; [lia|done].
Qed.
End Remap.

(** ** Images of output specifications *)

Section MapOut.
Variables (f : place → place) (s : jsstr → jsstr).
Hypothesis Hf : ∀ p, place_name (f p) = s (place_name p).

Lemma forallb_fmap {A B} (g : A → B) (P : B → bool) l : forallb P (g <$> l) = forallb (λ x, P (g x)) l.
Proof. induction l as [|x l IH]; [done|]. by rewrite fmap_cons; cbn [forallb]; rewrite IH. Qed.
Lemma existsb_fmap {A B} (g : A → B) (P : B → bool) l : existsb P (g <$> l) = existsb (λ x, P (g x)) l.
Proof. induction l as [|x l IH]; [done|]. by rewrite fmap_cons; cbn [existsb]; rewrite IH. Qed.
Lemma forallb_ext_in {A} (P Q : A → bool) l : Forall (λ x, P x = Q x) l → forallb P l = forallb Q l.
Proof. induction 1 as [|x l H _ IH]; [done|]. cbn [forallb]. by rewrite H, IH. Qed.
Lemma existsb_ext_in {A} (P Q : A → bool) l : Forall (λ x, P x = Q x) l → existsb P l = existsb Q l.
Proof. induction 1 as [|x l H _ IH]; [done|]. cbn [existsb]. by rewrite H, IH. Qed.

Definition map_names (l : list jsstr) : list jsstr := s <$> l.
Lemma product_map (A B : list (list jsstr)) : product (map_names <$> A) (map_names <$> B) = map_names <$> product A B.
Proof.
  unfold product. induction A as [|a A IH]; [done|]. rewrite fmap_cons, !bind_cons, fmap_app, IH. f_equal.
  rewrite <- !list_fmap_compose. apply list_fmap_ext. intros _ b _. cbn. unfold map_names. by rewrite fmap_app.
Qed.

Lemma branches_map o : branches (map_out f o) = map_names <$> branches o.
Proof.
  induction o as [cs IH|cs IH|p|ms c IH|p q] using out_ind'; cbn [branches map_out]; [| |unfold map_names; by rewrite Hf|done|unfold map_names; by rewrite Hf].
  - induction IH as [|c cs Hc _ IHcs]; [done|]. rewrite fmap_cons. cbn [foldr]. by rewrite Hc, IHcs, product_map.
  - induction IH as [|c cs Hc _ IHcs]; [done|]. rewrite fmap_cons. cbn [foldr]. by rewrite Hc, IHcs, fmap_app.
Qed.

Lemma containsXor_map o : containsXor (map_out f o) = containsXor o.
Proof.
  induction o as [cs IH|cs IH|p|ms c IH|p q] using out_ind'; cbn [containsXor map_out]; try done.
  rewrite existsb_fmap. by apply existsb_ext_in.
Qed.
Lemma hasXor_map o : hasXorInTimeoutChild (map_out f o) = hasXorInTimeoutChild o.
Proof.
  induction o as [cs IH|cs IH|p|ms c IH|p q] using out_ind'; cbn [hasXorInTimeoutChild map_out]; try done; [..|by apply containsXor_map];
    rewrite existsb_fmap; by apply existsb_ext_in.
Qed.
Lemma inhabited_map o : inhabited_xors (map_out f o) = inhabited_xors o.
Proof.
  induction o as [cs IH|cs IH|p|ms c IH|p q] using out_ind'; cbn [inhabited_xors map_out]; try done; rewrite forallb_fmap, (forallb_ext_in _ _ _ IH); [done|].
  f_equal. f_equal. by destruct cs.
Qed.
Lemma foldl_add_map (g h : out → Z) cs a : Forall (λ c, g (map_out f c) = h c) cs → foldl (λ n c, n + g c) a (map_out f <$> cs) = foldl (λ n c, n + h c) a cs.
Proof. intros IH. revert a. induction IH as [|c cs Hc _ IHcs]; intros a; [done|]. rewrite fmap_cons. cbn [foldl]. by rewrite Hc, IHcs. Qed.
Lemma countTimeouts_map o : countTimeouts (map_out f o) = countTimeouts o.
Proof. induction o as [cs IH|cs IH|p|ms c IH|p q] using out_ind'; cbn [countTimeouts map_out]; try done; [by apply foldl_add_map..|by rewrite IH]. Qed.
Lemma findForwardInputs_map o : findForwardInputs (map_out f o) = (λ y, (f y.1, f y.2)) <$> findForwardInputs o.
Proof.
  induction o as [cs IH|cs IH|p|ms c IH|p q] using out_ind'; cbn [findForwardInputs map_out]; try done;
    induction IH as [|c cs Hc _ IHcs]; try done; rewrite fmap_cons; cbn [flat_map]; by rewrite fmap_app, Hc, IHcs.
Qed.
Lemma bareForward_map o : bareForwardInput o = None → bareForwardInput (map_out f o) = None.
Proof.
  induction o as [cs IH|cs IH|p|ms c IH|p q] using out_ind'; cbn [bareForwardInput map_out]; try done;
    induction IH as [|c cs Hc _ IHcs]; try done; rewrite fmap_cons; destruct (bareForwardInput c) eqn:E; try done; intros Hn; rewrite Hc by done; by apply IHcs.
Qed.
Lemma findTimeout_map o : findTimeout (map_out f o) = (λ y, (y.1, map_out f y.2)) <$> findTimeout o.
Proof.
  induction o as [cs IH|cs IH|p|ms c IH|p q] using out_ind'; cbn [findTimeout map_out]; try done;
    induction IH as [|c cs Hc _ IHcs]; try done; rewrite fmap_cons, Hc; (destruct (findTimeout c); [done|exact IHcs]).
Qed.
Lemma elem_of_allPlaces_and cs p : p ∈ allPlaces (OutAnd cs) ↔ ∃ c, c ∈ cs ∧ p ∈ allPlaces c.
Proof. unfold allPlaces. cbn [collectPlaces]. rewrite collectPlaces_foldl. split; [intros [?%not_elem_of_nil|?]; done|by right]. Qed.
Lemma elem_of_allPlaces_map o p' : p' ∈ allPlaces (map_out f o) ↔ ∃ p, p' = f p ∧ p ∈ allPlaces o.
Proof.
  assert (∀ cs, Forall (λ c, ∀ p', p' ∈ allPlaces (map_out f c) ↔ ∃ p, p' = f p ∧ p ∈ allPlaces c) cs →
    ∀ p', p' ∈ allPlaces (OutAnd (map_out f <$> cs)) ↔ ∃ p, p' = f p ∧ p ∈ allPlaces (OutAnd cs)) as Hcs.
  { intros cs IH q. rewrite Forall_forall in IH. rewrite elem_of_allPlaces_and. setoid_rewrite elem_of_allPlaces_and. setoid_rewrite list_elem_of_fmap. split.
    - intros (? & (c & -> & Hc) & Hp). apply (IH c Hc) in Hp as (p & -> & Hp). eauto.
    - intros (p & -> & c & Hc & Hp). exists (map_out f c). split; [by exists c|]. apply (IH c Hc). by exists p. }
  revert p'. induction o as [cs IH|cs IH|p|ms c IH|p q] using out_ind'; intros p'; cbn [map_out]; [by apply Hcs|by apply Hcs| |apply IH|];
    unfold allPlaces; cbn [collectPlaces]; setoid_rewrite elem_of_set_add; setoid_rewrite elem_of_nil; naive_solver.
Qed.
End MapOut.

(** ** The image of a transition *)

Section Image.
Context {V : Type}.
Implicit Types (t : transition V).

Record image (f : place → place) (name : jsstr) t t' : Prop := {
  im_name : t_name t' = name;
  im_inputs : inputSpecs t' = map_in f <$> inputSpecs t;
  im_output : outputSpec t' = map_out f <$> outputSpec t;
  im_inhibitors : inhibitors t' = f <$> inhibitors t;
  im_reads : reads t' = f <$> reads t;
  im_resets : resets t' = f <$> resets t;
  im_timing : t_timing t' = t_timing t;
  im_priority : priority t' = priority t;
  im_timeout : actionTimeout t' = outputSpec t' ≫= findTimeout;
  im_match : t_matchSpec t' = map_match f <$> t_matchSpec t
}.

(** A transition some builder made. *)
Definition made t : Prop := ∃ b, build b = Ok t ∧ ∀ o, b_output b = Some o → inhabited_xors o = true.
(** Its timeouts come from the factory. *)
Definition made_timeouts t : Prop := ∀ o, outputSpec t = Some o → timeouts_positive o = true.

Lemma build_is_built (b : builder V) t : build b = Ok t → t = built b.
Proof.
  unfold build. intros H. apply res_bind_ok in H as (? & _ & H). apply res_bind_ok in H as (? & _ & H). apply res_bind_ok in H as (? & _ & H). apply res_bind_ok in H as (? & _ & H).
  by injection H.
Qed.

Lemma map_err_ok {E E' A} (g : E → E') (r : result E A) a : map_err g r = Ok a ↔ r = Ok a.
Proof. destruct r; cbn; split; congruence. Qed.

Lemma rebuild_as_inv (b : builder V) t : rebuild_as b = Ok t → build b = Ok t ∧ t = built b.
Proof. unfold rebuild_as. rewrite map_err_ok. intros H. split; [done|]. by apply build_is_built. Qed.

(** The builder [rebuildWithName] fills, for given inputs and output. *)
Definition rebuild_builder t (name : jsstr) remap (inputs : list in_spec) (output : option out) : builder V :=
  let f := remap_place remap in
  Builder V name inputs output (f <$> inhibitors t) (f <$> reads t) (f <$> resets t) (t_timing t) (priority t) (buildPlaceAlias t remap) (map_match f <$> t_matchSpec t).

Lemma rebuild_inv t name remap norm t' : rebuildWithName t name remap norm = Ok t' → ∃ inputs,
  (match norm with Some seamOf => normalizeInputArcs seamOf (map_in (remap_place remap) <$> inputSpecs t) = Ok inputs
                 | None => inputs = map_in (remap_place remap) <$> inputSpecs t end) ∧
  build (rebuild_builder t name remap inputs (map_out (remap_place remap) <$> outputSpec t)) = Ok t' ∧
  t' = built (rebuild_builder t name remap inputs (map_out (remap_place remap) <$> outputSpec t)).
Proof.
  unfold rebuildWithName. intros H. apply res_bind_ok in H as (inputs0 & E0 & H). apply (res_map_inv _ (map_in (remap_place remap))) in E0; [|intros; by apply rewriteIn_inv]. subst inputs0.
  apply res_bind_ok in H as (inputs & E1 & H). exists inputs. apply res_bind_ok in H as (output & E2 & H).
  assert (output = map_out (remap_place remap) <$> outputSpec t) as ->.
  { destruct (outputSpec t) as [o|]; cbn in *; [|congruence]. apply res_bind_ok in E2 as (o' & Eo & [= <-]). by rewrite (rewriteOut_inv remap o o'). }
  split; [destruct norm; [done|by injection E1 as <-]|]. apply rebuild_as_inv in H.
  assert (∀ b b' : builder V, b = b' → build b = Ok t' ∧ t' = built b → build b' = Ok t' ∧ t' = built b') as Hb by (by intros ? ? ->).
  eapply Hb; [|exact H]. unfold rebuild_builder. destruct (t_matchSpec t), (outputSpec t); reflexivity.
Qed.

Lemma rebuild_image t name remap t' : rebuildWithName t name remap None = Ok t' →
  image (remap_place remap) name t t' ∧ placeAlias t' = buildPlaceAlias t remap ∧ ∃ b, build b = Ok t' ∧ b_output b = outputSpec t'.
Proof.
  intros H. apply rebuild_inv in H as (inputs & -> & Hb & ->). split_and!; [by constructor|done|]. by eexists.
Qed.

(** The names of the places of its arcs. *)
Definition arc_names t : list jsstr := place_name <$> arc_places t.
Definition ren (remap : list (jsstr * place)) (n : jsstr) : jsstr := from_option place_name n (map_get n remap).
Lemma remap_name remap p : place_name (remap_place remap p) = ren remap (place_name p).
Proof. unfold remap_place, ren. by destruct (map_get _ remap). Qed.

Definition injective_on (s : jsstr → jsstr) (l : list jsstr) : Prop := ∀ m n, m ∈ l → n ∈ l → s m = s n → m = n.

Lemma arc_names_input t x : x ∈ input_names (inputSpecs t) → x ∈ arc_names t.
Proof.
  unfold arc_names, arc_places, input_names. rewrite !list_elem_of_fmap. intros (y & -> & Hy). exists (in_place y). split; [done|]. rewrite elem_of_app. left. by apply list_elem_of_fmap_2.
Qed.
Lemma arc_names_output t o n : outputSpec t = Some o → n ∈ universe o → n ∈ arc_names t.
Proof.
  intros Eo Hn. unfold arc_names, arc_places, outputPlaces. rewrite Eo. cbn [from_option].
  apply universe_places in Hn as (p & Hp & <-).
  apply list_elem_of_fmap_2. rewrite !elem_of_app. tauto.
Qed.
End Image.

(** ** Rewriting succeeds when it keeps the places apart *)

Section Total.
Context {V : Type}.
Implicit Types (t : transition V).
Variables (remap : list (jsstr * place)).
Abbreviation f := (remap_place remap).
Abbreviation s := (ren remap).

Lemma NoDup_map_names (l N : list jsstr) : injective_on s N → (∀ x, x ∈ l → x ∈ N) → NoDup l → NoDup (s <$> l).
Proof.
  intros Hi Hl. induction 1 as [|x l Hx Hd IH]; [apply NoDup_nil_2|]. rewrite fmap_cons. apply NoDup_cons. split; [|apply IH; intros; apply Hl; by right].
  intros (y & E & Hy)%list_elem_of_fmap. apply Hx. assert (x = y) as ->; [|done]. apply Hi; [apply Hl; left|apply Hl; by right|done].
Qed.

Lemma input_names_map specs : input_names (map_in f <$> specs) = s <$> input_names specs.
Proof. unfold input_names. rewrite <- !list_fmap_compose. apply list_fmap_ext. intros _ x _. cbn. by rewrite map_in_name, remap_name. Qed.

Lemma inputs_wf_map specs N : injective_on s N → (∀ x, x ∈ input_names specs → x ∈ N) → inputs_wf specs → inputs_wf (map_in f <$> specs).
Proof.
  intros Hi Hn [H1 H2]. split; [rewrite input_names_map; by eapply NoDup_map_names|]. apply Forall_fmap. eapply Forall_impl; [exact H2|]. intros x Hx. cbn. by rewrite map_in_required.
Qed.

Lemma same_set_map (a b N : list jsstr) : injective_on s N → (∀ x, x ∈ a → x ∈ N) → (∀ x, x ∈ b → x ∈ N) → same_set (s <$> a) (s <$> b) = same_set a b.
Proof.
  intros Hi Ha Hb. apply eq_true_iff_eq. rewrite !same_set_iff. split.
  - intros H x. split; intros Hx.
    + destruct (proj1 (list_elem_of_fmap _ _ _) (proj1 (H (s x)) (list_elem_of_fmap_2 s _ _ Hx))) as (y & E & Hy). by rewrite (Hi x y) by auto.
    + destruct (proj1 (list_elem_of_fmap _ _ _) (proj2 (H (s x)) (list_elem_of_fmap_2 s _ _ Hx))) as (y & E & Hy). by rewrite (Hi x y) by auto.
  - intros H x. rewrite !list_elem_of_fmap. naive_solver.
Qed.

Lemma branches_wf_map o N : injective_on s N → (∀ x, x ∈ universe o → x ∈ N) → branches_wf o → branches_wf (map_out f o).
Proof.
  intros Hi Hn [H1 H2]. unfold branches_wf. rewrite (branches_map f s (remap_name remap)). split.
  - intros b (b0 & -> & Hb)%list_elem_of_fmap. eapply NoDup_map_names; [exact Hi| |by apply H1]. intros x Hx. by eapply Hn, branches_universe.
  - intros i j a b Hij Ha Hb. rewrite list_lookup_fmap in Ha, Hb. apply fmap_Some in Ha as (a0 & Ha & ->). apply fmap_Some in Hb as (b0 & Hb & ->).
    unfold map_names. rewrite (same_set_map b0 a0 N Hi); [by apply (H2 i j)|..]; intros x Hx; (eapply Hn, branches_universe; [|exact Hx]; by eapply list_elem_of_lookup_2).
Qed.

Lemma output_wf_map names o N : injective_on s N → (∀ x, x ∈ universe o → x ∈ N) → output_wf names o → output_wf (s <$> names) (map_out f o).
Proof.
  intros Hi Hn (H1 & H2 & H3 & H4 & H5). unfold output_wf. rewrite countTimeouts_map, hasXor_map, findForwardInputs_map.
  split_and!; [by eapply branches_wf_map|done|done|by apply bareForward_map|]. intros p q ([p0 q0] & [= -> ->] & Hin)%list_elem_of_fmap.
  cbn [fst]. rewrite remap_name. apply list_elem_of_fmap_2. by eapply H5.
Qed.

Lemma key_names_map (ks : list (match_key V)) : key_name <$> (map_key f <$> ks) = s <$> (key_name <$> ks).
Proof. rewrite <- !list_fmap_compose. apply list_fmap_ext. intros _ k _. unfold key_name, map_key. cbn. by rewrite remap_name. Qed.

Lemma match_wf_map names output (ms : match_spec V) N : injective_on s N → (∀ x, x ∈ names → x ∈ N) → (∀ o p, output = Some o → p ∈ allPlaces o → place_name p ∈ N) →
  match_wf names output ms → match_wf (s <$> names) (map_out f <$> output) (map_match f ms).
Proof.
  intros Hi Hn Ho (H1 & H2 & H3 & H4). unfold match_wf, map_match. cbn [ms_keys ms_relays]. rewrite !key_names_map. split_and!.
  - eapply NoDup_map_names; [exact Hi| |done]. intros x (k & -> & Hk)%list_elem_of_fmap. by apply Hn, H2.
  - intros k (k0 & -> & Hk)%list_elem_of_fmap. unfold key_name, map_key. cbn. rewrite remap_name. apply list_elem_of_fmap_2. by apply H2.
  - eapply NoDup_map_names; [exact Hi| |done]. intros x (k & -> & Hk)%list_elem_of_fmap. destruct (H4 k Hk) as (o & p & Eo & Hp & <-). by eapply Ho.
  - intros k (k0 & -> & Hk)%list_elem_of_fmap. destruct (H4 k0 Hk) as (o & p & -> & Hp & E). exists (map_out f o), (f p). split_and!; [done|apply elem_of_allPlaces_map; by exists p|].
    unfold key_name, map_key in *. cbn. by rewrite !remap_name, E.
Qed.

Lemma made_builder_wf t : made t → builder_wf (Builder V (t_name t) (inputSpecs t) (outputSpec t) (inhibitors t) (reads t) (resets t) (t_timing t) (priority t) (placeAlias t) (t_matchSpec t)) ∧
  (∀ o, outputSpec t = Some o → inhabited_xors o = true) ∧ actionTimeout t = outputSpec t ≫= findTimeout.
Proof. intros (b & Hb & Hi). apply build_ok in Hb as [Hw ->]; [|done]. split_and!; [|done|done]. destruct b. exact Hw. Qed.

Lemma rebuild_total t name : made t → made_timeouts t → injective_on s (arc_names t) → ∃ t', rebuildWithName t name remap None = Ok t'.
Proof.
  intros Ht Hto Hi. pose proof (made_builder_wf t Ht) as ((Hin & Htim & Hout & Hmatch) & Hinh & _). cbn [b_inputs b_timing b_output b_match] in *.
  unfold rebuildWithName. rewrite (res_map_ok _ (map_in f)).
  2:{ intros x Hx. apply rewriteIn_ok. destruct Hin as [_ Hin]. rewrite Forall_forall in Hin. by apply Hin. }
  cbn [res_bind]. set (out' := match outputSpec t with Some o => _ | None => _ end).
  assert (out' = Ok (map_out f <$> outputSpec t)) as ->. { unfold out'. destruct (outputSpec t) as [o|] eqn:Eo; [|done]. by rewrite rewriteOut_ok by by apply Hto. }
  cbn [res_bind]. set (b := match t_matchSpec t with Some _ => _ | None => _ end).
  assert (b = rebuild_builder t name remap (map_in f <$> inputSpecs t) (map_out f <$> outputSpec t)) as ->.
  { unfold b, rebuild_builder. destruct (t_matchSpec t), (outputSpec t); reflexivity. }
  exists (built (rebuild_builder t name remap (map_in f <$> inputSpecs t) (map_out f <$> outputSpec t))). unfold rebuild_as. apply map_err_ok.
  assert (∀ o x, outputSpec t = Some o → x ∈ universe o → x ∈ arc_names t) as Hu by (intros; by eapply arc_names_output).
  apply build_ok.
  { intros o Eo. cbn in Eo. destruct (outputSpec t) as [o0|] eqn:E0; [|done]. injection Eo as <-. rewrite inhabited_map. by apply Hinh. }
  split; [|done]. unfold builder_wf. cbn [rebuild_builder b_inputs b_timing b_output b_match]. rewrite input_names_map. split_and!; [|done|..].
  - eapply inputs_wf_map; [exact Hi| |done]. intros x. apply arc_names_input.
  - intros o Eo. destruct (outputSpec t) as [o0|] eqn:E0; [|done]. injection Eo as <-. eapply output_wf_map; [exact Hi| |by apply Hout]. intros x. by apply Hu.
  - intros ms Em. destruct (t_matchSpec t) as [ms0|] eqn:E0; [|done]. injection Em as <-. eapply match_wf_map; [exact Hi| | |by apply Hmatch].
    + intros x. apply arc_names_input.
    + intros o p Eo Hp. unfold arc_names. apply list_elem_of_fmap_2. unfold arc_places, outputPlaces. rewrite Eo. cbn [from_option]. rewrite !elem_of_app. tauto.
Qed.
End Total.

(** ** The token game of the image *)

Section Game.
Context {V : Type}.
Implicit Types (t : transition V) (c d : jsstr → Z).
Abbreviation drainedc := (drained_counts [] Ignore).
Abbreviation enabledc := (enabled_counts [] Ignore).
Abbreviation leftc := (intermediate_counts [] Ignore).

(** The tokens a firing may put, by place name. *)
Definition effect t c (put : jsstr → Z) : Prop :=
  match outputSpec t with
  | None => ∀ n, put n = 0
  | Some o => (∃ br, br ∈ branches o ∧ ∀ n, put n = if decide (n ∈ br) then 1 else 0) ∨
      ∃ ms child, actionTimeout t = Some (ms, child) ∧ ∀ n, put n = leaf_total (drainedc t c) t child n
  end.

(** One firing of [t] between counts. *)
Definition fires t c d : Prop := enabledc t c = true ∧ ∃ put, effect t c put ∧ ∀ n, d n = leftc t c n + put n.

Lemma drained_names t c p q : place_name p = place_name q → drainedc t c p = drainedc t c q.
Proof. unfold drained_counts. by intros ->. Qed.

Lemma effect_outcome t c put : made t → effect t c put ↔ ∃ os oc, outcomes t = Ok os ∧ oc ∈ os ∧ ∀ n, put n = deposited (drainedc t c) oc n.
Proof.
  intros (b & Hb & Hi). unfold effect. destruct (outputSpec t) as [o|] eqn:Eo.
  - assert (b_output b = Some o) as Ebo by (by apply build_is_built in Hb as ->).
    destruct (outcomes_total b t o Ebo (Hi o Ebo) Hb) as (os & E & Hlen & _ & Hbr & Hno & Hto). split.
    + intros [(br & [i Hin]%list_elem_of_lookup & Hput)|(ms & child & Et & Hput)].
      * destruct (Hbr i br Hin) as (oc & Eoc & Hd). exists os, oc. split_and!; [done|by eapply list_elem_of_lookup_2|]. intros n. by rewrite Hput, Hd.
      * destruct (Hto ms child Et) as (oc & Hoc & _ & Hd). exists os, oc. split_and!; [done|done|]. intros n. rewrite Hput, Hd; [done|]. apply drained_names.
    + intros (os' & oc & E' & Hoc & Hput). assert (os' = os) as -> by congruence. apply list_elem_of_lookup in Hoc as [i Eoc].
      destruct (branches o !! i) as [br|] eqn:Ebr.
      * left. exists br. split; [by eapply list_elem_of_lookup_2|]. destruct (Hbr i br Ebr) as (oc' & Eoc' & Hd). assert (oc' = oc) as -> by congruence. intros n. by rewrite Hput, Hd.
      * right. apply lookup_ge_None in Ebr. pose proof (lookup_lt_Some _ _ _ Eoc) as Hlt. destruct (actionTimeout t) as [[ms child]|] eqn:Et; [|rewrite (Hno eq_refl) in Hlt; lia].
        exists ms, child. split; [done|]. destruct (Hto ms child eq_refl) as (oc' & _ & Hl & Hd). specialize (Hl ltac:(lia)). rewrite last_lookup in Hl.
        replace (pred (length os)) with i in Hl by lia. assert (oc' = oc) as -> by congruence. intros n. rewrite Hput, Hd; [done|]. apply drained_names.
  - unfold outcomes. rewrite Eo. split.
    + intros Hput. exists [emptyOutcome], emptyOutcome. split_and!; [done|left|]. intros n. by rewrite Hput.
    + intros (os & oc & [= <-] & ->%list_elem_of_singleton & Hput) n. by rewrite Hput.
Qed.

Lemma fires_step (ts : list (transition V)) i t c d : made t → ts !! i = Some t → (∃ o, token_step ts i o c d) ↔ fires t c d.
Proof.
  intros Ht Ei. unfold fires, token_step. split.
  - intros (o & t' & os & Et & En & Eos & Ho & Hd). assert (t' = t) as -> by congruence. split; [done|]. exists (λ n, deposited (drainedc t c) o n).
    split; [apply effect_outcome; [done|]; by exists os, o|done].
  - intros (En & put & (os & o & Eos & Ho & Hput)%effect_outcome & Hd); [|done]. exists o, t, os. split_and!; [done..|]. intros n. by rewrite Hd, Hput.
Qed.

Section Image.
Variables (f : place → place) (s : jsstr → jsstr) (name : jsstr) (t t' : transition V).
Hypothesis Hf : ∀ p, place_name (f p) = s (place_name p).
Hypothesis Himage : image f name t t'.
Hypothesis Hmade : made t.
Hypothesis Hinj : injective_on s (arc_names t).
Abbreviation seen c := (λ n, c (s n)).

Lemma image_enabled c : enabledc t' c = enabledc t (seen c).
Proof.
  unfold enabled_counts. rewrite (im_inputs _ _ _ _ Himage), (im_reads _ _ _ _ Himage), (im_inhibitors _ _ _ _ Himage), !forallb_fmap. f_equal; [f_equal|];
    apply forallb_ext_eq; intros x; unfold can_take; cbn; rewrite ?map_in_name, ?map_in_required, Hf; done.
Qed.

Lemma spec_of_map specs n : (∀ m, m ∈ input_names specs → s m = s n → m = n) →
  js_find (λ x, bool_decide (place_name (in_place x) = s n)) (map_in f <$> specs) = map_in f <$> js_find (λ x, bool_decide (place_name (in_place x) = n)) specs.
Proof.
  intros Hi. unfold js_find. induction specs as [|x specs IH]; [done|]. rewrite fmap_cons. cbn [list_find]. rewrite map_in_name, Hf.
  assert (bool_decide (s (place_name (in_place x)) = s n) = bool_decide (place_name (in_place x) = n)) as ->.
  { apply bool_decide_ext. split; [apply Hi; left|by intros ->]. }
  destruct (bool_decide (place_name (in_place x) = n)) eqn:E; cbn; [rewrite !decide_True by done; done|]. rewrite !decide_False by (by intros []).
  specialize (IH (λ m Hm, Hi m (list_elem_of_further _ _ _ Hm))). destruct (list_find _ (map_in f <$> specs)) as [[]|], (list_find _ specs) as [[]|]; cbn in *; congruence.
Qed.

Lemma image_spec n : n ∈ arc_names t → spec_of t' (s n) = map_in f <$> spec_of t n.
Proof. intros Hn. unfold spec_of. rewrite (im_inputs _ _ _ _ Himage). apply spec_of_map. intros m Hm. apply Hinj; [by apply arc_names_input|done]. Qed.

Lemma image_spec_out n : n ∉ s <$> arc_names t → spec_of t' n = None.
Proof.
  intros Hn. unfold spec_of, js_find. destruct (list_find _ _) as [[k x]|] eqn:E; [|done]. apply list_find_Some in E as (E & Hx%Is_true_true%bool_decide_eq_true & _).
  exfalso. apply Hn. rewrite (im_inputs _ _ _ _ Himage) in E. apply list_elem_of_lookup_2, list_elem_of_fmap in E as (y & -> & Hy). rewrite map_in_name, Hf in Hx. subst n.
  apply list_elem_of_fmap_2, arc_names_input. unfold input_names. by apply (list_elem_of_fmap_2 (λ s, place_name (in_place s))).
Qed.

Lemma arc_names_reset n : n ∈ place_name <$> resets t → n ∈ arc_names t.
Proof. unfold arc_names, arc_places. rewrite !fmap_app, !elem_of_app. tauto. Qed.

Lemma image_left c n : n ∈ arc_names t → leftc t' c (s n) = leftc t (seen c) n.
Proof.
  intros Hn. unfold intermediate_counts, removed. rewrite image_spec by done. rewrite (im_resets _ _ _ _ Himage), <- list_fmap_compose.
  assert (s n ∈ (place_name ∘ f) <$> resets t ↔ n ∈ place_name <$> resets t) as Hr.
  { rewrite !list_elem_of_fmap. split.
    - intros (p & E & Hp). cbn in E. rewrite Hf in E. exists p. split; [|done]. apply Hinj; [done|by apply arc_names_reset, list_elem_of_fmap_2|done].
    - intros (p & -> & Hp). exists p. split; [cbn; by rewrite Hf|done]. }
  rewrite (decide_ext _ _ _ _ Hr). case_decide; [done|]. destruct (spec_of t n) as [x|]; [|done]. cbn. by rewrite map_in_required, map_in_take.
Qed.

Lemma image_left_out c n : n ∉ s <$> arc_names t → leftc t' c n = c n.
Proof.
  intros Hn. unfold intermediate_counts, removed. rewrite image_spec_out by done. rewrite decide_False; [lia|]. rewrite (im_resets _ _ _ _ Himage), <- list_fmap_compose, list_elem_of_fmap.
  intros (p & -> & Hp). apply Hn. cbn. rewrite Hf. by apply list_elem_of_fmap_2, arc_names_reset, list_elem_of_fmap_2.
Qed.

Lemma image_drained c p : place_name p ∈ arc_names t → drainedc t' c (f p) = drainedc t (seen c) p.
Proof.
  intros Hp. unfold drained_counts. rewrite Hf, image_spec by done. destruct (spec_of t (place_name p)) as [x|]; [|done]. cbn. by rewrite map_in_required, map_in_take.
Qed.

Lemma image_forward p c : place_name p ∈ arc_names t →
  depositCount (forwardDeposit t' (f p)) (drainedc t' c) = depositCount (forwardDeposit t p) (drainedc t (seen c)).
Proof.
  intros Hp. unfold forwardDeposit. rewrite (im_inputs _ _ _ _ Himage), Hf, spec_of_map by (intros m Hm; apply Hinj; [by apply arc_names_input|done]).
  destruct (js_find _ (inputSpecs t)) as [x|] eqn:E; [|done]. cbn. unfold js_find in E. destruct (list_find _ _) as [[k y]|] eqn:El; [|done]. injection E as ->.
  apply list_find_Some in El as (El & Hx%Is_true_true%bool_decide_eq_true & _). destruct x as [q|q k'|q|q k']; cbn in *; try done; apply image_drained; by rewrite Hx.
Qed.

Lemma image_leaves o c n : (∀ x, x ∈ universe o → x ∈ arc_names t) → (∀ p q, (p, q) ∈ findForwardInputs o → place_name p ∈ arc_names t) → n ∈ arc_names t →
  leaf_total (drainedc t' c) t' (map_out f o) (s n) = leaf_total (drainedc t (seen c)) t o n.
Proof.
  intros Hu Hfw Hn. induction o as [cs IH|cs IH|p|ms ch IH|p q] using out_ind'; cbn [leaf_total map_out]; [|done| |by apply IH|].
  - rewrite Forall_forall in IH. assert (∀ x, x ∈ cs → leaf_total (drainedc t' c) t' (map_out f x) (s n) = leaf_total (drainedc t (seen c)) t x n) as H.
    { intros x Hx. apply IH; [done| |].
      - intros y Hy. apply Hu, elem_of_universe_and. by exists x.
      - intros p q Hpq. eapply Hfw. cbn [findForwardInputs]. by eapply elem_of_flat_map. }
    clear -H. induction cs as [|x cs IHcs]; [done|]. rewrite fmap_cons. cbn [foldr]. rewrite H by left. rewrite IHcs; [done|]. intros; apply H; by right.
  - rewrite Hf. assert (s (place_name p) = s n ↔ place_name p = n) as E by (split; [apply Hinj; [apply Hu; left|done]|by intros ->]). by rewrite (decide_ext _ _ _ _ E).
  - rewrite Hf. assert (s (place_name q) = s n ↔ place_name q = n) as E by (split; [apply Hinj; [apply Hu; left|done]|by intros ->]). rewrite (decide_ext _ _ _ _ E).
    case_decide; [|done]. apply image_forward. eapply Hfw. left.
Qed.

Lemma image_leaves_out o c n : (∀ x, x ∈ universe o → x ∈ arc_names t) → n ∉ s <$> arc_names t → leaf_total (drainedc t' c) t' (map_out f o) n = 0.
Proof.
  intros Hu Hn. induction o as [cs IH|cs IH|p|ms ch IH|p q] using out_ind'; cbn [leaf_total map_out]; [|done| |by apply IH|].
  - rewrite Forall_forall in IH. assert (∀ x, x ∈ cs → leaf_total (drainedc t' c) t' (map_out f x) n = 0) as H.
    { intros x Hx. apply IH; [done|]. intros y Hy. apply Hu, elem_of_universe_and. by exists x. }
    clear -H. induction cs as [|x cs IHcs]; [done|]. rewrite fmap_cons. cbn [foldr]. rewrite H by left. rewrite IHcs; [done|]. intros; apply H; by right.
  - rewrite Hf, decide_False; [done|]. intros <-. apply Hn, list_elem_of_fmap_2, Hu. left.
  - rewrite Hf, decide_False; [done|]. intros <-. apply Hn, list_elem_of_fmap_2, Hu. left.
Qed.

(** The effects of the image are those of the original, name by name. *)
Lemma image_effect c : (∀ put', effect t' c put' → ∃ put, effect t (seen c) put ∧ (∀ n, n ∈ arc_names t → put' (s n) = put n) ∧ ∀ n, n ∉ s <$> arc_names t → put' n = 0) ∧
  (∀ put, effect t (seen c) put → ∃ put', effect t' c put' ∧ (∀ n, n ∈ arc_names t → put' (s n) = put n) ∧ ∀ n, n ∉ s <$> arc_names t → put' n = 0).
Proof.
  pose proof (made_builder_wf t Hmade) as ((_ & _ & Hout & _) & _ & Hto). cbn [b_output b_inputs] in Hout.
  unfold effect. rewrite (im_timeout _ _ _ _ Himage), Hto, (im_output _ _ _ _ Himage). destruct (outputSpec t) as [o|] eqn:Eo; cbn [fmap option_fmap option_map mbind option_bind].
  2:{ split; intros put Hput; (exists (λ _, 0); split_and!; intros; by rewrite ?Hput). }
  rewrite findTimeout_map. assert (∀ x, x ∈ universe o → x ∈ arc_names t) as Hu by (intros x; by apply arc_names_output).
  destruct (Hout o eq_refl) as (_ & Hcnt & Hx & _ & Hfw).
  assert (∀ br n, br ∈ branches o → n ∈ arc_names t → s n ∈ map_names s br ↔ n ∈ br) as Hbr.
  { intros br n Hb Hn. unfold map_names. rewrite list_elem_of_fmap. split; [|by exists n]. intros (m & E & Hm). rewrite (Hinj n m Hn); [done|by eapply Hu, branches_universe|done]. }
  assert (∀ br n, br ∈ branches o → n ∉ s <$> arc_names t → n ∉ map_names s br) as Hbo.
  { intros br n Hb Hn (m & -> & Hm)%list_elem_of_fmap. apply Hn, list_elem_of_fmap_2. by eapply Hu, branches_universe. }
  assert (∀ ms child, findTimeout o = Some (ms, child) → (∀ x, x ∈ universe child → x ∈ arc_names t) ∧ ∀ p q, (p, q) ∈ findForwardInputs child → place_name p ∈ arc_names t) as Hch.
  { intros ms child Et. split; [intros x Hxc; eapply Hu, findTimeout_universe; done|]. intros p q Hpq. destruct (findTimeout_ok o ms child Hcnt Hx Et) as (_ & _ & X3).
    apply arc_names_input. eapply Hfw. by apply X3. }
  split.
  - intros put' [(br' & Hb & Hput)|(ms & child & Et & Hput)].
    + rewrite (branches_map f s Hf) in Hb. apply list_elem_of_fmap in Hb as (br & -> & Hb). exists (λ n, if decide (n ∈ br) then 1 else 0). split_and!.
      * left. by exists br.
      * intros n Hn. rewrite Hput. by rewrite (decide_ext _ _ _ _ (Hbr br n Hb Hn)).
      * intros n Hn. rewrite Hput, decide_False; [done|]. by apply Hbo.
    + destruct (findTimeout o) as [[ms0 child0]|] eqn:Ef; [|done]. injection Et as <- <-. destruct (Hch ms0 child0 eq_refl) as [H1 H2].
      exists (leaf_total (drainedc t (seen c)) t child0). split_and!; [right; by exists ms0, child0| |].
      * intros n Hn. rewrite Hput. by apply image_leaves.
      * intros n Hn. rewrite Hput. by apply image_leaves_out.
  - intros put [(br & Hb & Hput)|(ms & child & Et & Hput)].
    + exists (λ n, if decide (n ∈ map_names s br) then 1 else 0). split_and!.
      * left. exists (map_names s br). split; [|done]. rewrite (branches_map f s Hf). by apply list_elem_of_fmap_2.
      * intros n Hn. rewrite Hput. by rewrite (decide_ext _ _ _ _ (Hbr br n Hb Hn)).
      * intros n Hn. rewrite decide_False; [done|]. by apply Hbo.
    + destruct (Hch ms child Et) as [H1 H2]. exists (leaf_total (drainedc t' c) t' (map_out f child)). split_and!; [right; exists ms, (map_out f child); by rewrite Et| |].
      * intros n Hn. rewrite Hput. by apply image_leaves.
      * intros n Hn. by apply image_leaves_out.
Qed.

(** A firing of the image is a firing of the original read through the names; nothing else changes. *)
Lemma image_fires c d' : fires t' c d' ↔ ∃ d, fires t (seen c) d ∧ (∀ n, n ∈ arc_names t → d' (s n) = d n) ∧ ∀ n, n ∉ s <$> arc_names t → d' n = c n.
Proof.
  destruct (image_effect c) as [H1 H2]. unfold fires. rewrite image_enabled. split.
  - intros (En & put' & He & Hd'). destruct (H1 put' He) as (put & Hp & Hin & Hout). exists (λ n, leftc t (seen c) n + put n). split_and!; [done|by exists put| |].
    + intros n Hn. by rewrite Hd', image_left, Hin.
    + intros n Hn. rewrite Hd', image_left_out, Hout by done. lia.
  - intros (d & (En & put & Hp & Hd) & Hin & Hout). split; [done|]. destruct (H2 put Hp) as (put' & He & Hin' & Hout'). exists put'. split; [done|].
    intros n. destruct (decide (n ∈ s <$> arc_names t)) as [(m & -> & Hm)%list_elem_of_fmap|Hn].
    + by rewrite Hin, image_left, Hin', Hd.
    + rewrite Hout, image_left_out, Hout' by done. lia.
Qed.
End Image.
End Game.
