(* ===== verification/ComposerFacts.v ===== *)
(** * What a builder with subnets and fusion sets keeps

    Inversion of the operations of [SubnetRewriter], [NetComposer] and [Subnet], and the invariant
    of the builder: whatever a host composes, renames or fuses, the net that comes out is closed,
    its transitions are built ones, and no arc names a port place a host place replaced. *)
From S2P Require Import Prelude.
From S2P Require Import Net.
From S2P Require Import Out.
From S2P Require Import OutSpec.
From S2P Require Import Transition.
From S2P Require Import PetriNet.
From S2P Require Import SubnetRewriter.
From S2P Require Import NetComposer.
From S2P Require Import Subnet.
From S2P Require Import RewriteExact.

(** ** Inverting computations *)

Lemma alloc_bind_ok {A B} (m : alloc A) (k : A → alloc B) n r : (m ≫= k) n = Ok r ↔ ∃ n' a, m n = Ok (n', a) ∧ k a n' = Ok r.
Proof. unfold mbind, alloc_bind. destruct (m n) as [[n' a]|e]; [split; [by exists n', a|by intros (? & ? & [= -> ->] & ?)]|split; [done|by intros (? & ? & ? & _)]]. Qed.
Lemma alloc_ret_ok {A} (a : A) n r : (mret a : alloc A) n = Ok r ↔ r = (n, a).
Proof. unfold mret, alloc_ret. split; [by intros [= <-]|by intros ->]. Qed.
Lemma lift_ok {A} (x : result compose_error A) n r : lift x n = Ok r ↔ ∃ a, x = Ok a ∧ r = (n, a).
Proof. unfold lift. destruct x as [a|e]; split; [intros [= <-]; by exists a|by intros (? & [= ->] & ->)|done|by intros (? & ? & _)]. Qed.
Lemma fresh_ok n r : fresh n = Ok r ↔ r = (S n, n).
Proof. unfold fresh. split; [by intros [= <-]|by intros ->]. Qed.

(** Takes a computation that answered apart. *)
Ltac run_inv :=
  repeat match goal with
  | H : (_ ≫= _) _ = Ok _ |- _ => apply alloc_bind_ok in H as (? & ? & ? & H)
  | H : (mret _ : alloc _) _ = Ok _ |- _ => apply alloc_ret_ok in H; simplify_eq
  | H : lift _ _ = Ok _ |- _ => apply lift_ok in H as (? & ? & ?); simplify_eq
  | H : fresh _ = Ok _ |- _ => apply fresh_ok in H; simplify_eq
  | H : (_, _) = (_, _) |- _ => injection H as -> ->
  end.

Section Facts.
Context {V A : Type} `{EqDecision A}.
Implicit Types (o : tobj V A) (b : host_builder V A).

(** ** Rewritten transitions are fresh and built *)

Definition is_built (t : transition V) : Prop := ∃ bd : builder V, build bd = Ok t.
(** [o] was made by the computation: its identity is the last number handed out. *)
Definition fresh_object (n n' : nat) o : Prop := n ≤ o_ref o ∧ o_ref o < n' ∧ is_built (o_t o).

Lemma new_tobj_ok (t : transition V) (a : action A) n r : new_tobj t a n = Ok r ↔ r = (S n, TObj n t a).
Proof. unfold new_tobj. rewrite alloc_bind_ok. setoid_rewrite fresh_ok. setoid_rewrite alloc_ret_ok. naive_solver. Qed.

Lemma rebuild_is_built (t : transition V) name remap norm t' : rebuildWithName t name remap norm = Ok t' → is_built t' ∧ t_name t' = name.
Proof. intros (inputs & _ & Hb & ->)%rebuild_inv. split; [by eexists|done]. Qed.

Lemma substitutePlaces_ok remap o n n' o' : substitutePlaces remap o n = Ok (n', o') ↔
  ∃ t, rebuildWithName (o_t o) (o_name o) remap None = Ok t ∧ n' = S n ∧ o' = TObj n t (o_action o).
Proof.
  unfold substitutePlaces. rewrite alloc_bind_ok. setoid_rewrite lift_ok. setoid_rewrite new_tobj_ok. split.
  - intros (? & ? & (t & E & [= -> ->]) & [= -> ->]). by exists t.
  - intros (t & E & -> & ->). exists n, t. split; [by exists t|done].
Qed.
Lemma rewriteTransition_ok prefix remap o n n' o' : rewriteTransition prefix remap o n = Ok (n', o') ↔
  ∃ t, rebuildWithName (o_t o) (prefixed prefix (o_name o)) remap None = Ok t ∧ n' = S n ∧ o' = TObj n t (o_action o).
Proof.
  unfold rewriteTransition. rewrite alloc_bind_ok. setoid_rewrite lift_ok. setoid_rewrite new_tobj_ok. split.
  - intros (? & ? & (t & E & [= -> ->]) & [= -> ->]). by exists t.
  - intros (t & E & -> & ->). exists n, t. split; [by exists t|done].
Qed.
Lemma fuse_transition_ok seamOf remap o n n' o' : fuse_transition seamOf remap o n = Ok (n', o') ↔
  ∃ t, rebuildWithName (o_t o) (o_name o) remap (if fusionTouchesInputs remap (o_t o) then Some seamOf else None) = Ok t ∧ n' = S n ∧ o' = TObj n t (o_action o).
Proof.
  unfold fuse_transition. rewrite alloc_bind_ok. setoid_rewrite lift_ok. setoid_rewrite new_tobj_ok. split.
  - intros (? & ? & (t & E & [= -> ->]) & [= -> ->]). by exists t.
  - intros (t & E & -> & ->). exists n, t. split; [by exists t|done].
Qed.

(** The record a channel merge makes carries the merged name. *)
Lemma merge_records_ok channel (caller instance : transition V) t : merge_records channel caller instance = Ok t → is_built t ∧ t_name t = channel.
Proof.
  unfold merge_records. intros Hm. do 6 apply res_bind_ok in Hm as (? & _ & Hm). apply rebuild_as_inv in Hm as [Hb ->]. split; [by eexists|].
  match goal with |- context [with_match_of ?m] => destruct m end; match goal with |- context [with_output_of ?o] => destruct o end; reflexivity.
Qed.
Lemma composeActions_ok (caller instance a : action A) n n' : composeActions caller instance n = Ok (n', a) → n ≤ n'.
Proof.
  unfold composeActions. destruct (isPassthrough caller), (isPassthrough instance); cbn [andb]; intros Ha.
  1-3: apply alloc_ret_ok in Ha; injection Ha as -> _; lia.
  apply alloc_bind_ok in Ha as (n0 & r & Hf & Ha). apply fresh_ok in Hf. injection Hf as -> _. apply alloc_ret_ok in Ha. injection Ha as -> _. lia.
Qed.
Lemma mergeTransitions_ok caller instance name n n' o' : mergeTransitions caller instance name n = Ok (n', o') →
  fresh_object n n' o' ∧ o_name o' = name ∧ n < n'.
Proof.
  unfold mergeTransitions. intros H. apply alloc_bind_ok in H as (n0 & u & Hl & H). apply lift_ok in Hl as (? & _ & Hl). injection Hl as -> _.
  apply alloc_bind_ok in H as (n1 & t & Hl & H). apply lift_ok in Hl as (t0 & Hm & Hl). injection Hl as -> ->. apply alloc_bind_ok in H as (n2 & a & Ha & H).
  apply new_tobj_ok in H. injection H as -> ->. apply composeActions_ok in Ha. apply merge_records_ok in Hm as [Hb Hn].
  split_and!; [split_and!; cbn; [lia|lia|done]|done|lia].
Qed.

(** ** The invariant of the builder *)

Definition node_names b : list jsstr := (place_name <$> hb_places b) ++ (o_name <$> hb_transitions b).

Record hb_ok (n : nat) b : Prop := {
  hk_closed : ∀ o p, o ∈ hb_transitions b → p ∈ arc_places (o_t o) → p ∈ hb_places b;
  hk_built : ∀ o, o ∈ hb_transitions b → is_built (o_t o);
  hk_refs : ∀ o, o ∈ hb_transitions b → o_ref o < n;
  hk_nodup : NoDup (o_ref <$> hb_transitions b);
  hk_terminals : ∀ p, p ∈ (hb_terminals b).*2 → p ∈ hb_places b;
  hk_tkeys : NoDup (hb_terminals b).*1;
  hk_tnames : ∀ x p, (x, p) ∈ hb_terminals b → place_name p = x;
  hk_contrib : ∀ x, x ∈ (hb_contributions b).*1 → x ∈ node_names b
}.

Lemma hb_new_ok n name : hb_ok n (hb_new name).
Proof. constructor; cbn -[node_names]; try apply NoDup_nil_2; intros; by match goal with H : _ ∈ [] |- _ => apply not_elem_of_nil in H end. Qed.

Lemma hb_ok_le n n' b : n ≤ n' → hb_ok n b → hb_ok n' b.
Proof. intros Hn [? ? Hr ? ? ? ? ?]. constructor; try done. intros o Ho. specialize (Hr o Ho). lia. Qed.

Lemma elem_of_nodes b x : x ∈ node_names b ↔ x ∈ place_name <$> hb_places b ∨ x ∈ o_name <$> hb_transitions b.
Proof. unfold node_names. by rewrite elem_of_app. Qed.

Lemma hb_place_ok n p b : hb_ok n b → hb_ok n (hb_place p b).
Proof.
  intros [H1 H2 H3 H4 H5 H6 H7 H8]. constructor; cbn -[node_names]; try done.
  - intros o q Ho Hq. apply elem_of_set_add. right. by eapply H1.
  - intros q Hq. apply elem_of_set_add. right. by apply H5.
  - intros x Hx%H8%elem_of_nodes. apply elem_of_nodes. cbn. destruct Hx as [(q & -> & Hq)%list_elem_of_fmap|?]; [left|by right].
    apply list_elem_of_fmap_2, elem_of_set_add. by right.
Qed.

Lemma hb_terminal_ok n p b : hb_ok n b → hb_ok n (hb_terminal p b).
Proof.
  intros Hb. pose proof (hb_place_ok n p b Hb) as [H1 H2 H3 H4 H5 H6 H7 H8]. unfold hb_terminal. cbn in *.
  destruct (map_get (place_name p) (hb_terminals b)) eqn:E; constructor; cbn -[node_names]; try done.
  - rewrite map_set_fresh, fmap_app by done. intros q [Hq|Hq%list_elem_of_singleton]%elem_of_app; [by apply H5|]. subst. apply elem_of_set_add. by left.
  - by apply NoDup_map_set.
  - intros x q [[-> ->]|Hq]%map_set_entries; [done|by apply H7].
Qed.

Lemma hb_transition_ok n o b : o_ref o < n → is_built (o_t o) → hb_ok n b → hb_ok n (hb_transition o b).
Proof.
  intros Hn Ho [H1 H2 H3 H4 H5 H6 H7 H8].
  assert (∀ x, x ∈ hb_transitions (hb_transition o b) → x ∈ hb_transitions b ∨ x = o) as Hin.
  { cbn. case_decide; [by left|]. intros x [?|?%list_elem_of_singleton]%elem_of_app; [by left|by right]. }
  constructor; try done.
  - intros x p [Hx| ->]%Hin Hp; cbn; apply elem_of_set_union; [left; by eapply H1|by right].
  - intros x [Hx| ->]%Hin; [by apply H2|done].
  - intros x [Hx| ->]%Hin; [by apply H3|done].
  - cbn. case_decide as Hd; [done|]. rewrite fmap_app. apply NoDup_app. split_and!; [done| |apply NoDup_singleton]. by intros x Hx ->%list_elem_of_singleton.
  - intros p Hp. cbn. apply elem_of_set_union. left. by apply H5.
  - intros x Hx%H8%elem_of_nodes. apply elem_of_nodes. destruct Hx as [(q & -> & Hq)%list_elem_of_fmap|(q & -> & Hq)%list_elem_of_fmap].
    + left. cbn. apply list_elem_of_fmap_2, elem_of_set_union. by left.
    + right. apply list_elem_of_fmap_2. cbn. case_decide; [done|]. apply elem_of_app. by left.
Qed.

(** A fresh transition is added, with its name. *)
Lemma hb_transition_fresh n n' o b : hb_ok n b → fresh_object n n' o → hb_ok n' (hb_transition o b) ∧ hb_transitions (hb_transition o b) = hb_transitions b ++ [o].
Proof.
  intros Hb (H1 & H2 & H3). split; [apply hb_transition_ok; [lia|done|eapply hb_ok_le; [|done]; lia]|]. cbn. rewrite decide_False; [done|].
  intros (x & E & Hx)%list_elem_of_fmap. apply (hk_refs _ _ Hb) in Hx. lia.
Qed.

Lemma hb_fuse_ok n sets b : hb_ok n b → hb_ok n (hb_fuse sets b).
Proof. intros [? ? ? ? ? ? ? ?]. by constructor. Qed.
Lemma hb_retire_ok n x r b : hb_ok n b → hb_ok n (hb_retire x r b).
Proof. intros [? ? ? ? ? ? ? ?]. by constructor. Qed.

Lemma recordContribution_ok n x subnet b : hb_ok n b → x ∈ node_names b → hb_ok n (recordContribution x subnet b).
Proof.
  intros [H1 H2 H3 H4 H5 H6 H7 H8] Hx. constructor; try done. intros y. cbn. rewrite elem_of_map_set_keys. intros [->|Hy]; [done|by apply H8].
Qed.

(** Replacing the caller's transition by the merged one of its name. *)
Lemma hb_replace_ok n n' caller o b : hb_ok n b → fresh_object n n' o → o_name o = o_name caller → (∀ x, x ∈ hb_transitions b → o_ref x = o_ref caller → o_name x = o_name caller) →
  hb_ok n' (hb_transition o (hb_delete caller b)).
Proof.
  intros Hb Ho Hname Hid. assert (Hb' := Hb). destruct Hb' as [H1 H2 H3 H4 H5 H6 H7 H8]. set (b' := HostBuilder (hb_name b) (hb_places b) (hb_transitions (hb_delete caller b)) (hb_fusionSets b) [] (hb_terminals b) (hb_retiredPorts b)).
  assert (∀ x, x ∈ hb_transitions (hb_delete caller b) → x ∈ hb_transitions b) as Hsub by (by intros x [_ ?]%list_elem_of_filter).
  assert (hb_ok n b') as Hb'.
  { constructor; cbn -[node_names]; auto; [intros; by eapply H1; [apply Hsub|]| |by intros ? ?%not_elem_of_nil]. clear -H4. induction (hb_transitions b) as [|x l IH]; [done|]. apply NoDup_cons in H4 as [Hx Hl].
    rewrite filter_cons. case_decide; [|by apply IH]. rewrite fmap_cons. apply NoDup_cons. split; [|by apply IH]. intros (y & E & [_ Hy]%list_elem_of_filter)%list_elem_of_fmap.
    apply Hx. rewrite E. by apply list_elem_of_fmap_2. }
  destruct (hb_transition_fresh n n' o b' Hb' Ho) as [[K1 K2 K3 K4 K5 K6 K7 K8] Hts]. constructor; try done.
  assert (hb_transitions (hb_transition o (hb_delete caller b)) = hb_transitions (hb_delete caller b) ++ [o]) as Hts' by exact Hts.
  intros x Hx%H8%elem_of_nodes. apply elem_of_nodes. destruct Hx as [(q & -> & Hq)%list_elem_of_fmap|(q & -> & Hq)%list_elem_of_fmap].
  - left. cbn. apply list_elem_of_fmap_2, elem_of_set_union. by left.
  - right. rewrite Hts'. destruct (decide (o_ref q = o_ref caller)) as [E|Hne].
    + rewrite (Hid q Hq E), <- Hname. apply list_elem_of_fmap_2, elem_of_app. right. left.
    + apply list_elem_of_fmap_2, elem_of_app. left. apply list_elem_of_filter. by split.
Qed.

(** ** Composition keeps it *)

(** Entries a rewrite made: fresh objects keyed by their names. *)
Definition fresh_entries (n n' : nat) (l : list (jsstr * tobj V A)) : Prop := ∀ x o, (x, o) ∈ l → fresh_object n n' o ∧ o_name o = x.

Lemma fresh_object_le n n1 n2 n' o : n ≤ n1 → n2 ≤ n' → fresh_object n1 n2 o → fresh_object n n' o.
Proof. intros ?? (? & ? & ?). split_and!; [lia|lia|done]. Qed.

Lemma substitutePlaces_fresh remap o n n' o' : substitutePlaces remap o n = Ok (n', o') → fresh_object n n' o' ∧ o_name o' = o_name o ∧ n ≤ n'.
Proof. intros (t & (Hb & Hn)%rebuild_is_built & -> & ->)%substitutePlaces_ok. split_and!; [split_and!; cbn; [lia|lia|done]|done|lia]. Qed.

Lemma rewrite_instance_fresh prefix mm portOf ts n0 acc n n' l : rewrite_instance prefix mm portOf ts acc n = Ok (n', l) →
  n0 ≤ n → fresh_entries n0 n acc → n ≤ n' ∧ fresh_entries n0 n' l.
Proof.
  revert acc n. induction ts as [|o ts IH]; intros acc n; cbn [rewrite_instance]; intros H Hn Hacc.
  { apply alloc_ret_ok in H. injection H as -> ->. done. }
  apply alloc_bind_ok in H as (n1 & u & Hl & H). apply lift_ok in Hl as (? & _ & Hl). injection Hl as -> _.
  apply alloc_bind_ok in H as (n2 & o' & Hs & H). apply substitutePlaces_fresh in Hs as (Ho & Hname & Hle).
  apply IH in H as [Hle' Hf]; [split; [lia|done]|lia|]. intros k q [[-> ->]|Hq]%map_set_entries.
  - split; [|done]. eapply fresh_object_le; [| |done]; lia.
  - destruct (Hacc k q Hq) as [K1 K2]. split; [|done]. eapply fresh_object_le; [| |done]; lia.
Qed.

Lemma retire_ports_ok n i mm b : hb_ok n b → hb_ok n (retire_ports i mm b).
Proof. intros Hb. unfold retire_ports. apply foldl_inv; [|done]. intros b' y _ ?. destruct (map_get _ mm); [case_match; [by apply hb_retire_ok|done]|done]. Qed.
Lemma retire_ports_transitions i mm b : hb_transitions (retire_ports i mm b) = hb_transitions b.
Proof. unfold retire_ports. apply (foldl_inv (λ b', hb_transitions b' = hb_transitions b)); [|done]. intros b' y _ <-. destruct (map_get _ mm); [by case_match|done]. Qed.

(** The transitions a host names are objects it has: one of that identity in the builder is that object. *)
Definition caller_ok (n : nat) b o : Prop := o_ref o < n ∧ ∀ x, x ∈ hb_transitions b → o_ref x = o_ref o → x = o.

Lemma merge_channel_ok i rewritten name caller n0 n b n' r : merge_channel i rewritten name caller b n = Ok (n', r) →
  n0 ≤ n → hb_ok n b → fresh_entries n0 n rewritten → caller_ok n b caller →
  n < n' ∧ hb_ok n' r.2 ∧ fresh_entries n0 n' r.1 ∧ ∀ x, x ∈ hb_transitions r.2 → x ∈ hb_transitions b ∨ n ≤ o_ref x.
Proof.
  unfold merge_channel. intros H Hn Hb Hf [Hc1 Hc2]. apply alloc_bind_ok in H as (n1 & renamed & Hl & H). apply lift_ok in Hl as (? & _ & Hl). injection Hl as -> _.
  destruct (map_get _ rewritten) as [o|] eqn:E; [|by apply lift_ok in H as (? & ? & _)].
  apply alloc_bind_ok in H as (n2 & merged & Hm & H). apply alloc_ret_ok in H. injection H as -> ->.
  apply mergeTransitions_ok in Hm as (Ho & Hname & Hlt). split_and!; [done| | |].
  - cbn. eapply hb_replace_ok; [done|done|done|]. intros z Hz Hr. by rewrite (Hc2 z Hz Hr).
  - intros k q [_ Hq]%list_elem_of_filter. destruct (Hf k q Hq) as [K ?]. split; [|done]. eapply fresh_object_le; [| |done]; lia.
  - cbn. intros z. case_decide.
    + intros [_ ?]%list_elem_of_filter. by left.
    + intros [[_ ?]%list_elem_of_filter| ->%list_elem_of_singleton]%elem_of_app; [by left|right]. apply Ho.
Qed.

Lemma merge_channels_ok i rewritten bs n0 n b n' r : merge_channels i rewritten bs b n = Ok (n', r) →
  n0 ≤ n → hb_ok n b → fresh_entries n0 n rewritten → (∀ x o, (x, o) ∈ bs → caller_ok n b o) → n ≤ n' ∧ hb_ok n' r.2 ∧ fresh_entries n0 n' r.1.
Proof.
  revert rewritten n b. induction bs as [|[name caller] bs IH]; intros rewritten n b; cbn [merge_channels]; intros H Hn Hb Hf Hc.
  { apply alloc_ret_ok in H. injection H as -> ->. done. }
  apply alloc_bind_ok in H as (n1 & r1 & H1 & H). eapply merge_channel_ok in H1 as (Hlt & Hb1 & Hf1 & Hin); [|done..|apply (Hc name); left].
  apply IH in H as (? & ? & ?); [split_and!; [lia|done|done]|lia|done|done|]. intros k o Ho. destruct (Hc k o) as [K1 K2]; [by right|]. split; [lia|].
  intros y Hy Hr. destruct (Hin y Hy) as [?|?]; [by apply K2|lia].
Qed.

Lemma add_all_ok n n0 l b : hb_ok n b → fresh_entries n0 n l → hb_ok n (foldl (λ b y, hb_transition y.2 b) b l).
Proof. intros Hb Hf. apply foldl_inv; [|done]. intros b' [x o] Hx ?. destruct (Hf x o Hx) as [(? & ? & ?) _]. by apply hb_transition_ok. Qed.

Lemma applyComposition_ok i mm cs n b n' b' : applyComposition i mm cs b n = Ok (n', b') → hb_ok n b → (∀ x o, (x, o) ∈ cs → caller_ok n b o) →
  n ≤ n' ∧ hb_ok n' b'.
Proof.
  unfold applyComposition. intros H Hb Hc. apply alloc_bind_ok in H as (n1 & u & Hl & H). apply lift_ok in Hl as (? & _ & Hl). injection Hl as -> _.
  apply alloc_bind_ok in H as (n2 & rewritten & Hr & H). apply (rewrite_instance_fresh _ _ _ _ n) in Hr as [Hle Hf]; [|done|by intros ?? ?%not_elem_of_nil].
  apply alloc_bind_ok in H as (n3 & r & Hm & H). apply alloc_ret_ok in H. injection H as -> ->.
  eapply (merge_channels_ok _ _ _ n) in Hm as (Hle' & Hb' & Hf'); [|lia|by eapply retire_ports_ok, hb_ok_le; [|done]|done|].
  - split; [lia|]. by eapply add_all_ok.
  - intros k o Ho. destruct (Hc k o Ho) as [K1 K2]. split; [lia|]. by rewrite retire_ports_transitions.
Qed.

Lemma composeInternal_ok i pm cs n b n' b' : composeInternal i pm cs b n = Ok (n', b') → hb_ok n b → (∀ x o, (x, o) ∈ cs → caller_ok n b o) → n ≤ n' ∧ hb_ok n' b'.
Proof. unfold composeInternal. intros (n1 & mm & (? & _ & Hl)%lift_ok & H)%alloc_bind_ok. injection Hl as -> _. intros ??. by eapply applyComposition_ok. Qed.

Lemma composeAuto_ok i n b n' b' : composeAuto i b n = Ok (n', b') → hb_ok n b → n ≤ n' ∧ hb_ok n' b'.
Proof.
  unfold composeAuto. intros H Hb. destruct (negb _); [by apply lift_ok in H as (? & ? & _)|].
  destruct (negb _); [apply composeInternal_ok in H|apply applyComposition_ok in H]; try done; by intros ?? ?%not_elem_of_nil.
Qed.

Lemma by_name_ok ps k h : map_get k (by_name ps) = Some h → place_name h = k ∧ h ∈ ps.
Proof.
  unfold by_name. intros E%map_get_elem. revert E. apply (foldl_inv (λ m : list (jsstr * place), (k, h) ∈ m → place_name h = k ∧ h ∈ ps)); [|by intros ?%not_elem_of_nil].
  intros m p Hp IH [[-> ->]|Hq]%map_set_entries; [done|by apply IH].
Qed.

Lemma direct_place_ok n host subnet acc p : (∀ k h, map_get k host = Some h → place_name h = k) → hb_ok n acc.1 → hb_ok n (direct_place host subnet acc p).1.
Proof.
  intros Hh Hb. cbn. apply recordContribution_ok; [by apply hb_place_ok|]. apply elem_of_nodes. left. cbn.
  apply list_elem_of_fmap. exists (default p (map_get (place_name p) host)). split; [|apply elem_of_set_add; by left].
  destruct (map_get _ host) eqn:E; [|done]. symmetry. by apply Hh.
Qed.

Lemma direct_transitions_ok mm subnet ts n b n' b' : direct_transitions mm subnet ts b n = Ok (n', b') → hb_ok n b → n ≤ n' ∧ hb_ok n' b'.
Proof.
  revert n b. induction ts as [|o ts IH]; intros n b; cbn [direct_transitions]; intros H Hb.
  { apply alloc_ret_ok in H. injection H as -> ->. done. }
  apply alloc_bind_ok in H as (n1 & o' & Hs & H). apply substitutePlaces_fresh in Hs as (Ho & Hname & Hle).
  destruct (hb_transition_fresh n n1 o' b Hb Ho) as [Hb1 Hts]. apply IH in H as [? ?]; [split; [lia|done]|].
  apply recordContribution_ok; [done|]. apply elem_of_nodes. right. rewrite Hts, <- Hname. apply list_elem_of_fmap_2, elem_of_app. right. by left.
Qed.

Lemma composeDirect_ok def n b n' b' : composeDirect def b n = Ok (n', b') → hb_ok n b → n ≤ n' ∧ hb_ok n' b'.
Proof.
  unfold composeDirect. intros H Hb. do 3 (apply alloc_bind_ok in H as (? & ? & Hl & H); apply lift_ok in Hl as (? & _ & Hl); injection Hl as -> _).
  apply direct_transitions_ok in H; [done|]. apply (foldl_inv (λ acc, hb_ok n acc.1)); [|done]. intros acc p _. apply direct_place_ok.
  by intros k h [? _]%by_name_ok.
Qed.

(** Every transition a form names is an object of the host. *)
Definition form_ok (n : nat) b (f : compose_form V A) : Prop :=
  match f with FormBind _ calls => ∀ name o, BindChannel name o ∈ calls → caller_ok n b o | _ => True end.

Lemma bind_runs_channels (calls : list (bind_call V A)) r bs x o : foldl bind_run r calls = Ok bs → (x, o) ∈ cb_channels bs →
  BindChannel x o ∈ calls ∨ ∃ b0 : compose_bindings, r = Ok b0 ∧ (x, o) ∈ cb_channels b0.
Proof.
  revert r. induction calls as [|c calls IH]; intros r; cbn [foldl]; intros H Hx; [right; by exists bs|].
  destruct (IH _ H Hx) as [?|(b0 & E & Hb)]; [left; by right|]. unfold bind_run in E. apply res_bind_ok in E as (b1 & -> & E).
  destruct c as [name p|name o']; apply res_bind_ok in E as (? & _ & E); injection E as <-; cbn in Hb; [right; by exists b1|].
  apply map_set_entries in Hb as [[-> ->]|Hb]; [left; left|right; by exists b1].
Qed.

Lemma compose_ok f n b n' b' : compose f b n = Ok (n', b') → hb_ok n b → form_ok n b f → n ≤ n' ∧ hb_ok n' b'.
Proof.
  destruct f as [def|i|i ports|i calls]; cbn [compose form_ok]; intros H Hb Hf; [by apply composeDirect_ok in H|by apply composeAuto_ok in H| |].
  - apply composeInternal_ok in H; [done|done|by intros ?? ?%not_elem_of_nil].
  - apply alloc_bind_ok in H as (n1 & bs & Hl & H). apply lift_ok in Hl as (? & Hc & Hl). injection Hl as -> ->. apply composeInternal_ok in H; [done|done|].
    intros k o Ho. destruct (bind_runs_channels _ _ _ _ _ Hc Ho) as [?|(b0 & [= <-] & Hn)]; [by eapply Hf|by apply not_elem_of_nil in Hn].
Qed.

(** ** What [build] answers *)

Lemma rejectBound_ok retired (ts : list (tobj V A)) : rejectBoundPortReferences retired ts = Ok () →
  ∀ o p, o ∈ ts → p ∈ arc_places (o_t o) → map_get (place_name p) retired = None.
Proof.
  unfold rejectBoundPortReferences. intros H o p Ho Hp. case_bool_decide as Hl; [by apply nil_length_inv in Hl as ->|].
  apply res_iter_ok in H. rewrite Forall_forall in H. specialize (H o Ho). cbn in H. apply res_iter_ok in H. rewrite Forall_forall in H.
  specialize (H p). cbn in H. destruct (map_get (place_name p) retired); [|done]. exfalso. discriminate H. clear H. revert Hp. unfold arc_places. rewrite !elem_of_app. tauto.
Qed.

Lemma applyFusion_ok seamOf remap ts n n' ts' : applyFusion seamOf remap ts n = Ok (n', ts') →
  n ≤ n' ∧ (o_name <$> ts') = (o_name <$> ts) ∧ NoDup (o_ref <$> ts') ∧ ∀ o, o ∈ ts' → fresh_object n n' o.
Proof.
  unfold applyFusion. revert n ts'. induction ts as [|o ts IH]; intros n ts'; cbn [mapM]; intros H.
  { apply alloc_ret_ok in H. injection H as -> ->. split_and!; [done|done|apply NoDup_nil_2|by intros ? ?%not_elem_of_nil]. }
  apply alloc_bind_ok in H as (n1 & o' & Hf & H). apply alloc_bind_ok in H as (n2 & l & Hm & H). apply alloc_ret_ok in H. injection H as -> ->.
  apply fuse_transition_ok in Hf as (t & [Hb Hn]%rebuild_is_built & -> & ->). apply IH in Hm as (Hle & E & Hnd & Hfr). split_and!.
  - lia.
  - rewrite !fmap_cons. f_equal; done.
  - rewrite fmap_cons. apply NoDup_cons. split; [|done]. cbn. intros (q & Eq & Hq)%list_elem_of_fmap. destruct (Hfr q Hq). lia.
  - intros q [->|Hq]%elem_of_cons; [split_and!; cbn; [lia|lia|done]|]. eapply fresh_object_le; [| |by apply Hfr]; lia.
Qed.

Lemma fused_terminals_ok fm (ts : list (jsstr * place)) :
  let r := fused_terminals fm ts in NoDup r.*1 ∧ ∀ k p, (k, p) ∈ r → place_name p = k ∧ ∃ y, y ∈ ts ∧ p = remap_place fm y.2.
Proof.
  cbn zeta. unfold fused_terminals. apply (foldl_inv (λ r : list (jsstr * place), NoDup r.*1 ∧ ∀ k p, (k, p) ∈ r → place_name p = k ∧ ∃ y, y ∈ ts ∧ p = remap_place fm y.2));
    [|split; [apply NoDup_nil_2|by intros ?? ?%not_elem_of_nil]].
  intros r y Hy [H1 H2]. destruct (map_get _ r); [done|]. split; [by apply NoDup_map_set|].
  intros k p [[-> ->]|Hp]%map_set_entries; [split; [done|by exists y]|by apply H2].
Qed.

Lemma keyed_names (r : list (jsstr * place)) : (∀ k p, (k, p) ∈ r → place_name p = k) → place_name <$> r.*2 = r.*1.
Proof. induction r as [|[k p] r IH]; cbn; intros H; [done|]. f_equal; [apply H; left|apply IH; intros; apply H; by right]. Qed.

Lemma membership_keys b x owner : (x, owner) ∈ resolveSubnetMembership b → x ∈ (hb_contributions b).*1.
Proof.
  unfold resolveSubnetMembership. intros ([k owners] & Hk & E)%list_elem_of_omap. cbn in E. destruct owners as [|? [|]]; simplify_eq. by apply (list_elem_of_fmap_2 fst) in Hk.
Qed.

Lemma filterFused_ok m gone x owner : (x, owner) ∈ filterFusedMembership m gone → (x, owner) ∈ m ∧ x ∉ gone.
Proof.
  unfold filterFusedMembership. case_bool_decide as Hl; cbn; [apply nil_length_inv in Hl as ->; by intros ?%not_elem_of_nil|].
  case_bool_decide as Hg; [apply nil_length_inv in Hg as ->; intros; split; [done|by intros ?%not_elem_of_nil]|]. by intros [??]%list_elem_of_filter.
Qed.

(** What a net built from a composed builder satisfies. *)
Definition composed_wf (retired : list (jsstr * retired_port)) (net : net_obj V A) : Prop :=
  net_wf (net_of net) ∧
  (∀ o, o ∈ n_transitions net → is_built (o_t o)) ∧
  NoDup (o_ref <$> n_transitions net) ∧
  (∀ o p, o ∈ n_transitions net → p ∈ arc_places (o_t o) → map_get (place_name p) retired = None) ∧
  ∀ x owner, (x, owner) ∈ n_subnetMembership net → x ∈ (place_name <$> n_places net) ++ (o_name <$> n_transitions net).

Lemma buildWithFusion_ok b n n' net : hb_ok n b → buildWithFusion (resolveSubnetMembership b) b n = Ok (n', net) → composed_wf (hb_retiredPorts b) net.
Proof.
  intros [H1 H2 H3 H4 H5 H6 H7 H8] H. unfold buildWithFusion in H. apply alloc_bind_ok in H as (n1 & own & _ & H). apply alloc_bind_ok in H as (n2 & ts & Hf & H).
  apply applyFusion_ok in Hf as (_ & En & Hnd & Hfr). apply alloc_bind_ok in H as (n3 & u & Hl & H). apply lift_ok in Hl as ([] & Hr & _).
  apply alloc_bind_ok in H as (n4 & u' & Hl & H). apply lift_ok in Hl as ([] & Ht & _). apply map_err_ok in Ht. apply alloc_ret_ok in H. injection H as _ ->.
  destruct (fused_terminals_ok (fusion_map (hb_fusionSets b)) (hb_terminals b)) as [Hkn Hke]. set (r := fused_terminals _ _) in *. split_and!; [split_and!|..].
  - intros t p Ht' Hp. cbn in Ht' |- *. apply list_elem_of_fmap in Ht' as (o & -> & Ho). apply elem_of_set_union. left. apply elem_of_set_union. right.
    apply list_elem_of_bind. by exists o.
  - intros p Hp. cbn in Hp |- *. apply list_elem_of_fmap in Hp as ([k q] & -> & Hq). apply elem_of_set_union. right. destruct (Hke k q Hq) as [_ (y & Hy & ->)].
    apply list_elem_of_fmap. by exists y.
  - cbn. rewrite keyed_names; [done|]. intros k p Hp. by apply Hke.
  - intros p t Hp Ht'. by apply (proj1 (requireWellFormedTerminals_ok _ _) Ht).
  - intros o Ho. by apply Hfr.
  - done.
  - by apply rejectBound_ok.
  - cbn. intros x owner [Hm Hg]%filterFused_ok. apply membership_keys, H8, elem_of_nodes in Hm. apply elem_of_app. rewrite En.
    destruct Hm as [(p & -> & Hp)%list_elem_of_fmap|?]; [left|by right]. apply list_elem_of_fmap_2. do 2 (apply elem_of_set_union; left). by apply list_elem_of_filter.
Qed.

Lemma hb_build_ok b n n' net : hb_ok n b → hb_build b n = Ok (n', net) → composed_wf (hb_retiredPorts b) net.
Proof.
  intros Hb H. unfold hb_build in H. case_bool_decide; [|by eapply buildWithFusion_ok]. destruct Hb as [H1 H2 H3 H4 H5 H6 H7 H8].
  apply alloc_bind_ok in H as (n3 & u & Hl & H). apply lift_ok in Hl as ([] & Hr & _).
  apply alloc_bind_ok in H as (n4 & u' & Hl & H). apply lift_ok in Hl as ([] & Ht & _). apply map_err_ok in Ht. apply alloc_ret_ok in H. injection H as _ ->.
  split_and!; [split_and!|..].
  - intros t p (o & -> & Ho)%list_elem_of_fmap Hp. by eapply H1.
  - done.
  - cbn. by rewrite keyed_names.
  - intros p t Hp Ht'. by apply (proj1 (requireWellFormedTerminals_ok _ _) Ht).
  - done.
  - done.
  - by apply rejectBound_ok.
  - cbn. intros x owner Hm%membership_keys%H8. exact Hm.
Qed.

(** ** Builders a host reaches *)

Inductive host_call :=
| HostPlace (p : place)
| HostTerminal (p : place)
| HostTransition (o : tobj V A)
| HostFuse (sets : list fusion_set)
| HostFuseMembers (members : list place)
| HostCompose (f : compose_form V A).
Definition host_run (c : host_call) b : alloc (host_builder V A) :=
  match c with
  | HostPlace p => mret (hb_place p b)
  | HostTerminal p => mret (hb_terminal p b)
  | HostTransition o => mret (hb_transition o b)
  | HostFuse sets => mret (hb_fuse sets b)
  | HostFuseMembers members => hb_fuse_members members b
  | HostCompose f => compose f b
  end.
(** The transitions a call passes exist and were built. *)
Definition call_ok (n : nat) b (c : host_call) : Prop :=
  match c with HostTransition o => o_ref o < n ∧ is_built (o_t o) | HostCompose f => form_ok n b f | _ => True end.
(** The builders of runs in which the host makes objects of its own between the calls. *)
Inductive hosted : nat → host_builder V A → Prop :=
| hosted_new n name : hosted n (hb_new name)
| hosted_objects n n' b : hosted n b → n ≤ n' → hosted n' b
| hosted_call n b c n' b' : hosted n b → call_ok n b c → host_run c b n = Ok (n', b') → hosted n' b'.

Lemma hosted_ok n b : hosted n b → hb_ok n b.
Proof.
  induction 1 as [n name|n n' b _ IH Hn|n b c n' b' _ IH Hc H]; [apply hb_new_ok|by eapply hb_ok_le|].
  destruct c as [p|p|o|sets|ps|f]; cbn [host_run call_ok] in *.
  - apply alloc_ret_ok in H. injection H as -> ->. by apply hb_place_ok.
  - apply alloc_ret_ok in H. injection H as -> ->. by apply hb_terminal_ok.
  - apply alloc_ret_ok in H. injection H as -> ->. destruct Hc. by apply hb_transition_ok.
  - apply alloc_ret_ok in H. injection H as -> ->. by apply hb_fuse_ok.
  - unfold hb_fuse_members in H. apply alloc_bind_ok in H as (n1 & fb & Hl & H). apply lift_ok in Hl as (? & _ & Hl). injection Hl as -> ->.
    apply alloc_bind_ok in H as (n2 & s & Hs & H). apply alloc_ret_ok in H. injection H as -> ->. apply hb_fuse_ok. eapply hb_ok_le; [|done].
    unfold fusion_build in Hs. destruct (foldl _ _ ps).2 as [|q qs]; [by apply lift_ok in Hs as (? & ? & _)|]. unfold fusion_of in Hs.
    apply alloc_bind_ok in Hs as (n3 & r & Hf & Hs). apply fresh_ok in Hf. injection Hf as -> ->. apply alloc_ret_ok in Hs. injection Hs as -> _. lia.
  - by eapply compose_ok.
Qed.

(** C11: A net assembled by any sequence of builder calls (places, terminals, transitions, fusion sets
    and the four forms of composition, channel merges included) is well formed: it contains every
    place its arcs name, its terminals are places nothing consumes or reads, its transitions are
    built ones and distinct objects, no arc names a port place that a composition bound to a
    host place, and only nodes of the net have a subnet they belong to. *)
Theorem composed_net_wf n b n' net : hosted n b → hb_build b n = Ok (n', net) → composed_wf (hb_retiredPorts b) net.
Proof. intros Hb%hosted_ok. by apply hb_build_ok. Qed.
End Facts.
Arguments host_call : clear implicits.

(** ** A run of a host *)

(** A worker with a job port, a result port and its transition as a channel. *)
Definition example_builder (name : jsstr) (a b : place) : builder Z := with_outputs (outPlace b) (with_inputs [one a] (builder_new name)).
Definition example_arc (r : nat) (name : jsstr) (a b : place) (act : action nat) : tobj Z nat := TObj r (built (example_builder name a b)) act.
Definition job : place := Place 0 (js "job").
Definition result_place : place := Place 1 (js "result").
Definition queue : place := Place 2 (js "queue").
Definition done_place : place := Place 3 (js "done").
Definition work : tobj Z nat := example_arc 0 (js "work") job result_place (Host 7%nat).
Definition worker : result compose_error (nat * subnet_def Z nat) :=
  subnet_build (sb_channel (Channel (js "ch") work) (sb_port (Port (js "in") DirInput job) (sb_port (Port (js "out") DirOutput result_place) (sb_transition work (sb_new (js "worker")))))) 5.
Definition ok_or {E B} (d : B) (r : result E B) : B := match r with Ok x => x | Err _ => d end.
Definition worker_def : subnet_def Z nat := (ok_or (0, SubnetDef [] (NetObj [] [] [] [] []) ib_new) worker).2.
Definition worker_at (prefix : jsstr) (n : nat) : nat * instance Z nat := ok_or (0, Instance prefix worker_def (NetObj [] [] [] [] []) [] []) (instantiate prefix worker_def n).

Definition caller : tobj Z nat := example_arc 10 (js "submit") queue (Place 4 (js "sent")) Passthrough.
Definition a_result : place := ok_or job (in_port (js "out") (worker_at (js "a") 20).2).
Definition b_result : place := ok_or job (in_port (js "out") (worker_at (js "b") 30).2).
Definition example_calls : list (host_call Z nat) :=
  [HostTransition caller;
   HostCompose (FormBind (worker_at (js "a") 20).2 [BindPort (js "in") queue; BindChannel (js "ch") caller]);
   HostCompose (FormMap (worker_at (js "b") 30).2 [(js "in", Place 4 (js "sent"))]);
   HostFuse [FusionSet 40 (js "results") done_place [a_result; b_result]];
   HostTerminal done_place].
(** The builder after the first [k] calls. *)
Definition after (k : nat) : nat * host_builder Z nat :=
  foldl (λ s c, ok_or s (host_run c s.2 s.1)) (50, hb_new (js "net")) (take k example_calls).
Definition example_net : nat * net_obj Z nat := ok_or (0, NetObj [] [] [] [] []) (hb_build (after 5).2 (after 5).1).

(** Two workers composed, one merged with a transition of the host, their results fused with the
    terminal place: the net built is well formed, and the merged transition takes two jobs. *)
Lemma composed_net_wf_witness :
  hb_build (after 5).2 (after 5).1 = Ok example_net ∧ composed_wf (hb_retiredPorts (after 5).2) example_net.2 ∧
  (o_name <$> n_transitions example_net.2) = [js "submit"; js "b/work"] ∧
  ((λ o, inputSpecs (o_t o)) <$> n_transitions example_net.2) !! 0 = Some [InExactly queue 2].
Proof.
  assert (∀ k c, example_calls !! k = Some c → call_ok (after k).1 (after k).2 c → host_run c (after k).2 (after k).1 = Ok (after (S k)) →
    hosted (after k).1 (after k).2 → hosted (after (S k)).1 (after (S k)).2) as step.
  { intros k c _ Hc Hr H. eapply hosted_call; [exact H|exact Hc|]. rewrite Hr. by destruct (after (S k)). }
  assert (hosted (after 0).1 (after 0).2) as H0 by apply hosted_new.
  assert (hosted (after 1).1 (after 1).2) as H1.
  { eapply (step 0); [reflexivity| |vm_compute; reflexivity|exact H0]. split; [vm_compute; lia|]. exists (example_builder (js "submit") queue (Place 4 (js "sent"))). vm_compute. reflexivity. }
  assert (hosted (after 2).1 (after 2).2) as H2.
  { eapply (step 1); [reflexivity| |vm_compute; reflexivity|exact H1]. intros name o Ho. apply elem_of_cons in Ho as [?|Ho]; [done|].
    apply list_elem_of_singleton in Ho. injection Ho as _ ->. split; [vm_compute; lia|]. intros x Hx _. by apply list_elem_of_singleton in Hx. }
  assert (hosted (after 3).1 (after 3).2) as H3 by (eapply (step 2); [reflexivity|exact I|vm_compute; reflexivity|exact H2]).
  assert (hosted (after 4).1 (after 4).2) as H4 by (eapply (step 3); [reflexivity|exact I|vm_compute; reflexivity|exact H3]).
  assert (hosted (after 5).1 (after 5).2) as H5 by (eapply (step 4); [reflexivity|exact I|vm_compute; reflexivity|exact H4]).
  assert (hb_build (after 5).2 (after 5).1 = Ok example_net) as Hb by (vm_compute; reflexivity).
  split_and!; [exact Hb| |vm_compute; reflexivity|vm_compute; reflexivity].
  apply (composed_net_wf (after 5).1 (after 5).2 example_net.1 example_net.2); [exact H5|]. rewrite Hb. by destruct example_net.
Defined.
