(* ===== verification/ComposeExact.v ===== *)
(** * Instances and their composition play the definition's body

    An instance is the body of its definition under the prefix, and composing it into a net adds
    the body's transitions reading and writing the host places its ports are bound to. Both always
    succeed when no two places of the body end up under one name. *)
From S2P Require Import Prelude.
From S2P Require Import CodePoints.
From S2P Require Import Net.
From S2P Require Import Out.
From S2P Require Import OutSpec.
From S2P Require Import Transition.
From S2P Require Import MatchEngine.
From S2P Require Import PetriNet.
From S2P Require Import Context.
From S2P Require Import MarkingState.
From S2P Require Import Outcomes.
From S2P Require Import StateClass.
From S2P Require Import ClassSteps.
From S2P Require Import FlatNet.
From S2P Require Import StubbornSets.
From S2P Require Import StubbornRuns.
From S2P Require Import SubnetRewriter.
From S2P Require Import NetComposer.
From S2P Require Import Subnet.
From S2P Require Import RewriteExact.
From S2P Require Import ComposerFacts.

(** ** The duplicate report *)

Definition sourced (nameOf : place → jsstr) (o : out) : Prop :=
  (∀ l x p, findDuplicate nameOf o = Ok l → (x, p) ∈ l → x = nameOf p ∧ place_name p ∈ universe o) ∧
  ∀ d, findDuplicate nameOf o = Err d → nameOf (bd_first d) = nameOf (bd_second d) ∧ place_name (bd_first d) ∈ universe o ∧ place_name (bd_second d) ∈ universe o.

Definition leaves_of (nameOf : place → jsstr) (U : jsstr → Prop) (l : list (jsstr * place)) : Prop := ∀ x p, (x, p) ∈ l → x = nameOf p ∧ U (place_name p).

Lemma merge_leaves_sourced nameOf U b found leaves : leaves_of nameOf U found → leaves_of nameOf U leaves →
  match merge_leaves b found leaves with
  | Ok l => leaves_of nameOf U l
  | Err d => nameOf (bd_first d) = nameOf (bd_second d) ∧ U (place_name (bd_first d)) ∧ U (place_name (bd_second d))
  end.
Proof.
  revert leaves. induction found as [|[x p] found IH]; intros leaves Hf Hl; cbn [merge_leaves]; [done|].
  assert (leaves_of nameOf U found) as Hf' by (intros y q Hq; apply Hf; by right). destruct (Hf x p) as [Ex Up]; [left|].
  destruct (map_get x leaves) as [prior|] eqn:E.
  - apply map_get_elem, Hl in E as [E Uq]. destruct b; [|by apply IH]. cbn. split; [congruence|done].
  - apply IH; [done|]. intros y q [[-> ->]|Hq]%map_set_entries; [done|by apply Hl].
Qed.

Lemma dup_fold_sourced nameOf U b cs acc : Forall (sourced nameOf) cs → (∀ c x, c ∈ cs → x ∈ universe c → U x) → leaves_of nameOf U acc →
  match foldl (λ acc c, let* leaves := acc in let* found := findDuplicate nameOf c in merge_leaves b found leaves) (Ok acc) cs with
  | Ok l => leaves_of nameOf U l
  | Err d => nameOf (bd_first d) = nameOf (bd_second d) ∧ U (place_name (bd_first d)) ∧ U (place_name (bd_second d))
  end.
Proof.
  assert (∀ cs e, foldl (λ acc c, let* leaves := acc in let* found := findDuplicate nameOf c in merge_leaves b found leaves) (Err e) cs = Err e) as Herr
    by (clear; intros cs e; induction cs; [done|by cbn]).
  intros Hcs. revert acc. induction Hcs as [|c cs [H1 H2] Hcs IH]; intros acc HU Ha; [done|]. cbn [foldl res_bind].
  destruct (findDuplicate nameOf c) as [l|d] eqn:E; cbn [res_bind].
  - assert (leaves_of nameOf U l) as Hl by (intros x p Hp; destruct (H1 l x p) as [? ?]; [done|done|split; [done|]; eapply HU; [left|done]]).
    pose proof (merge_leaves_sourced nameOf U b l acc Hl Ha) as Hm. destruct (merge_leaves b l acc); [|by rewrite Herr].
    apply IH; [|done]. intros c' x Hc'. apply HU. by right.
  - rewrite Herr. destruct (H2 d) as (? & ? & ?); [done|]. split_and!; [done|eapply HU; [left|done]..].
Qed.

Lemma findDuplicate_sourced nameOf o : sourced nameOf o.
Proof.
  induction o as [cs IH|cs IH|p|ms c IH|p q] using out_ind'.
  1,2: match goal with |- sourced _ ?o => pose proof (dup_fold_sourced nameOf (λ x, x ∈ universe o) true cs [] IH) as Ha; pose proof (dup_fold_sourced nameOf (λ x, x ∈ universe o) false cs [] IH) as Hx end.
  1: clear Hx; rename Ha into Hd. 2: clear Ha; rename Hx into Hd.
  1,2: (assert (∀ c x, c ∈ cs → x ∈ universe c → x ∈ universe (OutAnd cs)) as K1 by (intros; apply elem_of_universe_and; eauto)).
  1,2: (assert (∀ c x, c ∈ cs → x ∈ universe c → x ∈ universe (OutXor cs)) as K2 by (intros; apply elem_of_universe_xor; eauto)).
  - specialize (Hd K1). split.
    + intros l x p E Hp. cbn [findDuplicate] in E. rewrite E in Hd. apply Hd; [by intros ?? ?%not_elem_of_nil|done].
    + intros d E. cbn [findDuplicate] in E. rewrite E in Hd. apply Hd. by intros ?? ?%not_elem_of_nil.
  - specialize (Hd K2). split.
    + intros l x p E Hp. cbn [findDuplicate] in E. rewrite E in Hd. apply Hd; [by intros ?? ?%not_elem_of_nil|done].
    + intros d E. cbn [findDuplicate] in E. rewrite E in Hd. apply Hd. by intros ?? ?%not_elem_of_nil.
  - split; [|done]. intros l x q [= <-] [= -> ->]%list_elem_of_singleton. split; [done|]. cbn. set_solver.
  - exact IH.
  - split; [|done]. intros l x r [= <-] [= -> ->]%list_elem_of_singleton. split; [done|]. cbn. set_solver.
Qed.

(** ** A transition playing another under names *)

Section Plays.
Context {V : Type}.
Implicit Types (t : transition V) (s : jsstr → jsstr).

(** [t'] fires as [t] does on the counts seen through [s], and touches nothing else. *)
Definition plays s t t' : Prop := ∀ c d', fires t' c d' ↔
  ∃ d, fires t (λ n, c (s n)) d ∧ (∀ n, n ∈ arc_names t → d' (s n) = d n) ∧ ∀ n, n ∉ s <$> arc_names t → d' n = c n.

Lemma plays_trans s1 s2 t t' t'' : plays s1 t t' → plays s2 t' t'' → (∀ n, n ∈ arc_names t' ↔ n ∈ s1 <$> arc_names t) → plays (λ n, s2 (s1 n)) t t''.
Proof.
  intros H1 H2 Harc c d''. assert (∀ n, n ∈ s2 <$> arc_names t' ↔ n ∈ (λ m, s2 (s1 m)) <$> arc_names t) as Harc'.
  { intros n. rewrite !list_elem_of_fmap. split.
    - intros (m & -> & (k & -> & Hk)%Harc%list_elem_of_fmap). by exists k.
    - intros (k & -> & Hk). exists (s1 k). split; [done|]. apply Harc. by apply list_elem_of_fmap_2. }
  rewrite (H2 c d''). split.
  - intros (d' & (d & Hd & Hin & Hout)%H1 & Hin' & Hout'). exists d. split_and!; [done| |].
    + intros n Hn. rewrite Hin', Hin; [done|done|]. apply Harc. by apply list_elem_of_fmap_2.
    + intros n Hn. apply Hout'. by rewrite Harc'.
  - intros (d & Hd & Hin & Hout). exists (λ m, if decide (m ∈ arc_names t') then d'' (s2 m) else c (s2 m)). split_and!.
    + apply H1. exists d. split_and!; [done| |].
      * intros n Hn. rewrite decide_True by (apply Harc; by apply list_elem_of_fmap_2). by apply Hin.
      * intros n Hn. by rewrite decide_False by by rewrite Harc.
    + intros n Hn. by rewrite decide_True.
    + intros n Hn. apply Hout. by rewrite <- Harc'.
Qed.

Lemma arc_names_image f s name t t' : (∀ p, place_name (f p) = s (place_name p)) → image f name t t' → ∀ n, n ∈ arc_names t' ↔ n ∈ s <$> arc_names t.
Proof.
  intros Hf Hi n. unfold arc_names, arc_places, outputPlaces. rewrite (im_inputs _ _ _ _ Hi), (im_output _ _ _ _ Hi), (im_inhibitors _ _ _ _ Hi), (im_reads _ _ _ _ Hi), (im_resets _ _ _ _ Hi).
  assert (∀ l l' : list place, (∀ q, q ∈ l' ↔ ∃ p, q = f p ∧ p ∈ l) → n ∈ place_name <$> l' ↔ n ∈ s <$> (place_name <$> l)) as K.
  { intros l l' Hl. rewrite !list_elem_of_fmap. split.
    - intros (q & -> & (p & -> & Hp)%Hl). exists (place_name p). split; [apply Hf|by apply list_elem_of_fmap_2].
    - intros (x & -> & (p & -> & Hp)%list_elem_of_fmap). exists (f p). split; [by rewrite Hf|]. apply Hl. by exists p. }
  assert (∀ l : list place, n ∈ place_name <$> (f <$> l) ↔ n ∈ s <$> (place_name <$> l)) as Kl by (intros l; apply K; intros q; by rewrite list_elem_of_fmap).
  assert (n ∈ place_name <$> (in_place <$> (map_in f <$> inputSpecs t)) ↔ n ∈ s <$> (place_name <$> (in_place <$> inputSpecs t))) as K1.
  { apply K. intros q. rewrite !list_elem_of_fmap. split.
    - intros (x & -> & (y & -> & Hy)%list_elem_of_fmap). exists (in_place y). split; [by rewrite map_in_name|by apply list_elem_of_fmap_2].
    - intros (p & -> & (y & -> & Hy)%list_elem_of_fmap). exists (map_in f y). split; [by rewrite map_in_name|by apply list_elem_of_fmap_2]. }
  assert (n ∈ place_name <$> from_option allPlaces [] (map_out f <$> outputSpec t) ↔ n ∈ s <$> (place_name <$> from_option allPlaces [] (outputSpec t))) as K2.
  { destruct (outputSpec t) as [o|]; cbn; [|done]. apply K. intros q. by rewrite elem_of_allPlaces_map. }
  rewrite !fmap_app, !elem_of_app, K1, K2, !Kl. done.
Qed.

(** Firings depend on the counts of the places of the arcs. *)
Section Agree.
Variables (t : transition V) (c c2 : jsstr → Z).
Hypothesis Hmade : made t.
Hypothesis Hagree : ∀ n, n ∈ arc_names t → c n = c2 n.
Abbreviation drainedc := (drained_counts [] Ignore).
Abbreviation enabledc := (enabled_counts [] Ignore).
Abbreviation leftc := (intermediate_counts [] Ignore).

Lemma agree_place p : p ∈ arc_places t → c (place_name p) = c2 (place_name p).
Proof. intros Hp. apply Hagree. by apply list_elem_of_fmap_2. Qed.

Lemma counts_agree_enabled : enabledc t c = enabledc t c2.
Proof.
  unfold enabled_counts. f_equal; [f_equal|]; apply forallb_ext_in, Forall_forall; intros x Hx; unfold can_take;
    (rewrite agree_place; [done|]); unfold arc_places; rewrite !elem_of_app; [left; by apply list_elem_of_fmap_2|tauto|tauto].
Qed.

Lemma agree_removed n : c n = c2 n → removed [] Ignore t c n = removed [] Ignore t c2 n.
Proof. unfold removed. intros E. destruct (spec_of t n) as [x|]; [|done]. by rewrite E. Qed.

Lemma agree_left n : leftc t c2 n = (leftc t c n + (c2 n - c n))%Z.
Proof.
  unfold intermediate_counts. destruct (decide (n ∈ arc_names t)) as [Hn|Hn].
  - rewrite (agree_removed n) by by apply Hagree. rewrite (Hagree n Hn). case_decide; lia.
  - rewrite !decide_False by (intros ?; by apply Hn, arc_names_reset).
    assert (spec_of t n = None) as E; [|unfold removed; rewrite E; cbn; lia]. unfold spec_of, js_find. destruct (list_find _ _) as [[k x]|] eqn:E; [|done].
    apply list_find_Some in E as (E & Hx%Is_true_true%bool_decide_eq_true & _). exfalso. apply Hn, arc_names_input. subst n. apply list_elem_of_lookup_2 in E.
    unfold input_names. by apply (list_elem_of_fmap_2 (λ y, place_name (in_place y))).
Qed.

Lemma agree_drained p : place_name p ∈ arc_names t → drainedc t c p = drainedc t c2 p.
Proof. intros Hp. unfold drained_counts. destruct (spec_of t (place_name p)); [|done]. by rewrite (Hagree _ Hp). Qed.

Lemma agree_forward p : place_name p ∈ arc_names t → depositCount (forwardDeposit t p) (drainedc t c) = depositCount (forwardDeposit t p) (drainedc t c2).
Proof.
  intros Hp. unfold forwardDeposit. destruct (js_find _ (inputSpecs t)) as [x|] eqn:E; [|done]. unfold js_find in E. destruct (list_find _ _) as [[k y]|] eqn:El; [|done]. injection E as ->.
  apply list_find_Some in El as (El & Hx%Is_true_true%bool_decide_eq_true & _). destruct x as [q|q k'|q|q k']; cbn in *; try done; apply agree_drained; by rewrite Hx.
Qed.

Lemma agree_leaves o n : (∀ p q, (p, q) ∈ findForwardInputs o → place_name p ∈ arc_names t) → leaf_total (drainedc t c) t o n = leaf_total (drainedc t c2) t o n.
Proof.
  intros Hfw. induction o as [cs IH|cs IH|p|ms ch IH|p q] using out_ind'; cbn [leaf_total]; [|done|done|by apply IH|].
  - rewrite Forall_forall in IH. assert (∀ x, x ∈ cs → leaf_total (drainedc t c) t x n = leaf_total (drainedc t c2) t x n) as H.
    { intros x Hx. apply IH; [done|]. intros p q Hpq. eapply Hfw. cbn [findForwardInputs]. by eapply elem_of_flat_map. }
    clear -H. induction cs as [|x cs IHcs]; [done|]. cbn [foldr]. rewrite H by left. rewrite IHcs; [done|]. intros; apply H; by right.
  - case_decide; [|done]. apply agree_forward. eapply Hfw. left.
Qed.

Lemma agree_effect put : effect t c put → effect t c2 put.
Proof.
  pose proof (made_builder_wf t Hmade) as ((_ & _ & Hout & _) & _ & Hto). cbn [b_output b_inputs] in Hout. unfold effect.
  destruct (outputSpec t) as [o|] eqn:Eo; [|done]. intros [?|(ms & child & Et & Hput)]; [by left|right]. exists ms, child. split; [done|].
  intros n. rewrite Hput. apply agree_leaves. intros p q Hpq. destruct (Hout o eq_refl) as (_ & Hcnt & Hx & _ & Hfw).
  rewrite Hto in Et. destruct (findTimeout_ok o ms child Hcnt Hx Et) as (_ & _ & X3). apply arc_names_input. eapply Hfw. by apply X3.
Qed.

Lemma agree_fires d : fires t c d → fires t c2 (λ n, (d n + (c2 n - c n))%Z).
Proof.
  intros (En & put & He & Hd). split; [by rewrite <- counts_agree_enabled|]. exists put. split; [by apply agree_effect|]. intros n. rewrite Hd, agree_left. lia.
Qed.
End Agree.

Lemma plays_agree s s' t t' : made t → (∀ n, n ∈ arc_names t → s n = s' n) → plays s t t' → plays s' t t'.
Proof.
  intros Hm Hs H c d'. rewrite (H c d'). assert (∀ n, n ∈ s <$> arc_names t ↔ n ∈ s' <$> arc_names t) as Hn.
  { intros n. rewrite !list_elem_of_fmap. split; intros (m & -> & Hm'); exists m; by rewrite (Hs m Hm'). }
  split; intros (d & Hd & Hin & Hout).
  - exists (λ n, (d n + (c (s' n) - c (s n)))%Z). split_and!.
    + apply (agree_fires t (λ n, c (s n)) (λ n, c (s' n))); [done| |done]. intros n Hn'. by rewrite Hs.
    + intros n Hn'. rewrite <- (Hs n Hn'), Hin by done. lia.
    + intros n Hn'. apply Hout. by rewrite Hn.
  - exists (λ n, (d n + (c (s n) - c (s' n)))%Z). split_and!.
    + apply (agree_fires t (λ n, c (s' n)) (λ n, c (s n))); [done| |done]. intros n Hn'. by rewrite Hs.
    + intros n Hn'. rewrite (Hs n Hn'), Hin by done. lia.
    + intros n Hn'. apply Hout. by rewrite <- Hn.
Qed.

Lemma made_match_wf t ms : made t → t_matchSpec t = Some ms → match_wf (input_names (inputSpecs t)) (outputSpec t) ms.
Proof. intros Hm E. pose proof (made_builder_wf t Hm) as ((_ & _ & _ & H) & _). by apply H. Qed.
Lemma made_match t ms : made t → t_matchSpec t = Some ms → (∀ k, k ∈ ms_keys ms → key_name k ∈ arc_names t) ∧ ∀ k, k ∈ ms_relays ms → key_name k ∈ arc_names t.
Proof.
  intros Hm E. destruct (made_match_wf t ms Hm E) as (_ & H1 & _ & H2). split; [intros k Hk; by apply arc_names_input, H1|].
  intros k Hk. destruct (H2 k Hk) as (o & p & Eo & Hp & Ek). rewrite <- Ek. unfold arc_names, arc_places, outputPlaces. rewrite Eo. cbn [from_option].
  apply list_elem_of_fmap_2. rewrite !elem_of_app. tauto.
Qed.

(** The correlation of [t'] is that of [t] under [s]: the same keys and relays in order, at the renamed
    places, with the same key functions; none where [t] has none. *)
Definition keys_renamed s (ks ks' : list (match_key V)) : Prop := Forall2 (λ k k', key_name k' = s (key_name k) ∧ mk_key k' = mk_key k) ks ks'.
Definition match_renamed s t t' : Prop :=
  match t_matchSpec t, t_matchSpec t' with
  | None, None => True
  | Some ms, Some ms' => keys_renamed s (ms_keys ms) (ms_keys ms') ∧ keys_renamed s (ms_relays ms) (ms_relays ms')
  | _, _ => False
  end.

(** [t'] joins on the name [t] joins on when the places [s] corresponds hold the same tokens. *)
Definition joins_alike s t t' : Prop := ∀ g g' : place → list (token V),
  (∀ p p', place_name p ∈ arc_names t → place_name p' = s (place_name p) → g' p' = g p) → findBinding t' g' = findBinding t g.

Lemma keys_renamed_trans s1 s2 ks ks' ks'' : keys_renamed s1 ks ks' → keys_renamed s2 ks' ks'' → keys_renamed (λ n, s2 (s1 n)) ks ks''.
Proof.
  intros H. revert ks''. induction H as [|k k' ks ks' [E1 E2] _ IH]; intros ks'' H'; inversion H' as [|? k'' ? ? [F1 F2] F3]; subst; constructor; [|by apply IH].
  split; [by rewrite F1, E1|by rewrite F2].
Qed.
Lemma match_renamed_trans s1 s2 t t' t'' : match_renamed s1 t t' → match_renamed s2 t' t'' → match_renamed (λ n, s2 (s1 n)) t t''.
Proof.
  unfold match_renamed. destruct (t_matchSpec t), (t_matchSpec t'), (t_matchSpec t''); try done. intros [] []. split; by eapply keys_renamed_trans.
Qed.

Lemma keys_renamed_agree s s' (N : list jsstr) ks ks' : (∀ n, n ∈ N → s n = s' n) → (∀ k, k ∈ ks → key_name k ∈ N) → keys_renamed s ks ks' → keys_renamed s' ks ks'.
Proof.
  intros Hs Hk H. induction H as [|k k' ks ks' [E1 E2] _ IH]; constructor; [|apply IH; intros; apply Hk; by right].
  split; [|done]. rewrite <- Hs; [done|]. apply Hk. left.
Qed.
Lemma match_renamed_agree s s' t t' : made t → (∀ n, n ∈ arc_names t → s n = s' n) → match_renamed s t t' → match_renamed s' t t'.
Proof.
  intros Hm Hs. unfold match_renamed. destruct (t_matchSpec t) as [ms|] eqn:E, (t_matchSpec t') as [ms'|]; try done.
  destruct (made_match t ms Hm E) as [K1 K2]. intros []. split; by eapply keys_renamed_agree.
Qed.

Lemma joins_alike_trans s1 s2 t t' t'' : joins_alike s1 t t' → joins_alike s2 t' t'' → (∀ n, n ∈ arc_names t' ↔ n ∈ s1 <$> arc_names t) → joins_alike (λ n, s2 (s1 n)) t t''.
Proof.
  intros H1 H2 Harc g g'' Hg. set (g' := λ p' : place, g'' (mk_place 0 (s2 (place_name p')))).
  rewrite <- (H1 g g'). 1: apply H2.
  - intros p' p'' (k & Ek & Hk)%Harc%list_elem_of_fmap Hp''. rewrite Ek in Hp''. unfold g'. rewrite Ek.
    rewrite !(Hg (mk_place 0 k)); done.
  - intros p p' Hp Hp'. unfold g'. apply Hg; [done|]. by rewrite Hp'.
Qed.
Lemma joins_alike_agree s s' t t' : (∀ n, n ∈ arc_names t → s n = s' n) → joins_alike s t t' → joins_alike s' t t'.
Proof. intros Hs H g g' Hg. apply H. intros p p' Hp Hp'. apply Hg; [done|]. by rewrite <- Hs. Qed.

Lemma required_in_map f s specs n : (∀ p, place_name (f p) = s (place_name p)) → injective_on s (n :: input_names specs) →
  required_in (map_in f <$> specs) (s n) = required_in specs n.
Proof.
  intros Hf. induction specs as [|x specs IH]; intros Hi; [done|]. rewrite fmap_cons. cbn [required_in]. rewrite map_in_name, Hf.
  assert (s (place_name (in_place x)) = s n ↔ place_name (in_place x) = n) as Hx.
  { split; [|by intros ->]. intros E. apply Hi; [right; left|left|done]. }
  rewrite (decide_ext _ _ _ _ Hx). rewrite IH; [by destruct x|].
  intros a b Ha Hb. apply Hi; [apply elem_of_cons in Ha as [->|Ha]; [left|by right; right]|apply elem_of_cons in Hb as [->|Hb]; [left|by right; right]].
Qed.

Lemma image_match f s name t t' : (∀ p, place_name (f p) = s (place_name p)) → made t → injective_on s (arc_names t) → image f name t t' →
  match_renamed s t t' ∧ joins_alike s t t'.
Proof.
  intros Hf Hm Hi Him. unfold match_renamed, joins_alike, findBinding. rewrite (im_match _ _ _ _ Him).
  destruct (t_matchSpec t) as [ms|] eqn:E; [|done]. cbn [fmap option_fmap option_map map_match ms_keys ms_relays].
  assert (∀ ks, keys_renamed s ks (map_key f <$> ks)) as K.
  { intros ks. unfold keys_renamed. apply Forall2_fmap_r, Forall_Forall2_diag, Forall_forall. intros k _. cbn. split; [apply Hf|done]. }
  split; [by split|]. intros g g' Hg. destruct (made_match t ms Hm E) as [Hk _].
  f_equal; rewrite <- list_fmap_compose; apply list_fmap_ext; intros i k Hik; cbn; apply list_elem_of_lookup_2 in Hik.
  - f_equal. apply Hg; [by apply Hk|]. apply Hf.
  - unfold requiredFor. rewrite (im_inputs _ _ _ _ Him). unfold key_name at 1. cbn [map_key mk_place_of]. rewrite Hf.
    apply required_in_map; [done|]. intros a b Ha Hb. assert (∀ x, x ∈ key_name k :: input_names (inputSpecs t) → x ∈ arc_names t) as Hsub.
    { intros x [->|Hx]%elem_of_cons; [by apply Hk|by apply arc_names_input]. }
    apply Hi; by apply Hsub.
Qed.

(** What a rebuilt transition has of the original. *)
Record rebuilt s name t t' : Prop := {
  rb_name : t_name t' = name;
  rb_made : made t';
  rb_timeouts : made_timeouts t';
  rb_timing : t_timing t' = t_timing t;
  rb_priority : priority t' = priority t;
  rb_arcs : ∀ n, n ∈ arc_names t' ↔ n ∈ s <$> arc_names t;
  rb_plays : plays s t t';
  rb_match : match_renamed s t t';
  rb_joins : joins_alike s t t'
}.

Lemma timeouts_positive_map f o : timeouts_positive (map_out f o) = timeouts_positive o.
Proof.
  induction o as [cs IH|cs IH|p|ms c IH|p q] using out_ind'; cbn [map_out timeouts_positive]; [| |done|by rewrite IH|done].
  1,2: rewrite forallb_fmap; by apply forallb_ext_in.
Qed.

Lemma rebuild_rebuilt t name remap : made t → made_timeouts t → injective_on (ren remap) (arc_names t) →
  ∃ t', rebuildWithName t name remap None = Ok t' ∧ rebuilt (ren remap) name t t'.
Proof.
  intros Hm Ht Hi. destruct (rebuild_total remap t name Hm Ht Hi) as [t' E]. exists t'. split; [done|].
  destruct (rebuild_image _ _ _ _ E) as (Him & _ & b & Hb & Ho). pose proof (made_builder_wf t Hm) as (_ & Hinh & _).
  assert (∀ p, place_name (remap_place remap p) = ren remap (place_name p)) as Hn by apply remap_name. constructor.
  - apply Him.
  - exists b. split; [done|]. intros o Eo. rewrite Ho, (im_output _ _ _ _ Him) in Eo. apply fmap_Some in Eo as (o0 & Eo & ->). rewrite inhabited_map. by apply Hinh.
  - intros o Eo. rewrite (im_output _ _ _ _ Him) in Eo. apply fmap_Some in Eo as (o0 & Eo & ->). rewrite timeouts_positive_map. by apply Ht.
  - apply Him.
  - apply Him.
  - by eapply arc_names_image.
  - intros c d'. by eapply image_fires.
  - by eapply image_match.
  - by eapply image_match.
Qed.

Lemma rebuilt_agree s s' name t t' : made t → (∀ n, n ∈ arc_names t → s n = s' n) → rebuilt s name t t' → rebuilt s' name t t'.
Proof.
  intros Hm Hs []. constructor; try done; [|by eapply plays_agree|by eapply match_renamed_agree|by eapply joins_alike_agree]. intros n. rewrite rb_arcs0, !list_elem_of_fmap.
  split; intros (m & -> & Hm'); exists m; by rewrite (Hs m Hm').
Qed.

Lemma rebuilt_trans s1 s2 x y t t' t'' : rebuilt s1 x t t' → rebuilt s2 y t' t'' → rebuilt (λ n, s2 (s1 n)) y t t''.
Proof.
  intros [] []. constructor; [done|done|done|congruence|congruence| |by eapply plays_trans|by eapply match_renamed_trans|by eapply joins_alike_trans].
  intros n. rewrite rb_arcs1, !list_elem_of_fmap. split.
  - intros (m & -> & (k & -> & Hk)%rb_arcs0%list_elem_of_fmap). by exists k.
  - intros (k & -> & Hk). exists (s1 k). split; [done|]. apply rb_arcs0. by apply list_elem_of_fmap_2.
Qed.
End Plays.

(** ** Instances *)

Section Instances.
Context {V A : Type} `{EqDecision A}.
Implicit Types (o : tobj V A) (b : host_builder V A) (def : subnet_def V A) (i : instance V A).

(** [o'] is [o] under the names [s], with its action. *)
Definition copied (s : jsstr → jsstr) (name : jsstr → jsstr) o o' : Prop := rebuilt s (name (o_name o)) (o_t o) (o_t o') ∧ o_action o' = o_action o.
(** Objects [k] places after each other, made from [n] on. *)
Definition numbered (n : nat) (l : list (tobj V A)) : Prop := o_ref <$> l = seq n (length l).

Definition body_names def : list jsstr := place_name <$> n_places (sd_body def).

Record def_ok def : Prop := {
  df_made : ∀ o, o ∈ n_transitions (sd_body def) → made (o_t o) ∧ made_timeouts (o_t o);
  df_closed : ∀ o x, o ∈ n_transitions (sd_body def) → x ∈ arc_names (o_t o) → x ∈ body_names def;
  df_names : NoDup (o_name <$> n_transitions (sd_body def));
  df_terminals : n_terminals (sd_body def) = [];
  df_pkeys : NoDup (if_ports (sd_iface def)).*1;
  df_ports : ∀ k p, (k, p) ∈ if_ports (sd_iface def) → port_name p = k ∧ place_name (port_place p) ∈ body_names def;
  df_channels : ∀ k c, (k, c) ∈ if_channels (sd_iface def) → ch_name c = k ∧ o_name (ch_transition c) ∈ o_name <$> n_transitions (sd_body def)
}.

Lemma prefixed_inj prefix x y : prefixed prefix x = prefixed prefix y → x = y.
Proof. unfold prefixed. by intros ?%app_inv_head%app_inv_head. Qed.

Lemma rename_places_exact prefix ps m n : ∃ n' m', rename_places prefix ps m n = Ok (n', m') ∧ n ≤ n' ∧
  ∀ x, map_get x m' = None ∧ x ∉ place_name <$> ps ∧ map_get x m = None ∨
       (∃ q, map_get x m' = Some q ∧ ((x ∈ place_name <$> ps ∧ place_name q = prefixed prefix x) ∨ (x ∉ place_name <$> ps ∧ map_get x m = Some q))).
Proof.
  revert m n. induction ps as [|p ps IH]; intros m n; cbn [rename_places].
  { exists n, m. split_and!; [done|done|]. intros x. destruct (map_get x m) as [q|] eqn:E; [right; exists q; split; [done|right]|left; split_and!; try done]; (split; [by intros ?%not_elem_of_nil|done]) || by intros ?%not_elem_of_nil. }
  destruct (IH (map_set (place_name p) (mk_place n (prefixed prefix (place_name p))) m) (S n)) as (n' & m' & E & Hn & Hm').
  exists n', m'. split_and!; [exact E|lia|]. intros x. specialize (Hm' x). rewrite map_get_set in Hm'.
  assert (x ∈ place_name <$> p :: ps ↔ x = place_name p ∨ x ∈ place_name <$> ps) as Hin by (rewrite fmap_cons; apply elem_of_cons). setoid_rewrite Hin.
  case_decide as Hx.
  - destruct Hm' as [(_ & _ & ?)|(q & Eq & Hq)]; [done|]. right. exists q. split; [done|]. left. split; [by left|]. destruct Hq as [[_ ?]|[_ [= <-]]]; [done|]. by subst.
  - destruct Hm' as [(? & ? & ?)|(q & Eq & [[??]|[??]])]; [left; split_and!; [done|tauto|done]|right; exists q..]; split; try done; [left; by split; [right|]|right; by split; [tauto|]].
Qed.

(** The parts of the builder [build] reads besides transitions and places. *)
Definition same_frame b b' : Prop :=
  hb_fusionSets b' = hb_fusionSets b ∧ hb_terminals b' = hb_terminals b ∧ hb_retiredPorts b' = hb_retiredPorts b ∧ hb_contributions b' = hb_contributions b.
Definition refs_below (n : nat) (l : list (tobj V A)) : Prop := ∀ o, o ∈ l → o_ref o < n.

Lemma hb_transition_append n o b : refs_below n (hb_transitions b) → n ≤ o_ref o → hb_transitions (hb_transition o b) = hb_transitions b ++ [o].
Proof. intros Hb Ho. cbn. rewrite decide_False; [done|]. intros (x & E & Hx%Hb)%list_elem_of_fmap. lia. Qed.

Lemma refs_below_snoc n o l : refs_below n l → o_ref o = n → refs_below (S n) (l ++ [o]).
Proof. intros Hl Ho x [Hx%Hl| ->%list_elem_of_singleton]%elem_of_app; lia. Qed.

(** The transitions of a body can be rebuilt under the names. *)
Definition rebuildable (s : jsstr → jsstr) (ts : list (tobj V A)) : Prop := ∀ o, o ∈ ts → made (o_t o) ∧ made_timeouts (o_t o) ∧ injective_on s (arc_names (o_t o)).

Lemma rename_transitions_exact prefix remap ts m b n : rebuildable (ren remap) ts → refs_below n (hb_transitions b) → ∃ n' m' b' l,
  rename_transitions prefix remap ts m b n = Ok (n', (m', b')) ∧ n ≤ n' ∧ hb_transitions b' = hb_transitions b ++ l ∧ refs_below n' (hb_transitions b') ∧
  Forall2 (copied (ren remap) (prefixed prefix)) ts l ∧ same_frame b b' ∧
  ∀ x, (x ∈ o_name <$> ts ∨ ∃ o, map_get x m = Some o ∧ o_name o = prefixed prefix x) → ∃ o, map_get x m' = Some o ∧ o_name o = prefixed prefix x.
Proof.
  revert m b n. induction ts as [|o ts IH]; intros m b n Hr Hb; cbn [rename_transitions].
  { exists n, m, b, []. rewrite app_nil_r. split_and!; try done. intros x [?%not_elem_of_nil|?]; done. }
  destruct (Hr o) as (Hm & Ht & Hi); [left|]. destruct (rebuild_rebuilt (o_t o) (prefixed prefix (o_name o)) remap Hm Ht Hi) as (t & Et & Hreb).
  assert (rewriteTransition prefix remap o n = Ok (S n, TObj n t (o_action o))) as E by (apply rewriteTransition_ok; by exists t).
  destruct (IH (map_set (o_name o) (TObj n t (o_action o)) m) (hb_transition (TObj n t (o_action o)) b) (S n)) as (n' & m' & b' & l & E' & Hn & Hts & Hbelow & HF & Hfr & Hm').
  { intros x Hx. apply Hr. by right. }
  { rewrite (hb_transition_append n) by done. by apply refs_below_snoc. }
  exists n', m', b', (TObj n t (o_action o) :: l). split_and!; [|lia| |done| |done|].
  - unfold mbind, alloc_bind at 1. rewrite E. exact E'.
  - rewrite Hts, (hb_transition_append n) by done. by rewrite <- (assoc_L (++)).
  - constructor; [by split|done].
  - intros x Hx. apply Hm'. rewrite map_get_set. case_decide as Hd.
    + subst x. right. eexists. split; [done|]. apply Hreb.
    + destruct Hx as [Hx|Hx]; [left|by right]. rewrite fmap_cons in Hx. apply elem_of_cons in Hx as [?|?]; [done|done].
Qed.

Lemma hb_build_plain b n : hb_fusionSets b = [] → hb_terminals b = [] → hb_retiredPorts b = [] →
  hb_build b n = Ok (n, NetObj (hb_name b) (hb_places b) (hb_transitions b) (resolveSubnetMembership b) []).
Proof. intros E1 E2 E3. unfold hb_build. rewrite E1, E2, E3. reflexivity. Qed.

(** What an instance is. *)
Record instance_of (prefix : jsstr) def (n' : nat) i : Prop := {
  io_prefix : in_prefix i = prefix;
  io_def : in_def i = def;
  io_transitions : Forall2 (copied (prefixed prefix) (prefixed prefix)) (n_transitions (sd_body def)) (n_transitions (in_renamedBody i));
  io_refs : refs_below n' (n_transitions (in_renamedBody i));
  io_ports : ∀ k p, (k, p) ∈ if_ports (sd_iface def) → ∃ q, in_port k i = Ok q ∧ place_name q = prefixed prefix (place_name (port_place p));
  io_channels : ∀ k c, (k, c) ∈ if_channels (sd_iface def) → ∃ o, (k, o) ∈ in_channelHandles i ∧ o_name o = prefixed prefix (o_name (ch_transition c))
}.

Lemma res_map_all {B C E} (f : B → result E C) l : (∀ x, x ∈ l → ∃ y, f x = Ok y) → ∃ l', res_map f l = Ok l' ∧ Forall2 (λ x y, f x = Ok y) l l'.
Proof.
  induction l as [|x l IH]; intros H; [by exists []|]. destruct (H x) as [y Hy]; [left|]. destruct IH as (l' & E' & HF); [intros; apply H; by right|].
  exists (y :: l'). cbn [res_map]. rewrite Hy. cbn [res_bind]. rewrite E'. split; [done|by constructor].
Qed.

Lemma Forall2_weaken {B C} (P Q : B → C → Prop) l k : (∀ x y, x ∈ l → P x y → Q x y) → Forall2 P l k → Forall2 Q l k.
Proof. intros H HF. induction HF as [|x y l k Hp HF IH]; constructor; [apply H; [left|done]|apply IH; intros; apply H; [by right|done]]. Qed.


Lemma Forall2_elem {B C} (P : B → C → Prop) l k x : Forall2 P l k → x ∈ l → ∃ y, y ∈ k ∧ P x y.
Proof. induction 1 as [|a c l k Hp HF IH]; [by intros ?%not_elem_of_nil|]. intros [->|Hx]%elem_of_cons; [exists c; split; [left|done]|]. destruct (IH Hx) as (y & ? & ?). exists y. split; [by right|done]. Qed.

Lemma handle_keys m (ps : list (jsstr * port)) ph : (∀ k p, (k, p) ∈ ps → port_name p = k) → Forall2 (λ p y, port_handle m p = Ok y) ps.*2 ph → ph.*1 = ps.*1.
Proof.
  revert ph. induction ps as [|[k p] ps IH]; intros ph Hk HF; inversion HF as [|? y ? ph' Hy HF']; subst; [done|]. cbn. rewrite (IH ph'); [|intros; apply Hk; by right|done].
  unfold port_handle in Hy. destruct (map_get _ m); [|done]. injection Hy as <-. cbn. f_equal. apply Hk. left.
Qed.

Lemma renamed_names prefix ps n n' m : rename_places prefix ps [] n = Ok (n', m) → ∀ x, x ∈ place_name <$> ps → ∃ q, map_get x m = Some q ∧ place_name q = prefixed prefix x.
Proof.
  intros E x Hx. destruct (rename_places_exact prefix ps [] n) as (n1 & m1 & E1 & _ & H). rewrite E1 in E. injection E as -> ->.
  destruct (H x) as [(_ & ? & _)|(q & Eq & [[_ ?]|[? _]])]; [done|by exists q|done].
Qed.

Lemma instantiate_instance prefix def n : def_ok def → validatePrefix prefix = Ok () → ∃ n' i, instantiate prefix def n = Ok (n', i) ∧ n ≤ n' ∧ instance_of prefix def n' i.
Proof.
  intros [D1 D2 D3 D4 D5 D6 D7] Hp. set (body := sd_body def) in *.
  destruct (rename_places_exact prefix (n_places body) [] n) as (n1 & m & E1 & Hn1 & _). pose proof (renamed_names _ _ _ _ _ E1) as Hm.
  assert (∀ x, x ∈ body_names def → ren m x = prefixed prefix x) as Hren by (intros x (q & Eq & ?)%Hm; unfold ren; by rewrite Eq).
  set (b0 := foldl (λ b y, hb_place y.2 b) (hb_new (prefixed prefix (n_name body))) m).
  assert (hb_transitions b0 = [] ∧ hb_fusionSets b0 = [] ∧ hb_terminals b0 = [] ∧ hb_retiredPorts b0 = []) as (B1 & B2 & B3 & B4).
  { unfold b0. apply (foldl_inv (λ b, hb_transitions b = [] ∧ hb_fusionSets b = [] ∧ hb_terminals b = [] ∧ hb_retiredPorts b = [])); [|done]. by intros ? ? ? ?. }
  destruct (rename_transitions_exact prefix m (n_transitions body) [] b0 n1) as (n2 & trm & b1 & l & E2 & Hn2 & Hl & Hbelow & HF & (F1 & F2 & F3 & F4) & Htr).
  { intros o Ho. destruct (D1 o Ho) as [? ?]. split_and!; [done|done|]. intros x y Hx Hy. rewrite !Hren by by eapply D2. apply prefixed_inj. }
  { rewrite B1. by intros ? ?%not_elem_of_nil. }
  rewrite B1 in Hl. cbn in Hl.
  pose proof (hb_build_plain b1 n2 ltac:(congruence) ltac:(congruence) ltac:(congruence)) as E3.
  destruct (res_map_all (port_handle m) (if_ports (sd_iface def)).*2) as (ph & E4 & H4).
  { intros p ([k p'] & -> & Hk)%list_elem_of_fmap. destruct (D6 k p' Hk) as [_ (q & Eq & _)%Hm]. cbn. unfold port_handle. rewrite Eq. by eexists. }
  destruct (res_map_all (channel_handle trm) (if_channels (sd_iface def)).*2) as (chh & E5 & H5).
  { intros c ([k c'] & -> & Hk)%list_elem_of_fmap. destruct (D7 k c' Hk) as [_ Hc]. destruct (Htr (o_name (ch_transition c'))) as (o & Eo & _); [by left|].
    unfold channel_handle. cbn [snd]. rewrite Eo. by eexists. }
  set (renamed := NetObj (hb_name b1) (hb_places b1) (hb_transitions b1) (resolveSubnetMembership b1) []) in *.
  exists n2, (Instance prefix def renamed ph chh). split_and!; [|lia|].
  - assert (renameNet body prefix n = Ok (n2, (renamed, m, trm))) as Er.
    { unfold renameNet, rejectSubnetTerminals. rewrite D4. apply alloc_bind_ok. exists n, (). split; [done|]. apply alloc_bind_ok. exists n1, m. split; [done|].
      apply alloc_bind_ok. exists n2, (trm, b1). split; [done|]. apply alloc_bind_ok. by exists n2, renamed. }
    unfold instantiate. apply alloc_bind_ok. exists n, (). split; [by rewrite Hp|]. apply alloc_bind_ok. exists n2, (renamed, m, trm). split; [done|].
    apply alloc_bind_ok. exists n2, ph. split; [by rewrite E4|]. apply alloc_bind_ok. exists n2, chh. split; [by rewrite E5|done].
  - constructor; cbn; [done|done| |done| |].
    + rewrite Hl. eapply Forall2_weaken; [|exact HF]. intros o o' Ho [Hr Ha]. split; [|done]. eapply rebuilt_agree; [by apply D1| |exact Hr]. intros x Hx. by eapply Hren, D2.
    + intros k p Hk. destruct (D6 k p Hk) as [Ek Hin]. destruct (Forall2_elem _ _ _ p H4) as ([k' q] & Hq & Eq); [by apply (list_elem_of_fmap_2 snd) in Hk|].
      unfold port_handle in Eq. destruct (Hm _ Hin) as (q' & Eq' & Hn). rewrite Eq' in Eq. injection Eq as <- <-. exists q'. split; [|done]. unfold in_port. cbn.
      rewrite (elem_map_get k q'); [done| |by rewrite <- Ek]. replace (ph.*1) with ((if_ports (sd_iface def)).*1); [done|]. symmetry. eapply handle_keys; [|exact H4]. intros. by apply D6.
    + intros k c Hk. destruct (D7 k c Hk) as [Ek Hin]. destruct (Forall2_elem _ _ _ c H5) as ([k' o] & Ho & Eo); [by apply (list_elem_of_fmap_2 snd) in Hk|].
      unfold channel_handle in Eo. destruct (Htr (o_name (ch_transition c))) as (o' & Eo' & Hn); [by left|]. rewrite Eo' in Eo. injection Eo as <- <-. exists o'.
      split; [by rewrite <- Ek|done].
Qed.

(** ** Composition *)

(** The host place each place of the body is replaced by: that of the last mapping of a port at it. *)
Definition bind_place (iface : interface V A) (m : list (jsstr * place)) (y : jsstr * place) : list (jsstr * place) :=
  match map_get y.1 (if_ports iface) with Some p => map_set (place_name (port_place p)) y.2 m | None => m end.
Definition host_places (iface : interface V A) (pm : list (jsstr * place)) : list (jsstr * place) := foldl (bind_place iface) [] pm.
(** The name a place of the body has in the host. *)
Definition bound_name (prefix : jsstr) (iface : interface V A) (pm : list (jsstr * place)) (x : jsstr) : jsstr :=
  from_option place_name (prefixed prefix x) (map_get x (host_places iface pm)).

Section Compose.
Variables (prefix : jsstr) (def : subnet_def V A) (ni : nat) (i : instance V A).
Hypothesis Hdef : def_ok def.
Hypothesis Hi : instance_of prefix def ni i.

Lemma merge_map_exact pm acc acc' : (∀ k q, (k, q) ∈ pm → is_Some (map_get k (if_ports (sd_iface def)))) → (∀ x, map_get (prefixed prefix x) acc = map_get x acc') →
  ∃ mm, merge_map i pm acc = Ok mm ∧ ∀ x, map_get (prefixed prefix x) mm = map_get x (foldl (bind_place (sd_iface def)) acc' pm).
Proof.
  revert acc acc'. induction pm as [|[k q] pm IH]; intros acc acc' Hk Ha; cbn [merge_map foldl]; [by exists acc|].
  destruct (Hk k q) as [p Ep]; [left|]. rewrite (io_def _ _ _ _ Hi), Ep. cbn.
  destruct (io_ports _ _ _ _ Hi k p (map_get_elem _ _ _ Ep)) as (r & Er & Hr). rewrite Er. cbn. unfold bind_place at 2. cbn. rewrite Ep.
  apply IH; [intros k' q' ?; eapply Hk; by right|]. intros x. rewrite !map_get_set, Hr, Ha.
  destruct (decide (x = place_name (port_place p))) as [->|Hne]; [by rewrite decide_True|]. rewrite decide_False; [done|]. by intros ?%prefixed_inj.
Qed.

Lemma inputs_do_not_collide o mm portOf names byHost : NoDup names → injective_on (ren mm) names → (∀ x, x ∈ names → ren mm x ∉ byHost.*1) →
  port_inputs_collide prefix o mm portOf names byHost = Ok ().
Proof.
  revert byHost. induction names as [|x names IH]; intros byHost Hnd Hinj Hb; [done|]. cbn [port_inputs_collide]. apply NoDup_cons in Hnd as [Hx Hnd].
  change (from_option place_name x (map_get x mm)) with (ren mm x). rewrite (proj2 (map_get_None _ _)) by (apply Hb; left). apply IH; [done| |].
  - intros y z Hy Hz. apply Hinj; by right.
  - intros y Hy. rewrite elem_of_map_set_keys. intros [E|E]; [|by eapply Hb; [right|]]. apply Hinj in E; [|by right|left]. by subst.
Qed.

Lemma no_collision o mm portOf : made (o_t o) → injective_on (ren mm) (arc_names (o_t o)) → rejectPortBindingCollision prefix o mm portOf = Ok ().
Proof.
  intros Hm Hinj. unfold rejectPortBindingCollision. pose proof (made_builder_wf _ Hm) as (((Hnd & _) & _) & _).
  rewrite inputs_do_not_collide; [|done|intros x y Hx Hy; apply Hinj; by apply arc_names_input|by intros x _ ?%not_elem_of_nil]. cbn [res_bind].
  destruct (outputSpec (o_t o)) as [out|] eqn:Eo; [|done]. cbn [mbind option_bind]. unfold duplicateInBranch. destruct (findDuplicate _ out) as [|d] eqn:E; [done|].
  apply (proj2 (findDuplicate_sourced _ out)) in E as (E & H1 & H2). apply Hinj in E; [|by eapply arc_names_output..]. by rewrite bool_decide_eq_true_2.
Qed.

Lemma rewrite_instance_exact mm portOf ts acc n : rebuildable (ren mm) ts → NoDup (o_name <$> ts) → (∀ o, o ∈ ts → o_name o ∉ acc.*1) → ∃ l,
  rewrite_instance prefix mm portOf ts acc n = Ok (n + length ts, acc ++ l) ∧ Forall2 (copied (ren mm) id) ts l.*2 ∧ (o_ref <$> l.*2) = seq n (length ts).
Proof.
  revert acc n. induction ts as [|o ts IH]; intros acc n Hr Hnd Ha; cbn [rewrite_instance].
  { exists []. rewrite app_nil_r. cbn. by rewrite Nat.add_0_r. }
  destruct (Hr o) as (Hm & Ht & Hinj); [left|]. destruct (rebuild_rebuilt (o_t o) (o_name o) mm Hm Ht Hinj) as (t & Et & Hreb).
  rewrite fmap_cons in Hnd. apply NoDup_cons in Hnd as [Ho Hnd].
  destruct (IH (acc ++ [(o_name o, TObj n t (o_action o))]) (S n)) as (l & E & HF & Hs).
  { intros x Hx. apply Hr. by right. } { done. }
  { intros x Hx. rewrite fmap_app. intros [Hin|Hin%list_elem_of_singleton]%elem_of_app; [by eapply Ha; [right|]|]. cbn in Hin. apply Ho. rewrite <- Hin. by apply list_elem_of_fmap_2. }
  exists ((o_name o, TObj n t (o_action o)) :: l). split_and!.
  - apply alloc_bind_ok. exists n, (). split; [apply lift_ok; exists (); split; [by apply no_collision|done]|]. apply alloc_bind_ok. exists (S n), (TObj n t (o_action o)).
    split; [apply substitutePlaces_ok; by exists t|]. rewrite map_set_fresh by (apply map_get_None, Ha; left). rewrite E, <- (assoc_L (++)). cbn. do 2 f_equal. lia.
  - constructor; [by split|done].
  - cbn. by f_equal.
Qed.

Lemma add_all_append n (l : list (jsstr * tobj V A)) b : refs_below n (hb_transitions b) → (o_ref <$> l.*2) = seq n (length l) →
  hb_transitions (foldl (λ b y, hb_transition y.2 b) b l) = hb_transitions b ++ l.*2.
Proof.
  revert n b. induction l as [|[x o] l IH]; intros n b Hb Hs; cbn [foldl]; [by rewrite app_nil_r|]. cbn in Hs. injection Hs as Ho Hs.
  rewrite (IH (S n)); [|rewrite (hb_transition_append n) by (done || cbn; lia); apply refs_below_snoc; done|done].
  rewrite (hb_transition_append n) by (done || cbn; lia). by rewrite <- (assoc_L (++)).
Qed.

Lemma copied_chain s1 s2 s3 name bs ts l : (∀ x, s2 (s1 x) = s3 x) → (∀ o, o ∈ bs → made (o_t o)) →
  Forall2 (copied s1 name) bs ts → Forall2 (copied s2 id) ts l → Forall2 (copied s3 name) bs l.
Proof.
  intros Hs Hm HF. revert l. induction HF as [|o o' bs ts [Hr Ha] HF IH]; intros l HFl; inversion HFl as [|? o'' ? k [Hr' Ha'] HFl' E1 E2]; subst; [constructor|].
  constructor; [split|apply IH; [intros; apply Hm; by right|done]].
  - pose proof (rebuilt_trans _ _ _ _ _ _ _ Hr Hr') as Ht. unfold o_name at 1 in Ht. cbn in Ht. rewrite (rb_name _ _ _ _ Hr) in Ht.
    eapply rebuilt_agree; [apply Hm; left| |exact Ht]. intros x _. apply Hs.
  - congruence.
Qed.

(** Composing by a port map adds the body's transitions under the bound names. *)
Lemma compose_map_exact pm b n : (∀ k q, (k, q) ∈ pm → is_Some (map_get k (if_ports (sd_iface def)))) →
  injective_on (bound_name prefix (sd_iface def) pm) (body_names def) → refs_below n (hb_transitions b) → ∃ n' b' l,
  compose (FormMap i pm) b n = Ok (n', b') ∧ hb_transitions b' = hb_transitions b ++ l ∧
  Forall2 (copied (bound_name prefix (sd_iface def) pm) (prefixed prefix)) (n_transitions (sd_body def)) l.
Proof.
  intros Hk Hinj Hb. destruct (merge_map_exact pm [] [] Hk) as (mm & Em & Hmm); [done|].
  assert (∀ x, ren mm (prefixed prefix x) = bound_name prefix (sd_iface def) pm x) as Hren by (intros x; unfold ren, bound_name, host_places; by rewrite Hmm).
  pose proof (io_transitions _ _ _ _ Hi) as HF. set (ts := n_transitions (in_renamedBody i)) in *.
  assert (o_name <$> ts = prefixed prefix <$> (o_name <$> n_transitions (sd_body def))) as En.
  { clear -HF. induction HF as [|o o' l l' [Hr _] HF IH]; [done|]. rewrite !fmap_cons, IH. f_equal. apply Hr. }
  set (portOf := foldl (λ m y, map_set (place_name y.2) y.1 m) [] (in_portHandles i)).
  destruct (rewrite_instance_exact mm portOf ts [] n) as (l & El & HFl & Hs).
  { intros o' Ho'. clear -HF Ho' Hdef Hren Hinj. assert (∃ o, o ∈ n_transitions (sd_body def) ∧ copied (prefixed prefix) (prefixed prefix) o o') as (o & Ho & [Hr _]).
    { clear -HF Ho'. induction HF as [|o x l k Hp HF IH]; [by apply not_elem_of_nil in Ho'|]. apply elem_of_cons in Ho' as [->|Ho']; [exists o; split; [left|done]|].
      destruct (IH Ho') as (y & ? & ?). exists y. split; [by right|done]. }
    split_and!; [apply Hr|apply Hr|]. intros x y Hx Hy. apply (rb_arcs _ _ _ _ Hr), list_elem_of_fmap in Hx as (x0 & -> & Hx). apply (rb_arcs _ _ _ _ Hr), list_elem_of_fmap in Hy as (y0 & -> & Hy).
    rewrite !Hren. intros E. f_equal. apply Hinj; [by eapply df_closed..|done]. }
  { rewrite En. apply NoDup_fmap_2; [intros ??; apply prefixed_inj|by apply df_names]. }
  { by intros o _ ?%not_elem_of_nil. }
  cbn [app] in El.
  exists (n + length ts), (foldl (λ b y, hb_transition y.2 b) (retire_ports i mm b) l), l.*2. split_and!.
  - cbn [compose]. unfold composeInternal, applyComposition, rejectSubnetTerminals. apply alloc_bind_ok. exists n, mm. split; [apply lift_ok; by exists mm|].
    rewrite (io_def _ _ _ _ Hi), (df_terminals _ Hdef), (io_prefix _ _ _ _ Hi). apply alloc_bind_ok. exists n, (). split; [done|]. apply alloc_bind_ok. exists (n + length ts), l. split; [exact El|].
    apply alloc_bind_ok. by exists (n + length ts), (l, retire_ports i mm b).
  - rewrite (add_all_append n); [by rewrite retire_ports_transitions|by rewrite retire_ports_transitions|]. rewrite Hs. f_equal. apply Forall2_length in HFl. by rewrite length_fmap in HFl.
  - eapply (copied_chain (prefixed prefix) (ren mm)); [exact Hren|intros o Ho; by apply (df_made _ Hdef)|exact HF|exact HFl].
Qed.
End Compose.

(** C12: Instantiating a definition and composing the instance by a port map always succeeds when the
    prefix is valid, the ports are known and no two places of the body end up under one name. It
    adds, for each transition of the body, one transition with its action, timing and priority,
    named under the prefix, that fires exactly as the body's does on the bound host places and
    the instance's own places, and touches no other place. A join keeps its match spec, every key
    and relay on its renamed place with its key function, and joins on the name the body's would;
    a transition without one gets none. The host's transitions stay. The body has no terminals,
    and no two transitions of one name (of two the composition keeps the last, a finding). *)
Theorem compose_plays prefix def pm b n : def_ok def → validatePrefix prefix = Ok () →
  (∀ k q, (k, q) ∈ pm → is_Some (map_get k (if_ports (sd_iface def)))) →
  injective_on (bound_name prefix (sd_iface def) pm) (body_names def) → refs_below n (hb_transitions b) → ∃ n1 i n' b' l,
  instantiate prefix def n = Ok (n1, i) ∧ compose (FormMap i pm) b n1 = Ok (n', b') ∧ hb_transitions b' = hb_transitions b ++ l ∧
  Forall2 (copied (bound_name prefix (sd_iface def) pm) (prefixed prefix)) (n_transitions (sd_body def)) l.
Proof.
  intros Hdef Hp Hk Hinj Hb. destruct (instantiate_instance prefix def n Hdef Hp) as (n1 & i & E & Hn & Hi).
  destruct (compose_map_exact prefix def n1 i Hdef Hi pm b n1 Hk Hinj) as (n' & b' & l & E' & Hl & HF); [intros o Ho; specialize (Hb o Ho); lia|].
  by exists n1, i, n', b', l.
Qed.

(** Instances at different prefixes share no name. *)
Lemma prefixes_disjoint p q x y : validatePrefix p = Ok () → validatePrefix q = Ok () → prefixed p x = prefixed q y → p = q.
Proof.
  unfold validatePrefix. rewrite !res_seq_ok, !throw_if_ok, !bool_decide_eq_false. intros [_ Hp] [_ Hq]. unfold prefixed.
  revert q Hq. induction p as [|c p IH]; intros [|d q] Hq E; [done| | |].
  - injection E as E _. exfalso. apply Hq. rewrite <- E. left.
  - injection E as E _. exfalso. apply Hp. rewrite E. left.
  - injection E as -> E. f_equal. apply IH; [by intros ?; apply Hp; right|by intros ?; apply Hq; right|done].
Qed.
End Instances.

(** ** The places an action names *)

Section Alias.
Context {V : Type}.
Implicit Types (t : transition V).

(** A rewrite of a transition: its new name, the remap and the normalisation of inputs, if any. *)
Definition rewrite_step : Type := jsstr * list (jsstr * place) * option (jsstr → seam).
Fixpoint rewrites t (steps : list rewrite_step) : result compose_error (transition V) :=
  match steps with
  | [] => Ok t
  | (name, remap, norm) :: steps => let* t' := rebuildWithName t name remap norm in rewrites t' steps
  end.
(** Where the steps send a name. *)
Definition sent (steps : list rewrite_step) (x : jsstr) : jsstr := foldl (λ x y, ren y.1.2 x) x steps.

Definition actual_name t (x : jsstr) : jsstr := from_option place_name x (map_get x (placeAlias t)).

(** [t] names the places [s] sent those of [names] to, and its alias says where. *)
Definition tracks (names : list jsstr) (s : jsstr → jsstr) t : Prop := ∀ x, x ∈ names →
  s x ∈ arc_names t ∧ if decide (placeAlias t = []) then s x = x else ∃ q, map_get x (placeAlias t) = Some q ∧ place_name q = s x.

Lemma recorded remap ps acc x : map_get x (foldl (record_place remap) acc ps) =
  match map_get x acc with Some q => Some q | None => remap_place remap <$> js_find (λ p, bool_decide (place_name p = x)) ps end.
Proof.
  revert acc. induction ps as [|p ps IH]; intros acc; cbn [foldl]; [by destruct (map_get x acc)|]. rewrite IH. unfold record_place at 1. unfold js_find. cbn [list_find].
  destruct (map_get (place_name p) acc) as [q|] eqn:E; [|rewrite map_get_set]; case_bool_decide as Hx.
  - subst. by rewrite E.
  - rewrite decide_False by (intros []). destruct (map_get x acc); [done|]. by destruct (list_find _ ps) as [[]|].
  - subst. rewrite !decide_True by done. rewrite E. done.
  - rewrite decide_False by congruence. rewrite decide_False by (intros []). destruct (map_get x acc); [done|]. by destruct (list_find _ ps) as [[]|].
Qed.

Lemma declared_arc t x : x ∈ place_name <$> declared_places t ↔ x ∈ arc_names t.
Proof. unfold declared_places, arc_names, arc_places. rewrite !fmap_app, !elem_of_app. tauto. Qed.

Lemma map_get_remapped remap x (m : list (jsstr * place)) : map_get x ((λ y, (y.1, remap_place remap y.2)) <$> m) = remap_place remap <$> map_get x m.
Proof. induction m as [|[k q] m IH]; cbn; [done|]. by case_decide. Qed.

Lemma kept_alias (alias : list (jsstr * place)) : existsb (λ y, negb (bool_decide (place_name y.2 = y.1))) alias = false → ∀ x q, map_get x alias = Some q → place_name q = x.
Proof.
  intros H x q Hq%map_get_elem. destruct (bool_decide (place_name q = x)) eqn:E; [by apply bool_decide_eq_true in E|]. exfalso.
  assert (existsb (λ y, negb (bool_decide (place_name y.2 = y.1))) alias = true); [|congruence]. apply existsb_exists. exists (x, q). split; [by apply list_elem_of_In|]. cbn. by rewrite E.
Qed.

(** *** Normalising inputs keeps their places *)

Definition keyed (m : list (jsstr * in_spec)) : Prop := ∀ k v, (k, v) ∈ m → place_name (in_place v) = k.

Lemma mergeInPair_place a b sm r : mergeInPair a b sm = Ok r → place_name (in_place a) = place_name (in_place b) → place_name (in_place r) = place_name (in_place a).
Proof.
  assert (∀ n p r, map_err InFactory (exactly n p) = Ok r → place_name (in_place r) = place_name p) as K.
  { intros n p r' E. apply map_err_ok in E. unfold exactly in E. case_match; [done|]. by injection E as <-. }
  intros H E. destruct a, b; cbn [mergeInPair summableCount] in H; cbn in E; repeat case_match; simplify_eq/=; try done; by apply K in H.
Qed.

Lemma normalize_loop_places seamOf arcs m c r : normalize_loop seamOf arcs m c = Ok r → keyed m → keyed r.1 ∧ ∀ x, x ∈ r.1.*1 ↔ x ∈ m.*1 ∨ x ∈ input_names arcs.
Proof.
  revert m c. induction arcs as [|arc arcs IH]; intros m c; cbn [normalize_loop]; intros H Hm.
  { injection H as <-. split; [done|]. intros x. cbn. split; [by left|]. by intros [?|?%not_elem_of_nil]. }
  unfold input_names. rewrite fmap_cons. destruct (map_get (place_name (in_place arc)) m) as [prior|] eqn:E.
  - apply res_bind_ok in H as (mg & Em & H). pose proof (map_get_elem _ _ _ E) as Hp. apply Hm in Hp as Hp'. apply IH in H as [H1 H2].
    + split; [done|]. intros x. rewrite H2, elem_of_map_set_keys, elem_of_cons. apply (list_elem_of_fmap_2 fst) in Hp. cbn in Hp. naive_solver.
    + intros k v [[-> ->]|Hv]%map_set_entries; [|by apply Hm]. rewrite <- Hp'. eapply mergeInPair_place; [done|]. by rewrite Hp'.
  - apply IH in H as [H1 H2]; [|intros k v [[-> ->]|Hv]%map_set_entries; [done|by apply Hm]]. split; [done|]. intros x. rewrite H2, elem_of_map_set_keys, elem_of_cons. naive_solver.
Qed.

Lemma normalize_places seamOf arcs arcs' : normalizeInputArcs seamOf arcs = Ok arcs' → ∀ x, x ∈ input_names arcs → x ∈ input_names arcs'.
Proof.
  unfold normalizeInputArcs. case_match; [by intros [= <-]|]. intros ((m & c) & Hl & E)%res_bind_ok x Hx. cbn in E. injection E as <-. destruct c; [|done].
  apply normalize_loop_places in Hl as [Hk Hm]; [|by intros ?? ?%not_elem_of_nil]. cbn in *.
  assert (x ∈ m.*1) as ([k v] & -> & Hv)%list_elem_of_fmap by (apply Hm; by right). unfold input_names. rewrite <- list_fmap_compose. apply list_elem_of_fmap. exists (k, v). split; [|done].
  cbn. symmetry. by apply Hk.
Qed.

Lemma rebuilt_arc t name remap norm t' x : rebuildWithName t name remap norm = Ok t' → x ∈ arc_names t → ren remap x ∈ arc_names t'.
Proof.
  intros (inputs & Hin & _ & ->)%rebuild_inv Hx. set (f := remap_place remap) in *.
  set (t1 := built (rebuild_builder t name remap (map_in f <$> inputSpecs t) (map_out f <$> outputSpec t))).
  assert (ren remap x ∈ arc_names t1) as H1.
  { apply (arc_names_image f (ren remap) name t t1); [apply remap_name|by constructor|]. by apply list_elem_of_fmap_2. }
  revert H1. unfold arc_names, arc_places, outputPlaces. cbn. rewrite !fmap_app, !elem_of_app. intros [H1|H1]; [left|by right].
  assert (place_name <$> (in_place <$> (map_in f <$> inputSpecs t)) = input_names (map_in f <$> inputSpecs t)) as E1 by (unfold input_names; by rewrite <- list_fmap_compose).
  assert (place_name <$> (in_place <$> inputs) = input_names inputs) as E2 by (unfold input_names; by rewrite <- list_fmap_compose).
  rewrite E1 in H1. rewrite E2. destruct norm as [seamOf|]; [by eapply normalize_places|by subst].
Qed.

Lemma rebuilt_alias t name remap norm t' : rebuildWithName t name remap norm = Ok t' → placeAlias t' = buildPlaceAlias t remap.
Proof. by intros (inputs & _ & _ & ->)%rebuild_inv. Qed.

Lemma tracks_step names s t name remap norm t' : tracks names s t → rebuildWithName t name remap norm = Ok t' → tracks names (λ x, ren remap (s x)) t'.
Proof.
  intros H E x Hx. destruct (H x Hx) as [Harc Ha]. split; [by eapply rebuilt_arc|]. rewrite (rebuilt_alias _ _ _ _ _ E). unfold buildPlaceAlias.
  assert (∀ (alias : list (jsstr * place)) q, map_get x alias = Some q → place_name q = ren remap (s x) →
    let r := if existsb (λ y, negb (bool_decide (place_name y.2 = y.1))) alias then alias else [] in
    if decide (r = []) then ren remap (s x) = x else ∃ q, map_get x r = Some q ∧ place_name q = ren remap (s x)) as K.
  { intros alias q Eq Hq. cbn zeta. destruct (existsb _ alias) eqn:Ek.
    - rewrite decide_False by by intros ->. by exists q.
    - rewrite decide_True by done. rewrite <- Hq. by eapply kept_alias. }
  destruct (decide (placeAlias t = [])) as [->|Hne].
  - cbn [length Nat.ltb Nat.leb]. rewrite (bool_decide_eq_true_2 (0 = 0)) by done. rewrite andb_true_r. case_bool_decide as Hr.
    + apply nil_length_inv in Hr as ->. rewrite decide_True by done. by cbn.
    + destruct (js_find (λ p, bool_decide (place_name p = x)) (declared_places t)) as [p|] eqn:Ep.
      * apply (K _ (remap_place remap p)); [by rewrite recorded, Ep|]. rewrite remap_name. f_equal. unfold js_find in Ep. destruct (list_find _ _) as [[k y]|] eqn:El; [|done].
        injection Ep as ->. apply list_find_Some in El as (_ & Hy%Is_true_true%bool_decide_eq_true & _). congruence.
      * exfalso. rewrite Ha in Harc. apply declared_arc, list_elem_of_fmap in Harc as (p & -> & Hp). unfold js_find in Ep. destruct (list_find _ _) as [[]|] eqn:El; [done|].
        apply list_find_None in El. rewrite Forall_forall in El. apply (El p Hp). by rewrite bool_decide_eq_true_2.
  - destruct Ha as (q & Eq & Hq). assert (length (placeAlias t) ≠ 0) as Hl by (by destruct (placeAlias t)). rewrite (bool_decide_eq_false_2 _ Hl), andb_false_r.
    replace (0 <? length (placeAlias t))%nat with true by (symmetry; apply Nat.ltb_lt; lia). apply (K _ (remap_place remap q)); [by rewrite map_get_remapped, Eq|]. by rewrite remap_name, Hq.
Qed.

Lemma tracks_steps names steps s t t' : tracks names s t → rewrites t steps = Ok t' → tracks names (λ x, sent steps (s x)) t'.
Proof.
  revert s t. induction steps as [|[[name remap] norm] steps IH]; intros s t H E; cbn [rewrites] in E; [by injection E as <-|].
  apply res_bind_ok in E as (t1 & E1 & E). pose proof (tracks_step _ _ _ _ _ _ _ H E1) as H1. exact (IH (λ x, ren remap (s x)) t1 H1 E).
Qed.

(** C33: Through any chain of renames, substitutions and fusions of a transition as its author built
    it, an action that names a place it declared is given the place the rewrites sent that place
    to: its context resolves the declared place to the actual one, whatever was kept or dropped
    of the correspondence on the way. *)
Theorem alias_resolves t0 steps t (input : token_input V) p : placeAlias t0 = [] → rewrites t0 steps = Ok t → p ∈ arc_places t0 →
  place_name (resolve V p (context_new t input)) = sent steps (place_name p) ∧ sent steps (place_name p) ∈ arc_names t.
Proof.
  intros H0 E Hp. assert (tracks (arc_names t0) id t0) as H by (intros x Hx; split; [done|]; by rewrite decide_True).
  destruct (tracks_steps _ _ _ _ _ H E (place_name p)) as [Harc Ha]; [by apply list_elem_of_fmap_2|]. cbn [id] in *. split; [|done]. unfold resolve. cbn [cx_alias context_new].
  case_decide as Hd; [rewrite Hd; by cbn|]. destruct Ha as (q & Eq & Hq). by rewrite Eq.
Qed.
End Alias.

(** ** Concrete instances *)

Definition example_ports : list (jsstr * place) := [(js "in", queue)].
Definition example_host : host_builder Z nat := hb_transition caller (hb_new (js "net")).


Lemma worker_def_ok : def_ok worker_def.
Proof.
  assert (n_transitions (sd_body worker_def) = [work]) as E by reflexivity. constructor.
  - intros o Ho. rewrite E in Ho. apply list_elem_of_singleton in Ho as ->. split.
    + exists (example_builder (js "work") job result_place). split; [vm_compute; reflexivity|by intros o [= <-]].
    + by intros o [= <-].
  - intros o x Ho Hx. rewrite E in Ho. apply list_elem_of_singleton in Ho as ->. exact Hx.
  - rewrite E. apply NoDup_singleton.
  - reflexivity.
  - apply (bool_decide_unpack _). vm_compute. exact I.
  - intros k p Hk. assert (if_ports (sd_iface worker_def) = [(js "out", Port (js "out") DirOutput result_place); (js "in", Port (js "in") DirInput job)]) as Ep by reflexivity.
    rewrite Ep in Hk. apply elem_of_cons in Hk as [[= -> ->]|[= -> ->]%list_elem_of_singleton]; (split; [done|]); apply (bool_decide_unpack _); vm_compute; exact I.
  - intros k c Hk. assert (if_channels (sd_iface worker_def) = [(js "ch", Channel (js "ch") work)]) as Ec by reflexivity.
    rewrite Ec in Hk. apply list_elem_of_singleton in Hk as [= -> ->]. split; [done|]. rewrite E. left.
Qed.

(** A worker at the prefix [w] with its job port bound to the queue: the composed transition takes
    from the queue and puts into the instance's own result place. *)
Lemma compose_plays_witness : validatePrefix (js "w") = Ok () ∧ bound_name (js "w") (sd_iface worker_def) example_ports (js "job") = js "queue" ∧
  bound_name (js "w") (sd_iface worker_def) example_ports (js "result") = js "w/result" ∧ ∃ n1 i n' b' l,
  instantiate (js "w") worker_def 50 = Ok (n1, i) ∧ compose (FormMap i example_ports) example_host n1 = Ok (n', b') ∧ hb_transitions b' = hb_transitions example_host ++ l ∧
  Forall2 (copied (bound_name (js "w") (sd_iface worker_def) example_ports) (prefixed (js "w"))) (n_transitions (sd_body worker_def)) l.
Proof.
  do 3 (split; [vm_compute; reflexivity|]). apply (compose_plays (js "w") worker_def example_ports example_host 50).
  - apply worker_def_ok.
  - vm_compute. reflexivity.
  - intros k q Hk. apply list_elem_of_singleton in Hk as [= -> ->]. by eexists.
  - intros x y Hx Hy E. apply elem_of_cons in Hx as [->|Hx]; [|apply list_elem_of_singleton in Hx as ->]; (apply elem_of_cons in Hy as [->|Hy]; [|apply list_elem_of_singleton in Hy as ->]); (done || (vm_compute in E; discriminate E)).
  - intros o Ho. apply list_elem_of_singleton in Ho as ->. vm_compute. lia.
Defined.

(** The job place of the worker after it was renamed under [w] and its port bound to the queue. *)
Definition example_steps : list rewrite_step :=
  [(js "w/work", [(js "job", Place 60 (js "w/job")); (js "result", Place 61 (js "w/result"))], None);
   (js "w/work", [(js "w/job", queue)], None)].
Definition example_rewritten : transition Z := ok_or (o_t work) (rewrites (o_t work) example_steps).

Lemma alias_resolves_witness : rewrites (o_t work) example_steps = Ok example_rewritten ∧
  (place_name (resolve Z job (context_new example_rewritten [])) = js "queue" ∧ js "queue" ∈ arc_names example_rewritten) ∧
  place_name (resolve Z result_place (context_new example_rewritten [])) = js "w/result".
Proof.
  split; [vm_compute; reflexivity|]. split.
  - apply (alias_resolves (o_t work) example_steps example_rewritten [] job); [reflexivity|vm_compute; reflexivity|left].
  - apply (alias_resolves (o_t work) example_steps example_rewritten [] result_place); [reflexivity|vm_compute; reflexivity|right; left].
Defined.
