(* ===== verification/NameFragment.v ===== *)
(** * The coloured fragment of a net

    [src/typescript/src/verification/analysis/name-fragment.ts]: which places carry names, and what
    each transition does to them: mint a fresh name, join on one, consume one, or nothing. [None]
    is a net outside the fragment. Roles are keyed by the transition's name, as in the code.
    The second half is the rule of which the roles are the cases. *)
From S2P Require Import Prelude.
From S2P Require Import CodePoints.
From S2P Require Import Net.
From S2P Require Import Out.
From S2P Require Import Transition.
From S2P Require Import MarkingState.
From S2P Require Import ClassSteps.
From S2P Require Import NameMarking.
From S2P Require Import Outcomes.
#[local] Open Scope Z_scope.

Inductive fragment_mode := FragmentBase | FragmentExtended.

Inductive role :=
| RoleOrdinary
| RoleMint
| RoleJoin (colouredIn : list (jsstr * Z)) (relayTo : list jsstr)
| RoleConsume (colouredInput : jsstr).

Record name_fragment := NameFragment {
  nf_coloured : list jsstr;
  colouredOrder : list jsstr;
  nf_roles : list (jsstr * role);
  nf_mints : list jsstr;
  nf_relays : list jsstr
}.
Definition isColoured (f : name_fragment) (p : jsstr) : bool := bool_decide (p ∈ nf_coloured f).
Definition role_of (f : name_fragment) (t : jsstr) : role := default RoleOrdinary (map_get t (nf_roles f)).

Section Fragment.
Context {V : Type}.
Implicit Types (t : transition V) (ts : list (transition V)) (coloured : list jsstr).

(** ** Declared mints *)

Definition declaredMints ts (budgetPlaces explicit : list jsstr) : list jsstr :=
  foldl (λ out t, if existsb (λ s, bool_decide (place_name (in_place s) ∈ budgetPlaces)) (inputSpecs t) then set_add (t_name t) out else out)
    (set_of explicit) ts.

Definition quoted (n : jsstr) : jsstr := js "'" ++ n ++ js "'".
Definition unknownMintReason ts (declared : list jsstr) : option jsstr :=
  let inNet := set_of (t_name <$> ts) in
  let unknown := sortNames (set_of (filter (λ n, n ∉ inNet) declared)) in
  if bool_decide (length unknown = 0)%nat then None
  else Some (js "declared mint transition" ++ (if bool_decide (length unknown = 1)%nat then [] else js "s") ++ js " " ++
             join (js ", ") (quoted <$> unknown) ++ js " not in the net (NU-010)").

(** ** Coloured places *)

Definition key_places t : list jsstr := from_option (λ ms, (λ k, place_name (mk_place_of k)) <$> ms_keys ms) [] (t_matchSpec t).
Definition relay_places t : list jsstr := from_option (λ ms, (λ k, place_name (mk_place_of k)) <$> ms_relays ms) [] (t_matchSpec t).
Definition is_match t : bool := bool_decide (is_Some (t_matchSpec t)).

Definition coloured_places (mode : fragment_mode) (carrierPlaces : list jsstr) ts : list jsstr :=
  let keys := set_of (t ← ts; key_places t) in
  match mode with
  | FragmentBase => keys
  | FragmentExtended => set_union (set_union keys carrierPlaces) (t ← ts; relay_places t)
  end.

(** A reset, read or inhibitor arc on a coloured place. *)
Definition tests_coloured coloured t : bool :=
  let on (ps : list place) := existsb (λ p, bool_decide (place_name p ∈ coloured)) ps in
  on (resets t) || on (reads t) || on (inhibitors t).

(** ** Roles *)

(** [None] for an input that takes all matching tokens, or no such input. *)
Definition fixedRequiredCount t (p : jsstr) : option Z :=
  match js_find (λ s, bool_decide (place_name (in_place s) = p)) (inputSpecs t) with
  | Some (InOne _) => Some 1
  | Some (InExactly _ n) => Some n
  | _ => None
  end.

Fixpoint coloured_inputs t (keys : list jsstr) : option (list (jsstr * Z)) :=
  match keys with
  | [] => Some []
  | p :: keys => required ← fixedRequiredCount t p; rest ← coloured_inputs t keys; Some ((p, required) :: rest)
  end.

Definition miscounted coloured (o : outcome) : bool :=
  existsb (λ d, bool_decide (place_name (od_place d) ∈ coloured) && negb (match od_deposit d with DepositTokens c => c =? 1 | _ => false end)) (deposits o).

(** The role of a transition; [None] rejects the net. *)
Definition role_for (mode : fragment_mode) coloured (mintTransitions : list jsstr) t : result outcome_error (option role) :=
  let isC p := bool_decide (p ∈ coloured) in
  let colouredInputs := filter (λ s, place_name (in_place s) ∈ coloured) (inputSpecs t) in
  let* branches := outcomes t in
  let outs := o ← branches; place_name <$> oc_places o in
  let producesColoured := existsb isC outs in
  let timeoutColoured := filter (λ w, tw_to w ∈ coloured) (timeoutWrites t) in
  Ok (if existsb (miscounted coloured) branches then None
      else if is_match t then
        let relayTo := match mode with FragmentExtended => set_of (relay_places t) | FragmentBase => [] end in
        let keyPlaces := key_places t in
        if existsb (λ p, isC p && negb (bool_decide (p ∈ relayTo))) outs then None
        else if existsb (λ w, match tw_from w with None => true | Some from => negb (bool_decide (from ∈ keyPlaces)) end) timeoutColoured then None
        else if existsb (λ s, negb (bool_decide (place_name (in_place s) ∈ keyPlaces))) colouredInputs then None
        else colouredIn ← coloured_inputs t keyPlaces;
             Some (RoleJoin (stable_sort (λ a b, compareCodePoints a.1 b.1 <=? 0) colouredIn) relayTo)
      else
        match colouredInputs with
        | [] => if producesColoured
                then if negb (bool_decide (t_name t ∈ mintTransitions)) || negb (bool_decide (length timeoutColoured = 0)%nat) then None else Some RoleMint
                else Some RoleOrdinary
        | spec :: more =>
            match mode with
            | FragmentBase => None
            | FragmentExtended =>
                if negb (bool_decide (length more = 0)%nat) then None
                else if negb (match spec with InOne _ => true | InExactly _ n => n =? 1 | _ => false end) then None
                else let inputPlace := place_name (in_place spec) in
                     if existsb (λ w, negb (bool_decide (tw_from w = Some inputPlace))) timeoutColoured then None
                     else Some (RoleConsume inputPlace)
            end
        end).

(** Whether an outcome writes a coloured place. *)
Definition writes_coloured coloured t : result outcome_error bool :=
  let* branches := outcomes t in Ok (existsb (λ o, existsb (λ p, bool_decide (place_name p ∈ coloured)) (oc_places o)) branches).

Fixpoint classify_roles (mode : fragment_mode) coloured (mintTransitions : list jsstr) ts (roles : list (jsstr * role)) (mints relays : list jsstr)
    : result outcome_error (option (list (jsstr * role) * list jsstr * list jsstr)) :=
  match ts with
  | [] => Ok (Some (roles, mints, relays))
  | t :: ts =>
      let* r := role_for mode coloured mintTransitions t in
      match r with
      | None => Ok None
      | Some r =>
          let* writes := writes_coloured coloured t in
          let mints := match r with RoleMint => mints ++ [t_name t] | _ => mints end in
          let relays := match r with RoleConsume _ => if writes then relays ++ [t_name t] else relays | _ => relays end in
          classify_roles mode coloured mintTransitions ts (map_set (t_name t) r roles) mints relays
      end
  end.

Definition classify ts (mode : fragment_mode) (carrierPlaces mintTransitions : list jsstr) (admitMatchless : bool)
    : result outcome_error (option name_fragment) :=
  if negb admitMatchless && (negb (existsb is_match ts) || bool_decide (length (coloured_places FragmentBase [] ts) = 0)%nat) then Ok None
  else
    let coloured := coloured_places mode carrierPlaces ts in
    if existsb (tests_coloured coloured) ts then Ok None
    else
      let* r := classify_roles mode coloured mintTransitions ts [] [] [] in
      Ok (y ← r; let '(roles, mints, relays) := y in
          Some (NameFragment coloured (stable_sort (λ x y, negb (js_ltb y x)) coloured) roles mints relays)).

(** ** What a decline points at *)

Definition undeclaredMints ts (mode : fragment_mode) (carrierPlaces mints : list jsstr) (admitMatchless : bool) : result outcome_error (list jsstr) :=
  let* f := classify ts mode carrierPlaces mints admitMatchless in
  match f with
  | Some _ => Ok []
  | None =>
      let every := set_of (t_name <$> ts) in
      let* f := classify ts mode carrierPlaces every admitMatchless in
      Ok (match f with None => [] | Some f => filter (λ m, m ∉ mints) (nf_mints f) end)
  end.
End Fragment.

Definition undeclaredMintsPointer (undeclared : list jsstr) : jsstr :=
  let one := bool_decide (length undeclared = 1)%nat in
  join (js ", ") (quoted <$> undeclared) ++ js " " ++ (if one then js "writes" else js "write") ++ js " a coloured place " ++
  js "without consuming one and " ++ (if one then js "is" else js "are") ++ js " not declared to mint (NU-010); if the action " ++
  js "writes a name minted with freshName(), declare " ++ (if one then js "it" else js "them") ++ js " with mintTransitions".

Definition contractNote (mints relays : list jsstr) : jsstr :=
  (if bool_decide (length mints = 0)%nat then []
   else js "Mint contract (NU-010) assumed for " ++ join (js ", ") mints ++ js ": each writes a freshly minted name into every coloured place it writes." ++ [10]) ++
  (if bool_decide (length relays = 0)%nat then []
   else js "Relay contract (NU-051) assumed for " ++ join (js ", ") relays ++ js ": each writes the name it consumed into every coloured place it writes." ++ [10]).

(** * What a fragment promises

    A firing of a transition of the fragment is about one name: it takes tokens of one symbol from
    the coloured places and puts that symbol on every coloured place it writes. A transition that
    takes none writes a fresh symbol. The roles are the cases of this one rule. *)

(** ** The rule *)

Section Rule.
Context {V : Type}.
Variable f : name_fragment.
Implicit Types (t : transition V) (N : layer).

(** The tokens of its name a firing takes from a place, and the coloured places an outcome writes. *)
Definition takes t (p : jsstr) : Z := if isColoured f p then from_option requiredCount 0 (spec_of t p) else 0.
Definition coloured_writes (o : outcome) : list jsstr := filter (λ p, isColoured f p = true) (place_name <$> oc_places o).

(** Symbol [s] may serve a firing of [t]: every coloured input holds enough of it, and it is new
    when there is no coloured input. *)
Definition serves t N (s : Z) : Prop := (∀ p, takes t p <= N p s) ∧ ((∀ p, takes t p = 0) → ∀ p, N p s = 0).

(** The layer between the halves of the firing, and the layer after it. *)
Definition fires_with (s : Z) t (o : outcome) N (Nb N' : layer) : Prop :=
  (∀ p x, Nb p x = N p x - (if decide (x = s) then takes t p else 0)) ∧
  (∀ p x, N' p x = Nb p x + (if decide (x = s ∧ p ∈ coloured_writes o) then 1 else 0)).

Definition nu_fires t (o : outcome) N Nb N' : Prop := ∃ s, serves t N s ∧ fires_with s t o N Nb N'.

(** A correlated transition is enabled while one symbol serves every coloured input. *)
Definition nu_enabled t (m : name_marking) : bool :=
  negb (is_match t) ||
  existsb (λ s, forallb (λ i, negb (isColoured f (place_name (in_place i))) || (requiredCount i <=? countOf (place_name (in_place i)) s m)) (inputSpecs t)) (liveSymbols m).

Lemma fires_rename σ N1 N2 s t o Nb1 N1' Nb2 N2' : renames σ N1 N2 → fires_with s t o N1 Nb1 N1' → fires_with (σ s) t o N2 Nb2 N2' →
  renames σ Nb1 Nb2 ∧ renames σ N1' N2'.
Proof.
  intros [B H] [F1 F1'] [F2 F2'].
  assert (∀ p x, Nb2 p (σ x) = Nb1 p x) as Hb.
  { intros p x. rewrite F1, F2, H. f_equal. destruct (decide (x = s)) as [->|Hx]; [by rewrite decide_True|]. rewrite decide_False; [done|]. by intros ?%bijective_inj. }
  split; (split; [done|]); [exact Hb|]. intros p x. rewrite F1', F2', Hb. f_equal. destruct (decide (x = s ∧ p ∈ coloured_writes o)) as [[-> Hp]|Hx]; [by rewrite decide_True|].
  rewrite decide_False; [done|]. intros [?%bijective_inj ?]; [|done]. tauto.
Qed.

Lemma serves_rename σ N1 N2 s t : renames σ N1 N2 → serves t N2 (σ s) ↔ serves t N1 s.
Proof. intros [_ H]. unfold serves. by setoid_rewrite H. Qed.
End Rule.

(** ** The roles are the cases of the rule *)

(** What the builder and the matcher ensure of a transition. *)
Definition correlated_ok {V} (t : transition V) : Prop :=
  inputs_wf (inputSpecs t) ∧ ∀ ms, t_matchSpec t = Some ms →
    ms_keys ms ≠ [] ∧ NoDup (key_name <$> ms_keys ms) ∧ ∀ k, k ∈ ms_keys ms → key_name k ∈ input_names (inputSpecs t).

Section Roles.
Context {V : Type}.
Variables (f : name_fragment) (mode : fragment_mode) (mints : list jsstr).
Implicit Types (t : transition V).
Abbreviation coloured := (nf_coloured f).

Definition role_ok t (os : list outcome) (r : role) : Prop :=
  match r with
  | RoleOrdinary => is_match t = false ∧ (∀ p, takes f t p = 0) ∧ ∀ o, o ∈ os → coloured_writes f o = []
  | RoleMint => is_match t = false ∧ ∀ p, takes f t p = 0
  | RoleJoin colouredIn relayTo =>
      is_match t = true ∧ NoDup colouredIn.*1 ∧ colouredIn ≠ [] ∧ (∀ p z, (p, z) ∈ colouredIn ↔ takes f t p = z ∧ z ≠ 0) ∧
      ∀ o p, o ∈ os → p ∈ oc_places o → place_name p ∈ relayTo ↔ isColoured f (place_name p) = true
  | RoleConsume p0 => is_match t = false ∧ ∀ p, takes f t p = if decide (p = p0) then 1 else 0
  end.

Lemma takes_nonneg t p : inputs_wf (inputSpecs t) → 0 <= takes f t p.
Proof.
  intros [_ Hr]. unfold takes. destruct (isColoured f p); [|done]. destruct (spec_of t p) as [s|] eqn:E; [|done]. apply spec_of_Some in E as [Hs _].
  rewrite Forall_forall in Hr. apply Hr in Hs. cbn. lia.
Qed.

Lemma takes_spec t s : inputs_wf (inputSpecs t) → s ∈ inputSpecs t → isColoured f (place_name (in_place s)) = true →
  takes f t (place_name (in_place s)) = requiredCount s.
Proof. intros [Hd _] Hs Hc. unfold takes. by rewrite Hc, (spec_of_elem t s Hd Hs). Qed.

Lemma takes_nonzero t p : inputs_wf (inputSpecs t) → takes f t p ≠ 0 ↔ isColoured f p = true ∧ p ∈ input_names (inputSpecs t).
Proof.
  intros W. unfold takes. destruct (isColoured f p); [|split; [done|by intros [? _]]]. split.
  - destruct (spec_of t p) as [s|] eqn:E; [|done]. apply spec_of_Some in E as [Hs <-]. intros _. split; [done|]. by apply (list_elem_of_fmap_2 (λ s, place_name (in_place s))).
  - intros [_ Hp]. destruct (spec_of t p) as [s|] eqn:E; [|by apply spec_of_None in E]. apply spec_of_Some in E as [Hs _]. destruct W as [_ Hr].
    rewrite Forall_forall in Hr. apply Hr in Hs. cbn. lia.
Qed.

(** Nothing is taken when no input is coloured. *)
Lemma takes_none t : inputs_wf (inputSpecs t) → filter (λ s, place_name (in_place s) ∈ coloured) (inputSpecs t) = [] → ∀ p, takes f t p = 0.
Proof.
  intros W E p. destruct (decide (takes f t p = 0)) as [|H]; [done|]. apply takes_nonzero in H as [Hc (s & -> & Hs)%list_elem_of_fmap]; [|done].
  unfold isColoured in Hc. apply bool_decide_eq_true in Hc. assert (s ∈ filter (λ s, place_name (in_place s) ∈ coloured) (inputSpecs t)) as Hin by (by apply list_elem_of_filter).
  rewrite E in Hin. by apply not_elem_of_nil in Hin.
Qed.

Lemma fixedRequired_takes t p z : inputs_wf (inputSpecs t) → isColoured f p = true → fixedRequiredCount t p = Some z → takes f t p = z ∧ z ≠ 0.
Proof.
  intros W Hc E. assert (takes f t p = z) as Et.
  { unfold takes. rewrite Hc. unfold fixedRequiredCount in E. fold (spec_of t p) in E. destruct (spec_of t p) as [[]|]; simplify_eq/=; done. }
  split; [done|]. rewrite <- Et. apply takes_nonzero; [done|]. split; [done|]. unfold fixedRequiredCount in E. fold (spec_of t p) in E.
  destruct (spec_of t p) as [s|] eqn:Es; [|done]. apply spec_of_Some in Es as [Hs <-]. by apply (list_elem_of_fmap_2 (λ s, place_name (in_place s))).
Qed.

Lemma coloured_inputs_spec t keys l : coloured_inputs t keys = Some l → l.*1 = keys ∧ ∀ p z, (p, z) ∈ l → fixedRequiredCount t p = Some z.
Proof.
  revert l. induction keys as [|p keys IH]; intros l E; cbn [coloured_inputs] in E; [injection E as <-; split; [done|by intros ?? ?%not_elem_of_nil]|].
  destruct (fixedRequiredCount t p) as [z|] eqn:Ez; [|done]. cbn [mbind option_bind] in E. destruct (coloured_inputs t keys) as [l'|]; [|done]. injection E as <-.
  destruct (IH l' eq_refl) as [E1 E2]. split; [by rewrite fmap_cons, E1|]. intros p' z' [[= -> ->]|Hin]%elem_of_cons; [done|auto].
Qed.

Lemma role_for_ok t os r : correlated_ok t → (∀ p, p ∈ key_places t → p ∈ coloured) → (mode = FragmentExtended → ∀ p, p ∈ relay_places t → p ∈ coloured) →
  outcomes t = Ok os → role_for mode coloured mints t = Ok (Some r) → role_ok t os r.
Proof.
  intros [W Hm] Hk Hrel Eos. unfold role_for. rewrite Eos. cbn [res_bind]. intros [= E]. destruct (existsb (miscounted coloured) os); [done|].
  destruct (is_match t) eqn:Ematch.
  - unfold is_match in Ematch. apply bool_decide_eq_true in Ematch as [ms Ems]. destruct (Hm ms Ems) as (Hne & Hd & Hin).
    assert (key_places t = key_name <$> ms_keys ms) as Ekeys by (unfold key_places; by rewrite Ems).
    destruct (existsb _ (os ≫= _)) eqn:E1; [done|]. destruct (existsb _ (filter _ (timeoutWrites t))); [done|].
    destruct (existsb _ (filter _ (inputSpecs t))) eqn:E3; [done|]. destruct (coloured_inputs t (key_places t)) as [l|] eqn:El; [|done].
    injection E as <-. apply coloured_inputs_spec in El as [El1 El2]. rewrite Ekeys in El1. cbn [role_ok]. split_and!.
    + unfold is_match. rewrite Ems. by apply bool_decide_eq_true.
    + rewrite stable_sort_Permutation. by rewrite El1.
    + intros En. apply (f_equal (fmap fst)) in En. apply (f_equal length) in En. rewrite stable_sort_Permutation, El1, length_fmap in En. by destruct (ms_keys ms).
    + intros p z. rewrite stable_sort_Permutation. split.
      * intros Hpz. apply fixedRequired_takes; [done| |by apply El2]. apply bool_decide_eq_true, Hk. rewrite Ekeys, <- El1. by apply (list_elem_of_fmap_2 fst) in Hpz.
      * intros [Ez Hz]. assert (p ∈ key_name <$> ms_keys ms) as Hp.
        { rewrite <- Ez in Hz. apply takes_nonzero in Hz as [Hc (s & -> & Hs)%list_elem_of_fmap]; [|done]. rewrite <- Ekeys.
          destruct (decide (place_name (in_place s) ∈ key_places t)) as [|Hn]; [done|]. exfalso. apply eq_true_false_abs with (2 := E3). apply existsb_elem.
          exists s. split; [apply list_elem_of_filter; split; [by apply bool_decide_eq_true in Hc|done]|]. by rewrite bool_decide_eq_false_2. }
        rewrite <- El1 in Hp. apply list_elem_of_fmap in Hp as ([p' z'] & -> & Hpz). cbn [fst] in *. replace z with z'; [done|]. rewrite <- Ez. symmetry.
        apply fixedRequired_takes; [done| |by apply El2]. apply bool_decide_eq_true, Hk. rewrite Ekeys, <- El1. by apply (list_elem_of_fmap_2 fst) in Hpz.
    + intros o p Ho Hp. split.
      * intros Hrl. apply bool_decide_eq_true. destruct mode; [by apply not_elem_of_nil in Hrl|]. apply Hrel; [done|]. by apply elem_of_set_of.
      * intros Hc. unfold isColoured in Hc. match goal with |- _ ∈ ?l => destruct (decide (place_name p ∈ l)) as [|Hn]; [done|] end. exfalso.
        apply eq_true_false_abs with (2 := E1). apply existsb_elem. exists (place_name p). split; [|by rewrite Hc, (bool_decide_eq_false_2 _ Hn)].
        apply list_elem_of_bind. exists o. split; [by apply list_elem_of_fmap_2|done].
  - destruct (filter _ (inputSpecs t)) as [|spec more] eqn:Ein.
    + pose proof (takes_none t W Ein) as Ht. destruct (existsb _ (os ≫= _)) eqn:E1.
      * destruct (negb _ || negb _); [done|]. injection E as <-. by split.
      * injection E as <-. split_and!; [done|done|]. intros o Ho. unfold coloured_writes. apply filter_none. intros p Hp Hc.
        apply eq_true_false_abs with (2 := E1). apply existsb_elem. exists p. split; [|done]. apply list_elem_of_bind. by exists o.
    + destruct mode; [done|]. destruct (negb (bool_decide (length more = 0)%nat)) eqn:E1; [done|]. destruct (negb _) eqn:E2 in E; [done|].
      destruct (existsb _ _); [done|]. injection E as <-. split; [done|]. intros p. b2p. destruct more; [|done].
      assert (spec ∈ inputSpecs t ∧ isColoured f (place_name (in_place spec)) = true) as [Hs Hc].
      { assert (spec ∈ [spec]) as Hx by left. rewrite <- Ein in Hx. apply list_elem_of_filter in Hx as [Hx ?]. split; [done|]. by apply bool_decide_eq_true. }
      case_decide as Ep.
      * subst p. rewrite (takes_spec t spec W Hs Hc). destruct spec; try done. by b2p.
      * destruct (decide (takes f t p = 0)) as [|Hp]; [done|]. apply takes_nonzero in Hp as [Hcp (s & -> & Hs')%list_elem_of_fmap]; [|done].
        assert (s ∈ [spec]) as Hx by (rewrite <- Ein; apply list_elem_of_filter; split; [by apply bool_decide_eq_true in Hcp|done]).
        by apply list_elem_of_singleton in Hx as ->.
Qed.

(** What a firing takes from a coloured place is a fixed number, and what it puts there is one token. *)
Definition counts_ok t (os : list outcome) : Prop :=
  (∀ p, takes f t p ≠ 0 → fixedRequiredCount t p = Some (takes f t p)) ∧
  ∀ o d, o ∈ os → d ∈ deposits o → isColoured f (place_name (od_place d)) = true → od_deposit d = DepositTokens 1.

Lemma role_for_counts t os r : correlated_ok t → outcomes t = Ok os → role_for mode coloured mints t = Ok (Some r) → counts_ok t os.
Proof.
  intros [W Hm] Eos. unfold role_for. rewrite Eos. cbn [res_bind]. intros [= E]. destruct (existsb (miscounted coloured) os) eqn:Emis; [done|].
  assert (∀ p s, spec_of t p = Some s → isColoured f p = true → s ∈ filter (λ s, place_name (in_place s) ∈ coloured) (inputSpecs t) ∧ place_name (in_place s) = p) as Hin.
  { intros p s [Hs Es]%spec_of_Some Hc. split; [|done]. apply list_elem_of_filter. split; [|done]. rewrite Es. by apply bool_decide_eq_true in Hc. }
  split.
  - intros p Hz. unfold takes in *. destruct (isColoured f p) eqn:Ec; [|done]. destruct (spec_of t p) as [s|] eqn:Es; [|done]. destruct (Hin p s Es Ec) as [Hs Ep]. clear Hz.
    unfold fixedRequiredCount. fold (spec_of t p). rewrite Es. cbn [from_option]. destruct (is_match t) eqn:Ematch.
    + destruct (existsb _ (os ≫= _)); [done|]. destruct (existsb _ (filter _ (timeoutWrites t))); [done|].
      destruct (existsb _ (filter _ (inputSpecs t))) eqn:E3; [done|]. destruct (coloured_inputs t (key_places t)) as [l|] eqn:El; [|done].
      assert (p ∈ key_places t) as Hp.
      { destruct (decide (p ∈ key_places t)) as [|Hn]; [done|]. exfalso. apply eq_true_false_abs with (2 := E3). apply existsb_elem. exists s. split; [done|]. by rewrite Ep, bool_decide_eq_false_2. }
      apply coloured_inputs_spec in El as [El1 El2]. rewrite <- El1 in Hp. apply list_elem_of_fmap in Hp as ([p' z] & -> & Hpz). apply El2 in Hpz.
      unfold fixedRequiredCount in Hpz. fold (spec_of t p') in Hpz. cbn [fst] in Es. rewrite Es in Hpz. destruct s; done.
    + destruct (filter _ (inputSpecs t)) as [|spec more]; [by apply not_elem_of_nil in Hs|]. destruct mode; [done|].
      destruct (negb (bool_decide (length more = 0)%nat)) eqn:E1; [done|]. destruct (negb _) eqn:E2 in E; [done|]. b2p. destruct more; [|done].
      apply list_elem_of_singleton in Hs as ->. by destruct spec.
  - intros o d Ho Hd Hc. destruct (od_deposit d) as [c|from] eqn:Ed.
    + destruct (Z.eqb_spec c 1) as [->|Hne]; [done|]. exfalso. apply eq_true_false_abs with (2 := Emis). apply existsb_elem. exists o. split; [done|]. apply existsb_elem. exists d.
      split; [done|]. unfold isColoured in Hc. rewrite Hc, Ed. cbn. by rewrite (proj2 (Z.eqb_neq c 1)).
    + exfalso. apply eq_true_false_abs with (2 := Emis). apply existsb_elem. exists o. split; [done|]. apply existsb_elem. exists d.
      split; [done|]. unfold isColoured in Hc. by rewrite Hc, Ed.
Qed.
End Roles.

Section Classified.
Context {V : Type}.
Variables (mode : fragment_mode) (carriers mints : list jsstr) (admitMatchless : bool).
Implicit Types (t : transition V) (ts : list (transition V)).

Lemma classify_roles_spec coloured ts roles ms rs roles' ms' rs' : NoDup (t_name <$> ts) →
  classify_roles mode coloured mints ts roles ms rs = Ok (Some (roles', ms', rs')) →
  (∀ t, t ∈ ts → ∃ r, map_get (t_name t) roles' = Some r ∧ role_for mode coloured mints t = Ok (Some r)) ∧
  ∀ n, n ∉ t_name <$> ts → map_get n roles' = map_get n roles.
Proof.
  revert roles ms rs. induction ts as [|t ts IH]; intros roles ms rs Hd E; cbn [classify_roles] in E.
  { injection E as -> _ _. split; [by intros ? ?%not_elem_of_nil|done]. }
  rewrite fmap_cons in Hd. apply NoDup_cons in Hd as [Hn Hd]. destruct (role_for mode coloured mints t) as [[r|]|] eqn:Er; cbn [res_bind] in E; [|done..].
  destruct (writes_coloured coloured t); cbn [res_bind] in E; [|done]. apply IH in E as [E1 E2]; [|done]. split.
  - intros t' [->|Ht']%elem_of_cons; [|by apply E1]. exists r. split; [|done]. by rewrite E2, map_get_set, decide_True.
  - intros n Hn'. rewrite fmap_cons, not_elem_of_cons in Hn'. destruct Hn' as [H1 H2]. by rewrite E2, map_get_set, decide_False.
Qed.

(** A classified transition has a role of the rule, and no arc tests a coloured place. *)
(** The classification does not throw on transitions whose outcomes can be listed. *)
Lemma classify_total ts : (∀ t, t ∈ ts → ∃ os, outcomes t = Ok os) → ∃ r, classify ts mode carriers mints admitMatchless = Ok r.
Proof.
  intros Hts. unfold classify. case_bool; [by eexists|]. cbn zeta. case_bool; [by eexists|].
  assert (∀ coloured l roles ms rs, (∀ t, t ∈ l → t ∈ ts) → ∃ r, classify_roles mode coloured mints l roles ms rs = Ok r) as H.
  { intros coloured. induction l as [|t l IH]; intros roles ms rs Hl; cbn [classify_roles]; [by eexists|].
    destruct (Hts t) as [os Eos]; [apply Hl; left|]. unfold role_for. rewrite Eos. cbn [res_bind].
    set (role := if existsb _ os then _ else _). destruct role as [r|]; [|by eexists].
    unfold writes_coloured. rewrite Eos. cbn [res_bind]. apply IH. intros u Hu. apply Hl. by right. }
  edestruct H as [r ->]; [done|]. cbn [res_bind]. by eexists.
Qed.

Lemma classify_ok ts f : NoDup (t_name <$> ts) → (∀ t, t ∈ ts → correlated_ok t) → classify ts mode carriers mints admitMatchless = Ok (Some f) →
  (∀ p, p ∈ colouredOrder f ↔ isColoured f p = true) ∧
  ∀ t, t ∈ ts → tests_coloured (nf_coloured f) t = false ∧ ∀ os, outcomes t = Ok os → role_ok f t os (role_of f (t_name t)) ∧ counts_ok f t os.
Proof.
  intros Hd Hok. unfold classify. destruct (negb admitMatchless && _); [done|]. destruct (existsb _ ts) eqn:Et; [done|].
  destruct (classify_roles _ _ _ _ _ _ _) as [[[[roles ms] rs]|]|] eqn:E; cbn [res_bind]; [|done..]. intros [= <-].
  apply classify_roles_spec in E as [E _]; [|done]. cbn [colouredOrder nf_coloured nf_roles]. split.
  - intros p. unfold isColoured. cbn [nf_coloured]. rewrite bool_decide_eq_true. by rewrite stable_sort_Permutation.
  - intros t Ht. split.
    { destruct (tests_coloured _ t) eqn:Ett; [|done]. exfalso. apply eq_true_false_abs with (2 := Et). apply existsb_elem. by exists t. }
    intros os Eos. destruct (E t Ht) as (r & Er & Erf). unfold role_of. cbn [nf_roles]. rewrite Er. cbn [default from_option id].
    split; [|eapply role_for_counts; [by apply Hok|done|exact Erf]]. eapply role_for_ok; [by apply Hok| | |exact Eos|exact Erf]; cbn [nf_coloured].
    + intros p Hp. unfold coloured_places. assert (p ∈ set_of (ts ≫= key_places)) as Hkey by (apply elem_of_set_of, list_elem_of_bind; by exists t).
      destruct mode; [done|]. rewrite !elem_of_set_union. by left; left.
    + intros Em p Hp. unfold coloured_places. rewrite Em, elem_of_set_union. right. apply list_elem_of_bind. by exists t.
Qed.
(** The correlated inputs of every transition are coloured. *)
Lemma classify_keys ts f t p : classify ts mode carriers mints admitMatchless = Ok (Some f) → t ∈ ts → p ∈ key_places t → isColoured f p = true.
Proof.
  intros E Ht Hp. revert E. unfold classify. destruct (negb admitMatchless && _); [done|]. destruct (existsb _ ts); [done|].
  destruct (classify_roles _ _ _ _ _ _ _) as [[[[roles a] b]|]|]; cbn [res_bind]; [|done..]. intros [= <-]. apply bool_decide_eq_true. cbn [nf_coloured]. unfold coloured_places.
  assert (p ∈ set_of (ts ≫= key_places)) as Hkey by (apply elem_of_set_of, list_elem_of_bind; by exists t). destruct mode; [done|]. rewrite !elem_of_set_union. by left; left.
Qed.
End Classified.
