(* ===== verification/NameGraph.v ===== *)
(** * The name-aware state-class graph

    [src/typescript/src/verification/analysis/name-state-class-graph.ts], [name-state-class.ts],
    [priority-semantics.ts] and [src/typescript/src/verification/nu-scg-verifier.ts]: classes that
    carry, beside the state class, which names the tokens of the coloured places hold, up to
    renaming; the breadth-first construction over both layers and the decision read off it. An
    intern key is the data its string prints; a class is its position; notes are constructors. *)
From S2P Require Import Prelude.
From S2P Require Import CodePoints.
From S2P Require Import Net.
From S2P Require Import Out.
From S2P Require Import Transition.
From S2P Require Import PetriNet.
From S2P Require Import MarkingState.
From S2P Require Import Dbm.
From S2P Require Import Outcomes.
From S2P Require Import StateClass.
From S2P Require Import NameMarking.
From S2P Require Import NameFragment.
From S2P Require Import SmtProperty.
From S2P Require Import ScgVerifier.
From S2P Require Import NetRewrites.
#[local] Open Scope Z_scope.

#[export] Instance lower_bound_eq_dec : EqDecision lower_bound.
Proof. solve_decision. Defined.

Inductive priority_semantics := PriorityNone | PriorityConflict.

(** ** One step of the name layer *)

Record name_step := NameStep { ns_intermediate : option name_marking; ns_after : name_marking }.

(** Adds [count] of the symbol to each place. *)
Definition add_all (places : list jsstr) (s : Z) (m : name_marking) : name_marking := foldl (λ m p, nm_add p s 1 m) m places.

Definition enablingSymbols (m : name_marking) (colouredIn : list (jsstr * Z)) : list Z :=
  match colouredIn with
  | [] => []
  | (firstPlace, firstReq) :: others =>
      filter (λ s, negb (countOf firstPlace s m <? firstReq) && forallb (λ y, negb (countOf y.1 s m <? y.2)) others = true) (symbolsIn firstPlace m)
  end.

(** The first symbol of each signature. *)
Definition distinctSignatures (symbols : list Z) (m : name_marking) (f : name_fragment) : list Z :=
  if (length symbols <? 2)%nat then symbols
  else (foldl (λ y s, let sg := signature (colouredOrder f) m s in
                      if bool_decide (sg ∈ y.1) then y else (set_add sg y.1, y.2 ++ [s])) ([], []) symbols).2.

Definition colouredOutputs (outputPlaces : list place) (f : name_fragment) : list jsstr :=
  place_name <$> filter (λ p, isColoured f (place_name p) = true) outputPlaces.

Definition remove_all (colouredIn : list (jsstr * Z)) (s : Z) (m : name_marking) : name_marking := foldl (λ m y, (nm_remove y.1 s y.2 m).2) m colouredIn.

(** The steps, and the next fresh symbol. *)
Definition nameSuccessors (r : role) (m : name_marking) (outputPlaces : list place) (f : name_fragment) (next : Z) : list name_step * Z :=
  match r with
  | RoleOrdinary => ([NameStep None (nm_copy m)], next)
  | RoleMint =>
      match colouredOutputs outputPlaces f with
      | [] => ([NameStep None (nm_copy m)], next)
      | colouredOut => ([NameStep None (add_all colouredOut next (nm_copy m))], next + 1)
      end
  | RoleJoin colouredIn relayTo =>
      let relays := place_name <$> filter (λ p, place_name p ∈ relayTo) outputPlaces in
      ((λ s, let between := remove_all colouredIn s (nm_copy m) in NameStep (Some between) (add_all relays s (nm_copy between)))
         <$> distinctSignatures (enablingSymbols m colouredIn) m f, next)
  | RoleConsume colouredInput =>
      let colouredOut := colouredOutputs outputPlaces f in
      ((λ s, let between := (nm_remove colouredInput s 1 (nm_copy m)).2 in NameStep (Some between) (add_all colouredOut s (nm_copy between)))
         <$> distinctSignatures (symbolsIn colouredInput m) m f, next)
  end.

(** ** Priority *)

Section Priority.
Context {V : Type}.
Implicit Types (t : transition V).

Definition nameEnabled t (m : name_marking) (f : name_fragment) : bool :=
  match role_of f (t_name t) with
  | RoleJoin colouredIn _ => negb (bool_decide (length (enablingSymbols m colouredIn) = 0)%nat)
  | _ => true
  end.

Definition willFire t (m : name_marking) (f : name_fragment) : bool :=
  match role_of f (t_name t) with
  | RoleJoin colouredIn _ => negb (bool_decide (length (enablingSymbols m colouredIn) = 0)%nat)
  | RoleConsume colouredInput => negb (bool_decide (length (symbolsIn colouredInput m) = 0)%nat)
  | RoleOrdinary | RoleMint => true
  end.

Definition consumedDemand t (placeName : jsstr) : Z :=
  foldl (λ demand s, if bool_decide (place_name (in_place s) = placeName) then demand + inputRequiredCount s else demand) 0 (inputSpecs t).

Definition sharesConsumedInput (h l : transition V) (m : marking_state) : bool :=
  let lIns := set_of (place_name <$> inputPlaces l) in
  existsb (λ p, bool_decide (place_name p ∈ lIns) && (ms_tokens p m <? consumedDemand h (place_name p) + consumedDemand l (place_name p))) (inputPlaces h).

(** [readyEarliest[h] <= readyEarliest[l] + READY_EPS] *)
Definition ready_before (scale : Z) (h l : lower_bound) : bool :=
  match h, l with
  | NegInfinity, _ => true
  | Lower _, NegInfinity => false
  | Lower x, Lower y => x <=? y + EPSILON scale
  end.

Definition priorityDominated (scale : Z) (ts : list (transition V)) (l : transition V) (idxL : nat) (enabled : list nat) (readyEarliest : list lower_bound)
    (m : marking_state) (names : name_marking) (f : name_fragment) : bool :=
  existsb (λ idxH,
    match enabled !! idxH ≫= λ i, ts !! i, readyEarliest !! idxH, readyEarliest !! idxL with
    | Some h, Some rh, Some rl =>
        negb (idxH =? idxL)%nat && (priority l <? priority h) && (ms_tokens (Place 0 (inFlightPlace (t_name h))) m =? 0) &&
        ready_before scale rh rl && willFire h names f && sharesConsumedInput h l m
    | _, _, _ => false
    end) (seq 0 (length enabled)).
End Priority.

(** ** Classes, interned layer by layer *)

Record name_state_class := NameStateClass { nc_base : state_class; nc_names : name_marking; nc_nameKey : jsstr }.

(** What [build] keeps: the intern tables, whose ids are positions, the class map and the graph. *)
Record name_exploration := NameExploration {
  ne_bases : list (jsstr * list lower_bound * state_class);
  ne_names : list (jsstr * name_marking);
  ne_index : list (nat * nat * nat);
  ne_classes : list name_state_class;
  ne_edges : list (nat * nat * jsstr);
  ne_successors : list (list nat);
  ne_labels : list (list jsstr);
  ne_next : Z;
  ne_stopped : bool
}.

Record name_graph := NameGraph {
  ng_classes : list name_state_class;
  ng_edges : list (nat * nat * jsstr);
  ng_successors : list (list nat);
  ng_labels : list (list jsstr);
  ng_complete : bool;
  ng_expanded : nat;
  ng_stoppedEarly : bool
}.

Section Build.
Context {V : Type}.
Variables (scale : Z) (ts : list (transition V)) (env : list jsstr) (mode : environment_mode) (f : name_fragment) (prioritySemantics : priority_semantics)
  (stopAt : option (marking_state → name_marking → bool)).

Definition baseKeyOf (c : state_class) : jsstr := classKey scale c.
Definition base_key (c : state_class) : jsstr * list lower_bound := (baseKeyOf c, readyEarliest c).

(** The id of a layer, the layer shared, and the table. *)
Definition internBase (c : state_class) (x : list (jsstr * list lower_bound * state_class)) : nat * state_class * list (jsstr * list lower_bound * state_class) :=
  match find_index (λ y, bool_decide (y.1 = base_key c)) x with
  | Some k => (k, from_option snd c (x !! k), x)
  | None => (length x, c, x ++ [(base_key c, c)])
  end.
Definition internNames (m : name_marking) (x : list (jsstr * name_marking)) : nat * name_marking * jsstr * list (jsstr * name_marking) :=
  let nameKey := canonicalKey (colouredOrder f) m in
  match find_index (λ y, bool_decide (y.1 = nameKey)) x with
  | Some k => (k, from_option snd m (x !! k), nameKey, x)
  | None => (length x, m, nameKey, x ++ [(nameKey, m)])
  end.

Definition stop_test (c : name_state_class) : bool := match stopAt with Some p => p (sc_marking (nc_base c)) (nc_names c) | None => false end.

Definition addEdge (from to : nat) (label : jsstr) (x : name_exploration) : name_exploration :=
  NameExploration (ne_bases x) (ne_names x) (ne_index x) (ne_classes x) (ne_edges x ++ [(from, to, label)])
    (alter (λ l, l ++ [to]) from (ne_successors x)) (alter (λ l, l ++ [label]) from (ne_labels x)) (ne_next x) (ne_stopped x).
Definition pushClass (c : name_state_class) (id : nat * nat) (x : name_exploration) : name_exploration :=
  NameExploration (ne_bases x) (ne_names x) (map_set id (length (ne_classes x)) (ne_index x)) (ne_classes x ++ [c]) (ne_edges x)
    (ne_successors x ++ [[]]) (ne_labels x ++ [[]]) (ne_next x) (ne_stopped x).

(** The class of a base successor and a name layer, added when it is new, and the edge to it. *)
Definition add_class (cur : nat) (label : jsstr) (base : state_class) (names : name_marking) (x : name_exploration) : name_exploration :=
  let '(b, base, bases) := internBase base (ne_bases x) in
  let '(k, names, nameKey, nameTable) := internNames names (ne_names x) in
  let x := NameExploration bases nameTable (ne_index x) (ne_classes x) (ne_edges x) (ne_successors x) (ne_labels x) (ne_next x) (ne_stopped x) in
  match map_get (b, k) (ne_index x) with
  | Some toIdx => addEdge cur toIdx label x
  | None =>
      let toIdx := length (ne_classes x) in
      let c := NameStateClass base names nameKey in
      let x := addEdge cur toIdx label (pushClass c (b, k) x) in
      if stop_test c then NameExploration (ne_bases x) (ne_names x) (ne_index x) (ne_classes x) (ne_edges x) (ne_successors x) (ne_labels x) (ne_next x) true else x
  end.

Definition named_gate (between after : name_marking) : enabling_gate :=
  EnablingGate (λ i, from_option (λ t, nameEnabled t between f) false (ts !! i)) (λ i, from_option (λ t, nameEnabled t after f) false (ts !! i)).

Definition take_step (cur : nat) (current : name_state_class) (vt : virtual_transition) (t : transition V) (x : name_exploration) (step : name_step)
    : result scg_error name_exploration :=
  if ne_stopped x then Ok x
  else
    let between := default (nc_names current) (ns_intermediate step) in
    let* baseSucc := computeSuccessor scale ts env mode (nc_base current) vt false (Some (named_gate between (ns_after step))) t in
    Ok (if sc_isEmpty baseSucc then x else add_class cur (t_name t) baseSucc (ns_after step) x).

Definition set_next (next : Z) (x : name_exploration) : name_exploration :=
  NameExploration (ne_bases x) (ne_names x) (ne_index x) (ne_classes x) (ne_edges x) (ne_successors x) (ne_labels x) next (ne_stopped x).

Definition take_branch (cur : nat) (current : name_state_class) (t : transition V) (x : name_exploration) (vt : virtual_transition) : result scg_error name_exploration :=
  if ne_stopped x then Ok x
  else
    let '(steps, next) := nameSuccessors (role_of f (t_name t)) (nc_names current) (oc_places (vt_outcome vt)) f (ne_next x) in
    fold_result (take_step cur current vt t) (set_next next x) steps.

Definition take_transition (cur : nat) (current : name_state_class) (x : name_exploration) (idxL : nat) : result scg_error name_exploration :=
  if ne_stopped x then Ok x
  else
    let enabled := enabledTransitions (nc_base current) in
    match enabled !! idxL with
    | None => Ok x
    | Some i =>
        match ts !! i with
        | None => Ok x
        | Some t =>
            if match prioritySemantics with
               | PriorityConflict => priorityDominated scale ts t idxL enabled (readyEarliest (nc_base current)) (sc_marking (nc_base current)) (nc_names current) f
               | PriorityNone => false
               end then Ok x
            else let* vts := expandTransition i t in fold_result (take_branch cur current t) x vts
        end
    end.

Definition expand_name_class (cur : nat) (current : name_state_class) (x : name_exploration) : result scg_error name_exploration :=
  fold_result (take_transition cur current) x (seq 0 (length (enabledTransitions (nc_base current)))).

Definition graph_of (x : name_exploration) (complete : bool) (expanded : nat) : name_graph :=
  NameGraph (ne_classes x) (ne_edges x) (ne_successors x) (ne_labels x) complete expanded (ne_stopped x).

(** The loop; [None] when the fuel is spent. [stops n] is whether the deadline's [n]-th check throws. *)
Fixpoint name_explore (stops : option (nat → bool)) (maxClasses : Z) (fuel : nat) (x : name_exploration) (expanded : nat) : result scg_error (option name_graph) :=
  match fuel with
  | O => Ok None
  | S fuel =>
      match ne_classes x !! expanded with
      | None => Ok (Some (graph_of x true expanded))
      | Some current =>
          if maxClasses <=? Z.of_nat (length (ne_classes x)) then Ok (Some (graph_of x false expanded))
          else if match stops with Some s => (S expanded mod 16 =? 0)%nat && s (S expanded / 16)%nat | None => false end then Err ScgStopped
          else let* x := expand_name_class expanded current x in
               if ne_stopped x then Ok (Some (graph_of x false expanded)) else name_explore stops maxClasses fuel x (S expanded)
      end
  end.

Definition start_names (base : state_class) : name_exploration :=
  let nameKey := canonicalKey (colouredOrder f) [] in
  NameExploration [(base_key base, base)] [(nameKey, [])] [(0%nat, 0%nat, 0%nat)] [NameStateClass base [] nameKey] [] [[]] [[]] 0 false.

Definition name_build (initialMarking : marking_state) (maxClasses : Z) (stops : option (nat → bool)) : result scg_error (option name_graph) :=
  if match mode with Arrivals _ _ => negb (bool_decide (env = [])) | _ => false end then Err (ArrivalsNotModelled "NameStateClassGraph.build")
  else
    let* base := initialStateClass scale ts env mode false initialMarking in
    let x := start_names base in
    if stop_test (NameStateClass base [] (canonicalKey (colouredOrder f) [])) then Ok (Some (NameGraph (ne_classes x) [] [[]] [[]] false 0 true))
    else name_explore stops maxClasses (S (Z.to_nat maxClasses)) x 0.
End Build.

(** * The decision over the graph

    [src/typescript/src/verification/nu-scg-verifier.ts]. *)

Inductive nu_note := NoNote | EarlyStop (classCount : nat) | Closed (onTime : bool) | Prefix (maxClasses : Z) | Lateness (note : nu_note) (lifted : list jsstr) (pruningOff : bool).

Inductive nu_refusal := NotColoured (place : jsstr) (mode : fragment_mode) | InitiallyMarked (place : jsstr) | GraphTruncated (maxClasses : Z).
Inductive nu_verdict := NuProven | NuViolated | NuUnknown (reason : nu_refusal).

Record nu_outcome := NuOutcome { nu_verdict_of : nu_verdict; nu_trace : list marking_state; nu_transitions : list jsstr; nu_note_of : nu_note; nu_classCount : nat }.

Inductive nu_error :=
| NuGraph (e : scg_error)
| NuProperty (e : property_error)
| NuRewrite (e : rewrite_error)
| NuFragment (e : outcome_error).
Definition nu_lift {A E} (g : E → nu_error) (r : result E A) : result nu_error A := match r with Ok a => Ok a | Err e => Err (g e) end.

Section Path.
Variable g : name_graph.

Definition ng_marking (k : nat) : marking_state := from_option (λ c, sc_marking (nc_base c)) ms_empty (ng_classes g !! k).
Definition ng_names (k : nat) : name_marking := from_option nc_names [] (ng_classes g !! k).

Definition visit_successor (u : nat) (s : search) (y : nat * jsstr) : search :=
  if bool_decide (y.1 ∈ s_seen s) then s
  else Search (map_set y.1 u (s_parent s)) (map_set y.1 y.2 (s_via s)) (set_add y.1 (s_seen s)) (s_queue s ++ [y.1]).
Definition visit_node (u : nat) (s : search) : search :=
  foldl (visit_successor u) s (zip (default [] (ng_successors g !! u)) (default [] (ng_labels g !! u))).
Fixpoint nu_search (target : nat) (fuel : nat) (s : search) (head : nat) : option search :=
  match fuel with
  | O => None
  | S fuel =>
      match s_queue s !! head with
      | None => Some s
      | Some u => if (u =? target)%nat then Some s else nu_search target fuel (visit_node u s) (S head)
      end
  end.
Definition nu_counterexamplePath (target : nat) : option (list marking_state * list jsstr) :=
  s ← nu_search target (S (length (ng_classes g))) (Search [] [] [0%nat] [0%nat]) 0;
  chain ← walk_back (s_parent s) (S (length (ng_classes g))) target;
  let chain := reverse chain in
  Some (ng_marking <$> chain, (λ k, default [] (map_get k (s_via s))) <$> tail chain).

Definition nu_quiescent (reapable : list jsstr) (i : nat) : bool :=
  (i <? ng_expanded g)%nat && forallb (λ label, bool_decide (label ∈ reapable)) (default [] (ng_labels g !! i)).
Definition nu_decide (prop : smt_property) (sinkPlaces : list place) (conditionalSinks : list conditional_sinks) (reapable : list jsstr)
    : result property_error (option nat) :=
  decideOverClasses (ClassView (length (ng_classes g)) ng_marking (nu_quiescent reapable) (Some ng_names)) prop sinkPlaces conditionalSinks.
End Path.

Section Verify.
Context {V : Type}.
Implicit Types (net : petri_net V).

Definition nameAlignmentRefusal (places : list place) (f : name_fragment) (mode : fragment_mode) (initial : marking_state) : option nu_refusal :=
  match js_find (λ p, negb (isColoured f (place_name p))) places with
  | Some p => Some (NotColoured (place_name p) mode)
  | None =>
      match sortNames (filter (λ n, isColoured f n = true) (place_name <$> placesWithTokens initial)) with
      | n :: _ => Some (InitiallyMarked n)
      | [] => None
      end
  end.

(** The predicate of the early stop: it is always given the names. *)
Definition stop_predicate (prop : smt_property) : option (marking_state → name_marking → bool) :=
  (λ p : marking_state → option name_marking → result property_error bool, λ m n, match p m (Some n) with Ok b => b | Err _ => false end) <$> safetyViolation prop.

(** [None] of the result is the [null] of the code: outside the fragment. [None] inside it is fuel spent. *)
Definition verifyNameScg (scale : Z) net (initial : marking_state) (prop : smt_property) (sinkPlaces : list place) (env : list jsstr) (mode : environment_mode)
    (maxClasses : Z) (fragmentMode : fragment_mode) (carrierPlaces mintTransitions : list jsstr) (prioritySemantics : priority_semantics)
    (conditionalSinks : list conditional_sinks) (stops : option (nat → bool)) (reapable : list jsstr) : result nu_error (option (option nu_outcome)) :=
  let ts := net_transitions net in
  let* f := nu_lift NuFragment (classify ts fragmentMode carrierPlaces mintTransitions (isNameAlignment prop)) in
  match f with
  | None => Ok None
  | Some f =>
      let refusal := match prop with NameAligned ps | QuiescentNameAligned ps => nameAlignmentRefusal ps f fragmentMode initial | _ => None end in
      match refusal with
      | Some r => Ok (Some (Some (NuOutcome (NuUnknown r) [] [] NoNote 0)))
      | None =>
          if existsb (λ p, isColoured f (place_name p)) (placesWithTokens initial) then Ok None
          else
            let* g := nu_lift NuGraph (name_build scale ts env mode f prioritySemantics (stop_predicate prop) initial maxClasses stops) in
            match g with
            | None => Ok (Some None)
            | Some g =>
                let closedNote := Closed (existsb (λ t, hasLatestBound (t_timing t)) ts) in
                let* violating := nu_lift NuProperty (nu_decide g prop sinkPlaces conditionalSinks reapable) in
                match violating with
                | Some k =>
                    Ok (Some (y ← nu_counterexamplePath g k;
                      Some (NuOutcome NuViolated y.1 y.2
                        (if ng_stoppedEarly g then EarlyStop (length (ng_classes g)) else if ng_complete g then closedNote else Prefix maxClasses)
                        (length (ng_classes g)))))
                | None =>
                    if negb (ng_complete g) then Ok (Some (Some (NuOutcome (NuUnknown (GraphTruncated maxClasses)) [] [] NoNote (length (ng_classes g)))))
                    else Ok (Some (Some (NuOutcome NuProven [] [] closedNote (length (ng_classes g)))))
                end
            end
      end
  end.

Definition verifyViaNameScg (scale : Z) net (initial : marking_state) (prop : smt_property) (sinkPlaces : list place) (env : list jsstr) (mode : environment_mode)
    (maxClasses : Z) (fragmentMode : fragment_mode) (carrierPlaces mintTransitions : list jsstr) (prioritySemantics : priority_semantics)
    (conditionalSinks : list conditional_sinks) (stops : option (nat → bool)) (reapable late : list jsstr) : result nu_error (option (option nu_outcome)) :=
  let ts := net_transitions net in
  let reapableInNet := set_of (filter (λ n, n ∈ reapable) (t_name <$> ts)) in
  let lifted := set_of (t_name <$> filter (λ t, (bool_decide (t_name t ∈ late) && hasLatestBound (t_timing t)) = true) ts) in
  let none (l : list jsstr) := bool_decide (length l = 0)%nat in
  if none reapableInNet && none lifted then
    verifyNameScg scale net initial prop sinkPlaces env mode maxClasses fragmentMode carrierPlaces mintTransitions prioritySemantics conditionalSinks stops []
  else
    let pruningOff := negb (none reapableInNet) && match prioritySemantics with PriorityConflict => true | PriorityNone => false end in
    let semantics := if none reapableInNet then prioritySemantics else PriorityNone in
    let restsOn := match safetyViolation prop with Some _ => [] | None => reapableInNet end in
    let* relaxed := nu_lift NuRewrite (relaxLate net lifted) in
    let* outcome := verifyNameScg scale relaxed initial prop sinkPlaces env mode maxClasses fragmentMode carrierPlaces mintTransitions semantics conditionalSinks stops restsOn in
    Ok (match outcome with
        | Some (Some out) =>
            match nu_note_of out with
            | NoNote => outcome
            | note => if none lifted then outcome
                      else Some (Some (NuOutcome (nu_verdict_of out) (nu_trace out) (nu_transitions out) (Lateness note lifted pruningOff) (nu_classCount out)))
            end
        | _ => outcome
        end).
End Verify.
