(* ===== verification/NameExact.v ===== *)
(** * The name-aware graph is exact

    The steps of the name layer are the firings of the rule of [NameFragment] up to a permutation of
    the symbols, and a complete graph of [NameGraph] holds exactly the timed states with names that
    the net reaches. *)
From S2P Require Import Prelude.
From S2P Require Import CodePoints.
From S2P Require Import Net.
From S2P Require Import Out.
From S2P Require Import OutSpec.
From S2P Require Import Transition.
From S2P Require Import MarkingState.
From S2P Require Import Dbm.
From S2P Require Import DbmZone.
From S2P Require Import Outcomes.
From S2P Require Import StateClass.
From S2P Require Import ClassSteps.
From S2P Require Import ClassKeys.
From S2P Require Import GraphExact.
From S2P Require Import NameMarking.
From S2P Require Import NameFragment.
From S2P Require Import NameGraph.
#[local] Open Scope Z_scope.

(** ** The operations of a step *)

Lemma add_all_spec ps s m : NoDup ps → nm_wf m →
  nm_wf (add_all ps s m) ∧ ∀ p x, countOf p x (add_all ps s m) = countOf p x m + (if decide (x = s ∧ p ∈ ps) then 1 else 0).
Proof.
  revert m. induction ps as [|q ps IH]; intros m Hd W.
  { split; [done|]. intros p x. change (add_all [] s m) with m. rewrite decide_False; [lia|]. by intros [_ ?%not_elem_of_nil]. }
  apply NoDup_cons in Hd as [Hn Hd]. destruct (IH (nm_add q s 1 m) Hd) as [W' C]; [by apply nm_add_wf|]. split; [done|]. intros p x.
  change (add_all (q :: ps) s m) with (add_all ps s (nm_add q s 1 m)). rewrite C, nm_add_count.
  destruct (decide (x = s ∧ p ∈ q :: ps)) as [[-> Hp]|Hx].
  - apply elem_of_cons in Hp as [->|Hp]; [rewrite decide_True, decide_False by tauto; lia|]. rewrite (decide_True (P := s = s ∧ p ∈ ps)) by done.
    rewrite decide_False; [lia|]. by intros [-> _].
  - rewrite elem_of_cons in Hx. rewrite !decide_False by tauto. lia.
Qed.

Lemma remove_all_spec (l : list (jsstr * Z)) s m : NoDup l.*1 → nm_wf m → (∀ p z, (p, z) ∈ l → 0 <= z <= countOf p s m) →
  nm_wf (remove_all l s m) ∧ ∀ p x, countOf p x (remove_all l s m) = countOf p x m - (if decide (x = s) then default 0 (map_get p l) else 0).
Proof.
  revert m. induction l as [|[q z] l IH]; intros m Hd W Hl.
  { split; [done|]. intros p x. change (remove_all [] s m) with m. cbn [map_get default from_option]. case_decide; cbn; lia. }
  rewrite fmap_cons in Hd. apply NoDup_cons in Hd as [Hn Hd]. cbn [fst] in Hn.
  destruct (nm_remove_spec q s z m W) as [W1 C1]; [apply Hl; left|].
  assert (∀ p z', (p, z') ∈ l → p ≠ q) as Hq by (intros p z' Hp ->; apply Hn; by apply (list_elem_of_fmap_2 fst) in Hp).
  destruct (IH (nm_remove q s z m).2 Hd W1) as [W2 C2].
  { intros p z' Hp. rewrite C1. specialize (Hl p z' ltac:(by right)). specialize (Hq p z' Hp). rewrite decide_False; [lia|tauto]. }
  split; [done|]. intros p x. change (remove_all ((q, z) :: l) s m) with (remove_all l s (nm_remove q s z m).2). rewrite C2, C1. cbn [map_get].
  destruct (decide (x = s)) as [->|Hx]; [|rewrite decide_False by tauto; lia]. destruct (decide (p = q)) as [->|Hp].
  - rewrite (decide_True (P := q = q ∧ s = s)), (proj2 (map_get_None q l) Hn) by done. cbn. lia.
  - rewrite (decide_False (P := p = q ∧ s = s)) by tauto. lia.
Qed.

Lemma enablingSymbols_spec m (l : list (jsstr * Z)) s : nm_wf m → l ≠ [] → (∀ p z, (p, z) ∈ l → 0 < z) →
  s ∈ enablingSymbols m l ↔ ∀ p z, (p, z) ∈ l → z <= countOf p s m.
Proof.
  intros W Hne Hpos. destruct l as [|[p0 z0] l]; [done|]. cbn [enablingSymbols]. rewrite list_elem_of_filter, elem_symbolsIn by done. rewrite andb_true_iff, negb_true_iff, Z.ltb_ge, forallb_elem. split.
  - intros [[H1 H2] _] p z [[= -> ->]|Hin]%elem_of_cons; [done|]. specialize (H2 (p, z) Hin). cbn in H2. b2p. done.
  - intros H. pose proof (H p0 z0 ltac:(left)). pose proof (Hpos p0 z0 ltac:(left)). split; [|lia]. split; [done|]. intros [p z] Hin. cbn.
    specialize (H p z ltac:(by right)). apply negb_true_iff, Z.ltb_ge. done.
Qed.

(** Dropping the later symbols of a signature loses no signature. *)
Lemma distinctSignatures_spec syms m f :
  (∀ s, s ∈ distinctSignatures syms m f → s ∈ syms) ∧
  ∀ s, s ∈ syms → ∃ u, u ∈ distinctSignatures syms m f ∧ signature (colouredOrder f) m u = signature (colouredOrder f) m s.
Proof.
  unfold distinctSignatures. case_bool; [split; [done|]; intros s Hs; by exists s|].
  set (step := λ (y : list (list Z) * list Z) s, let sg := signature (colouredOrder f) m s in if bool_decide (sg ∈ y.1) then y else (set_add sg y.1, y.2 ++ [s])).
  assert (∀ l y, (∀ g, g ∈ y.1 → ∃ u, u ∈ y.2 ∧ signature (colouredOrder f) m u = g) →
    let y' := foldl step y l in (∀ s, s ∈ y'.2 → s ∈ y.2 ∨ s ∈ l) ∧ (∀ s, s ∈ y.2 → s ∈ y'.2) ∧ ∀ s, s ∈ l → ∃ u, u ∈ y'.2 ∧ signature (colouredOrder f) m u = signature (colouredOrder f) m s) as H.
  { induction l as [|s l IH]; intros y Hy; [split_and!; [by left|done|by intros ? ?%not_elem_of_nil]|]. cbn [foldl].
    assert (∀ g, g ∈ (step y s).1 → ∃ u, u ∈ (step y s).2 ∧ signature (colouredOrder f) m u = g) as Hy'.
    { unfold step. cbn zeta. case_bool_decide; [done|]. cbn [fst snd]. intros g [->|Hg]%elem_of_set_add; [exists s; split; [apply elem_of_app; right; left|done]|].
      destruct (Hy g Hg) as (u & Hu & E). exists u. split; [apply elem_of_app; by left|done]. }
    destruct (IH (step y s) Hy') as (H1 & H2 & H3). split_and!.
    - intros x [Hx|Hx]%H1; [|right; by right]. unfold step in Hx. cbn zeta in Hx. case_bool_decide; [by left|]. cbn [snd] in Hx.
      apply elem_of_app in Hx as [Hx|Hx]; [by left|]. apply list_elem_of_singleton in Hx as ->. right. left.
    - intros x Hx. apply H2. unfold step. cbn zeta. case_bool_decide; [done|]. apply elem_of_app. by left.
    - intros x [->|Hx]%elem_of_cons; [|by apply H3]. assert (∃ u, u ∈ (step y s).2 ∧ signature (colouredOrder f) m u = signature (colouredOrder f) m s) as (u & Hu & E).
      { unfold step. cbn zeta. case_bool_decide as Ed; [by apply Hy|]. exists s. split; [apply elem_of_app; right; left|done]. }
      exists u. split; [by apply H2|done]. }
  destruct (H syms ([], [])) as (H1 & _ & H3); [by intros ? ?%not_elem_of_nil|]. split; [|exact H3]. intros s [Hs%not_elem_of_nil|?]%H1; done.
Qed.

Lemma same_signature order m a b : nm_within order m → signature order m a = signature order m b → ∀ p, countOf p a m = countOf p b m.
Proof.
  intros Hin E p. destruct (decide (p ∈ order)) as [[q Eq]%list_elem_of_lookup|Hp].
  - apply (f_equal (.!! q)) in E. unfold signature in E. rewrite !list_lookup_fmap, Eq in E. by injection E.
  - destruct (decide (countOf p a m = 0)) as [->|H]; [|by apply Hin in H]. destruct (decide (countOf p b m = 0)) as [->|H]; [done|by apply Hin in H].
Qed.

Lemma rename_swap σ N N' a b : (∀ p, N p a = N p b) → renames σ N N' → renames (σ ∘ swap_names a b) N N'.
Proof.
  intros E [B H]. split; [apply compose_bijective; [apply swap_bijective|done]|]. intros p x. unfold compose. rewrite H. unfold swap_names. repeat case_decide; by subst.
Qed.

(** ** The steps are the firings of the rule *)

(** The symbols in use are below the next fresh one. *)
Definition nm_below (next : Z) (m : name_marking) : Prop := ∀ p s, countOf p s m ≠ 0 → s < next.

(** The layer between the halves of a step. *)
Definition step_between (m : name_marking) (st : name_step) : name_marking := default m (ns_intermediate st).

Section NameSteps.
Context {V : Type}.
Variables (f : name_fragment) (t : transition V) (os : list outcome) (o : outcome) (m : name_marking) (next : Z).
Hypothesis Horder : ∀ p, p ∈ colouredOrder f ↔ isColoured f p = true.
Hypothesis Ht : inputs_wf (inputSpecs t).
Hypothesis Ho : o ∈ os.
Hypothesis Hnames : NoDup (place_name <$> oc_places o).
Hypothesis Hm : nm_wf m.
Hypothesis Hin : nm_within (colouredOrder f) m.
Hypothesis Hnext : nm_below next m.
Implicit Types (u s : Z) (st : name_step).

Record step_fires u st : Prop := {
  sf_serves : serves f t (layer_of m) u;
  sf_fires : fires_with f u t o (layer_of m) (layer_of (step_between m st)) (layer_of (ns_after st));
  sf_between : nm_wf (step_between m st);
  sf_after : nm_wf (ns_after st)
}.

Lemma step_counts u st p x : step_fires u st →
  (countOf p x (step_between m st) ≠ 0 → countOf p x m ≠ 0) ∧
  (countOf p x (ns_after st) ≠ 0 → countOf p x m ≠ 0 ∨ x = u ∧ p ∈ coloured_writes f o).
Proof.
  intros [[S1 _] [F1 F2] _ _]. unfold layer_of in *. pose proof (takes_nonneg f t p Ht) as Hp. specialize (F1 p x). specialize (F2 p x). specialize (S1 p).
  assert (countOf p x (step_between m st) ≠ 0 → countOf p x m ≠ 0) as Hb.
  { intros H. destruct (decide (x = u)) as [->|]; lia. }
  split; [done|]. intros H. destruct (decide (x = u ∧ p ∈ coloured_writes f o)); [by right|]. left. apply Hb. lia.
Qed.

Lemma step_within u st : step_fires u st → nm_within (colouredOrder f) (step_between m st) ∧ nm_within (colouredOrder f) (ns_after st).
Proof.
  intros H. split; intros p x Hx; apply (step_counts u st p x H) in Hx; [by apply (Hin p x)|]. destruct Hx as [Hx|[_ Hx]]; [by apply (Hin p x)|].
  unfold coloured_writes in Hx. apply list_elem_of_filter in Hx as [Hx _]. by apply Horder.
Qed.

Lemma step_below u st next' : step_fires u st → next <= next' → u < next' → nm_below next' (step_between m st) ∧ nm_below next' (ns_after st).
Proof.
  intros H Hle Hu. split; intros p x Hx; apply (step_counts u st p x H) in Hx; [apply Hnext in Hx; lia|]. destruct Hx as [Hx%Hnext|[-> _]]; lia.
Qed.

Lemma coloured_outputs_spec : NoDup (colouredOutputs (oc_places o) f) ∧ ∀ p, p ∈ colouredOutputs (oc_places o) f ↔ p ∈ coloured_writes f o.
Proof.
  assert (colouredOutputs (oc_places o) f = coloured_writes f o) as ->.
  { unfold colouredOutputs, coloured_writes. clear Hnames. induction (oc_places o) as [|p l IH]; [done|]. cbn [filter list_filter fmap list_fmap]. destruct (decide _); cbn [fmap list_fmap]; [f_equal|]; exact IH. }
  split; [by apply NoDup_filter|done].
Qed.

(** A step that removes and adds the same symbol. *)
Lemma moves_step (l : list (jsstr * Z)) ps u : serves f t (layer_of m) u → NoDup l.*1 → (∀ p z, (p, z) ∈ l ↔ takes f t p = z ∧ z ≠ 0) →
  NoDup ps → (∀ p, p ∈ ps ↔ p ∈ coloured_writes f o) →
  step_fires u (NameStep (Some (remove_all l u m)) (add_all ps u (remove_all l u m))).
Proof.
  intros Hs Hd Hl Hdp Hps. pose proof Hs as [S _]. unfold layer_of in S.
  destruct (remove_all_spec l u m Hd Hm) as [W1 C1].
  { intros p z [<- _]%Hl. split; [by apply takes_nonneg|apply S]. }
  destruct (add_all_spec ps u _ Hdp W1) as [W2 C2]. constructor; [done| |done|done]. unfold step_between. cbn [ns_intermediate ns_after default from_option].
  split; intros p x; unfold layer_of.
  - rewrite C1. case_decide; [|done]. f_equal. destruct (map_get p l) as [z|] eqn:E; cbn.
    + apply map_get_elem, Hl in E as [-> _]. done.
    + destruct (decide (takes f t p = 0)) as [|Hz]; [done|]. apply map_get_None in E. destruct E. apply (list_elem_of_fmap_2 fst _ (p, takes f t p)). by apply Hl.
  - rewrite C2. f_equal. destruct (decide (x = u ∧ p ∈ ps)) as [[-> Hp]|Hx]; [rewrite decide_True; [done|]; split; [done|by apply Hps]|].
    rewrite decide_False; [done|]. intros [-> Hp]. apply Hx. split; [done|by apply Hps].
Qed.

Lemma stays_step u : serves f t (layer_of m) u → (∀ p, takes f t p = 0) → coloured_writes f o = [] → step_fires u (NameStep None m).
Proof.
  intros Hs Ht0 Hw. constructor; [done| |done|done]. split; intros p x; unfold layer_of, step_between; cbn [ns_intermediate ns_after default from_option].
  - rewrite Ht0. case_decide; lia.
  - rewrite Hw. rewrite decide_False; [lia|]. by intros [_ ?%not_elem_of_nil].
Qed.

Lemma fresh_serves : (∀ p, takes f t p = 0) → serves f t (layer_of m) next.
Proof.
  intros H0. assert (∀ p, countOf p next m = 0) as Hz by (intros p; destruct (decide (countOf p next m = 0)) as [|H]; [done|apply Hnext in H; lia]).
  split; intros; unfold layer_of; [rewrite H0, Hz; lia|apply Hz].
Qed.

(** A symbol that serves a firing that takes tokens is in use. *)
Lemma serves_below u p : serves f t (layer_of m) u → takes f t p ≠ 0 → u < next.
Proof. intros [S _] Hz. pose proof (takes_nonneg f t p Ht). specialize (S p). unfold layer_of in S. apply (Hnext p). lia. Qed.

(** What the steps must be: firings, and one of every kind of symbol that serves. *)
Definition steps_ok (steps : list name_step) (next' : Z) : Prop :=
  next <= next' ∧
  (∀ st, st ∈ steps → ∃ u, step_fires u st ∧ nm_below next' (step_between m st) ∧ nm_below next' (ns_after st)) ∧
  ∀ s, serves f t (layer_of m) s → ∃ st u, st ∈ steps ∧ (∀ p, countOf p u m = countOf p s m) ∧ step_fires u st.

Lemma one_stays : (∀ p, takes f t p = 0) → coloured_writes f o = [] → steps_ok [NameStep None m] next.
Proof.
  intros H0 Hw. assert (step_fires next (NameStep None m)) as Hst by (apply stays_step; [by apply fresh_serves|done|done]). split_and!; [done| |].
  - intros st ->%list_elem_of_singleton. by exists next.
  - intros s [_ Hs]. exists (NameStep None m), next. split_and!; [left| |done]. intros p. unfold layer_of in Hs. rewrite (Hs H0). destruct (fresh_serves H0) as [_ Hf]. by apply Hf.
Qed.

Lemma one_mints : (∀ p, takes f t p = 0) → steps_ok [NameStep None (add_all (colouredOutputs (oc_places o) f) next m)] (next + 1).
Proof.
  intros H0. destruct coloured_outputs_spec as [Hd Hps]. destruct (add_all_spec (colouredOutputs (oc_places o) f) next m Hd Hm) as [W C].
  assert (step_fires next (NameStep None (add_all (colouredOutputs (oc_places o) f) next m))) as Hst.
  { constructor; [by apply fresh_serves| |done|done]. split; intros p x; unfold layer_of, step_between; cbn [ns_intermediate ns_after default from_option].
    - rewrite H0. case_decide; lia.
    - rewrite C. f_equal. destruct (decide (x = next ∧ p ∈ colouredOutputs (oc_places o) f)) as [[-> Hp]|Hx]; [rewrite decide_True; [done|]; split; [done|by apply Hps]|].
      rewrite decide_False; [done|]. intros [-> Hp]. apply Hx. split; [done|by apply Hps]. }
  split_and!; [lia| |].
  - intros st ->%list_elem_of_singleton. exists next. split; [done|]. apply (step_below next _ (next + 1)); [done|lia|lia].
  - intros s [_ Hs]. eexists _, next. split_and!; [left| |exact Hst]. intros p. unfold layer_of in Hs. rewrite (Hs H0). destruct (fresh_serves H0) as [_ Hf]. by apply Hf.
Qed.

(** One step for every symbol that serves, up to the symbols of equal signature. *)
Lemma one_each (l : list (jsstr * Z)) ps syms (step : Z → name_step) : l ≠ [] → NoDup l.*1 → (∀ p z, (p, z) ∈ l ↔ takes f t p = z ∧ z ≠ 0) →
  NoDup ps → (∀ p, p ∈ ps ↔ p ∈ coloured_writes f o) → (∀ s, s ∈ syms ↔ ∀ p z, (p, z) ∈ l → z <= countOf p s m) →
  (∀ u, step u = NameStep (Some (remove_all l u m)) (add_all ps u (remove_all l u m))) →
  steps_ok (step <$> distinctSignatures syms m f) next.
Proof.
  intros Hne Hd Hl Hdp Hps Hsyms Hstep. destruct l as [|[p0 z0] l0] eqn:El; [done|]. rewrite <- El in *. assert ((p0, z0) ∈ l) as H0 by (rewrite El; left).
  apply Hl in H0 as [E0 Hz0]. destruct (distinctSignatures_spec syms m f) as [D1 D2].
  assert (∀ s, s ∈ syms ↔ serves f t (layer_of m) s) as Hsv.
  { intros s. rewrite Hsyms. unfold serves, layer_of. split.
    - intros H. split; [|intros Hall; specialize (Hall p0); congruence]. intros p. destruct (decide (takes f t p = 0)) as [->|Hp]; [by apply countOf_nonneg|]. apply H. by apply Hl.
    - intros [H _] p z [<- _]%Hl. apply H. }
  assert (∀ u, u ∈ syms → step_fires u (step u)) as Hfire by (intros u Hu; rewrite Hstep; apply moves_step; try done; by apply Hsv).
  split_and!; [done| |].
  - intros st (u & -> & Hu)%list_elem_of_fmap. apply D1 in Hu. exists u. split; [by apply Hfire|]. apply (step_below u); [by apply Hfire|done|].
    apply (serves_below u p0); [by apply Hsv|congruence].
  - intros s (u & Hu & Es)%Hsv%D2. exists (step u), u. split_and!; [by apply list_elem_of_fmap_2| |by apply Hfire, D1]. by apply (same_signature (colouredOrder f)).
Qed.

Lemma nameSuccessors_spec r steps next' : role_ok f t os r → nameSuccessors r m (oc_places o) f next = (steps, next') → steps_ok steps next'.
Proof.
  destruct coloured_outputs_spec as [Hdo Hpo]. destruct r as [| |ci relayTo|p0]; cbn [role_ok nameSuccessors].
  - intros (_ & H0 & Hw) [= <- <-]. apply one_stays; [done|by apply Hw].
  - intros [_ H0]. destruct (colouredOutputs (oc_places o) f) as [|p l] eqn:E; intros [= <- <-].
    + apply one_stays; [done|]. apply elem_of_nil_inv. intros p Hp%Hpo. by apply not_elem_of_nil in Hp.
    + pose proof (one_mints H0) as H. rewrite E in H. exact H.
  - intros (_ & Hd & Hne & Hci & Hrel) [= <- <-]. apply (one_each ci (place_name <$> filter (λ p, place_name p ∈ relayTo) (oc_places o))); try done.
    + clear -Hnames. induction (oc_places o) as [|p l IH]; [constructor|]. rewrite fmap_cons in Hnames. apply NoDup_cons in Hnames as [Hn Hd]. rewrite filter_cons. case_decide; [|by apply IH].
      rewrite fmap_cons. constructor; [|by apply IH]. intros (q & E & [_ Hq]%list_elem_of_filter)%list_elem_of_fmap. apply Hn. rewrite E. by apply list_elem_of_fmap_2.
    + intros p. unfold coloured_writes. rewrite list_elem_of_filter, !list_elem_of_fmap. setoid_rewrite list_elem_of_filter. split.
      * intros (q & -> & Hq & Hin'). split; [by apply (Hrel o q)|by exists q].
      * intros (Hc & q & -> & Hq). exists q. split_and!; [done|by apply (Hrel o q)|done].
    + intros s. apply enablingSymbols_spec; [done|done|]. intros p z [<- Hz]%Hci. pose proof (takes_nonneg f t p Ht). lia.
  - intros [_ H0] [= <- <-]. apply (one_each [(p0, 1)] (colouredOutputs (oc_places o) f)); try done.
    + rewrite fmap_cons. apply NoDup_singleton.
    + intros p z. rewrite list_elem_of_singleton, H0. case_decide as E; [subst p|]; split; naive_solver lia.
    + intros s. rewrite elem_symbolsIn by done. split.
      * intros Hs p z [= -> ->]%list_elem_of_singleton. pose proof (countOf_nonneg p0 s m Hm). lia.
      * intros H. specialize (H p0 1 ltac:(left)). lia.
Qed.
End NameSteps.

(** ** Nets with names *)

Lemma outcomes_made {V} (t : transition V) os o : outcomes t = Ok os → o ∈ os → ∃ m, o = makeOutcome m.
Proof.
  unfold outcomes. destruct (outputSpec t) as [spec|]; [|intros [= <-] ->%list_elem_of_singleton; by exists []]. cbn zeta.
  set (acts := if bool_decide _ then _ else _). assert (∀ o, o ∈ acts → ∃ m, o = makeOutcome m) as Ha.
  { intros x Hx. unfold acts in Hx. case_bool_decide; [apply list_elem_of_singleton in Hx as ->; by exists []|].
    apply list_elem_of_fmap in Hx as (b & -> & _). unfold branch_outcome. by eexists. }
  destruct (actionTimeout t) as [[ms c]|]; [|intros [= <-]; apply Ha]. destruct (timeoutDeposits t c []) as [m|]; cbn [res_bind]; [|done].
  intros [= <-]. destruct (existsb _ acts); [apply Ha|]. intros [?| ->%list_elem_of_singleton]%elem_of_app; [by apply Ha|by exists m].
Qed.

(** The places of an outcome have distinct names. *)
Lemma outcome_names {V} (b : builder V) (t : transition V) os o : (∀ o, b_output b = Some o → inhabited_xors o = true) → build b = Ok t →
  outcomes t = Ok os → o ∈ os → NoDup (place_name <$> oc_places o).
Proof.
  intros Hi Hb Eos Ho. destruct (outcomes_made t os o Eos Ho) as [m ->].
  assert (NoDup ((λ d, place_name (od_place d)) <$> deposits (makeOutcome m))) as Hd.
  { destruct (b_output b) as [spec|] eqn:Eo.
    - destruct (outcomes_total b t spec Eo (Hi spec eq_refl) Hb) as (os' & Eos' & _ & Hn & _). assert (os' = os) as -> by congruence. by apply Hn.
    - apply build_ok in Hb as [_ ->]; [|congruence]. unfold outcomes in Eos. change (outputSpec (built b)) with (b_output b) in Eos. rewrite Eo in Eos. injection Eos as <-.
      apply list_elem_of_singleton in Ho as ->. constructor. }
  unfold makeOutcome in *. cbn [deposits oc_places] in *. revert Hd. generalize (stable_sort (λ x y, compareCodePoints (place_name (od_place x)) (place_name (od_place y)) <=? 0) m.*2).
  intros l Hd. change (λ d, place_name (od_place d)) with (place_name ∘ od_place) in Hd. rewrite list_fmap_compose in Hd. rewrite set_of_NoDup; [done|by apply NoDup_fmap_1 in Hd].
Qed.

Record nu_net_ok {V} (ts : list (transition V)) (env : list jsstr) (mode : environment_mode) (m0 : marking_state) (f : name_fragment) : Prop := {
  nn_net : scg_net_ok ts env mode m0;
  nn_plain : ∀ t, t ∈ ts → plain_name (t_name t) ∧ BAR ∉ t_name t;
  nn_keys : ∀ t ms, t ∈ ts → t_matchSpec t = Some ms → ms_keys ms ≠ [];
  nn_env : ∀ p, p ∈ env → isColoured f p = false;
  nn_start : ∀ p, isColoured f p = true → count_of m0 p = 0
}.

Section Net.
Context {V : Type}.
Variables (ts : list (transition V)) (env : list jsstr) (mode : environment_mode) (m0 : marking_state) (f : name_fragment).
Variables (fmode : fragment_mode) (carriers mints : list jsstr) (admit_matchless : bool).
Hypothesis Hnet : nu_net_ok ts env mode m0 f.
Hypothesis Hf : classify ts fmode carriers mints admit_matchless = Ok (Some f).
Implicit Types (t : transition V) (m : name_marking).

Lemma net_correlated t : t ∈ ts → correlated_ok t.
Proof.
  intros Ht. destruct (no_built _ _ _ _ (nn_net _ _ _ _ _ Hnet) t Ht) as (b & Hb & Hi). apply build_ok in Hb as [(Hin & _ & _ & Hm) ->]; [|done].
  split; [done|]. intros ms Ems. destruct (Hm ms Ems) as (Hd & Hk & _). split_and!; [by apply (nn_keys _ _ _ _ _ Hnet (built b))|done|done].
Qed.

Lemma net_inputs_wf t : t ∈ ts → inputs_wf (inputSpecs t).
Proof. intros Ht. by apply net_correlated. Qed.

Lemma net_classified : (∀ p, p ∈ colouredOrder f ↔ isColoured f p = true) ∧
  ∀ t os, t ∈ ts → outcomes t = Ok os → role_ok f t os (role_of f (t_name t)).
Proof.
  destruct (classify_ok fmode carriers mints admit_matchless ts f) as [H1 H2]; [apply (no_distinct _ _ _ _ (nn_net _ _ _ _ _ Hnet))|apply net_correlated|done|].
  split; [done|]. intros t os Ht. by apply H2.
Qed.

(** No arc but the inputs reads a coloured place, and the counts of its arcs are fixed. *)
Lemma net_counted t os : t ∈ ts → outcomes t = Ok os → tests_coloured (nf_coloured f) t = false ∧ counts_ok f t os.
Proof.
  intros Ht Eos. destruct (classify_ok fmode carriers mints admit_matchless ts f) as [_ H2]; [apply (no_distinct _ _ _ _ (nn_net _ _ _ _ _ Hnet))|apply net_correlated|done|].
  destruct (H2 t Ht) as [H3 H4]. split; [done|]. by apply H4.
Qed.

Lemma net_writes t os o : t ∈ ts → outcomes t = Ok os → o ∈ os → NoDup (place_name <$> oc_places o).
Proof.
  intros Ht Eos Ho. destruct (no_built _ _ _ _ (nn_net _ _ _ _ _ Hnet) t Ht) as (b & Hb & Hi). by apply (outcome_names b t os).
Qed.

(** The name layer of the code enables what the rule enables. *)
Lemma nameEnabled_spec t m : t ∈ ts → nm_wf m → nameEnabled t m f = nu_enabled f t m.
Proof.
  intros Ht W. pose proof (net_correlated t Ht) as [Hin _]. destruct (net_outcomes ts env mode m0 (nn_net _ _ _ _ _ Hnet) t Ht) as (os & Eos & _).
  destruct net_classified as [_ Hr]. specialize (Hr t os Ht Eos). unfold nameEnabled, nu_enabled. destruct (role_of f (t_name t)) as [| |ci relayTo|p0].
  1, 2, 4: by destruct Hr as [-> _].
  destruct Hr as (-> & Hd & Hne & Hci & _). cbn [negb orb]. apply eq_bool_prop_intro. rewrite !Is_true_true. rewrite negb_true_iff, bool_decide_eq_false, existsb_elem.
  assert (∀ s, s ∈ enablingSymbols m ci ↔ ∀ p z, (p, z) ∈ ci → z <= countOf p s m) as He.
  { intros s. apply enablingSymbols_spec; [done|done|]. intros p z [<- Hz]%Hci. pose proof (takes_nonneg f t p Hin). lia. }
  assert (∀ s, (∀ p z, (p, z) ∈ ci → z <= countOf p s m) ↔
    forallb (λ i, negb (isColoured f (place_name (in_place i))) || (requiredCount i <=? countOf (place_name (in_place i)) s m)) (inputSpecs t) = true) as Hi.
  { intros s. rewrite forallb_elem. split.
    - intros H i Hi. destruct (isColoured f (place_name (in_place i))) eqn:Ec; [|done]. cbn [negb orb]. apply Z.leb_le. apply H, Hci.
      rewrite (takes_spec f t i Hin Hi Ec). split; [done|]. destruct Hin as [_ Hin]. rewrite Forall_forall in Hin. apply Hin in Hi. lia.
    - intros H p z [<- Hz]%Hci. pose proof Hz as [Hc (i & -> & Hii)%list_elem_of_fmap]%(takes_nonzero f t p Hin). specialize (H i Hii). rewrite Hc in H.
      rewrite (takes_spec f t i Hin Hii Hc). by apply Z.leb_le. }
  split.
  - intros Hl. destruct (enablingSymbols m ci) as [|s l]; [done|]. assert (s ∈ s :: l) as Hs by left.
    pose proof (proj1 (He s) Hs) as Hall. exists s. split; [|by apply Hi]. destruct ci as [|[p z] ci']; [done|]. apply elem_liveSymbols; [done|]. exists p.
    specialize (Hall p z ltac:(left)). destruct (proj1 (Hci p z) ltac:(left)) as [<- Hz]. pose proof (takes_nonneg f t p Hin). lia.
  - intros (s & _ & Hs) Hl. pose proof (proj2 (He s) (proj2 (Hi s) Hs)) as Hin'. destruct (enablingSymbols m ci); [by apply not_elem_of_nil in Hin'|done].
Qed.

(** Enabling does not depend on which symbols are used. *)
Lemma nu_enabled_renamed t m m' : nm_wf m → nm_wf m' → renamed (layer_of m) (layer_of m') → nu_enabled f t m = nu_enabled f t m'.
Proof.
  assert (∀ m m', nm_wf m → nm_wf m' → renamed (layer_of m) (layer_of m') → nu_enabled f t m = true → nu_enabled f t m' = true) as H.
  { clear. intros m m' W W' (σ & _ & H). unfold nu_enabled. rewrite !orb_true_iff. intros [?|E]; [by left|right]. apply existsb_elem in E as (s & Hs & E). apply existsb_elem.
    unfold layer_of in H. exists (σ s). split; [|etrans; [|exact E]; apply forallb_ext_eq; intros i; by rewrite H].
    apply elem_liveSymbols in Hs as [p Hp]; [|done]. apply elem_liveSymbols; [done|]. exists p. by rewrite H. }
  intros W W' R. apply eq_bool_prop_intro. rewrite !Is_true_true. split; [by apply H|apply H; try done; by symmetry].
Qed.

Lemma net_steps t os o m next steps next' : t ∈ ts → outcomes t = Ok os → o ∈ os → nm_wf m → nm_within (colouredOrder f) m → nm_below next m →
  nameSuccessors (role_of f (t_name t)) m (oc_places o) f next = (steps, next') → steps_ok f t o m next steps next'.
Proof.
  intros Ht Eos Ho W Hin Hb E. destruct net_classified as [Hord Hr].
  apply (nameSuccessors_spec f t os o m next Hord (net_inputs_wf t Ht) Ho (net_writes t os o Ht Eos Ho) W Hin Hb) in E; [done|by apply Hr].
Qed.

Lemma steps_cover t o m next steps next' N Nb N' : steps_ok f t o m next steps next' → renamed (layer_of m) N → nu_fires f t o N Nb N' →
  ∃ st u σ, st ∈ steps ∧ step_fires f t o m u st ∧ renames σ (layer_of m) N ∧ renames σ (layer_of (step_between m st)) Nb ∧ renames σ (layer_of (ns_after st)) N'.
Proof.
  intros (_ & _ & H2) (σ & R) (s & S & F). pose proof R as [(τ & T1 & T2) Hσ].
  destruct (H2 (τ s)) as (st & u & Hst & Hu & Hfire); [apply (serves_rename f σ (layer_of m) N); [done|by rewrite T2]|].
  assert (renames (σ ∘ swap_names u (τ s)) (layer_of m) N) as R' by (by apply rename_swap).
  exists st, u, (σ ∘ swap_names u (τ s)). split; [done|]. split; [done|]. split; [done|]. pose proof Hfire as [_ Fu _ _].
  apply (fires_rename f (σ ∘ swap_names u (τ s)) (layer_of m) N u t o _ _ Nb N'); [done|done|]. unfold compose, swap_names. rewrite decide_True by done. by rewrite T2.
Qed.

(** The name steps of a firing are exactly the firings of the rule: each moves one symbol that
    serves all coloured inputs, a fresh one when there is none, and every symbol that serves has a
    step that does the same up to a permutation of the symbols. *)
Theorem nameSuccessors_exact t os o m next steps next' : t ∈ ts → outcomes t = Ok os → o ∈ os →
  nm_wf m → nm_within (colouredOrder f) m → nm_below next m →
  nameSuccessors (role_of f (t_name t)) m (oc_places o) f next = (steps, next') →
  (∀ st, st ∈ steps → nu_fires f t o (layer_of m) (layer_of (step_between m st)) (layer_of (ns_after st))) ∧
  ∀ N Nb N', renamed (layer_of m) N → nu_fires f t o N Nb N' →
    ∃ st σ, st ∈ steps ∧ renames σ (layer_of m) N ∧ renames σ (layer_of (step_between m st)) Nb ∧ renames σ (layer_of (ns_after st)) N'.
Proof.
  intros Ht Eos Ho W Hin Hb E. pose proof (net_steps t os o m next steps next' Ht Eos Ho W Hin Hb E) as H. split.
  - intros st Hst. destruct H as (_ & H1 & _). destruct (H1 st Hst) as (u & [S F _ _] & _). by exists u.
  - intros N Nb N' R F. destruct (steps_cover t o m next steps next' N Nb N' H R F) as (st & u & σ & ? & _ & ? & ? & ?). by exists st, σ.
Qed.
End Net.

(** ** Renaming a layer *)

Definition rename_nm (σ : Z → Z) (m : name_marking) : name_marking := (λ y : jsstr * list (Z * Z), (y.1, (λ z : Z * Z, (σ z.1, z.2)) <$> y.2)) <$> m.

Lemma rename_nm_spec σ m : bijective σ → nm_wf m → nm_wf (rename_nm σ m) ∧ renames σ (layer_of m) (layer_of (rename_nm σ m)).
Proof.
  intros B W. split.
  - constructor.
    + unfold rename_nm. rewrite <- list_fmap_compose. apply W.
    + intros p syms ([q l] & [= -> ->] & Hin)%list_elem_of_fmap. destruct (nw_entries m W q l Hin) as (Hne & Hd & Hpos). split_and!.
      * by intros ?%fmap_nil_inv.
      * cbn [snd]. rewrite <- list_fmap_compose. change (fst ∘ (λ z : Z * Z, (σ z.1, z.2))) with (σ ∘ (fst : Z * Z → Z)). rewrite list_fmap_compose.
        apply NoDup_fmap_2; [|done]. intros x y. by apply bijective_inj.
      * intros s c ([s' c'] & [= -> ->] & Hin')%list_elem_of_fmap. by apply (Hpos s').
  - split; [done|]. intros p s. unfold layer_of, countOf.
    assert (map_get p (rename_nm σ m) = (λ l, (λ z : Z * Z, (σ z.1, z.2)) <$> l) <$> map_get p m) as ->.
    { unfold rename_nm. clear W. induction m as [|[q l] m IH]; [done|]. rewrite fmap_cons. cbn [map_get fst snd]. by case_decide. }
    destruct (map_get p m) as [l|]; [|done]. cbn [fmap option_fmap option_map mbind option_bind]. f_equal. clear W. induction l as [|[x c] l IH]; [done|].
    rewrite fmap_cons. cbn [map_get fst snd]. destruct (decide (s = x)) as [->|Hx]; [by rewrite decide_True|]. rewrite decide_False; [done|]. by intros ?%bijective_inj.
Qed.

Lemma empty_layer m : nm_wf m → (∀ p s, countOf p s m = 0) → m = [].
Proof.
  intros W H. destruct m as [|[p l] m]; [done|]. destruct (nw_entries _ W p l) as (Hne & _ & Hpos); [left|]. destruct l as [|[s c] l]; [done|].
  specialize (H p s). unfold countOf in H. cbn [map_get] in H. rewrite decide_True in H by done. cbn [mbind option_bind map_get] in H. rewrite decide_True in H by done. cbn in H.
  specialize (Hpos s c ltac:(left)). lia.
Qed.

(** ** Gates that agree *)

Section Gates.
Context {V : Type}.
Variables (scale : Z) (ts : list (transition V)) (env : list jsstr) (mode : environment_mode) (untimed : bool).
Implicit Types (g : nat → bool).

Lemma live_at_gate g g' c i : (∀ i, g i = g' i) → live_at ts env mode g c i = live_at ts env mode g' c i.
Proof. intros E. unfold live_at. by rewrite E. Qed.

Lemma gated_wait_gate g g' s s' : (∀ i, g i = g' i) → gated_wait ts env mode g s s' → gated_wait ts env mode g' s s'.
Proof. intros E (δ & H1 & H2 & H3). exists δ. split_and!; [done|done|]. intros i Hi. apply H3. by rewrite (live_at_gate g g'). Qed.

Lemma gated_fire_gate gc gb ga gc' gb' ga' i o s s' : (∀ i, gc i = gc' i) → (∀ i, gb i = gb' i) → (∀ i, ga i = ga' i) →
  gated_fire scale ts env mode untimed gc gb ga i o s s' → gated_fire scale ts env mode untimed gc' gb' ga' i o s s'.
Proof.
  intros Ec Eb Ea (t & H1 & H2 & H3 & H4 & H5). exists t. split_and!; [done|by rewrite <- (live_at_gate gc gc')|done|done|]. intros j Hj.
  rewrite <- (live_at_gate ga ga') in Hj by done. specialize (H5 j Hj).
  assert (gated_persists ts env mode gc' gb' (ts_counts s) i j = gated_persists ts env mode gc gb (ts_counts s) i j) as ->; [|done].
  unfold gated_persists. rewrite (live_at_gate gc gc') by done. destruct (ts !! i); [|done]. by rewrite (live_at_gate gb gb').
Qed.

Lemma gated_class_gate g g' c : (∀ i, g i = g' i) → gated_class scale ts env mode g c → gated_class scale ts env mode g' c.
Proof.
  intros E [H1 H2 H3 H4]. constructor; try done. rewrite H3. unfold live_list. apply Permutation_refl'. apply list_filter_iff. intros i. by rewrite E.
Qed.

Lemma wait_trans_gate g s1 s2 s3 : gated_wait ts env mode g s1 s2 → gated_wait ts env mode g s2 s3 → gated_wait ts env mode g s1 s3.
Proof.
  intros (d1 & P1 & C1 & F1) (d2 & P2 & C2 & F2). exists (d1 + d2). split_and!; [lia|intros n; by rewrite C2, C1|]. intros j Hj.
  destruct (F1 j Hj) as [H1 H1']. destruct (F2 j) as [H2 H2']; [by rewrite (live_at_ext ts env mode g _ (ts_counts s1))|]. lia.
Qed.

Lemma wait_refl_gate g s : (∀ j, live_at ts env mode g (ts_counts s) j = true → 0 <= to_fire s j) → gated_wait ts env mode g s s.
Proof. intros H. exists 0. split_and!; [lia|done|]. intros j Hj. split; [by apply H|lia]. Qed.
End Gates.

(** ** The timed net with names *)

Section Runs.
Context {V : Type}.
Variables (scale : Z) (ts : list (transition V)) (env : list jsstr) (mode : environment_mode) (m0 : marking_state) (f : name_fragment).
Implicit Types (m : name_marking) (s : tstate) (t : transition V).

Record nu_state := NuState { nu_timed : tstate; nu_names : name_marking }.

(** A correlated transition runs its clock only while one name serves its inputs. *)
Definition gate m (i : nat) : bool := from_option (λ t, nu_enabled f t m) false (ts !! i).

(** The runs: time passes, or a transition that is due fires on one name. *)
Inductive nu_reachable : nu_state → Prop :=
| nu_start s : start_state scale ts env mode false m0 s → nu_reachable (NuState s [])
| nu_wait s s' m : nu_reachable (NuState s m) → gated_wait ts env mode (gate m) s s' → nu_reachable (NuState s' m)
| nu_fire i t os o s s' m mb m' : nu_reachable (NuState s m) → ts !! i = Some t → outcomes t = Ok os → o ∈ os → nm_wf mb → nm_wf m' →
    nu_fires f t o (layer_of m) (layer_of mb) (layer_of m') →
    gated_fire scale ts env mode false (gate m) (gate mb) (gate m') i o s s' → nu_reachable (NuState s' m').

Lemma reachable_wf x : nu_reachable x → nm_wf (nu_names x).
Proof. induction 1; [apply nm_wf_nil|done|done]. Qed.

Lemma gate_renamed m m' i : nm_wf m → nm_wf m' → renamed (layer_of m) (layer_of m') → gate m i = gate m' i.
Proof. intros W W' R. unfold gate. destruct (ts !! i) as [t|]; [|done]. cbn. by apply nu_enabled_renamed. Qed.

Lemma fires_transport σ t o m mb m' m2 mb2 m2' : renames σ (layer_of m) (layer_of m2) → renames σ (layer_of mb) (layer_of mb2) → renames σ (layer_of m') (layer_of m2') →
  nu_fires f t o (layer_of m) (layer_of mb) (layer_of m') → nu_fires f t o (layer_of m2) (layer_of mb2) (layer_of m2').
Proof.
  intros R Rb R' (u & S & F1 & F2). pose proof R as [B H]. destruct Rb as [_ Hb]. destruct R' as [_ H']. exists (σ u). split; [by apply (serves_rename f σ (layer_of m))|].
  destruct B as (τ & T1 & T2). assert (∀ x, x = σ u ↔ τ x = u) as Hu by (intros x; split; [intros ->; by rewrite T1|intros <-; by rewrite T2]).
  split; intros p x; rewrite <- (T2 x).
  - rewrite Hb, H, F1. f_equal. destruct (decide (τ x = u)) as [->|Hx]; [by rewrite decide_True|]. rewrite decide_False; [done|]. by rewrite Hu, T1.
  - rewrite H', Hb, F2. f_equal. destruct (decide (τ x = u ∧ p ∈ coloured_writes f o)) as [[-> Hp]|Hx]; [by rewrite decide_True|]. rewrite decide_False; [done|]. by rewrite Hu, T1.
Qed.

(** The runs are closed under permutations of the symbols. *)
Lemma reachable_renamed s m m2 : nu_reachable (NuState s m) → nm_wf m2 → renamed (layer_of m) (layer_of m2) → nu_reachable (NuState s m2).
Proof.
  intros H. remember (NuState s m) as x eqn:Ex. revert s m m2 Ex. induction H as [s0 Hs|s0 s1 m1 H1 IH Hw|i t os o s0 s1 m1 mb m1' H1 IH Et Eos Ho Wb W' F Hf]; intros s m m2 Ex W2 R.
  - injection Ex as <- <-. assert (m2 = []) as ->; [|by apply nu_start]. apply empty_layer; [done|]. destruct R as (σ & (τ & T1 & T2) & H). unfold layer_of in H. intros p x. rewrite <- (T2 x), H. done.
  - injection Ex as -> ->. apply (nu_wait s0); [by apply (IH s0 m)|]. eapply gated_wait_gate; [|done]. intros i. apply gate_renamed; [by apply reachable_wf in H1|done|done].
  - injection Ex as -> ->. apply reachable_wf in H1 as W1. cbn in W1. destruct R as (σ & R). pose proof R as [B _].
    destruct (rename_nm_spec σ m1 B W1) as [Wr Rr]. destruct (rename_nm_spec σ mb B Wb) as [Wrb Rrb].
    apply (nu_fire i t os o s0 s (rename_nm σ m1) (rename_nm σ mb) m2); try done.
    + apply (IH s0 m1); [done|done|by exists σ].
    + by apply (fires_transport σ t o m1 mb m).
    + eapply gated_fire_gate; [..|exact Hf]; intros j; apply gate_renamed; try done; by exists σ.
Qed.
End Runs.

Lemma filter_keeps {A} (P : A → Prop) `{∀ x, Decision (P x)} (l : list A) : (∀ x, x ∈ l → P x) → filter P l = l.
Proof. induction l as [|x l IH]; intros H'; [done|]. rewrite filter_cons, decide_True by (apply H'; left). f_equal. apply IH. intros; apply H'; by right. Qed.

(** ** Classes with names *)

Section Exact.
Context {V : Type}.
Variables (scale : Z) (ts : list (transition V)) (env : list jsstr) (mode : environment_mode) (m0 : marking_state) (f : name_fragment).
Variables (fmode : fragment_mode) (carriers mints : list jsstr) (admit_matchless : bool).
Hypothesis Hscale : 0 < scale.
Hypothesis Hnet : nu_net_ok ts env mode m0 f.
Hypothesis Hf : classify ts fmode carriers mints admit_matchless = Ok (Some f).
Implicit Types (m : name_marking) (s : tstate) (t : transition V) (c : state_class).

Abbreviation net := (nn_net _ _ _ _ _ Hnet).
Abbreviation wait m := (gated_wait ts env mode (gate ts f m)).
Abbreviation fire m mb m' := (gated_fire scale ts env mode false (gate ts f m) (gate ts f mb) (gate ts f m')).
Abbreviation reach s m := (nu_reachable scale ts env mode m0 f (NuState s m)).

Record nclass_ok c m : Prop := {
  no_class : gated_class scale ts env mode (gate ts f m) c;
  no_good : good_marking (sc_marking c);
  no_full : sc_isEmpty c = false;
  no_names : nm_wf m;
  no_within : nm_within (colouredOrder f) m;
  no_closed : ∀ s s', in_class c s → wait m s s' → in_class c s';
  no_reached : ∀ s, in_class c s → reach s m
}.

Lemma gate_code m i : nm_wf m → from_option (λ t, nameEnabled t m f) false (ts !! i) = gate ts f m i.
Proof.
  intros W. unfold gate. destruct (ts !! i) as [t|] eqn:Et; [|done]. cbn. apply (nameEnabled_spec ts env mode m0 f fmode carriers mints admit_matchless); try done. by eapply list_elem_of_lookup_2.
Qed.

(** No correlated transition is enabled while the coloured places are empty. *)
Lemma start_gate (d : jsstr → Z) j : (∀ n, d n = count_of m0 n) → enabled_at ts env mode d j = true → gate ts f [] j = true.
Proof.
  intros Hc. unfold enabled_at, gate. destruct (ts !! j) as [t|] eqn:Et; [|done]. cbn. intros He. apply list_elem_of_lookup_2 in Et.
  unfold nu_enabled. destruct (is_match t) eqn:Em; [|done]. exfalso. unfold is_match in Em. apply bool_decide_eq_true in Em as [ms Ems].
  destruct (net_correlated ts env mode m0 f Hnet t Et) as [Hin Hms]. destruct (Hms ms Ems) as (Hne & _ & Hk). destruct (ms_keys ms) as [|k ks] eqn:Ek; [done|].
  specialize (Hk k ltac:(left)). unfold input_names in Hk. apply list_elem_of_fmap in Hk as (i & Ei & Hi).
  assert (isColoured f (place_name (in_place i)) = true) as Hcol.
  { rewrite <- Ei. apply (classify_keys fmode carriers mints admit_matchless ts f t); [done|done|]. unfold key_places. rewrite Ems. cbn [from_option]. rewrite Ek. left. }
  unfold enabled_counts in He. apply andb_true_iff in He as [[He _]%andb_true_iff _]. rewrite forallb_elem in He. specialize (He i Hi).
  unfold can_take, supplied in He. rewrite bool_decide_eq_false_2 in He by (intros Henv%(nn_env _ _ _ _ _ Hnet); congruence). cbn in He. b2p.
  rewrite Hc, (nn_start _ _ _ _ _ Hnet) in He by done. destruct Hin as [_ Hr]. rewrite Forall_forall in Hr. apply Hr in Hi. lia.
Qed.

Lemma initial_nclass : ∃ c, initialStateClass scale ts env mode false m0 = Ok c ∧ nclass_ok c [] ∧
  (∀ s, start_state scale ts env mode false m0 s → in_class c s) ∧ ∀ s, in_class c s → ∃ s0, start_state scale ts env mode false m0 s0 ∧ wait [] s0 s.
Proof.
  destruct (initial_ok scale ts env mode false m0 Hscale net) as (c & E & [W [_ G] He Hcl Hre] & Hst).
  destruct (initial_spec scale ts env mode false Hscale (no_mode _ _ _ _ net) (net_timings ts env mode m0 net) m0 (proj1 (no_initial _ _ _ _ net)))
    as (c' & E' & _ & _ & Em & Hc). assert (c' = c) as -> by congruence.
  assert (∀ d j, (∀ n, d n = count_of m0 n) → live_at ts env mode (gate ts f []) d j = enabled_at ts env mode d j) as Hlive.
  { intros d j Hd. unfold live_at. destruct (enabled_at ts env mode d j) eqn:Ed; [|done]. by rewrite (start_gate d j Hd Ed). }
  assert (∀ s s', (∀ n, ts_counts s n = count_of m0 n) → wait [] s s' ↔ wait_step ts env mode s s') as Hw.
  { intros s s' Hs. unfold gated_wait, wait_step. by setoid_rewrite (Hlive _ _ Hs). }
  assert (∀ s, in_class c s → ∃ s0, start_state scale ts env mode false m0 s0 ∧ wait [] s0 s) as Hback.
  { intros s (s0 & H0 & H1)%Hc. exists s0. split; [done|]. apply Hw; [by intros n; destruct H0 as [-> _]|done]. }
  exists c. split; [done|]. split; [|done]. constructor; [|done|done|apply nm_wf_nil|by intros ???| |].
  - destruct W as [W1 W2 W3 W4]. constructor; try done. rewrite W3, Em. unfold live_list. rewrite filter_keeps; [done|]. intros j Hj%elem_of_enabled. by apply (start_gate (count_of m0)).
  - intros s s' Hs Hwt. assert (∀ n, ts_counts s n = count_of m0 n) as Hcs by (intros n; destruct Hs as [<- _]; by rewrite Em). apply (Hcl s); [done|]. by apply Hw.
  - intros s (s0 & H0 & H1)%Hback. apply (nu_wait _ _ _ _ _ _ s0); [by apply nu_start|done].
Qed.

(** A time to fire of a class is not negative. *)
Lemma class_nonneg c m s j : nclass_ok c m → in_class c s → live_at ts env mode (gate ts f m) (ts_counts s) j = true → 0 <= to_fire s j.
Proof.
  intros [W _ He _ _ _ _] [Hcs Hz] Hj.
  assert (j ∈ enabledTransitions c) as Hjin.
  { rewrite (gc_enabled _ _ _ _ _ c W), elem_of_live. by rewrite (live_at_ext ts env mode _ _ (ts_counts s)). }
  apply list_elem_of_lookup in Hjin as [k Ek]. pose proof (lookup_lt_Some _ _ _ Ek) as Hk.
  pose proof (zone_nonneg scale _ _ k (gc_zone _ _ _ _ _ c W) Hz) as Hp. unfold at_ in Hp. rewrite Ek in Hp. apply Hp.
  by rewrite (gc_names _ _ _ _ _ c W He), length_fmap.
Qed.

(** The class of a step holds exactly what the step reaches. *)
Lemma nsuccessor_ok c m i b t os o st u : nclass_ok c m → i ∈ enabledTransitions c → ts !! i = Some t → outcomes t = Ok os → os !! b = Some o →
  step_fires f t o m u st → nm_within (colouredOrder f) (ns_after st) →
  ∃ c', computeSuccessor scale ts env mode c (VirtualTransition i b o) false (Some (named_gate ts f (step_between m st) (ns_after st))) t = Ok c' ∧
    (sc_isEmpty c' = false → nclass_ok c' (ns_after st)) ∧
    (∀ s s', in_class c s → fire m (step_between m st) (ns_after st) i o s s' → in_class c' s') ∧
    ∀ s', in_class c' s' → ∃ s s1 s2, in_class c s ∧ wait m s s1 ∧ fire m (step_between m st) (ns_after st) i o s1 s2 ∧ wait (ns_after st) s2 s'.
Proof.
  intros Hc Hi Et Eos Eo [S F Wb Wa] Hin'. pose proof Hc as [W G He Wm Hin Hcl Hre]. apply list_elem_of_lookup_2 in Eo.
  assert (t ∈ ts) as Ht by (by eapply list_elem_of_lookup_2). destruct (net_outcomes ts env mode m0 net t Ht) as (os' & Eos' & Hos). assert (os' = os) as -> by congruence.
  assert (outcome_ok o) as Hok by (intros d Hd; destruct (Hos o d Eo Hd) as [H _]; unfold deposit_ok in H; by destruct (od_deposit d)).
  destruct (gated_successor_spec scale ts env mode false Hscale (no_mode _ _ _ _ net) (net_inputs ts env mode m0 net) (net_timings ts env mode m0 net)
    (gate ts f m) (between (named_gate ts f (step_between m st) (ns_after st))) (after (named_gate ts f (step_between m st) (ns_after st))) c i b t o W Hi Et Hok)
    as (c' & E & W' & _ & Hcnt & Hst).
  assert (∀ j, between (named_gate ts f (step_between m st) (ns_after st)) j = gate ts f (step_between m st) j) as Gb by (intros j; by apply gate_code).
  assert (∀ j, after (named_gate ts f (step_between m st) (ns_after st)) j = gate ts f (ns_after st) j) as Ga by (intros j; by apply gate_code).
  assert (∀ s', in_class c' s' ↔ ∃ s s1 s2, in_class c s ∧ wait m s s1 ∧ fire m (step_between m st) (ns_after st) i o s1 s2 ∧ wait (ns_after st) s2 s') as Hst'.
  { intros s'. rewrite Hst. split; intros (s & s1 & s2 & H1 & H2 & H3 & H4); exists s, s1, s2; (split_and!; [done|done| |]).
    - by eapply gated_fire_gate.
    - by eapply gated_wait_gate.
    - eapply gated_fire_gate; [..|exact H3]; intros; by rewrite ?Gb, ?Ga.
    - eapply gated_wait_gate; [|exact H4]. intros; by rewrite Ga. }
  exists c'. split; [exact E|]. split; [|split; [|by intros s' ?%Hst']].
  - intros He'. constructor; [by eapply gated_class_gate| |done|done|done| |].
    + split; [apply W'|]. intros n Hn. apply counts_nonzero in Hn; [|apply W']. rewrite Hcnt in Hn.
      destruct (fired_nonzero env mode t o (count_of (sc_marking c)) n (net_inputs ts env mode m0 net t Ht) (λ n', count_nonneg _ n' (gc_marking _ _ _ _ _ c W)) Hn) as [Hn'|(d & Hd & <-)].
      * apply G. apply counts_nonzero; [apply W|exact Hn'].
      * destruct (Hos o d Eo Hd) as [_ (sp & Esp & Hu)]. by apply (no_places _ _ _ _ net t sp).
    + intros s s' (s0 & s1 & s2 & H1 & H2 & H3 & H4)%Hst' Hw. apply Hst'. exists s0, s1, s2. split_and!; try done. by eapply wait_trans_gate.
    + intros s' (s0 & s1 & s2 & H1 & H2 & H3 & H4)%Hst'. eapply nu_wait; [|exact H4]. eapply nu_fire; [|exact Et|exact Eos|exact Eo|exact Wb|exact Wa| |exact H3].
      * eapply nu_wait; [|exact H2]. by apply Hre.
      * by exists u.
  - intros s s' Hs Hfire. apply Hst'. exists s, s, s'. split_and!; [done| |done|].
    + apply wait_refl_gate. intros j Hj. by apply (class_nonneg c m).
    + apply wait_refl_gate. intros j Hj. destruct Hfire as (t' & _ & _ & _ & _ & Hff). specialize (Hff j Hj). destruct (gated_persists _ _ _ _ _ _ _ _) eqn:Ep.
      * unfold gated_persists in Ep. apply andb_true_iff in Ep as [[_ Ep]%andb_true_iff _]. rewrite Hff. by apply (class_nonneg c m).
      * destruct Hff as [Hff _]. destruct (lower_ok scale ts false Hscale (net_timings ts env mode m0 net) j). lia.
Qed.

Lemma nclass_inhabited c m : nclass_ok c m → ∃ s, in_class c s.
Proof.
  intros [W _ He _ _ _ _]. destruct (zone_inhabited scale (firingDomain c)) as [θ Hθ]; [apply W|done|].
  exists (TState (count_of (sc_marking c)) (λ j, θ (position (enabledTransitions c) j))). split; [done|]. cbn [to_fire].
  apply (in_zone_ext scale _ θ); [apply W| |done]. intros k Hk. rewrite (gc_names _ _ _ _ _ c W He), length_fmap in Hk.
  destruct (lookup_lt_is_Some_2 _ k Hk) as [j E]. unfold at_, position. rewrite E. cbn [default from_option id].
  rewrite (position_lookup _ k j); [done| |done]. rewrite (gc_enabled _ _ _ _ _ c W). apply NoDup_live.
Qed.

(** ** The construction *)

Variable stopAt : option (marking_state → name_marking → bool).
Implicit Types (x : name_exploration) (k j : nat).

(** The states of [c], its names [m] up to a permutation, are what a transition of that name makes
    of states of [d], with waits before and after. *)
Definition steps_into (d : name_state_class) (label : jsstr) c m : Prop := ∀ s', in_class c s' →
  ∃ i t os o mb m' s s1 s2, ts !! i = Some t ∧ t_name t = label ∧ outcomes t = Ok os ∧ o ∈ os ∧ nm_wf mb ∧ nm_wf m' ∧
    nu_fires f t o (layer_of (nc_names d)) (layer_of mb) (layer_of m') ∧ in_class (nc_base d) s ∧
    wait (nc_names d) s s1 ∧ fire (nc_names d) mb m' i o s1 s2 ∧ wait m' s2 s' ∧ renamed (layer_of m') (layer_of m).

Definition labels_of x k : list jsstr := default [] (ne_labels x !! k).
Definition row_of x k : list nat := default [] (ne_successors x !! k).
Definition edge_at x k j label : Prop := (j, label) ∈ zip (row_of x k) (labels_of x k).

Record ne_ok x : Prop := {
  eo_classes : ∀ d, d ∈ ne_classes x → nclass_ok (nc_base d) (nc_names d) ∧ nm_below (ne_next x) (nc_names d);
  eo_bases : ∀ y, y ∈ ne_bases x → y.1 = base_key scale y.2 ∧ good_marking (sc_marking y.2) ∧ sc_isEmpty y.2 = false ∧ ∃ g, gated_class scale ts env mode g y.2;
  eo_names : ∀ y, y ∈ ne_names x → y.1 = canonicalKey (colouredOrder f) y.2 ∧ nm_wf y.2 ∧ nm_within (colouredOrder f) y.2 ∧ nm_below (ne_next x) y.2;
  eo_index : ∀ b k j, map_get (b, k) (ne_index x) = Some j →
    ∃ d, ne_classes x !! j = Some d ∧ (ne_bases x !! b ≫= λ y, Some y.2) = Some (nc_base d) ∧ (ne_names x !! k ≫= λ y, Some y.2) = Some (nc_names d);
  eo_edges : ∀ k j label, edge_at x k j label → ∃ d e, ne_classes x !! k = Some d ∧ ne_classes x !! j = Some e ∧ steps_into d label (nc_base e) (nc_names e);
  eo_rows : ∀ k, length (row_of x k) = length (labels_of x k);
  eo_length : length (ne_labels x) = length (ne_classes x) ∧ length (ne_successors x) = length (ne_classes x);
  eo_stopped : ne_stopped x = true → ∃ d, d ∈ ne_classes x ∧ stop_test stopAt d = true
}.

(** Each of the first [n] classes but the start has an edge from a class before it. *)
Definition rooted x (n : nat) : Prop := ∀ j, (0 < j < n)%nat → ∃ k label, (k < j)%nat ∧ edge_at x k j label.

Record ne_le x x' : Prop := {
  el_classes : ∀ k d, ne_classes x !! k = Some d → ne_classes x' !! k = Some d;
  el_edges : ∀ k j label, edge_at x k j label → edge_at x' k j label;
  el_labels : ∀ k label, label ∈ labels_of x k → label ∈ labels_of x' k;
  el_next : ne_next x <= ne_next x';
  el_stopped : ne_stopped x' = false → ne_stopped x = false
}.

Lemma ne_le_refl x : ne_le x x.
Proof. by constructor. Qed.
Lemma ne_le_trans x1 x2 x3 : ne_le x1 x2 → ne_le x2 x3 → ne_le x1 x3.
Proof. intros [A1 A2 A3 A4 A5] [B1 B2 B3 B4 B5]. constructor; auto; lia. Qed.

(** A class holds the states of [c] with the names [m] up to a permutation, and class [k] has an edge of that label. *)
Definition has_class x k (label : jsstr) c m : Prop :=
  label ∈ labels_of x k ∧ ∃ j d, ne_classes x !! j = Some d ∧ (∀ s, in_class c s → in_class (nc_base d) s) ∧ renamed (layer_of m) (layer_of (nc_names d)).

Lemma has_class_le x x' k label c m : ne_le x x' → has_class x k label c m → has_class x' k label c m.
Proof. intros L (H1 & j & d & H2 & H3). split; [by apply (el_labels x)|]. exists j, d. split; [by apply (el_classes x)|done]. Qed.

Lemma nm_below_le a b m : a <= b → nm_below a m → nm_below b m.
Proof. intros H Hb p s Hs. specialize (Hb p s Hs). lia. Qed.

Lemma nclass_same g c c' m : nclass_ok c m → gated_class scale ts env mode g c' → good_marking (sc_marking c') → sc_isEmpty c' = false →
  classKey scale c = classKey scale c' → nclass_ok c' m ∧ ∀ s, in_class c s ↔ in_class c' s.
Proof.
  intros Hc W' G' He' E. pose proof Hc as [W G He Wm Hin Hcl Hre].
  destruct (gated_key_inj scale ts env mode Hscale (no_distinct _ _ _ _ net) (gate ts f m) g c c' (nn_plain _ _ _ _ _ Hnet) W W' G G' He He' E) as (En & Ec & Hs).
  split; [|done]. constructor; try done.
  - destruct W' as [W1 W2 _ W4]. constructor; try done. rewrite <- En, (gc_enabled _ _ _ _ _ c W). unfold live_list. by rewrite (enabled_list_ext ts env mode _ _ Ec).
  - intros s s' H1%Hs Hw. apply Hs. by apply (Hcl s).
  - intros s H1%Hs. by apply Hre.
Qed.

Lemma nclass_rename c m m' : nclass_ok c m → nm_wf m' → nm_within (colouredOrder f) m' → renamed (layer_of m) (layer_of m') → nclass_ok c m'.
Proof.
  intros [W G He Wm Hin Hcl Hre] W' Hin' R. assert (∀ i, gate ts f m i = gate ts f m' i) as Hg by (intros i; by apply gate_renamed).
  constructor; try done.
  - by eapply gated_class_gate.
  - intros s s' Hs Hw. apply (Hcl s); [done|]. eapply gated_wait_gate; [|exact Hw]. done.
  - intros s Hs. apply (reachable_renamed _ _ _ _ _ _ s m); auto.
Qed.

Lemma steps_into_rename d label c c' m m' : (∀ s, in_class c' s → in_class c s) → renamed (layer_of m) (layer_of m') → steps_into d label c m → steps_into d label c' m'.
Proof.
  intros Hs R H s' (i & t & os & o & mb & m2 & s & s1 & s2 & H1 & H2 & H3 & H4 & H5 & H6 & H7 & H8 & H9 & H10 & H11 & H12)%Hs%H.
  exists i, t, os, o, mb, m2, s, s1, s2. split_and!; try done. by etrans.
Qed.

(** An intern table answers an entry with the key, and keeps what it holds. *)
Lemma internBase_spec c tbl b c' tbl' : internBase scale c tbl = (b, c', tbl') → (∀ y, y ∈ tbl → y.1 = base_key scale y.2) →
  tbl' !! b = Some (base_key scale c, c') ∧ base_key scale c' = base_key scale c ∧ (c' = c ∨ (base_key scale c, c') ∈ tbl) ∧
  (∀ k y, tbl !! k = Some y → tbl' !! k = Some y) ∧ ∀ y, y ∈ tbl' → y ∈ tbl ∨ y = (base_key scale c, c).
Proof.
  unfold internBase. intros E Hk. destruct (find_index _ tbl) as [k|] eqn:Ef.
  - apply find_index_Some in Ef as ([key d] & Ek & Ed & _). apply bool_decide_eq_true in Ed. rewrite Ek in E. cbn in Ed, E. injection E as <- <- <-. subst key.
    assert ((base_key scale c, d) ∈ tbl) as Hin by (by eapply list_elem_of_lookup_2). split_and!; [done|symmetry; exact (Hk _ Hin)|by right|done|by left].
  - injection E as <- <- <-. split_and!; [by rewrite lookup_app_r, Nat.sub_diag by lia|done|by left|intros; by apply lookup_app_l_Some|].
    intros y [?|?]%elem_of_app; [by left|right]. by apply list_elem_of_singleton.
Qed.

Lemma internNames_spec m tbl k m' key tbl' : internNames f m tbl = (k, m', key, tbl') → (∀ y, y ∈ tbl → y.1 = canonicalKey (colouredOrder f) y.2) →
  tbl' !! k = Some (canonicalKey (colouredOrder f) m, m') ∧ canonicalKey (colouredOrder f) m' = canonicalKey (colouredOrder f) m ∧
  (m' = m ∨ (canonicalKey (colouredOrder f) m, m') ∈ tbl) ∧
  (∀ k y, tbl !! k = Some y → tbl' !! k = Some y) ∧ ∀ y, y ∈ tbl' → y ∈ tbl ∨ y = (canonicalKey (colouredOrder f) m, m).
Proof.
  unfold internNames. cbn zeta. intros E Hk. destruct (find_index _ tbl) as [k0|] eqn:Ef.
  - apply find_index_Some in Ef as ([key' d] & Ek & Ed & _). apply bool_decide_eq_true in Ed. rewrite Ek in E. cbn in Ed, E. injection E as <- <- <- <-. subst key'.
    assert ((canonicalKey (colouredOrder f) m, d) ∈ tbl) as Hin by (by eapply list_elem_of_lookup_2). split_and!; [done|symmetry; exact (Hk _ Hin)|by right|done|by left].
  - injection E as <- <- <- <-. split_and!; [by rewrite lookup_app_r, Nat.sub_diag by lia|done|by left|intros; by apply lookup_app_l_Some|].
    intros y [?|?]%elem_of_app; [by left|right]. by apply list_elem_of_singleton.
Qed.

Lemma addEdge_ok x from to d e label : ne_ok x → ne_classes x !! from = Some d → ne_classes x !! to = Some e → steps_into d label (nc_base e) (nc_names e) →
  ne_ok (addEdge from to label x) ∧ ne_le x (addEdge from to label x) ∧ edge_at (addEdge from to label x) from to label ∧ label ∈ labels_of (addEdge from to label x) from.
Proof.
  intros [H1 H2 H3 H4 H5 H6 [H7 H8] H9] Ed Ee Hl. pose proof (lookup_lt_Some _ _ _ Ed) as Hlt.
  assert (∀ {A} (a : A) (rows : list (list A)) k, length rows = length (ne_classes x) →
    default [] (alter (λ l, l ++ [a]) from rows !! k) = default [] (rows !! k) ++ (if decide (k = from) then [a] else [])) as Halt.
  { intros A a rows k Hr. destruct (decide (k = from)) as [->|Hk]; [|rewrite list_lookup_alter_ne by done; by rewrite app_nil_r].
    rewrite list_lookup_alter, decide_True by done. destruct (lookup_lt_is_Some_2 rows from) as [l ->]; [by rewrite Hr|]. done. }
  assert (∀ k, labels_of (addEdge from to label x) k = labels_of x k ++ (if decide (k = from) then [label] else [])) as Hlab by (intros k; by apply Halt).
  assert (∀ k, row_of (addEdge from to label x) k = row_of x k ++ (if decide (k = from) then [to] else [])) as Hrow by (intros k; by apply Halt).
  assert (∀ k j lab, edge_at (addEdge from to label x) k j lab ↔ edge_at x k j lab ∨ k = from ∧ j = to ∧ lab = label) as Hedge.
  { intros k j lab. unfold edge_at. rewrite Hlab, Hrow, zip_with_app by done. rewrite elem_of_app. case_decide; cbn; [rewrite list_elem_of_singleton|rewrite elem_of_nil]; naive_solver. }
  split_and!.
  - constructor; try done.
    + intros k j lab [?|(-> & -> & ->)]%Hedge; [by apply H5|]. by exists d, e.
    + intros k. rewrite Hlab, Hrow, !length_app, H6. f_equal. by case_decide.
    + unfold addEdge; cbn [ne_labels ne_successors ne_classes]; by rewrite !length_alter.
  - constructor; try done; [intros k j lab Hin; apply Hedge; by left|]. intros k lab Hin. rewrite Hlab. apply elem_of_app. by left.
  - apply Hedge. by right.
  - rewrite Hlab, decide_True by done. apply elem_of_app. right. left.
Qed.

Lemma pushClass_ok x d b k : ne_ok x → nclass_ok (nc_base d) (nc_names d) → nm_below (ne_next x) (nc_names d) →
  (ne_bases x !! b ≫= λ y, Some y.2) = Some (nc_base d) → (ne_names x !! k ≫= λ y, Some y.2) = Some (nc_names d) →
  ne_ok (pushClass d (b, k) x) ∧ ne_le x (pushClass d (b, k) x) ∧ ne_classes (pushClass d (b, k) x) !! length (ne_classes x) = Some d.
Proof.
  intros [H1 H2 H3 H4 H5 H6 [H7 H8] H9] Hd Hb Eb Ek. set (x' := pushClass d (b, k) x).
  assert (∀ {A} (rows : list (list A)) j, default [] ((rows ++ [[]]) !! j) = default [] (rows !! j)) as Hsnoc.
  { intros A rows j. destruct (decide (j < length rows)%nat) as [Hlt|Hge]; [by rewrite lookup_app_l|].
    rewrite (lookup_ge_None_2 rows) by lia. rewrite lookup_app_r by lia. by destruct (j - length rows)%nat as [|[]]. }
  assert (∀ j, labels_of x' j = labels_of x j) as Hlab by (intros j; apply Hsnoc). assert (∀ j, row_of x' j = row_of x j) as Hrow by (intros j; apply Hsnoc).
  assert (∀ j j' lab, edge_at x' j j' lab ↔ edge_at x j j' lab) as Hedge by (intros j j' lab; unfold edge_at; by rewrite Hlab, Hrow).
  assert (∀ j d', ne_classes x !! j = Some d' → ne_classes x' !! j = Some d') as Hcl by (intros; by apply lookup_app_l_Some).
  split_and!.
  - constructor; try done.
    + intros d' [Hin| ->%list_elem_of_singleton]%elem_of_app; [by apply H1|done].
    + intros b' k' j. unfold x', pushClass. cbn [ne_index]. rewrite map_get_set. case_decide as E.
      * injection E as -> ->. intros [= <-]. exists d. cbn [ne_classes]. by rewrite lookup_app_r, Nat.sub_diag by lia.
      * intros (d' & ? & ? & ?)%H4. exists d'. split_and!; [by apply Hcl|done|done].
    + intros j j' lab (d' & e & ? & ? & ?)%Hedge%H5. exists d', e. split_and!; [by apply Hcl|by apply Hcl|done].
    + intros j. by rewrite Hlab, Hrow.
    + unfold x', pushClass. cbn [ne_labels ne_successors ne_classes]. by rewrite !length_app, H7, H8.
    + intros (d' & Hd' & Hs)%H9. exists d'. split; [|done]. apply elem_of_app. by left.
  - constructor; try done; [intros; by apply Hedge|]. intros j lab. by rewrite Hlab.
  - unfold x', pushClass. cbn [ne_classes]. by rewrite lookup_app_r, Nat.sub_diag by lia.
Qed.

(** The tables with the layers of a new state. *)
Definition with_tables x bases names : name_exploration :=
  NameExploration bases names (ne_index x) (ne_classes x) (ne_edges x) (ne_successors x) (ne_labels x) (ne_next x) (ne_stopped x).

Lemma intern_ok x base m b base' bases k m' key names : ne_ok x → nclass_ok base m → nm_below (ne_next x) m →
  internBase scale base (ne_bases x) = (b, base', bases) → internNames f m (ne_names x) = (k, m', key, names) →
  ne_ok (with_tables x bases names) ∧ nclass_ok base' m' ∧ (∀ s, in_class base s ↔ in_class base' s) ∧ renamed (layer_of m) (layer_of m') ∧ nm_below (ne_next x) m' ∧
  (bases !! b ≫= λ y, Some y.2) = Some base' ∧ (names !! k ≫= λ y, Some y.2) = Some m'.
Proof.
  intros [H1 H2 H3 H4 H5 H6 H7 H8] Hc Hb EB EN.
  destruct (internBase_spec base _ _ _ _ EB) as (B1 & B2 & B3 & B4 & B5); [by intros y [? _]%H2|].
  destruct (internNames_spec m _ _ _ _ _ EN) as (N1 & N2 & N3 & N4 & N5); [by intros y [? _]%H3|]. pose proof Hc as [W G He Wm Hin Hcl Hre].
  assert (good_marking (sc_marking base') ∧ sc_isEmpty base' = false ∧ ∃ g, gated_class scale ts env mode g base') as (G' & He' & g & W').
  { destruct B3 as [->|Hin']; [split_and!; [done|done|by eexists]|]. by apply H2 in Hin' as (_ & ? & ? & ?). }
  assert (nm_wf m' ∧ nm_within (colouredOrder f) m' ∧ nm_below (ne_next x) m') as (Wm' & Hin' & Hb').
  { destruct N3 as [->|Hm']; [done|]. by apply H3 in Hm' as (_ & ? & ? & ?). }
  assert (renamed (layer_of m) (layer_of m')) as R.
  { apply (same_rows_renamed (colouredOrder f)); try done. apply (render_inj (colouredOrder f)); [by apply rows_ok..|]. by rewrite <- !canonicalKey_render. }
  assert (classKey scale base = classKey scale base') as Ek by (unfold base_key, baseKeyOf in B2; by injection B2).
  destruct (nclass_same g base base' m Hc W' G' He' Ek) as [Hc' Hs]. split_and!; try done.
  - constructor; unfold with_tables; cbn [ne_classes ne_bases ne_names ne_index ne_next ne_labels]; try done.
    + intros y [Hy| ->]%B5; [by apply H2|]. split_and!; [done|done|done|by eexists].
    + intros y [Hy| ->]%N5; [by apply H3|]. done.
    + intros b0 k0 j (d & E1 & E2 & E3)%H4. exists d. split; [done|]. split.
      * destruct (ne_bases x !! b0) as [y|] eqn:E; [|done]. by rewrite (B4 _ _ E).
      * destruct (ne_names x !! k0) as [y|] eqn:E; [|done]. by rewrite (N4 _ _ E).
  - by apply (nclass_rename base' m).
  - by rewrite B1.
  - by rewrite N1.
Qed.

Lemma add_class_spec x cur d label base m : ne_ok x → ne_classes x !! cur = Some d → steps_into d label base m → nclass_ok base m → nm_below (ne_next x) m →
  let x' := add_class scale f stopAt cur label base m x in
  ne_ok x' ∧ ne_le x x' ∧ ne_next x' = ne_next x ∧ has_class x' cur label base m ∧ (rooted x (length (ne_classes x)) → rooted x' (length (ne_classes x'))).
Proof.
  intros Hx Ecur Hl Hc Hb. cbn zeta. unfold add_class. destruct (internBase scale base (ne_bases x)) as [[b base'] bases] eqn:EB.
  destruct (internNames f m (ne_names x)) as [[[k m'] key] names] eqn:EN.
  destruct (intern_ok x base m b base' bases k m' key names Hx Hc Hb EB EN) as (Hx1 & Hc' & Hs & R & Hb' & Eb & Ek).
  fold (with_tables x bases names). set (x1 := with_tables x bases names) in *. assert (ne_le x x1) as L1 by (by constructor).
  assert (∀ x2 j e, ne_ok x2 → ne_le x1 x2 → ne_classes x2 !! j = Some e → nc_base e = base' → nc_names e = m' →
    ne_ok (addEdge cur j label x2) ∧ ne_le x (addEdge cur j label x2) ∧ has_class (addEdge cur j label x2) cur label base m ∧
    edge_at (addEdge cur j label x2) cur j label ∧ ne_le x2 (addEdge cur j label x2)) as Hedge.
  { intros x2 j e Hx2 L2 Ej Ee Em. destruct (addEdge_ok x2 cur j d e label Hx2) as (A1 & A2 & A3 & A4); [by apply (el_classes x1)|done| |].
    { rewrite Ee, Em. apply (steps_into_rename d label base base' m m'); [|done|done]. intros s. by apply Hs. }
    split; [done|]. split; [by eapply ne_le_trans; [|done]; eapply ne_le_trans|]. split; [|done]. split; [done|]. exists j, e. split; [by apply (el_classes x2)|]. rewrite Ee, Em.
    split; [intros s; by apply Hs|done]. }
  change (ne_index x) with (ne_index x1). change (ne_classes x) with (ne_classes x1). cbn zeta. destruct (map_get (b, k) (ne_index x1)) as [j|] eqn:Ei.
  - destruct (eo_index x1 Hx1 b k j Ei) as (e & Ej & Ebd & Ekd). change (ne_bases x1) with bases in Ebd. change (ne_names x1) with names in Ekd.
    destruct (Hedge x1 j e Hx1 (ne_le_refl x1) Ej) as (A1 & A2 & A3 & _ & A5); [congruence|congruence|]. split_and!; [done|done|done|done|].
    intros Hroot j' Hj'. destruct (Hroot j' Hj') as (k' & lab & ? & ?). exists k', lab. split; [done|]. by apply (el_edges x).
  - set (e := NameStateClass base' m' key). destruct (pushClass_ok x1 e b k Hx1) as (P1 & P2 & P3); [done|done|done|done|].
    destruct (Hedge _ _ e P1 P2 P3 eq_refl eq_refl) as (A1 & A2 & A3 & A4 & _). set (x3 := addEdge _ _ _ _) in *.
    assert (rooted x (length (ne_classes x)) → rooted x3 (length (ne_classes x3))) as Hroot.
    { intros Hroot j' Hj'. unfold x3, addEdge, pushClass in Hj'. cbn [ne_classes] in Hj'. rewrite length_app in Hj'. cbn in Hj'.
      destruct (decide (j' = length (ne_classes x1))) as [->|Hne].
      - exists cur, label. split; [by eapply lookup_lt_Some|done].
      - destruct (Hroot j') as (k' & lab & ? & ?); [unfold x1, with_tables in *; cbn [ne_classes] in *; lia|]. exists k', lab. split; [done|]. by apply (el_edges x). }
    destruct (stop_test _ _) eqn:Hstop; [|by split_and!]. assert (ne_le x3 (NameExploration (ne_bases x3) (ne_names x3) (ne_index x3) (ne_classes x3) (ne_edges x3) (ne_successors x3) (ne_labels x3) (ne_next x3) true)) as L3 by (by constructor).
    split_and!; [|by eapply ne_le_trans|done|by eapply has_class_le|done].
    assert (e ∈ ne_classes x3) as He by (apply elem_of_app; right; left). destruct A1. constructor; try done. intros _. by exists e.
Qed.

(** ** Expanding a class *)

(** A loop whose steps extend the graph: each entry is done, unless the build stopped. *)
Lemma fold_extends {B} (F : name_exploration → B → result scg_error name_exploration) (inv : name_exploration → Prop) (P : B → name_exploration → Prop) (l : list B) x :
  (∀ y b, b ∈ l → inv y → ∃ y', F y b = Ok y' ∧ inv y' ∧ ne_le y y' ∧ (ne_stopped y' = false → P b y')) → (∀ b y y', ne_le y y' → P b y → P b y') → inv x →
  ∃ x', fold_result F x l = Ok x' ∧ inv x' ∧ ne_le x x' ∧ (ne_stopped x' = false → ∀ b, b ∈ l → P b x').
Proof.
  intros HF HP. revert x. induction l as [|b l IH]; intros x Hx.
  { exists x. split_and!; [done|done|apply ne_le_refl|by intros _ ? ?%not_elem_of_nil]. }
  destruct (HF x b ltac:(left) Hx) as (x1 & E1 & I1 & L1 & P1). destruct (IH (λ y b' Hb', HF y b' ltac:(by right)) x1 I1) as (x2 & E2 & I2 & L2 & P2).
  exists x2. split_and!; [|done|by eapply ne_le_trans|].
  - unfold fold_result in *. cbn [foldl res_bind]. by rewrite E1.
  - intros Hs b' [->|Hb']%elem_of_cons; [|by apply P2]. eapply HP; [exact L2|]. apply P1. by apply (el_stopped _ _ L2).
Qed.

Section Expand.
Variables (cur : nat) (d : name_state_class).
Abbreviation base := (nc_base d).
Abbreviation nms := (nc_names d).

(** The firings of [t] into [o] from the states of the class have a class, and an edge. *)
Definition covered_branch x (i : nat) t (o : outcome) : Prop :=
  ∀ s s' mb m', in_class base s → nm_wf mb → nm_wf m' → nu_fires f t o (layer_of nms) (layer_of mb) (layer_of m') → fire nms mb m' i o s s' →
    t_name t ∈ labels_of x cur ∧ ∃ j e, ne_classes x !! j = Some e ∧ in_class (nc_base e) s' ∧ renamed (layer_of m') (layer_of (nc_names e)).

Lemma covered_branch_le x x' i t o : ne_le x x' → covered_branch x i t o → covered_branch x' i t o.
Proof.
  intros L H s s' mb m' H1 H2 H3 H4 H5. destruct (H s s' mb m' H1 H2 H3 H4 H5) as (Hl & j & e & E & He). split; [by apply (el_labels x)|].
  exists j, e. split; [by apply (el_classes x)|done].
Qed.

Definition current_in x : Prop := ne_ok x ∧ ne_classes x !! cur = Some d ∧ rooted x (length (ne_classes x)).

Lemma take_step_spec x i b t os o st u : current_in x → i ∈ enabledTransitions base → ts !! i = Some t → outcomes t = Ok os → os !! b = Some o →
  step_fires f t o nms u st → nm_within (colouredOrder f) (ns_after st) → nm_below (ne_next x) (ns_after st) →
  ∃ x', take_step scale ts env mode f stopAt cur d (VirtualTransition i b o) t x st = Ok x' ∧ (current_in x' ∧ ne_next x' = ne_next x) ∧ ne_le x x' ∧
    (ne_stopped x' = false → ∀ c', computeSuccessor scale ts env mode base (VirtualTransition i b o) false (Some (named_gate ts f (step_between nms st) (ns_after st))) t = Ok c' →
       sc_isEmpty c' = false → has_class x' cur (t_name t) c' (ns_after st)).
Proof.
  intros (Hx & Ecur & Hroot) Hi Et Eos Eo Hst Hin Hb. unfold take_step. destruct (ne_stopped x) eqn:Estop.
  { exists x. split; [done|]. split; [done|]. split; [apply ne_le_refl|congruence]. }
  pose proof (eo_classes x Hx d (list_elem_of_lookup_2 _ _ _ Ecur)) as [Hd _].
  destruct (nsuccessor_ok base nms i b t os o st u Hd Hi Et Eos Eo Hst Hin) as (c' & E & Hok & _ & Hback). fold (step_between nms st). rewrite E. cbn [res_bind].
  destruct (sc_isEmpty c') eqn:He.
  { exists x. split; [done|]. split; [done|]. split; [apply ne_le_refl|]. intros _ c'' [= <-]. congruence. }
  specialize (Hok eq_refl). destruct (add_class_spec x cur d (t_name t) c' (ns_after st) Hx Ecur) as (A1 & A2 & A3 & A4 & A5); [|done|done|].
  { intros s' (s & s1 & s2 & Q1 & Q2 & Q3 & Q4)%Hback. exists i, t, os, o, (step_between nms st), (ns_after st), s, s1, s2.
    destruct Hst as [S F Wb Wa]. split_and!; try done; [by eapply list_elem_of_lookup_2|by exists u]. }
  eexists. split; [reflexivity|]. split; [split; [|done]; split; [done|split; [by apply (el_classes x)|by apply A5]]|]. split; [done|]. intros _ c'' [= <-] _. exact A4.
Qed.

Lemma set_next_ok x next : ne_next x <= next → current_in x → current_in (set_next next x) ∧ ne_le x (set_next next x).
Proof.
  intros Hle [[H1 H2 H3 H4 H5 H6 H7 H8] Ecur]. split; [split; [|done]|by constructor]. constructor; try done; cbn [set_next ne_classes ne_names ne_next].
  - intros e [? ?]%H1. split; [done|by eapply nm_below_le].
  - intros y (? & ? & ? & ?)%H3. split_and!; [done|done|done|by eapply nm_below_le].
Qed.

Lemma take_branch_spec x i b t os o : current_in x → i ∈ enabledTransitions base → ts !! i = Some t → outcomes t = Ok os → os !! b = Some o →
  ∃ x', take_branch scale ts env mode f stopAt cur d t x (VirtualTransition i b o) = Ok x' ∧ current_in x' ∧ ne_le x x' ∧
    (ne_stopped x' = false → covered_branch x' i t o).
Proof.
  intros Hx Hi Et Eos Eo. unfold take_branch. destruct (ne_stopped x) eqn:Estop.
  { exists x. split_and!; [done|done|apply ne_le_refl|congruence]. }
  pose proof Hx as (Hok & Ecur & Hroot). pose proof (eo_classes x Hok d (list_elem_of_lookup_2 _ _ _ Ecur)) as [Hd Hbel]. pose proof Hd as [_ _ _ Wm Hin _ _].
  assert (t ∈ ts) as Ht by (by eapply list_elem_of_lookup_2). assert (o ∈ os) as Ho by (by eapply list_elem_of_lookup_2). cbn [vt_outcome].
  destruct (net_classified ts env mode m0 f fmode carriers mints admit_matchless Hnet Hf) as [Hord _].
  destruct (nameSuccessors _ _ _ _ _) as [steps next'] eqn:Es.
  pose proof (net_steps ts env mode m0 f fmode carriers mints admit_matchless Hnet Hf t os o nms (ne_next x) steps next' Ht Eos Ho Wm Hin Hbel Es) as Hsteps.
  pose proof Hsteps as (Hle & Hsound & _). destruct (set_next_ok x next' Hle Hx) as [Hx1 L1].
  destruct (fold_extends (take_step scale ts env mode f stopAt cur d (VirtualTransition i b o) t) (λ y, current_in y ∧ ne_next y = next')
    (λ st y, ∀ c', computeSuccessor scale ts env mode base (VirtualTransition i b o) false (Some (named_gate ts f (step_between nms st) (ns_after st))) t = Ok c' →
       sc_isEmpty c' = false → has_class y cur (t_name t) c' (ns_after st)) steps (set_next next' x)) as (x' & E & [Hx' _] & L & HP).
  - intros y st Hst [Hy Hn]. destruct (Hsound st Hst) as (u & Hu & _ & Hba).
    destruct (take_step_spec y i b t os o st u Hy Hi Et Eos Eo Hu) as (y' & E & [Hy' Hn'] & L & HP); [|by rewrite Hn|].
    + by destruct (step_within f t o nms Hord (net_inputs_wf ts env mode m0 f Hnet t Ht) Hin u st Hu).
    + exists y'. split_and!; [done|done|congruence|done|done]. 
  - intros st y y' L H c' E He. eapply has_class_le; [exact L|]. by apply H.
  - done.
  - exists x'. split_and!; [exact E|done|by eapply ne_le_trans|]. intros Hs s s' mb m' Hin_s Wb W' F Hfire.
    destruct (steps_cover f t o nms (ne_next x) steps next' _ _ _ Hsteps (reflexivity _) F) as (st & u & σ & Hst & Hu & R0 & Rb & Ra).
    destruct (Hsound st Hst) as (u' & Hu' & _ & Hba). pose proof Hu as [_ _ Wsb Wsa].
    destruct (step_within f t o nms Hord (net_inputs_wf ts env mode m0 f Hnet t Ht) Hin u st Hu) as [_ Hwa].
    destruct (nsuccessor_ok base nms i b t os o st u Hd Hi Et Eos Eo Hu Hwa) as (c' & Ec & Hcok & Hfwd & _).
    assert (in_class c' s') as Hs'.
    { apply (Hfwd s); [done|]. eapply gated_fire_gate; [..|exact Hfire]; intros j; [done| |]; symmetry; apply gate_renamed; try done; by exists σ. }
    destruct (HP Hs st Hst c' Ec (in_class_full c' s' Hs')) as (Hlab & j & e & Ej & Hsub & Re). split; [done|]. exists j, e. split_and!; [done|by apply Hsub|].
    etrans; [|exact Re]. symmetry. by exists σ.
Qed.

Definition covered x (i : nat) : Prop := ∀ t os o, ts !! i = Some t → outcomes t = Ok os → o ∈ os → covered_branch x i t o.

Lemma take_transition_spec x k i : current_in x → enabledTransitions base !! k = Some i →
  ∃ x', take_transition scale ts env mode f PriorityNone stopAt cur d x k = Ok x' ∧ current_in x' ∧ ne_le x x' ∧ (ne_stopped x' = false → covered x' i).
Proof.
  intros Hx Ek. unfold take_transition. destruct (ne_stopped x) eqn:Estop; [exists x; split_and!; [done|done|apply ne_le_refl|congruence]|]. rewrite Ek.
  pose proof Hx as (Hok & Ecur & Hroot). pose proof (eo_classes x Hok d (list_elem_of_lookup_2 _ _ _ Ecur)) as [[W _ _ _ _ _ _] _].
  assert (i ∈ enabledTransitions base) as Hi by (by eapply list_elem_of_lookup_2).
  assert (i < length ts)%nat as [t Et]%lookup_lt_is_Some_2.
  { pose proof Hi as Hi'. rewrite (gc_enabled _ _ _ _ _ base W) in Hi'. unfold live_list, enabled_list in Hi'. apply list_elem_of_filter in Hi' as [_ [_ [_ ?]%elem_of_seq]%list_elem_of_filter]. lia. }
  rewrite Et. cbn zeta. destruct (net_outcomes ts env mode m0 net t) as (os & Eos & _); [by eapply list_elem_of_lookup_2|].
  unfold expandTransition. rewrite Eos. cbn [lift res_bind].
  destruct (fold_extends (take_branch scale ts env mode f stopAt cur d t) current_in (λ vt y, covered_branch y i t (vt_outcome vt)) (imap (λ b o, VirtualTransition i b o) os) x) as (x' & E & Hx' & L & HP).
  - intros y vt Hvt Hy. apply list_elem_of_lookup in Hvt as [b Eb]. rewrite list_lookup_imap in Eb. destruct (os !! b) as [o|] eqn:Eo; [|done]. injection Eb as <-.
    by apply (take_branch_spec y i b t os o).
  - intros vt y y' L. by apply covered_branch_le.
  - done.
  - exists x'. split_and!; [exact E|done|done|]. intros Hs t' os' o Et' Eos' Ho. assert (t' = t) as -> by congruence. assert (os' = os) as -> by congruence.
    apply list_elem_of_lookup in Ho as [b Eb]. apply (HP Hs (VirtualTransition i b o)). apply list_elem_of_lookup. exists b. rewrite list_lookup_imap. by rewrite Eb.
Qed.

Lemma expand_name_spec x : current_in x →
  ∃ x', expand_name_class scale ts env mode f PriorityNone stopAt cur d x = Ok x' ∧ current_in x' ∧ ne_le x x' ∧
    (ne_stopped x' = false → ∀ i, i ∈ enabledTransitions base → covered x' i).
Proof.
  intros Hx. unfold expand_name_class.
  destruct (fold_extends (take_transition scale ts env mode f PriorityNone stopAt cur d) current_in (λ k y, ∀ i, enabledTransitions base !! k = Some i → covered y i)
    (seq 0 (length (enabledTransitions base))) x) as (x' & E & Hx' & L & HP).
  - intros y k [_ Hk]%elem_of_seq Hy. destruct (lookup_lt_is_Some_2 (enabledTransitions base) k) as [i Ei]; [lia|].
    destruct (take_transition_spec y k i Hy Ei) as (y' & E & Hy' & L & HP). exists y'. split_and!; try done. intros Hs i' Ei'. assert (i' = i) as -> by congruence. by apply HP.
  - intros k y y' L H i Ei t os o Et Eos Ho. eapply covered_branch_le; [exact L|]. by apply (H i Ei t os).
  - done.
  - exists x'. split_and!; [exact E|done|done|]. intros Hs i [k Ek]%list_elem_of_lookup. apply (HP Hs k); [|done]. apply elem_of_seq. apply lookup_lt_Some in Ek. lia.
Qed.
End Expand.

(** ** The loop *)

(** The firings of the first [n] classes are in the graph. *)
Definition explored x (n : nat) : Prop :=
  ∀ k (d : name_state_class) i, (k < n)%nat → ne_classes x !! k = Some d → i ∈ enabledTransitions (nc_base d) → covered k d x i.

(** The first class holds the states a run starts in. *)
Definition has_start x : Prop :=
  ∃ d : name_state_class, ne_classes x !! 0%nat = Some d ∧ nc_names d = [] ∧
  (∀ s, start_state scale ts env mode false m0 s → in_class (nc_base d) s) ∧ ∀ s, in_class (nc_base d) s → ∃ s0, start_state scale ts env mode false m0 s0 ∧ wait [] s0 s.

(** A graph that is not complete was cut at its bound, or holds a class the build stops at. *)
Definition cut_at (maxClasses : Z) (g : name_graph) : Prop :=
  ng_complete g = false → maxClasses <= Z.of_nat (length (ng_classes g)) ∨ ∃ d, d ∈ ng_classes g ∧ stop_test stopAt d = true.

Definition graph_ok (g : name_graph) : Prop :=
  ∃ x, ne_ok x ∧ g = graph_of x (ng_complete g) (ng_expanded g) ∧ explored x (ng_expanded g) ∧ has_start x ∧
    (ng_complete g = true → ne_classes x !! ng_expanded g = None) ∧ rooted x (length (ne_classes x)).

Lemma explored_le x x' n : ne_le x x' → (n ≤ length (ne_classes x))%nat → explored x n → explored x' n.
Proof.
  intros L Hn H k d i Hk Ek Hi t os o Et Eos Ho. destruct (lookup_lt_is_Some_2 (ne_classes x) k) as [d' Ed]; [lia|].
  assert (d' = d) as -> by (apply (el_classes x x' L) in Ed; congruence). eapply covered_branch_le; [exact L|]. by apply (H k d i Hk Ed Hi t os o).
Qed.

Lemma has_start_le x x' : ne_le x x' → has_start x → has_start x'.
Proof. intros L (d & E & H). exists d. split; [by apply (el_classes x)|done]. Qed.

Lemma name_explore_spec stops maxClasses fuel x n : (Z.of_nat n <= maxClasses → maxClasses - Z.of_nat n < Z.of_nat fuel) → (0 < fuel)%nat →
  ne_ok x → explored x n → (n ≤ length (ne_classes x))%nat → has_start x → rooted x (length (ne_classes x)) →
  (∃ g, name_explore scale ts env mode f PriorityNone stopAt stops maxClasses fuel x n = Ok (Some g) ∧ graph_ok g ∧ cut_at maxClasses g) ∨
  (stops ≠ None ∧ name_explore scale ts env mode f PriorityNone stopAt stops maxClasses fuel x n = Err ScgStopped).
Proof.
  revert x n. induction fuel as [|fuel IH]; intros x n Hfuel H0 Hx Hexp Hn Hst Hroot; [lia|]. cbn [name_explore].
  destruct (ne_classes x !! n) as [d|] eqn:E.
  2:{ left. eexists. split; [reflexivity|]. split; [|done]. exists x. cbn [graph_of ng_complete ng_expanded]. by split_and!. }
  pose proof (lookup_lt_Some _ _ _ E) as Hlt. case_bool; b2p.
  { left. eexists. split; [reflexivity|]. split; [|intros _; by left]. exists x. cbn [graph_of ng_complete ng_expanded]. by split_and!. }
  destruct (match stops with Some s => _ | None => _ end) eqn:Est; [right; split; [by destruct stops|done]|].
  destruct (expand_name_spec n d x) as (x' & Ex & (Hx' & Ecur' & Hroot') & L & Hcov); [done|]. rewrite Ex. cbn [res_bind].
  pose proof (explored_le x x' n L Hn Hexp) as Hexp'. pose proof (has_start_le x x' L Hst) as Hst'. destruct (ne_stopped x') eqn:Estop.
  - left. eexists. split; [reflexivity|]. split; [|intros _; right; by apply (eo_stopped x' Hx')]. exists x'. cbn [graph_of ng_complete ng_expanded]. by split_and!.
  - apply IH; [lia|lia|done| |apply lookup_lt_Some in Ecur'; lia|done|done]. intros k e i Hk Ek Hi.
    destruct (decide (k = n)) as [->|Hne]; [|apply (Hexp' k e i); [lia|done|done]]. assert (e = d) as -> by congruence. by apply Hcov.
Qed.

(** The construction does not throw, within its bound. *)
Lemma name_build_spec stops maxClasses :
  (∃ g, name_build scale ts env mode f PriorityNone stopAt m0 maxClasses stops = Ok (Some g) ∧ graph_ok g ∧ cut_at maxClasses g) ∨
  (stops ≠ None ∧ name_build scale ts env mode f PriorityNone stopAt m0 maxClasses stops = Err ScgStopped).
Proof.
  unfold name_build. pose proof (no_mode _ _ _ _ net) as Hmode.
  assert (match mode with Arrivals _ _ => negb (bool_decide (env = [])) | _ => false end = false) as -> by (destruct mode; try done; by rewrite bool_decide_eq_true_2).
  destruct initial_nclass as (c & E & Hc & Hstart). rewrite E. cbn [res_bind]. cbn zeta.
  assert (ne_ok (start_names scale f c)) as Hx.
  { constructor; cbn [start_names ne_classes ne_bases ne_names ne_index ne_labels ne_next]; try done.
    - intros d ->%list_elem_of_singleton. split; [done|by intros ???].
    - intros y ->%list_elem_of_singleton. destruct Hc as [W G He _ _ _ _]. split_and!; [done|done|done|by eexists].
    - intros y ->%list_elem_of_singleton. split_and!; [done|apply nm_wf_nil|by intros ???|by intros ???].
    - intros b k j Ej. apply map_get_elem, list_elem_of_singleton in Ej as [= -> -> ->]. by eexists.
    - intros k j label. unfold edge_at, row_of, labels_of. cbn [ne_labels ne_successors]. destruct k as [|[]]; cbn; by intros ?%not_elem_of_nil.
    - intros k. unfold row_of, labels_of. cbn [ne_labels ne_successors]. by destruct k as [|[]]. }
  assert (has_start (start_names scale f c)) as Hst by (by eexists).
  assert (∀ x, length (ne_classes x) = 1%nat → rooted x (length (ne_classes x))) as Hroot by (intros x E1 j; lia). destruct (stop_test _ _) eqn:Hstop.
  - left. eexists. split; [reflexivity|]. split; [|intros _; right; eexists; split; [left|exact Hstop]]. exists (NameExploration (ne_bases (start_names scale f c)) (ne_names (start_names scale f c)) (ne_index (start_names scale f c))
      (ne_classes (start_names scale f c)) [] [[]] [[]] 0 true). cbn [ng_complete ng_expanded]. split_and!; [destruct Hx; constructor; try done; intros _; eexists; split; [left|exact Hstop]|done|by intros k d i ?; lia|done|done|by apply Hroot].
  - apply name_explore_spec; [lia|lia|done|by intros k d i ?; lia|cbn; lia|done|by apply Hroot].
Qed.

(** ** The graph and the runs *)

Lemma named_graph_sound g d s : graph_ok g → d ∈ ng_classes g → in_class (nc_base d) s → reach s (nc_names d).
Proof. intros (x & Hx & -> & _) Hd Hs. apply (eo_classes x Hx) in Hd as [[_ _ _ _ _ _ H] _]. by apply H. Qed.

(** On a complete graph the classes are closed under the firings of their states, up to renaming. *)
Lemma class_fires g k (d : name_state_class) s m i t os o mb m' s' : graph_ok g → (k < ng_expanded g)%nat → ng_classes g !! k = Some d →
  in_class (nc_base d) s → nm_wf m → renamed (layer_of m) (layer_of (nc_names d)) → ts !! i = Some t → outcomes t = Ok os → o ∈ os → nm_wf mb → nm_wf m' →
  nu_fires f t o (layer_of m) (layer_of mb) (layer_of m') → fire m mb m' i o s s' →
  t_name t ∈ default [] (ng_labels g !! k) ∧ ∃ e : name_state_class, e ∈ ng_classes g ∧ in_class (nc_base e) s' ∧ renamed (layer_of m') (layer_of (nc_names e)).
Proof.
  intros (x & Hx & Eg & Hexp & _) Hk Ek Hs Wm (σ & R) Et Eos Ho Wb W' F Hfire. rewrite Eg in Ek. cbn [graph_of ng_classes] in Ek.
  pose proof (eo_classes x Hx d (list_elem_of_lookup_2 _ _ _ Ek)) as [[W _ _ Wd _ _ _] _]. pose proof R as [B _].
  destruct (rename_nm_spec σ mb B Wb) as [Wb' Rb]. destruct (rename_nm_spec σ m' B W') as [Wa' Ra].
  assert (∀ j, gate ts f m j = gate ts f (nc_names d) j) as Hg by (intros j; apply gate_renamed; try done; by exists σ).
  assert (i ∈ enabledTransitions (nc_base d)) as Hi.
  { destruct Hfire as (t' & _ & Hlive & _). rewrite (gc_enabled _ _ _ _ _ _ W), elem_of_live. destruct Hs as [Hc _].
    rewrite (live_at_ext ts env mode _ _ (ts_counts s)) by done. by rewrite <- (live_at_gate ts env mode (gate ts f m)). }
  destruct (Hexp k d i Hk Ek Hi t os o Et Eos Ho s s' (rename_nm σ mb) (rename_nm σ m') Hs Wb' Wa') as (Hl & j & e & Ej & He & Re).
  - by apply (fires_transport f σ t o m mb m').
  - eapply gated_fire_gate; [..|exact Hfire]; intros j; apply gate_renamed; try done; by exists σ.
  - split; [rewrite Eg; exact Hl|]. exists e. rewrite Eg. split_and!; [by eapply list_elem_of_lookup_2|done|]. etrans; [|exact Re]. by exists σ.
Qed.

Lemma named_graph_complete g s m : graph_ok g → ng_complete g = true → reach s m →
  ∃ k d, (k < ng_expanded g)%nat ∧ ng_classes g !! k = Some d ∧ in_class (nc_base d) s ∧ renamed (layer_of m) (layer_of (nc_names d)).
Proof.
  intros Hg Hc H. assert (∀ d s m, d ∈ ng_classes g → in_class (nc_base d) s → renamed (layer_of m) (layer_of (nc_names d)) →
    ∃ k d, (k < ng_expanded g)%nat ∧ ng_classes g !! k = Some d ∧ in_class (nc_base d) s ∧ renamed (layer_of m) (layer_of (nc_names d))) as Hin.
  { intros d s0 m1 [k Ek]%list_elem_of_lookup Hs R. exists k, d. split_and!; [|done|done|done]. destruct Hg as (x & _ & Eg & _ & _ & Hend & _). specialize (Hend Hc).
    apply lookup_ge_None in Hend. apply lookup_lt_Some in Ek. rewrite Eg in Ek. cbn [graph_of ng_classes] in Ek. lia. }
  remember (NuState s m) as y eqn:Ey. revert s m Ey. induction H as [s0 Hs|s0 s1 m1 H1 IH Hw|i t os o s0 s1 m1 mb m1' H1 IH Et Eos Ho Wb W' F Hf']; intros s m Ey.
  - injection Ey as <- <-. destruct Hg as (x & _ & Eg & _ & (d & E0 & En & Hst) & _). apply (Hin d); [rewrite Eg; by eapply list_elem_of_lookup_2|by apply Hst|]. rewrite En. reflexivity.
  - injection Ey as -> ->. destruct (IH s0 m eq_refl) as (k & d & Hk & Ek & Hs & R). apply (Hin d); [by eapply list_elem_of_lookup_2| |done].
    destruct Hg as (x & Hx & Eg & _). pose proof Ek as Ek'. rewrite Eg in Ek'. pose proof (eo_classes x Hx d (list_elem_of_lookup_2 _ _ _ Ek')) as [[_ _ _ Wd _ Hcl _] _].
    apply (Hcl s0); [done|]. eapply gated_wait_gate; [|exact Hw]. intros j. apply gate_renamed; [by apply reachable_wf in H1|done|done].
  - injection Ey as -> ->. destruct (IH s0 m1 eq_refl) as (k & d & Hk & Ek & Hs & R). apply reachable_wf in H1.
    destruct (class_fires g k d s0 m1 i t os o mb m s Hg Hk Ek Hs H1 R Et Eos Ho Wb W' F Hf') as (_ & e & He & Hse & Re). by apply (Hin e).
Qed.

(** C10: A name-aware graph holds only states the timed net with names reaches, a complete one holds
    every one of them up to a permutation of the names, and the construction ends within its bound. *)
Theorem name_graph_exact maxClasses :
  (∀ stops g, name_build scale ts env mode f PriorityNone stopAt m0 maxClasses stops = Ok (Some g) →
    (∀ d s, d ∈ ng_classes g → in_class (nc_base d) s → reach s (nc_names d)) ∧
    (ng_complete g = true → ∀ s m, reach s m → ∃ d, d ∈ ng_classes g ∧ in_class (nc_base d) s ∧ renamed (layer_of m) (layer_of (nc_names d)))) ∧
  ∃ g, name_build scale ts env mode f PriorityNone stopAt m0 maxClasses None = Ok (Some g).
Proof.
  split; [|destruct (name_build_spec None maxClasses) as [(g & E & _)|[? _]]; [by exists g|done]].
  intros stops g E. destruct (name_build_spec stops maxClasses) as [(g' & E' & Hg & _)|[_ E']]; [|congruence]. assert (g' = g) as -> by congruence. split.
  - intros d s. by apply named_graph_sound.
  - intros Hc s m H. destruct (named_graph_complete g s m Hg Hc H) as (k & d & _ & Ek & ? & ?). exists d. split; [by eapply list_elem_of_lookup_2|done].
Qed.

(** ** The names account for the tokens *)

Definition zsum (l : list Z) : Z := foldr Z.add 0 l.
(** The tokens of a place the name layer knows. *)
Definition nm_total (p : jsstr) m : Z := zsum (default [] (map_get p m)).*2.

#[local] Instance zsum_proper : Proper ((≡ₚ) ==> (=)) zsum.
Proof. induction 1; unfold zsum in *; cbn in *; lia. Qed.
Lemma zsum_app l l' : zsum (l ++ l') = zsum l + zsum l'.
Proof. induction l as [|x l IH]; unfold zsum in *; cbn in *; lia. Qed.
Lemma zsum_zero {A} (g : A → Z) l : (∀ a, a ∈ l → g a = 0) → zsum (g <$> l) = 0.
Proof. induction l as [|a l IH]; intros H; [done|]. rewrite fmap_cons. cbn [zsum foldr]. fold (zsum (g <$> l)). rewrite (H a), IH; [done| |left]. intros; apply H; by right. Qed.

Lemma zsum_point {A} `{EqDecision A} (g h : A → Z) (u : A) z l : NoDup l → u ∈ l → (∀ a, h a = g a + (if decide (a = u) then z else 0)) → zsum (h <$> l) = zsum (g <$> l) + z.
Proof.
  intros Hd Hu Hh. induction l as [|a l IH]; [by apply not_elem_of_nil in Hu|]. apply NoDup_cons in Hd as [Hn Hd]. rewrite !fmap_cons. cbn [zsum foldr].
  fold (zsum (h <$> l)) (zsum (g <$> l)). rewrite Hh. apply elem_of_cons in Hu as [<-|Hu].
  - rewrite decide_True by done. assert (h <$> l = g <$> l) as ->; [|lia]. apply list_fmap_ext. intros i b Hb. rewrite Hh, decide_False; [lia|].
    intros ->. by apply list_elem_of_lookup_2 in Hb.
  - rewrite decide_False by (intros ->; done). rewrite IH by done. lia.
Qed.

(** The total over any list of symbols that holds those of the place. *)
Lemma nm_total_over p m (L : list Z) : nm_wf m → NoDup L → (∀ x : Z, countOf p x m ≠ 0 → x ∈ L) → nm_total p m = zsum ((λ x : Z, countOf p x m) <$> L).
Proof.
  intros W Hd HL. set (syms := symbolsIn p m). assert (NoDup syms) as Hs by (by apply NoDup_symbolsIn).
  assert (L ≡ₚ syms ++ filter (λ x : Z, x ∉ syms) L) as ->.
  { apply NoDup_Permutation; [done| |].
    - apply NoDup_app. split_and!; [done| |by apply NoDup_filter]. by intros x Hx [? _]%list_elem_of_filter.
    - intros x. rewrite elem_of_app, list_elem_of_filter. split; [intros Hx; destruct (decide (x ∈ syms)); [by left|by right]|]. intros [Hx|[_ ?]]; [|done].
      apply HL. by apply elem_symbolsIn in Hx. }
  rewrite fmap_app, zsum_app, (zsum_zero _ (filter _ L)).
  2:{ intros x [Hx _]%list_elem_of_filter. destruct (decide (countOf p x m = 0)) as [|Hc]; [done|]. by apply elem_symbolsIn in Hc. }
  rewrite Z.add_0_r. unfold nm_total. unfold syms, symbolsIn. destruct (map_get p m) as [l|] eqn:E; [|done]. cbn [default from_option id]. f_equal.
  destruct (wf_get p l m W E) as (_ & Hdl & _). rewrite <- list_fmap_compose. apply list_fmap_ext. intros i [x c] Ei. unfold compose. cbn [fst snd].
  rewrite countOf_get, E. cbn [default from_option id]. by rewrite (elem_map_get x c l Hdl (list_elem_of_lookup_2 _ _ _ Ei)).
Qed.

Lemma total_fires t o m mb m' p : NoDup (place_name <$> oc_places o) → nm_wf m → nm_wf mb → nm_wf m' →
  nu_fires f t o (layer_of m) (layer_of mb) (layer_of m') →
  nm_total p m' = nm_total p m - takes f t p + (if decide (p ∈ coloured_writes f o) then 1 else 0).
Proof.
  intros Hnd W Wb W' (u & S & F1 & F2). unfold layer_of in *. set (L := set_of (u :: symbolsIn p m ++ symbolsIn p mb ++ symbolsIn p m')).
  assert (NoDup L) as Hd by apply NoDup_set_of. assert (u ∈ L) as Hu by (apply elem_of_set_of; left).
  assert (∀ x : Z, countOf p x m ≠ 0 ∨ countOf p x mb ≠ 0 ∨ countOf p x m' ≠ 0 → x ∈ L) as HL.
  { intros x Hx. apply elem_of_set_of. right. rewrite !elem_of_app, !elem_symbolsIn by done. done. }
  rewrite (nm_total_over p m L), (nm_total_over p m' L) by auto.
  rewrite (zsum_point (λ x : Z, countOf p x mb) (λ x : Z, countOf p x m') u (if decide (p ∈ coloured_writes f o) then 1 else 0) L Hd Hu).
  - rewrite (zsum_point (λ x : Z, countOf p x m) (λ x : Z, countOf p x mb) u (- takes f t p) L Hd Hu); [lia|]. intros x. rewrite F1. case_decide; lia.
  - intros x. rewrite F2. destruct (decide (x = u ∧ p ∈ coloured_writes f o)) as [[-> Hp]|Hx]; [rewrite !decide_True by done; lia|].
    destruct (decide (x = u)); [rewrite decide_False by tauto|]; lia.
Qed.

Lemma elem_oc_places t os o n : outcomes t = Ok os → o ∈ os → n ∈ place_name <$> oc_places o ↔ n ∈ (λ d, place_name (od_place d)) <$> deposits o.
Proof.
  intros Eos Ho. destruct (outcomes_made t os o Eos Ho) as [mp ->]. unfold makeOutcome. cbn [deposits oc_places]. rewrite !list_elem_of_fmap. setoid_rewrite elem_of_set_of.
  setoid_rewrite list_elem_of_fmap. naive_solver.
Qed.

Lemma deposited_one drained o p : NoDup ((λ d, place_name (od_place d)) <$> deposits o) → (∀ d, d ∈ deposits o → place_name (od_place d) = p → od_deposit d = DepositTokens 1) →
  deposited drained o p = if decide (p ∈ (λ d, place_name (od_place d)) <$> deposits o) then 1 else 0.
Proof.
  unfold deposited. induction (deposits o) as [|d l IH]; intros Hd H; [done|]. rewrite fmap_cons in *. apply NoDup_cons in Hd as [Hn Hd]. cbn [total_deposit foldr].
  fold (total_deposit drained l p). rewrite IH; [|done|by intros x Hx; apply H; right]. destruct (decide (place_name (od_place d) = p)) as [Ep|Ep].
  - rewrite (H d ltac:(left) Ep). cbn [depositCount]. rewrite decide_False by (by rewrite <- Ep). rewrite decide_True by (rewrite Ep; left). done.
  - destruct (decide (p ∈ _ <$> l)) as [Hin|Hin]; [rewrite decide_True by (by right); done|]. rewrite decide_False; [done|]. by intros [?|?]%elem_of_cons.
Qed.

(** What a firing does to the count of a coloured place. *)
Lemma fired_coloured t os o (d : jsstr → Z) p : t ∈ ts → outcomes t = Ok os → o ∈ os → enabled_counts env mode t d = true → isColoured f p = true →
  fired_counts env mode t o d p = d p - takes f t p + (if decide (p ∈ coloured_writes f o) then 1 else 0).
Proof.
  intros Ht Eos Ho Hen Hc. destruct (net_counted ts env mode m0 f fmode carriers mints admit_matchless Hnet Hf t os Ht Eos) as [Htest [Hfix Hone]].
  pose proof (net_inputs_wf ts env mode m0 f Hnet t Ht) as Hin. pose proof Hc as Hcol. unfold isColoured in Hcol. apply bool_decide_eq_true in Hcol.
  assert (∀ (l : list place) n, existsb (λ q, bool_decide (place_name q ∈ nf_coloured f)) l = false → n ∈ nf_coloured f → n ∉ place_name <$> l) as Hno.
  { intros l n El Hn (q & -> & Hq)%list_elem_of_fmap. apply eq_true_false_abs with (2 := El). apply existsb_elem. exists q. split; [done|]. by apply bool_decide_eq_true. }
  unfold tests_coloured in Htest. apply orb_false_iff in Htest as [[Hres _]%orb_false_iff _].
  assert (supplied env mode p = false) as Hsup.
  { unfold supplied. rewrite bool_decide_eq_false_2; [done|]. intros He%(nn_env _ _ _ _ _ Hnet). congruence. }
  unfold fired_counts, intermediate_counts. rewrite decide_False by (by apply Hno).
  assert (removed env mode t d p = takes f t p) as ->.
  { unfold removed, takes in *. specialize (Hfix p). rewrite Hc in *. destruct (spec_of t p) as [s|] eqn:Es; [|done]. rewrite Hsup. cbn [orb from_option] in *.
    pose proof Es as [Hs Ep]%spec_of_Some. unfold enabled_counts in Hen. apply andb_true_iff in Hen as [[Hen _]%andb_true_iff _]. rewrite forallb_elem in Hen. specialize (Hen s Hs).
    unfold can_take in Hen. rewrite Ep, Hsup in Hen. b2p. rewrite (proj2 (Z.ltb_ge _ _)) by done. destruct Hin as [_ Hr]. rewrite Forall_forall in Hr. specialize (Hr s Hs).
    assert (fixedRequiredCount t p = Some (requiredCount s)) as Efix by (apply Hfix; lia). unfold fixedRequiredCount in Efix. fold (spec_of t p) in Efix. rewrite Es in Efix. by destruct s. }
  f_equal. destruct (no_built _ _ _ _ net t Ht) as (b & Hb & Hi).
  assert (NoDup ((λ d, place_name (od_place d)) <$> deposits o)) as Hnd.
  { destruct (b_output b) as [spec|] eqn:Eo.
    - destruct (outcomes_total b t spec Eo (Hi spec eq_refl) Hb) as (os' & Eos' & _ & Hn & _). assert (os' = os) as -> by congruence. by apply Hn.
    - apply build_ok in Hb as [_ ->]; [|congruence]. unfold outcomes in Eos. change (outputSpec (built b)) with (b_output b) in Eos. rewrite Eo in Eos. injection Eos as <-.
      apply list_elem_of_singleton in Ho as ->. constructor. }
  rewrite deposited_one; [|done|intros x Hx Ep; apply (Hone o x Ho Hx); by rewrite Ep].
  assert (p ∈ coloured_writes f o ↔ p ∈ (λ d, place_name (od_place d)) <$> deposits o) as Hiff.
  { unfold coloured_writes. rewrite list_elem_of_filter, (elem_oc_places t os o) by done. tauto. }
  destruct (decide (p ∈ coloured_writes f o)) as [Hp|Hp]; [rewrite decide_True by tauto|rewrite decide_False by tauto]; done.
Qed.

Lemma names_total s m p : reach s m → isColoured f p = true → nm_total p m = ts_counts s p.
Proof.
  intros H Hc. remember (NuState s m) as y eqn:Ey. revert s m Ey. induction H as [s0 Hs|s0 s1 m1 H1 IH Hw|i t os o s0 s1 m1 mb m1' H1 IH Et Eos Ho Wb W' F Hfire]; intros s m Ey.
  - injection Ey as <- <-. destruct Hs as [Hs _]. by rewrite Hs, (nn_start _ _ _ _ _ Hnet).
  - injection Ey as -> ->. rewrite (IH s0 m eq_refl). destruct Hw as (δ & _ & Hw & _). by rewrite Hw.
  - injection Ey as -> ->. assert (t ∈ ts) as Ht by (by eapply list_elem_of_lookup_2). apply reachable_wf in H1 as W1. cbn in W1.
    rewrite (total_fires t o m1 mb m p), (IH s0 m1 eq_refl); try done; [|by apply (net_writes ts env mode m0 f Hnet t os)].
    destruct Hfire as (t' & Et' & Hlive & _ & Hcnt & _). assert (t' = t) as -> by congruence. rewrite Hcnt. symmetry. apply (fired_coloured t os); try done.
    unfold live_at, enabled_at in Hlive. rewrite Et in Hlive. by apply andb_true_iff in Hlive as [? _].
Qed.

(** Names lie on coloured places alone. *)
Lemma names_within s m p (x : Z) : reach s m → countOf p x m ≠ 0 → isColoured f p = true.
Proof.
  intros H. remember (NuState s m) as y eqn:Ey. revert s m Ey. induction H as [s0 Hs|s0 s1 m1 H1 IH Hw|i t os o s0 s1 m1 mb m1' H1 IH Et Eos Ho Wb W' F Hfire]; intros s m Ey.
  - by injection Ey as <- <-.
  - injection Ey as -> ->. by apply (IH s0).
  - injection Ey as -> ->. destruct (isColoured f p) eqn:Ec; [done|]. intros Hx. destruct F as (u & _ & F1 & F2). unfold layer_of in F1, F2. specialize (F1 p x). specialize (F2 p x).
    assert (countOf p x m1 ≠ 0) as H0; [|specialize (IH s0 m1 eq_refl H0); congruence].
    rewrite (decide_False (P := x = u ∧ p ∈ coloured_writes f o)) in F2 by (unfold coloured_writes; rewrite list_elem_of_filter; intros [_ [Hc _]]; congruence).
    unfold takes in F1. rewrite Ec in F1. case_decide; lia.
Qed.

(** C32: In every state a run reaches, every name lies on coloured places, and the names of a
    coloured place account for exactly its tokens. *)
Theorem names_account s m : reach s m →
  nm_wf m ∧ (∀ p (x : Z), countOf p x m ≠ 0 → isColoured f p = true) ∧ ∀ p, isColoured f p = true → nm_total p m = ts_counts s p.
Proof.
  intros H. split; [by apply reachable_wf in H|]. split; [intros p x; by apply (names_within s)|]. intros p. by apply names_total.
Qed.
End Exact.

(** ** A concrete net: a fork names two tokens alike, a join takes two of one name *)

Definition nu_place (k : nat) (n : string) : place := Place k (js n).
Definition nu_key (p : place) : match_key unit := MatchKey p (λ _, None).
Definition nu_builders : list (builder unit) :=
  [with_outputs (OutAnd [OutPlace (nu_place 1 "a"); OutPlace (nu_place 2 "b")]) (with_inputs [InOne (nu_place 0 "start")] (builder_new (js "fork")));
   with_match [nu_key (nu_place 1 "a"); nu_key (nu_place 2 "b")] None
     (with_outputs (OutPlace (nu_place 3 "done")) (with_inputs [InOne (nu_place 1 "a"); InOne (nu_place 2 "b")] (builder_new (js "join"))))].
Definition nu_net : list (transition unit) := built <$> nu_builders.
Definition nu_initial : marking_state := MarkingState [(js "start", 2)] [(js "start", nu_place 0 "start")].
Definition nu_fragment : name_fragment :=
  match classify nu_net FragmentBase [] [js "fork"] false with Ok (Some f) => f | _ => NameFragment [] [] [] [] [] end.

Lemma nu_net_classified : classify nu_net FragmentBase [] [js "fork"] false = Ok (Some nu_fragment).
Proof. vm_compute. reflexivity. Qed.

Lemma nu_net_good : nu_net_ok nu_net [] Ignore nu_initial nu_fragment.
Proof.
  constructor.
  - by apply (checked_net_ok nu_builders).
  - assert (Forall (λ t, plain_name (t_name t) ∧ BAR ∉ t_name t) nu_net) as H; [|by rewrite Forall_forall in H].
    unfold plain_name. apply (bool_decide_unpack _). vm_compute. exact I.
  - intros t ms [->|[->|[]%not_elem_of_nil]%elem_of_cons]%elem_of_cons E; [discriminate|]. by injection E as <-.
  - by intros p ?%not_elem_of_nil.
  - intros p Hp. apply bool_decide_eq_true in Hp. apply elem_of_cons in Hp as [->|[->|[]%not_elem_of_nil]%elem_of_cons]; reflexivity.
Qed.

Definition nu_outcomes (t : transition unit) : list outcome := match outcomes t with Ok os => os | Err _ => [] end.
Definition nu_join : transition unit := default (built (builder_new [])) (nu_net !! 1%nat).
Definition nu_join_outcome : outcome := default emptyOutcome (nu_outcomes nu_join !! 0%nat).

(** Two correlated pairs: one step serves both, and the other pair is what it leaves. *)
Lemma nameSuccessors_exact_witness : ∃ st,
  let pairs := add_all [js "a"; js "b"] 1 (add_all [js "a"; js "b"] 0 []) in
  nameSuccessors (role_of nu_fragment (js "join")) pairs (oc_places nu_join_outcome) nu_fragment 2 = ([st], 2) ∧
  nu_fires nu_fragment nu_join nu_join_outcome (layer_of pairs) (layer_of (step_between pairs st)) (layer_of (ns_after st)) ∧
  ns_after st = add_all [js "a"; js "b"] 1 [].
Proof.
  set (pairs := add_all [js "a"; js "b"] 1 (add_all [js "a"; js "b"] 0 [])).
  assert (∃ st, nameSuccessors (role_of nu_fragment (js "join")) pairs (oc_places nu_join_outcome) nu_fragment 2 = ([st], 2) ∧ ns_after st = add_all [js "a"; js "b"] 1 []) as (st & E & Ea)
    by (eexists; split; vm_compute; reflexivity).
  exists st. split; [exact E|]. split; [|exact Ea].
  destruct (nameSuccessors_exact nu_net [] Ignore nu_initial nu_fragment FragmentBase [] [js "fork"] false nu_net_good nu_net_classified
    nu_join (nu_outcomes nu_join) nu_join_outcome pairs 2 [st] 2) as [H _].
  - right. left.
  - vm_compute. reflexivity.
  - left.
  - repeat (apply nm_add_wf; [|lia]). apply nm_wf_nil.
  - repeat (apply nm_add_within; [apply (bool_decide_unpack _); vm_compute; exact I|]). intros p s. by unfold countOf.
  - intros p s. unfold pairs, add_all. cbn [foldl]. rewrite !nm_add_count. intros Hne. destruct (decide (s < 2)) as [|Hs]; [done|]. destruct Hne.
    rewrite !decide_False by (intros [_ ->]; lia). reflexivity.
  - exact E.
  - apply H. left.
Defined.

Definition nu_graph : name_graph :=
  match name_build 1 nu_net [] Ignore nu_fragment PriorityNone None nu_initial 10 None with Ok (Some g) => g | _ => NameGraph [] [] [] [] false 0 false end.

(** Six classes: forks and joins of two tokens, told apart by what remains. *)
Lemma name_graph_exact_witness :
  length (ng_classes nu_graph) = 6%nat ∧ ng_complete nu_graph = true ∧
  (∀ s m, nu_reachable 1 nu_net [] Ignore nu_initial nu_fragment (NuState s m) →
    ∃ d, d ∈ ng_classes nu_graph ∧ in_class (nc_base d) s ∧ renamed (layer_of m) (layer_of (nc_names d))).
Proof.
  assert (name_build 1 nu_net [] Ignore nu_fragment PriorityNone None nu_initial 10 None = Ok (Some nu_graph)) as E by (vm_compute; reflexivity).
  split; [vm_compute; reflexivity|]. assert (ng_complete nu_graph = true) as Hc by (vm_compute; reflexivity). split; [exact Hc|].
  destruct (name_graph_exact 1 nu_net [] Ignore nu_initial nu_fragment FragmentBase [] [js "fork"] false ltac:(lia) nu_net_good nu_net_classified None 10) as [H _].
  destruct (H None nu_graph E) as [_ H']. exact (H' Hc).
Defined.

(** The state of a class is a state of a run. *)
Lemma nu_graph_states (d : name_state_class) : d ∈ ng_classes nu_graph → ∃ s, in_class (nc_base d) s ∧ nu_reachable 1 nu_net [] Ignore nu_initial nu_fragment (NuState s (nc_names d)).
Proof.
  intros Hd. destruct (name_build_spec 1 nu_net [] Ignore nu_initial nu_fragment FragmentBase [] [js "fork"] false ltac:(lia) nu_net_good nu_net_classified None None 10)
    as [(g & E & Hg & _)|[? _]]; [|done].
  assert (g = nu_graph) as -> by (unfold nu_graph; by rewrite E).
  pose proof Hg as (x & Hx & Eg & _). pose proof Hd as Hd'. rewrite Eg in Hd'. apply (eo_classes _ _ _ _ _ _ _ x Hx) in Hd' as [Hok _].
  destruct (nclass_inhabited _ _ _ _ _ _ _ _ Hok) as [s Hs]. exists s. split; [done|].
  by apply (named_graph_sound 1 nu_net [] Ignore nu_initial nu_fragment None nu_graph d s Hg).
Qed.

(** After two forks the place [a] holds two tokens, of two names. *)
Lemma names_account_witness : ∃ s m, nu_reachable 1 nu_net [] Ignore nu_initial nu_fragment (NuState s m) ∧
  nm_total (js "a") m = 2 ∧ length (symbolsIn (js "a") m) = 2%nat ∧ nm_total (js "a") m = ts_counts s (js "a").
Proof.
  destruct (ng_classes nu_graph !! 2%nat) as [d|] eqn:E; [|by vm_compute in E].
  assert (match ng_classes nu_graph !! 2%nat with Some d => nm_total (js "a") (nc_names d) = 2 ∧ length (symbolsIn (js "a") (nc_names d)) = 2%nat | None => False end) as Hd
    by (vm_compute; by split).
  rewrite E in Hd. destruct Hd as [H1 H2]. apply list_elem_of_lookup_2 in E. destruct (nu_graph_states d E) as (s & _ & H).
  exists s, (nc_names d). split; [exact H|]. split; [exact H1|]. split; [exact H2|].
  apply (names_account 1 nu_net [] Ignore nu_initial nu_fragment FragmentBase [] [js "fork"] false nu_net_good nu_net_classified s (nc_names d) H). vm_compute. reflexivity.
Defined.
