(* ===== verification/NameVerdict.v ===== *)
(** * The verdict over the name-aware graph

    [verifyViaNameScg] against the runs of the timed net with names: a proof says no run violates the
    property, a violation comes with the markings and the transitions of a run that does. *)
From S2P Require Import Prelude.
From S2P Require Import CodePoints.
From S2P Require Import Net.
From S2P Require Import Out.
From S2P Require Import OutSpec.
From S2P Require Import Transition.
From S2P Require Import PetriNet.
From S2P Require Import MarkingState.
From S2P Require Import Dbm.
From S2P Require Import DbmZone.
From S2P Require Import Outcomes.
From S2P Require Import StateClass.
From S2P Require Import ClassSteps.
From S2P Require Import ClassKeys.
From S2P Require Import GraphExact.
From S2P Require Import NameMarking.
From S2P Require Import NameFragment.
From S2P Require Import FlatNet.
From S2P Require Import SmtProperty.
From S2P Require Import ScgVerifier.
From S2P Require Import ScgExact.
From S2P Require Import NetRewrites.
From S2P Require Import NameGraph.
From S2P Require Import NameExact.
#[local] Open Scope Z_scope.

(** ** The path search

    The search of [nu_counterexamplePath] is that of [counterexamplePath] on a graph whose
    transitions are the edges, so its theory ([ScgVerifier]) applies. *)

Lemma foldl_imap {A B C} (F : C → B → C) (G : C → A → C) (h : nat → A → B) l s :
  (∀ s q a, l !! q = Some a → F s (h q a) = G s a) → foldl F s (imap h l) = foldl G s l.
Proof.
  revert h s. induction l as [|a l IH]; intros h s H; [done|]. cbn [imap foldl]. rewrite (H s 0%nat a) by done. apply IH. intros s' q b Hb. by apply (H s' (S q)).
Qed.

Section Path.
Variable g : name_graph.

Definition edges_from (k : nat) : list (nat * jsstr) := zip (default [] (ng_successors g !! k)) (default [] (ng_labels g !! k)).
(** An edge as a transition, and its label. *)
Definition edge_number (k q : nat) : nat := encode_nat (k, q).
Definition edge_name (n : nat) : jsstr := default [] (kq ← decode_nat n; snd <$> edges_from kq.1 !! kq.2).
Definition edge_graph : scg :=
  Scg (nc_base <$> ng_classes g) (imap (λ k _, imap (λ q y, (edge_number k q, [BranchEdge 0 y.1])) (edges_from k)) (ng_successors g)) (ng_complete g) (ng_expanded g).

Lemma edge_graph_rows k : outgoingBranchEdges edge_graph k = imap (λ q y, (edge_number k q, [BranchEdge 0 y.1])) (edges_from k).
Proof.
  unfold outgoingBranchEdges. cbn [edge_graph g_transitions]. rewrite list_lookup_imap. destruct (ng_successors g !! k) eqn:E; [done|].
  unfold edges_from. by rewrite E.
Qed.

Lemma edge_name_number k q y : edges_from k !! q = Some y → edge_name (edge_number k q) = y.2.
Proof. intros E. unfold edge_name, edge_number. rewrite decode_encode_nat. cbn [mbind option_bind fst snd]. by rewrite E. Qed.

Lemma visit_same k s : visit_node g k s = visit_class edge_graph edge_name k s.
Proof.
  unfold visit_node, visit_class. rewrite edge_graph_rows. symmetry. apply foldl_imap. intros s' q y Hy. cbn [fst snd foldl]. unfold visit_edge, visit_successor.
  cbn [be_target]. by rewrite (edge_name_number k q y Hy).
Qed.

Lemma nu_search_same target fuel s h : nu_search g target fuel s h = search_path edge_graph edge_name target fuel s h.
Proof.
  revert s h. induction fuel as [|fuel IH]; intros s h; [done|]. cbn [nu_search search_path]. destruct (s_queue s !! h); [|done]. case_bool; [done|]. by rewrite IH, visit_same.
Qed.

Lemma marking_same k : marking_at edge_graph k = ng_marking g k.
Proof. unfold marking_at, ng_marking. cbn [edge_graph g_classes]. rewrite list_lookup_fmap. by destruct (ng_classes g !! k). Qed.

Lemma path_same k : nu_counterexamplePath g k = counterexamplePath edge_graph edge_name k.
Proof.
  unfold nu_counterexamplePath, counterexamplePath. rewrite nu_search_same. assert (g_size edge_graph = length (ng_classes g)) as -> by (unfold g_size; apply length_fmap).
  destruct (search_path _ _ _ _ _ _) as [s|]; [|done]. cbn [mbind option_bind]. destruct (walk_back _ _ _) as [chain|]; [|done]. cbn [mbind option_bind].
  do 2 f_equal. apply list_fmap_ext. intros _ j _. by rewrite marking_same.
Qed.

Lemma edge_graph_edge k i j : edge edge_graph k i j ↔ ∃ q label, edges_from k !! q = Some (j, label) ∧ i = edge_number k q.
Proof.
  unfold edge. rewrite edge_graph_rows. split.
  - intros (es & e & Hin & He & <-). apply list_elem_of_lookup in Hin as [q Eq]. rewrite list_lookup_imap in Eq. destruct (edges_from k !! q) as [[j label]|] eqn:E; [|done].
    injection Eq as <- <-. apply list_elem_of_singleton in He as ->. by exists q, label.
  - intros (q & label & E & ->). eexists [BranchEdge 0 j], _. split; [|split; [left|done]]. apply list_elem_of_lookup. exists q. rewrite list_lookup_imap, E. done.
Qed.
End Path.

(** ** Symbols in use *)

Lemma nm_below_some m : nm_wf m → ∃ next, nm_below next m.
Proof.
  intros W. assert (∃ b, ∀ x : Z, x ∈ liveSymbols m → x < b) as [b Hb].
  { induction (liveSymbols m) as [|y l [b IH]]; [by exists 0; intros ? ?%not_elem_of_nil|]. exists (Z.max b (y + 1)). intros x [->|Hx%IH]%elem_of_cons; lia. }
  exists b. intros p x Hx. apply Hb, elem_liveSymbols; [done|]. by exists p.
Qed.

Lemma nm_total_some p m : nm_wf m → 0 < nm_total p m → ∃ u : Z, 1 <= countOf p u m.
Proof.
  intros W Ht. destruct (symbolsIn p m) as [|u l] eqn:E.
  - unfold nm_total in Ht. unfold symbolsIn in E. destruct (map_get p m) as [syms|]; [|done]. apply fmap_nil_inv in E as ->. done.
  - exists u. assert (countOf p u m ≠ 0) as H by (apply elem_symbolsIn; [done|]; rewrite E; left). pose proof (countOf_nonneg p u m W). lia.
Qed.

(** ** Runs with their traces *)

Section Verdict.
Context {V : Type}.
Variables (scale : Z) (ts : list (transition V)) (env : list jsstr) (mode : environment_mode) (m0 : marking_state) (f : name_fragment).
Variables (fmode : fragment_mode) (carriers mints : list jsstr) (admit_matchless : bool).
Hypothesis Hscale : 0 < scale.
Hypothesis Hnet : nu_net_ok ts env mode m0 f.
Hypothesis Hf : classify ts fmode carriers mints admit_matchless = Ok (Some f).
Implicit Types (m : name_marking) (s : tstate) (t : transition V).

Abbreviation net := (nn_net _ _ _ _ _ Hnet).
Abbreviation wait m := (gated_wait ts env mode (gate ts f m)).
Abbreviation fire m mb m' := (gated_fire scale ts env mode false (gate ts f m) (gate ts f mb) (gate ts f m')).
Abbreviation reach s m := (nu_reachable scale ts env mode m0 f (NuState s m)).
Abbreviation class_ok c m := (nclass_ok scale ts env mode m0 f c m).

(** A run that passes the markings of the trace and fires the transitions of that name. *)
Inductive nu_plays : list marking_state → list jsstr → nu_state → Prop :=
| play_start M s : start_state scale ts env mode false m0 s → (∀ n, count_of M n = ts_counts s n) → nu_plays [M] [] (NuState s [])
| play_wait trace names s s' m : nu_plays trace names (NuState s m) → wait m s s' → nu_plays trace names (NuState s' m)
| play_fire trace names i t os o s s' m mb m' M : nu_plays trace names (NuState s m) → ts !! i = Some t → outcomes t = Ok os → o ∈ os → nm_wf mb → nm_wf m' →
    nu_fires f t o (layer_of m) (layer_of mb) (layer_of m') → fire m mb m' i o s s' → (∀ n, count_of M n = ts_counts s' n) →
    nu_plays (trace ++ [M]) (names ++ [t_name t]) (NuState s' m').

Lemma plays_reach trace names x : nu_plays trace names x → nu_reachable scale ts env mode m0 f x.
Proof.
  induction 1 as [M s Hs HM|trace names s s' m _ IH Hw|trace names i t os o s s' m mb m' M _ IH Et Eos Ho Wb W' F Hfire HM]; [by apply nu_start|by eapply nu_wait|].
  by apply (nu_fire _ _ _ _ _ _ i t os o s s' m mb m').
Qed.

Lemma plays_last trace names x : nu_plays trace names x → ∃ M, last trace = Some M ∧ ∀ n, count_of M n = ts_counts (nu_timed x) n.
Proof.
  induction 1 as [M s _ HM|trace names s s' m _ (M & E & HM) (δ & _ & Hw & _)|trace names i t os o s s' m mb m' M _ _ _ _ _ _ _ _ _ HM].
  - by exists M.
  - exists M. split; [done|]. intros n. cbn in *. by rewrite HM, Hw.
  - exists M. by rewrite last_snoc.
Qed.

(** Traces do not tell the symbols apart. *)
Lemma plays_renamed trace names s m m2 : nu_plays trace names (NuState s m) → nm_wf m2 → renamed (layer_of m) (layer_of m2) → nu_plays trace names (NuState s m2).
Proof.
  intros H. remember (NuState s m) as x eqn:Ex. revert s m m2 Ex.
  induction H as [M s0 Hs HM|trace names s0 s1 m1 H1 IH Hw|trace names i t os o s0 s1 m1 mb m1' M H1 IH Et Eos Ho Wb W' F Hfire HM]; intros s m m2 Ex W2 R.
  - injection Ex as <- <-. assert (m2 = []) as ->; [|by apply play_start]. apply empty_layer; [done|]. destruct R as (σ & (τ & T1 & T2) & H). unfold layer_of in H. intros p x. rewrite <- (T2 x), H. done.
  - injection Ex as -> ->. apply (play_wait _ _ s0); [by apply (IH s0 m)|]. eapply gated_wait_gate; [|done]. intros i. apply gate_renamed; [by apply plays_reach, reachable_wf in H1|done|done].
  - injection Ex as -> ->. apply plays_reach, reachable_wf in H1 as W1. cbn in W1. destruct R as (σ & R). pose proof R as [B _].
    destruct (rename_nm_spec σ m1 B W1) as [Wr Rr]. destruct (rename_nm_spec σ mb B Wb) as [Wrb Rrb].
    apply (play_fire _ _ i t os o s0 s (rename_nm σ m1) (rename_nm σ mb) m2); try done.
    + apply (IH s0 m1); [done|done|by exists σ].
    + by apply (fires_transport f σ t o m1 mb m).
    + eapply gated_fire_gate; [..|exact Hfire]; intros j; apply gate_renamed; try done; by exists σ.
Qed.

Section Graph.
Variables (stopAt : option (marking_state → name_marking → bool)) (g : name_graph).
Hypothesis Hg : graph_ok scale ts env mode m0 f stopAt g.

Lemma graph_class d : d ∈ ng_classes g → class_ok (nc_base d) (nc_names d).
Proof. destruct Hg as (x & Hx & Eg & _). rewrite Eg. intros Hd. by apply (eo_classes _ _ _ _ _ _ _ x Hx) in Hd as [? _]. Qed.

Lemma graph_edge k j label : (j, label) ∈ edges_from g k →
  ∃ d e, ng_classes g !! k = Some d ∧ ng_classes g !! j = Some e ∧ steps_into scale ts env mode f d label (nc_base e) (nc_names e).
Proof. destruct Hg as (x & Hx & Eg & _). rewrite Eg. intros H. by apply (eo_edges _ _ _ _ _ _ _ x Hx) in H. Qed.

(** Every state of the last class of a path ends a run along the path. *)
Lemma path_plays ids names : head ids = Some 0%nat → length ids = S (length names) →
  (∀ j a b, ids !! j = Some a → ids !! S j = Some b → ∃ label, names !! j = Some label ∧ (b, label) ∈ edges_from g a) →
  ∀ k d s, last ids = Some k → ng_classes g !! k = Some d → in_class (nc_base d) s → nu_plays (ng_marking g <$> ids) names (NuState s (nc_names d)).
Proof.
  revert names. induction ids as [|k0 ids IH] using rev_ind; intros names Hhead Hlen Hsteps k d s Hlast Ek Hs; [done|].
  rewrite last_snoc in Hlast. injection Hlast as ->. rewrite length_app in Hlen. cbn in Hlen.
  pose proof (graph_class d (list_elem_of_lookup_2 _ _ _ Ek)) as Hd. destruct Hd as [_ _ _ Wd _ _ _].
  assert (ng_marking g k = sc_marking (nc_base d)) as Em by (unfold ng_marking; by rewrite Ek). pose proof Hs as [Hcs _].
  destruct ids as [|a ids'].
  { destruct names; [|cbn in Hlen; lia]. cbn in Hhead |- *. injection Hhead as ->. rewrite Em. destruct Hg as (x & _ & Eg & _ & (d0 & E0 & En & _ & Hback) & _).
    assert (d0 = d) as -> by (rewrite Eg in Ek; cbn in Ek; congruence). destruct (Hback s Hs) as (s0 & H0 & Hw). rewrite En. apply (play_wait _ _ s0); [|done].
    apply play_start; [done|]. intros n. destruct Hw as (δ & _ & Hw & _). by rewrite <- Hw, Hcs. }
  destruct names as [|name names' _] using rev_ind; [cbn in Hlen; lia|]. rewrite length_app in Hlen. cbn in Hlen.
  destruct (last (a :: ids')) as [b|] eqn:El; [|by apply last_None in El]. pose proof El as Eb. rewrite last_lookup in Eb. cbn [length Nat.pred] in Eb.
  destruct (Hsteps (length ids') b k) as (label & Hname & Hedge); [by apply lookup_app_l_Some|rewrite lookup_app_r by (cbn; lia); cbn; by rewrite Nat.sub_diag|].
  assert (label = name) as -> by (rewrite lookup_app_r in Hname by lia; by replace (length ids' - length names')%nat with 0%nat in Hname by lia; injection Hname).
  apply graph_edge in Hedge as (db & e & Ed & Ee & Hinto). assert (e = d) as -> by congruence.
  destruct (Hinto s Hs) as (i & t & os & o & mb & m' & s0 & s1 & s2 & Et & <- & Eos & Ho & Wb & W' & F & Hs0 & Hw1 & Hfire & Hw2 & R).
  apply (plays_renamed _ _ s m'); [|done|done]. rewrite fmap_app. cbn [fmap list_fmap]. apply (play_wait _ _ s2); [|done].
  apply (play_fire _ _ i t os o s1 s2 (nc_names db) mb m'); try done.
  - apply (play_wait _ _ s0); [|done]. apply (IH names' Hhead) with (k := b); [cbn; lia| |done|done|done]. intros j u v Hu Hv.
    pose proof (lookup_lt_Some _ _ _ Hv) as Hlt. cbn in Hlt. destruct (Hsteps j u v) as (lab & Hlab & He); [by apply lookup_app_l_Some|by apply lookup_app_l_Some|].
    exists lab. split; [|done]. by rewrite lookup_app_l in Hlab by lia.
  - intros n. rewrite Em. destruct Hw2 as (δ & _ & Hw2 & _). by rewrite <- Hw2, Hcs.
Qed.

(** The counterexample of a class is a run into it. *)
Lemma counterexample_plays k d : ng_classes g !! k = Some d →
  ∃ trace names, nu_counterexamplePath g k = Some (trace, names) ∧ ∀ s, in_class (nc_base d) s → nu_plays trace names (NuState s (nc_names d)).
Proof.
  intros Ek. assert (∀ k i j, edge (edge_graph g) k i j → (j < g_size (edge_graph g))%nat) as Hb.
  { intros k' i j (q & label & E & _)%edge_graph_edge. apply list_elem_of_lookup_2, graph_edge in E as (_ & e & _ & Ee & _). unfold g_size. cbn [edge_graph g_classes].
    rewrite length_fmap. by eapply lookup_lt_Some. }
  assert (k < length (ng_classes g))%nat as Hk by (by eapply lookup_lt_Some).
  assert (∃ n, gpath (edge_graph g) 0 n k) as [n Hn].
  { assert (rooted_graph : ∀ j, (0 < j < length (ng_classes g))%nat → ∃ k label, (k < j)%nat ∧ (j, label) ∈ edges_from g k).
    { destruct Hg as (x & _ & Eg & _ & _ & _ & Hr). rewrite Eg. exact Hr. }
    clear Ek d. induction k as [k IH] using (well_founded_induction lt_wf). destruct (decide (k = 0%nat)) as [->|Hk0]; [exists 0%nat; constructor|].
    destruct (rooted_graph k) as (k' & label & Hlt & He); [lia|]. destruct (IH k' Hlt ltac:(lia)) as [n Hn]. apply list_elem_of_lookup in He as [q Eq].
    exists (S n). eapply gp_snoc; [exact Hn|]. apply edge_graph_edge. by exists q, label. }
  destruct (counterexamplePath_spec (edge_graph g) (edge_name g) Hb ltac:(unfold g_size; cbn [edge_graph g_classes]; rewrite length_fmap; lia) k n Hn)
    as (ids & names & E & Hhead & Hlast & Hlen & Hstep & _).
  rewrite path_same, E. eexists _, names. split; [reflexivity|]. intros s Hs.
  assert (marking_at (edge_graph g) <$> ids = ng_marking g <$> ids) as -> by (apply list_fmap_ext; intros; apply marking_same).
  apply (path_plays ids names) with (k := k); [done|done| |done|done|done]. intros j a b Ha Hb'.
  destruct (Hstep j a b Ha Hb') as (i & Hi & (q & label & Eq & ->)%edge_graph_edge). exists label. rewrite Hi, (edge_name_number g a q _ Eq). split; [done|]. by eapply list_elem_of_lookup_2.
Qed.
End Graph.

(** ** Rest *)

(** Nothing is enabled: time may pass but no transition will fire. *)
Definition rests m (c : jsstr → Z) : Prop := ∀ i, live_at ts env mode (gate ts f m) c i = false.

(** A name serves every enabled transition. *)
Lemma someone_serves i t s m : reach s m → ts !! i = Some t → live_at ts env mode (gate ts f m) (ts_counts s) i = true → ∃ u, serves f t (layer_of m) u.
Proof.
  intros Hr Et Hlive. assert (t ∈ ts) as Ht by (by eapply list_elem_of_lookup_2). pose proof (reachable_wf _ _ _ _ _ _ _ Hr) as W. cbn in W.
  unfold live_at, enabled_at, gate in Hlive. rewrite Et in Hlive. cbn [from_option] in Hlive. apply andb_true_iff in Hlive as [Hen Hgate].
  pose proof (net_inputs_wf ts env mode m0 f Hnet t Ht) as Hin. destruct (net_outcomes ts env mode m0 net t Ht) as (os & Eos & _).
  destruct (net_classified ts env mode m0 f fmode carriers mints admit_matchless Hnet Hf) as [_ Hrole]. specialize (Hrole t os Ht Eos).
  assert ((∀ p, takes f t p = 0) → ∃ u, serves f t (layer_of m) u) as Hfresh.
  { intros H0. destruct (nm_below_some m W) as [next Hb]. exists next. by apply fresh_serves. }
  destruct (role_of f (t_name t)) as [| |ci relayTo|p0].
  - by apply Hfresh, Hrole.
  - by apply Hfresh, Hrole.
  - destruct Hrole as (Hm & _ & Hne & Hci & _). unfold nu_enabled in Hgate. rewrite Hm in Hgate. cbn [negb orb] in Hgate. apply existsb_elem in Hgate as (u & _ & Hu).
    rewrite forallb_elem in Hu. exists u. split.
    + intros p. unfold layer_of. destruct (decide (takes f t p = 0)) as [->|Hp]; [by apply countOf_nonneg|].
      pose proof Hp as [Hc (j & -> & Hj)%list_elem_of_fmap]%(takes_nonzero f t p Hin). specialize (Hu j Hj). rewrite Hc in Hu. rewrite (takes_spec f t j Hin Hj Hc). by apply Z.leb_le.
    + intros H0. destruct ci as [|[p z] ci]; [done|]. destruct (proj1 (Hci p z) ltac:(left)) as [<- Hz]. by rewrite H0 in Hz.
  - destruct Hrole as [_ H0]. assert (takes f t p0 ≠ 0) as Hp by (rewrite H0, decide_True by done; lia).
    apply (takes_nonzero f t p0 Hin) in Hp as [Hc (j & Ej & Hj)%list_elem_of_fmap]. unfold enabled_counts in Hen. apply andb_true_iff in Hen as [[Hen _]%andb_true_iff _].
    rewrite forallb_elem in Hen. specialize (Hen j Hj). unfold can_take, supplied in Hen. rewrite <- Ej in Hen.
    rewrite bool_decide_eq_false_2 in Hen by (intros He%(nn_env _ _ _ _ _ Hnet); congruence). cbn [orb] in Hen. apply Z.leb_le in Hen.
    rewrite <- (names_total scale ts env mode m0 f fmode carriers mints admit_matchless Hnet Hf s m p0 Hr Hc) in Hen.
    assert (1 <= requiredCount j) as Hj1 by (destruct Hin as [_ Hin]; rewrite Forall_forall in Hin; by apply Hin in Hj).
    destruct (nm_total_some p0 m W ltac:(lia)) as [u Hu]. exists u. split; [|intros H1; specialize (H1 p0); rewrite H0, decide_True in H1 by done; lia].
    intros p. unfold layer_of. rewrite H0. case_decide as E; [subst p; lia|by apply countOf_nonneg].
Qed.

(** While a transition is enabled, one fires after a wait. *)
Lemma live_fires c m s i : class_ok c m → in_class c s → live_at ts env mode (gate ts f m) (ts_counts s) i = true →
  ∃ j t os o mb m' s1 s2, ts !! j = Some t ∧ outcomes t = Ok os ∧ o ∈ os ∧ nm_wf mb ∧ nm_wf m' ∧ nu_fires f t o (layer_of m) (layer_of mb) (layer_of m') ∧
    wait m s s1 ∧ fire m mb m' j o s1 s2.
Proof.
  intros Hc Hs Hi. pose proof Hc as [W _ _ Wm Hwithin _ Hreach]. pose proof Hs as [Hcs _].
  assert (∀ j, j ∈ live_list ts env mode (gate ts f m) (ts_counts s) ↔ live_at ts env mode (gate ts f m) (ts_counts s) j = true) as Hlist by (intros; apply elem_of_live).
  apply Hlist in Hi. destruct (live_list ts env mode (gate ts f m) (ts_counts s)) as [|j0 l] eqn:El; [by apply not_elem_of_nil in Hi|].
  destruct (minimum_cons_Fin (to_fire s j0) (to_fire s <$> l)) as (δ & _ & Hδ & Hmin). rewrite <- fmap_cons in Hδ, Hmin. apply list_elem_of_fmap in Hδ as (j & -> & Hj).
  apply Hlist in Hj. assert (Hj' := Hj). unfold live_at, enabled_at in Hj'. destruct (ts !! j) as [t|] eqn:Et; [|done]. clear Hj'. assert (t ∈ ts) as Ht by (by eapply list_elem_of_lookup_2).
  destruct (net_outcomes ts env mode m0 net t Ht) as (os & Eos & _). destruct os as [|o os'] eqn:Eo; [by destruct (outcomes_inhabited t [] Eos)|]. rewrite <- Eo in Eos.
  assert (o ∈ os) as Ho by (rewrite Eo; left). destruct (someone_serves j t s m (Hreach s Hs) Et Hj) as [u Hu]. destruct (nm_below_some m Wm) as [next Hb].
  destruct (nameSuccessors (role_of f (t_name t)) m (oc_places o) f next) as [steps next'] eqn:Es.
  destruct (net_steps ts env mode m0 f fmode carriers mints admit_matchless Hnet Hf t os o m next steps next' Ht Eos Ho Wm Hwithin Hb Es) as (_ & _ & Hcover).
  destruct (Hcover u Hu) as (st & v & _ & _ & [S F Wb Wa]). set (mb := step_between m st) in *. set (m' := ns_after st) in *.
  set (s1 := TState (ts_counts s) (λ k, to_fire s k - to_fire s j)).
  set (s2 := TState (fired_counts env mode t o (ts_counts s)) (λ k, if gated_persists ts env mode (gate ts f m) (gate ts f mb) (ts_counts s) j k then to_fire s1 k else lower_at scale ts false k)).
  exists j, t, os, o, mb, m', s1, s2. split_and!; try done; [by exists v| |].
  - exists (to_fire s j). split; [by apply (class_nonneg scale ts env mode m0 f c m)|]. split; [done|]. intros k Hk. split; [|done]. apply Hmin. apply list_elem_of_fmap_2. by apply Hlist.
  - exists t. split_and!; [done|done|cbn; lia|done|]. intros k _. cbn [s2 to_fire]. change (ts_counts s1) with (ts_counts s). destruct (gated_persists _ _ _ _ _ _ _ _); [done|].
    apply (interval_inhabited scale ts env mode false m0 Hscale net).
Qed.

(** A class whose transitions are in the graph has no edge exactly when its states rest. *)
Lemma class_rests stopAt g k d s : graph_ok scale ts env mode m0 f stopAt g → (k < ng_expanded g)%nat → ng_classes g !! k = Some d → in_class (nc_base d) s →
  default [] (ng_labels g !! k) = [] ↔ rests (nc_names d) (ts_counts s).
Proof.
  intros Hg Hk Ek Hs. pose proof (graph_class stopAt g Hg d (list_elem_of_lookup_2 _ _ _ Ek)) as Hd. pose proof Hd as [_ _ _ Wd _ _ _]. split.
  - intros E i. destruct (live_at ts env mode (gate ts f (nc_names d)) (ts_counts s) i) eqn:Hi; [|done].
    destruct (live_fires (nc_base d) (nc_names d) s i Hd Hs Hi) as (j & t & os & o & mb & m' & s1 & s2 & Et & Eos & Ho & Wb & W' & F & Hw & Hfire).
    assert (in_class (nc_base d) s1) as Hs1 by (by apply (no_closed _ _ _ _ _ _ _ _ Hd s)).
    destruct (class_fires scale ts env mode m0 f stopAt g k d s1 (nc_names d) j t os o mb m' s2 Hg Hk Ek Hs1 Wd (reflexivity _) Et Eos Ho Wb W' F Hfire) as [Hl _].
    rewrite E in Hl. by apply not_elem_of_nil in Hl.
  - intros Hr. destruct (default [] (ng_labels g !! k)) as [|label l] eqn:El; [done|]. exfalso.
    assert (∃ j, (j, label) ∈ edges_from g k) as [j He].
    { destruct Hg as (x & Hx & Eg & _). pose proof (eo_rows _ _ _ _ _ _ _ x Hx k) as Hlen. unfold row_of, labels_of in Hlen. unfold edges_from. rewrite Eg in El |- *. cbn [graph_of ng_labels ng_successors] in *.
      rewrite El in Hlen |- *. destruct (default [] (ne_successors x !! k)) as [|j r]; [done|]. exists j. left. }
    destruct (graph_edge stopAt g Hg k j label He) as (d' & e & Ed & Ee & Hinto). assert (d' = d) as -> by congruence.
    destruct (nclass_inhabited _ _ _ _ _ _ _ _ (graph_class stopAt g Hg e (list_elem_of_lookup_2 _ _ _ Ee))) as [s' Hs'].
    destruct (Hinto s' Hs') as (i & t & os & o & mb & m' & s0 & s1 & s2 & Et & _ & _ & _ & _ & _ & _ & [Hc0 _] & (δ & _ & Hw & _) & (t' & _ & Hlive & _) & _).
    rewrite (live_at_ext ts env mode _ _ (ts_counts s)) in Hlive; [by rewrite Hr in Hlive|]. intros n. destruct Hs as [Hc _]. by rewrite Hw, <- Hc0, <- Hc.
Qed.

(** ** What violates a property *)

(** Two of the places hold tokens of different names, or one does. *)
Definition misaligned (ps : list place) m : Prop :=
  ∃ p q (x y : Z), p ∈ place_name <$> ps ∧ q ∈ place_name <$> ps ∧ countOf p x m ≠ 0 ∧ countOf q y m ≠ 0 ∧ x ≠ y.

(** The contract of the route: the counts and the names violate the property. *)
Definition nu_violates (prop : smt_property) (sinks : list place) (cond : list conditional_sinks) m (c : jsstr → Z) : Prop :=
  match prop with
  | NameAligned ps => misaligned ps m
  | QuiescentNameAligned ps => rests m c ∧ misaligned ps m
  | _ => violates prop sinks cond c (rests m c)
  end.

Lemma misaligned_spec ps m : nm_wf m → negb (aligned (place_name <$> ps) m) = true ↔ misaligned ps m.
Proof.
  intros W. rewrite negb_true_iff, <- not_true_iff_false, aligned_spec. unfold misaligned. split.
  - intros H. destruct (decide (Exists (λ p, Exists (λ q, Exists (λ x, Exists (λ y, x ≠ y) (symbolsIn q m)) (symbolsIn p m)) (place_name <$> ps)) (place_name <$> ps))) as [He|He].
    + apply Exists_exists in He as (p & Hp & (q & Hq & (x & Hx & (y & Hy & Hne)%Exists_exists)%Exists_exists)%Exists_exists).
      exists p, q, x, y. rewrite elem_symbolsIn in Hx, Hy by done. done.
    + destruct H. intros p q x y Hp Hq Hx Hy. destruct (decide (x = y)) as [|Hne]; [done|]. destruct He. apply Exists_exists; exists p; split; [done|]. apply Exists_exists; exists q; split; [done|]. apply Exists_exists; exists x; split; [done|]. apply Exists_exists; by exists y.
  - intros (p & q & x & y & Hp & Hq & Hx & Hy & Hne) H. apply Hne, (H p q); [done|done|by apply elem_symbolsIn|by apply elem_symbolsIn].
Qed.

Lemma misaligned_renamed ps m m' : renamed (layer_of m) (layer_of m') → misaligned ps m → misaligned ps m'.
Proof.
  intros (σ & B & H) (p & q & x & y & Hp & Hq & Hx & Hy & Hne). unfold layer_of in H. exists p, q, (σ x), (σ y). rewrite !H. split_and!; try done. by intros ?%bijective_inj.
Qed.

Lemma rests_ext m m' (c c' : jsstr → Z) : nm_wf m → nm_wf m' → renamed (layer_of m) (layer_of m') → (∀ n, c n = c' n) → rests m c ↔ rests m' c'.
Proof.
  intros W W' R E. unfold rests. assert (∀ i, live_at ts env mode (gate ts f m) c i = live_at ts env mode (gate ts f m') c' i) as H.
  { intros i. rewrite (live_at_ext ts env mode _ c c') by done. apply live_at_gate. intros j. by apply gate_renamed. }
  by setoid_rewrite H.
Qed.

(** The contract reads the counts and the partition by names, not the symbols. *)
Lemma nu_violates_ext prop sinks cond m m' (c c' : jsstr → Z) : nm_wf m → nm_wf m' → renamed (layer_of m) (layer_of m') → (∀ n, c n = c' n) →
  nu_violates prop sinks cond m c ↔ nu_violates prop sinks cond m' c'.
Proof.
  intros W W' R E. pose proof (rests_ext m m' c c' W W' R E) as Hr.
  assert (∀ ps, misaligned ps m ↔ misaligned ps m') as Hm by (intros ps; split; apply misaligned_renamed; [done|by symmetry]).
  destruct prop; cbn [nu_violates]; first [by apply violates_ext|by rewrite Hm|by rewrite Hr, Hm].
Qed.

(** ** The decision *)

Lemma first_where_none {E} (pred : nat → result E bool) l : first_where pred l = Ok None → ∀ i, i ∈ l → pred i = Ok false.
Proof.
  induction l as [|j l IH]; cbn [first_where]; intros H i; [by intros ?%not_elem_of_nil|]. destruct (pred j) as [[]|] eqn:E1; cbn [res_bind] in H; try done.
  intros [->|Hi]%elem_of_cons; [done|by apply IH].
Qed.

(** What the code tests of class [k]. *)
Definition class_bad g (prop : smt_property) (sinks : list place) (cond : list conditional_sinks) (k : nat) : Prop :=
  match prop with
  | NameAligned ps => misaligned ps (ng_names g k)
  | QuiescentNameAligned ps => nu_quiescent g [] k = true ∧ misaligned ps (ng_names g k)
  | _ => violates prop sinks cond (count_of (ng_marking g k)) (nu_quiescent g [] k = true)
  end.

Definition picks (n : nat) (bad : nat → Prop) (r : option nat) : Prop :=
  match r with Some k => (k < n)%nat ∧ bad k | None => ∀ k, (k < n)%nat → ¬ bad k end.

Lemma first_where_picks {E} (pred : nat → result E bool) (b : nat → bool) (bad : nat → Prop) n : (∀ k, pred k = Ok (b k)) → (∀ k, (k < n)%nat → b k = true ↔ bad k) →
  ∃ r, first_where pred (seq 0 n) = Ok r ∧ picks n bad r.
Proof.
  intros Hp Hb. destruct (first_where_spec pred b n ltac:(by intros)) as (r & E0 & Hr). exists r. split; [done|]. destruct r as [k|]; cbn [picks].
  - destruct Hr as (Hk & Hbk & _). split; [done|]. by apply Hb.
  - intros k Hk Hbk%Hb; [|done]. by rewrite Hr in Hbk.
Qed.

Lemma nu_decide_picks g prop sinks cond : (∀ k, (k < length (ng_classes g))%nat → nm_wf (ng_names g k) ∧ ms_wf (ng_marking g k)) →
  ∃ r, nu_decide g prop sinks cond [] = Ok r ∧ picks (length (ng_classes g)) (class_bad g prop sinks cond) r.
Proof.
  intros Hwf. destruct (isNameAlignment prop) eqn:Hna.
  - unfold nu_decide, decideOverClasses. rewrite Hna, bool_decide_eq_false_2 by done. cbn [andb throw_if res_bind namesOf view_quiescent view_count].
    destruct prop as [| | | | | | | |ps|ps]; try done; cbn [safetyViolation].
    + apply (first_where_picks _ (λ k, negb (aligned (place_name <$> ps) (ng_names g k)))); [done|]. intros k Hk. apply misaligned_spec, Hwf, Hk.
    + apply (first_where_picks _ (λ k, nu_quiescent g [] k && negb (aligned (place_name <$> ps) (ng_names g k)))); [intros k; by destruct (nu_quiescent g [] k)|].
      intros k Hk. rewrite andb_true_iff. cbn [class_bad]. by rewrite misaligned_spec by apply Hwf, Hk.
  - set (view := ClassView (length (ng_classes g)) (ng_marking g) (nu_quiescent g []) (Some (ng_names g))).
    destruct (decide_spec view prop sinks cond Hna) as (r & E & Hr); [intros k Hk; apply Hwf, Hk|]. exists r. split; [exact E|]. cbn [view_count markingOf view_quiescent view] in Hr.
    assert (∀ k, class_bad g prop sinks cond k ↔ violates prop sinks cond (count_of (ng_marking g k)) (nu_quiescent g [] k = true)) as Hb by (intros k; by destruct prop).
    destruct r as [k|]; cbn [picks]; [destruct Hr as (? & ? & _); split; [done|by apply Hb]|]. intros k Hk Hbk%Hb. by apply (Hr k).
Qed.

(** No class passes the test the build stops at when none is picked. *)
Lemma none_stops g prop sinks cond d : nu_decide g prop sinks cond [] = Ok None → d ∈ ng_classes g → stop_test (stop_predicate prop) d = false.
Proof.
  intros E [k Ek]%list_elem_of_lookup. assert (k ∈ seq 0 (length (ng_classes g))) as Hk by (apply elem_of_seq; apply lookup_lt_Some in Ek; lia).
  unfold stop_test, stop_predicate. unfold nu_decide, decideOverClasses in E. cbn [namesOf view_quiescent view_count markingOf] in E.
  rewrite (bool_decide_eq_false_2 (Some (ng_names g) = None)), andb_false_r in E by done. cbn [throw_if res_bind] in E.
  destruct (safetyViolation prop) as [viol|]; [|done]. cbn [fmap option_fmap option_map] in E |- *. pose proof (first_where_none _ _ E k Hk) as Hv. cbn beta in Hv.
  unfold ng_marking, ng_names in Hv. rewrite Ek in Hv. cbn [from_option] in Hv. by rewrite Hv.
Qed.

(** Rest of a class, and its test, against the states it holds. *)
Lemma quiescent_rests stopAt g k d s : graph_ok scale ts env mode m0 f stopAt g → ng_classes g !! k = Some d → in_class (nc_base d) s →
  (nu_quiescent g [] k = true → rests (nc_names d) (ts_counts s)) ∧ ((k < ng_expanded g)%nat → rests (nc_names d) (ts_counts s) → nu_quiescent g [] k = true).
Proof.
  intros Hg Ek Hs. assert (nu_quiescent g [] k = true ↔ (k < ng_expanded g)%nat ∧ default [] (ng_labels g !! k) = []) as ->.
  { unfold nu_quiescent. rewrite andb_true_iff, Nat.ltb_lt. destruct (default [] (ng_labels g !! k)) as [|label l]; cbn; naive_solver. }
  split; [intros [Hk El]; by apply (class_rests stopAt g k d s)|]. intros Hk Hr. split; [done|]. by apply (class_rests stopAt g k d s).
Qed.

Lemma class_bad_spec stopAt g k d s prop sinks cond : graph_ok scale ts env mode m0 f stopAt g → ng_classes g !! k = Some d → in_class (nc_base d) s →
  (class_bad g prop sinks cond k → nu_violates prop sinks cond (nc_names d) (ts_counts s)) ∧
  ((k < ng_expanded g)%nat → nu_violates prop sinks cond (nc_names d) (ts_counts s) → class_bad g prop sinks cond k).
Proof.
  intros Hg Ek Hs. destruct (quiescent_rests stopAt g k d s Hg Ek Hs) as [Hq1 Hq2].
  assert (ng_names g k = nc_names d) as En by (unfold ng_names; by rewrite Ek).
  assert (∀ n, count_of (ng_marking g k) n = ts_counts s n) as Hc by (destruct Hs as [Hc _]; unfold ng_marking; by rewrite Ek).
  unfold class_bad. rewrite En. split; [|intros Hk; specialize (Hq2 Hk)]; destruct prop; cbn [nu_violates]; try tauto; intros Hv.
  all: eapply violates_ext; [|reflexivity|]; [first [symmetry; apply Hc|apply Hc]|by eapply violates_mono].
Qed.

(** The decision over a graph of the construction. *)
Lemma nu_decide_spec stopAt g prop sinks cond : graph_ok scale ts env mode m0 f stopAt g →
  ∃ r, nu_decide g prop sinks cond [] = Ok r ∧
  match r with
  | Some k => ∃ d, ng_classes g !! k = Some d ∧ ∀ s, in_class (nc_base d) s → nu_violates prop sinks cond (nc_names d) (ts_counts s)
  | None => (∀ k d s, (k < ng_expanded g)%nat → ng_classes g !! k = Some d → in_class (nc_base d) s → ¬ nu_violates prop sinks cond (nc_names d) (ts_counts s)) ∧
      ∀ d, d ∈ ng_classes g → stop_test (stop_predicate prop) d = false
  end.
Proof.
  intros Hg. destruct (nu_decide_picks g prop sinks cond) as (r & E & Hr).
  { intros k [d Ek]%lookup_lt_is_Some_2. destruct (graph_class stopAt g Hg d (list_elem_of_lookup_2 _ _ _ Ek)) as [W _ _ Wm _ _ _].
    unfold ng_names, ng_marking. rewrite Ek. split; [done|apply W]. }
  exists r. split; [done|]. destruct r as [k|]; cbn [picks] in Hr.
  - destruct Hr as [[d Ek]%lookup_lt_is_Some_2 Hb]. exists d. split; [done|]. intros s Hs. by apply (class_bad_spec stopAt g k d s).
  - split; [|intros d; by apply (none_stops g prop sinks cond)]. intros k d s Hk Ek Hs Hv. apply (Hr k); [by eapply lookup_lt_Some|]. by apply (class_bad_spec stopAt g k d s).
Qed.
End Verdict.

(** ** The verdict *)

Definition aligned_places (prop : smt_property) : list place := match prop with NameAligned ps | QuiescentNameAligned ps => ps | _ => [] end.

Lemma aligned_refused f mode m0 prop r :
  match prop with NameAligned ps | QuiescentNameAligned ps => nameAlignmentRefusal ps f mode m0 | _ => None end = Some r →
  (∃ p, r = NotColoured (place_name p) mode ∧ p ∈ aligned_places prop ∧ isColoured f (place_name p) = false) ∨
  ∃ n, r = InitiallyMarked n ∧ isColoured f n = true ∧ n ∈ place_name <$> placesWithTokens m0.
Proof.
  assert (∀ ps, nameAlignmentRefusal ps f mode m0 = Some r → (∃ p, r = NotColoured (place_name p) mode ∧ p ∈ ps ∧ isColoured f (place_name p) = false) ∨
    ∃ n, r = InitiallyMarked n ∧ isColoured f n = true ∧ n ∈ place_name <$> placesWithTokens m0) as H.
  { intros ps. unfold nameAlignmentRefusal, js_find. destruct (list_find _ ps) as [[i p]|] eqn:E; cbn [mbind option_bind].
    - intros [= <-]. left. apply list_find_Some in E as (E & Hp & _). exists p. split_and!; [done|by eapply list_elem_of_lookup_2|by destruct (isColoured _ _)].
    - destruct (sortNames _) as [|n l] eqn:Es; [done|]. intros [= <-]. right. exists n. split; [done|]. assert (n ∈ sortNames (filter (λ n, isColoured f n = true) (place_name <$> placesWithTokens m0))) as Hn by (rewrite Es; left).
      rewrite sortNames_Permutation, list_elem_of_filter in Hn. done. }
  destruct prop; try done; apply H.
Qed.

(** With nothing to reap and no bound to lift the route decides the net as it is. *)
Lemma route_plain {V} scale (net : petri_net V) env mode m0 prop sinks cond maxClasses fmode carriers mints semantics stops reapable late :
  (∀ t, t ∈ net_transitions net → t_name t ∉ reapable ∧ (t_name t ∈ late → hasLatestBound (t_timing t) = false)) →
  verifyViaNameScg scale net m0 prop sinks env mode maxClasses fmode carriers mints semantics cond stops reapable late =
  verifyNameScg scale net m0 prop sinks env mode maxClasses fmode carriers mints semantics cond stops [].
Proof.
  intros H. unfold verifyViaNameScg. set (reap := set_of _). set (lifted := set_of _).
  assert (reap = []) as ->.
  { apply elem_of_nil_inv. intros n [Hn (t & -> & Ht)%list_elem_of_fmap]%elem_of_set_of%list_elem_of_filter. by apply (H t). }
  assert (lifted = []) as ->; [|done].
  apply elem_of_nil_inv. intros n (t & -> & [Hl Ht]%list_elem_of_filter)%elem_of_set_of%list_elem_of_fmap. apply andb_true_iff in Hl as [Hl Hb]. b2p.
  destruct (H t Ht) as [_ Hn]. rewrite Hn in Hb; done.
Qed.

(** What the route needs of a net of built transitions. *)
Record nu_route_ok {V} (ts : list (transition V)) (env : list jsstr) (mode : environment_mode) (m0 : marking_state) : Prop := {
  nr_net : scg_net_ok ts env mode m0;
  nr_plain : ∀ t, t ∈ ts → plain_name (t_name t) ∧ BAR ∉ t_name t;
  nr_keys : ∀ t ms, t ∈ ts → t_matchSpec t = Some ms → ms_keys ms ≠ []
}.

(** A coloured place holds a token at the start. *)
Definition coloured_start (f : name_fragment) (m0 : marking_state) : Prop := ∃ n, isColoured f n = true ∧ 0 < count_of m0 n.

Lemma coloured_start_marked f m0 : ms_wf m0 → coloured_start f m0 ↔ existsb (λ p, isColoured f (place_name p)) (placesWithTokens m0) = true.
Proof.
  intros W. rewrite existsb_elem. split.
  - intros (n & Hc & Hn). apply marked_place in Hn as (p & -> & Hp)%list_elem_of_fmap; [|done]. by exists p.
  - intros (p & Hp & Hc). exists (place_name p). split; [done|]. apply marked_place; [done|]. by apply list_elem_of_fmap_2.
Qed.

(** When alignment is not refused, no coloured place is marked. *)
Lemma alignment_refused f mode m0 ps : nameAlignmentRefusal ps f mode m0 = None → coloured_start f m0 → ms_wf m0 → False.
Proof.
  unfold nameAlignmentRefusal. destruct (js_find _ ps); [done|]. destruct (sortNames _) as [|n l] eqn:Es; [|done]. intros _ (n & Hc & Hn) W.
  assert (n ∈ sortNames (filter (λ n, isColoured f n = true) (place_name <$> placesWithTokens m0))) as H; [|rewrite Es in H; by apply not_elem_of_nil in H].
  rewrite sortNames_Permutation, list_elem_of_filter. split; [done|]. by apply marked_place.
Qed.

Lemma refused_alignment f mode m0 prop r :
  match prop with NameAligned ps | QuiescentNameAligned ps => nameAlignmentRefusal ps f mode m0 | _ => None end = Some r → isNameAlignment prop = true.
Proof. by destruct prop. Qed.
Lemma unrefused_alignment f mode m0 prop : ms_wf m0 →
  match prop with NameAligned ps | QuiescentNameAligned ps => nameAlignmentRefusal ps f mode m0 | _ => None end = None →
  coloured_start f m0 → isNameAlignment prop = false.
Proof. intros W. destruct prop; try done; intros E Hs; destruct (alignment_refused f mode m0 _ E Hs W). Qed.

(** C9: On a net of built transitions none of which is reaped or relaxed, without priority pruning
    or a deadline, the name-aware route always answers, within its bound. It answers null exactly
    when the net is outside the fragment the classification admits, or a coloured place holds a
    token at the start and the property is none of alignment. Otherwise a proof says no run of the
    timed net with names violates the property; a violation comes with the markings and the
    transitions of a run into a state that does; and it is undecided only when the graph is cut at
    its bound, when the property aligns a place that carries no names, or when it aligns names and
    a coloured place holds a token at the start. Coloured places must not be fed by the
    environment. *)
Theorem name_verdict_exact {V} scale (net : petri_net V) env mode m0 prop sinks cond maxClasses fmode carriers mints reapable late : 0 < scale →
  (∀ t, t ∈ net_transitions net → t_name t ∉ reapable ∧ (t_name t ∈ late → hasLatestBound (t_timing t) = false)) →
  nu_route_ok (net_transitions net) env mode m0 →
  let admitted := classify (net_transitions net) fmode carriers mints (isNameAlignment prop) in
  (∀ f p, admitted = Ok (Some f) → p ∈ env → isColoured f p = false) →
  ∃ answer, verifyViaNameScg scale net m0 prop sinks env mode maxClasses fmode carriers mints PriorityNone cond None reapable late = Ok answer ∧
  match answer with
  | None => admitted = Ok None ∨ ∃ f, admitted = Ok (Some f) ∧ coloured_start f m0 ∧ isNameAlignment prop = false
  | Some None => False
  | Some (Some out) => ∃ f, admitted = Ok (Some f) ∧
      match nu_verdict_of out with
      | NuProven => ¬ coloured_start f m0 ∧ ∀ s m, nu_reachable scale (net_transitions net) env mode m0 f (NuState s m) →
          ¬ nu_violates (net_transitions net) env mode f prop sinks cond m (ts_counts s)
      | NuViolated => ¬ coloured_start f m0 ∧
          ∃ s m, nu_plays scale (net_transitions net) env mode m0 f (nu_trace out) (nu_transitions out) (NuState s m) ∧
          nu_violates (net_transitions net) env mode f prop sinks cond m (ts_counts s)
      | NuUnknown (GraphTruncated n) => ¬ coloured_start f m0 ∧ n = maxClasses ∧ maxClasses <= Z.of_nat (nu_classCount out)
      | NuUnknown (NotColoured p _) => isColoured f p = false ∧ p ∈ place_name <$> aligned_places prop
      | NuUnknown (InitiallyMarked n) => isNameAlignment prop = true ∧ isColoured f n = true ∧ 0 < count_of m0 n
      end
  end.
Proof.
  intros Hscale Hlate Hbase. cbn zeta. intros Henv. rewrite route_plain by done. set (ts := net_transitions net) in *. unfold verifyNameScg. fold ts.
  pose proof (no_initial _ _ _ _ (nr_net _ _ _ _ Hbase)) as [W0 _].
  destruct (classify_total fmode carriers mints (isNameAlignment prop) ts) as [[f|] Hf].
  { intros t Ht. destruct (net_outcomes ts env mode m0 (nr_net _ _ _ _ Hbase) t Ht) as (os & E & _). by exists os. }
  2:{ rewrite Hf. cbn [nu_lift res_bind]. exists None. split; [done|by left]. }
  specialize (Henv f). rewrite Hf in *. cbn [nu_lift res_bind].
  destruct (match prop with NameAligned ps | QuiescentNameAligned ps => _ | _ => None end) as [r|] eqn:Er.
  { eexists. split; [reflexivity|]. cbv match. exists f. split; [done|]. cbn [nu_verdict_of].
    pose proof (refused_alignment f fmode m0 prop r Er) as Hal. apply aligned_refused in Er as [(p & -> & Hp & Hc)|(n & -> & Hc & Hn)].
    - split; [done|by apply list_elem_of_fmap_2].
    - split_and!; [done|done|]. by apply marked_place. }
  destruct (existsb _ (placesWithTokens m0)) eqn:Em.
  { exists None. split; [done|]. right. exists f. split_and!; [done|by apply coloured_start_marked|]. by eapply unrefused_alignment; [| |apply coloured_start_marked]. }
  assert (¬ coloured_start f m0) as Hstart by (rewrite coloured_start_marked, Em; done).
  assert (nu_net_ok ts env mode m0 f) as Hnet.
  { destruct Hbase as [B1 B2 B3]. constructor; try done; [by intros; apply Henv|]. intros p Hc. pose proof (count_nonneg m0 p W0).
    destruct (decide (count_of m0 p = 0)) as [|Hz]; [done|]. destruct Hstart. exists p. split; [done|lia]. }
  destruct (name_build_spec scale ts env mode m0 f fmode carriers mints _ Hscale Hnet Hf (stop_predicate prop) None maxClasses) as [(g & E & Hg & Hcut)|[? _]]; [|done].
  rewrite E. cbn [nu_lift res_bind].
  destruct (nu_decide_spec scale ts env mode m0 f fmode carriers mints _ Hscale Hnet Hf (stop_predicate prop) g prop sinks cond Hg) as (r & Ed & Hr). rewrite Ed. cbn [nu_lift res_bind].
  destruct r as [k|].
  - destruct Hr as (d & Ek & Hv). destruct (counterexample_plays scale ts env mode m0 f (stop_predicate prop) g Hg k d Ek) as (trace & names & Ep & Hplay). rewrite Ep. cbn [mbind option_bind fst snd].
    eexists. split; [reflexivity|]. exists f. split; [done|]. cbn [nu_verdict_of nu_trace nu_transitions]. split; [done|].
    destruct (nclass_inhabited _ _ _ _ _ _ _ _ (graph_class scale ts env mode m0 f (stop_predicate prop) g Hg d (list_elem_of_lookup_2 _ _ _ Ek))) as [s Hs].
    exists s, (nc_names d). split; [by apply Hplay|by apply Hv].
  - destruct Hr as [Hnone Hstop]. destruct (ng_complete g) eqn:Ecomp; cbn [negb]; eexists; (split; [reflexivity|]); exists f; (split; [done|]); cbn [nu_verdict_of nu_classCount]; (split; [done|]).
    + intros s m Hreach Hv. destruct (named_graph_complete scale ts env mode m0 f (stop_predicate prop) g s m Hg Ecomp Hreach) as (k & d & Hk & Ek & Hs & R).
      apply (Hnone k d s Hk Ek Hs). eapply nu_violates_ext; [..|exact Hv]; [| | |done].
      * apply (graph_class scale ts env mode m0 f (stop_predicate prop) g Hg d). by eapply list_elem_of_lookup_2.
      * by apply reachable_wf in Hreach.
      * by symmetry.
    + split; [done|]. destruct (Hcut Ecomp) as [|(d & Hd & Hs)]; [done|]. by rewrite Hstop in Hs.
Qed.

(** ** The concrete net *)

Definition nu_petri : petri_net unit := PetriNet (js "pairs") [nu_place 0 "start"; nu_place 1 "a"; nu_place 2 "b"; nu_place 3 "done"] nu_net [].
Abbreviation nu_answer prop :=
  (verifyViaNameScg 1 nu_petri nu_initial prop [nu_place 3 "done"] [] Ignore 10 FragmentBase [] [js "fork"] PriorityNone [] None [] []).

Lemma nu_net_route : nu_route_ok nu_net [] Ignore nu_initial.
Proof. destruct nu_net_good as [H1 H2 H3 _ _]. by constructor. Qed.

(** Both pairs are joined in every run that ends, and two forks put two names on [a]. *)
Lemma name_verdict_exact_witness :
  (∀ s m, nu_reachable 1 nu_net [] Ignore nu_initial nu_fragment (NuState s m) →
     ¬ nu_violates nu_net [] Ignore nu_fragment DeadlockFree [nu_place 3 "done"] [] m (ts_counts s)) ∧
  ∃ trace s m, nu_plays 1 nu_net [] Ignore nu_initial nu_fragment trace [js "fork"; js "fork"] (NuState s m) ∧ misaligned [nu_place 1 "a"; nu_place 2 "b"] m.
Proof.
  split.
  - destruct (name_verdict_exact 1 nu_petri [] Ignore nu_initial DeadlockFree [nu_place 3 "done"] [] 10 FragmentBase [] [js "fork"] [] []) as (answer & E & H).
    + lia.
    + intros t _. split; [apply not_elem_of_nil|by intros ?%not_elem_of_nil].
    + exact nu_net_route.
    + by intros f p _ ?%not_elem_of_nil.
    + assert (match nu_answer DeadlockFree with Ok (Some (Some out)) => nu_verdict_of out = NuProven | _ => False end) as Ea by (vm_compute; reflexivity).
      rewrite E in Ea. destruct answer as [[out|]|]; [|destruct Ea|destruct Ea]. destruct H as (f & Ef & H). rewrite Ea in H.
      assert (f = nu_fragment) as -> by (pose proof nu_net_classified as Ec; change (classify (net_transitions nu_petri) FragmentBase [] [js "fork"] (isNameAlignment DeadlockFree)) with (classify nu_net FragmentBase [] [js "fork"] false) in Ef; congruence).
      apply H.
  - destruct (name_verdict_exact 1 nu_petri [] Ignore nu_initial (NameAligned [nu_place 1 "a"; nu_place 2 "b"]) [nu_place 3 "done"] [] 10 FragmentBase [] [js "fork"] [] []) as (answer & E & H).
    + lia.
    + intros t _. split; [apply not_elem_of_nil|by intros ?%not_elem_of_nil].
    + exact nu_net_route.
    + by intros f p _ ?%not_elem_of_nil.
    + assert (match nu_answer (NameAligned [nu_place 1 "a"; nu_place 2 "b"]) with Ok (Some (Some out)) => nu_verdict_of out = NuViolated ∧ nu_transitions out = [js "fork"; js "fork"] | _ => False end) as Ea
        by (vm_compute; split; reflexivity).
      rewrite E in Ea. destruct answer as [[out|]|]; [|destruct Ea|destruct Ea]. destruct Ea as [Ev Et], H as (f & Ef & H). rewrite Ev, Et in H.
      assert (Ok (Some f) = Ok (Some nu_fragment) :> result outcome_error _) as [= ->] by (rewrite <- Ef; vm_compute; reflexivity).
      destruct H as (_ & s & m & Hp & Hv). exists (nu_trace out), s, m. split; [exact Hp|exact Hv].
Defined.
